(* ===== verification/_CoqProject ===== *)
-Q . S2P
Prelude.v
Bytes.v
Error.v
Frame.v
Fragment.v
Varint.v
Transpose.v
Numeric.v
BitPack.v
Codec.v
Replay.v
Reliability.v
RetransmitQueue.v
Arq.v
Cipher.v
Symmetric.v
Handshake.v
Session.v
Connect.v
ConnectSafety.v
Compress.v
Reassembly.v
Tickets.v
Pmtu.v
Pipeline.v
Float.v
Timing.v
Streams.v
Control.v
Relay.v
Udp.v
Sockets.v
Transport.v
EndpointState.v
Endpoint.v
EndpointReceive.v
EndpointFrame.v
EndpointTables.v
EndpointCalls.v
EndpointAdmission.v
EndpointDispatch.v
EndpointBudget.v
Rendezvous.v
RendezvousInv.v
Connection.v
ConnectionLaws.v
ConnectionNumbers.v
ConnectionThreads.v
ConnectionLocks.v
Text.v
KeyStore.v
KeyStoreLaws.v
KeyServer.v
Echo.v
DocSnippets.v
CMemory.v
Fuzz.v
Xorshift.v
Paths.v
PathsLaws.v
Footprint.v
CInterface.v
CInterfaceLaws.v
CInterfaceRun.v
