(* ===== verification/Prelude.v ===== *)
(** * FECTP: a verification library for the FECTP transport

    FECTP is an encrypted datagram transport. Its core crate
    (crates/fectp-core, no allocator, no I/O) parses frames, runs a Noise
    handshake, seals and opens session frames, and keeps the state of a
    selective-acknowledgement reliability layer. The standard-library crate
    (crates/fectp) adds payload coding, fragmentation, path MTU discovery and
    ticket storage around it; its [Endpoint] serves many peers from one socket,
    its [Rendezvous] introduces peers behind NATs to each other and relays for
    them, and its [Connection] is one client session on one socket, shared by
    threads. The C interface (crates/ffi) hands the core to other languages, the
    bare-metal image (crates/footprint) and the fuzz targets (fuzz) exercise it.
    Around them are an example that keeps its keys in files and admits clients
    by a list (crates/fectp/examples/keys.rs), a build script that compiles the
    documentation (crates/fectp/build.rs) and the benchmarks (crates/bench).
    This library models all of these down to the socket, the file system, the
    clock and the generator, and proves the properties each part is relied on
    for.

    ** How the code is modelled

    A Rust function is a Rocq function on the same arguments. [result]
    (Prelude.v) has the two constructors of [Result] and a third, [Panic], for
    an index or slice out of range, a length mismatch in [copy_from_slice] or
    an overflowing [usize] operation, so that the absence of panics is a
    theorem and not an assumption. [let?] is the [?] operator; a method taking
    [&mut self] returns the receiver's state with its result and [let!] is
    [?] there, the state surviving an error as it does in the source. A
    mutable slice is an argument and a result. What a failed call leaves in an
    output buffer is not tracked; no caller reads it: where [Session::open] and
    [Peer::ingest] have decrypted a frame in place and then refuse it, the model
    gives the buffer back as it came. Integers are [Z] with
    their width in the well-formedness predicates and their wrapping,
    saturating or checked arithmetic written out; [usize] is 64 bits wide.
    Counted loops are [for_in]; other loops are structural on the data they
    consume or on a count that bounds them exactly, so no fuel runs out. The
    loops that wait for the network ([poll], [poll_once], the handshake exchange
    of a connection, [recv] and [flush]) take fuel and return [Ok None] when it
    is spent; [poll_once_returns] and [connect_attempts_bounded] say how much is
    always enough. The reads of a stream take fuel bounded by what comes and
    how often it is interrupted, and the theorem on them asks for that much.
    In the components below the endpoint, instants are integers passed to each
    call and randomness (keys, session identifiers, probe tokens) is an
    argument. The endpoint and everything above it reads both from its host,
    in the order the code does: an instant is a number of milliseconds, the
    clock may move whenever the host is asked to do something and not between,
    and bytes for a message are drawn before the call that may fail to write
    it. A [HashMap] is a [gmap] and is walked in the order of [map_to_list];
    no theorem depends on that order. [f32] and [f64] budgets are exact
    multiples of a power of two, rounded to even after each operation.

    Code outside the repository is a class with laws: [Crypto]/[CryptoLaws]
    (Cipher.v) for X25519, ChaCha20-Poly1305 and BLAKE2s, [ZstdLib]/[ZstdLaws]
    (Compress.v) for Zstandard, [Net] (Udp.v) for a datagram socket, the clock
    and the generator, [Socket] (Connection.v) for a connected one, [UdpOs]/[UdpLaws]
    (Sockets.v) for the system calls beneath both, [Host] (CInterface.v) for the
    functions a C host registers. [SocketLog] (ConnectionNumbers.v) is a socket
    whose datagrams are remembered and [Blocking] (ConnectionThreads.v) says when
    a read comes back. [Device] (Transport.v) is the contract of a datagram
    device, [Stream]/[StreamLaws] (Streams.v) that of a byte stream, and [Files]
    (KeyStore.v) a file system whose calls may fail. The cryptographic laws are functional correctness only
    (decryption inverts encryption, Diffie-Hellman commutes, lengths);
    computational secrecy is not stated. [Toy], [ToyZstd] and [ToyNet] are
    concrete instances that satisfy them, used by the witnesses. [StaticKey] is
    the source's own trait for keys held elsewhere. [Host]/[HostLaws]
    (Rendezvous.v) is what the rendezvous asks of an endpoint: its theorems are
    proved against that interface and RendezvousInv.v shows the endpoint has it.

    ** Files

    - Prelude.v, Bytes.v: outcomes, loops, machine integers, byte buffers,
      tactics ([clia], [len_lia], [inv_run]) and hint databases ([fectp],
      [consts], [len]).
    - Error.v: [fectp_core::Error] and [fectp::Error].
    - Frame.v (frame.rs), Fragment.v (fragment.rs): wire formats. The parsers
      accept exactly the encodings of well-formed values and never panic; the
      fragment count is the least that covers a message.
    - Varint.v, Transpose.v, Numeric.v, Codec.v (codec/): the lossless
      transforms. Each reproduces its input; the encoders equal a reference
      definition; the decoders are safe on hostile bytes. BitPack.v
      (crates/bench/examples/bitpack_headroom.rs): the rival encoding of the
      same deltas that the experiment weighs against them, and that both carry
      exactly the values compared.
    - Replay.v ([ReplayWindow], session.rs): the window refines a set of
      accepted sequence numbers.
    - Reliability.v ([Ack], [DedupWindow], reliability.rs): the window refines
      a set of unbounded message numbers across identifier wrap, and its
      acknowledgements are truthful.
    - RetransmitQueue.v ([Rto], [RetransmitQueue]): invariant over every
      reachable queue, exact behaviour of registering, acknowledging and
      polling, bounds of the estimator, and that polling always ends in
      delivery or a report.
    - Arq.v: sender, lossy reordering network and receiver as one transition
      system; each message is delivered at most once and an acknowledged
      message was delivered.
    - Cipher.v (keys.rs, noise/cipher.rs), Symmetric.v (noise/hash.rs,
      noise/symmetric.rs), Handshake.v (noise/handshake.rs, noise/resume.rs):
      both handshakes end with the two sides holding the same keys crossed
      over, messages out of order are refused, and reading hostile messages
      never panics.
    - Session.v (session.rs): capabilities, sealing, opening, rekeying, path
      probes. Round trip under any framing and padding, streams of any length
      across key changes, no key and nonce ever used for two frames, no frame
      accepted twice,
      nothing accepted that did not verify, refused frames leave no trace.
    - Connect.v (session.rs): the four handshake drivers; running them
      establishes two sessions that are linked in both directions.
      ConnectSafety.v: on every input they, sealing and opening return a value
      or an error, and lengths lie inside the buffers.
    - Compress.v (compress.rs): the coding policy is lossless, never enlarges
      and never uses what the peer did not advertise.
    - Reassembly.v (pipeline.rs): pieces in any order, duplicated and
      interleaved, rebuild the message; memory stays bounded whatever arrives.
    - Tickets.v (pipeline.rs): tickets are single use, expire and are bounded.
    - Pmtu.v (pmtu.rs): the size in use is always justified; searches end.
    - Pipeline.v (pipeline.rs): [Peer], which puts the parts together. What
      one peer seals the other delivers unchanged; frames respect the datagram
      limit. Its last section records two behaviours of the code as evaluated
      examples.

    - Float.v: binary32 and binary64 arithmetic as the token buckets use it, and
      that a bucket never lets through more than its rate and its burst.
      Timing.v (crates/bench/src/timing.rs): measurements, whose two quantiles
      are always elements of the sample.
    - Control.v (rendezvous.rs): addresses, rendezvous messages, certificates.
      The decoder accepts exactly the encodings.
    - Relay.v (rendezvous.rs, [Port], [Allocation], [serve_port]): a port's
      party is an address that proved it holds the token; answers are no longer
      than what drew them; checks and forwarded bytes stay within their limits.
    - Udp.v (udp.rs, lib.rs): the host, the process-wide settings, I/O errors.
      Sockets.v (udp.rs): the calls on the system's sockets, platform by
      platform; waiting for a datagram loses none but one longer than the
      buffer, which is reported. Transport.v
      (transport.rs): the trait, its instance for UDP, and that the instance
      keeps the trait's contract over any device that keeps a socket's, but for
      a datagram longer than the buffer, which Unix cuts.
    - EndpointState.v, Endpoint.v, EndpointReceive.v (endpoint.rs): the state;
      tables, timers and sending; receiving, migration, handshakes, the
      rendezvous client and the poll loops.
    - EndpointFrame.v: what each operation leaves alone and to whom it sends.
      EndpointTables.v: the tables as one abstract relation, [Tables], and that
      every operation is a step of it.
    - EndpointCalls.v: any sequence of calls. The tables agree, identifiers
      stand for one key for good, the peer table is bounded, [poll] returns.
      EndpointAdmission.v: which operations file a session and which announce
      one; the application hears of a peer before anything from it.
    - EndpointDispatch.v: one datagram. What is sent goes to its sender only;
      an unproven address gets a challenge and nothing else; a session moves
      only to an address that answered; noise and repeated opening frames
      change nothing.
    - EndpointBudget.v: what any number of arrivals can cost in handshakes, eviction, group certificates, and
      the keep-alive timer.
    - Rendezvous.v (rendezvous.rs, [Rendezvous]): the server.
      RendezvousInv.v: the server as a state machine over any host.
      Registrations agree, limits hold, introductions are mutual and relays are
      offered to introduced pairs only.
    - Connection.v (lib.rs, udp.rs): [Identity], [SharedKey], [UdpTransport],
      [Core] and [Connection]. ConnectionLaws.v: connecting gives up after ten
      opening frames, what one connection sends another receives, a successful
      flush left nothing behind and keeps for [recv] exactly the messages that
      came meanwhile; and two runs that lose a message, one given up on and
      reported as delivered, one whose acknowledgement the socket refused. ConnectionNumbers.v: every
      layer hands the socket only frames it just sealed, each under its own
      number.
    - ConnectionThreads.v (lib.rs): any number of threads on one connection, as
      a transition system over its critical sections, each one step. No number is
      used twice; and a flush can outlast its timeout. ConnectionLocks.v: the
      same threads with the two mutexes in the state, taken one at a time,
      poisoned by a panic, and with sections that read the core and write it
      back in separate steps. The threads do not deadlock, a send never waits
      for a read on another thread, and the runs are those of
      ConnectionThreads.v.
    - Text.v: text as the code reads it, UTF-8, lines and digits. KeyStore.v
      (examples/keys.rs): keys as text and as files. KeyStoreLaws.v: a key file
      is whole wherever the process is killed and is never readable by others,
      though a power failure can tear it; an identity survives a restart, and a
      printed key is read back. KeyServer.v: the server of the example answers
      only clients that were on its list as read in the turn they came.
    - Streams.v (transports.rs): length-prefixed messages on a stream, their
      echo server and client, and the counting stream. Echo.v (transports.rs,
      examples/echo.rs, examples/multi_client.rs): the echo servers around an
      endpoint and a UDP socket. DocSnippets.v (crates/fectp/build.rs): of a
      document, every Rust block that is not skipped is compiled.
    - CMemory.v, CInterface.v (crates/ffi/src/lib.rs): the host's memory, and
      every entry point of the C interface. CInterfaceLaws.v: within its
      contract a host reaches no undefined behaviour, every reply is the one
      the header promises, a host key is released exactly once and only when no
      live handle holds it, and the calls that
      end a handshake consume it whatever happens. CInterfaceRun.v: a whole
      handshake and a message through the handles.
    - Fuzz.v (fuzz/fuzz_targets): the four targets survive every input.
      Xorshift.v: the generator of the image and of the benchmarks, a
      permutation of the words that keeps zero to itself.
      Footprint.v (crates/footprint/src/main.rs): the image runs the whole
      protocol.
    - Paths.v (crates/bench/src/transports.rs): the relays that stand for bad
      paths, as threads over a shared state. PathsLaws.v: one invariant scheme
      for any interleaving of them, and what each does to traffic: losses fixed
      by the seed and counted, nothing lost or repeated by a delay, a queue
      within its size and a link within its rate, a mapping that moves for good.

    Each file states its lemmas first and the properties last; a property's
    comment carries its claim number and its witness, when it has hypotheses,
    follows it.

    ** Not modelled

    The [Display] and [Debug] implementations, and [Drop] where it only wipes
    memory; the system's name resolution and binding; the vector
    table and reset handler of the bare-metal image. Nothing the key store
    writes is synced: a killed process leaves what was written, and what a power
    failure leaves is only the step [torn] of KeyStore.v. A C handle used by two
    threads at once is outside the contract of the C interface. A relay's two
    threads are steps in any order, each handling one datagram; what they do
    between two lock acquisitions is not interleaved further. Of the benchmarks
    (crates/bench) the sections of main.rs and the programs under src/bin, which
    run measurements and print tables, are not modelled, nor are the generated
    data sets, which need the host's sine, and TLS, which is a library's. Of the
    examples, tour.rs and mesh.rs only call the library in a row and print; what
    keys.rs prints, its usage text and its Windows variants are left out. The
    unit tests inside the sources and the language bindings are not modelled. *)
From Stdlib Require Import ZArith Lia.
From stdpp Require Export base list numbers option.
#[export] Set Default Goal Selector "!".

Declare Scope fectp_scope.
Delimit Scope fectp_scope with fectp.
#[global] Open Scope fectp_scope.
#[global] Open Scope Z_scope.

(** ** Outcomes of a Rust computation

    [Ok] and [Err] are the two constructors of [core::result::Result].
    [Panic] is the third way a Rust function can end: an index or a slice out
    of range, [copy_from_slice] on different lengths, or an arithmetic
    operation that leaves its type (which panics in a checked build). *)
Inductive result (E A : Type) : Type :=
| Ok (a : A)
| Err (e : E)
| Panic.
Arguments Ok {E A} a.
Arguments Err {E A} e.
Arguments Panic {E A}.

(** The [?] operator on a pure computation. *)
Notation "'let?' x := e 'in' k" :=
  (match e with Ok x => k | Err err => Err err | Panic => Panic end)
  (at level 10, x pattern, e at level 200, k at level 200,
   format "'[v' 'let?'  x  :=  e  'in' '/' k ']'") : fectp_scope.

(** The [?] operator on a method taking [&mut self]: the receiver's state is
    returned whether the call succeeds or not. *)
Notation "'let!' ( s , x ) := e 'in' k" :=
  (match e with
   | (s, Ok x) => k
   | (s, Err err) => (s, Err err)
   | (s, Panic) => (s, Panic)
   end)
  (at level 10, s name, x pattern, e at level 200, k at level 200,
   format "'[v' 'let!'  ( s ,  x )  :=  e  'in' '/' k ']'") : fectp_scope.

Definition is_ok {E A} (r : result E A) : bool :=
  match r with Ok _ => true | _ => false end.

Definition is_panic {E A} (r : result E A) : bool :=
  match r with Panic => true | _ => false end.

Definition map_err {E F A} (f : E -> F) (r : result E A) : result F A :=
  match r with Ok a => Ok a | Err e => Err (f e) | Panic => Panic end.

Definition ok_or {E A} (o : option A) (e : E) : result E A :=
  match o with Some a => Ok a | None => Err e end.

(** ** Counted loops

    [for_in a b body s] is [for i in a..b { body }] on the loop's mutable
    variables [s]; a [?] or a panic in the body ends it. *)
Fixpoint for_range {E T} (n : nat) (i : Z) (body : Z -> T -> result E T) (s : T)
  : result E T :=
  match n with
  | O => Ok s
  | S n => let? s := body i s in for_range n (i + 1) body s
  end.

Definition for_in {E T} (a b : Z) (body : Z -> T -> result E T) (s : T) : result E T :=
  for_range (Z.to_nat (b - a)) a body s.

(** ** Machine integers

    An unsigned [w]-bit value is a [Z] in range; the predicates are notations
    so that [lia] sees the bounds. *)
Abbreviation is_u8 x := (0 <= x < 256).
Abbreviation is_u16 x := (0 <= x < 65536).
Abbreviation is_u32 x := (0 <= x < 4294967296).
Abbreviation is_u64 x := (0 <= x < 18446744073709551616).
Abbreviation is_i32 x := (-2147483648 <= x < 2147483648).

Definition U16_MAX : Z := 65535.
Definition U32_MAX : Z := 4294967295.
Definition U64_MAX : Z := 18446744073709551615.
(** The model's [usize] is 64 bits wide. *)
Definition USIZE_MAX : Z := 18446744073709551615.

(** [wrapping_add]/[wrapping_sub] on [u32] reduce modulo 2^32. *)
Definition wrap32 (x : Z) : Z := x mod 4294967296.
Definition wrapping_add32 (a b : Z) : Z := wrap32 (a + b).
Definition wrapping_sub32 (a b : Z) : Z := wrap32 (a - b).

(** The [i32] whose two's-complement bits are [x mod 2^32] (an [as i32] cast,
    or the result of a wrapping [i32] operation). *)
Definition to_i32 (x : Z) : Z :=
  let r := x mod 4294967296 in
  if r <? 2147483648 then r else r - 4294967296.

(** The [i16] whose bits are [x mod 2^16] (an [as i16] cast). *)
Definition to_i16 (x : Z) : Z :=
  let r := x mod 65536 in
  if r <? 32768 then r else r - 65536.

(** [x << n] on a [u64]: bits shifted past the top are lost. *)
Definition shl64 (x n : Z) : Z := Z.shiftl x n mod 18446744073709551616.

Definition saturating_add (max a b : Z) : Z := Z.min max (a + b).
Definition saturating_mul (max a b : Z) : Z := Z.min max (a * b).
Definition saturating_sub (a b : Z) : Z := Z.max 0 (a - b).
Definition checked_add (a b : Z) : option Z :=
  if a + b <=? USIZE_MAX then Some (a + b) else None.
Definition checked_mul (a b : Z) : option Z :=
  if a * b <=? USIZE_MAX then Some (a * b) else None.
Definition clamp (lo hi x : Z) : Z := Z.max lo (Z.min hi x).

(** ** Proof automation *)
Create HintDb fectp discriminated.

(** Protocol constants, unfolded before arithmetic. *)
Create HintDb consts discriminated.
#[export] Hint Unfold U16_MAX U32_MAX U64_MAX USIZE_MAX : consts.
Ltac clia := autounfold with consts in *; lia.

(** Decide every integer comparison the goal branches on. *)
Ltac zcase_on c :=
  lazymatch c with
  | ?a <=? ?b => destruct (Z.leb_spec a b)
  | ?a <? ?b => destruct (Z.ltb_spec a b)
  | ?a =? ?b => destruct (Z.eqb_spec a b)
  end.

Ltac zcase :=
  match goal with |- context [if ?c then _ else _] => zcase_on c end.

Ltac zcase_in H :=
  match type of H with context [if ?c then _ else _] => zcase_on c end.

(** Turn boolean comparisons in the context into propositions. *)
Ltac zbool :=
  repeat match goal with
  | H : (_ && _)%bool = true |- _ => apply andb_prop in H; destruct H
  | H : (_ || _)%bool = false |- _ => apply orb_false_elim in H; destruct H
  | H : negb _ = true |- _ => apply negb_true_iff in H
  | H : negb _ = false |- _ => apply negb_false_iff in H
  | H : (_ <=? _) = true |- _ => apply Z.leb_le in H
  | H : (_ <=? _) = false |- _ => apply Z.leb_gt in H
  | H : (_ <? _) = true |- _ => apply Z.ltb_lt in H
  | H : (_ <? _) = false |- _ => apply Z.ltb_ge in H
  | H : (_ =? _) = true |- _ => apply Z.eqb_eq in H
  | H : (_ =? _) = false |- _ => apply Z.eqb_neq in H
  end.

(** Follow one [let?]/[let!]/[if] of a computation known to end some way. *)
Ltac step_in H :=
  match type of H with
  | context [match ?e with _ => _ end] =>
      match e with
      | context [match _ with _ => _ end] => fail 1
      | _ => let E := fresh "E" in destruct e eqn:E
      end
  end; try discriminate; zbool; simplify_eq.

Ltac inv_run H := repeat step_in H; simplify_eq.

(** ** The invariant rule for counted loops

    An invariant [I] indexed by the counter, and what is known when the body
    leaves early with an error. The loop never panics when the body does not. *)
Lemma for_range_rule {E T} (I : Z -> T -> Prop) (Q : E -> Prop) n i body (s : T) :
  I i s ->
  (forall j s, i <= j < i + Z.of_nat n -> I j s ->
     match body j s with Ok s' => I (j + 1) s' | Err e => Q e | Panic => False end) ->
  match for_range n i body s with
  | Ok s' => I (i + Z.of_nat n) s'
  | Err e => Q e
  | Panic => False
  end.
Proof.
  revert i s. induction n as [|n IH]; intros i s Hi Hb; simpl.
  - by rewrite Z.add_0_r.
  - specialize (Hb i s) as Hbi. specialize (Hbi ltac:(lia) Hi).
    destruct (body i s) as [s'|e|]; [|done..].
    replace (i + Z.of_nat (S n)) with ((i + 1) + Z.of_nat n) by lia.
    apply IH; [done|]. intros. apply Hb; [lia|done].
Qed.

Lemma for_in_rule {E T} (I : Z -> T -> Prop) (Q : E -> Prop) a b body (s : T) :
  a <= b -> I a s ->
  (forall j s, a <= j < b -> I j s ->
     match body j s with Ok s' => I (j + 1) s' | Err e => Q e | Panic => False end) ->
  match for_in a b body s with Ok s' => I b s' | Err e => Q e | Panic => False end.
Proof.
  intros Hab Ha Hb. unfold for_in.
  pose proof (for_range_rule I Q (Z.to_nat (b - a)) a body s Ha) as H.
  replace (a + Z.of_nat (Z.to_nat (b - a))) with b in H by lia. by apply H.
Qed.

(** A loop whose body cannot fail. *)
Lemma for_in_ok {E T} (I : Z -> T -> Prop) a b (body : Z -> T -> result E T) (s : T) :
  a <= b -> I a s ->
  (forall j s, a <= j < b -> I j s -> exists s', body j s = Ok s' /\ I (j + 1) s') ->
  exists s', for_in a b body s = Ok s' /\ I b s'.
Proof.
  intros Hab Ha Hb.
  pose proof (for_in_rule I (fun _ => False) a b body s Hab Ha) as H.
  destruct (for_in a b body s) as [s'|e|].
  1: exists s'; split; [done|].
  2-3: exfalso.
  all: apply H; intros j t Hj Ht; destruct (Hb j t Hj Ht) as (t' & -> & ?); done.
Qed.

(** ** Integer facts shared by the components *)
Lemma wrap32_small x : is_u32 x -> wrap32 x = x.
Proof. intros. unfold wrap32. apply Z.mod_small. lia. Qed.

Lemma wrap32_range x : is_u32 (wrap32 x).
Proof. unfold wrap32. apply Z.mod_pos_bound. lia. Qed.

Lemma to_i32_range x : is_i32 (to_i32 x).
Proof.
  unfold to_i32. pose proof (Z.mod_pos_bound x 4294967296 ltac:(lia)).
  zcase; lia.
Qed.

Lemma to_i32_small x : is_i32 x -> to_i32 x = x.
Proof.
  intros. unfold to_i32. destruct (Z.leb_spec 0 x).
  - rewrite Z.mod_small by lia. zcase; lia.
  - replace (x mod 4294967296) with (x + 4294967296).
    + zcase; lia.
    + apply (Z.mod_unique_pos _ _ (-1)); lia.
Qed.

Lemma to_i32_eqm x y :
  x mod 4294967296 = y mod 4294967296 -> to_i32 x = to_i32 y.
Proof. unfold to_i32. by intros ->. Qed.

Lemma to_i32_mod x : to_i32 x mod 4294967296 = x mod 4294967296.
Proof.
  unfold to_i32. pose proof (Z.mod_pos_bound x 4294967296 ltac:(lia)).
  zcase.
  - by rewrite Z.mod_mod by lia.
  - replace (x mod 4294967296 - 4294967296)
      with (x mod 4294967296 + (-1) * 4294967296) by lia.
    by rewrite Z.mod_add, Z.mod_mod by lia.
Qed.

(** Bit operations the code uses, as arithmetic. *)
Lemma land_shiftl_disjoint a b k :
  0 <= k -> 0 <= a < 2 ^ k -> Z.land a (Z.shiftl b k) = 0.
Proof.
  intros Hk Ha. apply Z.bits_inj'. intros i Hi.
  rewrite Z.land_spec, Z.bits_0. destruct (Z.ltb_spec i k).
  - rewrite Z.shiftl_spec_low by lia. apply andb_false_r.
  - rewrite <- (Z.mod_small a (2 ^ k)), Z.mod_pow2_bits_high by lia. done.
Qed.

Lemma lor_shiftl_add a b k :
  0 <= k -> 0 <= a < 2 ^ k -> Z.lor a (Z.shiftl b k) = a + b * 2 ^ k.
Proof.
  intros Hk Ha. rewrite <- Z.lxor_lor by (by apply land_shiftl_disjoint).
  rewrite <- Z.add_nocarry_lxor by (by apply land_shiftl_disjoint).
  by rewrite Z.shiftl_mul_pow2.
Qed.

Lemma testbit_small a k i : 0 <= a < 2 ^ k -> 0 <= k <= i -> Z.testbit a i = false.
Proof. intros. rewrite <- (Z.mod_small a (2 ^ k)) by lia. apply Z.mod_pow2_bits_high. lia. Qed.

(** The bits of a 64-bit window after the operations the code applies. *)
Lemma testbit_shl64 x n i :
  0 <= n -> 0 <= i -> Z.testbit (shl64 x n) i = (i <? 64) && (n <=? i) && Z.testbit x (i - n).
Proof.
  intros Hn Hi. unfold shl64. change 18446744073709551616 with (2 ^ 64).
  destruct (Z.ltb_spec i 64); cbn [andb].
  - rewrite Z.mod_pow2_bits_low by lia. destruct (Z.leb_spec n i); cbn [andb].
    + by rewrite Z.shiftl_spec by lia.
    + by rewrite Z.shiftl_spec_low by lia.
  - by rewrite Z.mod_pow2_bits_high by lia.
Qed.

Lemma shl64_range x n : is_u64 (shl64 x n).
Proof. unfold shl64. apply Z.mod_pos_bound. lia. Qed.

Lemma testbit_one_shl n i : 0 <= n < 64 -> 0 <= i -> Z.testbit (shl64 1 n) i = (i =? n).
Proof.
  intros Hn Hi. rewrite testbit_shl64 by lia. destruct (Z.eqb_spec i n) as [->|].
  - rewrite Z.sub_diag. rewrite (proj2 (Z.ltb_lt _ _)), (proj2 (Z.leb_le _ _)) by lia. done.
  - destruct (Z.ltb_spec i 64), (Z.leb_spec n i); cbn [andb]; try done.
    change 1 with (2 ^ 0). apply Z.pow2_bits_false. lia.
Qed.

Lemma land_bit_nonzero x n : 0 <= n < 64 -> negb (Z.land x (shl64 1 n) =? 0) = Z.testbit x n.
Proof.
  intros Hn. destruct (Z.testbit x n) eqn:Hb.
  - apply negb_true_iff, Z.eqb_neq. intros H0.
    apply (f_equal (fun z => Z.testbit z n)) in H0.
    rewrite Z.land_spec, testbit_one_shl, Z.eqb_refl, Hb, Z.bits_0 in H0 by lia. done.
  - apply negb_false_iff, Z.eqb_eq, Z.bits_inj'. intros i Hi.
    rewrite Z.land_spec, testbit_one_shl, Z.bits_0 by lia.
    destruct (Z.eqb_spec i n) as [->|]; [by rewrite Hb | apply andb_false_r].
Qed.

Lemma u64_of_bits x : 0 <= x -> (forall i, 64 <= i -> Z.testbit x i = false) -> is_u64 x.
Proof.
  intros Hx Hb. split; [done|]. change 18446744073709551616 with (2 ^ 64).
  destruct (Z.eqb_spec x 0) as [->|]; [lia|].
  apply Z.log2_lt_pow2; [lia|]. destruct (Z.leb_spec 64 (Z.log2 x)) as [Hl|]; [|done].
  specialize (Hb _ Hl). rewrite Z.bit_log2 in Hb by lia. done.
Qed.

Lemma lor_u64 x y : is_u64 x -> is_u64 y -> is_u64 (Z.lor x y).
Proof.
  intros Hx Hy. apply u64_of_bits; [apply Z.lor_nonneg; lia|].
  intros i Hi. rewrite Z.lor_spec.
  by rewrite (testbit_small x 64), (testbit_small y 64)
    by (change (2 ^ 64) with 18446744073709551616; lia).
Qed.

#[export] Hint Resolve shl64_range lor_u64 : fectp.
#[export] Hint Resolve wrap32_range to_i32_range : fectp.
