(* ===== verification/Bytes.v ===== *)
(** * Byte buffers

    Slices of [u8] as the core manipulates them: lengths and positions are
    [usize] values ([Z]), a read or a write out of range is [Panic], and
    multi-byte fields are little-endian. *)
From S2P Require Import Prelude.

(** ** Definitions *)

(** A byte string; [bytes_ok] says every element is a [u8]. *)
Abbreviation bytes := (list Z).
Definition bytes_ok (l : bytes) : Prop := Forall (fun b => is_u8 b) l.

Definition len {A} (l : list A) : Z := Z.of_nat (length l).
Definition takez {A} (n : Z) (l : list A) : list A := take (Z.to_nat n) l.
Definition dropz {A} (n : Z) (l : list A) : list A := drop (Z.to_nat n) l.
Definition zeros (n : Z) : bytes := replicate (Z.to_nat n) 0.

(** [buf[i]]. *)
Definition index {E A} (l : list A) (i : Z) : result E A :=
  if i <? 0 then Panic
  else match l !! Z.to_nat i with Some a => Ok a | None => Panic end.

(** [&buf[a..b]]. *)
Definition slice {E A} (l : list A) (a b : Z) : result E (list A) :=
  if (0 <=? a) && (a <=? b) && (b <=? len l)
  then Ok (takez (b - a) (dropz a l)) else Panic.

(** [&buf[a..]]. *)
Definition slice_from {E A} (l : list A) (a : Z) : result E (list A) :=
  slice l a (len l).

(** [buf[a..b].copy_from_slice(src)]. *)
Definition copy_range {E A} (l : list A) (a b : Z) (src : list A)
  : result E (list A) :=
  if (0 <=? a) && (a <=? b) && (b <=? len l) && (len src =? b - a)
  then Ok (takez a l ++ src ++ dropz b l) else Panic.

(** [buf[i] = v]. *)
Definition set_index {E A} (l : list A) (i : Z) (v : A) : result E (list A) :=
  copy_range l i (i + 1) [v].

(** [buf.copy_within(a..b, 0)]. *)
Definition copy_within_0 {E A} (l : list A) (a b : Z) : result E (list A) :=
  let? src := slice l a b in copy_range l 0 (b - a) src.

(** [buf.resize(n, 0)] when it grows, as [ensure] in compress.rs uses it. *)
Definition grow (l : bytes) (n : Z) : bytes := l ++ zeros (n - len l).

(** [x.to_le_bytes()] for an [n]-byte unsigned type. *)
Fixpoint to_le (n : nat) (x : Z) : bytes :=
  match n with
  | O => []
  | S n => x mod 256 :: to_le n (x / 256)
  end.

(** [uN::from_le_bytes]. *)
Fixpoint from_le (l : bytes) : Z :=
  match l with
  | [] => 0
  | b :: l => b + 256 * from_le l
  end.

(** ** Lengths *)
Section lengths.
Context {A : Type}.
Implicit Types l : list A.

Lemma len_nonneg l : 0 <= len l.
Proof. unfold len. lia. Qed.

Lemma len_nil : len (@nil A) = 0.
Proof. done. Qed.

Lemma len_cons a l : len (a :: l) = 1 + len l.
Proof. unfold len. simpl. lia. Qed.

Lemma len_app l1 l2 : len (l1 ++ l2) = len l1 + len l2.
Proof. unfold len. rewrite length_app. lia. Qed.

Lemma len_takez n l : len (takez n l) = Z.max 0 (Z.min n (len l)).
Proof. unfold len, takez. rewrite length_take. lia. Qed.

Lemma len_dropz n l : len (dropz n l) = Z.max 0 (len l - Z.max 0 n).
Proof. unfold len, dropz. rewrite length_drop. lia. Qed.

Lemma len_0 l : len l = 0 -> l = [].
Proof. unfold len. intros. destruct l; [done | simpl in *; lia]. Qed.

Lemma to_nat_len l : Z.to_nat (len l) = length l.
Proof. unfold len. apply Nat2Z.id. Qed.

Lemma takez_0 l n : n <= 0 -> takez n l = [].
Proof. intros. unfold takez. by replace (Z.to_nat n) with 0%nat by lia. Qed.

Lemma dropz_0 l n : n <= 0 -> dropz n l = l.
Proof. intros. unfold dropz. by replace (Z.to_nat n) with 0%nat by lia. Qed.

Lemma takez_all l n : len l <= n -> takez n l = l.
Proof. unfold len. intros. apply take_ge. lia. Qed.

Lemma dropz_all l n : len l <= n -> dropz n l = [].
Proof. unfold len. intros. apply drop_ge. lia. Qed.

Lemma takez_dropz n l : takez n l ++ dropz n l = l.
Proof. apply take_drop. Qed.

Lemma takez_app n l1 l2 :
  n = len l1 -> takez n (l1 ++ l2) = l1.
Proof. intros ->. unfold takez, len. rewrite Nat2Z.id. apply take_app_length. Qed.

Lemma dropz_app n l1 l2 :
  n = len l1 -> dropz n (l1 ++ l2) = l2.
Proof. intros ->. unfold dropz, len. rewrite Nat2Z.id. apply drop_app_length. Qed.

Lemma takez_app_le n l1 l2 :
  n <= len l1 -> takez n (l1 ++ l2) = takez n l1.
Proof. unfold takez, len. intros. apply take_app_le. lia. Qed.

Lemma takez_app_ge n l1 l2 :
  len l1 <= n -> takez n (l1 ++ l2) = l1 ++ takez (n - len l1) l2.
Proof.
  unfold takez, len. intros. rewrite take_app_ge by lia. do 2 f_equal. lia.
Qed.

Lemma dropz_app_le n l1 l2 :
  n <= len l1 -> dropz n (l1 ++ l2) = dropz n l1 ++ l2.
Proof. unfold dropz, len. intros. apply drop_app_le. lia. Qed.

Lemma dropz_app_ge n l1 l2 :
  len l1 <= n -> dropz n (l1 ++ l2) = dropz (n - len l1) l2.
Proof. unfold dropz, len. intros. rewrite drop_app_ge by lia. f_equal. lia. Qed.

Lemma dropz_dropz a b l : 0 <= a -> 0 <= b -> dropz a (dropz b l) = dropz (a + b) l.
Proof. unfold dropz. intros. rewrite drop_drop. f_equal. lia. Qed.

Lemma takez_takez a b l : takez a (takez b l) = takez (Z.min a b) l.
Proof. unfold takez. rewrite take_take. f_equal. lia. Qed.

Lemma split_at n l : 0 <= n <= len l -> exists a b, l = a ++ b /\ len a = n.
Proof.
  intros. exists (takez n l), (dropz n l). rewrite takez_dropz, len_takez. split; [done|lia].
Qed.
End lengths.

Lemma len_length {A} (l : list A) : len l = Z.of_nat (length l).
Proof. rewrite <- to_nat_len. pose proof (len_nonneg l). lia. Qed.

Lemma len_map {A B} (f : A -> B) l : len (map f l) = len l.
Proof. unfold len. by rewrite length_map. Qed.

Lemma len_replicate {A} k (x : A) : len (replicate k x) = Z.of_nat k.
Proof. unfold len. by rewrite length_replicate. Qed.

Lemma len_zeros n : len (zeros n) = Z.max 0 n.
Proof. unfold zeros, len. rewrite length_replicate. lia. Qed.

Lemma len_to_le n x : len (to_le n x) = Z.of_nat n.
Proof. unfold len. f_equal. revert x. induction n; intros; simpl; congruence. Qed.

Create HintDb len discriminated.
#[export] Hint Rewrite @len_nil @len_cons @len_app @len_takez @len_dropz
  @len_map @len_replicate len_zeros len_to_le : len.

(** Length side conditions: rewrite every [len] to sums and decide. *)
Ltac len_lia :=
  autounfold with consts in *; autorewrite with len in *;
  repeat match goal with
  | |- context [len ?l] =>
      lazymatch goal with
      | H : 0 <= len l |- _ => fail
      | _ => pose proof (len_nonneg l)
      end
  | _ : context [len ?l] |- _ =>
      lazymatch goal with
      | H : 0 <= len l |- _ => fail
      | _ => pose proof (len_nonneg l)
      end
  end; lia.

(** ** Reads and writes on a buffer split where they fall *)
Section access.
Context {E A : Type}.
Implicit Types p s m l : list A.

Lemma slice_ok l a b :
  0 <= a <= b -> b <= len l ->
  slice (E:=E) l a b = Ok (takez (b - a) (dropz a l)).
Proof.
  intros. unfold slice.
  by rewrite !(proj2 (Z.leb_le _ _)) by lia.
Qed.

Lemma slice_mid p m s a b :
  a = len p -> b = len p + len m -> slice (E:=E) (p ++ m ++ s) a b = Ok m.
Proof.
  intros -> ->. rewrite slice_ok by len_lia.
  rewrite dropz_app by done. by rewrite takez_app by len_lia.
Qed.

Lemma slice_from_mid p s a : a = len p -> slice_from (E:=E) (p ++ s) a = Ok s.
Proof.
  intros ->. unfold slice_from. rewrite slice_ok by len_lia.
  rewrite dropz_app by done. by rewrite takez_all by len_lia.
Qed.

Lemma copy_range_mid p m s src a b :
  a = len p -> b = len p + len m -> len src = len m ->
  copy_range (E:=E) (p ++ m ++ s) a b src = Ok (p ++ src ++ s).
Proof.
  intros -> -> Hs. unfold copy_range.
  rewrite !(proj2 (Z.leb_le _ _)) by len_lia.
  rewrite (proj2 (Z.eqb_eq _ _)) by lia. simpl.
  rewrite takez_app by done.
  rewrite dropz_app_ge by len_lia. by rewrite dropz_app by lia.
Qed.

(** A write just past the part of the buffer already written. *)
Lemma copy_range_next p s src a b :
  a = len p -> b = a + len src -> len src <= len s ->
  copy_range (E:=E) (p ++ s) a b src = Ok ((p ++ src) ++ dropz (len src) s).
Proof.
  intros -> -> Hs. rewrite <- (takez_dropz (len src) s) at 1.
  rewrite (copy_range_mid p _ _ src) by len_lia. by rewrite app_assoc.
Qed.

Lemma copy_range_at l src b :
  b = len src -> b <= len l ->
  copy_range (E:=E) l 0 b src = Ok (src ++ dropz b l).
Proof. intros -> Hl. apply (copy_range_next [] l src); len_lia. Qed.

Lemma copy_range_ok_len l a b src l' :
  copy_range (E:=E) l a b src = Ok l' -> len l' = len l.
Proof.
  unfold copy_range. intros H. inv_run H. len_lia.
Qed.

Lemma index_mid p x s i : i = len p -> index (E:=E) (p ++ x :: s) i = Ok x.
Proof.
  intros ->. unfold index, len.
  rewrite (proj2 (Z.ltb_ge _ _)) by lia. rewrite Nat2Z.id.
  by rewrite list_lookup_middle.
Qed.

Lemma index_0 x s : index (E:=E) (x :: s) 0 = Ok x.
Proof. apply (index_mid []). done. Qed.

Lemma index_1 x y s : index (E:=E) (x :: y :: s) 1 = Ok y.
Proof. apply (index_mid [x]). done. Qed.

Lemma index_2 x y z s : index (E:=E) (x :: y :: z :: s) 2 = Ok z.
Proof. apply (index_mid [x; y]). done. Qed.

Lemma index_3 x y z t s : index (E:=E) (x :: y :: z :: t :: s) 3 = Ok t.
Proof. apply (index_mid [x; y; z]). done. Qed.

Lemma slice_eq l p m s a b :
  l = p ++ m ++ s -> a = len p -> b = len p + len m -> slice (E:=E) l a b = Ok m.
Proof. intros ->. apply slice_mid. Qed.

Lemma slice_head m s b : b = len m -> slice (E:=E) (m ++ s) 0 b = Ok m.
Proof. intros ->. by apply (slice_mid [] m s). Qed.

Lemma copy_range_head m s src b :
  b = len m -> len src = len m -> copy_range (E:=E) (m ++ s) 0 b src = Ok (src ++ s).
Proof. intros -> Hs. by apply (copy_range_mid [] m s src). Qed.

Lemma index_ok l i : 0 <= i < len l -> exists x, index (E:=E) l i = Ok x /\ x ∈ l.
Proof.
  unfold len, index. intros. rewrite (proj2 (Z.ltb_ge _ _)) by lia.
  destruct (lookup_lt_is_Some_2 l (Z.to_nat i)) as [x Hx]; [lia|].
  exists x. rewrite Hx. split; [done|]. by eapply list_elem_of_lookup_2.
Qed.

Lemma slice_in_range l a b :
  0 <= a <= b -> b <= len l ->
  exists m, slice (E:=E) l a b = Ok m /\ len m = b - a.
Proof. intros. rewrite slice_ok by lia. eexists. split; [done|]. len_lia. Qed.

Lemma slice_inv l a b m :
  slice (E:=E) l a b = Ok m ->
  exists p s, l = p ++ m ++ s /\ len p = a /\ len m = b - a.
Proof.
  unfold slice. intros H. inv_run H.
  exists (takez a l), (dropz b l). repeat split; [|len_lia|len_lia].
  rewrite <- (takez_dropz a l) at 1. f_equal.
  rewrite <- (takez_dropz (b - a) (dropz a l)) at 1. f_equal.
  rewrite dropz_dropz by lia. f_equal. lia.
Qed.

(** Consecutive reads compose, so a decoder's field reads join into one read
    of the whole block. *)
Lemma slice_join l a b c m n :
  slice (E:=E) l a b = Ok m -> slice (E:=E) l b c = Ok n ->
  slice (E:=E) l a c = Ok (m ++ n).
Proof.
  intros Hm Hn. destruct (slice_inv _ _ _ _ Hm) as (p & s & -> & Hp & Hlm).
  destruct (slice_inv _ _ _ _ Hn) as (q & t & Heq & Hq & Hln).
  assert (q = p ++ m /\ n ++ t = s) as [-> <-].
  { apply (f_equal (fun l => (takez b l, dropz b l))) in Heq.
    rewrite (takez_app b q), (dropz_app b q), app_assoc in Heq by lia.
    rewrite takez_app, dropz_app in Heq by len_lia. by simplify_eq. }
  rewrite (app_assoc m n t). apply slice_mid; len_lia.
Qed.

Lemma index_slice l i x :
  index (E:=E) l i = Ok x -> slice (E:=E) l i (i + 1) = Ok [x].
Proof.
  unfold index. intros H. inv_run H.
  match goal with H : _ !! _ = Some _ |- _ =>
    rewrite <- (take_drop_middle _ _ _ H); apply lookup_lt_Some in H end.
  apply (slice_mid _ [x]); unfold len; simpl; rewrite ?length_take; lia.
Qed.

Lemma slice_prefix l n m :
  slice (E:=E) l 0 n = Ok m -> l = m ++ dropz n l.
Proof.
  intros H. destruct (slice_inv _ _ _ _ H) as (p & s & -> & Hp & Hm).
  rewrite (len_0 _ Hp). simpl. by rewrite dropz_app by lia.
Qed.
End access.

(** ** Fixed-size chunks of a buffer

    [chunk w o l] is [l[o..o+w]], cut short at the end of the buffer. Loops
    that write scattered positions are specified chunk by chunk. *)
Definition chunk {A} (w o : Z) (l : list A) : list A := takez w (dropz o l).

Section chunks.
Context {E A : Type}.
Implicit Types l : list A.

Lemma chunk_of_slice l a b m :
  slice (E:=E) l a b = Ok m -> chunk (b - a) a l = m.
Proof. unfold slice, chunk. intros H. by inv_run H. Qed.

Lemma chunk_copy_same l a b src l' :
  copy_range (E:=E) l a b src = Ok l' -> chunk (b - a) a l' = src.
Proof.
  unfold copy_range, chunk. intros H. inv_run H.
  rewrite dropz_app by len_lia. by rewrite takez_app by lia.
Qed.

Lemma chunk_copy_other l a b src l' w o :
  copy_range (E:=E) l a b src = Ok l' -> 0 <= o -> 0 <= w ->
  o + w <= a \/ b <= o -> chunk w o l' = chunk w o l.
Proof.
  unfold copy_range, chunk. intros H Ho Hw Hd. inv_run H. destruct Hd as [Hd|Hd].
  - rewrite <- (takez_dropz a l) at 3.
    rewrite !(dropz_app_le o (takez a l)) by len_lia.
    by rewrite !takez_app_le by len_lia.
  - rewrite app_assoc, dropz_app_ge by len_lia.
    rewrite dropz_dropz by len_lia. do 2 f_equal. len_lia.
Qed.

Lemma chunk_index l i x : index (E:=E) l i = Ok x -> chunk 1 i l = [x].
Proof.
  intros H%index_slice%chunk_of_slice. by replace (i + 1 - i) with 1 in H by lia.
Qed.

Lemma chunk_split w o l : 0 <= o -> 0 <= w -> takez (o + w) l = takez o l ++ chunk w o l.
Proof.
  intros. unfold chunk. destruct (Z.leb_spec o (len l)).
  - rewrite <- (takez_dropz o l) at 1.
    rewrite takez_app_ge by len_lia. do 2 f_equal. len_lia.
  - rewrite !(takez_all l), dropz_all by lia.
    by rewrite takez_all, app_nil_r by len_lia.
Qed.

(** Buffers that agree on every chunk agree. *)
Lemma chunks_eq w n l l' :
  0 <= w -> 0 <= n ->
  (forall i, 0 <= i < n -> chunk w (i * w) l = chunk w (i * w) l') ->
  takez (n * w) l = takez (n * w) l'.
Proof.
  intros Hw Hn. revert n Hn. refine (natlike_ind _ _ _).
  - intros _. by rewrite !takez_0 by lia.
  - intros n Hn IH H. replace (Z.succ n * w) with (n * w + w) by lia.
    rewrite !chunk_split by lia. f_equal; [apply IH; intros; apply H; lia|].
    apply H. lia.
Qed.

Lemma chunk_takez w o n l : 0 <= o -> 0 <= w -> o + w <= n -> chunk w o (takez n l) = chunk w o l.
Proof.
  intros. unfold chunk. destruct (Z.leb_spec n (len l)).
  - rewrite <- (takez_dropz n l) at 2. rewrite dropz_app_le by len_lia.
    by rewrite takez_app_le by len_lia.
  - by rewrite (takez_all l n) by lia.
Qed.
End chunks.

(** ** Byte strings *)
Lemma bytes_ok_app l1 l2 : bytes_ok (l1 ++ l2) <-> bytes_ok l1 /\ bytes_ok l2.
Proof. apply Forall_app. Qed.

Lemma bytes_ok_cons b l : bytes_ok (b :: l) <-> is_u8 b /\ bytes_ok l.
Proof. apply Forall_cons_iff. Qed.

Lemma bytes_ok_takez n l : bytes_ok l -> bytes_ok (takez n l).
Proof. intros. by apply Forall_take. Qed.

Lemma bytes_ok_dropz n l : bytes_ok l -> bytes_ok (dropz n l).
Proof. intros. by apply Forall_drop. Qed.

Lemma bytes_ok_zeros n : bytes_ok (zeros n).
Proof. apply Forall_replicate. lia. Qed.

Lemma bytes_ok_to_le n x : bytes_ok (to_le n x).
Proof.
  revert x. induction n; intros; simpl; constructor.
  - apply Z.mod_pos_bound. lia.
  - apply IHn.
Qed.

Lemma bytes_ok_copy_range {E} l a b src l' :
  copy_range (E:=E) l a b src = Ok l' -> bytes_ok l -> bytes_ok src -> bytes_ok l'.
Proof.
  unfold copy_range. intros H ??. inv_run H.
  rewrite !bytes_ok_app. auto using bytes_ok_takez, bytes_ok_dropz.
Qed.

Lemma bytes_ok_slice {E} l a b m :
  slice (E:=E) l a b = Ok m -> bytes_ok l -> bytes_ok m.
Proof.
  intros H Hl. destruct (slice_inv _ _ _ _ H) as (p & s & -> & _).
  rewrite !bytes_ok_app in Hl. tauto.
Qed.

Lemma len_slice {E A} (l : list A) a b m :
  slice (E:=E) l a b = Ok m -> len m = b - a.
Proof. intros H. by destruct (slice_inv _ _ _ _ H) as (p & s & -> & _ & ?). Qed.

Lemma bytes_ok_index {E} l i x : index (E:=E) l i = Ok x -> bytes_ok l -> is_u8 x.
Proof.
  intros H Hl. apply index_slice in H.
  by destruct (proj1 (bytes_ok_cons _ _) (bytes_ok_slice _ _ _ _ H Hl)).
Qed.

(** What the successful reads in the context say about the values read. *)
Ltac slice_facts :=
  repeat match goal with
  | H : slice ?l ?a ?b = Ok ?m |- _ =>
      lazymatch goal with
      | _ : len m = _ |- _ => fail
      | _ => pose proof (len_slice _ _ _ _ H)
      end
  | H : slice ?l ?a ?b = Ok ?m, Hl : bytes_ok ?l |- _ =>
      lazymatch goal with
      | _ : bytes_ok m |- _ => fail
      | _ => pose proof (bytes_ok_slice _ _ _ _ H Hl)
      end
  | H : index ?l ?i = Ok ?x, Hl : bytes_ok ?l |- _ =>
      lazymatch goal with
      | _ : is_u8 x |- _ => fail
      | _ => pose proof (bytes_ok_index _ _ _ H Hl)
      end
  end.

#[export] Hint Resolve bytes_ok_takez bytes_ok_dropz bytes_ok_zeros
  bytes_ok_to_le : fectp.

(** ** Little-endian round trips *)
Lemma from_le_range l : bytes_ok l -> 0 <= from_le l < 256 ^ len l.
Proof.
  intros H. induction H as [|b l Hb Hl IH]; [done|]. simpl.
  rewrite len_cons, Z.pow_add_r by len_lia. lia.
Qed.

Lemma from_le_to_le n x : 0 <= x < 256 ^ Z.of_nat n -> from_le (to_le n x) = x.
Proof.
  revert x. induction n as [|n IH]; intros x Hx.
  - simpl in *. lia.
  - rewrite Nat2Z.inj_succ, Z.pow_succ_r in Hx by lia. simpl. rewrite IH.
    + pose proof (Z.div_mod x 256). lia.
    + split; [apply Z.div_pos; lia | apply Z.div_lt_upper_bound; lia].
Qed.

Lemma to_le_from_le l n : bytes_ok l -> len l = Z.of_nat n -> to_le n (from_le l) = l.
Proof.
  intros H. revert n. induction H as [|b l Hb Hl IH]; intros n Hn.
  - by destruct n.
  - destruct n as [|n]; [len_lia|]. simpl.
    replace ((b + 256 * from_le l) mod 256) with b.
    + replace ((b + 256 * from_le l) / 256) with (from_le l).
      * rewrite IH; [done|len_lia].
      * apply (Z.div_unique_pos _ _ _ b); lia.
    + apply (Z.mod_unique_pos _ _ (from_le l)); lia.
Qed.

Lemma from_le_u16 l : bytes_ok l -> len l = 2 -> is_u16 (from_le l).
Proof. intros H Hl. pose proof (from_le_range l H) as R. rewrite Hl in R. lia. Qed.

Lemma from_le_u32 l : bytes_ok l -> len l = 4 -> is_u32 (from_le l).
Proof. intros H Hl. pose proof (from_le_range l H) as R. rewrite Hl in R. lia. Qed.

Lemma from_le_u64 l : bytes_ok l -> len l = 8 -> is_u64 (from_le l).
Proof. intros H Hl. pose proof (from_le_range l H) as R. rewrite Hl in R. lia. Qed.

#[export] Hint Resolve from_le_u16 from_le_u32 from_le_u64 : fectp.

#[global] Opaque takez dropz len zeros.
#[global] Arguments to_le : simpl never.
#[global] Arguments from_le : simpl never.

(** ** Finite reasoning on one byte

    A property of every [u8] is decided by evaluating it on the 256 values. *)
Lemma byte_forall (P : Z -> bool) :
  forallb P (seqZ 0 256) = true -> forall b, is_u8 b -> P b = true.
Proof.
  rewrite List.forallb_forall. intros H b Hb. apply H.
  rewrite <- list_elem_of_In. apply elem_of_seqZ. lia.
Qed.

(** [!x] on a [u8]. *)
Definition not8 (x : Z) : Z := Z.lxor x 255.

Lemma byte_lxor a b : is_u8 a -> is_u8 b -> Z.lxor a b < 256.
Proof.
  intros Ha Hb. pose proof (byte_forall (fun a => forallb (fun b => Z.lxor a b <? 256) (seqZ 0 256))
    ltac:(by vm_compute) a Ha) as H. cbv beta in H.
  rewrite List.forallb_forall in H. apply Z.ltb_lt, H, list_elem_of_In, elem_of_seqZ. lia.
Qed.
