(* ===== verification/Error.v ===== *)
(** * Error types

    [fectp_core::Error] (error.rs) and [fectp::Error] (lib.rs). The [Display]
    implementations are text for a log and are not modelled. *)
From S2P Require Import Prelude.

(** [fectp_core::Error]. *)
Inductive Error :=
| BufferTooSmall
| MessageTooShort
| Decrypt
| NonceExhausted
| SequenceTooFarAhead
| HandshakeStateError
| UnsupportedVersion
| BadHeader
| Replay
| NotReady
| PayloadTooLarge
| WindowFull
| KeyUnavailable.

#[global] Instance Error_eq_dec : EqDecision Error.
Proof. solve_decision. Defined.

(** [fectp_core::Result]. *)
Abbreviation Result := (result Error).

(** [fectp::Error], the error of the standard-library crate. [Io] carries an
    [io::Error] in the source; its content never influences the protocol. *)
Inductive HostError :=
| Closed
| Io
| Protocol (e : Error)
| Decompress
| HostPayloadTooLarge (len limit : Z)
| Handshake
| Unacknowledged (count : Z)
| ReliabilityUnsupported
| UnknownTicket
| UnknownPeer
| MissingPeerKey
| NoRendezvous
| GroupSecretTooShort.

#[global] Instance HostError_eq_dec : EqDecision HostError.
Proof. solve_decision. Defined.

(** [fectp::Result]. *)
Abbreviation HostResult := (result HostError).
