(* ===== verification/Frame.v ===== *)
(** * The frame header (crates/fectp-core/src/frame.rs)

    [FrameType], [Header], its encoder and the pre-authentication parser. The
    theorems show that the parser accepts exactly the encodings of well-formed
    headers, never panics, and is inverse to the encoder. *)
From S2P Require Import Prelude Bytes Error.

Definition HEADER_LEN : Z := 14.
Definition VERSION : Z := 1.
Definition FLAG_COMPRESSED : Z := 1.
Definition FLAG_RELIABLE : Z := 2.
Definition FLAG_PADDED : Z := 4.
Definition FLAG_FRAGMENT : Z := 8.
Definition KNOWN_FLAGS : Z :=
  Z.lor (Z.lor (Z.lor FLAG_COMPRESSED FLAG_RELIABLE) FLAG_PADDED) FLAG_FRAGMENT.

#[export] Hint Unfold HEADER_LEN VERSION FLAG_COMPRESSED FLAG_RELIABLE FLAG_PADDED
  FLAG_FRAGMENT : consts.

Inductive FrameType :=
| HandshakeInit
| HandshakeResponse
| Data
| Close
| AckFrame
| ResumeInit
| ResumeResponse
| PathChallenge
| PathResponse.

#[global] Instance FrameType_eq_dec : EqDecision FrameType.
Proof. solve_decision. Defined.

Module FrameType.
Definition to_bits (t : FrameType) : Z :=
  match t with
  | HandshakeInit => 1
  | HandshakeResponse => 2
  | Data => 3
  | Close => 4
  | AckFrame => 5
  | ResumeInit => 6
  | ResumeResponse => 7
  | PathChallenge => 8
  | PathResponse => 9
  end.

Definition from_bits (bits : Z) : Result FrameType :=
  match bits with
  | 1 => Ok HandshakeInit
  | 2 => Ok HandshakeResponse
  | 3 => Ok Data
  | 4 => Ok Close
  | 5 => Ok AckFrame
  | 6 => Ok ResumeInit
  | 7 => Ok ResumeResponse
  | 8 => Ok PathChallenge
  | 9 => Ok PathResponse
  | _ => Err BadHeader
  end.
End FrameType.

Record Header := mkHeader {
  frame_type : FrameType;
  flags : Z;
  session_id : Z;
  sequence : Z;
}.

#[global] Instance Header_eq_dec : EqDecision Header.
Proof. solve_decision. Defined.

Module Header.
Definition new (t : FrameType) (sid : Z) : Header :=
  {| frame_type := t; flags := 0; session_id := sid; sequence := 0 |}.

Definition is_compressed (h : Header) : bool :=
  negb (Z.land (flags h) FLAG_COMPRESSED =? 0).

Definition encode (h : Header) (out : bytes) : Result bytes :=
  if len out <? HEADER_LEN then Err BufferTooSmall else
  let? out := set_index out 0
    (Z.lor (Z.shiftl VERSION 4) (FrameType.to_bits (frame_type h))) in
  let? out := set_index out 1 (flags h) in
  let? out := copy_range out 2 6 (to_le 4 (session_id h)) in
  let? out := copy_range out 6 14 (to_le 8 (sequence h)) in
  Ok out.

Definition decode (input : bytes) : Result Header :=
  if len input <? HEADER_LEN then Err MessageTooShort else
  let? b0 := index input 0 in
  let version := Z.shiftr b0 4 in
  if negb (version =? VERSION) then Err UnsupportedVersion else
  let? t := FrameType.from_bits (Z.land b0 15) in
  let? fl := index input 1 in
  if negb (Z.land fl (not8 KNOWN_FLAGS) =? 0) then Err BadHeader else
  let? id := slice input 2 6 in
  let? seq := slice input 6 14 in
  Ok {| frame_type := t; flags := fl;
        session_id := from_le id; sequence := from_le seq |}.

(** ** Well-formedness and the image of a header on the wire *)
Definition wf (h : Header) : Prop :=
  is_u8 (flags h) /\ Z.land (flags h) (not8 KNOWN_FLAGS) = 0 /\
  is_u32 (session_id h) /\ is_u64 (sequence h).

Definition wire (h : Header) : bytes :=
  [Z.lor (Z.shiftl VERSION 4) (FrameType.to_bits (frame_type h)); flags h]
  ++ to_le 4 (session_id h) ++ to_le 8 (sequence h).
End Header.

(** ** Lemmas *)
Lemma frame_type_bits_roundtrip t : FrameType.from_bits (FrameType.to_bits t) = Ok t.
Proof. by destruct t. Qed.

Lemma frame_type_from_bits_inv b t :
  FrameType.from_bits b = Ok t -> b = FrameType.to_bits t.
Proof.
  unfold FrameType.from_bits. intros H.
  repeat (case_match; try discriminate); simplify_eq; done.
Qed.

Lemma first_byte_fields t :
  let b := Z.lor (Z.shiftl VERSION 4) (FrameType.to_bits t) in
  is_u8 b /\ Z.shiftr b 4 = VERSION /\ Z.land b 15 = FrameType.to_bits t.
Proof. destruct t; vm_compute; intuition congruence. Qed.

Lemma first_byte_inv b :
  is_u8 b -> Z.shiftr b 4 = VERSION ->
  b = Z.lor (Z.shiftl VERSION 4) (Z.land b 15).
Proof.
  intros Hb Hv.
  pose proof (byte_forall (fun b => implb (Z.shiftr b 4 =? 1)
    (b =? Z.lor (Z.shiftl 1 4) (Z.land b 15))) ltac:(by vm_compute) b Hb) as H.
  cbv beta in H. unfold VERSION in *. rewrite Hv in H. by apply Z.eqb_eq.
Qed.

Lemma len_header_wire h : len (Header.wire h) = 14.
Proof. unfold Header.wire. by autorewrite with len. Qed.
#[export] Hint Rewrite len_header_wire : len.

Lemma header_wire_bytes_ok h : Header.wf h -> bytes_ok (Header.wire h).
Proof.
  intros (Hf & _). unfold Header.wire.
  rewrite !bytes_ok_app, !bytes_ok_cons.
  pose proof (first_byte_fields (frame_type h)) as (? & _).
  repeat split; auto with fectp; try lia. constructor.
Qed.

Lemma header_encode_ok h out :
  HEADER_LEN <= len out ->
  Header.encode h out = Ok (Header.wire h ++ dropz HEADER_LEN out).
Proof.
  intros Hl. unfold Header.encode, set_index, HEADER_LEN in *.
  rewrite (proj2 (Z.ltb_ge _ _)) by lia.
  rewrite copy_range_at by len_lia.
  rewrite (copy_range_next [_]) by len_lia.
  rewrite (copy_range_next ([_] ++ [_])) by len_lia.
  rewrite (copy_range_next (([_] ++ [_]) ++ _)) by len_lia.
  autorewrite with len.
  by rewrite !dropz_dropz, <- !app_assoc by (autorewrite with len; lia).
Qed.

Lemma header_encode_short h out :
  len out < HEADER_LEN -> Header.encode h out = Err BufferTooSmall.
Proof. intros. unfold Header.encode. by rewrite (proj2 (Z.ltb_lt _ _)) by lia. Qed.

Lemma header_decode_wire h rest :
  Header.wf h -> Header.decode (Header.wire h ++ rest) = Ok h.
Proof.
  intros (Hf & Hk & Hs & Hq). unfold Header.decode.
  rewrite (proj2 (Z.ltb_ge _ _)) by len_lia.
  destruct (first_byte_fields (frame_type h)) as (_ & Hv & Ht).
  unfold Header.wire. rewrite <- !app_assoc. simpl app.
  rewrite index_0, Hv, Ht, frame_type_bits_roundtrip, index_1, Hk. simpl.
  rewrite (slice_eq _ [_; _] (to_le 4 (session_id h)) (to_le 8 (sequence h) ++ rest))
    by (done || autorewrite with len; lia).
  rewrite (slice_eq _ (_ :: _ :: to_le 4 (session_id h)) (to_le 8 (sequence h)) rest)
    by (done || autorewrite with len; lia).
  rewrite !from_le_to_le by (simpl; lia). by destruct h.
Qed.

Lemma header_decode_inv input h :
  bytes_ok input -> Header.decode input = Ok h ->
  Header.wf h /\ input = Header.wire h ++ dropz HEADER_LEN input.
Proof.
  unfold Header.decode. intros Hok H. inv_run H. slice_facts.
  match goal with H : FrameType.from_bits _ = _ |- _ =>
    apply frame_type_from_bits_inv in H; rename H into Ht end.
  match goal with H : index input 0 = Ok ?b |- _ =>
    pose proof (first_byte_inv b ltac:(done) ltac:(done)) as Hb0;
    apply index_slice in H; rename H into R0 end.
  match goal with H : index input 1 = Ok ?b |- _ =>
    apply index_slice in H; rename H into R1 end.
  rename select (slice input 2 6 = _) into R2.
  rename select (slice input 6 14 = _) into R3.
  split.
  { do 2 (split; [done|]). split; [by apply from_le_u32 | by apply from_le_u64]. }
  apply (slice_prefix (E:=Error)). unfold Header.wire.
  cbn [frame_type flags session_id sequence].
  rewrite !to_le_from_le, <- Ht, <- Hb0 by done.
  match goal with |- _ = Ok ([?x; ?y] ++ ?l) => change ([x; y] ++ l) with ([x] ++ [y] ++ l) end.
  apply (slice_join _ _ _ _ _ _ R0), (slice_join _ _ _ _ _ _ R1).
  by apply (slice_join _ _ _ _ _ _ R2).
Qed.

Lemma header_decode_no_panic input : is_panic (Header.decode input) = false.
Proof.
  unfold Header.decode, HEADER_LEN. zcase; [done|].
  destruct (index_ok (E:=Error) input 0) as (b0 & -> & _); [lia|].
  case_match; [done|].
  destruct (FrameType.from_bits _) eqn:Ht; [|done|].
  - destruct (index_ok (E:=Error) input 1) as (b1 & -> & _); [lia|].
    case_match; [done|]. by rewrite !slice_ok by lia.
  - unfold FrameType.from_bits in Ht. by repeat case_match.
Qed.

(** ** Properties *)

(** the header encoder and the parser are inverse: a well-formed header
    written at the front of any buffer large enough leaves the rest of the
    buffer untouched and parses back to itself. *)
Theorem header_roundtrip h out :
  Header.wf h -> HEADER_LEN <= len out ->
  exists out', Header.encode h out = Ok out' /\ Header.decode out' = Ok h /\
    len out' = len out /\ dropz HEADER_LEN out' = dropz HEADER_LEN out.
Proof.
  intros Hwf Hl. eexists. split; [by apply header_encode_ok|].
  split; [by apply header_decode_wire|]. split.
  - len_lia.
  - by rewrite dropz_app by len_lia.
Qed.

Lemma header_roundtrip_witness :
  exists out', Header.encode (mkHeader PathResponse 9 3735928559 65536) (zeros 20) = Ok out'
    /\ Header.decode out' = Ok (mkHeader PathResponse 9 3735928559 65536)
    /\ len out' = len (zeros 20) /\ dropz HEADER_LEN out' = dropz HEADER_LEN (zeros 20).
Proof.
  apply header_roundtrip.
  - repeat split; vm_compute; congruence.
  - vm_compute. congruence.
Defined.

(** the parser of untrusted bytes accepts exactly the encodings of
    well-formed headers (so every accepted header has one spelling, and every
    unknown version, type or flag is refused), and it never panics on any
    input, whatever its length. *)
Theorem header_decode_exact input :
  is_panic (Header.decode input) = false /\
  (bytes_ok input -> forall h,
     Header.decode input = Ok h <->
     Header.wf h /\ exists rest, input = Header.wire h ++ rest).
Proof.
  split; [apply header_decode_no_panic|]. intros Hok h. split.
  - intros H. destruct (header_decode_inv input h Hok H). eauto.
  - intros (Hwf & rest & ->). by apply header_decode_wire.
Qed.

Lemma header_decode_exact_witness :
  bytes_ok (Header.wire (Header.new Data 7)) /\
  (Header.decode (Header.wire (Header.new Data 7)) = Ok (Header.new Data 7) <->
   Header.wf (Header.new Data 7) /\
   exists rest, Header.wire (Header.new Data 7) = Header.wire (Header.new Data 7) ++ rest).
Proof.
  assert (bytes_ok (Header.wire (Header.new Data 7))).
  { repeat constructor; vm_compute; congruence. }
  split; [done|]. apply (header_decode_exact (Header.wire (Header.new Data 7))). done.
Defined.
