(* ===== verification/Fragment.v ===== *)
(** * Fragment descriptors (crates/fectp-core/src/fragment.rs)

    [Fragment], its wire format, and [fragments_needed]. The theorems show the
    parser accepts exactly the encodings of coherent descriptors and that a
    fragment count covers the message with no fragment to spare. *)
From S2P Require Import Prelude Bytes Error.

Definition FRAGMENT_LEN : Z := 8.
Definition MAX_MESSAGE_LEN : Z := 1048576.
Definition MAX_FRAGMENTS : Z := 4096.
#[export] Hint Unfold FRAGMENT_LEN MAX_MESSAGE_LEN MAX_FRAGMENTS : consts.

Record Fragment := mkFragment {
  message : Z;
  frag_index : Z;
  count : Z;
}.

#[global] Instance Fragment_eq_dec : EqDecision Fragment.
Proof. solve_decision. Defined.

Module Fragment.
Definition encode (f : Fragment) (out : bytes) : Result bytes :=
  if len out <? FRAGMENT_LEN then Err BufferTooSmall else
  let? out := copy_range out 0 4 (to_le 4 (message f)) in
  let? out := copy_range out 4 6 (to_le 2 (frag_index f)) in
  let? out := copy_range out 6 8 (to_le 2 (count f)) in
  Ok out.

Definition decode (input : bytes) : Result Fragment :=
  if len input <? FRAGMENT_LEN then Err MessageTooShort else
  let? m := slice input 0 4 in
  let? i := slice input 4 6 in
  let? c := slice input 6 8 in
  let f := {| message := from_le m; frag_index := from_le i; count := from_le c |} in
  if (count f =? 0) || (MAX_FRAGMENTS <? count f) || (count f <=? frag_index f)
  then Err BadHeader else Ok f.

(** [self.index + 1 == self.count]; the addition is on [u16]. *)
Definition is_last {E} (f : Fragment) : result E bool :=
  if frag_index f =? U16_MAX then Panic else Ok (frag_index f + 1 =? count f).

(** A descriptor that names a piece of a message. *)
Definition coherent (f : Fragment) : Prop :=
  is_u32 (message f) /\ 0 <= frag_index f < count f /\ count f <= MAX_FRAGMENTS.

Definition wire (f : Fragment) : bytes :=
  to_le 4 (message f) ++ to_le 2 (frag_index f) ++ to_le 2 (count f).
End Fragment.

(** [len.div_ceil(per_fragment)]. *)
Definition div_ceil (a b : Z) : Z := (a + b - 1) / b.

Definition fragments_needed (length per_fragment : Z) : option Z :=
  if (per_fragment =? 0) || (MAX_MESSAGE_LEN <? length) then None else
  let count := Z.max (div_ceil length per_fragment) 1 in
  if U16_MAX <? count then None
  else if count <=? MAX_FRAGMENTS then Some count else None.

(** ** Lemmas *)
Lemma len_fragment_wire f : len (Fragment.wire f) = 8.
Proof. unfold Fragment.wire. by autorewrite with len. Qed.
#[export] Hint Rewrite len_fragment_wire : len.

Lemma fragment_wire_bytes_ok f : bytes_ok (Fragment.wire f).
Proof. unfold Fragment.wire. rewrite !bytes_ok_app. auto with fectp. Qed.
#[export] Hint Resolve fragment_wire_bytes_ok : fectp.

Lemma fragment_encode_ok f out :
  FRAGMENT_LEN <= len out ->
  Fragment.encode f out = Ok (Fragment.wire f ++ dropz FRAGMENT_LEN out).
Proof.
  intros Hl. unfold Fragment.encode.
  rewrite (proj2 (Z.ltb_ge _ _)) by lia.
  rewrite copy_range_at by len_lia.
  rewrite copy_range_next by len_lia.
  rewrite copy_range_next by len_lia.
  autorewrite with len.
  by rewrite !dropz_dropz, <- !app_assoc by (autorewrite with len; lia).
Qed.

Lemma fragment_decode_wire f rest :
  Fragment.coherent f -> Fragment.decode (Fragment.wire f ++ rest) = Ok f.
Proof.
  intros (Hm & Hi & Hc). unfold Fragment.decode.
  rewrite (proj2 (Z.ltb_ge _ _)) by len_lia.
  unfold Fragment.wire. rewrite <- !app_assoc.
  rewrite (slice_eq _ [] (to_le 4 (message f)) (to_le 2 (frag_index f) ++ to_le 2 (count f) ++ rest))
    by (done || len_lia).
  rewrite (slice_eq _ (to_le 4 (message f)) (to_le 2 (frag_index f)) (to_le 2 (count f) ++ rest))
    by (done || len_lia).
  rewrite (slice_eq _ (to_le 4 (message f) ++ to_le 2 (frag_index f)) (to_le 2 (count f)) rest)
    by (rewrite <- ?app_assoc; done || len_lia).
  rewrite !from_le_to_le by (cbn; clia). cbn.
  rewrite (proj2 (Z.eqb_neq _ _)), (proj2 (Z.ltb_ge _ _)), (proj2 (Z.leb_gt _ _)) by clia.
  by destruct f.
Qed.

Lemma fragment_decode_inv input f :
  bytes_ok input -> Fragment.decode input = Ok f ->
  Fragment.coherent f /\ input = Fragment.wire f ++ dropz FRAGMENT_LEN input.
Proof.
  unfold Fragment.decode. intros Hok H. inv_run H. slice_facts. cbn [message frag_index count] in *.
  match goal with H : slice input 0 4 = Ok ?x |- _ =>
    pose proof (from_le_u32 x ltac:(done) ltac:(done)); rename H into R0 end.
  match goal with H : slice input 4 6 = Ok ?x |- _ =>
    pose proof (from_le_u16 x ltac:(done) ltac:(done)); rename H into R1 end.
  rename select (slice input 6 8 = _) into R2.
  split; [unfold Fragment.coherent; simpl; lia|].
  apply (slice_prefix (E:=Error)). unfold Fragment.wire.
  cbn [message frag_index count]. rewrite !to_le_from_le by done.
  apply (slice_join _ _ _ _ _ _ R0). by apply (slice_join _ _ _ _ _ _ R1).
Qed.

Lemma fragment_decode_no_panic input : is_panic (Fragment.decode input) = false.
Proof.
  unfold Fragment.decode. zcase; [done|].
  rewrite !slice_ok by clia. by case_match.
Qed.

Lemma fragment_is_last_coherent {E} f :
  Fragment.coherent f -> Fragment.is_last (E:=E) f = Ok (frag_index f + 1 =? count f).
Proof.
  intros (_ & ? & ?). unfold Fragment.is_last. rewrite (proj2 (Z.eqb_neq _ _)); [done|clia].
Qed.

Lemma div_ceil_spec a b :
  0 <= a -> 0 < b -> b * (div_ceil a b - 1) < a \/ a = 0 /\ div_ceil a b = 0.
Proof.
  intros. unfold div_ceil.
  pose proof (Z.div_mod (a + b - 1) b ltac:(lia)).
  pose proof (Z.mod_pos_bound (a + b - 1) b ltac:(lia)).
  destruct (Z.eqb_spec a 0) as [->|].
  - right. split; [done|]. apply Z.div_small. lia.
  - left. nia.
Qed.

Lemma div_ceil_covers a b : 0 <= a -> 0 < b -> a <= b * div_ceil a b /\ 0 <= div_ceil a b.
Proof.
  intros. unfold div_ceil.
  pose proof (Z.div_mod (a + b - 1) b ltac:(lia)).
  pose proof (Z.mod_pos_bound (a + b - 1) b ltac:(lia)).
  split; [nia|]. apply Z.div_pos; lia.
Qed.

Lemma fragments_needed_some length per n :
  0 <= length -> 0 <= per -> fragments_needed length per = Some n ->
  0 < per /\ length <= MAX_MESSAGE_LEN /\ 1 <= n <= MAX_FRAGMENTS /\
  length <= n * per /\ (n = 1 \/ (n - 1) * per < length).
Proof.
  unfold fragments_needed. intros ?? H. inv_run H.
  destruct (div_ceil_covers length per); [lia|lia|].
  destruct (div_ceil_spec length per); [lia|lia|nia|].
  destruct (Z.max_spec (div_ceil length per) 1) as [[? ->]|[? ->]]; nia.
Qed.

(** ** Properties *)

(** the fragment descriptor's parser accepts exactly the encodings of
    coherent descriptors (nonzero count within the limit, index before the
    count), so a receiver never holds an index past the end of its message;
    the encoder and the parser are inverse and the parser never panics. *)
Theorem fragment_decode_exact input :
  is_panic (Fragment.decode input) = false /\
  (bytes_ok input -> forall f,
     Fragment.decode input = Ok f <->
     Fragment.coherent f /\ Fragment.encode f input = Ok input).
Proof.
  split; [apply fragment_decode_no_panic|]. intros Hok f. split.
  - intros H. destruct (fragment_decode_inv input f Hok H) as [Hc Hi].
    split; [done|]. rewrite fragment_encode_ok by (rewrite Hi; len_lia). by f_equal.
  - intros (Hc & H). destruct (Z.leb_spec FRAGMENT_LEN (len input)) as [Hl|Hl].
    + rewrite fragment_encode_ok in H by done. simplify_eq.
      rewrite <- H. by apply fragment_decode_wire.
    + unfold Fragment.encode in H. by rewrite (proj2 (Z.ltb_lt _ _)) in H by lia.
Qed.

Lemma fragment_decode_exact_witness :
  bytes_ok [1; 0; 0; 0; 2; 0; 3; 0] /\
  (Fragment.decode [1; 0; 0; 0; 2; 0; 3; 0] = Ok (mkFragment 1 2 3) <->
   Fragment.coherent (mkFragment 1 2 3) /\
   Fragment.encode (mkFragment 1 2 3) [1; 0; 0; 0; 2; 0; 3; 0] = Ok [1; 0; 0; 0; 2; 0; 3; 0]).
Proof.
  assert (bytes_ok [1; 0; 0; 0; 2; 0; 3; 0]) as H.
  { repeat constructor; vm_compute; congruence. }
  split; [done|]. apply (fragment_decode_exact [1; 0; 0; 0; 2; 0; 3; 0]). done.
Defined.

(** [fragments_needed] succeeds exactly when a message within the size
    bound fits in at most [MAX_FRAGMENTS] fragments, and then the count is the
    least one (never zero) whose fragments hold the whole message. *)
Theorem fragments_needed_correct length per n :
  0 <= length -> 0 <= per ->
  fragments_needed length per = Some n <->
  0 < per /\ length <= MAX_MESSAGE_LEN /\ 1 <= n <= MAX_FRAGMENTS /\
  length <= n * per /\ (n = 1 \/ (n - 1) * per < length).
Proof.
  intros Hl Hp. split; [by apply fragments_needed_some|].
  intros (Hper & Hmax & Hn & Hcov & Hmin). unfold fragments_needed.
  rewrite (proj2 (Z.eqb_neq _ _)), (proj2 (Z.ltb_ge MAX_MESSAGE_LEN _)) by lia. simpl.
  destruct (div_ceil_covers length per) as [Hc0 Hc1]; [lia|lia|].
  assert (Z.max (div_ceil length per) 1 = n) as ->.
  { destruct (div_ceil_spec length per) as [Hs|[-> ->]]; [lia|lia| |nia].
    destruct (Z.max_spec (div_ceil length per) 1) as [[? ->]|[? ->]]; nia. }
  rewrite (proj2 (Z.ltb_ge _ _)), (proj2 (Z.leb_le _ _)) by clia. done.
Qed.

Lemma fragments_needed_correct_witness :
  fragments_needed 101 100 = Some 2 <->
  0 < 100 /\ 101 <= MAX_MESSAGE_LEN /\ 1 <= 2 <= MAX_FRAGMENTS /\
  101 <= 2 * 100 /\ (2 = 1 \/ (2 - 1) * 100 < 101).
Proof. apply fragments_needed_correct; lia. Defined.
