(* ===== verification/Varint.v ===== *)
(** * LEB128 varints and zigzag (crates/fectp-core/src/codec/varint.rs)

    The two maps and the varint writer and reader. The theorems show zigzag is
    a bijection between [i32] and [u32], and that the reader accepts exactly
    what the writer produces. *)
From S2P Require Import Prelude Bytes Error.

Module varint.
Definition MAX_LEN : nat := 5.

(** [((value << 1) ^ (value >> 31)) as u32]. *)
Definition zigzag (value : Z) : Z :=
  wrap32 (Z.lxor (to_i32 (Z.shiftl value 1)) (Z.shiftr value 31)).

(** [((value >> 1) as i32) ^ -((value & 1) as i32)]. *)
Definition unzigzag (value : Z) : Z :=
  Z.lxor (to_i32 (Z.shiftr value 1)) (- to_i32 (Z.land value 1)).

(** The writer's [loop]. A [u32] is zero after five shifts by seven, so
    [MAX_LEN] turns are enough; running out of them would be [Panic], which
    [varint_encode_exact] excludes. *)
Fixpoint encode_loop (fuel : nat) (value n : Z) (out : bytes) : Result (bytes * Z) :=
  match fuel with
  | O => Panic
  | S fuel =>
      if len out <=? n then Err BufferTooSmall else
      let byte := Z.land value 127 in
      let value := Z.shiftr value 7 in
      if value =? 0 then
        let? out := set_index out n byte in Ok (out, n + 1)
      else
        let? out := set_index out n (Z.lor byte 128) in
        encode_loop fuel value (n + 1) out
  end.

Definition encode (value : Z) (out : bytes) : Result (bytes * Z) :=
  encode_loop MAX_LEN value 0 out.

(** The reader's [for] over the first [MAX_LEN] bytes. *)
Fixpoint decode_loop (fuel : nat) (n value : Z) (input : bytes) : Result (Z * Z) :=
  match fuel, input with
  | S fuel, byte :: rest =>
      let shift := 7 * n in
      let payload := Z.land byte 127 in
      if (32 <=? shift) || negb (Z.shiftr (wrap32 (Z.shiftl payload shift)) shift =? payload)
      then Err BadHeader else
      let value := Z.lor value (wrap32 (Z.shiftl payload shift)) in
      if Z.land byte 128 =? 0 then
        if (0 <? n) && (byte =? 0) then Err BadHeader else Ok (value, n + 1)
      else decode_loop fuel (n + 1) value rest
  | _, _ => Err BadHeader
  end.

Definition decode (input : bytes) : Result (Z * Z) := decode_loop MAX_LEN 0 0 input.

(** ** Reference definition: base-128 digits, least significant first *)
Fixpoint digits (fuel : nat) (value : Z) : bytes :=
  match fuel with
  | O => []
  | S fuel =>
      if value <? 128 then [value]
      else (value mod 128 + 128) :: digits fuel (value / 128)
  end.

Definition spec (value : Z) : bytes := digits MAX_LEN value.

(** The integer map zigzag implements: 0, -1, 1, -2, 2, ... *)
Definition zigzag_spec (value : Z) : Z :=
  if 0 <=? value then 2 * value else - 2 * value - 1.
End varint.
Import varint.

(** ** Lemmas *)
Lemma zigzag_eq v : is_i32 v -> zigzag v = zigzag_spec v.
Proof.
  intros Hv. unfold zigzag, zigzag_spec, wrap32.
  rewrite Z.shiftl_mul_pow2, Z.shiftr_div_pow2 by lia.
  pose proof (to_i32_mod (v * 2 ^ 1)) as Hm. set (y := to_i32 (v * 2 ^ 1)) in *.
  zcase.
  - rewrite (Z.div_small v) by lia. rewrite Z.lxor_0_r, Hm.
    rewrite Z.mod_small by lia. lia.
  - replace (v / 2 ^ 31) with (-1) by (apply (Z.div_unique_pos _ _ _ (v + 2 ^ 31)); lia).
    rewrite Z.lxor_m1_r. unfold Z.lnot.
    replace (Z.pred (- y)) with (-1 - y) by lia.
    rewrite Zminus_mod, Hm, <- Zminus_mod.
    rewrite Z.mod_small by lia. lia.
Qed.

Lemma unzigzag_eq u :
  is_u32 u -> unzigzag u = if u mod 2 =? 0 then u / 2 else - (u / 2) - 1.
Proof.
  intros Hu. unfold unzigzag.
  rewrite Z.shiftr_div_pow2 by lia. change (2 ^ 1) with 2.
  replace (Z.land u 1) with (u mod 2) by (symmetry; apply (Z.land_ones u 1); lia).
  pose proof (Z.mod_pos_bound u 2 ltac:(lia)).
  assert (0 <= u / 2 < 2147483648).
  { split; [apply Z.div_pos; lia | apply Z.div_lt_upper_bound; lia]. }
  rewrite !to_i32_small by lia. zcase.
  - replace (u mod 2) with 0 by lia. by rewrite Z.lxor_0_r.
  - replace (u mod 2) with 1 by lia. change (- (1)) with (-1).
    rewrite Z.lxor_m1_r. unfold Z.lnot. lia.
Qed.

Lemma zigzag_range v : is_i32 v -> is_u32 (zigzag v).
Proof. intros. rewrite zigzag_eq by done. unfold zigzag_spec. zcase; lia. Qed.

Lemma unzigzag_zigzag v : is_i32 v -> unzigzag (zigzag v) = v.
Proof.
  intros Hv. rewrite unzigzag_eq by (by apply zigzag_range).
  rewrite zigzag_eq by done. unfold zigzag_spec.
  destruct (Z.leb_spec 0 v).
  - replace (2 * v) with (v * 2) by lia. rewrite Z.mod_mul, Z.div_mul by lia. done.
  - replace (-2 * v - 1) with (1 + (- v - 1) * 2) by lia.
    rewrite Z.mod_add, Z.div_add by lia. change (1 mod 2 =? 0) with false. change (1 / 2) with 0. cbv iota. lia.
Qed.

Lemma zigzag_unzigzag u : is_u32 u -> is_i32 (unzigzag u) /\ zigzag (unzigzag u) = u.
Proof.
  intros Hu. pose proof (Z.div_mod u 2 ltac:(lia)) as Hd.
  pose proof (Z.mod_pos_bound u 2 ltac:(lia)).
  assert (is_i32 (unzigzag u)) as Hi by (rewrite unzigzag_eq by done; zcase; lia).
  split; [done|]. rewrite zigzag_eq, unzigzag_eq by done. unfold zigzag_spec.
  repeat zcase; lia.
Qed.

Lemma digits_small f v : 0 <= v < 128 -> digits (S f) v = [v].
Proof. intros. simpl. by rewrite (proj2 (Z.ltb_lt _ _)) by lia. Qed.

Lemma digits_big f v :
  128 <= v -> digits (S f) v = (v mod 128 + 128) :: digits f (v / 128).
Proof. intros. simpl. by rewrite (proj2 (Z.ltb_ge _ _)) by lia. Qed.

Lemma digits_len f v :
  0 <= v -> 0 < len (digits (S f) v) <= Z.of_nat (S f).
Proof.
  revert v. induction f as [|f IH]; intros v Hv; destruct (Z.ltb_spec v 128).
  - rewrite digits_small by lia. len_lia.
  - rewrite digits_big by lia. simpl digits. len_lia.
  - rewrite digits_small by lia. len_lia.
  - rewrite digits_big by lia. rewrite len_cons.
    specialize (IH (v / 128) ltac:(apply Z.div_pos; lia)). lia.
Qed.

Lemma digits_bytes_ok f v : 0 <= v -> bytes_ok (digits f v).
Proof.
  revert v. induction f as [|f IH]; intros v Hv; [constructor|]. simpl. zcase.
  - repeat constructor; lia.
  - constructor.
    + pose proof (Z.mod_pos_bound v 128 ltac:(lia)). lia.
    + apply IH. apply Z.div_pos; lia.
Qed.

Lemma byte_fields v :
  Z.land v 127 = v mod 128 /\ Z.shiftr v 7 = v / 128 /\
  Z.lor (v mod 128) 128 = v mod 128 + 128.
Proof.
  split; [apply (Z.land_ones v 7); lia|].
  split; [apply (Z.shiftr_div_pow2 v 7); lia|].
  pose proof (Z.mod_pos_bound v 128 ltac:(lia)).
  change 128 with (Z.shiftl 1 7) at 2. rewrite lor_shiftl_add by lia. lia.
Qed.

Lemma encode_loop_spec fuel v p out :
  0 <= v < 128 ^ Z.of_nat fuel -> (0 < fuel)%nat ->
  encode_loop fuel v (len p) (p ++ out) =
  if len (digits fuel v) <=? len out
  then Ok (p ++ digits fuel v ++ dropz (len (digits fuel v)) out, len p + len (digits fuel v))
  else Err BufferTooSmall.
Proof.
  revert v p out. induction fuel as [|f IH]; intros v p out Hv Hf; [lia|].
  destruct (byte_fields v) as (Hb & Hs & Ho).
  pose proof (digits_len f v ltac:(lia)) as Hd.
  cbn [encode_loop]. rewrite Hb, Hs, Ho. rewrite len_app.
  destruct (Z.leb_spec (len p + len out) (len p)) as [H0|H0].
  { rewrite (proj2 (Z.leb_gt _ _)); [done|]. len_lia. }
  destruct (Z.ltb_spec v 128) as [Hlt|Hge].
  - rewrite digits_small by lia. rewrite Z.div_small by lia.
    cbn [Z.eqb]. unfold set_index. rewrite copy_range_next by len_lia.
    autorewrite with len. rewrite (proj2 (Z.leb_le _ _)) by lia.
    rewrite Z.mod_small by lia. by rewrite <- app_assoc.
  - rewrite (digits_big f v) in * by lia.
    assert (1 <= v / 128 < 128 ^ Z.of_nat f) as Hq.
    { rewrite Nat2Z.inj_succ, Z.pow_succ_r in Hv by lia.
      split; [apply Z.div_le_lower_bound; lia | apply Z.div_lt_upper_bound; lia]. }
    rewrite (proj2 (Z.eqb_neq _ _)) by lia.
    unfold set_index. rewrite copy_range_next by len_lia.
    replace (len p + 1) with (len (p ++ [v mod 128 + 128])) by len_lia.
    assert (f <> 0%nat) by (intros ->; simpl in Hq; lia).
    rewrite IH by lia. autorewrite with len in *.
    set (k := len (digits f (v / 128))) in *.
    destruct (Z.leb_spec k (Z.max 0 (len out - Z.max 0 (1 + 0)))) as [Hk|Hk];
      destruct (Z.leb_spec (1 + k) (len out)) as [Hk'|Hk']; try lia; [|done].
    rewrite dropz_dropz by len_lia. f_equal. f_equal; [|lia].
    rewrite <- app_assoc. simpl. do 3 f_equal. f_equal. lia.
Qed.

Lemma varint_encode_eq v out :
  is_u32 v ->
  encode v out =
  if len (spec v) <=? len out
  then Ok (spec v ++ dropz (len (spec v)) out, len (spec v)) else Err BufferTooSmall.
Proof.
  intros. apply (encode_loop_spec MAX_LEN v []); [|unfold MAX_LEN; lia].
  split; [lia|]. change (128 ^ Z.of_nat MAX_LEN) with 34359738368. lia.
Qed.

(** What the reader computes from one byte. *)
Lemma payload_shift b n :
  0 <= n -> 7 * n < 32 -> is_u8 b ->
  let p := Z.land b 127 in
  p = b mod 128 /\ 0 <= p < 128 /\
  (Z.shiftr (wrap32 (Z.shiftl p (7 * n))) (7 * n) = p <-> p * 2 ^ (7 * n) < 4294967296) /\
  (p * 2 ^ (7 * n) < 4294967296 -> wrap32 (Z.shiftl p (7 * n)) = Z.shiftl p (7 * n)).
Proof.
  intros Hn Hs Hb p. assert (p = b mod 128) as Hp by (apply byte_fields).
  pose proof (Z.mod_pos_bound b 128 ltac:(lia)) as Hr. rewrite <- Hp in Hr.
  split; [done|]. split; [done|].
  rewrite Z.shiftl_mul_pow2, Z.shiftr_div_pow2 by lia. unfold wrap32.
  set (k := 2 ^ (7 * n)). assert (0 < k) as Hk by (apply Z.pow_pos_nonneg; lia).
  assert (p * k < 4294967296 -> (p * k) mod 4294967296 = p * k) as Hsm.
  { intros. apply Z.mod_small. nia. }
  split; [|done]. split.
  - intros Hq. pose proof (Z.mod_pos_bound (p * k) 4294967296 ltac:(lia)).
    pose proof (Z.mul_div_le ((p * k) mod 4294967296) k Hk). nia.
  - intros Hlt. rewrite Hsm by done. by apply Z.div_mul; lia.
Qed.

Lemma high_bit b : is_u8 b -> (Z.land b 128 =? 0) = (b <? 128).
Proof.
  intros Hb. apply Bool.eqb_prop.
  exact (byte_forall (fun b => Bool.eqb (Z.land b 128 =? 0) (b <? 128))
    ltac:(by vm_compute) b Hb).
Qed.

(** One turn of the reader, as arithmetic. *)
Lemma decode_loop_step fuel n value b rest :
  0 <= n -> 7 * n < 32 -> 0 <= value < 2 ^ (7 * n) -> is_u8 b ->
  decode_loop (S fuel) n value (b :: rest) =
  if 4294967296 <=? b mod 128 * 2 ^ (7 * n) then Err BadHeader
  else if b <? 128 then
    if (0 <? n) && (b =? 0) then Err BadHeader
    else Ok (value + b mod 128 * 2 ^ (7 * n), n + 1)
  else decode_loop fuel (n + 1) (value + b mod 128 * 2 ^ (7 * n)) rest.
Proof.
  intros Hn Hs Hv Hb. cbn [decode_loop].
  destruct (payload_shift b n Hn Hs Hb) as (Hp & Hr & Hiff & Hw).
  rewrite (proj2 (Z.leb_gt 32 _)) by lia. cbn [orb].
  rewrite high_bit by done. destruct (Z.leb_spec 4294967296 (b mod 128 * 2 ^ (7 * n))).
  - rewrite <- Hp in *. rewrite (proj2 (Z.eqb_neq _ _)); [done|].
    intros Hc%Hiff. lia.
  - rewrite <- Hp in *. rewrite (proj2 (Z.eqb_eq _ _)) by (by apply Hiff).
    cbn [negb]. rewrite Hw by done. rewrite lor_shiftl_add by lia. done.
Qed.

Lemma pow7_succ n : 0 <= n -> 2 ^ (7 * (n + 1)) = 128 * 2 ^ (7 * n).
Proof.
  intros. replace (7 * (n + 1)) with (7 + 7 * n) by lia.
  rewrite Z.pow_add_r by lia. done.
Qed.

Lemma decode_loop_digits fuel n value v rest :
  Z.of_nat fuel + n = 5 -> 0 <= n -> 0 <= value < 2 ^ (7 * n) -> 0 <= v ->
  (0 < n -> 0 < v) -> v * 2 ^ (7 * n) < 4294967296 -> v < 128 ^ Z.of_nat fuel ->
  decode_loop fuel n value (digits fuel v ++ rest) =
  Ok (value + v * 2 ^ (7 * n), n + len (digits fuel v)).
Proof.
  revert n value v. induction fuel as [|f IH]; intros n value v Hf Hn Hval Hv Hpos Hlt Hb.
  { simpl in Hb. assert (n = 5) as -> by lia. lia. }
  assert (0 < 2 ^ (7 * n)) by (apply Z.pow_pos_nonneg; lia).
  destruct (Z.ltb_spec v 128) as [Hs|Hge].
  - rewrite digits_small by lia. simpl app. rewrite decode_loop_step by lia.
    rewrite Z.mod_small by lia. rewrite (proj2 (Z.leb_gt _ _)) by lia.
    rewrite (proj2 (Z.ltb_lt v _)) by lia.
    change (len [v]) with 1.
    destruct (Z.ltb_spec 0 n); simpl; [|f_equal; f_equal; lia].
    rewrite (proj2 (Z.eqb_neq _ _)) by lia. f_equal.
  - rewrite digits_big by lia. simpl app.
    pose proof (Z.div_mod v 128 ltac:(lia)) as Hd.
    pose proof (Z.mod_pos_bound v 128 ltac:(lia)) as Hm.
    assert ((v mod 128 + 128) mod 128 = v mod 128) as Hmm.
    { replace (v mod 128 + 128) with (v mod 128 + 1 * 128) by lia.
      by rewrite Z.mod_add, Z.mod_mod by lia. }
    assert (1 <= v / 128) by (apply Z.div_le_lower_bound; lia).
    rewrite decode_loop_step by lia. rewrite Hmm.
    rewrite (proj2 (Z.leb_gt _ _)) by nia. rewrite (proj2 (Z.ltb_ge _ _)) by lia.
    rewrite IH.
    + rewrite pow7_succ, len_cons by lia. f_equal. f_equal; [|lia].
      rewrite Hd at 3. ring.
    + lia.
    + lia.
    + rewrite pow7_succ by lia. nia.
    + lia.
    + lia.
    + rewrite pow7_succ by lia. nia.
    + rewrite Nat2Z.inj_succ, Z.pow_succ_r in Hb by lia. apply Z.div_lt_upper_bound; lia.
Qed.

Lemma decode_loop_inv fuel n value input v k :
  Z.of_nat fuel + n = 5 -> 0 <= n -> 0 <= value < 2 ^ (7 * n) -> bytes_ok input ->
  decode_loop fuel n value input = Ok (v, k) ->
  exists w rest, v = value + w * 2 ^ (7 * n) /\ 0 <= w /\ (0 < n -> 0 < w) /\
    w * 2 ^ (7 * n) < 4294967296 /\ w < 128 ^ Z.of_nat fuel /\
    input = digits fuel w ++ rest /\ k = n + len (digits fuel w).
Proof.
  revert n value input. induction fuel as [|f IH]; intros n value input Hf Hn Hval Hok H; [done|].
  destruct input as [|b input]; [done|]. apply bytes_ok_cons in Hok as [Hb Hok].
  rewrite decode_loop_step in H by lia.
  assert (0 < 2 ^ (7 * n)) by (apply Z.pow_pos_nonneg; lia).
  pose proof (Z.mod_pos_bound b 128 ltac:(lia)) as Hm.
  rewrite Nat2Z.inj_succ, Z.pow_succ_r by lia.
  assert (1 <= 128 ^ Z.of_nat f) by (apply Z.pow_le_mono_r with (b := 0); lia).
  zcase_in H; [done|]. zcase_in H.
  - rewrite (Z.mod_small b) in * by lia.
    destruct ((0 <? n) && (b =? 0)) eqn:Hz; [done|]. simplify_eq.
    exists b, input. rewrite digits_small by lia.
    repeat split; lia || done.
  - assert (b mod 128 = b - 128) as Hbm.
    { symmetry. apply (Z.mod_unique_pos _ _ 1); lia. }
    apply IH in H as (w & rest & -> & Hw & Hwp & Hlt & Hwb & -> & ->);
      [|lia|lia|rewrite pow7_succ by lia; nia|done].
    specialize (Hwp ltac:(lia)). rewrite pow7_succ in * by lia.
    assert ((b mod 128 + 128 * w) mod 128 = b mod 128) as Hq1.
    { symmetry. apply (Z.mod_unique_pos _ _ w); lia. }
    assert ((b mod 128 + 128 * w) / 128 = w) as Hq2.
    { symmetry. apply (Z.div_unique_pos _ _ _ (b mod 128)); lia. }
    exists (b mod 128 + 128 * w), rest. rewrite digits_big by lia.
    rewrite Hq1, Hq2, len_cons.
    split; [ring|]. split; [lia|]. split; [lia|].
    split; [|split; [lia|]; split; [simpl; f_equal; lia | lia]].
    { (* the product stays below 2^32 because every digit does *)
      destruct (Z.leb_spec 4 n) as [H4|H4].
      { exfalso. assert (n = 4) as -> by lia. change (2 ^ (7 * 4)) with 268435456 in *. lia. }
      assert (n = 0 \/ n = 1 \/ n = 2 \/ n = 3) as Hc by lia.
      destruct Hc as [-> | [-> | [-> | ->]]];
        [change (2 ^ (7 * 0)) with 1 in * | change (2 ^ (7 * 1)) with 128 in *
        | change (2 ^ (7 * 2)) with 16384 in * | change (2 ^ (7 * 3)) with 2097152 in *]; lia. }
Qed.

Lemma varint_decode_spec v rest :
  is_u32 v -> decode (spec v ++ rest) = Ok (v, len (spec v)).
Proof.
  intros Hv. unfold decode, spec.
  rewrite decode_loop_digits by (change (2 ^ (7 * 0)) with 1;
    change (128 ^ Z.of_nat MAX_LEN) with 34359738368; unfold MAX_LEN; lia).
  change (2 ^ (7 * 0)) with 1. do 2 f_equal; lia.
Qed.

Lemma varint_decode_inv input v k :
  bytes_ok input -> decode input = Ok (v, k) ->
  is_u32 v /\ k = len (spec v) /\ exists rest, input = spec v ++ rest.
Proof.
  intros Hok H.
  destruct (decode_loop_inv MAX_LEN 0 0 input v k) as
    (w & rest & -> & Hw & _ & Hlt & _ & Hi & Hk); try done.
  change (2 ^ (7 * 0)) with 1 in *. replace (0 + w * 1) with w by lia.
  unfold spec. split; [lia|]. split; [lia|]. eauto.
Qed.

Lemma decode_loop_no_panic fuel n value input :
  is_panic (decode_loop fuel n value input) = false.
Proof.
  revert n value input.
  induction fuel as [|f IH]; intros n value [|b input]; cbn [decode_loop]; try done.
  destruct (orb _ _); [done|].
  destruct (Z.land b 128 =? 0); [by destruct (andb _ _) | apply IH].
Qed.

Lemma decode_loop_err fuel n value input e :
  decode_loop fuel n value input = Err e -> e = BadHeader.
Proof.
  revert n value input.
  induction fuel as [|f IH]; intros n value [|b input]; cbn [decode_loop]; try congruence.
  destruct (orb _ _); [congruence|].
  destruct (Z.land b 128 =? 0); [destruct (andb _ _); congruence | apply IH].
Qed.

Lemma varint_decode_no_panic input : is_panic (decode input) = false.
Proof. apply decode_loop_no_panic. Qed.

Lemma spec_len v : 0 <= v -> 1 <= len (spec v) <= 5.
Proof. intros. unfold spec. pose proof (digits_len 4 v ltac:(lia)). unfold MAX_LEN. lia. Qed.

Lemma spec_bytes_ok v : 0 <= v -> bytes_ok (spec v).
Proof. apply digits_bytes_ok. Qed.

(** ** Properties *)

(** zigzag is a bijection from [i32] to [u32] whose inverse is unzigzag,
    and it is the map 0, -1, 1, -2, ... so values near zero stay small; the
    wrapping shift loses nothing. *)
Theorem zigzag_bijection :
  (forall v, is_i32 v -> is_u32 (zigzag v) /\ unzigzag (zigzag v) = v
     /\ zigzag v = zigzag_spec v) /\
  (forall u, is_u32 u -> is_i32 (unzigzag u) /\ zigzag (unzigzag u) = u).
Proof.
  split; [|apply zigzag_unzigzag]. intros v Hv.
  auto using zigzag_range, unzigzag_zigzag, zigzag_eq.
Qed.

Lemma zigzag_bijection_witness :
  (is_u32 (zigzag (-3)) /\ unzigzag (zigzag (-3)) = -3 /\ zigzag (-3) = zigzag_spec (-3)) /\
  (is_i32 (unzigzag 4294967295) /\ zigzag (unzigzag 4294967295) = 4294967295).
Proof. split; [apply (proj1 zigzag_bijection) | apply (proj2 zigzag_bijection)]; lia. Defined.

(** the varint writer emits the base-128 digits of any [u32] in one to
    five bytes, at the front of any buffer that holds them, and fails with
    [BufferTooSmall] on any shorter buffer (its loop always ends); the reader
    recovers the value and its length whatever follows. *)
Theorem varint_encode_exact v out :
  is_u32 v ->
  1 <= len (spec v) <= 5 /\
  encode v out =
    (if len (spec v) <=? len out
     then Ok (spec v ++ dropz (len (spec v)) out, len (spec v)) else Err BufferTooSmall) /\
  (forall out' n, encode v out = Ok (out', n) -> decode out' = Ok (v, n)).
Proof.
  intros Hv. split; [apply spec_len; lia|]. split; [by apply varint_encode_eq|].
  intros out' n. rewrite varint_encode_eq by done. zcase; [|done].
  intros. simplify_eq. by apply varint_decode_spec.
Qed.

Lemma varint_encode_exact_witness :
  1 <= len (spec 300) <= 5 /\
  encode 300 (zeros 4) = (if len (spec 300) <=? len (zeros 4)
     then Ok (spec 300 ++ dropz (len (spec 300)) (zeros 4), len (spec 300))
     else Err BufferTooSmall) /\
  (forall out' n, encode 300 (zeros 4) = Ok (out', n) -> decode out' = Ok (300, n)).
Proof. apply varint_encode_exact. lia. Defined.

(** every value has exactly one varint spelling: the reader accepts an
    input exactly when it starts with the writer's encoding of the value it
    returns (overlong, overflowing and truncated encodings are refused), and
    it never panics. *)
Theorem varint_decode_canonical input :
  is_panic (decode input) = false /\
  (bytes_ok input -> forall v k,
     decode input = Ok (v, k) <->
     is_u32 v /\ k = len (spec v) /\ exists rest, input = spec v ++ rest).
Proof.
  split; [apply varint_decode_no_panic|]. intros Hok v k. split.
  - by apply varint_decode_inv.
  - intros (Hv & -> & rest & ->). by apply varint_decode_spec.
Qed.

Lemma varint_decode_canonical_witness :
  bytes_ok [172; 2; 7] /\
  (decode [172; 2; 7] = Ok (300, 2) <->
   is_u32 300 /\ 2 = len (spec 300) /\ exists rest, [172; 2; 7] = spec 300 ++ rest).
Proof.
  assert (bytes_ok [172; 2; 7]) as H.
  { repeat constructor; vm_compute; congruence. }
  split; [done|]. apply (varint_decode_canonical [172; 2; 7]). done.
Defined.
