(* ===== verification/Transpose.v ===== *)
(** * Byte transposition (crates/fectp-core/src/codec/transpose.rs)

    The shuffle filter and its inverse, loop for loop. The theorem shows the
    transform is lossless for every element size and every input length. *)
From S2P Require Import Prelude Bytes Error.

Module transpose.
Definition encode (input : bytes) (element_size : Z) (out : bytes) : Result (bytes * Z) :=
  if element_size =? 0 then Err BadHeader else
  if len out <? len input then Err BufferTooSmall else
  let elements := len input / element_size in
  let body := elements * element_size in
  let? (out, written) := for_in 0 element_size (fun byte st =>
      for_in 0 elements (fun element '(out, written) =>
        let? x := index input (element * element_size + byte) in
        let? out := set_index out written x in
        Ok (out, written + 1)) st) (out, 0) in
  let? tail := slice_from input body in
  let? out := copy_range out written (len input) tail in
  Ok (out, len input).

Definition decode (input : bytes) (element_size : Z) (out : bytes) : Result (bytes * Z) :=
  if element_size =? 0 then Err BadHeader else
  if len out <? len input then Err BufferTooSmall else
  let elements := len input / element_size in
  let body := elements * element_size in
  let? (out, read) := for_in 0 element_size (fun byte st =>
      for_in 0 elements (fun element '(out, read) =>
        let? x := index input read in
        let? out := set_index out (element * element_size + byte) x in
        Ok (out, read + 1)) st) (out, 0) in
  let? tail := slice_from input body in
  let? out := copy_range out body (len input) tail in
  Ok (out, len input).
End transpose.

(** ** Lemmas *)
Lemma body_bounds n es :
  0 <= n -> 0 < es -> 0 <= n / es /\ n / es * es <= n < n / es * es + es.
Proof.
  intros. pose proof (Z.div_mod n es ltac:(lia)).
  pose proof (Z.mod_pos_bound n es ltac:(lia)).
  split; [apply Z.div_pos; lia|]. lia.
Qed.

(** The pairs visited before [(b, e)] by the nested loops. *)
Definition visited (k b e b' e' : Z) : Prop :=
  0 <= b' /\ 0 <= e' < k /\ (b' < b \/ b' = b /\ e' < e).

Lemma set_index_in_range {A} (l : list A) i v :
  0 <= i < len l -> exists l', set_index (E:=Error) l i v = Ok l'.
Proof.
  intros. unfold set_index, copy_range.
  rewrite !(proj2 (Z.leb_le _ _)) by lia.
  rewrite (proj2 (Z.eqb_eq (len [v]) _)) by len_lia. eauto.
Qed.

(** Both nests write one byte per visited pair, at [dst b e], the byte of
    [input] at [src b e]: after the loops every visited position of the output
    holds its byte. *)
Lemma nest_spec (input out : bytes) es k (dst src : Z -> Z -> Z)
    (body : Z -> Z -> bytes * Z -> Result (bytes * Z)) :
  0 <= es -> 0 <= k ->
  (forall b e, 0 <= b < es -> 0 <= e < k ->
     0 <= src b e < len input /\ 0 <= dst b e < len out) ->
  (forall b e b' e', 0 <= b < es -> 0 <= e < k -> visited k b e b' e' -> dst b' e' <> dst b e) ->
  (forall b e o n, 0 <= b < es -> 0 <= e < k -> n = b * k + e ->
     body b e (o, n) =
     let? x := index input (src b e) in
     let? o := set_index o (dst b e) x in Ok (o, n + 1)) ->
  exists out',
    for_in 0 es (fun b st => for_in 0 k (body b) st) (out, 0) = Ok (out', es * k) /\
    len out' = len out /\
    (forall b e, 0 <= b < es -> 0 <= e < k ->
       chunk 1 (dst b e) out' = chunk 1 (src b e) input).
Proof.
  intros Hes Hk Hrange Hinj Hbody.
  set (I := fun b e (st : bytes * Z) =>
    st.2 = b * k + e /\ len st.1 = len out /\
    forall b' e', b' < es -> visited k b e b' e' ->
      chunk 1 (dst b' e') st.1 = chunk 1 (src b' e') input).
  destruct (for_in_ok (E:=Error) (fun b => I b 0) 0 es
    (fun b st => for_in 0 k (body b) st) (out, 0)) as ((out' & n) & Hrun & Hn & Hl & Hc).
  - lia.
  - unfold I. simpl. split; [lia|]. split; [done|]. unfold visited. lia.
  - intros b st Hb HI.
    destruct (for_in_ok (E:=Error) (fun e => I b e) 0 k (body b) st) as (st' & -> & HI');
      [lia|done| |].
    + intros e [o n] He (Hn & Hl & Hc). simpl in *.
      rewrite Hbody by lia. destruct (Hrange b e Hb He) as [Hs Hd].
      destruct (index_ok (E:=Error) input (src b e) Hs) as (x & Hx & _).
      rewrite Hx. destruct (set_index_in_range o (dst b e) x) as (o' & Ho); [lia|].
      rewrite Ho. exists (o', n + 1). split; [done|]. unfold I. simpl.
      split; [lia|]. split; [by rewrite (copy_range_ok_len _ _ _ _ _ Ho)|].
      intros b' e' Hb' (? & ? & Hlex).
      destruct (decide (b' = b /\ e' = e)) as [[-> ->]|Hne].
      { pose proof (chunk_copy_same _ _ _ _ _ Ho) as Hsame.
        replace (dst b e + 1 - dst b e) with 1 in Hsame by lia.
        by rewrite Hsame, (chunk_index _ _ _ Hx). }
      assert (visited k b e b' e') as Hv by (unfold visited; lia).
      pose proof (Hinj _ _ _ _ Hb He Hv).
      destruct (Hrange b' e') as [_ ?]; [lia|lia|].
      rewrite (chunk_copy_other _ _ _ _ _ 1 _ Ho) by lia. by apply Hc.
    + eexists. split; [done|]. destruct HI' as (Hn & Hl & Hc).
      unfold I. split; [lia|]. split; [done|].
      intros b' e' ? (? & ? & ?). apply Hc; [done|]. unfold visited. lia.
  - exists out'. simpl in *. replace (es * k) with n by lia. split; [done|]. split; [done|].
    intros b e Hb He. apply Hc; [lia|]. unfold visited. lia.
Qed.

(** The copy of the bytes past the last whole element. *)
Lemma tail_copy (input o : bytes) a :
  0 <= a <= len input -> len input <= len o ->
  exists t o', slice_from (E:=Error) input a = Ok t /\
    copy_range (E:=Error) o a (len input) t = Ok o' /\ len o' = len o /\
    (forall p, 0 <= p -> p + 1 <= a -> chunk 1 p o' = chunk 1 p o) /\
    chunk (len input - a) a o' = dropz a input.
Proof.
  intros Ha Hl. unfold slice_from.
  destruct (slice_in_range (E:=Error) input a (len input)) as (t & Ht & Hlt); [lia|lia|].
  destruct (copy_range (E:=Error) o a (len input) t) as [o'| |] eqn:Hcp.
  2-3: exfalso; unfold copy_range in Hcp;
       rewrite !(proj2 (Z.leb_le _ _)), (proj2 (Z.eqb_eq _ _)) in Hcp by lia; done.
  exists t, o'. split; [done|]. split; [done|].
  split; [by rewrite (copy_range_ok_len _ _ _ _ _ Hcp)|]. split.
  - intros. apply (chunk_copy_other _ _ _ _ _ 1 _ Hcp); lia.
  - rewrite (chunk_copy_same _ _ _ _ _ Hcp).
    apply chunk_of_slice in Ht. rewrite <- Ht. apply takez_all. len_lia.
Qed.

(** Both nests end in [Ok] on every input; what the output holds, position by
    position. *)
Lemma transpose_encode_ok input es out :
  0 < es -> len input <= len out ->
  exists out', transpose.encode input es out = Ok (out', len input) /\ len out' = len out /\
    (forall b e, 0 <= b < es -> 0 <= e < len input / es ->
       chunk 1 (b * (len input / es) + e) out' = chunk 1 (e * es + b) input) /\
    chunk (len input - len input / es * es) (len input / es * es) out'
      = dropz (len input / es * es) input.
Proof.
  intros Hes Hl. pose proof (len_nonneg input).
  destruct (body_bounds (len input) es ltac:(lia) Hes) as [Hk Hb].
  set (k := len input / es) in *. unfold transpose.encode.
  rewrite (proj2 (Z.eqb_neq _ _)), (proj2 (Z.ltb_ge _ _)) by lia. fold k.
  destruct (nest_spec input out es k (fun b e => b * k + e) (fun b e => e * es + b)
    (fun byte element '(out, written) =>
        let? x := index input (element * es + byte) in
        let? out := set_index out written x in
        Ok (out, written + 1))) as (o & Hrun & Ho & Hc).
  - lia.
  - lia.
  - intros. nia.
  - unfold visited. intros. nia.
  - intros b e o n ? ? ->. done.
  - rewrite Hrun.
    replace (es * k) with (k * es) by lia.
    destruct (tail_copy input o (k * es)) as (t & o' & -> & -> & Hlo & Hkeep & Ht); [lia|lia|].
    exists o'. split; [done|]. split; [lia|]. split; [|done].
    intros b e ? ?. rewrite <- Hc by lia. apply Hkeep; nia.
Qed.

Lemma transpose_decode_ok input es out :
  0 < es -> len input <= len out ->
  exists out', transpose.decode input es out = Ok (out', len input) /\ len out' = len out /\
    (forall b e, 0 <= b < es -> 0 <= e < len input / es ->
       chunk 1 (e * es + b) out' = chunk 1 (b * (len input / es) + e) input) /\
    chunk (len input - len input / es * es) (len input / es * es) out'
      = dropz (len input / es * es) input.
Proof.
  intros Hes Hl. pose proof (len_nonneg input).
  destruct (body_bounds (len input) es ltac:(lia) Hes) as [Hk Hb].
  set (k := len input / es) in *. unfold transpose.decode.
  rewrite (proj2 (Z.eqb_neq _ _)), (proj2 (Z.ltb_ge _ _)) by lia. fold k.
  destruct (nest_spec input out es k (fun b e => e * es + b) (fun b e => b * k + e)
    (fun byte element '(out, read) =>
        let? x := index input read in
        let? out := set_index out (element * es + byte) x in
        Ok (out, read + 1))) as (o & Hrun & Ho & Hc).
  - lia.
  - lia.
  - intros. nia.
  - unfold visited. intros b e b' e' ? ? (? & ? & ?) Heq.
    assert (e = e') by nia. nia.
  - intros b e o n ? ? ->. done.
  - rewrite Hrun.
    replace (es * k) with (k * es) by lia.
    destruct (tail_copy input o (k * es)) as (t & o' & -> & -> & Hlo & Hkeep & Ht); [lia|lia|].
    exists o'. split; [done|]. split; [lia|]. split; [|done].
    intros b e ? ?. rewrite <- Hc by lia. apply Hkeep; nia.
Qed.

Lemma transpose_roundtrip input es out out2 :
  0 < es -> len input <= len out -> len input <= len out2 ->
  exists enc dec,
    transpose.encode input es out = Ok (enc, len input) /\
    transpose.decode (takez (len input) enc) es out2 = Ok (dec, len input) /\
    takez (len input) dec = input.
Proof.
  intros Hes H1 H2. pose proof (len_nonneg input) as Hn.
  destruct (transpose_encode_ok input es out Hes H1) as (enc & He & Hle & Hce & Hte).
  assert (len (takez (len input) enc) = len input) as Hlt by len_lia.
  destruct (transpose_decode_ok (takez (len input) enc) es out2 Hes) as
    (dec & Hd & Hld & Hcd & Htd); [lia|]. rewrite Hlt in *.
  exists enc, dec. split; [done|]. split; [done|].
  destruct (body_bounds (len input) es Hn Hes) as [Hk Hb].
  set (k := len input / es) in *.
  replace (len input) with (k * es + (len input - k * es)) at 1 by lia.
  rewrite chunk_split, Htd by lia.
  etransitivity; [|apply (takez_dropz (k * es) input)]. f_equal.
  - rewrite <- (Z.mul_1_r (k * es)). apply chunks_eq; [lia|nia|].
    intros i Hi. pose proof (Z.div_mod i es ltac:(lia)) as Hdm.
    pose proof (Z.mod_pos_bound i es ltac:(lia)).
    assert (0 <= i / es < k).
    { split; [apply Z.div_pos; lia | apply Z.div_lt_upper_bound; lia]. }
    replace (i * 1) with (i / es * es + i mod es) by lia.
    rewrite Hcd by lia. rewrite chunk_takez by nia. by apply Hce.
  - rewrite <- Hte, <- (chunk_takez _ (k * es) (len input) enc) by lia.
    symmetry. apply takez_all. len_lia.
Qed.

(** ** Properties *)

(** byte transposition is lossless: for every nonzero element size and
    every input, whole elements or not, both directions succeed whenever the
    output buffer is as long as the input, keep the length, and decoding what
    was encoded gives back exactly the input. A zero element size is refused
    with [BadHeader] and a short buffer with [BufferTooSmall]. *)
Theorem transpose_lossless input es out out2 :
  0 <= es -> len input <= len out2 ->
  match transpose.encode input es out with
  | Ok (enc, n) => n = len input /\
      exists dec, transpose.decode (takez n enc) es out2 = Ok (dec, n) /\
        takez n dec = input
  | Err e => (es = 0 /\ e = BadHeader) \/ (len out < len input /\ e = BufferTooSmall)
  | Panic => False
  end.
Proof.
  intros Hes Hl2. destruct (Z.eqb_spec es 0) as [->|]; [by left|].
  destruct (Z.ltb_spec (len out) (len input)).
  - unfold transpose.encode. rewrite (proj2 (Z.eqb_neq _ _)) by done.
    rewrite (proj2 (Z.ltb_lt _ _)) by done. by right.
  - destruct (transpose_roundtrip input es out out2) as (enc & dec & -> & ? & ?);
      [lia..|]. eauto.
Qed.

Lemma transpose_lossless_witness :
  match transpose.encode [1;2;3;4;5;6;7] 3 (zeros 7) with
  | Ok (enc, n) => n = len [1;2;3;4;5;6;7] /\
      exists dec, transpose.decode (takez n enc) 3 (zeros 9) = Ok (dec, n) /\
        takez n dec = [1;2;3;4;5;6;7]
  | Err e => (3 = 0 /\ e = BadHeader) \/
      (len (zeros 7) < len [1;2;3;4;5;6;7] /\ e = BufferTooSmall)
  | Panic => False
  end.
Proof. apply transpose_lossless; vm_compute; congruence. Defined.
