(* ===== verification/Numeric.v ===== *)
(** * Per-channel delta coding (crates/fectp-core/src/codec/numeric.rs)

    De-interleave, difference, zigzag, varint, and the way back. The theorems
    show the transform is lossless on every whole number of frames, that the
    encoder fails exactly when the stream does not fit the buffer, and that the
    decoder never panics on attacker-chosen bytes. *)
From S2P Require Import Prelude Bytes Error Varint.

Module numeric.
(** [i32::from(i16::from_le_bytes(..))] or [i32::from_le_bytes(..)]. *)
Definition read_sample (bs : bytes) (width : Z) : Result Z :=
  if width =? 2 then
    let? b0 := index bs 0 in
    let? b1 := index bs 1 in
    Ok (to_i16 (from_le [b0; b1]))
  else
    let? b0 := index bs 0 in
    let? b1 := index bs 1 in
    let? b2 := index bs 2 in
    let? b3 := index bs 3 in
    Ok (to_i32 (from_le [b0; b1; b2; b3])).

Definition write_sample (value width : Z) (out : bytes) : Result bytes :=
  if width =? 2 then copy_range out 0 2 (to_le 2 (to_i16 value))
  else copy_range out 0 4 (to_le 4 value).

Definition frame_layout (length channels width : Z) : Result Z :=
  if channels =? 0 then Err BadHeader else
  let stride := channels * width in
  if negb (length mod stride =? 0) then Err BadHeader
  else Ok (length / stride).

Definition encode (input : bytes) (channels width : Z) (out : bytes) : Result (bytes * Z) :=
  let? samples := frame_layout (len input) channels width in
  for_in 0 channels (fun channel '(out, written) =>
    let? (out, written, _) :=
      for_in 0 samples (fun sample '(out, written, previous) =>
        let offset := (sample * channels + channel) * width in
        let? bs := slice_from input offset in
        let? value := read_sample bs width in
        let delta := to_i32 (value - previous) in
        let? tail := slice_from out written in
        let? (tail, n) := varint.encode (varint.zigzag delta) tail in
        Ok (takez written out ++ tail, written + n, value)) (out, written, 0) in
    Ok (out, written)) (out, 0).

Definition decode (input : bytes) (channels width original_len : Z) (out : bytes)
  : Result (bytes * Z) :=
  let? samples := frame_layout original_len channels width in
  if len out <? original_len then Err BufferTooSmall else
  let? (out, read) :=
    for_in 0 channels (fun channel '(out, read) =>
      let? (out, read, _) :=
        for_in 0 samples (fun sample '(out, read, previous) =>
          let? bs := slice_from input read in
          let? (encoded, used) := varint.decode bs in
          let read := read + used in
          let value := to_i32 (previous + varint.unzigzag encoded) in
          let offset := (sample * channels + channel) * width in
          let? tail := slice_from out offset in
          let? tail := write_sample value width tail in
          Ok (takez offset out ++ tail, read, value)) (out, read, 0) in
      Ok (out, read)) (out, 0) in
  if negb (read =? len input) then Err BadHeader else Ok (out, original_len).

Definition encode_i16 (input : bytes) (channels : Z) (out : bytes) : Result (bytes * Z) :=
  encode input channels 2 out.
Definition decode_i16 (input : bytes) (channels original_len : Z) (out : bytes)
  : Result (bytes * Z) := decode input channels 2 original_len out.
Definition encode_i32 (input : bytes) (channels : Z) (out : bytes) : Result (bytes * Z) :=
  encode input channels 4 out.
Definition decode_i32 (input : bytes) (channels original_len : Z) (out : bytes)
  : Result (bytes * Z) := decode input channels 4 original_len out.

(** ** Reference definition

    [sample input ch w c s] is sample [s] of channel [c]; [piece] its varint;
    [stream n] the first [n] varints, channel by channel. *)
Definition value_at (input : bytes) (width o : Z) : Z :=
  if width =? 2 then to_i16 (from_le (chunk 2 o input))
  else to_i32 (from_le (chunk 4 o input)).

Definition sample (input : bytes) (channels width c s : Z) : Z :=
  value_at input width ((s * channels + c) * width).

Definition previous (f : Z -> Z -> Z) (c s : Z) : Z := if s =? 0 then 0 else f c (s - 1).

Definition piece (f : Z -> Z -> Z) (samples t : Z) : bytes :=
  let c := t / samples in
  let s := t mod samples in
  varint.spec (varint.zigzag (to_i32 (f c s - previous f c s))).

Definition stream (f : Z -> Z -> Z) (samples n : Z) : bytes :=
  concat (map (piece f samples) (seqZ 0 n)).
End numeric.
Import numeric.

(** ** Lemmas *)
Lemma to_i16_range x : -32768 <= to_i16 x < 32768.
Proof.
  unfold to_i16. pose proof (Z.mod_pos_bound x 65536 ltac:(lia)). zcase; lia.
Qed.

Lemma to_i16_mod x : to_i16 x mod 65536 = x mod 65536.
Proof.
  unfold to_i16. pose proof (Z.mod_pos_bound x 65536 ltac:(lia)). zcase.
  - by rewrite Z.mod_mod by lia.
  - replace (x mod 65536 - 65536) with (x mod 65536 + (-1) * 65536) by lia.
    by rewrite Z.mod_add, Z.mod_mod by lia.
Qed.

(** Only the low bytes of a value are written. *)
Lemma to_le_eqm n x y : x mod 256 ^ Z.of_nat n = y mod 256 ^ Z.of_nat n -> to_le n x = to_le n y.
Proof.
  revert x y. induction n as [|n IH]; intros x y H; [done|].
  rewrite Nat2Z.inj_succ, Z.pow_succ_r in H by lia.
  assert (0 < 256 ^ Z.of_nat n) by (apply Z.pow_pos_nonneg; lia).
  rewrite !Z.rem_mul_r in H by lia.
  pose proof (Z.mod_pos_bound x 256 ltac:(lia)). pose proof (Z.mod_pos_bound y 256 ltac:(lia)).
  change (x mod 256 :: to_le n (x / 256) = y mod 256 :: to_le n (y / 256)). f_equal; [nia|]. apply IH. nia.
Qed.

Lemma value_at_bytes input w o :
  bytes_ok input -> (w = 2 \/ w = 4) -> 0 <= o -> o + w <= len input ->
  to_le (Z.to_nat w) (value_at input w o) = chunk w o input /\ is_i32 (value_at input w o).
Proof.
  intros Hok Hw Ho Hl. assert (bytes_ok (chunk w o input)) by (unfold chunk; auto with fectp).
  assert (len (chunk w o input) = w) as Hlc by (unfold chunk; len_lia).
  unfold value_at. destruct Hw as [-> | ->]; cbn [Z.eqb Pos.eqb].
  - split; [|pose proof (to_i16_range (from_le (chunk 2 o input))); lia].
    rewrite <- (to_le_from_le (chunk 2 o input) 2) at 2 by done.
    apply to_le_eqm. apply to_i16_mod.
  - split; [|apply to_i32_range].
    rewrite <- (to_le_from_le (chunk 4 o input) 4) at 2 by done.
    apply to_le_eqm. apply to_i32_mod.
Qed.

Lemma read_sample_at input w o :
  (w = 2 \/ w = 4) -> 0 <= o -> o + w <= len input ->
  exists bs, slice_from (E:=Error) input o = Ok bs /\ read_sample bs w = Ok (value_at input w o).
Proof.
  intros Hw Ho Hl. exists (dropz o input). split.
  { unfold slice_from. rewrite slice_ok by lia. by rewrite takez_all by len_lia. }
  unfold value_at, chunk. assert (w <= len (dropz o input)) as Hd by len_lia.
  destruct (split_at w (dropz o input)) as (p & r & -> & Hp); [lia|].
  unfold read_sample. destruct Hw as [-> | ->]; cbn [Z.eqb Pos.eqb]; rewrite takez_app by done.
  - do 2 (destruct p as [|? p]; [len_lia|]). destruct p; [|len_lia].
    simpl app. by rewrite index_0, index_1.
  - do 4 (destruct p as [|? p]; [len_lia|]). destruct p; [|len_lia].
    simpl app. by rewrite index_0, index_1, index_2, index_3.
Qed.

Lemma write_sample_at out o v w :
  (w = 2 \/ w = 4) -> 0 <= o -> o + w <= len out ->
  exists tail tail' out', slice_from (E:=Error) out o = Ok tail /\
    write_sample v w tail = Ok tail' /\ out' = takez o out ++ tail' /\
    copy_range (E:=Error) out o (o + w) (to_le (Z.to_nat w) v) = Ok out'.
Proof.
  intros Hw Ho Hl. exists (dropz o out).
  exists (to_le (Z.to_nat w) v ++ dropz w (dropz o out)). eexists.
  split; [unfold slice_from; rewrite slice_ok by lia; by rewrite takez_all by len_lia|].
  split; [|split; [done|]].
  - unfold write_sample. destruct Hw as [-> | ->]; cbn [Z.eqb Pos.eqb].
    + rewrite copy_range_at by len_lia. f_equal. f_equal.
      apply to_le_eqm. apply to_i16_mod.
    + by rewrite copy_range_at by len_lia.
  - rewrite dropz_dropz by lia. unfold copy_range.
    rewrite !(proj2 (Z.leb_le _ _)), (proj2 (Z.eqb_eq _ _)) by len_lia. simpl.
    do 4 f_equal. lia.
Qed.

Lemma frame_layout_inv length ch w n :
  0 <= length -> 0 <= ch -> 0 < w -> frame_layout length ch w = Ok n ->
  0 < ch /\ 0 <= n /\ length = n * (ch * w).
Proof.
  unfold frame_layout. intros Hl Hc Hw H. inv_run H.
  assert (0 < ch * w) by nia.
  pose proof (Z.div_mod length (ch * w) ltac:(lia)).
  split; [lia|]. split; [apply Z.div_pos; lia|]. lia.
Qed.

Lemma frame_layout_no_panic length ch w : is_panic (frame_layout length ch w) = false.
Proof. unfold frame_layout. zcase; [done|]. by case_match. Qed.

Lemma stream_succ f n t : 0 <= t -> stream f n (t + 1) = stream f n t ++ piece f n t.
Proof.
  intros. unfold stream. rewrite seqZ_app by lia. rewrite map_app, concat_app.
  do 2 f_equal. change (seqZ (0 + t) 1) with [0 + t]. simpl. by rewrite app_nil_r.
Qed.

Lemma stream_0 f n : stream f n 0 = [].
Proof. done. Qed.

Lemma stream_prefix f n t m : 0 <= t <= m -> exists r, stream f n m = stream f n t ++ r.
Proof.
  intros [Ht Hm]. replace m with (t + (m - t)) by lia.
  assert (0 <= m - t) as Hd by lia. revert Hd. generalize (m - t). clear m Hm.
  refine (natlike_ind _ _ _).
  - exists []. by rewrite Z.add_0_r, app_nil_r.
  - intros d Hd [r IH]. exists (r ++ piece f n (t + d)).
    replace (t + Z.succ d) with (t + d + 1) by lia.
    rewrite stream_succ, IH by lia. by rewrite app_assoc.
Qed.

Lemma piece_at f n c s :
  0 <= s < n -> piece f n (c * n + s) =
  varint.spec (varint.zigzag (to_i32 (f c s - previous f c s))).
Proof.
  intros. unfold piece.
  replace ((c * n + s) / n) with c by (apply (Z.div_unique_pos _ _ _ s); lia).
  by replace ((c * n + s) mod n) with s by (apply (Z.mod_unique_pos _ _ c); lia).
Qed.

Lemma piece_len f n t : 1 <= len (piece f n t) <= 5.
Proof.
  unfold piece. apply spec_len.
  match goal with |- 0 <= varint.zigzag ?x =>
    pose proof (zigzag_range x (to_i32_range _)) end. lia.
Qed.

Lemma stream_len_least f n t : 0 <= t -> t <= len (stream f n t).
Proof.
  revert t. refine (natlike_ind _ _ _).
  - rewrite stream_0. len_lia.
  - intros t Ht IH. replace (Z.succ t) with (t + 1) by lia.
    rewrite stream_succ, len_app by lia. pose proof (piece_len f n t). lia.
Qed.

Lemma stream_len_bound f n t : 0 <= t -> len (stream f n t) <= 5 * t.
Proof.
  revert t. refine (natlike_ind _ _ _).
  - rewrite stream_0. len_lia.
  - intros t Ht IH. replace (Z.succ t) with (t + 1) by lia.
    rewrite stream_succ, len_app by lia. pose proof (piece_len f n t). lia.
Qed.

Lemma previous_succ f c s : 0 <= s -> previous f c (s + 1) = f c s.
Proof.
  intros. unfold previous. rewrite (proj2 (Z.eqb_neq _ _)) by lia. f_equal. lia.
Qed.

(** What the encoder computes: the whole stream at the front of the buffer, or
    [BufferTooSmall] when the stream does not fit. *)
Lemma numeric_encode_eq input ch w out samples :
  (w = 2 \/ w = 4) -> 0 <= ch -> frame_layout (len input) ch w = Ok samples ->
  let st := stream (sample input ch w) samples (ch * samples) in
  encode input ch w out =
  if len st <=? len out then Ok (st ++ dropz (len st) out, len st) else Err BufferTooSmall.
Proof.
  intros Hw Hch Hfl st. pose proof (len_nonneg input) as Hn.
  destruct (frame_layout_inv (len input) ch w samples Hn Hch ltac:(lia) Hfl) as (Hc0 & Hs0 & Hlen).
  unfold encode. rewrite Hfl. set (F := sample input ch w) in *.
  set (O := fun t (o : bytes) (n : Z) =>
    n = len (stream F samples t) /\ n <= len out /\ o = stream F samples t ++ dropz n out).
  set (Q := fun e => e = BufferTooSmall /\ len out < len st).
  match goal with |- for_in 0 ch ?body ?s = _ =>
    pose proof (for_in_rule (fun c '(o, n) => O (c * samples) o n) Q 0 ch body s) as Hrule end.
  assert (forall t, 0 <= t < ch * samples -> len (stream F samples t) + len (piece F samples t) <= len st) as Hfit.
  { intros t Ht. destruct (stream_prefix F samples (t + 1) (ch * samples)) as [r Hr]; [lia|].
    unfold st. rewrite Hr, stream_succ by lia. len_lia. }
  match type of Hrule with ?A -> ?B -> ?C -> ?D => assert D as Hd end.
  { apply Hrule; [lia| |].
    { unfold O. rewrite stream_0. autorewrite with len. rewrite dropz_0 by lia.
      split; [done|]. split; [apply len_nonneg|done]. }
    intros c [o n] Hc HO.
    match goal with |- context [for_in 0 samples ?body ?s0] =>
      pose proof (for_in_rule (fun i '(o, n, prev) =>
        O (c * samples + i) o n /\ prev = previous F c i) Q 0 samples body s0) as Hin end.
    match type of Hin with ?A -> ?B -> ?C -> ?D => assert D as Hi end.
    { apply Hin; [lia|by rewrite Z.add_0_r|].
      intros s [[o' n'] prev] Hs ((-> & Hfitn & ->) & ->).
      destruct (read_sample_at input w ((s * ch + c) * w)) as (bs & -> & ->); [done|nia|nia|].
      rewrite (slice_from_mid (stream F samples (c * samples + s))) by done.
      rewrite varint_encode_eq by (apply zigzag_range, to_i32_range).
      pose proof (piece_at F samples c s Hs) as Hp. fold F. unfold sample in Hp.
      change (value_at input w ((s * ch + c) * w)) with (F c s). rewrite <- Hp.
      specialize (Hfit (c * samples + s) ltac:(nia)).
      zcase.
      - rewrite takez_app by done. split; [|by rewrite previous_succ by lia].
        unfold O. rewrite (Z.add_assoc _ s 1), stream_succ by nia.
        rewrite dropz_dropz in * by len_lia. autorewrite with len in *.
        split; [lia|]. split; [len_lia|]. rewrite <- app_assoc. do 3 f_equal. lia.
      - unfold Q. split; [done|]. len_lia. }
    destruct (for_in 0 samples _ _) as [[[o' n'] prev]|e|]; [|done..].
    destruct Hi as [Hi _]. by replace ((c + 1) * samples) with (c * samples + samples) by lia. }
  destruct (for_in 0 ch _ _) as [[o n]|e|]; [|destruct Hd as [-> Hd]|done].
  - destruct Hd as (-> & ? & ->). fold st. by rewrite (proj2 (Z.leb_le _ _)) by done.
  - by rewrite (proj2 (Z.leb_gt _ _)) by done.
Qed.

Lemma delta_undone v p :
  is_i32 v -> to_i32 (p + varint.unzigzag (varint.zigzag (to_i32 (v - p)))) = v.
Proof.
  intros Hv. rewrite unzigzag_zigzag by apply to_i32_range.
  transitivity (to_i32 v); [|by apply to_i32_small]. apply to_i32_eqm.
  rewrite Zplus_mod, to_i32_mod, <- Zplus_mod. f_equal. lia.
Qed.

(** Distinct (channel, sample) pairs occupy disjoint parts of the buffer. *)
Lemma offsets_disjoint ch w c s c' s' :
  0 < w -> 0 <= c < ch -> 0 <= c' < ch -> (c <> c' \/ s <> s') ->
  (s' * ch + c') * w + w <= (s * ch + c) * w \/
  (s * ch + c) * w + w <= (s' * ch + c') * w.
Proof.
  intros ? ? ? Hne. assert (s * ch + c <> s' * ch + c').
  { intros Heq. destruct (Z.div_mod_unique ch s s' c c'); lia. }
  destruct (Z.lt_total (s * ch + c) (s' * ch + c')) as [|[|]]; nia.
Qed.

(** Writing sample [s] of channel [c] leaves those before it as they were. *)
Lemma write_sample_keeps (data : bytes) ch w samples c s (o o' : bytes) :
  0 < w -> 0 <= c < ch -> 0 <= s ->
  copy_range (E:=Error) o ((s * ch + c) * w) ((s * ch + c) * w + w) (chunk w ((s * ch + c) * w) data) = Ok o' ->
  (forall c' s', 0 <= c' < ch -> 0 <= s' < samples -> (c' < c \/ c' = c /\ s' < s) ->
     chunk w ((s' * ch + c') * w) o = chunk w ((s' * ch + c') * w) data) ->
  forall c' s', 0 <= c' < ch -> 0 <= s' < samples -> (c' < c \/ c' = c /\ s' < s + 1) ->
    chunk w ((s' * ch + c') * w) o' = chunk w ((s' * ch + c') * w) data.
Proof.
  intros Hw Hc Hs Hcp Hcs c' s' Hc' Hs' Hlex. destruct (decide (c' = c /\ s' = s)) as [[-> ->]|Hne].
  - pose proof (chunk_copy_same _ _ _ _ _ Hcp) as Hsame.
    by replace ((s * ch + c) * w + w - (s * ch + c) * w) with w in Hsame by lia.
  - assert (0 <= s' * ch) by nia.
    rewrite (chunk_copy_other _ _ _ _ _ w ((s' * ch + c') * w) Hcp); [apply Hcs; lia|nia|lia|].
    apply (offsets_disjoint ch w c s c' s'); lia.
Qed.

(** A buffer that agrees on every sample agrees on the whole. *)
Lemma samples_cover (data : bytes) ch w samples o :
  0 < ch -> 0 <= w -> 0 <= samples -> len data = samples * ch * w ->
  (forall c s, 0 <= c < ch -> 0 <= s < samples ->
     chunk w ((s * ch + c) * w) o = chunk w ((s * ch + c) * w) data) ->
  takez (len data) o = data.
Proof.
  intros Hch Hw Hs Hlen H. rewrite <- (takez_all data (len data)) at 2 by lia.
  rewrite Hlen. apply chunks_eq; [lia|nia|].
  intros i Hi. pose proof (Z.div_mod i ch ltac:(lia)). pose proof (Z.mod_pos_bound i ch Hch).
  assert (0 <= i / ch < samples).
  { split; [apply Z.div_pos; lia | apply Z.div_lt_upper_bound; lia]. }
  specialize (H (i mod ch) (i / ch) ltac:(lia) ltac:(lia)).
  by replace (i / ch * ch + i mod ch) with i in H by lia.
Qed.

Lemma numeric_decode_stream data ch w samples out :
  (w = 2 \/ w = 4) -> 0 <= ch -> bytes_ok data ->
  frame_layout (len data) ch w = Ok samples -> len data <= len out ->
  exists out',
    decode (stream (sample data ch w) samples (ch * samples)) ch w (len data) out
      = Ok (out', len data) /\ len out' = len out /\ takez (len data) out' = data.
Proof.
  intros Hw Hch Hok Hfl Hout. pose proof (len_nonneg data) as Hn.
  destruct (frame_layout_inv (len data) ch w samples Hn Hch ltac:(lia) Hfl) as (Hc0 & Hs0 & Hlen).
  unfold decode. rewrite Hfl, (proj2 (Z.ltb_ge _ _)) by lia.
  set (F := sample data ch w). set (off := fun c s => (s * ch + c) * w).
  set (input := stream F samples (ch * samples)).
  set (I := fun c s (o : bytes) (n : Z) =>
    n = len (stream F samples (c * samples + s)) /\ len o = len out /\
    forall c' s', 0 <= c' < ch -> 0 <= s' < samples -> (c' < c \/ c' = c /\ s' < s) ->
      chunk w (off c' s') o = chunk w (off c' s') data).
  match goal with |- context [for_in 0 ch ?body ?s0] =>
    destruct (for_in_ok (E:=Error) (fun c '(o, n) => I c 0 o n) 0 ch body s0)
      as ((out' & read) & Hrun & HI) end.
  - lia.
  - split; [by rewrite Z.add_0_r, Z.mul_0_l|]. split; [done|]. lia.
  - intros c [o n] Hc HI.
    match goal with |- context [for_in 0 samples ?body ?s0] =>
      destruct (for_in_ok (E:=Error) (fun s '(o, n, prev) =>
        I c s o n /\ prev = previous F c s) 0 samples body s0)
        as (((o' & n') & prev) & Hin & HI' & _) end.
    + lia.
    + done.
    + intros s [[o' n'] prev] Hs [(Hn' & Hlo & Hcs) ->].
      assert (0 <= off c s /\ off c s + w <= len data) as [Ho1 Ho2] by (unfold off; nia).
      destruct (stream_prefix F samples (c * samples + s + 1) (ch * samples)) as [r Hr]; [nia|].
      fold input in Hr. rewrite stream_succ, <- app_assoc in Hr by nia.
      rewrite Hr, slice_from_mid by done.
      rewrite piece_at by done. rewrite varint_decode_spec by (apply zigzag_range, to_i32_range).
      destruct (value_at_bytes data w (off c s) Hok Hw Ho1 Ho2) as [Hb Hi].
      rewrite delta_undone by exact Hi.
      destruct (write_sample_at o' (off c s) (F c s) w) as (t & t' & o'' & Ht & Ht' & Ho'' & Hcp);
        [done|lia|lia|].
      unfold off in Ht. rewrite Ht, Ht'. eexists. split; [done|].
      split; [|by rewrite previous_succ by lia]. fold (off c s). rewrite <- Ho''.
      split; [|split].
      * rewrite Hn', <- (piece_at F samples c s Hs). rewrite (Z.add_assoc _ s 1), stream_succ by nia. len_lia.
      * by rewrite (copy_range_ok_len _ _ _ _ _ Hcp).
      * change (F c s) with (value_at data w (off c s)) in Hcp. rewrite Hb in Hcp. apply (write_sample_keeps data ch w samples c s o' o''); [lia|lia|lia|exact Hcp|exact Hcs].
    + rewrite Hin. eexists. split; [done|]. destruct HI' as (Hn' & Hlo & Hcs).
      split; [rewrite Hn'; do 2 f_equal; lia|]. split; [done|].
      intros c' s' ? ? ?. apply Hcs; lia.
  - rewrite Hrun. destruct HI as (Hr & Hlo & Hcs). rewrite Z.add_0_r in Hr.
    fold input in Hr. rewrite Hr, Z.eqb_refl. eexists. split; [done|]. split; [done|].
    apply (samples_cover data ch w samples); [lia|lia|lia|lia|]. intros c s Hc Hs. apply Hcs; lia.
Qed.

(** The decoder on bytes nobody vouches for. *)
Lemma numeric_decode_safe input ch w original_len out :
  (w = 2 \/ w = 4) -> 0 <= ch -> 0 <= original_len -> bytes_ok input ->
  match decode input ch w original_len out with
  | Ok (out', n) => n = original_len /\ len out' = len out
  | Err e => e = BadHeader \/ e = BufferTooSmall
  | Panic => False
  end.
Proof.
  intros Hw Hch Hol Hok. unfold decode.
  destruct (frame_layout original_len ch w) as [samples|e|] eqn:Hfl.
  2: { unfold frame_layout in Hfl. inv_run Hfl; auto. }
  2: { pose proof (frame_layout_no_panic original_len ch w) as Hp. by rewrite Hfl in Hp. }
  destruct (frame_layout_inv original_len ch w samples Hol Hch ltac:(lia) Hfl) as (Hc0 & Hs0 & Hlen).
  destruct (Z.ltb_spec (len out) original_len) as [|Hout]; [auto|].
  set (I := fun (o : bytes) (n : Z) => 0 <= n <= len input /\ len o = len out).
  match goal with |- context [for_in 0 ch ?body ?s0] =>
    pose proof (for_in_rule (fun _ '(o, n) => I o n) (fun e => e = BadHeader) 0 ch body s0) as Hrule end.
  match type of Hrule with ?A -> ?B -> ?C -> ?D => assert D as Hd end.
  { apply Hrule; [lia|unfold I; pose proof (len_nonneg input); lia|].
    intros c [o n] Hc HI.
    match goal with |- context [for_in 0 samples ?body ?s0] =>
      pose proof (for_in_rule (fun _ '(o, n, _) => I o n) (fun e => e = BadHeader)
        0 samples body s0) as Hin end.
    match type of Hin with ?A -> ?B -> ?C -> ?D => assert D as Hi end.
    { apply Hin; [lia|done|]. intros s [[o' n'] prev] Hs (Hn' & Hlo).
      unfold slice_from at 1.
      destruct (slice_in_range (E:=Error) input n' (len input)) as (bs & Hbs & Hlb); [lia|lia|].
      rewrite Hbs. destruct (varint.decode bs) as [[v k]|e|] eqn:Hv.
      - apply varint_decode_inv in Hv as (_ & -> & r & ->); [|by eapply bytes_ok_slice].
        match goal with |- context [write_sample ?v w _] =>
          destruct (write_sample_at o' ((s * ch + c) * w) v w)
            as (t & t' & o'' & -> & -> & <- & Hcp); [done|nia|nia|] end.
        split; [|by rewrite (copy_range_ok_len _ _ _ _ _ Hcp)]. len_lia.
      - unfold varint.decode in Hv. by eapply decode_loop_err.
      - pose proof (varint_decode_no_panic bs) as Hp. by rewrite Hv in Hp. }
    destruct (for_in 0 samples _ _) as [[[o' n'] prev]|e|]; done. }
  destruct (for_in 0 ch _ _) as [[o n]|e|]; [|auto|done].
  destruct (negb _); [auto|]. destruct Hd. auto.
Qed.

Lemma numeric_roundtrip input ch w out enc n out2 :
  (w = 2 \/ w = 4) -> 0 <= ch -> bytes_ok input ->
  encode input ch w out = Ok (enc, n) -> len input <= len out2 ->
  exists dec, decode (takez n enc) ch w (len input) out2 = Ok (dec, len input) /\
    takez (len input) dec = input.
Proof.
  intros Hw Hch Hok H Hl.
  destruct (frame_layout (len input) ch w) as [k| |] eqn:Hfl;
    [|by unfold encode in H; rewrite Hfl in H..].
  rewrite (numeric_encode_eq _ _ _ _ k) in H by done. zcase_in H; [|done].
  simplify_eq. rewrite takez_app by done.
  destruct (numeric_decode_stream input ch w k out2) as (dec & ? & _ & ?); eauto.
Qed.

(** ** Properties *)

(** C40: per-channel delta coding is lossless and as tight as it says. On
    every input that is a whole number of frames, what the encoder does is
    determined exactly: with [st] the stream of one varint per sample, channel
    by channel, each the zigzag of the difference from the channel's previous
    sample, it writes [st] at the front of the buffer, leaves the rest alone
    and reports its length if [st] fits, and fails with [BufferTooSmall] if it
    does not, never with anything else. [st] is between one and five bytes per
    sample, and decoding it gives back exactly the input, for [i16] and [i32]
    samples and any channel count. *)
Theorem numeric_lossless input ch w out samples :
  (w = 2 \/ w = 4) -> 0 <= ch -> bytes_ok input ->
  frame_layout (len input) ch w = Ok samples ->
  let st := concat (map (piece (sample input ch w) samples) (seqZ 0 (ch * samples))) in
  encode input ch w out =
    (if len st <=? len out then Ok (st ++ dropz (len st) out, len st) else Err BufferTooSmall) /\
  ch * samples <= len st <= 5 * (ch * samples) /\
  (forall out2, len input <= len out2 ->
     exists dec, decode st ch w (len input) out2 = Ok (dec, len input) /\
       takez (len input) dec = input).
Proof.
  intros Hw Hch Hok Hfl st. change st with (stream (sample input ch w) samples (ch * samples)).
  destruct (frame_layout_inv (len input) ch w samples (len_nonneg input) Hch ltac:(lia) Hfl)
    as (Hc0 & Hs0 & _).
  split; [by apply numeric_encode_eq|].
  split; [split; [apply stream_len_least|apply stream_len_bound]; nia|].
  intros out2 Hl. destruct (numeric_decode_stream input ch w samples out2) as (dec & ? & _ & ?); eauto.
Qed.

(** Two channels of two samples: four varints, in a buffer with no room to
    spare. *)
Lemma numeric_lossless_witness :
  let input := [1;0;254;255;3;0;4;0] in
  frame_layout (len input) 2 2 = Ok 2 /\
  encode input 2 2 (zeros 4) = Ok ([2; 4; 3; 12], 4) /\
  forall out2, len input <= len out2 ->
    exists dec, decode [2; 4; 3; 12] 2 2 (len input) out2 = Ok (dec, len input) /\
      takez (len input) dec = input.
Proof.
  intros input. split; [by vm_compute|].
  destruct (numeric_lossless input 2 2 (zeros 4) 2) as (He & _ & Hd);
    [by left|done|by repeat constructor|by vm_compute|].
  split; [rewrite He; by vm_compute|exact Hd].
Defined.
