(* ===== verification/BitPack.v ===== *)
(** * What bit packing would buy (crates/bench/examples/bitpack_headroom.rs)

    The measurement behind a design decision: the deltas of a block of samples,
    as the numeric transform writes them (LEB128) and packed at the width of
    the widest. The theorems show that the two streams it compares are the
    transform's own output, and a lossless encoding of the same values: it
    compares like with like. *)
From S2P Require Import Prelude Bytes Error Varint Numeric.
Import numeric.

Module BitPack.
Definition varint_len (v : Z) : Z :=
  if v <=? 127 then 1 else if v <=? 16383 then 2 else if v <=? 2097151 then 3 else
  if v <=? 268435455 then 4 else 5.

Definition zigzag (v : Z) : Z := wrap32 (Z.lxor (to_i32 (Z.shiftl v 1)) (Z.shiftr v 31)).

(** The sample at [at_], little-endian. *)
Definition sample_at (input : bytes) (width at_ : Z) : Result Z :=
  if width =? 2 then
    let? b0 := index input at_ in
    let? b1 := index input (at_ + 1) in
    Ok (to_i16 (from_le [b0; b1]))
  else
    let? b0 := index input at_ in
    let? b1 := index input (at_ + 1) in
    let? b2 := index input (at_ + 2) in
    let? b3 := index input (at_ + 3) in
    Ok (to_i32 (from_le [b0; b1; b2; b3])).

(** [out.push(..)] in the loops' order; no channels is a division by zero. *)
Definition deltas (input : bytes) (channels width : Z) : Result (list Z) :=
  let stride := channels * width in
  if stride =? 0 then Panic else
  let samples := len input / stride in
  for_in 0 channels (fun c out =>
    let? (out, _) :=
      for_in 0 samples (fun s '(out, prev) =>
        let? v := sample_at input width ((s * channels + c) * width) in
        Ok (out ++ [zigzag (to_i32 (v - prev))], v)) (out, 0) in
    Ok out) [].

(** [32 - v.leading_zeros()]. *)
Definition bit_len (v : Z) : Z := if v =? 0 then 0 else Z.log2 v + 1.

(** [.max().unwrap_or(1).max(1)]. *)
Definition width_of (chunk : list Z) : Z :=
  match map bit_len chunk with
  | [] => 1
  | b :: bs => Z.max (fold_left Z.max bs b) 1
  end.

(** [while held >= 8]: that many whole bytes go out. *)
Fixpoint emit (turns : nat) (out : bytes) (acc held : Z) : bytes * Z * Z :=
  match turns with
  | O => (out, acc, held)
  | S turns => emit turns (out ++ [acc mod 256]) (Z.shiftr acc 8) (held - 8)
  end.

Definition put (bits : Z) (st : bytes * Z * Z) (v : Z) : bytes * Z * Z :=
  let '(out, acc, held) := st in
  let acc := Z.lor acc (shl64 v held) in
  let held := held + bits in
  emit (Z.to_nat (held / 8)) out acc held.

Definition pack_chunk (out : bytes) (chunk : list Z) : bytes :=
  let bits := width_of chunk in
  let '(out, acc, held) := fold_left (put bits) chunk (out ++ [bits], 0, 0) in
  if 0 <? held then out ++ [acc mod 256] else out.

(** [slice::chunks(n)]: pieces of [n], the last one shorter. As many turns as
    there are values are enough. *)
Fixpoint chunks (turns : nat) (n : nat) (values : list Z) : list (list Z) :=
  match turns, values with
  | S turns, _ :: _ => take n values :: chunks turns n (drop n values)
  | _, _ => []
  end.

Definition pack (values : list Z) (block : Z) : bytes :=
  fold_left pack_chunk (chunks (length values) (Z.to_nat block) values) [].

(** The writer's [loop], a byte a turn. *)
Fixpoint leb128_one (turns : nat) (v : Z) : bytes :=
  match turns with
  | O => []
  | S turns =>
      let byte := Z.land v 127 in
      let v := Z.shiftr v 7 in
      if v =? 0 then [byte] else Z.lor byte 128 :: leb128_one turns v
  end.

Definition leb128 (values : list Z) : bytes := concat (map (leb128_one varint.MAX_LEN) values).

(** ** Reference definitions *)

(** A block as one number in base [2 ^ bits], the first value least significant. *)
Definition number (bits : Z) (chunk : list Z) : Z := foldr (fun v n => v + 2 ^ bits * n) 0 chunk.

Definition places (bits : Z) (n : nat) (x : Z) : list Z :=
  map (fun i => x / 2 ^ (bits * Z.of_nat i) mod 2 ^ bits) (seq 0 n).

(** Bytes a block of [n] takes after its width. *)
Definition room (bits n : Z) : Z := (n * bits + 7) / 8.

(** Reading back [n] values, a block of at most [block] at a time. *)
Fixpoint unpack (turns : nat) (block : nat) (n : nat) (b : bytes) : list Z :=
  match turns, b with
  | S turns, bits :: rest =>
      let here := Nat.min n block in
      let size := room bits (Z.of_nat here) in
      places bits here (from_le (takez size rest)) ++ unpack turns block (n - here) (dropz size rest)
  | _, _ => []
  end.
End BitPack.

Section leb128.
Import BitPack.

Lemma leb128_one_digits turns v : 0 <= v < 128 ^ Z.of_nat turns -> leb128_one turns v = varint.digits turns v.
Proof.
  revert v. induction turns as [|turns IH]; intros v Hv; cbn [leb128_one varint.digits]; [done|].
  destruct (byte_fields v) as (-> & -> & Ho). rewrite Nat2Z.inj_succ, Z.pow_succ_r in Hv by lia.
  zcase; zcase.
  - by rewrite Z.mod_small by lia.
  - exfalso. Z.to_euclidean_division_equations. lia.
  - exfalso. rewrite Z.div_small in * by lia. done.
  - rewrite Ho, IH; [done|]. split; [apply Z.div_pos; lia|apply Z.div_lt_upper_bound; lia].
Qed.

Lemma leb128_spec v : is_u32 v -> leb128_one varint.MAX_LEN v = varint.spec v.
Proof. intros. apply leb128_one_digits. change (128 ^ Z.of_nat varint.MAX_LEN) with 34359738368. lia. Qed.

Lemma varint_len_spec v : is_u32 v -> varint_len v = len (leb128_one varint.MAX_LEN v).
Proof.
  intros Hv. rewrite leb128_spec by done. unfold varint_len, varint.spec, varint.MAX_LEN. cbn [varint.digits].
  repeat (zcase; try (exfalso; Z.to_euclidean_division_equations; lia)); rewrite ?len_cons, ?len_nil; lia.
Qed.

Lemma zigzag_same v : zigzag v = varint.zigzag v.
Proof. done. Qed.

(** *** The deltas *)
Lemma sample_at_value (input : bytes) w o :
  (w = 2 \/ w = 4) -> 0 <= o -> o + w <= len input -> sample_at input w o = Ok (value_at input w o).
Proof.
  intros Hw Ho Hl. unfold value_at, chunk. destruct (split_at o input) as (p & q & -> & Hp); [len_lia|].
  rewrite dropz_app by done. destruct (split_at w q) as (m & r & -> & Hm); [len_lia|]. subst o.
  unfold sample_at. destruct Hw as [-> | ->]; cbn [Z.eqb Pos.eqb]; rewrite takez_app by done.
  - do 2 (destruct m as [|? m]; [len_lia|]). destruct m; [|len_lia]. cbn [app].
    rewrite index_mid by done. cbn. change (p ++ z :: z0 :: r) with (p ++ [z] ++ z0 :: r). rewrite app_assoc.
    by rewrite index_mid by len_lia.
  - do 4 (destruct m as [|? m]; [len_lia|]). destruct m; [|len_lia]. cbn [app].
    rewrite index_mid by done.
    change (p ++ z :: z0 :: z1 :: z2 :: r) with (p ++ [z] ++ z0 :: z1 :: z2 :: r). rewrite app_assoc.
    rewrite index_mid by len_lia.
    change ((p ++ [z]) ++ z0 :: z1 :: z2 :: r) with ((p ++ [z]) ++ [z0] ++ z1 :: z2 :: r). rewrite app_assoc.
    rewrite index_mid by len_lia.
    change (((p ++ [z]) ++ [z0]) ++ z1 :: z2 :: r) with (((p ++ [z]) ++ [z0]) ++ [z1] ++ z2 :: r). rewrite app_assoc.
    by rewrite index_mid by len_lia.
Qed.

(** The delta of the [t]th sample written, channel by channel. *)
Definition delta (f : Z -> Z -> Z) (samples t : Z) : Z :=
  varint.zigzag (to_i32 (f (t / samples) (t mod samples) - previous f (t / samples) (t mod samples))).

Definition delta_list (f : Z -> Z -> Z) (samples n : Z) : list Z := map (delta f samples) (seqZ 0 n).

Lemma delta_list_succ f n t : 0 <= t -> delta_list f n (t + 1) = delta_list f n t ++ [delta f n t].
Proof. intros. unfold delta_list. rewrite seqZ_app by lia. rewrite map_app. by rewrite Z.add_0_l. Qed.

Lemma leb128_deltas f samples n : leb128 (delta_list f samples n) = stream f samples n.
Proof.
  unfold leb128, delta_list, stream. rewrite map_map. f_equal. apply map_ext. intros t.
  apply leb128_spec, zigzag_range, to_i32_range.
Qed.

Lemma deltas_eq input ch w :
  (w = 2 \/ w = 4) -> 1 <= ch ->
  deltas input ch w = Ok (delta_list (sample input ch w) (len input / (ch * w)) (ch * (len input / (ch * w)))).
Proof.
  intros Hw Hch. pose proof (len_nonneg input). unfold deltas.
  destruct (Z.eqb_spec (ch * w) 0); [nia|]. set (samples := len input / (ch * w)).
  assert (Hs0 : 0 <= samples) by (apply Z.div_pos; nia).
  assert (Hfit : samples * (ch * w) <= len input) by (unfold samples; rewrite Z.mul_comm; apply Z.mul_div_le; nia).
  set (F := sample input ch w).
  match goal with |- for_in 0 ch ?body ?s = _ =>
    destruct (for_in_ok (fun c out => out = delta_list F samples (c * samples)) 0 ch body s) as (out & -> & ->) end;
    [lia|done| |done].
  intros c out Hc ->.
  match goal with |- context [for_in 0 samples ?body ?s] =>
    destruct (for_in_ok (fun i '(out, prev) => out = delta_list F samples (c * samples + i) /\ prev = previous F c i) 0 samples body s)
      as ([out prev] & -> & -> & _) end; [lia|by rewrite Z.add_0_r| |].
  - intros s [o prev] Hs [-> ->]. rewrite sample_at_value by (done || nia). eexists. split; [done|]. cbn.
    rewrite Z.add_assoc, delta_list_succ by nia. split; [|by rewrite previous_succ by lia].
    do 2 f_equal. unfold delta.
    assert ((c * samples + s) / samples = c) as -> by (rewrite Z.div_add_l by lia; rewrite Z.div_small; lia).
    assert ((c * samples + s) mod samples = s) as -> by (rewrite Z.add_comm, Z.mod_add by lia; apply Z.mod_small; lia).
    done.
  - eexists. split; [done|]. cbn. f_equal. lia.
Qed.
End leb128.

Section packing.
Import BitPack.

(** *** Little-endian numbers in parts *)
Lemma to_le_S n x : to_le (S n) x = x mod 256 :: to_le n (x / 256).
Proof. reflexivity. Qed.

Lemma to_le_app m n x : to_le (m + n) x = to_le m x ++ to_le n (x / 256 ^ Z.of_nat m).
Proof.
  revert x. induction m as [|m IH]; intros x; cbn [Nat.add].
  - by rewrite Z.div_1_r.
  - rewrite !to_le_S, IH, Nat2Z.inj_succ, Z.pow_succ_r by lia. rewrite Z.div_div by lia. done.
Qed.

Lemma pow256 n : 0 <= n -> 256 ^ n = 2 ^ (8 * n).
Proof. intros. by rewrite Z.pow_mul_r by lia. Qed.

Lemma emit_spec turns out acc held :
  emit turns out acc held = (out ++ to_le turns acc, acc / 256 ^ Z.of_nat turns, held - 8 * Z.of_nat turns).
Proof.
  revert out acc held. induction turns as [|turns IH]; intros out acc held; cbn [emit]; rewrite ?to_le_S.
  - cbn. rewrite app_nil_r, Z.div_1_r. f_equal. lia.
  - rewrite IH, Z.shiftr_div_pow2 by lia. change (2 ^ 8) with 256. rewrite <- app_assoc. cbn [app].
    rewrite Nat2Z.inj_succ, Z.pow_succ_r by lia. rewrite Z.div_div by lia. f_equal. lia.
Qed.

(** *** A block as a number *)
Context (bits : Z) (bits_ok : 1 <= bits <= 32).
Local Abbreviation fits := (fun v => 0 <= v < 2 ^ bits).

Lemma number_range l : Forall fits l -> 0 <= number bits l < 2 ^ (bits * len l).
Proof.
  induction 1 as [|v l Hv _ IH]; cbn [number foldr]; [split; [done|apply Z.pow_pos_nonneg; [lia|pose proof (len_nonneg (@nil Z)); nia]]|].
  fold (number bits l). rewrite len_cons.
  replace (bits * (1 + len l)) with (bits + bits * len l) by lia. pose proof (len_nonneg l).
  rewrite Z.pow_add_r by nia. nia.
Qed.

Lemma number_snoc l v : number bits (l ++ [v]) = number bits l + v * 2 ^ (bits * len l).
Proof.
  induction l as [|x l IH]; cbn [number foldr app].
  - assert (bits * len (@nil Z) = 0) as -> by len_lia. lia.
  - fold (number bits (l ++ [v])) (number bits l). rewrite IH, len_cons. pose proof (len_nonneg l).
    replace (bits * (1 + len l)) with (bits + bits * len l) by lia. rewrite Z.pow_add_r by nia. lia.
Qed.

Lemma places_number l : Forall fits l -> places bits (length l) (number bits l) = l.
Proof.
  induction 1 as [|v l Hv Hl IH]; [done|]. unfold places in *. cbn [length seq map number foldr].
  fold (number bits l). assert (0 < 2 ^ bits) by (apply Z.pow_pos_nonneg; lia). f_equal.
  - rewrite Z.mul_0_r, Z.pow_0_r, Z.div_1_r, (Z.mul_comm (2 ^ bits)), Z.mod_add by lia. apply Z.mod_small. lia.
  - rewrite <- IH at 2. rewrite <- fmap_S_seq. rewrite map_map. apply map_ext. intros i. f_equal.
    replace (bits * Z.of_nat (S i)) with (bits + bits * Z.of_nat i) by lia. rewrite Z.pow_add_r by lia.
    rewrite <- Z.div_div by lia. f_equal. rewrite (Z.mul_comm (2 ^ bits)), Z.div_add by lia. rewrite Z.div_small by lia. lia.
Qed.

(** The state of the packing loop after a prefix of the block: the whole bytes
    of its number are out, the rest is held. *)
Definition held_state (out : bytes) (l : list Z) : bytes * Z * Z :=
  let d := bits * len l / 8 in
  (out ++ to_le (Z.to_nat d) (number bits l), number bits l / 256 ^ d, bits * len l - 8 * d).

Lemma put_state out l v : Forall fits l -> fits v -> put bits (held_state out l) v = held_state out (l ++ [v]).
Proof.
  intros Hl Hv. cbn beta in Hv. unfold held_state, put. set (d := bits * len l / 8). pose proof (len_nonneg l).
  assert (Hd : 0 <= d /\ 8 * d <= bits * len l < 8 * d + 8) by (unfold d; Z.to_euclidean_division_equations; nia).
  set (held := bits * len l - 8 * d). set (N := number bits l). pose proof (number_range l Hl) as HN. fold N in HN.
  assert (Hpd : 0 < 256 ^ d) by (apply Z.pow_pos_nonneg; lia).
  assert (Hsplit : 2 ^ (bits * len l) = 256 ^ d * 2 ^ held).
  { rewrite pow256, <- Z.pow_add_r by lia. f_equal. lia. }
  set (N' := number bits (l ++ [v])). assert (HN' : N' = N + v * 2 ^ held * 256 ^ d) by (unfold N'; rewrite number_snoc; nia).
  assert (Hacc : Z.lor (N / 256 ^ d) (shl64 v held) = N' / 256 ^ d).
  { rewrite HN', Z.div_add by lia. unfold shl64. rewrite Z.mod_small.
    - rewrite lor_shiftl_add; [by rewrite ?Z.shiftl_mul_pow2 by lia|lia|].
      split; [apply Z.div_pos; lia|apply Z.div_lt_upper_bound; lia].
    - assert (0 < 2 ^ held) by (apply Z.pow_pos_nonneg; lia). rewrite Z.shiftl_mul_pow2 by lia. split; [nia|].
      assert (2 ^ held <= 2 ^ 7) by (apply Z.pow_le_mono_r; lia). assert (2 ^ bits <= 2 ^ 32) by (apply Z.pow_le_mono_r; lia).
      change (2 ^ 7) with 128 in *. change (2 ^ 32) with 4294967296 in *. nia. }
  rewrite Hacc, emit_spec. rewrite len_app, len_cons, len_nil.
  set (t := (held + bits) / 8). assert (Ht : 0 <= t) by (apply Z.div_pos; lia).
  assert (bits * (len l + (1 + 0)) / 8 = d + t) as ->.
  { unfold t, held. replace (bits * (len l + (1 + 0))) with (bits * len l - 8 * d + bits + d * 8) by lia.
    rewrite Z.div_add by lia. lia. }
  rewrite Z2Nat.id by done. f_equal; [f_equal|].
  - rewrite <- app_assoc. f_equal. rewrite Z2Nat.inj_add, to_le_app, Z2Nat.id by lia. f_equal.
    apply to_le_eqm. rewrite Z2Nat.id by lia. rewrite HN'. by rewrite Z.mod_add by lia.
  - rewrite Z.div_div, <- Z.pow_add_r by (try apply Z.pow_pos_nonneg; lia). done.
  - lia.
Qed.

Lemma put_all out l l' :
  Forall fits l -> Forall fits l' -> fold_left (put bits) l' (held_state out l) = held_state out (l ++ l').
Proof.
  intros Hl Hl'. revert l Hl. induction Hl' as [|v l' Hv _ IH]; intros l Hl; cbn [fold_left]; [by rewrite app_nil_r|].
  rewrite put_state by done. rewrite IH by (apply Forall_app; auto). by rewrite <- app_assoc.
Qed.
End packing.

Section blocks.
Import BitPack.

Lemma bit_len_spec v : is_u32 v -> 0 <= bit_len v <= 32 /\ v < 2 ^ bit_len v.
Proof.
  intros Hv. unfold bit_len. zcase; [subst; done|]. pose proof (Z.log2_spec v ltac:(lia)) as [_ Hl].
  assert (Z.log2 v < 32) by (apply Z.log2_lt_pow2; [lia|change (2 ^ 32) with 4294967296; lia]).
  pose proof (Z.log2_nonneg v). split; [lia|]. exact Hl.
Qed.

Lemma fold_max l b : Forall (fun x => x <= fold_left Z.max l b) (b :: l) /\
  forall m, Forall (fun x => x <= m) (b :: l) -> fold_left Z.max l b <= m.
Proof.
  revert b. induction l as [|x l IH]; intros b; cbn [fold_left].
  - split; [by repeat constructor|]. intros m Hm. by inversion Hm.
  - destruct (IH (Z.max b x)) as [Hall Hleast]. split.
    + inversion Hall; subst. constructor; [lia|]. constructor; [lia|done].
    + intros m Hm. apply Hleast. inversion Hm as [|? ? ? Hr]; subst. inversion Hr; subst. constructor; [lia|done].
Qed.

Lemma width_of_spec l : Forall (fun v => is_u32 v) l ->
  1 <= width_of l <= 32 /\ Forall (fun v => 0 <= v < 2 ^ width_of l) l.
Proof.
  intros Hl. unfold width_of. destruct (map bit_len l) as [|b bs] eqn:Hm.
  { destruct l; [|done]. by split; [lia|constructor]. }
  destruct (fold_max bs b) as [Hall Hleast]. rewrite <- Hm in *.
  assert (Hle : fold_left Z.max bs b <= 32).
  { apply Hleast. apply List.Forall_map. eapply List.Forall_impl; [|exact Hl]. intros v Hv. by apply bit_len_spec. }
  split; [lia|]. apply (proj1 (List.Forall_map bit_len (fun x => x <= fold_left Z.max bs b) l)) in Hall.
  eapply List.Forall_impl; [|exact (List.Forall_and Hl Hall)]. cbn. intros v [Hv Hb]. split; [lia|].
  destruct (bit_len_spec v Hv). eapply Z.lt_le_trans; [done|]. apply Z.pow_le_mono_r; lia.
Qed.

(** The bytes of a block: its width, then its number. *)
Definition block_bytes (l : list Z) : bytes :=
  width_of l :: to_le (Z.to_nat (room (width_of l) (len l))) (number (width_of l) l).

Lemma pack_chunk_spec out l : Forall (fun v => is_u32 v) l -> pack_chunk out l = out ++ block_bytes l.
Proof.
  intros Hl. destruct (width_of_spec l Hl) as [Hb Hf]. unfold pack_chunk, block_bytes. set (bits := width_of l) in *.
  assert ((out ++ [bits], 0, 0) = held_state bits (out ++ [bits]) []) as ->.
  { unfold held_state. assert (bits * len (@nil Z) = 0) as -> by len_lia. cbn. by rewrite app_nil_r. }
  rewrite put_all by (done || constructor). unfold held_state. cbn [app].
  set (d := bits * len l / 8). pose proof (len_nonneg l).
  assert (Hd : 0 <= d /\ 8 * d <= bits * len l < 8 * d + 8) by (unfold d; Z.to_euclidean_division_equations; nia).
  assert (Hroom : room bits (len l) = if 0 <? bits * len l - 8 * d then d + 1 else d).
  { unfold room. replace (len l * bits + 7) with (bits * len l - 8 * d + 7 + d * 8) by lia. rewrite Z.div_add by lia.
    zcase; [|rewrite Z.div_small by lia; lia].
    assert ((bits * len l - 8 * d + 7) / 8 = 1) as -> by (Z.to_euclidean_division_equations; lia). lia. }
  rewrite Hroom. zcase; rewrite <- !app_assoc; cbn [app]; [|done]. do 2 f_equal.
  rewrite Z2Nat.inj_add, to_le_app, Z2Nat.id by lia. f_equal.
Qed.

Lemma pack_spec out ls :
  Forall (Forall (fun v => is_u32 v)) ls -> fold_left pack_chunk ls out = out ++ concat (map block_bytes ls).
Proof.
  intros Hls. revert out. induction Hls as [|l ls Hl _ IH]; intros out; cbn; [by rewrite app_nil_r|].
  by rewrite pack_chunk_spec, IH, <- app_assoc.
Qed.

(** *** And back *)
Lemma room_fits bits l :
  1 <= bits <= 32 -> Forall (fun v => 0 <= v < 2 ^ bits) l ->
  from_le (to_le (Z.to_nat (room bits (len l))) (number bits l)) = number bits l.
Proof.
  intros Hb Hl. pose proof (number_range bits Hb l Hl) as Hn. pose proof (len_nonneg l).
  assert (Hr : 0 <= room bits (len l) /\ bits * len l <= 8 * room bits (len l)).
  { unfold room. split; [apply Z.div_pos; nia|]. Z.to_euclidean_division_equations; nia. }
  apply from_le_to_le. rewrite Z2Nat.id, pow256 by lia. split; [lia|].
  eapply Z.lt_le_trans; [apply Hn|]. apply Z.pow_le_mono_r; lia.
Qed.

Lemma unpack_block turns block n l rest :
  Forall (fun v => is_u32 v) l -> length l = Nat.min n block ->
  unpack (S turns) block n (block_bytes l ++ rest) = l ++ unpack turns block (n - length l) rest.
Proof.
  intros Hl Hn. destruct (width_of_spec l Hl) as [Hb Hf]. unfold block_bytes. cbn [app unpack]. rewrite <- Hn.
  rewrite <- len_length. set (size := room (width_of l) (len l)).
  assert (0 <= size) by (unfold size, room; pose proof (len_nonneg l); apply Z.div_pos; nia).
  rewrite takez_app, dropz_app by (rewrite len_to_le; lia).
  unfold size. by rewrite room_fits, places_number.
Qed.

Lemma unpack_packed turns block values :
  (length values <= turns)%nat -> (1 <= block)%nat -> Forall (fun v => is_u32 v) values ->
  unpack turns block (length values) (concat (map block_bytes (chunks turns block values))) = values.
Proof.
  revert values. induction turns as [|turns IH]; intros values Ht Hb Hv.
  { destruct values; cbn in *; [done|lia]. }
  destruct values as [|v values]; [done|]. cbn [chunks map concat].
  set (l := take block (v :: values)). set (r := drop block (v :: values)).
  assert (Hlr : l ++ r = v :: values) by apply take_drop.
  assert (Hl : length l = Nat.min (length (v :: values)) block) by (unfold l; rewrite length_take; lia).
  assert (Hr : length r = (length (v :: values) - length l)%nat) by (rewrite <- Hlr, length_app; lia).
  rewrite <- Hlr in Hv. apply Forall_app in Hv as [Hvl Hvr].
  rewrite unpack_block by done. rewrite <- Hr, IH by (done || cbn [length] in *; lia). exact Hlr.
Qed.

Lemma chunks_ok turns n values : Forall (fun v => is_u32 v) values -> Forall (Forall (fun v => is_u32 v)) (chunks turns n values).
Proof.
  revert values. induction turns as [|turns IH]; intros values Hv; cbn; [constructor|].
  destruct values as [|v values]; [constructor|].
  rewrite <- (take_drop n (v :: values)) in Hv. apply Forall_app in Hv as [??]. constructor; auto.
Qed.

Lemma pack_unpacks values block :
  Forall (fun v => is_u32 v) values -> 1 <= block ->
  unpack (length values) (Z.to_nat block) (length values) (pack values block) = values.
Proof.
  intros Hv Hb. unfold pack. rewrite pack_spec by (by apply chunks_ok). apply unpack_packed; [done|lia|done].
Qed.
End blocks.

(** the measurement compares two encodings of the same thing. On a whole
    number of frames the deltas are computed, their LEB128 form is byte for
    byte what the numeric transform writes, of the length [varint_len] counts,
    and the packed form is read back to the same deltas. *)
Theorem headroom_compares_like_with_like (input : bytes) (ch w block samples : Z) (out : bytes) :
  (w = 2 \/ w = 4) -> 1 <= ch -> 1 <= block -> frame_layout (len input) ch w = Ok samples ->
  exists values, BitPack.deltas input ch w = Ok values /\
    encode input ch w out =
      (if len (BitPack.leb128 values) <=? len out
       then Ok (BitPack.leb128 values ++ dropz (len (BitPack.leb128 values)) out, len (BitPack.leb128 values))
       else Err BufferTooSmall) /\
    len (BitPack.leb128 values) = foldr Z.add 0 (map BitPack.varint_len values) /\
    BitPack.unpack (length values) (Z.to_nat block) (length values) (BitPack.pack values block) = values.
Proof.
  intros Hw Hch Hb Hfl. destruct (frame_layout_inv (len input) ch w samples (len_nonneg _) ltac:(lia) ltac:(lia) Hfl) as (_ & Hs & Hlen).
  assert (len input / (ch * w) = samples) as Hdiv by (rewrite Hlen; replace (ch * samples * w) with (samples * (ch * w)) by lia; apply Z.div_mul; nia).
  pose proof (deltas_eq input ch w Hw Hch) as Hd. rewrite Hdiv in Hd. set (values := delta_list _ _ _) in Hd.
  assert (Hu : Forall (fun v => is_u32 v) values).
  { apply List.Forall_map, Forall_forall. intros t _. apply zigzag_range, to_i32_range. }
  exists values. split_and!; [exact Hd| | |by apply pack_unpacks].
  - rewrite (numeric_encode_eq input ch w out samples Hw ltac:(lia) Hfl). cbn zeta.
    assert (BitPack.leb128 values = stream (sample input ch w) samples (ch * samples)) as -> by apply leb128_deltas. done.
  - clear Hd. induction Hu as [|v vs Hv _ IH]; [done|]. unfold BitPack.leb128 in *. cbn [map concat foldr].
    rewrite len_app, IH. by rewrite varint_len_spec.
Qed.

Lemma headroom_compares_like_with_like_witness :
  exists values, BitPack.deltas [1;0;254;255;3;0;4;0] 2 2 = Ok values /\
    BitPack.unpack (length values) 64 (length values) (BitPack.pack values 64) = values.
Proof.
  destruct (headroom_compares_like_with_like [1;0;254;255;3;0;4;0] 2 2 64 2 (zeros 10)) as (values & Hd & _ & _ & Hp);
    [lia|lia|lia|vm_compute; reflexivity|]. exists values. split; [exact Hd|exact Hp].
Defined.

(** Four deltas of at most four bits: a width and two bytes, for four bytes of
    LEB128. *)
Example packs_smaller :
  BitPack.deltas [1;0;254;255;3;0;4;0] 2 2 = Ok [2; 4; 3; 12] /\
  BitPack.leb128 [2; 4; 3; 12] = [2; 4; 3; 12] /\ BitPack.pack [2; 4; 3; 12] 64 = [4; 66; 195].
Proof. vm_compute. done. Qed.
