(* ===== verification/Codec.v ===== *)
(** * Payload codecs (crates/fectp-core/src/codec/mod.rs)

    The transforms a payload shape selects, the entropy stage, and the codec
    header that travels inside the plaintext. *)
From S2P Require Import Prelude Bytes Error Varint Transpose Numeric.

Definition CODEC_HEADER_LEN : Z := 4.
Definition MAX_ORIGINAL_LEN : Z := U16_MAX.
Definition CODEC_ZSTD : Z := 1.
Definition CODEC_I16_DELTA : Z := 2.
Definition CODEC_I32_DELTA : Z := 4.
Definition CODEC_TRANSPOSE : Z := 8.
Definition CODECS_CORE : Z := Z.lor (Z.lor CODEC_I16_DELTA CODEC_I32_DELTA) CODEC_TRANSPOSE.
#[export] Hint Unfold CODEC_HEADER_LEN MAX_ORIGINAL_LEN : consts.

Inductive Transform := TransformNone | I16Delta | I32Delta | ByteTranspose.

#[global] Instance Transform_eq_dec : EqDecision Transform.
Proof. solve_decision. Defined.

Module Transform.
Definition to_bits (t : Transform) : Z :=
  match t with TransformNone => 0 | I16Delta => 1 | I32Delta => 2 | ByteTranspose => 3 end.

Definition from_bits (bits : Z) : Result Transform :=
  match bits with
  | 0 => Ok TransformNone
  | 1 => Ok I16Delta
  | 2 => Ok I32Delta
  | 3 => Ok ByteTranspose
  | _ => Err BadHeader
  end.

Definition capability (t : Transform) : Z :=
  match t with
  | TransformNone => 0
  | I16Delta => CODEC_I16_DELTA
  | I32Delta => CODEC_I32_DELTA
  | ByteTranspose => CODEC_TRANSPOSE
  end.

Definition apply (t : Transform) (input : bytes) (param : Z) (out : bytes)
  : Result (bytes * Z) :=
  match t with
  | TransformNone =>
      if len out <? len input then Err BufferTooSmall else
      let? out := copy_range out 0 (len input) input in
      Ok (out, len input)
  | I16Delta => numeric.encode_i16 input param out
  | I32Delta => numeric.encode_i32 input param out
  | ByteTranspose => transpose.encode input param out
  end.

Definition reverse (t : Transform) (input : bytes) (param original_len : Z) (out : bytes)
  : Result (bytes * Z) :=
  match t with
  | TransformNone =>
      if negb (len input =? original_len) then Err BadHeader else
      if len out <? len input then Err BufferTooSmall else
      let? out := copy_range out 0 (len input) input in
      Ok (out, len input)
  | I16Delta => numeric.decode_i16 input param original_len out
  | I32Delta => numeric.decode_i32 input param original_len out
  | ByteTranspose =>
      if negb (len input =? original_len) then Err BadHeader else
      transpose.decode input param out
  end.
End Transform.

Inductive Entropy := EntropyNone | Zstd.

#[global] Instance Entropy_eq_dec : EqDecision Entropy.
Proof. solve_decision. Defined.

Module Entropy.
Definition to_bits (e : Entropy) : Z := match e with EntropyNone => 0 | Zstd => 1 end.

Definition from_bits (bits : Z) : Result Entropy :=
  match bits with 0 => Ok EntropyNone | 1 => Ok Zstd | _ => Err BadHeader end.

Definition capability (e : Entropy) : Z :=
  match e with EntropyNone => 0 | Zstd => CODEC_ZSTD end.
End Entropy.

Record CodecHeader := mkCodecHeader {
  transform : Transform;
  entropy : Entropy;
  param : Z;
  original_len : Z;
}.

Module CodecHeader.
Definition encode (h : CodecHeader) (out : bytes) : Result bytes :=
  if len out <? CODEC_HEADER_LEN then Err BufferTooSmall else
  let? out := set_index out 0
    (Z.lor (Transform.to_bits (transform h)) (Z.shiftl (Entropy.to_bits (entropy h)) 4)) in
  let? out := set_index out 1 (param h) in
  let? out := copy_range out 2 4 (to_le 2 (original_len h)) in
  Ok out.

Definition decode (input : bytes) : Result CodecHeader :=
  if len input <? CODEC_HEADER_LEN then Err MessageTooShort else
  let? l := slice input 2 4 in
  let? b0 := index input 0 in
  let? t := Transform.from_bits (Z.land b0 15) in
  let? e := Entropy.from_bits (Z.shiftr b0 4) in
  let? p := index input 1 in
  Ok {| transform := t; entropy := e; param := p; original_len := from_le l |}.

Definition wf (h : CodecHeader) : Prop := is_u8 (param h) /\ is_u16 (original_len h).

Definition wire (h : CodecHeader) : bytes :=
  [Z.lor (Transform.to_bits (transform h)) (Z.shiftl (Entropy.to_bits (entropy h)) 4); param h]
  ++ to_le 2 (original_len h).
End CodecHeader.

(** ** Lemmas *)
Lemma len_codec_wire h : len (CodecHeader.wire h) = 4.
Proof. unfold CodecHeader.wire. by autorewrite with len. Qed.
#[export] Hint Rewrite len_codec_wire : len.

Lemma codec_first_byte t e :
  let b := Z.lor (Transform.to_bits t) (Z.shiftl (Entropy.to_bits e) 4) in
  is_u8 b /\ Z.land b 15 = Transform.to_bits t /\ Z.shiftr b 4 = Entropy.to_bits e.
Proof. destruct t, e; vm_compute; intuition congruence. Qed.

Lemma codec_first_byte_inv b :
  is_u8 b -> b = Z.lor (Z.land b 15) (Z.shiftl (Z.shiftr b 4) 4).
Proof.
  intros Hb. apply Z.eqb_eq.
  exact (byte_forall (fun b => b =? Z.lor (Z.land b 15) (Z.shiftl (Z.shiftr b 4) 4))
    ltac:(by vm_compute) b Hb).
Qed.

Lemma transform_from_bits_inv b t : Transform.from_bits b = Ok t -> b = Transform.to_bits t.
Proof.
  unfold Transform.from_bits. intros H. repeat (case_match; try discriminate); by simplify_eq.
Qed.

Lemma entropy_from_bits_inv b e : Entropy.from_bits b = Ok e -> b = Entropy.to_bits e.
Proof.
  unfold Entropy.from_bits. intros H. repeat (case_match; try discriminate); by simplify_eq.
Qed.

Lemma codec_encode_ok h out :
  CODEC_HEADER_LEN <= len out ->
  CodecHeader.encode h out = Ok (CodecHeader.wire h ++ dropz CODEC_HEADER_LEN out).
Proof.
  intros Hl. unfold CodecHeader.encode, set_index.
  rewrite (proj2 (Z.ltb_ge _ _)) by lia.
  rewrite copy_range_at by len_lia.
  rewrite (copy_range_next [_]) by len_lia.
  rewrite (copy_range_next ([_] ++ [_])) by len_lia.
  autorewrite with len.
  by rewrite !dropz_dropz, <- !app_assoc by (autorewrite with len; lia).
Qed.

Lemma codec_decode_wire h rest :
  CodecHeader.wf h -> CodecHeader.decode (CodecHeader.wire h ++ rest) = Ok h.
Proof.
  intros (Hp & Ho). unfold CodecHeader.decode.
  rewrite (proj2 (Z.ltb_ge _ _)) by len_lia.
  destruct (codec_first_byte (transform h) (entropy h)) as (_ & Ht & He).
  unfold CodecHeader.wire. rewrite <- !app_assoc. simpl app.
  rewrite (slice_eq _ [_; _] (to_le 2 (original_len h)) rest) by (done || len_lia).
  rewrite index_0, index_1, Ht, He.
  replace (Transform.from_bits (Transform.to_bits (transform h)))
    with (@Ok Error _ (transform h)) by (by destruct (transform h)).
  replace (Entropy.from_bits (Entropy.to_bits (entropy h)))
    with (@Ok Error _ (entropy h)) by (by destruct (entropy h)).
  rewrite from_le_to_le by (simpl; lia). by destruct h.
Qed.

Lemma codec_decode_inv input h :
  bytes_ok input -> CodecHeader.decode input = Ok h ->
  CodecHeader.wf h /\ input = CodecHeader.wire h ++ dropz CODEC_HEADER_LEN input.
Proof.
  unfold CodecHeader.decode. intros Hok H. inv_run H. slice_facts.
  match goal with H : Transform.from_bits _ = _ |- _ =>
    apply transform_from_bits_inv in H; rename H into Ht end.
  match goal with H : Entropy.from_bits _ = _ |- _ =>
    apply entropy_from_bits_inv in H; rename H into He end.
  match goal with H : index input 0 = Ok ?b |- _ =>
    pose proof (codec_first_byte_inv b ltac:(done)) as Hb0;
    apply index_slice in H; rename H into R0 end.
  match goal with H : index input 1 = Ok ?b |- _ =>
    apply index_slice in H; rename H into R1 end.
  rename select (slice input 2 4 = _) into R2.
  split; [split; [done|by apply from_le_u16]|].
  apply (slice_prefix (E:=Error)). unfold CodecHeader.wire.
  cbn [transform entropy param original_len].
  rewrite to_le_from_le, <- Ht, <- He, <- Hb0 by done.
  match goal with |- _ = Ok ([?x; ?y] ++ ?l) => change ([x; y] ++ l) with ([x] ++ [y] ++ l) end.
  apply (slice_join _ _ _ _ _ _ R0). by apply (slice_join _ _ _ _ _ _ R1).
Qed.

Lemma codec_decode_no_panic input : is_panic (CodecHeader.decode input) = false.
Proof.
  unfold CodecHeader.decode. zcase; [done|].
  rewrite slice_ok by clia.
  destruct (index_ok (E:=Error) input 0) as (b0 & -> & _); [clia|].
  destruct (index_ok (E:=Error) input 1) as (b1 & -> & _); [clia|].
  unfold Transform.from_bits, Entropy.from_bits. by repeat case_match.
Qed.

(** The reverse transform on untrusted bytes. *)
Lemma transform_reverse_safe t input p ol out :
  bytes_ok input -> 0 <= p -> 0 <= ol ->
  match Transform.reverse t input p ol out with
  | Ok (out', n) => n = ol /\ len out' = len out
  | Err e => e = BadHeader \/ e = BufferTooSmall
  | Panic => False
  end.
Proof.
  intros Hok Hp Hol. destruct t; cbn [Transform.reverse].
  - destruct (Z.eqb_spec (len input) ol) as [<-|]; [|by left]. cbn [negb].
    zcase; [by right|]. rewrite copy_range_at by done. split; [done|len_lia].
  - apply numeric_decode_safe; auto.
  - apply numeric_decode_safe; auto.
  - destruct (Z.eqb_spec (len input) ol) as [<-|]; [|by left]. cbn [negb].
    destruct (Z.eqb_spec p 0) as [->|]; [by left|].
    destruct (Z.ltb_spec (len out) (len input)).
    + unfold transpose.decode. rewrite (proj2 (Z.eqb_neq _ _)) by done.
      rewrite (proj2 (Z.ltb_lt _ _)) by done. by right.
    + destruct (transpose_decode_ok input p out) as (o & -> & Ho & _); [lia|lia|]. auto.
Qed.

Lemma transform_roundtrip t input p out enc n out2 :
  bytes_ok input -> is_u8 p -> Transform.apply t input p out = Ok (enc, n) ->
  len input <= len out2 ->
  exists dec, Transform.reverse t (takez n enc) p (len input) out2 = Ok (dec, len input) /\
    takez (len input) dec = input.
Proof.
  intros Hok Hp H Hl. destruct t; cbn [Transform.apply Transform.reverse] in *.
  - inv_run H. rename select (copy_range _ _ _ _ = _) into Hc.
    rewrite copy_range_at in Hc by done. simplify_eq.
    rewrite takez_app by done. rewrite Z.eqb_refl. cbn [negb].
    rewrite (proj2 (Z.ltb_ge _ _)), copy_range_at by done.
    eexists. split; [done|]. by rewrite takez_app by done.
  - unfold numeric.encode_i16, numeric.decode_i16 in *.
    eapply numeric_roundtrip; eauto. lia.
  - unfold numeric.encode_i32, numeric.decode_i32 in *.
    eapply numeric_roundtrip; eauto. lia.
  - assert (0 < p /\ len input <= len out) as [? ?].
    { unfold transpose.encode in H. destruct (Z.eqb_spec p 0); [done|].
      zcase_in H; [done|lia]. }
    destruct (transpose_roundtrip input p out out2) as (enc' & dec & He & Hd & Ht); [done..|].
    rewrite He in H. simplify_eq. rewrite (proj2 (Z.eqb_eq _ _)).
    + eauto.
    + destruct (transpose_encode_ok input p out) as (enc'' & He' & Hle & _); [done..|].
      rewrite He in He'. simplify_eq. len_lia.
Qed.

(** ** Properties *)

(** every transform reproduces its input byte for byte: whatever shape is
    declared, if applying the transform succeeds then reversing its output
    with the header's parameter and original length succeeds and gives back
    exactly the input. *)
Theorem transform_lossless t input p out enc n out2 :
  bytes_ok input -> is_u8 p -> Transform.apply t input p out = Ok (enc, n) ->
  len input <= len out2 ->
  exists dec, Transform.reverse t (takez n enc) p (len input) out2 = Ok (dec, len input) /\
    takez (len input) dec = input.
Proof. apply transform_roundtrip. Qed.

Lemma transform_lossless_witness :
  Transform.apply I32Delta [1;0;0;0;255;255;255;127] 1 (zeros 20)
    = Ok ([2;252;255;255;255;15] ++ zeros 14, 6) /\
  exists dec, Transform.reverse I32Delta (takez 6 ([2;252;255;255;255;15] ++ zeros 14)) 1
      (len [1;0;0;0;255;255;255;127]) (zeros 8) = Ok (dec, len [1;0;0;0;255;255;255;127]) /\
    takez (len [1;0;0;0;255;255;255;127]) dec = [1;0;0;0;255;255;255;127].
Proof.
  assert (Transform.apply I32Delta [1;0;0;0;255;255;255;127] 1 (zeros 20)
    = Ok ([2;252;255;255;255;15] ++ zeros 14, 6)) as H by (by vm_compute).
  split; [done|]. eapply transform_lossless; [|lia|exact H|vm_compute; congruence].
  repeat constructor; vm_compute; congruence.
Defined.

(** the codec header and the reverse transforms are safe on bytes a peer
    chose: parsing accepts exactly the encodings of codec headers, and
    reversing any transform with any parameter and declared length either
    fills exactly the declared length or returns [BadHeader] or
    [BufferTooSmall]; nothing panics. *)
Theorem codec_decode_safe input :
  bytes_ok input ->
  is_panic (CodecHeader.decode input) = false /\
  (forall h, CodecHeader.decode input = Ok h <->
     CodecHeader.wf h /\ exists rest, input = CodecHeader.wire h ++ rest) /\
  (forall t p ol out, 0 <= p -> 0 <= ol ->
     match Transform.reverse t input p ol out with
     | Ok (out', n) => n = ol /\ len out' = len out
     | Err e => e = BadHeader \/ e = BufferTooSmall
     | Panic => False
     end).
Proof.
  intros Hok. split; [apply codec_decode_no_panic|]. split.
  - intros h. split.
    + intros H. destruct (codec_decode_inv _ _ Hok H). eauto.
    + intros (Hwf & rest & ->). by apply codec_decode_wire.
  - intros. by apply transform_reverse_safe.
Qed.

Lemma codec_decode_safe_witness :
  is_panic (CodecHeader.decode [17; 4; 16; 0]) = false /\
  (forall h, CodecHeader.decode [17; 4; 16; 0] = Ok h <->
     CodecHeader.wf h /\ exists rest, [17; 4; 16; 0] = CodecHeader.wire h ++ rest) /\
  (forall t p ol out, 0 <= p -> 0 <= ol ->
     match Transform.reverse t [17; 4; 16; 0] p ol out with
     | Ok (out', n) => n = ol /\ len out' = len out
     | Err e => e = BadHeader \/ e = BufferTooSmall
     | Panic => False
     end).
Proof. apply codec_decode_safe. repeat constructor; vm_compute; congruence. Defined.
