(* ===== verification/Replay.v ===== *)
(** * The replay window (crates/fectp-core/src/session.rs, [ReplayWindow])

    A sliding bitmap over 64-bit sequence numbers. The theorem is a functional
    refinement: the bitmap accepts exactly what an unbounded set of accepted
    numbers would, and so no number twice. *)
From S2P Require Import Prelude Bytes Error.

Record ReplayWindow := mkReplayWindow {
  rw_highest : Z;
  rw_bitmap : Z;
  rw_started : bool;
}.

Definition REPLAY_WINDOW : Z := 64.
#[export] Hint Unfold REPLAY_WINDOW : consts.

Module ReplayWindow.
Definition new : ReplayWindow :=
  {| rw_highest := 0; rw_bitmap := 0; rw_started := false |}.

Definition check (w : ReplayWindow) (seq : Z) : Result unit :=
  if negb (rw_started w) then Ok tt else
  if rw_highest w <? seq then Ok tt else
  let diff := rw_highest w - seq in
  if REPLAY_WINDOW <=? diff then Err Replay else
  if negb (Z.land (rw_bitmap w) (shl64 1 diff) =? 0) then Err Replay else
  Ok tt.

Definition commit (w : ReplayWindow) (seq : Z) : ReplayWindow :=
  if negb (rw_started w) then
    {| rw_highest := seq; rw_bitmap := 1; rw_started := true |}
  else if rw_highest w <? seq then
    let shift := seq - rw_highest w in
    let bitmap :=
      if REPLAY_WINDOW <=? shift then 1 else Z.lor (shl64 (rw_bitmap w) shift) 1 in
    {| rw_highest := seq; rw_bitmap := bitmap; rw_started := true |}
  else
    let diff := rw_highest w - seq in
    if diff <? REPLAY_WINDOW then
      {| rw_highest := rw_highest w; rw_bitmap := Z.lor (rw_bitmap w) (shl64 1 diff);
         rw_started := true |}
    else w.

(** What [Session::open] does with the window around a frame that
    authenticates: check, then commit. *)
Definition receive (w : ReplayWindow) (seq : Z) : ReplayWindow * bool :=
  match check w seq with Ok _ => (commit w seq, true) | _ => (w, false) end.

Fixpoint receive_all (w : ReplayWindow) (seqs : list Z) : ReplayWindow * list bool :=
  match seqs with
  | [] => (w, [])
  | s :: seqs =>
      let '(w, b) := receive w s in
      let '(w, bs) := receive_all w seqs in (w, b :: bs)
  end.

(** ** Abstract specification: the set of numbers accepted so far *)
Definition fresh (accepted : list Z) (seq : Z) : bool :=
  forallb (fun a => negb (a =? seq) && (a - seq <? REPLAY_WINDOW)) accepted.

Fixpoint spec_all (accepted : list Z) (seqs : list Z) : list bool :=
  match seqs with
  | [] => []
  | s :: seqs =>
      let b := fresh accepted s in
      b :: spec_all (if b then s :: accepted else accepted) seqs
  end.

(** The numbers accepted along a run. *)
Fixpoint taken (seqs : list Z) (bs : list bool) : list Z :=
  match seqs, bs with
  | s :: seqs, b :: bs => if b then s :: taken seqs bs else taken seqs bs
  | _, _ => []
  end.

(** The window represents the accepted set. *)
Definition rep (w : ReplayWindow) (accepted : list Z) : Prop :=
  if rw_started w then
    is_u64 (rw_highest w) /\ is_u64 (rw_bitmap w) /\
    In (rw_highest w) accepted /\
    (forall a, In a accepted -> a <= rw_highest w) /\
    (forall i, 0 <= i < REPLAY_WINDOW ->
       Z.testbit (rw_bitmap w) i = true <-> In (rw_highest w - i) accepted)
  else accepted = [].
End ReplayWindow.
Import ReplayWindow.

(** ** Lemmas *)
Lemma fresh_spec accepted seq :
  fresh accepted seq = true <->
  ~ In seq accepted /\ forall a, In a accepted -> a - seq < REPLAY_WINDOW.
Proof.
  unfold fresh. rewrite List.forallb_forall. split.
  - intros H. split.
    + intros Hin%H. rewrite Z.eqb_refl in Hin. done.
    + intros a Hin%H. zbool. done.
  - intros [Hn Hw] a Ha. specialize (Hw a Ha). apply andb_true_intro.
    split; [apply negb_true_iff, Z.eqb_neq; congruence | by apply Z.ltb_lt].
Qed.

Lemma rep_check w accepted seq :
  rep w accepted -> is_ok (check w seq) = fresh accepted seq.
Proof.
  unfold rep, check. destruct (rw_started w); cbn [negb]; [|by intros ->].
  intros (Hh & Hb & Hin & Hmax & Hbits). apply Bool.eq_iff_eq_true.
  rewrite fresh_spec. zcase; [|zcase]; cbn [is_ok].
  - split; [intros _|done]. split; [intros Hs%Hmax; lia|].
    intros a Ha%Hmax. clia.
  - split; [done|]. intros [_ Hw]. specialize (Hw _ Hin). lia.
  - rewrite land_bit_nonzero by clia.
    specialize (Hbits (rw_highest w - seq) ltac:(lia)).
    replace (rw_highest w - (rw_highest w - seq)) with seq in Hbits by lia.
    destruct (Z.testbit _ _) eqn:Ht; cbn [is_ok].
    + split; [done|]. intros [Hn _]. by destruct Hn; apply Hbits.
    + split; [|done]. intros _. split; [intros Hs%Hbits; congruence|].
      intros a Ha%Hmax. lia.
Qed.

Lemma rep_commit w accepted seq :
  rep w accepted -> is_u64 seq -> is_ok (check w seq) = true ->
  rep (commit w seq) (seq :: accepted).
Proof.
  intros Hrep Hs Hck. pose proof Hrep as Hrep'. revert Hrep.
  unfold rep at 1, commit. destruct (rw_started w) eqn:Hst; cbn [negb].
  - intros (Hh & Hb & Hin & Hmax & Hbits). destruct (Z.ltb_spec (rw_highest w) seq) as [Hlt|Hge].
    + unfold rep. cbn. split; [done|]. split; [zcase; [lia|apply lor_u64; [apply shl64_range|lia]]|].
      split; [by left|]. split; [intros a [<-|Ha%Hmax]; lia|].
      intros i Hi. zcase.
      * change 1 with (shl64 1 0). rewrite testbit_one_shl by lia.
        destruct (Z.eqb_spec i 0) as [->|]; [rewrite Z.sub_0_r; tauto|].
        split; [done|]. intros [|Ha%Hmax]; [lia|clia].
      * rewrite Z.lor_spec. change 1 with (shl64 1 0).
        rewrite testbit_one_shl, testbit_shl64 by clia.
        destruct (Z.eqb_spec i 0) as [->|]; [rewrite Z.sub_0_r, orb_true_r; tauto|].
        rewrite orb_false_r, (proj2 (Z.ltb_lt i 64)) by clia. cbn [andb].
        destruct (Z.leb_spec (seq - rw_highest w) i); cbn [andb].
        -- rewrite Hbits by clia.
           replace (rw_highest w - (i - (seq - rw_highest w))) with (seq - i) by lia.
           cbn. intuition lia.
        -- split; [done|]. intros [|Ha%Hmax]; lia.
    + unfold check in Hck. rewrite Hst in Hck. cbn [negb] in Hck.
      rewrite (proj2 (Z.ltb_ge _ _)) in Hck by done. zcase_in Hck; [done|].
      rewrite (proj2 (Z.ltb_lt _ _)) by lia. unfold rep. cbn.
      split; [done|]. split; [auto with fectp|]. split; [by right|].
      split; [intros a [<-|Ha%Hmax]; lia|].
      intros i Hi. rewrite Z.lor_spec, testbit_one_shl, orb_true_iff, Hbits by clia.
      rewrite Z.eqb_eq. cbn. intuition lia.
  - intros ->. unfold rep. cbn. split; [done|]. split; [lia|]. split; [by left|].
    split; [intros a [<-|[]]; lia|]. intros i Hi.
    change 1 with (shl64 1 0). rewrite testbit_one_shl, Z.eqb_eq by clia. cbn. intuition lia.
Qed.

Lemma receive_all_refines w accepted seqs :
  rep w accepted -> Forall (fun s => is_u64 s) seqs ->
  (receive_all w seqs).2 = spec_all accepted seqs.
Proof.
  intros Hrep Hs. revert w accepted Hrep. induction Hs as [|s seqs Hu _ IH]; intros w acc Hrep; [done|].
  cbn [receive_all spec_all]. unfold receive.
  pose proof (rep_check w acc s Hrep) as Hck.
  destruct (check w s) as [[]|e|] eqn:Hc; cbn [is_ok] in Hck; rewrite <- Hck.
  - specialize (IH (commit w s) (s :: acc) ltac:(apply rep_commit; rewrite ?Hc; done)).
    destruct (receive_all (commit w s) seqs). cbn in *. congruence.
  - specialize (IH w acc Hrep). destruct (receive_all w seqs). cbn in *. congruence.
  - specialize (IH w acc Hrep). destruct (receive_all w seqs). cbn in *. congruence.
Qed.

Lemma spec_all_fresh accepted seqs s :
  In s (taken seqs (spec_all accepted seqs)) -> ~ In s accepted.
Proof.
  revert accepted. induction seqs as [|t seqs IH]; intros acc; [done|]. cbn.
  destruct (fresh acc t) eqn:Hf; [|apply IH]. cbn. intros [->|Hin].
  - by apply fresh_spec in Hf as [? _].
  - apply IH in Hin. cbn in Hin. tauto.
Qed.

Lemma spec_all_taken_nodup accepted seqs : List.NoDup (taken seqs (spec_all accepted seqs)).
Proof.
  revert accepted. induction seqs as [|t seqs IH]; intros acc; [constructor|]. cbn.
  destruct (fresh acc t) eqn:Hf; [|apply IH]. constructor; [|apply IH].
  intros Hin%spec_all_fresh. cbn in Hin. tauto.
Qed.

(** ** Properties *)

(** the replay window refines the unbounded set of accepted sequence
    numbers: on any sequence of arrivals, in any order and with any
    repetitions, a frame is accepted exactly when its number has not been
    accepted before and is less than 64 behind the newest accepted; so no
    sequence number is ever accepted twice. *)
Theorem replay_window_refines seqs :
  Forall (fun s => is_u64 s) seqs ->
  (receive_all new seqs).2 = spec_all [] seqs /\
  List.NoDup (taken seqs (receive_all new seqs).2).
Proof.
  intros Hs. assert ((receive_all new seqs).2 = spec_all [] seqs) as Heq.
  { by apply receive_all_refines. }
  split; [done|]. rewrite Heq. apply spec_all_taken_nodup.
Qed.

Lemma replay_window_refines_witness :
  (receive_all new [5; 3; 5; 70; 6; 7; 3; 18446744073709551615]).2
    = spec_all [] [5; 3; 5; 70; 6; 7; 3; 18446744073709551615] /\
  List.NoDup (taken [5; 3; 5; 70; 6; 7; 3; 18446744073709551615]
    (receive_all new [5; 3; 5; 70; 6; 7; 3; 18446744073709551615]).2).
Proof. apply replay_window_refines. repeat constructor; lia. Defined.
