(* ===== verification/Reliability.v ===== *)
(** * Acknowledgements and duplicate detection
      (crates/fectp-core/src/reliability.rs, [Ack], [is_newer], [DedupWindow])

    Message identifiers are 32-bit and wrap; the specification works on
    unbounded message numbers, message [n] carrying the identifier
    [n mod 2^32]. The theorems show the duplicate window delivers each number
    at most once and that its acknowledgement names exactly the numbers
    received, across the wrap. *)
From S2P Require Import Prelude Bytes Error.

Definition ACK_BLOCK_LEN : Z := 12.
Definition MESSAGE_ID_LEN : Z := 4.
Definition MAX_IN_FLIGHT : Z := 32.
Definition MAX_RETRIES : Z := 5.
Definition ACK_WINDOW : Z := 64.
#[export] Hint Unfold ACK_BLOCK_LEN MESSAGE_ID_LEN MAX_IN_FLIGHT MAX_RETRIES ACK_WINDOW : consts.

Record Ack := mkAck {
  ack_highest : Z;
  ack_bitmap : Z;
}.

Module Ack.
Definition encode (a : Ack) (out : bytes) : Result bytes :=
  if len out <? ACK_BLOCK_LEN then Err BufferTooSmall else
  let? out := copy_range out 0 4 (to_le 4 (ack_highest a)) in
  let? out := copy_range out 4 ACK_BLOCK_LEN (to_le 8 (ack_bitmap a)) in
  Ok out.

Definition decode (input : bytes) : Result Ack :=
  if len input <? ACK_BLOCK_LEN then Err MessageTooShort else
  let? h := slice input 0 4 in
  let? b := slice input 4 ACK_BLOCK_LEN in
  Ok {| ack_highest := from_le h; ack_bitmap := from_le b |}.

Definition covers (a : Ack) (id : Z) : bool :=
  if id =? ack_highest a then true else
  let distance := wrapping_sub32 (ack_highest a) id in
  if ACK_WINDOW <? distance then false
  else negb (Z.land (ack_bitmap a) (shl64 1 (distance - 1)) =? 0).

Definition wf (a : Ack) : Prop := is_u32 (ack_highest a) /\ is_u64 (ack_bitmap a).
End Ack.

(** Serial-number comparison. *)
Definition is_newer (id than : Z) : bool :=
  negb (id =? than) && (wrapping_sub32 id than <? 2147483648).

Record DedupWindow := mkDedupWindow {
  dw_highest : Z;
  dw_bitmap : Z;
  dw_started : bool;
}.

Module DedupWindow.
Definition new : DedupWindow :=
  {| dw_highest := 0; dw_bitmap := 0; dw_started := false |}.

Definition accept (w : DedupWindow) (id : Z) : DedupWindow * bool :=
  if negb (dw_started w) then
    ({| dw_highest := id; dw_bitmap := dw_bitmap w; dw_started := true |}, true)
  else if is_newer id (dw_highest w) then
    let shift := wrapping_sub32 id (dw_highest w) in
    let bitmap :=
      if ACK_WINDOW <? shift then 0
      else if shift =? ACK_WINDOW then shl64 1 (ACK_WINDOW - 1)
      else Z.lor (shl64 (dw_bitmap w) shift) (shl64 1 (shift - 1)) in
    ({| dw_highest := id; dw_bitmap := bitmap; dw_started := true |}, true)
  else if id =? dw_highest w then (w, false)
  else
    let distance := wrapping_sub32 (dw_highest w) id in
    if ACK_WINDOW <? distance then (w, false) else
    let bit := shl64 1 (distance - 1) in
    if negb (Z.land (dw_bitmap w) bit =? 0) then (w, false)
    else ({| dw_highest := dw_highest w; dw_bitmap := Z.lor (dw_bitmap w) bit;
             dw_started := true |}, true).

Definition to_ack (w : DedupWindow) : Ack :=
  {| ack_highest := dw_highest w; ack_bitmap := dw_bitmap w |}.

Definition started (w : DedupWindow) : bool := dw_started w.

(** Arrival of a list of identifiers. *)
Fixpoint accept_all (w : DedupWindow) (ids : list Z) : DedupWindow * list bool :=
  match ids with
  | [] => (w, [])
  | i :: ids =>
      let '(w, b) := accept w i in
      let '(w, bs) := accept_all w ids in (w, b :: bs)
  end.

(** ** Abstract specification over unbounded message numbers *)
Definition id_of (n : Z) : Z := wrap32 n.

(** A number is delivered unless it was before, or is more than
    [ACK_WINDOW] behind one that was. *)
Definition deliverable (got : list Z) (n : Z) : bool :=
  forallb (fun a => negb (a =? n) && (a - n <=? ACK_WINDOW)) got.

Fixpoint spec_all (got : list Z) (ns : list Z) : list bool * list Z :=
  match ns with
  | [] => ([], got)
  | n :: ns =>
      let b := deliverable got n in
      let '(bs, got) := spec_all (if b then n :: got else got) ns in (b :: bs, got)
  end.

(** Every arrival is within half the identifier space of the newest one. *)
Definition near (n h : Z) : Prop := -2147483648 < n - h < 2147483648.

Fixpoint paced (h : option Z) (ns : list Z) : Prop :=
  match ns with
  | [] => True
  | n :: ns =>
      match h with
      | None => paced (Some n) ns
      | Some h => near n h /\ paced (Some (Z.max h n)) ns
      end
  end.

(** The window represents the received numbers [got], the newest being [h]. *)
Definition rep (w : DedupWindow) (got : list Z) (h : option Z) : Prop :=
  is_u64 (dw_bitmap w) /\
  match h with
  | None => dw_started w = false /\ dw_bitmap w = 0 /\ got = []
  | Some h =>
      dw_started w = true /\ dw_highest w = id_of h /\ In h got /\
      (forall a, In a got -> a <= h) /\
      (forall i, 0 <= i < ACK_WINDOW ->
         Z.testbit (dw_bitmap w) i = true <-> In (h - 1 - i) got)
  end.
End DedupWindow.
Import DedupWindow.

(** ** Lemmas *)
Lemma wrapping_sub_ids a b : wrapping_sub32 (id_of a) (id_of b) = wrap32 (a - b).
Proof. unfold wrapping_sub32, id_of, wrap32. by rewrite <- Zminus_mod. Qed.

Lemma wrap32_near a b :
  near a b -> wrap32 (a - b) = if b <=? a then a - b else a - b + 4294967296.
Proof.
  intros H. unfold near, wrap32 in *. zcase; [by apply Z.mod_small; lia|].
  symmetry. apply (Z.mod_unique_pos _ _ (-1)); lia.
Qed.

Lemma id_eqb_near a b : near a b -> (id_of a =? id_of b) = (a =? b).
Proof.
  intros H. apply Bool.eq_iff_eq_true. rewrite !Z.eqb_eq. split; [|by intros ->].
  intros Heq. pose proof (wrap32_near a b H) as Hw.
  rewrite <- wrapping_sub_ids, Heq in Hw. unfold wrapping_sub32 in Hw.
  rewrite Z.sub_diag in Hw. change (wrap32 0) with 0 in Hw. unfold near in H. zcase_in Hw; lia.
Qed.

Lemma near_sym a b : near a b -> near b a.
Proof. unfold near. lia. Qed.

Lemma is_newer_near n h : near n h -> is_newer (id_of n) (id_of h) = (h <? n).
Proof.
  intros H. unfold is_newer. rewrite id_eqb_near, wrapping_sub_ids, wrap32_near by done.
  unfold near in H. destruct (Z.eqb_spec n h), (Z.ltb_spec h n), (Z.leb_spec h n);
    cbn; lia || (symmetry; apply Z.ltb_lt; lia) || (apply Z.ltb_ge; lia) || (apply Z.ltb_lt; lia).
Qed.

Lemma deliverable_spec got n :
  deliverable got n = true <->
  ~ In n got /\ forall a, In a got -> a - n <= ACK_WINDOW.
Proof.
  unfold deliverable. rewrite List.forallb_forall. split.
  - intros H. split.
    + intros Hin%H. rewrite Z.eqb_refl in Hin. done.
    + intros a Hin%H. zbool. done.
  - intros [Hn Hw] a Ha. specialize (Hw a Ha). apply andb_true_intro.
    split; [apply negb_true_iff, Z.eqb_neq; congruence | by apply Z.leb_le].
Qed.

Lemma deliverable_rep got h n :
  In h got -> (forall a, In a got -> a <= h) ->
  deliverable got n = true <-> ~ In n got /\ h - n <= ACK_WINDOW.
Proof.
  intros Hin Hmax. rewrite deliverable_spec. split.
  - intros [? H]. auto.
  - intros [? H]. split; [done|]. intros a Ha%Hmax. lia.
Qed.

Lemma rep_new : rep new [] None.
Proof. split; cbn; [lia|auto]. Qed.

(** The next state of the represented set. *)
Definition newest (h : option Z) (n : Z) : option Z :=
  match h with None => Some n | Some h => Some (Z.max h n) end.

Definition near_opt (n : Z) (h : option Z) : Prop :=
  match h with None => True | Some h => near n h end.

(** Sliding the window forward to a newer message. *)
Lemma rep_slide w got h n :
  rep w got (Some h) -> near n h -> h < n ->
  rep (accept w (id_of n)).1 (n :: got) (Some n) /\ (accept w (id_of n)).2 = true.
Proof.
  intros (Hb & Hst & Hhi & Hin & Hmax & Hbits) Hn Hlt. unfold accept.
  rewrite Hst, Hhi, is_newer_near, (proj2 (Z.ltb_lt h n)) by done. cbn [negb fst snd].
  split; [|done]. rewrite wrapping_sub_ids, wrap32_near, (proj2 (Z.leb_le h n)) by (done || lia).
  split; cbn.
  { repeat zcase; auto with fectp. lia. }
  split; [done|]. split; [done|]. split; [by left|].
  split; [intros a [<-|Ha%Hmax]; lia|].
  intros i Hi. zcase; [|zcase].
  - rewrite Z.bits_0. split; [done|]. intros [|Ha%Hmax]; [lia|clia].
  - rewrite testbit_one_shl, Z.eqb_eq by clia. split.
    + intros ->. right. by replace (n - 1 - (ACK_WINDOW - 1)) with h by lia.
    + intros [|Ha%Hmax]; clia.
  - rewrite Z.lor_spec, testbit_one_shl, testbit_shl64 by clia.
    rewrite (proj2 (Z.ltb_lt i 64)) by clia. cbn [andb].
    destruct (Z.leb_spec (n - h) i); cbn [andb].
    + rewrite (proj2 (Z.eqb_neq i _)), orb_false_r, Hbits by clia.
      replace (h - 1 - (i - (n - h))) with (n - 1 - i) by lia. cbn. intuition lia.
    + cbn [orb]. rewrite Z.eqb_eq. split.
      * intros ->. right. by replace (n - 1 - (n - h - 1)) with h by lia.
      * intros [|Ha%Hmax]; lia.
Qed.

(** A message at or behind the newest. *)
Lemma rep_behind w got h n :
  rep w got (Some h) -> near n h -> n <= h ->
  (accept w (id_of n)).2 = deliverable got n /\
  rep (accept w (id_of n)).1 (if deliverable got n then n :: got else got) (Some h).
Proof.
  intros Hrep Hn Hle. pose proof Hrep as (Hb & Hst & Hhi & Hin & Hmax & Hbits). unfold accept.
  rewrite Hst, Hhi, is_newer_near, (proj2 (Z.ltb_ge h n)), id_eqb_near by done.
  cbn [negb]. rewrite wrapping_sub_ids, wrap32_near by (by apply near_sym).
  rewrite (proj2 (Z.leb_le n h)) by lia.
  destruct (deliverable got n) eqn:Hd; [apply (deliverable_rep got h n Hin Hmax) in Hd as [Hni Hw]|
    apply not_true_iff_false in Hd; rewrite (deliverable_rep got h n Hin Hmax) in Hd].
  - rewrite (proj2 (Z.eqb_neq n h)) by congruence.
    rewrite (proj2 (Z.ltb_ge ACK_WINDOW _)) by lia.
    assert (n <> h) by congruence. rewrite land_bit_nonzero by clia.
    specialize (Hbits (h - n - 1) ltac:(clia)) as Hbn.
    replace (h - 1 - (h - n - 1)) with n in Hbn by lia.
    destruct (Z.testbit (dw_bitmap w) (h - n - 1)); [by destruct Hni; apply Hbn|].
    split; [done|]. split; cbn; [auto with fectp|].
    split; [done|]. split; [done|]. split; [by right|].
    split; [intros a [<-|Ha%Hmax]; lia|].
    intros i Hi. rewrite Z.lor_spec, testbit_one_shl, orb_true_iff, Hbits, Z.eqb_eq by clia.
    cbn. intuition lia.
  - destruct (Z.eqb_spec n h) as [->|]; [done|].
    destruct (Z.ltb_spec ACK_WINDOW (h - n)); [done|].
    rewrite land_bit_nonzero by clia.
    specialize (Hbits (h - n - 1) ltac:(clia)) as Hbn.
    replace (h - 1 - (h - n - 1)) with n in Hbn by lia.
    destruct (Z.testbit (dw_bitmap w) (h - n - 1)); [done|].
    exfalso. apply Hd. split; [|lia]. intros Hx%Hbn. done.
Qed.

Lemma accept_refines w got h n :
  rep w got h -> near_opt n h ->
  (accept w (id_of n)).2 = deliverable got n /\
  rep (accept w (id_of n)).1 (if deliverable got n then n :: got else got) (newest h n).
Proof.
  intros Hrep Hn. destruct h as [h|].
  - cbn in Hn. destruct (Z.ltb_spec h n) as [Hlt|Hge].
    + destruct (rep_slide w got h n Hrep Hn Hlt) as [Hr Ht].
      destruct Hrep as (_ & _ & _ & Hin & Hmax & _).
      assert (deliverable got n = true) as ->.
      { apply (deliverable_rep got h n Hin Hmax). split; [|clia].
        intros Hx%Hmax. lia. }
      split; [done|]. cbn. by rewrite Z.max_r by lia.
    + cbn [newest]. rewrite Z.max_l by lia. by apply rep_behind.
  - destruct Hrep as (Hb & Hst & Hb0 & ->). unfold accept. rewrite Hst. cbn [negb fst snd].
    split; [done|]. cbn. split; [done|]. cbn. rewrite Hb0.
    split; [done|]. split; [done|]. split; [by left|].
    split; [intros a [<-|[]]; lia|]. intros i Hi. rewrite Z.bits_0. cbn. intuition lia.
Qed.

(** The acknowledgement a window yields, on every nearby number. *)
Lemma to_ack_covers w got h n :
  rep w got (Some h) -> near n h ->
  Ack.covers (to_ack w) (id_of n) = true <-> In n got /\ h - n <= ACK_WINDOW.
Proof.
  intros (Hb & Hst & Hhi & Hin & Hmax & Hbits) Hn. unfold Ack.covers, to_ack. cbn [ack_highest ack_bitmap].
  rewrite Hhi, id_eqb_near, wrapping_sub_ids, wrap32_near by (done || by apply near_sym).
  destruct (Z.eqb_spec n h) as [->|Hne].
  { split; [|done]. intros _. split; [done|]. clia. }
  destruct (Z.leb_spec n h).
  - destruct (Z.ltb_spec ACK_WINDOW (h - n)).
    + split; [done|]. lia.
    + rewrite land_bit_nonzero, Hbits by clia.
      replace (h - 1 - (h - n - 1)) with n by lia. intuition lia.
  - unfold near in Hn. rewrite (proj2 (Z.ltb_lt ACK_WINDOW _)) by clia.
    split; [done|]. intros [Hx%Hmax _]. lia.
Qed.

Lemma accept_all_refines w got h ns :
  rep w got h -> paced h ns ->
  (accept_all w (map id_of ns)).2 = (spec_all got ns).1 /\
  exists h', rep (accept_all w (map id_of ns)).1 (spec_all got ns).2 h'.
Proof.
  revert w got h. induction ns as [|n ns IH]; intros w got h Hrep Hp; [by eauto|].
  assert (near_opt n h /\ paced (newest h n) ns) as [Hn Hp'] by (by destruct h).
  destruct (accept_refines w got h n Hrep Hn) as [Hb Hr].
  cbn [map accept_all spec_all]. destruct (accept w (id_of n)) as [w' b]. cbn [fst snd] in *.
  subst b. destruct (IH w' _ _ Hr Hp') as [Hbs Hrep'].
  destruct (accept_all w' (map id_of ns)), (spec_all _ ns). cbn in *. split; [congruence|done].
Qed.

Lemma spec_all_nodup got ns : List.NoDup got -> List.NoDup (spec_all got ns).2.
Proof.
  revert got. induction ns as [|n ns IH]; intros got Hg; [done|]. cbn.
  destruct (deliverable got n) eqn:Hd.
  - specialize (IH (n :: got)). destruct (spec_all (n :: got) ns). cbn in *.
    apply IH. constructor; [|done]. by apply deliverable_spec in Hd as [? _].
  - specialize (IH got). destruct (spec_all got ns). cbn in *. by apply IH.
Qed.

Lemma ack_roundtrip a out :
  Ack.wf a -> ACK_BLOCK_LEN <= len out ->
  exists out', Ack.encode a out = Ok out' /\ len out' = len out /\ Ack.decode out' = Ok a.
Proof.
  intros [Hh Hb] Hl. unfold Ack.encode.
  rewrite (proj2 (Z.ltb_ge _ _)) by lia.
  rewrite copy_range_at by len_lia. rewrite copy_range_next by len_lia.
  eexists. split; [done|]. split; [len_lia|].
  unfold Ack.decode. rewrite (proj2 (Z.ltb_ge _ _)) by len_lia.
  rewrite <- !app_assoc. rewrite (slice_eq _ [] (to_le 4 (ack_highest a))
    (to_le 8 (ack_bitmap a) ++ dropz (len (to_le 8 (ack_bitmap a))) (dropz 4 out)))
    by (done || len_lia).
  rewrite (slice_mid (to_le 4 _)) by len_lia.
  rewrite !from_le_to_le by (cbn; lia). by destruct a.
Qed.

(** ** Properties *)

(** C29: the duplicate window refines the unbounded set of received message
    numbers: over any arrivals that stay within half the identifier space of
    the newest, wrap-around included, a message is handed up exactly when its
    number was not received before and is at most 64 behind the newest; so
    the application never sees one message twice. *)
Theorem dedup_window_refines ns :
  paced None ns ->
  (accept_all new (map id_of ns)).2 = (spec_all [] ns).1 /\
  List.NoDup (spec_all [] ns).2.
Proof.
  intros Hp. split.
  - by apply (accept_all_refines new [] None ns rep_new Hp).
  - apply spec_all_nodup. constructor.
Qed.

Lemma dedup_window_refines_witness :
  paced None [4294967295; 4294967296; 4294967295; 4294967360; 4294967296] /\
  (accept_all new (map id_of [4294967295; 4294967296; 4294967295; 4294967360; 4294967296])).2
    = (spec_all [] [4294967295; 4294967296; 4294967295; 4294967360; 4294967296]).1 /\
  List.NoDup (spec_all [] [4294967295; 4294967296; 4294967295; 4294967360; 4294967296]).2.
Proof.
  assert (paced None [4294967295; 4294967296; 4294967295; 4294967360; 4294967296]) as H.
  { cbn. unfold near. lia. }
  split; [done|]. by apply dedup_window_refines.
Defined.

(** an acknowledgement is truthful: after any such arrivals, the
    acknowledgement built from the window covers a message number exactly when
    that message was received and is at most 64 behind the newest received. A
    message that never arrived is never acknowledged, even across the wrap. *)
Theorem ack_truthful ns n h :
  paced None ns -> In h (spec_all [] ns).2 -> (forall a, In a (spec_all [] ns).2 -> a <= h) ->
  near n h ->
  Ack.covers (to_ack (accept_all new (map id_of ns)).1) (id_of n) = true <->
  In n (spec_all [] ns).2 /\ h - n <= ACK_WINDOW.
Proof.
  intros Hp Hin Hmax Hn.
  destruct (accept_all_refines new [] None ns rep_new Hp) as [_ [h' Hrep]].
  destruct h' as [h'|].
  - assert (h' = h) as ->.
    { destruct Hrep as (_ & _ & _ & Hin' & Hmax' & _).
      specialize (Hmax _ Hin'). specialize (Hmax' _ Hin). lia. }
    by apply to_ack_covers.
  - destruct Hrep as (_ & _ & _ & Hnil). by rewrite Hnil in Hin.
Qed.

Lemma ack_truthful_witness :
  Ack.covers (to_ack (accept_all new (map id_of [4294967294; 4294967297])).1) (id_of 4294967294)
    = true <->
  In 4294967294 (spec_all [] [4294967294; 4294967297]).2 /\
  4294967297 - 4294967294 <= ACK_WINDOW.
Proof.
  apply (ack_truthful _ _ 4294967297).
  - cbn. unfold near. lia.
  - vm_compute. auto.
  - assert ((spec_all [] [4294967294; 4294967297]).2 = [4294967297; 4294967294]) as ->
      by (vm_compute; reflexivity).
    intros a [<-|[<-|[]]]; lia.
  - unfold near. lia.
Defined.
