(* ===== verification/RetransmitQueue.v ===== *)
(** * The sender's retransmission queue
      (crates/fectp-core/src/reliability.rs, [Rto], [RetransmitQueue])

    [Module Rto] is the timeout estimator, [Module RetransmitQueue] the fixed
    array of in-flight entries with its congestion window. A [&mut self]
    method becomes a function from the old state to the new one; a loop over
    the slots becomes a recursive function on the slot list. The theorems give
    the bounds of the estimator, an invariant of every reachable queue, and
    what registration, acknowledgement and polling do on every branch. *)
From stdpp Require Import relations.
From S2P Require Import Prelude Bytes Error Reliability.

Definition INITIAL_RTO_MS : Z := 200.
Definition MIN_RTO_MS : Z := 20.
Definition MAX_RTO_MS : Z := 5000.
Definition CWND_SCALE : Z := 256.
Definition INITIAL_CWND : Z := 4.
Definition MIN_CWND : Z := 2.
#[export] Hint Unfold INITIAL_RTO_MS MIN_RTO_MS MAX_RTO_MS CWND_SCALE INITIAL_CWND MIN_CWND
  : consts.

Record Rto := mkRto {
  smoothed_ms : option Z;
  variation_ms : Z;
}.

Module Rto.
Definition new : Rto := {| smoothed_ms := None; variation_ms := 0 |}.

Definition current (r : Rto) : Z :=
  match smoothed_ms r with
  | None => INITIAL_RTO_MS
  | Some srtt =>
      clamp MIN_RTO_MS MAX_RTO_MS
        (saturating_add U32_MAX srtt (saturating_mul U32_MAX (variation_ms r) 4))
  end.

(** The 64-bit averages are narrowed back with [as u32]. *)
Definition sample (r : Rto) (rtt_ms : Z) : Rto :=
  match smoothed_ms r with
  | None => {| smoothed_ms := Some rtt_ms; variation_ms := rtt_ms / 2 |}
  | Some srtt =>
      let delta := Z.abs (srtt - rtt_ms) in
      let variation := (variation_ms r * 3 + delta) / 4 in
      let smoothed := (srtt * 7 + rtt_ms) / 8 in
      {| smoothed_ms := Some (wrap32 smoothed); variation_ms := wrap32 variation |}
  end.

Definition with_backoff (r : Rto) (retries : Z) : Z :=
  let shift := Z.min retries 5 in
  Z.min (saturating_mul U32_MAX (current r) (Z.shiftl 1 shift)) MAX_RTO_MS.

Definition wf (r : Rto) : Prop :=
  match smoothed_ms r with Some s => is_u32 s | None => True end /\ is_u32 (variation_ms r).
End Rto.

Record InFlight := mkInFlight {
  if_id : Z;
  if_deadline_ms : Z;
  if_sent_at_ms : Z;
  if_retries : Z;
}.

Inductive Due :=
| Retransmit (id : Z)
| GaveUp (id : Z).

Record RetransmitQueue := mkRetransmitQueue {
  slots : list (option InFlight);
  rto : Rto;
  max_retries : Z;
  next_id : Z;
  cwnd : Z;
  ssthresh : Z;
}.

Module RetransmitQueue.
Definition new : RetransmitQueue := {|
  slots := repeat None (Z.to_nat MAX_IN_FLIGHT);
  rto := Rto.new;
  max_retries := MAX_RETRIES;
  next_id := 0;
  cwnd := INITIAL_CWND * CWND_SCALE;
  ssthresh := MAX_IN_FLIGHT * CWND_SCALE;
|}.

Definition set_max_retries (q : RetransmitQueue) (attempts : Z) : RetransmitQueue := {|
  slots := slots q; rto := rto q; max_retries := Z.max attempts 1;
  next_id := next_id q; cwnd := cwnd q; ssthresh := ssthresh q;
|}.

Definition forget_path (q : RetransmitQueue) : RetransmitQueue := {|
  slots := slots q; rto := Rto.new; max_retries := max_retries q;
  next_id := next_id q;
  cwnd := INITIAL_CWND * CWND_SCALE;
  ssthresh := MAX_IN_FLIGHT * CWND_SCALE;
|}.

Definition window (q : RetransmitQueue) : Z :=
  clamp 1 MAX_IN_FLIGHT (cwnd q / CWND_SCALE).

Definition on_delivery (q : RetransmitQueue) : RetransmitQueue :=
  let ceiling := MAX_IN_FLIGHT * CWND_SCALE in
  let grown :=
    if cwnd q <? ssthresh q then saturating_add U32_MAX (cwnd q) CWND_SCALE
    else
      let step := Z.max (CWND_SCALE * CWND_SCALE / Z.max (cwnd q) 1) 1 in
      saturating_add U32_MAX (cwnd q) step in
  {| slots := slots q; rto := rto q; max_retries := max_retries q; next_id := next_id q;
     cwnd := Z.min grown ceiling; ssthresh := ssthresh q |}.

Definition on_loss (q : RetransmitQueue) : RetransmitQueue :=
  let floor := MIN_CWND * CWND_SCALE in
  {| slots := slots q; rto := rto q; max_retries := max_retries q; next_id := next_id q;
     cwnd := floor; ssthresh := Z.max (cwnd q / 2) floor |}.

Definition entries (q : RetransmitQueue) : list InFlight := omap id (slots q).

Definition in_flight (q : RetransmitQueue) : Z :=
  Z.of_nat (length (List.filter (fun s => match s with Some _ => true | None => false end)
                                (slots q))).

Definition is_full (q : RetransmitQueue) : bool := MAX_IN_FLIGHT <=? in_flight q.

(** [Iterator::max_by_key]: the last element of those with the largest key. *)
Fixpoint max_by_key {A} (key : A -> Z) (l : list A) : option A :=
  match l with
  | [] => None
  | x :: l =>
      match max_by_key key l with
      | Some y => if key x <=? key y then Some y else Some x
      | None => Some x
      end
  end.

Definition oldest_unacked (q : RetransmitQueue) : option Z :=
  max_by_key (fun i => wrapping_sub32 (next_id q) i) (map if_id (entries q)).

(** [*slots.iter_mut().find(|s| s.is_none())? = Some(e)]. *)
Fixpoint fill_first_free (e : InFlight) (l : list (option InFlight))
  : option (list (option InFlight)) :=
  match l with
  | [] => None
  | None :: l => Some (Some e :: l)
  | Some x :: l =>
      match fill_first_free e l with Some l => Some (Some x :: l) | None => None end
  end.

Definition register (q : RetransmitQueue) (now_ms : Z) : RetransmitQueue * Result Z :=
  let too_old :=
    match oldest_unacked q with
    | Some oldest => ACK_WINDOW <=? wrapping_sub32 (next_id q) oldest
    | None => false
    end in
  if too_old then (q, Err WindowFull) else
  if window q <=? in_flight q then (q, Err WindowFull) else
  let i := next_id q in
  let entry := {|
    if_id := i;
    if_deadline_ms := saturating_add U64_MAX now_ms (Rto.current (rto q));
    if_sent_at_ms := now_ms;
    if_retries := 0;
  |} in
  match fill_first_free entry (slots q) with
  | None => (q, Err WindowFull)
  | Some l =>
      ({| slots := l; rto := rto q; max_retries := max_retries q;
          next_id := wrapping_add32 (next_id q) 1;
          cwnd := cwnd q; ssthresh := ssthresh q |}, Ok i)
  end.

(** The loop of [on_ack] over the slots: the slots left, the estimator, the
    two counters and the caller's buffer. *)
Record AckLoop := mkAckLoop {
  al_rto : Rto;
  al_count : Z;
  al_delivered : Z;
  al_acked : list Z;
}.

Definition ack_entry (now_ms : Z) (e : InFlight) (s : AckLoop) : AckLoop := {|
  al_rto :=
    if if_retries e =? 0 then
      Rto.sample (al_rto s) (Z.min (saturating_sub now_ms (if_sent_at_ms e)) U32_MAX)
    else al_rto s;
  al_count := al_count s + 1;
  al_delivered := al_delivered s + 1;
  al_acked :=
    if al_count s <? Z.of_nat (length (al_acked s))
    then <[Z.to_nat (al_count s) := if_id e]> (al_acked s) else al_acked s;
|}.

Fixpoint ack_slots (ack : Ack) (now_ms : Z) (l : list (option InFlight)) (s : AckLoop)
  : list (option InFlight) * AckLoop :=
  match l with
  | [] => ([], s)
  | None :: l => let '(l, s) := ack_slots ack now_ms l s in (None :: l, s)
  | Some e :: l =>
      if negb (Ack.covers ack (if_id e)) then
        let '(l, s) := ack_slots ack now_ms l s in (Some e :: l, s)
      else
        let '(l, s) := ack_slots ack now_ms l (ack_entry now_ms e s) in (None :: l, s)
  end.

Definition on_ack (q : RetransmitQueue) (ack : Ack) (now_ms : Z) (acked : list Z)
  : RetransmitQueue * list Z * Z :=
  let '(l, s) := ack_slots ack now_ms (slots q)
                   {| al_rto := rto q; al_count := 0; al_delivered := 0; al_acked := acked |} in
  let q := {| slots := l; rto := al_rto s; max_retries := max_retries q;
              next_id := next_id q; cwnd := cwnd q; ssthresh := ssthresh q |} in
  let q := Nat.iter (Z.to_nat (al_delivered s)) on_delivery q in
  (q, al_acked s, Z.min (al_count s) (Z.of_nat (length (al_acked s)))).

(** The loop of [poll] over the slots; [break] leaves the rest untouched. *)
Record PollLoop := mkPollLoop {
  pl_count : Z;
  pl_lost : bool;
  pl_out : list Due;
}.

Definition retry_entry (r : Rto) (now_ms : Z) (e : InFlight) : InFlight :=
  let retries := if_retries e + 1 in
  {| if_id := if_id e;
     if_deadline_ms := saturating_add U64_MAX now_ms (Rto.with_backoff r retries);
     if_sent_at_ms := now_ms;
     if_retries := retries |}.

Fixpoint poll_slots (r : Rto) (max now_ms : Z) (l : list (option InFlight)) (s : PollLoop)
  : list (option InFlight) * PollLoop :=
  match l with
  | [] => ([], s)
  | None :: l => let '(l, s) := poll_slots r max now_ms l s in (None :: l, s)
  | Some e :: l =>
      if now_ms <? if_deadline_ms e then
        let '(l, s) := poll_slots r max now_ms l s in (Some e :: l, s)
      else if Z.of_nat (length (pl_out s)) <=? pl_count s then (Some e :: l, s)
      else if max <=? if_retries e then
        let '(l, s) := poll_slots r max now_ms l {|
          pl_count := pl_count s + 1; pl_lost := pl_lost s;
          pl_out := <[Z.to_nat (pl_count s) := GaveUp (if_id e)]> (pl_out s) |} in
        (None :: l, s)
      else
        let '(l, s) := poll_slots r max now_ms l {|
          pl_count := pl_count s + 1; pl_lost := true;
          pl_out := <[Z.to_nat (pl_count s) := Retransmit (if_id e)]> (pl_out s) |} in
        (Some (retry_entry r now_ms e) :: l, s)
  end.

Definition poll (q : RetransmitQueue) (now_ms : Z) (out : list Due)
  : RetransmitQueue * list Due * Z :=
  let '(l, s) := poll_slots (rto q) (max_retries q) now_ms (slots q)
                   {| pl_count := 0; pl_lost := false; pl_out := out |} in
  let q := {| slots := l; rto := rto q; max_retries := max_retries q;
              next_id := next_id q; cwnd := cwnd q; ssthresh := ssthresh q |} in
  let q := if pl_lost s then on_loss q else q in
  (q, pl_out s, pl_count s).

(** [Iterator::min] on the deadlines. *)
Definition min_of (l : list Z) : option Z :=
  match l with [] => None | x :: l => Some (fold_left Z.min l x) end.

Definition next_deadline_ms (q : RetransmitQueue) : option Z :=
  min_of (map if_deadline_ms (entries q)).

(** ** Invariant *)
Definition entry_wf (e : InFlight) : Prop :=
  is_u32 (if_id e) /\ is_u64 (if_deadline_ms e) /\ is_u64 (if_sent_at_ms e) /\
  is_u8 (if_retries e).

(** An outstanding identifier an acknowledgement can still name. *)
Definition nameable (next i : Z) : Prop := 1 <= wrapping_sub32 next i <= ACK_WINDOW.

Record wf (q : RetransmitQueue) : Prop := {
  wf_slots : Z.of_nat (length (slots q)) = MAX_IN_FLIGHT;
  wf_entries : Forall entry_wf (entries q);
  wf_distinct : NoDup (map if_id (entries q));
  wf_nameable : Forall (fun e => nameable (next_id q) (if_id e)) (entries q);
  wf_rto : Rto.wf (rto q);
  wf_max : 1 <= max_retries q < 256;
  wf_next : is_u32 (next_id q);
  wf_cwnd : MIN_CWND * CWND_SCALE <= cwnd q <= MAX_IN_FLIGHT * CWND_SCALE;
  wf_ssthresh : MIN_CWND * CWND_SCALE <= ssthresh q <= MAX_IN_FLIGHT * CWND_SCALE;
}.

(** Every public operation, as one step of the queue. *)
Inductive step : RetransmitQueue -> RetransmitQueue -> Prop :=
| step_set_max q attempts : is_u8 attempts -> step q (set_max_retries q attempts)
| step_forget q : step q (forget_path q)
| step_register q now : is_u64 now -> step q (register q now).1
| step_ack q ack now acked : is_u64 now -> step q (on_ack q ack now acked).1.1
| step_poll q now out : is_u64 now -> step q (poll q now out).1.1.

Definition reachable : RetransmitQueue -> Prop := rtc step new.

(** ** The estimator *)
Lemma sample_wf r t : Rto.wf r -> is_u32 t -> Rto.wf (Rto.sample r t).
Proof.
  intros [H1 H2] Ht. unfold Rto.sample, Rto.wf. destruct (smoothed_ms r) as [s|]; cbn.
  - split; apply wrap32_range.
  - split; [done|]. split; [apply Z.div_pos; lia|]. apply Z.div_lt_upper_bound; lia.
Qed.

Lemma current_range r : MIN_RTO_MS <= Rto.current r <= MAX_RTO_MS.
Proof. unfold Rto.current, clamp. destruct (smoothed_ms r); clia. Qed.

Lemma backoff_range r k :
  0 <= k -> MIN_RTO_MS <= Rto.with_backoff r k <= MAX_RTO_MS.
Proof.
  intros Hk. unfold Rto.with_backoff, saturating_mul. pose proof (current_range r).
  rewrite Z.shiftl_mul_pow2 by lia.
  assert (1 <= 2 ^ Z.min k 5) by (pose proof (Z.pow_pos_nonneg 2 (Z.min k 5)); lia).
  autounfold with consts in *. nia.
Qed.

Lemma backoff_zero r : Rto.with_backoff r 0 = Rto.current r.
Proof.
  unfold Rto.with_backoff, saturating_mul. pose proof (current_range r).
  change (Z.shiftl 1 (Z.min 0 5)) with 1. clia.
Qed.

Lemma backoff_mono r j k :
  0 <= j <= k -> Rto.with_backoff r j <= Rto.with_backoff r k.
Proof.
  intros Hk. unfold Rto.with_backoff, saturating_mul. pose proof (current_range r).
  rewrite !Z.shiftl_mul_pow2 by lia.
  assert (2 ^ Z.min j 5 <= 2 ^ Z.min k 5) by (apply Z.pow_le_mono_r; lia).
  assert (Rto.current r * 2 ^ Z.min j 5 <= Rto.current r * 2 ^ Z.min k 5)
    by (apply Z.mul_le_mono_nonneg_l; autounfold with consts in *; lia).
  lia.
Qed.

(** ** Slots and entries *)
Lemma entries_cons_none l : omap id (@None InFlight :: l) = omap id l.
Proof. done. Qed.

Lemma entries_cons_some (e : InFlight) l : omap id (Some e :: l) = e :: omap id l.
Proof. done. Qed.

Lemma in_flight_entries q : in_flight q = Z.of_nat (length (entries q)).
Proof.
  unfold in_flight, entries. f_equal.
  induction (slots q) as [|[e|] l IH]; cbn in *; lia.
Qed.

Lemma entries_le_slots (l : list (option InFlight)) : (length (omap id l) <= length l)%nat.
Proof. induction l as [|[e|] l IH]; cbn in *; lia. Qed.

Lemma fill_some e (l : list (option InFlight)) :
  (length (omap id l) < length l)%nat ->
  exists l', fill_first_free e l = Some l' /\ length l' = length l /\
  Permutation (omap id l') (e :: omap id l).
Proof.
  induction l as [|[x|] l IH]; cbn; intros H; [lia| |].
  - destruct IH as (l' & -> & Hl & Hp); [cbn in *; lia|].
    eexists. split; [done|]. cbn. split; [by rewrite Hl|].
    rewrite Hp. apply Permutation_swap.
  - eexists. split; [done|]. done.
Qed.

(** ** Acknowledgement *)
Definition keeps (ack : Ack) (s : option InFlight) : option InFlight :=
  match s with
  | Some e => if Ack.covers ack (if_id e) then None else Some e
  | None => None
  end.

Definition covered (ack : Ack) (l : list (option InFlight)) : list Z :=
  List.filter (Ack.covers ack) (map if_id (omap id l)).

(** Writing [ids] from position [n] of a buffer, as far as it reaches. *)
Definition written {A} (n : nat) (ids buf : list A) : list A :=
  take n buf ++ take (length buf - n) ids ++ drop (n + length ids) buf.

Lemma written_nil {A} n (buf : list A) : written n [] buf = buf.
Proof. unfold written. rewrite take_nil, Nat.add_0_r. apply take_drop. Qed.

Lemma written_cons {A} n (i : A) ids buf :
  written (S n) ids (if (Z.of_nat n <? Z.of_nat (length buf)) then <[n := i]> buf else buf)
  = written n (i :: ids) buf.
Proof.
  unfold written. zcase.
  - rewrite length_insert.
    replace (length buf - n)%nat with (S (length buf - S n)) by lia. cbn [take length].
    rewrite (take_S_r _ _ i) by (apply list_lookup_insert_eq; lia).
    rewrite take_insert_ge, drop_insert_lt by lia.
    rewrite <- app_assoc. cbn. repeat f_equal. lia.
  - replace (length buf - n)%nat with 0%nat by lia.
    replace (length buf - S n)%nat with 0%nat by lia.
    by rewrite !(take_ge buf), !drop_ge by (cbn; lia).
Qed.

Lemma ack_slots_spec ack now l s :
  0 <= al_count s ->
  let '(l', s') := ack_slots ack now l s in
  l' = map (keeps ack) l /\
  al_count s' = al_count s + Z.of_nat (length (covered ack l)) /\
  al_delivered s' = al_delivered s + Z.of_nat (length (covered ack l)) /\
  al_acked s' = written (Z.to_nat (al_count s)) (covered ack l) (al_acked s).
Proof.
  revert s. induction l as [|[e|] l IH]; intros s Hc; cbn [ack_slots map].
  - unfold covered. cbn. rewrite written_nil. repeat split; lia.
  - unfold covered. rewrite entries_cons_some. cbn [map List.filter keeps].
    destruct (Ack.covers ack (if_id e)) eqn:Hcov; cbn [negb].
    + specialize (IH (ack_entry now e s)). destruct ack_slots as [l' s'].
      destruct IH as (-> & -> & -> & ->); [cbn; lia|].
      cbn [al_count al_delivered al_acked ack_entry length].
      split; [done|]. split; [unfold covered; lia|]. split; [unfold covered; lia|].
      replace (Z.to_nat (al_count s + 1)) with (S (Z.to_nat (al_count s))) by lia.
      rewrite <- written_cons. by rewrite Z2Nat.id by lia.
    + specialize (IH s Hc). destruct ack_slots as [l' s'].
      destruct IH as (-> & -> & -> & ->). done.
  - specialize (IH s Hc). destruct ack_slots as [l' s'].
    destruct IH as (-> & -> & -> & ->). done.
Qed.

Lemma ack_slots_rto ack now l s :
  Rto.wf (al_rto s) -> is_u64 now -> Rto.wf (al_rto (ack_slots ack now l s).2).
Proof.
  intros Hr Hn. revert s Hr. induction l as [|[e|] l IH]; intros s Hr; cbn; [done| |].
  - destruct (negb _).
    + specialize (IH s Hr). by destruct ack_slots.
    + specialize (IH (ack_entry now e s)). destruct ack_slots. apply IH.
      cbn. destruct (_ =? 0); [|done]. apply sample_wf; [done|].
      unfold saturating_sub. clia.
  - specialize (IH s Hr). by destruct ack_slots.
Qed.

Lemma omap_keeps ack l :
  omap id (map (keeps ack) l) =
  List.filter (fun e => negb (Ack.covers ack (if_id e))) (omap id l).
Proof.
  induction l as [|[e|] l IH]; [done| |done].
  rewrite entries_cons_some. cbn [map keeps List.filter].
  destruct (Ack.covers ack (if_id e)); cbn [negb]; cbn; by f_equal.
Qed.

(** ** Polling *)

(** What polling does to a slot it reaches, and what it reports. *)
Definition poll_slot (r : Rto) (max now : Z) (s : option InFlight) : option InFlight :=
  match s with
  | Some e =>
      if now <? if_deadline_ms e then Some e
      else if max <=? if_retries e then None else Some (retry_entry r now e)
  | None => None
  end.

Definition report (max now : Z) (s : option InFlight) : option Due :=
  match s with
  | Some e =>
      if now <? if_deadline_ms e then None
      else Some (if max <=? if_retries e then GaveUp (if_id e) else Retransmit (if_id e))
  | None => None
  end.

Definition reports (q : RetransmitQueue) (now : Z) : list Due :=
  omap (report (max_retries q) now) (slots q).

Definition is_retransmit (d : Due) : bool :=
  match d with Retransmit _ => true | GaveUp _ => false end.

(** Each slot is either passed over or treated by [poll_slot]. *)
Lemma poll_slots_each r max now l s :
  Forall2 (fun a b => b = a \/ b = poll_slot r max now a) l (poll_slots r max now l s).1.
Proof.
  revert s. induction l as [|[e|] l IH]; intros s; cbn; [constructor| |].
  - repeat zcase.
    + specialize (IH s). destruct poll_slots. cbn in *. auto using Forall2_cons.
    + cbn. constructor; [auto|]. clear. induction l; auto using Forall2_cons.
    + match goal with |- context [poll_slots _ _ _ _ ?s] => specialize (IH s) end.
      destruct poll_slots. cbn in *. constructor; [|done]. cbn.
      right. repeat zcase; lia || done.
    + match goal with |- context [poll_slots _ _ _ _ ?s] => specialize (IH s) end.
      destruct poll_slots. cbn in *. constructor; [|done]. cbn.
      right. repeat zcase; lia || done.
  - specialize (IH s). destruct poll_slots. cbn in *. auto using Forall2_cons.
Qed.

(** With room for every report, all slots are treated and all reports are
    written in slot order. *)
Lemma poll_slots_room r max now l s :
  0 <= pl_count s ->
  pl_count s + Z.of_nat (length (omap (report max now) l)) <= Z.of_nat (length (pl_out s)) ->
  poll_slots r max now l s =
  (map (poll_slot r max now) l,
   {| pl_count := pl_count s + Z.of_nat (length (omap (report max now) l));
      pl_lost := pl_lost s || existsb is_retransmit (omap (report max now) l);
      pl_out := written (Z.to_nat (pl_count s)) (omap (report max now) l) (pl_out s) |}).
Proof.
  assert (forall d ds n (buf : list Due), 0 <= n < Z.of_nat (length buf) ->
    written (Z.to_nat (n + 1)) ds (<[Z.to_nat n := d]> buf) = written (Z.to_nat n) (d :: ds) buf)
    as Hw.
  { intros d ds n buf Hn. rewrite <- written_cons. rewrite Z2Nat.id by lia.
    zcase; [|lia]. f_equal; lia. }
  revert s. induction l as [|[e|] l IH]; intros s Hc Hroom.
  - cbn. rewrite written_nil, orb_false_r, Z.add_0_r. by destruct s.
  - cbn [poll_slots map poll_slot]. cbn in Hroom |- *. repeat zcase; cbn in Hroom |- *.
    all: try lia.
    + by rewrite IH by done.
    + rewrite IH; cbn; [|lia| rewrite length_insert; lia].
      rewrite Hw by lia. f_equal. f_equal. lia.
    + rewrite IH; cbn; [|lia| rewrite length_insert; lia].
      rewrite Hw by lia. rewrite orb_true_r. f_equal. f_equal. lia.
  - cbn [poll_slots map poll_slot]. cbn in Hroom |- *. by rewrite IH by done.
Qed.

Lemma retry_entry_wf r now e max :
  entry_wf e -> is_u64 now -> if_retries e < max -> max < 256 -> entry_wf (retry_entry r now e).
Proof.
  intros (Hi & Hd & Hs & Hr) Hn Hm Hx. unfold entry_wf, retry_entry, saturating_add. cbn.
  pose proof (backoff_range r (if_retries e + 1) ltac:(lia)). clia.
Qed.

Lemma polled_sublist r max now l l' :
  Forall2 (fun a b => b = a \/ b = poll_slot r max now a) l l' ->
  map if_id (omap id l') `sublist_of` map if_id (omap id l).
Proof.
  induction 1 as [|a b l l' Hab _ IH]; [done|].
  destruct Hab as [->| ->].
  - destruct a; cbn in *; [by constructor|done].
  - destruct a as [e|]; cbn in *; [|done].
    repeat zcase; cbn in *; by constructor.
Qed.

Lemma polled_wf r max now l l' :
  is_u64 now -> max < 256 ->
  Forall2 (fun a b => b = a \/ b = poll_slot r max now a) l l' ->
  Forall entry_wf (omap id l) -> Forall entry_wf (omap id l').
Proof.
  intros Hn Hm. induction 1 as [|a b l l' Hab _ IH]; [done|].
  destruct a as [e|].
  - rewrite entries_cons_some. intros H. apply Forall_cons_1 in H as [He Hl].
    destruct Hab as [->| ->]; [constructor; auto|].
    cbn [poll_slot]. repeat zcase.
    + rewrite entries_cons_some. constructor; auto.
    + rewrite entries_cons_none. auto.
    + rewrite entries_cons_some. constructor; [|auto]. eapply retry_entry_wf; eauto.
  - destruct Hab as [->| ->]; auto.
Qed.

(** ** The invariant is inductive *)
Lemma wrapping_sub_succ n i d :
  wrapping_sub32 n i = d -> 0 <= d < 4294967295 ->
  wrapping_sub32 (wrapping_add32 n 1) i = d + 1.
Proof.
  unfold wrapping_sub32, wrapping_add32, wrap32. intros <- Hd.
  rewrite Zminus_mod_idemp_l.
  rewrite <- (Z.mod_small ((n - i) mod 4294967296 + 1) 4294967296) by lia.
  rewrite Zplus_mod_idemp_l. f_equal. lia.
Qed.

Lemma wrapping_sub_self n : wrapping_sub32 n n = 0.
Proof. unfold wrapping_sub32. by rewrite Z.sub_diag. Qed.

Lemma max_by_key_spec {A} (key : A -> Z) l :
  match max_by_key key l with
  | Some m => m ∈ l /\ Forall (fun x => key x <= key m) l
  | None => l = []
  end.
Proof.
  induction l as [|x l IH]; [done|]. cbn.
  destruct (max_by_key key l) as [m|]; [|subst; split; [set_solver|repeat constructor; lia]].
  destruct IH as [Hin Hall]. zcase.
  - split; [set_solver|]. by constructor.
  - split; [set_solver|]. constructor; [lia|].
    eapply Forall_impl; [|exact Hall]. cbn. lia.
Qed.

(** All outstanding identifiers are fewer than [ACK_WINDOW] behind. *)
Definition span_ok (q : RetransmitQueue) : bool :=
  forallb (fun e => wrapping_sub32 (next_id q) (if_id e) <? ACK_WINDOW) (entries q).

Lemma oldest_span q :
  match oldest_unacked q with
  | Some oldest => ACK_WINDOW <=? wrapping_sub32 (next_id q) oldest
  | None => false
  end = negb (span_ok q).
Proof.
  unfold oldest_unacked, span_ok.
  pose proof (max_by_key_spec (fun i => wrapping_sub32 (next_id q) i) (map if_id (entries q))) as H.
  destruct max_by_key as [m|].
  - destruct H as [Hin Hall]. destruct (Z.leb_spec ACK_WINDOW (wrapping_sub32 (next_id q) m)).
    + symmetry. apply negb_true_iff, not_true_iff_false. rewrite forallb_forall. intros Hf.
      apply list_elem_of_In, in_map_iff in Hin as (e & <- & He).
      specialize (Hf e He). zbool. lia.
    + symmetry. apply negb_false_iff, forallb_forall. intros e He.
      apply Z.ltb_lt. rewrite Forall_forall in Hall.
      specialize (Hall (if_id e) (in_map if_id _ _ He)). cbn in Hall. lia.
  - destruct (entries q); done.
Qed.

Lemma span_ok_spec q :
  span_ok q = true <->
  Forall (fun e => wrapping_sub32 (next_id q) (if_id e) < ACK_WINDOW) (entries q).
Proof.
  unfold span_ok. rewrite forallb_forall, Forall_forall. by setoid_rewrite Z.ltb_lt.
Qed.

Lemma window_range q : wf q -> MIN_CWND <= window q <= MAX_IN_FLIGHT.
Proof.
  intros Hq. unfold window, clamp. pose proof (wf_cwnd q Hq).
  autounfold with consts in *.
  assert (2 <= cwnd q / 256 <= 32).
  { split; [apply Z.div_le_lower_bound; lia | apply Z.div_le_upper_bound; lia]. }
  lia.
Qed.

Lemma new_wf : wf new.
Proof.
  split; try (cbn; clia); cbn; constructor; done.
Qed.

Definition new_entry (q : RetransmitQueue) (now : Z) : InFlight := {|
  if_id := next_id q;
  if_deadline_ms := saturating_add U64_MAX now (Rto.current (rto q));
  if_sent_at_ms := now;
  if_retries := 0 |}.

(** Registration on both branches: it succeeds exactly when every outstanding
    message can still be named and the window has room. *)
Lemma register_spec q now :
  wf q ->
  if span_ok q && (in_flight q <? window q) then
    exists l, fill_first_free (new_entry q now) (slots q) = Some l /\
      Permutation (omap id l) (new_entry q now :: entries q) /\
      length l = length (slots q) /\
      register q now =
        ({| slots := l; rto := rto q; max_retries := max_retries q;
            next_id := wrapping_add32 (next_id q) 1; cwnd := cwnd q; ssthresh := ssthresh q |},
         Ok (next_id q))
  else register q now = (q, Err WindowFull).
Proof.
  intros Hq. unfold register. rewrite oldest_span.
  destruct (span_ok q); cbn [negb andb]; [|done].
  destruct (Z.ltb_spec (in_flight q) (window q)), (Z.leb_spec (window q) (in_flight q)); try lia.
  2: done.
  pose proof (window_range q Hq) as Hw. rewrite in_flight_entries in *.
  pose proof (wf_slots q Hq).
  destruct (fill_some (new_entry q now) (slots q)) as (l & Hl & Hlen & Hp);
    [unfold entries in *; lia|].
  exists l. repeat split; [done..|]. unfold new_entry in Hl |- *. by rewrite Hl.
Qed.

Lemma register_wf q now : wf q -> is_u64 now -> wf (register q now).1.
Proof.
  intros Hq Hn. pose proof (register_spec q now Hq) as H.
  destruct (span_ok q) eqn:Hs; cbn [andb] in H; [|by rewrite H].
  destruct (_ <? _); [|by rewrite H].
  destruct H as (l & _ & Hp & Hlen & ->). cbn. apply span_ok_spec in Hs.
  destruct Hq. split; cbn; unfold entries; cbn; rewrite ?Hp, ?Hlen; try done.
  - constructor; [|done]. unfold entry_wf, new_entry, saturating_add. cbn.
    pose proof (current_range (rto q)). clia.
  - constructor; [|done]. intros Hin.
    apply list_elem_of_In, in_map_iff in Hin as (e & Hid & He).
    rewrite Forall_forall in wf_nameable0.
    specialize (wf_nameable0 e He). unfold nameable in wf_nameable0.
    rewrite Hid, wrapping_sub_self in wf_nameable0. lia.
  - constructor.
    + unfold nameable, new_entry. cbn.
      rewrite (wrapping_sub_succ _ _ 0) by (rewrite ?wrapping_sub_self; lia). clia.
    + rewrite Forall_forall in *. intros e He. specialize (wf_nameable0 e He).
      specialize (Hs e He). unfold nameable in *. cbn in Hs.
      rewrite (wrapping_sub_succ _ _ (wrapping_sub32 (next_id q) (if_id e))) by clia. clia.
  - apply wrap32_range.
Qed.

Lemma on_delivery_wf q : wf q -> wf (on_delivery q).
Proof.
  intros []. split; try done. cbn. unfold saturating_add. autounfold with consts in *.
  zcase; [lia|]. set (step := Z.max _ 1). assert (1 <= step) by lia. lia.
Qed.

Lemma iter_delivery_wf n q : wf q -> wf (Nat.iter n on_delivery q).
Proof. intros Hq. induction n; [done|]. by apply on_delivery_wf. Qed.

Lemma iter_delivery_same n q :
  slots (Nat.iter n on_delivery q) = slots q /\
  next_id (Nat.iter n on_delivery q) = next_id q /\
  max_retries (Nat.iter n on_delivery q) = max_retries q /\
  cwnd q <= cwnd (Nat.iter n on_delivery q) \/ MAX_IN_FLIGHT * CWND_SCALE < cwnd q.
Proof.
  destruct (Z.ltb_spec (MAX_IN_FLIGHT * CWND_SCALE) (cwnd q)); [by right|left].
  induction n as [|n IH]; [done|]. destruct IH as (H1 & H2 & H3 & H4).
  change (Nat.iter (S n) on_delivery q) with (on_delivery (Nat.iter n on_delivery q)).
  set (p := Nat.iter n on_delivery q) in *. repeat split; [done..|].
  unfold on_delivery. cbn. unfold saturating_add. autounfold with consts in *.
  zcase; [lia|]. set (step := Z.max _ 1). assert (1 <= step) by lia. lia.
Qed.

Lemma on_loss_wf q : wf q -> wf (on_loss q).
Proof.
  intros []. split; try done. cbn. autounfold with consts in *.
  assert (cwnd q / 2 <= 4096) by (apply Z.div_le_upper_bound; lia). lia.
Qed.

(** A queue whose slots shrank is still well formed. *)
Lemma with_slots_wf q l r :
  wf q -> length l = length (slots q) -> Rto.wf r ->
  map if_id (omap id l) `sublist_of` map if_id (entries q) ->
  Forall entry_wf (omap id l) ->
  wf {| slots := l; rto := r; max_retries := max_retries q; next_id := next_id q;
        cwnd := cwnd q; ssthresh := ssthresh q |}.
Proof.
  intros [] Hl Hr Hs He. split; cbn; try done.
  - by rewrite Hl.
  - by eapply sublist_NoDup.
  - unfold entries. cbn. apply Forall_forall. intros e Hin.
    rewrite Forall_forall in wf_nameable0.
    assert (if_id e ∈ map if_id (entries q)) as Hin'.
    { eapply elem_of_sublist; [|done]. apply list_elem_of_In. by apply in_map. }
    apply list_elem_of_In, in_map_iff in Hin' as (e' & <- & He'). by apply wf_nameable0.
Qed.

Lemma filter_sublist {A} (f : A -> bool) l : List.filter f l `sublist_of` l.
Proof. induction l as [|x l IH]; cbn; [done|]. destruct (f x); by constructor. Qed.

Lemma map_sublist {A B} (f : A -> B) l k : l `sublist_of` k -> map f l `sublist_of` map f k.
Proof. induction 1; cbn; by constructor. Qed.

Lemma on_ack_wf q ack now acked : wf q -> is_u64 now -> wf (on_ack q ack now acked).1.1.
Proof.
  intros Hq Hn. unfold on_ack.
  set (s0 := {| al_rto := rto q; al_count := 0; al_delivered := 0; al_acked := acked |}).
  pose proof (ack_slots_spec ack now (slots q) s0 ltac:(done)) as H.
  pose proof (ack_slots_rto ack now (slots q) s0 (wf_rto q Hq) Hn) as Hr.
  destruct ack_slots as [l s]. destruct H as (-> & _). cbn in Hr |- *.
  apply iter_delivery_wf, with_slots_wf; try done.
  - by rewrite length_map.
  - rewrite omap_keeps. apply map_sublist, filter_sublist.
  - rewrite omap_keeps. apply Forall_forall. intros e He. apply filter_In in He as [He _].
    pose proof (wf_entries q Hq) as Hall. rewrite Forall_forall in Hall. auto.
Qed.

Lemma poll_wf q now out : wf q -> is_u64 now -> wf (poll q now out).1.1.
Proof.
  intros Hq Hn. unfold poll.
  set (s0 := {| pl_count := 0; pl_lost := false; pl_out := out |}).
  pose proof (poll_slots_each (rto q) (max_retries q) now (slots q) s0) as H.
  destruct poll_slots as [l s]. cbn in H |- *.
  match goal with |- wf (if _ then _ ?q' else _) => assert (wf q') as Hq' end.
  { apply with_slots_wf; try done.
    - symmetry. by eapply Forall2_length.
    - by apply wf_rto.
    - by eapply polled_sublist.
    - destruct Hq. eapply polled_wf; eauto; lia. }
  destruct (pl_lost s); [by apply on_loss_wf|done].
Qed.

Lemma step_wf q q' : wf q -> step q q' -> wf q'.
Proof.
  intros Hq. destruct 1; auto using register_wf, on_ack_wf, poll_wf.
  - destruct Hq. split; try done. cbn. lia.
  - destruct Hq. split; try done; cbn; clia.
Qed.

Lemma reachable_wf q : reachable q -> wf q.
Proof.
  intros H. assert (forall p q, rtc step p q -> wf p -> wf q) as Hgen.
  { induction 1; eauto using step_wf. }
  eapply Hgen; [done|]. apply new_wf.
Qed.

(** What an acknowledgement does to the slots, the buffer and the window. *)
Lemma on_ack_spec q ack now acked :
  wf q ->
  let '(q', acked', n) := on_ack q ack now acked in
  slots q' = map (keeps ack) (slots q) /\
  acked' = written 0 (covered ack (slots q)) acked /\
  n = Z.min (Z.of_nat (length (covered ack (slots q)))) (Z.of_nat (length acked)) /\
  next_id q' = next_id q /\ max_retries q' = max_retries q /\ cwnd q <= cwnd q'.
Proof.
  intros Hq. unfold on_ack.
  pose proof (ack_slots_spec ack now (slots q)
    {| al_rto := rto q; al_count := 0; al_delivered := 0; al_acked := acked |} ltac:(done)) as H.
  destruct ack_slots as [l s]. cbn in H. destruct H as (-> & -> & -> & ->).
  match goal with |- context [Nat.iter ?n on_delivery ?q'] =>
    pose proof (iter_delivery_same n q') as Hi; set (p := Nat.iter n on_delivery q') in * end.
  cbn in Hi. destruct Hi as [(Hs & Hn & Hm & Hc)|Hc]; [|pose proof (wf_cwnd q Hq); lia].
  repeat split; try done.
  f_equal. unfold written. rewrite !length_app, !length_take, length_drop. lia.
Qed.

(** ** Abandonment

    Polling at a list of instants with a buffer of [MAX_IN_FLIGHT] reports, as
    the driver does, collecting the reports. *)
Definition due_buffer : list Due := repeat (Retransmit 0) (Z.to_nat MAX_IN_FLIGHT).

Fixpoint poll_all (q : RetransmitQueue) (times : list Z) : RetransmitQueue * list Due :=
  match times with
  | [] => (q, [])
  | t :: times =>
      let '(q, out, n) := poll q t due_buffer in
      let '(q, ds) := poll_all q times in (q, take (Z.to_nat n) out ++ ds)
  end.

Definition abandoned (ds : list Due) : list Z :=
  omap (fun d => match d with GaveUp i => Some i | Retransmit _ => None end) ds.

(** Consecutive instants at least [MAX_RTO_MS] apart. *)
Fixpoint spaced (t : Z) (times : list Z) : Prop :=
  match times with
  | [] => True
  | u :: times => t + MAX_RTO_MS <= u /\ is_u64 u /\ spaced u times
  end.

Lemma reports_le_slots max now l : (length (omap (report max now) l) <= length l)%nat.
Proof. induction l as [|s l IH]; cbn; [lia|]. destruct report; cbn in *; lia. Qed.

(** Polling with room: every due slot is treated and reported. *)
Lemma poll_spec q now out :
  wf q -> MAX_IN_FLIGHT <= Z.of_nat (length out) ->
  let '(q', out', n) := poll q now out in
  slots q' = map (poll_slot (rto q) (max_retries q) now) (slots q) /\
  n = Z.of_nat (length (reports q now)) /\
  out' = written 0 (reports q now) out /\
  take (Z.to_nat n) out' = reports q now /\
  max_retries q' = max_retries q /\ next_id q' = next_id q /\
  (cwnd q', ssthresh q') =
    if existsb is_retransmit (reports q now)
    then (MIN_CWND * CWND_SCALE, Z.max (cwnd q / 2) (MIN_CWND * CWND_SCALE))
    else (cwnd q, ssthresh q).
Proof.
  intros Hq Hout. unfold poll, reports. pose proof (wf_slots q Hq) as Hl.
  pose proof (reports_le_slots (max_retries q) now (slots q)) as Hle.
  rewrite poll_slots_room by (cbn; lia). cbn.
  set (ds := omap _ _) in *.
  assert (take (Z.to_nat (Z.of_nat (length ds))) (written 0 ds out) = ds) as Ht.
  { unfold written. cbn. rewrite Nat2Z.id, (take_ge ds) by lia. rewrite take_0. cbn [app]. apply take_app_length. }
  destruct existsb; done.
Qed.

Lemma poll_conserves r max now l :
  Permutation (abandoned (omap (report max now) l) ++
               map if_id (omap id (map (poll_slot r max now) l)))
              (map if_id (omap id l)).
Proof.
  induction l as [|[e|] l IH]; [done| |exact IH].
  rewrite entries_cons_some. cbn. repeat zcase; cbn.
  - rewrite <- IH. symmetry. apply Permutation_middle.
  - by constructor.
  - rewrite <- IH. symmetry. apply Permutation_middle.
Qed.

Lemma poll_all_conserves q times :
  wf q -> Forall (fun t => is_u64 t) times ->
  Permutation (abandoned (poll_all q times).2 ++ map if_id (entries (poll_all q times).1))
              (map if_id (entries q)).
Proof.
  intros Hq Ht. revert q Hq. induction Ht as [|t times Ht _ IH]; intros q Hq; [done|].
  cbn. pose proof (poll_spec q t due_buffer Hq ltac:(done)) as H.
  pose proof (poll_wf q t due_buffer Hq Ht) as Hq'.
  destruct (poll q t due_buffer) as [[q' out] n]. cbn in Hq'.
  destruct H as (Hs & _ & _ & Htk & _). specialize (IH q' Hq').
  destruct (poll_all q' times) as [q'' ds]. cbn in *. rewrite Htk.
  unfold abandoned in *. rewrite omap_app, <- app_assoc, IH.
  unfold entries. rewrite Hs. apply poll_conserves.
Qed.

(** One poll that finds everything due raises every retry count. *)
Lemma poll_advances r max now k l :
  0 <= k -> Forall (fun e => if_deadline_ms e <= now /\ k <= if_retries e) (omap id l) ->
  Forall (fun e => if_deadline_ms e <= now + MAX_RTO_MS /\ k + 1 <= if_retries e <= max)
         (omap id (map (poll_slot r max now) l)).
Proof.
  intros Hk. induction l as [|[e|] l IH]; [done| |exact IH].
  rewrite entries_cons_some. intros H. apply Forall_cons_1 in H as [[Hd Hr] Hl].
  cbn. repeat zcase; cbn; [lia|auto|]. constructor; [|auto]. cbn.
  pose proof (backoff_range r (if_retries e + 1) ltac:(lia)).
  unfold saturating_add. lia.
Qed.

Lemma poll_all_empties q t times k :
  wf q -> is_u64 t -> spaced t times -> 0 <= k ->
  Forall (fun e => if_deadline_ms e <= t + MAX_RTO_MS /\ k <= if_retries e <= max_retries q)
         (entries q) ->
  max_retries q < k + Z.of_nat (length times) ->
  entries (poll_all q times).1 = [].
Proof.
  revert q t k. induction times as [|u times IH]; intros q t k Hq Ht Hsp Hk Hall Hlen.
  - cbn in *. destruct (entries q) as [|e l]; [done|].
    apply Forall_cons_1 in Hall as [? _]. lia.
  - destruct Hsp as (Hgap & Hu & Hsp). cbn.
    pose proof (poll_spec q u due_buffer Hq ltac:(done)) as H.
    pose proof (poll_wf q u due_buffer Hq Hu) as Hq'.
    destruct (poll q u due_buffer) as [[q' out] n]. cbn in Hq'.
    destruct H as (Hs & _ & _ & _ & Hm & _).
    specialize (IH q' u (k + 1) Hq' Hu Hsp ltac:(lia)).
    destruct (poll_all q' times) as [q'' ds]. cbn in *. apply IH.
    + unfold entries. rewrite Hs, Hm. apply poll_advances; [done|].
      eapply Forall_impl; [|exact Hall]. cbn. intros; lia.
    + rewrite Hm. lia.
Qed.

Lemma min_of_spec l :
  match min_of l with
  | Some m => In m l /\ Forall (fun x => m <= x) l
  | None => l = []
  end.
Proof.
  destruct l as [|x l]; [done|]. cbn. revert x. induction l as [|y l IH]; intros x; cbn.
  - split; [by left|]. repeat constructor. lia.
  - destruct (IH (Z.min x y)) as [Hin Hall]. apply Forall_cons_1 in Hall as [Hm Hall].
    split.
    + destruct Hin as [<-|]; [|tauto]. destruct (Z.min_spec x y) as [[_ ->]|[_ ->]]; auto.
    + repeat constructor; [lia..|done].
Qed.

Lemma poll_slots_none_due r max now l s :
  Forall (fun e => now < if_deadline_ms e) (omap id l) -> poll_slots r max now l s = (l, s).
Proof.
  induction l as [|[e|] l IH]; [done| |].
  - rewrite entries_cons_some. intros H. apply Forall_cons_1 in H as [He Hl].
    cbn. zcase; [|lia]. by rewrite IH.
  - intros H. cbn. by rewrite IH.
Qed.

Lemma poll_slots_count r max now l s :
  0 <= pl_count s < Z.of_nat (length (pl_out s)) ->
  pl_count s <= pl_count (poll_slots r max now l s).2 /\
  (Exists (fun e => if_deadline_ms e <= now) (omap id l) ->
   pl_count s < pl_count (poll_slots r max now l s).2).
Proof.
  assert (forall l s, pl_count s <= pl_count (poll_slots r max now l s).2) as Hmono.
  { clear l s. induction l as [|[e|] l IH]; intros s; cbn; [lia| |].
    - repeat zcase; cbn; [| lia | |];
        match goal with |- context [poll_slots _ _ _ _ ?s'] => specialize (IH s') end;
        destruct poll_slots; cbn in *; lia.
    - specialize (IH s). by destruct poll_slots. }
  intros Hs. split; [apply Hmono|].
  induction l as [|[e|] l IH]; cbn [poll_slots].
  - intros H. inversion H.
  - rewrite entries_cons_some. intros H. repeat zcase; cbn.
    + apply Exists_cons in H as [?|H]; [lia|]. specialize (IH H). by destruct poll_slots.
    + lia.
    + match goal with |- context [poll_slots _ _ _ l ?s'] => specialize (Hmono l s') end.
      destruct poll_slots. cbn in *. lia.
    + match goal with |- context [poll_slots _ _ _ l ?s'] => specialize (Hmono l s') end.
      destruct poll_slots. cbn in *. lia.
  - intros H. specialize (IH H). by destruct poll_slots.
Qed.
End RetransmitQueue.
Import RetransmitQueue.

(** the timeout estimator stays in range. Whatever round trips are
    measured, the estimate fits 32 bits without truncation and lies between
    the old estimate and the sample; the timeout is between 20 ms and 5 s; the
    backed-off timeout is monotone in the retry count and never exceeds 5 s. *)
Theorem rto_bounds r t j k :
  Rto.wf r -> is_u32 t -> 0 <= j <= k ->
  Rto.wf (Rto.sample r t) /\
  (forall srtt, smoothed_ms r = Some srtt ->
     smoothed_ms (Rto.sample r t) = Some ((srtt * 7 + t) / 8) /\
     variation_ms (Rto.sample r t) = (variation_ms r * 3 + Z.abs (srtt - t)) / 4 /\
     Z.min srtt t <= (srtt * 7 + t) / 8 <= Z.max srtt t) /\
  MIN_RTO_MS <= Rto.current r <= Rto.with_backoff r j /\
  Rto.with_backoff r j <= Rto.with_backoff r k <= MAX_RTO_MS.
Proof.
  intros Hr Ht Hjk. split; [by apply sample_wf|].
  split; [|pose proof (current_range r); pose proof (backoff_range r k ltac:(lia));
           pose proof (backoff_mono r j k Hjk); pose proof (backoff_mono r 0 j ltac:(lia));
           rewrite backoff_zero in *; lia].
  intros srtt Hs. destruct Hr as [H1 H2]. rewrite Hs in H1.
  unfold Rto.sample. rewrite Hs. cbn.
  assert (is_u32 ((srtt * 7 + t) / 8) /\ Z.min srtt t <= (srtt * 7 + t) / 8 <= Z.max srtt t)
    as [? ?] by (pose proof (Z.div_mod (srtt * 7 + t) 8); pose proof (Z.mod_pos_bound (srtt * 7 + t) 8); lia).
  assert (is_u32 ((variation_ms r * 3 + Z.abs (srtt - t)) / 4))
    by (pose proof (Z.div_mod (variation_ms r * 3 + Z.abs (srtt - t)) 4);
        pose proof (Z.mod_pos_bound (variation_ms r * 3 + Z.abs (srtt - t)) 4); lia).
  by rewrite !wrap32_small.
Qed.

Lemma rto_bounds_witness :
  MIN_RTO_MS <= Rto.current {| smoothed_ms := Some 4294967295; variation_ms := 4294967295 |} /\
  Rto.wf (Rto.sample {| smoothed_ms := Some 4294967295; variation_ms := 4294967295 |} 7).
Proof.
  destruct (rto_bounds {| smoothed_ms := Some 4294967295; variation_ms := 4294967295 |} 7 0 3)
    as (Hw & _ & [Hc _] & _); [unfold Rto.wf; cbn; lia|lia|lia|]. split; done.
Defined.

(** every reachable queue is well formed: it has 32 slots, the
    outstanding identifiers are distinct and each at most 64 behind the next
    one to be issued (so an acknowledgement can still name it), and the
    congestion window and its threshold stay between 2 and 32 messages. *)
Theorem queue_reachable_wf q :
  reachable q ->
  wf q /\ MIN_CWND <= window q <= MAX_IN_FLIGHT /\ 0 <= in_flight q <= MAX_IN_FLIGHT.
Proof.
  intros Hq. apply reachable_wf in Hq. split; [done|]. split; [by apply window_range|].
  rewrite in_flight_entries. pose proof (entries_le_slots (slots q)).
  pose proof (wf_slots q Hq). unfold entries. lia.
Qed.

Lemma queue_reachable_wf_witness :
  in_flight (poll (register (register new 10).1 11).1 300 due_buffer).1.1 = 2 /\
  wf (poll (register (register new 10).1 11).1 300 due_buffer).1.1.
Proof.
  split; [by vm_compute|].
  destruct (queue_reachable_wf (poll (register (register new 10).1 11).1 300 due_buffer).1.1)
    as [H _]; [|exact H].
  eapply rtc_l; [by apply (step_register _ 10)|].
  eapply rtc_l; [by apply (step_register _ 11)|].
  eapply rtc_l; [by apply (step_poll _ 300 due_buffer)|]. apply rtc_refl.
Defined.

(** registration either issues the next identifier or changes nothing.
    It succeeds exactly when every outstanding message is fewer than 64 behind
    and the number in flight is below the congestion window; it then adds one
    fresh entry with the current timeout. The slot search never fails. *)
Theorem register_exact q now :
  wf q ->
  (register q now).2 =
    (if forallb (fun e => wrapping_sub32 (next_id q) (if_id e) <? ACK_WINDOW) (entries q)
        && (in_flight q <? window q)
     then Ok (next_id q) else Err WindowFull) /\
  (is_ok (register q now).2 = true ->
   next_id (register q now).1 = wrapping_add32 (next_id q) 1 /\
   in_flight (register q now).1 = in_flight q + 1 /\
   Permutation (entries (register q now).1)
     ({| if_id := next_id q;
         if_deadline_ms := Z.min U64_MAX (now + Rto.current (rto q));
         if_sent_at_ms := now; if_retries := 0 |} :: entries q)) /\
  (is_ok (register q now).2 = false -> (register q now).1 = q).
Proof.
  intros Hq. pose proof (register_spec q now Hq) as H. fold (span_ok q).
  destruct (span_ok q && (in_flight q <? window q)).
  - destruct H as (l & _ & Hp & Hlen & ->). cbn. repeat split; [|done..].
    rewrite !in_flight_entries. unfold entries. cbn. rewrite Hp. cbn. unfold entries. lia.
  - rewrite H. done.
Qed.

Lemma register_exact_witness :
  (register new 10).2 = Ok 0 /\ in_flight (register new 10).1 = 1.
Proof.
  destruct (register_exact new 10 new_wf) as (H1 & H2 & _).
  assert ((register new 10).2 = Ok 0) as E by (rewrite H1; by vm_compute).
  split; [exact E|]. destruct H2 as (_ & H2 & _); [by rewrite E|]. rewrite H2. by vm_compute.
Defined.

(** an acknowledgement removes exactly the entries it covers, reports
    their identifiers in slot order as far as the caller's buffer reaches,
    leaves the other entries untouched, and does not shrink the window. *)
Theorem on_ack_exact q ack now acked :
  wf q ->
  let '(q', acked', n) := on_ack q ack now acked in
  entries q' = List.filter (fun e => negb (Ack.covers ack (if_id e))) (entries q) /\
  acked' = take (length acked) (covered ack (slots q)) ++
           drop (length (covered ack (slots q))) acked /\
  n = Z.min (Z.of_nat (length (covered ack (slots q)))) (Z.of_nat (length acked)) /\
  next_id q' = next_id q /\ max_retries q' = max_retries q /\ cwnd q <= cwnd q'.
Proof.
  intros Hq. pose proof (on_ack_spec q ack now acked Hq) as H.
  destruct on_ack as [[q' acked'] n]. destruct H as (Hs & -> & -> & Hn & Hm & Hc).
  unfold entries. rewrite Hs, omap_keeps. repeat split; try done.
  unfold written. cbn. by rewrite Nat.sub_0_r.
Qed.

Lemma on_ack_exact_witness :
  entries (on_ack (register (register new 10).1 11).1 {| ack_highest := 0; ack_bitmap := 0 |}
             50 [7; 7]).1.1
  = [{| if_id := 1; if_deadline_ms := 211; if_sent_at_ms := 11; if_retries := 0 |}].
Proof.
  assert (wf (register (register new 10).1 11).1) as Hw
    by (apply register_wf; [apply register_wf; [apply new_wf|lia]|lia]).
  pose proof (on_ack_exact (register (register new 10).1 11).1
    {| ack_highest := 0; ack_bitmap := 0 |} 50 [7; 7] Hw) as H.
  destruct on_ack as [[q' a] n]. cbn [fst]. destruct H as [-> _]. by vm_compute.
Defined.

(** C37: no message stays outstanding for ever. Polled at [max_retries + 1]
    instants at least 5 s apart, the first no earlier than every deadline, an
    unacknowledged queue empties, and every outstanding message is reported as
    abandoned exactly once. *)
Theorem poll_gives_up q t times :
  wf q -> is_u64 t -> spaced t times ->
  Forall (fun e => if_deadline_ms e <= t + MAX_RTO_MS /\ if_retries e <= max_retries q) (entries q) ->
  max_retries q < Z.of_nat (length times) ->
  entries (poll_all q times).1 = [] /\
  Permutation (abandoned (poll_all q times).2) (map if_id (entries q)).
Proof.
  intros Hq Ht Hsp Hall Hlen.
  assert (entries (poll_all q times).1 = []) as He.
  { apply (poll_all_empties q t times 0); try done.
    pose proof (wf_entries q Hq) as Hw. rewrite Forall_forall in *. intros e Hin.
    specialize (Hall e Hin). specialize (Hw e Hin). destruct Hw as (_ & _ & _ & ?). lia. }
  split; [done|].
  assert (Forall (fun t => is_u64 t) times) as Hu.
  { clear -Hsp. revert t Hsp. induction times as [|u times IH]; intros t Hsp; [done|].
    destruct Hsp as (_ & Hu & Hsp). constructor; [done|]. by eapply IH. }
  pose proof (poll_all_conserves q times Hq Hu) as Hp. rewrite He in Hp.
  by rewrite app_nil_r in Hp.
Qed.

Lemma poll_gives_up_witness :
  abandoned (poll_all (register (register new 10).1 11).1
    [6000; 11000; 16000; 21000; 26000; 31000]).2 ≡ₚ [0; 1].
Proof.
  apply (poll_gives_up (register (register new 10).1 11).1 1000
    [6000; 11000; 16000; 21000; 26000; 31000]).
  - apply register_wf; [apply register_wf; [apply new_wf|lia]|lia].
  - lia.
  - cbn. clia.
  - change (entries (register (register new 10).1 11).1) with
      [{| if_id := 0; if_deadline_ms := 210; if_sent_at_ms := 10; if_retries := 0 |};
       {| if_id := 1; if_deadline_ms := 211; if_sent_at_ms := 11; if_retries := 0 |}].
    change (max_retries (register (register new 10).1 11).1) with 5.
    repeat constructor; cbn; clia.
  - by vm_compute.
Defined.

(** the deadline the queue advertises is exact. Before it (or with
    nothing outstanding) polling changes nothing and reports nothing; from it
    on, polling with any room reports at least one message. *)
Theorem next_deadline_exact q now out :
  match next_deadline_ms q with
  | Some d =>
      (now < d -> poll q now out = (q, out, 0)) /\
      (d <= now -> out <> [] -> 0 < (poll q now out).2)
  | None => poll q now out = (q, out, 0)
  end.
Proof.
  unfold next_deadline_ms. pose proof (min_of_spec (map if_deadline_ms (entries q))) as H.
  assert (Forall (fun e => now < if_deadline_ms e) (entries q) -> poll q now out = (q, out, 0))
    as Hidle by (intros Ha; unfold poll; rewrite poll_slots_none_due by done; cbn; by destruct q).
  destruct min_of as [d|].
  - destruct H as [Hin Hall]. split.
    + intros Hd. apply Hidle. rewrite Forall_forall in *. intros e He.
      specialize (Hall _ (in_map if_deadline_ms _ _ He)). cbn in Hall. lia.
    + intros Hd Hout. unfold poll.
      set (s0 := {| pl_count := 0; pl_lost := false; pl_out := out |}).
      destruct (poll_slots_count (rto q) (max_retries q) now (slots q) s0) as [_ Hc].
      { cbn. destruct out; [done|]. cbn. lia. }
      destruct poll_slots. cbn in *. apply Hc. apply List.Exists_exists.
      apply in_map_iff in Hin as (e & <- & He). by exists e.
  - apply Hidle. destruct (entries q); done.
Qed.
