(* ===== verification/Arq.v ===== *)
(** * The reliable-delivery system
      (crates/fectp-core/src/reliability.rs, sender, network and receiver)

    A transition system that composes the sender's [RetransmitQueue], a
    network that may lose, duplicate, delay and reorder, and the receiver's
    [DedupWindow]. The steps call the modelled operations; the other
    components are history variables over unbounded message numbers, message
    [n] travelling under the identifier [n mod 2^32]. The driver's part is
    that of [Peer::apply_ack] and [Peer::drive_retransmits] (pipeline.rs):
    buffers of [MAX_IN_FLIGHT] entries, and every [Due::Retransmit] is sent
    again. *)
From stdpp Require Import relations.
From S2P Require Import Prelude Bytes Error Reliability RetransmitQueue.
Import DedupWindow.

Module Arq.
Record system := mkSystem {
  sender : RetransmitQueue;
  issued : Z;                (* messages registered so far *)
  net : list Z;              (* numbers of which a copy was ever sent *)
  receiver : DedupWindow;
  got : list Z;              (* numbers handed to the application *)
  newest_got : option Z;
  acks : list (Ack * Z);     (* acknowledgements sent, with the newest then *)
  acked : list Z;            (* numbers the sender learned were received *)
  lost : list Z;             (* numbers the sender reported as abandoned *)
}.

Definition init : system := {|
  sender := RetransmitQueue.new; issued := 0; net := []; receiver := DedupWindow.new;
  got := []; newest_got := None; acks := []; acked := []; lost := [];
|}.

(** The message number an outstanding identifier stands for. *)
Definition number (n i : Z) : Z := n - wrapping_sub32 (id_of n) i.

Definition ack_buffer : list Z := repeat 0 (Z.to_nat MAX_IN_FLIGHT).

Definition resent (ds : list Due) : list Z :=
  omap (fun d => match d with Retransmit i => Some i | GaveUp _ => None end) ds.

Definition send (s : system) (now : Z) : system :=
  match RetransmitQueue.register (sender s) now with
  | (q, Ok _) =>
      {| sender := q; issued := issued s + 1; net := issued s :: net s;
         receiver := receiver s; got := got s; newest_got := newest_got s;
         acks := acks s; acked := acked s; lost := lost s |}
  | (q, _) =>
      {| sender := q; issued := issued s; net := net s;
         receiver := receiver s; got := got s; newest_got := newest_got s;
         acks := acks s; acked := acked s; lost := lost s |}
  end.

Definition arrive (s : system) (n : Z) : system :=
  let '(w, fresh) := DedupWindow.accept (receiver s) (id_of n) in
  {| sender := sender s; issued := issued s; net := net s;
     receiver := w; got := if fresh then n :: got s else got s;
     newest_got := newest (newest_got s) n;
     acks := acks s; acked := acked s; lost := lost s |}.

Definition acknowledge (s : system) (h : Z) : system :=
  {| sender := sender s; issued := issued s; net := net s;
     receiver := receiver s; got := got s; newest_got := newest_got s;
     acks := (DedupWindow.to_ack (receiver s), h) :: acks s;
     acked := acked s; lost := lost s |}.

Definition ack_arrives (s : system) (a : Ack) (now : Z) : system :=
  let '(q, ids, n) := RetransmitQueue.on_ack (sender s) a now ack_buffer in
  {| sender := q; issued := issued s; net := net s;
     receiver := receiver s; got := got s; newest_got := newest_got s;
     acks := acks s;
     acked := map (number (issued s)) (take (Z.to_nat n) ids) ++ acked s;
     lost := lost s |}.

Definition tick (s : system) (now : Z) : system :=
  let '(q, out, n) := RetransmitQueue.poll (sender s) now RetransmitQueue.due_buffer in
  let ds := take (Z.to_nat n) out in
  {| sender := q; issued := issued s;
     net := map (number (issued s)) (resent ds) ++ net s;
     receiver := receiver s; got := got s; newest_got := newest_got s;
     acks := acks s; acked := acked s;
     lost := map (number (issued s)) (RetransmitQueue.abandoned ds) ++ lost s |}.

(** The steps. A copy of a message arrives within half the identifier space
    of the receiver's newest, and an acknowledgement is fewer than 2^31
    messages old when it arrives: both hold of any session of at most 2^31
    messages. Nothing forces a step to happen: copies and acknowledgements
    that never arrive are lost, and one may arrive many times. *)
Inductive step : system -> system -> Prop :=
| step_send s now : is_u64 now -> step s (send s now)
| step_arrive s n : In n (net s) -> near_opt n (newest_got s) -> step s (arrive s n)
| step_acknowledge s h : newest_got s = Some h -> step s (acknowledge s h)
| step_ack_arrives s a h now :
    In (a, h) (acks s) -> issued s - 2147483648 < h -> is_u64 now -> step s (ack_arrives s a now)
| step_tick s now : is_u64 now -> step s (tick s now).

Definition reachable : system -> Prop := rtc step init.

Definition outstanding (s : system) : list Z :=
  map (fun e => number (issued s) (if_id e)) (RetransmitQueue.entries (sender s)).

(** ** Invariant *)
Record inv (s : system) : Prop := {
  inv_queue : RetransmitQueue.wf (sender s);
  inv_issued : 0 <= issued s;
  inv_next : next_id (sender s) = id_of (issued s);
  inv_net : Forall (fun n => 0 <= n < issued s) (net s);
  inv_rep : rep (receiver s) (got s) (newest_got s);
  inv_got : forall n, In n (got s) -> In n (net s);
  inv_newest : forall h, newest_got s = Some h -> In h (got s);
  inv_once : NoDup (got s);
  inv_acks : Forall (fun '(a, h) => In h (got s) /\
    forall n, near n h -> Ack.covers a (id_of n) = true -> In n (got s)) (acks s);
  inv_acked : forall n, In n (acked s) -> In n (got s);
  inv_partition : Permutation (outstanding s ++ acked s ++ lost s) (seqZ 0 (issued s));
}.

Lemma id_of_number n i : is_u32 i -> id_of (number n i) = i.
Proof.
  intros Hi. unfold number, id_of, wrapping_sub32, wrap32.
  rewrite Zminus_mod_idemp_r.
  replace (n - (n mod 4294967296 - i)) with (i + n / 4294967296 * 4294967296)
    by (pose proof (Z.div_mod n 4294967296); lia).
  rewrite Z_mod_plus_full. by apply Z.mod_small.
Qed.

Lemma number_near n i :
  RetransmitQueue.nameable (id_of n) i -> n - ACK_WINDOW <= number n i < n.
Proof. unfold RetransmitQueue.nameable, number. lia. Qed.

Lemma id_of_succ n : wrapping_add32 (id_of n) 1 = id_of (n + 1).
Proof. unfold wrapping_add32, id_of, wrap32. by rewrite Zplus_mod_idemp_l. Qed.

Lemma number_succ n i :
  RetransmitQueue.nameable (id_of n) i -> number (n + 1) i = number n i.
Proof.
  intros Hn. unfold number. rewrite <- id_of_succ.
  rewrite (RetransmitQueue.wrapping_sub_succ _ _ (wrapping_sub32 (id_of n) i)); [lia|done|].
  unfold RetransmitQueue.nameable in Hn. clia.
Qed.

Lemma number_self n : number (n + 1) (id_of n) = n.
Proof.
  unfold number. rewrite <- id_of_succ, (RetransmitQueue.wrapping_sub_succ _ _ 0).
  - lia.
  - apply RetransmitQueue.wrapping_sub_self.
  - lia.
Qed.

Lemma partition_filter {A} (f : A -> bool) l :
  Permutation (List.filter f l ++ List.filter (fun x => negb (f x)) l) l.
Proof.
  induction l as [|x l IH]; [done|]. cbn. destruct (f x); cbn.
  - by constructor.
  - rewrite <- Permutation_middle. by constructor.
Qed.

Lemma perm_rotate {A} (a b c d : list A) : Permutation (a ++ b ++ c ++ d) (c ++ a ++ b ++ d).
Proof.
  rewrite !(app_assoc a b). rewrite (app_assoc (a ++ b) c), (app_assoc c (a ++ b)).
  apply Permutation_app_tail, Permutation_app_comm.
Qed.

Lemma filter_map {A B} (f : A -> B) (p : B -> bool) l :
  List.filter p (map f l) = map f (List.filter (fun x => p (f x)) l).
Proof. induction l as [|x l IH]; [done|]. cbn. destruct (p (f x)); cbn; by rewrite IH. Qed.

Lemma outstanding_range s n :
  inv s -> In n (outstanding s ++ acked s ++ lost s) -> 0 <= n < issued s.
Proof.
  intros Hs Hn. rewrite (inv_partition s Hs) in Hn.
  apply list_elem_of_In, elem_of_seqZ in Hn. lia.
Qed.

Lemma entry_facts s e :
  inv s -> In e (RetransmitQueue.entries (sender s)) ->
  is_u32 (if_id e) /\ RetransmitQueue.nameable (id_of (issued s)) (if_id e) /\
  0 <= number (issued s) (if_id e) < issued s.
Proof.
  intros Hs He. pose proof (inv_queue s Hs) as Hq.
  pose proof (RetransmitQueue.wf_entries _ Hq) as Hw.
  pose proof (RetransmitQueue.wf_nameable _ Hq) as Hn. rewrite Forall_forall in Hw, Hn.
  specialize (Hw e He). specialize (Hn e He). rewrite (inv_next s Hs) in Hn.
  split; [apply Hw|]. split; [done|].
  apply (outstanding_range s); [done|]. apply in_or_app. left. unfold outstanding.
  apply in_map_iff. by exists e.
Qed.

(** ** Each step keeps the invariant *)
Lemma init_inv : inv init.
Proof.
  split; cbn; try done.
  - apply RetransmitQueue.new_wf.
  - constructor.
Qed.

Lemma send_inv s now : inv s -> is_u64 now -> inv (send s now).
Proof.
  intros Hs Hn. pose proof (inv_queue s Hs) as Hq.
  pose proof (RetransmitQueue.register_spec (sender s) now Hq) as H.
  pose proof (RetransmitQueue.register_wf (sender s) now Hq Hn) as Hw. unfold send.
  destruct (RetransmitQueue.span_ok _ && _); [|rewrite H; destruct Hs; by split].
  destruct H as (l & _ & Hp & _ & E). rewrite E in Hw |- *. cbn in Hw.
  pose proof (fun e => entry_facts s e Hs) as He.
  destruct Hs. split; cbn; try done.
  - lia.
  - by rewrite inv_next0, id_of_succ.
  - constructor; [lia|]. eapply Forall_impl; [|done]. cbn. lia.
  - intros n Hin. right. auto.
  - unfold outstanding, RetransmitQueue.entries. cbn. rewrite Hp. cbn.
    rewrite inv_next0, number_self.
    rewrite (map_ext_in _ (fun e => number (issued s) (if_id e))).
    2: { intros e Hin. apply number_succ. by apply He. }
    replace (issued s + 1) with (Z.of_nat (S (Z.to_nat (issued s)))) by lia.
    rewrite seqZ_S, Z2Nat.id by lia. rewrite <- Permutation_cons_append. cbn.
    by constructor.
Qed.

Lemma arrive_inv s n :
  inv s -> In n (net s) -> near_opt n (newest_got s) -> inv (arrive s n).
Proof.
  intros [] Hn Hnear. unfold arrive.
  destruct (accept_refines _ _ _ n inv_rep0 Hnear) as [Hb Hr].
  destruct (DedupWindow.accept (receiver s) (id_of n)) as [w b]. cbn in Hb, Hr. subst b.
  assert (forall m, In m (got s) -> In m (if deliverable (got s) n then n :: got s else got s))
    as Hmono by (intros m Hm; destruct deliverable; [by right|done]).
  split; cbn; try done; eauto.
  - intros m Hm. destruct deliverable; [destruct Hm as [<-|Hm]|]; auto.
  - intros h Hh. destruct (newest_got s) as [h0|] eqn:E; cbn in Hh; injection Hh as <-.
    + destruct Hr as (_ & _ & _ & Hin & _). exact Hin.
    + destruct Hr as (_ & _ & _ & Hin & _). exact Hin.
  - destruct (deliverable (got s) n) eqn:Hd; [|done].
    apply deliverable_spec in Hd as [Hd _]. constructor; [|done].
    by rewrite list_elem_of_In.
  - eapply Forall_impl; [|exact inv_acks0]. intros [a h] [Hh Hc]. eauto.
Qed.

Lemma acknowledge_inv s h : inv s -> newest_got s = Some h -> inv (acknowledge s h).
Proof.
  intros Hs Hh. destruct Hs. split; cbn; try done. constructor; [|done].
  split; [auto|]. rewrite Hh in inv_rep0. intros n Hn Hc.
  by apply (to_ack_covers _ _ _ _ inv_rep0 Hn) in Hc as [? _].
Qed.

Lemma ack_arrives_inv s a h now :
  inv s -> In (a, h) (acks s) -> issued s - 2147483648 < h -> is_u64 now ->
  inv (ack_arrives s a now).
Proof.
  intros Hs Ha Hfresh Hnow. pose proof (inv_queue s Hs) as Hq. unfold ack_arrives.
  pose proof (RetransmitQueue.on_ack_spec (sender s) a now ack_buffer Hq) as H.
  pose proof (RetransmitQueue.on_ack_wf (sender s) a now ack_buffer Hq Hnow) as Hw.
  destruct RetransmitQueue.on_ack as [[q ids] n]. cbn in Hw.
  destruct H as (Hslots & -> & -> & Hnext & _).
  set (c := RetransmitQueue.covered a (slots (sender s))) in *.
  assert (length c <= 32)%nat as Hc.
  { unfold c, RetransmitQueue.covered. rewrite filter_map, length_map.
    pose proof (RetransmitQueue.wf_slots _ Hq).
    pose proof (RetransmitQueue.entries_le_slots (slots (sender s))).
    pose proof (List.filter_length_le (fun x => Ack.covers a (if_id x)) (omap id (slots (sender s)))).
    clia. }
  change (Z.of_nat (length ack_buffer)) with 32. rewrite Z.min_l, Nat2Z.id by lia.
  assert (take (length c) (RetransmitQueue.written 0 c ack_buffer) = c) as ->.
  { unfold RetransmitQueue.written. rewrite take_0, Nat.sub_0_r. cbn [app].
    rewrite (take_ge c) by (change (length ack_buffer) with 32%nat; lia).
    apply take_app_length. }
  pose proof (fun e => entry_facts s e Hs) as Hent. destruct Hs. split; cbn; try done.
  - by rewrite Hnext.
  - intros m Hm. apply in_app_or in Hm as [Hm|Hm]; [|auto].
    apply in_map_iff in Hm as (i & <- & Hi). unfold c, RetransmitQueue.covered in Hi.
    apply filter_In in Hi as [Hi Hcov]. apply in_map_iff in Hi as (e & <- & He).
    destruct (Hent e He) as (H32 & Hnm & Hr).
    rewrite Forall_forall in inv_acks0. specialize (inv_acks0 _ Ha) as [Hh Hcovers].
    apply Hcovers; [|by rewrite id_of_number].
    apply inv_got0 in Hh. rewrite Forall_forall in inv_net0. specialize (inv_net0 _ Hh).
    apply number_near in Hnm. unfold near. clia.
  - rewrite <- inv_partition0. unfold outstanding, RetransmitQueue.entries. cbn.
    rewrite Hslots, RetransmitQueue.omap_keeps. unfold c, RetransmitQueue.covered.
    rewrite filter_map, map_map.
    rewrite <- (partition_filter (fun e => Ack.covers a (if_id e)) (omap id (slots (sender s)))) at 3.
    rewrite map_app, <- !app_assoc. rewrite !(app_assoc (map _ _)). apply Permutation_app_tail.
    apply Permutation_app_comm.
Qed.

Lemma tick_inv s now : inv s -> is_u64 now -> inv (tick s now).
Proof.
  intros Hs Hnow. pose proof (inv_queue s Hs) as Hq. unfold tick.
  pose proof (RetransmitQueue.poll_spec (sender s) now RetransmitQueue.due_buffer Hq ltac:(done)) as H.
  pose proof (RetransmitQueue.poll_wf (sender s) now RetransmitQueue.due_buffer Hq Hnow) as Hw.
  destruct RetransmitQueue.poll as [[q out] n]. cbn in Hw.
  destruct H as (Hslots & _ & _ & -> & _ & Hnext & _).
  pose proof (fun e => entry_facts s e Hs) as Hent. destruct Hs. split; cbn; try done.
  - by rewrite Hnext.
  - apply Forall_app. split; [|done]. apply Forall_forall. intros m Hm.
    apply in_map_iff in Hm as (i & <- & Hi).
    apply list_elem_of_In, list_elem_of_omap in Hi as (d & Hd & Hi).
    apply list_elem_of_omap in Hd as ([e|] & He & Hrep); [|done]. cbn in Hrep.
    assert (In e (RetransmitQueue.entries (sender s))) as Hin.
    { apply list_elem_of_In, list_elem_of_omap. by exists (Some e). }
    repeat zcase_in Hrep; simplify_eq. by apply Hent.
  - intros m Hm. apply in_or_app. auto.
  - rewrite <- inv_partition0. unfold outstanding, RetransmitQueue.entries. cbn.
    rewrite Hslots. rewrite <- !(map_map if_id (number (issued s))).
    rewrite <- (RetransmitQueue.poll_conserves (rto (sender s)) (max_retries (sender s)) now
      (slots (sender s))).
    rewrite map_app, <- app_assoc. unfold RetransmitQueue.reports.
    apply perm_rotate.
Qed.

Lemma step_inv s s' : inv s -> step s s' -> inv s'.
Proof.
  intros Hs. destruct 1;
    eauto using send_inv, arrive_inv, acknowledge_inv, ack_arrives_inv, tick_inv.
Qed.

Lemma reachable_inv s : reachable s -> inv s.
Proof.
  intros H. assert (forall a b, rtc step a b -> inv a -> inv b) as Hgen.
  { induction 1; eauto using step_inv. }
  eapply Hgen; [done|]. apply init_inv.
Qed.
End Arq.
Import Arq.


(** Two messages sent, the first lost once and resent, both delivered, the
    duplicate refused, and one acknowledgement settling both. *)
Definition arq_run : list (system -> system) :=
  [fun s => send s 10; fun s => send s 11; fun s => arrive s 1; fun s => tick s 300;
   fun s => arrive s 0; fun s => arrive s 0; fun s => acknowledge s 1;
   fun s => ack_arrives s {| ack_highest := 1; ack_bitmap := 1 |} 320].

Definition arq_final : system := fold_left (fun s f => f s) arq_run init.

