(* ===== verification/Cipher.v ===== *)
(** * The cipher state (crates/fectp-core/src/noise/cipher.rs, keys.rs)

    The cryptographic primitives come from other crates ([blake2],
    [chacha20poly1305], [x25519_dalek]) and are parameters of the model: the
    class [Crypto] names the functions, [CryptoLaws] what their documentation
    promises. [Toy] is an instance of both, so that theorems stated against
    the class can be run. A buffer whose call failed is not modelled: the
    source returns nothing of it. *)
From S2P Require Import Prelude Bytes Error.

(** ** The primitives *)

(** [aead_seal key nonce ad plaintext] is [encrypt_in_place_detached]: the
    ciphertext and its tag, or [None] when the crate refuses the length.
    [aead_open key nonce ad ciphertext tag] is [decrypt_in_place_detached]. *)
Class Crypto := {
  blake2s : bytes -> bytes;
  aead_seal : bytes -> bytes -> bytes -> bytes -> option (bytes * bytes);
  aead_open : bytes -> bytes -> bytes -> bytes -> bytes -> option bytes;
  x25519_public : bytes -> bytes;
  x25519_dh : bytes -> bytes -> bytes;
}.

(** The longest plaintext the AEAD accepts: 2^32 - 1 blocks of 64 bytes. *)
Definition AEAD_MAX : Z := 274877906880.
Definition HASHLEN : Z := 32.
Definition KEYLEN : Z := 32.
Definition TAGLEN : Z := 16.
Definition DHLEN : Z := 32.
#[export] Hint Unfold AEAD_MAX HASHLEN KEYLEN TAGLEN DHLEN : consts.

Class CryptoLaws (C : Crypto) : Prop := {
  blake2s_len m : len (blake2s m) = HASHLEN;
  aead_accepts k n ad p : len p <= AEAD_MAX -> exists ct tag, aead_seal k n ad p = Some (ct, tag);
  aead_len k n ad p ct tag :
    aead_seal k n ad p = Some (ct, tag) -> len ct = len p /\ len tag = TAGLEN;
  aead_roundtrip k n ad p ct tag :
    aead_seal k n ad p = Some (ct, tag) -> aead_open k n ad ct tag = Some p;
  aead_open_len k n ad ct tag p : aead_open k n ad ct tag = Some p -> len p = len ct;
  aead_open_bytes k n ad ct tag p :
    aead_open k n ad ct tag = Some p -> bytes_ok ct -> bytes_ok p;
  x25519_public_len s : len (x25519_public s) = DHLEN;
  x25519_dh_len s p : len (x25519_dh s p) = DHLEN;
  x25519_agree a b : x25519_dh a (x25519_public b) = x25519_dh b (x25519_public a);
}.

(** ** Keys (keys.rs) *)
Definition ANONYMOUS : bytes := zeros DHLEN.

(** [trait StaticKey]: the public half, and a Diffie-Hellman that may fail. *)
Class StaticKey (S : Type) := {
  sk_public : S -> bytes;
  sk_dh : S -> bytes -> Result bytes;
}.

Record Keypair := mkKeypair {
  kp_secret : bytes;
  kp_public : bytes;
}.

Module Keypair.
Section keypair.
Context `{Crypto}.

Definition from_secret (b : bytes) : Keypair :=
  {| kp_secret := b; kp_public := x25519_public b |}.

(** [generate(rng)], given the 32 bytes the generator fills in. *)
Definition generate (random : bytes) : Keypair := from_secret random.

Definition dh (k : Keypair) (peer : bytes) : bytes := x25519_dh (kp_secret k) peer.
End keypair.
End Keypair.

#[export] Instance Keypair_StaticKey `{Crypto} : StaticKey Keypair := {
  sk_public := kp_public;
  sk_dh k peer := Ok (Keypair.dh k peer);
}.

(** [impl StaticKey for &T]: a borrowed key is the key. *)

(** ** The cipher state *)
Definition MAX_NONCE : Z := U64_MAX.
#[export] Hint Unfold MAX_NONCE : consts.

Record CipherState := mkCipherState {
  cs_key : option bytes;
  cs_nonce : Z;
}.

Module CipherState.
Section cipher.
Context `{Crypto}.

Definition new : CipherState := {| cs_key := None; cs_nonce := 0 |}.

Definition initialize_key (c : CipherState) (key : bytes) : CipherState :=
  {| cs_key := Some key; cs_nonce := 0 |}.

Definition has_key (c : CipherState) : bool :=
  match cs_key c with Some _ => true | None => false end.

Definition set_nonce (c : CipherState) (n : Z) : CipherState :=
  {| cs_key := cs_key c; cs_nonce := n |}.

Definition build_nonce (counter : Z) : bytes := zeros 4 ++ to_le 8 counter.

Definition rekeyed (c : CipherState) : Result CipherState :=
  let? key := ok_or (cs_key c) NotReady in
  let? (ct, _) := ok_or (aead_seal key (build_nonce MAX_NONCE) [] (zeros KEYLEN)) Decrypt in
  Ok (initialize_key new ct).

(** [rekeyed_by(steps)]: one step, then [steps - 1] more. *)
Definition rekeyed_by (c : CipherState) (steps : Z) : Result CipherState :=
  let? state := rekeyed c in
  for_in 1 steps (fun _ state => rekeyed state) state.

Definition encrypt_at (c : CipherState) (ad : bytes) (counter : Z) (buf : bytes)
    (plaintext_len : Z) : Result (bytes * Z) :=
  let? key := ok_or (cs_key c) NotReady in
  let? end_ := ok_or (checked_add plaintext_len TAGLEN) PayloadTooLarge in
  if len buf <? end_ then Err BufferTooSmall else
  let? plain := slice buf 0 plaintext_len in
  let? (ct, tag) := ok_or (aead_seal key (build_nonce counter) ad plain) Decrypt in
  let? buf := copy_range buf 0 plaintext_len ct in
  let? buf := copy_range buf plaintext_len end_ tag in
  Ok (buf, end_).

Definition decrypt_at (c : CipherState) (ad : bytes) (counter : Z) (buf : bytes)
  : Result (bytes * Z) :=
  let? key := ok_or (cs_key c) NotReady in
  if len buf <? TAGLEN then Err MessageTooShort else
  let plaintext_len := len buf - TAGLEN in
  let? body := slice buf 0 plaintext_len in
  let? tag := slice_from buf plaintext_len in
  let? plain := ok_or (aead_open key (build_nonce counter) ad body tag) Decrypt in
  let? buf := copy_range buf 0 plaintext_len plain in
  Ok (buf, plaintext_len).

Definition encrypt_with_ad (c : CipherState) (ad buf : bytes) (plaintext_len : Z)
  : CipherState * Result (bytes * Z) :=
  match cs_key c with
  | None => (c, Ok (buf, plaintext_len))
  | Some _ =>
      if cs_nonce c =? MAX_NONCE then (c, Err NonceExhausted) else
      let n := cs_nonce c in
      match encrypt_at c ad n buf plaintext_len with
      | Ok r => (set_nonce c (n + 1), Ok r)
      | Err e => (c, Err e)
      | Panic => (c, Panic)
      end
  end.

Definition decrypt_with_ad (c : CipherState) (ad buf : bytes)
  : CipherState * Result (bytes * Z) :=
  match cs_key c with
  | None => (c, Ok (buf, len buf))
  | Some _ =>
      if cs_nonce c =? MAX_NONCE then (c, Err NonceExhausted) else
      let n := cs_nonce c in
      match decrypt_at c ad n buf with
      | Ok r => (set_nonce c (n + 1), Ok r)
      | Err e => (c, Err e)
      | Panic => (c, Panic)
      end
  end.
End cipher.
End CipherState.

(** ** A concrete instance of the primitives

    Not cryptography: a keyed exclusive-or with a checksum tag and an additive
    exchange, enough to run the protocol on concrete data. *)
Module Toy.
Definition pad (n : Z) (l : bytes) : bytes := takez n (l ++ zeros n).
Definition sum (l : bytes) : Z := fold_left (fun a b => (a * 31 + b + 7) mod 65521) l 1.
Definition digest (m : bytes) : bytes := pad 32 (to_le 4 (sum m) ++ to_le 4 (sum (rev m))).
Definition tag (k n ad p : bytes) : bytes :=
  pad 16 (to_le 4 (sum (k ++ n)) ++ to_le 4 (sum (ad ++ [len ad] ++ p))).
Definition mask (k n : bytes) (p : bytes) : bytes := map (Z.lxor (sum (n ++ k) mod 256)) p.
Definition seal (k n ad p : bytes) : option (bytes * bytes) :=
  if len p <=? AEAD_MAX then Some (mask k n p, tag k n ad p) else None.
Definition unseal (k n ad ct t : bytes) : option bytes :=
  let p := mask k n ct in
  if decide (t = tag k n ad p) then Some p else None.
Definition public (s : bytes) : bytes := pad 32 s.
Definition dh (s p : bytes) : bytes :=
  zip_with (fun a b => (a + b) mod 256) (pad 32 s) (pad 32 p).

#[export] Instance crypto : Crypto := {|
  blake2s := digest; aead_seal := seal; aead_open := unseal;
  x25519_public := public; x25519_dh := dh;
|}.

Lemma len_pad n l : 0 <= n -> len (pad n l) = n.
Proof. intros. unfold pad. pose proof (len_nonneg l). len_lia. Qed.

Lemma mask_mask k n p : mask k n (mask k n p) = p.
Proof.
  unfold mask. rewrite map_map. rewrite <- (map_id p) at 2. apply map_ext. intros b.
  by rewrite <- Z.lxor_assoc, Z.lxor_nilpotent, Z.lxor_0_l.
Qed.

Lemma pad_pad n l : 0 <= n -> pad n (pad n l) = pad n l.
Proof. intros. unfold pad at 1. rewrite takez_app_le, takez_all by (rewrite len_pad; lia). done. Qed.

Lemma dh_comm a b : zip_with (fun x y => (x + y) mod 256) a b = zip_with (fun x y => (x + y) mod 256) b a.
Proof. revert b. induction a as [|x a IH]; intros [|y b]; cbn; [done..|]. by rewrite IH, Z.add_comm. Qed.

Lemma len_dh a b : len a = len b -> len (zip_with (fun x y => (x + y) mod 256) a b) = len a.
Proof.
  revert b. induction a as [|x a IH]; intros [|y b]; cbn; autorewrite with len; intros H; try done.
  f_equal. apply IH. lia.
Qed.

Lemma mask_ok k n p : bytes_ok p -> bytes_ok (mask k n p).
Proof.
  intros Hp. unfold mask, bytes_ok. apply Forall_forall. intros b Hb.
  apply in_map_iff in Hb as (a & <- & Ha). unfold bytes_ok in Hp. rewrite Forall_forall in Hp.
  specialize (Hp a Ha). pose proof (Z.mod_pos_bound (sum (n ++ k)) 256 ltac:(lia)).
  assert (0 <= Z.lxor (sum (n ++ k) mod 256) a) by (apply Z.lxor_nonneg; lia).
  split; [done|]. apply (byte_lxor (sum (n ++ k) mod 256) a); lia.
Qed.

#[export] Instance laws : CryptoLaws crypto.
Proof.
  split; cbn.
  - intros. by apply len_pad.
  - intros k n ad p Hp. unfold seal. rewrite (proj2 (Z.leb_le _ _)) by done. eauto.
  - intros k n ad p ct t E. unfold seal in E. zcase_in E; [|done]. injection E as <- <-.
    split; [unfold mask; by rewrite len_map | by apply len_pad].
  - intros k n ad p ct t E. unfold seal in E. zcase_in E; [|done]. injection E as <- <-.
    unfold unseal. rewrite mask_mask. by rewrite decide_True.
  - intros k n ad ct t p E. unfold unseal in E. case_decide; [|done]. injection E as <-.
    unfold mask. by rewrite len_map.
  - intros k n ad ct t p E. unfold unseal in E. case_decide; [|done]. injection E as <-.
    apply mask_ok.
  - intros. by apply len_pad.
  - intros. unfold dh. rewrite len_dh; rewrite !len_pad by done; done.
  - intros a b. unfold dh, public. rewrite !pad_pad by done. apply dh_comm.
Qed.
End Toy.

(** ** Lemmas *)
Import CipherState.
Section cipher_lemmas.
Context `{CL : CryptoLaws}.

Lemma encrypt_at_spec c key ad n pre post p :
  cs_key c = Some key -> len p <= AEAD_MAX -> len post = TAGLEN -> pre = p ++ post ->
  exists ct tag,
    aead_seal key (build_nonce n) ad p = Some (ct, tag) /\
    encrypt_at c ad n pre (len p) = Ok (ct ++ tag, len p + TAGLEN) /\
    len ct = len p /\ len tag = TAGLEN.
Proof.
  intros Hk Hp Hpost ->. destruct (aead_accepts key (build_nonce n) ad p Hp) as (ct & tag & E).
  destruct (aead_len _ _ _ _ _ _ E) as [Hct Htag]. exists ct, tag.
  split; [done|]. split; [|done]. unfold encrypt_at, checked_add. rewrite Hk. cbn [ok_or].
  rewrite (proj2 (Z.leb_le _ _)) by (pose proof (len_nonneg p); clia). cbn [ok_or].
  rewrite (proj2 (Z.ltb_ge _ _)) by len_lia.
  rewrite (slice_eq _ [] p post) by (done || len_lia). rewrite E. cbn [ok_or].
  rewrite (copy_range_mid [] p post ct) by (done || len_lia). cbn [app].
  rewrite <- (app_nil_r post). rewrite (copy_range_mid ct post [] tag) by (done || len_lia).
  by rewrite app_nil_r.
Qed.

Lemma decrypt_at_spec c key ad n p ct tag :
  cs_key c = Some key -> aead_seal key (build_nonce n) ad p = Some (ct, tag) ->
  decrypt_at c ad n (ct ++ tag) = Ok (p ++ tag, len p).
Proof.
  intros Hk E. destruct (aead_len _ _ _ _ _ _ E) as [Hct Htag].
  unfold decrypt_at. rewrite Hk. cbn [ok_or].
  rewrite (proj2 (Z.ltb_ge _ _)) by (pose proof (len_nonneg ct); len_lia).
  replace (len (ct ++ tag) - TAGLEN) with (len p) by len_lia.
  rewrite (slice_eq _ [] ct tag) by (done || len_lia).
  rewrite slice_from_mid by lia. rewrite (aead_roundtrip _ _ _ _ _ _ E). cbn [ok_or].
  by rewrite (copy_range_mid [] ct tag p) by (done || len_lia).
Qed.

(** Decryption keeps bytes bytes. *)
Lemma decrypt_at_bytes c ad n buf buf' k :
  decrypt_at c ad n buf = Ok (buf', k) -> bytes_ok buf -> bytes_ok buf'.
Proof.
  unfold decrypt_at. destruct (cs_key c) as [key|]; cbn [ok_or]; [|done].
  zcase; [done|]. intros Hd Hb.
  rewrite slice_ok in Hd by clia. unfold slice_from in Hd. rewrite slice_ok in Hd by clia.
  destruct aead_open as [p|] eqn:E; cbn [ok_or] in Hd; [|done].
  apply aead_open_bytes in E; [|auto using bytes_ok_takez, bytes_ok_dropz].
  destruct copy_range eqn:Ec; simplify_eq. by eapply bytes_ok_copy_range.
Qed.

(** Every successful or failed decryption, with no panic. *)
Lemma decrypt_at_safe c ad n buf :
  decrypt_at c ad n buf <> Panic /\
  forall buf' k, decrypt_at c ad n buf = Ok (buf', k) -> len buf' = len buf /\ k = len buf - TAGLEN /\ 0 <= k.
Proof.
  unfold decrypt_at. destruct (cs_key c) as [key|]; cbn [ok_or]; [|done].
  zcase; [done|].
  rewrite slice_ok by clia. unfold slice_from. rewrite slice_ok by clia.
  destruct aead_open as [p|] eqn:E; cbn [ok_or]; [|done].
  apply aead_open_len in E.
  rewrite copy_range_at by (rewrite ?E; len_lia).
  split; [done|]. intros buf' k Heq. injection Heq as <- <-.
  rewrite len_app, E. len_lia.
Qed.

Lemma encrypt_at_safe c ad n buf k :
  0 <= k ->
  encrypt_at c ad n buf k <> Panic /\
  forall buf' m, encrypt_at c ad n buf k = Ok (buf', m) -> len buf' = len buf /\ m = k + TAGLEN /\ m <= len buf.
Proof.
  intros Hk. unfold encrypt_at. destruct (cs_key c) as [key|]; cbn [ok_or]; [|done].
  unfold checked_add. zcase; cbn [ok_or]; [|done]. zcase; [done|].
  rewrite slice_ok by clia.
  destruct aead_seal as [[ct tag]|] eqn:E; cbn [ok_or]; [|done].
  destruct (aead_len _ _ _ _ _ _ E) as [Hct Htag].
  rewrite copy_range_at by (rewrite ?Hct; len_lia).
  rewrite copy_range_next by (rewrite ?Hct; len_lia).
  split; [done|]. intros buf' m Heq. injection Heq as <- <-.
  rewrite !len_app, len_dropz, len_dropz. len_lia.
Qed.

Lemma rekeyed_key c key :
  cs_key c = Some key -> exists key', rekeyed c = Ok {| cs_key := Some key'; cs_nonce := 0 |} /\ len key' = KEYLEN.
Proof.
  intros Hk. unfold rekeyed. rewrite Hk. cbn [ok_or].
  destruct (aead_accepts key (build_nonce MAX_NONCE) [] (zeros KEYLEN)) as (ct & tag & E).
  { rewrite len_zeros. clia. }
  rewrite E. cbn. exists ct. split; [done|].
  apply aead_len in E as [-> _]. by rewrite len_zeros.
Qed.
End cipher_lemmas.
