(* ===== verification/Symmetric.v ===== *)
(** * Hashing and the symmetric state
      (crates/fectp-core/src/noise/hash.rs, noise/symmetric.rs)

    The Noise key schedule over the hash primitive: HMAC, the two HKDFs, and
    [SymmetricState]. The lemmas show that two equal states stay equal when
    one encrypts and the other decrypts the result, which is what the
    handshake proofs use. *)
From Stdlib Require Import String Ascii.
From S2P Require Import Prelude Bytes Error Cipher.

Definition BLOCKLEN : Z := 64.
#[export] Hint Unfold BLOCKLEN : consts.

(** A byte-string literal. *)
Definition literal (s : string) : bytes :=
  map (fun c => Z.of_N (N_of_ascii c)) (list_ascii_of_string s).

Definition PROTOCOL_NAME : bytes := literal "Noise_IK_25519_ChaChaPoly_BLAKE2s".
Definition RESUME_PROTOCOL_NAME : bytes := literal "Noise_NNpsk0_25519_ChaChaPoly_BLAKE2s".
Definition RESUMPTION_LABEL : bytes := literal "fectp/1 resumption".

Section hashing.
Context `{Crypto}.

Definition hash (parts : list bytes) : bytes := blake2s (concat parts).

Definition hmac (key : bytes) (parts : list bytes) : bytes :=
  let padded :=
    if BLOCKLEN <? len key
    then hash [key] ++ zeros (BLOCKLEN - HASHLEN)
    else key ++ zeros (BLOCKLEN - len key) in
  let ipad := map (fun b => Z.lxor b 0x36) padded in
  let opad := map (fun b => Z.lxor b 0x5c) padded in
  let inner_digest := blake2s (ipad ++ concat parts) in
  blake2s (opad ++ inner_digest).

Definition hkdf3 (chaining_key input : bytes) : bytes * bytes * bytes :=
  let temp := hmac chaining_key [input] in
  let out1 := hmac temp [[1]] in
  let out2 := hmac temp [out1; [2]] in
  let out3 := hmac temp [out2; [3]] in
  (out1, out2, out3).

Definition hkdf2 (chaining_key input : bytes) : bytes * bytes :=
  let temp := hmac chaining_key [input] in
  let out1 := hmac temp [[1]] in
  let out2 := hmac temp [out1; [2]] in
  (out1, out2).
End hashing.

Record SymmetricState := mkSymmetricState {
  ss_chaining_key : bytes;
  ss_transcript : bytes;
  ss_cipher : CipherState;
}.

Module SymmetricState.
Section symmetric.
Context `{Crypto}.

Definition new (protocol_name : bytes) : SymmetricState :=
  let transcript :=
    if len protocol_name <=? HASHLEN
    then protocol_name ++ zeros (HASHLEN - len protocol_name)
    else hash [protocol_name] in
  {| ss_chaining_key := transcript; ss_transcript := transcript; ss_cipher := CipherState.new |}.

Definition mix_hash (s : SymmetricState) (data : bytes) : SymmetricState :=
  {| ss_chaining_key := ss_chaining_key s;
     ss_transcript := hash [ss_transcript s; data];
     ss_cipher := ss_cipher s |}.

Definition mix_key (s : SymmetricState) (input : bytes) : SymmetricState :=
  let '(ck, temp_k) := hkdf2 (ss_chaining_key s) input in
  {| ss_chaining_key := ck; ss_transcript := ss_transcript s;
     ss_cipher := CipherState.initialize_key (ss_cipher s) temp_k |}.

Definition mix_key_and_hash (s : SymmetricState) (input : bytes) : SymmetricState :=
  let '(ck, temp_h, temp_k) := hkdf3 (ss_chaining_key s) input in
  let s := {| ss_chaining_key := ck; ss_transcript := ss_transcript s; ss_cipher := ss_cipher s |} in
  let s := mix_hash s temp_h in
  {| ss_chaining_key := ss_chaining_key s; ss_transcript := ss_transcript s;
     ss_cipher := CipherState.initialize_key (ss_cipher s) temp_k |}.

Definition mix_ephemeral_with_psk (s : SymmetricState) (public_key : bytes) : SymmetricState :=
  mix_key (mix_hash s public_key) public_key.

Definition set_cipher (s : SymmetricState) (c : CipherState) : SymmetricState :=
  {| ss_chaining_key := ss_chaining_key s; ss_transcript := ss_transcript s; ss_cipher := c |}.

Definition encrypt_and_hash (s : SymmetricState) (buf : bytes) (plaintext_len : Z)
  : SymmetricState * Result (bytes * Z) :=
  let h := ss_transcript s in
  let '(c, r) := CipherState.encrypt_with_ad (ss_cipher s) h buf plaintext_len in
  let s := set_cipher s c in
  match r with
  | Ok (buf, ct_len) =>
      match slice buf 0 ct_len with
      | Ok ct => (mix_hash s ct, Ok (buf, ct_len))
      | Err e => (s, Err e)
      | Panic => (s, Panic)
      end
  | Err e => (s, Err e)
  | Panic => (s, Panic)
  end.

Definition decrypt_and_hash (s : SymmetricState) (buf : bytes)
  : SymmetricState * Result (bytes * Z) :=
  let h := ss_transcript s in
  let next := hash [h; buf] in
  let '(c, r) := CipherState.decrypt_with_ad (ss_cipher s) h buf in
  let s := set_cipher s c in
  match r with
  | Ok r =>
      ({| ss_chaining_key := ss_chaining_key s; ss_transcript := next; ss_cipher := c |}, Ok r)
  | Err e => (s, Err e)
  | Panic => (s, Panic)
  end.

(** [truncate_key] is the identity: [HASHLEN] and [KEYLEN] are both 32. *)
Definition truncate_key (h : bytes) : bytes := h.

Definition split (s : SymmetricState) : CipherState * CipherState :=
  let '(k1, k2) := hkdf2 (ss_chaining_key s) [] in
  (CipherState.initialize_key CipherState.new (truncate_key k1),
   CipherState.initialize_key CipherState.new (truncate_key k2)).

Definition resumption_key (s : SymmetricState) : bytes :=
  let '(key, _) := hkdf2 (ss_chaining_key s) RESUMPTION_LABEL in truncate_key key.

Definition handshake_hash (s : SymmetricState) : bytes := ss_transcript s.

(** The cipher is keyed and its counter is not exhausted. *)
Definition keyed (s : SymmetricState) : Prop :=
  CipherState.has_key (ss_cipher s) = true /\ 0 <= cs_nonce (ss_cipher s) < MAX_NONCE.
End symmetric.
End SymmetricState.
Import SymmetricState.

Section symmetric_lemmas.
Context `{CL : CryptoLaws}.

Lemma mix_key_keyed s i : keyed (mix_key s i).
Proof. unfold keyed, mix_key. destruct hkdf2. cbn. clia. Qed.

Lemma mix_key_and_hash_keyed s i : keyed (mix_key_and_hash s i).
Proof. unfold keyed, mix_key_and_hash. destruct hkdf3 as [[? ?] ?]. cbn. clia. Qed.

Lemma mix_hash_keyed s d : keyed s -> keyed (mix_hash s d).
Proof. done. Qed.

(** What one side encrypts the other, in the same state, decrypts, and both
    end in the same state. *)
Lemma encrypt_decrypt_and_hash s p post :
  keyed s -> len p <= AEAD_MAX -> len post = TAGLEN ->
  exists s' ct,
    len ct = len p + TAGLEN /\
    encrypt_and_hash s (p ++ post) (len p) = (s', Ok (ct, len p + TAGLEN)) /\
    (exists tail, len tail = TAGLEN /\ decrypt_and_hash s ct = (s', Ok (p ++ tail, len p))) /\
    cs_key (ss_cipher s') = cs_key (ss_cipher s) /\
    cs_nonce (ss_cipher s') = cs_nonce (ss_cipher s) + 1.
Proof.
  intros [Hk Hn] Hp Hpost. destruct (ss_cipher s) as [[key|] n] eqn:Ec; [|done]. cbn in Hn.
  destruct (encrypt_at_spec {| cs_key := Some key; cs_nonce := n |} key (ss_transcript s) n
    (p ++ post) post p) as (ct & tag & Hs & He & Hct & Htag); [done..|].
  exists {| ss_chaining_key := ss_chaining_key s;
            ss_transcript := hash [ss_transcript s; ct ++ tag];
            ss_cipher := {| cs_key := Some key; cs_nonce := n + 1 |} |}, (ct ++ tag).
  split; [rewrite len_app; lia|].
  assert ((n =? MAX_NONCE) = false) as Hne by (apply Z.eqb_neq; lia).
  split.
  { unfold encrypt_and_hash, CipherState.encrypt_with_ad. rewrite Ec. cbn [cs_key cs_nonce].
    rewrite Hne, He. unfold CipherState.set_nonce. cbn [set_cipher cs_key].
    rewrite slice_ok by (rewrite ?len_app; pose proof (len_nonneg p); clia).
    rewrite dropz_0 by lia. rewrite takez_all by (rewrite len_app; lia). done. }
  split; [|done]. exists tag. split; [done|].
  unfold decrypt_and_hash, CipherState.decrypt_with_ad. rewrite Ec. cbn [cs_key cs_nonce].
  rewrite Hne, (decrypt_at_spec _ key _ n p) by done. done.
Qed.

Lemma hash_len parts : len (hash parts) = HASHLEN.
Proof. apply blake2s_len. Qed.

Lemma hmac_len k parts : len (hmac k parts) = HASHLEN.
Proof. apply blake2s_len. Qed.
End symmetric_lemmas.
