(* ===== verification/Handshake.v ===== *)
(** * The handshakes (crates/fectp-core/src/noise/handshake.rs, noise/resume.rs)

    The IK pattern that opens a session and the NNpsk0 pattern that resumes
    one. A handshake is a record passed through each call and returned whether
    the call succeeds or fails; the bytes a random generator would supply are
    an argument. The theorems show that two honest peers agree on every key,
    whatever holds their static keys, and that calls out of order are refused
    without changing anything. *)
From S2P Require Import Prelude Bytes Error Cipher Symmetric.
Import SymmetricState.

Definition MSG1_OVERHEAD : Z := DHLEN + (DHLEN + TAGLEN) + TAGLEN.
Definition MSG2_OVERHEAD : Z := DHLEN + TAGLEN.
Definition MSG1_PAYLOAD_OFFSET : Z := DHLEN + DHLEN + TAGLEN.
Definition MSG2_PAYLOAD_OFFSET : Z := DHLEN.
Definition RESUME_MSG_OVERHEAD : Z := DHLEN + TAGLEN.
Definition RESUME_PAYLOAD_OFFSET : Z := DHLEN.
Definition PSK_LEN : Z := 32.
#[export] Hint Unfold MSG1_OVERHEAD MSG2_OVERHEAD MSG1_PAYLOAD_OFFSET MSG2_PAYLOAD_OFFSET
  RESUME_MSG_OVERHEAD RESUME_PAYLOAD_OFFSET PSK_LEN : consts.

Inductive Role := Initiator | Responder.
Inductive Step := AwaitingMessage1 | AwaitingMessage2 | Done.

#[global] Instance Role_eq_dec : EqDecision Role.
Proof. solve_decision. Defined.
#[global] Instance Step_eq_dec : EqDecision Step.
Proof. solve_decision. Defined.

Definition is_some {A} (o : option A) : bool := match o with Some _ => true | None => false end.

Section ranges.
Context `{Crypto}.

(** [sym.encrypt_and_hash(&mut out[a..b], n)]: the sub-buffer is written back. *)
Definition encrypt_range (sym : SymmetricState) (out : bytes) (a b n : Z)
  : SymmetricState * Result bytes :=
  let! (sym, sub) := (sym, slice out a b) in
  let! (sym, r) := encrypt_and_hash sym sub n in
  (sym, copy_range out a b r.1).

(** [out[..n].copy_from_slice(ct)] and [sym.decrypt_and_hash(&mut out[..n])],
    as every message reader ends: the buffer and the payload length. *)
Definition decrypt_into (sym : SymmetricState) (ct out : bytes)
  : SymmetricState * Result (bytes * Z) :=
  if len out <? len ct then (sym, Err BufferTooSmall) else
  let! (sym, out) := (sym, copy_range out 0 (len ct) ct) in
  let! (sym, sub) := (sym, slice out 0 (len ct)) in
  let! (sym, r) := decrypt_and_hash sym sub in
  let! (sym, out) := (sym, copy_range out 0 (len ct) r.1) in
  (sym, Ok (out, r.2)).
End ranges.

Record HandshakeState (S : Type) := mkHandshakeState {
  hs_sym : SymmetricState;
  hs_role : Role;
  hs_s : S;
  hs_e : option Keypair;
  hs_rs : option bytes;
  hs_re : option bytes;
  hs_step : Step;
}.
Arguments hs_sym {S}. Arguments hs_role {S}. Arguments hs_s {S}. Arguments hs_e {S}.
Arguments hs_rs {S}. Arguments hs_re {S}. Arguments hs_step {S}. Arguments mkHandshakeState {S}.

Module HandshakeState.
Section handshake.
Context `{Crypto} {S : Type} `{StaticKey S}.
Implicit Types hs : HandshakeState S.

Definition set_sym hs (sym : SymmetricState) : HandshakeState S :=
  mkHandshakeState sym (hs_role hs) (hs_s hs) (hs_e hs) (hs_rs hs) (hs_re hs) (hs_step hs).

(** Runs a step of the symmetric state inside the handshake. *)
Definition on_sym {A} hs (f : SymmetricState -> SymmetricState * Result A)
  : HandshakeState S * Result A :=
  let '(sym, r) := f (hs_sym hs) in (set_sym hs sym, r).

(** [expect("initiator knows rs")] is the [None] case. *)
Definition init (role : Role) (s : S) (rs : option bytes) (prologue : bytes)
  : Result (HandshakeState S) :=
  let sym := mix_hash (SymmetricState.new PROTOCOL_NAME) prologue in
  let? sym :=
    match role with
    | Initiator => match rs with Some k => Ok (mix_hash sym k) | None => Panic end
    | Responder => Ok (mix_hash sym (sk_public s))
    end in
  Ok (mkHandshakeState sym role s None rs None
        (match role with Initiator => AwaitingMessage2 | Responder => AwaitingMessage1 end)).

Definition initiator (s : S) (remote_static prologue : bytes) : Result (HandshakeState S) :=
  init Initiator s (Some remote_static) prologue.

Definition responder (s : S) (prologue : bytes) : Result (HandshakeState S) :=
  init Responder s None prologue.

Definition remote_static hs : option bytes := hs_rs hs.
Definition is_done hs : bool := bool_decide (hs_step hs = Done).

Definition write_message_1_in_place hs (random : bytes) (payload_len : Z) (out : bytes)
  : HandshakeState S * Result (bytes * Z) :=
  if bool_decide (hs_role hs <> Initiator) || bool_decide (hs_step hs <> AwaitingMessage2)
     || is_some (hs_e hs)
  then (hs, Err HandshakeStateError) else
  let! (hs, total) := (hs, ok_or (checked_add MSG1_OVERHEAD payload_len) PayloadTooLarge) in
  if len out <? total then (hs, Err BufferTooSmall) else
  let! (hs, rs) := (hs, ok_or (hs_rs hs) HandshakeStateError) in
  (* -> e *)
  let e := Keypair.generate random in
  let! (hs, out) := (hs, copy_range out 0 DHLEN (kp_public e)) in
  let! (hs, pub) := (hs, slice out 0 DHLEN) in
  let hs := set_sym hs (mix_hash (hs_sym hs) pub) in
  (* -> es *)
  let hs := set_sym hs (mix_key (hs_sym hs) (Keypair.dh e rs)) in
  (* -> s *)
  let! (hs, out) := (hs, copy_range out DHLEN (DHLEN + DHLEN) (sk_public (hs_s hs))) in
  let! (hs, out) := on_sym hs (fun sym => encrypt_range sym out DHLEN MSG1_PAYLOAD_OFFSET DHLEN) in
  (* -> ss *)
  let! (hs, ss) := (hs, sk_dh (hs_s hs) rs) in
  let hs := set_sym hs (mix_key (hs_sym hs) ss) in
  (* -> payload *)
  let! (hs, out) :=
    on_sym hs (fun sym => encrypt_range sym out MSG1_PAYLOAD_OFFSET total payload_len) in
  (mkHandshakeState (hs_sym hs) (hs_role hs) (hs_s hs) (Some e) (hs_rs hs) (hs_re hs) (hs_step hs),
   Ok (out, total)).

Definition write_message_1 hs (random payload out : bytes)
  : HandshakeState S * Result (bytes * Z) :=
  let! (hs, end_) := (hs, ok_or (checked_add MSG1_PAYLOAD_OFFSET (len payload)) PayloadTooLarge) in
  if len out <? end_ + TAGLEN then (hs, Err BufferTooSmall) else
  let! (hs, out) := (hs, copy_range out MSG1_PAYLOAD_OFFSET end_ payload) in
  write_message_1_in_place hs random (len payload) out.

Definition read_message_1 hs (msg out : bytes) : HandshakeState S * Result (bytes * Z) :=
  if bool_decide (hs_role hs <> Responder) || bool_decide (hs_step hs <> AwaitingMessage1)
  then (hs, Err HandshakeStateError) else
  if len msg <? MSG1_OVERHEAD then (hs, Err MessageTooShort) else
  (* <- e *)
  let! (hs, re) := (hs, slice msg 0 DHLEN) in
  let hs := set_sym hs (mix_hash (hs_sym hs) re) in
  (* <- es *)
  let! (hs, es) := (hs, sk_dh (hs_s hs) re) in
  let hs := set_sym hs (mix_key (hs_sym hs) es) in
  (* <- s *)
  let! (hs, enc_s) := (hs, slice msg DHLEN MSG1_PAYLOAD_OFFSET) in
  let! (hs, r) := on_sym hs (fun sym => decrypt_and_hash sym enc_s) in
  if negb (r.2 =? DHLEN) then (hs, Err BadHeader) else
  let! (hs, rs) := (hs, slice r.1 0 DHLEN) in
  (* <- ss *)
  let! (hs, ss) := (hs, sk_dh (hs_s hs) rs) in
  let hs := set_sym hs (mix_key (hs_sym hs) ss) in
  (* <- payload *)
  let! (hs, ct) := (hs, slice_from msg MSG1_PAYLOAD_OFFSET) in
  let! (hs, r) := on_sym hs (fun sym => decrypt_into sym ct out) in
  (mkHandshakeState (hs_sym hs) (hs_role hs) (hs_s hs) (hs_e hs) (Some rs) (Some re)
     AwaitingMessage2, Ok r).

Definition write_message_2_in_place hs (random : bytes) (payload_len : Z) (out : bytes)
  : HandshakeState S * Result (bytes * Z) :=
  if bool_decide (hs_role hs <> Responder) || bool_decide (hs_step hs <> AwaitingMessage2)
  then (hs, Err HandshakeStateError) else
  let! (hs, total) := (hs, ok_or (checked_add MSG2_OVERHEAD payload_len) PayloadTooLarge) in
  if len out <? total then (hs, Err BufferTooSmall) else
  let! (hs, re) := (hs, ok_or (hs_re hs) HandshakeStateError) in
  let! (hs, rs) := (hs, ok_or (hs_rs hs) HandshakeStateError) in
  (* -> e *)
  let e := Keypair.generate random in
  let! (hs, out) := (hs, copy_range out 0 DHLEN (kp_public e)) in
  let! (hs, pub) := (hs, slice out 0 DHLEN) in
  let hs := set_sym hs (mix_hash (hs_sym hs) pub) in
  (* -> ee *)
  let hs := set_sym hs (mix_key (hs_sym hs) (Keypair.dh e re)) in
  (* -> se *)
  let hs := set_sym hs (mix_key (hs_sym hs) (Keypair.dh e rs)) in
  (* -> payload *)
  let! (hs, out) :=
    on_sym hs (fun sym => encrypt_range sym out MSG2_PAYLOAD_OFFSET total payload_len) in
  (mkHandshakeState (hs_sym hs) (hs_role hs) (hs_s hs) (Some e) (hs_rs hs) (hs_re hs) Done,
   Ok (out, total)).

Definition write_message_2 hs (random payload out : bytes)
  : HandshakeState S * Result (bytes * Z) :=
  let! (hs, end_) := (hs, ok_or (checked_add MSG2_PAYLOAD_OFFSET (len payload)) PayloadTooLarge) in
  if len out <? end_ + TAGLEN then (hs, Err BufferTooSmall) else
  let! (hs, out) := (hs, copy_range out MSG2_PAYLOAD_OFFSET end_ payload) in
  write_message_2_in_place hs random (len payload) out.

Definition read_message_2 hs (msg out : bytes) : HandshakeState S * Result (bytes * Z) :=
  if bool_decide (hs_role hs <> Initiator) || bool_decide (hs_step hs <> AwaitingMessage2)
  then (hs, Err HandshakeStateError) else
  if len msg <? MSG2_OVERHEAD then (hs, Err MessageTooShort) else
  let! (hs, e) := (hs, ok_or (hs_e hs) HandshakeStateError) in
  (* <- e *)
  let! (hs, re) := (hs, slice msg 0 DHLEN) in
  let hs := set_sym hs (mix_hash (hs_sym hs) re) in
  (* <- ee *)
  let hs := set_sym hs (mix_key (hs_sym hs) (Keypair.dh e re)) in
  (* <- se *)
  let! (hs, se) := (hs, sk_dh (hs_s hs) re) in
  let hs := set_sym hs (mix_key (hs_sym hs) se) in
  (* <- payload *)
  let! (hs, ct) := (hs, slice_from msg DHLEN) in
  let! (hs, r) := on_sym hs (fun sym => decrypt_into sym ct out) in
  (mkHandshakeState (hs_sym hs) (hs_role hs) (hs_s hs) (hs_e hs) (hs_rs hs) (Some re) Done, Ok r).

(** The [(send, receive)] ciphers. *)
Definition split hs : Result (CipherState * CipherState) :=
  if bool_decide (hs_step hs <> Done) then Err HandshakeStateError else
  let '(c1, c2) := SymmetricState.split (hs_sym hs) in
  Ok (match hs_role hs with Initiator => (c1, c2) | Responder => (c2, c1) end).

Definition resumption_key hs : bytes := SymmetricState.resumption_key (hs_sym hs).
Definition handshake_hash hs : bytes := SymmetricState.handshake_hash (hs_sym hs).
End handshake.
End HandshakeState.

Record ResumeHandshake := mkResumeHandshake {
  rh_sym : SymmetricState;
  rh_initiator : bool;
  rh_e : option Keypair;
  rh_re : option bytes;
  rh_step : Step;
}.

Module ResumeHandshake.
Section resume.
Context `{Crypto}.
Implicit Types rh : ResumeHandshake.

Definition set_sym rh (sym : SymmetricState) : ResumeHandshake :=
  mkResumeHandshake sym (rh_initiator rh) (rh_e rh) (rh_re rh) (rh_step rh).

Definition on_sym {A} rh (f : SymmetricState -> SymmetricState * Result A)
  : ResumeHandshake * Result A :=
  let '(sym, r) := f (rh_sym rh) in (set_sym rh sym, r).

Definition init (initiator : bool) (psk prologue : bytes) : ResumeHandshake :=
  let sym := mix_hash (SymmetricState.new RESUME_PROTOCOL_NAME) prologue in
  let sym := mix_key_and_hash sym psk in
  mkResumeHandshake sym initiator None None
    (if initiator then AwaitingMessage2 else AwaitingMessage1).

Definition initiator (psk prologue : bytes) : ResumeHandshake := init true psk prologue.
Definition responder (psk prologue : bytes) : ResumeHandshake := init false psk prologue.
Definition is_done rh : bool := bool_decide (rh_step rh = Done).

Definition write_message_1 rh (random : bytes) (payload_len : Z) (out : bytes)
  : ResumeHandshake * Result (bytes * Z) :=
  if negb (rh_initiator rh) || bool_decide (rh_step rh <> AwaitingMessage2) || is_some (rh_e rh)
  then (rh, Err HandshakeStateError) else
  let! (rh, total) := (rh, ok_or (checked_add RESUME_MSG_OVERHEAD payload_len) PayloadTooLarge) in
  if len out <? total then (rh, Err BufferTooSmall) else
  (* -> e *)
  let e := Keypair.generate random in
  let! (rh, out) := (rh, copy_range out 0 DHLEN (kp_public e)) in
  let! (rh, pub) := (rh, slice out 0 DHLEN) in
  let rh := set_sym rh (mix_ephemeral_with_psk (rh_sym rh) pub) in
  (* -> payload *)
  let! (rh, out) :=
    on_sym rh (fun sym => encrypt_range sym out RESUME_PAYLOAD_OFFSET total payload_len) in
  (mkResumeHandshake (rh_sym rh) (rh_initiator rh) (Some e) (rh_re rh) (rh_step rh),
   Ok (out, total)).

Definition read_message_1 rh (msg out : bytes) : ResumeHandshake * Result (bytes * Z) :=
  if rh_initiator rh || bool_decide (rh_step rh <> AwaitingMessage1)
  then (rh, Err HandshakeStateError) else
  if len msg <? RESUME_MSG_OVERHEAD then (rh, Err MessageTooShort) else
  (* <- e *)
  let! (rh, re) := (rh, slice msg 0 DHLEN) in
  let rh := set_sym rh (mix_ephemeral_with_psk (rh_sym rh) re) in
  (* <- payload *)
  let! (rh, ct) := (rh, slice_from msg RESUME_PAYLOAD_OFFSET) in
  let! (rh, r) := on_sym rh (fun sym => decrypt_into sym ct out) in
  (mkResumeHandshake (rh_sym rh) (rh_initiator rh) (rh_e rh) (Some re) AwaitingMessage2, Ok r).

Definition write_message_2 rh (random : bytes) (payload_len : Z) (out : bytes)
  : ResumeHandshake * Result (bytes * Z) :=
  if rh_initiator rh || bool_decide (rh_step rh <> AwaitingMessage2)
  then (rh, Err HandshakeStateError) else
  let! (rh, total) := (rh, ok_or (checked_add RESUME_MSG_OVERHEAD payload_len) PayloadTooLarge) in
  if len out <? total then (rh, Err BufferTooSmall) else
  let! (rh, re) := (rh, ok_or (rh_re rh) HandshakeStateError) in
  (* -> e *)
  let e := Keypair.generate random in
  let! (rh, out) := (rh, copy_range out 0 DHLEN (kp_public e)) in
  let! (rh, pub) := (rh, slice out 0 DHLEN) in
  let rh := set_sym rh (mix_ephemeral_with_psk (rh_sym rh) pub) in
  (* -> ee *)
  let rh := set_sym rh (mix_key (rh_sym rh) (Keypair.dh e re)) in
  (* -> payload *)
  let! (rh, out) :=
    on_sym rh (fun sym => encrypt_range sym out RESUME_PAYLOAD_OFFSET total payload_len) in
  (mkResumeHandshake (rh_sym rh) (rh_initiator rh) (Some e) (rh_re rh) Done, Ok (out, total)).

Definition read_message_2 rh (msg out : bytes) : ResumeHandshake * Result (bytes * Z) :=
  if negb (rh_initiator rh) || bool_decide (rh_step rh <> AwaitingMessage2)
  then (rh, Err HandshakeStateError) else
  if len msg <? RESUME_MSG_OVERHEAD then (rh, Err MessageTooShort) else
  let! (rh, e) := (rh, ok_or (rh_e rh) HandshakeStateError) in
  (* <- e *)
  let! (rh, re) := (rh, slice msg 0 DHLEN) in
  let rh := set_sym rh (mix_ephemeral_with_psk (rh_sym rh) re) in
  (* <- ee *)
  let rh := set_sym rh (mix_key (rh_sym rh) (Keypair.dh e re)) in
  (* <- payload *)
  let! (rh, ct) := (rh, slice_from msg RESUME_PAYLOAD_OFFSET) in
  let! (rh, r) := on_sym rh (fun sym => decrypt_into sym ct out) in
  (mkResumeHandshake (rh_sym rh) (rh_initiator rh) (rh_e rh) (Some re) Done, Ok r).

Definition split rh : Result (CipherState * CipherState) :=
  if bool_decide (rh_step rh <> Done) then Err HandshakeStateError else
  let '(c1, c2) := SymmetricState.split (rh_sym rh) in
  Ok (if rh_initiator rh then (c1, c2) else (c2, c1)).

Definition handshake_hash rh : bytes := SymmetricState.handshake_hash (rh_sym rh).
Definition next_resumption_key rh : bytes := SymmetricState.resumption_key (rh_sym rh).
End resume.
End ResumeHandshake.

(** ** Lemmas *)

(** A static key that performs X25519 with a secret it may keep to itself. *)
Definition backed_by `{Crypto} {S} `{StaticKey S} (k : S) (secret : bytes) : Prop :=
  sk_public k = x25519_public secret /\ forall p, sk_dh k p = Ok (x25519_dh secret p).

Section range_lemmas.
Context `{CL : CryptoLaws}.

Lemma keypair_backed b : backed_by (Keypair.from_secret b) b.
Proof. done. Qed.

(** Encrypting in place a sub-range holding [p] with room for its tag. *)
Lemma encrypt_range_spec sym pre p post rest a b n :
  keyed sym -> len p <= AEAD_MAX -> len post = TAGLEN ->
  a = len pre -> b = len pre + len p + TAGLEN -> n = len p ->
  exists sym' ct tail,
    len ct = len p + TAGLEN /\ len tail = TAGLEN /\
    encrypt_range sym (pre ++ p ++ post ++ rest) a b n = (sym', Ok (pre ++ ct ++ rest)) /\
    decrypt_and_hash sym ct = (sym', Ok (p ++ tail, len p)).
Proof.
  intros Hk Hp Hpost -> -> ->.
  destruct (encrypt_decrypt_and_hash sym p post Hk Hp Hpost)
    as (sym' & ct & Hct & He & (tail & Htail & Hd) & _).
  exists sym', ct, tail. split; [done|]. split; [done|]. split; [|done].
  unfold encrypt_range.
  rewrite (slice_eq _ pre (p ++ post) rest) by (rewrite ?app_assoc; done || len_lia).
  rewrite He. cbn [fst].
  replace (pre ++ p ++ post ++ rest) with (pre ++ (p ++ post) ++ rest) by (by rewrite <- app_assoc).
  by rewrite (copy_range_mid pre (p ++ post) rest ct) by len_lia.
Qed.

Lemma decrypt_into_spec sym sym' ct p tail out :
  decrypt_and_hash sym ct = (sym', Ok (p ++ tail, len p)) ->
  len ct = len p + TAGLEN -> len tail = TAGLEN -> len ct <= len out ->
  decrypt_into sym ct out = (sym', Ok (p ++ tail ++ dropz (len ct) out, len p)).
Proof.
  intros Hd Hct Htail Hout. unfold decrypt_into.
  rewrite (proj2 (Z.ltb_ge _ _)) by lia.
  rewrite copy_range_at by lia.
  rewrite slice_head by done.
  rewrite Hd. cbn [fst snd].
  rewrite copy_range_head by len_lia.
  by rewrite <- app_assoc.
Qed.

(** Splitting a buffer at the fields of a message. *)
Lemma split_buffer (out : bytes) n : 0 <= n <= len out -> out = takez n out ++ dropz n out.
Proof. intros. by rewrite takez_dropz. Qed.
End range_lemmas.

Ltac hs_simpl :=
  unfold Keypair.dh, Keypair.generate, Keypair.from_secret;
  cbn [HandshakeState.set_sym hs_sym hs_role hs_s hs_e hs_rs hs_re hs_step
       ResumeHandshake.set_sym rh_sym rh_initiator rh_e rh_re rh_step
       kp_public kp_secret is_some fst snd negb orb].

Module Agreement.
Import HandshakeState.
Section agreement.
Context `{CL : CryptoLaws} {SI SR : Type} `{StaticKey SI} `{StaticKey SR}.
Context (ki : SI) (kr : SR) (a b : bytes).
Context (Hi : backed_by ki a) (Hr : backed_by kr b).
Context (prologue : bytes).

(** The state both sides share before message 1. *)
Definition sym0 : SymmetricState :=
  mix_hash (mix_hash (SymmetricState.new PROTOCOL_NAME) prologue) (x25519_public b).

Definition hi0 : HandshakeState SI :=
  mkHandshakeState sym0 Initiator ki None (Some (x25519_public b)) None AwaitingMessage2.
Definition hr0 : HandshakeState SR :=
  mkHandshakeState sym0 Responder kr None None None AwaitingMessage1.

Lemma initiator_start : initiator ki (sk_public kr) prologue = Ok hi0.
Proof. destruct Hr as [-> _]. done. Qed.

Lemma responder_start : responder kr prologue = Ok hr0.
Proof. unfold responder, init, hr0, sym0. by destruct Hr as [-> _]. Qed.

(** The symmetric state after the key [es], and after [ss]. *)
Definition sym_es (r1 : bytes) : SymmetricState :=
  mix_key (mix_hash sym0 (x25519_public r1)) (x25519_dh r1 (x25519_public b)).
Definition sym_ss (s : SymmetricState) : SymmetricState := mix_key s (x25519_dh a (x25519_public b)).

(** [ct_s] and [ct] carry the static key and [p1] from the state after [es] to [sym1]. *)
Definition message_1_carries (r1 p1 ct_s ct tail : bytes) (sym1 : SymmetricState) : Prop :=
  exists s2 tail_s,
    len ct_s = DHLEN + TAGLEN /\ len ct = len p1 + TAGLEN /\ len tail = TAGLEN /\ len tail_s = TAGLEN /\
    decrypt_and_hash (sym_es r1) ct_s = (s2, Ok (x25519_public a ++ tail_s, DHLEN)) /\
    decrypt_and_hash (sym_ss s2) ct = (sym1, Ok (p1 ++ tail, len p1)).

Lemma message_1_written r1 p1 f1 t1 rest1 :
  len f1 = MSG1_PAYLOAD_OFFSET -> len t1 = TAGLEN -> len p1 <= AEAD_MAX ->
  exists sym1 ct_s ct tail,
    write_message_1_in_place hi0 r1 (len p1) (f1 ++ p1 ++ t1 ++ rest1) =
      (mkHandshakeState sym1 Initiator ki (Some (Keypair.generate r1)) (Some (x25519_public b)) None
         AwaitingMessage2, Ok (x25519_public r1 ++ ct_s ++ ct ++ rest1, MSG1_OVERHEAD + len p1)) /\
    message_1_carries r1 p1 ct_s ct tail sym1.
Proof.
  intros Hf1 Hlt1 Hp. destruct Hi as [Hia Hid].
  pose proof (len_nonneg p1) as Hp0. pose proof (len_nonneg rest1).
  set (e := x25519_public r1). assert (len e = DHLEN) as He by apply x25519_public_len.
  set (pa := x25519_public a). assert (len pa = DHLEN) as Hpa by apply x25519_public_len.
  destruct (split_at DHLEN f1) as (f2 & f3 & -> & Hf2); [clia|].
  destruct (split_at DHLEN f3) as (f4 & f5 & -> & Hf4); [len_lia|].
  unfold write_message_1_in_place. unfold hi0. hs_simpl.
  rewrite !bool_decide_eq_false_2 by (intros X; by apply X). cbn [orb].
  unfold checked_add. rewrite (proj2 (Z.leb_le _ _)) by clia. cbn [ok_or].
  rewrite (proj2 (Z.ltb_ge _ _)) by len_lia.
  hs_simpl. fold e.
  rewrite <- !app_assoc. rewrite copy_range_head by lia.
  rewrite slice_head by lia.
  hs_simpl. fold e. change (mix_key (mix_hash sym0 e) (x25519_dh r1 (x25519_public b))) with (sym_es r1).
  rewrite Hia. fold pa.
  rewrite (copy_range_mid e f4 _ pa) by (rewrite ?He, ?Hpa; len_lia).
  destruct (encrypt_range_spec (sym_es r1) e pa f5 (p1 ++ t1 ++ rest1) DHLEN MSG1_PAYLOAD_OFFSET DHLEN)
    as (s2 & ct_s & tail_s & Hcts & Htails & Henc & Hdec).
  { apply mix_key_keyed. } { clia. } { len_lia. } { done. } { clia. } { lia. }
  unfold on_sym at 1. hs_simpl. rewrite Henc. hs_simpl. rewrite Hid. fold (sym_ss s2).
  destruct (encrypt_range_spec (sym_ss s2) (e ++ ct_s) p1 t1 rest1 MSG1_PAYLOAD_OFFSET
              (MSG1_OVERHEAD + len p1) (len p1))
    as (s4 & ct & tail & Hct & Htail & Henc2 & Hdec2).
  { apply mix_key_keyed. } { done. } { done. } { len_lia. } { len_lia. } { done. }
  rewrite <- app_assoc in Henc2. unfold on_sym. hs_simpl. rewrite Henc2.
  exists s4, ct_s, ct, tail. split; [by rewrite <- !app_assoc|].
  exists s2, tail_s. rewrite Hpa in Hcts, Hdec. done.
Qed.

Lemma message_1_read r1 p1 ct_s ct tail sym1 buf1 :
  message_1_carries r1 p1 ct_s ct tail sym1 -> len p1 + TAGLEN <= len buf1 ->
  read_message_1 hr0 (x25519_public r1 ++ ct_s ++ ct) buf1 =
    (mkHandshakeState sym1 Responder kr None (Some (x25519_public a)) (Some (x25519_public r1))
       AwaitingMessage2, Ok (p1 ++ tail ++ dropz (len ct) buf1, len p1)).
Proof.
  intros (s2 & tail_s & Hcts & Hct & Htail & Htails & Hdec & Hdec2) Hbuf. destruct Hr as [Hrb Hrd].
  pose proof (len_nonneg p1) as Hp0.
  set (e := x25519_public r1). assert (len e = DHLEN) as He by apply x25519_public_len.
  set (pa := x25519_public a). assert (len pa = DHLEN) as Hpa by apply x25519_public_len.
  unfold read_message_1, hr0. hs_simpl.
  rewrite !bool_decide_eq_false_2 by (intros X; by apply X). cbn [orb].
  rewrite (proj2 (Z.ltb_ge _ _)) by len_lia.
  rewrite slice_head by lia.
  hs_simpl.
  rewrite Hrd. replace (x25519_dh b e) with (x25519_dh r1 (x25519_public b))
    by (unfold e; apply x25519_agree).
  change (mix_key (mix_hash sym0 e) (x25519_dh r1 (x25519_public b))) with (sym_es r1).
  rewrite (slice_eq _ e ct_s ct) by (done || len_lia).
  unfold on_sym at 1. hs_simpl. rewrite Hdec. cbn [fst snd]. fold pa.
  cbn [Z.eqb negb]. change (DHLEN =? DHLEN) with true. cbn [negb].
  rewrite slice_head by lia.
  hs_simpl. rewrite Hrd.
  replace (x25519_dh b pa) with (x25519_dh a (x25519_public b))
    by (unfold pa; apply x25519_agree). fold (sym_ss s2).
  rewrite app_assoc, slice_from_mid by len_lia.
  unfold on_sym. hs_simpl. rewrite (decrypt_into_spec (sym_ss s2) sym1 ct p1 tail buf1) by (done || lia).
  done.
Qed.

(** Message 1, its payload staged in the buffer: written by the initiator,
    read by the responder, both then in the same symmetric state. *)
Lemma message_1_staged r1 p1 f1 t1 rest1 buf1 :
  len f1 = MSG1_PAYLOAD_OFFSET -> len t1 = TAGLEN ->
  len p1 <= AEAD_MAX -> len p1 + TAGLEN <= len buf1 ->
  exists sym1 msg1 tail,
    write_message_1_in_place hi0 r1 (len p1) (f1 ++ p1 ++ t1 ++ rest1) =
      (mkHandshakeState sym1 Initiator ki (Some (Keypair.generate r1)) (Some (x25519_public b)) None
         AwaitingMessage2, Ok (msg1 ++ rest1, MSG1_OVERHEAD + len p1)) /\
    len msg1 = MSG1_OVERHEAD + len p1 /\
    read_message_1 hr0 msg1 buf1 =
      (mkHandshakeState sym1 Responder kr None (Some (x25519_public a)) (Some (x25519_public r1))
         AwaitingMessage2, Ok (p1 ++ tail, len p1)).
Proof.
  intros Hf1 Hlt1 Hp Hbuf.
  destruct (message_1_written r1 p1 f1 t1 rest1 Hf1 Hlt1 Hp) as (sym1 & ct_s & ct & tail & Hw & Hm).
  exists sym1, (x25519_public r1 ++ ct_s ++ ct), (tail ++ dropz (len ct) buf1).
  split; [by rewrite <- !app_assoc|]. split; [|by apply message_1_read].
  destruct Hm as (s2 & tail_s & Hcts & Hct & _). pose proof (x25519_public_len r1). len_lia.
Qed.

(** [write_message_1] copies the payload into place first. *)
Lemma message_1 r1 p1 out1 buf1 :
  len p1 <= AEAD_MAX -> MSG1_OVERHEAD + len p1 <= len out1 -> len p1 + TAGLEN <= len buf1 ->
  exists sym1 msg1 rest1 tail,
    write_message_1 hi0 r1 p1 out1 =
      (mkHandshakeState sym1 Initiator ki (Some (Keypair.generate r1)) (Some (x25519_public b)) None
         AwaitingMessage2, Ok (msg1 ++ rest1, MSG1_OVERHEAD + len p1)) /\
    len msg1 = MSG1_OVERHEAD + len p1 /\
    read_message_1 hr0 msg1 buf1 =
      (mkHandshakeState sym1 Responder kr None (Some (x25519_public a)) (Some (x25519_public r1))
         AwaitingMessage2, Ok (p1 ++ tail, len p1)).
Proof.
  intros Hp Hout Hbuf. pose proof (len_nonneg p1) as Hp0.
  unfold write_message_1, checked_add. rewrite (proj2 (Z.leb_le _ _)) by clia. cbn [ok_or].
  rewrite (proj2 (Z.ltb_ge _ _)) by clia.
  destruct (split_at MSG1_PAYLOAD_OFFSET out1) as (f1 & o1 & -> & Hf1); [clia|].
  rewrite len_app in Hout. rewrite copy_range_next by (rewrite ?Hf1; lia || clia).
  destruct (split_at TAGLEN (dropz (len p1) o1)) as (t1 & rest1 & Ht1 & Hlt1); [len_lia|].
  rewrite Ht1, <- app_assoc.
  destruct (message_1_staged r1 p1 f1 t1 rest1 buf1) as (sym1 & msg1 & tail & Hw & Hl & Hrd);
    [done..|]. by exists sym1, msg1, rest1, tail.
Qed.

(** Message 2: written by the responder, read by the initiator, from the
    states message 1 leaves. *)
Lemma message_2_staged sym1 r1 r2 p2 f1 t1 rest2 buf2 :
  len f1 = MSG2_PAYLOAD_OFFSET -> len t1 = TAGLEN ->
  len p2 <= AEAD_MAX -> len p2 + TAGLEN <= len buf2 ->
  exists sym2 msg2 tail,
    write_message_2_in_place
      (mkHandshakeState sym1 Responder kr None (Some (x25519_public a)) (Some (x25519_public r1))
         AwaitingMessage2) r2 (len p2) (f1 ++ p2 ++ t1 ++ rest2) =
      (mkHandshakeState sym2 Responder kr (Some (Keypair.generate r2)) (Some (x25519_public a))
         (Some (x25519_public r1)) Done, Ok (msg2 ++ rest2, MSG2_OVERHEAD + len p2)) /\
    len msg2 = MSG2_OVERHEAD + len p2 /\
    read_message_2
      (mkHandshakeState sym1 Initiator ki (Some (Keypair.generate r1)) (Some (x25519_public b)) None
         AwaitingMessage2) msg2 buf2 =
      (mkHandshakeState sym2 Initiator ki (Some (Keypair.generate r1)) (Some (x25519_public b))
         (Some (x25519_public r2)) Done, Ok (p2 ++ tail, len p2)).
Proof.
  intros Hf1 Hlt1 Hp Hbuf. destruct Hi as [Hia Hid]. pose proof (len_nonneg rest2).
  pose proof (len_nonneg p2) as Hp0.
  set (e := x25519_public r2). assert (len e = DHLEN) as He by apply x25519_public_len.
  set (s1 := mix_key (mix_key (mix_hash sym1 e) (x25519_dh r2 (x25519_public r1)))
               (x25519_dh r2 (x25519_public a))).
  unfold write_message_2_in_place. hs_simpl.
  rewrite !bool_decide_eq_false_2 by (intros X; by apply X). cbn [orb].
  unfold checked_add. rewrite (proj2 (Z.leb_le _ _)) by clia. cbn [ok_or].
  rewrite (proj2 (Z.ltb_ge _ _)) by len_lia. hs_simpl. fold e.
  rewrite copy_range_head by clia. rewrite slice_head by lia.
  hs_simpl. fold s1.
  destruct (encrypt_range_spec s1 e p2 t1 rest2 MSG2_PAYLOAD_OFFSET (MSG2_OVERHEAD + len p2) (len p2))
    as (s2 & ct & tail & Hct & Htail & Henc & Hdec).
  { apply mix_key_keyed. } { done. } { done. } { clia. } { clia. } { done. }
  unfold on_sym at 1. hs_simpl. rewrite Henc.
  exists s2, (e ++ ct), (tail ++ dropz (len ct) buf2).
  split; [by rewrite <- !app_assoc|]. split; [len_lia|].
  unfold read_message_2. hs_simpl.
  rewrite !bool_decide_eq_false_2 by (intros X; by apply X). cbn [orb].
  rewrite (proj2 (Z.ltb_ge _ _)) by len_lia. cbn [ok_or].
  rewrite slice_head by lia. hs_simpl. rewrite Hid.
  rewrite slice_from_mid by lia.
  replace (x25519_dh r1 e) with (x25519_dh r2 (x25519_public r1)) by (unfold e; apply x25519_agree).
  replace (x25519_dh a e) with (x25519_dh r2 (x25519_public a)) by (unfold e; apply x25519_agree).
  fold s1. unfold on_sym. hs_simpl.
  by rewrite (decrypt_into_spec s1 s2 ct p2 tail buf2) by (done || lia).
Qed.

Lemma message_2 sym1 r1 r2 p2 out2 buf2 :
  len p2 <= AEAD_MAX -> MSG2_OVERHEAD + len p2 <= len out2 -> len p2 + TAGLEN <= len buf2 ->
  exists sym2 msg2 rest2 tail,
    write_message_2
      (mkHandshakeState sym1 Responder kr None (Some (x25519_public a)) (Some (x25519_public r1))
         AwaitingMessage2) r2 p2 out2 =
      (mkHandshakeState sym2 Responder kr (Some (Keypair.generate r2)) (Some (x25519_public a))
         (Some (x25519_public r1)) Done, Ok (msg2 ++ rest2, MSG2_OVERHEAD + len p2)) /\
    len msg2 = MSG2_OVERHEAD + len p2 /\
    read_message_2
      (mkHandshakeState sym1 Initiator ki (Some (Keypair.generate r1)) (Some (x25519_public b)) None
         AwaitingMessage2) msg2 buf2 =
      (mkHandshakeState sym2 Initiator ki (Some (Keypair.generate r1)) (Some (x25519_public b))
         (Some (x25519_public r2)) Done, Ok (p2 ++ tail, len p2)).
Proof.
  intros Hp Hout Hbuf. pose proof (len_nonneg p2) as Hp0.
  unfold write_message_2, checked_add. rewrite (proj2 (Z.leb_le _ _)) by clia. cbn [ok_or].
  rewrite (proj2 (Z.ltb_ge _ _)) by clia.
  destruct (split_at MSG2_PAYLOAD_OFFSET out2) as (f1 & o1 & -> & Hf1); [clia|].
  rewrite len_app in Hout. rewrite copy_range_next by (rewrite ?Hf1; lia || clia).
  destruct (split_at TAGLEN (dropz (len p2) o1)) as (t1 & rest2 & Ht1 & Hlt1); [len_lia|].
  rewrite Ht1, <- app_assoc.
  destruct (message_2_staged sym1 r1 r2 p2 f1 t1 rest2 buf2) as (sym2 & msg2 & tail & Hw & Hl & Hrd);
    [done..|]. by exists sym2, msg2, rest2, tail.
Qed.
End agreement.
End Agreement.

Module ResumeAgreement.
Import ResumeHandshake.
Section agreement.
Context `{CL : CryptoLaws}.

Lemma resume_message_1 sym r1 p1 pre post rest buf1 :
  len pre = RESUME_PAYLOAD_OFFSET -> len post = TAGLEN ->
  len p1 <= AEAD_MAX -> len p1 + TAGLEN <= len buf1 ->
  exists sym1 msg1 tail,
    write_message_1 (mkResumeHandshake sym true None None AwaitingMessage2) r1 (len p1)
      (pre ++ p1 ++ post ++ rest) =
      (mkResumeHandshake sym1 true (Some (Keypair.generate r1)) None AwaitingMessage2,
       Ok (msg1 ++ rest, RESUME_MSG_OVERHEAD + len p1)) /\
    len msg1 = RESUME_MSG_OVERHEAD + len p1 /\
    read_message_1 (mkResumeHandshake sym false None None AwaitingMessage1) msg1 buf1 =
      (mkResumeHandshake sym1 false None (Some (x25519_public r1)) AwaitingMessage2,
       Ok (p1 ++ tail, len p1)).
Proof.
  intros Hpre Hpost Hp Hbuf. pose proof (len_nonneg p1) as Hp0.
  set (e := x25519_public r1). assert (len e = DHLEN) as He by apply x25519_public_len.
  set (s1 := mix_ephemeral_with_psk sym e).
  unfold write_message_1. hs_simpl. rewrite bool_decide_eq_false_2 by (intros X; by apply X).
  cbn [orb]. unfold checked_add. rewrite (proj2 (Z.leb_le _ _)) by clia. cbn [ok_or].
  rewrite (proj2 (Z.ltb_ge _ _)) by (pose proof (len_nonneg rest); len_lia). hs_simpl. fold e.
  rewrite copy_range_head by clia. rewrite slice_head by lia. hs_simpl. fold s1.
  destruct (encrypt_range_spec s1 e p1 post rest RESUME_PAYLOAD_OFFSET (RESUME_MSG_OVERHEAD + len p1)
              (len p1)) as (s2 & ct & tail & Hct & Htail & Henc & Hdec).
  { apply mix_key_keyed. } { done. } { done. } { clia. } { clia. } { done. }
  unfold on_sym at 1. hs_simpl. rewrite Henc.
  exists s2, (e ++ ct), (tail ++ dropz (len ct) buf1).
  split; [by rewrite <- !app_assoc|]. split; [len_lia|].
  unfold read_message_1. hs_simpl.
  rewrite bool_decide_eq_false_2 by (intros X; by apply X). cbn [orb].
  rewrite (proj2 (Z.ltb_ge _ _)) by len_lia.
  rewrite slice_head by lia. rewrite slice_from_mid by clia. hs_simpl.
  fold s1. unfold on_sym. hs_simpl.
  by rewrite (decrypt_into_spec s1 s2 ct p1 tail buf1) by (done || lia).
Qed.

Lemma resume_message_2 sym1 r1 r2 p2 pre post rest buf2 :
  len pre = RESUME_PAYLOAD_OFFSET -> len post = TAGLEN ->
  len p2 <= AEAD_MAX -> len p2 + TAGLEN <= len buf2 ->
  exists sym2 msg2 tail,
    write_message_2 (mkResumeHandshake sym1 false None (Some (x25519_public r1)) AwaitingMessage2)
      r2 (len p2) (pre ++ p2 ++ post ++ rest) =
      (mkResumeHandshake sym2 false (Some (Keypair.generate r2)) (Some (x25519_public r1)) Done,
       Ok (msg2 ++ rest, RESUME_MSG_OVERHEAD + len p2)) /\
    len msg2 = RESUME_MSG_OVERHEAD + len p2 /\
    read_message_2 (mkResumeHandshake sym1 true (Some (Keypair.generate r1)) None AwaitingMessage2)
      msg2 buf2 =
      (mkResumeHandshake sym2 true (Some (Keypair.generate r1)) (Some (x25519_public r2)) Done,
       Ok (p2 ++ tail, len p2)).
Proof.
  intros Hpre Hpost Hp Hbuf. pose proof (len_nonneg p2) as Hp0.
  set (e := x25519_public r2). assert (len e = DHLEN) as He by apply x25519_public_len.
  set (s1 := mix_key (mix_ephemeral_with_psk sym1 e) (x25519_dh r2 (x25519_public r1))).
  unfold write_message_2. hs_simpl. rewrite bool_decide_eq_false_2 by (intros X; by apply X).
  cbn [orb]. unfold checked_add. rewrite (proj2 (Z.leb_le _ _)) by clia. cbn [ok_or].
  rewrite (proj2 (Z.ltb_ge _ _)) by (pose proof (len_nonneg rest); len_lia). hs_simpl. fold e.
  rewrite copy_range_head by clia. rewrite slice_head by lia. hs_simpl. fold s1.
  destruct (encrypt_range_spec s1 e p2 post rest RESUME_PAYLOAD_OFFSET (RESUME_MSG_OVERHEAD + len p2)
              (len p2)) as (s2 & ct & tail & Hct & Htail & Henc & Hdec).
  { apply mix_key_keyed. } { done. } { done. } { clia. } { clia. } { done. }
  unfold on_sym at 1. hs_simpl. rewrite Henc.
  exists s2, (e ++ ct), (tail ++ dropz (len ct) buf2).
  split; [by rewrite <- !app_assoc|]. split; [len_lia|].
  unfold read_message_2. hs_simpl.
  rewrite bool_decide_eq_false_2 by (intros X; by apply X). cbn [orb].
  rewrite (proj2 (Z.ltb_ge _ _)) by len_lia. cbn [ok_or].
  rewrite slice_head by lia. rewrite slice_from_mid by clia. hs_simpl.
  replace (x25519_dh r1 e) with (x25519_dh r2 (x25519_public r1)) by (unfold e; apply x25519_agree).
  fold s1. unfold on_sym. hs_simpl.
  by rewrite (decrypt_into_spec s1 s2 ct p2 tail buf2) by (done || lia).
Qed.
End agreement.
End ResumeAgreement.

(** ** Reading an arbitrary message *)
Section safety.
Context `{CL : CryptoLaws}.

Lemma decrypt_and_hash_safe sym buf :
  (decrypt_and_hash sym buf).2 <> Panic /\
  forall b n, (decrypt_and_hash sym buf).2 = Ok (b, n) -> len b = len buf /\ 0 <= n <= len buf.
Proof.
  unfold decrypt_and_hash, CipherState.decrypt_with_ad.
  destruct (cs_key (ss_cipher sym)) as [k|]; cbn.
  - destruct (_ =? _); cbn; [done|].
    destruct (decrypt_at_safe (ss_cipher sym) (ss_transcript sym) (cs_nonce (ss_cipher sym)) buf)
      as [Hp Hok].
    destruct CipherState.decrypt_at as [[b n]|e|]; cbn; [|done..].
    split; [done|]. intros b' n' Heq. injection Heq as <- <-.
    destruct (Hok b n eq_refl) as (? & ? & ?). clia.
  - split; [done|]. intros b n Heq. injection Heq as <- <-. pose proof (len_nonneg buf). lia.
Qed.

Lemma decrypt_into_safe sym ct out :
  (decrypt_into sym ct out).2 <> Panic /\
  forall b n, (decrypt_into sym ct out).2 = Ok (b, n) -> len b = len out /\ 0 <= n <= len ct.
Proof.
  unfold decrypt_into. zcase; [done|]. pose proof (len_nonneg ct).
  rewrite copy_range_at by lia. rewrite slice_head by done.
  destruct (decrypt_and_hash_safe sym ct) as [Hp Hok].
  destruct decrypt_and_hash as [sym' [[b n]|e|]]; cbn in *; [|done..].
  destruct (Hok b n eq_refl) as [Hb Hn]. rewrite copy_range_head by lia. cbn.
  split; [done|]. intros b' n' Heq. injection Heq as <- <-. split; [len_lia|done].
Qed.
End safety.

(** A read that ended in a value or in an error that believed nothing. *)
Definition read_ok {S} (hs : HandshakeState S) (r : HandshakeState S * Result (bytes * Z)) : Prop :=
  r.2 <> Panic /\
  forall e, r.2 = Err e -> hs_step r.1 = hs_step hs /\ hs_rs r.1 = hs_rs hs /\ hs_re r.1 = hs_re hs.

Section reads.
Context `{CL : CryptoLaws} {S : Type} `{StaticKey S}.

Lemma read_ok_err (hs hs' : HandshakeState S) e :
  hs_step hs' = hs_step hs -> hs_rs hs' = hs_rs hs -> hs_re hs' = hs_re hs ->
  read_ok hs (hs', Err e).
Proof. intros. split; [done|]. intros e' _. auto. Qed.

(** The last step of every reader. *)
Lemma read_ok_payload (hs hs' : HandshakeState S) k ct out :
  hs_step hs' = hs_step hs -> hs_rs hs' = hs_rs hs -> hs_re hs' = hs_re hs ->
  read_ok hs
    (let! (hs, r) := HandshakeState.on_sym hs' (fun sym => decrypt_into sym ct out) in
     (k hs, Ok r)).
Proof.
  intros H1 H2 H3. unfold HandshakeState.on_sym.
  destruct (decrypt_into_safe (hs_sym hs') ct out) as [Hp _].
  destruct (decrypt_into (hs_sym hs') ct out) as [s2 [r|er|]]; [|by apply read_ok_err|done].
  split; [done|]. intros e He. discriminate.
Qed.

Ltac read_dh Hdh :=
  match goal with |- context [sk_dh ?k ?p] =>
    specialize (Hdh p); destruct (sk_dh k p); [|by apply read_ok_err|done] end; hs_simpl.

Lemma read_1_safe (hs : HandshakeState S) msg out :
  (forall p, sk_dh (hs_s hs) p <> Panic) -> read_ok hs (HandshakeState.read_message_1 hs msg out).
Proof.
  intros Hdh. unfold HandshakeState.read_message_1. destruct (_ || _); [by apply read_ok_err|].
  zcase; [by apply read_ok_err|]. rewrite slice_ok by clia. hs_simpl.
  pose proof Hdh as Hdh2. read_dh Hdh. rewrite slice_ok by clia.
  unfold HandshakeState.on_sym at 1. hs_simpl.
  match goal with |- context [decrypt_and_hash ?s ?b] =>
    destruct (decrypt_and_hash_safe s b) as [Hp Hok];
    destruct (decrypt_and_hash s b) as [s' [[b' n']|er|]] end; [|by apply read_ok_err|done].
  destruct (Hok b' n' eq_refl) as [Hl _]. hs_simpl.
  destruct (n' =? DHLEN); cbn [negb]; [|by apply read_ok_err].
  rewrite slice_ok by (rewrite ?Hl; len_lia). hs_simpl. read_dh Hdh2.
  unfold slice_from. rewrite slice_ok by clia. by apply (read_ok_payload hs).
Qed.

Lemma read_2_safe (hs : HandshakeState S) msg out :
  (forall p, sk_dh (hs_s hs) p <> Panic) -> read_ok hs (HandshakeState.read_message_2 hs msg out).
Proof.
  intros Hdh. unfold HandshakeState.read_message_2. destruct (_ || _); [by apply read_ok_err|].
  zcase; [by apply read_ok_err|]. destruct (hs_e hs) as [e|]; cbn [ok_or]; [|by apply read_ok_err].
  rewrite slice_ok by clia. hs_simpl. read_dh Hdh.
  unfold slice_from. rewrite slice_ok by clia. by apply (read_ok_payload hs).
Qed.
End reads.

(** ** Properties *)
#[local] Existing Instances Toy.crypto Toy.laws.

(** an IK handshake between honest peers agrees. Whatever implements the
    static keys (memory or hardware), whatever the prologue, payloads and
    random bytes, the responder reads the initiator's first payload and learns
    its static key, the initiator reads the responder's payload, and both then
    hold the same two transport ciphers crossed over, the same resumption key
    and the same transcript hash. *)
Theorem ik_agreement `{CL : CryptoLaws} {SI SR} `{StaticKey SI} `{StaticKey SR}
    (ki : SI) (kr : SR) a b prologue r1 r2 p1 p2 out1 out2 buf1 buf2 :
  backed_by ki a -> backed_by kr b ->
  len p1 <= AEAD_MAX -> MSG1_OVERHEAD + len p1 <= len out1 -> len p1 + TAGLEN <= len buf1 ->
  len p2 <= AEAD_MAX -> MSG2_OVERHEAD + len p2 <= len out2 -> len p2 + TAGLEN <= len buf2 ->
  exists hi0 hr0 hi1 hr1 hi2 hr2 m1 m2 n1 n2 b1 b2 c1 c2,
    HandshakeState.initiator ki (sk_public kr) prologue = Ok hi0 /\
    HandshakeState.responder kr prologue = Ok hr0 /\
    HandshakeState.write_message_1 hi0 r1 p1 out1 = (hi1, Ok (m1, n1)) /\
    HandshakeState.read_message_1 hr0 (takez n1 m1) buf1 = (hr1, Ok (b1, len p1)) /\
    takez (len p1) b1 = p1 /\ HandshakeState.remote_static hr1 = Some (sk_public ki) /\
    HandshakeState.write_message_2 hr1 r2 p2 out2 = (hr2, Ok (m2, n2)) /\
    HandshakeState.read_message_2 hi1 (takez n2 m2) buf2 = (hi2, Ok (b2, len p2)) /\
    takez (len p2) b2 = p2 /\
    HandshakeState.split hi2 = Ok (c1, c2) /\ HandshakeState.split hr2 = Ok (c2, c1) /\
    HandshakeState.resumption_key hi2 = HandshakeState.resumption_key hr2 /\
    HandshakeState.handshake_hash hi2 = HandshakeState.handshake_hash hr2.
Proof.
  intros Hi Hr Hp1 Ho1 Hb1 Hp2 Ho2 Hb2.
  destruct (Agreement.message_1 ki kr a b Hi Hr prologue r1 p1 out1 buf1 Hp1 Ho1 Hb1)
    as (sym1 & msg1 & rest1 & tail1 & Hw1 & Hl1 & Hr1).
  destruct (Agreement.message_2 ki kr a b Hi sym1 r1 r2 p2 out2 buf2 Hp2 Ho2 Hb2)
    as (sym2 & msg2 & rest2 & tail2 & Hw2 & Hl2 & Hr2).
  destruct (SymmetricState.split sym2) as [c1 c2] eqn:Hs.
  do 6 eexists. exists (msg1 ++ rest1), (msg2 ++ rest2), (MSG1_OVERHEAD + len p1),
    (MSG2_OVERHEAD + len p2), (p1 ++ tail1), (p2 ++ tail2), c1, c2.
  rewrite !takez_app by done.
  split; [by apply (Agreement.initiator_start ki kr b Hr)|].
  split; [by apply (Agreement.responder_start kr b Hr)|].
  split; [exact Hw1|]. split; [exact Hr1|]. split; [done|].
  split; [by destruct Hi as [-> _]|].
  split; [exact Hw2|]. split; [exact Hr2|]. split; [done|].
  unfold HandshakeState.split. hs_simpl.
  rewrite !bool_decide_eq_false_2 by (intros X; by apply X). by rewrite Hs.
Qed.

(** A run of the whole exchange on concrete keys and payloads. *)
Lemma ik_agreement_witness :
  exists (hi2 hr2 : HandshakeState Keypair) c1 c2,
    HandshakeState.split hi2 = Ok (c1, c2) /\ HandshakeState.split hr2 = Ok (c2, c1).
Proof.
  destruct (ik_agreement (Keypair.from_secret [1; 2; 3]) (Keypair.from_secret [9; 8])
    [1; 2; 3] [9; 8] [5] [11] [12] [104; 105] [111; 107]
    (zeros 200) (zeros 200) (zeros 200) (zeros 200)
    (keypair_backed _) (keypair_backed _))
    as (hi0 & hr0 & hi1 & hr1 & hi2 & hr2 & m1 & m2 & n1 & n2 & b1 & b2 & c1 & c2 & Hall).
  1-6: vm_compute; discriminate.
  exists hi2, hr2, c1, c2. tauto.
Defined.

(** a resumption (NNpsk0) between peers holding the same pre-shared key
    agrees: both payloads are read as written, and both sides end with the
    same transport ciphers crossed over, the same next resumption key and the
    same transcript hash. *)
Theorem resume_agreement `{CL : CryptoLaws}
    psk prologue r1 r2 p1 p2 pre1 post1 rest1 pre2 post2 rest2 buf1 buf2 :
  len pre1 = RESUME_PAYLOAD_OFFSET -> len post1 = TAGLEN -> len p1 <= AEAD_MAX ->
  len pre2 = RESUME_PAYLOAD_OFFSET -> len post2 = TAGLEN -> len p2 <= AEAD_MAX ->
  len p1 + TAGLEN <= len buf1 -> len p2 + TAGLEN <= len buf2 ->
  exists i1 r1' i2 r2' m1 m2 n1 n2 b1 b2 c1 c2,
    ResumeHandshake.write_message_1 (ResumeHandshake.initiator psk prologue) r1 (len p1)
      (pre1 ++ p1 ++ post1 ++ rest1) = (i1, Ok (m1, n1)) /\
    ResumeHandshake.read_message_1 (ResumeHandshake.responder psk prologue) (takez n1 m1) buf1
      = (r1', Ok (b1, len p1)) /\ takez (len p1) b1 = p1 /\
    ResumeHandshake.write_message_2 r1' r2 (len p2) (pre2 ++ p2 ++ post2 ++ rest2)
      = (r2', Ok (m2, n2)) /\
    ResumeHandshake.read_message_2 i1 (takez n2 m2) buf2 = (i2, Ok (b2, len p2)) /\
    takez (len p2) b2 = p2 /\
    ResumeHandshake.split i2 = Ok (c1, c2) /\ ResumeHandshake.split r2' = Ok (c2, c1) /\
    ResumeHandshake.next_resumption_key i2 = ResumeHandshake.next_resumption_key r2' /\
    ResumeHandshake.handshake_hash i2 = ResumeHandshake.handshake_hash r2'.
Proof.
  intros Hpre1 Hpost1 Hp1 Hpre2 Hpost2 Hp2 Hb1 Hb2.
  destruct (ResumeAgreement.resume_message_1
    (mix_key_and_hash (mix_hash (SymmetricState.new RESUME_PROTOCOL_NAME) prologue) psk)
    r1 p1 pre1 post1 rest1 buf1 Hpre1 Hpost1 Hp1 Hb1) as (sym1 & msg1 & tail1 & Hw1 & Hl1 & Hr1).
  destruct (ResumeAgreement.resume_message_2 sym1 r1 r2 p2 pre2 post2 rest2 buf2 Hpre2 Hpost2 Hp2 Hb2)
    as (sym2 & msg2 & tail2 & Hw2 & Hl2 & Hr2).
  destruct (SymmetricState.split sym2) as [c1 c2] eqn:Hs.
  do 4 eexists. exists (msg1 ++ rest1), (msg2 ++ rest2), (RESUME_MSG_OVERHEAD + len p1),
    (RESUME_MSG_OVERHEAD + len p2), (p1 ++ tail1), (p2 ++ tail2), c1, c2.
  rewrite !takez_app by done.
  split; [exact Hw1|]. split; [exact Hr1|]. split; [done|].
  split; [exact Hw2|]. split; [exact Hr2|]. split; [done|].
  unfold ResumeHandshake.split. hs_simpl.
  rewrite !bool_decide_eq_false_2 by (intros X; by apply X). by rewrite Hs.
Qed.

Lemma resume_agreement_witness :
  exists i2 r2 c1 c2,
    ResumeHandshake.split i2 = Ok (c1, c2) /\ ResumeHandshake.split r2 = Ok (c2, c1).
Proof.
  destruct (resume_agreement (zeros 32) [5] [11] [12] [104] [105; 106]
    (zeros 32) (zeros 16) [] (zeros 32) (zeros 16) [] (zeros 64) (zeros 64))
    as (i1 & r1 & i2 & r2 & m1 & m2 & n1 & n2 & b1 & b2 & c1 & c2 & Hall).
  1-8: vm_compute; congruence.
  exists i2, r2, c1, c2. tauto.
Defined.

(** a handshake call out of its turn is refused and changes nothing:
    writing or reading a message in the wrong role or step, repeating message
    1, and splitting before the end. *)
Theorem handshake_order `{Crypto} {S} `{StaticKey S} (hs : HandshakeState S) rnd buf msg n :
  (~ (hs_role hs = Initiator /\ hs_step hs = AwaitingMessage2 /\ hs_e hs = None) ->
   HandshakeState.write_message_1_in_place hs rnd n buf = (hs, Err HandshakeStateError)) /\
  (~ (hs_role hs = Responder /\ hs_step hs = AwaitingMessage1) ->
   HandshakeState.read_message_1 hs msg buf = (hs, Err HandshakeStateError)) /\
  (~ (hs_role hs = Responder /\ hs_step hs = AwaitingMessage2) ->
   HandshakeState.write_message_2_in_place hs rnd n buf = (hs, Err HandshakeStateError)) /\
  (~ (hs_role hs = Initiator /\ hs_step hs = AwaitingMessage2) ->
   HandshakeState.read_message_2 hs msg buf = (hs, Err HandshakeStateError)) /\
  (hs_step hs <> Done -> HandshakeState.split hs = Err HandshakeStateError).
Proof.
  unfold HandshakeState.write_message_1_in_place, HandshakeState.read_message_1,
    HandshakeState.write_message_2_in_place, HandshakeState.read_message_2, HandshakeState.split.
  destruct (hs_role hs), (hs_step hs), (hs_e hs); repeat split; intros Hn; try done;
    exfalso; apply Hn; done.
Qed.

(** reading a handshake message is safe on every input: whatever bytes
    arrive and whatever the static key answers, the call returns a value or an
    error and never panics; an error leaves the peer's key, the ephemeral and
    the step as they were, so nothing is believed of a message that did not
    authenticate. *)
Theorem handshake_reads_safe `{CL : CryptoLaws} {S} `{StaticKey S} (hs : HandshakeState S) msg out :
  (forall p, sk_dh (hs_s hs) p <> Panic) ->
  let r1 := HandshakeState.read_message_1 hs msg out in
  let r2 := HandshakeState.read_message_2 hs msg out in
  r1.2 <> Panic /\ r2.2 <> Panic /\
  (forall e, r1.2 = Err e -> hs_step r1.1 = hs_step hs /\ hs_rs r1.1 = hs_rs hs /\ hs_re r1.1 = hs_re hs) /\
  (forall e, r2.2 = Err e -> hs_step r2.1 = hs_step hs /\ hs_rs r2.1 = hs_rs hs /\ hs_re r2.1 = hs_re hs).
Proof.
  intros Hdh r1 r2. destruct (read_1_safe hs msg out Hdh), (read_2_safe hs msg out Hdh). done.
Qed.

Lemma handshake_reads_safe_witness :
  (HandshakeState.read_message_1
    (Agreement.hr0 (Keypair.from_secret [1]) [1] [7]) (zeros 100) []).2 <> Panic.
Proof.
  destruct (handshake_reads_safe (Agreement.hr0 (Keypair.from_secret [1]) [1] [7]) (zeros 100) [])
    as [H _]; [done|exact H].
Defined.
