(* ===== verification/Session.v ===== *)
(** * The established session (crates/fectp-core/src/session.rs)

    [Capabilities], [ResumptionTicket] and [Session]: sealing a frame, opening
    one, and the key chain both directions walk. A session is a record passed
    through each call; the frame buffer is an argument and a result. The
    theorems show that what one end seals the other opens, that every frame is
    sealed under a nonce of its own, made of its sequence number, that no number
    is accepted twice, and that a refused frame changes nothing. *)
From Stdlib Require Import String.
From S2P Require Import Prelude Bytes Error Frame Fragment Codec Reliability Replay.
From S2P Require Import Cipher Symmetric Handshake.

Definition CAPS_LEN : Z := 8.
Definition CAP_ZSTD : Z := 1.
Definition CAP_RELIABLE : Z := 2.
Definition CAP_PMTU_PROBE : Z := 4.
Definition DATA_OVERHEAD : Z := HEADER_LEN + TAGLEN.
Definition REKEY_INTERVAL : Z := 65536.
Definition MAX_REKEY_LOOKAHEAD : Z := 4.
Definition PATH_TOKEN_LEN : Z := 8.
Definition PATH_FRAME_LEN : Z := DATA_OVERHEAD + PATH_TOKEN_LEN.
Definition PAD_BLOCK : Z := 64.
Definition LEN_PREFIX : Z := 2.
Definition MIN_PROBE_LEN : Z := PATH_FRAME_LEN + LEN_PREFIX.
Definition TICKET_ID_LEN : Z := 8.
#[export] Hint Unfold CAPS_LEN CAP_ZSTD CAP_RELIABLE CAP_PMTU_PROBE DATA_OVERHEAD REKEY_INTERVAL
  MAX_REKEY_LOOKAHEAD PATH_TOKEN_LEN PATH_FRAME_LEN PAD_BLOCK LEN_PREFIX MIN_PROBE_LEN
  TICKET_ID_LEN : consts.

(** ** Capabilities *)
Record Capabilities := mkCapabilities {
  cap_flags : Z;
  max_frame_size : Z;
  cap_codecs : Z;
}.

Module Capabilities.
Definition minimal (size : Z) : Capabilities :=
  {| cap_flags := 0; max_frame_size := size; cap_codecs := CODECS_CORE |}.

Definition accepts_compression (c : Capabilities) : bool := negb (Z.land (cap_flags c) CAP_ZSTD =? 0).
Definition supports_reliable (c : Capabilities) : bool := negb (Z.land (cap_flags c) CAP_RELIABLE =? 0).
Definition supports_pmtu_probe (c : Capabilities) : bool :=
  negb (Z.land (cap_flags c) CAP_PMTU_PROBE =? 0).
Definition supports_codecs (c : Capabilities) (codecs : Z) : bool :=
  Z.land (cap_codecs c) codecs =? codecs.

Definition encode (c : Capabilities) (out : bytes) : Result bytes :=
  if len out <? CAPS_LEN then Err BufferTooSmall else
  let? out := set_index out 0 (cap_flags c) in
  let? out := set_index out 1 0 in
  let? out := copy_range out 2 4 (to_le 2 (max_frame_size c)) in
  let? out := copy_range out 4 6 (to_le 2 (cap_codecs c)) in
  let? out := copy_range out 6 CAPS_LEN (zeros (CAPS_LEN - 6)) in
  Ok out.

Definition decode (input : bytes) : Result Capabilities :=
  if len input <? CAPS_LEN then Err MessageTooShort else
  let? size := slice input 2 4 in
  let? codecs := slice input 4 6 in
  let? b0 := index input 0 in
  Ok {| cap_flags := b0; max_frame_size := from_le size; cap_codecs := from_le codecs |}.

Definition wf (c : Capabilities) : Prop :=
  is_u8 (cap_flags c) /\ is_u16 (max_frame_size c) /\ is_u16 (cap_codecs c).

Definition wire (c : Capabilities) : bytes :=
  [cap_flags c; 0] ++ to_le 2 (max_frame_size c) ++ to_le 2 (cap_codecs c) ++ zeros 2.
End Capabilities.

(** ** Resumption tickets *)
Definition PSK_LABEL : bytes := literal "fectp/1 psk".
Definition TICKET_ID_LABEL : bytes := literal "fectp/1 ticket-id".

Record ResumptionTicket := mkResumptionTicket {
  ticket_id : bytes;
  ticket_key : bytes;
}.

Module ResumptionTicket.
Section ticket.
Context `{Crypto}.

(** [digest[..TICKET_ID_LEN]] is in range: the digest is 32 bytes. *)
Definition from_key (key : bytes) : ResumptionTicket :=
  {| ticket_id := takez TICKET_ID_LEN (hash [TICKET_ID_LABEL; key]); ticket_key := key |}.
End ticket.
End ResumptionTicket.

Definition preshared_key `{Crypto} (secret : bytes) : ResumptionTicket :=
  ResumptionTicket.from_key (hash [PSK_LABEL; secret]).

(** ** The session *)
Definition generation_of (sequence : Z) : Z := sequence / REKEY_INTERVAL.

Inductive Padding :=
| PadNone
| PadBlock
| PadExact (n : Z).

Record Opened := mkOpened {
  o_header : Header;
  o_len : Z;
  o_message_id : option Z;
  o_fragment : option Fragment;
}.

Record Session := mkSession {
  s_send : CipherState;
  s_recv : CipherState;
  s_recv_prev : option CipherState;
  s_send_generation : Z;
  s_recv_generation : Z;
  s_session_id : Z;
  s_send_seq : Z;
  s_replay : ReplayWindow;
  s_peer_caps : Capabilities;
  s_remote_static : bytes;
  s_padding : bool;
  s_resumption_key : bytes;
}.

(** [usize::next_multiple_of]. *)
Definition next_multiple_of (a b : Z) : Z := div_ceil a b * b.

Module Session.
Section session.
Context `{Crypto}.

Definition new (send recv : CipherState) (sid : Z) (caps : Capabilities)
    (remote_static resumption_key : bytes) : Session := {|
  s_send := send; s_recv := recv; s_recv_prev := None;
  s_send_generation := 0; s_recv_generation := 0; s_session_id := sid; s_send_seq := 0;
  s_replay := ReplayWindow.new; s_peer_caps := caps; s_remote_static := remote_static;
  s_padding := false; s_resumption_key := resumption_key;
|}.

Definition resumption_ticket (s : Session) : ResumptionTicket :=
  ResumptionTicket.from_key (s_resumption_key s).

Definition set_padding (s : Session) (enabled : bool) : Session := {|
  s_send := s_send s; s_recv := s_recv s; s_recv_prev := s_recv_prev s;
  s_send_generation := s_send_generation s; s_recv_generation := s_recv_generation s;
  s_session_id := s_session_id s; s_send_seq := s_send_seq s; s_replay := s_replay s;
  s_peer_caps := s_peer_caps s; s_remote_static := s_remote_static s;
  s_padding := enabled; s_resumption_key := s_resumption_key s;
|}.

Definition max_payload (s : Session) : Z :=
  saturating_sub (max_frame_size (s_peer_caps s)) DATA_OVERHEAD.

(** The fields sealing changes. *)
Definition set_send (s : Session) (send : CipherState) (generation seq : Z) : Session := {|
  s_send := send; s_recv := s_recv s; s_recv_prev := s_recv_prev s;
  s_send_generation := generation; s_recv_generation := s_recv_generation s;
  s_session_id := s_session_id s; s_send_seq := seq; s_replay := s_replay s;
  s_peer_caps := s_peer_caps s; s_remote_static := s_remote_static s;
  s_padding := s_padding s; s_resumption_key := s_resumption_key s;
|}.

(** The fields opening changes. *)
Definition set_recv (s : Session) (recv : CipherState) (prev : option CipherState)
    (generation : Z) (replay : ReplayWindow) : Session := {|
  s_send := s_send s; s_recv := recv; s_recv_prev := prev;
  s_send_generation := s_send_generation s; s_recv_generation := generation;
  s_session_id := s_session_id s; s_send_seq := s_send_seq s; s_replay := replay;
  s_peer_caps := s_peer_caps s; s_remote_static := s_remote_static s;
  s_padding := s_padding s; s_resumption_key := s_resumption_key s;
|}.

(** [while self.send_generation < generation], [n] times round. *)
Fixpoint advance_send (n : nat) (s : Session) : Session * Result unit :=
  match n with
  | O => (s, Ok tt)
  | S n =>
      let! (s, send) := (s, CipherState.rekeyed (s_send s)) in
      advance_send n (set_send s send (s_send_generation s + 1) (s_send_seq s))
  end.

(** The plaintext of a frame, written into the frame's body: each prefix at
    the position [at_] the one before it left. *)
Definition write_padding (padded : bool) (inner_len : Z) (body : bytes) : Result (bytes * Z) :=
  if padded then
    let? body := copy_range body 0 LEN_PREFIX (to_le 2 inner_len) in Ok (body, LEN_PREFIX)
  else Ok (body, 0).

Definition write_id (message_id : option Z) (body : bytes) (at_ : Z) : Result (bytes * Z) :=
  match message_id with
  | Some id =>
      let? body := copy_range body at_ (at_ + MESSAGE_ID_LEN) (to_le 4 id) in
      Ok (body, at_ + MESSAGE_ID_LEN)
  | None => Ok (body, at_)
  end.

Definition write_fragment (fragment : option Fragment) (body : bytes) (at_ : Z)
  : Result (bytes * Z) :=
  match fragment with
  | Some f =>
      let? sub := slice_from body at_ in
      let? sub := Fragment.encode f sub in
      let? body := copy_range body at_ (len body) sub in
      Ok (body, at_ + FRAGMENT_LEN)
  | None => Ok (body, at_)
  end.

Definition write_body (body : bytes) (padded : bool) (inner_len : Z) (message_id : option Z)
    (fragment : option Fragment) (payload : bytes) (plaintext_len : Z) : Result bytes :=
  let? (body, at_) := write_padding padded inner_len body in
  let? (body, at_) := write_id message_id body at_ in
  let? (body, at_) := write_fragment fragment body at_ in
  let? body := copy_range body at_ (at_ + len payload) payload in
  copy_range body (at_ + len payload) plaintext_len
    (zeros (plaintext_len - (at_ + len payload))).

Definition plaintext_len_of (padding : Padding) (inner_len : Z) : Result Z :=
  match padding with
  | PadNone => Ok inner_len
  | PadBlock =>
      let? n := ok_or (checked_add LEN_PREFIX inner_len) PayloadTooLarge in
      Ok (next_multiple_of n PAD_BLOCK)
  | PadExact n => if n <? LEN_PREFIX + inner_len then Err PayloadTooLarge else Ok n
  end.

Definition is_padded (padding : Padding) : bool :=
  match padding with PadNone => false | _ => true end.

Definition id_len (message_id : option Z) : Z :=
  if is_some message_id then MESSAGE_ID_LEN else 0.

Definition fragment_len (fragment : option Fragment) : Z :=
  if is_some fragment then FRAGMENT_LEN else 0.

(** The flags a frame carries, given the caller's. *)
Definition frame_flags (fl : Z) (message_id : option Z) (fragment : option Fragment)
    (padding : Padding) : Z :=
  let fl := if is_some message_id then Z.lor fl FLAG_RELIABLE else fl in
  let fl := if is_some fragment then Z.lor fl FLAG_FRAGMENT else fl in
  if is_padded padding then Z.lor fl FLAG_PADDED else fl.

Definition seal_frame_padded (s : Session) (frame_type : FrameType) (payload : bytes)
    (message_id : option Z) (fragment : option Fragment) (fl : Z) (padding : Padding) (out : bytes)
  : Session * Result (bytes * Z) :=
  if s_send_seq s =? U64_MAX then (s, Err NonceExhausted) else
  let generation := generation_of (s_send_seq s) in
  let! (s, _) := advance_send (Z.to_nat (generation - s_send_generation s)) s in
  let! (s, n) := (s, ok_or (checked_add (id_len message_id) (fragment_len fragment)) PayloadTooLarge) in
  let! (s, inner_len) := (s, ok_or (checked_add n (len payload)) PayloadTooLarge) in
  if is_padded padding && (U16_MAX <? inner_len) then (s, Err PayloadTooLarge) else
  let! (s, plaintext_len) := (s, plaintext_len_of padding inner_len) in
  let! (s, total) := (s, ok_or (checked_add plaintext_len DATA_OVERHEAD) PayloadTooLarge) in
  if len out <? total then (s, Err BufferTooSmall) else
  let header := {| frame_type := frame_type;
                   flags := frame_flags fl message_id fragment padding;
                   session_id := s_session_id s; sequence := s_send_seq s |} in
  let! (s, out) := (s, Header.encode header out) in
  let! (s, hdr) := (s, slice out 0 HEADER_LEN) in
  let! (s, body) := (s, slice out HEADER_LEN total) in
  let! (s, body) := (s, write_body body (is_padded padding) inner_len message_id fragment payload
                          plaintext_len) in
  let! (s, r) := (s, CipherState.encrypt_at (s_send s) hdr (s_send_seq s) body plaintext_len) in
  let! (s, out) := (s, copy_range out HEADER_LEN total r.1) in
  (set_send s (s_send s) (s_send_generation s) (s_send_seq s + 1), Ok (out, total)).

Definition seal_frame (s : Session) (frame_type : FrameType) (payload : bytes)
    (message_id : option Z) (fragment : option Fragment) (fl : Z) (out : bytes)
  : Session * Result (bytes * Z) :=
  seal_frame_padded s frame_type payload message_id fragment fl
    (if s_padding s then PadBlock else PadNone) out.

Definition seal (s : Session) (payload : bytes) (fl : Z) (out : bytes) :=
  seal_frame s Data payload None None fl out.

Definition seal_reliable (s : Session) (payload : bytes) (message_id fl : Z) (out : bytes) :=
  seal_frame s Data payload (Some message_id) None fl out.

Definition seal_fragment (s : Session) (payload : bytes) (message_id : Z) (fragment : Fragment)
    (fl : Z) (out : bytes) :=
  seal_frame s Data payload (Some message_id) (Some fragment) fl out.

Definition seal_ack (s : Session) (ack : Ack) (out : bytes) : Session * Result (bytes * Z) :=
  let! (s, block) := (s, Ack.encode ack (zeros ACK_BLOCK_LEN)) in
  seal_frame s AckFrame block None None 0 out.

Definition seal_path_challenge (s : Session) (token out : bytes) :=
  seal_frame_padded s PathChallenge token None None 0 PadNone out.

Definition seal_path_probe (s : Session) (token : bytes) (frame_len : Z) (out : bytes)
  : Session * Result (bytes * Z) :=
  if frame_len <? MIN_PROBE_LEN then (s, Err MessageTooShort) else
  seal_frame_padded s PathChallenge token None None 0 (PadExact (frame_len - DATA_OVERHEAD)) out.

Definition seal_path_response (s : Session) (token out : bytes) :=
  seal_frame_padded s PathResponse token None None 0 PadNone out.

(** Whether a flag is set. *)
Definition has_flag (fl bit : Z) : bool := negb (Z.land fl bit =? 0).

(** The prefixes of a decrypted body, peeled in the order they were written:
    each returns what it says, where the rest starts and how long it is. *)
Definition peel_padding (fl : Z) (body : bytes) (pt_len : Z) : Result (Z * Z) :=
  if has_flag fl FLAG_PADDED then
    if pt_len <? LEN_PREFIX then Err BadHeader else
    let? raw := slice body 0 LEN_PREFIX in
    let inner := from_le raw in
    if pt_len <? LEN_PREFIX + inner then Err BadHeader else Ok (LEN_PREFIX, inner)
  else Ok (0, pt_len).

Definition peel_id (fl : Z) (body : bytes) (at_ n : Z) : Result (option Z * Z * Z) :=
  if has_flag fl FLAG_RELIABLE then
    if n <? MESSAGE_ID_LEN then Err BadHeader else
    let? raw := slice body at_ (at_ + MESSAGE_ID_LEN) in
    Ok (Some (from_le raw), at_ + MESSAGE_ID_LEN, n - MESSAGE_ID_LEN)
  else Ok (None, at_, n).

Definition peel_fragment (fl : Z) (body : bytes) (at_ n : Z) : Result (option Fragment * Z * Z) :=
  if has_flag fl FLAG_FRAGMENT then
    if n <? FRAGMENT_LEN then Err BadHeader else
    let? raw := slice body at_ (at_ + FRAGMENT_LEN) in
    let? f := Fragment.decode raw in
    Ok (Some f, at_ + FRAGMENT_LEN, n - FRAGMENT_LEN)
  else Ok (None, at_, n).

Definition peel (fl : Z) (body : bytes) (pt_len : Z)
  : Result (option Z * option Fragment * Z * Z) :=
  let? (at_, n) := peel_padding fl body pt_len in
  let? (message_id, at_, n) := peel_id fl body at_ n in
  let? (fragment, at_, n) := peel_fragment fl body at_ n in
  Ok (message_id, fragment, at_, n).

(** The test that refuses a path frame wrapped in anything. *)
Definition bad_path_frame (h : Header) (n : Z) (message_id : option Z) (fragment : option Fragment)
  : bool :=
  let allowed := match frame_type h with PathChallenge => FLAG_PADDED | _ => 0 end in
  match frame_type h with
  | PathChallenge | PathResponse =>
      negb (n =? PATH_TOKEN_LEN) || is_some message_id || is_some fragment
      || negb (Z.land (flags h) (not8 allowed) =? 0)
  | _ => false
  end.

Definition opens (t : FrameType) : bool :=
  match t with
  | Data | Close | AckFrame | PathChallenge | PathResponse => true
  | _ => false
  end.

(** The key a frame of this generation is opened with, and the candidate it
    becomes the current one from. *)
Definition choose_key (s : Session) (generation ahead : Z)
  : Result (CipherState * option CipherState) :=
  if 0 <? ahead then
    let? next := CipherState.rekeyed_by (s_recv s) ahead in Ok (next, Some next)
  else if generation =? s_recv_generation s then Ok (s_recv s, None)
  else if generation + 1 =? s_recv_generation s then
    let? prev := ok_or (s_recv_prev s) Decrypt in Ok (prev, None)
  else Err Decrypt.

Definition open (s : Session) (frame : bytes) : Session * Result (Opened * bytes) :=
  let! (s, header) := (s, Header.decode frame) in
  if negb (opens (frame_type header)) then (s, Err BadHeader) else
  if negb (session_id header =? s_session_id s) then (s, Err BadHeader) else
  if len frame <? HEADER_LEN + TAGLEN then (s, Err MessageTooShort) else
  let! (s, _) := (s, ReplayWindow.check (s_replay s) (sequence header)) in
  let generation := generation_of (sequence header) in
  let ahead := saturating_sub generation (s_recv_generation s) in
  if MAX_REKEY_LOOKAHEAD <? ahead then (s, Err SequenceTooFarAhead) else
  let! (s, choice) := (s, choose_key s generation ahead) in
  let! (s, hdr) := (s, slice frame 0 HEADER_LEN) in
  let! (s, body) := (s, slice_from frame HEADER_LEN) in
  let! (s, r) := (s, CipherState.decrypt_at choice.1 hdr (sequence header) body) in
  let! (s, p) := (s, peel (flags header) r.1 r.2) in
  let '(message_id, fragment, at_, n) := p in
  let! (s, body) := (s, if 0 <? at_ then copy_within_0 r.1 at_ (at_ + n) else Ok r.1) in
  if bad_path_frame header n message_id fragment then (s, Err BadHeader) else
  let replay := ReplayWindow.commit (s_replay s) (sequence header) in
  let s :=
    match choice.2 with
    | Some next =>
        set_recv s next (if ahead =? 1 then Some (s_recv s) else None) generation replay
    | None => set_recv s (s_recv s) (s_recv_prev s) (s_recv_generation s) replay
    end in
  (s, Ok ({| o_header := header; o_len := n; o_message_id := message_id; o_fragment := fragment |},
          hdr ++ body)).

Definition parse_ack (plaintext : bytes) : Result Ack := Ack.decode plaintext.
End session.
End Session.
Import Session.

(** ** The key chain *)
Section chain.
Context `{CL : CryptoLaws}.

(** [REKEY(k)], the key after [k]. *)
Definition next_key (key : bytes) : bytes :=
  match aead_seal key (CipherState.build_nonce MAX_NONCE) [] (zeros KEYLEN) with
  | Some (ct, _) => ct
  | None => []
  end.

(** The key of generation [g] in the chain that starts at [k0]. *)
Definition chain (k0 : bytes) (g : Z) : bytes := Nat.iter (Z.to_nat g) next_key k0.

Definition cipher_at (k0 : bytes) (g : Z) : CipherState :=
  {| cs_key := Some (chain k0 g); cs_nonce := 0 |}.

Lemma chain_0 k0 : chain k0 0 = k0.
Proof. done. Qed.

Lemma chain_succ k0 g : 0 <= g -> chain k0 (g + 1) = next_key (chain k0 g).
Proof. intros. unfold chain. by replace (Z.to_nat (g + 1)) with (S (Z.to_nat g)) by lia. Qed.

Lemma rekeyed_chain k0 g :
  0 <= g -> CipherState.rekeyed (cipher_at k0 g) = Ok (cipher_at k0 (g + 1)).
Proof.
  intros Hg. unfold CipherState.rekeyed, cipher_at. cbn [cs_key ok_or].
  rewrite chain_succ by done. unfold next_key.
  destruct (aead_accepts (chain k0 g) (CipherState.build_nonce MAX_NONCE) [] (zeros KEYLEN))
    as (ct & tag & ->); [rewrite len_zeros; clia|]. done.
Qed.

Lemma rekeyed_by_chain k0 g steps :
  0 <= g -> 1 <= steps ->
  CipherState.rekeyed_by (cipher_at k0 g) steps = Ok (cipher_at k0 (g + steps)).
Proof.
  intros Hg Hs. unfold CipherState.rekeyed_by. rewrite rekeyed_chain by done.
  destruct (for_in_ok (E := Error) (fun i c => c = cipher_at k0 (g + i)) 1 steps
    (fun _ state => CipherState.rekeyed state) (cipher_at k0 (g + 1))) as (c & -> & ->); [done..| |done].
  intros j s Hj ->. rewrite rekeyed_chain by lia. eexists. split; [done|]. f_equal. lia.
Qed.

(** A session whose sending, or receiving, side walks the chain of [k0]. *)
Definition sends (k0 : bytes) (s : Session) : Prop :=
  s_send s = cipher_at k0 (s_send_generation s) /\
  0 <= s_send_generation s <= generation_of (s_send_seq s) /\
  is_u64 (s_send_seq s) /\ is_u32 (s_session_id s).

Definition receives (k0 : bytes) (s : Session) : Prop :=
  s_recv s = cipher_at k0 (s_recv_generation s) /\ 0 <= s_recv_generation s /\
  (forall c, s_recv_prev s = Some c ->
     1 <= s_recv_generation s /\ c = cipher_at k0 (s_recv_generation s - 1)) /\
  is_u32 (s_session_id s).

Lemma advance_send_spec k0 n s :
  s_send s = cipher_at k0 (s_send_generation s) -> 0 <= s_send_generation s ->
  advance_send n s =
  (set_send s (cipher_at k0 (s_send_generation s + Z.of_nat n))
     (s_send_generation s + Z.of_nat n) (s_send_seq s), Ok tt).
Proof.
  revert s. induction n as [|n IH]; intros s Hs Hg.
  - cbn [advance_send]. rewrite Z.add_0_r, <- Hs. by destruct s.
  - cbn [advance_send]. rewrite Hs, rekeyed_chain by done.
    rewrite IH by (cbn; done || lia). cbn [set_send s_send_generation s_send_seq].
    replace (s_send_generation s + 1 + Z.of_nat n) with (s_send_generation s + Z.of_nat (S n)) by lia.
    by destruct s.
Qed.
End chain.

(** ** The plaintext of a frame *)
Definition inner_len_of (mid : option Z) (frag : option Fragment) (payload : bytes) : Z :=
  id_len mid + fragment_len frag + len payload.

Definition pad_field (padding : Padding) (inner : Z) : bytes :=
  if is_padded padding then to_le 2 inner else [].
Definition id_field (mid : option Z) : bytes :=
  match mid with Some i => to_le 4 i | None => [] end.
Definition fragment_field (frag : option Fragment) : bytes :=
  match frag with Some f => Fragment.wire f | None => [] end.

Definition prefixes (padding : Padding) (mid : option Z) (frag : option Fragment) (payload : bytes)
  : bytes :=
  pad_field padding (inner_len_of mid frag payload) ++ id_field mid ++ fragment_field frag.

Definition plaintext (padding : Padding) (mid : option Z) (frag : option Fragment)
    (payload : bytes) (plen : Z) : bytes :=
  prefixes padding mid frag payload ++ payload ++
  zeros (plen - (len (prefixes padding mid frag payload) + len payload)).

Definition pad_len (padding : Padding) : Z := if is_padded padding then LEN_PREFIX else 0.

Lemma len_pad_field padding n : len (pad_field padding n) = pad_len padding.
Proof. unfold pad_field, pad_len. destruct is_padded; [by rewrite len_to_le|done]. Qed.

Lemma len_id_field mid : len (id_field mid) = id_len mid.
Proof. unfold id_field, id_len. destruct mid; [by rewrite len_to_le|done]. Qed.

Lemma len_fragment_field frag : len (fragment_field frag) = fragment_len frag.
Proof. unfold fragment_field, fragment_len. destruct frag; [by rewrite len_fragment_wire|done]. Qed.
#[export] Hint Rewrite len_pad_field len_id_field len_fragment_field : len.

Lemma len_prefixes padding mid frag payload :
  len (prefixes padding mid frag payload) = pad_len padding + id_len mid + fragment_len frag.
Proof. unfold prefixes. len_lia. Qed.

(** The lengths of the prefixes, for arithmetic. *)
Lemma prefix_bounds padding mid frag :
  0 <= pad_len padding <= 2 /\ 0 <= id_len mid <= 4 /\ 0 <= fragment_len frag <= 8.
Proof.
  unfold pad_len, id_len, fragment_len. destruct padding, mid, frag; cbn [is_padded is_some]; clia.
Qed.

Lemma inner_len_nonneg mid frag payload : 0 <= inner_len_of mid frag payload.
Proof.
  unfold inner_len_of, id_len, fragment_len. pose proof (len_nonneg payload).
  destruct mid, frag; cbn [is_some]; clia.
Qed.

Lemma next_multiple_spec a : 0 < a -> a <= next_multiple_of a PAD_BLOCK < a + PAD_BLOCK /\
  next_multiple_of a PAD_BLOCK mod PAD_BLOCK = 0.
Proof.
  intros. unfold next_multiple_of, div_ceil, PAD_BLOCK.
  rewrite Z.mod_mul by lia.
  pose proof (Z.div_mod (a + 64 - 1) 64). pose proof (Z.mod_pos_bound (a + 64 - 1) 64). lia.
Qed.

(** The plaintext holds everything it must. *)
Lemma plaintext_len_ok padding mid frag payload plen :
  is_padded padding && (U16_MAX <? inner_len_of mid frag payload) = false ->
  plaintext_len_of padding (inner_len_of mid frag payload) = Ok plen ->
  len (prefixes padding mid frag payload) + len payload <= plen /\
  len (plaintext padding mid frag payload plen) = plen.
Proof.
  intros Hpad Hp. unfold plaintext. rewrite !len_app, len_zeros, len_prefixes. unfold pad_len.
  pose proof (inner_len_nonneg mid frag payload) as Hin. unfold inner_len_of in *.
  pose proof (len_nonneg payload).
  destruct padding as [| |n]; cbn [is_padded plaintext_len_of andb] in *.
  - simplify_eq. lia.
  - unfold checked_add in Hp. zcase_in Hp; cbn in Hp; simplify_eq.
    destruct (next_multiple_spec (LEN_PREFIX + (id_len mid + fragment_len frag + len payload)));
      [clia|]. lia.
  - zcase_in Hp; simplify_eq. lia.
Qed.

(** Each writer fills the next bytes of a body with room for them. *)
Lemma write_padding_spec padding inner body :
  pad_len padding <= len body ->
  write_padding (is_padded padding) inner body =
  Ok (pad_field padding inner ++ dropz (pad_len padding) body, pad_len padding).
Proof.
  unfold write_padding, pad_len, pad_field. destruct is_padded; intros Hb.
  - by rewrite copy_range_at by len_lia.
  - by rewrite dropz_0.
Qed.

Lemma write_id_spec mid pre rest :
  id_len mid <= len rest ->
  write_id mid (pre ++ rest) (len pre) =
  Ok ((pre ++ id_field mid) ++ dropz (id_len mid) rest, len (pre ++ id_field mid)).
Proof.
  unfold write_id, id_len, id_field. destruct mid as [i|]; cbn [is_some]; intros Hb.
  - rewrite copy_range_next by len_lia. by rewrite len_app, len_to_le.
  - by rewrite dropz_0, !app_nil_r.
Qed.

Lemma write_fragment_spec frag pre rest :
  fragment_len frag <= len rest ->
  write_fragment frag (pre ++ rest) (len pre) =
  Ok ((pre ++ fragment_field frag) ++ dropz (fragment_len frag) rest,
      len (pre ++ fragment_field frag)).
Proof.
  unfold write_fragment, fragment_len, fragment_field. destruct frag as [f|]; cbn [is_some]; intros Hb.
  - rewrite slice_from_mid by done. rewrite fragment_encode_ok by done.
    rewrite copy_range_next by len_lia.
    rewrite (dropz_all rest (len _)) by len_lia.
    rewrite app_nil_r, <- app_assoc. by rewrite len_app, len_fragment_wire.
  - by rewrite dropz_0, !app_nil_r.
Qed.

Lemma write_body_spec padding mid frag payload plen body :
  is_padded padding && (U16_MAX <? inner_len_of mid frag payload) = false ->
  plaintext_len_of padding (inner_len_of mid frag payload) = Ok plen ->
  len body = plen + TAGLEN ->
  exists post, len post = TAGLEN /\
    write_body body (is_padded padding) (inner_len_of mid frag payload) mid frag payload plen
    = Ok (plaintext padding mid frag payload plen ++ post).
Proof.
  intros Hpad Hp Hbody. destruct (plaintext_len_ok _ _ _ _ _ Hpad Hp) as [Hle _].
  pose proof (len_nonneg payload). destruct (prefix_bounds padding mid frag) as (? & ? & ?).
  rewrite len_prefixes in Hle. unfold write_body.
  rewrite write_padding_spec by clia. cbv beta iota.
  rewrite <- (len_pad_field padding (inner_len_of mid frag payload)).
  rewrite write_id_spec by (autorewrite with len; clia).
  rewrite write_fragment_spec by (autorewrite with len; clia).
  rewrite <- (app_assoc (pad_field _ _)). fold (prefixes padding mid frag payload).
  set (b := dropz (fragment_len frag) _).
  assert (len b = len body - len (prefixes padding mid frag payload)) as Hb
    by (unfold b; rewrite len_prefixes; autorewrite with len; clia).
  rewrite len_prefixes in Hb.
  rewrite copy_range_next by (rewrite ?len_prefixes; clia).
  destruct (split_at (plen - (len (prefixes padding mid frag payload) + len payload))
    (dropz (len payload) b)) as (z & post & Hz & Hlz); [rewrite len_prefixes, len_dropz; clia|].
  rewrite Hz. rewrite copy_range_mid by (rewrite ?len_app, ?len_zeros, ?len_prefixes in *; lia).
  exists post. split; [|unfold plaintext; by rewrite <- !app_assoc].
  apply (f_equal len) in Hz. rewrite len_app, len_dropz, Hlz, len_prefixes in Hz. clia.
Qed.

(** ** Sealing *)
Definition frame_header (s : Session) (t : FrameType) (mid : option Z) (frag : option Fragment)
    (fl : Z) (padding : Padding) : Header :=
  {| frame_type := t; flags := frame_flags fl mid frag padding;
     session_id := s_session_id s; sequence := s_send_seq s |}.

(** The caller's flags: nothing but the compression mark. *)
Definition caller_flags (fl : Z) : Prop := fl = 0 \/ fl = FLAG_COMPRESSED.

Lemma frame_flags_wf fl mid frag padding :
  caller_flags fl ->
  let f := frame_flags fl mid frag padding in
  is_u8 f /\ Z.land f (not8 KNOWN_FLAGS) = 0 /\
  has_flag f FLAG_PADDED = is_padded padding /\
  has_flag f FLAG_RELIABLE = is_some mid /\ has_flag f FLAG_FRAGMENT = is_some frag.
Proof.
  intros [-> | ->]; destruct mid, frag, padding; vm_compute; intuition congruence.
Qed.

Lemma frame_header_wf s t mid frag fl padding :
  caller_flags fl -> is_u32 (s_session_id s) -> is_u64 (s_send_seq s) ->
  Header.wf (frame_header s t mid frag fl padding).
Proof.
  intros Hf ? ?. destruct (frame_flags_wf fl mid frag padding Hf) as (? & ? & _). done.
Qed.

Section sealing.
Context `{CL : CryptoLaws}.

(** What a successful seal puts on the wire, and the session after it. *)
Lemma seal_spec k0 s t payload mid frag fl padding out plen :
  sends k0 s -> s_send_seq s <> U64_MAX ->
  is_padded padding && (U16_MAX <? inner_len_of mid frag payload) = false ->
  plaintext_len_of padding (inner_len_of mid frag payload) = Ok plen ->
  plen <= AEAD_MAX -> plen + DATA_OVERHEAD <= len out ->
  let g := generation_of (s_send_seq s) in
  let h := frame_header s t mid frag fl padding in
  exists ct tag rest,
    aead_seal (chain k0 g) (CipherState.build_nonce (s_send_seq s)) (Header.wire h)
      (plaintext padding mid frag payload plen) = Some (ct, tag) /\
    len ct = plen /\ len tag = TAGLEN /\
    seal_frame_padded s t payload mid frag fl padding out =
      (set_send s (cipher_at k0 g) g (s_send_seq s + 1),
       Ok (Header.wire h ++ (ct ++ tag) ++ rest, plen + DATA_OVERHEAD)).
Proof.
  intros (Hsend & Hgen & Hseq & Hsid) Hmax Hpad Hplen Haead Hout g h.
  destruct (plaintext_len_ok _ _ _ _ _ Hpad Hplen) as [Hle Hptlen].
  assert (0 <= plen) by (rewrite <- Hptlen; apply len_nonneg).
  pose proof (inner_len_nonneg mid frag payload) as Hin.
  pose proof (len_nonneg (prefixes padding mid frag payload)). pose proof (len_nonneg payload).
  unfold seal_frame_padded. rewrite (proj2 (Z.eqb_neq _ _)) by done.
  rewrite (advance_send_spec k0) by (done || lia). fold g.
  replace (s_send_generation s + Z.of_nat (Z.to_nat (g - s_send_generation s))) with g
    by (unfold g; lia).
  set (s1 := set_send s (cipher_at k0 g) g (s_send_seq s)).
  rewrite len_prefixes in Hle. destruct (prefix_bounds padding mid frag) as (? & ? & ?).
  unfold checked_add at 1. rewrite (proj2 (Z.leb_le _ _)) by clia. cbn [ok_or].
  unfold checked_add at 1. rewrite (proj2 (Z.leb_le _ _)) by clia. cbn [ok_or].
  fold (inner_len_of mid frag payload). rewrite Hpad, Hplen.
  unfold checked_add. rewrite (proj2 (Z.leb_le _ _)) by clia. cbn [ok_or].
  rewrite (proj2 (Z.ltb_ge _ _)) by done.
  change {| frame_type := t; flags := _; session_id := s_session_id s1; sequence := s_send_seq s1 |}
    with h.
  rewrite header_encode_ok by clia.
  rewrite slice_head by len_lia.
  destruct (split_at (plen + TAGLEN) (dropz HEADER_LEN out)) as (body & rest & -> & Hbody);
    [len_lia|].
  rewrite slice_mid by len_lia.
  destruct (write_body_spec padding mid frag payload plen body Hpad Hplen Hbody) as (post & Hpost & ->).
  destruct (encrypt_at_spec (s_send s1) (chain k0 g) (Header.wire h) (s_send_seq s1)
    (plaintext padding mid frag payload plen ++ post) post (plaintext padding mid frag payload plen))
    as (ct & tag & Hs & He & Hct & Htag); [done|lia|done|done|].
  rewrite Hptlen in He, Hct. rewrite He. cbn [fst].
  rewrite copy_range_mid by len_lia.
  exists ct, tag, rest. done.
Qed.
End sealing.

(** ** Opening *)

(** What the prefixes of a well-formed plaintext say. *)
Definition fragment_ok (frag : option Fragment) : Prop :=
  match frag with Some f => Fragment.coherent f | None => True end.

Definition id_ok (mid : option Z) : Prop :=
  match mid with Some i => is_u32 i | None => True end.

Lemma peel_padding_spec padding fl mid frag payload plen rest :
  caller_flags fl ->
  is_padded padding && (U16_MAX <? inner_len_of mid frag payload) = false ->
  plaintext_len_of padding (inner_len_of mid frag payload) = Ok plen ->
  peel_padding (frame_flags fl mid frag padding)
    (pad_field padding (inner_len_of mid frag payload) ++ rest) plen
  = Ok (pad_len padding, inner_len_of mid frag payload).
Proof.
  intros Hfl Hpad Hplen. destruct (plaintext_len_ok _ _ _ _ _ Hpad Hplen) as [Hle _].
  rewrite len_prefixes in Hle. pose proof (inner_len_nonneg mid frag payload).
  pose proof (len_nonneg payload). destruct (prefix_bounds padding mid frag) as (? & ? & ?).
  destruct (frame_flags_wf fl mid frag padding Hfl) as (_ & _ & Hfp & _).
  unfold peel_padding. rewrite Hfp. unfold pad_field, pad_len in *.
  destruct padding as [| |n]; cbn [is_padded andb] in *; [cbn in Hplen; by simplify_eq| |];
    zbool; rewrite (proj2 (Z.ltb_ge _ _)) by lia; rewrite slice_head by (by rewrite len_to_le);
    rewrite from_le_to_le by (cbn; clia); unfold inner_len_of in *;
    rewrite (proj2 (Z.ltb_ge _ _)) by lia; done.
Qed.

Lemma peel_id_spec padding fl mid frag pre rest n :
  caller_flags fl -> id_ok mid -> id_len mid <= n ->
  peel_id (frame_flags fl mid frag padding) (pre ++ id_field mid ++ rest) (len pre) n
  = Ok (mid, len (pre ++ id_field mid), n - id_len mid).
Proof.
  intros Hfl Hid Hn. destruct (frame_flags_wf fl mid frag padding Hfl) as (_ & _ & _ & Hf & _).
  unfold peel_id. rewrite Hf. rewrite len_app, len_id_field.
  unfold id_len, id_field in *. destruct mid as [i|]; cbn [is_some] in *.
  - rewrite (proj2 (Z.ltb_ge _ _)) by lia. rewrite slice_mid by (rewrite ?len_to_le; clia).
    rewrite from_le_to_le by (cbn in Hid |- *; lia). done.
  - by rewrite Z.add_0_r, Z.sub_0_r.
Qed.

Lemma peel_fragment_spec padding fl mid frag pre rest n :
  caller_flags fl -> fragment_ok frag -> fragment_len frag <= n ->
  peel_fragment (frame_flags fl mid frag padding) (pre ++ fragment_field frag ++ rest) (len pre) n
  = Ok (frag, len (pre ++ fragment_field frag), n - fragment_len frag).
Proof.
  intros Hfl Hok Hn. destruct (frame_flags_wf fl mid frag padding Hfl) as (_ & _ & _ & _ & Hf).
  unfold peel_fragment. rewrite Hf. rewrite len_app, len_fragment_field.
  unfold fragment_len, fragment_field in *. destruct frag as [f|]; cbn [is_some] in *.
  - rewrite (proj2 (Z.ltb_ge _ _)) by lia. rewrite slice_mid by (rewrite ?len_fragment_wire; clia).
    rewrite <- (app_nil_r (Fragment.wire f)), fragment_decode_wire by done. done.
  - by rewrite Z.add_0_r, Z.sub_0_r.
Qed.

Lemma peel_spec padding mid frag payload fl plen post :
  caller_flags fl -> id_ok mid -> fragment_ok frag ->
  is_padded padding && (U16_MAX <? inner_len_of mid frag payload) = false ->
  plaintext_len_of padding (inner_len_of mid frag payload) = Ok plen ->
  peel (frame_flags fl mid frag padding) (plaintext padding mid frag payload plen ++ post) plen
  = Ok (mid, frag, len (prefixes padding mid frag payload), len payload).
Proof.
  intros Hfl Hid Hfr Hpad Hplen. destruct (prefix_bounds padding mid frag) as (? & ? & ?).
  pose proof (len_nonneg payload).
  unfold peel, plaintext, prefixes. set (z := zeros _). rewrite <- !app_assoc.
  rewrite peel_padding_spec by done.
  rewrite <- (len_pad_field padding (inner_len_of mid frag payload)).
  rewrite peel_id_spec by (done || unfold inner_len_of; lia). rewrite app_assoc.
  rewrite peel_fragment_spec by (done || unfold inner_len_of; lia).
  rewrite <- app_assoc. do 3 f_equal. unfold inner_len_of. lia.
Qed.

Section opening.
Context `{CL : CryptoLaws}.

(** Generations a receiver can still open. *)
Definition in_reach (r : Session) (g : Z) : Prop :=
  s_recv_generation r <= g <= s_recv_generation r + MAX_REKEY_LOOKAHEAD \/
  (g + 1 = s_recv_generation r /\ s_recv_prev r <> None).

Lemma choose_key_spec k0 r g :
  receives k0 r -> in_reach r g -> 0 <= g ->
  saturating_sub g (s_recv_generation r) <= MAX_REKEY_LOOKAHEAD /\
  choose_key r g (saturating_sub g (s_recv_generation r)) =
  Ok (cipher_at k0 g, if s_recv_generation r <? g then Some (cipher_at k0 g) else None).
Proof.
  intros (Hr & Hg & Hprev & _) Hreach H0. unfold choose_key, saturating_sub.
  destruct (Z.ltb_spec (s_recv_generation r) g) as [Hlt|Hge].
  - split; [destruct Hreach as [|[? _]]; clia|].
    rewrite (proj2 (Z.ltb_lt _ _)) by lia.
    rewrite Hr, rekeyed_by_chain by lia.
    by replace (s_recv_generation r + Z.max 0 (g - s_recv_generation r)) with g by lia.
  - split; [clia|]. rewrite (proj2 (Z.ltb_ge _ _)) by lia.
    destruct Hreach as [|[Hone Hsome]].
    + replace g with (s_recv_generation r) by lia. by rewrite Z.eqb_refl, Hr.
    + rewrite (proj2 (Z.eqb_neq _ _)), (proj2 (Z.eqb_eq _ _)) by lia.
      destruct (s_recv_prev r) as [c|]; [|done]. destruct (Hprev c eq_refl) as [_ ->]. cbn.
      by replace (s_recv_generation r - 1) with g by lia.
Qed.

(** The session after accepting a frame of generation [g]. *)
Definition after_open (k0 : bytes) (r : Session) (seq : Z) : Session :=
  let g := generation_of seq in
  let replay := ReplayWindow.commit (s_replay r) seq in
  if s_recv_generation r <? g then
    set_recv r (cipher_at k0 g)
      (if saturating_sub g (s_recv_generation r) =? 1 then Some (s_recv r) else None) g replay
  else set_recv r (s_recv r) (s_recv_prev r) (s_recv_generation r) replay.

Lemma generation_nonneg seq : is_u64 seq -> 0 <= generation_of seq.
Proof. intros. apply Z.div_pos; clia. Qed.

Lemma after_open_receives k0 r seq :
  receives k0 r -> is_u64 seq -> receives k0 (after_open k0 r seq).
Proof.
  intros (Hr & Hg & Hprev & Hid) Hs. pose proof (generation_nonneg seq Hs).
  unfold after_open. zcase; [|done].
  split; [done|]. split; [done|]. split; [|done]. cbn. intros c Hc.
  zcase_in Hc; [|done]. simplify_eq. unfold saturating_sub in *.
  split; [lia|]. rewrite Hr. f_equal. lia.
Qed.

(** A frame sealed under the chain key of its sequence number opens. *)
Lemma open_spec k0 r t payload mid frag fl padding plen seq ct tag :
  receives k0 r -> is_u64 seq -> in_reach r (generation_of seq) ->
  ReplayWindow.check (s_replay r) seq = Ok tt ->
  caller_flags fl -> id_ok mid -> fragment_ok frag ->
  is_padded padding && (U16_MAX <? inner_len_of mid frag payload) = false ->
  plaintext_len_of padding (inner_len_of mid frag payload) = Ok plen ->
  opens t = true ->
  let h := {| frame_type := t; flags := frame_flags fl mid frag padding;
              session_id := s_session_id r; sequence := seq |} in
  bad_path_frame h (len payload) mid frag = false ->
  aead_seal (chain k0 (generation_of seq)) (CipherState.build_nonce seq) (Header.wire h)
    (plaintext padding mid frag payload plen) = Some (ct, tag) ->
  exists tail,
    open r (Header.wire h ++ ct ++ tag) =
    (after_open k0 r seq,
     Ok ({| o_header := h; o_len := len payload; o_message_id := mid; o_fragment := frag |},
         Header.wire h ++ payload ++ tail)).
Proof.
  intros Hr Hseq Hreach Hck Hfl Hid Hfr Hpad Hplen Ht h Hbad Hseal.
  destruct (aead_len _ _ _ _ _ _ Hseal) as [Hct Htag].
  destruct (plaintext_len_ok _ _ _ _ _ Hpad Hplen) as [Hle Hpt]. rewrite Hpt in Hct.
  destruct (choose_key_spec k0 r (generation_of seq) Hr Hreach (generation_nonneg seq Hseq)) as [Hah Hkey].
  destruct (frame_flags_wf fl mid frag padding Hfl) as (Hf8 & Hfk & _).
  pose proof (len_nonneg (plaintext padding mid frag payload plen)).
  unfold open. rewrite header_decode_wire by (destruct Hr as (_ & _ & _ & Hsid); done).
  cbn [frame_type h session_id sequence flags]. rewrite Ht, Z.eqb_refl. cbn [negb].
  rewrite (proj2 (Z.ltb_ge _ _)) by len_lia. rewrite Hck.
  rewrite (proj2 (Z.ltb_ge _ _)) by done. rewrite Hkey.
  rewrite slice_head by (by rewrite len_header_wire).
  rewrite slice_from_mid by (by rewrite len_header_wire). cbn [fst snd].
  rewrite (decrypt_at_spec _ (chain k0 (generation_of seq)) _ _
    (plaintext padding mid frag payload plen)) by done.
  cbn [fst snd]. rewrite Hpt, peel_spec by done.
  assert (exists tail, (if 0 <? len (prefixes padding mid frag payload) then
      copy_within_0 (E:=Error) (plaintext padding mid frag payload plen ++ tag)
        (len (prefixes padding mid frag payload))
        (len (prefixes padding mid frag payload) + len payload)
    else Ok (plaintext padding mid frag payload plen ++ tag)) = Ok (payload ++ tail)) as (tail & ->).
  { unfold plaintext. set (z := zeros _). rewrite <- !app_assoc. zcase.
    - unfold copy_within_0. rewrite slice_mid by lia. rewrite copy_range_at by len_lia. eauto.
    - rewrite (len_0 (prefixes padding mid frag payload))
        by (pose proof (len_nonneg (prefixes padding mid frag payload)); lia). eauto. }
  rewrite Hbad. exists tail. f_equal. unfold after_open. by destruct (s_recv_generation r <? _).
Qed.

(** ** Opening anything at all *)
Lemma rekeyed_no_panic c : CipherState.rekeyed c <> Panic.
Proof. unfold CipherState.rekeyed. destruct (cs_key c); cbn [ok_or]; [|done].
  by destruct aead_seal as [[ct tag]|]. Qed.

Lemma rekeyed_by_no_panic c n : CipherState.rekeyed_by c n <> Panic.
Proof.
  unfold CipherState.rekeyed_by, for_in. pose proof (rekeyed_no_panic c).
  destruct (CipherState.rekeyed c) as [c'|e|]; [|done..].
  pose proof (for_range_rule (E := Error) (fun _ _ => True) (fun _ => True) (Z.to_nat (n - 1)) 1
    (fun _ c => CipherState.rekeyed c) c' I) as Hr.
  destruct for_range; [done..|]. exfalso. apply Hr. intros j d _ _.
  pose proof (rekeyed_no_panic d). by destruct CipherState.rekeyed.
Qed.

Lemma choose_key_no_panic s g a : choose_key s g a <> Panic.
Proof.
  unfold choose_key. destruct (0 <? a).
  - pose proof (rekeyed_by_no_panic (s_recv s) a). by destruct CipherState.rekeyed_by.
  - destruct (g =? _); [done|]. destruct (g + 1 =? _); [|done]. by destruct (s_recv_prev s).
Qed.

(** Whatever a peer put in the plaintext, peeling it stays inside. *)
Lemma peel_safe fl body pt_len :
  bytes_ok body -> 0 <= pt_len <= len body ->
  peel fl body pt_len <> Panic /\
  forall m f at_ n, peel fl body pt_len = Ok (m, f, at_, n) ->
    0 <= at_ /\ 0 <= n /\ at_ + n <= pt_len.
Proof.
  intros Hb Hn. unfold peel.
  assert (peel_padding fl body pt_len <> Panic /\
    forall a n, peel_padding fl body pt_len = Ok (a, n) -> 0 <= a /\ 0 <= n /\ a + n <= pt_len) as [P1 R1].
  { unfold peel_padding. destruct has_flag; [|split; [done|intros; simplify_eq; lia]].
    zcase; [done|]. rewrite slice_ok by clia. set (raw := takez _ _).
    pose proof (from_le_range raw ltac:(unfold raw; auto with fectp)).
    zcase; [done|]. split; [done|]. intros; simplify_eq; clia. }
  destruct (peel_padding fl body pt_len) as [[a n]|e|]; [|done..].
  destruct (R1 a n eq_refl) as (Ha & Hn0 & Hle).
  assert (peel_id fl body a n <> Panic /\
    forall m a' n', peel_id fl body a n = Ok (m, a', n') -> 0 <= a' /\ 0 <= n' /\ a' + n' <= pt_len)
    as [P2 R2].
  { unfold peel_id. destruct has_flag; [|split; [done|intros; simplify_eq; lia]].
    zcase; [done|]. rewrite slice_ok by clia. split; [done|]. intros; simplify_eq; clia. }
  destruct (peel_id fl body a n) as [[[m a'] n']|e|]; [|done..].
  destruct (R2 m a' n' eq_refl) as (Ha' & Hn0' & Hle').
  unfold peel_fragment. destruct has_flag; [|split; [done|intros; simplify_eq; lia]].
  zcase; [done|]. rewrite slice_ok by clia.
  pose proof (fragment_decode_no_panic (takez (a' + FRAGMENT_LEN - a') (dropz a' body))) as Hp.
  destruct Fragment.decode; [|done|done].
  split; [done|]. intros; simplify_eq; clia.
Qed.

(** Every outcome of [open]: refused with the session unchanged, or accepted
    after the tag verified under the key chosen for the generation. *)
Definition accepted_by (s : Session) (frame : bytes) (s' : Session) (o : Opened) : Prop :=
  exists c next ct tag p,
    Header.decode frame = Ok (o_header o) /\
    session_id (o_header o) = s_session_id s /\
    ReplayWindow.check (s_replay s) (sequence (o_header o)) = Ok tt /\
    s_replay s' = ReplayWindow.commit (s_replay s) (sequence (o_header o)) /\
    saturating_sub (generation_of (sequence (o_header o))) (s_recv_generation s) <= MAX_REKEY_LOOKAHEAD /\
    choose_key s (generation_of (sequence (o_header o)))
      (saturating_sub (generation_of (sequence (o_header o))) (s_recv_generation s)) = Ok (c, next) /\
    frame = takez HEADER_LEN frame ++ ct ++ tag /\ len tag = TAGLEN /\
    CipherState.decrypt_at c (takez HEADER_LEN frame) (sequence (o_header o)) (ct ++ tag) = Ok p /\
    s' = match next with
         | Some k => set_recv s k
             (if saturating_sub (generation_of (sequence (o_header o))) (s_recv_generation s) =? 1
              then Some (s_recv s) else None)
             (generation_of (sequence (o_header o)))
             (ReplayWindow.commit (s_replay s) (sequence (o_header o)))
         | None => set_recv s (s_recv s) (s_recv_prev s) (s_recv_generation s)
             (ReplayWindow.commit (s_replay s) (sequence (o_header o)))
         end.

Lemma check_no_panic w seq : ReplayWindow.check w seq <> Panic.
Proof. unfold ReplayWindow.check. repeat case_match; done. Qed.

Lemma open_cases s frame :
  bytes_ok frame ->
  match open s frame with
  | (s', Ok (o, _)) => accepted_by s frame s' o
  | (s', Err _) => s' = s
  | (_, Panic) => False
  end.
Proof.
  intros Hb. unfold open. pose proof (header_decode_no_panic frame) as Hhp.
  destruct (Header.decode frame) as [h|e|] eqn:Eh; [|done..].
  destruct (opens (frame_type h)); cbn [negb]; [|done].
  destruct (Z.eqb_spec (session_id h) (s_session_id s)) as [Hsid|]; cbn [negb]; [|done].
  destruct (Z.ltb_spec (len frame) (HEADER_LEN + TAGLEN)); [done|].
  pose proof (check_no_panic (s_replay s) (sequence h)).
  destruct (ReplayWindow.check (s_replay s) (sequence h)) as [[]|e|] eqn:Eck; [|done..].
  set (g := generation_of (sequence h)). set (ahead := saturating_sub g (s_recv_generation s)).
  destruct (Z.ltb_spec MAX_REKEY_LOOKAHEAD ahead); [done|].
  pose proof (choose_key_no_panic s g ahead).
  destruct (choose_key s g ahead) as [[c next]|e|] eqn:Ekey; [|done..].
  rewrite slice_ok, dropz_0 by clia. unfold slice_from. rewrite slice_ok by clia.
  replace (HEADER_LEN - 0) with HEADER_LEN by lia. cbn [fst snd].
  rewrite (takez_all (dropz HEADER_LEN frame)) by len_lia.
  set (body := dropz HEADER_LEN frame).
  destruct (decrypt_at_safe c (takez HEADER_LEN frame) (sequence h) body) as [Hdp Hdl].
  destruct (CipherState.decrypt_at c (takez HEADER_LEN frame) (sequence h) body) as [[b' n']|e|] eqn:Edec;
    [|done..].
  destruct (Hdl b' n' eq_refl) as (Hlb & Hn & Hn0). cbn [fst snd].
  assert (bytes_ok b') as Hbb by (eapply decrypt_at_bytes; [exact Edec|unfold body; auto with fectp]).
  destruct (peel_safe (flags h) b' n' Hbb ltac:(clia)) as [Hpp Hpr].
  destruct (peel (flags h) b' n') as [[[[m f] at_] k]|e|]; [|done..].
  destruct (Hpr m f at_ k eq_refl) as (Ha & Hk & Hak).
  assert (exists b2, (if 0 <? at_ then copy_within_0 (E:=Error) b' at_ (at_ + k) else Ok b') = Ok b2)
    as (b2 & ->).
  { zcase; [|eauto]. unfold copy_within_0. rewrite slice_ok by clia.
    rewrite copy_range_at by (autorewrite with len; clia). eauto. }
  destruct bad_path_frame; [done|].
  destruct (split_at (len body - TAGLEN) body) as (ct & tag & Hct & Hlct); [clia|].
  exists c, next, ct, tag, (b', n'). cbn [o_header].
  split; [done|]. split; [done|]. split; [done|].
  split; [by destruct next|]. split; [done|]. split; [done|].
  split; [rewrite <- Hct; unfold body; by rewrite takez_dropz|].
  split; [apply (f_equal len) in Hct; rewrite len_app in Hct; clia|].
  rewrite <- Hct. split; [done|]. by destruct next.
Qed.
End opening.

(** Every outcome of sealing: a frame under the next number, or nothing sent. *)
Lemma advance_send_seq `{Crypto} n s : s_send_seq (advance_send n s).1 = s_send_seq s.
Proof.
  revert s. induction n as [|n IH]; intros s; [done|]. cbn [advance_send].
  destruct (CipherState.rekeyed (s_send s)); [|done..]. by rewrite IH.
Qed.

Lemma advance_send_id `{Crypto} n s : s_session_id (advance_send n s).1 = s_session_id s.
Proof.
  revert s. induction n as [|n IH]; intros s; [done|]. cbn [advance_send].
  destruct (CipherState.rekeyed (s_send s)); [|done..]. by rewrite IH.
Qed.

(** The sequence number a frame carries in its header. *)
Definition frame_sequence (frame : bytes) : Z := from_le (takez 8 (dropz 6 frame)).

Lemma frame_sequence_wire h rest : is_u64 (sequence h) -> frame_sequence (Header.wire h ++ rest) = sequence h.
Proof.
  intros Hs. unfold frame_sequence, Header.wire.
  rewrite app_assoc, <- app_assoc. rewrite dropz_app by len_lia.
  rewrite takez_app by len_lia. apply from_le_to_le. cbn. lia.
Qed.

Lemma copy_range_after {E} (p q : bytes) a b src l :
  copy_range (E:=E) (p ++ q) a b src = Ok l -> a = len p -> exists r, l = p ++ r.
Proof.
  unfold copy_range. destruct (_ && _); [|done]. intros [= <-] ->.
  rewrite takez_app by done. eauto.
Qed.

Lemma seal_cases `{Crypto} s t payload mid frag fl padding out :
  is_u64 (s_send_seq s) ->
  match seal_frame_padded s t payload mid frag fl padding out with
  | (s', Ok (out', n)) =>
      s_send_seq s <> U64_MAX /\ s_send_seq s' = s_send_seq s + 1 /\
      frame_sequence out' = s_send_seq s
  | (s', _) => s_send_seq s' = s_send_seq s
  end.
Proof.
  intros Hs. unfold seal_frame_padded. destruct (Z.eqb_spec (s_send_seq s) U64_MAX) as [|Hmax]; [done|].
  pose proof (advance_send_seq (Z.to_nat (generation_of (s_send_seq s) - s_send_generation s)) s) as Hadv.
  destruct advance_send as [s1 [[]|e|]]; cbn [fst] in Hadv; [|done..].
  destruct (ok_or (checked_add (id_len mid) _) _) as [n|e|]; [|done..].
  destruct (ok_or (checked_add n _) _) as [inner|e|]; [|done..].
  destruct (is_padded padding && _); [done|].
  destruct (plaintext_len_of padding inner) as [plen|e|]; [|done..].
  destruct (ok_or (checked_add plen _) _) as [total|e|]; [|done..].
  destruct (len out <? total); [done|].
  set (h := {| frame_type := t; flags := _; session_id := _; sequence := _ |}).
  destruct (Z.ltb_spec (len out) HEADER_LEN) as [Hlt|Hge].
  { rewrite header_encode_short by done. done. }
  rewrite header_encode_ok by done. rewrite slice_head by (by rewrite len_header_wire).
  destruct slice as [body|e|]; [|done..].
  destruct write_body as [body'|e|]; [|done..].
  destruct CipherState.encrypt_at as [[b m]|e|]; [|done..]. cbn [fst].
  destruct copy_range as [out'|e|] eqn:Ec; [|done..].
  cbn [s_send_seq set_send]. rewrite Hadv. split; [done|]. split; [done|].
  assert (exists rest, out' = Header.wire h ++ rest) as [rest ->].
  { eapply copy_range_after; [exact Ec|]. by rewrite len_header_wire. }
  rewrite frame_sequence_wire; cbn; by rewrite Hadv.
Qed.

Lemma seal_total `{Crypto} s t payload mid frag fl padding out s' out' m :
  seal_frame_padded s t payload mid frag fl padding out = (s', Ok (out', m)) ->
  exists plen, plaintext_len_of padding (inner_len_of mid frag payload) = Ok plen /\
    m = plen + DATA_OVERHEAD.
Proof.
  unfold seal_frame_padded, inner_len_of. destruct (_ =? U64_MAX); [done|].
  destruct advance_send as [s1 [[]|e|]]; [|done..].
  unfold checked_add at 1. zcase; cbn [ok_or]; [|done].
  unfold checked_add at 1. zcase; cbn [ok_or]; [|done].
  destruct (is_padded padding && _); [done|].
  destruct plaintext_len_of as [plen|e|]; [|done..].
  unfold checked_add. zcase; cbn [ok_or]; [|done]. zcase; [done|].
  destruct Header.encode; [|done..]. destruct slice; [|done..]. destruct slice; [|done..].
  destruct write_body; [|done..]. destruct CipherState.encrypt_at; [|done..].
  destruct copy_range; [|done..]. intros. simplify_eq. eauto.
Qed.

(** Any sequence of frames handed to one session for sealing, and the frames
    that went on the wire. *)
Record SealCall := mkSealCall {
  sc_type : FrameType; sc_payload : bytes; sc_id : option Z; sc_fragment : option Fragment;
  sc_flags : Z; sc_padding : Padding; sc_out : bytes;
}.

Definition seal_call `{Crypto} (s : Session) (c : SealCall) : Session * Result (bytes * Z) :=
  seal_frame_padded s (sc_type c) (sc_payload c) (sc_id c) (sc_fragment c) (sc_flags c)
    (sc_padding c) (sc_out c).

Fixpoint sealed_frames `{Crypto} (s : Session) (calls : list SealCall) : list bytes :=
  match calls with
  | [] => []
  | c :: calls =>
      match seal_call s c with
      | (s, Ok (out, n)) => takez n out :: sealed_frames s calls
      | (s, _) => sealed_frames s calls
      end
  end.

(** A frame that the AEAD made: its header, in clear, is the associated data;
    the rest is what the AEAD returned under the key of the generation the
    header's number names and the nonce built from that number. *)
Definition aead_made `{Crypto} (k0 frame : bytes) : Prop :=
  exists h p ct tag,
    frame = Header.wire h ++ ct ++ tag /\ sequence h = frame_sequence frame /\
    aead_seal (chain k0 (generation_of (sequence h))) (CipherState.build_nonce (sequence h))
      (Header.wire h) p = Some (ct, tag).

(** Any sequence of datagrams handed to one session for opening, and the
    sequence numbers it accepted. *)
Fixpoint opened_sequences `{Crypto} (s : Session) (frames : list bytes) : list Z :=
  match frames with
  | [] => []
  | f :: frames =>
      match open s f with
      | (s, Ok (o, _)) => sequence (o_header o) :: opened_sequences s frames
      | (s, _) => opened_sequences s frames
      end
  end.

Lemma opened_sequences_fresh `{CL : CryptoLaws} s frames accepted :
  Forall bytes_ok frames -> ReplayWindow.rep (s_replay s) accepted ->
  NoDup (opened_sequences s frames) /\ forall q, In q (opened_sequences s frames) -> ~ In q accepted.
Proof.
  intros Hf. revert s accepted. induction Hf as [|f frames Hf _ IH]; intros s acc Hrep.
  - split; [constructor|done].
  - cbn [opened_sequences]. pose proof (open_cases s f Hf) as Hc.
    destruct (open s f) as [s' [[o b]|e|]]; [|by subst s'; apply IH|done].
    destruct Hc as (c & next & ct & tag & p & Hdec & _ & Hck & Hrw & _).
    destruct (header_decode_inv f (o_header o) Hf Hdec) as [(_ & _ & _ & Hseq) _].
    pose proof (rep_check _ _ (sequence (o_header o)) Hrep) as Hfresh. rewrite Hck in Hfresh.
    symmetry in Hfresh. apply fresh_spec in Hfresh as [Hnew _].
    destruct (IH s' (sequence (o_header o) :: acc)) as [Hnd Hni].
    { rewrite Hrw. apply rep_commit; [done..|]. by rewrite Hck. }
    split.
    + constructor; [|done]. intros Hin. apply list_elem_of_In, Hni in Hin. apply Hin. by left.
    + intros q [<-|Hin]; [done|]. apply Hni in Hin. cbn in Hin. tauto.
Qed.

(** ** Two sessions in step *)
Section pair.
Context `{CL : CryptoLaws}.

(** [b] receives what [a] sends, has accepted nothing [a] has not yet sent,
    and is at most one generation behind. *)
Definition in_step (k0 : bytes) (a b : Session) : Prop :=
  sends k0 a /\ receives k0 b /\ s_session_id a = s_session_id b /\
  (rw_started (s_replay b) = true -> rw_highest (s_replay b) < s_send_seq a) /\
  s_recv_generation b <= generation_of (s_send_seq a) <= s_recv_generation b + 1.

Lemma generation_succ n : is_u64 n -> generation_of n <= generation_of (n + 1) <= generation_of n + 1.
Proof.
  intros Hn. unfold generation_of. split; [apply Z.div_le_mono; clia|].
  replace (n / REKEY_INTERVAL + 1) with ((n + REKEY_INTERVAL) / REKEY_INTERVAL).
  - apply Z.div_le_mono; clia.
  - rewrite <- (Z.div_add n 1 REKEY_INTERVAL) by done. f_equal.
Qed.

Lemma sends_after k0 a :
  sends k0 a -> s_send_seq a <> U64_MAX ->
  sends k0 (set_send a (cipher_at k0 (generation_of (s_send_seq a))) (generation_of (s_send_seq a))
              (s_send_seq a + 1)).
Proof.
  intros (_ & Hg & Hs & Hid) Hmax. pose proof (generation_succ _ Hs).
  pose proof (generation_nonneg _ Hs). repeat split; cbn; try done; try clia.
Qed.

Lemma check_newer w seq :
  (rw_started w = true -> rw_highest w < seq) -> ReplayWindow.check w seq = Ok tt.
Proof.
  intros Hw. unfold ReplayWindow.check. destruct (rw_started w); cbn [negb]; [|done].
  by rewrite (proj2 (Z.ltb_lt _ _)) by auto.
Qed.

Lemma commit_newer w seq :
  (rw_started w = true -> rw_highest w < seq) -> rw_highest (ReplayWindow.commit w seq) = seq.
Proof.
  intros Hw. unfold ReplayWindow.commit. destruct (rw_started w); cbn [negb]; [|done].
  by rewrite (proj2 (Z.ltb_lt _ _)) by auto.
Qed.

(** A frame sealed by [a] and opened by [b], end to end. *)
Lemma step_exchange k0 a b t payload mid frag fl padding out plen :
  in_step k0 a b -> s_send_seq a <> U64_MAX -> caller_flags fl -> id_ok mid -> fragment_ok frag ->
  is_padded padding && (U16_MAX <? inner_len_of mid frag payload) = false ->
  plaintext_len_of padding (inner_len_of mid frag payload) = Ok plen ->
  plen <= AEAD_MAX -> plen + DATA_OVERHEAD <= len out -> opens t = true ->
  bad_path_frame (frame_header a t mid frag fl padding) (len payload) mid frag = false ->
  exists a' b' out' tail,
    seal_frame_padded a t payload mid frag fl padding out = (a', Ok (out', plen + DATA_OVERHEAD)) /\
    open b (takez (plen + DATA_OVERHEAD) out') =
      (b', Ok ({| o_header := frame_header a t mid frag fl padding; o_len := len payload;
                  o_message_id := mid; o_fragment := frag |},
               Header.wire (frame_header a t mid frag fl padding) ++ payload ++ tail)) /\
    in_step k0 a' b' /\ s_send_seq a' = s_send_seq a + 1 /\ s_padding a' = s_padding a /\
    s_peer_caps a' = s_peer_caps a /\
    (exists recv prev gen replay, b' = set_recv b recv prev gen replay).
Proof.
  intros (Hsend & Hrecv & Hid & Hnew & Hgen) Hmax Hfl Hmid Hfr Hpad Hplen Hae Hout Ht Hbad.
  destruct (seal_spec k0 a t payload mid frag fl padding out plen)
    as (ct & tag & rest & Hsl & Hct & Htag & Hseal); [done..|].
  pose proof Hsend as (_ & _ & Hs64 & _).
  unfold frame_header in *. rewrite Hid in *.
  destruct (open_spec k0 b t payload mid frag fl padding plen (s_send_seq a) ct tag)
    as (tail & Hopen); try done.
  { left. clia. }
  { by apply check_newer. }
  do 4 eexists. split; [exact Hseal|]. split.
  { rewrite app_assoc, takez_app by (rewrite !len_app, len_header_wire, Hct, Htag; clia).
    exact Hopen. }
  split; [|split; [done|split; [done|split; [done|]]]].
  - split; [by apply sends_after|]. split; [by apply after_open_receives|].
    pose proof (generation_succ _ Hs64).
    unfold after_open. destruct (Z.ltb_spec (s_recv_generation b) (generation_of (s_send_seq a)));
      (split; [done|]); cbn; rewrite commit_newer by done; split; lia.
  - unfold after_open. destruct (s_recv_generation b <? _); do 4 eexists; reflexivity.
Qed.

End pair.

(** ** What a session seals *)
Lemma build_nonce_inj q r :
  is_u64 q -> is_u64 r -> CipherState.build_nonce q = CipherState.build_nonce r -> q = r.
Proof.
  unfold CipherState.build_nonce. intros Hq Hr E. apply app_inv_head in E.
  apply (f_equal from_le) in E. rewrite !from_le_to_le in E; [done|cbn; clia..].
Qed.

(** Every outcome of sealing on the chain of [k0]: the AEAD made the frame
    under the session's number, or the number is still to be used. *)
Lemma seal_made `{CL : CryptoLaws} k0 s t payload mid frag fl padding out :
  sends k0 s ->
  match seal_frame_padded s t payload mid frag fl padding out with
  | (s', Ok (out', n)) =>
      s_send_seq s <> U64_MAX /\ s_send_seq s' = s_send_seq s + 1 /\ sends k0 s' /\
      frame_sequence (takez n out') = s_send_seq s /\ aead_made k0 (takez n out')
  | (s', _) => s_send_seq s' = s_send_seq s /\ sends k0 s'
  end.
Proof.
  intros Hk. pose proof Hk as (Hsend & Hgen & Hseq & Hsid).
  unfold seal_frame_padded. destruct (Z.eqb_spec (s_send_seq s) U64_MAX) as [|Hmax]; [done|].
  set (g := generation_of (s_send_seq s)) in *.
  rewrite (advance_send_spec k0) by (done || lia).
  replace (s_send_generation s + Z.of_nat (Z.to_nat (g - s_send_generation s))) with g by lia.
  set (s1 := set_send s (cipher_at k0 g) g (s_send_seq s)).
  assert (s_send_seq s1 = s_send_seq s /\ sends k0 s1) as Hs1.
  { split; [done|]. unfold sends. cbn. fold g. repeat split; done || lia. }
  destruct (checked_add (id_len mid) _) as [n|] eqn:En; cbn [ok_or]; [|done].
  destruct (checked_add n _) as [inner|] eqn:Ei; cbn [ok_or]; [|done].
  destruct (is_padded padding && _) eqn:Hpad; [done|].
  destruct (plaintext_len_of padding inner) as [plen|e|] eqn:Hplen; [|done..].
  destruct (checked_add plen _) as [total|] eqn:Et; cbn [ok_or]; [|done].
  unfold checked_add in En, Ei, Et.
  zcase_in En; [|done]. zcase_in Ei; [|done]. zcase_in Et; [|done].
  injection En as <-. injection Ei as <-. injection Et as <-.
  fold (inner_len_of mid frag payload) in *.
  destruct (plaintext_len_ok _ _ _ _ _ Hpad Hplen) as [_ Hptlen].
  assert (0 <= plen) by (rewrite <- Hptlen; apply len_nonneg).
  destruct (Z.ltb_spec (len out) (plen + DATA_OVERHEAD)) as [|Hout]; [done|].
  set (h := {| frame_type := t; flags := _; session_id := _; sequence := _ |}).
  rewrite header_encode_ok by clia. rewrite slice_head by len_lia.
  destruct (split_at (plen + TAGLEN) (dropz HEADER_LEN out)) as (body & rest & -> & Hbody);
    [len_lia|].
  rewrite slice_mid by len_lia.
  destruct (write_body_spec padding mid frag payload plen body Hpad Hplen Hbody) as (post & Hpost & ->).
  unfold CipherState.encrypt_at. cbn [s_send s1 set_send cipher_at cs_key ok_or].
  unfold checked_add. zcase; cbn [ok_or]; [|done].
  rewrite (proj2 (Z.ltb_ge _ _)) by len_lia. rewrite slice_head by done.
  destruct aead_seal as [[ct tag]|] eqn:Ea; cbn [ok_or]; [|done].
  destruct (aead_len _ _ _ _ _ _ Ea) as [Hct Htag].
  rewrite copy_range_head by (done || lia).
  rewrite <- (app_nil_r post), copy_range_mid by len_lia. rewrite app_nil_r. cbn [fst].
  rewrite copy_range_mid by len_lia.
  assert (takez (plen + DATA_OVERHEAD) (Header.wire h ++ (ct ++ tag) ++ rest) =
          Header.wire h ++ ct ++ tag) as ->.
  { rewrite app_assoc, takez_app by (rewrite !len_app, len_header_wire; clia). done. }
  split; [done|]. split; [done|]. split; [exact (sends_after k0 s Hk Hmax)|].
  assert (frame_sequence (Header.wire h ++ ct ++ tag) = s_send_seq s) as Hq
    by (by rewrite frame_sequence_wire).
  split; [done|]. exists h, (plaintext padding mid frag payload plen), ct, tag.
  split; [done|]. split; [by rewrite Hq|exact Ea].
Qed.

Lemma sealed_frames_made `{CL : CryptoLaws} k0 s calls :
  sends k0 s ->
  map frame_sequence (sealed_frames s calls) = seqZ (s_send_seq s) (len (sealed_frames s calls)) /\
  s_send_seq s + len (sealed_frames s calls) <= U64_MAX /\
  Forall (aead_made k0) (sealed_frames s calls).
Proof.
  revert s. induction calls as [|c calls IH]; intros s Hs.
  - pose proof Hs as (_ & _ & ? & _). cbn [sealed_frames]. rewrite len_nil.
    split; [done|]. split; [clia|constructor].
  - cbn [sealed_frames]. unfold seal_call.
    pose proof (seal_made k0 s (sc_type c) (sc_payload c) (sc_id c) (sc_fragment c) (sc_flags c)
      (sc_padding c) (sc_out c) Hs) as Hc.
    destruct seal_frame_padded as [s' [[out n]|e|]].
    + destruct Hc as (Hmax & Hs' & Hk & Hq & Hm). destruct (IH s' Hk) as (Hseq & Hle & Hall).
      rewrite len_cons. pose proof (len_nonneg (sealed_frames s' calls)).
      split; [|split; [lia|by constructor]]. cbn [map]. rewrite Hq, Hseq, Hs'.
      rewrite (seqZ_cons (s_send_seq s) (1 + _)) by lia. f_equal. f_equal; lia.
    + destruct Hc as [<- Hk]. by apply IH.
    + destruct Hc as [<- Hk]. by apply IH.
Qed.

(** A stream of payloads sealed by one end and opened in order by the other,
    and what the receiver read. *)
Fixpoint carry `{Crypto} (a b : Session) (payloads : list bytes) : option (list bytes) :=
  match payloads with
  | [] => Some []
  | p :: payloads =>
      match seal a p 0 (zeros (len p + DATA_OVERHEAD)) with
      | (a, Ok (out, n)) =>
          match open b (takez n out) with
          | (b, Ok (o, buf)) =>
              match carry a b payloads with
              | Some ps => Some (takez (o_len o) (dropz HEADER_LEN buf) :: ps)
              | None => None
              end
          | _ => None
          end
      | _ => None
      end
  end.

(** ** Properties *)
#[local] Existing Instances Toy.crypto Toy.laws.

(** A pair of sessions as a handshake leaves them. *)
Definition toy_sender : Session :=
  Session.new (cipher_at (zeros 32) 0) (cipher_at (zeros 32) 0) 7 (Capabilities.minimal 1200) [] [].

Lemma toy_in_step : in_step (zeros 32) toy_sender toy_sender.
Proof.
  unfold in_step, sends, receives, toy_sender. cbn. repeat split; try done; try clia.
Qed.

(** C2: what one end seals the other opens. For any frame type, payload,
    message identifier, fragment and padding, a sender and a receiver on the
    same key chain agree: the frame has exactly the length the padding
    dictates, and if its number is fresh and its generation within reach (up
    to four ahead, or one behind while that key is kept) the receiver recovers
    the payload, the identifier and the fragment, and both stay on the chain. *)
Theorem session_roundtrip `{CL : CryptoLaws} k0 a b t payload mid frag fl padding out plen :
  sends k0 a -> receives k0 b -> s_session_id a = s_session_id b -> s_send_seq a <> U64_MAX ->
  ReplayWindow.check (s_replay b) (s_send_seq a) = Ok tt ->
  in_reach b (generation_of (s_send_seq a)) ->
  caller_flags fl -> id_ok mid -> fragment_ok frag ->
  is_padded padding && (U16_MAX <? inner_len_of mid frag payload) = false ->
  plaintext_len_of padding (inner_len_of mid frag payload) = Ok plen ->
  plen <= AEAD_MAX -> plen + DATA_OVERHEAD <= len out ->
  opens t = true ->
  bad_path_frame (frame_header a t mid frag fl padding) (len payload) mid frag = false ->
  exists a' b' out' buf,
    seal_frame_padded a t payload mid frag fl padding out = (a', Ok (out', plen + DATA_OVERHEAD)) /\
    open b (takez (plen + DATA_OVERHEAD) out') =
      (b', Ok ({| o_header := frame_header a t mid frag fl padding; o_len := len payload;
                  o_message_id := mid; o_fragment := frag |}, buf)) /\
    takez (len payload) (dropz HEADER_LEN buf) = payload /\
    sends k0 a' /\ receives k0 b' /\ s_send_seq a' = s_send_seq a + 1.
Proof.
  intros Hs Hr Hid Hmax Hck Hreach Hfl Hmid Hfr Hpad Hplen Hae Hout Ht Hbad.
  destruct (seal_spec k0 a t payload mid frag fl padding out plen)
    as (ct & tag & rest & Hsl & Hct & Htag & Hseal); [done..|].
  pose proof Hs as (_ & _ & Hs64 & _).
  unfold frame_header in *. rewrite Hid in *.
  destruct (open_spec k0 b t payload mid frag fl padding plen (s_send_seq a) ct tag)
    as (tail & Hopen); try done.
  do 4 eexists. split; [exact Hseal|]. split.
  { rewrite app_assoc, takez_app by (rewrite !len_app, len_header_wire, Hct, Htag; clia).
    exact Hopen. }
  split; [rewrite dropz_app by (by rewrite len_header_wire); by apply takez_app|].
  split; [by apply sends_after|]. split; [by apply after_open_receives|done].
Qed.

Lemma session_roundtrip_witness :
  exists a' b' out' buf,
    seal_frame_padded toy_sender Data [104; 105] (Some 9) (Some (mkFragment 3 0 2)) 1 PadBlock (zeros 200)
      = (a', Ok (out', 64 + DATA_OVERHEAD)) /\
    open toy_sender (takez (64 + DATA_OVERHEAD) out') =
      (b', Ok ({| o_header := frame_header toy_sender Data (Some 9) (Some (mkFragment 3 0 2)) 1 PadBlock;
                  o_len := 2; o_message_id := Some 9; o_fragment := Some (mkFragment 3 0 2) |}, buf)) /\
    takez 2 (dropz HEADER_LEN buf) = [104; 105].
Proof.
  destruct toy_in_step as (Hs & Hr & _).
  destruct (session_roundtrip (zeros 32) toy_sender toy_sender Data [104; 105] (Some 9)
    (Some (mkFragment 3 0 2)) 1 PadBlock (zeros 200) 64 Hs Hr)
    as (a' & b' & out' & buf & H1 & H2 & H3 & _).
  1-13: try done.
  - left. by vm_compute.
  - by right.
  - exists a', b', out', buf. split; [exact H1|]. split; [exact H2|exact H3].
Defined.

(** a session carries a stream of any length. From two sessions in step,
    every payload sealed by one is recovered by the other, in order, through
    any number of key changes, until the sequence numbers run out. *)
Theorem session_stream `{CL : CryptoLaws} k0 a b payloads :
  in_step k0 a b -> s_padding a = false ->
  Forall (fun p => len p <= AEAD_MAX) payloads ->
  s_send_seq a + len payloads <= U64_MAX ->
  carry a b payloads = Some payloads.
Proof.
  intros Hab Hpad Hall. revert a b Hab Hpad. induction Hall as [|p payloads Hp _ IH];
    intros a b Hab Hpad Hseq; [done|].
  rewrite len_cons in Hseq. pose proof (len_nonneg payloads). pose proof (len_nonneg p).
  destruct (step_exchange k0 a b Data p None None 0 PadNone (zeros (len p + DATA_OVERHEAD)) (len p))
    as (a' & b' & out' & tail & Hseal & Hopen & Hab' & Hseq' & Hpad' & _);
    try done; [lia|by left|rewrite len_zeros; clia|].
  cbn [carry]. unfold seal, seal_frame. rewrite Hpad, Hseal, Hopen. cbn [o_len].
  rewrite (IH a' b' Hab'); [|congruence|lia].
  rewrite dropz_app by (by rewrite len_header_wire). by rewrite takez_app.
Qed.

Lemma session_stream_witness :
  carry toy_sender toy_sender [[1; 2]; []; [3]] = Some [[1; 2]; []; [3]].
Proof.
  apply (session_stream (zeros 32)); [apply toy_in_step|done| |by vm_compute].
  repeat constructor; by vm_compute.
Defined.

(** C3: a sender never uses an AEAD nonce twice under one key. Whatever is
    handed to a session for sealing, in whatever order and with whatever
    failures, the frames that go out carry consecutive sequence numbers from
    the session's counter on. Each of them is what the AEAD returned for its
    header under the nonce built from its own number and the key of the
    generation that number names; those nonces are all different, and none is
    the nonce the change of keys uses. *)
Theorem seal_nonces_unique `{CL : CryptoLaws} k0 s calls :
  sends k0 s ->
  map frame_sequence (sealed_frames s calls) = seqZ (s_send_seq s) (len (sealed_frames s calls)) /\
  Forall (aead_made k0) (sealed_frames s calls) /\
  NoDup (map (fun f => CipherState.build_nonce (frame_sequence f)) (sealed_frames s calls)) /\
  Forall (fun f => CipherState.build_nonce (frame_sequence f) <> CipherState.build_nonce MAX_NONCE)
    (sealed_frames s calls).
Proof.
  intros Hk. destruct (sealed_frames_made k0 s calls Hk) as (Hseq & Hle & Hmade).
  split; [done|]. split; [done|].
  pose proof Hk as (_ & _ & Hs64 & _).
  assert (Forall (fun q => s_send_seq s <= q < U64_MAX) (map frame_sequence (sealed_frames s calls)))
    as Hrange.
  { rewrite Hseq. apply list.Forall_forall. intros q Hq. apply elem_of_seqZ in Hq. lia. }
  split.
  - rewrite <- (map_map frame_sequence CipherState.build_nonce).
    apply NoDup_fmap_2_strong; [|rewrite Hseq; apply NoDup_seqZ].
    intros q r Hq Hr. rewrite list.Forall_forall in Hrange. apply Hrange in Hq, Hr.
    apply build_nonce_inj; clia.
  - apply List.Forall_map in Hrange. revert Hrange. apply List.Forall_impl. intros f Hf E.
    apply build_nonce_inj in E; clia.
Qed.

Lemma seal_nonces_unique_witness :
  let calls := [mkSealCall Data [1] None None 0 PadNone (zeros 100);
                mkSealCall Data [1] None None 0 PadNone [];
                mkSealCall AckFrame [2] (Some 4) None 0 PadBlock (zeros 100)] in
  map frame_sequence (sealed_frames toy_sender calls) = [0; 1] /\
  Forall (aead_made (zeros 32)) (sealed_frames toy_sender calls).
Proof.
  destruct toy_in_step as (Hs & _). intros calls. split; [by vm_compute|].
  apply (seal_nonces_unique (zeros 32) toy_sender calls Hs).
Defined.

(** C5: a receiver never accepts a sequence number twice: over any datagrams
    whatever, the numbers of the frames it accepted are distinct, and none of
    them is one it had accepted before. *)
Theorem open_no_replay `{CL : CryptoLaws} s frames accepted :
  Forall bytes_ok frames -> ReplayWindow.rep (s_replay s) accepted ->
  NoDup (opened_sequences s frames) /\
  (forall q, In q (opened_sequences s frames) -> ~ In q accepted).
Proof. apply opened_sequences_fresh. Qed.

Lemma open_no_replay_witness :
  NoDup (opened_sequences toy_sender [zeros 40; Header.wire (Header.new Data 7) ++ zeros 20]).
Proof.
  apply (open_no_replay toy_sender [zeros 40; Header.wire (Header.new Data 7) ++ zeros 20] []).
  - constructor; [apply bytes_ok_zeros|]. constructor; [|constructor].
    apply bytes_ok_app. split; [|apply bytes_ok_zeros].
    apply header_wire_bytes_ok. vm_compute. intuition congruence.
  - done.
Defined.

(** C22: a frame that is refused changes nothing. On any bytes whatever,
    opening returns a value or an error and never panics, and on every error,
    whether the header, the replay window, the key or the content was at
    fault, the session is exactly what it was. *)
Theorem open_refusal_inert `{CL : CryptoLaws} s frame :
  bytes_ok frame ->
  (open s frame).2 <> Panic /\
  (forall e, (open s frame).2 = Err e -> (open s frame).1 = s).
Proof.
  intros Hb. pose proof (open_cases s frame Hb) as Hc.
  destruct (open s frame) as [s' [[o b]|e|]]; cbn; [done| |done].
  split; [done|]. by intros e' _.
Qed.

Lemma open_refusal_inert_witness :
  (open toy_sender (zeros 64)).2 = Err UnsupportedVersion /\ (open toy_sender (zeros 64)).1 = toy_sender.
Proof.
  assert ((open toy_sender (zeros 64)).2 = Err UnsupportedVersion) as E by (by vm_compute).
  split; [exact E|].
  destruct (open_refusal_inert toy_sender (zeros 64)) as [_ H]; [|exact (H _ E)].
  apply bytes_ok_zeros.
Defined.

(** C6: a frame that is accepted is authentic. Its tag verified, over the
    header and the ciphertext, under the chain key of the generation its
    sequence number names, at most four generations ahead; the header carries
    the session's identifier; and the receiver stays on the chain, so no
    frame can move it to a key the sender does not hold. *)
Theorem open_authentic `{CL : CryptoLaws} k0 s frame s' o buf :
  bytes_ok frame -> receives k0 s -> open s frame = (s', Ok (o, buf)) ->
  exists ct tag p,
    frame = Header.wire (o_header o) ++ ct ++ tag /\
    aead_open (chain k0 (generation_of (sequence (o_header o))))
      (CipherState.build_nonce (sequence (o_header o))) (Header.wire (o_header o)) ct tag = Some p /\
    session_id (o_header o) = s_session_id s /\
    generation_of (sequence (o_header o)) <= s_recv_generation s + MAX_REKEY_LOOKAHEAD /\
    s_recv_generation s <= s_recv_generation s' /\ receives k0 s'.
Proof.
  intros Hb Hr Hopen. pose proof (open_cases s frame Hb) as Hc. rewrite Hopen in Hc.
  destruct Hc as (c & next & ct & tag & p & Hdec & Hsid & _ & _ & Hah & Hkey & Hfr & Htag & Hd & ->).
  destruct (header_decode_inv frame (o_header o) Hb Hdec) as [(_ & _ & _ & Hseq) Hwire].
  set (h := o_header o) in *. set (g := generation_of (sequence h)) in *.
  pose proof (generation_nonneg _ Hseq) as Hg. fold g in Hg.
  assert (takez HEADER_LEN frame = Header.wire h) as Hhdr
    by (rewrite Hwire; apply takez_app; by rewrite len_header_wire).
  rewrite Hhdr in Hfr, Hd.
  assert (in_reach s g) as Hreach.
  { unfold in_reach. unfold choose_key in Hkey. unfold saturating_sub in Hah, Hkey.
    zcase_in Hkey; [left; clia|]. zcase_in Hkey; [left; clia|].
    zcase_in Hkey; [|done]. right. split; [done|]. by destruct (s_recv_prev s). }
  destruct (choose_key_spec k0 s g Hr Hreach Hg) as [_ Hk]. rewrite Hk in Hkey. simplify_eq.
  unfold CipherState.decrypt_at in Hd. cbn [cipher_at cs_key ok_or] in Hd.
  rewrite (proj2 (Z.ltb_ge _ _)) in Hd by (rewrite len_app; pose proof (len_nonneg ct); lia).
  replace (len (ct ++ tag) - TAGLEN) with (len ct) in Hd by (rewrite len_app; lia).
  rewrite slice_head, slice_from_mid in Hd by done.
  destruct aead_open as [pt|] eqn:Eo; [|done].
  exists ct, tag, pt. split; [done|]. split; [done|]. split; [done|].
  split; [unfold saturating_sub in Hah; lia|].
  pose proof (after_open_receives k0 s (sequence h) Hr Hseq) as Hafter.
  unfold after_open in Hafter. fold g in Hafter.
  destruct (Z.ltb_spec (s_recv_generation s) g); cbn; (split; [lia|exact Hafter]).
Qed.

Definition toy_frame : bytes :=
  match seal toy_sender [104; 105] 0 (zeros 32) with (_, Ok (f, _)) => f | _ => [] end.

Lemma open_authentic_witness :
  exists s' o buf, open toy_sender toy_frame = (s', Ok (o, buf)) /\ receives (zeros 32) s'.
Proof.
  destruct (open toy_sender toy_frame) as [s' [[o buf]|e|]] eqn:E.
  - exists s', o, buf. split; [done|].
    destruct (open_authentic (zeros 32) toy_sender toy_frame s' o buf) as (ct & tag & p & H).
    + vm_compute. repeat constructor; congruence.
    + apply toy_in_step.
    + exact E.
    + apply H.
  - vm_compute in E. discriminate.
  - vm_compute in E. discriminate.
Defined.

(** a path probe is exactly the size asked for and opens to its token,
    and a response is never larger than the challenge it answers. *)
Theorem path_probe_exact `{CL : CryptoLaws} k0 a b token n out :
  in_step k0 a b -> s_send_seq a <> U64_MAX -> len token = PATH_TOKEN_LEN ->
  MIN_PROBE_LEN <= n <= AEAD_MAX -> n <= len out ->
  exists a' b' out' o buf,
    seal_path_probe a token n out = (a', Ok (out', n)) /\
    open b (takez n out') = (b', Ok (o, buf)) /\
    frame_type (o_header o) = PathChallenge /\ o_len o = PATH_TOKEN_LEN /\
    takez PATH_TOKEN_LEN (dropz HEADER_LEN buf) = token /\
    (forall out2 b2 out3 m, seal_path_response b' token out2 = (b2, Ok (out3, m)) -> m <= n).
Proof.
  intros (Hs & Hr & Hid & Hnew & Hgen) Hmax Htok Hn Hout.
  unfold seal_path_probe. rewrite (proj2 (Z.ltb_ge _ _)) by lia.
  assert (inner_len_of None None token = PATH_TOKEN_LEN) as Hin by (unfold inner_len_of; cbn; lia).
  assert (plaintext_len_of (PadExact (n - DATA_OVERHEAD)) (inner_len_of None None token)
    = Ok (n - DATA_OVERHEAD)) as Hpl
    by (rewrite Hin; cbn; rewrite (proj2 (Z.ltb_ge _ _)); [done|clia]).
  destruct (seal_spec k0 a PathChallenge token None None 0 (PadExact (n - DATA_OVERHEAD)) out
    (n - DATA_OVERHEAD)) as (ct & tag & rest & Hsl & Hct & Htag & Hseal);
    [done|done|by rewrite Hin|done|clia|clia|].
  pose proof Hs as (_ & _ & Hs64 & _). unfold frame_header in *. rewrite Hid in *.
  destruct (open_spec k0 b PathChallenge token None None 0 (PadExact (n - DATA_OVERHEAD))
    (n - DATA_OVERHEAD) (s_send_seq a) ct tag) as (tail & Hopen); try done.
  { left. clia. } { by apply check_newer. } { by left. } { by rewrite Hin. }
  { cbn. by rewrite Htok. }
  replace (n - DATA_OVERHEAD + DATA_OVERHEAD) with n in Hseal by lia.
  do 5 eexists. split; [exact Hseal|]. split.
  { rewrite app_assoc, takez_app by (rewrite !len_app, len_header_wire, Hct, Htag; clia). exact Hopen. }
  cbn [o_header o_len frame_type]. split; [done|]. split; [done|].
  split; [rewrite dropz_app by (by rewrite len_header_wire); by rewrite <- Htok, takez_app|].
  intros out2 b2 out3 m Hresp. apply seal_total in Hresp as (plen & Hplen & ->).
  rewrite Hin in Hplen. cbn in Hplen. simplify_eq. clia.
Qed.

Lemma path_probe_exact_witness :
  exists a' out', seal_path_probe toy_sender (zeros 8) 60 (zeros 80) = (a', Ok (out', 60)).
Proof.
  destruct (path_probe_exact (zeros 32) toy_sender toy_sender (zeros 8) 60 (zeros 80))
    as (a' & b' & out' & o & buf & H & _);
    [apply toy_in_step|done|by vm_compute|by vm_compute|by vm_compute|].
  exists a', out'. exact H.
Defined.
