(* ===== verification/Connect.v ===== *)
(** * Establishing a session
      (crates/fectp-core/src/session.rs, [Initiator], [Responder],
      [ResumeInitiator], [ResumeResponder])

    The framed handshakes: a header, the Noise message, and inside it the
    capability block and the application's 0-RTT payload. The theorems compose
    the handshake and the session: whoever completes either exchange holds two
    sessions in step in both directions. *)
From S2P Require Import Prelude Bytes Error Frame Fragment Codec Reliability Replay.
From S2P Require Import Cipher Symmetric Handshake Session.

Definition INITIATOR_OVERHEAD : Z := HEADER_LEN + MSG1_OVERHEAD + CAPS_LEN.
Definition RESPONDER_OVERHEAD : Z := HEADER_LEN + MSG2_OVERHEAD + CAPS_LEN.
Definition RESUME_INIT_OVERHEAD : Z := HEADER_LEN + TICKET_ID_LEN + RESUME_MSG_OVERHEAD + CAPS_LEN.
Definition RESUME_RESPONSE_OVERHEAD : Z := HEADER_LEN + RESUME_MSG_OVERHEAD + CAPS_LEN.
#[export] Hint Unfold INITIATOR_OVERHEAD RESPONDER_OVERHEAD RESUME_INIT_OVERHEAD
  RESUME_RESPONSE_OVERHEAD : consts.

(** [caps.encode(payload)?; payload[CAPS_LEN..].copy_from_slice(app)] on the
    payload range of a Noise buffer, as all four writers do. *)
Definition stage_payload (caps : Capabilities) (app noise : bytes) (offset payload_len : Z)
  : Result bytes :=
  let? payload := slice noise offset (offset + payload_len) in
  let? payload := Capabilities.encode caps payload in
  let? payload := copy_range payload CAPS_LEN (len payload) app in
  copy_range noise offset (offset + payload_len) payload.

(** The capability block split off the decrypted payload, as all four readers
    do: the peer's capabilities, the buffer with the application's payload
    moved to the front, and its length. *)
Definition take_caps (out : bytes) (pt_len : Z) : Result (Capabilities * bytes * Z) :=
  if pt_len <? CAPS_LEN then Err MessageTooShort else
  let? block := slice out 0 CAPS_LEN in
  let? caps := Capabilities.decode block in
  let? out := copy_within_0 out CAPS_LEN pt_len in
  Ok (caps, out, pt_len - CAPS_LEN).

Record Initiator (S : Type) := mkInitiator {
  i_hs : HandshakeState S;
  i_session_id : Z;
  i_caps : Capabilities;
}.
Arguments mkInitiator {S}. Arguments i_hs {S}. Arguments i_session_id {S}. Arguments i_caps {S}.

Module Initiator.
Section initiator.
Context `{Crypto} {S : Type} `{StaticKey S}.

Definition new (static_key : S) (remote_static : bytes) (sid : Z) (caps : Capabilities)
  : Result (Initiator S) :=
  let? prologue := Header.encode (Header.new HandshakeInit sid) (zeros HEADER_LEN) in
  let? hs := HandshakeState.initiator static_key remote_static prologue in
  Ok (mkInitiator hs sid caps).

Definition write_init (i : Initiator S) (random app_payload out : bytes)
  : Initiator S * Result (bytes * Z) :=
  let! (i, payload_len) := (i, ok_or (checked_add CAPS_LEN (len app_payload)) PayloadTooLarge) in
  let! (i, total) := (i, ok_or (checked_add INITIATOR_OVERHEAD (len app_payload)) PayloadTooLarge) in
  if len out <? total then (i, Err BufferTooSmall) else
  let! (i, out) := (i, Header.encode (Header.new HandshakeInit (i_session_id i)) out) in
  let! (i, noise) := (i, slice out HEADER_LEN total) in
  let! (i, noise) := (i, stage_payload (i_caps i) app_payload noise MSG1_PAYLOAD_OFFSET payload_len) in
  let '(hs, r) := HandshakeState.write_message_1_in_place (i_hs i) random payload_len noise in
  let i := mkInitiator hs (i_session_id i) (i_caps i) in
  let! (i, r) := (i, r) in
  let! (i, out) := (i, copy_range out HEADER_LEN total r.1) in
  (i, Ok (out, HEADER_LEN + r.2)).

(** Consumes the initiator. *)
Definition read_response (i : Initiator S) (frame out : bytes) : Result (Session * bytes * Z) :=
  let? header := Header.decode frame in
  if bool_decide (frame_type header <> HandshakeResponse)
     || negb (session_id header =? i_session_id i) then Err BadHeader else
  let? msg := slice_from frame HEADER_LEN in
  let '(hs, r) := HandshakeState.read_message_2 (i_hs i) msg out in
  let? (out, pt_len) := r in
  let? (peer_caps, out, app_len) := take_caps out pt_len in
  let? remote_static := ok_or (HandshakeState.remote_static hs) HandshakeStateError in
  let resumption_key := HandshakeState.resumption_key hs in
  let? (send, recv) := HandshakeState.split hs in
  Ok (Session.new send recv (i_session_id i) peer_caps remote_static resumption_key, out, app_len).
End initiator.
End Initiator.

Record Responder (S : Type) := mkResponder {
  r_static_key : option S;
  r_hs : option (HandshakeState S);
  r_static_public : bytes;
  r_session_id : Z;
  r_caps : Capabilities;
  r_peer_caps : option Capabilities;
}.
Arguments mkResponder {S}. Arguments r_static_key {S}. Arguments r_hs {S}.
Arguments r_static_public {S}. Arguments r_session_id {S}. Arguments r_caps {S}.
Arguments r_peer_caps {S}.

Module Responder.
Section responder.
Context `{Crypto} {S : Type} `{StaticKey S}.

Definition new (static_key : S) (caps : Capabilities) : Responder S :=
  mkResponder (Some static_key) None (sk_public static_key) 0 caps None.

(** The static key is taken as soon as the header is accepted. *)
Definition read_init (r : Responder S) (frame out : bytes) : Responder S * Result (bytes * Z) :=
  let! (r, header) := (r, Header.decode frame) in
  if bool_decide (frame_type header <> HandshakeInit) then (r, Err BadHeader) else
  let! (r, static_key) := (r, ok_or (r_static_key r) HandshakeStateError) in
  let r := mkResponder None (r_hs r) (r_static_public r) (r_session_id r) (r_caps r) (r_peer_caps r) in
  let! (r, prologue) := (r, slice frame 0 HEADER_LEN) in
  let! (r, hs) := (r, HandshakeState.responder static_key prologue) in
  let! (r, msg) := (r, slice_from frame HEADER_LEN) in
  let '(hs, res) := HandshakeState.read_message_1 hs msg out in
  let! (r, pt) := (r, res) in
  let! (r, t) := (r, take_caps pt.1 pt.2) in
  let '(caps, out, app_len) := t in
  (mkResponder (r_static_key r) (Some hs) (r_static_public r) (session_id header) (r_caps r)
     (Some caps), Ok (out, app_len)).

Definition remote_static (r : Responder S) : option bytes :=
  match r_hs r with Some hs => HandshakeState.remote_static hs | None => None end.

(** Consumes the responder. *)
Definition write_response (r : Responder S) (random app_payload out : bytes)
  : Result (Session * bytes * Z) :=
  let? peer_caps := ok_or (r_peer_caps r) HandshakeStateError in
  let? hs := ok_or (r_hs r) HandshakeStateError in
  let? payload_len := ok_or (checked_add CAPS_LEN (len app_payload)) PayloadTooLarge in
  let? total := ok_or (checked_add RESPONDER_OVERHEAD (len app_payload)) PayloadTooLarge in
  if len out <? total then Err BufferTooSmall else
  let? out := Header.encode (Header.new HandshakeResponse (r_session_id r)) out in
  let? noise := slice out HEADER_LEN total in
  let? noise := stage_payload (r_caps r) app_payload noise MSG2_PAYLOAD_OFFSET payload_len in
  let '(hs, res) := HandshakeState.write_message_2_in_place hs random payload_len noise in
  let? (noise, n) := res in
  let? out := copy_range out HEADER_LEN total noise in
  let? remote_static := ok_or (HandshakeState.remote_static hs) HandshakeStateError in
  let resumption_key := HandshakeState.resumption_key hs in
  let? (send, recv) := HandshakeState.split hs in
  Ok (Session.new send recv (r_session_id r) peer_caps remote_static resumption_key,
      out, HEADER_LEN + n).
End responder.
End Responder.

Record ResumeInitiator := mkResumeInitiator {
  ri_hs : ResumeHandshake;
  ri_session_id : Z;
  ri_ticket : ResumptionTicket;
  ri_caps : Capabilities;
  ri_remote_static : bytes;
}.

Module ResumeInitiator.
Section resume_initiator.
Context `{Crypto}.

Definition new (ticket : ResumptionTicket) (remote_static : bytes) (sid : Z) (caps : Capabilities)
  : Result ResumeInitiator :=
  let? prologue := Header.encode (Header.new ResumeInit sid) (zeros (HEADER_LEN + TICKET_ID_LEN)) in
  let? prologue := copy_range prologue HEADER_LEN (len prologue) (ticket_id ticket) in
  Ok (mkResumeInitiator (ResumeHandshake.initiator (ticket_key ticket) prologue) sid ticket caps
        remote_static).

Definition write_init (i : ResumeInitiator) (random app_payload out : bytes)
  : ResumeInitiator * Result (bytes * Z) :=
  let! (i, payload_len) := (i, ok_or (checked_add CAPS_LEN (len app_payload)) PayloadTooLarge) in
  let! (i, total) := (i, ok_or (checked_add RESUME_INIT_OVERHEAD (len app_payload)) PayloadTooLarge) in
  if len out <? total then (i, Err BufferTooSmall) else
  let! (i, out) := (i, Header.encode (Header.new ResumeInit (ri_session_id i)) out) in
  let! (i, out) := (i, copy_range out HEADER_LEN (HEADER_LEN + TICKET_ID_LEN) (ticket_id (ri_ticket i))) in
  let! (i, noise) := (i, slice out (HEADER_LEN + TICKET_ID_LEN) total) in
  let! (i, noise) := (i, stage_payload (ri_caps i) app_payload noise RESUME_PAYLOAD_OFFSET payload_len) in
  let '(hs, r) := ResumeHandshake.write_message_1 (ri_hs i) random payload_len noise in
  let i := mkResumeInitiator hs (ri_session_id i) (ri_ticket i) (ri_caps i) (ri_remote_static i) in
  let! (i, r) := (i, r) in
  let! (i, out) := (i, copy_range out (HEADER_LEN + TICKET_ID_LEN) total r.1) in
  (i, Ok (out, HEADER_LEN + TICKET_ID_LEN + r.2)).

Definition read_response (i : ResumeInitiator) (frame out : bytes) : Result (Session * bytes * Z) :=
  let? header := Header.decode frame in
  if bool_decide (frame_type header <> ResumeResponse)
     || negb (session_id header =? ri_session_id i) then Err BadHeader else
  let? msg := slice_from frame HEADER_LEN in
  let '(hs, r) := ResumeHandshake.read_message_2 (ri_hs i) msg out in
  let? (out, pt_len) := r in
  let? (peer_caps, out, app_len) := take_caps out pt_len in
  let next_key := ResumeHandshake.next_resumption_key hs in
  let? (send, recv) := ResumeHandshake.split hs in
  Ok (Session.new send recv (ri_session_id i) peer_caps (ri_remote_static i) next_key, out, app_len).
End resume_initiator.
End ResumeInitiator.

Record ResumeResponder := mkResumeResponder {
  rr_hs : option ResumeHandshake;
  rr_session_id : Z;
  rr_caps : Capabilities;
  rr_peer_caps : option Capabilities;
  rr_remote_static : bytes;
}.

Module ResumeResponder.
Section resume_responder.
Context `{Crypto}.

Definition ticket_id (frame : bytes) : Result bytes :=
  let? header := Header.decode frame in
  if bool_decide (frame_type header <> ResumeInit) then Err BadHeader else
  if len frame <? HEADER_LEN + TICKET_ID_LEN then Err MessageTooShort else
  slice frame HEADER_LEN (HEADER_LEN + TICKET_ID_LEN).

Definition new (caps : Capabilities) (remote_static : bytes) : ResumeResponder :=
  mkResumeResponder None 0 caps None remote_static.

Definition read_init (r : ResumeResponder) (ticket : ResumptionTicket) (frame out : bytes)
  : ResumeResponder * Result (bytes * Z) :=
  let! (r, header) := (r, Header.decode frame) in
  if bool_decide (frame_type header <> ResumeInit) then (r, Err BadHeader) else
  if len frame <? HEADER_LEN + TICKET_ID_LEN then (r, Err MessageTooShort) else
  let! (r, prologue) := (r, slice frame 0 (HEADER_LEN + TICKET_ID_LEN)) in
  let hs := ResumeHandshake.responder (ticket_key ticket) prologue in
  let! (r, msg) := (r, slice_from frame (HEADER_LEN + TICKET_ID_LEN)) in
  let '(hs, res) := ResumeHandshake.read_message_1 hs msg out in
  let! (r, pt) := (r, res) in
  let! (r, t) := (r, take_caps pt.1 pt.2) in
  let '(caps, out, app_len) := t in
  (mkResumeResponder (Some hs) (session_id header) (rr_caps r) (Some caps) (rr_remote_static r),
   Ok (out, app_len)).

Definition write_response (r : ResumeResponder) (random app_payload out : bytes)
  : Result (Session * bytes * Z) :=
  let? peer_caps := ok_or (rr_peer_caps r) HandshakeStateError in
  let? hs := ok_or (rr_hs r) HandshakeStateError in
  let? payload_len := ok_or (checked_add CAPS_LEN (len app_payload)) PayloadTooLarge in
  let? total := ok_or (checked_add RESUME_RESPONSE_OVERHEAD (len app_payload)) PayloadTooLarge in
  if len out <? total then Err BufferTooSmall else
  let? out := Header.encode (Header.new ResumeResponse (rr_session_id r)) out in
  let? noise := slice out HEADER_LEN total in
  let? noise := stage_payload (rr_caps r) app_payload noise RESUME_PAYLOAD_OFFSET payload_len in
  let '(hs, res) := ResumeHandshake.write_message_2 hs random payload_len noise in
  let? (noise, n) := res in
  let? out := copy_range out HEADER_LEN total noise in
  let next_key := ResumeHandshake.next_resumption_key hs in
  let? (send, recv) := ResumeHandshake.split hs in
  Ok (Session.new send recv (rr_session_id r) peer_caps (rr_remote_static r) next_key,
      out, HEADER_LEN + n).
End resume_responder.
End ResumeResponder.

(** ** Capability blocks *)
Lemma len_caps_wire c : len (Capabilities.wire c) = 8.
Proof. unfold Capabilities.wire. by autorewrite with len. Qed.
#[export] Hint Rewrite len_caps_wire : len.

Lemma caps_encode_ok c out :
  CAPS_LEN <= len out ->
  Capabilities.encode c out = Ok (Capabilities.wire c ++ dropz CAPS_LEN out).
Proof.
  intros Hl. unfold Capabilities.encode, set_index. rewrite (proj2 (Z.ltb_ge _ _)) by lia.
  rewrite copy_range_at by len_lia.
  rewrite copy_range_next by len_lia. rewrite copy_range_next by len_lia.
  rewrite copy_range_next by len_lia. rewrite copy_range_next by len_lia.
  autorewrite with len. unfold Capabilities.wire.
  by rewrite !dropz_dropz, <- !app_assoc by (autorewrite with len; clia).
Qed.

Lemma caps_decode_wire c rest :
  Capabilities.wf c -> Capabilities.decode (Capabilities.wire c ++ rest) = Ok c.
Proof.
  intros (Hf & Hm & Hc). unfold Capabilities.decode. rewrite (proj2 (Z.ltb_ge _ _)) by len_lia.
  unfold Capabilities.wire. rewrite <- !app_assoc.
  rewrite (slice_eq _ [cap_flags c; 0] (to_le 2 (max_frame_size c))
    (to_le 2 (cap_codecs c) ++ zeros 2 ++ rest)) by (done || len_lia).
  rewrite (slice_eq _ ([cap_flags c; 0] ++ to_le 2 (max_frame_size c)) (to_le 2 (cap_codecs c))
    (zeros 2 ++ rest)) by first [by rewrite <- app_assoc | len_lia].
  cbn [app]. rewrite index_0. rewrite !from_le_to_le by (cbn; lia). by destruct c.
Qed.

(** Staging writes the capabilities and the payload where they belong. *)
Lemma stage_payload_spec caps app pre gap post offset :
  len pre = offset -> len gap = CAPS_LEN + len app ->
  stage_payload caps app (pre ++ gap ++ post) offset (CAPS_LEN + len app) =
  Ok (pre ++ (Capabilities.wire caps ++ app) ++ post).
Proof.
  intros <- Hgap. pose proof (len_nonneg app). unfold stage_payload.
  rewrite slice_mid by lia. rewrite caps_encode_ok by clia.
  rewrite copy_range_next by len_lia.
  rewrite (dropz_all (dropz CAPS_LEN gap)), app_nil_r by len_lia.
  by rewrite copy_range_mid by len_lia.
Qed.

Lemma take_caps_spec caps app rest :
  Capabilities.wf caps ->
  exists rest', take_caps ((Capabilities.wire caps ++ app) ++ rest) (CAPS_LEN + len app) =
    Ok (caps, app ++ rest', len app).
Proof.
  intros Hc. pose proof (len_nonneg app). unfold take_caps.
  rewrite (proj2 (Z.ltb_ge _ _)) by lia. rewrite <- app_assoc.
  rewrite slice_head by (by rewrite len_caps_wire).
  pose proof (caps_decode_wire caps [] Hc) as Hd. rewrite app_nil_r in Hd. rewrite Hd.
  unfold copy_within_0. rewrite slice_mid by len_lia. rewrite copy_range_at by len_lia.
  eexists. repeat f_equal. lia.
Qed.

(** The fields of an output buffer after the header. *)
Lemma carve (buf : bytes) a b c :
  0 <= a -> 0 <= b -> 0 <= c -> a + b + c <= len buf ->
  exists x y z rest, buf = x ++ y ++ z ++ rest /\ len x = a /\ len y = b /\ len z = c.
Proof.
  intros Ha Hb Hc Hl. destruct (split_at a buf) as (x & b1 & -> & Hx); [lia|]. rewrite len_app in Hl.
  destruct (split_at b b1) as (y & b2 & -> & Hy); [lia|]. rewrite len_app in Hl.
  destruct (split_at c b2) as (z & rest & -> & Hz); [lia|]. by exists x, y, z, rest.
Qed.

(** Two fresh sessions with crossed ciphers are in step both ways. *)
Definition linked `{Crypto} (a b : Session) : Prop :=
  exists k1 k2, in_step k1 a b /\ in_step k2 b a.

Lemma split_ciphers `{Crypto} sym :
  exists k1 k2, SymmetricState.split sym = (cipher_at k1 0, cipher_at k2 0).
Proof. unfold SymmetricState.split. destruct hkdf2 as [k1 k2]. by exists k1, k2. Qed.

Lemma new_in_step `{Crypto} k1 k2 sid c1 c2 p1 p2 r1 r2 :
  is_u32 sid ->
  in_step k1 (Session.new (cipher_at k1 0) (cipher_at k2 0) sid c1 p1 r1)
             (Session.new (cipher_at k2 0) (cipher_at k1 0) sid c2 p2 r2).
Proof. intros Hs. unfold in_step, sends, receives. cbn. repeat split; done || clia. Qed.

Lemma new_linked `{Crypto} k1 k2 sid c1 c2 p1 p2 r1 r2 :
  is_u32 sid ->
  linked (Session.new (cipher_at k1 0) (cipher_at k2 0) sid c1 p1 r1)
         (Session.new (cipher_at k2 0) (cipher_at k1 0) sid c2 p2 r2).
Proof. intros Hs. exists k1, k2. split; by apply new_in_step. Qed.

Lemma new_header_wf t sid : is_u32 sid -> Header.wf (Header.new t sid).
Proof. intros Hs. unfold Header.wf, Header.new. cbn. repeat split; done || lia. Qed.

Module Connecting.
Section connecting.
Context `{CL : CryptoLaws} {SI SR : Type} `{StaticKey SI} `{StaticKey SR}.
Context (ki : SI) (kr : SR) (a b : bytes) (Hi : backed_by ki a) (Hr : backed_by kr b).
Context (sid : Z) (Hsid : is_u32 sid) (ci cr : Capabilities).
Context (Hci : Capabilities.wf ci) (Hcr : Capabilities.wf cr).

Definition prologue : bytes := Header.wire (Header.new HandshakeInit sid).

Definition i0 : Initiator SI := mkInitiator (Agreement.hi0 ki b prologue) sid ci.

Lemma initiator_new : Initiator.new ki (sk_public kr) sid ci = Ok i0.
Proof.
  unfold Initiator.new. rewrite header_encode_ok by (rewrite len_zeros; clia).
  rewrite dropz_all, app_nil_r by (rewrite len_zeros; clia).
  by rewrite (Agreement.initiator_start ki kr b Hr).
Qed.

(** The first flight: the initiator's frame and the responder that read it. *)
Lemma first_flight r1 app1 out1 buf1 :
  CAPS_LEN + len app1 <= AEAD_MAX -> INITIATOR_OVERHEAD + len app1 <= len out1 ->
  CAPS_LEN + len app1 + TAGLEN <= len buf1 ->
  exists sym1 out1' buf1',
    Initiator.write_init i0 r1 app1 out1 =
      (mkInitiator (mkHandshakeState sym1 Handshake.Initiator ki (Some (Keypair.generate r1))
         (Some (x25519_public b)) None AwaitingMessage2) sid ci,
       Ok (out1', INITIATOR_OVERHEAD + len app1)) /\
    Responder.read_init (Responder.new kr cr) (takez (INITIATOR_OVERHEAD + len app1) out1') buf1 =
      (mkResponder None (Some (mkHandshakeState sym1 Handshake.Responder kr None (Some (x25519_public a))
         (Some (x25519_public r1)) AwaitingMessage2)) (sk_public kr) sid cr (Some ci),
       Ok (app1 ++ buf1', len app1)).
Proof.
  intros Hp Hout Hbuf. pose proof (len_nonneg app1).
  set (hdr := Header.new HandshakeInit sid).
  unfold Initiator.write_init, checked_add. rewrite !(proj2 (Z.leb_le _ _)) by clia. cbn [ok_or].
  rewrite (proj2 (Z.ltb_ge _ _)) by done. cbn [i0 i_session_id i_caps i_hs]. fold hdr.
  rewrite header_encode_ok by clia.
  destruct (carve (dropz HEADER_LEN out1) MSG1_PAYLOAD_OFFSET (CAPS_LEN + len app1) TAGLEN)
    as (f & gap & t & rest & -> & Hf & Hgap & Ht); [clia|clia|clia|len_lia|].
  rewrite (slice_eq _ (Header.wire hdr) (f ++ gap ++ t) rest)
    by first [by rewrite <- !app_assoc | len_lia].
  rewrite stage_payload_spec by done.
  set (p1 := Capabilities.wire ci ++ app1).
  assert (len p1 = CAPS_LEN + len app1) as Hp1 by (unfold p1; len_lia).
  destruct (Agreement.message_1_staged ki kr a b Hi Hr prologue r1 p1 f t [] buf1)
    as (sym1 & msg1 & tail & Hw & Hlm & Hrd); [done|done|lia|lia|].
  rewrite app_nil_r in Hw. rewrite <- Hp1. unfold i0. cbn [i_hs]. rewrite Hw. cbn [fst snd].
  replace (f ++ gap ++ t ++ rest) with ((f ++ gap ++ t) ++ rest) by (by rewrite <- !app_assoc).
  rewrite app_nil_r, copy_range_mid by (rewrite ?len_header_wire, ?len_app; clia).
  destruct (take_caps_spec ci app1 tail Hci) as (rest' & Htc).
  exists sym1, (Header.wire hdr ++ msg1 ++ rest), rest'.
  split; [do 3 f_equal; clia|].
  rewrite app_assoc, takez_app by (rewrite len_app, len_header_wire; clia).
  unfold Responder.read_init. rewrite header_decode_wire by (by apply new_header_wf).
  rewrite bool_decide_eq_false_2 by (intros X; by apply X). cbn [Responder.new r_static_key ok_or].
  rewrite slice_head by (by rewrite len_header_wire).
  change prologue with (Header.wire hdr) in Hrd. rewrite (Agreement.responder_start kr b Hr).
  rewrite slice_from_mid by (by rewrite len_header_wire).
  rewrite Hrd. cbn [fst snd]. rewrite Hp1. unfold p1. rewrite Htc. done.
Qed.

(** The second flight: both sessions. *)
Lemma second_flight sym1 r1 r2 app2 out2 buf2 :
  CAPS_LEN + len app2 <= AEAD_MAX -> RESPONDER_OVERHEAD + len app2 <= len out2 ->
  CAPS_LEN + len app2 + TAGLEN <= len buf2 ->
  exists ss sr out2' buf2',
    Responder.write_response
      (mkResponder None (Some (mkHandshakeState sym1 Handshake.Responder kr None (Some (x25519_public a))
         (Some (x25519_public r1)) AwaitingMessage2)) (sk_public kr) sid cr (Some ci)) r2 app2 out2
      = Ok (sr, out2', RESPONDER_OVERHEAD + len app2) /\
    Initiator.read_response
      (mkInitiator (mkHandshakeState sym1 Handshake.Initiator ki (Some (Keypair.generate r1))
         (Some (x25519_public b)) None AwaitingMessage2) sid ci)
      (takez (RESPONDER_OVERHEAD + len app2) out2') buf2 = Ok (ss, app2 ++ buf2', len app2) /\
    linked ss sr /\ s_session_id ss = sid /\
    s_peer_caps ss = cr /\ s_peer_caps sr = ci /\
    s_remote_static ss = sk_public kr /\ s_remote_static sr = sk_public ki /\
    s_resumption_key ss = s_resumption_key sr.
Proof.
  intros Hp Hout Hbuf. pose proof (len_nonneg app2).
  set (hdr := Header.new HandshakeResponse sid).
  unfold Responder.write_response, checked_add. cbn [r_peer_caps r_hs ok_or].
  rewrite !(proj2 (Z.leb_le _ _)) by clia. cbn [ok_or].
  rewrite (proj2 (Z.ltb_ge _ _)) by done. cbn [r_session_id r_caps]. fold hdr.
  rewrite header_encode_ok by clia.
  destruct (carve (dropz HEADER_LEN out2) MSG2_PAYLOAD_OFFSET (CAPS_LEN + len app2) TAGLEN)
    as (f & gap & t & rest & -> & Hf & Hgap & Ht); [clia|clia|clia|len_lia|].
  rewrite (slice_eq _ (Header.wire hdr) (f ++ gap ++ t) rest)
    by first [by rewrite <- !app_assoc | len_lia].
  rewrite stage_payload_spec by done.
  set (p2 := Capabilities.wire cr ++ app2).
  assert (len p2 = CAPS_LEN + len app2) as Hp2 by (unfold p2; len_lia).
  destruct (Agreement.message_2_staged ki kr a b Hi sym1 r1 r2 p2 f t [] buf2)
    as (sym2 & msg2 & tail & Hw & Hlm & Hrd); [done|done|lia|lia|].
  rewrite app_nil_r in Hw. rewrite <- Hp2, Hw.
  replace (f ++ gap ++ t ++ rest) with ((f ++ gap ++ t) ++ rest) by (by rewrite <- !app_assoc).
  rewrite app_nil_r, copy_range_mid by (rewrite ?len_header_wire, ?len_app; clia).
  cbn [HandshakeState.remote_static hs_rs ok_or].
  destruct (split_ciphers sym2) as (k1 & k2 & Hsplit).
  unfold HandshakeState.split. cbn [hs_step hs_role hs_sym].
  rewrite bool_decide_eq_false_2 by (intros X; by apply X). rewrite Hsplit.
  destruct (take_caps_spec cr app2 tail Hcr) as (rest' & Htc).
  do 2 eexists. exists (Header.wire hdr ++ msg2 ++ rest), rest'.
  split; [do 2 f_equal; clia|]. split.
  - rewrite app_assoc, takez_app by (rewrite len_app, len_header_wire; clia).
    unfold Initiator.read_response. rewrite header_decode_wire by (by apply new_header_wf).
    cbn [hdr Header.new frame_type session_id i_session_id i_hs].
    rewrite bool_decide_eq_false_2 by (intros X; by apply X). rewrite Z.eqb_refl. cbn [negb orb].
    rewrite slice_from_mid by (by rewrite len_header_wire).
    rewrite Hrd, Hp2. unfold p2. rewrite Htc.
    cbn [HandshakeState.remote_static hs_rs ok_or]. unfold HandshakeState.split. cbn [hs_step hs_role hs_sym].
    rewrite bool_decide_eq_false_2 by (intros X; by apply X). by rewrite Hsplit.
  - destruct Hi as [-> _], Hr as [-> _]. split; [by apply new_linked|]. done.
Qed.
End connecting.
End Connecting.

Module Resuming.
Section resuming.
Context `{CL : CryptoLaws} (ticket : ResumptionTicket) (Hid : len (ticket_id ticket) = TICKET_ID_LEN).
Context (sid : Z) (Hsid : is_u32 sid) (ci cr : Capabilities) (pi pr : bytes).
Context (Hci : Capabilities.wf ci) (Hcr : Capabilities.wf cr).

Definition prologue : bytes := Header.wire (Header.new ResumeInit sid) ++ ticket_id ticket.
Definition sym0 : SymmetricState := rh_sym (ResumeHandshake.initiator (ticket_key ticket) prologue).
Definition i0 : ResumeInitiator :=
  mkResumeInitiator (mkResumeHandshake sym0 true None None AwaitingMessage2) sid ticket ci pi.

Lemma resume_initiator_new : ResumeInitiator.new ticket pi sid ci = Ok i0.
Proof.
  unfold ResumeInitiator.new. rewrite header_encode_ok by (rewrite len_zeros; clia).
  rewrite copy_range_next by len_lia.
  rewrite (dropz_all (dropz HEADER_LEN _)), app_nil_r by len_lia. done.
Qed.

Lemma resume_first_flight r1 app1 out1 buf1 :
  CAPS_LEN + len app1 <= AEAD_MAX -> RESUME_INIT_OVERHEAD + len app1 <= len out1 ->
  CAPS_LEN + len app1 + TAGLEN <= len buf1 ->
  exists sym1 out1' buf1',
    ResumeInitiator.write_init i0 r1 app1 out1 =
      (mkResumeInitiator (mkResumeHandshake sym1 true (Some (Keypair.generate r1)) None AwaitingMessage2)
         sid ticket ci pi, Ok (out1', RESUME_INIT_OVERHEAD + len app1)) /\
    ResumeResponder.ticket_id (takez (RESUME_INIT_OVERHEAD + len app1) out1') = Ok (ticket_id ticket) /\
    ResumeResponder.read_init (ResumeResponder.new cr pr) ticket
      (takez (RESUME_INIT_OVERHEAD + len app1) out1') buf1 =
      (mkResumeResponder (Some (mkResumeHandshake sym1 false None (Some (x25519_public r1))
         AwaitingMessage2)) sid cr (Some ci) pr, Ok (app1 ++ buf1', len app1)).
Proof.
  intros Hp Hout Hbuf. pose proof (len_nonneg app1).
  set (hdr := Header.new ResumeInit sid).
  unfold ResumeInitiator.write_init, checked_add. rewrite !(proj2 (Z.leb_le _ _)) by clia. cbn [ok_or].
  rewrite (proj2 (Z.ltb_ge _ _)) by done. cbn [i0 ri_session_id ri_caps ri_hs ri_ticket]. fold hdr.
  rewrite header_encode_ok by clia.
  rewrite copy_range_next by len_lia. rewrite Hid. rewrite dropz_dropz by clia.
  destruct (carve (dropz (TICKET_ID_LEN + HEADER_LEN) out1) RESUME_PAYLOAD_OFFSET
    (CAPS_LEN + len app1) TAGLEN)
    as (f & gap & t & rest & -> & Hf & Hgap & Ht); [clia|clia|clia|len_lia|].
  set (head := Header.wire hdr ++ ticket_id ticket).
  assert (len head = HEADER_LEN + TICKET_ID_LEN) as Hhead by (unfold head; len_lia).
  rewrite (slice_eq _ head (f ++ gap ++ t) rest) by first [by rewrite <- !app_assoc | len_lia].
  rewrite stage_payload_spec by done.
  set (p1 := Capabilities.wire ci ++ app1).
  assert (len p1 = CAPS_LEN + len app1) as Hp1 by (unfold p1; len_lia).
  destruct (ResumeAgreement.resume_message_1 sym0 r1 p1 f t [] buf1)
    as (sym1 & msg1 & tail & Hw & Hlm & Hrd); [done|done|lia|lia|].
  rewrite app_nil_r in Hw. rewrite <- Hp1. unfold i0. cbn [ri_hs]. rewrite Hw. cbn [fst snd].
  replace (f ++ gap ++ t ++ rest) with ((f ++ gap ++ t) ++ rest) by (by rewrite <- !app_assoc).
  rewrite app_nil_r, copy_range_mid by (rewrite ?Hhead, ?len_app; clia).
  destruct (take_caps_spec ci app1 tail Hci) as (rest' & Htc).
  exists sym1, (head ++ msg1 ++ rest), rest'.
  split; [do 3 f_equal; clia|].
  rewrite app_assoc, takez_app by (rewrite len_app, Hhead; clia).
  assert (Header.decode (head ++ msg1) = Ok hdr) as Hdec
    by (unfold head; rewrite <- app_assoc; apply header_decode_wire; by apply new_header_wf).
  split.
  - unfold ResumeResponder.ticket_id. rewrite Hdec.
    rewrite bool_decide_eq_false_2 by (intros X; by apply X).
    rewrite (proj2 (Z.ltb_ge _ _)) by (rewrite len_app; clia).
    unfold head. rewrite <- app_assoc. apply slice_mid; len_lia.
  - unfold ResumeResponder.read_init. rewrite Hdec.
    rewrite bool_decide_eq_false_2 by (intros X; by apply X).
    rewrite (proj2 (Z.ltb_ge _ _)) by (rewrite len_app; clia).
    rewrite slice_head by done. rewrite slice_from_mid by done.
    change (ResumeHandshake.responder (ticket_key ticket) head)
      with (mkResumeHandshake sym0 false None None AwaitingMessage1).
    rewrite Hrd. cbn [fst snd]. rewrite Hp1. unfold p1. rewrite Htc. done.
Qed.

Lemma resume_second_flight sym1 r1 r2 app2 out2 buf2 :
  CAPS_LEN + len app2 <= AEAD_MAX -> RESUME_RESPONSE_OVERHEAD + len app2 <= len out2 ->
  CAPS_LEN + len app2 + TAGLEN <= len buf2 ->
  exists ss sr out2' buf2',
    ResumeResponder.write_response
      (mkResumeResponder (Some (mkResumeHandshake sym1 false None (Some (x25519_public r1))
         AwaitingMessage2)) sid cr (Some ci) pr) r2 app2 out2
      = Ok (sr, out2', RESUME_RESPONSE_OVERHEAD + len app2) /\
    ResumeInitiator.read_response
      (mkResumeInitiator (mkResumeHandshake sym1 true (Some (Keypair.generate r1)) None AwaitingMessage2)
         sid ticket ci pi)
      (takez (RESUME_RESPONSE_OVERHEAD + len app2) out2') buf2 = Ok (ss, app2 ++ buf2', len app2) /\
    linked ss sr /\ s_peer_caps ss = cr /\ s_peer_caps sr = ci /\
    s_remote_static ss = pi /\ s_remote_static sr = pr /\
    s_resumption_key ss = s_resumption_key sr.
Proof.
  intros Hp Hout Hbuf. pose proof (len_nonneg app2).
  set (hdr := Header.new ResumeResponse sid).
  unfold ResumeResponder.write_response, checked_add. cbn [rr_peer_caps rr_hs ok_or].
  rewrite !(proj2 (Z.leb_le _ _)) by clia. cbn [ok_or].
  rewrite (proj2 (Z.ltb_ge _ _)) by done. cbn [rr_session_id rr_caps]. fold hdr.
  rewrite header_encode_ok by clia.
  destruct (carve (dropz HEADER_LEN out2) RESUME_PAYLOAD_OFFSET (CAPS_LEN + len app2) TAGLEN)
    as (f & gap & t & rest & -> & Hf & Hgap & Ht); [clia|clia|clia|len_lia|].
  rewrite (slice_eq _ (Header.wire hdr) (f ++ gap ++ t) rest)
    by first [by rewrite <- !app_assoc | len_lia].
  rewrite stage_payload_spec by done.
  set (p2 := Capabilities.wire cr ++ app2).
  assert (len p2 = CAPS_LEN + len app2) as Hp2 by (unfold p2; len_lia).
  destruct (ResumeAgreement.resume_message_2 sym1 r1 r2 p2 f t [] buf2)
    as (sym2 & msg2 & tail & Hw & Hlm & Hrd); [done|done|lia|lia|].
  rewrite app_nil_r in Hw. rewrite <- Hp2, Hw.
  replace (f ++ gap ++ t ++ rest) with ((f ++ gap ++ t) ++ rest) by (by rewrite <- !app_assoc).
  rewrite app_nil_r, copy_range_mid by (rewrite ?len_header_wire, ?len_app; clia).
  destruct (split_ciphers sym2) as (k1 & k2 & Hsplit).
  unfold ResumeHandshake.split. cbn [rh_step rh_sym rh_initiator].
  rewrite bool_decide_eq_false_2 by (intros X; by apply X). rewrite Hsplit.
  destruct (take_caps_spec cr app2 tail Hcr) as (rest' & Htc).
  do 2 eexists. exists (Header.wire hdr ++ msg2 ++ rest), rest'.
  split; [do 2 f_equal; clia|]. split.
  - rewrite app_assoc, takez_app by (rewrite len_app, len_header_wire; clia).
    unfold ResumeInitiator.read_response. rewrite header_decode_wire by (by apply new_header_wf).
    cbn [hdr Header.new frame_type session_id ri_session_id ri_hs].
    rewrite bool_decide_eq_false_2 by (intros X; by apply X). rewrite Z.eqb_refl. cbn [negb orb].
    rewrite slice_from_mid by (by rewrite len_header_wire).
    rewrite Hrd, Hp2. unfold p2. rewrite Htc. unfold ResumeHandshake.split. cbn [rh_step rh_sym rh_initiator].
    rewrite bool_decide_eq_false_2 by (intros X; by apply X). by rewrite Hsplit.
  - split; [by apply new_linked|]. done.
Qed.
End resuming.
End Resuming.

(** ** Properties *)
#[local] Existing Instances Toy.crypto Toy.laws.

(** C27: a completed connection leaves two sessions in step. For honest peers
    with any static keys, capabilities, session identifier and application
    payloads, the four framed handshake calls succeed, both 0-RTT payloads
    arrive, each side learns the other's capabilities and static key, the
    resumption tickets agree, and each session opens what the other seals. *)
Theorem connect_links `{CL : CryptoLaws} {SI SR} `{StaticKey SI} `{StaticKey SR}
    (ki : SI) (kr : SR) a b sid ci cr r1 r2 app1 app2 out1 out2 buf1 buf2 :
  backed_by ki a -> backed_by kr b -> is_u32 sid -> Capabilities.wf ci -> Capabilities.wf cr ->
  CAPS_LEN + len app1 <= AEAD_MAX -> INITIATOR_OVERHEAD + len app1 <= len out1 ->
  CAPS_LEN + len app1 + TAGLEN <= len buf1 ->
  CAPS_LEN + len app2 <= AEAD_MAX -> RESPONDER_OVERHEAD + len app2 <= len out2 ->
  CAPS_LEN + len app2 + TAGLEN <= len buf2 ->
  exists i i' r' m1 m2 n1 n2 b1 b2 si sr,
    Initiator.new ki (sk_public kr) sid ci = Ok i /\
    Initiator.write_init i r1 app1 out1 = (i', Ok (m1, n1)) /\
    Responder.read_init (Responder.new kr cr) (takez n1 m1) buf1 = (r', Ok (app1 ++ b1, len app1)) /\
    Responder.write_response r' r2 app2 out2 = Ok (sr, m2, n2) /\
    Initiator.read_response i' (takez n2 m2) buf2 = Ok (si, app2 ++ b2, len app2) /\
    linked si sr /\ s_peer_caps si = cr /\ s_peer_caps sr = ci /\
    s_remote_static si = sk_public kr /\ s_remote_static sr = sk_public ki /\
    Session.resumption_ticket si = Session.resumption_ticket sr.
Proof.
  intros Hi Hr Hsid Hci Hcr Hp1 Ho1 Hb1 Hp2 Ho2 Hb2.
  destruct (Connecting.first_flight ki kr a b Hi Hr sid Hsid ci cr Hci r1 app1 out1 buf1 Hp1 Ho1 Hb1)
    as (sym1 & m1 & b1 & Hw1 & Hrd1).
  destruct (Connecting.second_flight ki kr a b Hi Hr sid Hsid ci cr Hcr sym1 r1 r2 app2 out2 buf2
    Hp2 Ho2 Hb2) as (si & sr & m2 & b2 & Hw2 & Hrd2 & Hl & _ & ? & ? & ? & ? & Hk).
  do 3 eexists. exists m1, m2. do 2 eexists. exists b1, b2, si, sr.
  split; [by apply (Connecting.initiator_new ki kr b Hr)|].
  split; [exact Hw1|]. split; [exact Hrd1|]. split; [exact Hw2|]. split; [exact Hrd2|].
  split; [done|]. do 4 (split; [done|]). unfold Session.resumption_ticket. by rewrite Hk.
Qed.

Lemma connect_links_witness : exists si sr, linked si sr.
Proof.
  destruct (connect_links (Keypair.from_secret [1; 2; 3]) (Keypair.from_secret [9; 8]) [1; 2; 3] [9; 8]
    7 (Capabilities.minimal 1200) (mkCapabilities 7 1400 15) [11] [12] [104; 105] []
    (zeros 200) (zeros 200) (zeros 200) (zeros 200) (keypair_backed _) (keypair_backed _))
    as (i & i' & r' & m1 & m2 & n1 & n2 & b1 & b2 & si & sr & _ & _ & _ & _ & _ & Hl & _).
  1-9: vm_compute; intuition congruence.
  exists si, sr. exact Hl.
Defined.

(** a completed resumption leaves two sessions in step. Peers holding the
    same ticket resume with one round trip: the responder finds the ticket by
    the identifier in the frame, both payloads and capabilities arrive, the
    next ticket agrees on both sides, and each session opens what the other
    seals. *)
Theorem resume_links `{CL : CryptoLaws} key sid ci cr pi pr r1 r2 app1 app2 out1 out2 buf1 buf2 :
  is_u32 sid -> Capabilities.wf ci -> Capabilities.wf cr ->
  CAPS_LEN + len app1 <= AEAD_MAX -> RESUME_INIT_OVERHEAD + len app1 <= len out1 ->
  CAPS_LEN + len app1 + TAGLEN <= len buf1 ->
  CAPS_LEN + len app2 <= AEAD_MAX -> RESUME_RESPONSE_OVERHEAD + len app2 <= len out2 ->
  CAPS_LEN + len app2 + TAGLEN <= len buf2 ->
  let ticket := ResumptionTicket.from_key key in
  exists i i' r' m1 m2 n1 n2 b1 b2 si sr,
    ResumeInitiator.new ticket pi sid ci = Ok i /\
    ResumeInitiator.write_init i r1 app1 out1 = (i', Ok (m1, n1)) /\
    ResumeResponder.ticket_id (takez n1 m1) = Ok (ticket_id ticket) /\
    ResumeResponder.read_init (ResumeResponder.new cr pr) ticket (takez n1 m1) buf1
      = (r', Ok (app1 ++ b1, len app1)) /\
    ResumeResponder.write_response r' r2 app2 out2 = Ok (sr, m2, n2) /\
    ResumeInitiator.read_response i' (takez n2 m2) buf2 = Ok (si, app2 ++ b2, len app2) /\
    linked si sr /\ s_peer_caps si = cr /\ s_peer_caps sr = ci /\
    s_remote_static si = pi /\ s_remote_static sr = pr /\
    Session.resumption_ticket si = Session.resumption_ticket sr.
Proof.
  intros Hsid Hci Hcr Hp1 Ho1 Hb1 Hp2 Ho2 Hb2 ticket.
  assert (len (ticket_id ticket) = TICKET_ID_LEN) as Hid
    by (cbn; rewrite len_takez, hash_len; clia).
  destruct (Resuming.resume_first_flight ticket Hid sid Hsid ci cr pi pr Hci r1 app1 out1 buf1
    Hp1 Ho1 Hb1) as (sym1 & m1 & b1 & Hw1 & Ht & Hrd1).
  destruct (Resuming.resume_second_flight ticket sid Hsid ci cr pi pr Hcr sym1 r1 r2 app2 out2 buf2
    Hp2 Ho2 Hb2) as (si & sr & m2 & b2 & Hw2 & Hrd2 & Hl & ? & ? & ? & ? & Hk).
  do 3 eexists. exists m1, m2. do 2 eexists. exists b1, b2, si, sr.
  split; [by apply (Resuming.resume_initiator_new ticket Hid)|].
  split; [exact Hw1|]. split; [exact Ht|]. split; [exact Hrd1|]. split; [exact Hw2|].
  split; [exact Hrd2|]. split; [done|]. do 4 (split; [done|]).
  unfold Session.resumption_ticket. by rewrite Hk.
Qed.

Lemma resume_links_witness : exists si sr, linked si sr.
Proof.
  destruct (resume_links (zeros 32) 7 (Capabilities.minimal 1200) (mkCapabilities 7 1400 15) [] []
    [11] [12] [104; 105] [] (zeros 200) (zeros 200) (zeros 200) (zeros 200))
    as (i & i' & r' & m1 & m2 & n1 & n2 & b1 & b2 & si & sr & _ & _ & _ & _ & _ & _ & Hl & _).
  1-9: vm_compute; intuition congruence.
  exists si, sr. exact Hl.
Defined.
