(* ===== verification/ConnectSafety.v ===== *)
(** * The framed handshakes and sealing, on every input
      (crates/fectp-core/src/session.rs, noise/handshake.rs)

    Whatever the state, the payload, the frame and the buffer, the calls that
    establish a session and the call that seals a frame return a value or an
    error, never panic, leave the buffer's length alone and report a length
    that lies inside it. *)
From S2P Require Import Prelude Bytes Error Frame Fragment Codec Reliability Replay.
From S2P Require Import Cipher Symmetric Handshake Session Connect.
Import SymmetricState Session.

(** A call that wrote into [out] and reported a length. *)
Definition within (out : bytes) (r : Result (bytes * Z)) : Prop :=
  r <> Panic /\ forall out' n, r = Ok (out', n) -> len out' = len out /\ 0 <= n <= len out.

Lemma within_err out e : within out (Err e).
Proof. done. Qed.

Lemma within_ok out out' n : len out' = len out -> 0 <= n <= len out -> within out (Ok (out', n)).
Proof. intros. split; [done|]. by intros ?? [= <- <-]. Qed.
#[export] Hint Resolve within_err : fectp.

(** A copy into a range of the source's length. *)
Lemma copy_range_total {E A} (l src : list A) a b :
  0 <= a <= b -> b <= len l -> len src = b - a ->
  exists l', copy_range (E:=E) l a b src = Ok l' /\ len l' = len l.
Proof.
  intros Ha Hb Hs. destruct (copy_range l a b src) as [l'|e|] eqn:Ec.
  - exists l'. split; [done|]. by apply copy_range_ok_len in Ec.
  - unfold copy_range in Ec. by case_match.
  - unfold copy_range in Ec. case_match; [done|]. zbool; lia.
Qed.

Section encrypting.
Context `{CL : CryptoLaws}.

Lemma encrypt_and_hash_within sym buf k :
  0 <= k <= len buf -> within buf (encrypt_and_hash sym buf k).2.
Proof.
  intros Hk. unfold encrypt_and_hash, CipherState.encrypt_with_ad.
  destruct (cs_key (ss_cipher sym)) as [key|].
  - destruct (_ =? _); [done|].
    destruct (encrypt_at_safe (ss_cipher sym) (ss_transcript sym) (cs_nonce (ss_cipher sym)) buf k)
      as [Hp Hok]; [lia|].
    destruct CipherState.encrypt_at as [[b m]|e|]; [|done..].
    destruct (Hok b m eq_refl) as (Hb & -> & Hm). rewrite slice_ok by clia.
    apply within_ok; clia.
  - rewrite slice_ok by lia. by apply within_ok.
Qed.

Lemma encrypt_range_safe sym out a b n :
  0 <= a <= b -> b <= len out -> 0 <= n <= b - a ->
  match (encrypt_range sym out a b n).2 with
  | Ok out' => len out' = len out
  | Err _ => True
  | Panic => False
  end.
Proof.
  intros Ha Hb Hn. unfold encrypt_range. rewrite slice_ok by lia.
  destruct (encrypt_and_hash_within sym (takez (b - a) (dropz a out)) n) as [Hp Hok]; [len_lia|].
  destruct encrypt_and_hash as [sym' [[m k]|e|]]; cbn [snd fst] in *; [|done..].
  destruct (Hok m k eq_refl) as [Hm _].
  destruct (copy_range_total (E:=Error) out m a b) as (out' & -> & Hl); [lia|lia|len_lia|done].
Qed.
End encrypting.

Section messages.
Context `{CL : CryptoLaws} {S : Type} `{StaticKey S}.
Implicit Types hs : HandshakeState S.

(** A step of a handshake that wrote into [out] and kept the static key. *)
Definition keeps hs (out : bytes) (r : HandshakeState S * Result (bytes * Z)) : Prop :=
  within out r.2 /\ hs_s r.1 = hs_s hs.

Lemma keeps_err hs hs' out e : hs_s hs' = hs_s hs -> keeps hs out (hs', Err e).
Proof. done. Qed.

(** The payload's encryption, the last step of both writers. *)
Lemma keeps_payload hs hs' out out0 a n (k : HandshakeState S -> HandshakeState S) :
  hs_s hs' = hs_s hs -> (forall h, hs_s (k h) = hs_s h) -> len out = len out0 ->
  0 <= a -> 0 <= n -> a + n + TAGLEN <= len out ->
  keeps hs out0
    (let! (hs, out) := HandshakeState.on_sym hs' (fun sym => encrypt_range sym out a (a + n + TAGLEN) n) in
     (k hs, Ok (out, a + n + TAGLEN))).
Proof.
  intros Hs Hk Hl Ha Hn Hle. unfold HandshakeState.on_sym.
  pose proof (encrypt_range_safe (hs_sym hs') out a (a + n + TAGLEN) n) as He.
  destruct (encrypt_range (hs_sym hs') out a (a + n + TAGLEN) n) as [s2 [out'|e|]]; cbn [snd] in He.
  - specialize (He ltac:(clia) ltac:(lia) ltac:(clia)). split; [apply within_ok; clia|].
    cbn [fst]. by rewrite Hk.
  - done.
  - exfalso. apply He; clia.
Qed.

Lemma write_1_safe hs random n out :
  len (sk_public (hs_s hs)) = DHLEN -> (forall p, sk_dh (hs_s hs) p <> Panic) -> 0 <= n ->
  keeps hs out (HandshakeState.write_message_1_in_place hs random n out).
Proof.
  intros Hpub Hdh Hn. unfold HandshakeState.write_message_1_in_place.
  destruct (_ || _); [done|]. unfold checked_add. zcase; cbn [ok_or]; [|done].
  zcase; [done|]. destruct (hs_rs hs) as [rs|]; cbn [ok_or]; [|done]. hs_simpl.
  destruct (copy_range_total (E:=Error) out (x25519_public random) 0 DHLEN) as (o1 & -> & Ho1);
    [clia|clia|rewrite x25519_public_len; clia|].
  rewrite slice_ok by clia. hs_simpl.
  destruct (copy_range_total (E:=Error) o1 (sk_public (hs_s hs)) DHLEN (DHLEN + DHLEN))
    as (o2 & -> & Ho2); [clia|clia|clia|].
  unfold HandshakeState.on_sym at 1. hs_simpl.
  match goal with |- context [encrypt_range ?s ?o ?a ?b ?k] =>
    pose proof (encrypt_range_safe s o a b k ltac:(clia) ltac:(clia) ltac:(clia)) as He;
    destruct (encrypt_range s o a b k) as [s1 [o3|e|]] end; cbn [snd] in He; [|done..].
  hs_simpl. specialize (Hdh rs). destruct (sk_dh (hs_s hs) rs) as [ss|e|]; [|done..]. hs_simpl.
  replace (MSG1_OVERHEAD + n) with (MSG1_PAYLOAD_OFFSET + n + TAGLEN) by clia.
  apply (keeps_payload hs _ o3 out _ _ (fun hs => mkHandshakeState (hs_sym hs) (hs_role hs) (hs_s hs) _
    (hs_rs hs) (hs_re hs) (hs_step hs))); clia || done.
Qed.

Lemma write_2_safe hs random n out :
  0 <= n -> keeps hs out (HandshakeState.write_message_2_in_place hs random n out).
Proof.
  intros Hn. unfold HandshakeState.write_message_2_in_place.
  destruct (_ || _); [done|]. unfold checked_add. zcase; cbn [ok_or]; [|done].
  zcase; [done|]. destruct (hs_re hs) as [re|]; cbn [ok_or]; [|done].
  destruct (hs_rs hs) as [rs|]; cbn [ok_or]; [|done]. hs_simpl.
  destruct (copy_range_total (E:=Error) out (x25519_public random) 0 DHLEN) as (o1 & -> & Ho1);
    [clia|clia|rewrite x25519_public_len; clia|].
  rewrite slice_ok by clia. hs_simpl.
  replace (MSG2_OVERHEAD + n) with (MSG2_PAYLOAD_OFFSET + n + TAGLEN) by clia.
  apply (keeps_payload hs _ o1 out _ _ (fun hs => mkHandshakeState (hs_sym hs) (hs_role hs) (hs_s hs) _
    (hs_rs hs) (hs_re hs) Done)); clia || done.
Qed.

(** The payload's decryption, the last step of both readers. *)
Lemma keeps_decrypted hs hs' ct out (k : HandshakeState S -> HandshakeState S) :
  hs_s hs' = hs_s hs -> (forall h, hs_s (k h) = hs_s h) ->
  keeps hs out
    (let! (hs, r) := HandshakeState.on_sym hs' (fun sym => decrypt_into sym ct out) in (k hs, Ok r)).
Proof.
  intros Hs Hk. unfold HandshakeState.on_sym.
  pose proof (decrypt_into_safe (hs_sym hs') ct out) as [Hp Hok].
  destruct (decrypt_into (hs_sym hs') ct out) as [s2 [[b n]|e|]] eqn:E; [|done..].
  assert (len ct <= len out) as Hct.
  { unfold decrypt_into in E. destruct (Z.ltb_spec (len out) (len ct)); [done|lia]. }
  destruct (Hok b n eq_refl) as [? ?]. split; [apply within_ok; lia|]. cbn [fst]. by rewrite Hk.
Qed.

Lemma read_1_keeps hs msg out :
  (forall p, sk_dh (hs_s hs) p <> Panic) -> keeps hs out (HandshakeState.read_message_1 hs msg out).
Proof.
  intros Hdh. unfold HandshakeState.read_message_1. destruct (_ || _); [done|].
  zcase; [done|]. rewrite slice_ok by clia. hs_simpl.
  pose proof (Hdh (takez (DHLEN - 0) (dropz 0 msg))) as Hes.
  destruct (sk_dh (hs_s hs) _) as [es|e|]; [|done..]. hs_simpl. rewrite slice_ok by clia.
  unfold HandshakeState.on_sym at 1. hs_simpl.
  match goal with |- context [decrypt_and_hash ?s ?b] =>
    destruct (decrypt_and_hash_safe s b) as [Hp Hok];
    destruct (decrypt_and_hash s b) as [s' [[b' n']|er|]] end; [|done..].
  destruct (Hok b' n' eq_refl) as [Hl _]. hs_simpl.
  destruct (n' =? DHLEN); cbn [negb]; [|done].
  rewrite slice_ok by (rewrite ?Hl; len_lia). hs_simpl.
  pose proof (Hdh (takez (DHLEN - 0) (dropz 0 b'))) as Hss.
  destruct (sk_dh (hs_s hs) _) as [ss|e|]; [|done..]. hs_simpl.
  unfold slice_from. rewrite slice_ok by clia.
  by apply (keeps_decrypted hs _ _ out (fun hs => mkHandshakeState (hs_sym hs) (hs_role hs) (hs_s hs)
    (hs_e hs) _ _ AwaitingMessage2)).
Qed.

Lemma read_2_keeps hs msg out :
  (forall p, sk_dh (hs_s hs) p <> Panic) -> keeps hs out (HandshakeState.read_message_2 hs msg out).
Proof.
  intros Hdh. unfold HandshakeState.read_message_2. destruct (_ || _); [done|].
  zcase; [done|]. destruct (hs_e hs) as [e|]; cbn [ok_or]; [|done].
  rewrite slice_ok by clia. hs_simpl.
  specialize (Hdh (takez (DHLEN - 0) (dropz 0 msg))).
  destruct (sk_dh (hs_s hs) _) as [se|er|]; [|done..]. hs_simpl.
  unfold slice_from. rewrite slice_ok by clia.
  by apply (keeps_decrypted hs _ _ out (fun hs => mkHandshakeState (hs_sym hs) (hs_role hs) (hs_s hs)
    (hs_e hs) (hs_rs hs) _ Done)).
Qed.
End messages.

Lemma caps_encode_total c out :
  CAPS_LEN <= len out -> exists out', Capabilities.encode c out = Ok out' /\ len out' = len out.
Proof.
  intros Hl. unfold Capabilities.encode. rewrite (proj2 (Z.ltb_ge _ _)) by done. unfold set_index.
  destruct (copy_range_total (E:=Error) out [cap_flags c] 0 (0 + 1)) as (o1 & -> & E1); [len_lia..|].
  destruct (copy_range_total (E:=Error) o1 [0] 1 (1 + 1)) as (o2 & -> & E2); [len_lia..|].
  destruct (copy_range_total (E:=Error) o2 (to_le 2 (max_frame_size c)) 2 4) as (o3 & -> & E3);
    [len_lia..|].
  destruct (copy_range_total (E:=Error) o3 (to_le 2 (cap_codecs c)) 4 6) as (o4 & -> & E4); [len_lia..|].
  destruct (copy_range_total (E:=Error) o4 (zeros (CAPS_LEN - 6)) 6 CAPS_LEN) as (o5 & -> & E5);
    [len_lia..|].
  exists o5. split; [done|lia].
Qed.

Lemma stage_payload_total caps app noise offset payload_len :
  0 <= offset -> payload_len = CAPS_LEN + len app -> offset + payload_len <= len noise ->
  exists noise', stage_payload caps app noise offset payload_len = Ok noise' /\ len noise' = len noise.
Proof.
  intros Ho -> Hle. pose proof (len_nonneg app). unfold stage_payload. rewrite slice_ok by clia.
  set (p := takez _ _). assert (len p = CAPS_LEN + len app) as Hp by (unfold p; len_lia).
  destruct (caps_encode_total caps p) as (p1 & -> & E1); [lia|].
  destruct (copy_range_total (E:=Error) p1 app CAPS_LEN (len p1)) as (p2 & -> & E2); [clia..|].
  apply copy_range_total; clia.
Qed.

Lemma take_caps_safe out pt_len :
  0 <= pt_len <= len out ->
  match take_caps out pt_len with
  | Ok (_, out', n) => len out' = len out /\ 0 <= n <= len out
  | Err _ => True
  | Panic => False
  end.
Proof.
  intros Hp. unfold take_caps. zcase; [done|]. rewrite slice_ok by clia.
  unfold Capabilities.decode. rewrite (proj2 (Z.ltb_ge _ _)) by len_lia.
  rewrite !slice_ok by len_lia.
  match goal with |- context [index ?l 0] => destruct (index_ok (E:=Error) l 0) as (b & -> & _) end;
    [len_lia|].
  unfold copy_within_0. rewrite slice_ok by clia.
  match goal with |- context [copy_range _ 0 ?b ?s] =>
    destruct (copy_range_total (E:=Error) out s 0 b) as (o & -> & E) end; [clia|clia|len_lia|].
  split; [done|clia].
Qed.

(** A fresh session and the buffer of the message it came with. *)
Definition establishes (out : bytes) (r : Result (Session * bytes * Z)) : Prop :=
  r <> Panic /\ forall s out' n, r = Ok (s, out', n) -> len out' = len out /\ 0 <= n <= len out.

Lemma establishes_ok out s out' n :
  len out' = len out -> 0 <= n <= len out -> establishes out (Ok (s, out', n)).
Proof. intros. split; [done|]. by intros ??? [= <- <- <-]. Qed.

Lemma split_safe `{Crypto} {S} (hs : HandshakeState S) : HandshakeState.split hs <> Panic.
Proof. unfold HandshakeState.split. case_match; [done|]. by destruct SymmetricState.split. Qed.

Section framed.
Context `{CL : CryptoLaws} {S : Type} `{StaticKey S}.

Lemma write_init_safe (i : Initiator S) random app out :
  len (sk_public (hs_s (i_hs i))) = DHLEN -> (forall p, sk_dh (hs_s (i_hs i)) p <> Panic) ->
  within out (Initiator.write_init i random app out).2 /\
  hs_s (i_hs (Initiator.write_init i random app out).1) = hs_s (i_hs i).
Proof.
  intros Hpub Hdh. unfold Initiator.write_init, checked_add. pose proof (len_nonneg app).
  zcase; cbn [ok_or]; [|done]. zcase; cbn [ok_or]; [|done]. zcase; [done|].
  rewrite header_encode_ok by clia. rewrite slice_ok by len_lia.
  set (noise := takez _ _).
  assert (len noise = MSG1_OVERHEAD + (CAPS_LEN + len app)) as Hn by (unfold noise; len_lia).
  destruct (stage_payload_total (i_caps i) app noise MSG1_PAYLOAD_OFFSET (CAPS_LEN + len app))
    as (noise' & -> & Hn'); [clia..|].
  destruct (write_1_safe (i_hs i) random (CAPS_LEN + len app) noise') as [[Hp Hw] Hs];
    [done|done|clia|].
  destruct HandshakeState.write_message_1_in_place as [hs' [[o n]|e|]]; cbn [fst snd] in *; [|done..].
  destruct (Hw o n eq_refl) as [Ho Hn2].
  match goal with |- context [copy_range ?l ?a ?b ?s] =>
    destruct (copy_range_total (E:=Error) l s a b) as (o' & -> & Ho') end; [clia|len_lia|clia|].
  split; [|done]. apply within_ok; cbn; [rewrite Ho'; len_lia|clia].
Qed.

Lemma read_response_safe (i : Initiator S) frame out :
  (forall p, sk_dh (hs_s (i_hs i)) p <> Panic) ->
  establishes out (Initiator.read_response i frame out).
Proof.
  intros Hdh. unfold Initiator.read_response.
  pose proof (header_decode_no_panic frame) as Hd.
  destruct (Header.decode frame) as [h|e|] eqn:Eh; [|done..].
  destruct (_ || _); [done|].
  assert (HEADER_LEN <= len frame) as Hl.
  { unfold Header.decode in Eh. destruct (Z.ltb_spec (len frame) HEADER_LEN); [done|lia]. }
  unfold slice_from. rewrite slice_ok by clia.
  set (msg := takez _ _). destruct (read_2_keeps (i_hs i) msg out Hdh) as [[Hp Hok] _].
  destruct (HandshakeState.read_message_2 (i_hs i) msg out) as [hs [[o n]|e|]]; cbn [snd] in *; [|done..].
  destruct (Hok o n eq_refl) as [Ho Hn]. pose proof (take_caps_safe o n) as Ht.
  destruct (take_caps o n) as [[[caps o'] k]|e|]; [|done|exfalso; apply Ht; lia].
  destruct (ok_or (HandshakeState.remote_static hs) HandshakeStateError) eqn:Er; [|done|by destruct (HandshakeState.remote_static hs)].
  pose proof (split_safe hs). destruct (HandshakeState.split hs) as [[c1 c2]|e|]; [|done..].
  destruct Ht; [lia|]. by apply establishes_ok; lia.
Qed.

(** What a responder does with its key: keeps it, spends it, or hands it to
    the handshake it began. *)
Lemma read_init_safe (r : Responder S) frame out :
  (forall k, r_static_key r = Some k -> forall p, sk_dh k p <> Panic) ->
  let '(r', res) := Responder.read_init r frame out in
  within out res /\
  (r' = r \/
   exists k, r_static_key r = Some k /\ r_static_key r' = None /\
     (r_hs r' = r_hs r \/ exists hs, r_hs r' = Some hs /\ hs_s hs = k)).
Proof.
  intros Hdh. unfold Responder.read_init.
  pose proof (header_decode_no_panic frame) as Hd.
  destruct (Header.decode frame) as [h|e|] eqn:Eh; [|by auto with fectp|done].
  destruct (bool_decide _); [by auto with fectp|].
  destruct (r_static_key r) as [k|]; cbn [ok_or]; [|by auto with fectp].
  specialize (Hdh k eq_refl).
  assert (HEADER_LEN <= len frame) as Hl.
  { unfold Header.decode in Eh. destruct (Z.ltb_spec (len frame) HEADER_LEN); [done|lia]. }
  unfold slice_from. rewrite !slice_ok by clia.
  unfold HandshakeState.responder, HandshakeState.init.
  match goal with |- context [HandshakeState.read_message_1 ?h ?m out] =>
    destruct (read_1_keeps h m out Hdh) as [[Hp Hok] Hs];
    destruct (HandshakeState.read_message_1 h m out) as [hs [[o n]|e|]] end; cbn [fst snd hs_s] in *.
  - destruct (Hok o n eq_refl) as [Ho Hn]. pose proof (take_caps_safe o n) as Ht.
    destruct (take_caps o n) as [[[caps o'] m]|e|]; [|by eauto 10 with fectp|exfalso; apply Ht; lia].
    destruct Ht; [lia|]. split; [apply within_ok; lia|]. cbn [r_static_key r_hs]. eauto 10.
  - eauto 10 with fectp.
  - done.
Qed.

Lemma write_response_safe (r : Responder S) random app out :
  establishes out (Responder.write_response r random app out).
Proof.
  unfold Responder.write_response, checked_add. pose proof (len_nonneg app).
  destruct (r_peer_caps r) as [caps|]; cbn [ok_or]; [|done].
  destruct (r_hs r) as [hs|]; cbn [ok_or]; [|done].
  zcase; cbn [ok_or]; [|done]. zcase; cbn [ok_or]; [|done]. zcase; [done|].
  rewrite header_encode_ok by clia. rewrite slice_ok by len_lia.
  set (noise := takez _ _).
  assert (len noise = MSG2_OVERHEAD + (CAPS_LEN + len app)) as Hn by (unfold noise; len_lia).
  destruct (stage_payload_total (r_caps r) app noise MSG2_PAYLOAD_OFFSET (CAPS_LEN + len app))
    as (noise' & -> & Hn'); [clia..|].
  destruct (write_2_safe hs random (CAPS_LEN + len app) noise') as [[Hp Hw] _]; [clia|].
  destruct HandshakeState.write_message_2_in_place as [hs' [[o n]|e|]]; cbn [fst snd] in *; [|done..].
  destruct (Hw o n eq_refl) as [Ho Hn2].
  match goal with |- context [copy_range ?l ?a ?b ?s] =>
    destruct (copy_range_total (E:=Error) l s a b) as (o' & -> & Ho') end; [clia|len_lia|clia|].
  destruct (HandshakeState.remote_static hs'); cbn [ok_or]; [|done].
  pose proof (split_safe hs'). destruct (HandshakeState.split hs') as [[c1 c2]|e|]; [|done..].
  apply establishes_ok; [rewrite Ho'; len_lia|clia].
Qed.
End framed.

(** ** Resumption *)
Section resuming.
Context `{CL : CryptoLaws}.

Lemma resume_read_1_within rh msg out :
  within out (ResumeHandshake.read_message_1 rh msg out).2.
Proof.
  unfold ResumeHandshake.read_message_1. destruct (_ || _); [done|]. zcase; [done|].
  rewrite slice_ok by clia. unfold slice_from. rewrite slice_ok by clia.
  unfold ResumeHandshake.on_sym.
  match goal with |- context [decrypt_into ?s ?ct out] =>
    pose proof (decrypt_into_safe s ct out) as [Hp Hok];
    destruct (decrypt_into s ct out) as [s2 [[b n]|e|]] eqn:E end; [|done..].
  destruct (Hok b n eq_refl) as [Hb Hn]. apply within_ok; [done|].
  unfold decrypt_into in E.
  match type of E with (if ?x <? ?y then _ else _) = _ => destruct (Z.ltb_spec x y); [done|lia] end.
Qed.

Lemma resume_read_init_within (r : ResumeResponder) ticket frame out :
  within out (ResumeResponder.read_init r ticket frame out).2.
Proof.
  unfold ResumeResponder.read_init. pose proof (header_decode_no_panic frame) as Hd.
  destruct (Header.decode frame) as [h|e|]; [|done..].
  destruct (bool_decide _); [done|]. zcase; [done|].
  rewrite slice_ok by clia. unfold slice_from. rewrite slice_ok by clia.
  match goal with |- context [ResumeHandshake.read_message_1 ?h ?m out] =>
    destruct (resume_read_1_within h m out) as [Hp Hok];
    destruct (ResumeHandshake.read_message_1 h m out) as [hs [[o n]|e|]] end; cbn [fst snd] in *; [|done..].
  destruct (Hok o n eq_refl) as [Ho Hn]. pose proof (take_caps_safe o n) as Ht.
  destruct (take_caps o n) as [[[caps o'] m]|e|]; [|done|exfalso; apply Ht; lia].
  destruct Ht; [lia|]. apply within_ok; lia.
Qed.

Lemma ticket_id_no_panic frame : ResumeResponder.ticket_id frame <> Panic.
Proof.
  unfold ResumeResponder.ticket_id. pose proof (header_decode_no_panic frame) as Hd.
  destruct (Header.decode frame) as [h|e|]; [|done..].
  destruct (bool_decide _); [done|]. zcase; [done|]. by rewrite slice_ok by clia.
Qed.
End resuming.

(** ** Sealing and opening *)
Section frames.
Context `{CL : CryptoLaws}.

Lemma advance_send_safe n s : (advance_send n s).2 <> Panic.
Proof.
  revert s. induction n as [|n IH]; intros s; [done|]. cbn [advance_send].
  pose proof (rekeyed_no_panic (s_send s)). destruct CipherState.rekeyed; [|done..]. apply IH.
Qed.

Lemma seal_within s t payload fl out :
  within out (seal_frame s t payload None None fl out).2.
Proof.
  unfold seal_frame, seal_frame_padded. destruct (_ =? U64_MAX); [done|].
  pose proof (advance_send_safe (Z.to_nat (generation_of (s_send_seq s) - s_send_generation s)) s).
  destruct advance_send as [s1 [[]|e|]]; [|done..]. cbn [id_len fragment_len is_some snd].
  set (padding := if s_padding s then PadBlock else PadNone). unfold checked_add at 1.
  zcase; cbn [ok_or]; [|done]. unfold checked_add at 1. zcase; cbn [ok_or]; [|done].
  change (0 + 0 + len payload) with (inner_len_of None None payload).
  destruct (is_padded padding && _) eqn:Epad; [done|].
  destruct (plaintext_len_of padding (inner_len_of None None payload)) as [plen|e|] eqn:Epl; [|done|].
  2: { unfold padding, plaintext_len_of in Epl. destruct (s_padding s); [|done].
       by destruct (checked_add LEN_PREFIX _). }
  destruct (plaintext_len_ok _ _ _ _ _ Epad Epl) as [Hle Hlen].
  pose proof (len_nonneg (prefixes padding None None payload)). pose proof (len_nonneg payload).
  unfold checked_add. zcase; cbn [ok_or]; [|done]. zcase; [done|].
  rewrite header_encode_ok by clia. rewrite slice_head by (by rewrite len_header_wire).
  rewrite slice_ok by len_lia.
  set (body := takez _ _). assert (len body = plen + TAGLEN) as Hb by (unfold body; len_lia).
  destruct (write_body_spec padding None None payload plen body Epad Epl Hb) as (post & Hpost & ->).
  match goal with |- context [CipherState.encrypt_at ?c ?a ?n ?b ?k] =>
    destruct (encrypt_at_safe c a n b k) as [Hp Hok]; [lia|];
    destruct (CipherState.encrypt_at c a n b k) as [[b' m]|e|] end; [|done..].
  destruct (Hok b' m eq_refl) as (Hl & Hm & Hm2). cbn [fst].
  match goal with |- context [copy_range ?l ?a ?b ?s] =>
    destruct (copy_range_total (E:=Error) l s a b) as (o' & -> & Ho') end; [clia|len_lia| |].
  - rewrite Hl, len_app, Hlen. clia.
  - apply within_ok; cbn; [rewrite Ho'; len_lia|clia].
Qed.

(** An opened frame's payload lies inside the frame. *)
Lemma open_within s frame s' o buf :
  bytes_ok frame -> open s frame = (s', Ok (o, buf)) ->
  HEADER_LEN <= len buf /\ 0 <= o_len o <= len buf - HEADER_LEN.
Proof.
  intros Hb. unfold open. destruct (Header.decode frame) as [h|e|]; [|done..].
  destruct (opens (frame_type h)); cbn [negb]; [|done].
  destruct (session_id h =? s_session_id s); cbn [negb]; [|done].
  destruct (Z.ltb_spec (len frame) (HEADER_LEN + TAGLEN)); [done|].
  destruct (ReplayWindow.check (s_replay s) (sequence h)) as [[]|e|]; [|done..].
  destruct (_ <? _); [done|]. destruct (choose_key _ _ _) as [[c next]|e|]; [|done..].
  unfold slice_from. rewrite !slice_ok by clia. cbn [fst snd].
  match goal with |- context [CipherState.decrypt_at ?c ?a ?n ?b] =>
    destruct (decrypt_at_safe c a n b) as [_ Hdl];
    destruct (CipherState.decrypt_at c a n b) as [[b' n']|e|] eqn:Edec end; [|done..].
  destruct (Hdl b' n' eq_refl) as (Hlb & Hn & Hn0). cbn [fst snd].
  assert (bytes_ok b') as Hbb by (eapply decrypt_at_bytes; [exact Edec|auto with fectp]).
  destruct (peel_safe (flags h) b' n' Hbb ltac:(clia)) as [_ Hpr].
  destruct (peel (flags h) b' n') as [[[[m f] at_] k]|e|]; [|done..].
  destruct (Hpr m f at_ k eq_refl) as (Ha & Hk & Hak).
  destruct (if 0 <? at_ then _ else _) as [b2|e|] eqn:E2; [|done..].
  assert (len b2 = len b') as Hb2.
  { destruct (0 <? at_); [|by injection E2 as <-]. unfold copy_within_0 in E2.
    destruct slice; [|done..]. by apply copy_range_ok_len in E2. }
  destruct bad_path_frame; [done|]. intros [= _ <- <-]. cbn [o_len]. len_lia.
Qed.
End frames.

(** ** A whole exchange, with the buffers as the callers slice them *)
Lemma handshake_exchange `{CL : CryptoLaws} {SI SR} `{StaticKey SI} `{StaticKey SR}
    (ki : SI) (kr : SR) a b sid ci cr r1 r2 app1 app2 out1 out2 buf1 :
  backed_by ki a -> backed_by kr b -> is_u32 sid -> Capabilities.wf ci -> Capabilities.wf cr ->
  CAPS_LEN + len app1 <= AEAD_MAX -> INITIATOR_OVERHEAD + len app1 <= len out1 ->
  CAPS_LEN + len app1 + TAGLEN <= len buf1 ->
  CAPS_LEN + len app2 <= AEAD_MAX -> RESPONDER_OVERHEAD + len app2 <= len out2 ->
  exists i i' r' m1 m2 f1 f2 b1 sr,
    Initiator.new ki (sk_public kr) sid ci = Ok i /\
    (Initiator.write_init i r1 app1 out1 = (i', Ok (m1, INITIATOR_OVERHEAD + len app1)) /\
     len m1 = len out1 /\ slice (E:=Error) m1 0 (INITIATOR_OVERHEAD + len app1) = Ok f1) /\
    (Responder.read_init (Responder.new kr cr) f1 buf1 = (r', Ok (app1 ++ b1, len app1)) /\
     len (app1 ++ b1) = len buf1) /\
    (Responder.write_response r' r2 app2 out2 = Ok (sr, m2, RESPONDER_OVERHEAD + len app2) /\
     len m2 = len out2 /\ slice (E:=Error) m2 0 (RESPONDER_OVERHEAD + len app2) = Ok f2) /\
    forall buf2, CAPS_LEN + len app2 + TAGLEN <= len buf2 ->
      exists b2 si, Initiator.read_response i' f2 buf2 = Ok (si, app2 ++ b2, len app2) /\ linked si sr.
Proof.
  intros Hi Hr Hsid Hci Hcr Hp1 Ho1 Hb1 Hp2 Ho2.
  pose proof (len_nonneg app1). pose proof (len_nonneg app2).
  destruct (Connecting.first_flight ki kr a b Hi Hr sid Hsid ci cr Hci r1 app1 out1 buf1 Hp1 Ho1 Hb1)
    as (sym1 & m1 & b1 & Hw1 & Hrd1).
  pose proof (fun buf2 => Connecting.second_flight ki kr a b Hi Hr sid Hsid ci cr Hcr sym1 r1 r2 app2 out2
    buf2 Hp2 Ho2) as Hsecond.
  destruct (Hsecond (zeros (CAPS_LEN + len app2 + TAGLEN))) as (si & sr & m2 & b2 & Hw2 & _); [len_lia|].
  destruct (write_init_safe (Connecting.i0 ki b sid ci) r1 app1 out1) as [[_ Hm1] _].
  { cbn. rewrite (proj1 Hi). apply x25519_public_len. }
  { intros p. cbn. by rewrite (proj2 Hi). }
  rewrite Hw1 in Hm1. destruct (Hm1 _ _ eq_refl) as [Hl1 _].
  match type of Hw2 with Responder.write_response ?r _ _ _ = _ =>
    destruct (write_response_safe r r2 app2 out2) as [_ Hm2] end. rewrite Hw2 in Hm2.
  destruct (Hm2 _ _ _ eq_refl) as [Hl2 _].
  pose proof (read_init_safe (Responder.new kr cr) (takez (INITIATOR_OVERHEAD + len app1) m1) buf1) as Hrs.
  rewrite Hrd1 in Hrs. destruct Hrs as [[_ Hbl] _].
  { intros k [= <-] p. by rewrite (proj2 Hr). }
  destruct (Hbl _ _ eq_refl) as [Hb1' _].
  do 3 eexists. exists m1, m2. do 2 eexists. exists b1, sr.
  split; [by apply (Connecting.initiator_new ki kr b Hr)|].
  split; [split; [exact Hw1|split; [done|]]|].
  { rewrite slice_ok, dropz_0 by clia. by rewrite Z.sub_0_r. }
  split; [by split|]. split; [split; [exact Hw2|split; [done|]]|].
  { rewrite slice_ok, dropz_0 by clia. by rewrite Z.sub_0_r. }
  intros buf2 Hb2. destruct (Hsecond buf2 Hb2) as (si' & sr' & m2' & b2' & Hw2' & Hrd2 & Hl & _).
  rewrite Hw2 in Hw2'. injection Hw2' as <- <-. by exists b2', si'.
Qed.
