(* ===== verification/Compress.v ===== *)
(** * Payload coding (crates/fectp/src/compress.rs)

    The policy that decides whether a payload is transformed, compressed or
    sent as it is, and the two functions around it. Zstandard is a parameter
    (the class [ZstdLib]) with the laws its documentation gives (the class
    [ZstdLaws]); [ToyZstd] is an instance that satisfies them. The theorems
    show the coding is lossless for every declared shape, never enlarges a
    payload, uses nothing the peer did not advertise, and is safe to undo on
    bytes a peer chose. *)
From Stdlib Require Import String.
From S2P Require Import Prelude Bytes Error Varint Transpose Numeric Codec Cipher Symmetric Handshake Session.

Definition MIN_COMPRESS_SIZE : Z := 1024.
Definition LEVEL : Z := 1.
Definition MIN_TRANSFORM_SIZE : Z := 32.
#[export] Hint Unfold MIN_COMPRESS_SIZE MIN_TRANSFORM_SIZE : consts.

(** ** Zstandard

    [compress_to_buffer input out level] and [decompress_to_buffer input out]
    are [zstd::bulk]'s: the destination buffer after the call, and the number
    of bytes written at its front, or [None] on an error.
    [feature_compress] is the crate's [compress] feature. *)
Class ZstdLib := {
  feature_compress : bool;
  compress_to_buffer : bytes -> bytes -> Z -> bytes * option Z;
  decompress_to_buffer : bytes -> bytes -> bytes * option Z;
}.

Class ZstdLaws (z : ZstdLib) := {
  (** Neither call moves the end of the buffer or reports more than it holds. *)
  compress_bounds input out level out' r :
    compress_to_buffer input out level = (out', r) ->
    len out' = len out /\ forall n, r = Some n -> 0 <= n <= len out;
  decompress_bounds input out out' r :
    decompress_to_buffer input out = (out', r) ->
    len out' = len out /\ forall n, r = Some n -> 0 <= n <= len out;
  (** What is written are bytes. *)
  decompress_bytes input out out' n :
    bytes_ok input -> decompress_to_buffer input out = (out', Some n) -> bytes_ok (takez n out');
  (** A frame decompresses to what was compressed, into any buffer that holds it. *)
  zstd_lossless input out level out' n buf :
    bytes_ok input -> compress_to_buffer input out level = (out', Some n) -> len input <= len buf ->
    exists buf', decompress_to_buffer (takez n out') buf = (buf', Some (len input)) /\
      takez (len input) buf' = input;
}.

(** [slice::starts_with]. *)
Definition starts_with (l prefix : bytes) : bool := bool_decide (takez (len prefix) l = prefix).

Definition MAGICS : list bytes :=
  [ [0xFF; 0xD8; 0xFF];
    [0x89; 0x50; 0x4E; 0x47];
    [0x47; 0x49; 0x46; 0x38];
    [0x50; 0x4B; 0x03; 0x04];
    [0x1F; 0x8B];
    [0x28; 0xB5; 0x2F; 0xFD];
    [0x04; 0x22; 0x4D; 0x18];
    [0x42; 0x5A; 0x68];
    [0xFD; 0x37; 0x7A; 0x58; 0x5A];
    [0x4F; 0x67; 0x67; 0x53];
    [0x66; 0x4C; 0x61; 0x43];
    [0x49; 0x44; 0x33] ].

Definition looks_precompressed (payload : bytes) : Result bool :=
  if existsb (starts_with payload) MAGICS then Ok true else
  let? ftyp :=
    if 12 <=? len payload
    then let? brand := slice payload 4 8 in Ok (bool_decide (brand = literal "ftyp"))
    else Ok false in
  if ftyp : bool then Ok true else
  if (12 <=? len payload) && starts_with payload (literal "RIFF")
  then let? kind := slice payload 8 12 in Ok (bool_decide (kind = literal "WEBP"))
  else Ok false.

Definition should_compress (payload : bytes) (peer_caps : Capabilities) : Result bool :=
  if Capabilities.accepts_compression peer_caps && (MIN_COMPRESS_SIZE <=? len payload)
  then let? p := looks_precompressed payload in Ok (negb p)
  else Ok false.

Inductive PayloadType :=
| Opaque
| I16 (channels : Z)
| I32 (channels : Z)
| Elements (size : Z).

#[global] Instance PayloadType_eq_dec : EqDecision PayloadType.
Proof. solve_decision. Defined.

Module PayloadType.
Definition transform (t : PayloadType) : Transform * Z :=
  match t with
  | Opaque => (TransformNone, 0)
  | I16 channels => (I16Delta, channels)
  | I32 channels => (I32Delta, channels)
  | Elements size => (ByteTranspose, size)
  end.

(** The parameter is a [u8]. *)
Definition wf (t : PayloadType) : Prop := is_u8 (snd (transform t)).
End PayloadType.

Definition ensure (buf : bytes) (n : Z) : bytes :=
  if len buf <? n then grow buf n else buf.

Section coding.
Context {z : ZstdLib}.

(** [codec::compress]: the buffer, and the length when it is a gain. *)
Definition compress (input out : bytes) : bytes * option Z :=
  match compress_to_buffer input out LEVEL with
  | (out, Some n) => (out, if n <? len input then Some n else None)
  | (out, None) => (out, None)
  end.

(** [codec::decompress]. *)
Definition decompress (input out : bytes) : bytes * HostResult Z :=
  match decompress_to_buffer input out with
  | (out, Some n) => (out, Ok n)
  | (out, None) => (out, Err Decompress)
  end.

(** The transform [encode_payload] settles on and the length of its output in
    [primary]; [None] is one of its early returns. *)
Definition apply_transform (data : bytes) (payload_type : PayloadType) (peer_caps : Capabilities)
    (zstd_available : bool) (primary : bytes) : Result (bytes * option (Transform * Z * Z)) :=
  let (transform, param) := PayloadType.transform payload_type in
  let transform_usable :=
    negb (bool_decide (transform = TransformNone)) && (MIN_TRANSFORM_SIZE <=? len data)
    && Capabilities.supports_codecs peer_caps (Transform.capability transform) in
  let transform_usable :=
    transform_usable
    && negb (bool_decide (transform = ByteTranspose) && negb zstd_available) in
  if transform_usable then
    let primary := ensure primary (len data * 2 + 16) in
    match Transform.apply transform data param primary with
    | Ok (primary, n) => Ok (primary, Some (transform, param, n))
    | Err _ => Ok (primary, None)
    | Panic => Panic
    end
  else
    let? skip :=
      if negb zstd_available || (len data <? MIN_COMPRESS_SIZE) then Ok true
      else looks_precompressed data in
    if skip : bool then Ok (primary, None) else
    let primary := ensure primary (len data) in
    let? primary := copy_range primary 0 (len data) data in
    Ok (primary, Some (TransformNone, 0, len data)).

(** The entropy stage over [primary[..transformed_len]]. *)
Definition apply_entropy (zstd_available : bool) (primary secondary : bytes) (transformed_len : Z)
  : Result (bytes * bytes * Entropy * Z) :=
  if zstd_available then
    let secondary := ensure secondary (transformed_len + 64) in
    let? input := slice primary 0 transformed_len in
    match compress input secondary with
    | (secondary, Some n) =>
        let? coded := slice secondary 0 n in
        let? primary := copy_range primary 0 n coded in
        Ok (primary, secondary, Zstd, n)
    | (secondary, None) => Ok (primary, secondary, EntropyNone, transformed_len)
    end
  else Ok (primary, secondary, EntropyNone, transformed_len).

(** [encode_payload]. The two working buffers come back with the result; what
    a failed transform leaves in [primary] is not tracked, since every use
    overwrites a buffer before reading it. *)
Definition encode_payload (data : bytes) (payload_type : PayloadType) (peer_caps : Capabilities)
    (primary secondary : bytes) : Result (bytes * bytes * option (CodecHeader * Z)) :=
  if MAX_ORIGINAL_LEN <? len data then Ok (primary, secondary, None) else
  let zstd_available := feature_compress && Capabilities.accepts_compression peer_caps in
  let? (primary, chosen) := apply_transform data payload_type peer_caps zstd_available primary in
  match chosen with
  | None => Ok (primary, secondary, None)
  | Some (transform, param, transformed_len) =>
      let? (primary, secondary, entropy, coded_len) :=
        apply_entropy zstd_available primary secondary transformed_len in
      if len data <=? CODEC_HEADER_LEN + coded_len then Ok (primary, secondary, None) else
      Ok (primary, secondary,
          Some ({| Codec.transform := transform; Codec.entropy := entropy; Codec.param := param;
                   Codec.original_len := len data mod 65536 |}, coded_len))
  end.

(** [decode_payload]: [scratch] after the call, and [out] with the length. *)
Definition decode_payload (plaintext scratch out : bytes) : bytes * HostResult (bytes * Z) :=
  match CodecHeader.decode plaintext with
  | Err e => (scratch, Err (Protocol e))
  | Panic => (scratch, Panic)
  | Ok header =>
      let! (scratch, coded) := (scratch, slice_from plaintext CODEC_HEADER_LEN) in
      let original_len := Codec.original_len header in
      if len out <? original_len
      then (scratch, Err (HostPayloadTooLarge original_len (len out))) else
      let! (scratch, transformed) :=
        match Codec.entropy header with
        | EntropyNone => (scratch, Ok coded)
        | Zstd =>
            if feature_compress then
              let scratch := ensure scratch (original_len * 2 + 16) in
              let! (scratch, n) := decompress coded scratch in
              (scratch, slice scratch 0 n)
            else (scratch, Err Decompress)
        end in
      (scratch, map_err Protocol
         (Transform.reverse (Codec.transform header) transformed (Codec.param header)
            original_len out))
  end.
End coding.

(** ** An instance

    Runs of one byte become six bytes, anything else is stored; enough to run
    the definitions and to show that the laws can hold. *)
Module ToyZstd.
Definition pack (input : bytes) : bytes :=
  match input with
  | b :: l =>
      if forallb (Z.eqb b) l && (len input <? 4294967296)
      then [1; b] ++ to_le 4 (len input) else 0 :: input
  | [] => [0]
  end.

Definition unpack (l : bytes) : option bytes :=
  match l with
  | 0 :: input => Some input
  | [1; b; n0; n1; n2; n3] =>
      Some (replicate (Z.to_nat (from_le [n0; n1; n2; n3])) b)
  | _ => None
  end.

Definition put (out src : bytes) : bytes * option Z :=
  if len src <=? len out then (src ++ dropz (len src) out, Some (len src)) else (out, None).

Definition zstd : ZstdLib := {|
  feature_compress := true;
  compress_to_buffer input out _ := put out (pack input);
  decompress_to_buffer input out :=
    match unpack input with Some l => put out l | None => (out, None) end;
|}.

Lemma unpack_pack input : bytes_ok input -> unpack (pack input) = Some input.
Proof.
  intros Hok. destruct input as [|b l]; [done|]. unfold pack. case_match eqn:Hc; [|done].
  zbool. remember (len (b :: l)) as n eqn:Hn.
  assert (0 <= n) by (subst; apply len_nonneg).
  assert (from_le (to_le 4 n) = n) as Hfl by (apply from_le_to_le; simpl; lia).
  remember (to_le 4 n) as w. assert (len w = 4) by (subst; by rewrite len_to_le).
  do 4 (destruct w as [|? w]; [len_lia|]). destruct w; [|len_lia].
  simpl app. unfold unpack. rewrite Hfl. f_equal. subst n. rewrite to_nat_len.
  simpl. f_equal. match goal with H : forallb _ _ = true |- _ => revert H end. clear. induction l; [done|].
  simpl. intros. zbool. subst. f_equal. auto.
Qed.

Lemma put_bounds out src out' r :
  put out src = (out', r) -> len out' = len out /\ forall n, r = Some n -> 0 <= n <= len out.
Proof. unfold put. intros H. inv_run H; (split; [len_lia|]); intros; simplify_eq; len_lia. Qed.

Lemma put_some out src out' n : put out src = (out', Some n) -> takez n out' = src /\ n = len src.
Proof. unfold put. intros H. inv_run H. by rewrite takez_app by done. Qed.

Lemma unpack_bytes input l : bytes_ok input -> unpack input = Some l -> bytes_ok l.
Proof.
  unfold bytes_ok. intros Hok H. unfold unpack in H.
  repeat case_match; simplify_eq.
  - by eapply Forall_cons_1 in Hok as [_ Hok].
  - apply Forall_replicate. by eapply Forall_cons_1 in Hok as [_ [? _]%Forall_cons_1].
Qed.

Lemma laws : ZstdLaws zstd.
Proof.
  split; simpl.
  - intros ????? H. by apply put_bounds in H.
  - intros input out out' r H. destruct (unpack input).
    + by apply put_bounds in H.
    + simplify_eq. split; [done|]. intros. discriminate.
  - intros input out out' n Hok H. destruct (unpack input) eqn:Hu; [|done].
    apply put_some in H as [-> _]. by eapply unpack_bytes.
  - intros input out _ out' n buf Hok H Hl. apply put_some in H as [-> ->].
    rewrite unpack_pack by done. unfold put. rewrite (proj2 (Z.leb_le _ _)) by done.
    eexists. split; [done|]. by rewrite takez_app by done.
Qed.
End ToyZstd.

(** ** Lemmas *)
Lemma len_ensure buf n : len (ensure buf n) = Z.max (len buf) n.
Proof. unfold ensure, grow. zcase; len_lia. Qed.
#[export] Hint Rewrite len_ensure : len.

Lemma looks_precompressed_total payload : exists b, looks_precompressed payload = Ok b.
Proof.
  unfold looks_precompressed. case_match; [eauto|].
  destruct (Z.leb_spec 12 (len payload)); [|eauto].
  rewrite !slice_ok by lia. repeat case_match; eauto.
Qed.

(** A value of at most 21 bits takes at most three bytes. *)
Lemma spec_len_small v : 0 <= v < 2097152 -> len (varint.spec v) <= 3.
Proof.
  intros Hv. unfold varint.spec, varint.MAX_LEN.
  assert (v / 128 < 16384) by (apply Z.div_lt_upper_bound; lia).
  assert (v / 128 / 128 < 128) by (apply Z.div_lt_upper_bound; lia).
  simpl. repeat (case_match; zbool); len_lia.
Qed.

Lemma i16_piece_len input ch n t : len (numeric.piece (numeric.sample input ch 2) n t) <= 3.
Proof.
  assert (forall c s, -32768 <= numeric.sample input ch 2 c s < 32768) as Hs.
  { intros. unfold numeric.sample, numeric.value_at. simpl. apply to_i16_range. }
  unfold numeric.piece. apply spec_len_small.
  match goal with |- context [to_i32 (?a - ?b)] => assert (-65536 < a - b < 65536) as Hd end.
  { unfold numeric.previous. pose proof (Hs (t / n) (t mod n)).
    case_match; [lia|]. pose proof (Hs (t / n) (t mod n - 1)). lia. }
  rewrite to_i32_small by lia. rewrite zigzag_eq by lia. unfold varint.zigzag_spec. zcase; lia.
Qed.

Lemma i16_stream_len input ch n t :
  0 <= t -> len (numeric.stream (numeric.sample input ch 2) n t) <= 3 * t.
Proof.
  revert t. refine (natlike_ind _ _ _).
  - rewrite stream_0. len_lia.
  - intros t Ht IH. replace (Z.succ t) with (t + 1) by lia.
    rewrite stream_succ, len_app by lia. pose proof (i16_piece_len input ch n t). lia.
Qed.

(** The numeric transforms at most double their input. *)
Lemma numeric_encode_len input ch w out :
  (w = 2 \/ w = 4) -> 0 <= ch ->
  match numeric.encode input ch w out with
  | Ok (enc, n) => 0 <= n <= len out /\ n <= 2 * len input /\ len enc = len out
  | Err _ => True
  | Panic => False
  end.
Proof.
  intros Hw Hch. pose proof (len_nonneg input).
  destruct (numeric.frame_layout (len input) ch w) as [k|e|] eqn:Hfl.
  - destruct (frame_layout_inv (len input) ch w k) as (? & ? & Hl); [done|done|lia|done|].
    rewrite (numeric_encode_eq _ _ _ _ k) by done. zcase; [|done].
    split; [len_lia|]. split; [|len_lia]. destruct Hw as [-> | ->].
    + pose proof (i16_stream_len input ch k (ch * k) ltac:(nia)). nia.
    + pose proof (stream_len_bound (numeric.sample input ch 4) k (ch * k) ltac:(nia)). nia.
  - unfold numeric.encode. by rewrite Hfl.
  - pose proof (frame_layout_no_panic (len input) ch w) as Hp. by rewrite Hfl in Hp.
Qed.

Lemma transform_apply_len t input p out :
  0 <= p ->
  match Transform.apply t input p out with
  | Ok (enc, n) => 0 <= n <= len out /\ n <= 2 * len input /\ len enc = len out
  | Err _ => True
  | Panic => False
  end.
Proof.
  intros Hp. destruct t; cbn [Transform.apply].
  - zcase; [done|]. rewrite copy_range_at by done. len_lia.
  - apply numeric_encode_len; auto.
  - apply numeric_encode_len; auto.
  - destruct (Z.eqb_spec p 0) as [->|]; [done|].
    destruct (Z.ltb_spec (len out) (len input)).
    + unfold transpose.encode. rewrite (proj2 (Z.eqb_neq _ _)) by done.
      by rewrite (proj2 (Z.ltb_lt _ _)) by done.
    + destruct (transpose_encode_ok input p out) as (o & -> & Ho & _); [lia|lia|]. len_lia.
Qed.

Lemma bytes_ok_chunks n l :
  0 <= n -> (forall i, 0 <= i < n -> bytes_ok (chunk 1 i l)) -> bytes_ok (takez n l).
Proof.
  revert n. refine (natlike_ind _ _ _).
  - intros _. rewrite takez_0 by lia. constructor.
  - intros n Hn IH H. replace (Z.succ n) with (n + 1) by lia.
    rewrite chunk_split by lia. apply bytes_ok_app. split; [apply IH; intros; apply H; lia|].
    apply H. lia.
Qed.

Lemma stream_bytes_ok f n t : 0 <= t -> bytes_ok (numeric.stream f n t).
Proof.
  revert t. refine (natlike_ind _ _ _).
  - rewrite stream_0. constructor.
  - intros t Ht IH. replace (Z.succ t) with (t + 1) by lia. rewrite stream_succ by lia.
    apply bytes_ok_app. split; [done|]. apply spec_bytes_ok.
    match goal with |- 0 <= varint.zigzag ?x =>
      pose proof (zigzag_range x (to_i32_range _)) end. lia.
Qed.

Lemma transpose_encode_bytes input es out enc n :
  bytes_ok input -> 0 <= es -> transpose.encode input es out = Ok (enc, n) -> bytes_ok (takez n enc).
Proof.
  intros Hok Hes H. assert (0 < es /\ len input <= len out) as [? ?].
  { unfold transpose.encode in H. destruct (Z.eqb_spec es 0); [done|]. zcase_in H; [done|lia]. }
  destruct (transpose_encode_ok input es out) as (enc' & He & Hl & Hc & Ht); [done..|].
  rewrite He in H. simplify_eq. set (k := len input / es) in *.
  assert (0 <= k /\ k * es <= len input) as [Hk0 Hk].
  { pose proof (Z.div_mod (len input) es ltac:(lia)). pose proof (Z.mod_pos_bound (len input) es ltac:(lia)).
    split; [apply Z.div_pos; len_lia|nia]. }
  replace (len input) with (k * es + (len input - k * es)) by lia.
  rewrite chunk_split by lia. apply bytes_ok_app. split; [|rewrite Ht; auto with fectp].
  apply bytes_ok_chunks; [lia|]. intros i Hi.
  assert (0 < k) by nia.
  pose proof (Z.div_mod i k ltac:(lia)). pose proof (Z.mod_pos_bound i k ltac:(lia)).
  assert (0 <= i / k < es).
  { split; [apply Z.div_pos; lia | apply Z.div_lt_upper_bound; lia]. }
  specialize (Hc (i / k) (i mod k) ltac:(lia) ltac:(lia)).
  replace (i / k * k + i mod k) with i in Hc by lia. rewrite Hc.
  unfold chunk. auto with fectp.
Qed.

Lemma transform_apply_bytes t input p out enc n :
  bytes_ok input -> 0 <= p -> Transform.apply t input p out = Ok (enc, n) -> bytes_ok (takez n enc).
Proof.
  assert (forall w, (w = 2 \/ w = 4) -> bytes_ok input -> 0 <= p ->
    numeric.encode input p w out = Ok (enc, n) -> bytes_ok (takez n enc)) as Hnum.
  { intros w Hw Hok Hp H. pose proof (len_nonneg input).
    destruct (numeric.frame_layout (len input) p w) as [k|e|] eqn:Hfl;
      [|by unfold numeric.encode in H; rewrite Hfl in H..].
    destruct (frame_layout_inv (len input) p w k) as (? & ? & Hl); [done|done|lia|done|].
    rewrite (numeric_encode_eq _ _ _ _ k) in H by done. zcase_in H; [|done]. simplify_eq.
    rewrite takez_app by done. apply stream_bytes_ok. nia. }
  intros Hok Hp H. destruct t; cbn [Transform.apply] in H.
  - zcase_in H; [done|]. rewrite copy_range_at in H by done. simplify_eq. by rewrite takez_app.
  - apply (Hnum 2); auto.
  - apply (Hnum 4); auto.
  - by eapply transpose_encode_bytes.
Qed.

Lemma ensure_id buf n : n <= len buf -> ensure buf n = buf.
Proof. intros. unfold ensure. by rewrite (proj2 (Z.ltb_ge _ _)) by lia. Qed.

Section coding_facts.
Context {z : ZstdLib} {laws : ZstdLaws z}.

(** What the transform stage leaves in [primary]: something the reverse
    transform turns back into the payload, within twice its length, and a
    transform the peer advertised. *)
Definition transformed (data : bytes) (caps : Capabilities) (primary : bytes)
    (t : Transform) (p n : Z) : Prop :=
  0 <= n <= len primary /\ n <= 2 * len data /\ is_u8 p /\ bytes_ok (takez n primary) /\
  Capabilities.supports_codecs caps (Transform.capability t) = true /\
  forall out, len data <= len out ->
    exists dec, Transform.reverse t (takez n primary) p (len data) out = Ok (dec, len data) /\
      takez (len data) dec = data.

Lemma apply_transform_spec data pt caps za primary :
  bytes_ok data -> PayloadType.wf pt -> is_u16 (cap_codecs caps) ->
  exists primary' chosen, apply_transform data pt caps za primary = Ok (primary', chosen) /\
    forall t p n, chosen = Some (t, p, n) ->
      transformed data caps primary' t p n /\ MIN_TRANSFORM_SIZE <= len data /\
      (t = TransformNone \/ t = ByteTranspose -> za = true).
Proof.
  intros Hok Hwf Hc. unfold apply_transform. unfold PayloadType.wf in Hwf.
  destruct (PayloadType.transform pt) as [t p]. cbn [snd] in Hwf.
  pose proof (len_nonneg data) as Hn.
  case_match eqn:Hu.
  - zbool. pose proof (transform_apply_len t data p (ensure primary (len data * 2 + 16)) ltac:(lia)) as Hl.
    destruct (Transform.apply t data p _) as [[enc n]|e|] eqn:Ha; [|do 2 eexists; split; [done|discriminate]|done].
    do 2 eexists. split; [done|]. intros ??? [= <- <- <-]. split; [|split; [done|]].
    + destruct Hl as (? & ? & Hle). unfold transformed. rewrite Hle. do 3 (split; [done|]).
      split; [exact (transform_apply_bytes _ _ _ _ _ _ Hok (proj1 Hwf) Ha)|]. split; [done|].
      intros out Hout. by eapply transform_roundtrip.
    + intros [->| ->]; [done|]. destruct za; [done|]. by cbn in *.
  - destruct (negb za || (len data <? MIN_COMPRESS_SIZE)) eqn:Hs; [do 2 eexists; split; [done|discriminate]|].
    destruct (looks_precompressed_total data) as [b ->]. destruct b; [do 2 eexists; split; [done|discriminate]|].
    zbool. rewrite copy_range_at by len_lia. do 2 eexists. split; [done|].
    intros ??? [= <- <- <-]. split; [|split; [clia|done]].
    split; [len_lia|]. split; [lia|]. split; [done|].
    split; [by rewrite takez_app|]. split.
    { unfold Capabilities.supports_codecs. cbn. by rewrite Z.land_0_r. }
    intros out Hout. rewrite takez_app by done. cbn [Transform.reverse].
    rewrite Z.eqb_refl, (proj2 (Z.ltb_ge _ _)), copy_range_at by done.
    eexists. split; [done|]. by rewrite takez_app by done.
Qed.

(** The entropy stage: either nothing, or a shorter string that decompresses
    to what it was given. *)
Lemma apply_entropy_spec za primary secondary n :
  bytes_ok (takez n primary) -> 0 <= n <= len primary ->
  exists primary' secondary' e m,
    apply_entropy za primary secondary n = Ok (primary', secondary', e, m) /\
    0 <= m <= n /\
    match e with
    | EntropyNone => m = n /\ primary' = primary
    | Zstd => za = true /\ m < n /\ forall buf, n <= len buf ->
        exists buf', decompress_to_buffer (takez m primary') buf = (buf', Some n) /\
          takez n buf' = takez n primary
    end.
Proof.
  intros Hok Hn. unfold apply_entropy. destruct za; [|by repeat eexists; lia].
  rewrite (slice_ok primary 0 n) by lia. rewrite Z.sub_0_r, dropz_0 by lia.
  unfold compress.
  destruct (compress_to_buffer (takez n primary) _ LEVEL) as [sec r] eqn:Hc.
  pose proof (compress_bounds _ _ _ _ _ Hc) as [Hl Hb].
  destruct r as [m|]; [|by repeat eexists; lia].
  specialize (Hb m eq_refl). assert (len (takez n primary) = n) as Hln by len_lia.
  destruct (Z.ltb_spec m (len (takez n primary))); [|by repeat eexists; lia].
  rewrite slice_ok by lia. rewrite Z.sub_0_r, dropz_0 by lia.
  rewrite copy_range_at by len_lia. do 4 eexists. split; [done|]. split; [lia|].
  split; [done|]. split; [lia|]. intros buf Hbuf. rewrite takez_app by len_lia.
  destruct (zstd_lossless _ _ _ _ m buf Hok Hc) as (buf' & -> & Ht); [lia|].
  exists buf'. by rewrite Hln in Ht |- *.
Qed.

(** Everything a coded payload satisfies. *)
Lemma encode_payload_spec data pt caps primary secondary :
  bytes_ok data -> PayloadType.wf pt -> is_u16 (cap_codecs caps) ->
  exists p' s' r, encode_payload data pt caps primary secondary = Ok (p', s', r) /\
    forall h n, r = Some (h, n) ->
      CodecHeader.wf h /\ Codec.original_len h = len data /\
      CODEC_HEADER_LEN + n < len data /\ MIN_TRANSFORM_SIZE <= len data <= MAX_ORIGINAL_LEN /\
      0 <= n <= len p' /\
      Capabilities.supports_codecs caps (Transform.capability (Codec.transform h)) = true /\
      ~ (Codec.transform h = TransformNone /\ Codec.entropy h = EntropyNone) /\
      exists prim m, transformed data caps prim (Codec.transform h) (Codec.param h) m /\
        match Codec.entropy h with
        | EntropyNone => n = m /\ p' = prim
        | Zstd => feature_compress = true /\ Capabilities.accepts_compression caps = true /\
            forall buf, m <= len buf ->
              exists buf', decompress_to_buffer (takez n p') buf = (buf', Some m) /\
                takez m buf' = takez m prim
        end.
Proof.
  intros Hok Hwf Hc. pose proof (len_nonneg data). unfold encode_payload.
  destruct (Z.ltb_spec MAX_ORIGINAL_LEN (len data)); [do 3 eexists; split; [done|discriminate]|].
  set (za := feature_compress && Capabilities.accepts_compression caps).
  destruct (apply_transform_spec data pt caps za primary) as (prim & chosen & -> & Hch); [done..|].
  destruct chosen as [[[t p] m]|]; [|do 3 eexists; split; [done|discriminate]].
  destruct (Hch t p m eq_refl) as (Ht & Hmin & Hza). pose proof Ht as (Hm & Hm2 & Hp & Hb & Hcap & Hrev).
  destruct (apply_entropy_spec za prim secondary m) as (p' & s' & e & n & He & Hn & Hent); [done..|].
  rewrite He. destruct (Z.leb_spec (len data) (CODEC_HEADER_LEN + n));
    [do 3 eexists; split; [done|discriminate]|].
  do 3 eexists. split; [done|]. intros h k [= <- <-].
  rewrite (Z.mod_small (len data)) by clia.
  cbn [Codec.transform Codec.entropy Codec.param Codec.original_len].
  assert (n <= len p').
  { unfold apply_entropy in He. inv_run He; try lia.
    rename select (copy_range _ _ _ _ = _) into Hcp. rewrite (copy_range_ok_len _ _ _ _ _ Hcp). lia. }
  split; [split; cbn; clia|]. split; [done|]. split; [lia|]. split; [clia|]. split; [lia|].
  split; [done|]. split.
  { intros [-> ->]. destruct Hent as [-> ->].
    destruct (Hrev (zeros (len data))) as (dec & Hr & _); [len_lia|].
    cbn [Transform.reverse] in Hr. case_match eqn:Hl; [done|].
    apply negb_false_iff, Z.eqb_eq in Hl. len_lia. }
  exists prim, m. split; [done|]. destruct e; [by destruct Hent|].
  destruct Hent as (Hz & _ & Hd). by apply andb_prop in Hz as [? ?].
Qed.

Lemma decode_payload_wire h coded scratch out :
  CodecHeader.wf h -> Codec.original_len h <= len out ->
  decode_payload (CodecHeader.wire h ++ coded) scratch out =
  let! (scratch, transformed) :=
    match Codec.entropy h with
    | EntropyNone => (scratch, Ok coded)
    | Zstd =>
        if feature_compress then
          let! (scratch, n) := decompress coded (ensure scratch (Codec.original_len h * 2 + 16)) in
          (scratch, slice scratch 0 n)
        else (scratch, Err Decompress)
    end in
  (scratch, map_err Protocol
     (Transform.reverse (Codec.transform h) transformed (Codec.param h) (Codec.original_len h) out)).
Proof.
  intros Hwf Hl. unfold decode_payload. rewrite codec_decode_wire by done.
  rewrite slice_from_mid by (by autorewrite with len). by rewrite (proj2 (Z.ltb_ge _ _)) by lia.
Qed.

(** Undoing a coding a peer claims, on any output buffer. *)
Definition fills (out : bytes) (r : HostResult (bytes * Z)) : Prop :=
  match r with
  | Ok (out', n) => 0 <= n <= len out /\ len out' = len out
  | Err _ => True
  | Panic => False
  end.

Lemma reverse_fills h t out :
  CodecHeader.wf h -> bytes_ok t -> Codec.original_len h <= len out ->
  fills out (map_err Protocol
    (Transform.reverse (Codec.transform h) t (Codec.param h) (Codec.original_len h) out)).
Proof.
  intros [Hp Ho] Ht Hl.
  pose proof (transform_reverse_safe (Codec.transform h) t (Codec.param h) (Codec.original_len h)
    out Ht ltac:(lia) ltac:(lia)) as Hs.
  destruct (Transform.reverse _ _ _ _ _) as [[o n]|e|]; cbn; [|done|done].
  destruct Hs as [-> ?]. split; [lia|done].
Qed.

Lemma decode_payload_safe data scratch out :
  bytes_ok data -> fills out (snd (decode_payload data scratch out)).
Proof.
  intros Hok. destruct (CodecHeader.decode data) as [h|e|] eqn:Hd.
  2: by unfold decode_payload; rewrite Hd.
  2: by pose proof (codec_decode_no_panic data) as Hp; rewrite Hd in Hp.
  pose proof (codec_decode_inv data h Hok Hd) as [Hh Heq].
  assert (bytes_ok (dropz CODEC_HEADER_LEN data)) as Hcok by auto with fectp.
  destruct (Z.ltb_spec (len out) (Codec.original_len h)) as [|Hlo].
  { unfold decode_payload. rewrite Hd.
    rewrite Heq, slice_from_mid by (by autorewrite with len).
    by rewrite (proj2 (Z.ltb_lt _ _)) by lia. }
  rewrite Heq, decode_payload_wire by done.
  destruct (Codec.entropy h); [by apply reverse_fills|].
  destruct feature_compress; [|done]. unfold decompress.
  destruct (decompress_to_buffer _ _) as [sc [n|]] eqn:Hz; [|done].
  pose proof (decompress_bounds _ _ _ _ Hz) as [Hl Hn]. specialize (Hn n eq_refl).
  rewrite slice_ok by lia. rewrite Z.sub_0_r, dropz_0 by lia. apply reverse_fills; [done| |done].
  by eapply decompress_bytes.
Qed.
Lemma payload_coding_roundtrip data pt caps primary secondary p' s' h n scratch out :
  bytes_ok data -> PayloadType.wf pt -> is_u16 (cap_codecs caps) ->
  encode_payload data pt caps primary secondary = Ok (p', s', Some (h, n)) ->
  len data <= len out ->
  exists scratch' out',
    decode_payload (CodecHeader.wire h ++ takez n p') scratch out = (scratch', Ok (out', len data)) /\
    takez (len data) out' = data.
Proof.
  intros Hok Hwf Hc H Hout.
  destruct (encode_payload_spec data pt caps primary secondary) as (? & ? & ? & He & Hs); [done..|].
  rewrite H in He. simplify_eq. destruct (Hs h n eq_refl)
    as (Hh & Hol & _ & _ & Hn & _ & _ & prim & m & (Hm & Hm2 & _ & _ & _ & Hrev) & Hent).
  rewrite decode_payload_wire, Hol by (done || lia).
  destruct (Hrev out Hout) as (dec & Hr & Hdec).
  destruct (Codec.entropy h); cbn [map_err].
  - destruct Hent as [-> ->]. rewrite Hr. eauto.
  - destruct Hent as (-> & _ & Hd). unfold decompress.
    destruct (Hd (ensure scratch (len data * 2 + 16))) as (buf' & Hbuf & Heq); [len_lia|].
    pose proof (decompress_bounds _ _ _ _ Hbuf) as [Hlb _]. rewrite Hbuf.
    rewrite slice_ok by len_lia. rewrite Z.sub_0_r, dropz_0, Heq, Hr by lia. eauto.
Qed.
End coding_facts.

(** ** Properties *)

(** payload coding is lossless. For any data and any declared shape (the
    right one or not) and any working buffers, when [encode_payload] codes a
    payload, [decode_payload] on the codec header followed by the coded bytes
    succeeds in any output buffer that holds the original and restores it
    byte for byte. *)
Theorem payload_coding_lossless (z : ZstdLib) (laws : ZstdLaws z)
    data pt caps primary secondary p' s' h n scratch out :
  bytes_ok data -> PayloadType.wf pt -> is_u16 (cap_codecs caps) ->
  encode_payload data pt caps primary secondary = Ok (p', s', Some (h, n)) ->
  len data <= len out ->
  exists scratch' out',
    decode_payload (CodecHeader.wire h ++ takez n p') scratch out = (scratch', Ok (out', len data)) /\
    takez (len data) out' = data.
Proof. apply payload_coding_roundtrip. Qed.

Lemma payload_coding_lossless_witness :
  exists p' s' h n, encode_payload (z:=ToyZstd.zstd) (replicate 40 7) (Elements 4)
      {| cap_flags := CAP_ZSTD; max_frame_size := 1200; cap_codecs := CODECS_CORE |} [] []
    = Ok (p', s', Some (h, n)) /\
  exists scratch' out',
    decode_payload (z:=ToyZstd.zstd) (CodecHeader.wire h ++ takez n p') [] (zeros 64)
      = (scratch', Ok (out', len (replicate 40 7))) /\
    takez (len (replicate 40 7)) out' = replicate 40 7.
Proof.
  do 4 eexists. split; [vm_compute; reflexivity|].
  eapply (payload_coding_lossless ToyZstd.zstd ToyZstd.laws (replicate 40 7) (Elements 4)
    {| cap_flags := CAP_ZSTD; max_frame_size := 1200; cap_codecs := CODECS_CORE |} [] []).
  - apply Forall_replicate. lia.
  - by vm_compute.
  - by vm_compute.
  - vm_compute. reflexivity.
  - by vm_compute.
Defined.

(** the coding policy. [encode_payload] never panics; what it codes is
    strictly smaller than the payload with its codec header counted, is a real
    coding (never the identity in both stages), and uses only a transform the
    peer's codec mask advertises and Zstandard only when the peer accepts it.
    [decode_payload] on any bytes a peer chose never panics, and when it
    succeeds it fills no more than the output buffer. *)
Theorem payload_coding_policy (z : ZstdLib) (laws : ZstdLaws z) data pt caps primary secondary :
  bytes_ok data -> PayloadType.wf pt -> is_u16 (cap_codecs caps) ->
  (exists p' s' r, encode_payload data pt caps primary secondary = Ok (p', s', r) /\
     forall h n, r = Some (h, n) ->
       CODEC_HEADER_LEN + n < len data /\ MIN_TRANSFORM_SIZE <= len data <= MAX_ORIGINAL_LEN /\
       Capabilities.supports_codecs caps (Transform.capability (Codec.transform h)) = true /\
       (Codec.entropy h = Zstd -> Capabilities.accepts_compression caps = true) /\
       ~ (Codec.transform h = TransformNone /\ Codec.entropy h = EntropyNone)) /\
  (forall scratch out, match snd (decode_payload data scratch out) with
     | Ok (out', n) => 0 <= n <= len out /\ len out' = len out
     | Err _ => True
     | Panic => False
     end).
Proof.
  intros Hok Hwf Hc. split.
  - destruct (encode_payload_spec data pt caps primary secondary) as (? & ? & ? & He & Hs); [done..|].
    do 3 eexists. split; [exact He|]. intros h n ->.
    destruct (Hs h n eq_refl) as (_ & _ & ? & ? & _ & ? & ? & ? & ? & _ & Hent).
    repeat (split; [done|]). split; [|done]. intros Hz. rewrite Hz in Hent. by destruct Hent as (_ & ? & _).
  - intros scratch out. by apply decode_payload_safe.
Qed.

Lemma payload_coding_policy_witness :
  exists p' s' r, encode_payload (z:=ToyZstd.zstd) (replicate 40 7) (I16 2) (Capabilities.minimal 1200) [] []
      = Ok (p', s', r) /\ is_Some r.
Proof.
  destruct (payload_coding_policy ToyZstd.zstd ToyZstd.laws (replicate 40 7) (I16 2)
    (Capabilities.minimal 1200) [] []) as [(p' & s' & r & H & _) _].
  - apply Forall_replicate. lia.
  - by vm_compute.
  - by vm_compute.
  - exists p', s', r. split; [done|]. vm_compute in H. simplify_eq. done.
Defined.
