(* ===== verification/Reassembly.v ===== *)
(** * Reassembly of fragmented messages (crates/fectp/src/pipeline.rs)

    [Partial] and [Reassembly]: the pieces of up to four messages, placed by
    index into one buffer per message. The theorems show that the pieces of a
    message, in any order, with duplicates and interleaved with the pieces of
    other messages, give back the message exactly when the last missing one
    arrives, and that no sequence of fragments makes the receiver hold more
    than its bounds or panic. *)
From S2P Require Import Prelude Bytes Error Fragment.

Definition MAX_REASSEMBLIES : Z := 4.
#[export] Hint Unfold MAX_REASSEMBLIES : consts.

Record Partial := mkPartial {
  p_message : Z;
  p_count : Z;
  p_stride : option Z;
  p_body : bytes;
  p_tail : bytes;
  p_have : list bool;
  p_received : Z;
}.

Module Partial.
Definition new (message count : Z) : Partial :=
  {| p_message := message; p_count := count; p_stride := None; p_body := []; p_tail := [];
     p_have := replicate (Z.to_nat count) false; p_received := 0 |}.

Definition held (p : Partial) : Z := len (p_body p) + len (p_tail p).

Definition set_tail (p : Partial) (data : bytes) : Partial :=
  {| p_message := p_message p; p_count := p_count p; p_stride := p_stride p; p_body := p_body p;
     p_tail := data; p_have := p_have p; p_received := p_received p |}.

Definition set_stride (p : Partial) (stride : Z) : Partial :=
  {| p_message := p_message p; p_count := p_count p; p_stride := Some stride; p_body := p_body p;
     p_tail := p_tail p; p_have := p_have p; p_received := p_received p |}.

Definition set_body (p : Partial) (body : bytes) : Partial :=
  {| p_message := p_message p; p_count := p_count p; p_stride := p_stride p; p_body := body;
     p_tail := p_tail p; p_have := p_have p; p_received := p_received p |}.

Definition mark (p : Partial) (have : list bool) : Partial :=
  {| p_message := p_message p; p_count := p_count p; p_stride := p_stride p; p_body := p_body p;
     p_tail := p_tail p; p_have := have; p_received := p_received p + 1 |}.

(** The part of [insert] that stores the bytes: the tail, or one stride of the
    body, which is grown to its full length the first time. *)
Definition place (p : Partial) (f : Fragment) (data : bytes) : Partial * HostResult unit :=
  let! (p, last) := (p, Fragment.is_last f) in
  if last : bool then (set_tail p data, Ok tt) else
  let stride := match p_stride p with Some s => s | None => len data end in
  let p := set_stride p stride in
  if negb (len data =? stride) then (p, Err (Protocol BadHeader)) else
  if p_count p =? 0 then (p, Panic) else
  match checked_mul stride (p_count p - 1) with
  | None => (p, Err (Protocol PayloadTooLarge))
  | Some last_at =>
      if MAX_MESSAGE_LEN <? last_at then (p, Err (Protocol PayloadTooLarge)) else
      let p := if len (p_body p) <? last_at then set_body p (grow (p_body p) last_at) else p in
      let! (p, body) :=
        (p, copy_range (p_body p) (frag_index f * stride) ((frag_index f + 1) * stride) data) in
      (set_body p body, Ok tt)
  end.

Definition insert (p : Partial) (f : Fragment) (data : bytes)
  : Partial * HostResult (option bytes) :=
  let! (p, got) := (p, index (p_have p) (frag_index f)) in
  if got : bool then (p, Ok None) else
  let! (p, _) := place p f data in
  let! (p, have) := (p, set_index (p_have p) (frag_index f) true) in
  let p := mark p have in
  if negb (p_received p =? p_count p) then (p, Ok None) else
  (set_body p [], Ok (Some (p_body p ++ p_tail p))).
End Partial.

(** The partial messages, oldest first. *)
Abbreviation Reassembly := (list Partial).

Module Reassembly.
Definition new : Reassembly := [].

Definition accept (r : Reassembly) (f : Fragment) (data : bytes)
  : Reassembly * HostResult (option bytes) :=
  if MAX_FRAGMENTS <? count f then (r, Err (Protocol BadHeader)) else
  let! (r, slot) :=
    match list_find (fun p => p_message p = message f) r with
    | Some (slot, p) =>
        if negb (p_count p =? count f) then (delete slot r, Err (Protocol BadHeader))
        else (r, Ok slot)
    | None =>
        let r := if MAX_REASSEMBLIES <=? len r then delete 0%nat r else r in
        (r ++ [Partial.new (message f) (count f)], Ok (length r))
    end in
  match r !! slot with
  | None => (r, Panic)
  | Some p =>
      let (p, res) := Partial.insert p f data in
      let r := <[slot := p]> r in
      match res with
      | Ok (Some whole) => (delete slot r, Ok (Some whole))
      | Ok None =>
          if MAX_MESSAGE_LEN <? Partial.held p
          then (delete slot r, Err (Protocol PayloadTooLarge)) else (r, Ok None)
      | Err e => (delete slot r, Err e)
      | Panic => (r, Panic)
      end
  end.

Definition in_progress (r : Reassembly) : Z := len r.

(** A sequence of fragments, and what each was answered with. *)
Fixpoint accept_all (r : Reassembly) (evs : list (Fragment * bytes))
  : Reassembly * list (HostResult (option bytes)) :=
  match evs with
  | [] => (r, [])
  | (f, data) :: evs =>
      let (r, res) := accept r f data in
      let (r, rest) := accept_all r evs in (r, res :: rest)
  end.
End Reassembly.

(** ** Specification

    How a message is cut: equal pieces, the last one whatever is left. *)
Definition piece_of (data : bytes) (per n i : Z) : bytes :=
  if i + 1 =? n then dropz (i * per) data else chunk per (i * per) data.

Definition cut (data : bytes) (per n m i : Z) : Fragment * bytes :=
  ({| message := m; frag_index := i; count := n |}, piece_of data per n i).

(** The indices of message [m] among the arrivals. *)
Definition arrived (m : Z) (evs : list (Fragment * bytes)) : list Z :=
  map (fun e => frag_index (fst e)) (filter (fun e => message (fst e) = m) evs).

(** ** Lemmas *)
Fixpoint count_true (l : list bool) : Z :=
  match l with [] => 0 | b :: l => (if b then 1 else 0) + count_true l end.

Lemma count_true_app a b : count_true (a ++ b) = count_true a + count_true b.
Proof. induction a as [|[] a IH]; simpl; lia. Qed.

Lemma count_true_le l : 0 <= count_true l <= len l.
Proof. induction l as [|[] l IH]; simpl; len_lia. Qed.

Lemma count_true_full l : count_true l = len l <-> Forall (fun b => b = true) l.
Proof.
  induction l as [|b l IH]; [done|]. rewrite Forall_cons_iff, <- IH. simpl.
  rewrite len_cons. pose proof (count_true_le l). destruct b; intuition (discriminate || lia).
Qed.

Lemma count_true_replicate n : count_true (replicate n false) = 0.
Proof. induction n; simpl; lia. Qed.

Lemma set_index_ok {E A} (l : list A) i v :
  0 <= i < len l ->
  exists a x b, l = a ++ x :: b /\ len a = i /\ index (E:=E) l i = Ok x /\
    set_index (E:=E) l i v = Ok (a ++ v :: b).
Proof.
  intros Hi. destruct (split_at i l) as (a & b & -> & Ha); [lia|].
  destruct b as [|x b]; [len_lia|]. exists a, x, b. split; [done|]. split; [done|].
  split; [by apply index_mid|]. by apply (copy_range_mid a [x] b [v]); len_lia.
Qed.

Lemma set_index_get {E A} (l l' : list A) i v k :
  0 <= k -> set_index (E:=E) l i v = Ok l' ->
  index (E:=E) l' k = if k =? i then Ok v else index (E:=E) l k.
Proof.
  intros Hk H. assert (0 <= i < len l) as Hi.
  { unfold set_index, copy_range in H. inv_run H. lia. }
  destruct (set_index_ok (E:=E) l i v Hi) as (a & x & b & -> & Ha & _ & Hs).
  rewrite Hs in H. simplify_eq. destruct (Z.eqb_spec k (len a)) as [->|Hne]; [by apply index_mid|].
  unfold index. rewrite (proj2 (Z.ltb_ge _ _)) by done.
  pose proof (to_nat_len a). destruct (decide (Z.to_nat k < length a)%nat).
  - by rewrite !lookup_app_l by done.
  - rewrite !lookup_app_r by lia. destruct (Z.to_nat k - length a)%nat eqn:Hd; [|done].
    pose proof (len_nonneg a). lia.
Qed.

Lemma all_marked l :
  count_true l = len l <-> forall k, 0 <= k < len l -> index (E:=HostError) l k = Ok true.
Proof.
  rewrite count_true_full, Forall_lookup. split.
  - intros H k Hk. destruct (set_index_ok (E:=HostError) l k true Hk) as (a & x & b & -> & Ha & -> & _).
    f_equal. apply (H (length a)). by apply list_lookup_middle.
  - intros H i x Hx. pose proof (lookup_lt_Some _ _ _ Hx). pose proof (to_nat_len l).
    specialize (H (Z.of_nat i)). unfold index in H.
    rewrite (proj2 (Z.ltb_ge _ _)), Nat2Z.id, Hx in H by lia. specialize (H ltac:(lia)). by simplify_eq.
Qed.

(** What every partial message the receiver holds satisfies. *)
Definition body_ok (p : Partial) : Prop :=
  match p_stride p with
  | None => p_body p = []
  | Some s => 0 <= s /\ len (p_body p) = s * (p_count p - 1) /\ len (p_body p) <= MAX_MESSAGE_LEN
  end.

Definition partial_wf (p : Partial) : Prop :=
  1 <= p_count p <= MAX_FRAGMENTS /\ len (p_have p) = p_count p /\
  p_received p = count_true (p_have p) /\ body_ok p.

Definition same_marks (p p' : Partial) : Prop :=
  p_message p' = p_message p /\ p_count p' = p_count p /\
  p_have p' = p_have p /\ p_received p' = p_received p.

Lemma place_last p f data :
  frag_index f + 1 = count f -> frag_index f <> U16_MAX ->
  Partial.place p f data = (Partial.set_tail p data, Ok tt).
Proof.
  intros Hl Hm. unfold Partial.place, Fragment.is_last.
  by rewrite (proj2 (Z.eqb_neq _ _)), (proj2 (Z.eqb_eq _ _)) by done.
Qed.

(** Storing a piece that is not the last: the stride is fixed by the first
    such piece, and the body then has its full length. *)
Lemma place_body p f data :
  Fragment.coherent f -> count f = p_count p -> frag_index f + 1 <> count f -> body_ok p ->
  let s := match p_stride p with Some s => s | None => len data end in
  exists p' r, Partial.place p f data = (p', r) /\ same_marks p p' /\ p_tail p' = p_tail p /\
    match r with
    | Ok _ => s = len data /\ s * (p_count p - 1) <= MAX_MESSAGE_LEN /\ p_stride p' = Some s /\
        copy_range (E:=HostError)
          (match p_stride p with Some _ => p_body p | None => zeros (s * (p_count p - 1)) end)
          (frag_index f * s) ((frag_index f + 1) * s) data = Ok (p_body p')
    | Err _ => s <> len data \/ MAX_MESSAGE_LEN < s * (p_count p - 1)
    | Panic => False
    end.
Proof.
  intros (_ & Hi & Hc) Hcnt Hnl Hb s. unfold Partial.place, Fragment.is_last.
  rewrite (proj2 (Z.eqb_neq _ U16_MAX)), (proj2 (Z.eqb_neq _ (count f))) by clia.
  fold s. pose proof (len_nonneg data).
  assert (0 <= s) as Hs by (unfold body_ok in Hb; unfold s; destruct (p_stride p); lia).
  destruct (Z.eqb_spec (len data) s) as [Hd|Hd]; cbn [negb].
  2: { do 2 eexists. split; [done|]. split; [done|]. split; [done|]. by left. }
  cbn [Partial.set_stride p_count p_body].
  rewrite (proj2 (Z.eqb_neq _ _)) by lia.
  unfold checked_mul. destruct (Z.leb_spec (s * (p_count p - 1)) USIZE_MAX).
  2: { do 2 eexists. split; [done|]. split; [done|]. split; [done|]. right. clia. }
  destruct (Z.ltb_spec MAX_MESSAGE_LEN (s * (p_count p - 1))) as [|Hmax].
  { do 2 eexists. split; [done|]. split; [done|]. split; [done|]. by right. }
  assert (0 <= s * (p_count p - 1)) as Hnn by nia.
  set (body := match p_stride p with Some _ => p_body p | None => zeros (s * (p_count p - 1)) end).
  assert (len body = s * (p_count p - 1)) as Hlb.
  { unfold body, body_ok in *. destruct (p_stride p) eqn:He; [unfold s; lia|]. len_lia. }
  destruct (copy_range (E:=HostError) body (frag_index f * s) ((frag_index f + 1) * s) data)
    as [body'|e|] eqn:Hcp.
  2-3: unfold copy_range in Hcp; rewrite !(proj2 (Z.leb_le _ _)), (proj2 (Z.eqb_eq _ _)) in Hcp by nia; done.
  assert (p_body (if len (p_body p) <? s * (p_count p - 1)
      then Partial.set_body (Partial.set_stride p s) (grow (p_body p) (s * (p_count p - 1)))
      else Partial.set_stride p s) = body) as Hbody.
  { unfold body, body_ok in *. destruct (p_stride p) as [s'|] eqn:He.
    - rewrite (proj2 (Z.ltb_ge _ _)) by (unfold s; lia). done.
    - rewrite Hb. zcase; cbn; [|by replace (s * (p_count p - 1)) with 0 by len_lia].
      unfold grow. simpl app. f_equal. len_lia. }
  rewrite Hbody, Hcp. do 2 eexists. split; [done|].
  split; [by case_match|]. split; [by case_match|]. split; [done|]. split; [lia|].
  split; [by case_match|done].
Qed.

(** [place] on any piece of the message: never a panic, and what it stores
    keeps the body's shape. *)
Lemma place_safe p f data :
  Fragment.coherent f -> count f = p_count p -> body_ok p ->
  exists p' r, Partial.place p f data = (p', r) /\ same_marks p p' /\
    match r with Ok _ => body_ok p' | Err _ => True | Panic => False end.
Proof.
  intros Hf Hcnt Hb. destruct (decide (frag_index f + 1 = count f)) as [Hl|Hl].
  - rewrite place_last by (destruct Hf as (_ & ? & ?); clia). by do 2 eexists.
  - destruct (place_body p f data Hf Hcnt Hl Hb) as (p' & r & -> & Hm & _ & Hr).
    do 2 eexists. split; [done|]. split; [done|]. destruct r; [|done|done].
    destruct Hr as (Hs & Hmax & Hst & Hcp). apply copy_range_ok_len in Hcp.
    destruct Hm as (_ & Hc & _). unfold body_ok in *. rewrite Hst, Hc, Hcp.
    pose proof (len_nonneg data). destruct Hf as (_ & ? & _).
    destruct (p_stride p); [done|]. split; [lia|]. rewrite len_zeros. nia.
Qed.

(** [insert] of a piece not yet held, once its bytes are stored. *)
Lemma insert_new p f data p' :
  Fragment.coherent f -> count f = p_count p -> len (p_have p) = p_count p ->
  index (E:=HostError) (p_have p) (frag_index f) = Ok false ->
  Partial.place p f data = (p', Ok tt) -> same_marks p p' ->
  exists have, set_index (E:=HostError) (p_have p) (frag_index f) true = Ok have /\
    len have = p_count p /\ count_true have = count_true (p_have p) + 1 /\
    Partial.insert p f data =
      let q := Partial.mark p' have in
      if negb (p_received p + 1 =? p_count p) then (q, Ok None)
      else (Partial.set_body q [], Ok (Some (p_body p' ++ p_tail p'))).
Proof.
  intros (_ & Hi & _) Hcnt Hlen Hget Hpl (Hm & Hc & Hh & Hr).
  destruct (set_index_ok (E:=HostError) (p_have p) (frag_index f) true)
    as (a & x & b & Heq & Ha & Hx & Hset); [lia|].
  exists (a ++ true :: b). split; [done|].
  rewrite Hget in Hx. simplify_eq. split; [rewrite Heq in Hlen; len_lia|].
  split; [rewrite Heq, !count_true_app; simpl; lia|].
  unfold Partial.insert. rewrite Hget, Hpl, Hh, Hset.
  cbn [Partial.mark p_received p_count p_body p_tail]. by rewrite Hr, Hc.
Qed.

Lemma insert_safe p f data :
  partial_wf p -> Fragment.coherent f -> count f = p_count p ->
  exists p' r, Partial.insert p f data = (p', r) /\ p_message p' = p_message p /\
    match r with Ok None => partial_wf p' | Panic => False | _ => True end.
Proof.
  intros (Hc & Hlen & Hrec & Hb) Hf Hcnt. pose proof Hf as (_ & Hi & _).
  destruct (index_ok (E:=HostError) (p_have p) (frag_index f)) as (got & Hget & _); [lia|].
  destruct got; [unfold Partial.insert; rewrite Hget; by do 2 eexists|].
  destruct (place_safe p f data Hf Hcnt Hb) as (p' & r & Hpl & Hm & Hr).
  destruct r as [[]|e|]; [|unfold Partial.insert; rewrite Hget, Hpl; do 2 eexists;
    split; [done|]; split; [apply Hm|done]|done].
  destruct (insert_new p f data p') as (have & _ & Hl & Hct & ->); [done..|].
  destruct Hm as (Hm & Hc' & _ & Hr'). case_match; do 2 eexists; (split; [done|]); split; try done.
  repeat split; cbn [Partial.mark p_count p_have p_received]; try lia.
  exact Hr.
Qed.

(** ** Pieces of one message *)
Section good.
Context (data : bytes) (per n m : Z).
Context (Hper : 0 < per) (Hn : 1 <= n <= MAX_FRAGMENTS) (Hm : is_u32 m).
Context (Hmax : len data <= MAX_MESSAGE_LEN) (Hcut : n = 1 \/ (n - 1) * per < len data).

(** [p] holds the bytes of the pieces whose indices are in [S]. *)
Definition stored (p : Partial) (S : list Z) : Prop :=
  p_count p = n /\ body_ok p /\
  (forall s, p_stride p = Some s -> s = per) /\
  (forall i, 0 <= i < n - 1 -> i ∈ S -> p_stride p = Some per /\
     chunk per (i * per) (p_body p) = chunk per (i * per) data) /\
  p_tail p = (if bool_decide (n - 1 ∈ S) then dropz ((n - 1) * per) data else []).

(** ... and has marked exactly those. *)
Definition holds (p : Partial) (S : list Z) : Prop :=
  partial_wf p /\ stored p S /\
  (forall i, 0 <= i < n -> index (E:=HostError) (p_have p) i = Ok (bool_decide (i ∈ S))).

Lemma cut_coherent i : 0 <= i < n -> Fragment.coherent (fst (cut data per n m i)).
Proof. intros. repeat split; simpl; lia. Qed.

Lemma piece_len_full i : 0 <= i < n - 1 -> len (piece_of data per n i) = per.
Proof.
  intros. unfold piece_of. rewrite (proj2 (Z.eqb_neq _ _)) by lia. unfold chunk.
  rewrite len_takez, len_dropz. nia.
Qed.

Lemma holds_new : holds (Partial.new m n) [].
Proof.
  split; [|split].
  - repeat split; simpl; rewrite ?len_replicate, ?count_true_replicate; lia.
  - do 3 (split; [done|]). split; [by intros ? _ ?%not_elem_of_nil|done].
  - intros i Hi. simpl p_have.
    destruct (index_ok (E:=HostError) (replicate (Z.to_nat n) false) i) as (x & -> & Hx);
      [rewrite len_replicate; lia|].
    apply elem_of_replicate_inv in Hx. by subst.
Qed.

Lemma place_good p S i :
  stored p S -> 0 <= i < n -> i ∉ S ->
  exists p', Partial.place p (fst (cut data per n m i)) (snd (cut data per n m i)) = (p', Ok tt) /\
    same_marks p p' /\ stored p' (i :: S).
Proof.
  intros (Hc & Hb & Hs & Hbody & Ht) Hi Hni. cbn [cut fst snd].
  destruct (decide (i = n - 1)) as [->|Hl].
  - rewrite place_last by (cbn; clia). eexists. split; [done|]. split; [done|].
    do 3 (split; [done|]). split.
    + intros j Hj [->|Hjs]%elem_of_cons; [lia|]. by apply Hbody.
    + cbn. rewrite bool_decide_eq_true_2 by (by left). unfold piece_of.
      by rewrite (proj2 (Z.eqb_eq _ _)) by lia.
  - pose proof (piece_len_full i ltac:(lia)) as Hpl.
    destruct (place_body p (mkFragment m i n) (piece_of data per n i)) as (p' & r & -> & Hmk & Htl & Hr);
      [by apply cut_coherent|done|cbn; lia|done|].
    assert (match p_stride p with Some s => s | None => len (piece_of data per n i) end = per) as Hst.
    { destruct (p_stride p) eqn:He; [by apply Hs|done]. }
    rewrite Hst, Hc in Hr. assert (per * (n - 1) <= MAX_MESSAGE_LEN) by lia.
    destruct r as [[]|e|]; [|lia|done]. destruct Hr as (_ & _ & Hst' & Hcp).
    pose proof (copy_range_ok_len _ _ _ _ _ Hcp) as Hlen. cbn [frag_index] in Hcp.
    destruct Hmk as (Hmk1 & Hmk2 & Hmk3).
    exists p'. split; [done|]. split; [done|]. split; [lia|]. split; [|split; [|split]].
    + unfold body_ok. rewrite Hst', Hmk2, Hlen, Hc. unfold body_ok in Hb.
      destruct (p_stride p) as [s0|] eqn:He; [|rewrite len_zeros; nia].
      rewrite (Hs s0 eq_refl), Hc in Hb. lia.
    + intros s. rewrite Hst'. by intros [= <-].
    + intros j Hj Hjs. split; [done|]. apply elem_of_cons in Hjs as [->|Hjs].
      * pose proof (chunk_copy_same _ _ _ _ _ Hcp) as Hsame.
        replace ((i + 1) * per - i * per) with per in Hsame by lia. rewrite Hsame.
        unfold piece_of. by rewrite (proj2 (Z.eqb_neq _ _)) by lia.
      * destruct (Hbody j Hj Hjs) as [He Hch].
        assert (i <> j) by congruence.
        rewrite (chunk_copy_other _ _ _ _ _ per (j * per) Hcp) by nia. by rewrite He.
    + rewrite Htl, Ht. apply (f_equal (fun b : bool => if b then _ else _)).
      apply bool_decide_ext. rewrite elem_of_cons. intuition congruence.
Qed.

Lemma stored_all p S :
  stored p S -> (forall j, 0 <= j < n -> j ∈ S) -> p_body p ++ p_tail p = data.
Proof.
  intros (Hc & Hb & _ & Hbody & ->) Hall. rewrite bool_decide_eq_true_2 by (apply Hall; lia).
  rewrite <- (takez_dropz ((n - 1) * per) data) at 2. f_equal.
  assert (len (p_body p) <= (n - 1) * per) as Hl.
  { unfold body_ok in Hb. destruct (p_stride p) as [s0|] eqn:He; [|rewrite Hb, len_nil; nia].
    destruct (decide (n = 1)) as [->|]; [nia|].
    destruct (Hbody 0 ltac:(lia) ltac:(apply Hall; lia)) as [[= ->] _]. nia. }
  rewrite <- (takez_all (p_body p) ((n - 1) * per)) by done.
  apply chunks_eq; [lia|lia|]. intros i Hi. apply Hbody; [done|]. apply Hall. lia.
Qed.

(** Inserting a piece of the message. *)
Lemma insert_good p S i :
  holds p S -> 0 <= i < n ->
  exists p' r, Partial.insert p (fst (cut data per n m i)) (snd (cut data per n m i)) = (p', Ok r) /\
    p_message p' = p_message p /\
    ((forall j, 0 <= j < n -> j ∈ i :: S) -> i ∉ S -> r = Some data) /\
    (forall j, 0 <= j < n -> j ∉ i :: S -> r = None /\ holds p' (i :: S)).
Proof.
  intros (Hwf & Hst & Hhave) Hi. pose proof Hst as (Hc & _). pose proof (Hhave i Hi) as Hget.
  destruct (decide (i ∈ S)) as [His|His].
  - rewrite bool_decide_eq_true_2 in Hget by done. exists p, None.
    split; [unfold Partial.insert; cbn; by rewrite Hget|]. split; [done|]. split; [done|].
    intros j Hj Hjs. split; [done|]. split; [done|].
    assert (forall k, k ∈ i :: S <-> k ∈ S) as Heq by (intros; rewrite elem_of_cons; intuition congruence).
    split.
    + destruct Hst as (? & ? & ? & Hb & Ht). do 3 (split; [done|]). split.
      * intros k Hk Hks. apply Hb; [done|]. by apply Heq.
      * rewrite Ht. by rewrite (bool_decide_ext _ _ (Heq (n - 1))).
    + intros k Hk. rewrite (Hhave k Hk). by rewrite (bool_decide_ext _ _ (Heq k)).
  - rewrite bool_decide_eq_false_2 in Hget by done.
    destruct (place_good p S i Hst Hi His) as (p' & Hpl & Hmk & Hst').
    destruct Hwf as (Hcnt & Hlen & Hrec & Hb).
    destruct (insert_new p (fst (cut data per n m i)) (snd (cut data per n m i)) p')
      as (have & Hset & Hlh & Hct & ->); [by apply cut_coherent|done..|].
    pose proof Hmk as (Hmsg & Hc' & _ & _).
    assert (forall k, 0 <= k < n -> index (E:=HostError) have k = Ok (bool_decide (k ∈ i :: S))) as Hidx.
    { intros k Hk. rewrite (set_index_get (p_have p) have i true k) by (done || lia).
      destruct (Z.eqb_spec k i) as [->|Hne].
      - by rewrite bool_decide_eq_true_2 by (by left).
      - rewrite (Hhave k Hk). f_equal. apply bool_decide_ext. rewrite elem_of_cons. intuition congruence. }
    assert (p_received p + 1 = n <-> forall j, 0 <= j < n -> j ∈ i :: S) as Hfull.
    { rewrite Hrec, <- Hct. replace n with (len have) at 1 by lia. rewrite all_marked, Hlh, Hc.
      split; intros H j Hj; specialize (H j Hj).
      - rewrite Hidx in H by done. by case_bool_decide.
      - rewrite Hidx by done. by rewrite bool_decide_eq_true_2. }
    cbn [Partial.mark p_body p_tail]. rewrite Hc.
    destruct (Z.eqb_spec (p_received p + 1) n) as [He|He]; cbn [negb].
    + do 2 eexists. split; [done|]. split; [done|]. split.
      * intros Hall _. f_equal. by apply (stored_all p' (i :: S)).
      * intros j Hj Hjs. exfalso. apply Hjs. by apply Hfull.
    + do 2 eexists. split; [done|]. split; [done|]. split.
      * intros Hall _. exfalso. tauto.
      * intros _ _ _. split; [done|]. split; [|split; [done|done]].
        destruct Hmk as (_ & _ & _ & Hr). repeat split; cbn; try lia. apply Hst'.
Qed.
Lemma stored_held p S : stored p S -> Partial.held p <= MAX_MESSAGE_LEN.
Proof.
  intros (Hc & Hb & Hs & _ & Ht). unfold Partial.held.
  assert (len (p_body p) <= (n - 1) * per) as Hl.
  { unfold body_ok in Hb. destruct (p_stride p) as [s0|] eqn:He; [|rewrite Hb, len_nil; nia].
    rewrite (Hs s0 eq_refl), Hc in Hb. lia. }
  pose proof (len_nonneg data). assert (0 <= (n - 1) * per) by nia.
  rewrite Ht. case_bool_decide; rewrite ?len_dropz, ?len_nil; destruct Hcut as [->|]; lia.
Qed.
End good.

(** ** One step of the reassembler *)
Definition ids (r : Reassembly) : list Z := map p_message r.

(** What [accept] does with the partial it found or made, [p], the others
    being [l1] and [l2]. *)
Definition finish (l1 : Reassembly) (p : Partial) (l2 : Reassembly) (f : Fragment) (data : bytes)
  : Reassembly * HostResult (option bytes) :=
  let (p, res) := Partial.insert p f data in
  match res with
  | Ok (Some whole) => (l1 ++ l2, Ok (Some whole))
  | Ok None =>
      if MAX_MESSAGE_LEN <? Partial.held p then (l1 ++ l2, Err (Protocol PayloadTooLarge))
      else (l1 ++ p :: l2, Ok None)
  | Err e => (l1 ++ l2, Err e)
  | Panic => (l1 ++ p :: l2, Panic)
  end.

(** The others stay, and at most the updated partial joins them. *)
Lemma finish_elems l1 p l2 f data q :
  (q ∈ l1 ++ l2 -> q ∈ fst (finish l1 p l2 f data)) /\
  (q ∈ fst (finish l1 p l2 f data) -> q ∈ l1 ++ l2 \/ q = fst (Partial.insert p f data)).
Proof.
  unfold finish. destruct (Partial.insert p f data) as [p' res].
  repeat case_match; cbn [fst]; rewrite ?elem_of_app, ?elem_of_cons; tauto.
Qed.

Lemma not_elem_of_ids x r : x ∉ ids r <-> forall p, p ∈ r -> p_message p <> x.
Proof.
  unfold ids. rewrite list_elem_of_fmap. split.
  - intros H p Hp <-. apply H. eauto.
  - intros H (p & -> & Hp). by apply (H p).
Qed.

Lemma finish_slot l1 p l2 f data :
  (let (p', res) := Partial.insert p f data in
   let r := <[length l1 := p']> (l1 ++ p :: l2) in
   match res with
   | Ok (Some whole) => (delete (length l1) r, Ok (Some whole))
   | Ok None =>
       if MAX_MESSAGE_LEN <? Partial.held p'
       then (delete (length l1) r, Err (Protocol PayloadTooLarge)) else (r, Ok None)
   | Err e => (delete (length l1) r, Err e)
   | Panic => (r, Panic)
   end) = finish l1 p l2 f data.
Proof.
  unfold finish. destruct (Partial.insert p f data) as [p' res]. cbn zeta.
  rewrite <- (Nat.add_0_r (length l1)), insert_app_r, Nat.add_0_r. simpl.
  by rewrite delete_middle.
Qed.

Lemma accept_cases r f data :
  Fragment.coherent f ->
  (exists l1 p l2, r = l1 ++ p :: l2 /\ p_message p = message f /\
     Reassembly.accept r f data =
       if negb (p_count p =? count f) then (l1 ++ l2, Err (Protocol BadHeader))
       else finish l1 p l2 f data) \/
  (message f ∉ ids r /\
   Reassembly.accept r f data =
     finish (if MAX_REASSEMBLIES <=? len r then delete 0%nat r else r)
       (Partial.new (message f) (count f)) [] f data).
Proof.
  intros (_ & _ & Hc). unfold Reassembly.accept. rewrite (proj2 (Z.ltb_ge _ _)) by done.
  destruct (list_find _ r) as [[slot p]|] eqn:Hf.
  - left. apply list_find_Some in Hf as (Hl & Hp & _).
    exists (take slot r), p, (drop (S slot) r).
    pose proof (lookup_lt_Some _ _ _ Hl).
    assert (length (take slot r) = slot) as Hts by (rewrite length_take; lia).
    split; [symmetry; by apply take_drop_middle|]. split; [done|].
    destruct (negb (p_count p =? count f)); [by rewrite delete_take_drop|].
    rewrite Hl, <- finish_slot, Hts. by rewrite take_drop_middle.
  - right. apply list_find_None in Hf. split; [by apply not_elem_of_ids, list.Forall_forall|].
    set (r0 := if MAX_REASSEMBLIES <=? len r then delete 0%nat r else r).
    rewrite list_lookup_middle by done. by rewrite <- finish_slot.
Qed.

(** The receiver's bounds: at most four messages, each under one identifier
    and within the size limit. *)
Definition reassembly_wf (r : Reassembly) : Prop :=
  NoDup (ids r) /\ len r <= MAX_REASSEMBLIES /\
  Forall (fun p => partial_wf p /\ Partial.held p <= MAX_MESSAGE_LEN) r.

Lemma ids_app a b : ids (a ++ b) = ids a ++ ids b.
Proof. apply map_app. Qed.

Lemma partial_new_wf m c : 1 <= c <= MAX_FRAGMENTS -> partial_wf (Partial.new m c).
Proof.
  intros. repeat split; simpl; rewrite ?len_replicate, ?count_true_replicate; lia.
Qed.

(** The list around the partial a fragment goes to. *)
Definition room (m : Z) (l1 l2 : Reassembly) : Prop :=
  reassembly_wf (l1 ++ l2) /\ len (l1 ++ l2) < MAX_REASSEMBLIES /\ m ∉ ids (l1 ++ l2).

Lemma room_found l1 p l2 :
  reassembly_wf (l1 ++ p :: l2) -> room (p_message p) l1 l2.
Proof.
  intros (Hnd & Hl & Hf). unfold room, reassembly_wf.
  rewrite ids_app in *. simpl in Hnd. apply list.NoDup_app in Hnd as (H1 & H2 & H3).
  apply list.NoDup_cons in H3 as [H3 H4].
  apply Forall_app in Hf as [Hf1 Hf2%Forall_cons_1]. split; [split; [|split]|split].
  - apply list.NoDup_app. split; [done|]. split; [|done]. intros x Hx Hx'. apply (H2 x Hx). by right.
  - len_lia.
  - apply Forall_app. tauto.
  - len_lia.
  - rewrite elem_of_app. intros [Hx|Hx]; [|done]. apply (H2 _ Hx). by left.
Qed.

Lemma room_new m r :
  reassembly_wf r -> m ∉ ids r ->
  room m (if MAX_REASSEMBLIES <=? len r then delete 0%nat r else r) [].
Proof.
  intros (Hnd & Hl & Hf) Hm. unfold room. rewrite app_nil_r. zcase; [|done].
  destruct r as [|p r]; [by rewrite len_nil in *; autounfold with consts in *|].
  simpl. simpl in Hnd, Hm. apply list.NoDup_cons in Hnd as [? ?]. apply Forall_cons_1 in Hf as [_ ?].
  rewrite len_cons in Hl. repeat split; try done; try clia. by intros ?; apply Hm; right.
Qed.

Lemma finish_wf l1 p l2 f data :
  room (message f) l1 l2 -> partial_wf p -> p_message p = message f ->
  Fragment.coherent f -> count f = p_count p ->
  reassembly_wf (fst (finish l1 p l2 f data)) /\ is_panic (snd (finish l1 p l2 f data)) = false.
Proof.
  intros (Hr & Hl & Hni) Hwf Hm Hf Hc. unfold finish.
  destruct (insert_safe p f data Hwf Hf Hc) as (p' & r & -> & Hm' & Hres).
  destruct r as [[whole|]|e|]; [done| |done|done].
  destruct (Z.ltb_spec MAX_MESSAGE_LEN (Partial.held p')); [done|]. split; [|done]. cbn [fst].
  destruct Hr as (Hnd & _ & Hall). rewrite ids_app in Hnd, Hni.
  apply not_elem_of_app in Hni as [Hn1 Hn2]. apply list.NoDup_app in Hnd as (H1 & H2 & H3).
  apply Forall_app in Hall as [Ha1 Ha2]. split; [|split].
  - rewrite ids_app. simpl. rewrite Hm', Hm. apply list.NoDup_app. split; [done|]. split.
    + intros x Hx [->|Hx']%elem_of_cons; [done|]. by apply (H2 x).
    + by apply list.NoDup_cons.
  - len_lia.
  - apply Forall_app. split; [done|]. by apply Forall_cons.
Qed.

(** Any fragment at all keeps the bounds. *)
Lemma accept_wf r f data :
  reassembly_wf r -> Fragment.coherent f ->
  reassembly_wf (fst (Reassembly.accept r f data)) /\
  is_panic (snd (Reassembly.accept r f data)) = false.
Proof.
  intros Hr Hf. destruct (accept_cases r f data Hf) as [(l1 & p & l2 & -> & Hm & ->)|[Hni ->]].
  - pose proof (room_found _ _ _ Hr) as Hroom. rewrite Hm in Hroom.
    case_match eqn:Hc; [by destruct Hroom|]. apply negb_false_iff, Z.eqb_eq in Hc.
    destruct Hr as (_ & _ & Hall). apply Forall_app in Hall as [_ [Hp _]%Forall_cons_1].
    apply finish_wf; tauto || done.
  - destruct Hf as (? & ? & ?) eqn:E. apply finish_wf; [by apply room_new| |done|done|done].
    apply partial_new_wf. lia.
Qed.

Lemma accept_all_wf r evs :
  reassembly_wf r -> Forall (fun e => Fragment.coherent (fst e)) evs ->
  let (r', outs) := Reassembly.accept_all r evs in
  reassembly_wf r' /\ Forall (fun o => is_panic o = false) outs.
Proof.
  revert r. induction evs as [|[f data] evs IH]; intros r Hr Hevs; simpl; [done|].
  apply Forall_cons_1 in Hevs as [Hf Hevs].
  destruct (accept_wf r f data Hr Hf) as [Hr' Hp].
  destruct (Reassembly.accept r f data) as [r' res]. specialize (IH r' Hr' Hevs).
  destruct (Reassembly.accept_all r' evs). destruct IH. split; [done|]. by apply Forall_cons.
Qed.

Lemma reassembly_new_wf : reassembly_wf Reassembly.new.
Proof. split; [constructor|]. split; [vm_compute; congruence|constructor]. Qed.

(** ** One message among others *)
Section among.
Context (data : bytes) (per n m : Z) (others : list Z).
Context (Hper : 0 < per) (Hn : 1 <= n <= MAX_FRAGMENTS) (Hm : is_u32 m).
Context (Hmax : len data <= MAX_MESSAGE_LEN) (Hcut : n = 1 \/ (n - 1) * per < len data).
Context (Hothers : len others < MAX_REASSEMBLIES).

(** Every partial is one of the messages in play, and that of message [m]
    holds exactly the pieces [S]. *)
Definition tracks (r : Reassembly) (S : list Z) : Prop :=
  reassembly_wf r /\ (forall p, p ∈ r -> p_message p ∈ m :: others) /\
  (forall p, p ∈ r -> p_message p = m -> holds data per n p S) /\
  (m ∉ ids r -> S = []).

(** A fragment of a message in play never evicts another. *)
Lemma no_eviction r S x :
  tracks r S -> x ∈ m :: others -> x ∉ ids r -> len r < MAX_REASSEMBLIES.
Proof.
  intros ((Hnd & _) & Hids & _) Hx Hni.
  assert (x :: ids r ⊆+ m :: others) as Hsub.
  { apply NoDup_submseteq; [by apply list.NoDup_cons|]. intros y [->|Hy]%elem_of_cons; [done|].
    apply list_elem_of_fmap in Hy as (p & -> & Hp). by apply Hids. }
  apply submseteq_length in Hsub. simpl in Hsub. unfold ids in Hsub. rewrite length_map in Hsub.
  pose proof (to_nat_len r). pose proof (to_nat_len others). pose proof (len_nonneg r). pose proof (len_nonneg others). lia.
Qed.

(** The step of a fragment of [x]: the partial it goes to and the rest. *)
Lemma accept_slot r S f d :
  tracks r S -> Fragment.coherent f -> message f ∈ m :: others ->
  exists l1 p l2, (forall q, p_message q <> message f -> q ∈ r <-> q ∈ l1 ++ l2) /\
    room (message f) l1 l2 /\ partial_wf p /\ p_message p = message f /\
    (p ∈ r \/ message f ∉ ids r /\ p = Partial.new (message f) (count f)) /\
    Reassembly.accept r f d =
      if negb (p_count p =? count f) then (l1 ++ l2, Err (Protocol BadHeader))
      else finish l1 p l2 f d.
Proof.
  intros Ht Hf Hx. pose proof Ht as (Hwf & _).
  destruct (accept_cases r f d Hf) as [(l1 & p & l2 & -> & Hp & ->)|[Hni ->]].
  - exists l1, p, l2. pose proof (room_found _ _ _ Hwf) as Hroom. rewrite Hp in Hroom.
    destruct Hwf as (_ & _ & Hall). apply Forall_app in Hall as [_ [[? _] _]%Forall_cons_1].
    split; [|do 3 (split; [done|]); split; [|done]].
    + intros q Hq. rewrite !elem_of_app, elem_of_cons. intuition congruence.
    + left. apply elem_of_app. right. by left.
  - pose proof (no_eviction r S _ Ht Hx Hni) as Hl.
    pose proof (room_new _ r Hwf Hni) as Hroom.
    rewrite (proj2 (Z.leb_gt _ _)) in * by done.
    exists r, (Partial.new (message f) (count f)), []. rewrite app_nil_r.
    split; [done|]. split; [done|]. split; [apply partial_new_wf; destruct Hf as (_ & ? & ?); lia|].
    split; [done|]. split; [by right|]. cbn [Partial.new p_count]. by rewrite Z.eqb_refl.
Qed.

(** Fragments of the other messages leave [m]'s partial alone. *)
Lemma tracks_other r S f d :
  tracks r S -> Fragment.coherent f -> message f ∈ others -> message f <> m ->
  tracks (fst (Reassembly.accept r f d)) S.
Proof.
  intros Ht Hf Hx Hne. assert (message f ∈ m :: others) as Hx' by (by right).
  destruct (accept_slot r S f d Ht Hf Hx') as (l1 & p & l2 & Hq & Hroom & Hwf & Hp & _ & Heq).
  destruct Ht as (Hr & Hids & Hh & Habs).
  assert (reassembly_wf (fst (Reassembly.accept r f d))) as Hwf' by (by apply accept_wf).
  assert (forall q, q ∈ fst (Reassembly.accept r f d) -> q ∈ l1 ++ l2 \/ p_message q = message f) as Hin.
  { intros q. rewrite Heq. case_match eqn:Hc; [by left|]. apply negb_false_iff, Z.eqb_eq in Hc.
    destruct (insert_safe p f d Hwf Hf ltac:(congruence)) as (p' & res & Hins & Hp' & _).
    intros [?|Hqp]%finish_elems; [by left|right]. rewrite Hins in Hqp. cbn in Hqp. congruence. }
  assert (forall q, q ∈ l1 ++ l2 -> q ∈ fst (Reassembly.accept r f d)) as Hout.
  { intros q. rewrite Heq. case_match; [done|]. apply finish_elems. }
  split; [done|]. split; [|split].
  - intros q [Hq'|Hq']%Hin; [|rewrite Hq'; done].
    destruct (decide (p_message q = message f)) as [->|Hn0]; [done|]. apply Hids. by apply Hq.
  - intros q [Hq'|Hq']%Hin Hqm; [|congruence]. apply Hh; [|done]. apply Hq; [congruence|done].
  - intros Hni. apply Habs. rewrite not_elem_of_ids in *. intros q Hqr Hqm.
    apply (Hni q); [|done]. apply Hout, Hq; [congruence|done].
Qed.

(** A piece of [m]: the whole message when it was the only one missing, and
    otherwise one more piece held. *)
Lemma accept_piece r S i :
  tracks r S -> 0 <= i < n ->
  let (f, d) := cut data per n m i in
  ((forall j, 0 <= j < n -> j ∈ i :: S) -> i ∉ S -> snd (Reassembly.accept r f d) = Ok (Some data)) /\
  (forall j, 0 <= j < n -> j ∉ i :: S ->
     snd (Reassembly.accept r f d) = Ok None /\ tracks (fst (Reassembly.accept r f d)) (i :: S)).
Proof.
  intros Ht Hi. destruct (cut data per n m i) as [f d] eqn:Hcf.
  assert (f = mkFragment m i n /\ d = piece_of data per n i) as [Hfe Hde] by (by unfold cut in Hcf; simplify_eq).
  assert (Fragment.coherent f) as Hf by (subst f; by apply (cut_coherent data per n m Hn Hm i)).
  assert (message f = m) as Hfm by (by subst f).
  destruct (accept_slot r S f d Ht Hf) as (l1 & p & l2 & Hq & Hroom & Hwf & Hp & Hpr & Heq);
    [rewrite Hfm; by left|]. rewrite Hfm in *.
  destruct Ht as (Hr & Hids & Hh & Habs).
  assert (holds data per n p S) as Hps.
  { destruct Hpr as [Hpr|[Hni ->]]; [by apply Hh|]. rewrite (Habs Hni).
    replace (count f) with n by (by subst f). by apply holds_new. }
  assert (reassembly_wf (fst (Reassembly.accept r f d))) as Hwf' by (by apply accept_wf).
  rewrite Heq in Hwf' |- *. replace (p_count p) with n in * by (destruct Hps as (_ & (? & _) & _); done).
  replace (count f) with n in * by (by subst f). rewrite Z.eqb_refl in *. cbn [negb] in *.
  destruct (insert_good data per n m Hper Hn Hm Hmax Hcut p S i Hps Hi)
    as (p' & res & Hins & Hp' & Hfull & Hpart).
  rewrite Hcf in Hins. cbn [fst snd] in Hins. unfold finish in *. rewrite Hins in *. split.
  - intros Hall Hni. by rewrite (Hfull Hall Hni).
  - intros j Hj Hjs. destruct (Hpart j Hj Hjs) as [-> Hp's].
    assert (Partial.held p' <= MAX_MESSAGE_LEN) as Hheld.
    { eapply (stored_held data per n m); try done. apply Hp's. }
    rewrite (proj2 (Z.ltb_ge _ _)) in * by done. split; [done|]. cbn [fst] in *.
    assert (forall q, q ∈ l1 ++ p' :: l2 -> q = p' \/ q ∈ l1 ++ l2) as Hin.
    { intros q. rewrite !elem_of_app, elem_of_cons. tauto. }
    destruct Hroom as (_ & _ & Hni). rewrite not_elem_of_ids in Hni.
    split; [done|]. split; [|split].
    + intros q [->|Hq']%Hin; [rewrite Hp', Hp; by left|]. apply Hids, Hq; [by apply Hni|done].
    + intros q [->|Hq']%Hin Hqm; [done|]. by destruct (Hni q).
    + intros Habs'. rewrite not_elem_of_ids in Habs'. destruct (Habs' p'); [|congruence].
      apply elem_of_app. right. by left.
Qed.

(** A fragment of one of the other messages, or a piece of [m]. *)
Definition in_play (e : Fragment * bytes) : Prop :=
  (Fragment.coherent (fst e) /\ message (fst e) ∈ others /\ message (fst e) <> m) \/
  exists i, 0 <= i < n /\ e = cut data per n m i.

Lemma accept_all_tracks evs r S j :
  tracks r S -> Forall in_play evs -> 0 <= j < n -> j ∉ reverse (arrived m evs) ++ S ->
  tracks (fst (Reassembly.accept_all r evs)) (reverse (arrived m evs) ++ S).
Proof.
  revert r S. induction evs as [|e evs IH]; intros r S Ht Hevs Hj Hjs; [done|].
  apply Forall_cons_1 in Hevs as [He Hevs]. unfold arrived in *. rewrite filter_cons in *.
  destruct He as [(Hf & Hx & Hne)|(i & Hi & ->)].
  - rewrite decide_False in * by done. destruct e as [f d]. simpl.
    pose proof (tracks_other r S f d Ht Hf Hx Hne) as Ht'.
    destruct (Reassembly.accept r f d) as [r' res]. specialize (IH r' S Ht' Hevs Hj Hjs).
    by destruct (Reassembly.accept_all r' evs).
  - rewrite decide_True in * by done. simpl map in *. rewrite reverse_cons, <- app_assoc in *.
    pose proof (accept_piece r S i Ht Hi) as Hp. unfold cut in Hp. destruct Hp as [_ Hp].
    destruct (Hp j Hj) as [_ Ht']; [intros Hin; apply Hjs, elem_of_app; by right|].
    cbn [cut]. simpl. destruct (Reassembly.accept r _ _) as [r' res].
    specialize (IH r' (i :: S) Ht' Hevs Hj Hjs). by destruct (Reassembly.accept_all r' evs).
Qed.

Lemma tracks_new : tracks Reassembly.new [].
Proof.
  split; [apply reassembly_new_wf|]. split; [by intros ? ?%not_elem_of_nil|].
  split; [by intros ? ?%not_elem_of_nil|done].
Qed.
End among.

(** ** Properties *)

(** C35: reassembly is independent of order. A message cut as the sender cuts
    it, whose pieces arrive in any order and any number of times, interleaved
    with whatever (well-formed or hostile) fragments of up to three other
    messages: each piece that leaves another one missing returns nothing, and
    the piece that was the last one missing returns exactly the message. *)
Theorem reassembly_any_order data per n m others evs i :
  0 <= per -> is_u32 m -> fragments_needed (len data) per = Some n ->
  len others < MAX_REASSEMBLIES -> Forall (in_play data per n m others) evs ->
  0 <= i < n -> i ∉ arrived m evs ->
  let (f, d) := cut data per n m i in
  let r := fst (Reassembly.accept_all Reassembly.new evs) in
  ((forall j, 0 <= j < n -> j = i \/ j ∈ arrived m evs) ->
     snd (Reassembly.accept r f d) = Ok (Some data)) /\
  (forall j, 0 <= j < n -> j <> i -> j ∉ arrived m evs ->
     snd (Reassembly.accept r f d) = Ok None).
Proof.
  intros Hp0 Hm Hfn Ho Hevs Hi Hni.
  apply fragments_needed_some in Hfn as (Hper & Hmax & Hn & _ & Hcut); [|apply len_nonneg|done].
  assert (tracks data per n m others (fst (Reassembly.accept_all Reassembly.new evs))
    (reverse (arrived m evs) ++ [])) as Ht.
  { apply (accept_all_tracks data per n m others Hper Hn Hm Hmax Hcut Ho evs _ [] i);
      [apply tracks_new|done|done|]. by rewrite app_nil_r, elem_of_reverse. }
  rewrite app_nil_r in Ht.
  pose proof (accept_piece data per n m others Hper Hn Hm Hmax Hcut Ho _ _ i Ht Hi) as H.
  unfold cut in *. destruct H as [Hfull Hpart]. split.
  - intros Hall. apply Hfull; [|by rewrite elem_of_reverse].
    intros j Hj. rewrite elem_of_cons, elem_of_reverse. by apply Hall.
  - intros j Hj Hji Hjs. apply (Hpart j Hj). by rewrite elem_of_cons, elem_of_reverse; tauto.
Qed.

Lemma reassembly_any_order_witness :
  fragments_needed (len [1; 2; 3; 4; 5]) 2 = Some 3 /\
  snd (Reassembly.accept
         (fst (Reassembly.accept_all Reassembly.new
            [cut [1; 2; 3; 4; 5] 2 3 7 2; (mkFragment 9 0 1, [8]); cut [1; 2; 3; 4; 5] 2 3 7 0;
             cut [1; 2; 3; 4; 5] 2 3 7 2]))
         (fst (cut [1; 2; 3; 4; 5] 2 3 7 1)) (snd (cut [1; 2; 3; 4; 5] 2 3 7 1)))
    = Ok (Some [1; 2; 3; 4; 5]).
Proof.
  split; [by vm_compute|].
  apply (reassembly_any_order [1; 2; 3; 4; 5] 2 3 7 [9]
    [cut [1; 2; 3; 4; 5] 2 3 7 2; (mkFragment 9 0 1, [8]); cut [1; 2; 3; 4; 5] 2 3 7 0;
     cut [1; 2; 3; 4; 5] 2 3 7 2] 1).
  - lia.
  - lia.
  - by vm_compute.
  - by vm_compute.
  - apply List.Forall_cons; [|apply List.Forall_cons; [|apply List.Forall_cons; [|apply List.Forall_cons; [|constructor]]]].
    + right. exists 2. split; [lia|done].
    + left. repeat split; try by vm_compute. by left.
    + right. exists 0. split; [lia|done].
    + right. exists 2. split; [lia|done].
  - lia.
  - rewrite list_elem_of_In. vm_compute. intuition congruence.
  - intros j Hj. assert (j = 0 \/ j = 1 \/ j = 2) as [->|[->| ->]] by lia;
      rewrite list_elem_of_In; vm_compute; intuition congruence.
Defined.

(** the receiver's memory is bounded. After any sequence of fragments a
    peer can get past the descriptor parser, carrying any bytes at all, the
    receiver holds at most four partial messages under distinct identifiers,
    each with at most [MAX_MESSAGE_LEN] bytes and [MAX_FRAGMENTS] pieces, and
    no step panics. *)
Theorem reassembly_bounded evs :
  Forall (fun e => Fragment.coherent (fst e)) evs ->
  let (r, outs) := Reassembly.accept_all Reassembly.new evs in
  Reassembly.in_progress r <= MAX_REASSEMBLIES /\ NoDup (ids r) /\
  Forall (fun p => Partial.held p <= MAX_MESSAGE_LEN /\ len (p_have p) <= MAX_FRAGMENTS) r /\
  Forall (fun o => is_panic o = false) outs.
Proof.
  intros Hevs. pose proof (accept_all_wf Reassembly.new evs reassembly_new_wf Hevs) as H.
  destruct (Reassembly.accept_all Reassembly.new evs) as [r outs].
  destruct H as [(Hnd & Hl & Hall) Ho]. split; [done|]. split; [done|]. split; [|done].
  eapply Forall_impl; [|exact Hall]. intros p [(? & ? & _) ?]. lia.
Qed.

Lemma reassembly_bounded_witness :
  let (r, outs) := Reassembly.accept_all Reassembly.new
    [(mkFragment 1 0 2, []); (mkFragment 1 1 3, [1]); (mkFragment 2 0 4096, zeros 257)] in
  Reassembly.in_progress r <= MAX_REASSEMBLIES /\ NoDup (ids r) /\
  Forall (fun p => Partial.held p <= MAX_MESSAGE_LEN /\ len (p_have p) <= MAX_FRAGMENTS) r /\
  Forall (fun o => is_panic o = false) outs.
Proof.
  apply (reassembly_bounded
    [(mkFragment 1 0 2, []); (mkFragment 1 1 3, [1]); (mkFragment 2 0 4096, zeros 257)]).
  repeat constructor; vm_compute; congruence.
Defined.
