(* ===== verification/Tickets.v ===== *)
(** * The responder's ticket store (crates/fectp/src/pipeline.rs)

    [TicketStore]: resumption tickets by identifier, with the order they came
    in. Instants and durations are milliseconds; an operation reads the clock
    once and the reading is an argument. The theorems show that a ticket is
    redeemed at most once and only within its lifetime, and that the store
    stays within its bound with its two indexes in step. *)
From stdpp Require Import gmap.
From S2P Require Import Prelude Bytes Error Fragment Codec Cipher Symmetric Handshake Session.

Definition MAX_TICKETS : Z := 256.
(** [Duration::from_secs(3600)]. *)
Definition TICKET_LIFETIME : Z := 3600000.
#[export] Hint Unfold MAX_TICKETS TICKET_LIFETIME : consts.

Record Held := mkHeld {
  h_ticket : ResumptionTicket;
  h_peer : bytes;
  h_issued : Z;
}.

Record TicketStore := mkTicketStore {
  by_id : gmap (list Z) Held;
  order : list (list Z);
  lifetime : Z;
}.

Module TicketStore.
Definition default : TicketStore := {| by_id := ∅; order := []; lifetime := TICKET_LIFETIME |}.

Definition set_lifetime (s : TicketStore) (l : Z) : TicketStore :=
  {| by_id := by_id s; order := order s; lifetime := l |}.

(** [Instant::elapsed], which saturates at zero. *)
Definition elapsed (h : Held) (now : Z) : Z := saturating_sub now (h_issued h).

(** The closure of [prune]'s [retain], over the queue front to back. *)
Fixpoint prune_loop (now life : Z) (queue : list (list Z)) (m : gmap (list Z) Held)
  : list (list Z) * gmap (list Z) Held :=
  match queue with
  | [] => ([], m)
  | id :: queue =>
      let keep := match m !! id with Some held => elapsed held now <? life | None => false end in
      if keep then let (queue, m) := prune_loop now life queue m in (id :: queue, m)
      else prune_loop now life queue (delete id m)
  end.

Definition prune (s : TicketStore) (now : Z) : TicketStore :=
  let (queue, m) := prune_loop now (lifetime s) (order s) (by_id s) in
  {| by_id := m; order := queue; lifetime := lifetime s |}.

(** [while self.order.len() > MAX_TICKETS]. *)
Fixpoint evict_loop (queue : list (list Z)) (m : gmap (list Z) Held)
  : list (list Z) * gmap (list Z) Held :=
  match queue with
  | [] => ([], m)
  | oldest :: rest =>
      if MAX_TICKETS <? len queue then evict_loop rest (delete oldest m) else (queue, m)
  end.

Definition insert (s : TicketStore) (ticket : ResumptionTicket) (peer : bytes) (now : Z)
  : TicketStore :=
  let id := ticket_id ticket in
  let held := {| h_ticket := ticket; h_peer := peer; h_issued := now |} in
  let queue := match by_id s !! id with None => order s ++ [id] | Some _ => order s end in
  let s := prune {| by_id := <[id := held]> (by_id s); order := queue; lifetime := lifetime s |} now in
  let (queue, m) := evict_loop (order s) (by_id s) in
  {| by_id := m; order := queue; lifetime := lifetime s |}.

Definition take (s : TicketStore) (id : bytes) (now : Z)
  : TicketStore * option (ResumptionTicket * bytes) :=
  match by_id s !! id with
  | None => (s, None)
  | Some held =>
      let s := {| by_id := delete id (by_id s);
                  order := filter (fun queued => queued <> id) (order s);
                  lifetime := lifetime s |} in
      if lifetime s <=? elapsed held now then (s, None)
      else (s, Some (h_ticket held, h_peer held))
  end.

Definition len (s : TicketStore) : Z := Z.of_nat (size (by_id s)).
End TicketStore.

(** ** Histories

    What has been done to a store, the most recent operation first. *)
Inductive event :=
| Inserted (ticket : ResumptionTicket) (peer : bytes) (now : Z)
| Taken (id : bytes) (now : Z)
| LifetimeSet (l : Z).

Fixpoint run (past : list event) : TicketStore :=
  match past with
  | [] => TicketStore.default
  | Inserted ticket peer now :: past => TicketStore.insert (run past) ticket peer now
  | Taken id now :: past => fst (TicketStore.take (run past) id now)
  | LifetimeSet l :: past => TicketStore.set_lifetime (run past) l
  end.

(** The ticket last issued under [id], unless it has been presented since. *)
Fixpoint unspent (past : list event) (id : bytes) : option Held :=
  match past with
  | [] => None
  | Inserted ticket peer now :: past =>
      if decide (ticket_id ticket = id) then Some (mkHeld ticket peer now) else unspent past id
  | Taken id' _ :: past => if decide (id' = id) then None else unspent past id
  | LifetimeSet _ :: past => unspent past id
  end.

(** ** Lemmas *)
Definition alive (now life : Z) (o : option Held) : option Held :=
  match o with
  | Some h => if TicketStore.elapsed h now <? life then Some h else None
  | None => None
  end.

Lemma decide_elem_cons {A} (id x : bytes) q (a b : A) :
  id <> x -> (if decide (id ∈ x :: q) then a else b) = if decide (id ∈ q) then a else b.
Proof. intros. apply decide_ext. rewrite elem_of_cons. tauto. Qed.

Lemma prune_loop_spec now life queue m :
  NoDup queue ->
  let (queue', m') := TicketStore.prune_loop now life queue m in
  (forall id, m' !! id = if decide (id ∈ queue) then alive now life (m !! id) else m !! id) /\
  queue' `sublist_of` queue /\
  (forall id, id ∈ queue' <-> id ∈ queue /\ is_Some (m' !! id)).
Proof.
  revert m. induction queue as [|x queue IH]; intros m Hnd; simpl.
  { split; [done|]. split; [done|]. intros id. rewrite elem_of_nil. tauto. }
  apply list.NoDup_cons in Hnd as [Hx Hnd].
  destruct (match m !! x with Some h => TicketStore.elapsed h now <? life | None => false end) eqn:Hk.
  - specialize (IH m Hnd). destruct (TicketStore.prune_loop now life queue m) as [q' m'].
    destruct IH as (Hm & Hsub & Hq).
    assert (m' !! x = m !! x) as Hmx by (rewrite Hm; by rewrite decide_False).
    destruct (m !! x) as [h|] eqn:Hh; [|done]. split; [|split].
    + intros id. destruct (decide (id = x)) as [->|Hne].
      * rewrite decide_True by (by left). rewrite Hmx, Hh. simpl. by rewrite Hk.
      * by rewrite Hm, decide_elem_cons.
    + by apply sublist_skip.
    + intros id. rewrite !elem_of_cons, Hq. split; [|tauto].
      intros [->|?]; [|tauto]. split; [by left|]. rewrite Hmx. eauto.
  - specialize (IH (delete x m) Hnd). destruct (TicketStore.prune_loop now life queue _) as [q' m'].
    destruct IH as (Hm & Hsub & Hq).
    assert (m' !! x = None) as Hmx.
    { rewrite Hm. rewrite decide_False by done. apply lookup_delete_eq. }
    split; [|split].
    + intros id. destruct (decide (id = x)) as [->|Hne].
      * rewrite decide_True by (by left). rewrite Hmx. unfold alive. destruct (m !! x); [by rewrite Hk|done].
      * by rewrite Hm, lookup_delete_ne, decide_elem_cons by done.
    + by apply sublist_cons.
    + intros id. rewrite elem_of_cons, Hq. split; [tauto|].
      intros [[->|?] Hs]; [|tauto]. rewrite Hmx in Hs. by destruct Hs.
Qed.

Lemma evict_loop_spec queue m :
  NoDup queue ->
  let (queue', m') := TicketStore.evict_loop queue m in
  exists gone, queue = gone ++ queue' /\ len queue' <= MAX_TICKETS /\
    (len queue <= MAX_TICKETS + len gone) /\ (gone = [] \/ len queue' = MAX_TICKETS) /\
    (forall id, m' !! id = if decide (id ∈ gone) then None else m !! id).
Proof.
  revert m. induction queue as [|x queue IH]; intros m Hnd; simpl.
  { exists []. split; [done|]. rewrite !len_nil. split; [clia|]. split; [clia|]. split; [by left|done]. }
  apply list.NoDup_cons in Hnd as [Hx Hnd].
  destruct (Z.ltb_spec MAX_TICKETS (len (x :: queue))) as [Hl|Hl].
  - specialize (IH (delete x m) Hnd). destruct (TicketStore.evict_loop queue _) as [q' m'].
    destruct IH as (gone & -> & Hl' & Hg & Hor & Hm). exists (x :: gone).
    split; [done|]. split; [done|]. split; [len_lia|]. split.
    + right. destruct Hor as [->|?]; [|done]. len_lia.
    + intros id. rewrite Hm. destruct (decide (id = x)) as [->|Hne].
      * rewrite (decide_True _ _ (P:=x ∈ x :: gone)) by (by left). case_decide; [done|]. apply lookup_delete_eq.
      * by rewrite lookup_delete_ne, decide_elem_cons by done.
  - exists []. split; [done|]. split; [done|]. rewrite len_nil. split; [lia|]. split; [by left|]. done.
Qed.

(** The two indexes agree, and the queue is within its bound. *)
Definition store_wf (s : TicketStore) : Prop :=
  NoDup (order s) /\ (forall id, id ∈ order s <-> is_Some (by_id s !! id)) /\
  len (order s) <= MAX_TICKETS /\
  (forall id h, by_id s !! id = Some h -> ticket_id (h_ticket h) = id).

Lemma store_len s : store_wf s -> TicketStore.len s = len (order s).
Proof.
  intros (Hnd & Hio & _ & _). unfold TicketStore.len.
  pose proof (to_nat_len (order s)). pose proof (len_nonneg (order s)).
  assert (size (by_id s) = length (order s)) as ->; [|lia].
  rewrite <- size_dom. rewrite <- (size_list_to_set (C:=gset (list Z))) by done.
  f_equal. apply set_eq. intros id. by rewrite elem_of_list_to_set, elem_of_dom, Hio.
Qed.

Section insertion.
Context (s : TicketStore) (ticket : ResumptionTicket) (peer : bytes) (now : Z).
Context (Hwf : store_wf s).
Let id := ticket_id ticket.
Let queue := match by_id s !! id with None => order s ++ [id] | Some _ => order s end.

Lemma queue_nodup : NoDup queue.
Proof.
  destruct Hwf as (Hnd & Hio & _). unfold queue. destruct (by_id s !! id) eqn:He; [done|].
  apply list.NoDup_app. split; [done|]. split; [|by apply NoDup_singleton].
  intros x Hx ->%list_elem_of_singleton. apply Hio in Hx. rewrite He in Hx. by destruct Hx.
Qed.

Lemma queue_elem x : x ∈ queue <-> x = id \/ x ∈ order s.
Proof.
  destruct Hwf as (_ & Hio & _). unfold queue. destruct (by_id s !! id) eqn:He.
  - split; [by right|]. intros [->|?]; [|done]. apply Hio. eauto.
  - rewrite elem_of_app, list_elem_of_singleton. tauto.
Qed.

(** The queue is at most one over, and then the new identifier is last. *)
Lemma queue_len : len queue <= MAX_TICKETS \/ id ∉ order s /\ queue = order s ++ [id].
Proof.
  destruct Hwf as (_ & Hio & Hl & _). unfold queue. destruct (by_id s !! id) eqn:He; [by left|].
  right. split; [|done]. rewrite Hio, He. by intros [].
Qed.

(** The newest entry is never the one evicted. *)
Lemma newest_survives queue' gone :
  (gone ++ queue') `sublist_of` queue -> id ∈ gone ++ queue' ->
  (gone = [] \/ len queue' = MAX_TICKETS) -> id ∉ gone.
Proof.
  intros Hsub Hid [->|Hl]; [by apply not_elem_of_nil|].
  pose proof (sublist_NoDup _ _ queue_nodup Hsub) as Hnd.
  destruct queue_len as [Hq|[Hni Hq]].
  - apply sublist_length in Hsub. pose proof (to_nat_len queue). rewrite length_app in Hsub.
    pose proof (to_nat_len queue'). pose proof (len_nonneg queue). destruct gone; [by apply not_elem_of_nil|].
    simpl in Hsub. clia.
  - rewrite Hq in Hsub. apply sublist_app_r in Hsub as (l1 & l2 & Heq & H1 & H2).
    assert (l2 = [id]) as ->.
    { rewrite Heq, elem_of_app in Hid. destruct Hid as [Hid|Hid].
      - exfalso. apply Hni. by eapply elem_of_sublist.
      - destruct l2 as [|y l2]; [by apply not_elem_of_nil in Hid|].
        pose proof (sublist_length _ _ H2) as Hle. simpl in Hle. destruct l2; [|simpl in *; lia].
        by apply list_elem_of_singleton in Hid as ->. }
    destruct (exists_last (l:=queue')) as (q0 & y & ->); [intros ->; by vm_compute in Hl|].
    rewrite app_assoc in Heq. apply app_inj_tail in Heq as [_ ->].
    apply list.NoDup_app in Hnd as (_ & Hd & _). intros Hg. apply (Hd _ Hg).
    apply elem_of_app. right. by left.
Qed.
End insertion.

(** What inserting does: the new ticket goes in (and stays in when tickets
    live at all), nothing else appears, and the store stays well formed. *)
Lemma insert_spec s ticket peer now :
  store_wf s ->
  let s' := TicketStore.insert s ticket peer now in
  store_wf s' /\ lifetime s' = lifetime s /\
  (forall id h, by_id s' !! id = Some h ->
     if decide (ticket_id ticket = id) then h = mkHeld ticket peer now else by_id s !! id = Some h) /\
  (0 < lifetime s -> by_id s' !! ticket_id ticket = Some (mkHeld ticket peer now)).
Proof.
  intros Hwf. unfold TicketStore.insert, TicketStore.prune.
  set (queue := match by_id s !! ticket_id ticket with None => _ | Some _ => _ end).
  pose proof (queue_nodup s ticket Hwf) as Hnd. fold queue in Hnd.
  pose proof (queue_elem s ticket Hwf) as Hqe. fold queue in Hqe.
  set (held := mkHeld ticket peer now). cbn [order by_id lifetime].
  pose proof (prune_loop_spec now (lifetime s) queue (<[ticket_id ticket:=held]> (by_id s)) Hnd) as Hp.
  destruct (TicketStore.prune_loop _ _ _ _) as [q1 m1]. destruct Hp as (Hm1 & Hsub & Hq1).
  cbn [order by_id lifetime].
  pose proof (evict_loop_spec q1 m1 (sublist_NoDup _ _ Hnd Hsub)) as He.
  destruct (TicketStore.evict_loop q1 m1) as [q2 m2].
  destruct He as (gone & -> & Hl2 & _ & Hor & Hm2).
  pose proof (sublist_NoDup _ _ Hnd Hsub) as Hnd1. apply list.NoDup_app in Hnd1 as (_ & Hdisj & Hnd2).
  pose proof Hwf as (_ & Hio & _ & Hid).
  assert (forall x h, m2 !! x = Some h -> x ∉ gone /\ x ∈ queue /\
    <[ticket_id ticket:=held]> (by_id s) !! x = Some h) as Hback.
  { intros x h. rewrite Hm2. case_decide; [done|]. rewrite Hm1. case_decide as Hx.
    - destruct (_ !! x) as [h'|]; simpl; [|done]. by case_match; intros; simplify_eq.
    - intros Hx'. exfalso. apply Hx, Hqe. destruct (decide (ticket_id ticket = x)) as [->|Hne]; [by left|].
      rewrite lookup_insert_ne in Hx' by done. right. apply Hio. eauto. }
  split; [|split; [done|split]].
  - split; [done|]. cbn [order by_id]. split; [|split; [done|]].
    + intros x. split.
      * intros Hx. rewrite Hm2, decide_False by (intros Hg; by apply (Hdisj x)).
        apply Hq1. apply elem_of_app. by right.
      * intros [h Hx]. destruct (Hback x h Hx) as (Hg & Hxq & _).
        assert (x ∈ gone ++ q2) as [?|?]%elem_of_app; [|done|done].
        apply Hq1. split; [done|]. rewrite Hm2, decide_False in Hx by done. eauto.
    + intros x h (_ & _ & Hx)%Hback. destruct (decide (ticket_id ticket = x)) as [Heq|Hne].
      * rewrite Heq, lookup_insert_eq in Hx. by simplify_eq.
      * rewrite lookup_insert_ne in Hx by done. by apply Hid.
  - intros x h (_ & _ & Hx)%Hback. case_decide as Heq.
    + rewrite Heq, lookup_insert_eq in Hx. by simplify_eq.
    + by rewrite lookup_insert_ne in Hx by done.
  - intros Hlife. cbn [by_id].
    assert (m1 !! ticket_id ticket = Some held) as H1.
    { rewrite Hm1, decide_True by (apply Hqe; by left). rewrite lookup_insert_eq. simpl.
      unfold TicketStore.elapsed, saturating_sub. cbn. by rewrite (proj2 (Z.ltb_lt _ _)) by lia. }
    rewrite Hm2, decide_False; [done|].
    apply (newest_survives s ticket Hwf q2); [done| |done].
    apply Hq1. split; [apply Hqe; by left|]. eauto.
Qed.

Lemma take_spec s id now :
  store_wf s ->
  let (s', r) := TicketStore.take s id now in
  store_wf s' /\ lifetime s' = lifetime s /\ by_id s' = delete id (by_id s) /\
  r = match alive now (lifetime s) (by_id s !! id) with
      | Some h => Some (h_ticket h, h_peer h)
      | None => None
      end.
Proof.
  intros Hwf. unfold TicketStore.take. destruct (by_id s !! id) as [h|] eqn:Hh; simpl.
  2: { rewrite delete_id by done. done. }
  destruct Hwf as (Hnd & Hio & Hl & Hid).
  set (s' := {| by_id := _ |}).
  assert (store_wf s') as Hwf'.
  { split; [by apply list.NoDup_filter|]. cbn [order by_id s']. split; [|split].
    - intros x. rewrite list_elem_of_filter, lookup_delete_is_Some, Hio. intuition congruence.
    - pose proof (length_filter (fun q => q <> id) (order s)) as Hf.
      pose proof (to_nat_len (order s)). pose proof (to_nat_len (filter (fun q => q <> id) (order s))).
      pose proof (len_nonneg (order s)). lia.
    - intros x h' [_ Hx]%lookup_delete_Some. by apply Hid. }
  destruct (Z.leb_spec (lifetime s) (TicketStore.elapsed h now)) as [Hle|Hle].
  - by rewrite (proj2 (Z.ltb_ge _ _)) by done.
  - by rewrite (proj2 (Z.ltb_lt _ _)) by done.
Qed.

Lemma run_wf past : store_wf (run past).
Proof.
  induction past as [|[ticket peer now|id now|l] past IH]; simpl.
  - split; [constructor|]. split; [|split].
    + intros id. cbn. rewrite elem_of_nil, lookup_empty. split; [done|by intros []].
    + vm_compute. congruence.
    + intros id h. cbn. by rewrite lookup_empty.
  - by apply insert_spec.
  - pose proof (take_spec (run past) id now IH) as Ht.
    destruct (TicketStore.take (run past) id now) as [s' r]. by destruct Ht.
  - done.
Qed.

(** Everything held was issued under its identifier and not presented since. *)
Lemma run_unspent past id h : by_id (run past) !! id = Some h -> unspent past id = Some h.
Proof.
  induction past as [|[ticket peer now|id' now|l] past IH] in id, h |- *; simpl.
  - by rewrite lookup_empty.
  - intros Hh. pose proof (insert_spec (run past) ticket peer now (run_wf past)) as (_ & _ & Hs & _).
    specialize (Hs id h Hh). case_decide; [by subst|by apply IH].
  - pose proof (take_spec (run past) id' now (run_wf past)) as Ht.
    destruct (TicketStore.take (run past) id' now) as [s' r]. destruct Ht as (_ & _ & Hb & _).
    simpl. rewrite Hb. intros [Hne Hh]%lookup_delete_Some. rewrite decide_False by done. by apply IH.
  - apply IH.
Qed.

(** ** Properties *)

(** C39: tickets are single use and expire. Whatever was done to the store
    before, redeeming [id] succeeds only with the ticket most recently issued
    under exactly that identifier, only if that identifier has not been
    presented since (successfully or not), and only within the lifetime in
    force; presenting it removes it, so a second presentation fails, and
    leaves every other ticket; a ticket just issued can be redeemed; and the
    store never holds more than [MAX_TICKETS]. *)
Theorem ticket_single_use past id now :
  let s := run past in
  let (s', r) := TicketStore.take s id now in
  (forall ticket peer, r = Some (ticket, peer) ->
     ticket_id ticket = id /\ exists issued, unspent past id = Some (mkHeld ticket peer issued) /\
       now - issued < lifetime s) /\
  (forall now', snd (TicketStore.take s' id now') = None) /\
  (forall other, other <> id -> by_id s' !! other = by_id s !! other) /\
  (forall ticket peer issued, lifetime s > 0 -> ticket_id ticket = id ->
     now - issued < lifetime s ->
     snd (TicketStore.take (TicketStore.insert s ticket peer issued) id now) = Some (ticket, peer)) /\
  TicketStore.len s <= MAX_TICKETS.
Proof.
  cbv zeta. pose proof (run_wf past) as Hwf. pose proof (take_spec (run past) id now Hwf) as Ht.
  destruct (TicketStore.take (run past) id now) as [s' r]. destruct Ht as (Hwf' & Hl & Hb & Hr).
  split; [|split; [|split; [|split]]].
  - intros ticket peer ->. destruct (by_id (run past) !! id) as [h|] eqn:Hh; simpl in Hr; [|done].
    destruct (Z.ltb_spec (TicketStore.elapsed h now) (lifetime (run past))) as [Hlt|]; [|done].
    simplify_eq. split; [by apply Hwf|]. exists (h_issued h). split.
    + rewrite (run_unspent past id h Hh). by destruct h.
    + unfold TicketStore.elapsed, saturating_sub in Hlt. lia.
  - intros now'. pose proof (take_spec s' id now' Hwf') as Ht.
    destruct (TicketStore.take s' id now') as [s2 r2]. destruct Ht as (_ & _ & _ & ->).
    by rewrite Hb, lookup_delete_eq.
  - intros other Hne. by rewrite Hb, lookup_delete_ne.
  - intros ticket peer issued Hlife Hid Hfresh.
    destruct (insert_spec (run past) ticket peer issued Hwf) as (Hwf2 & Hl2 & _ & Hin).
    pose proof (take_spec _ id now Hwf2) as Ht.
    destruct (TicketStore.take (TicketStore.insert _ _ _ _) id now) as [s2 r2].
    destruct Ht as (_ & _ & _ & ->). rewrite <- Hid, Hin, Hl2 by lia. simpl.
    unfold TicketStore.elapsed, saturating_sub. cbn. by rewrite (proj2 (Z.ltb_lt _ _)) by lia.
  - rewrite store_len by done. apply Hwf.
Qed.
