(* ===== verification/Pmtu.v ===== *)
(** * Path MTU discovery (crates/fectp/src/pmtu.rs)

    [Pmtu]: which frame size a session uses, the probes of a search in
    progress, and when the next search is due. Instants and durations are
    milliseconds. The tokens a search draws from [OsRng] are an argument, a
    function from the size probed. The theorems show the size in use is always
    between the base and the cap and only rises to a size that was answered,
    that a fall-back happens only when nothing was, and that every search
    ends. *)
From stdpp Require Import sorting.
From S2P Require Import Prelude Bytes.

(** crates/fectp/src/udp.rs. *)
Definition BASE_DATAGRAM : Z := 1200.

Definition LADDER : list Z := [1280; 1400; 1452; 1472].
Definition PROBE_TRIES : Z := 3.
Definition MIN_PROBE_INTERVAL : Z := 250.
Definition RESEARCH_INTERVAL : Z := 600000.
Definition AFTER_FALLBACK : Z := 60000.
#[export] Hint Unfold BASE_DATAGRAM PROBE_TRIES MIN_PROBE_INTERVAL RESEARCH_INTERVAL
  AFTER_FALLBACK : consts.

Record Probe := mkProbe { pr_size : Z; pr_token : bytes; pr_tries : Z; pr_last : Z }.
Record Send := mkSend { s_size : Z; s_token : bytes }.

Record Pmtu := mkPmtu {
  current : Z;
  cap : Z;
  probes : list Probe;
  validating : bool;
  next_search : option Z;
}.

Module Pmtu.
Definition reset (s : Pmtu) (now : Z) : Pmtu :=
  let cur := Z.min BASE_DATAGRAM (cap s) in
  {| current := cur; cap := cap s; probes := []; validating := false;
     next_search := if cur <? cap s then Some now else None |}.

Definition new (c : Z) (now : Z) : Pmtu :=
  reset {| current := BASE_DATAGRAM; cap := c; probes := []; validating := false;
           next_search := None |} now.

(** [Iterator::min] over the probes' instants. *)
Fixpoint min_list (l : list Z) : option Z :=
  match l with
  | [] => None
  | x :: l => match min_list l with Some y => Some (Z.min x y) | None => Some x end
  end.

Definition next_deadline (s : Pmtu) (retry : Z) : option Z :=
  let interval := Z.max retry MIN_PROBE_INTERVAL in
  let probe := min_list (map (fun p => pr_last p + interval) (probes s)) in
  min_list (option_list probe ++ option_list (next_search s)).

(** [Vec::dedup]: drop an element equal to the one before it. *)
Fixpoint dedup (l : list Z) : list Z :=
  match l with
  | x :: ((y :: _) as tl) => if x =? y then dedup tl else x :: dedup tl
  | _ => l
  end.

(** The sizes a new search tries. *)
Definition candidates (s : Pmtu) (validating : bool) : list Z :=
  let floor := if validating then current s - 1 else current s in
  let sizes := LADDER ++ [cap s] ++ (if validating then [current s] else []) in
  dedup (merge_sort Z.le (filter (fun size => floor < size /\ size <= cap s) sizes)).

Definition start_search (s : Pmtu) (now : Z) (rng : Z -> bytes) : Pmtu :=
  match probes s, next_search s with
  | [], Some at_ =>
      if at_ <=? now then
        let v := BASE_DATAGRAM <? current s in
        {| current := current s; cap := cap s;
           probes := map (fun size => mkProbe size (rng size) 0 now) (candidates s v);
           validating := v; next_search := None |}
      else s
  | _, _ => s
  end.

(** The closure of [due]'s [retain_mut]: whether the probe is kept and as
    what, and whether it is sent. *)
Definition poll_probe (now interval : Z) (p : Probe) : option Probe * option Send :=
  if (0 <? pr_tries p) && (now <? pr_last p + interval) then (Some p, None) else
  if PROBE_TRIES <=? pr_tries p then (None, None) else
  (Some (mkProbe (pr_size p) (pr_token p) (pr_tries p + 1) now),
   Some (mkSend (pr_size p) (pr_token p))).

Definition finish (s : Pmtu) (now : Z) : Pmtu :=
  let fell_back := validating s in
  {| current := if fell_back then Z.min BASE_DATAGRAM (cap s) else current s;
     cap := cap s; probes := probes s; validating := false;
     next_search :=
       if BASE_DATAGRAM <? cap s
       then Some (now + (if fell_back then AFTER_FALLBACK else RESEARCH_INTERVAL)) else None |}.

Definition with_probes (s : Pmtu) (ps : list Probe) : Pmtu :=
  {| current := current s; cap := cap s; probes := ps; validating := validating s;
     next_search := next_search s |}.

Definition due (s : Pmtu) (now retry : Z) (rng : Z -> bytes) : Pmtu * list Send :=
  let s := start_search s now rng in
  let interval := Z.max retry MIN_PROBE_INTERVAL in
  let sends := omap (fun p => snd (poll_probe now interval p)) (probes s) in
  let s := with_probes s (omap (fun p => fst (poll_probe now interval p)) (probes s)) in
  let s :=
    match probes s, next_search s with [], None => finish s now | _, _ => s end in
  (s, sends).

Definition answered (s : Pmtu) (token : bytes) (now : Z) : Pmtu * bool :=
  match list_find (fun p => pr_token p = token) (probes s) with
  | None => (s, false)
  | Some (_, p) =>
      let size := pr_size p in
      let before := current s in
      let s := if current s <=? size
        then {| current := size; cap := cap s; probes := probes s; validating := false;
                next_search := next_search s |} else s in
      let s := with_probes s (filter (fun p => size < pr_size p) (probes s)) in
      let s := match probes s with [] => finish s now | _ => s end in
      (s, negb (current s =? before))
  end.

Definition suspect (s : Pmtu) (now : Z) : Pmtu :=
  match probes s with
  | [] => if BASE_DATAGRAM <? current s
      then {| current := current s; cap := cap s; probes := []; validating := validating s;
              next_search := Some now |} else s
  | _ => s
  end.
End Pmtu.

(** ** Runs *)
Inductive op :=
| Reset (now : Z)
| Due (now retry : Z) (rng : Z -> bytes)
| Answered (token : bytes) (now : Z)
| Suspect (now : Z).

Definition apply_op (s : Pmtu) (o : op) : Pmtu :=
  match o with
  | Reset now => Pmtu.reset s now
  | Due now retry rng => fst (Pmtu.due s now retry rng)
  | Answered token now => fst (Pmtu.answered s token now)
  | Suspect now => Pmtu.suspect s now
  end.

(** What holds of a session's discovery between operations. *)
Definition pmtu_wf (s : Pmtu) : Prop :=
  Z.min BASE_DATAGRAM (cap s) <= current s <= cap s /\
  Forall (fun p => (if validating s then current s <= pr_size p else current s < pr_size p) /\
            pr_size p <= cap s /\ 1 <= pr_tries p <= PROBE_TRIES) (probes s) /\
  (validating s = true -> probes s <> [] /\ BASE_DATAGRAM < current s) /\
  (BASE_DATAGRAM < cap s -> probes s <> [] \/ is_Some (next_search s)) /\
  (cap s <= BASE_DATAGRAM -> probes s = [] /\ next_search s = None) /\
  (probes s <> [] -> next_search s = None).

(** ** Lemmas *)
Lemma elem_of_dedup l x : x ∈ Pmtu.dedup l <-> x ∈ l.
Proof.
  induction l as [|y [|z l] IH]; [done..|]. cbn [Pmtu.dedup]. destruct (Z.eqb_spec y z) as [->|].
  - rewrite IH, !elem_of_cons. tauto.
  - rewrite !elem_of_cons, IH, elem_of_cons. tauto.
Qed.

Lemma elem_of_candidates s v x :
  x ∈ Pmtu.candidates s v <->
  (if v then current s <= x else current s < x) /\ x <= cap s /\
  (x ∈ LADDER \/ x = cap s \/ v = true /\ x = current s).
Proof.
  unfold Pmtu.candidates. rewrite elem_of_dedup, merge_sort_Permutation, list_elem_of_filter.
  rewrite !elem_of_app, list_elem_of_singleton. destruct v; simpl.
  - rewrite list_elem_of_singleton. split; intros; intuition lia.
  - rewrite elem_of_nil. split; intros; intuition (lia || done).
Qed.

Section poll.
Context (now interval : Z).

Lemma poll_probe_kept p q :
  fst (Pmtu.poll_probe now interval p) = Some q ->
  pr_size q = pr_size p /\ pr_token q = pr_token p /\
  ((q = p /\ 0 < pr_tries p) \/ (pr_tries q = pr_tries p + 1 /\ pr_tries p < PROBE_TRIES /\ pr_last q = now)).
Proof.
  unfold Pmtu.poll_probe. repeat (case_match; zbool); simpl; intros; simplify_eq; simpl;
    (split; [done|]); (split; [done|]); [left; split; [done|lia] | right; clia..].
Qed.

Lemma poll_probe_sent p x :
  snd (Pmtu.poll_probe now interval p) = Some x ->
  s_size x = pr_size p /\ s_token x = pr_token p /\
  exists q, fst (Pmtu.poll_probe now interval p) = Some q /\ pr_tries q = pr_tries p + 1 /\
    pr_tries q <= PROBE_TRIES.
Proof.
  unfold Pmtu.poll_probe. repeat (case_match; zbool); simpl; intros; simplify_eq; simpl.
  split; [done|]. split; [done|]. eexists. split; [done|]. simpl. clia.
Qed.

(** A probe whose wait is over is sent again or given up on. *)
Lemma poll_probe_aged p :
  pr_last p + interval <= now -> 
  Pmtu.poll_probe now interval p =
  if PROBE_TRIES <=? pr_tries p then (None, None)
  else (Some (mkProbe (pr_size p) (pr_token p) (pr_tries p + 1) now),
        Some (mkSend (pr_size p) (pr_token p))).
Proof.
  intros. unfold Pmtu.poll_probe. rewrite (proj2 (Z.ltb_ge now _)) by lia. by rewrite andb_false_r.
Qed.
End poll.

(** The probes of a search as [due] finds them: already running, or new. *)
Definition searching (s : Pmtu) (ps : list Probe) : Prop :=
  Forall (fun p => (if validating s then current s <= pr_size p else current s < pr_size p) /\
            pr_size p <= cap s /\ 0 <= pr_tries p <= PROBE_TRIES) ps.

Lemma start_search_spec s now rng :
  pmtu_wf s ->
  let s' := Pmtu.start_search s now rng in
  current s' = current s /\ cap s' = cap s /\ searching s' (probes s') /\
  (validating s' = true -> BASE_DATAGRAM < current s) /\
  (s' = s \/ next_search s' = None /\ BASE_DATAGRAM < cap s /\ probes s' <> [] /\
     Forall (fun p => pr_tries p = 0) (probes s')).
Proof.
  intros (Hc & Hp & Hv & Hn & Hb & _). unfold Pmtu.start_search.
  assert (searching s (probes s)) as Hs.
  { eapply Forall_impl; [|exact Hp]. intros p (? & ? & ?). split_and!; [done|done|lia|lia]. }
  destruct (probes s) as [|p ps] eqn:Hps; [|by repeat split; rewrite ?Hps; auto; apply Hv].
  destruct (next_search s) as [t|] eqn:Hns; [|by repeat split; rewrite ?Hps; auto; apply Hv].
  assert (BASE_DATAGRAM < cap s) as Hcap.
  { destruct (Z.leb_spec (cap s) BASE_DATAGRAM) as [Hle|]; [|done]. by destruct (Hb Hle). }
  destruct (t <=? now); [|by repeat split; rewrite ?Hps; auto; apply Hv].
  simpl. split; [done|]. split; [done|]. split; [|split].
  - unfold searching. simpl. apply Forall_map, list.Forall_forall. intros x Hx.
    apply elem_of_candidates in Hx as (Hx & ? & _). simpl. split; [done|]. clia.
  - intros H. zbool. lia.
  - right. split; [done|]. split; [done|]. split.
    + intros Hnil. apply map_eq_nil in Hnil.
      assert (cap s ∈ Pmtu.candidates s (BASE_DATAGRAM <? current s)) as Hin.
      { apply elem_of_candidates. split; [|split; [lia|by right; left]].
        destruct (Z.ltb_spec BASE_DATAGRAM (current s)); [lia|].
        lia. }
      rewrite Hnil in Hin. by apply not_elem_of_nil in Hin.
    + apply Forall_map, list.Forall_forall. done.
Qed.

(** Ending a search: the size in use is kept, or the base when the search was
    checking it and nothing was answered. *)
Lemma pmtu_finish_wf s now :
  Z.min BASE_DATAGRAM (cap s) <= current s <= cap s -> probes s = [] -> pmtu_wf (Pmtu.finish s now).
Proof.
  intros Hc Hp. unfold pmtu_wf, Pmtu.finish. simpl. rewrite Hp.
  split; [destruct (validating s); lia|]. split; [constructor|]. split; [done|].
  split; [intros; right; rewrite (proj2 (Z.ltb_lt _ _)) by lia; eauto|].
  split; [|done]. intros. by rewrite (proj2 (Z.ltb_ge _ _)) by lia.
Qed.

Lemma reset_wf s now : pmtu_wf (Pmtu.reset s now).
Proof.
  unfold pmtu_wf, Pmtu.reset. simpl. split; [lia|]. split; [constructor|]. split; [done|].
  split; [intros; right; rewrite (proj2 (Z.ltb_lt _ _)) by lia; eauto|].
  split; [|done]. intros. by rewrite (proj2 (Z.ltb_ge _ _)) by lia.
Qed.

Lemma suspect_wf s now : pmtu_wf s -> pmtu_wf (Pmtu.suspect s now).
Proof.
  intros Hwf. unfold Pmtu.suspect. destruct (probes s) eqn:Hp; [|done].
  destruct (Z.ltb_spec BASE_DATAGRAM (current s)); [|done].
  destruct Hwf as (Hc & _ & Hv & Hn & Hb & _). split; [done|]. split; [constructor|].
  split; [intros Hval; destruct (Hv Hval); congruence|]. simpl.
  split; [eauto|]. split; [lia|done].
Qed.

(** A new search's probes are all sent at once. *)
Lemma poll_new now interval ps :
  Forall (fun p => pr_tries p = 0) ps -> ps <> [] ->
  omap (fun p => fst (Pmtu.poll_probe now interval p)) ps <> [].
Proof.
  intros Hf Hne. destruct ps as [|p ps]; [done|]. apply Forall_cons_1 in Hf as [Hp _].
  cbn [omap list_omap]. unfold Pmtu.poll_probe at 1. by rewrite Hp.
Qed.

(** The probes that stay and the frames to send, after one look at each. *)
Definition kept_probes (now interval : Z) (l : list Probe) : list Probe :=
  omap (fun p => fst (Pmtu.poll_probe now interval p)) l.

Lemma kept_probes_ok s now interval :
  searching s (probes s) ->
  Forall (fun p => (if validating s then current s <= pr_size p else current s < pr_size p) /\
    pr_size p <= cap s /\ 1 <= pr_tries p <= PROBE_TRIES) (kept_probes now interval (probes s)).
Proof.
  intros Hs. apply list.Forall_forall. intros q (p & Hp & Hq)%list_elem_of_omap.
  apply poll_probe_kept in Hq as (Hsz & _ & Ht). unfold searching in Hs.
  rewrite list.Forall_forall in Hs. specialize (Hs p Hp). rewrite Hsz.
  split_and!; try tauto; destruct Hs as (_ & _ & ?), Ht as [[-> ?]|(? & ? & _)]; lia.
Qed.

Lemma sent_probes_ok s now interval :
  searching s (probes s) ->
  Forall (fun x => current s <= s_size x <= cap s /\
    exists p, p ∈ kept_probes now interval (probes s) /\ pr_size p = s_size x /\ pr_token p = s_token x)
    (omap (fun p => snd (Pmtu.poll_probe now interval p)) (probes s)).
Proof.
  intros Hs. apply list.Forall_forall. intros x (p & Hp & Hq)%list_elem_of_omap.
  apply poll_probe_sent in Hq as (Hsz & Htk & q & Hq & _). rewrite Hsz, Htk.
  unfold searching in Hs. rewrite list.Forall_forall in Hs. specialize (Hs p Hp).
  split; [destruct Hs as (Hs1 & ? & _); destruct (validating s); lia|].
  exists q. split; [apply list_elem_of_omap; eauto|]. apply poll_probe_kept in Hq as (? & ? & _). done.
Qed.

Lemma due_spec s now retry rng :
  pmtu_wf s ->
  let (s', sends) := Pmtu.due s now retry rng in
  pmtu_wf s' /\ cap s' = cap s /\
  (current s' = current s \/
   current s' = BASE_DATAGRAM /\ validating s = true /\ probes s' = []) /\
  Forall (fun x => current s <= s_size x <= cap s /\
    exists p, p ∈ probes s' /\ pr_size p = s_size x /\ pr_token p = s_token x) sends.
Proof.
  intros Hwf. unfold Pmtu.due.
  destruct (start_search_spec s now rng Hwf) as (Hcur & Hcap & Hs & Hval & Hnew).
  set (s1 := Pmtu.start_search s now rng) in *. set (interval := Z.max retry MIN_PROBE_INTERVAL).
  set (ps := omap (fun p => fst (Pmtu.poll_probe now interval p)) (probes s1)).
  pose proof Hwf as (Hc & _ & Hv & Hn & Hb & Hx).
  pose proof (kept_probes_ok s1 now interval Hs) as Hps. pose proof (sent_probes_ok s1 now interval Hs) as Hsends.
  unfold kept_probes in Hps, Hsends. fold ps in Hps, Hsends. rewrite Hcur, Hcap in Hsends.
  cbn [Pmtu.with_probes probes next_search]. fold ps.
  destruct ps as [|q ps'] eqn:Hpse.
  - assert (s1 = s) as Hs1.
    { destruct Hnew as [|(_ & _ & Hne & H0)]; [done|].
      by destruct (poll_new now interval _ H0 Hne). }
    rewrite Hs1 in *. destruct (next_search s) as [t|] eqn:Hns.
    + assert (probes s = []) as Hp.
      { destruct (probes s); [done|]. by specialize (Hx ltac:(done)). }
      split; [|split; [done|split; [by left|]]].
      * unfold pmtu_wf. simpl. rewrite Hns. split; [done|]. split; [constructor|].
        split; [intros Hvs; by destruct (Hv Hvs)|]. split; [eauto|]. split; [|done].
        intros Hle. by destruct (Hb Hle).
      * eapply Forall_impl; [|exact Hsends]. intros x (? & p & ?%not_elem_of_nil & _). done.
    + split; [by apply pmtu_finish_wf|]. split; [done|]. split.
      * cbn. destruct (validating s) eqn:Hvs; [|by left]. right. destruct (Hv eq_refl).
        split; [lia|done].
      * eapply Forall_impl; [|exact Hsends]. intros x (? & p & ?%not_elem_of_nil & _). done.
  - split; [|split; [done|split; [by left; rewrite <- Hcur|done]]].
    unfold pmtu_wf. simpl. rewrite Hcur, Hcap. rewrite Hcur, Hcap in Hps.
    split; [done|]. split; [done|]. split; [intros H; split; [done|by apply Hval]|].
    split; [by left|]. split.
    + intros Hle. destruct Hnew as [Hs1|(_ & ? & _)]; [|lia]. destruct (Hb Hle) as [Hp _].
      unfold ps in Hpse. rewrite Hs1, Hp in Hpse. done.
    + intros _. destruct Hnew as [Hs1|(? & _)]; [|done]. rewrite Hs1. apply Hx. intros Hp.
      unfold ps in Hpse. rewrite Hs1, Hp in Hpse. done.
Qed.

Lemma answered_spec s token now :
  pmtu_wf s ->
  let (s', changed) := Pmtu.answered s token now in
  pmtu_wf s' /\ cap s' = cap s /\ changed = negb (current s' =? current s) /\
  (current s' = current s \/
   exists p, p ∈ probes s /\ pr_token p = token /\ current s' = pr_size p /\ current s < pr_size p).
Proof.
  intros Hwf. unfold Pmtu.answered. destruct (list_find _ (probes s)) as [[i p]|] eqn:Hf.
  2: { split; [done|]. rewrite Z.eqb_refl. eauto. }
  apply list_find_Some in Hf as (Hi & Htk & _). apply list_elem_of_lookup_2 in Hi.
  destruct Hwf as (Hc & Hp & Hv & Hn & Hb & Hx). rewrite list.Forall_forall in Hp.
  assert (current s <= pr_size p) as Hle.
  { destruct (Hp p Hi) as (H & _). destruct (validating s); lia. }
  rewrite (proj2 (Z.leb_le _ _)) by done.
  assert (probes s <> []) as Hne by (intros H; rewrite H in Hi; by apply not_elem_of_nil in Hi).
  destruct (Hp p Hi) as (_ & Hcap & _).
  assert (BASE_DATAGRAM < cap s) as Hbc.
  { destruct (Z.leb_spec (cap s) BASE_DATAGRAM) as [H|]; [by destruct (Hb H)|done]. }
  set (rest := filter (fun q => pr_size p < pr_size q) (probes s)).
  cbn [probes]. fold rest.
  set (s1 := Pmtu.with_probes {| current := pr_size p; cap := cap s; probes := probes s;
    validating := false; next_search := next_search s |} rest).
  assert (current (match probes s1 with [] => Pmtu.finish s1 now | _ => s1 end) = pr_size p) as Hcur
    by (destruct (probes s1); done).
  split; [|split; [by destruct (probes s1)|]].
  - destruct (probes s1) as [|q l] eqn:Hl; [apply pmtu_finish_wf; [cbn; lia|done]|].
    assert (rest = q :: l) as Hr by done. unfold pmtu_wf. cbn. rewrite Hr. split; [lia|].
    split; [|split; [done|split; [by left|split; [lia|intros _; by apply Hx]]]].
    rewrite <- Hr. apply list.Forall_forall. intros r (? & Hr')%list_elem_of_filter.
    destruct (Hp r Hr') as (_ & ? & ?). done.
  - rewrite Hcur. split; [done|]. destruct (decide (pr_size p = current s)) as [He|He]; [by left|].
    right. exists p. split_and!; [done|done|done|lia].
Qed.

Lemma pmtu_new_wf c now : pmtu_wf (Pmtu.new c now).
Proof. apply reset_wf. Qed.

Lemma apply_op_wf s o : pmtu_wf s -> pmtu_wf (apply_op s o) /\ cap (apply_op s o) = cap s.
Proof.
  intros Hwf. destruct o as [now|now retry rng|token now|now]; cbn [apply_op].
  - split; [apply reset_wf|done].
  - pose proof (due_spec s now retry rng Hwf) as H. destruct (Pmtu.due _ _ _ _). destruct H as (? & ? & _). by split.
  - pose proof (answered_spec s token now Hwf) as H. destruct (Pmtu.answered _ _ _). destruct H as (? & ? & _). by split.
  - split; [by apply suspect_wf|]. unfold Pmtu.suspect. by repeat case_match.
Qed.

Lemma ops_wf ops s :
  pmtu_wf s -> pmtu_wf (fold_left apply_op ops s) /\ cap (fold_left apply_op ops s) = cap s.
Proof.
  revert s. induction ops as [|o ops IH]; intros s Hwf; simpl; [done|].
  destruct (apply_op_wf s o Hwf) as [Hw Hc]. destruct (IH _ Hw) as [? ->]. done.
Qed.

(** Polling a running search until it ends. *)
Fixpoint poll_search (s : Pmtu) (retry : Z) (ts : list Z) : Pmtu :=
  match ts with
  | [] => s
  | t :: ts =>
      let s' := fst (Pmtu.due s t retry (fun _ => [])) in
      match probes s' with [] => s' | _ => poll_search s' retry ts end
  end.

(** One poll after every wait is over: each probe has been sent once more. *)
Lemma due_aged s t retry rng k :
  pmtu_wf s -> probes s <> [] ->
  Forall (fun p => pr_last p + Z.max retry MIN_PROBE_INTERVAL <= t /\ k <= pr_tries p) (probes s) ->
  let s' := fst (Pmtu.due s t retry rng) in
  (probes s' = [] /\ s' = Pmtu.finish (Pmtu.with_probes s []) t) \/
  (probes s' <> [] /\ k < PROBE_TRIES /\ validating s' = validating s /\ current s' = current s /\
   cap s' = cap s /\ Forall (fun p => pr_last p = t /\ k + 1 <= pr_tries p) (probes s')).
Proof.
  intros Hwf Hne Hage. unfold Pmtu.due.
  assert (Pmtu.start_search s t rng = s) as ->.
  { unfold Pmtu.start_search. by destruct (probes s). }
  set (ps := omap _ (probes s)). cbn [Pmtu.with_probes probes next_search fst].
  assert (next_search s = None) as Hns by (by apply Hwf). rewrite Hns.
  assert (Forall (fun p => pr_last p = t /\ k + 1 <= pr_tries p /\ k < PROBE_TRIES) ps) as Hps.
  { apply list.Forall_forall. intros q (p & Hp & Hq)%list_elem_of_omap.
    rewrite list.Forall_forall in Hage. destruct (Hage p Hp) as [Hl Hk].
    rewrite poll_probe_aged in Hq by done. destruct (Z.leb_spec PROBE_TRIES (pr_tries p)); [done|].
    simpl in Hq. simplify_eq. simpl. lia. }
  destruct ps as [|q ps'] eqn:He.
  - left. split; [done|]. unfold Pmtu.with_probes. by rewrite Hns.
  - right. split; [done|]. apply Forall_cons_1 in Hps as Hq. destruct Hq as [(? & ? & ?) _].
    split; [done|]. do 3 (split; [done|]). eapply Forall_impl; [|exact Hps]. simpl. tauto.
Qed.

(** ** Properties *)

(** C38: what discovery concludes is sound. In every state reached by any
    operations, the size in use is between the base (or the cap, if smaller)
    and the cap; a poll sends only sizes no smaller than the one in use and
    within the cap, each backed by an outstanding probe with its token, and
    changes the size in use only by falling back to the base when a search
    that was checking it ended unanswered; an answer changes it only upwards,
    to the size of an outstanding probe with the answer's token, and reports
    exactly whether it did. *)
Theorem pmtu_sound c start ops :
  let s := fold_left apply_op ops (Pmtu.new c start) in
  Z.min BASE_DATAGRAM c <= current s <= c /\
  (forall now retry rng, let (s', sends) := Pmtu.due s now retry rng in
     (current s' = current s \/
      current s' = BASE_DATAGRAM /\ validating s = true /\ probes s' = []) /\
     Forall (fun x => current s <= s_size x <= c /\
       exists p, p ∈ probes s' /\ pr_size p = s_size x /\ pr_token p = s_token x /\
         pr_tries p <= PROBE_TRIES) sends) /\
  (forall token now, let (s', changed) := Pmtu.answered s token now in
     changed = negb (current s' =? current s) /\
     (current s' = current s \/
      exists p, p ∈ probes s /\ pr_token p = token /\ current s' = pr_size p /\
        current s < pr_size p)).
Proof.
  cbv zeta. destruct (ops_wf ops (Pmtu.new c start) (pmtu_new_wf c start)) as [Hwf Hcap].
  set (s := fold_left apply_op ops (Pmtu.new c start)) in *. change (cap (Pmtu.new c start)) with c in Hcap.
  split; [destruct Hwf as [? _]; by rewrite <- Hcap|]. split.
  - intros now retry rng. pose proof (due_spec s now retry rng Hwf) as H.
    destruct (Pmtu.due s now retry rng) as [s' sends]. destruct H as ((_ & Hp & _) & _ & Hc & Hs).
    rewrite Hcap in Hs. rewrite list.Forall_forall in Hp. split; [done|].
    eapply Forall_impl; [|exact Hs]. intros x (? & p & Hin & ? & ?). split; [done|].
    exists p. destruct (Hp p Hin) as (_ & _ & ?). split_and!; [done|done|done|lia].
  - intros token now. pose proof (answered_spec s token now Hwf) as H.
    destruct (Pmtu.answered s token now). destruct H as (_ & _ & ? & ?). by split.
Qed.

(** every search ends. From any reachable state with a search running,
    three polls each at least a retry interval after the last sending and
    with no answer in between end it: no probe is left, the size in use is the
    base if the search was checking it and unchanged otherwise, and the next
    search is planned, sooner after a fall-back. *)
Theorem pmtu_search_ends c start ops retry t1 t2 t3 :
  let s := fold_left apply_op ops (Pmtu.new c start) in
  let interval := Z.max retry MIN_PROBE_INTERVAL in
  probes s <> [] -> Forall (fun p => pr_last p + interval <= t1) (probes s) ->
  t1 + interval <= t2 -> t2 + interval <= t3 ->
  let s' := poll_search s retry [t1; t2; t3] in
  probes s' = [] /\ current s' = (if validating s then BASE_DATAGRAM else current s) /\
  exists t, t ∈ [t1; t2; t3] /\
    next_search s' = Some (t + if validating s then AFTER_FALLBACK else RESEARCH_INTERVAL).
Proof.
  cbv zeta. destruct (ops_wf ops (Pmtu.new c start) (pmtu_new_wf c start)) as [Hwf _].
  set (s := fold_left apply_op ops (Pmtu.new c start)) in *. intros Hne Hage H12 H23.
  set (rng := fun _ : Z => @nil Z).
  assert (BASE_DATAGRAM < cap s) as Hcap.
  { destruct Hwf as (_ & _ & _ & _ & Hb & _).
    destruct (Z.leb_spec (cap s) BASE_DATAGRAM) as [H|]; [by destruct (Hb H)|done]. }
  assert (forall s' t, cap s' = cap s -> current s' = current s -> validating s' = validating s ->
    t ∈ [t1; t2; t3] ->
    let e := Pmtu.finish (Pmtu.with_probes s' []) t in
    probes e = [] /\ current e = (if validating s then BASE_DATAGRAM else current s) /\
    exists t, t ∈ [t1; t2; t3] /\
      next_search e = Some (t + if validating s then AFTER_FALLBACK else RESEARCH_INTERVAL)) as Hend.
  { intros s' t Hc Hcu Hv Ht. cbn. rewrite Hc, Hcu, Hv. split; [done|].
    split; [destruct (validating s); lia|]. exists t. by rewrite (proj2 (Z.ltb_lt _ _)) by done. }
  assert (Forall (fun p => pr_last p + Z.max retry MIN_PROBE_INTERVAL <= t1 /\ 1 <= pr_tries p) (probes s)) as H1.
  { destruct Hwf as (_ & Hp & _). rewrite list.Forall_forall in Hp, Hage |- *.
    intros p Hin. specialize (Hp p Hin) as (_ & _ & ?). specialize (Hage p Hin). lia. }
  cbn [poll_search]. fold rng.
  destruct (due_aged s t1 retry rng 1 Hwf Hne H1) as [[-> ->]|(Hn1 & _ & Hv1 & Hc1 & Hcap1 & Hf1)].
  { apply Hend; [done..|]. by left. }
  pose proof (apply_op_wf s (Due t1 retry rng) Hwf) as [Hw1 _]. cbn [apply_op] in Hw1.
  set (s1 := fst (Pmtu.due s t1 retry rng)) in *.
  destruct (probes s1) as [|p1 l1] eqn:Hp1; [done|]. rewrite <- Hp1 in *. clear p1 l1 Hp1.
  assert (Forall (fun p => pr_last p + Z.max retry MIN_PROBE_INTERVAL <= t2 /\ 2 <= pr_tries p) (probes s1)) as H2
    by (eapply Forall_impl; [|exact Hf1]; simpl; intros; lia).
  destruct (due_aged s1 t2 retry rng 2 Hw1 Hn1 H2) as [[-> ->]|(Hn2 & _ & Hv2 & Hc2 & Hcap2 & Hf2)].
  { apply Hend; [congruence..|]. right. by left. }
  pose proof (apply_op_wf s1 (Due t2 retry rng) Hw1) as [Hw2 _]. cbn [apply_op] in Hw2.
  set (s2 := fst (Pmtu.due s1 t2 retry rng)) in *.
  destruct (probes s2) as [|p2 l2] eqn:Hp2; [done|]. rewrite <- Hp2 in *. clear p2 l2 Hp2.
  assert (Forall (fun p => pr_last p + Z.max retry MIN_PROBE_INTERVAL <= t3 /\ 3 <= pr_tries p) (probes s2)) as H3
    by (eapply Forall_impl; [|exact Hf2]; simpl; intros; lia).
  destruct (due_aged s2 t3 retry rng 3 Hw2 Hn2 H3) as [[-> ->]|(_ & Hk & _)]; [|clia].
  apply Hend; [congruence..|]. right. right. by left.
Qed.

Lemma pmtu_search_ends_witness :
  let s := fold_left apply_op [Due 0 50 (fun size => [size])] (Pmtu.new 1472 0) in
  probes s <> [] /\
  let s' := poll_search s 50 [250; 500; 750] in
  probes s' = [] /\ current s' = (if validating s then BASE_DATAGRAM else current s) /\
  exists t, t ∈ [250; 500; 750] /\
    next_search s' = Some (t + if validating s then AFTER_FALLBACK else RESEARCH_INTERVAL).
Proof.
  split; [by vm_compute|].
  apply (pmtu_search_ends 1472 0 [Due 0 50 (fun size => [size])] 50 250 500 750).
  - by vm_compute.
  - repeat constructor; vm_compute; congruence.
  - vm_compute. congruence.
  - vm_compute. congruence.
Defined.
