(* ===== verification/Pipeline.v ===== *)
(** * One peer's protocol state (crates/fectp/src/pipeline.rs)

    [Peer]: coding, sealing, fragment queue, retransmission and ingestion,
    around one session. Sending goes through a callback in the source; here it
    is a function on a world [T] that may fail. The theorems show that what one
    peer seals the other ingests as the original payload, that a sealed frame
    respects the datagram limit, and how often coding is attempted on a stream
    it does not help. *)
From S2P Require Import Prelude Bytes Error Frame Fragment Codec Replay Reliability RetransmitQueue.
From S2P Require Import Cipher Symmetric Handshake Session Compress Reassembly.

Definition MAX_QUEUED : Z := 4.
Definition CODING_MISS_LIMIT : Z := 4.
Definition CODING_PROBE_INTERVAL : Z := 32.
#[export] Hint Unfold MAX_QUEUED CODING_MISS_LIMIT CODING_PROBE_INTERVAL : consts.

Record Queued := mkQueued {
  q_message : Z;
  q_payload_type : PayloadType;
  q_data : bytes;
  q_per_fragment : Z;
  q_limit : Z;
  q_count : Z;
  q_next : Z;
  q_outstanding : list Z;
  q_lost : bool;
}.

Record Finished := mkFinished { f_delivered : bool }.

Record Pending := mkPending {
  pd_id : Z;
  pd_payload_type : PayloadType;
  pd_data : bytes;
  pd_fragment : option Fragment;
  pd_limit : Z;
}.

Inductive Ingested :=
| Rejected
| Nothing
| IngestedData (len : Z) (compressed : bool)
| PathValidated (token : bytes)
| IngestedMessage (whole : bytes).

(** ** Whether coding is worth attempting *)
Record CodingDecision := mkCodingDecision {
  cd_misses : Z;
  cd_skips : Z;
  cd_shape : PayloadType;
}.

Module CodingDecision.
Definition new : CodingDecision := {| cd_misses := 0; cd_skips := 0; cd_shape := Opaque |}.

Definition should_code (c : CodingDecision) (payload_type : PayloadType) : CodingDecision * bool :=
  if negb (bool_decide (payload_type = cd_shape c)) then
    ({| cd_misses := 0; cd_skips := 0; cd_shape := payload_type |}, true)
  else if 0 <? cd_skips c then
    ({| cd_misses := cd_misses c; cd_skips := cd_skips c - 1; cd_shape := cd_shape c |}, false)
  else (c, true).

Definition record (c : CodingDecision) (paid : bool) : CodingDecision :=
  if paid then {| cd_misses := 0; cd_skips := 0; cd_shape := cd_shape c |}
  else if CODING_MISS_LIMIT <=? cd_misses c + 1 then
    {| cd_misses := 0; cd_skips := CODING_PROBE_INTERVAL; cd_shape := cd_shape c |}
  else {| cd_misses := cd_misses c + 1; cd_skips := cd_skips c; cd_shape := cd_shape c |}.
End CodingDecision.

Record Peer := mkPeer {
  p_session : Session;
  p_retransmit : RetransmitQueue;
  p_pending : list Pending;
  p_dedup : DedupWindow;
  p_abandoned : list Z;
  p_abandoned_unqueued : Z;
  p_abandoned_count : Z;
  p_reassembly : Reassembly;
  p_next_message : Z;
  p_queue : list Queued;
  p_primary : bytes;
  p_secondary : bytes;
  p_coding : CodingDecision;
}.

(** How large a buffer [deliver] needs. *)
Definition decoded_capacity (body : bytes) (compressed : bool) : Z :=
  if negb compressed then len body else
  match CodecHeader.decode body with
  | Ok header => original_len header
  | _ => len body
  end.

(** [deliver]: the scratch buffer after it, and [out] with the length. *)
Definition deliver `{ZstdLib} (body : bytes) (compressed : bool) (scratch out : bytes)
  : bytes * HostResult (bytes * Z) :=
  if compressed then decode_payload body scratch out else
  if len out <? len body then (scratch, Err (HostPayloadTooLarge (len body) (len out))) else
  let! (scratch, out) := (scratch, copy_range out 0 (len body) body) in
  (scratch, Ok (out, len body)).

(** The reply buffer of [ingest] and the length in it the caller sends. *)
Record Reply := mkReply { r_ack : bytes; r_len : Z }.

(** What a driver threads through its calls: the peer, the sender's world
    and the transmit buffer. *)
Record Driving (T : Type) := mkDriving { d_peer : Peer; d_world : T; d_tx : bytes }.
Arguments mkDriving {T} d_peer d_world d_tx.
Arguments d_peer {T} d.
Arguments d_world {T} d.
Arguments d_tx {T} d.

Module Peer.
Definition with_session (p : Peer) (s : Session) : Peer :=
  {| p_session := s; p_retransmit := p_retransmit p; p_pending := p_pending p;
     p_dedup := p_dedup p; p_abandoned := p_abandoned p;
     p_abandoned_unqueued := p_abandoned_unqueued p; p_abandoned_count := p_abandoned_count p;
     p_reassembly := p_reassembly p; p_next_message := p_next_message p; p_queue := p_queue p;
     p_primary := p_primary p; p_secondary := p_secondary p; p_coding := p_coding p |}.

Definition with_retransmit (p : Peer) (q : RetransmitQueue) : Peer :=
  {| p_session := p_session p; p_retransmit := q; p_pending := p_pending p;
     p_dedup := p_dedup p; p_abandoned := p_abandoned p;
     p_abandoned_unqueued := p_abandoned_unqueued p; p_abandoned_count := p_abandoned_count p;
     p_reassembly := p_reassembly p; p_next_message := p_next_message p; p_queue := p_queue p;
     p_primary := p_primary p; p_secondary := p_secondary p; p_coding := p_coding p |}.

Definition with_pending (p : Peer) (l : list Pending) : Peer :=
  {| p_session := p_session p; p_retransmit := p_retransmit p; p_pending := l;
     p_dedup := p_dedup p; p_abandoned := p_abandoned p;
     p_abandoned_unqueued := p_abandoned_unqueued p; p_abandoned_count := p_abandoned_count p;
     p_reassembly := p_reassembly p; p_next_message := p_next_message p; p_queue := p_queue p;
     p_primary := p_primary p; p_secondary := p_secondary p; p_coding := p_coding p |}.

Definition with_dedup (p : Peer) (w : DedupWindow) : Peer :=
  {| p_session := p_session p; p_retransmit := p_retransmit p; p_pending := p_pending p;
     p_dedup := w; p_abandoned := p_abandoned p;
     p_abandoned_unqueued := p_abandoned_unqueued p; p_abandoned_count := p_abandoned_count p;
     p_reassembly := p_reassembly p; p_next_message := p_next_message p; p_queue := p_queue p;
     p_primary := p_primary p; p_secondary := p_secondary p; p_coding := p_coding p |}.

Definition with_abandoned (p : Peer) (l : list Z) (unqueued count : Z) : Peer :=
  {| p_session := p_session p; p_retransmit := p_retransmit p; p_pending := p_pending p;
     p_dedup := p_dedup p; p_abandoned := l;
     p_abandoned_unqueued := unqueued; p_abandoned_count := count;
     p_reassembly := p_reassembly p; p_next_message := p_next_message p; p_queue := p_queue p;
     p_primary := p_primary p; p_secondary := p_secondary p; p_coding := p_coding p |}.

Definition with_reassembly (p : Peer) (r : Reassembly) : Peer :=
  {| p_session := p_session p; p_retransmit := p_retransmit p; p_pending := p_pending p;
     p_dedup := p_dedup p; p_abandoned := p_abandoned p;
     p_abandoned_unqueued := p_abandoned_unqueued p; p_abandoned_count := p_abandoned_count p;
     p_reassembly := r; p_next_message := p_next_message p; p_queue := p_queue p;
     p_primary := p_primary p; p_secondary := p_secondary p; p_coding := p_coding p |}.

Definition with_queue (p : Peer) (q : list Queued) : Peer :=
  {| p_session := p_session p; p_retransmit := p_retransmit p; p_pending := p_pending p;
     p_dedup := p_dedup p; p_abandoned := p_abandoned p;
     p_abandoned_unqueued := p_abandoned_unqueued p; p_abandoned_count := p_abandoned_count p;
     p_reassembly := p_reassembly p; p_next_message := p_next_message p; p_queue := q;
     p_primary := p_primary p; p_secondary := p_secondary p; p_coding := p_coding p |}.

Definition with_next_message (p : Peer) (n : Z) : Peer :=
  {| p_session := p_session p; p_retransmit := p_retransmit p; p_pending := p_pending p;
     p_dedup := p_dedup p; p_abandoned := p_abandoned p;
     p_abandoned_unqueued := p_abandoned_unqueued p; p_abandoned_count := p_abandoned_count p;
     p_reassembly := p_reassembly p; p_next_message := n; p_queue := p_queue p;
     p_primary := p_primary p; p_secondary := p_secondary p; p_coding := p_coding p |}.

Definition with_scratch (p : Peer) (primary secondary : bytes) : Peer :=
  {| p_session := p_session p; p_retransmit := p_retransmit p; p_pending := p_pending p;
     p_dedup := p_dedup p; p_abandoned := p_abandoned p;
     p_abandoned_unqueued := p_abandoned_unqueued p; p_abandoned_count := p_abandoned_count p;
     p_reassembly := p_reassembly p; p_next_message := p_next_message p; p_queue := p_queue p;
     p_primary := primary; p_secondary := secondary; p_coding := p_coding p |}.

Definition with_coding (p : Peer) (c : CodingDecision) : Peer :=
  {| p_session := p_session p; p_retransmit := p_retransmit p; p_pending := p_pending p;
     p_dedup := p_dedup p; p_abandoned := p_abandoned p;
     p_abandoned_unqueued := p_abandoned_unqueued p; p_abandoned_count := p_abandoned_count p;
     p_reassembly := p_reassembly p; p_next_message := p_next_message p; p_queue := p_queue p;
     p_primary := p_primary p; p_secondary := p_secondary p; p_coding := c |}.

Section peer.
Context `{Crypto} `{ZstdLib}.

Definition new (session : Session) (buffer_hint : Z) : Peer :=
  {| p_session := session; p_retransmit := RetransmitQueue.new; p_pending := [];
     p_dedup := DedupWindow.new; p_abandoned := []; p_abandoned_unqueued := 0;
     p_abandoned_count := 0; p_reassembly := Reassembly.new; p_next_message := 0; p_queue := [];
     p_primary := zeros buffer_hint; p_secondary := zeros buffer_hint;
     p_coding := CodingDecision.new |}.

Definition max_payload (p : Peer) (datagram_limit : Z) : Z :=
  Z.min (Session.max_payload (p_session p)) (saturating_sub datagram_limit DATA_OVERHEAD).

Definition payload_room (p : Peer) (datagram_limit : Z) (reliable fragmented : bool) : Z :=
  let room := max_payload p datagram_limit in
  let room := if reliable then saturating_sub room MESSAGE_ID_LEN else room in
  if fragmented then saturating_sub room FRAGMENT_LEN else room.

Definition max_fragment_payload (p : Peer) (datagram_limit : Z) : Z :=
  payload_room p datagram_limit true true.

(** The [match (message_id, fragment)] both arms of [seal] end in. *)
Definition seal_session (s : Session) (payload : bytes) (message_id : option Z)
    (fragment : option Fragment) (fl : Z) (tx : bytes) : Session * HostResult (bytes * Z) :=
  let (s, r) :=
    match message_id, fragment with
    | Some id, Some f => Session.seal_fragment s payload id f fl tx
    | Some id, None => Session.seal_reliable s payload id fl tx
    | None, _ => Session.seal s payload fl tx
    end in
  (s, map_err Protocol r).

(** The coding attempt of [seal]: the peer after it (its counters and its
    working buffers) and the outcome. *)
Definition attempt_coding (p : Peer) (data : bytes) (payload_type : PayloadType) (must_try : bool)
  : Peer * HostResult (option (CodecHeader * Z)) :=
  let (coding, wanted) := CodingDecision.should_code (p_coding p) payload_type in
  let p := with_coding p coding in
  if wanted || must_try then
    match encode_payload data payload_type (s_peer_caps (p_session p)) (p_primary p) (p_secondary p) with
    | Ok (primary, secondary, attempt) =>
        let p := with_scratch p primary secondary in
        let p := if must_try then p
          else with_coding p (CodingDecision.record (p_coding p) (is_some attempt)) in
        (p, Ok attempt)
    | Err e => (p, Err (Protocol e))
    | Panic => (p, Panic)
    end
  else (p, Ok None).

Definition seal (p : Peer) (data : bytes) (payload_type : PayloadType) (message_id : option Z)
    (fragment : option Fragment) (datagram_limit : Z) (tx : bytes)
  : Peer * HostResult (bytes * Z) :=
  let limit := payload_room p datagram_limit (is_some message_id) (is_some fragment) in
  let must_try := limit <? len data in
  let! (p, coded) := attempt_coding p data payload_type must_try in
  let uncoded :=
    if limit <? len data then (p, Err (HostPayloadTooLarge (len data) limit)) else
    let (s, r) := seal_session (p_session p) data message_id fragment 0 tx in
    (with_session p s, r) in
  match coded with
  | Some (header, n) =>
      if CODEC_HEADER_LEN + n <=? limit then
        let total := CODEC_HEADER_LEN + n in
        let secondary := ensure (p_secondary p) total in
        let! (p, secondary) :=
          (with_scratch p (p_primary p) secondary,
           map_err Protocol (CodecHeader.encode header secondary)) in
        let! (p, coded) := (p, slice (p_primary p) 0 n) in
        let! (p, secondary) := (p, copy_range secondary CODEC_HEADER_LEN total coded) in
        let p := with_scratch p (p_primary p) secondary in
        let! (p, payload) := (p, slice secondary 0 total) in
        let (s, r) := seal_session (p_session p) payload message_id fragment FLAG_COMPRESSED tx in
        (with_session p s, r)
      else uncoded
  | None => uncoded
  end.

Definition queue_message (p : Peer) (data : bytes) (payload_type : PayloadType) (datagram_limit : Z)
  : Peer * HostResult unit :=
  if negb (Capabilities.supports_reliable (s_peer_caps (p_session p)))
  then (p, Err ReliabilityUnsupported) else
  if MAX_QUEUED <=? len (p_queue p) then (p, Err (Protocol WindowFull)) else
  let per_fragment := max_fragment_payload p datagram_limit in
  match fragments_needed (len data) per_fragment with
  | None => (p, Err (HostPayloadTooLarge (len data) MAX_MESSAGE_LEN))
  | Some count =>
      let message := p_next_message p in
      let p := with_next_message p (wrapping_add32 (p_next_message p) 1) in
      (with_queue p (p_queue p ++
        [{| q_message := message; q_payload_type := payload_type; q_data := data;
            q_per_fragment := per_fragment; q_limit := datagram_limit; q_count := count;
            q_next := 0; q_outstanding := []; q_lost := false |}]), Ok tt)
  end.

Definition queued (p : Peer) : Z := len (p_queue p).

(** A job's fields that [drive_queue] changes. *)
Definition job_with (job : Queued) (next : Z) (outstanding : list Z) (lost : bool) : Queued :=
  {| q_message := q_message job; q_payload_type := q_payload_type job; q_data := q_data job;
     q_per_fragment := q_per_fragment job; q_limit := q_limit job; q_count := q_count job;
     q_next := next; q_outstanding := outstanding; q_lost := lost |}.

(** [job.outstanding.retain(|f| !lost.contains(f))], and the flag. *)
Definition mark_lost (job : Queued) (lost : list Z) : Queued :=
  let gone := existsb (fun f => bool_decide (f ∈ lost)) (q_outstanding job) in
  job_with job (q_next job) (filter (fun f => f ∉ lost) (q_outstanding job)) (q_lost job || gone).

Section driving.
Context {T : Type} (send : T -> bytes -> T * HostResult unit).

Definition with_peer (d : Driving T) (p : Peer) : Driving T := mkDriving p (d_world d) (d_tx d).

(** [let n = self.seal(..., tx)?; send(&tx[..n])?] on the peer, the buffer and
    the world. *)
Definition seal_and_send (d : Driving T) (data : bytes) (payload_type : PayloadType)
    (message_id : option Z) (fragment : option Fragment) (limit : Z)
  : Driving T * HostResult unit :=
  let (p, r) := seal (d_peer d) data payload_type message_id fragment limit (d_tx d) in
  let d := with_peer d p in
  let! (d, sealed) := (d, r) in
  let d := mkDriving (d_peer d) (d_world d) sealed.1 in
  let! (d, frame) := (d, slice (d_tx d) 0 sealed.2) in
  let (w, r) := send (d_world d) frame in
  (mkDriving (d_peer d) w (d_tx d), r).

(** One turn of [drive_queue]'s loop with a window slot in hand. *)
Definition feed_one (d : Driving T) (job : Queued) (rest : list Queued) (id : Z)
  : Driving T * HostResult Queued :=
  let start := q_next job * q_per_fragment job in
  let stop := Z.min (start + q_per_fragment job) (len (q_data job)) in
  let! (d, chunk) := (d, slice (q_data job) start stop) in
  let fragment := {| message := q_message job; frag_index := q_next job; count := q_count job |} in
  let! (d, _) := seal_and_send d chunk (q_payload_type job) (Some id) (Some fragment) (q_limit job) in
  let p := d_peer d in
  let p := with_pending p (p_pending p ++
    [{| pd_id := id; pd_payload_type := q_payload_type job; pd_data := chunk;
        pd_fragment := Some fragment; pd_limit := q_limit job |}]) in
  let job := job_with job (q_next job + 1) (q_outstanding job ++ [id]) (q_lost job) in
  (with_peer d (with_queue p (job :: rest)), Ok job).

(** The loop; [fuel] is the number of fragments not yet fed, so running out of
    it is the loop's own exit. *)
Fixpoint feed (fuel : nat) (now_ms : Z) (d : Driving T) (job : Queued) (rest : list Queued)
  : Driving T * HostResult Queued :=
  match fuel with
  | O => (d, Ok job)
  | S fuel =>
      if q_lost job || (q_count job <=? q_next job) then (d, Ok job) else
      let (q, r) := RetransmitQueue.register (p_retransmit (d_peer d)) now_ms in
      let d := with_peer d (with_retransmit (d_peer d) q) in
      match r with
      | Err WindowFull => (d, Ok job)
      | Err e => (d, Err (Protocol e))
      | Panic => (d, Panic)
      | Ok id =>
          let! (d, job) := feed_one d job rest id in
          feed fuel now_ms d job rest
      end
  end.

Definition drive_queue (d : Driving T) (now_ms : Z) : Driving T * HostResult (option Finished) :=
  let p := d_peer d in
  let lost := p_abandoned p in
  let p := with_abandoned p [] (p_abandoned_unqueued p) (p_abandoned_count p) in
  match p_queue p with
  | [] => (with_peer d p, Ok None)
  | job :: rest =>
      let job := mark_lost job lost in
      let d := with_peer d (with_queue p (job :: rest)) in
      let! (d, job) := feed (Z.to_nat (q_count job - q_next job)) now_ms d job rest in
      let p := d_peer d in
      let outstanding :=
        filter (fun f => existsb (fun pd => pd_id pd =? f) (p_pending p) = true) (q_outstanding job) in
      let job := job_with job (q_next job) outstanding (q_lost job) in
      let done := q_lost job || ((q_next job =? q_count job) && (len (q_outstanding job) =? 0)) in
      if negb done then (with_peer d (with_queue p (job :: rest)), Ok None)
      else (with_peer d (with_queue p rest), Ok (Some {| f_delivered := negb (q_lost job) |}))
  end.

Definition resend (d : Driving T) (id : Z) : Driving T * HostResult unit :=
  match list_find (fun pd => pd_id pd = id) (p_pending (d_peer d)) with
  | None => (d, Ok tt)
  | Some (_, pd) =>
      seal_and_send d (pd_data pd) (pd_payload_type pd) (Some id) (pd_fragment pd) (pd_limit pd)
  end.

Definition abandon (p : Peer) (id : Z) : Peer :=
  let p := with_pending p (filter (fun pd => pd_id pd <> id) (p_pending p)) in
  let owned := existsb (fun job => bool_decide (id ∈ q_outstanding job)) (p_queue p) in
  let unqueued := if owned then p_abandoned_unqueued p
    else saturating_add U32_MAX (p_abandoned_unqueued p) 1 in
  with_abandoned p (p_abandoned p ++ [id]) unqueued
    (saturating_add U32_MAX (p_abandoned_count p) 1).

Fixpoint drive_items (d : Driving T) (items : list Due) : Driving T * HostResult unit :=
  match items with
  | [] => (d, Ok tt)
  | Retransmit id :: items =>
      let! (d, _) := resend d id in drive_items d items
  | GaveUp id :: items => drive_items (with_peer d (abandon (d_peer d) id)) items
  end.

Definition drive_retransmits (d : Driving T) (now_ms : Z) : Driving T * HostResult unit :=
  let '(q, due, count) :=
    RetransmitQueue.poll (p_retransmit (d_peer d)) now_ms
      (replicate (Z.to_nat MAX_IN_FLIGHT) (Retransmit 0)) in
  drive_items (with_peer d (with_retransmit (d_peer d) q)) (takez count due).
End driving.

(** Path frames. *)
Definition challenge (p : Peer) (token out : bytes) : Peer * HostResult (bytes * Z) :=
  let (s, r) := Session.seal_path_challenge (p_session p) token out in
  (with_session p s, map_err Protocol r).

Definition probe (p : Peer) (token : bytes) (size : Z) (out : bytes)
  : Peer * HostResult (bytes * Z) :=
  let (s, r) := Session.seal_path_probe (p_session p) token size out in
  (with_session p s, map_err Protocol r).

Definition forget_path (p : Peer) : Peer :=
  with_retransmit p (RetransmitQueue.forget_path (p_retransmit p)).

Definition apply_ack (p : Peer) (ack : Ack) (now_ms : Z) : Peer :=
  let '(q, acked, count) :=
    RetransmitQueue.on_ack (p_retransmit p) ack now_ms (zeros MAX_IN_FLIGHT) in
  let p := with_retransmit p q in
  fold_left (fun p id => with_pending p (filter (fun pd => pd_id pd <> id) (p_pending p)))
    (takez count acked) p.

(** The fragment branch of [ingest]. *)
Definition ingest_fragment (p : Peer) (f : Fragment) (body : bytes) (compressed : bool)
  : Peer * HostResult Ingested :=
  let piece := zeros (decoded_capacity body compressed) in
  let (scratch, written) := deliver body compressed (p_secondary p) piece in
  let p := with_scratch p (p_primary p) scratch in
  match written with
  | Panic => (p, Panic)
  | Err _ => (p, Ok Nothing)
  | Ok (piece, n) =>
      let (r, res) := Reassembly.accept (p_reassembly p) f (takez n piece) in
      let p := with_reassembly p r in
      match res with
      | Ok (Some whole) => (p, Ok (IngestedMessage whole))
      | Ok None => (p, Ok Nothing)
      | Err _ => (p, Ok Nothing)
      | Panic => (p, Panic)
      end
  end.

(** [ingest]: the peer, the reply, and the verdict with the frame buffer. *)
Definition ingest (p : Peer) (frame : bytes) (now_ms : Z) (ack : bytes)
  : Peer * Reply * HostResult (Ingested * bytes) :=
  let none := mkReply ack 0 in
  let (s, r) := Session.open (p_session p) frame in
  let p := with_session p s in
  match r with
  | Panic => (p, none, Panic)
  | Err _ => (p, none, Ok (Rejected, frame))
  | Ok (opened, frame) =>
      let body := slice frame HEADER_LEN (HEADER_LEN + o_len opened) in
      match frame_type (o_header opened) with
      | PathChallenge =>
          if negb (o_len opened =? PATH_TOKEN_LEN) then (p, none, Ok (Nothing, frame)) else
          match slice frame HEADER_LEN (HEADER_LEN + PATH_TOKEN_LEN) with
          | Ok token =>
              let (s, r) := Session.seal_path_response (p_session p) token ack in
              let p := with_session p s in
              match r with
              | Ok (ack, n) => (p, mkReply ack n, Ok (Nothing, frame))
              | Err e => (p, none, Err (Protocol e))
              | Panic => (p, none, Panic)
              end
          | Err e => (p, none, Err e)
          | Panic => (p, none, Panic)
          end
      | PathResponse =>
          if negb (o_len opened =? PATH_TOKEN_LEN) then (p, none, Ok (Nothing, frame)) else
          match slice frame HEADER_LEN (HEADER_LEN + PATH_TOKEN_LEN) with
          | Ok token => (p, none, Ok (PathValidated token, frame))
          | Err e => (p, none, Err e)
          | Panic => (p, none, Panic)
          end
      | AckFrame =>
          match body with
          | Ok block =>
              match Ack.decode block with
              | Ok parsed => (apply_ack p parsed now_ms, none, Ok (Nothing, frame))
              | Err _ => (p, none, Ok (Nothing, frame))
              | Panic => (p, none, Panic)
              end
          | Err e => (p, none, Err e)
          | Panic => (p, none, Panic)
          end
      | _ =>
          let '(p, reply, go_on) :=
            match o_message_id opened with
            | None => (p, none, Ok true)
            | Some id =>
                let (dedup, is_new) := DedupWindow.accept (p_dedup p) id in
                let p := with_dedup p dedup in
                let (s, r) := Session.seal_ack (p_session p) (DedupWindow.to_ack dedup) ack in
                let p := with_session p s in
                match r with
                | Ok (ack, n) => (p, mkReply ack n, Ok is_new)
                | Err e => (p, none, Err (Protocol e))
                | Panic => (p, none, Panic)
                end
            end in
          match go_on with
          | Err e => (p, reply, Err e)
          | Panic => (p, reply, Panic)
          | Ok false => (p, reply, Ok (Nothing, frame))
          | Ok true =>
              let compressed := Header.is_compressed (o_header opened) in
              match o_fragment opened with
              | Some f =>
                  match body with
                  | Ok body =>
                      let (p, r) := ingest_fragment p f body compressed in
                      (p, reply, let? v := r in Ok (v, frame))
                  | Err e => (p, reply, Err e)
                  | Panic => (p, reply, Panic)
                  end
              | None => (p, reply, Ok (IngestedData (o_len opened) compressed, frame))
              end
          end
      end
  end.
End peer.
End Peer.
Import Peer.

(** ** Lemmas *)

(** What a frame that was sealed must have satisfied. *)
Lemma seal_success `{Crypto} s t payload mid frag fl padding out s' out' n :
  Session.seal_frame_padded s t payload mid frag fl padding out = (s', Ok (out', n)) ->
  exists plen, Session.is_padded padding && (U16_MAX <? inner_len_of mid frag payload) = false /\
    Session.plaintext_len_of padding (inner_len_of mid frag payload) = Ok plen /\
    n = plen + DATA_OVERHEAD /\ plen + DATA_OVERHEAD <= len out /\ s_send_seq s <> U64_MAX.
Proof.
  intros H0. pose proof (seal_total _ _ _ _ _ _ _ _ _ _ _ H0) as (plen & Hplen & ->).
  exists plen. revert H0. unfold Session.seal_frame_padded, inner_len_of in *.
  destruct (Z.eqb_spec (s_send_seq s) U64_MAX); [done|].
  destruct Session.advance_send as [s1 [[]|e|]]; [|done..].
  unfold checked_add at 1. zcase; cbn [ok_or]; [|done].
  unfold checked_add at 1. zcase; cbn [ok_or]; [|done].
  destruct (Session.is_padded padding && _); [done|]. rewrite Hplen.
  unfold checked_add. zcase; cbn [ok_or]; [|done]. zcase; [done|]. done.
Qed.

(** [deliver] turns [payload] back into [data], in any buffer that holds it. *)
Definition carries `{ZstdLib} (payload : bytes) (compressed : bool) (data : bytes) : Prop :=
  decoded_capacity payload compressed = len data /\
  forall scratch out, len data <= len out ->
    exists scratch' out', deliver payload compressed scratch out = (scratch', Ok (out', len data)) /\
      takez (len data) out' = data.

Section facts.
Context `{CL : CryptoLaws} {z : ZstdLib} {zl : ZstdLaws z}.

Lemma carries_plain data : carries data false data.
Proof.
  split; [done|]. intros scratch out Hl. unfold deliver.
  rewrite (proj2 (Z.ltb_ge _ _)) by done. rewrite copy_range_at by done.
  do 2 eexists. split; [done|]. by apply takez_app.
Qed.

Lemma attempt_coding_spec p data pt must :
  bytes_ok data -> PayloadType.wf pt -> is_u16 (cap_codecs (s_peer_caps (p_session p))) ->
  exists p1 coded, attempt_coding p data pt must = (p1, Ok coded) /\
    p_session p1 = p_session p /\
    forall h n, coded = Some (h, n) ->
      CodecHeader.wf h /\ 0 <= n <= len (p_primary p1) /\
      carries (CodecHeader.wire h ++ takez n (p_primary p1)) true data.
Proof.
  intros Hok Hpt Hc. unfold attempt_coding.
  destruct (CodingDecision.should_code (p_coding p) pt) as [c wanted].
  destruct (wanted || must); [|do 2 eexists; split; [done|]; split; done].
  destruct (encode_payload_spec data pt (s_peer_caps (p_session p)) (p_primary p) (p_secondary p))
    as (prim & sec & r & He & Hr); [done..|]. cbn [with_coding p_session p_primary p_secondary].
  rewrite He. do 2 eexists. split; [done|]. split; [by destruct must|].
  intros h n ->. destruct (Hr h n eq_refl) as (Hh & Hol & _ & _ & Hn & _).
  assert (p_primary (if must then with_scratch (with_coding p c) prim sec else
     with_coding (with_scratch (with_coding p c) prim sec)
       (CodingDecision.record (p_coding (with_scratch (with_coding p c) prim sec))
          (is_some (Some (h, n))))) = prim) as -> by (by destruct must).
  split; [done|]. split; [done|]. split.
  - unfold decoded_capacity. cbn [negb]. by rewrite codec_decode_wire.
  - intros scratch out Hl. cbn [deliver].
    by apply (payload_coding_roundtrip data pt _ _ _ _ _ _ _ _ _ Hok Hpt Hc He).
Qed.

(** The padding a session applies. *)
Definition padding_of (s : Session) : Padding := if s_padding s then PadBlock else PadNone.

(** Only a reliable frame carries a fragment. *)
Definition framing (mid : option Z) (frag : option Fragment) : Prop :=
  id_ok mid /\ fragment_ok frag /\ (mid = None -> frag = None).

Lemma seal_session_eq s payload mid frag fl tx :
  framing mid frag ->
  seal_session s payload mid frag fl tx =
  let (s', r) := Session.seal_frame_padded s Data payload mid frag fl (padding_of s) tx in
  (s', map_err Protocol r).
Proof.
  intros (_ & _ & Hf). unfold seal_session.
  destruct mid; [by destruct frag|]. by rewrite Hf.
Qed.

(** A successful [Peer.seal]: some payload within the room, sealed by the
    session, from which the receiver recovers the data. *)
Lemma peer_seal_spec p data pt mid frag limit tx p' tx' n :
  bytes_ok data -> PayloadType.wf pt -> is_u16 (cap_codecs (s_peer_caps (p_session p))) ->
  framing mid frag ->
  Peer.seal p data pt mid frag limit tx = (p', Ok (tx', n)) ->
  exists payload compressed,
    len payload <= payload_room p limit (is_some mid) (is_some frag) /\
    carries payload compressed data /\
    Session.seal_frame_padded (p_session p) Data payload mid frag
      (if compressed then FLAG_COMPRESSED else 0) (padding_of (p_session p)) tx
      = (p_session p', Ok (tx', n)).
Proof.
  intros Hok Hpt Hc Hf H0. unfold Peer.seal in H0.
  set (room := payload_room p limit (is_some mid) (is_some frag)) in *.
  destruct (attempt_coding_spec p data pt (room <? len data) Hok Hpt Hc)
    as (p1 & coded & Ha & Hs & Hcoded). rewrite Ha in H0.
  assert ((if room <? len data then (p1, Err (HostPayloadTooLarge (len data) room)) else
    let (s, r) := seal_session (p_session p1) data mid frag 0 tx in (with_session p1 s, r))
    = (p', Ok (tx', n)) ->
    exists payload compressed, len payload <= room /\ carries payload compressed data /\
      Session.seal_frame_padded (p_session p) Data payload mid frag
        (if compressed : bool then FLAG_COMPRESSED else 0) (padding_of (p_session p)) tx
        = (p_session p', Ok (tx', n))) as Hplain.
  { destruct (Z.ltb_spec room (len data)); [done|]. rewrite seal_session_eq, Hs by done. intros He.
    exists data, false. split; [done|]. split; [apply carries_plain|].
    destruct (Session.seal_frame_padded _ _ _ _ _ _ _ _) as [s' [[]|e|]]; cbn in He; simplify_eq; done. }
  destruct coded as [[h k]|]; [|by apply Hplain].
  destruct (Z.leb_spec (CODEC_HEADER_LEN + k) room) as [Hle|]; [|by apply Hplain].
  destruct (Hcoded h k eq_refl) as (Hh & Hk & Hcar).
  rewrite codec_encode_ok in H0 by len_lia. cbn [map_err with_scratch p_primary] in H0.
  rewrite (slice_ok (p_primary p1) 0 k), Z.sub_0_r, (dropz_0 (p_primary p1)) in H0 by lia.
  rewrite (copy_range_next (CodecHeader.wire h)) in H0 by len_lia.
  rewrite slice_head in H0 by len_lia.
  cbn [with_scratch p_session] in H0. rewrite seal_session_eq, Hs in H0 by done.
  eexists _, true. split; [|split; [exact Hcar|]]; [len_lia|].
  destruct (Session.seal_frame_padded _ _ _ _ _ _ _ _) as [s' [[]|e|]]; cbn in H0; simplify_eq; done.
Qed.

Lemma payload_room_le p limit r f :
  0 <= max_frame_size (s_peer_caps (p_session p)) ->
  payload_room p limit r f <= max_frame_size (s_peer_caps (p_session p)).
Proof.
  unfold payload_room, max_payload, Session.max_payload, saturating_sub.
  destruct r, f; clia.
Qed.

Lemma plaintext_len_bound padding inner plen :
  (padding = PadNone \/ padding = PadBlock) -> 0 <= inner ->
  Session.plaintext_len_of padding inner = Ok plen -> plen <= inner + LEN_PREFIX + PAD_BLOCK.
Proof.
  intros [-> | ->] Hi; cbn [Session.plaintext_len_of].
  - intros [= <-]. clia.
  - unfold checked_add. zcase; cbn [ok_or]; [|done]. intros [= <-].
    pose proof (next_multiple_spec (LEN_PREFIX + inner) ltac:(clia)). lia.
Qed.

(** An acknowledgement always fits the reply buffer. *)
Lemma seal_ack_ok k s a ack :
  sends k s -> s_send_seq s <> U64_MAX -> PAD_BLOCK + DATA_OVERHEAD <= len ack ->
  exists cs g q ack' n,
    Session.seal_ack s a ack = (Session.set_send s cs g q, Ok (ack', n)) /\ 0 < n.
Proof.
  intros Hs Hq Hl. unfold Session.seal_ack.
  assert (exists block, Ack.encode a (zeros ACK_BLOCK_LEN) = Ok block /\ len block = ACK_BLOCK_LEN)
    as (block & -> & Hb).
  { unfold Ack.encode. rewrite (proj2 (Z.ltb_ge _ _)) by len_lia.
    rewrite copy_range_at by len_lia. rewrite copy_range_next by len_lia.
    eexists. split; [done|]. len_lia. }
  unfold Session.seal_frame.
  assert (exists plen, Session.plaintext_len_of (if s_padding s then PadBlock else PadNone)
    (inner_len_of None None block) = Ok plen /\ 0 <= plen <= PAD_BLOCK) as (plen & Hp & Hle).
  { unfold inner_len_of. rewrite Hb. destruct (s_padding s); eexists; (split; [by vm_compute|]);
      vm_compute; split; congruence. }
  destruct (seal_spec k s AckFrame block None None 0 (if s_padding s then PadBlock else PadNone) ack plen)
    as (ct & tag & rest & _ & _ & _ & Heq); [done|done| |done|clia|clia|].
  { unfold inner_len_of. rewrite Hb. destruct (s_padding s); by vm_compute. }
  rewrite Heq. do 5 eexists. split; [done|]. clia.
Qed.

Lemma is_compressed_flag (c : bool) mid frag padding t sid seq :
  Header.is_compressed {| frame_type := t;
    flags := Session.frame_flags (if c then FLAG_COMPRESSED else 0) mid frag padding;
    session_id := sid; sequence := seq |} = c.
Proof. destruct c, mid, frag, padding; by vm_compute. Qed.

(** A sealed frame opened by the other end. *)
Lemma peer_frame_opens k0 a b data pt mid frag limit tx a' tx' n :
  bytes_ok data -> PayloadType.wf pt -> is_u16 (cap_codecs (s_peer_caps (p_session a))) ->
  is_u16 (max_frame_size (s_peer_caps (p_session a))) -> framing mid frag ->
  in_step k0 (p_session a) b ->
  Peer.seal a data pt mid frag limit tx = (a', Ok (tx', n)) ->
  exists payload compressed h recv prev gen replay tail,
    carries payload compressed data /\ frame_type h = Data /\ Header.is_compressed h = compressed /\
    Session.open b (takez n tx') =
      (Session.set_recv b recv prev gen replay,
       Ok ({| o_header := h; o_len := len payload; o_message_id := mid; o_fragment := frag |},
           Header.wire h ++ payload ++ tail)) /\
    in_step k0 (p_session a') (Session.set_recv b recv prev gen replay).
Proof.
  intros Hok Hpt Hc Hm Hf Hin H0.
  destruct (peer_seal_spec a data pt mid frag limit tx a' tx' n)
    as (payload & c & Hlen & Hcar & Hseal); [done..|].
  destruct (seal_success _ _ _ _ _ _ _ _ _ _ _ Hseal) as (plen & Hpad & Hplen & -> & Hout & Hq).
  pose proof (payload_room_le a limit (is_some mid) (is_some frag) ltac:(lia)).
  pose proof (prefix_bounds (padding_of (p_session a)) mid frag) as (_ & ? & ?).
  pose proof (inner_len_nonneg mid frag payload).
  assert (plen <= AEAD_MAX).
  { apply plaintext_len_bound in Hplen; [|unfold padding_of; destruct (s_padding _); auto|done].
    unfold inner_len_of in *. clia. }
  destruct Hf as (Hid & Hfr & _).
  destruct (step_exchange k0 (p_session a) b Data payload mid frag
    (if c then FLAG_COMPRESSED else 0) (padding_of (p_session a)) tx plen)
    as (a1 & b1 & out1 & tail & Hs & Ho & Hin' & _ & _ & _ & (recv & prev & gen & replay & ->)); try done.
  { destruct c; [by right|by left]. }
  rewrite Hseal in Hs. simplify_eq.
  exists payload, c. do 6 eexists. split; [done|]. split; [|split; [|split; [exact Ho|done]]]; [done|].
  apply is_compressed_flag.
Qed.
End facts.

(** What becomes of a piece the reassembler took in. *)
Definition verdict (r : HostResult (option bytes)) : Ingested :=
  match r with Ok (Some whole) => IngestedMessage whole | _ => Nothing end.

Section ingestion.
Context `{CL : CryptoLaws} {z : ZstdLib} {zl : ZstdLaws z}.

Lemma ingest_fragment_spec p f payload compressed data :
  carries payload compressed data -> reassembly_wf (p_reassembly p) -> Fragment.coherent f ->
  exists p', ingest_fragment p f payload compressed
      = (p', Ok (verdict (snd (Reassembly.accept (p_reassembly p) f data)))) /\
    p_session p' = p_session p /\
    p_reassembly p' = fst (Reassembly.accept (p_reassembly p) f data).
Proof.
  intros [Hcap Hdel] Hwf Hf. unfold ingest_fragment. rewrite Hcap.
  destruct (Hdel (p_secondary p) (zeros (len data))) as (sc & out & -> & ->); [len_lia|].
  cbn [with_scratch p_reassembly].
  destruct (accept_wf (p_reassembly p) f data Hwf Hf) as [_ Hp].
  destruct (Reassembly.accept (p_reassembly p) f data) as [r [[w|]|e|]]; cbn [fst snd] in *;
    [eauto..|done].
Qed.

(** The acknowledgement step of [ingest]. *)
Definition acknowledged (k : bytes) (b : Peer) (mid : option Z) : Prop :=
  match mid with
  | None => True
  | Some id => snd (DedupWindow.accept (p_dedup b) id) = true /\ sends k (p_session b) /\
      s_send_seq (p_session b) <> U64_MAX
  end.

Lemma peer_exchange k0 k1 a b data pt mid frag limit tx a' tx' n now ack :
  bytes_ok data -> PayloadType.wf pt -> is_u16 (cap_codecs (s_peer_caps (p_session a))) ->
  is_u16 (max_frame_size (s_peer_caps (p_session a))) -> framing mid frag ->
  in_step k0 (p_session a) (p_session b) -> acknowledged k1 b mid ->
  reassembly_wf (p_reassembly b) -> PAD_BLOCK + DATA_OVERHEAD <= len ack ->
  Peer.seal a data pt mid frag limit tx = (a', Ok (tx', n)) ->
  exists b' reply v frame,
    ingest b (takez n tx') now ack = (b', reply, Ok (v, frame)) /\
    in_step k0 (p_session a') (p_session b') /\ (0 < r_len reply <-> is_some mid = true) /\
    match frag with
    | Some f =>
        v = verdict (snd (Reassembly.accept (p_reassembly b) f data)) /\
        p_reassembly b' = fst (Reassembly.accept (p_reassembly b) f data)
    | None =>
        exists m c, v = IngestedData m c /\
          slice (E:=HostError) frame HEADER_LEN (HEADER_LEN + m) = Ok (takez m (dropz HEADER_LEN frame)) /\
          carries (takez m (dropz HEADER_LEN frame)) c data
    end.
Proof.
  intros Hok Hpt Hc Hm Hf Hin Hack Hwf Hl Hseal.
  destruct (peer_frame_opens k0 a (p_session b) data pt mid frag limit tx a' tx' n)
    as (payload & c & h & recv & prev & gen & replay & tail & Hcar & Ht & Hcomp & Hopen & Hin'); [done..|].
  unfold ingest. rewrite Hopen. cbn [o_header o_len o_message_id o_fragment].
  rewrite Ht, Hcomp. cbn [with_session p_session p_dedup].
  assert (slice (E:=HostError) (Header.wire h ++ payload ++ tail) HEADER_LEN (HEADER_LEN + len payload)
    = Ok payload) as Hbody by (apply slice_mid; by rewrite len_header_wire).
  assert (takez (len payload) (dropz HEADER_LEN (Header.wire h ++ payload ++ tail)) = payload) as Hread.
  { rewrite dropz_app by (by rewrite len_header_wire). by apply takez_app. }
  destruct mid as [id|]; cbn [acknowledged] in Hack.
  - destruct Hack as (Hnew & Hs & Hq).
    destruct (DedupWindow.accept (p_dedup b) id) as [w fresh]. cbn [snd] in Hnew. subst fresh.
    cbn [with_dedup with_session p_session].
    destruct (seal_ack_ok k1 (Session.set_recv (p_session b) recv prev gen replay)
      (DedupWindow.to_ack w) ack) as (cs & g & q & ack' & k & -> & Hk); [done..|].
    assert (0 < k <-> is_some (Some id) = true) as Hr by (cbn; tauto).
    destruct frag as [f|].
    + destruct Hf as (_ & Hfr & _). rewrite Hbody.
      match goal with |- context [ingest_fragment ?p f payload c] =>
        destruct (ingest_fragment_spec p f payload c data Hcar Hwf Hfr) as (b' & -> & Hs' & Hr') end.
      do 4 eexists. split; [done|]. split; [by rewrite Hs'|]. split; [exact Hr|done].
    + do 4 eexists. split; [done|]. split; [done|]. split; [exact Hr|].
      do 2 eexists. split; [done|]. rewrite Hread. by split.
  - destruct Hf as (_ & _ & Hfn). rewrite (Hfn eq_refl).
    do 4 eexists. split; [done|]. split; [done|]. split; [cbn; lia|].
    do 2 eexists. split; [done|]. rewrite Hread. by split.
Qed.
End ingestion.

(** [PayloadTooLarge] comes before anything is sealed. *)
Lemma seal_session_error `{Crypto} s payload mid frag fl tx s' l m :
  seal_session s payload mid frag fl tx <> (s', Err (HostPayloadTooLarge l m)).
Proof.
  unfold seal_session. destruct (match mid with Some _ => _ | None => _ end) as [s1 [r|e|]]; done.
Qed.

Lemma attempt_coding_session `{Crypto} `{ZstdLib} p data pt must p1 r :
  attempt_coding p data pt must = (p1, r) ->
  p_session p1 = p_session p /\ forall l m, r <> Err (HostPayloadTooLarge l m).
Proof.
  unfold attempt_coding. destruct (CodingDecision.should_code _ _) as [c w].
  intros H1. destruct (w || must); [|by simplify_eq].
  destruct (encode_payload _ _ _ _ _) as [[[a b] o]|e|]; simplify_eq; [|done..].
  split; [by destruct must|done].
Qed.

Lemma seal_too_large `{Crypto} `{ZstdLib} p data pt mid frag limit tx p' l m :
  Peer.seal p data pt mid frag limit tx = (p', Err (HostPayloadTooLarge l m)) ->
  l = len data /\ m = payload_room p limit (is_some mid) (is_some frag) /\ m < l /\
  p_session p' = p_session p.
Proof.
  unfold Peer.seal. set (room := payload_room _ _ _ _). intros Hs.
  destruct (attempt_coding p data pt _) as [p1 r] eqn:Ha.
  apply attempt_coding_session in Ha as [Hp Hr].
  assert ((if room <? len data then (p1, Err (HostPayloadTooLarge (len data) room)) else
    let (s, r) := seal_session (p_session p1) data mid frag 0 tx in (with_session p1 s, r))
    = (p', Err (HostPayloadTooLarge l m)) ->
    l = len data /\ m = room /\ m < l /\ p_session p' = p_session p) as Hplain.
  { destruct (Z.ltb_spec room (len data)); [intros; by simplify_eq|].
    destruct (seal_session _ _ _ _ _ _) as [s r0] eqn:He. intros. simplify_eq.
    by apply seal_session_error in He. }
  destruct r as [[[h k]|]|e|]; [|by apply Hplain|simplify_eq; by destruct (Hr l m)|done].
  destruct (CODEC_HEADER_LEN + k <=? room); [|by apply Hplain].
  clear Hplain. destruct (CodecHeader.encode h _); [|done..]. cbn [map_err] in Hs.
  unfold slice, copy_range in Hs. revert Hs. do 3 (destruct (_ && _); [|done]). intros Hs.
  destruct (seal_session _ _ _ _ _ _) as [s r0] eqn:He. simplify_eq.
  by apply seal_session_error in He.
Qed.

(** ** Attempts on a stream that does not shrink *)

(** [n] sends of one shape, coding never paying: which ones attempt it. *)
Fixpoint attempts (n : nat) (c : CodingDecision) (shape : PayloadType) : list bool :=
  match n with
  | O => []
  | S n =>
      let (c, tried) := CodingDecision.should_code c shape in
      tried :: attempts n (if tried then CodingDecision.record c false else c) shape
  end.

(** The cycle: four attempts, thirty-two skips. *)
Definition cycle : list bool := replicate 4 true ++ replicate 32 false.

Fixpoint cycles (k : nat) : list bool :=
  match k with O => [] | S k => cycle ++ cycles k end.

Lemma should_code_same m s shape :
  CodingDecision.should_code {| cd_misses := m; cd_skips := s; cd_shape := shape |} shape =
  if 0 <? s then ({| cd_misses := m; cd_skips := s - 1; cd_shape := shape |}, false)
  else ({| cd_misses := m; cd_skips := s; cd_shape := shape |}, true).
Proof. unfold CodingDecision.should_code. cbn. by rewrite bool_decide_eq_true_2. Qed.

Lemma attempts_skip s n shape :
  attempts (s + n) {| cd_misses := 0; cd_skips := Z.of_nat s; cd_shape := shape |} shape
  = replicate s false ++ attempts n {| cd_misses := 0; cd_skips := 0; cd_shape := shape |} shape.
Proof.
  induction s as [|s IH]; [done|]. cbn [Nat.add attempts]. rewrite should_code_same.
  rewrite (proj2 (Z.ltb_lt _ _)) by lia. cbn [replicate app]. rewrite <- IH. do 3 f_equal. lia.
Qed.

Lemma attempts_miss n m shape :
  attempts (S n) {| cd_misses := m; cd_skips := 0; cd_shape := shape |} shape
  = true :: attempts n (CodingDecision.record
      {| cd_misses := m; cd_skips := 0; cd_shape := shape |} false) shape.
Proof. cbn [attempts]. by rewrite should_code_same. Qed.

Lemma attempts_cycle k shape n :
  attempts (36 * k + n) {| cd_misses := 0; cd_skips := 0; cd_shape := shape |} shape
  = cycles k ++ attempts n {| cd_misses := 0; cd_skips := 0; cd_shape := shape |} shape.
Proof.
  induction k as [|k IH]; [done|].
  replace (36 * S k + n)%nat with (4 + (32 + (36 * k + n)))%nat by lia.
  cbn [cycles]. rewrite <- app_assoc, <- IH. unfold cycle. rewrite <- app_assoc, <- attempts_skip.
  generalize (32 + (36 * k + n))%nat as x. intros x. change (4 + x)%nat with (S (S (S (S x)))).
  assert (forall m, 0 <= m < 3 -> CodingDecision.record
    {| cd_misses := m; cd_skips := 0; cd_shape := shape |} false
    = {| cd_misses := m + 1; cd_skips := 0; cd_shape := shape |}) as Hrec.
  { intros m Hm. unfold CodingDecision.record. cbn. by rewrite (proj2 (Z.leb_gt _ _)) by clia. }
  rewrite attempts_miss, Hrec by lia. rewrite attempts_miss, Hrec by lia.
  by rewrite attempts_miss, Hrec, attempts_miss by lia.
Qed.

(** ** Properties *)

(** C1: the pipeline is transparent. Whatever the coding policy decided, when
    one peer seals a payload and the other ingests the frame, the receiver
    gets the original: an unfragmented one as a body that [deliver] turns back
    into the data in any buffer that holds it, a fragment as exactly the
    reassembler's answer to the original piece. A reliable frame is
    acknowledged in the same step, an unreliable one is not, and the two
    sessions stay in step for the next frame. *)
Theorem peer_transparent `{CL : CryptoLaws} (z : ZstdLib) (zl : ZstdLaws z)
    k0 k1 a b data pt mid frag limit tx a' tx' n now ack :
  bytes_ok data -> PayloadType.wf pt -> is_u16 (cap_codecs (s_peer_caps (p_session a))) ->
  is_u16 (max_frame_size (s_peer_caps (p_session a))) -> framing mid frag ->
  in_step k0 (p_session a) (p_session b) -> acknowledged k1 b mid ->
  reassembly_wf (p_reassembly b) -> PAD_BLOCK + DATA_OVERHEAD <= len ack ->
  Peer.seal a data pt mid frag limit tx = (a', Ok (tx', n)) ->
  exists b' reply v frame,
    ingest b (takez n tx') now ack = (b', reply, Ok (v, frame)) /\
    in_step k0 (p_session a') (p_session b') /\ (0 < r_len reply <-> is_some mid = true) /\
    match frag with
    | Some f =>
        v = verdict (snd (Reassembly.accept (p_reassembly b) f data)) /\
        p_reassembly b' = fst (Reassembly.accept (p_reassembly b) f data)
    | None =>
        exists m c, v = IngestedData m c /\
          forall scratch out, len data <= len out ->
            exists scratch' out',
              deliver (takez m (dropz HEADER_LEN frame)) c scratch out = (scratch', Ok (out', len data)) /\
              takez (len data) out' = data
    end.
Proof.
  intros. destruct (peer_exchange k0 k1 a b data pt mid frag limit tx a' tx' n now ack)
    as (b' & reply & v & frame & Hi & Hin & Hr & Hv); [done..|].
  exists b', reply, v, frame. split; [done|]. split; [done|]. split; [done|].
  destruct frag; [done|]. destruct Hv as (m & c & -> & _ & _ & Hd). eauto.
Qed.

(** a sealed frame respects its limits. With padding off, a frame
    [Peer.seal] produces is no longer than the datagram limit it was given
    and no longer than the largest frame the peer accepts (where those leave
    room for a frame at all), for every combination of coding, message
    identifier and fragment descriptor; and data that does not fit even coded
    is refused with [PayloadTooLarge], leaving the session as it was. *)
Theorem seal_fits (C : Crypto) (z : ZstdLib) (zl : ZstdLaws z) p data pt mid frag limit tx :
  bytes_ok data -> PayloadType.wf pt -> is_u16 (cap_codecs (s_peer_caps (p_session p))) ->
  framing mid frag -> s_padding (p_session p) = false ->
  let overhead := DATA_OVERHEAD + MESSAGE_ID_LEN + FRAGMENT_LEN in
  overhead <= limit -> overhead <= max_frame_size (s_peer_caps (p_session p)) ->
  match Peer.seal p data pt mid frag limit tx with
  | (_, Ok (_, n)) => n <= limit /\ n <= max_frame_size (s_peer_caps (p_session p))
  | (p', Err (HostPayloadTooLarge l m)) =>
      l = len data /\ m = payload_room p limit (is_some mid) (is_some frag) /\ m < l /\
      p_session p' = p_session p
  | _ => True
  end.
Proof.
  intros Hok Hpt Hc Hf Hpad ov Hl Hm. unfold ov in *. destruct (Peer.seal p data pt mid frag limit tx)
    as [p' [[tx' n]|e|]] eqn:Hs; [| |done].
  - destruct (peer_seal_spec p data pt mid frag limit tx p' tx' n) as (payload & c & Hlen & _ & Hseal); [done..|].
    destruct (seal_success _ _ _ _ _ _ _ _ _ _ _ Hseal) as (plen & _ & Hplen & -> & _).
    unfold padding_of in Hplen. rewrite Hpad in Hplen. injection Hplen as <-.
    unfold payload_room, max_payload, Session.max_payload, saturating_sub, inner_len_of,
      Session.id_len, Session.fragment_len in *.
    destruct mid, frag; cbn [is_some] in *; clia.
  - destruct e; try done. by apply seal_too_large in Hs.
Qed.

(** ** Concrete peers *)
#[local] Existing Instances Toy.crypto Toy.laws.
#[local] Existing Instances ToyZstd.zstd ToyZstd.laws.

Definition toy_session (flags size codecs : Z) : Session :=
  Session.new (cipher_at (zeros 32) 0) (cipher_at (zeros 32) 0) 7
    {| cap_flags := flags; max_frame_size := size; cap_codecs := codecs |} [] [].

Lemma toy_session_in_step flags size codecs :
  in_step (zeros 32) (toy_session flags size codecs) (toy_session flags size codecs).
Proof. unfold in_step, sends, receives, toy_session. cbn. repeat split; try done; try clia. Qed.

Definition toy_peer : Peer := Peer.new (toy_session 3 1200 CODECS_CORE) 0.

Lemma peer_transparent_witness :
  exists a' tx' n,
    Peer.seal toy_peer (replicate 40 7) (Elements 4) (Some 5) None 1200 (zeros 200) = (a', Ok (tx', n)) /\
    exists b' reply v frame,
      ingest toy_peer (takez n tx') 0 (zeros 200) = (b', reply, Ok (v, frame)) /\
      in_step (zeros 32) (p_session a') (p_session b') /\
      (0 < r_len reply <-> is_some (Some 5) = true) /\
      exists m c, v = IngestedData m c /\
        forall scratch out, len (replicate 40 7) <= len out ->
          exists scratch' out',
            deliver (takez m (dropz HEADER_LEN frame)) c scratch out
              = (scratch', Ok (out', len (replicate 40 7))) /\
            takez (len (replicate 40 7)) out' = replicate 40 7.
Proof.
  do 3 eexists. split; [vm_compute; reflexivity|].
  apply (peer_transparent ToyZstd.zstd ToyZstd.laws (zeros 32) (zeros 32) toy_peer toy_peer
    (replicate 40 7) (Elements 4) (Some 5) None 1200 (zeros 200)).
  - apply Forall_replicate. lia.
  - by vm_compute.
  - by vm_compute.
  - by vm_compute.
  - by vm_compute.
  - apply (toy_session_in_step 3 1200 CODECS_CORE).
  - split; [done|]. split; [|done]. apply (toy_session_in_step 3 1200 CODECS_CORE).
  - apply reassembly_new_wf.
  - by vm_compute.
  - vm_compute. reflexivity.
Defined.

Lemma seal_fits_witness :
  match Peer.seal toy_peer (zeros 1000) Opaque (Some 5) None 200 (zeros 1500) with
  | (_, Ok (_, n)) => n <= 200 /\ n <= max_frame_size (s_peer_caps (p_session toy_peer))
  | (p', Err (HostPayloadTooLarge l m)) =>
      l = len (zeros 1000) /\ m = payload_room toy_peer 200 (is_some (Some 5)) (is_some (@None Fragment)) /\
      m < l /\ p_session p' = p_session toy_peer
  | _ => True
  end.
Proof.
  apply (seal_fits _ ToyZstd.zstd ToyZstd.laws).
  - apply bytes_ok_zeros.
  - by vm_compute.
  - by vm_compute.
  - by vm_compute.
  - done.
  - by vm_compute.
  - by vm_compute.
Defined.

(** ** Observations *)

(** [Session.max_payload] and [Peer.payload_room] do not count padding: with
    padding on, a payload of exactly the room offered seals to a frame longer
    than the peer's limit. *)
Example padded_frame_exceeds_room :
  let p := Peer.with_session toy_peer (Session.set_padding (toy_session 3 1200 CODECS_CORE) true) in
  payload_room p 1200 false false = 1170 /\
  match Peer.seal p (zeros 1170) (I16 0) None None 1200 (zeros 1500) with
  | (_, Ok (_, n)) => n = 1246
  | _ => False
  end.
Proof. split; by vm_compute. Qed.

(** A lossy run: the driver's world collects the frames sent, and a tick is a
    pass of retransmissions followed by a pass over the queue. *)
Definition collect (w : list bytes) (frame : bytes) : list bytes * HostResult unit :=
  (w ++ [frame], Ok tt).

Definition tick (s : Driving (list bytes) * list Finished) (t : Z)
  : Driving (list bytes) * list Finished :=
  let d := fst (Peer.drive_retransmits collect (fst s) t) in
  match Peer.drive_queue collect d t with
  | (d, Ok (Some f)) => (d, snd s ++ [f])
  | (d, _) => (d, snd s)
  end.

Definition lossy_run : Driving (list bytes) * list Finished :=
  let p := Peer.new (toy_session 2 128 0) 128 in
  let p := fst (Peer.queue_message p (zeros 430) Opaque 128) in
  let d := fst (Peer.drive_queue collect (mkDriving p [] (zeros 200)) 0) in
  let p := Peer.apply_ack (d_peer d) (mkAck 0 0) 100 in
  let d := fst (Peer.drive_queue collect (mkDriving p [] (zeros 200)) 100) in
  fold_left tick (map (fun k => 200 * k) (seqZ 1 100)) (d, []).

(** a lost message is reported twice. A message of five fragments is queued; four go
    out, the first is acknowledged and the fifth goes out 200 ms later;
    nothing else is ever acknowledged. The queue finishes once, undelivered,
    when the first fragments are given up on, and the fifth, given up on
    later, is then counted as a message no queue was waiting on. *)
Example lost_message_reported_twice :
  snd lossy_run = [{| f_delivered := false |}] /\
  p_abandoned_unqueued (d_peer (fst lossy_run)) = 1.
Proof. vm_compute. done. Qed.
