(* ===== verification/Float.v ===== *)
(** * Floating-point budgets

    The rate limiters of endpoint.rs and rendezvous.rs keep their allowance in
    an [f32] or an [f64]. A non-negative finite value of a binary format is a
    whole number of units of its smallest subnormal, so it is modelled as that
    number: 1.0 is 2^149 in [binary32]. The operations round to nearest, ties to even, as
    the hardware does; the exponent is not bounded above, because no budget
    comes near the largest finite value. [Bucket] is the token bucket the
    limiters share; the bottleneck of Paths.v is filled and spent the same way.
    The bound covers what a bucket lets through over any sequence of requests,
    rounding included. *)
From S2P Require Import Prelude Bytes.

Record format := mkFormat { prec : Z; emin : Z }.

Definition binary32 : format := mkFormat 24 149.
Definition binary64 : format := mkFormat 53 1074.

Module Fl.
(** The integer nearest to [n / d], the even one when two are. *)
Definition nearest (n d : Z) : Z :=
  let q := n / d in
  let r := n mod d in
  if 2 * r <? d then q else
  if d <? 2 * r then q + 1 else
  if Z.even q then q else q + 1.

(** The exponent the quotient [n / d] is rounded at. *)
Definition exponent (f : format) (n d : Z) : Z := Z.max 0 (Z.log2 (n / d) + 1 - prec f).

(** [n / d] units, rounded to the format. *)
Definition round (f : format) (n d : Z) : Z :=
  let e := exponent f n d in nearest n (d * 2 ^ e) * 2 ^ e.

Definition of_Z (f : format) (x : Z) : Z := round f (x * 2 ^ emin f) 1.
Definition add (f : format) (a b : Z) : Z := round f (a + b) 1.
Definition sub (f : format) (a b : Z) : Z := round f (a - b) 1.
Definition mul (f : format) (a b : Z) : Z := round f (a * b) (2 ^ emin f).
Definition div (f : format) (a b : Z) : Z := round f (a * 2 ^ emin f) b.

(** [Duration::as_secs_f32] and [as_secs_f64] of a duration in nanoseconds, and
    in milliseconds: the whole seconds plus the rest over a thousand million. *)
Definition as_secs_nanos (f : format) (ns : Z) : Z :=
  add f (of_Z f (ns / 1000000000)) (div f (of_Z f (ns mod 1000000000)) (of_Z f 1000000000)).
Definition as_secs (f : format) (ms : Z) : Z := as_secs_nanos f (ms * 1000000).
End Fl.
Import Fl.

(** ** The token bucket

    [bk_left] is what may still be spent, [bk_refilled] when it was last topped up. *)
Record Bucket := mkBucket { bk_left : Z; bk_refilled : Z }.

Module Bucket.
(** Refill by [rate] a second up to [cap], then spend [cost] if there is as
    much: [left = (left + elapsed * rate).min(cap)] and the test after it. *)
Definition take (f : format) (rate cap cost now : Z) (b : Bucket) : Bucket * bool :=
  let elapsed := as_secs f (saturating_sub now (bk_refilled b)) in
  let l := Z.min (add f (bk_left b) (mul f elapsed rate)) cap in
  if l <? cost then (mkBucket l now, false) else (mkBucket (sub f l cost) now, true).

(** A run of requests at the given instants, and how much was spent. *)
Fixpoint run (f : format) (rate cap : Z) (reqs : list (Z * Z)) (b : Bucket) : Bucket * Z :=
  match reqs with
  | [] => (b, 0)
  | (now, cost) :: reqs =>
      let (b, ok) := take f rate cap cost now b in
      let (b, spent) := run f rate cap reqs b in
      (b, if ok then cost + spent else spent)
  end.
End Bucket.

(** ** Rounding *)
Lemma nearest_error n d : 0 < d -> - d <= 2 * (nearest n d * d - n) <= d.
Proof.
  intros Hd. unfold nearest.
  pose proof (Z.div_mod n d ltac:(lia)). pose proof (Z.mod_pos_bound n d Hd).
  set (q := n / d) in *. set (r := n mod d) in *.
  zcase; [nia|]. zcase; [nia|]. destruct (Z.even q); nia.
Qed.

Lemma nearest_nonneg n d : 0 <= n -> 0 < d -> 0 <= nearest n d.
Proof.
  intros Hn Hd. unfold nearest. pose proof (Z.div_pos n d Hn Hd).
  zcase; [lia|]. zcase; [lia|]. destruct (Z.even _); lia.
Qed.

Lemma exponent_nonneg f n d : 0 <= exponent f n d.
Proof. unfold exponent. lia. Qed.

Lemma round_nonneg f n d : 0 <= n -> 0 < d -> 0 <= round f n d.
Proof.
  intros Hn Hd. unfold round. pose proof (exponent_nonneg f n d).
  apply Z.mul_nonneg_nonneg; [|lia]. apply nearest_nonneg; [done|].
  pose proof (Z.pow_pos_nonneg 2 (exponent f n d)). nia.
Qed.

(** The error of a rounding: half a unit, or one part in [2 ^ prec]. *)
Lemma round_error f n d :
  0 < prec f -> 0 <= n -> 0 < d ->
  2 ^ prec f * Z.abs (round f n d * d - n) <= Z.max n (2 ^ (prec f - 1) * d).
Proof.
  intros Hp Hn Hd. unfold round. set (e := exponent f n d).
  pose proof (exponent_nonneg f n d) as He. fold e in He.
  assert (0 < 2 ^ e) as Hpe by (apply Z.pow_pos_nonneg; lia).
  assert (0 < d * 2 ^ e) as Hde by nia.
  pose proof (nearest_error n (d * 2 ^ e) Hde) as Herr.
  set (m := nearest n (d * 2 ^ e)) in *.
  assert (2 ^ prec f = 2 * 2 ^ (prec f - 1)) as Hpow.
  { replace (prec f) with (Z.succ (prec f - 1)) at 1 by lia. rewrite Z.pow_succ_r; lia. }
  assert (0 < 2 ^ (prec f - 1)) by (apply Z.pow_pos_nonneg; lia).
  assert (2 * Z.abs (m * 2 ^ e * d - n) <= d * 2 ^ e) as Habs by lia.
  assert (2 ^ (prec f - 1) * (d * 2 ^ e) <= Z.max n (2 ^ (prec f - 1) * d)); [|nia].
  destruct (Z.eq_dec e 0) as [->|Hne]; [lia|].
  assert (e = Z.log2 (n / d) + 1 - prec f) as Hexp by (unfold e, exponent in *; lia).
  assert (0 < n / d).
  { destruct (Z.le_gt_cases (n / d) 0) as [Hle|]; [|done].
    rewrite Z.log2_nonpos in Hexp by done. lia. }
  pose proof (Z.log2_spec (n / d) ltac:(lia)) as [Hlog _].
  replace (Z.log2 (n / d)) with (e + (prec f - 1)) in Hlog by lia.
  rewrite Z.pow_add_r in Hlog by lia.
  pose proof (Z.mul_div_le n d Hd). nia.
Qed.

(** The same as an upper bound. *)
Lemma round_upper f n d :
  0 < prec f -> 0 <= n -> 0 < d ->
  2 ^ prec f * (round f n d * d) <= (2 ^ prec f + 1) * n + 2 ^ prec f * d.
Proof.
  intros Hp Hn Hd. pose proof (round_error f n d Hp Hn Hd).
  assert (0 < 2 ^ (prec f - 1) <= 2 ^ prec f).
  { split; [apply Z.pow_pos_nonneg; lia|apply Z.pow_le_mono_r; lia]. }
  nia.
Qed.

(** A whole number of at most [prec] bits is not rounded. *)
Lemma round_small f n : 0 < prec f -> 0 <= n < 2 ^ prec f -> round f n 1 = n.
Proof.
  intros Hp Hn. unfold round, exponent. rewrite Z.div_1_r.
  assert (Z.log2 n < prec f).
  { destruct (Z.eq_dec n 0) as [->|]; [by rewrite Z.log2_nonpos|]. apply Z.log2_lt_pow2; lia. }
  rewrite Z.max_l by lia. rewrite Z.mul_1_l, Z.mul_1_r.
  unfold nearest. by rewrite Z.mod_1_r, Z.div_1_r.
Qed.

(** Nor is one shifted up: a whole number of at most [prec] bits is exact. *)
Lemma round_scaled f m k : 0 < prec f -> 0 <= m < 2 ^ prec f -> 0 <= k -> round f (m * 2 ^ k) 1 = m * 2 ^ k.
Proof.
  intros Hp Hm Hk. unfold round. set (e := exponent f (m * 2 ^ k) 1).
  assert (0 <= e <= k) as He.
  { unfold e, exponent. rewrite Z.div_1_r. split; [lia|].
    destruct (Z.eq_dec m 0) as [->|]; [rewrite Z.mul_0_l, Z.log2_nonpos; lia|].
    rewrite Z.log2_mul_pow2 by lia. pose proof (Z.log2_lt_pow2 m (prec f) ltac:(lia)). lia. }
  assert (m * 2 ^ k = m * 2 ^ (k - e) * 2 ^ e) as ->.
  { rewrite <- Z.mul_assoc, <- Z.pow_add_r by lia. do 2 f_equal. lia. }
  assert (0 < 2 ^ e) by (apply Z.pow_pos_nonneg; lia).
  f_equal. unfold nearest. rewrite Z.mul_1_l, Z.mod_mul, Z.div_mul by lia. by rewrite (proj2 (Z.ltb_lt _ _)) by lia.
Qed.

Lemma of_Z_exact f x : 0 < prec f -> 0 <= emin f -> 0 <= x < 2 ^ prec f -> of_Z f x = x * 2 ^ emin f.
Proof. intros. by apply round_scaled. Qed.

(** *** Order

    Rounding keeps order, and what it gives is a value of the format. *)
Lemma nearest_mono n m d : 0 < d -> n <= m -> nearest n d <= nearest m d.
Proof.
  intros Hd H. unfold nearest. pose proof (Z.div_le_mono n m d Hd H).
  pose proof (Z.div_mod n d ltac:(lia)). pose proof (Z.div_mod m d ltac:(lia)).
  destruct (Z.eq_dec (n / d) (m / d)) as [E|].
  - rewrite E in *. assert (n mod d <= m mod d) by lia. destruct (Z.even (m / d)); repeat zcase; lia.
  - destruct (Z.even (n / d)), (Z.even (m / d)); repeat zcase; lia.
Qed.

Lemma nearest_exact k d : 0 < d -> nearest (k * d) d = k.
Proof. intros Hd. pose proof (nearest_error (k * d) d Hd). nia. Qed.

(** A rounding stays between the powers of two its argument is between. *)
Lemma round_bounds f n d :
  0 < prec f -> 0 < d -> 0 < n / d ->
  2 ^ Z.log2 (n / d) <= round f n d <= 2 ^ (Z.log2 (n / d) + 1).
Proof.
  intros Hp Hd Hq. unfold round. set (e := exponent f n d). set (L := Z.log2 (n / d)).
  pose proof (Z.log2_nonneg (n / d)) as HL. fold L in HL.
  assert (0 <= e <= L) as He by (unfold e, exponent; fold L; lia).
  assert (0 < 2 ^ e) by (apply Z.pow_pos_nonneg; lia).
  pose proof (Z.log2_spec (n / d) Hq) as [Hlo Hhi]. fold L in Hlo, Hhi.
  pose proof (Z.div_mod n d ltac:(lia)). pose proof (Z.mod_pos_bound n d Hd).
  assert (forall k, e <= k -> 2 ^ k = 2 ^ (k - e) * 2 ^ e) as Hsplit
    by (intros k Hk; rewrite <- Z.pow_add_r by lia; f_equal; lia).
  rewrite <- Z.add_1_r in Hhi. rewrite (Hsplit L), (Hsplit (L + 1)) in * by lia.
  split; apply Z.mul_le_mono_nonneg_r; try lia.
  - rewrite <- (nearest_exact (2 ^ (L - e)) (d * 2 ^ e)) by nia. apply nearest_mono; nia.
  - rewrite <- (nearest_exact (2 ^ (L + 1 - e)) (d * 2 ^ e)) by nia. apply nearest_mono; nia.
Qed.

Lemma round_mono f n m : 0 < prec f -> 0 <= n <= m -> round f n 1 <= round f m 1.
Proof.
  intros Hp [Hn Hm]. destruct (Z.eq_dec n 0) as [->|].
  { rewrite round_small by (pose proof (Z.pow_pos_nonneg 2 (prec f)); lia). apply round_nonneg; lia. }
  destruct (Z.eq_dec (exponent f n 1) (exponent f m 1)) as [E|E].
  - unfold round. rewrite E. pose proof (Z.pow_pos_nonneg 2 (exponent f m 1) ltac:(lia) (exponent_nonneg _ _ _)).
    apply Z.mul_le_mono_nonneg_r, nearest_mono; lia.
  - pose proof (round_bounds f n 1 Hp ltac:(lia)) as Bn. pose proof (round_bounds f m 1 Hp ltac:(lia)) as Bm.
    rewrite !Z.div_1_r in *. specialize (Bn ltac:(lia)). specialize (Bm ltac:(lia)).
    pose proof (Z.log2_le_mono n m Hm). unfold exponent in E. rewrite !Z.div_1_r in E.
    pose proof (Z.pow_le_mono_r 2 (Z.log2 n + 1) (Z.log2 m) ltac:(lia) ltac:(lia)). lia.
Qed.

Definition representable (f : format) (x : Z) : Prop :=
  exists m k, 0 <= m < 2 ^ prec f /\ 0 <= k /\ x = m * 2 ^ k.

Lemma representable_round f x : 0 < prec f -> representable f x -> round f x 1 = x.
Proof. intros Hp (m & k & Hm & Hk & ->). by apply round_scaled. Qed.

Lemma round_representable f n d : 0 < prec f -> 0 <= n -> 0 < d -> representable f (round f n d).
Proof.
  intros Hp Hn Hd. pose proof (round_nonneg f n d Hn Hd) as H0.
  pose proof (Z.pow_pos_nonneg 2 (prec f) ltac:(lia) ltac:(lia)).
  assert (1 < 2 ^ prec f) as Hp1 by (by apply Z.pow_gt_1).
  assert (round f n d <= 2 ^ (exponent f n d + prec f)) as Hle.
  { destruct (Z.eq_dec (n / d) 0) as [E|].
    - pose proof (round_error f n d Hp Hn Hd). apply Z.div_small_iff in E; [|lia].
      pose proof (exponent_nonneg f n d). rewrite Z.pow_add_r by lia.
      pose proof (Z.pow_pos_nonneg 2 (exponent f n d) ltac:(lia) ltac:(lia)).
      assert (2 ^ prec f = 2 * 2 ^ (prec f - 1)).
      { replace (prec f) with (Z.succ (prec f - 1)) at 1 by lia. rewrite Z.pow_succ_r; lia. }
      nia.
    - pose proof (Z.div_pos n d Hn Hd). pose proof (round_bounds f n d Hp Hd ltac:(lia)) as [_ B].
      etrans; [exact B|]. apply Z.pow_le_mono_r; [lia|]. unfold exponent. lia. }
  unfold round in *. set (e := exponent f n d) in *. set (k := nearest n (d * 2 ^ e)) in *.
  pose proof (exponent_nonneg f n d) as He. fold e in He.
  assert (0 < 2 ^ e) by (apply Z.pow_pos_nonneg; lia). rewrite Z.pow_add_r in Hle by lia.
  destruct (Z.eq_dec k (2 ^ prec f)) as [->|].
  - exists 1, (prec f + e). rewrite Z.pow_add_r by lia. lia.
  - exists k, e. split; [nia|]. done.
Qed.

(** Spending never raises a budget. *)
Lemma sub_le f l cost : 0 < prec f -> representable f l -> 0 <= cost <= l -> sub f l cost <= l.
Proof.
  intros Hp Hl Hc. unfold sub. rewrite <- (representable_round f l) at 2 by done.
  apply round_mono; [done|lia].
Qed.

(** ** What the bucket lets through *)
Section bound.
Context (f : format) (Hprec : 24 <= prec f) (Hemin : 149 <= emin f).
Context (Hgiga : of_Z f 1000000000 = 1000000000 * 2 ^ emin f).

Local Abbreviation U := (2 ^ emin f).

Lemma unit_large : 2 ^ 149 <= U.
Proof. apply Z.pow_le_mono_r; lia. Qed.

(** One part in 2^24 covers every format here. *)
Lemma round_within n d :
  0 <= n -> 0 < d -> 2 ^ 24 * (round f n d * d) <= (2 ^ 24 + 1) * n + 2 ^ 24 * d.
Proof.
  intros Hn Hd. pose proof (round_upper f n d ltac:(lia) Hn Hd).
  assert (2 ^ 24 <= 2 ^ prec f) by (apply Z.pow_le_mono_r; lia). nia.
Qed.

Lemma of_Z_within x : 0 <= x -> 2 ^ 24 * of_Z f x <= (2 ^ 24 + 1) * (x * U) + 2 ^ 24.
Proof.
  intros Hx. pose proof unit_large. unfold of_Z.
  pose proof (round_within (x * U) 1 ltac:(nia) ltac:(lia)). lia.
Qed.

Lemma of_Z_nonneg x : 0 <= x -> 0 <= of_Z f x.
Proof. intros. pose proof unit_large. apply round_nonneg; nia. Qed.

Lemma as_secs_nonneg t : 0 <= t -> 0 <= as_secs_nanos f t.
Proof.
  intros Ht. pose proof unit_large. unfold as_secs_nanos, add.
  pose proof (Z.div_pos t 1000000000 Ht ltac:(lia)). pose proof (Z.mod_pos_bound t 1000000000 ltac:(lia)).
  apply round_nonneg; [|lia]. apply Z.add_nonneg_nonneg; [by apply of_Z_nonneg|].
  unfold div. rewrite Hgiga. pose proof (of_Z_nonneg (t mod 1000000000) ltac:(lia)).
  apply round_nonneg; [apply Z.mul_nonneg_nonneg; lia|lia].
Qed.

(** A duration in seconds is off by less than one part in 2^22. *)
Lemma as_secs_within t :
  0 <= t -> 2 ^ 72 * 1000000000 * as_secs_nanos f t <= (2 ^ 24 + 1) ^ 3 * (t * U) + 4000000000 * 2 ^ 72.
Proof.
  intros Ht. pose proof unit_large. unfold as_secs_nanos.
  pose proof (Z.div_mod t 1000000000 ltac:(lia)) as Hdm.
  pose proof (Z.div_pos t 1000000000 Ht ltac:(lia)). pose proof (Z.mod_pos_bound t 1000000000 ltac:(lia)).
  set (s := t / 1000000000) in *. set (m := t mod 1000000000) in *.
  pose proof (of_Z_within s ltac:(lia)) as Ha. pose proof (of_Z_nonneg s ltac:(lia)) as Ha0.
  pose proof (of_Z_within m ltac:(lia)) as Hb. pose proof (of_Z_nonneg m ltac:(lia)) as Hb0.
  set (a := of_Z f s) in *. set (b := of_Z f m) in *.
  unfold div. rewrite Hgiga.
  pose proof (round_within (b * U) (1000000000 * U) ltac:(nia) ltac:(lia)) as Hq.
  pose proof (round_nonneg f (b * U) (1000000000 * U) ltac:(nia) ltac:(lia)) as Hq0.
  set (q := round f (b * U) (1000000000 * U)) in *.
  assert (2 ^ 24 * (q * 1000000000) <= (2 ^ 24 + 1) * b + 2 ^ 24 * 1000000000) as Hq'.
  { apply Z.mul_le_mono_pos_r with (p := U); [lia|]. lia. }
  unfold add. pose proof (round_within (a + q) 1 ltac:(lia) ltac:(lia)) as Hs.
  set (S := round f (a + q) 1) in *. rewrite Hdm.
  replace ((1000000000 * s + m) * U) with (1000000000 * (s * U) + m * U) by ring.
  assert (0 <= s * U) by nia. assert (0 <= m * U) by nia. lia.
Qed.

Context (rate cap : Z) (Hrate : 0 <= rate <= 2 ^ 64 * U) (Hcap : 0 <= cap).

(** So is a refill. *)
Lemma refill_within t :
  0 <= t ->
  0 <= mul f (as_secs_nanos f t) rate /\
  2 ^ 96 * 1000000000 * mul f (as_secs_nanos f t) rate
    <= (2 ^ 24 + 1) ^ 4 * (rate * t) + 1000000 * (2 ^ 96 * 2 ^ 78).
Proof.
  intros Ht. pose proof unit_large. pose proof (as_secs_within t Ht) as Hs.
  pose proof (as_secs_nonneg t Ht) as Hs0. set (S := as_secs_nanos f t) in *. unfold mul.
  assert (0 <= S * rate) as Hsr by nia.
  split; [apply round_nonneg; lia|].
  pose proof (round_within (S * rate) U Hsr ltac:(lia)) as Hm.
  set (M := round f (S * rate) U) in *.
  apply Z.mul_le_mono_nonneg_r with (p := rate) in Hs; [|lia].
  assert (S * rate * 1000000000 * 2 ^ 72
    <= (2 ^ 24 + 1) ^ 3 * (rate * t * U) + 4000000000 * 2 ^ 72 * (2 ^ 64 * U)) as Hs' by lia.
  apply Z.mul_le_mono_pos_r with (p := U); [lia|]. lia.
Qed.

(** Topping a budget up for [t] nanoseconds, up to [cap]. *)
Lemma fill_within left t :
  0 <= left <= 2 * cap + U -> 0 <= t ->
  let l := Z.min (add f left (mul f (as_secs_nanos f t) rate)) cap in
  0 <= l <= cap /\
  2 ^ 20 * 1000000000 * l
    <= 2 ^ 20 * 1000000000 * left + (2 ^ 20 + 1) * (rate * t) + 500000000 * (cap + U).
Proof.
  intros Hl Ht. cbv zeta. pose proof unit_large as HU.
  destruct (refill_within t Ht) as [Hm0 Hm]. set (M := mul f (as_secs_nanos f t) rate) in *.
  assert (0 <= rate * t) by nia.
  unfold add. pose proof (round_within (left + M) 1 ltac:(lia) ltac:(lia)) as Hadd.
  pose proof (round_nonneg f (left + M) 1 ltac:(lia) ltac:(lia)) as Hadd0.
  set (A := round f (left + M) 1) in *. set (l := Z.min A cap).
  assert (l <= A /\ 0 <= l <= cap) by lia. clearbody l. split; lia.
Qed.

(** Spending [cost] out of it. *)
Lemma spend_within l cost :
  0 <= cost <= l -> l <= 2 * cap + U ->
  0 <= sub f l cost /\
  2 ^ 20 * 1000000000 * (sub f l cost + cost) <= 2 ^ 20 * 1000000000 * l + 500000000 * (cap + U).
Proof.
  intros Hc Hl. pose proof unit_large as HU. unfold sub.
  pose proof (round_within (l - cost) 1 ltac:(lia) ltac:(lia)) as Hsub.
  pose proof (round_nonneg f (l - cost) 1 ltac:(lia) ltac:(lia)). split; lia.
Qed.

Lemma take_within b now cost :
  0 <= bk_left b <= 2 * cap + U -> 0 <= cost -> bk_refilled b <= now ->
  let (b', ok) := Bucket.take f rate cap cost now b in
  0 <= bk_left b' <= 2 * cap + U /\ bk_refilled b' = now /\
  2 ^ 20 * 1000 * (bk_left b' + (if ok then cost else 0))
    <= 2 ^ 20 * 1000 * bk_left b + (2 ^ 20 + 1) * (rate * (now - bk_refilled b)) + 1000 * (cap + U).
Proof.
  intros Hl Hc Hnow. pose proof unit_large as HU. unfold Bucket.take, saturating_sub, as_secs.
  rewrite Z.max_r by lia. set (t := now - bk_refilled b) in *.
  destruct (fill_within (bk_left b) (t * 1000000) Hl ltac:(lia)) as [H0 Hlim].
  set (l := Z.min _ cap) in *. clearbody l. assert (0 <= rate * t) by nia.
  destruct (l <? cost) eqn:E; zbool; cbn [bk_left bk_refilled]; [split; [lia|split; [done|lia]]|].
  destruct (spend_within l cost ltac:(lia) ltac:(lia)). split; [lia|]. split; [done|]. lia.
Qed.

(** The instants of the requests, none before the one before it. *)
Fixpoint in_order (t : Z) (reqs : list (Z * Z)) : Prop :=
  match reqs with
  | [] => True
  | (now, cost) :: reqs => t <= now /\ 0 <= cost /\ in_order now reqs
  end.

Lemma run_within reqs b :
  0 <= bk_left b <= 2 * cap + U -> in_order (bk_refilled b) reqs ->
  let (b', spent) := Bucket.run f rate cap reqs b in
  0 <= bk_left b' /\ bk_refilled b <= bk_refilled b' /\
  2 ^ 20 * 1000 * (bk_left b' + spent)
    <= 2 ^ 20 * 1000 * bk_left b + (2 ^ 20 + 1) * (rate * (bk_refilled b' - bk_refilled b))
       + 1000 * (len reqs * (cap + U)).
Proof.
  revert b. induction reqs as [|[now cost] reqs IH]; intros b Hl Ho; cbn [Bucket.run].
  - replace (bk_refilled b - bk_refilled b) with 0 by lia. change (len (@nil (Z * Z))) with 0. lia.
  - destruct Ho as (Hnow & Hc & Ho). pose proof (take_within b now cost Hl Hc Hnow) as Ht.
    destruct (Bucket.take f rate cap cost now b) as [b1 ok] eqn:Et. destruct Ht as (Hl1 & Hr1 & H1).
    rewrite <- Hr1 in Ho. specialize (IH b1 Hl1 Ho).
    destruct (Bucket.run f rate cap reqs b1) as [b2 spent] eqn:Er. destruct IH as (Hl2 & Hr2 & H2).
    split; [done|]. split; [lia|]. rewrite len_cons. destruct ok; lia.
Qed.
End bound.

(** ** A bucket of whole units

    When the bucket's size is its rate, a whole number of units short of
    [2 ^ 24], and every request costs one, spending is exact and only a refill
    rounds; and a refill takes at least a tick of the clock, a millisecond, to
    happen. So what rounding adds is a fixed share of the time that passed,
    however many requests there were. *)
Lemma round_zero f d : 0 < prec f -> 0 < d -> round f 0 d = 0.
Proof.
  intros Hp Hd. unfold round, exponent, nearest. rewrite Z.div_0_l by lia. cbn [Z.log2].
  rewrite Z.max_l by lia. by rewrite Z.mul_1_r, Zmod_0_l, Z.mul_0_r, (proj2 (Z.ltb_lt _ _)), Z.div_0_l by lia.
Qed.

Lemma representable_of_Z f x : 0 <= emin f -> 0 <= x < 2 ^ prec f -> representable f (x * 2 ^ emin f).
Proof. intros He Hx. exists x, (emin f). done. Qed.

(** One unit taken from a value of the format leaves a value of the format. *)
Lemma sub_one_exact f l :
  0 < prec f -> 0 <= emin f -> representable f l -> 2 ^ emin f <= l < 2 ^ prec f * 2 ^ emin f ->
  sub f l (2 ^ emin f) = l - 2 ^ emin f.
Proof.
  intros Hp He (m & k & Hm & Hk & ->) Hl. unfold sub. apply representable_round; [done|].
  assert (0 < 2 ^ k) by (apply Z.pow_pos_nonneg; lia).
  assert (0 < 2 ^ emin f) by (apply Z.pow_pos_nonneg; lia).
  destruct (Z.le_gt_cases k (emin f)) as [Hle|Hgt].
  - replace (2 ^ emin f) with (2 ^ (emin f - k) * 2 ^ k) in * by (rewrite <- Z.pow_add_r by lia; f_equal; lia).
    assert (0 < 2 ^ (emin f - k)) by (apply Z.pow_pos_nonneg; lia).
    exists (m - 2 ^ (emin f - k)), k. split; [nia|]. split; [done|ring].
  - replace (2 ^ k) with (2 ^ (k - emin f) * 2 ^ emin f) in * by (rewrite <- Z.pow_add_r by lia; f_equal; lia).
    exists (m * 2 ^ (k - emin f) - 1), (emin f). split; [nia|]. split; [done|ring].
Qed.

Section units.
Context (f : format) (Hprec : 24 <= prec f) (Hemin : 149 <= emin f).
Context (Hgiga : of_Z f 1000000000 = 1000000000 * 2 ^ emin f).
Context (units : Z) (Hunits : 0 <= units < 2 ^ 24).
Local Abbreviation U := (2 ^ emin f).
Local Abbreviation rate := (units * U).

Lemma units_representable : representable f rate.
Proof.
  apply representable_of_Z; [lia|]. assert (2 ^ 24 <= 2 ^ prec f) by (apply Z.pow_le_mono_r; lia). lia.
Qed.

(** No time, no refill. *)
Lemma refill_none : mul f (as_secs_nanos f 0) rate = 0.
Proof.
  assert (as_secs_nanos f 0 = 0) as ->.
  { unfold as_secs_nanos, add, div. change (0 / 1000000000) with 0. change (0 mod 1000000000) with 0.
    assert (of_Z f 0 = 0) as -> by (unfold of_Z; rewrite Z.mul_0_l; apply round_zero; lia).
    pose proof (unit_large f Hemin). rewrite Z.mul_0_l, Hgiga, round_zero by lia. apply round_zero; lia. }
  unfold mul. rewrite Z.mul_0_l. pose proof (unit_large f Hemin). apply round_zero; lia.
Qed.

(** A refill over at least a millisecond: off by one part in 2^14 at most. *)
Lemma fill_tight left t :
  representable f left -> 0 <= left <= rate -> t = 0 \/ 1000000 <= t ->
  let l := Z.min (add f left (mul f (as_secs_nanos f t) rate)) rate in
  representable f l /\ 0 <= l <= rate /\
  2 ^ 14 * 1000000000 * l <= 2 ^ 14 * 1000000000 * left + (2 ^ 14 + 1) * (rate * t).
Proof.
  intros Hrep Hl Ht. cbv zeta. pose proof (unit_large f Hemin) as HU.
  assert (0 <= mul f (as_secs_nanos f t) rate /\
    2 ^ 96 * 1000000000 * mul f (as_secs_nanos f t) rate
      <= (2 ^ 24 + 1) ^ 4 * (rate * t) + 1000000 * (2 ^ 96 * 2 ^ 78)) as [Hm0 Hm].
  { apply (refill_within f Hprec Hemin Hgiga rate); [nia|lia]. }
  assert (t = 0 -> mul f (as_secs_nanos f t) rate = 0) as Hnone by (intros ->; exact refill_none).
  set (M := mul f (as_secs_nanos f t) rate) in *. clearbody M.
  unfold add. pose proof (round_nonneg f (left + M) 1 ltac:(lia) ltac:(lia)) as Hr0.
  assert (representable f (Z.min (round f (left + M) 1) rate)) as Hrepl.
  { destruct (Z.min_spec (round f (left + M) 1) rate) as [[_ ->]|[_ ->]];
      [apply round_representable; lia|exact units_representable]. }
  split; [done|]. split; [lia|].
  destruct Ht as [->|Ht].
  { rewrite Hnone, Z.add_0_r, representable_round by (done || lia). lia. }
  destruct (Z.eq_dec units 0) as [->|Hne]; [lia|].
  assert (U * 1000000 <= rate * t) as Hrt by nia.
  assert (rate * 1000000 <= rate * t) as Hrt2 by nia.
  pose proof (round_within f Hprec Hemin (left + M) 1 ltac:(lia) ltac:(lia)) as Hround.
  set (R := round f (left + M) 1) in *. clearbody R. set (c := rate) in *. clearbody c.
  set (X := c * t) in *. clearbody X.
  assert (2 ^ 20 * 1000000000 * M <= (2 ^ 20 + 1) * X) as HM by lia.
  destruct (Z.le_gt_cases c (left + M)); lia.
Qed.

(** A request at a later tick, or at the same one. *)
Lemma take_tight b now :
  representable f (bk_left b) -> 0 <= bk_left b <= rate -> bk_refilled b <= now ->
  let (b', ok) := Bucket.take f rate rate U now b in
  representable f (bk_left b') /\ 0 <= bk_left b' <= rate /\ bk_refilled b' = now /\
  2 ^ 14 * 1000 * (bk_left b' + (if ok then U else 0))
    <= 2 ^ 14 * 1000 * bk_left b + (2 ^ 14 + 1) * (rate * (now - bk_refilled b)).
Proof.
  intros Hrep Hl Hnow. pose proof (unit_large f Hemin) as HU.
  unfold Bucket.take, saturating_sub, as_secs. rewrite Z.max_r by lia. set (t := now - bk_refilled b) in *.
  destruct (fill_tight (bk_left b) (t * 1000000) Hrep Hl ltac:(lia)) as (Hr & H0 & Hlim).
  set (l := Z.min _ _) in *. clearbody l.
  destruct (Z.ltb_spec l U); cbn [bk_left bk_refilled]; [split_and!; [done|lia..]|].
  assert (l < 2 ^ prec f * U).
  { assert (2 ^ 24 <= 2 ^ prec f) by (apply Z.pow_le_mono_r; lia). nia. }
  assert (representable f (sub f l U)) by (apply round_representable; lia).
  rewrite (sub_one_exact f l) in * by (done || lia). split_and!; [done|lia..].
Qed.
End units.

(** The two formats in use. *)
Lemma giga32 : of_Z binary32 1000000000 = 1000000000 * 2 ^ emin binary32.
Proof. vm_compute. reflexivity. Qed.

Lemma giga64 : of_Z binary64 1000000000 = 1000000000 * 2 ^ emin binary64.
Proof. vm_compute. reflexivity. Qed.

