(* ===== verification/Timing.v ===== *)
(** * Measurements (crates/bench/src/timing.rs)

    A distribution of timings is summed up by two of its elements, picked by a
    floating-point position. Time is the host's clock, in nanoseconds; what is
    measured is any function on the host. The theorem shows the positions are
    always inside the sample, the lower one exactly its middle, whatever the
    rounding, and that measuring runs the function exactly as often as asked. *)
From stdpp Require Import sorting.
From S2P Require Import Prelude Bytes Error Float.

Record Stats := mkStats { st_median : Z; st_p95 : Z }.

(** The constants [0.50] and [0.95] of a [f64]. *)
Definition Q50 : Z := Fl.round binary64 (50 * 2 ^ 1074) 100.
Definition Q95 : Z := Fl.round binary64 (95 * 2 ^ 1074) 100.

Module Stats.
(** [((values.len() - 1) as f64 * q) as usize], for a sample that is not empty. *)
Definition position (n q : Z) : Z := Fl.mul binary64 (Fl.of_Z binary64 (n - 1)) q / 2 ^ 1074.

Definition pick (values : list Z) (q : Z) : Result Z :=
  if len values =? 0 then Panic else index values (position (len values) q).

Definition from (values : list Z) : Result Stats :=
  let values := merge_sort Z.le values in
  let? median := pick values Q50 in
  let? p95 := pick values Q95 in
  Ok (mkStats median p95).
End Stats.

Section measure.
Context {W : Type} (now : W -> Z) (f : W -> W).

(** [for _ in 0..n { f(); }]. *)
Definition times (n : nat) (w : W) : W := Nat.iter n f w.

(** [per_batch] runs between two readings of the clock, [batches] times. *)
Fixpoint batches (n : nat) (per_batch : nat) (w : W) : W * list Z :=
  match n with
  | O => (w, [])
  | S n =>
      let start := now w in
      let w := times per_batch w in
      let elapsed := saturating_sub (now w) start in
      let (w, values) := batches n per_batch w in (w, elapsed :: values)
  end.

Definition measure (warmup samples : nat) (w : W) : W * Result Stats :=
  let (w, values) := batches samples 1 (times warmup w) in (w, Stats.from values).

(** [start.elapsed() / per_batch as u32]: dividing by zero panics. *)
Definition measure_batched (warmup samples per_batch : nat) (w : W) : W * Result Stats :=
  let (w, values) := batches samples per_batch (times warmup w) in
  (w, if (per_batch =? 0)%nat && negb (samples =? 0)%nat then Panic
      else Stats.from (map (fun v => v / Z.of_nat per_batch) values)).
End measure.

(** [measure_reported]: what is timed reports its own duration. *)
Fixpoint reports {W} (g : W -> W * Z) (n : nat) (w : W) : W * list Z :=
  match n with
  | O => (w, [])
  | S n => let (w, v) := g w in let (w, vs) := reports g n w in (w, v :: vs)
  end.

Definition measure_reported {W} (g : W -> W * Z) (warmup samples : nat) (w : W) : W * Result Stats :=
  let (w, _) := reports g warmup w in
  let (w, values) := reports g samples w in (w, Stats.from values).

(** ** Where a rounding falls *)
Section positions.
Import Fl.

Lemma nearest_scale n d k : 0 < k -> 0 < d -> nearest (n * k) (d * k) = nearest n d.
Proof.
  intros Hk Hd. unfold nearest. rewrite Z.div_mul_cancel_r, Z.mul_mod_distr_r by lia.
  repeat zcase; nia || done.
Qed.

Lemma round_scale f n k : 0 < k -> round f (n * k) k = round f n 1.
Proof.
  intros Hk. unfold round, exponent. rewrite Z.div_mul, Z.div_1_r by lia. f_equal.
  rewrite Z.mul_1_l, (Z.mul_comm k). apply nearest_scale; [done|]. apply Z.pow_pos_nonneg; lia.
Qed.

Lemma mul_whole f x q :
  0 < prec f -> 0 <= emin f -> 0 <= x < 2 ^ prec f -> mul f (of_Z f x) q = round f (x * q) 1.
Proof.
  intros Hp He Hx. unfold mul. rewrite of_Z_exact by done.
  replace (x * 2 ^ emin f * q) with (x * q * 2 ^ emin f) by lia. apply round_scale. apply Z.pow_pos_nonneg; lia.
Qed.

Lemma Q50_half : Q50 = 2 ^ 1073.
Proof. vm_compute. reflexivity. Qed.

Lemma Q95_between : Q50 <= Q95 <= 2 ^ 1074.
Proof. split; vm_compute; discriminate. Qed.

(** A count is below [2 ^ 53], where every whole number is exact. *)
Lemma position_half n : 1 <= n <= 2 ^ 53 -> Stats.position n Q50 = (n - 1) / 2.
Proof.
  intros Hn. unfold Stats.position. rewrite mul_whole, Q50_half by (cbn; lia).
  rewrite round_scaled by (cbn [prec binary64]; lia).
  replace (2 ^ 1074) with (2 * 2 ^ 1073) by (rewrite <- Z.pow_succ_r; [done|lia]).
  apply Z.div_mul_cancel_r; [lia|]. apply Z.pow_nonzero; lia.
Qed.

Lemma position_95 n : 1 <= n <= 2 ^ 53 -> (n - 1) / 2 <= Stats.position n Q95 <= n - 1.
Proof.
  intros Hn. rewrite <- position_half by done. unfold Stats.position. rewrite !mul_whole by (cbn; lia).
  destruct Q95_between as [H1 H2]. assert (0 <= Q50) by (rewrite Q50_half; apply Z.pow_nonneg; lia).
  assert (Hpow : 0 < 2 ^ 1074) by (apply Z.pow_pos_nonneg; lia). split.
  - apply Z.div_le_mono; [done|]. apply round_mono; [done|]. nia.
  - apply Z.div_le_upper_bound; [done|]. etrans; [apply (round_mono binary64 _ ((n - 1) * 2 ^ 1074)); [done|nia]|].
    rewrite round_scaled by (cbn [prec binary64]; lia). lia.
Qed.
End positions.

Lemma sorted_lookup (l : list Z) i j a b :
  Sorted Z.le l -> (i <= j)%nat -> l !! i = Some a -> l !! j = Some b -> a <= b.
Proof.
  intros Hs. apply Sorted_StronglySorted in Hs; [|intros ???; lia]. revert i j.
  induction Hs as [|x l Hs IH Hx]; intros i j Hij Ha Hb; [done|]. destruct i as [|i], j as [|j]; cbn in *; try lia.
  - simplify_eq. lia.
  - simplify_eq. rewrite List.Forall_forall in Hx. apply Hx. by eapply list_elem_of_In, list_elem_of_lookup_2.
  - by eapply (IH i j); [lia|..].
Qed.

Lemma index_lookup (l : list Z) i : 0 <= i < len l -> exists v, index (E := Error) l i = Ok v /\ l !! Z.to_nat i = Some v.
Proof.
  intros Hi. destruct (index_ok (E := Error) l i Hi) as (v & Hv & _). exists v. split; [done|].
  unfold index in Hv. by inv_run Hv.
Qed.

(** What is picked of a sample. *)
Lemma from_sample (values : list Z) :
  values <> [] -> len values <= 2 ^ 53 ->
  exists st l, Stats.from values = Ok st /\ l ≡ₚ values /\ Sorted Z.le l /\
    l !! Z.to_nat ((len values - 1) / 2) = Some (st_median st) /\
    (exists i, (Z.to_nat ((len values - 1) / 2) <= i < length values)%nat /\ l !! i = Some (st_p95 st)).
Proof.
  intros Hne Hlen. set (l := merge_sort Z.le values). assert (Hperm : l ≡ₚ values) by apply merge_sort_Permutation.
  assert (Hsort : Sorted Z.le l) by (apply Sorted_merge_sort; intros ??; lia).
  assert (Hl : len l = len values) by (rewrite !len_length; by rewrite Hperm).
  assert (Hn : 1 <= len values) by (destruct values; [done|rewrite len_cons; pose proof (len_nonneg values); lia]).
  assert (Hmid : 0 <= (len values - 1) / 2 < len l) by (rewrite Hl; Z.to_euclidean_division_equations; lia).
  destruct (position_95 (len values)) as [Hlo Hhi]; [lia|].
  destruct (index_lookup l _ Hmid) as (m & Hm & Hml).
  destruct (index_lookup l (Stats.position (len values) Q95)) as (p & Hp & Hpl); [lia|].
  exists (mkStats m p), l. unfold Stats.from, Stats.pick. fold l. rewrite Hl.
  destruct (Z.eqb_spec (len values) 0); [lia|]. rewrite position_half, Hm by lia. rewrite Hp.
  split_and!; [done..|]. exists (Z.to_nat (Stats.position (len values) Q95)). rewrite !len_length in *. split; [lia|done].
Qed.

Lemma batches_spec {W} (now : W -> Z) f n per_batch (w : W) :
  (batches now f n per_batch w).1 = times f (n * per_batch) w /\ length (batches now f n per_batch w).2 = n.
Proof.
  revert w. induction n as [|n IH]; intros w; cbn [batches]; [done|].
  destruct (IH (times f per_batch w)) as [Hw Hl]. destruct (batches _ _ _ _ _) as [w' values]. cbn [fst snd length] in *.
  split; [|by rewrite Hl]. rewrite Hw. unfold times.
  replace (S n * per_batch)%nat with (n * per_batch + per_batch)%nat by lia. by rewrite Nat.iter_add.
Qed.

(** The measurement runs the function as often as it was asked to, and reports
    the middle of what it saw and a value no smaller, both of them durations
    that were measured; it panics exactly when asked for no samples. *)
Theorem measure_reports_its_sample {W} (now : W -> Z) (f : W -> W) (warmup samples : nat) (w : W) :
  Z.of_nat samples <= 2 ^ 53 ->
  let (w', r) := measure now f warmup samples w in
  let values := (batches now f samples 1 (times f warmup w)).2 in
  w' = times f (warmup + samples) w /\
  (samples = 0%nat -> r = Panic) /\
  (samples <> 0%nat -> exists st l, r = Ok st /\ l ≡ₚ values /\ Sorted Z.le l /\
     l !! ((samples - 1) / 2)%nat = Some (st_median st) /\ st_p95 st ∈ values /\ st_median st <= st_p95 st).
Proof.
  intros Hs. unfold measure. destruct (batches_spec now f samples 1 (times f warmup w)) as [Hw Hl].
  destruct (batches now f samples 1 (times f warmup w)) as [w' values]. cbn [fst snd] in *. split_and!.
  - rewrite Hw, Nat.mul_1_r. unfold times. by rewrite (Nat.add_comm warmup), Nat.iter_add.
  - intros ->. by destruct values.
  - intros Hne. assert (Hn : len values = Z.of_nat samples) by (rewrite len_length; lia).
    destruct (from_sample values) as (st & l & Hf & Hp & Hsort & Hm & i & Hi & Hpi); [by intros ->|lia|].
    assert (Z.to_nat ((len values - 1) / 2) = ((samples - 1) / 2)%nat) as Hmid.
    { rewrite Hn. replace (Z.of_nat samples - 1) with (Z.of_nat (samples - 1)) by lia.
      change 2 with (Z.of_nat 2). rewrite <- Nat2Z.inj_div. apply Nat2Z.id. }
    rewrite Hmid in *. exists st, l. split_and!; [done..| |].
    + rewrite <- Hp. by eapply list_elem_of_lookup_2.
    + by eapply (sorted_lookup l ((samples - 1) / 2) i); [|lia|..].
Qed.

(** Five runs on a clock that jumps. *)
Example measure_picks :
  (measure (fun w => w * w) (Z.add 1) 1 5 0).2 = Ok (mkStats 7 9).
Proof. vm_compute. reflexivity. Qed.
