(* ===== verification/Streams.v ===== *)
(** * Messages on a stream (crates/bench/src/transports.rs)

    The TLS side of the comparison puts messages on a byte stream behind a
    length, and its echo server cuts them apart again. [Stream] is what the
    code calls of a stream (the [Read] and [Write] of [std], whose [read_exact]
    and [write_all] are loops over them); the stream itself, TLS over TCP, is a
    library's, and [StreamLaws] what it promises: bytes come out in order,
    in pieces of any size, with interruptions and possibly a failure. [Counted]
    is a stream that counts what it moves. *)
From S2P Require Import Prelude Bytes Error.

Inductive StreamError := Interrupted | UnexpectedEof | WriteZero | Failed.
Abbreviation StreamResult := (result StreamError).

Class Stream (S : Type) := {
  st_read : S -> Z -> S * StreamResult bytes;
  st_write : S -> bytes -> S * StreamResult Z;
  st_flush : S -> S * StreamResult unit;
}.

(** What a stream promises: [incoming] is all that will ever come out of it,
    [sent] all that has gone in, [patience] bounds the interruptions to come,
    and a [steady] stream does not fail. *)
Class StreamLaws (S : Type) `{Stream S} := {
  incoming : S -> bytes;
  sent : S -> bytes;
  patience : S -> nat;
  steady : S -> Prop;
  incoming_ok s : bytes_ok (incoming s);
  read_law s n :
    let (s', r) := st_read s n in
    sent s' = sent s /\ (steady s -> steady s') /\
    match r with
    | Ok chunk => incoming s = chunk ++ incoming s' /\ len chunk <= Z.max 0 n /\ (patience s' <= patience s)%nat /\
        (0 < n -> incoming s <> [] -> chunk <> [])
    | Err Interrupted => incoming s' = incoming s /\ (patience s' < patience s)%nat
    | Err _ => ~ steady s
    | Panic => False
    end;
  write_law s data :
    let (s', r) := st_write s data in
    incoming s' = incoming s /\ (steady s -> steady s') /\
    match r with
    | Ok k => 0 <= k <= len data /\ sent s' = sent s ++ takez k data /\ (patience s' <= patience s)%nat /\
        (steady s -> data <> [] -> 0 < k)
    | Err Interrupted => sent s' = sent s /\ (patience s' < patience s)%nat
    | Err _ => ~ steady s /\ sent s' = sent s
    | Panic => False
    end;
  flush_law s :
    let (s', r) := st_flush s in
    incoming s' = incoming s /\ sent s' = sent s /\ (steady s -> steady s') /\ (patience s' <= patience s)%nat /\
    match r with Ok _ => True | Err _ => ~ steady s | Panic => False end;
}.

(** ** [Read::read_exact] and [Write::write_all]; [None] is fuel spent *)
Section std.
Context {S : Type} `{Stream S}.

Fixpoint read_exact (fuel : nat) (s : S) (n : Z) (got : bytes) : S * option (StreamResult bytes) :=
  if n <=? 0 then (s, Some (Ok got)) else
  match fuel with
  | O => (s, None)
  | Datatypes.S fuel =>
      let (s, r) := st_read s n in
      match r with
      | Ok [] => (s, Some (Err UnexpectedEof))
      | Ok chunk => read_exact fuel s (n - len chunk) (got ++ chunk)
      | Err Interrupted => read_exact fuel s n got
      | r => (s, Some r)
      end
  end.

Fixpoint write_all (fuel : nat) (s : S) (data : bytes) : S * option (StreamResult unit) :=
  if len data =? 0 then (s, Some (Ok tt)) else
  match fuel with
  | O => (s, None)
  | Datatypes.S fuel =>
      let (s, r) := st_write s data in
      match r with
      | Ok k => if k =? 0 then (s, Some (Err WriteZero)) else write_all fuel s (dropz k data)
      | Err Interrupted => write_all fuel s data
      | Err e => (s, Some (Err e))
      | Panic => (s, Some Panic)
      end
  end.
End std.

(** ** The echo server and its client *)
Module TlsEcho.
(** [body.len()]. *)
Definition BODY : Z := 65535.

Inductive Turn := Again | Done | Spent.

Section server.
Context {S : Type} `{Stream S}.

(** A turn of the thread that serves one stream. *)
Definition turn (fuel : nat) (s : S) : S * Turn :=
  let (s, r) := read_exact fuel s 4 [] in
  match r with
  | Some (Ok header) =>
      let n := from_le header in
      if BODY <? n then (s, Done) else
      let (s, r) := read_exact fuel s n [] in
      match r with
      | Some (Ok body) =>
          let (s, r) := write_all fuel s (header ++ body) in
          match r with
          | Some (Ok _) => let (s, r) := st_flush s in (s, match r with Ok _ => Again | _ => Done end)
          | Some _ => (s, Done)
          | None => (s, Spent)
          end
      | Some _ => (s, Done)
      | None => (s, Spent)
      end
  | Some _ => (s, Done)
  | None => (s, Spent)
  end.

(** The thread: whether it came to its end. *)
Fixpoint serve (turns fuel : nat) (s : S) : S * bool :=
  match turns with
  | O => (s, false)
  | Datatypes.S turns =>
      let (s, t) := turn fuel s in
      match t with Again => serve turns fuel s | Done => (s, true) | Spent => (s, false) end
  end.

(** A message with its length in front. *)
Definition frame (payload : bytes) : bytes := to_le 4 (wrap32 (len payload)) ++ payload.

(** Every [expect] panics on a failure; [buf] is the caller's. *)
Definition tls_round_trip (fuel : nat) (s : S) (payload buf : bytes) : S * option (StreamResult bytes) :=
  let (s, r) := write_all fuel s (frame payload) in
  match r with
  | Some (Ok _) =>
      let (s, r) := st_flush s in
      match r with
      | Ok _ =>
          let (s, r) := read_exact fuel s 4 [] in
          match r with
          | Some (Ok back) =>
              let n := from_le back in
              if len buf <? n then (s, Some Panic) else
              let (s, r) := read_exact fuel s n [] in
              match r with
              | Some (Ok body) => (s, Some (Ok (body ++ dropz n buf)))
              | Some _ => (s, Some Panic)
              | None => (s, None)
              end
          | Some _ => (s, Some Panic)
          | None => (s, None)
          end
      | _ => (s, Some Panic)
      end
  | Some _ => (s, Some Panic)
  | None => (s, None)
  end.
End server.

(** ** What the server is to send back: the whole messages at the front of what
    comes, up to the first that is cut short or too long. *)
Fixpoint whole_frames (turns : nat) (b : bytes) : bytes :=
  match turns with
  | O => []
  | S turns =>
      let n := 4 + from_le (takez 4 b) in
      if (len b <? n) || (len b <? 4) || (4 + BODY <? n) then [] else takez n b ++ whole_frames turns (dropz n b)
  end.

Definition whole (b : bytes) : bytes := whole_frames (length b) b.
End TlsEcho.

(** ** A stream that counts *)
Record Counted (S : Type) := mkCounted { ct_inner : S; ct_written : Z; ct_read : Z }.
Arguments mkCounted {S}.
Arguments ct_inner {S}.
Arguments ct_written {S}.
Arguments ct_read {S}.

Module Counted.
Section counted.
Context {S : Type} `{Stream S}.

Definition new (inner : S) : Counted S := mkCounted inner 0 0.

(** [fetch_add] on an [AtomicU64] wraps. *)
Definition read (c : Counted S) (n : Z) : Counted S * StreamResult bytes :=
  let (s, r) := st_read (ct_inner c) n in
  match r with
  | Ok chunk => (mkCounted s (ct_written c) ((ct_read c + len chunk) mod 2 ^ 64), r)
  | _ => (mkCounted s (ct_written c) (ct_read c), r)
  end.

Definition write (c : Counted S) (data : bytes) : Counted S * StreamResult Z :=
  let (s, r) := st_write (ct_inner c) data in
  match r with
  | Ok k => (mkCounted s ((ct_written c + k) mod 2 ^ 64) (ct_read c), r)
  | _ => (mkCounted s (ct_written c) (ct_read c), r)
  end.

Definition flush (c : Counted S) : Counted S * StreamResult unit :=
  let (s, r) := st_flush (ct_inner c) in (mkCounted s (ct_written c) (ct_read c), r).
End counted.
End Counted.

#[export] Instance counted_stream {S} `{Stream S} : Stream (Counted S) :=
  {| st_read := Counted.read; st_write := Counted.write; st_flush := Counted.flush |}.

(** ** The loops of [std] on a lawful stream *)
Section loops.
Context {S : Type} `{StreamLaws S}.

Lemma read_exact_spec fuel s n got :
  (patience s + length (incoming s) < fuel)%nat ->
  let (s', r) := read_exact fuel s n got in
  sent s' = sent s /\ (steady s -> steady s') /\
  match r with
  | Some (Ok b) => (patience s' <= patience s)%nat /\
      exists c, b = got ++ c /\ len c = Z.max 0 n /\ incoming s = c ++ incoming s'
  | Some (Err _) => steady s -> len (incoming s) < n
  | _ => False
  end.
Proof.
  revert s n got. induction fuel as [|fuel IH]; intros s n got Hf; [lia|]. cbn [read_exact].
  destruct (Z.leb_spec n 0) as [Hn|Hn].
  { split_and!; [done..|]. exists []. rewrite app_nil_r. split_and!; [done|rewrite len_nil; lia|done]. }
  pose proof (read_law s n) as Hr. destruct (st_read s n) as [s1 r]. destruct Hr as (Hs & Hst & Hr).
  destruct r as [[|b chunk]|e|]; [| |destruct e; try (by split_and!)|done].
  - destruct Hr as (_ & _ & Hp & Hne). split_and!; [done..|]. intros _.
    destruct (incoming s); [rewrite len_nil; lia|]. by destruct Hne.
  - destruct Hr as (Hin & Hlen & Hp & _).
    assert (Hl : (length (incoming s1) < length (incoming s))%nat) by (rewrite Hin, length_app; cbn; lia).
    specialize (IH s1 (n - len (b :: chunk)) (got ++ b :: chunk) ltac:(lia)).
    destruct (read_exact fuel s1 _ _) as [s2 r]. destruct IH as (Hs2 & Hst2 & IH).
    split_and!; [congruence|tauto|]. destruct r as [[v|e|]|]; [| |done..].
    + destruct IH as (Hp2 & c & -> & Hc & Hin2). split; [lia|]. exists ((b :: chunk) ++ c).
      rewrite <- !app_assoc, Hin, Hin2. split_and!; [done| |done]. rewrite len_app. lia.
    + intros Hsteady. rewrite Hin, len_app. specialize (IH (Hst Hsteady)). lia.
  - destruct Hr as [Hin Hp]. specialize (IH s1 n got ltac:(rewrite Hin; lia)).
    destruct (read_exact fuel s1 _ _) as [s2 r]. destruct IH as (Hs2 & Hst2 & IH).
    split_and!; [congruence|tauto|]. rewrite Hin in IH. destruct r as [[v|e|]|]; [|tauto|done..].
    destruct IH as [? IH]. split; [lia|done].
Qed.

Lemma write_all_spec fuel s data :
  (patience s + length data < fuel)%nat ->
  let (s', r) := write_all fuel s data in
  incoming s' = incoming s /\ (steady s -> steady s') /\
  match r with
  | Some (Ok _) => sent s' = sent s ++ data /\ (patience s' <= patience s)%nat
  | Some (Err _) => ~ steady s /\ exists k, sent s' = sent s ++ takez k data
  | _ => False
  end.
Proof.
  revert s data. induction fuel as [|fuel IH]; intros s data Hf; [lia|]. cbn [write_all].
  destruct (Z.eqb_spec (len data) 0) as [Hd|Hd].
  { destruct data as [|b data]; [rewrite app_nil_r; by split_and!|]. rewrite len_cons in Hd. pose proof (len_nonneg data). lia. }
  pose proof (write_law s data) as Hr. destruct (st_write s data) as [s1 r]. destruct Hr as (Hin & Hst & Hr).
  assert (data <> []) as Hne by (intros ->; done).
  destruct r as [k|e|]; [|destruct e|done].
  - destruct Hr as (Hk & Hs & Hp & Hpos). destruct (Z.eqb_spec k 0) as [->|Hk0].
    { split_and!; [done..| |exists 0; by rewrite Hs]. intros Hsteady. specialize (Hpos Hsteady Hne). lia. }
    assert (Hl : (length (dropz k data) < length data)%nat).
    { apply Nat2Z.inj_lt. rewrite <- !len_length, len_dropz. lia. }
    specialize (IH s1 (dropz k data) ltac:(lia)). destruct (write_all fuel s1 _) as [s2 r].
    destruct IH as (Hin2 & Hst2 & IH). split_and!; [congruence|tauto|]. destruct r as [[v|e|]|]; [| |done..].
    + destruct IH as [-> Hp2]. rewrite Hs, <- app_assoc, takez_dropz. split; [done|lia].
    + destruct IH as [Hns [k2 Hk2]]. split; [tauto|]. exists (k + Z.max 0 k2). rewrite Hk2, Hs, <- app_assoc. f_equal.
      rewrite <- (takez_dropz k data) at 3. rewrite takez_app_ge by (rewrite len_takez; lia).
      rewrite len_takez. f_equal. replace (k + Z.max 0 k2 - Z.max 0 (Z.min k (len data))) with (Z.max 0 k2) by lia.
      destruct (Z.le_gt_cases 0 k2); [by replace (Z.max 0 k2) with k2 by lia|]. by rewrite !takez_0 by lia.
  - destruct Hr as [Hs Hp]. specialize (IH s1 data ltac:(lia)). destruct (write_all fuel s1 _) as [s2 r].
    destruct IH as (Hin2 & Hst2 & IH). rewrite Hs in IH. split_and!; [congruence|tauto|].
    destruct r as [[v|e|]|]; [|tauto|done..]. destruct IH as [? IH]. split; [done|lia].
  - destruct Hr as [? Hs]. split_and!; [done..|]. exists 0. by rewrite Hs, takez_0, app_nil_r.
  - destruct Hr as [? Hs]. split_and!; [done..|]. exists 0. by rewrite Hs, takez_0, app_nil_r.
  - destruct Hr as [? Hs]. split_and!; [done..|]. exists 0. by rewrite Hs, takez_0, app_nil_r.
Qed.
End loops.

(** ** The whole messages of a stream *)
Section serving.
Import TlsEcho.

Lemma header_nonneg b : bytes_ok b -> 0 <= from_le (takez 4 b).
Proof. intros Hb. pose proof (from_le_range (takez 4 b)) as Hr. specialize (Hr (bytes_ok_takez 4 b Hb)). lia. Qed.

Lemma whole_frames_nil t : whole_frames t [] = [].
Proof. by destruct t. Qed.

Lemma shorter (b : bytes) n : 0 < n -> 4 <= len b -> (length (dropz n b) < length b)%nat.
Proof. intros. apply Nat2Z.inj_lt. rewrite <- !len_length, len_dropz. lia. Qed.

Lemma whole_frames_turns t t' b :
  bytes_ok b -> (length b <= t)%nat -> (length b <= t')%nat -> whole_frames t b = whole_frames t' b.
Proof.
  revert t' b. induction t as [|t IH]; intros t' b Hb Ht Ht'.
  { destruct b; [by rewrite !whole_frames_nil|cbn in Ht; lia]. }
  destruct t' as [|t'].
  { destruct b; [by rewrite !whole_frames_nil|cbn in Ht'; lia]. }
  cbn [whole_frames]. destruct (_ || _) eqn:Hc; [done|]. f_equal.
  apply orb_false_elim in Hc as [[_ H4]%orb_false_elim _]. apply Z.ltb_ge in H4.
  pose proof (header_nonneg b Hb). pose proof (shorter b (4 + from_le (takez 4 b)) ltac:(lia) H4).
  apply IH; [by apply bytes_ok_dropz|lia|lia].
Qed.

(** A message in front is found. *)
Lemma whole_cons header body rest :
  bytes_ok (header ++ body ++ rest) -> len header = 4 -> from_le header = len body -> len body <= BODY ->
  whole (header ++ body ++ rest) = (header ++ body) ++ whole rest.
Proof.
  intros Hok Hh Hn Hb. unfold whole. set (b := header ++ body ++ rest).
  assert (Hlen : len b = 4 + len body + len rest) by (unfold b; rewrite !len_app; lia).
  assert (takez 4 b = header) as Ht by (unfold b; rewrite takez_app_le, takez_all by lia; done).
  pose proof (len_nonneg rest). pose proof (len_nonneg body).
  assert (Hd : dropz (4 + len body) b = rest).
  { unfold b. rewrite app_assoc, dropz_app_ge, dropz_0 by (rewrite len_app; lia). done. }
  assert (Htk : takez (4 + len body) b = header ++ body).
  { unfold b. rewrite app_assoc, takez_app_le, takez_all by (rewrite len_app; lia). done. }
  assert (Hlt : (length rest < length b)%nat) by (apply Nat2Z.inj_lt; rewrite <- !len_length; lia).
  destruct (length b) as [|t]; [lia|]. cbn [whole_frames]. rewrite Ht, Hn, Hd, Htk.
  rewrite !(proj2 (Z.ltb_ge _ _)) by lia. cbn [orb]. f_equal. apply whole_frames_turns; [|lia|lia].
  unfold b in Hok. by apply bytes_ok_app in Hok as [_ [_ Hok]%bytes_ok_app].
Qed.

(** Nothing is found in what is too short or announces too much. *)
Lemma whole_none b :
  len b < 4 \/ BODY < from_le (takez 4 b) \/ len b < 4 + from_le (takez 4 b) -> whole b = [].
Proof.
  intros Hb. unfold whole. destruct (length b) as [|t]; [done|]. cbn [whole_frames].
  assert ((len b <? 4 + from_le (takez 4 b)) || (len b <? 4) || (4 + BODY <? 4 + from_le (takez 4 b)) = true) as ->;
    [|done]. repeat zcase; rewrite ?orb_true_r; done || lia.
Qed.

Lemma len_frame payload : len (frame payload) = 4 + len payload.
Proof. unfold frame. rewrite len_app, len_to_le. lia. Qed.

Lemma from_le_frame (payload : bytes) : len payload < 2 ^ 32 -> from_le (to_le 4 (wrap32 (len payload))) = len payload.
Proof.
  intros Hp. pose proof (len_nonneg payload). unfold wrap32. rewrite Z.mod_small by lia. apply from_le_to_le. lia.
Qed.

Lemma whole_framed (payloads : list bytes) rest :
  Forall (fun p : bytes => bytes_ok p /\ len p <= BODY) payloads -> bytes_ok rest ->
  whole (concat (map frame payloads) ++ rest) = concat (map frame payloads) ++ whole rest.
Proof.
  intros Hp Hr. induction Hp as [|p ps [Hok Hl] Hps IH]; [done|]. cbn [map concat]. unfold frame at 1.
  rewrite <- !app_assoc, whole_cons; [by rewrite IH, <- !app_assoc| |by rewrite len_to_le| |done].
  - apply bytes_ok_app. split; [apply bytes_ok_to_le|]. apply bytes_ok_app. split; [done|].
    apply bytes_ok_app. split; [|done]. clear IH. induction Hps as [|q qs [Hq _] _ IHq]; [constructor|]. cbn [map concat].
    apply bytes_ok_app. split; [|done]. apply bytes_ok_app. split; [apply bytes_ok_to_le|done].
  - apply from_le_frame. unfold BODY in Hl. lia.
Qed.
End serving.

(** ** The server, turn by turn *)
Section turns.
Import TlsEcho.
Context {S : Type} `{StreamLaws S}.

Lemma turn_spec fuel (s : S) :
  (patience s + length (incoming s) < fuel)%nat ->
  let (s', t) := turn fuel s in
  match t with
  | Spent => False
  | Again => (steady s -> steady s') /\ (patience s' <= patience s)%nat /\
      exists f, f <> [] /\ incoming s = f ++ incoming s' /\ sent s' = sent s ++ f /\
        whole (incoming s) = f ++ whole (incoming s')
  | Done => exists out, sent s' = sent s ++ out /\ out `prefix_of` whole (incoming s) /\
      (steady s -> out = whole (incoming s))
  end.
Proof.
  intros Hf. unfold turn. pose proof (incoming_ok s) as Hok.
  assert (Hstop : forall s' : S, sent s' = sent s -> (steady s -> whole (incoming s) = []) ->
    exists out, sent s' = sent s ++ out /\ out `prefix_of` whole (incoming s) /\ (steady s -> out = whole (incoming s))).
  { intros s' Hs Hw. exists []. rewrite app_nil_r. split_and!; [done|apply prefix_nil|]. intros Hst. by rewrite Hw. }
  pose proof (read_exact_spec fuel s 4 [] Hf) as R1. destruct (read_exact fuel s 4 []) as [s1 r1].
  destruct R1 as (Hs1 & Hst1 & R1). destruct r1 as [[header|e|]|]; [| |done..].
  2: { apply Hstop; [done|]. intros Hst. apply whole_none. by left; apply R1. }
  destruct R1 as (Hp1 & ? & -> & Hh & Hin1). rewrite app_nil_l in *. rename x into header.
  assert (Htk : takez 4 (incoming s) = header) by (rewrite Hin1, takez_app_le, takez_all by lia; done).
  destruct (Z.ltb_spec BODY (from_le header)) as [Hbig|Hfit].
  { apply Hstop; [done|]. intros _. apply whole_none. rewrite Htk. by right; left. }
  assert (Hl1 : length (incoming s) = (length header + length (incoming s1))%nat) by (by rewrite Hin1, length_app).
  pose proof (read_exact_spec fuel s1 (from_le header) [] ltac:(lia)) as R2.
  destruct (read_exact fuel s1 (from_le header) []) as [s2 r2]. destruct R2 as (Hs2 & Hst2 & R2).
  destruct r2 as [[body|e|]|]; [| |done..].
  2: { apply Hstop; [congruence|]. intros Hst. apply whole_none. right; right. rewrite Htk, Hin1, len_app. specialize (R2 (Hst1 Hst)). lia. }
  destruct R2 as (Hp2 & ? & -> & Hb & Hin2). rewrite app_nil_l in *. rename x into body.
  pose proof (header_nonneg _ Hok) as Hnn. rewrite Htk in Hnn.
  assert (Hw : whole (incoming s) = (header ++ body) ++ whole (incoming s2)).
  { rewrite Hin1, Hin2 in *. apply whole_cons; [done|lia|lia|lia]. }
  assert (Hl2 : length (incoming s1) = (length body + length (incoming s2))%nat) by (by rewrite Hin2, length_app).
  pose proof (write_all_spec fuel s2 (header ++ body) ltac:(rewrite length_app; lia)) as R3.
  destruct (write_all fuel s2 (header ++ body)) as [s3 r3]. destruct R3 as (Hin3 & Hst3 & R3).
  destruct r3 as [[?|e|]|]; [| |done..].
  2: { destruct R3 as [Hns [k Hk]]. exists (takez k (header ++ body)). split_and!; [congruence| |tauto].
    rewrite Hw. apply prefix_app_r. exists (dropz k (header ++ body)). by rewrite takez_dropz. }
  destruct R3 as [Hs3 Hp3]. pose proof (flush_law s3) as R4. destruct (st_flush s3) as [s4 r4].
  destruct R4 as (Hin4 & Hs4 & Hst4 & Hp4 & R4). destruct r4 as [?|e|]; [| |done].
  - split_and!; [tauto|lia|]. exists (header ++ body). rewrite Hin4, Hin3. split_and!; [|by rewrite Hin1, Hin2, <- app_assoc|congruence|done].
    intros [-> _]%app_nil. done.
  - exists (header ++ body). split_and!; [congruence| |tauto]. rewrite Hw. by apply prefix_app_r.
Qed.

Lemma serve_spec turns fuel (s : S) :
  (patience s + length (incoming s) < fuel)%nat -> (length (incoming s) < turns)%nat ->
  let (s', ended) := serve turns fuel s in
  ended = true /\ exists out, sent s' = sent s ++ out /\ out `prefix_of` whole (incoming s) /\
    (steady s -> out = whole (incoming s)).
Proof.
  revert s. induction turns as [|turns IH]; intros s Hf Ht; [lia|]. cbn [serve].
  pose proof (turn_spec fuel s Hf) as T. destruct (turn fuel s) as [s1 t]. destruct t; [|by split|done].
  destruct T as (Hst & Hp & f & Hne & Hin & Hs & Hw).
  assert (Hl : (length (incoming s1) < length (incoming s))%nat) by (rewrite Hin, length_app; destruct f; cbn; [done|lia]).
  specialize (IH s1 ltac:(lia) ltac:(lia)). destruct (serve turns fuel s1) as [s2 ended].
  destruct IH as (-> & out & Hs2 & Hpre & Heq). split; [done|]. exists (f ++ out).
  rewrite Hs2, Hs, Hw, <- app_assoc. split_and!; [done|by apply prefix_app|]. intros Hsteady. by rewrite Heq by tauto.
Qed.

(** The client, on a stream on which its own message comes back. *)
Lemma round_trip_spec fuel (c : S) payload buf rest :
  steady c -> (patience c + length (incoming c) + 4 + length payload < fuel)%nat ->
  incoming c = frame payload ++ rest -> len payload < 2 ^ 32 -> len payload <= len buf ->
  let (c', r) := tls_round_trip fuel c payload buf in
  r = Some (Ok (payload ++ dropz (len payload) buf)) /\ sent c' = sent c ++ frame payload /\ incoming c' = rest.
Proof.
  intros Hst Hf Hin Hsmall Hroom. unfold tls_round_trip.
  assert (Hlf : length (frame payload) = (4 + length payload)%nat).
  { apply Nat2Z.inj. rewrite Nat2Z.inj_add, <- !len_length. by rewrite len_frame. }
  pose proof (write_all_spec fuel c (frame payload) ltac:(lia)) as R1. destruct (write_all fuel c _) as [c1 r1].
  destruct R1 as (Hin1 & Hst1 & R1). destruct r1 as [[?|e|]|]; [|tauto|done..]. destruct R1 as [Hs1 Hp1].
  pose proof (flush_law c1) as R2. destruct (st_flush c1) as [c2 r2]. destruct R2 as (Hin2 & Hs2 & Hst2 & Hp2 & R2).
  destruct r2 as [?|e|]; [|tauto|done].
  assert (Hin2' : incoming c2 = frame payload ++ rest) by congruence.
  assert (Hl : length (incoming c) = length (incoming c2)) by congruence.
  pose proof (read_exact_spec fuel c2 4 [] ltac:(lia)) as R3. destruct (read_exact fuel c2 4 []) as [c3 r3].
  destruct R3 as (Hs3 & Hst3 & R3). pose proof (len_nonneg payload). pose proof (len_nonneg rest).
  assert (Hlen : len (incoming c2) = 4 + len payload + len rest) by (rewrite Hin2', len_app, len_frame; lia).
  destruct r3 as [[back|e|]|]; [|specialize (R3 ltac:(tauto)); lia|done..]. destruct R3 as (Hp3 & b & -> & Hb & Hin3).
  rewrite Hin2' in Hin3. unfold frame in Hin3. rewrite <- app_assoc in Hin3.
  apply app_inj_1 in Hin3 as [<- Hin3]; [|apply Nat2Z.inj; rewrite <- !len_length, len_to_le; lia].
  rewrite app_nil_l, from_le_frame by lia. destruct (Z.ltb_spec (len buf) (len payload)); [lia|].
  assert (Hl3 : (length (incoming c3) <= length (incoming c2))%nat)
    by (rewrite <- Hin3, Hin2', !length_app; lia).
  pose proof (read_exact_spec fuel c3 (len payload) [] ltac:(lia)) as R4.
  destruct (read_exact fuel c3 _ []) as [c4 r4]. destruct R4 as (Hs4 & Hst4 & R4). rewrite <- Hin3 in R4.
  destruct r4 as [[body|e|]|]; [|specialize (R4 ltac:(tauto)); rewrite len_app in R4; lia|done..].
  destruct R4 as (_ & b2 & -> & Hb2 & Hin4).
  apply app_inj_1 in Hin4 as [<- Hin4]; [|apply Nat2Z.inj; rewrite <- !len_length; lia].
  split_and!; [done|congruence|done].
Qed.
End turns.

(** The echo server of the TLS comparison sends back exactly the whole
    messages at the front of its stream, however the stream is cut into reads
    and writes and however often it is interrupted: it stops at the first one
    that is cut short or announces more than its buffer, and when the stream
    fails on the way, what it has sent is a beginning of that. Of messages that
    fit, framed as the client frames them, that is all of them; and a client on
    whose stream its message comes back reads that message. *)
Theorem tls_echo_cuts_the_stream {S C} `{StreamLaws S} `{StreamLaws C} (fuel : nat) (s : S) (c : C)
    (payloads : list bytes) (payload buf rest : bytes) :
  (patience s + length (incoming s) < fuel)%nat ->
  (let (s', ended) := TlsEcho.serve fuel fuel s in
   ended = true /\ exists out, sent s' = sent s ++ out /\ out `prefix_of` TlsEcho.whole (incoming s) /\
     (steady s -> out = TlsEcho.whole (incoming s))) /\
  (Forall (fun p : bytes => bytes_ok p /\ len p <= TlsEcho.BODY) payloads ->
   TlsEcho.whole (concat (map TlsEcho.frame payloads)) = concat (map TlsEcho.frame payloads)) /\
  (steady c -> (patience c + length (incoming c) + 4 + length payload < fuel)%nat ->
   incoming c = TlsEcho.frame payload ++ rest -> len payload < 2 ^ 32 -> len payload <= len buf ->
   let (c', r) := TlsEcho.tls_round_trip fuel c payload buf in
   r = Some (Ok (payload ++ dropz (len payload) buf)) /\ sent c' = sent c ++ TlsEcho.frame payload /\ incoming c' = rest).
Proof.
  intros Hf. split; [apply serve_spec; lia|]. split; [|by intros; apply round_trip_spec].
  intros Hp. rewrite <- (app_nil_r (concat _)) at 1. rewrite whole_framed by (done || constructor).
  by rewrite app_nil_r.
Qed.

(** ** A pipe that moves a few bytes at a time *)
Record Pipe := mkPipe {
  pi_in : list Z;
  pi_out : bytes;
  (** How many bytes the next calls move at most; 0 is an interruption. *)
  pi_pace : list Z;
}.

Module Pipe.
Definition octets (l : list Z) : bytes := map (fun b => b mod 256) l.

Definition read (p : Pipe) (n : Z) : Pipe * StreamResult bytes :=
  match pi_pace p with
  | k :: pace =>
      if k <=? 0 then (mkPipe (pi_in p) (pi_out p) pace, Err Interrupted)
      else (mkPipe (dropz (Z.min k n) (pi_in p)) (pi_out p) pace, Ok (octets (takez (Z.min k n) (pi_in p))))
  | [] => (mkPipe (dropz n (pi_in p)) (pi_out p) [], Ok (octets (takez n (pi_in p))))
  end.

Definition write (p : Pipe) (data : bytes) : Pipe * StreamResult Z :=
  match pi_pace p with
  | k :: pace =>
      if k <=? 0 then (mkPipe (pi_in p) (pi_out p) pace, Err Interrupted)
      else (mkPipe (pi_in p) (pi_out p ++ takez (Z.min k (len data)) data) pace, Ok (Z.min k (len data)))
  | [] => (mkPipe (pi_in p) (pi_out p ++ data) [], Ok (len data))
  end.
End Pipe.

#[export] Instance pipe_stream : Stream Pipe :=
  {| st_read := Pipe.read; st_write := Pipe.write; st_flush p := (p, Ok tt) |}.

Lemma octets_ok l : bytes_ok (Pipe.octets l).
Proof. induction l as [|b l IH]; constructor; [|done]. pose proof (Z.mod_pos_bound b 256). lia. Qed.

Lemma octets_cut n l : Pipe.octets l = Pipe.octets (takez n l) ++ Pipe.octets (dropz n l).
Proof. unfold Pipe.octets. by rewrite <- map_app, takez_dropz. Qed.

Lemma len_octets l : len (Pipe.octets l) = len l.
Proof. rewrite !len_length. unfold Pipe.octets. by rewrite length_map. Qed.

Lemma octets_take_nonempty n l : 0 < n -> Pipe.octets l <> [] -> Pipe.octets (takez n l) <> [].
Proof.
  intros Hn Hl Ht. apply Hl. destruct l as [|b l]; [done|]. assert (He : len (Pipe.octets (takez n (b :: l))) = 0) by (by rewrite Ht).
  rewrite len_octets, len_takez, len_cons in He. pose proof (len_nonneg l). lia.
Qed.

#[export] Program Instance pipe_laws : StreamLaws Pipe :=
  {| incoming p := Pipe.octets (pi_in p); sent := pi_out; patience p := length (pi_pace p); steady _ := True |}.
Next Obligation. intros. apply octets_ok. Qed.
Next Obligation.
  intros [l out pace] n. cbn. unfold Pipe.read. cbn. destruct pace as [|k pace]; cbn.
  - split_and!; [done..|apply octets_cut|rewrite len_octets, len_takez; lia|lia|apply octets_take_nonempty].
  - destruct (Z.leb_spec k 0); cbn; [split_and!; [done..|lia]|].
    split_and!; [done..|apply octets_cut|rewrite len_octets, len_takez; lia|lia|]. intros. by apply octets_take_nonempty; [lia|].
Qed.
Next Obligation.
  intros [l out pace] data. cbn. unfold Pipe.write. cbn. pose proof (len_nonneg data). destruct pace as [|k pace]; cbn.
  - split_and!; [done..|lia|lia|by rewrite takez_all|lia|]. intros _ ?. destruct data; [done|]. rewrite len_cons. pose proof (len_nonneg data). lia.
  - destruct (Z.leb_spec k 0); cbn; [split_and!; [done..|lia]|].
    split_and!; [done..|lia|lia|done|lia|]. intros _ ?. destruct data; [done|]. rewrite len_cons. pose proof (len_nonneg data). lia.
Qed.
Next Obligation. intros. cbn. by split_and!. Qed.

(** Three messages in, in reads of one to three bytes with interruptions, and
    a fourth that is cut short. *)
Lemma tls_echo_cuts_the_stream_witness :
  let sent := concat (map TlsEcho.frame [[1; 2; 3]; []; [4]]) in
  let s := mkPipe (sent ++ [9; 0; 0; 0; 7]) [] [1; 0; 2; 3; 0; 1; 1] in
  let c := mkPipe (TlsEcho.frame [5; 6]) [] [0; 1; 3] in
  pi_out (TlsEcho.serve 60 60 s).1 = sent /\
  (TlsEcho.tls_round_trip 60 c [5; 6] [0; 0; 0]).2 = Some (Ok [5; 6; 0]).
Proof.
  intros sent s c.
  destruct (tls_echo_cuts_the_stream 60 s c [[1; 2; 3]; []; [4]] [5; 6] [0; 0; 0] []) as (Hs & _ & Hc); [vm_compute; lia|].
  specialize (Hc I ltac:(vm_compute; lia) ltac:(vm_compute; reflexivity) ltac:(vm_compute; reflexivity) ltac:(vm_compute; discriminate)).
  destruct (TlsEcho.serve 60 60 s) as [s' ended]. destruct (TlsEcho.tls_round_trip _ _ _ _) as [c' r]. cbn [fst snd].
  destruct Hs as (_ & out & Hout & _ & Heq), Hc as (-> & _). split; [|vm_compute; reflexivity].
  change (pi_out s') with (Streams.sent s'). rewrite Hout, (Heq I). vm_compute. reflexivity.
Defined.

(** ** The counters *)
Section counted.
Context {S : Type} `{StreamLaws S}.

#[export] Program Instance counted_laws : StreamLaws (Counted S) :=
  {| incoming c := incoming (ct_inner c); sent c := sent (ct_inner c);
     patience c := patience (ct_inner c); steady c := steady (ct_inner c) |}.
Next Obligation. intros. apply incoming_ok. Qed.
Next Obligation.
  intros c n. cbn. unfold Counted.read. pose proof (read_law (ct_inner c) n). by destruct (st_read _ _) as [s' [|[]|]].
Qed.
Next Obligation.
  intros c data. cbn. unfold Counted.write. pose proof (write_law (ct_inner c) data).
  by destruct (st_write _ _) as [s' [|[]|]].
Qed.
Next Obligation.
  intros c. cbn. unfold Counted.flush. pose proof (flush_law (ct_inner c)). by destruct (st_flush _) as [s' [|[]|]].
Qed.

Inductive StreamOp := OpRead (n : Z) | OpWrite (data : bytes) | OpFlush.

Definition stream_op (c : Counted S) (op : StreamOp) : Counted S :=
  match op with OpRead n => (st_read c n).1 | OpWrite data => (st_write c data).1 | OpFlush => (st_flush c).1 end.

Definition tally (c : Counted S) : Z * Z :=
  ((ct_written c - len (sent c)) mod 2 ^ 64, (ct_read c + len (incoming c)) mod 2 ^ 64).

Lemma stream_op_tally c op : steady c -> steady (stream_op c op) /\ tally (stream_op c op) = tally c.
Proof.
  intros Hst. destruct op as [n|data|]; cbn.
  - unfold Counted.read. pose proof (read_law (ct_inner c) n) as R. destruct (st_read _ _) as [s' r]. destruct R as (Hs & Hst' & R).
    cbn in Hst. destruct r as [chunk|[]|]; try tauto; cbn; (split; [tauto|]); unfold tally; cbn; rewrite Hs; [|by rewrite (proj1 R)].
    destruct R as (-> & _). f_equal. rewrite Zplus_mod_idemp_l, len_app. f_equal. lia.
  - unfold Counted.write. pose proof (write_law (ct_inner c) data) as R. destruct (st_write _ _) as [s' r]. destruct R as (Hi & Hst' & R).
    cbn in Hst. destruct r as [k|[]|]; try tauto; cbn; (split; [tauto|]); unfold tally; cbn; rewrite Hi; [|by rewrite (proj1 R)].
    destruct R as (Hk & -> & _). f_equal. rewrite Zminus_mod_idemp_l, len_app, len_takez. f_equal. lia.
  - unfold Counted.flush. pose proof (flush_law (ct_inner c)) as R. destruct (st_flush _) as [s' r].
    destruct R as (Hi & Hs & Hst' & _). split; [by apply Hst'|]. unfold tally. cbn. by rewrite Hi, Hs.
Qed.
End counted.

(** The counters of a [Counted] stream are the bytes it has moved, modulo
    [2 ^ 64], over any calls on a stream that does not fail. *)
Theorem counters_are_exact {S} `{StreamLaws S} (ops : list StreamOp) (inner : S) :
  steady inner ->
  let c := foldl stream_op (Counted.new inner) ops in
  ct_written c = (len (sent (ct_inner c)) - len (sent inner)) mod 2 ^ 64 /\
  ct_read c = (len (incoming inner) - len (incoming (ct_inner c))) mod 2 ^ 64.
Proof.
  intros Hst. assert (Hgen : forall c0 : Counted S, steady c0 -> 0 <= ct_written c0 < 2 ^ 64 -> 0 <= ct_read c0 < 2 ^ 64 ->
    tally (foldl stream_op c0 ops) = tally c0 /\ 0 <= ct_written (foldl stream_op c0 ops) < 2 ^ 64
    /\ 0 <= ct_read (foldl stream_op c0 ops) < 2 ^ 64).
  { induction ops as [|op ops IH]; intros c0 Hc Hw Hr; [done|]. cbn [foldl].
    destruct (stream_op_tally c0 op Hc) as [Hs Ht]. rewrite <- Ht. apply IH; [done|..].
    all: destruct op; cbn; unfold Counted.read, Counted.write, Counted.flush.
    all: repeat (destruct (st_read _ _) as [? []] || destruct (st_write _ _) as [? []] || destruct (st_flush _) as [? []]); cbn; try done.
    all: by apply Z.mod_pos_bound. }
  destruct (Hgen (Counted.new inner)) as (Ht & Hw & Hr); [done|cbn; lia..|]. intros c. unfold tally in Ht. fold c in Ht, Hw, Hr.
  injection Ht as Htw Htr. cbn in Htw, Htr. split.
  - rewrite <- (Z.mod_small (ct_written c) (2 ^ 64)) by done.
    replace (ct_written c) with ((ct_written c - len (sent (ct_inner c))) + len (sent (ct_inner c))) by lia.
    rewrite <- Zplus_mod_idemp_l. cbn in *. rewrite Htw, Zplus_mod_idemp_l. f_equal. lia.
  - rewrite <- (Z.mod_small (ct_read c) (2 ^ 64)) by done.
    replace (ct_read c) with ((ct_read c + len (incoming (ct_inner c))) - len (incoming (ct_inner c))) by lia.
    rewrite <- Zminus_mod_idemp_l. cbn in *. rewrite Htr, Zminus_mod_idemp_l. f_equal.
Qed.
