(* ===== verification/Control.v ===== *)
(** * Rendezvous messages (crates/fectp/src/rendezvous.rs)

    Socket addresses, the control messages between a client and the
    rendezvous, group tags and member certificates, and the datagrams of a
    relay port's conversation with its party. The theorem shows the decoder
    accepts exactly the encodings of well-formed messages. *)
From Stdlib Require Import String.
From stdpp Require Import gmap.
From S2P Require Import Prelude Bytes Error Cipher Symmetric.

(** ** Addresses

    [std::net::SocketAddr]: octets and a port, and for IPv6 the flow
    information and scope that belong to the address but not to the [IpAddr]. *)
Inductive IpAddr :=
| IpV4 (octets : bytes)
| IpV6 (octets : bytes).

Inductive SocketAddr :=
| SocketAddrV4 (octets : bytes) (port : Z)
| SocketAddrV6 (octets : bytes) (port flowinfo scope_id : Z).

#[global] Instance IpAddr_eq_dec : EqDecision IpAddr.
Proof. solve_decision. Defined.

#[global] Instance SocketAddr_eq_dec : EqDecision SocketAddr.
Proof. solve_decision. Defined.

#[global] Instance IpAddr_countable : Countable IpAddr.
Proof.
  refine (inj_countable'
    (fun i => match i with IpV4 o => inl o | IpV6 o => inr o end)
    (fun s => match s with inl o => IpV4 o | inr o => IpV6 o end) _).
  by intros [].
Defined.

#[global] Instance SocketAddr_countable : Countable SocketAddr.
Proof.
  refine (inj_countable'
    (fun a => match a with SocketAddrV4 o p => inl (o, p) | SocketAddrV6 o p f s => inr (o, p, f, s) end)
    (fun s => match s with inl (o, p) => SocketAddrV4 o p | inr (o, p, f, s) => SocketAddrV6 o p f s end)
    _).
  by intros [].
Defined.

Module SocketAddr.
Definition new (ip : IpAddr) (port : Z) : SocketAddr :=
  match ip with IpV4 o => SocketAddrV4 o port | IpV6 o => SocketAddrV6 o port 0 0 end.

Definition ip (a : SocketAddr) : IpAddr :=
  match a with SocketAddrV4 o _ => IpV4 o | SocketAddrV6 o _ _ _ => IpV6 o end.

Definition port (a : SocketAddr) : Z :=
  match a with SocketAddrV4 _ p => p | SocketAddrV6 _ p _ _ => p end.

(** An address the messages can carry: no flow information and no scope. *)
Definition wf (a : SocketAddr) : Prop :=
  match a with
  | SocketAddrV4 o p => len o = 4 /\ bytes_ok o /\ is_u16 p
  | SocketAddrV6 o p f s => len o = 16 /\ bytes_ok o /\ is_u16 p /\ f = 0 /\ s = 0
  end.
End SocketAddr.

(** [IpAddr::is_unspecified]. *)
Definition is_unspecified (ip : IpAddr) : bool :=
  match ip with
  | IpV4 o => bool_decide (o = zeros 4)
  | IpV6 o => bool_decide (o = zeros 16)
  end.

(** ** Constants *)
Definition NOT_A_FRAME : Z := 240.
Definition PUNCH : Z := 80.
Definition BIND : Z := 66.
Definition CHECK : Z := 67.
Definition PROOF : Z := 68.
Definition HELLO : Z := 69.
Definition ANSWER : Z := 70.
Definition SECRET_LEN : Z := 16.
Definition MIN_GROUP_SECRET : Z := 16.
Definition MAX_GROUP_MEMBERS : Z := 64.
Definition MAX_GROUPS : Z := 8.
#[export] Hint Unfold NOT_A_FRAME PUNCH BIND CHECK PROOF HELLO ANSWER SECRET_LEN MIN_GROUP_SECRET
  MAX_GROUP_MEMBERS MAX_GROUPS : consts.

(** ** Groups *)
Section groups.
Context `{Crypto}.

Definition group_tag (secret : bytes) : bytes :=
  takez 16 (hash [literal "fectp group tag"%string; secret]).

Definition group_key (secret : bytes) : bytes := hash [literal "fectp group key"%string; secret].

Definition member_mac (key member : bytes) : bytes :=
  takez 16 (hash [literal "fectp group member"%string; key; member]).

Definition relay_answer (token nonce : bytes) : bytes :=
  takez SECRET_LEN (hash [literal "fectp relay answer"%string; token; nonce]).

(** The datagram answering a check with [nonce], for a port with [token]. *)
Definition answer (token nonce : bytes) (legacy : bool) : bytes :=
  if legacy then [NOT_A_FRAME; PROOF] ++ nonce
  else [NOT_A_FRAME; ANSWER] ++ nonce ++ relay_answer token nonce.
End groups.

(** A hello, given the sixteen bytes drawn for it. *)
Definition hello (pad : bytes) : bytes := [NOT_A_FRAME; HELLO] ++ pad.

(** [same]: the fold over the pairs of bytes, without an early exit. *)
Definition same (a b : bytes) : bool :=
  (len a =? len b) &&
  (fold_left (fun acc xy => Z.lor acc (Z.lxor xy.1 xy.2)) (combine a b) 0 =? 0).

(** The order of [[u8; 32]], which compares lexicographically. *)
Fixpoint bytes_lt (a b : bytes) : bool :=
  match a, b with
  | x :: a, y :: b => (x <? y) || ((x =? y) && bytes_lt a b)
  | [], _ :: _ => true
  | _, [] => false
  end.

Definition starts (ours theirs : bytes) : bool := bytes_lt ours theirs.

(** A pair of keys in a fixed order. *)
Definition pair (a b : bytes) : bytes * bytes := if bytes_lt a b then (a, b) else (b, a).

(** ** Why a rendezvous would not introduce or relay *)
Inductive Unavailable :=
| NotRegistered
| Refused
| NoRelay
| NotAsked
| OtherReason (b : Z)
| Unreachable.

#[global] Instance Unavailable_eq_dec : EqDecision Unavailable.
Proof. solve_decision. Defined.

Module Unavailable.
Definition from_byte (b : Z) : Unavailable :=
  if b =? 0 then NotRegistered else if b =? 1 then Refused else
  if b =? 2 then NoRelay else if b =? 3 then NotAsked else OtherReason b.

Definition to_byte (u : Unavailable) : Z :=
  match u with
  | NotRegistered => 0 | Refused => 1 | NoRelay => 2 | NotAsked => 3
  | OtherReason b => b | Unreachable => 255
  end.
End Unavailable.

(** ** Messages *)
Inductive Control :=
| Register
| Introduce (key : bytes)
| RelayRequest (key : bytes)
| Observed (addr : SocketAddr)
| Introduction (key : bytes) (addr : SocketAddr)
| ControlUnavailable (key : bytes) (reason : Z)
| RelayOffer (key : bytes) (addr : SocketAddr) (token : bytes)
| Join (tag mac : bytes)
| Leave (tag : bytes)
| Members (tag : bytes) (members : list (bytes * bytes)).

#[global] Instance Control_eq_dec : EqDecision Control.
Proof. solve_decision. Defined.

Definition put_addr (out : bytes) (a : SocketAddr) : bytes :=
  let out := match SocketAddr.ip a with
    | IpV4 octets => out ++ [4] ++ octets
    | IpV6 octets => out ++ [6] ++ octets
    end in
  out ++ to_le 2 (SocketAddr.port a).

(** An address at the start of [body], and what follows it. The length test
    puts every index after it in range. *)
Definition take_addr (body : bytes) : option (SocketAddr * bytes) :=
  match body with
  | [] => None
  | family :: rest =>
      n ← (if family =? 4 then Some 4 else if family =? 6 then Some 16 else None);
      if len rest <? n + 2 then None else
      let ip := if family =? 4 then IpV4 (takez 4 rest) else IpV6 (takez 16 rest) in
      let port := from_le (takez 2 (dropz n rest)) in
      Some (SocketAddr.new ip port, dropz (n + 2) rest)
  end.

Definition take_key (body : bytes) : option (bytes * bytes) :=
  if len body <? 32 then None else Some (takez 32 body, dropz 32 body).

(** [<[u8; N]>::try_from(slice).ok()]. *)
Definition array (n : Z) (l : bytes) : option bytes := if len l =? n then Some l else None.

(** [slice::chunks_exact], [k] of them. *)
Fixpoint chunks_exact (k : nat) (w : Z) (l : bytes) : list bytes :=
  match k with O => [] | S k => takez w l :: chunks_exact k w (dropz w l) end.

Definition is_empty {A} (l : list A) : bool := match l with [] => true | _ => false end.

Module Control.
Definition encode (c : Control) : bytes :=
  match c with
  | Register => [1]
  | Introduce key => [2] ++ key
  | RelayRequest key => [3] ++ key
  | Observed addr => put_addr [129] addr
  | Introduction key addr => put_addr ([130] ++ key) addr
  | ControlUnavailable key reason => [131] ++ key ++ [reason]
  | RelayOffer key addr token => put_addr ([132] ++ key) addr ++ token
  | Join tag mac => [4] ++ tag ++ mac
  | Leave tag => [5] ++ tag
  | Members tag members =>
      [133] ++ tag ++ concat (map (fun m => fst m ++ snd m) members)
  end.

Definition decode (message : bytes) : option Control :=
  match message with
  | [] => None
  | kind :: body =>
      if (kind =? 1) && is_empty body then Some Register else
      if kind =? 2 then
        '(key, rest) ← take_key body;
        if is_empty rest then Some (Introduce key) else None else
      if kind =? 3 then
        '(key, rest) ← take_key body;
        if is_empty rest then Some (RelayRequest key) else None else
      if kind =? 129 then
        '(addr, rest) ← take_addr body;
        if is_empty rest then Some (Observed addr) else None else
      if kind =? 130 then
        '(key, rest) ← take_key body;
        '(addr, rest) ← take_addr rest;
        if is_empty rest then Some (Introduction key addr) else None else
      if kind =? 131 then
        '(key, rest) ← take_key body;
        match rest with [reason] => Some (ControlUnavailable key reason) | _ => None end else
      if kind =? 132 then
        '(key, rest) ← take_key body;
        '(addr, rest) ← take_addr rest;
        token ← array SECRET_LEN rest;
        Some (RelayOffer key addr token) else
      if (kind =? 4) && (len body =? 32) then
        tag ← array 16 (takez 16 body);
        mac ← array 16 (dropz 16 body);
        Some (Join tag mac) else
      if kind =? 5 then
        tag ← array 16 body; Some (Leave tag) else
      if (kind =? 133) && (16 <=? len body) && ((len body - 16) mod 48 =? 0) then
        tag ← array 16 (takez 16 body);
        let members := map (fun m => (takez 32 m, dropz 32 m))
          (chunks_exact (Z.to_nat ((len body - 16) / 48)) 48 (dropz 16 body)) in
        if MAX_GROUP_MEMBERS <? len members then None else Some (Members tag members)
      else None
  end.

Definition key_wf (k : bytes) : Prop := len k = 32 /\ bytes_ok k.
Definition tag_wf (t : bytes) : Prop := len t = 16 /\ bytes_ok t.

(** What a message can carry. *)
Definition wf (c : Control) : Prop :=
  match c with
  | Register => True
  | Introduce key | RelayRequest key => key_wf key
  | Observed addr => SocketAddr.wf addr
  | Introduction key addr => key_wf key /\ SocketAddr.wf addr
  | ControlUnavailable key reason => key_wf key /\ is_u8 reason
  | RelayOffer key addr token => key_wf key /\ SocketAddr.wf addr /\ tag_wf token
  | Join tag mac => tag_wf tag /\ tag_wf mac
  | Leave tag => tag_wf tag
  | Members tag members =>
      tag_wf tag /\ Forall (fun m => key_wf (fst m) /\ tag_wf (snd m)) members /\
      len members <= MAX_GROUP_MEMBERS
  end.
End Control.

(** ** Lemmas *)
Lemma same_fold acc l :
  fold_left (fun acc xy => Z.lor acc (Z.lxor xy.1 xy.2)) l acc = 0 <->
  acc = 0 /\ Forall (fun xy : Z * Z => xy.1 = xy.2) l.
Proof.
  revert acc. induction l as [|[x y] l IH]; intros acc; simpl; [split; [by intros|tauto]|].
  rewrite IH, Z.lor_eq_0_iff, Z.lxor_eq_0_iff. rewrite Forall_cons_iff. simpl. tauto.
Qed.

(** The constant-time comparison is equality. *)
Lemma same_spec a b : same a b = true <-> a = b.
Proof.
  unfold same. rewrite andb_true_iff, !Z.eqb_eq, same_fold. split.
  - intros (Hl & _ & H). revert b Hl H. induction a as [|x a IH]; intros [|y b] Hl H; simpl in *.
    1: done. 1: pose proof (len_nonneg b); rewrite len_nil, len_cons in Hl; lia.
    1: pose proof (len_nonneg a); rewrite len_nil, len_cons in Hl; lia.
    apply Forall_cons_iff in H as [Hx H]. simpl in Hx. rewrite !len_cons in Hl. f_equal; [done|].
    apply IH; [lia|done].
  - intros ->. split; [done|]. split; [done|]. induction b; simpl; constructor; done.
Qed.

Lemma bytes_lt_irrefl a : bytes_lt a a = false.
Proof. induction a as [|x a IH]; [done|]. simpl. rewrite Z.ltb_irrefl, IH. by destruct (x =? x). Qed.

Lemma bytes_lt_total a b : bytes_lt a b = false -> bytes_lt b a = false -> a = b.
Proof.
  revert b. induction a as [|x a IH]; intros [|y b]; simpl; try done.
  intros H1 H2. zbool. assert (x = y) as -> by lia. f_equal.
  apply IH; rewrite Z.eqb_refl in *; done.
Qed.

Lemma bytes_lt_asym a b : bytes_lt a b = true -> bytes_lt b a = false.
Proof.
  revert b. induction a as [|x a IH]; intros [|y b]; simpl; try done.
  rewrite !orb_true_iff, !andb_true_iff, orb_false_iff, Z.ltb_lt, Z.eqb_eq.
  intros [H|[-> H]]; [split; [by apply Z.ltb_ge; lia|]|].
  - apply andb_false_iff. left. apply Z.eqb_neq. lia.
  - rewrite Z.ltb_irrefl, (IH b H), andb_false_r. done.
Qed.

Lemma pair_comm a b : pair a b = pair b a.
Proof.
  unfold pair. destruct (bytes_lt a b) eqn:E1, (bytes_lt b a) eqn:E2; try done.
  - by rewrite (bytes_lt_asym a b E1) in E2.
  - by rewrite (bytes_lt_total a b E1 E2).
Qed.

Lemma pair_cases a b : pair a b = (a, b) \/ pair a b = (b, a).
Proof. unfold pair. destruct (bytes_lt a b); auto. Qed.

Definition addr_wire (a : SocketAddr) : bytes := put_addr [] a.

Lemma put_addr_wire out a : put_addr out a = out ++ addr_wire a.
Proof. unfold addr_wire, put_addr. destruct (SocketAddr.ip a); by rewrite <- !app_assoc. Qed.

Lemma take_key_spec body k rest :
  take_key body = Some (k, rest) <-> len k = 32 /\ body = k ++ rest.
Proof.
  unfold take_key. destruct (len body <? 32) eqn:E; zbool.
  - split; [done|]. intros [Hk ->]. autorewrite with len in E. pose proof (len_nonneg rest). lia.
  - split.
    + intros ?; simplify_eq. split; [by rewrite len_takez; lia|by rewrite takez_dropz].
    + intros [Hk ->]. by rewrite takez_app, dropz_app by lia.
Qed.

Lemma array_spec n l t : array n l = Some t <-> len t = n /\ l = t.
Proof.
  unfold array. destruct (Z.eqb_spec (len l) n); split; [by intros; simplify_eq|by intros [? ->]|done|].
  by intros [? ->].
Qed.

Lemma addr_wire_v4 o p : addr_wire (SocketAddrV4 o p) = 4 :: o ++ to_le 2 p.
Proof. done. Qed.

Lemma addr_wire_v6 o p f s : addr_wire (SocketAddrV6 o p f s) = 6 :: o ++ to_le 2 p.
Proof. done. Qed.

(** Octets and a port, laid out and read back. *)
Lemma addr_fields n o p rest :
  0 <= n -> len o = n -> is_u16 p ->
  let body := o ++ to_le 2 p ++ rest in
  (len body <? n + 2) = false /\ takez n body = o /\
  from_le (takez 2 (dropz n body)) = p /\ dropz (n + 2) body = rest.
Proof.
  intros Hn Ho Hp. cbv zeta. pose proof (len_nonneg rest).
  assert (len (to_le 2 p) = 2) as Hl by apply len_to_le.
  split; [apply Z.ltb_ge; rewrite !len_app; lia|]. split; [by apply takez_app|].
  rewrite dropz_app by lia. rewrite takez_app by lia. rewrite from_le_to_le by (cbn; lia).
  split; [done|]. replace (n + 2) with (2 + n) by lia. rewrite <- dropz_dropz by lia.
  rewrite dropz_app by lia. by rewrite dropz_app by lia.
Qed.

Lemma addr_fields_inv n body :
  0 <= n -> bytes_ok body -> n + 2 <= len body ->
  body = takez n body ++ to_le 2 (from_le (takez 2 (dropz n body))) ++ dropz (n + 2) body /\
  is_u16 (from_le (takez 2 (dropz n body))) /\ len (takez n body) = n /\ bytes_ok (takez n body).
Proof.
  intros Hn Hb Hl.
  assert (len (takez 2 (dropz n body)) = 2) as H2 by (rewrite len_takez, len_dropz; lia).
  assert (bytes_ok (takez 2 (dropz n body))) as Hb2
    by (by apply bytes_ok_takez, bytes_ok_dropz).
  rewrite to_le_from_le by done. split.
  - replace (n + 2) with (2 + n) by lia. rewrite <- dropz_dropz by lia. by rewrite !takez_dropz.
  - split; [by apply from_le_u16|]. split; [rewrite len_takez; lia|by apply bytes_ok_takez].
Qed.

(** An address parses back to itself, whatever follows it. *)
Lemma take_addr_wire a rest :
  SocketAddr.wf a -> take_addr (addr_wire a ++ rest) = Some (a, rest).
Proof.
  destruct a as [o p|o p f s]; cbn [SocketAddr.wf].
  - intros (Ho & _ & Hp). rewrite addr_wire_v4.
    destruct (addr_fields 4 o p rest ltac:(lia) Ho Hp) as (H1 & H2 & H3 & H4).
    cbn [app take_addr Z.eqb Pos.eqb mbind option_bind]. rewrite <- app_assoc.
    by rewrite H1, H2, H3, H4.
  - intros (Ho & _ & Hp & -> & ->). rewrite addr_wire_v6.
    destruct (addr_fields 16 o p rest ltac:(lia) Ho Hp) as (H1 & H2 & H3 & H4).
    cbn [app take_addr Z.eqb Pos.eqb mbind option_bind]. rewrite <- app_assoc.
    by rewrite H1, H2, H3, H4.
Qed.

(** And whatever parses is the encoding of a well-formed address. *)
Lemma take_addr_inv body a rest :
  bytes_ok body -> take_addr body = Some (a, rest) -> SocketAddr.wf a /\ body = addr_wire a ++ rest.
Proof.
  intros Hb. destruct body as [|family body]; [done|]. apply bytes_ok_cons in Hb as [_ Hb].
  cbn [take_addr].
  destruct (Z.eqb_spec family 4) as [->|Hn4]; cbn [mbind option_bind].
  2: destruct (Z.eqb_spec family 6) as [->|]; cbn [mbind option_bind]; [|done].
  all: zcase; [done|]; intros [= <- <-].
  - destruct (addr_fields_inv 4 body ltac:(lia) Hb ltac:(lia)) as (He & Hp & Hl & Ho).
    split; [done|]. rewrite addr_wire_v4. cbn [app]. f_equal. by rewrite <- app_assoc.
  - destruct (addr_fields_inv 16 body ltac:(lia) Hb ltac:(lia)) as (He & Hp & Hl & Ho).
    split; [done|]. rewrite addr_wire_v6. cbn [app]. f_equal. by rewrite <- app_assoc.
Qed.

(** Fixed-width entries. *)
Lemma chunks_exact_concat w (l : list bytes) :
  Forall (fun c => len c = w) l -> 0 <= w -> chunks_exact (length l) w (concat l) = l.
Proof.
  intros H Hw. induction H as [|c l Hc _ IH]; [done|]. cbn [length chunks_exact concat].
  by rewrite takez_app, dropz_app, IH by lia.
Qed.

Lemma concat_chunks_exact k w l :
  0 <= w -> len l = Z.of_nat k * w ->
  concat (chunks_exact k w l) = l /\ Forall (fun c => len c = w) (chunks_exact k w l) /\
  length (chunks_exact k w l) = k.
Proof.
  intros Hw. revert l. induction k as [|k IH]; intros l Hl; cbn [chunks_exact concat].
  - split; [|split; [constructor|done]]. symmetry. apply len_0. lia.
  - destruct (IH (dropz w l)) as (H1 & H2 & H3); [rewrite len_dropz; lia|].
    rewrite H1. split; [apply takez_dropz|]. split; [|cbn; lia].
    constructor; [rewrite len_takez; lia|done].
Qed.

Lemma bytes_ok_concat (l : list bytes) : bytes_ok (concat l) <-> Forall bytes_ok l.
Proof.
  induction l as [|c l IH]; cbn [concat]; [split; constructor|].
  by rewrite bytes_ok_app, IH, Forall_cons_iff.
Qed.

Lemma is_empty_spec {A} (l : list A) : is_empty l = true <-> l = [].
Proof. by destruct l. Qed.

(** Member entries. *)
Lemma members_roundtrip members :
  Forall (fun m => Control.key_wf (fst m) /\ Control.tag_wf (snd m)) members ->
  map (fun m => (takez 32 m, dropz 32 m))
    (chunks_exact (length members) 48 (concat (map (fun m => fst m ++ snd m) members))) = members /\
  len (concat (map (fun m => fst m ++ snd m) members)) = len members * 48.
Proof.
  intros H. split.
  - rewrite <- (length_map (fun m => fst m ++ snd m)), chunks_exact_concat; [|clear -H|lia].
    + rewrite map_map. induction H as [|[k m] l [[Hk _] _] _ IH]; [done|]. cbn [map fst snd].
      by rewrite takez_app, dropz_app, IH by (cbn in Hk; lia).
    + induction H as [|[k m] l [[Hk _] [Hm _]] _ IH]; cbn [map fst snd]; constructor; [|done].
      rewrite len_app. cbn in *. lia.
  - induction H as [|[k m] l [[Hk _] [Hm _]] _ IH]; cbn [map concat fst snd]; [done|].
    rewrite !len_app, len_cons, IH. cbn in *. lia.
Qed.

Lemma decode_encode c : Control.wf c -> Control.decode (Control.encode c) = Some c.
Proof.
  assert (forall k rest, Control.key_wf k -> take_key (k ++ rest) = Some (k, rest)) as Hkey.
  { intros k rest [Hk _]. by apply take_key_spec. }
  assert (forall k, Control.key_wf k -> take_key k = Some (k, [])) as Hkey0.
  { intros k Hk. rewrite <- (app_nil_r k) at 1. by apply Hkey. }
  assert (forall a, SocketAddr.wf a -> take_addr (addr_wire a) = Some (a, [])) as Haddr0.
  { intros a Ha. rewrite <- (app_nil_r (addr_wire a)). by apply take_addr_wire. }
  assert (forall t, Control.tag_wf t -> array 16 t = Some t) as Htag.
  { intros t [Ht _]. by apply array_spec. }
  destruct c as [|k|k|a|k a|k r|k a t|t m|t|t ms]; cbn [Control.wf]; intros Hwf.
  - done.
  - cbn. by rewrite Hkey0.
  - cbn. by rewrite Hkey0.
  - cbn [Control.encode]. rewrite put_addr_wire. cbn. by rewrite Haddr0.
  - destruct Hwf. cbn [Control.encode]. rewrite put_addr_wire. cbn.
    rewrite Hkey by done. cbn. by rewrite Haddr0.
  - destruct Hwf. cbn. by rewrite Hkey.
  - destruct Hwf as (? & ? & ?). cbn [Control.encode]. rewrite put_addr_wire. cbn.
    rewrite <- app_assoc. rewrite Hkey by done. cbn. rewrite take_addr_wire by done. cbn.
    by rewrite Htag.
  - destruct Hwf as [Ht Hm]. cbn. pose proof Ht as [Hlt _]. pose proof Hm as [Hlm _].
    rewrite len_app, Hlt, Hlm. cbn. rewrite takez_app, dropz_app by lia.
    by rewrite !Htag by done.
  - cbn. by rewrite Htag.
  - destruct Hwf as (Ht & Hms & Hn). cbn [Control.encode]. pose proof Ht as [Hlt _].
    destruct (members_roundtrip ms Hms) as [Hr Hl].
    set (blk := concat _) in *. pose proof (len_nonneg ms).
    cbn [app Control.decode Z.eqb Pos.eqb andb]. rewrite !len_app, Hlt, Hl.
    rewrite (proj2 (Z.leb_le _ _)) by lia.
    replace (16 + len ms * 48 - 16) with (len ms * 48) by lia.
    rewrite Z.mod_mul, Z.div_mul, to_nat_len by lia. cbn [Z.eqb andb].
    rewrite takez_app, dropz_app by lia. rewrite Htag by done. cbn [mbind option_bind].
    rewrite Hr. by rewrite (proj2 (Z.ltb_ge _ _)) by lia.
Qed.

Lemma members_inv body :
  bytes_ok body -> 16 <= len body -> (len body - 16) mod 48 = 0 ->
  let ms := map (fun m => (takez 32 m, dropz 32 m))
    (chunks_exact (Z.to_nat ((len body - 16) / 48)) 48 (dropz 16 body)) in
  Forall (fun m => Control.key_wf (fst m) /\ Control.tag_wf (snd m)) ms /\
  concat (map (fun m => fst m ++ snd m) ms) = dropz 16 body.
Proof.
  intros Hb Hl Hm ms. pose proof (Z.div_mod (len body - 16) 48 ltac:(lia)).
  pose proof (Z.div_pos (len body - 16) 48 ltac:(lia) ltac:(lia)).
  destruct (concat_chunks_exact (Z.to_nat ((len body - 16) / 48)) 48 (dropz 16 body)) as (Hc & Hw & _);
    [lia|rewrite len_dropz; lia|].
  assert (Forall bytes_ok (chunks_exact (Z.to_nat ((len body - 16) / 48)) 48 (dropz 16 body))) as Hok.
  { apply bytes_ok_concat. rewrite Hc. by apply bytes_ok_dropz. }
  unfold ms. clear ms. set (cs := chunks_exact _ _ _) in *. split.
  - rewrite Forall_map. apply Forall_forall. intros c Hin.
    rewrite Forall_forall in Hw, Hok. specialize (Hw c Hin). specialize (Hok c Hin).
    cbn [fst snd]. unfold Control.key_wf, Control.tag_wf. rewrite len_takez, len_dropz.
    split; (split; [lia|]); [by apply bytes_ok_takez|by apply bytes_ok_dropz].
  - rewrite <- Hc. rewrite map_map. f_equal. rewrite <- (map_id cs) at 2. apply map_ext.
    intros c. apply takez_dropz.
Qed.

Lemma decode_inv msg c :
  bytes_ok msg -> Control.decode msg = Some c -> Control.wf c /\ Control.encode c = msg.
Proof.
  destruct msg as [|kind body]; [done|]. intros Hb. apply bytes_ok_cons in Hb as [_ Hb].
  assert (forall l k rest, bytes_ok l -> take_key l = Some (k, rest) ->
    Control.key_wf k /\ bytes_ok rest /\ l = k ++ rest) as Hkey.
  { intros l k rest Hl [Hk ->]%take_key_spec. apply bytes_ok_app in Hl as [? ?]. done. }
  assert (forall l t, bytes_ok l -> array 16 l = Some t -> Control.tag_wf t /\ l = t) as Htag.
  { intros l t Hl [Ht ->]%array_spec. done. }
  cbn [Control.decode]. intros Hd.
  repeat match type of Hd with
  | (if _ =? _ then _ else _) = _ => destruct (Z.eqb_spec kind _) as [->|] in Hd
  | (if _ then _ else _) = _ => case_match; zbool
  | (_ ≫= _) = Some _ => apply bind_Some in Hd as (? & ? & Hd); try case_match; subst
  end; try done; simplify_eq;
  repeat match goal with
  | H : is_empty _ = true |- _ => apply is_empty_spec in H as ->
  | H : take_key _ = Some _ |- _ => apply Hkey in H as (? & ? & ->); [|done]
  | H : take_addr _ = Some _ |- _ => apply take_addr_inv in H as [? ->]; [|done]
  end.
  all: cbn [Control.wf Control.encode]; rewrite ?put_addr_wire, ?app_nil_r; try done.
  - repeat case_match; simplify_eq. cbn [Control.wf Control.encode]. split; [|done].
    split; [done|]. match goal with H : bytes_ok [_] |- _ => by apply bytes_ok_cons in H as [? _] end.
  - match goal with H : bytes_ok (addr_wire _ ++ _) |- _ => apply bytes_ok_app in H as [_ ?] end.
    match goal with H : array _ _ = Some _ |- _ => apply Htag in H as [? ->]; [|done] end.
    split; [done|]. by rewrite <- !app_assoc.
  - repeat match goal with H : array _ _ = Some _ |- _ =>
      apply Htag in H as [? Hx]; [|by apply bytes_ok_takez || by apply bytes_ok_dropz];
      rewrite <- Hx in *; clear Hx end.
    split; [done|]. cbn [app]. by rewrite takez_dropz.
  - match goal with H : array _ _ = Some _ |- _ => by apply Htag in H as [? ->] end.
  - match goal with H : array _ _ = Some _ |- _ =>
      apply Htag in H as [? Hx]; [|by apply bytes_ok_takez] end.
    destruct (members_inv body Hb) as [Hms Hcat]; [done..|].
    split; [split; [done|split; [done|lia]]|]. cbn [app]. by rewrite Hcat, <- Hx, takez_dropz.
Qed.

(** ** Properties *)

(** C34: The decoder of rendezvous messages accepts exactly the encodings of
    well-formed messages: what it returns re-encodes to the bytes it read, and
    every well-formed message is read back as itself. *)
Theorem control_codec_exact msg c :
  bytes_ok msg -> (Control.decode msg = Some c <-> Control.wf c /\ Control.encode c = msg).
Proof.
  intros Hb. split; [by apply decode_inv|]. intros [Hwf <-]. by apply decode_encode.
Qed.

Lemma control_codec_exact_witness :
  let addr := SocketAddrV4 [203; 0; 113; 9] 4500 in
  let c := Introduction (replicate 32 7) addr in
  Control.decode (Control.encode c) = Some c.
Proof.
  apply (control_codec_exact (Control.encode (Introduction (replicate 32 7)
    (SocketAddrV4 [203; 0; 113; 9] 4500)))); vm_compute; repeat (constructor || done).
Defined.
