(* ===== verification/Relay.v ===== *)
(** * The relay (crates/fectp/src/rendezvous.rs: [Port], [Allocation], [serve_port])

    Two ports and the thread of each, which proves the address of the port's
    party and forwards between the two parties. A thread touches the state it
    shares with the other only through a lock, once per datagram, so a run is
    a sequence of datagrams handled one at a time, each at one side and at one
    instant. What is sent is the output. The theorems show that a party's
    address is one that answered the port's check, that nothing is forwarded
    but between the two parties and within the byte budget, and that the
    checks a port sends are bounded and no larger than what drew them. *)
From Stdlib Require Import String.
From stdpp Require Import gmap.
From S2P Require Import Prelude Bytes Error Float Cipher Symmetric Control.

Definition RELAY_IDLE : Z := 60000.
Definition RELAY_BYTES_PER_SECOND : Z := 1048576.
Definition CHECKS_PER_SECOND : Z := 50.
Definition CHECKS_PER_ADDRESS : Z := 2.
#[export] Hint Unfold RELAY_IDLE RELAY_BYTES_PER_SECOND CHECKS_PER_SECOND CHECKS_PER_ADDRESS : consts.

(** [RELAY_BYTES_PER_SECOND as f64]. *)
Definition relay_rate : Z := Fl.of_Z binary64 RELAY_BYTES_PER_SECOND.

(** [Port]; its socket is the environment. *)
Record Port := mkPort {
  pt_bound : SocketAddr;
  pt_advertised : SocketAddr;
  pt_token : bytes;
  pt_party : option SocketAddr;
  pt_secret : bytes;
  pt_opened : Z;
  pt_exposed : bool;
}.

Module Port.
Section port.
Context `{Crypto}.

Definition set_party (p : Port) (a : SocketAddr) : Port :=
  mkPort (pt_bound p) (pt_advertised p) (pt_token p) (Some a) (pt_secret p) (pt_opened p)
    (pt_exposed p).

Definition expose (p : Port) : Port :=
  mkPort (pt_bound p) (pt_advertised p) (pt_token p) (pt_party p) (pt_secret p) (pt_opened p) true.

Definition nonce (p : Port) (to : SocketAddr) (epoch : Z) : bytes :=
  let addr := put_addr [] to in
  takez SECRET_LEN (hash [literal "fectp relay check"%string; pt_secret p; addr; to_le 8 epoch]).

(** [opened.elapsed().as_secs() / 10]. *)
Definition epoch (p : Port) (now : Z) : Z := saturating_sub now (pt_opened p) / 1000 / 10.

Definition sent (p : Port) (from : SocketAddr) (n : bytes) (now : Z) : bool :=
  let e := epoch p now in
  same n (nonce p from e) || ((0 <? e) && same n (nonce p from (e - 1))).
End port.
End Port.

(** What a port's thread counts: the checks sent this second. *)
Record Checks := mkChecks { ck_second : Z; ck_sent_to : gmap SocketAddr Z }.

(** A datagram put on a port's socket; [true] is the second port. *)
Record Output := mkOutput { out_side : bool; out_data : bytes; out_to : SocketAddr }.

Definition total (m : gmap SocketAddr Z) : Z := map_fold (fun _ n acc => n + acc) 0 m.

(** The [check] closure of [serve_port]: whether a check goes to [to]. *)
Definition check (c : Checks) (to : SocketAddr) (now : Z) : Checks * bool :=
  let c := if 1000 <=? saturating_sub now (ck_second c) then mkChecks now ∅ else c in
  let sum := total (ck_sent_to c) in
  let to_this := default 0 (ck_sent_to c !! to) in
  let held := <[to := to_this]> (ck_sent_to c) in
  if (CHECKS_PER_SECOND <=? sum) || (CHECKS_PER_ADDRESS <=? to_this)
  then (mkChecks (ck_second c) held, false)
  else (mkChecks (ck_second c) (<[to := to_this + 1]> held), true).

Record Allocation := mkAllocation {
  al_port0 : Port;
  al_port1 : Port;
  al_checks0 : Checks;
  al_checks1 : Checks;
  al_ips : gset IpAddr;
  al_last_forward : Z;
  al_budget : Bucket;
}.

Module Allocation.
Section allocation.
Context `{Crypto}.

Definition make_port (bound advertised : IpAddr) (port : Z) (token secret : bytes) (now : Z) : Port :=
  let local := SocketAddr.new bound port in
  mkPort local (SocketAddr.new advertised port) token None secret now false.

(** [open], given what the two sockets were bound to and the random bytes. *)
Definition open (bound advertised : IpAddr) (ips : gset IpAddr) (port0 port1 : Z)
    (token0 secret0 token1 secret1 : bytes) (now : Z) : Allocation :=
  {| al_port0 := make_port bound advertised port0 token0 secret0 now;
     al_port1 := make_port bound advertised port1 token1 secret1 now;
     al_checks0 := mkChecks now ∅; al_checks1 := mkChecks now ∅; al_ips := ips;
     al_last_forward := now;
     al_budget := mkBucket relay_rate now |}.

Definition idle (a : Allocation) (now : Z) : bool :=
  RELAY_IDLE <? saturating_sub now (al_last_forward a).

Definition port (a : Allocation) (side : bool) : Port :=
  if side then al_port1 a else al_port0 a.
Definition checks (a : Allocation) (side : bool) : Checks :=
  if side then al_checks1 a else al_checks0 a.

Definition set_port (a : Allocation) (side : bool) (p : Port) : Allocation :=
  mkAllocation (if side then al_port0 a else p) (if side then p else al_port1 a)
    (al_checks0 a) (al_checks1 a) (al_ips a) (al_last_forward a) (al_budget a).
Definition set_checks (a : Allocation) (side : bool) (c : Checks) : Allocation :=
  mkAllocation (al_port0 a) (al_port1 a)
    (if side then al_checks0 a else c) (if side then c else al_checks1 a)
    (al_ips a) (al_last_forward a) (al_budget a).
Definition set_forward (a : Allocation) (last : Z) (b : Bucket) : Allocation :=
  mkAllocation (al_port0 a) (al_port1 a) (al_checks0 a) (al_checks1 a) (al_ips a) last b.

(** Send a check to [to] if the count allows it. *)
Definition send_check (a : Allocation) (side : bool) (to : SocketAddr) (now : Z)
  : Allocation * list Output :=
  let (c, go) := check (checks a side) to now in
  let a := set_checks a side c in
  if go then
    let this := port a side in
    (a, [mkOutput side ([NOT_A_FRAME; CHECK] ++ Port.nonce this to (Port.epoch this now)) to])
  else (a, []).

(** The port's own conversation with its party. *)
Definition not_a_frame (a : Allocation) (side : bool) (rest : bytes) (from : SocketAddr) (now : Z)
  : Allocation * list Output :=
  let this := port a side in
  let party := pt_party this in
  match rest with
  | kind :: rest =>
      if (kind =? HELLO) && (len rest =? SECRET_LEN) then
        if negb (pt_exposed this) then send_check a side from now else (a, [])
      else if (kind =? ANSWER) && (len rest =? 2 * SECRET_LEN) then
        let nonce := takez SECRET_LEN rest in
        let mac := dropz SECRET_LEN rest in
        if negb (pt_exposed this) && Port.sent this from nonce now
           && same mac (relay_answer (pt_token this) nonce)
        then (set_port a side (Port.set_party this from), []) else (a, [])
      else if (kind =? BIND) && bool_decide (party = None) && same rest (pt_token this) then
        send_check (set_port a side (Port.expose this)) side from now
      else if (kind =? PROOF) && bool_decide (party = None) && pt_exposed this
              && Port.sent this from rest now
      then (set_port a side (Port.set_party this from), [])
      else (a, [])
  | [] => (a, [])
  end.

(** Forwarding: only from the recorded address, only to the other party's,
    and within the budget. [sent_ok] is whether the socket took it. *)
Definition forward (a : Allocation) (side : bool) (datagram : bytes) (from : SocketAddr) (now : Z)
    (sent_ok : bool) : Allocation * list Output :=
  if negb (bool_decide (pt_party (port a side) = Some from)) then (a, []) else
  match pt_party (port a (negb side)) with
  | None => (a, [])
  | Some to =>
      let (b, ok) := Bucket.take binary64 relay_rate relay_rate (Fl.of_Z binary64 (len datagram)) now
                       (al_budget a) in
      if ok then
        (set_forward a (if sent_ok then now else al_last_forward a) b,
         [mkOutput (negb side) datagram to])
      else (set_forward a (al_last_forward a) b, [])
  end.

(** One turn of [serve_port]'s loop, for a datagram received at [side]. *)
Definition serve (a : Allocation) (side : bool) (datagram : bytes) (from : SocketAddr) (now : Z)
    (sent_ok : bool) : Allocation * list Output :=
  match datagram with
  | first :: rest =>
      if first =? NOT_A_FRAME then not_a_frame a side rest from now
      else forward a side datagram from now sent_ok
  | [] => forward a side datagram from now sent_ok
  end.
End allocation.
End Allocation.
Import Allocation.

(** ** Runs *)

(** One datagram arriving at a port. *)
Record Arrival := mkArrival {
  ar_side : bool;
  ar_data : bytes;
  ar_from : SocketAddr;
  ar_now : Z;
  ar_sent_ok : bool;
}.

Definition handle `{Crypto} (a : Allocation) (e : Arrival) : Allocation * list Output :=
  serve a (ar_side e) (ar_data e) (ar_from e) (ar_now e) (ar_sent_ok e).

Fixpoint serve_all `{Crypto} (a : Allocation) (es : list Arrival) : Allocation * list Output :=
  match es with
  | [] => (a, [])
  | e :: es =>
      let (a, out) := handle a e in
      let (a, outs) := serve_all a es in (a, out ++ outs)
  end.

(** [e] proves its sender's address to the port [p]: it carries a nonce the
    port sent there, keyed with the token, or bare once the token has been
    seen in the clear. *)
Definition proves `{Crypto} (p : Port) (e : Arrival) (legacy : bool) : Prop :=
  exists nonce,
    Port.sent p (ar_from e) nonce (ar_now e) = true /\ ar_data e = answer (pt_token p) nonce legacy.

(** [e] shows the port [p] its token in the clear. *)
Definition binds (p : Port) (e : Arrival) : Prop :=
  ar_data e = [NOT_A_FRAME; BIND] ++ pt_token p.

(** How a step may change the port at [side]: not at all, to record an
    address that proved itself, or to note that the token is known. *)
Definition port_step `{Crypto} (p q : Port) (side : bool) (e : Arrival) : Prop :=
  q = p \/
  ar_side e = side /\ proves p e (pt_exposed p) /\ q = Port.set_party p (ar_from e) /\
    (pt_exposed p = true -> pt_party p = None) \/
  ar_side e = side /\ binds p e /\ pt_party p = None /\ q = Port.expose p.

(** ** Steps *)
Section steps.
Context `{Crypto}.

Lemma port_set_checks a side s c : port (set_checks a s c) side = port a side.
Proof. by destruct side. Qed.

Lemma port_set_forward a side l b : port (set_forward a l b) side = port a side.
Proof. by destruct side. Qed.

Lemma port_set_port a side s p :
  port (set_port a s p) side = if decide (s = side) then p else port a side.
Proof. by destruct side, s. Qed.

Lemma port_send_check a s to now side : port (send_check a s to now).1 side = port a side.
Proof. unfold send_check. destruct (check _ _ _) as [c []]; apply port_set_checks. Qed.

Lemma forward_port a s d from now ok side : port (forward a s d from now ok).1 side = port a side.
Proof.
  unfold forward. case_match; [done|]. case_match; [|done]. destruct (Bucket.take _ _ _ _ _ _) as [b []].
  all: apply port_set_forward.
Qed.

Lemma sent_len p from n now : CryptoLaws _ -> Port.sent p from n now = true -> len n = SECRET_LEN.
Proof.
  intros CL. unfold Port.sent, Port.nonce. rewrite orb_true_iff, andb_true_iff, !same_spec.
  assert (forall l, len (takez SECRET_LEN (hash l)) = SECRET_LEN) as Hl.
  { intros l. rewrite len_takez. unfold hash. rewrite blake2s_len. clia. }
  by intros [->|[_ ->]].
Qed.

Lemma handle_port_step a e side : port_step (port a side) (port (handle a e).1 side) side e.
Proof.
  unfold handle, serve. destruct (ar_data e) as [|first rest] eqn:Hd.
  { left. apply forward_port. }
  destruct (Z.eqb_spec first NOT_A_FRAME) as [->|]; [|left; apply forward_port].
  unfold not_a_frame. destruct rest as [|kind rest]; [by left|].
  set (p := port a (ar_side e)).
  destruct ((kind =? HELLO) && (len rest =? SECRET_LEN)) eqn:E1.
  { left. destruct (negb (pt_exposed p)); [apply port_send_check|done]. }
  destruct ((kind =? ANSWER) && (len rest =? 2 * SECRET_LEN)) eqn:E2; zbool.
  { destruct (negb (pt_exposed p) && _ && _) eqn:E3; zbool; [|by left].
    cbn [fst]. rewrite port_set_port. case_decide as Hs; [|by left]. right. left. rewrite <- Hs.
    fold p. match goal with Hx : pt_exposed p = false |- _ => rewrite Hx end.
    split; [done|]. split; [|done]. exists (takez SECRET_LEN rest). split; [done|]. rewrite Hd.
    match goal with Hm : same _ _ = true |- _ => apply same_spec in Hm end.
    subst kind. unfold answer. cbn [app]. do 2 f_equal.
    match goal with Hm : dropz _ _ = relay_answer _ _ |- _ => rewrite <- Hm end.
    by rewrite takez_dropz. }
  destruct ((kind =? BIND) && _ && _) eqn:E4; zbool.
  { cbn [fst]. rewrite port_send_check, port_set_port. case_decide as Hs; [|by left].
    right. right. rewrite <- Hs. fold p.
    match goal with Hm : same _ _ = true |- _ => apply same_spec in Hm as -> end.
    match goal with Hm : bool_decide _ = true |- _ => apply bool_decide_eq_true in Hm end.
    split; [done|]. split; [|done]. unfold binds. by rewrite Hd; subst kind. }
  destruct ((kind =? PROOF) && _ && _ && _) eqn:E5; zbool; [|by left].
  cbn [fst]. rewrite port_set_port. case_decide as Hs; [|by left]. right. left. rewrite <- Hs. fold p.
  match goal with Hm : bool_decide _ = true |- _ => apply bool_decide_eq_true in Hm end.
  match goal with Hx : pt_exposed p = true |- _ => rewrite Hx end.
  split; [done|]. split; [|done]. exists rest. split; [done|]. by rewrite Hd; subst kind.
Qed.

(** A check, drawn by a hello or by a bind. *)
Definition is_check (a : Allocation) (e : Arrival) (o : Output) : Prop :=
  let p := port a (ar_side e) in
  out_side o = ar_side e /\ out_to o = ar_from e /\
  out_data o = [NOT_A_FRAME; CHECK] ++ Port.nonce p (ar_from e) (Port.epoch p (ar_now e)) /\
  ((exists pad, len pad = SECRET_LEN /\ ar_data e = hello pad) \/ binds p e).

(** A datagram passed on from the one party to the other. *)
Definition is_forward (a : Allocation) (e : Arrival) (o : Output) : Prop :=
  out_side o = negb (ar_side e) /\ out_data o = ar_data e /\
  head (ar_data e) <> Some NOT_A_FRAME /\
  pt_party (port a (ar_side e)) = Some (ar_from e) /\
  pt_party (port a (negb (ar_side e))) = Some (out_to o).

Lemma send_check_out a a' side from now :
  (forall p, port a' p = port a p \/ port a' p = Port.expose (port a p)) ->
  (send_check a' side from now).2 = [] \/
  (send_check a' side from now).2 =
    [mkOutput side ([NOT_A_FRAME; CHECK]
       ++ Port.nonce (port a side) from (Port.epoch (port a side) now)) from].
Proof.
  intros Hp. unfold send_check. destruct (check _ _ _) as [c []]; cbn [snd]; [right|by left].
  rewrite port_set_checks. by destruct (Hp side) as [->| ->].
Qed.

Lemma forward_out a e :
  head (ar_data e) <> Some NOT_A_FRAME ->
  let out := (forward a (ar_side e) (ar_data e) (ar_from e) (ar_now e) (ar_sent_ok e)).2 in
  out = [] \/ exists o, out = [o] /\ is_forward a e o.
Proof.
  intros Hn. cbv zeta. unfold forward. case_match eqn:Ep; [by left|]. zbool.
  apply bool_decide_eq_true in Ep. destruct (pt_party (port a (negb _))) as [to|] eqn:Et; [|by left].
  destruct (Bucket.take _ _ _ _ _ _) as [b []]; cbn [snd]; [right|by left].
  eexists. split; [done|]. by unfold is_forward.
Qed.

Lemma handle_outputs a e :
  (handle a e).2 = [] \/ exists o, (handle a e).2 = [o] /\ (is_check a e o \/ is_forward a e o).
Proof.
  pose proof (forward_out a e) as Hf.
  unfold handle, serve. destruct (ar_data e) as [|first rest] eqn:Hd.
  { destruct (Hf ltac:(done)) as [|(o & ? & ?)]; eauto. }
  destruct (Z.eqb_spec first NOT_A_FRAME) as [->|Hn].
  2: { destruct (Hf ltac:(cbn; congruence)) as [|(o & ? & ?)]; eauto. }
  unfold not_a_frame. destruct rest as [|kind rest]; [by left|].
  destruct ((kind =? HELLO) && (len rest =? SECRET_LEN)) eqn:E1; zbool.
  { case_match; [|by left].
    destruct (send_check_out a a (ar_side e) (ar_from e) (ar_now e)) as [->| ->]; [by left|by left|].
    right. eexists. split; [done|]. left. repeat split; [..|left]. exists rest. subst kind. done. }
  destruct ((kind =? ANSWER) && _) eqn:E2; [case_match; by left|].
  destruct ((kind =? BIND) && _ && _) eqn:E4; zbool.
  { match goal with |- context [send_check ?a' _ _ _] =>
      destruct (send_check_out a a' (ar_side e) (ar_from e) (ar_now e)) as [->| ->] end.
    - intros p. rewrite port_set_port. case_decide; subst; auto.
    - by left.
    - right. eexists. split; [done|]. left. repeat split; [..|right].
      match goal with Hm : same _ _ = true |- _ => apply same_spec in Hm as -> end.
      unfold binds. by rewrite Hd; subst kind. }
  case_match; by left.
Qed.
End steps.

(** ** Counting checks *)
Lemma total_insert m k v : total (<[k := v]> m) = total m - default 0 (m !! k) + v.
Proof.
  assert (forall m : gmap SocketAddr Z, m !! k = None -> total (<[k := v]> m) = v + total m) as Hn.
  { intros m' Hm'. unfold total. apply (map_fold_insert_L (fun _ n acc => n + acc)); [intros; lia|done]. }
  destruct (m !! k) as [w|] eqn:E; cbn [from_option id]; [|rewrite Hn by done; lia].
  rewrite <- insert_delete_eq, Hn by apply lookup_delete_eq.
  assert (total m = w + total (delete k m)) as ->; [|lia].
  unfold total. apply (map_fold_delete_L (fun _ n acc => n + acc)); [intros; lia|done].
Qed.

Definition checks_wf (c : Checks) : Prop :=
  (forall a n, ck_sent_to c !! a = Some n -> 0 <= n <= CHECKS_PER_ADDRESS) /\
  0 <= total (ck_sent_to c) <= CHECKS_PER_SECOND.

(** Whether the count has been restarted since [t]. *)
Definition checks_left (t : Z) (c : Checks) : Z :=
  (if t <=? ck_second c then 0 else CHECKS_PER_SECOND) + CHECKS_PER_SECOND - total (ck_sent_to c).

Definition checks_left_to (t : Z) (c : Checks) (x : SocketAddr) : Z :=
  (if t <=? ck_second c then 0 else CHECKS_PER_ADDRESS) + CHECKS_PER_ADDRESS
    - default 0 (ck_sent_to c !! x).

Lemma checks_wf_new now : checks_wf (mkChecks now ∅).
Proof.
  split; cbn; [by intros ? ?; rewrite lookup_empty|].
  unfold total. rewrite map_fold_empty. clia.
Qed.

Lemma checks_wf_default c x :
  checks_wf c -> 0 <= default 0 (ck_sent_to c !! x) <= CHECKS_PER_ADDRESS.
Proof. intros [Hc _]. destruct (ck_sent_to c !! x) eqn:E; cbn; [by apply (Hc x)|clia]. Qed.

(** One check spends one, of the total and of its address's share; a restart
    inside the second beginning at [t] happens at most once. *)
Lemma check_spends c to now t :
  checks_wf c -> t <= now < t + 1000 ->
  let (c', go) := check c to now in
  checks_wf c' /\
  checks_left t c' + (if go : bool then 1 else 0) <= checks_left t c /\
  forall x, checks_left_to t c' x + (if go && bool_decide (x = to) then 1 else 0) <= checks_left_to t c x.
Proof.
  intros Hwf Hnow. unfold check.
  set (c0 := if 1000 <=? saturating_sub now (ck_second c) then mkChecks now ∅ else c).
  assert (checks_wf c0 /\ checks_left t c0 <= checks_left t c /\
    forall x, checks_left_to t c0 x <= checks_left_to t c x) as (Hwf0 & Hl0 & Hx0).
  { unfold c0. destruct Hwf as [Ha Ht]. zcase; [|done].
    split; [apply checks_wf_new|]. unfold saturating_sub in *.
    unfold checks_left, checks_left_to. cbn [ck_second ck_sent_to].
    rewrite (proj2 (Z.leb_le t now)), (proj2 (Z.leb_gt t (ck_second c))) by lia.
    split; [unfold total at 1; rewrite map_fold_empty; clia|].
    intros x. rewrite lookup_empty. cbn [from_option id].
    destruct (ck_sent_to c !! x) eqn:E; [apply Ha in E|]; cbn [from_option id]; clia. }
  clearbody c0. clear Hwf. destruct Hwf0 as [Ha Ht].
  set (n := default 0 (ck_sent_to c0 !! to)).
  assert (0 <= n <= CHECKS_PER_ADDRESS) as Hn.
  { by apply checks_wf_default. }
  assert (forall v, default 0 (Some v) = v) as Hdef by done.
  destruct ((CHECKS_PER_SECOND <=? total (ck_sent_to c0)) || (CHECKS_PER_ADDRESS <=? n)) eqn:E.
  - assert (total (<[to := n]> (ck_sent_to c0)) = total (ck_sent_to c0)) as Htot
      by (rewrite total_insert; fold n; lia).
    split; [split; cbn; [|by rewrite Htot]|split].
    + intros x v [[-> <-]|[_ Hv]]%lookup_insert_Some; [done|by apply (Ha x)].
    + unfold checks_left in *. cbn. rewrite Htot. lia.
    + intros x. specialize (Hx0 x). unfold checks_left_to in *. cbn [ck_second ck_sent_to andb].
      destruct (decide (x = to)) as [->|Hne]; [rewrite lookup_insert_eq, Hdef; fold n in Hx0; lia|].
      rewrite lookup_insert_ne by done. lia.
  - zbool. rewrite insert_insert_eq.
    assert (total (<[to := n + 1]> (ck_sent_to c0)) = total (ck_sent_to c0) + 1) as Htot
      by (rewrite total_insert; fold n; lia).
    split; [split; cbn; [|by rewrite Htot; lia]|split].
    + intros x v [[-> <-]|[_ Hv]]%lookup_insert_Some; [lia|by apply (Ha x)].
    + unfold checks_left in *. cbn. rewrite Htot. lia.
    + intros x. specialize (Hx0 x). unfold checks_left_to in *. cbn [ck_second ck_sent_to andb].
      destruct (decide (x = to)) as [->|Hne].
      * rewrite lookup_insert_eq, Hdef, bool_decide_true by done. fold n in Hx0. lia.
      * rewrite lookup_insert_ne, bool_decide_false by done. lia.
Qed.

(** The port's own datagrams among the output. *)
Definition own (side : bool) (o : Output) : bool :=
  Bool.eqb (out_side o) side && bool_decide (head (out_data o) = Some NOT_A_FRAME).
Definition own_to (side : bool) (x : SocketAddr) (o : Output) : bool :=
  own side o && bool_decide (out_to o = x).
Definition count (f : Output -> bool) (l : list Output) : Z := len (List.filter f l).

Lemma count_app f l1 l2 : count f (l1 ++ l2) = count f l1 + count f l2.
Proof. unfold count. by rewrite List.filter_app, len_app. Qed.

Lemma count_one f o : count f [o] = if f o then 1 else 0.
Proof. unfold count. cbn. by destruct (f o). Qed.

Lemma own_check side s rest to :
  own side (mkOutput s (NOT_A_FRAME :: rest) to) = bool_decide (s = side).
Proof. unfold own. cbn. rewrite bool_decide_true by done. by destruct s, side. Qed.

Section run.
Context `{Crypto}.

Lemma checks_set_checks a side s c :
  checks (set_checks a s c) side = if decide (s = side) then c else checks a side.
Proof. by destruct side, s. Qed.

Lemma checks_set_port a side s p : checks (set_port a s p) side = checks a side.
Proof. by destruct side. Qed.

Lemma send_check_checks a a' s from now side t :
  (forall d, checks a' d = checks a d) -> checks_wf (checks a side) -> t <= now < t + 1000 ->
  let (a2, out) := send_check a' s from now in
  checks_wf (checks a2 side) /\
  checks_left t (checks a2 side) + count (own side) out <= checks_left t (checks a side) /\
  forall x, checks_left_to t (checks a2 side) x + count (own_to side x) out
            <= checks_left_to t (checks a side) x.
Proof.
  intros Hsame Hwf Ht. unfold send_check. rewrite Hsame.
  destruct (check (checks a s) from now) as [c go] eqn:Ec.
  destruct (decide (s = side)) as [->|Hne].
  - pose proof (check_spends (checks a side) from now t Hwf Ht) as Hs. rewrite Ec in Hs.
    destruct Hs as (H1 & H2 & H3).
    destruct go; rewrite checks_set_checks, decide_True by done; (split; [done|]).
    + cbn [app]. rewrite count_one, own_check, bool_decide_true by done. split; [done|].
      intros x. specialize (H3 x). rewrite count_one. unfold own_to.
      rewrite own_check, bool_decide_true by done. cbn [andb out_to] in *.
      destruct (decide (from = x)) as [<-|Hne].
      * by rewrite bool_decide_true in * by done.
      * rewrite (bool_decide_false (x = from)) in H3 by done.
        by rewrite bool_decide_false by done.
    + split; [exact H2|]. intros x. specialize (H3 x). exact H3.
  - assert (count (own side) [] = 0 /\ forall x, count (own_to side x) [] = 0) as [Hc0 Hc1] by done.
    destruct go; rewrite checks_set_checks, decide_False, Hsame by done; (split; [done|]).
    + cbn [app]. rewrite count_one, own_check, bool_decide_false by done. split; [lia|].
      intros x. rewrite count_one. unfold own_to. rewrite own_check, bool_decide_false by done.
      cbn. lia.
    + rewrite Hc0. split; [lia|]. intros x. rewrite Hc1. lia.
Qed.

Lemma forward_checks a s d from now ok side :
  checks (forward a s d from now ok).1 side = checks a side.
Proof.
  unfold forward. case_match; [done|]. case_match; [|done].
  destruct (Bucket.take _ _ _ _ _ _) as [b []]; by destruct side.
Qed.

(** A step either runs the check closure or leaves the counts alone. *)
Lemma handle_cases a e :
  (exists a1, (forall d, checks a1 d = checks a d) /\
     handle a e = send_check a1 (ar_side e) (ar_from e) (ar_now e)) \/
  (forall d, checks (handle a e).1 d = checks a d) /\
    ((handle a e).2 = [] \/ exists o, (handle a e).2 = [o] /\ is_forward a e o).
Proof.
  pose proof (forward_out a e) as Hf. unfold handle, serve.
  destruct (ar_data e) as [|first rest] eqn:Hd.
  { right. split; [intros; apply forward_checks|apply Hf; done]. }
  destruct (Z.eqb_spec first NOT_A_FRAME) as [->|Hn].
  2: { right. split; [intros; apply forward_checks|apply Hf; cbn; congruence]. }
  unfold not_a_frame. destruct rest as [|kind rest]; [by right; auto|].
  repeat case_match; try (by right; auto); try (left; eexists; split; [|done]; try done).
  all: try (intros d; apply checks_set_port).
  all: right; split; [intros d; apply checks_set_port|by left].
Qed.

Lemma handle_checks a e side t :
  checks_wf (checks a side) -> t <= ar_now e < t + 1000 ->
  let (a', out) := handle a e in
  checks_wf (checks a' side) /\
  checks_left t (checks a' side) + count (own side) out <= checks_left t (checks a side) /\
  forall x, checks_left_to t (checks a' side) x + count (own_to side x) out
            <= checks_left_to t (checks a side) x.
Proof.
  intros Hwf Ht. destruct (handle_cases a e) as [(a1 & Hc & ->)|[Hc Ho]].
  { by apply send_check_checks. }
  destruct (handle a e) as [a' out]. cbn [fst snd] in *. rewrite Hc. split; [done|].
  destruct Ho as [->|(o & -> & (_ & Hd & Hh & _))].
  - change (count (own side) []) with 0. split; [lia|]. intros x.
    change (count (own_to side x) []) with 0. lia.
  - assert (own side o = false) as Hown.
    { unfold own. rewrite Hd, bool_decide_false by done. apply andb_false_r. }
    rewrite count_one, Hown. split; [lia|]. intros x. rewrite count_one. unfold own_to.
    rewrite Hown. cbn. lia.
Qed.

Lemma serve_all_checks es a side t :
  checks_wf (checks a side) -> Forall (fun e => t <= ar_now e < t + 1000) es ->
  let (a', outs) := serve_all a es in
  checks_wf (checks a' side) /\
  checks_left t (checks a' side) + count (own side) outs <= checks_left t (checks a side) /\
  forall x, checks_left_to t (checks a' side) x + count (own_to side x) outs
            <= checks_left_to t (checks a side) x.
Proof.
  revert a. induction es as [|e es IH]; intros a Hwf Hes; cbn [serve_all].
  - change (count (own side) []) with 0. split; [done|]. split; [lia|]. intros x.
    change (count (own_to side x) []) with 0. lia.
  - apply Forall_cons_iff in Hes as [He Hes]. pose proof (handle_checks a e side t Hwf He) as H1.
    destruct (handle a e) as [a1 out]. destruct H1 as (Hw1 & Hl1 & Hx1).
    specialize (IH a1 Hw1 Hes). destruct (serve_all a1 es) as [a2 outs].
    destruct IH as (Hw2 & Hl2 & Hx2). split; [done|]. rewrite count_app. split; [lia|].
    intros x. rewrite count_app. specialize (Hx1 x). specialize (Hx2 x). lia.
Qed.
End run.

(** ** Bytes forwarded *)

(** The bytes of the output that is not a port's own. *)
Definition carried (outs : list Output) : Z :=
  fold_right (fun o acc => (if bool_decide (head (out_data o) = Some NOT_A_FRAME) then 0
                            else len (out_data o)) + acc) 0 outs.

Lemma carried_app l1 l2 : carried (l1 ++ l2) = carried l1 + carried l2.
Proof. induction l1 as [|o l1 IH]; cbn [app carried fold_right]; [done|]. unfold carried in *. lia. Qed.

Section budget.
Context `{Crypto}.

Local Abbreviation unit := (2 ^ emin binary64).

Lemma relay_rate_exact : relay_rate = RELAY_BYTES_PER_SECOND * unit.
Proof. apply of_Z_exact; cbn; clia. Qed.
#[local] Opaque relay_rate.

(** What the budget is worth after a step, against before it. *)
Definition paid (b b' : Bucket) (bytes_ n : Z) : Prop :=
  0 <= bk_left b' <= 2 * relay_rate + unit /\ bk_refilled b <= bk_refilled b' /\
  2 ^ 20 * 1000 * (bk_left b' + bytes_ * unit)
    <= 2 ^ 20 * 1000 * bk_left b + (2 ^ 20 + 1) * (relay_rate * (bk_refilled b' - bk_refilled b))
       + 1000 * (n * (relay_rate + unit)).

Lemma paid_none b n : 0 <= n -> 0 <= bk_left b <= 2 * relay_rate + unit -> paid b b 0 n.
Proof.
  intros Hn Hb. split; [done|]. split; [lia|]. rewrite Z.sub_diag, !Z.mul_0_r, Z.mul_0_l.
  rewrite relay_rate_exact. assert (0 < unit) by (apply Z.pow_pos_nonneg; cbn; lia).
  assert (0 <= n * (RELAY_BYTES_PER_SECOND * unit + unit)) by (apply Z.mul_nonneg_nonneg; clia). lia.
Qed.

(** The port's own conversation spends nothing and carries nothing. *)
Lemma not_a_frame_quiet a side rest from now :
  al_budget (not_a_frame a side rest from now).1 = al_budget a /\
  carried (not_a_frame a side rest from now).2 = 0.
Proof.
  assert (forall a', al_budget a' = al_budget a ->
    al_budget (send_check a' side from now).1 = al_budget a /\
    carried (send_check a' side from now).2 = 0) as Hs.
  { intros a' Ha'. unfold send_check. by destruct (check _ _ _) as [c []]. }
  unfold not_a_frame. destruct rest as [|kind rest]; [done|].
  repeat case_match; try done; by apply Hs.
Qed.

Lemma handle_budget a e :
  0 <= bk_left (al_budget a) <= 2 * relay_rate + unit -> len (ar_data e) <= 65535 ->
  bk_refilled (al_budget a) <= ar_now e ->
  let (a', out) := handle a e in
  paid (al_budget a) (al_budget a') (carried out) 1 /\ bk_refilled (al_budget a') <= ar_now e.
Proof.
  intros Hb Hlen Hnow.
  assert (forall x, al_budget x = al_budget a ->
    paid (al_budget a) (al_budget x) 0 1 /\ bk_refilled (al_budget x) <= ar_now e) as Hquiet.
  { intros x ->. split; [apply paid_none; [lia|done]|done]. }
  assert (forall d, ar_data e = d -> head d <> Some NOT_A_FRAME ->
    let (a', out) := forward a (ar_side e) d (ar_from e) (ar_now e) (ar_sent_ok e) in
    paid (al_budget a) (al_budget a') (carried out) 1 /\ bk_refilled (al_budget a') <= ar_now e) as Hf.
  { intros d Hd Hh. unfold forward. destruct (negb _); [by apply Hquiet|].
    destruct (pt_party (port a (negb _))); [|by apply Hquiet].
    rewrite <- Hd. pose proof (len_nonneg (ar_data e)) as Hlen0.
    assert (Fl.of_Z binary64 (len (ar_data e)) = len (ar_data e) * unit) as Hcost
      by (apply of_Z_exact; cbn; lia).
    assert (0 < unit) as Hunit by (apply Z.pow_pos_nonneg; cbn; lia).
    pose proof (take_within binary64 ltac:(cbn; lia) ltac:(cbn; lia) giga64 relay_rate relay_rate
      ltac:(rewrite relay_rate_exact; clia) ltac:(rewrite relay_rate_exact; clia)
      (al_budget a) (ar_now e) (Fl.of_Z binary64 (len (ar_data e))) Hb ltac:(rewrite Hcost; lia) Hnow) as Ht.
    destruct (Bucket.take _ _ _ _ _ _) as [b ok] eqn:Et. destruct Ht as (H1 & H2 & H3).
    destruct ok; cbn [set_forward al_budget carried fold_right out_data]; rewrite H2.
    - rewrite bool_decide_false by (by rewrite Hd). split; [|lia].
      split; [done|]. split; [lia|]. rewrite H2. rewrite Hcost in H3. lia.
    - split; [|lia]. split; [done|]. split; [lia|]. rewrite H2. lia. }
  unfold handle, serve. destruct (ar_data e) as [|first rest] eqn:Hd; [by apply Hf|].
  destruct (Z.eqb_spec first NOT_A_FRAME) as [->|Hn]; [|by apply Hf; cbn; congruence].
  pose proof (not_a_frame_quiet a (ar_side e) rest (ar_from e) (ar_now e)) as [Hq Hc].
  destruct (not_a_frame _ _ _ _ _) as [a' out]. cbn [fst snd] in *. rewrite Hc. by apply Hquiet.
Qed.

(** Arrivals in the order of the clock, each no larger than the buffer. *)
Fixpoint clocked (t : Z) (es : list Arrival) : Prop :=
  match es with
  | [] => True
  | e :: es => t <= ar_now e /\ len (ar_data e) <= 65535 /\ clocked (ar_now e) es
  end.

Lemma serve_all_budget es a t :
  0 <= bk_left (al_budget a) <= 2 * relay_rate + unit -> bk_refilled (al_budget a) <= t ->
  clocked t es ->
  let (a', outs) := serve_all a es in
  paid (al_budget a) (al_budget a') (carried outs) (len es).
Proof.
  revert a t. induction es as [|e es IH]; intros a t Hb Ht Hes; cbn [serve_all].
  - apply paid_none; [|done]. change (len (@nil Arrival)) with 0. lia.
  - destruct Hes as (Hnow & Hlen & Hes).
    pose proof (handle_budget a e Hb Hlen ltac:(lia)) as H1.
    destruct (handle a e) as [a1 out]. destruct H1 as ((Hb1 & Hr1 & Hp1) & Hn1).
    specialize (IH a1 (ar_now e) Hb1 Hn1 Hes). destruct (serve_all a1 es) as [a2 outs].
    destruct IH as (Hb2 & Hr2 & Hp2). split; [done|]. split; [lia|].
    rewrite carried_app, len_cons. lia.
Qed.
End budget.

(** ** Who the parties are *)
Section parties.
Context `{Crypto}.

Lemma port_step_keeps p q side e :
  port_step p q side e ->
  pt_token q = pt_token p /\ pt_secret q = pt_secret p /\ pt_opened q = pt_opened p /\
  (pt_exposed p = true -> pt_exposed q = true) /\
  (pt_exposed p = true -> forall x, pt_party p = Some x -> pt_party q = Some x).
Proof.
  intros [->|[(_ & _ & -> & He)|(_ & _ & Hp & ->)]]; cbn; [done|..].
  - do 4 (split; [done|]). intros Hx x. by rewrite He.
  - do 4 (split; [done|]). intros _ x. by rewrite Hp.
Qed.

Lemma sent_same p q from n now :
  pt_secret q = pt_secret p -> pt_opened q = pt_opened p ->
  Port.sent q from n now = Port.sent p from n now.
Proof. intros Hs Ho. unfold Port.sent, Port.nonce, Port.epoch. by rewrite Hs, Ho. Qed.

(** What has been established about the port at [side] by the arrivals [es],
    [p] being the port as it was opened. *)
Definition established (p q : Port) (side : bool) (es : list Arrival) : Prop :=
  pt_token q = pt_token p /\ pt_secret q = pt_secret p /\ pt_opened q = pt_opened p /\
  (pt_exposed q = true -> exists e, e ∈ es /\ ar_side e = side /\ binds p e) /\
  (forall x, pt_party q = Some x ->
     exists e legacy, e ∈ es /\ ar_side e = side /\ ar_from e = x /\ proves p e legacy /\
       (legacy = true -> exists e0, e0 ∈ es /\ ar_side e0 = side /\ binds p e0)).

Lemma established_step p q q' side es e :
  established p q side es -> port_step q q' side e -> established p q' side (es ++ [e]).
Proof.
  intros (Ht & Hs & Ho & Hx & Hp) Hst.
  destruct (port_step_keeps _ _ _ _ Hst) as (Ht' & Hs' & Ho' & _ & _).
  assert (binds q e -> binds p e) as Hb by (unfold binds; by rewrite Ht).
  split; [congruence|]. split; [congruence|]. split; [congruence|].
  assert (forall P : Arrival -> Prop, (exists e0, e0 ∈ es /\ P e0) -> exists e0, e0 ∈ es ++ [e] /\ P e0)
    as Hold by (intros P (e0 & ? & ?); exists e0; set_solver).
  destruct Hst as [->|[(Hside & Hpr & -> & He)|(Hside & Hbi & Hn & ->)]]; cbn.
  - split; [by intros ?%Hx%Hold|]. intros x (e0 & l & H1 & H2 & H3 & H4 & H5)%Hp. exists e0, l.
    split; [set_solver|]. do 3 (split; [done|]). by intros ?%H5%Hold.
  - split; [by intros ?%Hx%Hold|]. intros x [= <-]. exists e, (pt_exposed q).
    split; [set_solver|]. do 2 (split; [done|]). split; [|by intros ?%Hx%Hold].
    destruct Hpr as (n & Hn & Hd). exists n. rewrite <- Ht. split; [|done].
    by rewrite <- (sent_same p q).
  - split; [|intros x; rewrite Hn; done]. intros _. exists e. split; [set_solver|]. auto.
Qed.

Lemma serve_all_app a es1 es2 :
  (serve_all a (es1 ++ es2)).1 = (serve_all (serve_all a es1).1 es2).1.
Proof.
  revert a. induction es1 as [|e es1 IH]; intros a; [done|]. cbn [app serve_all].
  destruct (handle a e) as [a1 out]. specialize (IH a1).
  destruct (serve_all a1 es1) as [a2 outs] eqn:E1. cbn [fst] in *.
  by destruct (serve_all a1 (es1 ++ es2)).
Qed.

Lemma serve_all_established a es side :
  pt_party (port a side) = None -> pt_exposed (port a side) = false ->
  established (port a side) (port (serve_all a es).1 side) side es.
Proof.
  intros Hp Hx. induction es as [|e es IH] using rev_ind.
  - cbn. repeat split; try done; [by rewrite Hx|by rewrite Hp].
  - rewrite serve_all_app. eapply established_step; [exact IH|]. cbn [serve_all].
    pose proof (handle_port_step (serve_all a es).1 e side) as Hh.
    by destruct (handle (serve_all a es).1 e) as [a' out].
Qed.

Lemma serve_all_keeps a es side x :
  pt_exposed (port a side) = true -> pt_party (port a side) = Some x ->
  pt_party (port (serve_all a es).1 side) = Some x.
Proof.
  revert a. induction es as [|e es IH]; intros a Hx Hp; [done|]. cbn [serve_all].
  destruct (port_step_keeps _ _ _ _ (handle_port_step a e side)) as (_ & _ & _ & H1 & H2).
  destruct (handle a e) as [a1 out]. cbn [fst] in *. specialize (IH a1 (H1 Hx) (H2 Hx x Hp)).
  by destruct (serve_all a1 es).
Qed.
End parties.

(** ** Properties *)

(** C21: Whatever arrives at a relay's two ports, the address a port records
    for its party is one a datagram came from that carried a nonce the port
    derived for that very address, in this ten-second period or the last,
    keyed with the port's token; or, only once the token has been seen in the
    clear, the bare nonce. A port whose token has been seen never changes the
    address it recorded. *)
Theorem relay_party_proved `{Crypto} bound advertised ips n0 n1 t0 s0 t1 s1 now es es' side :
  let a := Allocation.open bound advertised ips n0 n1 t0 s0 t1 s1 now in
  let p := port a side in
  let q := port (serve_all a es).1 side in
  (forall x, pt_party q = Some x ->
     exists e nonce, e ∈ es /\ ar_side e = side /\ ar_from e = x /\
       Port.sent p x nonce (ar_now e) = true /\
       (ar_data e = [NOT_A_FRAME; ANSWER] ++ nonce ++ relay_answer (pt_token p) nonce \/
        ar_data e = [NOT_A_FRAME; PROOF] ++ nonce /\
        exists e0, e0 ∈ es /\ ar_side e0 = side /\ ar_data e0 = [NOT_A_FRAME; BIND] ++ pt_token p)) /\
  (pt_exposed q = true -> forall x, pt_party q = Some x ->
     pt_party (port (serve_all a (es ++ es')).1 side) = Some x).
Proof.
  intros a p q. split.
  - destruct (serve_all_established a es side) as (_ & _ & _ & _ & Hp); [by destruct side..|].
    intros x (e & legacy & He & Hs & <- & (n & Hn & Hd) & Hl)%Hp. exists e, n.
    do 4 (split; [done|]). destruct legacy; [right|by left]. split; [done|by apply Hl].
  - intros Hx x Hp. rewrite serve_all_app. by apply serve_all_keeps.
Qed.

(** A relay between two parties, used by the witnesses. *)
Definition toy_relay : Allocation :=
  Allocation.open (IpV4 [127; 0; 0; 1]) (IpV4 [192; 0; 2; 1]) ∅ 5000 5001
    (replicate 16 1) (replicate 16 2) (replicate 16 3) (replicate 16 4) 0.
Definition toy_party : SocketAddr := SocketAddrV4 [10; 0; 0; 1] 4000.
Definition toy_hello : Arrival := mkArrival false (hello (replicate 16 9)) toy_party 10 true.

(** A relay port answers one datagram with at most one, never longer than
    what it received. What it sends on its own is a check to the sender of a
    hello or a bind; everything else it sends is the datagram itself, received
    from the recorded address of one party and sent to that of the other. *)
Theorem relay_output_exact `{CL : CryptoLaws} a e :
  len (pt_token (port a (ar_side e))) = SECRET_LEN ->
  let out := (handle a e).2 in
  len out <= 1 /\
  forall o, o ∈ out -> len (out_data o) <= len (ar_data e) /\ (is_check a e o \/ is_forward a e o).
Proof.
  intros Htok out. unfold out. destruct (handle_outputs a e) as [->|(o & -> & Ho)].
  { split; [done|]. by intros o ?%elem_of_nil. }
  split; [done|]. intros o' ->%list_elem_of_singleton. split; [|done].
  destruct Ho as [(_ & _ & -> & Hd)|(_ & -> & _)]; [|lia].
  unfold Port.nonce. rewrite len_app, len_takez. unfold hash. rewrite blake2s_len.
  destruct Hd as [(pad & Hp & ->)| ->]; unfold hello; rewrite !len_app, ?Hp, ?Htok, !len_cons, !len_nil; clia.
Qed.

Lemma relay_output_exact_witness :
  len (handle (H := Toy.crypto) toy_relay toy_hello).2 = 1 /\
  len (handle (H := Toy.crypto) toy_relay toy_hello).2 <= 1.
Proof.
  split; [vm_compute; reflexivity|].
  exact (proj1 (relay_output_exact (CL := Toy.laws) toy_relay toy_hello ltac:(vm_compute; reflexivity))).
Defined.

(** Within any second, a relay port sends at most twice
    [CHECKS_PER_SECOND] checks in all, and at most twice [CHECKS_PER_ADDRESS]
    to any one address, whatever forged sources it hears from. *)
Theorem relay_checks_bounded `{Crypto} bound advertised ips n0 n1 t0 s0 t1 s1 now past es t side :
  let a := (serve_all (Allocation.open bound advertised ips n0 n1 t0 s0 t1 s1 now) past).1 in
  let outs := (serve_all a es).2 in
  Forall (fun e => t <= ar_now e < t + 1000) es ->
  count (own side) outs <= 2 * CHECKS_PER_SECOND /\
  forall x, count (own_to side x) outs <= 2 * CHECKS_PER_ADDRESS.
Proof.
  intros a outs Hes.
  assert (checks_wf (checks a side)) as Hwf.
  { unfold a. clear. set (a0 := Allocation.open _ _ _ _ _ _ _ _ _ _).
    assert (checks_wf (checks a0 side)) as Ha0 by (destruct side; apply checks_wf_new). clearbody a0.
    revert a0 Ha0. induction past as [|e past IH]; intros a0 Ha0; [done|]. cbn [serve_all].
    pose proof (handle_checks a0 e side (ar_now e) Ha0 ltac:(lia)) as H1.
    destruct (handle a0 e) as [a1 out]. destruct H1 as [H1 _]. specialize (IH a1 H1).
    by destruct (serve_all a1 past). }
  pose proof (serve_all_checks es a side t Hwf Hes) as Hc. unfold outs.
  destruct (serve_all a es) as [a' o]. destruct Hc as (Hwf' & Hl & Hx). cbn [snd].
  pose proof (proj2 Hwf). pose proof (proj2 Hwf'). split.
  - unfold checks_left in Hl. revert Hl. do 2 zcase; clia.
  - intros x. specialize (Hx x). unfold checks_left_to in Hx.
    pose proof (checks_wf_default _ x Hwf). pose proof (checks_wf_default _ x Hwf').
    revert Hx. do 2 zcase; clia.
Qed.

Lemma relay_checks_bounded_witness :
  let outs := (serve_all (H := Toy.crypto) toy_relay [toy_hello; toy_hello; toy_hello]).2 in
  count (own false) outs = 2 /\ count (own false) outs <= 2 * CHECKS_PER_SECOND.
Proof.
  split; [vm_compute; reflexivity|].
  refine (proj1 (relay_checks_bounded (H := Toy.crypto) (IpV4 [127; 0; 0; 1]) (IpV4 [192; 0; 2; 1]) ∅
    5000 5001 (replicate 16 1) (replicate 16 2) (replicate 16 3) (replicate 16 4) 0 []
    [toy_hello; toy_hello; toy_hello] 0 false _)).
  repeat constructor; cbn; lia.
Defined.

(** What a relay forwards, both directions together, is within its byte
    budget: over any run of datagrams, the bytes forwarded are at most a burst
    of [RELAY_BYTES_PER_SECOND] plus that many a second for as long as the run
    lasts, to within the rounding of the floating-point budget. *)
Theorem relay_within_budget `{Crypto} bound advertised ips n0 n1 t0 s0 t1 s1 now es :
  let a := Allocation.open bound advertised ips n0 n1 t0 s0 t1 s1 now in
  let (a', outs) := serve_all a es in
  let elapsed := bk_refilled (al_budget a') - now in
  clocked now es ->
  2 ^ 20 * 1000 * carried outs
    <= 2 ^ 20 * 1000 * RELAY_BYTES_PER_SECOND
       + (2 ^ 20 + 1) * (RELAY_BYTES_PER_SECOND * elapsed)
       + 1000 * (len es * (RELAY_BYTES_PER_SECOND + 1)).
Proof.
  intros a. pose proof (serve_all_budget es a now) as Hb.
  destruct (serve_all a es) as [a' outs]. intros elapsed Hes.
  assert (0 < 2 ^ emin binary64) as Hu by (apply Z.pow_pos_nonneg; cbn; lia).
  destruct Hb as (Hl & Hr & Hp); [cbn [a Allocation.open al_budget bk_left];
    rewrite relay_rate_exact; clia|done|done|].
  cbn [a Allocation.open al_budget bk_left bk_refilled] in *. fold elapsed in Hp.
  rewrite relay_rate_exact in Hp. apply Z.mul_le_mono_pos_r with (p := 2 ^ emin binary64); [done|]. lia.
Qed.

Lemma relay_within_budget_witness :
  let (a', outs) := serve_all (H := Toy.crypto) toy_relay [toy_hello] in
  2 ^ 20 * 1000 * carried outs
    <= 2 ^ 20 * 1000 * RELAY_BYTES_PER_SECOND
       + (2 ^ 20 + 1) * (RELAY_BYTES_PER_SECOND * (bk_refilled (al_budget a') - 0))
       + 1000 * (len [toy_hello] * (RELAY_BYTES_PER_SECOND + 1)).
Proof.
  pose proof (relay_within_budget (H := Toy.crypto) (IpV4 [127; 0; 0; 1]) (IpV4 [192; 0; 2; 1]) ∅
    5000 5001 (replicate 16 1) (replicate 16 2) (replicate 16 3) (replicate 16 4) 0 [toy_hello]) as Hw.
  cbv zeta in Hw. change (Allocation.open _ _ _ _ _ _ _ _ _ _) with toy_relay in Hw.
  destruct (serve_all toy_relay [toy_hello]) as [a' outs]. apply Hw.
  split; [cbn; lia|]. split; [vm_compute; discriminate|done].
Defined.
