(* ===== verification/Udp.v ===== *)
(** * Sockets and process-wide settings (crates/fectp/src/udp.rs, lib.rs)

    [Net] is what the code asks of the host: a datagram socket, the clock and
    the random generator. Every clock reading and every draw goes through it,
    in the order the code makes them. The two process-wide settings of udp.rs
    are part of the host too, since any thread may change them. Also
    here: how I/O errors are classed, the capabilities advertised, and the
    opening frame's buffer with its size. *)
From S2P Require Import Prelude Bytes Error Fragment Codec Cipher Symmetric Handshake Session.
From S2P Require Import Connect Compress Pmtu Control.

Definition DEFAULT_MAX_DATAGRAM : Z := 1200.
Definition MIN_MAX_DATAGRAM : Z := 128.
#[export] Hint Unfold DEFAULT_MAX_DATAGRAM MIN_MAX_DATAGRAM : consts.

(** The kinds of [io::Error] the code tells apart; [TooLong] is the system's
    EMSGSIZE. *)
Inductive IoError :=
| WouldBlock
| TimedOut
| ConnectionReset
| ConnectionRefused
| TooLong
| OtherIo.

Definition is_timeout (e : IoError) : bool :=
  match e with WouldBlock | TimedOut => true | _ => false end.

Definition is_stale_unreachable (e : IoError) : bool :=
  match e with ConnectionReset | ConnectionRefused => true | _ => false end.

Definition is_too_long (e : IoError) : bool :=
  match e with TooLong => true | _ => false end.

(** The two process-wide settings. *)
Record Settings := mkSettings { MAX_DATAGRAM : Z; DISCOVERY : bool }.

Module Settings.
Definition default : Settings := mkSettings DEFAULT_MAX_DATAGRAM true.

Definition set_max_datagram (s : Settings) (size : Z) : Settings :=
  mkSettings (clamp MIN_MAX_DATAGRAM U16_MAX size) (DISCOVERY s).

Definition set_path_mtu_discovery (s : Settings) (enabled : bool) : Settings :=
  mkSettings (MAX_DATAGRAM s) enabled.
End Settings.

(** ** The host

    [net_send] is [DatagramSocket::send_to], [net_recv] is [recv_from] on a
    buffer of the given size with the given timeout, [net_now] is
    [Instant::now], [net_random] is [OsRng.fill_bytes], [net_bind] is
    [UdpSocket::bind] to a port of the system's choosing. *)
Class Net (W : Type) := {
  net_send : W -> bytes -> SocketAddr -> W * option IoError;
  net_recv : W -> Z -> option Z -> W * (bytes * SocketAddr + IoError);
  net_local_addr : W -> SocketAddr + IoError;
  net_now : W -> Z;
  net_random : W -> Z -> W * bytes;
  net_bind : W -> IpAddr -> W * (Z + IoError);
  net_settings : W -> Settings;
}.

Section udp.
Context {W : Type} `{Net W}.

Definition max_datagram (w : W) : Z := MAX_DATAGRAM (net_settings w).

Definition path_mtu_discovery (w : W) : bool := DISCOVERY (net_settings w).

Definition handshake_datagram (w : W) : Z := Z.min (max_datagram w) BASE_DATAGRAM.

Definition searches_above_base (w : W) : bool :=
  path_mtu_discovery w && (BASE_DATAGRAM <? max_datagram w).

(** [OsRng.next_u32]. *)
Definition next_u32 (w : W) : W * Z :=
  let (w, b) := net_random w 4 in (w, from_le b).
End udp.

(** ** A host for concrete runs

    What is due to arrive, in order; what was sent; a clock that every receive
    moves on; and a generator that counts. *)
Record ToyNet := mkToyNet {
  tn_clock : Z;
  tn_inbox : list (Z * bytes * SocketAddr);
  tn_outbox : list (bytes * SocketAddr);
  tn_seed : Z;
  tn_settings : Settings;
}.

Module ToyNet.
Definition send (w : ToyNet) (b : bytes) (a : SocketAddr) : ToyNet * option IoError :=
  (mkToyNet (tn_clock w) (tn_inbox w) (tn_outbox w ++ [(b, a)]) (tn_seed w) (tn_settings w), None).

Definition recv (w : ToyNet) (size : Z) (timeout : option Z) : ToyNet * (bytes * SocketAddr + IoError) :=
  let at_clock t inbox := mkToyNet t inbox (tn_outbox w) (tn_seed w) (tn_settings w) in
  let limit := tn_clock w + Z.max 1 (default 1 timeout) in
  match tn_inbox w with
  | (at_, b, from) :: inbox =>
      if at_ <=? limit then (at_clock (Z.max (tn_clock w) at_ + 1) inbox, inl (takez size b, from))
      else (at_clock limit (tn_inbox w), inr WouldBlock)
  | [] => (at_clock limit [], inr WouldBlock)
  end.

Definition random (w : ToyNet) (n : Z) : ToyNet * bytes :=
  (mkToyNet (tn_clock w) (tn_inbox w) (tn_outbox w) (tn_seed w + 1) (tn_settings w),
   map (fun i => (tn_seed w * 7 + Z.of_nat i * 3) mod 256) (seq 0 (Z.to_nat n))).

#[global] Instance net : Net ToyNet := {|
  net_send := send; net_recv := recv; net_local_addr := fun _ => inl (SocketAddrV4 [127; 0; 0; 1] 4000);
  net_now := tn_clock; net_random := random;
  net_bind := fun w _ => (w, inl (40000 + tn_seed w)); net_settings := tn_settings;
|}.
End ToyNet.

(** ** lib.rs *)

(** A buffer for an opening frame carrying [zero_rtt], within [budget]. *)
Definition opening_frame (budget overhead : Z) (zero_rtt : bytes) : HostResult bytes :=
  let limit := saturating_sub budget overhead in
  if limit <? len zero_rtt then Err (HostPayloadTooLarge (len zero_rtt) limit) else
  Ok (zeros (overhead + len zero_rtt)).

(** [max_datagram() as u16] wraps, but the setting is clamped to [u16]. *)
Definition local_capabilities `{ZstdLib} {W} `{Net W} (w : W) : Capabilities := {|
  cap_flags := Z.lor (Z.lor CAP_RELIABLE CAP_PMTU_PROBE) (if feature_compress then CAP_ZSTD else 0);
  max_frame_size := max_datagram w mod 65536;
  cap_codecs := Z.lor CODECS_CORE (if feature_compress then CODEC_ZSTD else 0);
|}.

(** [set_max_datagram] keeps the setting within what the capability field and
    a handshake need. *)
Lemma set_max_datagram_range s size :
  MIN_MAX_DATAGRAM <= MAX_DATAGRAM (Settings.set_max_datagram s size) <= U16_MAX.
Proof. unfold Settings.set_max_datagram, clamp. cbn. clia. Qed.

Lemma opening_frame_len budget overhead zero_rtt frame :
  0 <= overhead -> opening_frame budget overhead zero_rtt = Ok frame ->
  len frame = overhead + len zero_rtt /\ len frame <= Z.max overhead budget.
Proof.
  intros Ho. unfold opening_frame, saturating_sub. zcase; [done|]. intros [= <-].
  pose proof (len_nonneg zero_rtt). rewrite len_zeros. lia.
Qed.
