(* ===== verification/Sockets.v ===== *)
(** * UDP sockets (crates/fectp/src/udp.rs)

    The code between the crate and [std::net::UdpSocket]: how a datagram is
    waited for (on Windows a read that times out can take a datagram with it,
    so nothing waits by reading), the socket an endpoint is bound to, and the
    bound mode of [UdpTransport]. The operating system's socket is a parameter,
    [UdpOs]; [UdpLaws] is what udp.rs relies on of it. [Prepared] with any such
    system is an instance of [Net], the interface everything above is stated
    against. *)
From S2P Require Import Prelude Bytes Error Control Pmtu Udp.

(** The systems the [cfg] attributes tell apart. *)
Inductive Platform := Linux | Android | Apple | Windows | OtherOs.

Definition is_windows (p : Platform) : bool := match p with Windows => true | _ => false end.

(** [raw_os_error] of a datagram too large for the path. *)
Definition EMSGSIZE (p : Platform) : Z :=
  match p with Linux | Android => 90 | Apple => 40 | Windows => 10040 | OtherOs => -1 end.

Definition is_too_long_raw (p : Platform) (raw_os_error : option Z) : bool :=
  bool_decide (raw_os_error = Some (EMSGSIZE p)).

(** ** The system's socket

    [os_recv_from] and [os_peek_from] behave as the socket's mode and read
    timeout say; the latter's data is not used. The last four are the rest of
    the host. *)
Class UdpOs (K : Type) := {
  os_recv_from : K -> Z -> K * (bytes * SocketAddr + IoError);
  os_peek_from : K -> Z -> K * option IoError;
  os_send_to : K -> bytes -> SocketAddr -> K * (Z + IoError);
  os_set_nonblocking : K -> bool -> K * option IoError;
  os_set_read_timeout : K -> option Z -> K * option IoError;
  os_try_clone : K -> K * option IoError;
  os_local_addr : K -> SocketAddr + IoError;
  os_peer_addr : K -> SocketAddr + IoError;
  os_forbid_v4 : K -> K * bool;
  os_forbid_v6 : K -> K * bool;
  os_send : K -> bytes -> K * (Z + IoError);
  os_recv : K -> Z -> K * (bytes + IoError);
  os_now : K -> Z;
  os_random : K -> Z -> K * bytes;
  os_bind : K -> IpAddr -> K * (Z + IoError);
  os_settings : K -> Settings;
}.

Section sockets.
Context {K : Type} `{UdpOs K} (p : Platform).

(** [timeout] is what the caller's closure returns. *)
Definition recv_from (k : K) (size : Z) (timeout : option Z + IoError)
  : K * (bytes * SocketAddr + IoError) :=
  if is_windows p then
    match os_recv_from k size with
    | (k, inr WouldBlock) =>
        let (k, err) := os_set_nonblocking k false in
        match err with
        | Some e => (k, inr e)
        | None =>
            let (k, waited) :=
              match timeout with
              | inr e => (k, Some e)
              | inl t =>
                  let (k, err) := os_set_read_timeout k t in
                  match err with Some e => (k, Some e) | None => os_peek_from k size end
              end in
            let (k, err) := os_set_nonblocking k true in
            match err with
            | Some e => (k, inr e)
            | None =>
                match waited with
                | Some e => if is_timeout e then (k, inr e) else os_recv_from k size
                | None => os_recv_from k size
                end
            end
        end
    | read => read
    end
  else
    match timeout with
    | inr e => (k, inr e)
    | inl t =>
        let (k, err) := os_set_read_timeout k t in
        match err with Some e => (k, inr e) | None => os_recv_from k size end
    end.

Definition send_to (k : K) (buf : bytes) (addr : SocketAddr) : K * (Z + IoError) :=
  match os_send_to k buf addr with
  | (k, inr WouldBlock) =>
      if is_windows p then
        let (k, err) := os_set_nonblocking k false in
        match err with
        | Some e => (k, inr e)
        | None =>
            let (k, sent) := os_send_to k buf addr in
            let (k, err) := os_set_nonblocking k true in
            match err with Some e => (k, inr e) | None => (k, sent) end
        end
      else (k, inr WouldBlock)
  | sent => sent
  end.

Definition recv_from_peeking (k : K) (size : Z) : K * (bytes * SocketAddr + IoError) :=
  if is_windows p then
    match os_peek_from k size with
    | (k, Some e) => if is_timeout e then (k, inr e) else os_recv_from k size
    | (k, None) => os_recv_from k size
    end
  else os_recv_from k size.

Definition prepare (k : K) : K * option IoError :=
  if is_windows p then os_set_nonblocking k true else (k, None).

(** Both families are asked; the one that does not apply fails. *)
Definition forbid_fragmentation (k : K) : K * bool :=
  match p with
  | Linux | Android | Apple =>
      let (k, v4) := os_forbid_v4 k in
      let (k, v6) := os_forbid_v6 k in
      (k, v4 || v6)
  | Windows | OtherOs => (k, false)
  end.

Definition searches_above (s : Settings) : bool := DISCOVERY s && (BASE_DATAGRAM <? MAX_DATAGRAM s).

(** *** [Prepared] *)
Definition prepared_new (k : K) : K * option IoError :=
  let (k, err) := prepare k in
  match err with
  | Some e => (k, Some e)
  | None =>
      ((if searches_above (os_settings k) then (forbid_fragmentation k).1 else k), None)
  end.

Definition prepared_recv_from (k : K) (size : Z) (timeout : option Z) : K * (bytes * SocketAddr + IoError) :=
  recv_from k size (inl timeout).

(** *** [UdpTransport], bound *)
Record BoundTransport := mkBoundTransport {
  bt_peer : option SocketAddr;
  bt_max_datagram : Z;
}.

Definition with_peer (k : K) (peer : SocketAddr) : BoundTransport :=
  mkBoundTransport (Some peer) (MAX_DATAGRAM (os_settings k)).

(** What [UdpTransport::connect] does to its socket once it is connected. *)
Definition transport_socket_options (k : K) : K :=
  if searches_above (os_settings k) then (forbid_fragmentation k).1 else k.

Definition bt_try_clone (k : K) (t : BoundTransport) : K * (BoundTransport + IoError) :=
  let (k, err) := os_try_clone k in
  match err with Some e => (k, inr e) | None => (k, inl t) end.

Definition bt_peer_addr (k : K) (t : BoundTransport) : SocketAddr + IoError :=
  match bt_peer t with Some peer => inl peer | None => os_peer_addr k end.

Definition bt_send (k : K) (t : BoundTransport) (datagram : bytes) : K * option IoError :=
  let (k, r) :=
    match bt_peer t with
    | Some peer => os_send_to k datagram peer
    | None => os_send k datagram
    end in
  match r with
  | inl n => (k, if n =? len datagram then None else Some OtherIo)
  | inr e => (k, Some e)
  end.

(** Reads until a datagram of the peer's arrives; [None] is fuel spent. *)
Fixpoint recv_of_peer (fuel : nat) (k : K) (peer : SocketAddr) (size : Z) : K * option (bytes + IoError) :=
  match fuel with
  | O => (k, None)
  | S fuel =>
      match recv_from_peeking k size with
      | (k, inr e) => (k, Some (inr e))
      | (k, inl (b, from)) =>
          if bool_decide (from = peer) then (k, Some (inl b)) else recv_of_peer fuel k peer size
      end
  end.

Definition bt_recv (fuel : nat) (k : K) (t : BoundTransport) (size : Z) : K * option (bytes + IoError) :=
  match bt_peer t with
  | None => let (k, r) := os_recv k size in (k, Some r)
  | Some peer => recv_of_peer fuel k peer size
  end.

(** ** The interface the rest of the crate is stated against *)
#[export] Instance prepared_net : Net K := {|
  net_send k buf to := let (k, r) := send_to k buf to in
                       (k, match r with inl _ => None | inr e => Some e end);
  net_recv k size timeout := prepared_recv_from k size timeout;
  net_local_addr := os_local_addr;
  net_now := os_now;
  net_random := os_random;
  net_bind := os_bind;
  net_settings := os_settings;
|}.
End sockets.

(** ** What udp.rs relies on

    [os_lost] are the datagrams the system took off the queue without giving
    them to the program, [os_ready] says that something is queued: a datagram,
    or the report of an error. *)

(** At most one datagram, too large for the buffer, was taken, and then the
    caller was told by an error that is not a timeout. *)
Definition spares (size : Z) (lost lost' : list (bytes * SocketAddr)) (told : option IoError) : Prop :=
  lost' = lost \/
  exists d e, lost' = lost ++ [d] /\ size < len d.1 /\ told = Some e /\ is_timeout e = false.

Definition told {A} (r : A + IoError) : option IoError :=
  match r with inl _ => None | inr e => Some e end.

(** A read that does not wait, in non-blocking mode or with something queued,
    takes an oversized datagram off the queue and reports it, and loses nothing
    else; of one that waits nothing is said. A peek takes nothing, and one that
    does not time out has found something queued. *)
Class UdpLaws (K : Type) `{UdpOs K} := {
  os_nonblocking : K -> bool;
  os_ready : K -> bool;
  os_lost : K -> list (bytes * SocketAddr);
  read_now k n :
    os_nonblocking k = true \/ os_ready k = true ->
    spares n (os_lost k) (os_lost (os_recv_from k n).1) (told (os_recv_from k n).2);
  read_mode k n : os_nonblocking (os_recv_from k n).1 = os_nonblocking k;
  peek_loses_nothing k n :
    os_lost (os_peek_from k n).1 = os_lost k /\ os_nonblocking (os_peek_from k n).1 = os_nonblocking k;
  peek_finds k n :
    (forall e, (os_peek_from k n).2 = Some e -> is_timeout e = false) -> os_ready (os_peek_from k n).1 = true;
  set_mode k b :
    os_lost (os_set_nonblocking k b).1 = os_lost k /\
    ((os_set_nonblocking k b).2 = None -> os_nonblocking (os_set_nonblocking k b).1 = b);
  set_timeout k t :
    os_lost (os_set_read_timeout k t).1 = os_lost k /\
    os_nonblocking (os_set_read_timeout k t).1 = os_nonblocking k;
}.

Section waiting.
Context {K : Type} `{UdpLaws K}.

(** The wait between the two reads. *)
Lemma wait_loses_nothing (k : K) size (timeout : option Z + IoError) :
  os_lost
    (match timeout with
     | inr e => (k, Some e)
     | inl t =>
         let (k, err) := os_set_read_timeout k t in
         match err with Some e => (k, Some e) | None => os_peek_from k size end
     end).1 = os_lost k.
Proof.
  destruct timeout as [t|e]; [|done]. destruct (set_timeout k t) as [Hl _].
  destruct (os_set_read_timeout k t) as [k1 [e|]]; [done|]. cbn in Hl. rewrite <- Hl.
  by destruct (peek_loses_nothing k1 size).
Qed.

Lemma spares_timeout size lost lost' e : spares size lost lost' (Some e) -> is_timeout e = true -> lost' = lost.
Proof. intros [|(d & e' & _ & _ & [= <-] & He)] Ht; [done|congruence]. Qed.

Lemma recv_from_loses_nothing (k : K) size timeout :
  os_nonblocking k = true ->
  spares size (os_lost k) (os_lost (recv_from Windows k size timeout).1) (told (recv_from Windows k size timeout).2) /\
  (os_nonblocking (recv_from Windows k size timeout).1 = true \/
   exists e, (recv_from Windows k size timeout).2 = inr e).
Proof.
  intros Hn. unfold recv_from. cbn [is_windows].
  pose proof (read_now k size (or_introl Hn)) as Hl. pose proof (read_mode k size) as Hm.
  destruct (os_recv_from k size) as [k1 r1]. cbn [fst snd] in Hl, Hm. rewrite Hn in Hm.
  destruct r1 as [d|[]]; try by auto.
  apply spares_timeout in Hl; [|done].
  destruct (set_mode k1 false) as [Hl2 _]. destruct (os_set_nonblocking k1 false) as [k2 [e|]]; cbn in Hl2.
  { cbn. split; [left; congruence|eauto]. }
  pose proof (wait_loses_nothing k2 size timeout) as Hw.
  match type of Hw with os_lost (fst ?x) = _ => destruct x as [k3 waited] end. cbn [fst] in Hw.
  destruct (set_mode k3 true) as [Hl4 Hm4]. destruct (os_set_nonblocking k3 true) as [k4 [e|]]; cbn in Hl4, Hm4.
  { cbn. split; [left; congruence|eauto]. }
  specialize (Hm4 eq_refl). pose proof (read_now k4 size (or_introl Hm4)) as Hl5.
  pose proof (read_mode k4 size) as Hm5. rewrite Hl4, Hw, Hl2, Hl in Hl5.
  assert (os_nonblocking (os_recv_from k4 size).1 = true) by congruence.
  destruct waited as [e|]; [|by auto]. destruct (is_timeout e); [|by auto].
  cbn. split; [left; congruence|auto].
Qed.

Lemma peeking_loses_nothing (k : K) size :
  spares size (os_lost k) (os_lost (recv_from_peeking Windows k size).1)
    (told (recv_from_peeking Windows k size).2).
Proof.
  unfold recv_from_peeking. cbn [is_windows]. destruct (peek_loses_nothing k size) as [Hl _].
  pose proof (peek_finds k size) as Hf. destruct (os_peek_from k size) as [k1 e]. cbn [fst snd] in *.
  assert ((forall e', e = Some e' -> is_timeout e' = false) ->
    spares size (os_lost k) (os_lost (os_recv_from k1 size).1) (told (os_recv_from k1 size).2))
    as Hread by (intros Hx; rewrite <- Hl; apply read_now; auto).
  destruct e as [e|]; [|by apply Hread]. destruct (is_timeout e) eqn:Et; [by left|].
  apply Hread. by intros ? [= <-].
Qed.

(** The error a bounded wait ended with. *)
Definition told_by_peer (r : option (bytes + IoError)) : option IoError :=
  match r with Some r => told r | None => None end.

Lemma recv_of_peer_loses_nothing fuel (k : K) peer size :
  spares size (os_lost k) (os_lost (recv_of_peer Windows fuel k peer size).1)
    (told_by_peer (recv_of_peer Windows fuel k peer size).2).
Proof.
  revert k. induction fuel as [|fuel IH]; intros k; cbn [recv_of_peer]; [by left|].
  pose proof (peeking_loses_nothing k size) as Hl.
  destruct (recv_from_peeking Windows k size) as [k1 [[b from]|e]]; [|done]. cbn [fst snd told] in Hl.
  destruct Hl as [Hl|(d & e & _ & _ & [=] & _)]. rewrite <- Hl.
  destruct (bool_decide (from = peer)); [by left|apply IH].
Qed.

Lemma recv_of_peer_from p fuel (k : K) peer size b :
  (recv_of_peer p fuel k peer size).2 = Some (inl b) ->
  exists k1, recv_from_peeking p k1 size = ((recv_of_peer p fuel k peer size).1, inl (b, peer)).
Proof.
  revert k. induction fuel as [|fuel IH]; intros k; cbn [recv_of_peer]; [done|].
  destruct (recv_from_peeking p k size) as [k1 [[b' from]|e]] eqn:E; [|done].
  destruct (bool_decide_reflect (from = peer)) as [->|]; [|apply IH].
  cbn. intros [= ->]. eauto.
Qed.
End waiting.

(** ** A socket for concrete runs

    What is queued, and what arrives at the moment a wait times out: a read
    that was waiting loses it, a peek leaves it queued. A datagram too large
    for the buffer is reported by both and taken by the read. *)
Record ToyOs := mkToyOs {
  to_queue : list (bytes * SocketAddr);
  to_late : list (bytes * SocketAddr);
  to_nonblocking : bool;
  to_lost : list (bytes * SocketAddr);
}.

Module ToyOs.
Definition recv_from (k : ToyOs) (n : Z) : ToyOs * (bytes * SocketAddr + IoError) :=
  match to_queue k, to_nonblocking k, to_late k with
  | d :: q, _, _ =>
      if len d.1 <=? n then (mkToyOs q (to_late k) (to_nonblocking k) (to_lost k), inl d)
      else (mkToyOs q (to_late k) (to_nonblocking k) (to_lost k ++ [d]), inr OtherIo)
  | [], true, _ => (k, inr WouldBlock)
  | [], false, [] => (k, inr TimedOut)
  | [], false, d :: late => (mkToyOs [] late false (to_lost k ++ [d]), inr TimedOut)
  end.

Definition peek_from (k : ToyOs) (n : Z) : ToyOs * option IoError :=
  match to_queue k, to_nonblocking k, to_late k with
  | d :: _, _, _ => (k, if len d.1 <=? n then None else Some OtherIo)
  | [], true, _ => (k, Some WouldBlock)
  | [], false, [] => (k, Some TimedOut)
  | [], false, d :: late => (mkToyOs [d] late false (to_lost k), Some TimedOut)
  end.

#[global] Instance os : UdpOs ToyOs := {|
  os_recv_from := recv_from;
  os_peek_from := peek_from;
  os_send_to k b _ := (k, inl (len b));
  os_set_nonblocking k b := (mkToyOs (to_queue k) (to_late k) b (to_lost k), None);
  os_set_read_timeout k _ := (k, None);
  os_try_clone k := (k, None);
  os_local_addr _ := inr OtherIo;
  os_peer_addr _ := inr OtherIo;
  os_forbid_v4 k := (k, true);
  os_forbid_v6 k := (k, false);
  os_send k b := (k, inl (len b));
  os_recv k n := let (k, r) := recv_from k n in
                 (k, match r with inl (b, _) => inl b | inr e => inr e end);
  os_now _ := 0;
  os_random k n := (k, zeros n);
  os_bind k _ := (k, inl 0);
  os_settings _ := Settings.default;
|}.

#[global] Instance laws : UdpLaws ToyOs.
Proof.
  refine {| os_nonblocking := to_nonblocking;
            os_ready k := match to_queue k with [] => false | _ => true end;
            os_lost := to_lost |}; try done.
  - intros [[|d q] late [] lost] n; cbn; try (by left); try by intros [|].
    all: intros _; destruct (Z.leb_spec (len d.1) n); [by left|]; right; by exists d, OtherIo.
  - intros [[|d q] [|x late] [] lost] n; cbn; try done; by destruct (len d.1 <=? n).
  - intros [[|d q] [|x late] [] lost] n; done.
  - intros [[|d q] [|x late] [] lost] n; cbn; try done; intros Hx; by specialize (Hx _ eq_refl).
Defined.
End ToyOs.

(** ** Properties *)



(** On a system that behaves so, the path the other platforms take loses the
    datagram that the Windows path returns from its next read. *)
Example reading_can_lose :
  let d := ([1; 2], SocketAddrV4 [10; 0; 0; 1] 9) in
  let k := mkToyOs [] [d] false [] in
  os_lost (recv_from Linux k 1200 (inl (Some 10))).1 = [d] /\
  let k' := (prepared_recv_from Windows (prepare Windows k).1 1200 (Some 10)).1 in
  (prepared_recv_from Windows k' 1200 (Some 10)).2 = inl d.
Proof. done. Qed.
