(* ===== verification/Transport.v ===== *)
(** * The transport interface (crates/fectp-core/src/transport.rs)

    [Transport] is the trait the core is written against: one datagram out, one
    datagram in, and the largest there can be. [udp_transport] is its
    implementation in udp.rs over any system's socket. [Device] is what a
    system must do for the trait's contract to hold of it; the theorem is that
    it then does, and the last example a system for which half of it does not. *)
From S2P Require Import Prelude Bytes Error Control Pmtu Udp Sockets.

(** [recv] waits for a datagram of the peer's, so it takes fuel; [None] is fuel
    spent. [T] is the receiver's state. *)
Class Transport (T TransportError : Type) := {
  tr_send : T -> bytes -> T * option TransportError;
  tr_recv : nat -> T -> Z -> T * option (bytes + TransportError);
  tr_max_datagram_size : T -> Z;
}.

#[export] Instance udp_transport {K} `{UdpOs K} (p : Platform) : Transport (K * BoundTransport) IoError := {|
  tr_send kt datagram := let (k, r) := bt_send kt.1 kt.2 datagram in ((k, kt.2), r);
  tr_recv fuel kt size := let (k, r) := bt_recv p fuel kt.1 kt.2 size in ((k, kt.2), r);
  tr_max_datagram_size kt := bt_max_datagram kt.2;
|}.

(** What crossed a device: every datagram handed to it, with its address, and
    every one read from it, as it was on the wire and as the caller got it. A
    socket that is connected has one address. *)
Class Device (K : Type) `{UdpOs K} := {
  dev_sent : K -> list (bytes * SocketAddr);
  dev_read : K -> list (bytes * bytes * SocketAddr);
  dev_peer : K -> option SocketAddr;
  (** Nothing is held back, joined or split: a datagram goes out as it is or,
      when the call fails, not at all. *)
  dev_send_to k b a :
    let (k', r) := os_send_to k b a in
    dev_read k' = dev_read k /\ dev_peer k' = dev_peer k /\
    match r with
    | inl n => dev_sent k' = dev_sent k ++ [(takez n b, a)] /\ 0 <= n <= len b
    | inr _ => dev_sent k' = dev_sent k
    end;
  dev_send k b a :
    dev_peer k = Some a -> let (k', r) := os_send k b in
    dev_read k' = dev_read k /\ dev_peer k' = dev_peer k /\
    match r with
    | inl n => dev_sent k' = dev_sent k ++ [(takez n b, a)] /\ 0 <= n <= len b
    | inr _ => dev_sent k' = dev_sent k
    end;
  (** A read gives one datagram's bytes, or fails; it never gives two. *)
  dev_recv_from k size :
    let (k', r) := os_recv_from k size in
    dev_sent k' = dev_sent k /\ dev_peer k' = dev_peer k /\
    match r with
    | inl (b, a) => exists wire, dev_read k' = dev_read k ++ [(wire, b, a)]
    | inr _ => dev_read k' = dev_read k
    end;
  dev_peek k size :
    dev_sent (os_peek_from k size).1 = dev_sent k /\ dev_peer (os_peek_from k size).1 = dev_peer k /\
    dev_read (os_peek_from k size).1 = dev_read k;
  dev_recv k size a :
    dev_peer k = Some a -> let (k', r) := os_recv k size in
    dev_sent k' = dev_sent k /\ dev_peer k' = dev_peer k /\
    match r with
    | inl b => exists wire, dev_read k' = dev_read k ++ [(wire, b, a)]
    | inr _ => dev_read k' = dev_read k
    end;
}.

(** What is read is what was on the wire: a datagram that does not fit is an
    error. *)
Definition refuses_to_cut (K : Type) `{Device K} : Prop :=
  forall k size,
    (forall b a, (os_recv_from k size).2 = inl (b, a) -> dev_read (os_recv_from k size).1 = dev_read k ++ [(b, b, a)]) /\
    (forall b a, dev_peer k = Some a -> (os_recv k size).2 = inl b -> dev_read (os_recv k size).1 = dev_read k ++ [(b, b, a)]).

Section contract.
Context {K : Type} `{Device K} (p : Platform).

(** The peer of a transport: the one it was given or the socket's. *)
Definition talks_to (k : K) (t : BoundTransport) (a : SocketAddr) : Prop :=
  match bt_peer t with Some peer => peer = a | None => dev_peer k = Some a end.

Lemma recv_from_peeking_device (k : K) size :
  let (k', r) := recv_from_peeking p k size in
  dev_sent k' = dev_sent k /\ dev_peer k' = dev_peer k /\
  match r with
  | inl (b, a) => exists wire, dev_read k' = dev_read k ++ [(wire, b, a)] /\ (refuses_to_cut K -> wire = b)
  | inr _ => dev_read k' = dev_read k
  end.
Proof.
  assert (Hread : forall k, let (k', r) := os_recv_from k size in
    dev_sent k' = dev_sent k /\ dev_peer k' = dev_peer k /\
    match r with
    | inl (b, a) => exists wire, dev_read k' = dev_read k ++ [(wire, b, a)] /\ (refuses_to_cut K -> wire = b)
    | inr _ => dev_read k' = dev_read k
    end).
  { intros k0. pose proof (dev_recv_from k0 size) as Hd.
    assert (Hcut : refuses_to_cut K -> forall b a, (os_recv_from k0 size).2 = inl (b, a) ->
      dev_read (os_recv_from k0 size).1 = dev_read k0 ++ [(b, b, a)]) by (intros Hc; apply Hc).
    destruct (os_recv_from k0 size) as [k1 [[b a]|e]]; [|done]. destruct Hd as (? & ? & wire & Hw). split_and!; [done..|].
    exists wire. split; [done|]. intros Hc. specialize (Hcut Hc b a eq_refl). cbn in Hcut. rewrite Hw in Hcut.
    apply app_inj_tail in Hcut as [_ [=]]. done. }
  unfold recv_from_peeking. destruct (is_windows p); [|apply Hread].
  destruct (dev_peek k size) as (Hs & Hp & Hr). destruct (os_peek_from k size) as [k1 err]. cbn in *.
  destruct err as [e|]; [destruct (is_timeout e); [done|]|]; specialize (Hread k1);
    destruct (os_recv_from k1 size) as [k2 r]; by rewrite Hs, Hp, Hr in Hread.
Qed.

(** Only others' datagrams are read past. *)
Definition skipped (peer : SocketAddr) (l : list (bytes * bytes * SocketAddr)) : Prop := Forall (fun d => d.2 <> peer) l.

Lemma recv_of_peer_device fuel (k : K) peer size :
  let (k', r) := recv_of_peer p fuel k peer size in
  dev_sent k' = dev_sent k /\ dev_peer k' = dev_peer k /\ exists others, skipped peer others /\
  match r with
  | Some (inl b) => exists wire, dev_read k' = dev_read k ++ others ++ [(wire, b, peer)] /\ (refuses_to_cut K -> wire = b)
  | _ => dev_read k' = dev_read k ++ others
  end.
Proof.
  revert k. induction fuel as [|fuel IH]; intros k; cbn [recv_of_peer].
  - split_and!; [done..|]. exists []. split; [constructor|by rewrite app_nil_r].
  - pose proof (recv_from_peeking_device k size) as Hd. destruct (recv_from_peeking p k size) as [k1 [[b from]|e]].
    + destruct Hd as (Hs & Hp & wire & Hr & Hc). case_bool_decide as Hfrom.
      * subst from. split_and!; [done..|]. exists []. split; [constructor|]. by exists wire.
      * specialize (IH k1). destruct (recv_of_peer p fuel k1 peer size) as [k2 r].
        destruct IH as (Hs2 & Hp2 & others & Ho & Hr2). split_and!; [congruence..|].
        exists ((wire, b, from) :: others). split; [by constructor|]. rewrite Hr in Hr2.
        destruct r as [[b'|e]|]; [destruct Hr2 as (w' & Hr2 & Hc2); exists w'; split; [|done]|..]; by rewrite <- app_assoc in Hr2.
    + destruct Hd as (? & ? & Hr). split_and!; [done..|]. exists []. split; [constructor|]. by rewrite app_nil_r.
Qed.

Lemma bt_send_device (k : K) t datagram a :
  talks_to k t a -> let (k', r) := bt_send k t datagram in
  dev_read k' = dev_read k /\ dev_peer k' = dev_peer k /\
  match r with
  | None => dev_sent k' = dev_sent k ++ [(datagram, a)]
  | Some _ => dev_sent k' = dev_sent k \/ exists n, dev_sent k' = dev_sent k ++ [(takez n datagram, a)] /\ 0 <= n < len datagram
  end.
Proof.
  intros Ha. unfold bt_send, talks_to in *.
  assert (Hd : let (k', r) := match bt_peer t with Some peer => os_send_to k datagram peer | None => os_send k datagram end in
    dev_read k' = dev_read k /\ dev_peer k' = dev_peer k /\
    match r with
    | inl n => dev_sent k' = dev_sent k ++ [(takez n datagram, a)] /\ 0 <= n <= len datagram
    | inr _ => dev_sent k' = dev_sent k
    end) by (destruct (bt_peer t); [subst; apply dev_send_to|by apply dev_send]).
  destruct (match bt_peer t with Some peer => _ | None => _ end) as [k1 [n|e]]; destruct Hd as (? & ? & Hs); [|auto].
  destruct Hs as [Hs Hn]. split_and!; [done..|]. zcase.
  - subst n. rewrite takez_all in Hs by lia. exact Hs.
  - right. exists n. split; [done|lia].
Qed.

Lemma bt_recv_device fuel (k : K) t size a :
  talks_to k t a -> let (k', r) := bt_recv p fuel k t size in
  dev_sent k' = dev_sent k /\ dev_peer k' = dev_peer k /\ exists others, skipped a others /\
  match r with
  | Some (inl b) => exists wire, dev_read k' = dev_read k ++ others ++ [(wire, b, a)] /\ (refuses_to_cut K -> wire = b)
  | _ => dev_read k' = dev_read k ++ others
  end.
Proof.
  intros Ha. unfold bt_recv, talks_to in *. destruct (bt_peer t) as [peer|].
  { subst peer. apply recv_of_peer_device. }
  pose proof (dev_recv k size a Ha) as Hd.
  assert (Hcut : refuses_to_cut K -> forall b, (os_recv k size).2 = inl b ->
    dev_read (os_recv k size).1 = dev_read k ++ [(b, b, a)]) by (intros Hc b Hb; by apply Hc).
  destruct (os_recv k size) as [k1 [b|e]]; destruct Hd as (? & ? & Hr); (split_and!; [done..|]); exists [];
    (split; [constructor|]); [|by rewrite app_nil_r].
  destruct Hr as [wire Hw]. exists wire. split; [done|]. intros Hc. specialize (Hcut Hc b eq_refl). cbn in Hcut.
  rewrite Hw in Hcut. apply app_inj_tail in Hcut as [_ [=]]. done.
Qed.
End contract.

(** a transport over UDP keeps datagrams apart and sends them at once.
    [send] that succeeds has handed the system exactly the datagram, whole and
    to the peer, and nothing was held back; [recv] returns the bytes of exactly
    one datagram of the peer's, having passed over those of others only; and
    where the system refuses to cut a datagram short, they are all of it. *)
Theorem udp_transport_contract {K : Type} `{Device K} (p : Platform) (fuel : nat) (k : K) (t : BoundTransport) (a : SocketAddr)
    (datagram : bytes) (size : Z) :
  talks_to k t a ->
  (forall kt, tr_send (Transport := udp_transport p) (k, t) datagram = (kt, None) ->
     kt.2 = t /\ dev_sent kt.1 = dev_sent k ++ [(datagram, a)] /\ dev_read kt.1 = dev_read k) /\
  (forall kt b, tr_recv (Transport := udp_transport p) fuel (k, t) size = (kt, Some (inl b)) ->
     kt.2 = t /\ dev_sent kt.1 = dev_sent k /\ exists others wire,
       dev_read kt.1 = dev_read k ++ others ++ [(wire, b, a)] /\ Forall (fun d => d.2 <> a) others /\
       (refuses_to_cut K -> wire = b)).
Proof.
  intros Ha. pose proof (bt_send_device k t datagram a Ha) as Hs. pose proof (bt_recv_device p fuel k t size a Ha) as Hr.
  cbn. destruct (bt_send k t datagram) as [k1 r1], (bt_recv p fuel k t size) as [k2 r2]. split.
  - intros kt [= <- ->]. by destruct Hs as (? & _ & ?).
  - intros kt b [= <- ->]. destruct Hr as (? & _ & others & Ho & wire & Hw & Hc). split_and!; [done..|]. by exists others, wire.
Qed.

(** ** Two systems

    A queue of datagrams to come and a record of what crossed. One that [cuts]
    gives the caller what fits and discards the rest, as Unix does; the other
    discards the datagram and reports it, as Windows does. *)
Record Queued (cuts : bool) := mkQueued {
  qd_queue : list (bytes * SocketAddr);
  qd_sent : list (bytes * SocketAddr);
  qd_read : list (bytes * bytes * SocketAddr);
  qd_peer : option SocketAddr;
}.
Arguments mkQueued {cuts}.
Arguments qd_queue {cuts} _.
Arguments qd_sent {cuts} _.
Arguments qd_read {cuts} _.
Arguments qd_peer {cuts} _.

Module Queued.
Section queued.
Context {cuts : bool}.
Local Abbreviation Q := (Queued cuts).

Definition send_to (k : Q) (b : bytes) (a : SocketAddr) : Q * (Z + IoError) :=
  (mkQueued (qd_queue k) (qd_sent k ++ [(b, a)]) (qd_read k) (qd_peer k), inl (len b)).

Definition recv_from (k : Q) (n : Z) : Q * (bytes * SocketAddr + IoError) :=
  match qd_queue k with
  | [] => (k, inr TimedOut)
  | (b, a) :: queue =>
      if (len b <=? n) || cuts then
        (mkQueued queue (qd_sent k) (qd_read k ++ [(b, takez n b, a)]) (qd_peer k), inl (takez n b, a))
      else (mkQueued queue (qd_sent k) (qd_read k) (qd_peer k), inr OtherIo)
  end.

(** Only datagrams of the peer are queued for a connected socket. *)
Definition recv (k : Q) (n : Z) : Q * (bytes + IoError) :=
  match qd_peer k, qd_queue k with
  | Some a, (b, _) :: queue =>
      if (len b <=? n) || cuts then
        (mkQueued queue (qd_sent k) (qd_read k ++ [(b, takez n b, a)]) (qd_peer k), inl (takez n b))
      else (mkQueued queue (qd_sent k) (qd_read k) (qd_peer k), inr OtherIo)
  | _, _ => (k, inr TimedOut)
  end.

#[global] Instance os : UdpOs Q := {|
  os_recv_from := recv_from;
  os_peek_from k _ := (k, match qd_queue k with [] => Some TimedOut | _ => None end);
  os_send_to := send_to;
  os_set_nonblocking k _ := (k, None);
  os_set_read_timeout k _ := (k, None);
  os_try_clone k := (k, None);
  os_local_addr _ := inr OtherIo;
  os_peer_addr k := match qd_peer k with Some a => inl a | None => inr OtherIo end;
  os_forbid_v4 k := (k, true);
  os_forbid_v6 k := (k, false);
  os_send k b := match qd_peer k with Some a => send_to k b a | None => (k, inr OtherIo) end;
  os_recv := recv;
  os_now _ := 0;
  os_random k n := (k, zeros n);
  os_bind k _ := (k, inl 0);
  os_settings _ := Settings.default;
|}.

#[global] Instance device : Device Q.
Proof.
  refine {| dev_sent := qd_sent; dev_read := qd_read; dev_peer := qd_peer |}.
  - intros k b a. cbn. rewrite takez_all by lia. by split_and!; try len_lia.
  - intros k b a Ha. cbn. rewrite Ha. cbn. rewrite takez_all by lia. by split_and!; try len_lia.
  - intros k size. cbn. unfold recv_from. destruct (qd_queue k) as [|[b a] queue]; [done|]. destruct (_ || cuts); [|done]. by eauto.
  - done.
  - intros k size a Ha. cbn. unfold recv. rewrite Ha. destruct (qd_queue k) as [|[b a'] queue]; [done|]. destruct (_ || cuts); [|done]. by eauto.
Defined.
End queued.

Lemma whole : refuses_to_cut (Queued false).
Proof.
  intros k size. split; intros b a; cbn; unfold recv_from, recv.
  - destruct (qd_queue k) as [|[b' a'] queue]; [done|]. rewrite orb_false_r. zcase; [|done].
    cbn. intros [= <- <-]. by rewrite takez_all.
  - intros ->. destruct (qd_queue k) as [|[b' a'] queue]; [done|]. rewrite orb_false_r. zcase; [|done].
    cbn. intros [= <-]. by rewrite takez_all.
Qed.
End Queued.

(** A stranger's datagram, then one of the peer's that does not fit. *)
Definition crowded (cuts : bool) : Queued cuts :=
  mkQueued [([9], SocketAddrV4 [10; 0; 0; 9] 9); ([1; 2; 3], SocketAddrV4 [10; 0; 0; 1] 9)] [] [] None.

Definition to_peer : BoundTransport := mkBoundTransport (Some (SocketAddrV4 [10; 0; 0; 1] 9)) 1200.

Lemma udp_transport_contract_witness :
  exists others wire, dev_read (tr_recv (Transport := udp_transport Linux) 3 (crowded false, to_peer) 4).1.1
    = [] ++ others ++ [(wire, [1; 2; 3], SocketAddrV4 [10; 0; 0; 1] 9)] /\ wire = [1; 2; 3].
Proof.
  destruct (udp_transport_contract Linux 3 (crowded false) to_peer (SocketAddrV4 [10; 0; 0; 1] 9) [] 4 eq_refl) as [_ Hr].
  destruct (Hr _ [1; 2; 3] eq_refl) as (_ & _ & others & wire & Hw & _ & Hc).
  exists others, wire. split; [exact Hw|]. apply Hc, Queued.whole.
Defined.

(** On a system that cuts, the first two bytes of three come back as a
    datagram of two. *)
Example recv_cuts_on_unix :
  (tr_recv (Transport := udp_transport Linux) 3 (crowded true, to_peer) 2).2 = Some (inl [1; 2]) /\
  dev_read (tr_recv (Transport := udp_transport Linux) 3 (crowded true, to_peer) 2).1.1
  = [([9], [9], SocketAddrV4 [10; 0; 0; 9] 9); ([1; 2; 3], [1; 2], SocketAddrV4 [10; 0; 0; 1] 9)].
Proof. done. Qed.
