(* ===== verification/EndpointState.v ===== *)
(** * The endpoint's state (crates/fectp/src/endpoint.rs, rendezvous.rs)

    The data an [Endpoint] keeps: its peers and the two indexes over them, the
    handshakes it started, what it knows of paths, its timers, and its side of
    a rendezvous. The socket, the clock and the generator are the world
    [ep_world] of class [Net]; the key is of class [StaticKey]. A budget and
    the instant it was refilled are one [Bucket]. Hash maps are finite maps,
    walked in the fixed order of [map_to_list]; the source leaves that order
    unspecified. Instants and durations are milliseconds. The counter of
    peer identifiers, a [u64] that starts at zero and moves by one for each
    session, is not bounded here. The functions [set_f] replace one field. *)
From stdpp Require Import gmap.
From S2P Require Import Prelude Bytes Error Float Fragment Codec RetransmitQueue Cipher Symmetric.
From S2P Require Import Handshake Session Connect Compress Reassembly Tickets Pmtu Pipeline Control Udp.

Definition HANDSHAKE_RETRY_MS : Z := 250.
Definition MAX_MEASURED_PATHS : Z := 64.
Definition HANDSHAKE_ATTEMPTS : Z := 4.
Definition MAX_PEERS : Z := 1024.
Definition HANDSHAKE_REPLIES : Z := 8.
Definition MAX_HANDSHAKES_PER_SECOND : Z := 512.
Definition MAX_MIGRATION_ATTEMPTS_PER_PEER : Z := 8.
Definition MIN_KEEPALIVE : Z := 100.
Definition MIN_PEER_TIMEOUT : Z := 1000.
Definition MAX_CANDIDATES : Z := 4.
Definition PATH_PROBES : Z := 3.
Definition PROBE_TIMEOUT : Z := 3000.
Definition PROBE_INTERVAL : Z := 250.
Definition MAX_INTRODUCTIONS : Z := 16.
Definition INTRODUCTION_DEADLINE : Z := 90000.
Definition BINDS : Z := 5.
Definition BIND_INTERVAL : Z := 500.
Definition RELAY_REFRESH : Z := 20000.
Definition REFRESH_FLOOR : Z := 1000.
#[export] Hint Unfold HANDSHAKE_RETRY_MS MAX_MEASURED_PATHS HANDSHAKE_ATTEMPTS MAX_PEERS
  HANDSHAKE_REPLIES MAX_HANDSHAKES_PER_SECOND MAX_MIGRATION_ATTEMPTS_PER_PEER MIN_KEEPALIVE
  MIN_PEER_TIMEOUT MAX_CANDIDATES PATH_PROBES PROBE_TIMEOUT PROBE_INTERVAL MAX_INTRODUCTIONS
  INTRODUCTION_DEADLINE BINDS BIND_INTERVAL RELAY_REFRESH REFRESH_FLOOR : consts.

(** [PeerId(u64)]. *)
Abbreviation PeerId := Z (only parsing).
Abbreviation Key := bytes (only parsing).

(** [now.duration_since(t)], which saturates. *)
Definition since (now t : Z) : Z := saturating_sub now t.

Inductive Event :=
| Connected (peer : PeerId) (zero_rtt : bytes) (resumed initiated : bool)
| Message (peer : PeerId) (data : bytes)
| ConnectFailed (peer : PeerId)
| Sent (peer : PeerId) (delivered : bool)
| PeerMoved (peer : PeerId) (from to : SocketAddr)
| PeerLost (peer : PeerId)
| PeerDiscovered (peer_public : Key) (group : bytes)
| IntroductionFailed (peer_public : Key) (reason : Unavailable)
| Idle.

(** A handshake this endpoint started, waiting for its reply. *)
Inductive OutboundHandshake (K : Type) :=
| FullHandshake (i : Initiator K)
| PskHandshake (i : ResumeInitiator).
Arguments FullHandshake {K} i.
Arguments PskHandshake {K} i.

Record Outbound (K : Type) := mkOutbound {
  ob_handshake : OutboundHandshake K;
  ob_peer_key : option Key;
  ob_addr : SocketAddr;
  ob_session_id : Z;
  ob_frame : bytes;
  ob_next_attempt : Z;
  ob_attempts : Z;
  ob_first_sent : Z;
  ob_last_sent : Z;
}.
Arguments mkOutbound {K}.
Arguments ob_handshake {K} _.
Arguments ob_peer_key {K} _.
Arguments ob_addr {K} _.
Arguments ob_session_id {K} _.
Arguments ob_frame {K} _.
Arguments ob_next_attempt {K} _.
Arguments ob_attempts {K} _.
Arguments ob_first_sent {K} _.
Arguments ob_last_sent {K} _.

(** What the endpoint has learned about reaching one address. *)
Record Path := mkPath { path_rto : option Rto; path_floor : option Z }.

(** How peers are authenticated. *)
Inductive Mode (K : Type) :=
| PublicKeyMode (key : K)
| PskMode (psk : ResumptionTicket).
Arguments PublicKeyMode {K} key.
Arguments PskMode {K} psk.

(** An address under test. *)
Record PathProbe := mkPathProbe {
  pp_addr : SocketAddr;
  pp_token : bytes;
  pp_sent : Z;
  pp_last : Z;
  pp_started : Z;
}.

Record PeerEntry := mkPeerEntry {
  en_peer : Peer;
  en_addr : SocketAddr;
  en_session_id : Z;
  en_datagram_limit : Z;
  en_filed : Z;
  en_handshake_reply : option (bytes * Z);
  en_migration : Bucket;
  en_last_heard : Z;
  en_last_sent : Z;
  en_probe : option PathProbe;
  en_pmtu : option Pmtu;
  en_spoke : bool;
}.

(** ** The client's side of a rendezvous (rendezvous.rs) *)
Inductive Stage :=
| Asked
| Introduced (outbound : option PeerId) (relay_asked : bool)
| Relaying (port : SocketAddr) (token : bytes) (checked legacy : bool) (binds next_bind : Z)
    (outbound : option PeerId).

Record Ask := mkAsk { ask_since : Z; ask_stage : Stage }.

Record Group := mkGroup { gr_key : bytes; gr_mac : bytes; gr_members : gset (list Z) }.

Record Link := mkLink {
  ln_port : SocketAddr;
  ln_token : bytes;
  ln_legacy : bool;
  ln_next_refresh : Z;
  ln_last_hello : Z;
}.

Record ClientState := mkClientState {
  rv_rendezvous : option PeerId;
  rv_registered : bool;
  rv_observed : option SocketAddr;
  rv_asks : gmap (list Z) Ask;
  rv_relayed : gmap PeerId Link;
  rv_groups : gmap (list Z) Group;
}.

(** ** The endpoint

    [ep_rx] is the datagram in the receive buffer, [ep_rx_size] the buffer's
    length. *)
Record Endpoint (W K : Type) := mkEndpoint {
  ep_world : W;
  ep_mode : Mode K;
  ep_tickets : TicketStore;
  ep_peers : gmap PeerId PeerEntry;
  ep_routes : gmap (SocketAddr * Z) PeerId;
  ep_by_session : gmap Z (list PeerId);
  ep_outbound : gmap PeerId (Outbound K);
  ep_events : list Event;
  ep_handshakes : Bucket;
  ep_handshake_rate : Z;
  ep_migration_rate : Z;
  ep_next_wake : option Z;
  ep_queueing : Z;
  ep_max_peers : Z;
  ep_handshake_reply : bytes;
  ep_keepalive : option Z;
  ep_handshake_attempts : Z;
  ep_paths : list (SocketAddr * Path);
  ep_max_retries : Z;
  ep_peer_timeout : option Z;
  ep_next_id : Z;
  ep_rx : bytes;
  ep_rx_size : Z;
  ep_tx : bytes;
  ep_ack : bytes;
  ep_scratch : bytes;
  ep_epoch : Z;
  ep_rv : ClientState;
}.
Arguments mkEndpoint {W} {K}.
Arguments ep_world {W} {K} _.
Arguments ep_mode {W} {K} _.
Arguments ep_tickets {W} {K} _.
Arguments ep_peers {W} {K} _.
Arguments ep_routes {W} {K} _.
Arguments ep_by_session {W} {K} _.
Arguments ep_outbound {W} {K} _.
Arguments ep_events {W} {K} _.
Arguments ep_handshakes {W} {K} _.
Arguments ep_handshake_rate {W} {K} _.
Arguments ep_migration_rate {W} {K} _.
Arguments ep_next_wake {W} {K} _.
Arguments ep_queueing {W} {K} _.
Arguments ep_max_peers {W} {K} _.
Arguments ep_handshake_reply {W} {K} _.
Arguments ep_keepalive {W} {K} _.
Arguments ep_handshake_attempts {W} {K} _.
Arguments ep_paths {W} {K} _.
Arguments ep_max_retries {W} {K} _.
Arguments ep_peer_timeout {W} {K} _.
Arguments ep_next_id {W} {K} _.
Arguments ep_rx {W} {K} _.
Arguments ep_rx_size {W} {K} _.
Arguments ep_tx {W} {K} _.
Arguments ep_ack {W} {K} _.
Arguments ep_scratch {W} {K} _.
Arguments ep_epoch {W} {K} _.
Arguments ep_rv {W} {K} _.

(** ** Field updates *)
Definition set_en_peer (e : PeerEntry) v : PeerEntry := mkPeerEntry v (en_addr e) (en_session_id
    e) (en_datagram_limit e) (en_filed e) (en_handshake_reply e) (en_migration e) (en_last_heard
    e) (en_last_sent e) (en_probe e) (en_pmtu e) (en_spoke e).
Definition set_en_addr (e : PeerEntry) v : PeerEntry := mkPeerEntry (en_peer e) v (en_session_id
    e) (en_datagram_limit e) (en_filed e) (en_handshake_reply e) (en_migration e) (en_last_heard
    e) (en_last_sent e) (en_probe e) (en_pmtu e) (en_spoke e).
Definition set_en_datagram_limit (e : PeerEntry) v : PeerEntry := mkPeerEntry (en_peer e) (en_addr
    e) (en_session_id e) v (en_filed e) (en_handshake_reply e) (en_migration e) (en_last_heard e)
    (en_last_sent e) (en_probe e) (en_pmtu e) (en_spoke e).
Definition set_en_handshake_reply (e : PeerEntry) v : PeerEntry := mkPeerEntry (en_peer e)
    (en_addr e) (en_session_id e) (en_datagram_limit e) (en_filed e) v (en_migration e)
    (en_last_heard e) (en_last_sent e) (en_probe e) (en_pmtu e) (en_spoke e).
Definition set_en_migration (e : PeerEntry) v : PeerEntry := mkPeerEntry (en_peer e) (en_addr e)
    (en_session_id e) (en_datagram_limit e) (en_filed e) (en_handshake_reply e) v (en_last_heard
    e) (en_last_sent e) (en_probe e) (en_pmtu e) (en_spoke e).
Definition set_en_last_heard (e : PeerEntry) v : PeerEntry := mkPeerEntry (en_peer e) (en_addr e)
    (en_session_id e) (en_datagram_limit e) (en_filed e) (en_handshake_reply e) (en_migration e) v
    (en_last_sent e) (en_probe e) (en_pmtu e) (en_spoke e).
Definition set_en_last_sent (e : PeerEntry) v : PeerEntry := mkPeerEntry (en_peer e) (en_addr e)
    (en_session_id e) (en_datagram_limit e) (en_filed e) (en_handshake_reply e) (en_migration e)
    (en_last_heard e) v (en_probe e) (en_pmtu e) (en_spoke e).
Definition set_en_probe (e : PeerEntry) v : PeerEntry := mkPeerEntry (en_peer e) (en_addr e)
    (en_session_id e) (en_datagram_limit e) (en_filed e) (en_handshake_reply e) (en_migration e)
    (en_last_heard e) (en_last_sent e) v (en_pmtu e) (en_spoke e).
Definition set_en_pmtu (e : PeerEntry) v : PeerEntry := mkPeerEntry (en_peer e) (en_addr e)
    (en_session_id e) (en_datagram_limit e) (en_filed e) (en_handshake_reply e) (en_migration e)
    (en_last_heard e) (en_last_sent e) (en_probe e) v (en_spoke e).
Definition set_en_spoke (e : PeerEntry) v : PeerEntry := mkPeerEntry (en_peer e) (en_addr e)
    (en_session_id e) (en_datagram_limit e) (en_filed e) (en_handshake_reply e) (en_migration e)
    (en_last_heard e) (en_last_sent e) (en_probe e) (en_pmtu e) v.
Definition set_rv_rendezvous (c : ClientState) v : ClientState := mkClientState v (rv_registered
    c) (rv_observed c) (rv_asks c) (rv_relayed c) (rv_groups c).
Definition set_rv_registered (c : ClientState) v : ClientState := mkClientState (rv_rendezvous c)
    v (rv_observed c) (rv_asks c) (rv_relayed c) (rv_groups c).
Definition set_rv_observed (c : ClientState) v : ClientState := mkClientState (rv_rendezvous c)
    (rv_registered c) v (rv_asks c) (rv_relayed c) (rv_groups c).
Definition set_rv_asks (c : ClientState) v : ClientState := mkClientState (rv_rendezvous c)
    (rv_registered c) (rv_observed c) v (rv_relayed c) (rv_groups c).
Definition set_rv_relayed (c : ClientState) v : ClientState := mkClientState (rv_rendezvous c)
    (rv_registered c) (rv_observed c) (rv_asks c) v (rv_groups c).
Definition set_rv_groups (c : ClientState) v : ClientState := mkClientState (rv_rendezvous c)
    (rv_registered c) (rv_observed c) (rv_asks c) (rv_relayed c) v.

Section setters.
Context {W K : Type}.
Definition set_ep_world (e : Endpoint W K) v : Endpoint W K := mkEndpoint v (ep_mode e)
    (ep_tickets e) (ep_peers e) (ep_routes e) (ep_by_session e) (ep_outbound e) (ep_events e)
    (ep_handshakes e) (ep_handshake_rate e) (ep_migration_rate e) (ep_next_wake e) (ep_queueing e)
    (ep_max_peers e) (ep_handshake_reply e) (ep_keepalive e) (ep_handshake_attempts e) (ep_paths
    e) (ep_max_retries e) (ep_peer_timeout e) (ep_next_id e) (ep_rx e) (ep_rx_size e) (ep_tx e)
    (ep_ack e) (ep_scratch e) (ep_epoch e) (ep_rv e).
Definition set_ep_tickets (e : Endpoint W K) v : Endpoint W K := mkEndpoint (ep_world e) (ep_mode
    e) v (ep_peers e) (ep_routes e) (ep_by_session e) (ep_outbound e) (ep_events e) (ep_handshakes
    e) (ep_handshake_rate e) (ep_migration_rate e) (ep_next_wake e) (ep_queueing e) (ep_max_peers
    e) (ep_handshake_reply e) (ep_keepalive e) (ep_handshake_attempts e) (ep_paths e)
    (ep_max_retries e) (ep_peer_timeout e) (ep_next_id e) (ep_rx e) (ep_rx_size e) (ep_tx e)
    (ep_ack e) (ep_scratch e) (ep_epoch e) (ep_rv e).
Definition set_ep_peers (e : Endpoint W K) v : Endpoint W K := mkEndpoint (ep_world e) (ep_mode e)
    (ep_tickets e) v (ep_routes e) (ep_by_session e) (ep_outbound e) (ep_events e) (ep_handshakes
    e) (ep_handshake_rate e) (ep_migration_rate e) (ep_next_wake e) (ep_queueing e) (ep_max_peers
    e) (ep_handshake_reply e) (ep_keepalive e) (ep_handshake_attempts e) (ep_paths e)
    (ep_max_retries e) (ep_peer_timeout e) (ep_next_id e) (ep_rx e) (ep_rx_size e) (ep_tx e)
    (ep_ack e) (ep_scratch e) (ep_epoch e) (ep_rv e).
Definition set_ep_routes (e : Endpoint W K) v : Endpoint W K := mkEndpoint (ep_world e) (ep_mode
    e) (ep_tickets e) (ep_peers e) v (ep_by_session e) (ep_outbound e) (ep_events e)
    (ep_handshakes e) (ep_handshake_rate e) (ep_migration_rate e) (ep_next_wake e) (ep_queueing e)
    (ep_max_peers e) (ep_handshake_reply e) (ep_keepalive e) (ep_handshake_attempts e) (ep_paths
    e) (ep_max_retries e) (ep_peer_timeout e) (ep_next_id e) (ep_rx e) (ep_rx_size e) (ep_tx e)
    (ep_ack e) (ep_scratch e) (ep_epoch e) (ep_rv e).
Definition set_ep_by_session (e : Endpoint W K) v : Endpoint W K := mkEndpoint (ep_world e)
    (ep_mode e) (ep_tickets e) (ep_peers e) (ep_routes e) v (ep_outbound e) (ep_events e)
    (ep_handshakes e) (ep_handshake_rate e) (ep_migration_rate e) (ep_next_wake e) (ep_queueing e)
    (ep_max_peers e) (ep_handshake_reply e) (ep_keepalive e) (ep_handshake_attempts e) (ep_paths
    e) (ep_max_retries e) (ep_peer_timeout e) (ep_next_id e) (ep_rx e) (ep_rx_size e) (ep_tx e)
    (ep_ack e) (ep_scratch e) (ep_epoch e) (ep_rv e).
Definition set_ep_outbound (e : Endpoint W K) v : Endpoint W K := mkEndpoint (ep_world e) (ep_mode
    e) (ep_tickets e) (ep_peers e) (ep_routes e) (ep_by_session e) v (ep_events e) (ep_handshakes
    e) (ep_handshake_rate e) (ep_migration_rate e) (ep_next_wake e) (ep_queueing e) (ep_max_peers
    e) (ep_handshake_reply e) (ep_keepalive e) (ep_handshake_attempts e) (ep_paths e)
    (ep_max_retries e) (ep_peer_timeout e) (ep_next_id e) (ep_rx e) (ep_rx_size e) (ep_tx e)
    (ep_ack e) (ep_scratch e) (ep_epoch e) (ep_rv e).
Definition set_ep_events (e : Endpoint W K) v : Endpoint W K := mkEndpoint (ep_world e) (ep_mode
    e) (ep_tickets e) (ep_peers e) (ep_routes e) (ep_by_session e) (ep_outbound e) v
    (ep_handshakes e) (ep_handshake_rate e) (ep_migration_rate e) (ep_next_wake e) (ep_queueing e)
    (ep_max_peers e) (ep_handshake_reply e) (ep_keepalive e) (ep_handshake_attempts e) (ep_paths
    e) (ep_max_retries e) (ep_peer_timeout e) (ep_next_id e) (ep_rx e) (ep_rx_size e) (ep_tx e)
    (ep_ack e) (ep_scratch e) (ep_epoch e) (ep_rv e).
Definition set_ep_handshakes (e : Endpoint W K) v : Endpoint W K := mkEndpoint (ep_world e)
    (ep_mode e) (ep_tickets e) (ep_peers e) (ep_routes e) (ep_by_session e) (ep_outbound e)
    (ep_events e) v (ep_handshake_rate e) (ep_migration_rate e) (ep_next_wake e) (ep_queueing e)
    (ep_max_peers e) (ep_handshake_reply e) (ep_keepalive e) (ep_handshake_attempts e) (ep_paths
    e) (ep_max_retries e) (ep_peer_timeout e) (ep_next_id e) (ep_rx e) (ep_rx_size e) (ep_tx e)
    (ep_ack e) (ep_scratch e) (ep_epoch e) (ep_rv e).
Definition set_ep_handshake_rate (e : Endpoint W K) v : Endpoint W K := mkEndpoint (ep_world e)
    (ep_mode e) (ep_tickets e) (ep_peers e) (ep_routes e) (ep_by_session e) (ep_outbound e)
    (ep_events e) (ep_handshakes e) v (ep_migration_rate e) (ep_next_wake e) (ep_queueing e)
    (ep_max_peers e) (ep_handshake_reply e) (ep_keepalive e) (ep_handshake_attempts e) (ep_paths
    e) (ep_max_retries e) (ep_peer_timeout e) (ep_next_id e) (ep_rx e) (ep_rx_size e) (ep_tx e)
    (ep_ack e) (ep_scratch e) (ep_epoch e) (ep_rv e).
Definition set_ep_migration_rate (e : Endpoint W K) v : Endpoint W K := mkEndpoint (ep_world e)
    (ep_mode e) (ep_tickets e) (ep_peers e) (ep_routes e) (ep_by_session e) (ep_outbound e)
    (ep_events e) (ep_handshakes e) (ep_handshake_rate e) v (ep_next_wake e) (ep_queueing e)
    (ep_max_peers e) (ep_handshake_reply e) (ep_keepalive e) (ep_handshake_attempts e) (ep_paths
    e) (ep_max_retries e) (ep_peer_timeout e) (ep_next_id e) (ep_rx e) (ep_rx_size e) (ep_tx e)
    (ep_ack e) (ep_scratch e) (ep_epoch e) (ep_rv e).
Definition set_ep_next_wake (e : Endpoint W K) v : Endpoint W K := mkEndpoint (ep_world e)
    (ep_mode e) (ep_tickets e) (ep_peers e) (ep_routes e) (ep_by_session e) (ep_outbound e)
    (ep_events e) (ep_handshakes e) (ep_handshake_rate e) (ep_migration_rate e) v (ep_queueing e)
    (ep_max_peers e) (ep_handshake_reply e) (ep_keepalive e) (ep_handshake_attempts e) (ep_paths
    e) (ep_max_retries e) (ep_peer_timeout e) (ep_next_id e) (ep_rx e) (ep_rx_size e) (ep_tx e)
    (ep_ack e) (ep_scratch e) (ep_epoch e) (ep_rv e).
Definition set_ep_queueing (e : Endpoint W K) v : Endpoint W K := mkEndpoint (ep_world e) (ep_mode
    e) (ep_tickets e) (ep_peers e) (ep_routes e) (ep_by_session e) (ep_outbound e) (ep_events e)
    (ep_handshakes e) (ep_handshake_rate e) (ep_migration_rate e) (ep_next_wake e) v (ep_max_peers
    e) (ep_handshake_reply e) (ep_keepalive e) (ep_handshake_attempts e) (ep_paths e)
    (ep_max_retries e) (ep_peer_timeout e) (ep_next_id e) (ep_rx e) (ep_rx_size e) (ep_tx e)
    (ep_ack e) (ep_scratch e) (ep_epoch e) (ep_rv e).
Definition set_ep_max_peers (e : Endpoint W K) v : Endpoint W K := mkEndpoint (ep_world e)
    (ep_mode e) (ep_tickets e) (ep_peers e) (ep_routes e) (ep_by_session e) (ep_outbound e)
    (ep_events e) (ep_handshakes e) (ep_handshake_rate e) (ep_migration_rate e) (ep_next_wake e)
    (ep_queueing e) v (ep_handshake_reply e) (ep_keepalive e) (ep_handshake_attempts e) (ep_paths
    e) (ep_max_retries e) (ep_peer_timeout e) (ep_next_id e) (ep_rx e) (ep_rx_size e) (ep_tx e)
    (ep_ack e) (ep_scratch e) (ep_epoch e) (ep_rv e).
Definition set_ep_handshake_reply (e : Endpoint W K) v : Endpoint W K := mkEndpoint (ep_world e)
    (ep_mode e) (ep_tickets e) (ep_peers e) (ep_routes e) (ep_by_session e) (ep_outbound e)
    (ep_events e) (ep_handshakes e) (ep_handshake_rate e) (ep_migration_rate e) (ep_next_wake e)
    (ep_queueing e) (ep_max_peers e) v (ep_keepalive e) (ep_handshake_attempts e) (ep_paths e)
    (ep_max_retries e) (ep_peer_timeout e) (ep_next_id e) (ep_rx e) (ep_rx_size e) (ep_tx e)
    (ep_ack e) (ep_scratch e) (ep_epoch e) (ep_rv e).
Definition set_ep_keepalive (e : Endpoint W K) v : Endpoint W K := mkEndpoint (ep_world e)
    (ep_mode e) (ep_tickets e) (ep_peers e) (ep_routes e) (ep_by_session e) (ep_outbound e)
    (ep_events e) (ep_handshakes e) (ep_handshake_rate e) (ep_migration_rate e) (ep_next_wake e)
    (ep_queueing e) (ep_max_peers e) (ep_handshake_reply e) v (ep_handshake_attempts e) (ep_paths
    e) (ep_max_retries e) (ep_peer_timeout e) (ep_next_id e) (ep_rx e) (ep_rx_size e) (ep_tx e)
    (ep_ack e) (ep_scratch e) (ep_epoch e) (ep_rv e).
Definition set_ep_handshake_attempts (e : Endpoint W K) v : Endpoint W K := mkEndpoint (ep_world
    e) (ep_mode e) (ep_tickets e) (ep_peers e) (ep_routes e) (ep_by_session e) (ep_outbound e)
    (ep_events e) (ep_handshakes e) (ep_handshake_rate e) (ep_migration_rate e) (ep_next_wake e)
    (ep_queueing e) (ep_max_peers e) (ep_handshake_reply e) (ep_keepalive e) v (ep_paths e)
    (ep_max_retries e) (ep_peer_timeout e) (ep_next_id e) (ep_rx e) (ep_rx_size e) (ep_tx e)
    (ep_ack e) (ep_scratch e) (ep_epoch e) (ep_rv e).
Definition set_ep_paths (e : Endpoint W K) v : Endpoint W K := mkEndpoint (ep_world e) (ep_mode e)
    (ep_tickets e) (ep_peers e) (ep_routes e) (ep_by_session e) (ep_outbound e) (ep_events e)
    (ep_handshakes e) (ep_handshake_rate e) (ep_migration_rate e) (ep_next_wake e) (ep_queueing e)
    (ep_max_peers e) (ep_handshake_reply e) (ep_keepalive e) (ep_handshake_attempts e) v
    (ep_max_retries e) (ep_peer_timeout e) (ep_next_id e) (ep_rx e) (ep_rx_size e) (ep_tx e)
    (ep_ack e) (ep_scratch e) (ep_epoch e) (ep_rv e).
Definition set_ep_max_retries (e : Endpoint W K) v : Endpoint W K := mkEndpoint (ep_world e)
    (ep_mode e) (ep_tickets e) (ep_peers e) (ep_routes e) (ep_by_session e) (ep_outbound e)
    (ep_events e) (ep_handshakes e) (ep_handshake_rate e) (ep_migration_rate e) (ep_next_wake e)
    (ep_queueing e) (ep_max_peers e) (ep_handshake_reply e) (ep_keepalive e)
    (ep_handshake_attempts e) (ep_paths e) v (ep_peer_timeout e) (ep_next_id e) (ep_rx e)
    (ep_rx_size e) (ep_tx e) (ep_ack e) (ep_scratch e) (ep_epoch e) (ep_rv e).
Definition set_ep_peer_timeout (e : Endpoint W K) v : Endpoint W K := mkEndpoint (ep_world e)
    (ep_mode e) (ep_tickets e) (ep_peers e) (ep_routes e) (ep_by_session e) (ep_outbound e)
    (ep_events e) (ep_handshakes e) (ep_handshake_rate e) (ep_migration_rate e) (ep_next_wake e)
    (ep_queueing e) (ep_max_peers e) (ep_handshake_reply e) (ep_keepalive e)
    (ep_handshake_attempts e) (ep_paths e) (ep_max_retries e) v (ep_next_id e) (ep_rx e)
    (ep_rx_size e) (ep_tx e) (ep_ack e) (ep_scratch e) (ep_epoch e) (ep_rv e).
Definition set_ep_next_id (e : Endpoint W K) v : Endpoint W K := mkEndpoint (ep_world e) (ep_mode
    e) (ep_tickets e) (ep_peers e) (ep_routes e) (ep_by_session e) (ep_outbound e) (ep_events e)
    (ep_handshakes e) (ep_handshake_rate e) (ep_migration_rate e) (ep_next_wake e) (ep_queueing e)
    (ep_max_peers e) (ep_handshake_reply e) (ep_keepalive e) (ep_handshake_attempts e) (ep_paths
    e) (ep_max_retries e) (ep_peer_timeout e) v (ep_rx e) (ep_rx_size e) (ep_tx e) (ep_ack e)
    (ep_scratch e) (ep_epoch e) (ep_rv e).
Definition set_ep_rx (e : Endpoint W K) v : Endpoint W K := mkEndpoint (ep_world e) (ep_mode e)
    (ep_tickets e) (ep_peers e) (ep_routes e) (ep_by_session e) (ep_outbound e) (ep_events e)
    (ep_handshakes e) (ep_handshake_rate e) (ep_migration_rate e) (ep_next_wake e) (ep_queueing e)
    (ep_max_peers e) (ep_handshake_reply e) (ep_keepalive e) (ep_handshake_attempts e) (ep_paths
    e) (ep_max_retries e) (ep_peer_timeout e) (ep_next_id e) v (ep_rx_size e) (ep_tx e) (ep_ack e)
    (ep_scratch e) (ep_epoch e) (ep_rv e).
Definition set_ep_tx (e : Endpoint W K) v : Endpoint W K := mkEndpoint (ep_world e) (ep_mode e)
    (ep_tickets e) (ep_peers e) (ep_routes e) (ep_by_session e) (ep_outbound e) (ep_events e)
    (ep_handshakes e) (ep_handshake_rate e) (ep_migration_rate e) (ep_next_wake e) (ep_queueing e)
    (ep_max_peers e) (ep_handshake_reply e) (ep_keepalive e) (ep_handshake_attempts e) (ep_paths
    e) (ep_max_retries e) (ep_peer_timeout e) (ep_next_id e) (ep_rx e) (ep_rx_size e) v (ep_ack e)
    (ep_scratch e) (ep_epoch e) (ep_rv e).
Definition set_ep_ack (e : Endpoint W K) v : Endpoint W K := mkEndpoint (ep_world e) (ep_mode e)
    (ep_tickets e) (ep_peers e) (ep_routes e) (ep_by_session e) (ep_outbound e) (ep_events e)
    (ep_handshakes e) (ep_handshake_rate e) (ep_migration_rate e) (ep_next_wake e) (ep_queueing e)
    (ep_max_peers e) (ep_handshake_reply e) (ep_keepalive e) (ep_handshake_attempts e) (ep_paths
    e) (ep_max_retries e) (ep_peer_timeout e) (ep_next_id e) (ep_rx e) (ep_rx_size e) (ep_tx e) v
    (ep_scratch e) (ep_epoch e) (ep_rv e).
Definition set_ep_scratch (e : Endpoint W K) v : Endpoint W K := mkEndpoint (ep_world e) (ep_mode
    e) (ep_tickets e) (ep_peers e) (ep_routes e) (ep_by_session e) (ep_outbound e) (ep_events e)
    (ep_handshakes e) (ep_handshake_rate e) (ep_migration_rate e) (ep_next_wake e) (ep_queueing e)
    (ep_max_peers e) (ep_handshake_reply e) (ep_keepalive e) (ep_handshake_attempts e) (ep_paths
    e) (ep_max_retries e) (ep_peer_timeout e) (ep_next_id e) (ep_rx e) (ep_rx_size e) (ep_tx e)
    (ep_ack e) v (ep_epoch e) (ep_rv e).
Definition set_ep_rv (e : Endpoint W K) v : Endpoint W K := mkEndpoint (ep_world e) (ep_mode e)
    (ep_tickets e) (ep_peers e) (ep_routes e) (ep_by_session e) (ep_outbound e) (ep_events e)
    (ep_handshakes e) (ep_handshake_rate e) (ep_migration_rate e) (ep_next_wake e) (ep_queueing e)
    (ep_max_peers e) (ep_handshake_reply e) (ep_keepalive e) (ep_handshake_attempts e) (ep_paths
    e) (ep_max_retries e) (ep_peer_timeout e) (ep_next_id e) (ep_rx e) (ep_rx_size e) (ep_tx e)
    (ep_ack e) (ep_scratch e) (ep_epoch e) v.
End setters.

(** One peer's entry, changed in place. *)
Definition set_entry {W K} (e : Endpoint W K) (id : PeerId) (entry : PeerEntry) : Endpoint W K :=
  set_ep_peers e (<[id := entry]> (ep_peers e)).
