(* ===== verification/Endpoint.v ===== *)
(** * The endpoint: tables, timers and sending (crates/fectp/src/endpoint.rs)

    Filing and releasing sessions, the path table, connecting, sending, and
    the time-driven passes of the poll loop. Receiving and the rendezvous
    client are in EndpointReceive.v. A method taking [&mut self] is a function
    on the endpoint; every clock reading, draw and send goes through its
    world. *)
From stdpp Require Import gmap sorting.
From S2P Require Import Prelude Bytes Error Float Frame Fragment Codec Reliability RetransmitQueue.
From S2P Require Import Cipher Symmetric Handshake Session Connect Compress Reassembly Tickets Pmtu.
From S2P Require Import Pipeline Control Udp EndpointState.

Module Endpoint.
Section endpoint.
Context {W K : Type} `{Net W} `{StaticKey K} `{Crypto} `{ZstdLib}.
Local Abbreviation E := (Endpoint W K).

(** ** The world *)
Definition now (e : E) : Z := net_now (ep_world e).

Definition now_ms (e : E) : Z := since (now e) (ep_epoch e).

Definition draw (e : E) (n : Z) : E * bytes :=
  let (w, b) := net_random (ep_world e) n in (set_ep_world e w, b).

(** [send_datagram]: nobody listening, and too large for the path, are losses. *)
Definition send_datagram (w : W) (buf : bytes) (addr : SocketAddr) : W * HostResult unit :=
  let (w, r) := net_send w buf addr in
  match r with
  | None => (w, Ok tt)
  | Some err => if is_stale_unreachable err then (w, Ok tt) else
                if is_too_long err then (w, Ok tt) else (w, Err Io)
  end.

Definition send_out (e : E) (buf : bytes) (addr : SocketAddr) : E * HostResult unit :=
  let (w, r) := send_datagram (ep_world e) buf addr in (set_ep_world e w, r).

(** [let _ = self.socket.send_to(..)]: whether it went. *)
Definition send_anyway (e : E) (buf : bytes) (addr : SocketAddr) : E * bool :=
  let (w, r) := net_send (ep_world e) buf addr in (set_ep_world e w, negb (is_some r)).

Definition push_event (e : E) (ev : Event) : E := set_ep_events e (ep_events e ++ [ev]).

(** [on_socket]: a fresh endpoint on the socket of [w]. *)
Definition on_socket (w : W) (mode : Mode K) : E :=
  let size := max_datagram w + INITIATOR_OVERHEAD in
  mkEndpoint w mode TicketStore.default ∅ ∅ ∅ ∅ []
    (mkBucket (Fl.of_Z binary32 MAX_HANDSHAKES_PER_SECOND) (net_now w)) MAX_HANDSHAKES_PER_SECOND
    MAX_MIGRATION_ATTEMPTS_PER_PEER None 0 MAX_PEERS [] None HANDSHAKE_ATTEMPTS [] MAX_RETRIES None 0
    [] size (zeros size) (zeros size) (zeros size) (net_now w)
    (mkClientState None false None ∅ ∅ ∅).

Definition bind_socket (w : W) (identity : K) : E := on_socket w (PublicKeyMode identity).

(** ** Asking *)
Definition local_addr (e : E) : HostResult SocketAddr :=
  match net_local_addr (ep_world e) with inl a => Ok a | inr _ => Err Io end.

Definition observed_addr (e : E) : option SocketAddr := rv_observed (ep_rv e).

Definition outstanding_tickets (e : E) : Z := TicketStore.len (ep_tickets e).

(** Handles in a stable order. *)
Definition peers (e : E) : list Z := merge_sort Z.le (map fst (map_to_list (ep_peers e))).

Definition connecting (e : E) : Z := Z.of_nat (size (ep_outbound e)).

Definition handshake_attempts (e : E) : Z := ep_handshake_attempts e.

Definition public_key (e : E) : option bytes :=
  match ep_mode e with PublicKeyMode key => Some (sk_public key) | PskMode _ => None end.

Definition peer_public_key (e : E) (peer : Z) : option bytes :=
  match ep_peers e !! peer with
  | Some entry => Some (s_remote_static (p_session (en_peer entry)))
  | None => None
  end.

Definition peer_addr (e : E) (peer : Z) : option SocketAddr :=
  match ep_peers e !! peer with Some entry => Some (en_addr entry) | None => None end.

Definition peer_count (e : E) : Z := Z.of_nat (size (ep_peers e)).

Definition peer_entries (e : E) : list (Z * PeerEntry) := map_to_list (ep_peers e).

(** ** Waking *)
Definition wake_at (e : E) (at_ : Z) : E :=
  set_ep_next_wake e
    (Some (match ep_next_wake e with Some existing => Z.min existing at_ | None => at_ end)).

Definition rto_ms (p : Peer) : Z := Rto.current (rto (p_retransmit p)).

Definition next_keepalive (e : E) : option Z :=
  every ← ep_keepalive e;
  Pmtu.min_list (map (fun ie => saturating_sub (en_last_sent ie.2 + every) (now e)) (peer_entries e)).

Definition next_liveness_check (e : E) : option Z :=
  limit ← ep_peer_timeout e;
  Pmtu.min_list (map (fun ie => saturating_sub (en_last_heard ie.2 + limit) (now e)) (peer_entries e)).

Definition earliest_deadline (e : E) : option Z :=
  let retransmit :=
    at_ ← Pmtu.min_list (omap (fun ie => RetransmitQueue.next_deadline_ms (p_retransmit (en_peer ie.2)))
                          (peer_entries e));
    Some (now e + saturating_sub at_ (now_ms e)) in
  let handshake := Pmtu.min_list (map (fun io => ob_next_attempt io.2) (map_to_list (ep_outbound e))) in
  let pmtu :=
    Pmtu.min_list (omap (fun ie =>
      if en_spoke ie.2 then
        p ← en_pmtu ie.2; Pmtu.next_deadline p (rto_ms (en_peer ie.2))
      else None) (peer_entries e)) in
  let keepalive := d ← next_keepalive e; Some (now e + d) in
  let liveness := d ← next_liveness_check e; Some (now e + d) in
  Pmtu.min_list (omap id [retransmit; handshake; pmtu; keepalive; liveness]).

Definition rescan_wake (e : E) : E := set_ep_next_wake e (earliest_deadline e).

(** ** The tables *)

(** Drops one session from the identifier index. *)
Definition unfile_session (e : E) (session_id peer_id : Z) : E :=
  match ep_by_session e !! session_id with
  | None => e
  | Some sharing =>
      let sharing := filter (fun id => id <> peer_id) sharing in
      set_ep_by_session e
        (match sharing with
         | [] => delete session_id (ep_by_session e)
         | _ => <[session_id := sharing]> (ep_by_session e)
         end)
  end.

(** [self.peers.remove(&id)] with both indexes, as [disconnect], [make_room]
    and [drive_liveness] do it. *)
Definition release (e : E) (id : Z) (entry : PeerEntry) : E :=
  let e := set_ep_peers e (delete id (ep_peers e)) in
  let e := set_ep_routes e (delete (en_addr entry, en_session_id entry) (ep_routes e)) in
  unfile_session e (en_session_id entry) id.

(** The order [make_room] evicts in: never spoken first, then the oldest. *)
Definition sooner (a b : PeerEntry) : bool :=
  match en_spoke a, en_spoke b with
  | false, true => true
  | true, false => false
  | _, _ => en_filed a <? en_filed b
  end.

(** [min_by_key]: the first of the least. *)
Fixpoint first_out (l : list (Z * PeerEntry)) : option (Z * PeerEntry) :=
  match l with
  | [] => None
  | x :: l =>
      match first_out l with
      | Some y => if sooner y.2 x.2 then Some y else Some x
      | None => Some x
      end
  end.

Definition make_room (e : E) : E :=
  if peer_count e <? ep_max_peers e then e else
  match first_out (peer_entries e) with
  | None => e
  | Some (victim, entry) => release e victim entry
  end.

Definition file (e : E) (peer_id : Z) (link : Session) (addr : SocketAddr) (session_id : Z) : E :=
  let e := make_room e in
  let w := ep_world e in
  let caps := s_peer_caps link in
  let cap := Z.min (max_frame_size caps) (max_datagram w) in
  let pmtu :=
    if path_mtu_discovery w && Capabilities.supports_pmtu_probe caps && (BASE_DATAGRAM <? cap)
    then Some (Pmtu.new cap (now e)) else None in
  let datagram_limit := match pmtu with Some p => current p | None => cap end in
  let previous := ep_routes e !! (addr, session_id) in
  let e := set_ep_routes e (<[(addr, session_id) := peer_id]> (ep_routes e)) in
  let e :=
    match previous with
    | Some previous =>
        unfile_session (set_ep_peers e (delete previous (ep_peers e))) session_id previous
    | None => e
    end in
  let sharing := default [] (ep_by_session e !! session_id) in
  let e := set_ep_by_session e (<[session_id := sharing ++ [peer_id]]> (ep_by_session e)) in
  let peer := Peer.new link (max_datagram w) in
  let peer := Peer.with_retransmit peer
                (RetransmitQueue.set_max_retries (p_retransmit peer) (ep_max_retries e)) in
  let t := now e in
  let entry := mkPeerEntry peer addr session_id datagram_limit t None
                 (mkBucket (Fl.of_Z binary32 MAX_MIGRATION_ATTEMPTS_PER_PEER) t) t t None pmtu false in
  rescan_wake (set_entry e peer_id entry).

Definition remember_reply (e : E) (ev : Event) (reply : bytes) : E :=
  match ev with
  | Connected peer _ _ _ =>
      match ep_peers e !! peer with
      | Some entry => set_entry e peer (set_en_handshake_reply entry (Some (reply, HANDSHAKE_REPLIES)))
      | None => e
      end
  | _ => e
  end.

(** Every handshake issues the ticket for the next one. *)
Definition issue_ticket (e : E) (link : Session) : E :=
  set_ep_tickets e (TicketStore.insert (ep_tickets e) (Session.resumption_ticket link)
                      (s_remote_static link) (now e)).

Definition register (e : E) (link : Session) (addr : SocketAddr) (zero_rtt : bytes) (resumed : bool)
  : E * Event :=
  let e := issue_ticket e link in
  let peer_id := ep_next_id e in
  let e := set_ep_next_id e (ep_next_id e + 1) in
  let e := file e peer_id link addr (s_session_id link) in
  (e, Connected peer_id zero_rtt resumed false).

Definition register_as (e : E) (peer_id : Z) (link : Session) (addr : SocketAddr) (zero_rtt : bytes)
    (resumed initiated : bool) : E * Event :=
  let e := issue_ticket e link in
  let e := file e peer_id link addr (s_session_id link) in
  (e, Connected peer_id zero_rtt resumed initiated).

Definition disconnect (e : E) (peer : Z) : E * bool :=
  match ep_outbound e !! peer with
  | Some _ => (set_ep_outbound e (delete peer (ep_outbound e)), true)
  | None =>
      let e := set_ep_rv e (set_rv_relayed (ep_rv e) (delete peer (rv_relayed (ep_rv e)))) in
      match ep_peers e !! peer with
      | Some entry => (release e peer entry, true)
      | None => (e, false)
      end
  end.

(** ** What paths have measured *)
Definition path_of (e : E) (addr : SocketAddr) : option Path :=
  match list_find (fun ap => ap.1 = addr) (ep_paths e) with
  | Some (_, (_, p)) => Some p
  | None => None
  end.

Definition handshake_delay (e : E) (addr : SocketAddr) (attempts : Z) : Z :=
  let path := path_of e addr in
  let ordinary :=
    match path ≫= path_rto with
    | Some r => Rto.with_backoff r (saturating_sub attempts 1)
    | None => HANDSHAKE_RETRY_MS * attempts
    end in
  match path ≫= path_floor with
  | Some floor => if attempts <=? 1 then Z.max ordinary floor else ordinary
  | None => ordinary
  end.

(** The wall clock the cold schedule would have spent. *)
Definition handshake_budget (attempts : Z) : Z := HANDSHAKE_RETRY_MS * attempts * (attempts + 1) / 2.

(** [path_mut]: the table with an entry for [addr], and its index. *)
Definition path_mut (paths : list (SocketAddr * Path)) (addr : SocketAddr)
  : list (SocketAddr * Path) * nat :=
  match list_find (fun ap => ap.1 = addr) paths with
  | Some (i, _) => (paths, i)
  | None =>
      let paths := if MAX_MEASURED_PATHS <=? len paths then tail paths else paths in
      (paths ++ [(addr, mkPath None None)], length paths)
  end.

Definition update_path (e : E) (addr : SocketAddr) (f : Path -> Path) : E :=
  let (paths, i) := path_mut (ep_paths e) addr in
  set_ep_paths e (alter (fun ap => (ap.1, f ap.2)) i paths).

Definition measure_path (e : E) (addr : SocketAddr) (rtt : Z) : E :=
  let ms := Z.min rtt U32_MAX in
  update_path e addr (fun p => mkPath (Some (Rto.sample (default Rto.new (path_rto p)) ms)) None).

Definition learn_from_resent (e : E) (addr : SocketAddr) (since_first since_last : Z) : E :=
  update_path e addr (fun p =>
    let slower := mkPath (path_rto p) (Some (Z.min (since_first * 2) MAX_RTO_MS)) in
    match path_rto p with
    | Some r => if since_last <=? Rto.current r then mkPath (path_rto p) None else slower
    | None => slower
    end).

(** ** Connecting *)
Definition connect_and_send (e : E) (addr : SocketAddr) (peer_public : option bytes) (zero_rtt : bytes)
  : E * HostResult Z :=
  let (w, session_id) := next_u32 (ep_world e) in
  let e := set_ep_world e w in
  let caps := local_capabilities (ep_world e) in
  let overhead :=
    match ep_mode e with PublicKeyMode _ => INITIATOR_OVERHEAD | PskMode _ => RESUME_INIT_OVERHEAD end in
  let! (e, frame) := (e, opening_frame (handshake_datagram (ep_world e)) overhead zero_rtt) in
  let! (e, started) :=
    match ep_mode e with
    | PublicKeyMode key =>
        let! (e, peer) := (e, ok_or peer_public MissingPeerKey) in
        let! (e, initiator) := (e, map_err Protocol (Initiator.new key peer session_id caps)) in
        let (e, random) := draw e DHLEN in
        let (initiator, r) := Initiator.write_init initiator random zero_rtt frame in
        let! (e, sealed) := (e, map_err Protocol r) in
        (e, Ok (FullHandshake initiator, sealed))
    | PskMode psk =>
        let! (e, initiator) :=
          (e, map_err Protocol (ResumeInitiator.new psk ANONYMOUS session_id caps)) in
        let (e, random) := draw e DHLEN in
        let (initiator, r) := ResumeInitiator.write_init initiator random zero_rtt frame in
        let! (e, sealed) := (e, map_err Protocol r) in
        (e, Ok (PskHandshake initiator, sealed))
    end in
  let '(handshake, (frame, n)) := started in
  let frame := takez n frame in
  let! (e, _) := send_out e frame addr in
  let peer_id := ep_next_id e in
  let e := set_ep_next_id e (ep_next_id e + 1) in
  let sent_at := now e in
  let next_attempt := sent_at + handshake_delay e addr 1 in
  let e := set_ep_outbound e (<[peer_id := mkOutbound handshake peer_public addr session_id frame
                                            next_attempt 1 sent_at sent_at]> (ep_outbound e)) in
  (wake_at e next_attempt, Ok peer_id).

Definition connect (e : E) (addr : SocketAddr) (peer_public : option bytes) : E * HostResult Z :=
  connect_and_send e addr peer_public [].

(** One turn of [drive_handshakes]'s loop. *)
Definition drive_handshake (e : E) (t : Z) (id : Z) : E * HostResult (option Event) :=
  match ep_outbound e !! id with
  | None => (e, Ok None)
  | Some o =>
      let spent := since t (ob_first_sent o) in
      if (ep_handshake_attempts e <=? ob_attempts o)
         && (handshake_budget (ep_handshake_attempts e) <=? spent) then
        (set_ep_outbound e (delete id (ep_outbound e)), Ok (Some (ConnectFailed id)))
      else
        let attempts := Z.min 255 (ob_attempts o + 1) in
        let next := t + handshake_delay e (ob_addr o) attempts in
        let o' := mkOutbound (ob_handshake o) (ob_peer_key o) (ob_addr o) (ob_session_id o) (ob_frame o)
                    next attempts (ob_first_sent o) t in
        let e := set_ep_outbound e (<[id := o']> (ep_outbound e)) in
        let! (e, _) := send_out e (ob_frame o) (ob_addr o) in
        (e, Ok None)
  end.

(** Over the due ones, stopping at the first given up on. *)
Fixpoint drive_due_handshakes (e : E) (t : Z) (due : list Z) : E * HostResult (option Event) :=
  match due with
  | [] => (e, Ok None)
  | id :: due =>
      let! (e, ev) := drive_handshake e t id in
      match ev with Some _ => (e, Ok ev) | None => drive_due_handshakes e t due end
  end.

Definition drive_handshakes (e : E) : E * HostResult (option Event) :=
  let t := now e in
  let due := map fst (filter (fun io => ob_next_attempt io.2 <= t) (map_to_list (ep_outbound e))) in
  drive_due_handshakes e t due.

(** The first handshake waiting for a reply from [from] under [session_id]. *)
Definition find_outbound (e : E) (from : SocketAddr) (session_id : Z) : option (Z * Outbound K) :=
  match list_find (fun io => ob_addr io.2 = from /\ ob_session_id io.2 = session_id)
          (map_to_list (ep_outbound e)) with
  | Some (_, io) => Some io
  | None => None
  end.

Definition complete_outbound (e : E) (from : SocketAddr) (session_id : Z) : E * HostResult (option Event) :=
  match find_outbound e from session_id with
  | None => (e, Ok None)
  | Some (peer_id, outbound) =>
      let e := set_ep_outbound e (delete peer_id (ep_outbound e)) in
      let addr := ob_addr outbound in
      let since_first := since (now e) (ob_first_sent outbound) in
      let e :=
        if ob_attempts outbound =? 1 then measure_path e addr since_first
        else learn_from_resent e addr since_first (since (now e) (ob_last_sent outbound)) in
      let staging := zeros (ep_rx_size e) in
      let completed :=
        match ob_handshake outbound with
        | FullHandshake i => let? v := Initiator.read_response i (ep_rx e) staging in Ok (v, false)
        | PskHandshake i => let? v := ResumeInitiator.read_response i (ep_rx e) staging in Ok (v, true)
        end in
      match completed with
      | Panic => (e, Panic)
      | Err _ => (e, Ok (Some (ConnectFailed peer_id)))
      | Ok ((link, staging, n), resumed) =>
          let! (e, reply) := (e, slice staging 0 n) in
          let (e, ev) := register_as e peer_id link addr reply resumed true in
          (e, Ok (Some ev))
      end
  end.

(** ** Sending *)
Definition max_payload (e : E) (peer : Z) : HostResult Z :=
  let? entry := ok_or (ep_peers e !! peer) UnknownPeer in
  Ok (Peer.max_payload (en_peer entry) (en_datagram_limit entry)).

(** [entry.peer.seal(.., &mut self.tx)?] and the send after it. *)
Definition seal_to (e : E) (peer : Z) (entry : PeerEntry) (data : bytes) (payload_type : PayloadType)
    (id : option Z) : E * HostResult unit :=
  let (p, r) := Peer.seal (en_peer entry) data payload_type id None (en_datagram_limit entry) (ep_tx e) in
  let e := set_entry e peer (set_en_peer entry p) in
  let! (e, sealed) := (e, r) in
  let e := set_ep_tx e sealed.1 in
  let! (e, frame) := (e, slice (ep_tx e) 0 sealed.2) in
  send_out e frame (en_addr entry).

(** [entry.last_sent = Instant::now()], if the peer is still there. *)
Definition stamp_sent (e : E) (peer : Z) : E :=
  match ep_peers e !! peer with
  | Some entry => set_entry e peer (set_en_last_sent entry (now e))
  | None => e
  end.

Definition send (e : E) (peer : Z) (data : bytes) (payload_type : PayloadType) : E * HostResult unit :=
  let! (e, entry) := (e, ok_or (ep_peers e !! peer) UnknownPeer) in
  let! (e, _) := seal_to e peer entry data payload_type None in
  (stamp_sent e peer, Ok tt).

(** What the callbacks of the driving passes change: the world, when
    something was last sent, whether anything was, and whether it was large. *)
Record Wire := mkWire { wi_world : W; wi_stamp : Z; wi_resent : bool; wi_large : bool }.

Definition wire_send (addr : SocketAddr) (s : Wire) (frame : bytes) : Wire * HostResult unit :=
  let large := wi_large s || (BASE_DATAGRAM <? len frame) in
  let (w, r) := send_datagram (wi_world s) frame addr in
  match r with
  | Ok _ => (mkWire w (net_now w) true large, Ok tt)
  | Err err => (mkWire w (wi_stamp s) true large, Err err)
  | Panic => (mkWire w (wi_stamp s) true large, Panic)
  end.

(** The entry and the endpoint after a driver has run over one peer. *)
Definition driven_entry (entry : PeerEntry) (d : Driving Wire) : PeerEntry :=
  set_en_last_sent (set_en_peer entry (d_peer d)) (wi_stamp (d_world d)).

Definition driven (e : E) (id : Z) (entry : PeerEntry) (d : Driving Wire) : E :=
  let e := set_ep_world (set_ep_tx e (d_tx d)) (wi_world (d_world d)) in
  set_entry e id (driven_entry entry d).

Definition drive_queue_of (e : E) (t : Z) (id : Z) : E * HostResult unit :=
  match ep_peers e !! id with
  | None => (e, Ok tt)
  | Some entry =>
      let (d, r) := Peer.drive_queue (wire_send (en_addr entry))
        (mkDriving (en_peer entry) (mkWire (ep_world e) (en_last_sent entry) false false) (ep_tx e)) t in
      let e := driven e id entry d in
      let! (e, finished) := (e, r) in
      match finished with
      | Some f => (push_event e (Sent id (f_delivered f)), Ok tt)
      | None => (e, Ok tt)
      end
  end.

(** [for id in ids { .. ? }]. *)
Fixpoint for_peers (f : E -> Z -> E * HostResult unit) (e : E) (ids : list Z) : E * HostResult unit :=
  match ids with
  | [] => (e, Ok tt)
  | id :: ids => let! (e, _) := f e id in for_peers f e ids
  end.

Definition peer_ids (e : E) : list Z := map fst (peer_entries e).

Definition drive_queues (e : E) : E * HostResult unit :=
  let t := now_ms e in
  let! (e, _) := for_peers (fun e id => drive_queue_of e t id) e (peer_ids e) in
  (set_ep_queueing e (len (filter (fun ie => 0 < Peer.queued (en_peer ie.2)) (peer_entries e))), Ok tt).

Definition send_reliable (e : E) (peer : Z) (data : bytes) (payload_type : PayloadType)
  : E * HostResult unit :=
  let! (e, entry) := (e, ok_or (ep_peers e !! peer) UnknownPeer) in
  let limit := en_datagram_limit entry in
  if len data <=? Peer.payload_room (en_peer entry) limit true false then
    if negb (Capabilities.supports_reliable (s_peer_caps (p_session (en_peer entry))))
    then (e, Err ReliabilityUnsupported) else
    let (q, r) := RetransmitQueue.register (p_retransmit (en_peer entry)) (now_ms e) in
    let entry := set_en_peer entry (Peer.with_retransmit (en_peer entry) q) in
    let e := set_entry e peer entry in
    let! (e, id) := (e, map_err Protocol r) in
    let! (e, _) := seal_to e peer entry data payload_type (Some id) in
    let e := stamp_sent e peer in
    let! (e, entry) := (e, ok_or (ep_peers e !! peer) UnknownPeer) in
    let p := en_peer entry in
    let p := Peer.with_pending p (p_pending p ++ [mkPending id payload_type data None limit]) in
    let e := set_entry e peer (set_en_peer entry p) in
    match RetransmitQueue.next_deadline_ms (p_retransmit p) with
    | Some at_ => (wake_at e (now e + saturating_sub at_ (now_ms e)), Ok tt)
    | None => (e, Ok tt)
    end
  else
    let (p, r) := Peer.queue_message (en_peer entry) data payload_type limit in
    let e := set_entry e peer (set_en_peer entry p) in
    let! (e, _) := (e, r) in
    let e := set_ep_queueing e (ep_queueing e + 1) in
    let! (e, _) := drive_queues e in
    (rescan_wake e, Ok tt).

Definition unacknowledged (e : E) (peer : Z) : Z :=
  match ep_peers e !! peer with
  | Some entry => RetransmitQueue.in_flight (p_retransmit (en_peer entry))
  | None => 0
  end.

(** ** Time-driven work *)

(** Through a relay, a resend asks for the address to be proved again. *)
Definition hasten_refresh (e : E) (id : Z) : E :=
  match rv_relayed (ep_rv e) !! id with
  | None => e
  | Some link =>
      let soonest := ln_last_hello link + REFRESH_FLOOR in
      if negb (ln_legacy link) && (soonest <? ln_next_refresh link) then
        let link := mkLink (ln_port link) (ln_token link) (ln_legacy link) soonest (ln_last_hello link) in
        let e := set_ep_rv e (set_rv_relayed (ep_rv e) (<[id := link]> (rv_relayed (ep_rv e)))) in
        wake_at e soonest
      else e
  end.

Definition drive_retransmits_of (e : E) (t : Z) (id : Z) : E * HostResult unit :=
  match ep_peers e !! id with
  | None => (e, Ok tt)
  | Some entry =>
      let (d, r) := Peer.drive_retransmits (wire_send (en_addr entry))
        (mkDriving (en_peer entry) (mkWire (ep_world e) (en_last_sent entry) false false) (ep_tx e)) t in
      let e := driven e id entry d in
      let! (e, _) := (e, r) in
      let entry := driven_entry entry d in
      let entry :=
        match en_pmtu entry with
        | Some p => if wi_large (d_world d) then set_en_pmtu entry (Some (Pmtu.suspect p (now e))) else entry
        | None => entry
        end in
      let e := set_entry e id entry in
      let e := if wi_resent (d_world d) then hasten_refresh e id else e in
      let p := en_peer entry in
      let unreported := p_abandoned_unqueued p in
      let p := Peer.with_abandoned p (p_abandoned p) 0 (p_abandoned_count p) in
      let e := set_entry e id (set_en_peer entry p) in
      (set_ep_events e (ep_events e ++ replicate (Z.to_nat unreported) (Sent id false)), Ok tt)
  end.

Definition drive_retransmits (e : E) : E * HostResult unit :=
  let t := now_ms e in
  for_peers (fun e id => drive_retransmits_of e t id) e (peer_ids e).

Definition lose (e : E) (id : Z) : E :=
  match ep_peers e !! id with
  | Some entry => push_event (release e id entry) (PeerLost id)
  | None => e
  end.

Definition drive_liveness (e : E) : E :=
  match ep_peer_timeout e with
  | None => e
  | Some limit =>
      let t := now e in
      let lost := map fst (filter (fun ie => limit <= since t (en_last_heard ie.2)) (peer_entries e)) in
      fold_left lose lost e
  end.

(** A challenge with a fresh token to the address on file. *)
Definition send_keepalive (e : E) (id : Z) : E * HostResult unit :=
  match ep_peers e !! id with
  | None => (e, Ok tt)
  | Some entry =>
      let (e, token) := draw e PATH_TOKEN_LEN in
      let (p, r) := Peer.challenge (en_peer entry) token (ep_ack e) in
      let e := set_entry e id (set_en_peer entry p) in
      let! (e, sealed) := (e, r) in
      let e := set_ep_ack e sealed.1 in
      let! (e, frame) := (e, slice (ep_ack e) 0 sealed.2) in
      let! (e, _) := send_out e frame (en_addr entry) in
      (stamp_sent e id, Ok tt)
  end.

Definition drive_keepalives (e : E) : E * HostResult unit :=
  match ep_keepalive e with
  | None => (e, Ok tt)
  | Some every =>
      let t := now e in
      let due := map fst (filter (fun ie => en_spoke ie.2 = true /\ every <= since t (en_last_sent ie.2))
                            (peer_entries e)) in
      for_peers send_keepalive e due
  end.

(** The tokens of a search, drawn one size after another. *)
Fixpoint draw_tokens (w : W) (sizes : list Z) : W * list (Z * bytes) :=
  match sizes with
  | [] => (w, [])
  | size :: sizes =>
      let (w, token) := net_random w PATH_TOKEN_LEN in
      let (w, rest) := draw_tokens w sizes in (w, (size, token) :: rest)
  end.

(** The sizes [Pmtu::due] starts a search over, if it starts one. *)
Definition search_sizes (s : Pmtu) (t : Z) : list Z :=
  match probes s, next_search s with
  | [], Some at_ => if at_ <=? t then Pmtu.candidates s (BASE_DATAGRAM <? current s) else []
  | _, _ => []
  end.

Definition token_for (tokens : list (Z * bytes)) (size : Z) : bytes :=
  match list_find (fun st => st.1 = size) tokens with Some (_, (_, t)) => t | None => [] end.

(** One probe of the search. *)
Definition send_probe (e : E) (id : Z) (t : Z) (s : Pmtu.Send) : E :=
  match ep_peers e !! id with
  | None => e
  | Some entry =>
      let (p, r) := Peer.probe (en_peer entry) (s_token s) (s_size s) (ep_tx e) in
      let entry := set_en_peer entry p in
      let e := set_entry e id entry in
      match r with
      | Ok (tx, n) =>
          let e := set_ep_tx e tx in
          let (e, went) := send_anyway e (takez n tx) (en_addr entry) in
          if went then set_entry e id (set_en_last_sent entry t) else e
      | _ => e
      end
  end.

Definition drive_pmtu_of (t : Z) (e : E) (id : Z) : E :=
  match ep_peers e !! id with
  | None => e
  | Some entry =>
      if negb (en_spoke entry) then e else
      match en_pmtu entry with
      | None => e
      | Some pmtu =>
          let (w, tokens) := draw_tokens (ep_world e) (search_sizes pmtu t) in
          let e := set_ep_world e w in
          let (pmtu, sends) := Pmtu.due pmtu t (rto_ms (en_peer entry)) (token_for tokens) in
          let entry := set_en_datagram_limit (set_en_pmtu entry (Some pmtu)) (current pmtu) in
          fold_left (fun e s => send_probe e id t s) sends (set_entry e id entry)
      end
  end.

Definition drive_pmtu (e : E) : E := fold_left (drive_pmtu_of (now e)) (peer_ids e) e.

(** ** Settings *)
Definition set_peer_timeout (e : E) (within : option Z) : E :=
  rescan_wake (set_ep_peer_timeout e (Z.max MIN_PEER_TIMEOUT <$> within)).

Definition set_keepalive (e : E) (every : option Z) : E :=
  rescan_wake (set_ep_keepalive e (Z.max MIN_KEEPALIVE <$> every)).

Definition set_handshake_attempts (e : E) (attempts : Z) : E :=
  set_ep_handshake_attempts e (Z.max attempts 1).

Definition set_max_retries (e : E) (attempts : Z) : E :=
  let e := set_ep_max_retries e (Z.max attempts 1) in
  set_ep_peers e ((fun entry =>
    let p := en_peer entry in
    set_en_peer entry (Peer.with_retransmit p
      (RetransmitQueue.set_max_retries (p_retransmit p) (ep_max_retries e)))) <$> ep_peers e).

Definition set_max_peers (e : E) (limit : Z) : E := set_ep_max_peers e (Z.max limit 1).

Definition set_max_migration_attempts_per_peer (e : E) (rate : Z) : E := set_ep_migration_rate e rate.

Definition set_handshake_reply (e : E) (payload : bytes) : E * HostResult unit :=
  let overhead := Z.max RESPONDER_OVERHEAD RESUME_RESPONSE_OVERHEAD in
  if handshake_datagram (ep_world e) <? len payload + overhead
  then (e, Err (Protocol PayloadTooLarge))
  else (set_ep_handshake_reply e payload, Ok tt).

Definition set_ticket_lifetime (e : E) (lifetime : Z) : E :=
  set_ep_tickets e (TicketStore.set_lifetime (ep_tickets e) lifetime).

Definition set_max_handshakes_per_second (e : E) (per_second : Z) : E :=
  let e := set_ep_handshake_rate e (Z.max per_second 1) in
  let b := ep_handshakes e in
  set_ep_handshakes e (mkBucket (Z.min (bk_left b) (Fl.of_Z binary32 (ep_handshake_rate e)))
                         (bk_refilled b)).
End endpoint.
End Endpoint.
