(* ===== verification/EndpointReceive.v ===== *)
(** * The endpoint: receiving, migration and the rendezvous client
      (crates/fectp/src/endpoint.rs)

    Routing of datagrams, answering handshakes within a budget, following a
    peer that moves once the new address has answered a challenge, the
    client's side of introductions, and the poll loop over all of it. *)
From stdpp Require Import gmap sorting.
From S2P Require Import Prelude Bytes Error Float Frame Fragment Codec Reliability RetransmitQueue.
From S2P Require Import Cipher Symmetric Handshake Session Connect Compress Reassembly Tickets Pmtu.
From S2P Require Import Pipeline Control Udp EndpointState Endpoint.
Import Endpoint.

Module EndpointReceive.
Section receive.
Context {W K : Type} `{Net W} `{StaticKey K} `{Crypto} `{ZstdLib}.
Local Abbreviation E := (Endpoint W K).

(** ** The rendezvous client *)
Definition set_asks (e : E) (asks : gmap (list Z) Ask) : E := set_ep_rv e (set_rv_asks (ep_rv e) asks).
Definition set_groups (e : E) (groups : gmap (list Z) Group) : E :=
  set_ep_rv e (set_rv_groups (ep_rv e) groups).

Definition has_session_with (e : E) (key : bytes) : bool :=
  existsb (fun ie => bool_decide (s_remote_static (p_session (en_peer ie.2)) = key)) (peer_entries e)
  || existsb (fun io => bool_decide (ob_peer_key io.2 = Some key)) (map_to_list (ep_outbound e)).

Definition tell_rendezvous (e : E) (c : Control) : E :=
  match rv_rendezvous (ep_rv e) with
  | Some rendezvous => fst (send_reliable e rendezvous (Control.encode c) Opaque)
  | None => e
  end.

Definition own_key (e : E) : option bytes := public_key e.

Definition connect_rendezvous (e : E) (addr : SocketAddr) (rendezvous_public : bytes)
  : E * HostResult Z :=
  match ep_mode e with
  | PskMode _ => (e, Err MissingPeerKey)
  | PublicKeyMode _ =>
      let! (e, peer) := connect e addr (Some rendezvous_public) in
      let rv := ep_rv e in
      (set_ep_rv e (mkClientState (Some peer) false None (rv_asks rv) (rv_relayed rv) (rv_groups rv)),
       Ok peer)
  end.

Definition introduce (e : E) (key : bytes) : E * HostResult unit :=
  if negb (is_some (rv_rendezvous (ep_rv e))) then (e, Err NoRendezvous) else
  if has_session_with e key then (e, Ok tt) else
  let asks := rv_asks (ep_rv e) in
  if negb (is_some (asks !! key)) && (MAX_INTRODUCTIONS <=? Z.of_nat (size asks))
  then (e, Err (Protocol WindowFull)) else
  let e := set_asks e (<[key := mkAsk (now e) Asked]> asks) in
  let e := if rv_registered (ep_rv e) then tell_rendezvous e (Introduce key) else e in
  (wake_at e (now e), Ok tt).

Definition join_group (e : E) (secret : bytes) : E * HostResult bytes :=
  if len secret <? MIN_GROUP_SECRET then (e, Err GroupSecretTooShort) else
  if negb (is_some (rv_rendezvous (ep_rv e))) then (e, Err NoRendezvous) else
  let! (e, own) := (e, ok_or (own_key e) MissingPeerKey) in
  let tag := group_tag secret in
  let groups := rv_groups (ep_rv e) in
  if negb (is_some (groups !! tag)) && (MAX_GROUPS <=? Z.of_nat (size groups))
  then (e, Err (Protocol WindowFull)) else
  let key := group_key secret in
  let mac := member_mac key own in
  let e := set_groups e (<[tag := mkGroup key mac ∅]> groups) in
  let e := if rv_registered (ep_rv e) then tell_rendezvous e (Join tag mac) else e in
  (e, Ok tag).

Definition leave_group (e : E) (group : bytes) : E * bool :=
  let was := is_some (rv_groups (ep_rv e) !! group) in
  let e := set_groups e (delete group (rv_groups (ep_rv e))) in
  (if was then tell_rendezvous e (Leave group) else e, was).

Definition group_members (e : E) (group : bytes) : list bytes :=
  match rv_groups (ep_rv e) !! group with Some g => elements (gr_members g) | None => [] end.

Definition is_relayed (e : E) (peer : Z) : bool := is_some (rv_relayed (ep_rv e) !! peer).

Definition fail_introduction (e : E) (key : bytes) (reason : Unavailable) : E :=
  match rv_asks (ep_rv e) !! key with
  | Some _ => push_event (set_asks e (delete key (rv_asks (ep_rv e)))) (IntroductionFailed key reason)
  | None => e
  end.

Definition lose_rendezvous (e : E) : E :=
  let rv := ep_rv e in
  let groups := (fun g => mkGroup (gr_key g) (gr_mac g) ∅) <$> rv_groups rv in
  let e := set_ep_rv e (mkClientState None false None (rv_asks rv) (rv_relayed rv) groups) in
  fold_left (fun e key => fail_introduction e key Unreachable)
    (map fst (map_to_list (rv_asks (ep_rv e)))) e.

(** One ask under [drive_introductions]: the ask after it, the datagram its
    port is due, and whether the port is given up on. A hello's padding is
    drawn where it is made. *)
Definition drive_ask (t : Z) (w : W) (ask : Ask)
  : W * Ask * option (bytes * SocketAddr) * bool :=
  match ask_stage ask with
  | Relaying port token checked legacy sent next_bind outbound =>
      let with_stage legacy sent next_bind :=
        mkAsk (ask_since ask) (Relaying port token checked legacy sent next_bind outbound) in
      if (t <? next_bind) || (BINDS <? sent) then (w, ask, None, false) else
      if sent =? BINDS then
        if negb checked && negb legacy then (w, with_stage true 0 t, None, false)
        else (w, with_stage legacy (sent + 1) next_bind, None, negb checked)
      else
        let ask := with_stage legacy (sent + 1) (t + BIND_INTERVAL) in
        if legacy then (w, ask, Some ([NOT_A_FRAME; BIND] ++ token, port), false)
        else let (w, pad) := net_random w SECRET_LEN in (w, ask, Some (hello pad, port), false)
  | _ => (w, ask, None, false)
  end.

(** What a pass over the asks and the links collects. *)
Record Pass := mkPass {
  ps_world : W;
  ps_asks : gmap (list Z) Ask;
  ps_relayed : gmap Z Link;
  ps_binds : list (bytes * SocketAddr);
  ps_abandoned : list bytes;
}.

Definition pass_ask (t : Z) (s : Pass) (ka : list Z * Ask) : Pass :=
  let '(w, ask, bind, gone) := drive_ask t (ps_world s) ka.2 in
  mkPass w (<[ka.1 := ask]> (ps_asks s)) (ps_relayed s) (ps_binds s ++ option_list bind)
    (ps_abandoned s ++ (if gone then [ka.1] else [])).

Definition pass_link (t : Z) (s : Pass) (il : Z * Link) : Pass :=
  let link := il.2 in
  if negb (ln_legacy link) && (ln_next_refresh link <=? t) then
    let (w, pad) := net_random (ps_world s) SECRET_LEN in
    mkPass w (ps_asks s)
      (<[il.1 := mkLink (ln_port link) (ln_token link) false (t + RELAY_REFRESH) t]> (ps_relayed s))
      (ps_binds s ++ [(hello pad, ln_port link)]) (ps_abandoned s)
  else s.

Definition drive_introductions (e : E) : E :=
  let t := now e in
  let expired := map fst (filter (fun ka => INTRODUCTION_DEADLINE < since t (ask_since ka.2))
                            (map_to_list (rv_asks (ep_rv e)))) in
  let e := fold_left (fun e key => fail_introduction e key Unreachable) expired e in
  let rv := ep_rv e in
  let s := mkPass (ep_world e) (rv_asks rv) (rv_relayed rv) [] [] in
  let s := fold_left (pass_ask t) (map_to_list (rv_asks rv)) s in
  let s := fold_left (pass_link t) (map_to_list (rv_relayed rv)) s in
  let e := set_ep_world e (ps_world s) in
  let e := set_ep_rv e (set_rv_relayed (set_rv_asks rv (ps_asks s)) (ps_relayed s)) in
  let e := fold_left (fun e key => fail_introduction e key Unreachable) (ps_abandoned s) e in
  fold_left (fun e b => fst (send_anyway e b.1 b.2)) (ps_binds s) e.

Definition next_introduction_deadline (e : E) : option Z :=
  let asks := map (fun ka =>
    match ask_stage ka.2 with
    | Relaying _ _ _ _ binds next_bind _ =>
        if binds <=? BINDS then next_bind else ask_since ka.2 + INTRODUCTION_DEADLINE
    | _ => ask_since ka.2 + INTRODUCTION_DEADLINE
    end) (map_to_list (rv_asks (ep_rv e))) in
  let links := map (fun il => ln_next_refresh il.2)
    (filter (fun il => ln_legacy il.2 = false) (map_to_list (rv_relayed (ep_rv e)))) in
  Pmtu.min_list (asks ++ links).

Definition is_asked (a : Ask) : bool := match ask_stage a with Asked => true | _ => false end.

(** [on_control], arm by arm. *)
Definition on_observed (e : E) (addr : SocketAddr) : E :=
  let e := set_ep_rv e (set_rv_observed (ep_rv e) (Some addr)) in
  if rv_registered (ep_rv e) then e else
  let e := set_ep_rv e (set_rv_registered (ep_rv e) true) in
  let waiting := map fst (filter (fun ka => is_asked ka.2 = true) (map_to_list (rv_asks (ep_rv e)))) in
  let e := fold_left (fun e key => tell_rendezvous e (Introduce key)) waiting e in
  let joins := map (fun tg => Join tg.1 (gr_mac tg.2)) (map_to_list (rv_groups (ep_rv e))) in
  fold_left tell_rendezvous joins e.

Definition on_introduction (e : E) (key : bytes) (addr : SocketAddr) : E :=
  let asked := match rv_asks (ep_rv e) !! key with Some a => is_asked a | None => false end in
  if negb asked || has_session_with e key then e else
  let (e, _) := send_anyway e [NOT_A_FRAME; PUNCH] addr in
  let put (e : E) outbound :=
    match rv_asks (ep_rv e) !! key with
    | Some a => set_asks e (<[key := mkAsk (ask_since a) (Introduced outbound false)]> (rv_asks (ep_rv e)))
    | None => e
    end in
  match own_key e with
  | Some ours =>
      if starts ours key then
        let (e, r) := connect e addr (Some key) in
        match r with
        | Ok id => put e (Some id)
        | _ => fail_introduction e key Unreachable
        end
      else put e None
  | None => put e None
  end.

Definition on_relay_offer (e : E) (key : bytes) (port : SocketAddr) (token : bytes) : E :=
  match rv_asks (ep_rv e) !! key with
  | None => e
  | Some a =>
      match ask_stage a with
      | Introduced _ _ =>
          let stage := Relaying port token false false 0 (now e) None in
          let e := set_asks e (<[key := mkAsk (ask_since a) stage]> (rv_asks (ep_rv e))) in
          wake_at e (now e)
      | _ => e
      end
  end.

(** [sort_unstable] of distinct keys. *)
Definition key_le (a b : bytes) : Prop := bytes_lt b a = false.
#[global] Instance key_le_dec : RelDecision key_le.
Proof. intros a b. unfold key_le. apply _. Defined.
Definition sort_keys (l : list bytes) : list bytes := merge_sort key_le l.

Definition on_members (e : E) (tag : bytes) (list_ : list (bytes * bytes)) : E :=
  let own := own_key e in
  match rv_groups (ep_rv e) !! tag with
  | None => e
  | Some group =>
      let checked : gset (list Z) := list_to_set (map fst
        (filter (fun km => Some km.1 <> own /\ same km.2 (member_mac (gr_key group) km.1) = true) list_)) in
      let found := sort_keys (elements (checked ∖ gr_members group)) in
      let e := set_groups e (<[tag := mkGroup (gr_key group) (gr_mac group) checked]>
                               (rv_groups (ep_rv e))) in
      fold_left (fun e key => push_event e (PeerDiscovered key tag)) found e
  end.

Definition on_control (e : E) (c : Control) : E :=
  match c with
  | Observed addr => on_observed e addr
  | ControlUnavailable key reason => fail_introduction e key (Unavailable.from_byte reason)
  | Introduction key addr => on_introduction e key addr
  | RelayOffer key port token => on_relay_offer e key port token
  | Members tag list_ => on_members e tag list_
  | Register | Introduce _ | RelayRequest _ | Join _ _ | Leave _ => e
  end.


(** ** Events of the rendezvous machinery *)

(** A session through the port an ask was relayed to. *)
Definition link_through (e : E) (peer : Z) (ask : Ask) : E :=
  match ask_stage ask with
  | Relaying port token _ legacy _ _ _ =>
      if bool_decide (peer_addr e peer = Some port) then
        let t := now e in
        let link := mkLink port token legacy (t + RELAY_REFRESH) (t - REFRESH_FLOOR) in
        wake_at (set_ep_rv e (set_rv_relayed (ep_rv e) (<[peer := link]> (rv_relayed (ep_rv e)))))
          (t + RELAY_REFRESH)
      else e
  | _ => e
  end.

Definition on_connected (e : E) (peer : Z) : E :=
  match peer_public_key e peer with
  | None => e
  | Some key =>
      match rv_asks (ep_rv e) !! key with
      | None => e
      | Some ask => link_through (set_asks e (delete key (rv_asks (ep_rv e)))) peer ask
      end
  end.

(** Whose handshake an ask is waiting on. *)
Definition ask_outbound (a : Ask) : option Z :=
  match ask_stage a with
  | Introduced outbound _ => outbound
  | Relaying _ _ _ _ _ _ outbound => outbound
  | Asked => None
  end.

Definition on_connect_failed (e : E) (peer : Z) (ev : Event) : E * option Event :=
  match list_find (fun ka => ask_outbound ka.2 = Some peer) (map_to_list (rv_asks (ep_rv e))) with
  | None => (e, Some ev)
  | Some (_, (key, ask)) =>
      match ask_stage ask with
      | Introduced outbound false =>
          let ask := mkAsk (ask_since ask) (Introduced outbound true) in
          let e := set_asks e (<[key := ask]> (rv_asks (ep_rv e))) in
          (tell_rendezvous e (RelayRequest key), None)
      | _ => (fail_introduction e key Unreachable, None)
      end
  end.

Definition is_rendezvous (e : E) (peer : Z) : bool := bool_decide (Some peer = rv_rendezvous (ep_rv e)).

Definition intercept (e : E) (ev : Event) : E * option Event :=
  match ev with
  | Connected peer _ _ _ =>
      if is_rendezvous e peer then (tell_rendezvous e Register, Some ev)
      else (on_connected e peer, Some ev)
  | Message peer data =>
      if is_rendezvous e peer then
        (match Control.decode data with Some control => on_control e control | None => e end, None)
      else (e, Some ev)
  | ConnectFailed peer =>
      if is_rendezvous e peer then (lose_rendezvous e, Some ev)
      else on_connect_failed e peer ev
  | PeerLost peer =>
      let e := set_ep_rv e (set_rv_relayed (ep_rv e) (delete peer (rv_relayed (ep_rv e)))) in
      (if is_rendezvous e peer then lose_rendezvous e else e, Some ev)
  | _ => (e, Some ev)
  end.

(** ** Datagrams that are not frames *)

(** The ask being relayed through [from], with its port's token. *)
Definition relaying_via (from : SocketAddr) (a : Ask) : option (bytes * bool * bool) :=
  match ask_stage a with
  | Relaying port token checked legacy _ _ _ =>
      if bool_decide (port = from) then Some (token, legacy, checked) else None
  | _ => None
  end.

(** [checked] is set, and [outbound] where there is one. *)
Definition mark_checked (e : E) (key : bytes) (outbound : option Z) : E :=
  match rv_asks (ep_rv e) !! key with
  | Some (mkAsk t (Relaying port token _ legacy binds next slot)) =>
      let slot := match outbound with Some _ => outbound | None => slot end in
      set_asks e (<[key := mkAsk t (Relaying port token true legacy binds next slot)]>
                    (rv_asks (ep_rv e)))
  | _ => e
  end.

(** A check from a relay port answered; the starting side connects through
    the port on the first one. *)
Definition answer_check (e : E) (from : SocketAddr) (nonce : bytes) : E :=
  match list_find (fun il => ln_port il.2 = from) (map_to_list (rv_relayed (ep_rv e))) with
  | Some (_, (_, link)) => fst (send_anyway e (answer (ln_token link) nonce (ln_legacy link)) from)
  | None =>
      match list_find (fun ka => is_Some (relaying_via from ka.2)) (map_to_list (rv_asks (ep_rv e))) with
      | None => e
      | Some (_, (key, ask)) =>
          match relaying_via from ask with
          | None => e
          | Some (token, legacy, checked) =>
              let (e, _) := send_anyway e (answer token nonce legacy) from in
              match own_key e with
              | Some ours =>
                  if negb checked && starts ours key then
                    let (e, r) := connect e from (Some key) in
                    match r with
                    | Ok id => mark_checked e key (Some id)
                    | _ => fail_introduction e key Unreachable
                    end
                  else mark_checked e key None
              | None => mark_checked e key None
              end
          end
      end
  end.

Definition not_a_frame (e : E) (from : SocketAddr) : E :=
  match ep_rx e with
  | b0 :: b1 :: nonce =>
      if (b0 =? NOT_A_FRAME) && (b1 =? CHECK) && (len nonce =? SECRET_LEN)
      then answer_check e from nonce else e
  | _ => e
  end.

(** ** Budgets *)
Definition spend_one (rate t : Z) (b : Bucket) : Bucket * bool :=
  Bucket.take binary32 (Fl.of_Z binary32 rate) (Fl.of_Z binary32 rate) (Fl.of_Z binary32 1) t b.

Definition may_try_unknown_address (e : E) (peer : Z) : E * bool :=
  match ep_peers e !! peer with
  | None => (e, false)
  | Some entry =>
      let (b, ok) := spend_one (ep_migration_rate e) (now e) (en_migration entry) in
      (set_entry e peer (set_en_migration entry b), ok)
  end.

Definition may_answer_handshake (e : E) : E * bool :=
  let (b, ok) := spend_one (ep_handshake_rate e) (now e) (ep_handshakes e) in
  (set_ep_handshakes e b, ok).

(** A repeated opening frame: the reply again while it is held, and no
    second handshake. *)
Definition repeat_handshake (e : E) (from : SocketAddr) (sid : Z) : E * HostResult bool :=
  match ep_routes e !! (from, sid) with
  | None => (e, Ok false)
  | Some peer =>
      match ep_peers e !! peer with
      | None => (e, Ok false)
      | Some entry =>
          match en_handshake_reply entry with
          | None => (e, Ok true)
          | Some (reply, n) =>
              let! (e, _) := send_out e reply from in
              let again := if n =? 0 then None else Some (reply, n - 1) in
              (set_entry e peer (set_en_handshake_reply entry again), Ok true)
          end
      end
  end.

(** ** Moving *)

(** What [start_probe] does about an address: start over, ask again, or wait. *)
Inductive Attempt := Fresh | AskAgain | Wait.

Definition attempt (t : Z) (probe : option PathProbe) (addr : SocketAddr) : Attempt :=
  match probe with
  | Some p =>
      if bool_decide (pp_addr p = addr) then
        if PROBE_TIMEOUT <? since t (pp_started p) then Fresh else
        if (PATH_PROBES <=? pp_sent p) || (since t (pp_last p) <? PROBE_INTERVAL) then Wait
        else AskAgain
      else Fresh
  | None => Fresh
  end.

(** The challenge the entry's probe asks for, sent to [addr]. *)
Definition send_challenge (e : E) (peer : Z) (entry : PeerEntry) (addr : SocketAddr) (t : Z)
  : E * HostResult unit :=
  let token := match en_probe entry with Some p => pp_token p | None => zeros PATH_TOKEN_LEN end in
  let (p, r) := Peer.challenge (en_peer entry) token (ep_ack e) in
  let entry := set_en_peer entry p in
  let e := set_entry e peer entry in
  let! (e, sealed) := (e, r) in
  let bump q := mkPathProbe (pp_addr q) (pp_token q) (pp_sent q + 1) t (pp_started q) in
  let e := set_entry (set_ep_ack e sealed.1) peer (set_en_probe entry (bump <$> en_probe entry)) in
  let! (e, frame) := (e, slice (ep_ack e) 0 sealed.2) in
  let! (e, _) := send_out e frame addr in
  (stamp_sent e peer, Ok tt).

Definition start_probe (e : E) (peer : Z) (addr : SocketAddr) : E * HostResult unit :=
  match ep_peers e !! peer with
  | None => (e, Ok tt)
  | Some entry =>
      let t := now e in
      match attempt t (en_probe entry) addr with
      | Wait => (e, Ok tt)
      | AskAgain => send_challenge e peer entry addr t
      | Fresh =>
          let (e, token) := draw e PATH_TOKEN_LEN in
          send_challenge e peer (set_en_probe entry (Some (mkPathProbe addr token 0 t t))) addr t
      end
  end.

(** The session that loses its route to one that moved onto it. *)
Definition displace (e : E) (previous : option Z) : E :=
  match previous with
  | None => e
  | Some displaced =>
      match ep_peers e !! displaced with
      | None => e
      | Some entry =>
          let e := set_ep_peers e (delete displaced (ep_peers e)) in
          push_event (unfile_session e (en_session_id entry) displaced) (PeerLost displaced)
      end
  end.

(** The entry once it has moved to [addr]. *)
Definition moved_entry (entry : PeerEntry) (addr : SocketAddr) (t : Z) : PeerEntry :=
  let entry := set_en_probe (set_en_addr entry addr) None in
  let entry := set_en_peer entry (Peer.forget_path (en_peer entry)) in
  match en_pmtu entry with
  | Some pmtu =>
      let pmtu := Pmtu.reset pmtu t in
      set_en_datagram_limit (set_en_pmtu entry (Some pmtu)) (current pmtu)
  | None => entry
  end.

Definition settle_probe (e : E) (peer : Z) (from : SocketAddr) (token : bytes) : E * option Event :=
  match ep_peers e !! peer with
  | None => (e, None)
  | Some entry =>
      match en_probe entry with
      | None => (e, None)
      | Some probe =>
          if bool_decide (pp_addr probe <> from) || bool_decide (pp_token probe <> token)
          then (e, None) else
          let previous := en_addr entry in
          let sid := en_session_id entry in
          let t := now e in
          let e := set_entry e peer (moved_entry entry from t) in
          let e := set_ep_routes e (delete (previous, sid) (ep_routes e)) in
          let displaced := ep_routes e !! (from, sid) in
          let e := set_ep_routes e (<[(from, sid) := peer]> (ep_routes e)) in
          let e := displace e displaced in
          (wake_at e t, Some (PeerMoved peer previous from))
      end
  end.

(** ** Delivery *)

(** What an authenticated frame does to the entry it authenticated to. *)
Definition heard (entry : PeerEntry) (t : Z) : PeerEntry :=
  set_en_handshake_reply (set_en_last_heard (set_en_spoke entry true) t) None.

Definition note_heard (e : E) (peer : Z) (entry : PeerEntry) : E :=
  let first_word := negb (en_spoke entry) in
  let e := set_entry e peer (heard entry (now e)) in
  if first_word && is_some (en_pmtu entry) then wake_at e (now e) else e.

(** [established]: the reply goes out, and an answer to a probe of the path
    MTU counts. *)
Definition on_established (e : E) (peer : Z) (from : SocketAddr) (reply_len : Z) (i : Ingested)
  : E * HostResult unit :=
  let! (e, _) :=
    if 0 <? reply_len then
      let! (e, frame) := (e, slice (ep_ack e) 0 reply_len) in
      let! (e, _) := send_out e frame from in
      (stamp_sent e peer, Ok tt)
    else (e, Ok tt) in
  match i, ep_peers e !! peer with
  | PathValidated token, Some entry =>
      match en_pmtu entry with
      | Some pmtu =>
          let pmtu := fst (Pmtu.answered pmtu token (now e)) in
          (set_entry e peer (set_en_datagram_limit (set_en_pmtu entry (Some pmtu)) (current pmtu)), Ok tt)
      | None => (e, Ok tt)
      end
  | _, _ => (e, Ok tt)
  end.

(** What the application hears of an accepted frame. *)
Definition to_event (e : E) (peer : Z) (i : Ingested) : E * HostResult (option Event) :=
  match i with
  | Rejected | Nothing | PathValidated _ => (e, Ok None)
  | IngestedData n compressed =>
      let! (e, body) := (e, slice (ep_rx e) HEADER_LEN (HEADER_LEN + n)) in
      let staging := zeros (decoded_capacity body compressed) in
      let (scratch, written) := Pipeline.deliver body compressed (ep_scratch e) staging in
      let e := set_ep_scratch e scratch in
      match written with
      | Panic => (e, Panic)
      | Err _ => (e, Ok None)
      | Ok (staging, n) => (e, Ok (Some (Message peer (takez n staging))))
      end
  | IngestedMessage data => (e, Ok (Some (Message peer data)))
  end.

Definition deliver (e : E) (peer : Z) (from : SocketAddr) (established : bool)
  : E * HostResult (option Event) :=
  match ep_peers e !! peer with
  | None => (e, Ok None)
  | Some entry =>
      let '(p, reply, r) := Peer.ingest (en_peer entry) (ep_rx e) (now_ms e) (ep_ack e) in
      let entry := set_en_peer entry p in
      let e := set_ep_ack (set_entry e peer entry) (r_ack reply) in
      let! (e, ingested) := (e, r) in
      let '(i, frame) := ingested in
      let e := set_ep_rx e frame in
      match i with
      | Rejected => (e, Ok None)
      | _ =>
          let e := note_heard e peer entry in
          if established then
            let! (e, _) := on_established e peer from (r_len reply) i in
            to_event e peer i
          else
            match i with
            | PathValidated token => let (e, ev) := settle_probe e peer from token in (e, Ok ev)
            | _ => let! (e, _) := start_probe e peer from in to_event e peer i
            end
      end
  end.

Definition claimed (e : E) (peer : Z) (from : SocketAddr) : bool :=
  match ep_peers e !! peer with
  | None => false
  | Some entry =>
      bool_decide (en_addr entry = from) ||
      match en_probe entry with Some p => bool_decide (pp_addr p = from) | None => false end
  end.

(** The walk over the sessions wearing an identifier: [turns] more of them, the
    next candidate at [at_]. *)
Fixpoint try_candidates (turns : nat) (e : E) (from : SocketAddr) (sid : Z) (at_ : nat)
  : E * HostResult (option Event) :=
  match turns with
  | O => (e, Ok None)
  | S turns =>
      match ep_by_session e !! sid ≫= fun sharing => sharing !! at_ with
      | None => (e, Ok None)
      | Some peer =>
          let (e, may) := may_try_unknown_address e peer in
          if negb may then try_candidates turns e from sid (S at_) else
          let! (e, ev) := deliver e peer from false in
          match ev with
          | Some ev => (e, Ok (Some ev))
          | None => if claimed e peer from then (e, Ok None)
                    else try_candidates turns e from sid (S at_)
          end
      end
  end.

Definition route (e : E) (from : SocketAddr) (sid : Z) : E * HostResult (option Event) :=
  match ep_routes e !! (from, sid) with
  | Some peer => deliver e peer from true
  | None => try_candidates (Z.to_nat MAX_CANDIDATES) e from sid 0
  end.

(** ** Answering handshakes *)

(** The part the two kinds of handshake share: the response goes out, the
    session is filed, and the response is kept for a client that asks again. *)
Definition establish (e : E) (from : SocketAddr) (zero_rtt : bytes) (resumed : bool)
    (written : Result (Session * bytes * Z)) : E * HostResult Event :=
  let! (e, v) := (e, map_err Protocol written) in
  let '(session, tx, sent) := v in
  let e := set_ep_tx e tx in
  let! (e, reply) := (e, slice (ep_tx e) 0 sent) in
  let! (e, _) := send_out e reply from in
  let (e, ev) := register e session from zero_rtt resumed in
  (remember_reply e ev reply, Ok ev).

Definition accept_full (e : E) (from : SocketAddr) : E * HostResult Event :=
  match ep_mode e with
  | PskMode _ => (e, Err Handshake)
  | PublicKeyMode key =>
      let responder := Responder.new key (local_capabilities (ep_world e)) in
      let staging := zeros (ep_rx_size e) in
      let (responder, r) := Responder.read_init responder (ep_rx e) staging in
      let! (e, v) := (e, map_err Protocol r) in
      let! (e, zero_rtt) := (e, slice v.1 0 v.2) in
      let (e, random) := draw e DHLEN in
      establish e from zero_rtt false
        (Responder.write_response responder random (ep_handshake_reply e) (ep_tx e))
  end.

(** An earned ticket is spent as soon as it is found; a configured key is not. *)
Definition find_ticket (e : E) (id : bytes) : E * option (ResumptionTicket * bytes) :=
  let earned :=
    let (tickets, found) := TicketStore.take (ep_tickets e) id (now e) in
    (set_ep_tickets e tickets, found) in
  match ep_mode e with
  | PskMode psk => if bool_decide (ticket_id psk = id) then (e, Some (psk, ANONYMOUS)) else earned
  | PublicKeyMode _ => earned
  end.

Definition accept_resumed (e : E) (from : SocketAddr) : E * HostResult Event :=
  let! (e, id) := (e, map_err Protocol (ResumeResponder.ticket_id (ep_rx e))) in
  let (e, found) := find_ticket e id in
  let! (e, pair) := (e, ok_or found UnknownTicket) in
  let responder := ResumeResponder.new (local_capabilities (ep_world e)) pair.2 in
  let staging := zeros (ep_rx_size e) in
  let (responder, r) := ResumeResponder.read_init responder pair.1 (ep_rx e) staging in
  let! (e, v) := (e, map_err Protocol r) in
  let! (e, zero_rtt) := (e, slice v.1 0 v.2) in
  let (e, random) := draw e DHLEN in
  establish e from zero_rtt true
    (ResumeResponder.write_response responder random (ep_handshake_reply e) (ep_tx e)).

(** [.map(Some).or(Ok(None))]. *)
Definition or_none (er : E * HostResult Event) : E * HostResult (option Event) :=
  (er.1, match er.2 with Ok ev => Ok (Some ev) | Err _ => Ok None | Panic => Panic end).

Definition opens_handshake (t : FrameType) : bool :=
  match t with HandshakeInit | ResumeInit => true | _ => false end.

(** The arms of [dispatch] once the frame has passed its guards. *)
Definition dispatch_frame (e : E) (from : SocketAddr) (header : Header)
  : E * HostResult (option Event) :=
  match frame_type header with
  | HandshakeInit =>
      match ep_mode e with
      | PublicKeyMode _ => or_none (accept_full e from)
      | PskMode _ => (e, Ok None)
      end
  | ResumeInit => or_none (accept_resumed e from)
  | HandshakeResponse | ResumeResponse => complete_outbound e from (session_id header)
  | _ => route e from (session_id header)
  end.

(** Nobody is waiting on a relay. *)
Definition no_introductions (e : E) : bool :=
  bool_decide (rv_asks (ep_rv e) = ∅) && bool_decide (rv_relayed (ep_rv e) = ∅).

Definition dispatch (e : E) (from : SocketAddr) : E * HostResult (option Event) :=
  if bool_decide (head (ep_rx e) = Some NOT_A_FRAME) then
    (if no_introductions e then e else not_a_frame e from, Ok None)
  else
  match Header.decode (ep_rx e) with
  | Panic => (e, Panic)
  | Err _ => (e, Ok None)
  | Ok header =>
      if negb (opens_handshake (frame_type header)) then dispatch_frame e from header else
      let! (e, repeated) := repeat_handshake e from (session_id header) in
      if repeated then (e, Ok None) else
      let (e, may) := may_answer_handshake e in
      if may then dispatch_frame e from header else (e, Ok None)
  end.

(** ** The poll loop *)

Definition pop_event (e : E) : E * option Event :=
  match ep_events e with
  | [] => (e, None)
  | ev :: events => (set_ep_events e events, Some ev)
  end.

(** The time-driven passes, in the loop's order. *)
Definition drive (e : E) : E * HostResult (option Event) :=
  let! (e, _) := drive_retransmits e in
  let! (e, ev) := drive_handshakes e in
  match ev with
  | Some ev => (e, Ok (Some ev))
  | None =>
      let e := drive_liveness e in
      let! (e, _) := drive_keepalives e in
      let e := drive_pmtu e in
      (set_ep_next_wake e (earliest_deadline e), Ok None)
  end.

Definition past (e : E) (at_ : option Z) : bool :=
  match at_ with Some at_ => at_ <=? now e | None => false end.

(** Everything before the socket is read: an event that ends the loop, or none. *)
Definition before_recv (e : E) : E * HostResult (option Event) :=
  let! (e, ev) := if past e (ep_next_wake e) then drive e else (e, Ok None) in
  match ev with
  | Some ev => (e, Ok (Some ev))
  | None =>
      let! (e, _) := if 0 <? ep_queueing e then drive_queues e else (e, Ok tt) in
      let (e, ev) := pop_event e in (e, Ok ev)
  end.

(** How long to wait: the caller's deadline or the next timer, at least a
    millisecond. *)
Definition wait_for (e : E) (deadline : option Z) : option Z :=
  let until at_ := saturating_sub at_ (now e) in
  Z.max 1 <$> Pmtu.min_list (option_list (until <$> deadline) ++ option_list (until <$> ep_next_wake e)).

(** One turn of [poll_once]'s loop: [Ok None] is to go round again. *)
Definition poll_turn (deadline : option Z) (e : E) : E * HostResult (option Event) :=
  let! (e, ev) := before_recv e in
  match ev with
  | Some ev => (e, Ok (Some ev))
  | None =>
      let (w, received) := net_recv (ep_world e) (ep_rx_size e) (wait_for e deadline) in
      let e := set_ep_world e w in
      let! (e, ev) :=
        match received with
        | inl (datagram, from) => dispatch (set_ep_rx e datagram) from
        | inr err =>
            if is_stale_unreachable err then (e, Ok None) else
            if is_timeout err
            then (e, Ok (if past e deadline || negb (is_some deadline) then Some Idle else None))
            else (e, Err Io)
        end in
      match ev with
      | Some ev => (e, Ok (Some ev))
      | None => (e, Ok (if past e deadline then Some Idle else None))
      end
  end.

(** At most [fuel] turns; [Ok None] means none of them ended the loop. *)
Fixpoint poll_once_loop (fuel : nat) (deadline : option Z) (e : E) : E * HostResult (option Event) :=
  match fuel with
  | O => (e, Ok None)
  | S fuel =>
      let! (e, ev) := poll_turn deadline e in
      match ev with
      | Some ev => (e, Ok (Some ev))
      | None => poll_once_loop fuel deadline e
      end
  end.

Definition poll_once (fuel : nat) (timeout : option Z) (e : E) : E * HostResult (option Event) :=
  poll_once_loop fuel (Z.add (now e) <$> timeout) e.

(** How one turn of [poll]'s loop ends. *)
Inductive Step := Returns (ev : Event) | Again | OutOfFuel.

Definition intercepted (er : E * option Event) : E * Step :=
  (er.1, match er.2 with Some ev => Returns ev | None => Again end).

(** The wait [poll] gives [poll_once]. *)
Definition poll_wait (e : E) (deadline : option Z) : option Z :=
  let until at_ := saturating_sub at_ (now e) in
  Pmtu.min_list (option_list (until <$> deadline)
              ++ option_list (until <$> next_introduction_deadline e)).

(** One turn of [poll]'s loop, with [fuel] for the one inside it. *)
Definition poll_step (fuel : nat) (deadline : option Z) (e : E) : E * HostResult Step :=
  let e := if no_introductions e then e else drive_introductions e in
  let (e, queued) := pop_event e in
  match queued with
  | Some ev => let (e, s) := intercepted (intercept e ev) in (e, Ok s)
  | None =>
      let! (e, ev) := poll_once fuel (poll_wait e deadline) e in
      match ev with
      | None => (e, Ok OutOfFuel)
      | Some ev =>
          let (e, s) := match ev with Idle => (e, Again) | _ => intercepted (intercept e ev) end in
          match s with
          | Again => (e, Ok (if past e deadline then Returns Idle else Again))
          | s => (e, Ok s)
          end
      end
  end.

Fixpoint poll_loop (fuel : nat) (deadline : option Z) (e : E) : E * HostResult (option Event) :=
  match fuel with
  | O => (e, Ok None)
  | S fuel =>
      let! (e, s) := poll_step fuel deadline e in
      match s with
      | Returns ev => (e, Ok (Some ev))
      | Again => poll_loop fuel deadline e
      | OutOfFuel => (e, Ok None)
      end
  end.

Definition poll (fuel : nat) (timeout : option Z) (e : E) : E * HostResult (option Event) :=
  poll_loop fuel (Z.add (now e) <$> timeout) e.
End receive.
End EndpointReceive.
