(* ===== verification/EndpointFrame.v ===== *)
(** * What the endpoint's operations leave alone (crates/fectp/src/endpoint.rs)

    Two facts about every operation that does not file or release a session:
    what it hands to the socket, and that the tables naming the peers are as
    they were. [sent l w w'] says [w'] is [w] after the datagrams [l] were
    handed to the socket, with draws from the generator between them. [calm P]
    adds that they all went to addresses satisfying [P] and that who the peers
    are, where they are and how they are indexed did not change. *)
From stdpp Require Import gmap.
From S2P Require Import Prelude Bytes Error Float Frame Fragment Codec Reliability RetransmitQueue.
From S2P Require Import Cipher Symmetric Handshake Session Connect Compress Reassembly Tickets Pmtu.
From S2P Require Import Pipeline Control Udp EndpointState Endpoint EndpointReceive.
Import Endpoint EndpointReceive.

(** ** Threading a relation through [let!] *)
Lemma bind_keeps {S A B F : Type} (R : S -> S -> Prop) `{!Transitive R} (s : S)
    (m : S * result F A) (k : S -> A -> S * result F B) :
  R s m.1 -> (forall s' a, R s s' -> R s' (k s' a).1) ->
  R s (let! (s', a) := m in k s' a).1.
Proof.
  destruct m as [s1 [a|f|]]; cbn; intros Hm Hk; [|done..]. etrans; [exact Hm|]. by apply Hk.
Qed.

(** ** Who a session is with never changes *)
Definition identity (s : Session) : Z * bytes * Capabilities :=
  (s_session_id s, s_remote_static s, s_peer_caps s).

Definition same_identity (s s' : Session) : Prop := identity s' = identity s.
#[global] Instance same_identity_preorder : PreOrder same_identity.
Proof. split; [done|]. intros ??? H1 H2. unfold same_identity in *. by rewrite H2. Qed.

Create HintDb keeps discriminated.

(** Walk down a computation threading a state of relation [R]. *)
Ltac keeps_step :=
  lazymatch goal with
  | |- ?R ?s (_, _).1 => cbn [fst]
  | |- ?R ?s (match ?x with _ => _ end).1 =>
      lazymatch type of x with
      | prod _ _ => first [is_var x; destruct x | refine (bind_keeps R s _ _ _ _); [|intros ???]]
      | _ => destruct x eqn:?
      end
  end.
Ltac keeps := repeat first [solve [reflexivity] | solve [auto with keeps] | keeps_step].

(** Take apart the pair a call returns, knowing what [lem] says of its state. *)
Ltac via lem :=
  match goal with
  | |- context [let (_, _) := ?m in _] =>
      let H := fresh "Hk" in
      eassert ((_ : _ -> Prop) (fst m)) as H by (apply lem);
      destruct m eqn:?; cbn [fst] in H
  end.

Section sessions.
Context `{Crypto} `{ZstdLib}.

Lemma advance_send_identity n s : same_identity s (Session.advance_send n s).1.
Proof.
  revert s. induction n as [|n IH]; intros s; cbn; keeps. etrans; [|apply IH]. done.
Qed.
#[local] Hint Resolve advance_send_identity : keeps.

Lemma seal_frame_padded_identity s t payload mid frag fl padding out :
  same_identity s (Session.seal_frame_padded s t payload mid frag fl padding out).1.
Proof. unfold Session.seal_frame_padded. keeps. Qed.
#[local] Hint Resolve seal_frame_padded_identity : keeps.

Lemma seal_ack_identity s a out : same_identity s (Session.seal_ack s a out).1.
Proof. unfold Session.seal_ack. keeps. unfold Session.seal_frame. keeps. Qed.

Lemma seal_session_identity s payload mid frag fl tx :
  same_identity s (Peer.seal_session s payload mid frag fl tx).1.
Proof.
  unfold Peer.seal_session, Session.seal_fragment, Session.seal_reliable, Session.seal, Session.seal_frame.
  destruct mid; [destruct frag|]; via seal_frame_padded_identity; done.
Qed.

Lemma open_identity s frame : same_identity s (Session.open s frame).1.
Proof. unfold Session.open. keeps. all: repeat case_match; done. Qed.

(** ** Peers *)
Definition same_peer (p p' : Peer) : Prop := same_identity (p_session p) (p_session p').
#[global] Instance same_peer_preorder : PreOrder same_peer.
Proof. split; [done|]. intros ??? H1 H2. unfold same_peer in *. by etrans. Qed.

Lemma attempt_coding_peer p data pt must : same_peer p (Peer.attempt_coding p data pt must).1.
Proof. unfold Peer.attempt_coding. repeat case_match; done. Qed.
#[local] Hint Resolve attempt_coding_peer : keeps.

Lemma seal_peer p data pt mid frag limit tx : same_peer p (Peer.seal p data pt mid frag limit tx).1.
Proof.
  unfold Peer.seal. keeps; try done; via seal_session_identity; done.
Qed.

Lemma challenge_peer p token out : same_peer p (Peer.challenge p token out).1.
Proof. unfold Peer.challenge, Session.seal_path_challenge. by via seal_frame_padded_identity. Qed.

Lemma probe_peer p token size out : same_peer p (Peer.probe p token size out).1.
Proof.
  unfold Peer.probe, Session.seal_path_probe. zcase; [done|]. by via seal_frame_padded_identity.
Qed.

Lemma queue_message_peer p data pt limit : same_peer p (Peer.queue_message p data pt limit).1.
Proof. unfold Peer.queue_message. repeat case_match; done. Qed.

Lemma apply_ack_peer p a t : same_peer p (Peer.apply_ack p a t).
Proof.
  unfold Peer.apply_ack. destruct RetransmitQueue.on_ack as [[q acked] n].
  assert (forall l p0, same_peer p p0 ->
    same_peer p (fold_left (fun p id => Peer.with_pending p (filter (fun pd => pd_id pd <> id) (p_pending p))) l p0))
    as Hf by (induction l; cbn; eauto).
  by apply Hf.
Qed.

Lemma ingest_fragment_peer p f body c : same_peer p (Peer.ingest_fragment p f body c).1.
Proof. unfold Peer.ingest_fragment. repeat case_match; done. Qed.

Lemma ingest_peer p frame t ack : same_peer p (Peer.ingest p frame t ack).1.1.
Proof.
  unfold Peer.ingest, Session.seal_path_response. via open_identity.
  assert (Hp : same_peer p (Peer.with_session p s)) by done.
  destruct r as [[o f]|e|]; [|done..].
  repeat case_match; simplify_eq; cbn [fst]; try done.
  all: repeat match goal with
    | E : Session.seal_frame_padded ?s ?t ?pl ?m ?fr ?fl ?pd ?out = _ |- _ =>
        assert (Hs := seal_frame_padded_identity s t pl m fr fl pd out); rewrite E in Hs; clear E
    | E : Session.seal_ack ?s ?a ?out = _ |- _ =>
        assert (Hs := seal_ack_identity s a out); rewrite E in Hs; clear E
    | E : Peer.ingest_fragment ?q ?fr ?b ?c = _ |- _ =>
        assert (Hf := ingest_fragment_peer q fr b c); rewrite E in Hf; clear E
    end; unfold same_peer, same_identity in *; cbn in *; try congruence.
  by rewrite (apply_ack_peer _ _ _).
Qed.
End sessions.

(** ** The driving passes of a peer

    Whatever relation the send callback keeps on its world, so do they. *)
Section drivers.
Context `{Crypto} `{ZstdLib} {T : Type} (send : T -> bytes -> T * HostResult unit).
Context (R : T -> T -> Prop) `{!PreOrder R} (send_R : forall w f, R w (send w f).1).

Definition steered (d d' : Driving T) : Prop :=
  R (d_world d) (d_world d') /\ same_peer (d_peer d) (d_peer d').

#[local] Instance steered_preorder : PreOrder steered.
Proof.
  split; [done|]. intros ??? [??] [??]. split; by etrans.
Qed.

Lemma seal_and_send_steered d data pt mid frag limit :
  steered d (Peer.seal_and_send send d data pt mid frag limit).1.
Proof.
  unfold Peer.seal_and_send. via seal_peer. destruct r as [[tx n]|e|]; [|done..]. cbn.
  destruct (slice _ _ _) as [frame|e|]; [|done..].
  specialize (send_R (d_world d) frame). by destruct (send _ _).
Qed.
#[local] Hint Resolve seal_and_send_steered : keeps.

Lemma feed_one_steered d job rest id : steered d (Peer.feed_one send d job rest id).1.
Proof. unfold Peer.feed_one. by keeps. Qed.
#[local] Hint Resolve feed_one_steered : keeps.

Lemma feed_steered fuel t d job rest : steered d (Peer.feed send fuel t d job rest).1.
Proof.
  revert d job. induction fuel as [|fuel IH]; intros d job; cbn [Peer.feed]; [done|].
  case_match; [done|]. destruct RetransmitQueue.register as [q r].
  destruct r as [id|e|]; [|by repeat case_match|done].
  keeps. by etrans; [|apply feed_one_steered].
Qed.

Lemma drive_queue_steered d t : steered d (Peer.drive_queue send d t).1.
Proof.
  unfold Peer.drive_queue. destruct (p_queue _) as [|job rest]; [done|].
  refine (bind_keeps _ _ _ _ _ _); [by etrans; [|apply feed_steered]|].
  intros. by case_match.
Qed.

Lemma drive_items_steered items d : steered d (Peer.drive_items send d items).1.
Proof.
  revert d. induction items as [|[id|id] items IH]; intros d; cbn [Peer.drive_items]; [done|..].
  - keeps. unfold Peer.resend. case_match; [|done]. case_match. keeps.
  - by etrans; [|apply IH].
Qed.

Lemma drive_retransmits_steered d t : steered d (Peer.drive_retransmits send d t).1.
Proof.
  unfold Peer.drive_retransmits. repeat case_match. by etrans; [|apply drive_items_steered].
Qed.
End drivers.

(** ** The world *)
Section world.
Context {W : Type} `{Net W}.

Inductive sent : list (bytes * SocketAddr) -> W -> W -> Prop :=
| sent_nil w : sent [] w w
| sent_send w b a l w' : sent l (net_send w b a).1 w' -> sent ((b, a) :: l) w w'
| sent_random w n l w' : sent l (net_random w n).1 w' -> sent l w w'.

Lemma sent_app l1 l2 w w1 w2 : sent l1 w w1 -> sent l2 w1 w2 -> sent (l1 ++ l2) w w2.
Proof. induction 1; intros; cbn; [done|constructor; auto|eapply sent_random; auto]. Qed.

Lemma sent_one w b a : sent [(b, a)] w (net_send w b a).1.
Proof. repeat constructor. Qed.

Lemma sent_draw w n : sent [] w (net_random w n).1.
Proof. eapply sent_random. constructor. Qed.

(** Everything sent went to an address satisfying [P]. *)
Definition sent_to (P : SocketAddr -> Prop) (w w' : W) : Prop :=
  exists l, sent l w w' /\ Forall (fun m => P m.2) l.

#[global] Instance sent_to_preorder P : PreOrder (sent_to P).
Proof.
  split; [exists []; repeat constructor|].
  intros ??? (l1 & ? & ?) (l2 & ? & ?). exists (l1 ++ l2).
  split; [by eapply sent_app|by apply Forall_app].
Qed.

Lemma sent_to_one (P : SocketAddr -> Prop) w b a : P a -> sent_to P w (net_send w b a).1.
Proof. intros. exists [(b, a)]. split; [apply sent_one|]. by repeat constructor. Qed.

Lemma sent_to_draw P w n : sent_to P w (net_random w n).1.
Proof. exists []. split; [apply sent_draw|constructor]. Qed.

Lemma send_datagram_world w buf addr : (send_datagram w buf addr).1 = (net_send w buf addr).1.
Proof. unfold send_datagram. destruct (net_send _ _ _) as [w' [e|]]; by repeat case_match. Qed.
End world.

(** ** The tables *)
Record Who := mkWho { who_addr : SocketAddr; who_session : Z; who_key : bytes }.

Definition who (en : PeerEntry) : Who :=
  mkWho (en_addr en) (en_session_id en) (s_remote_static (p_session (en_peer en))).

(** What names the peers: who they are, whom handshakes were started with,
    the two indexes, the next identifier, and the budget new ones come from. *)
Record Tables := mkTables {
  tb_who : gmap Z Who;
  tb_started : gmap Z SocketAddr;
  tb_routes : gmap (SocketAddr * Z) Z;
  tb_sessions : gmap Z (list Z);
  tb_next : Z;
  tb_max : Z;
  tb_budget : Bucket;
  tb_rate : Z;
}.

Section calm.
Context {W K : Type} `{Net W} `{StaticKey K} `{Crypto} `{ZstdLib}.
Local Abbreviation E := (Endpoint W K).

Definition tables (e : E) : Tables :=
  mkTables (who <$> ep_peers e) (ob_addr <$> ep_outbound e) (ep_routes e) (ep_by_session e)
    (ep_next_id e) (ep_max_peers e) (ep_handshakes e) (ep_handshake_rate e).

(** [P] holds of every address on file. *)
Definition covers (P : SocketAddr -> Prop) (e : E) : Prop :=
  (forall id x, tb_who (tables e) !! id = Some x -> P (who_addr x)) /\
  (forall id a, tb_started (tables e) !! id = Some a -> P a).

Definition calm (P : SocketAddr -> Prop) (e e' : E) : Prop :=
  sent_to P (ep_world e) (ep_world e') /\ tables e' = tables e /\ rv_asks (ep_rv e') = rv_asks (ep_rv e).

#[global] Instance calm_preorder P : PreOrder (calm P).
Proof.
  split; [by split|]. intros ??? (? & E1 & A1) (? & E2 & A2). split; [by etrans|]. by rewrite E2, A2.
Qed.

Lemma calm_covers P Q e e' : calm P e e' -> covers Q e -> covers Q e'.
Proof. intros (_ & E & _). unfold covers. by rewrite E. Qed.

Lemma covers_peer P e id en : covers P e -> ep_peers e !! id = Some en -> P (en_addr en).
Proof. intros [Hc _] Hid. apply (Hc id (who en)). cbn. by rewrite lookup_fmap, Hid. Qed.

Lemma covers_started P e id o : covers P e -> ep_outbound e !! id = Some o -> P (ob_addr o).
Proof. intros [_ Hc] Hid. apply (Hc id). cbn. by rewrite lookup_fmap, Hid. Qed.

Lemma tables_set_entry (e : E) id en en' :
  ep_peers e !! id = Some en -> who en' = who en -> tables (set_entry e id en') = tables e.
Proof.
  intros Hid Hw. unfold tables, set_entry. cbn. f_equal.
  rewrite fmap_insert, Hw. apply insert_id. by rewrite lookup_fmap, Hid.
Qed.

Lemma calm_set_entry P (e : E) id en en' :
  ep_peers e !! id = Some en -> who en' = who en -> calm P e (set_entry e id en').
Proof. intros. split; [done|]. split; [by eapply tables_set_entry|done]. Qed.

Lemma who_set_peer en p : same_peer (en_peer en) p -> who (set_en_peer en p) = who en.
Proof. unfold same_peer, same_identity, identity. intros E. unfold who. cbn. congruence. Qed.

Lemma calm_set_peer P (e : E) id en p :
  ep_peers e !! id = Some en -> same_peer (en_peer en) p -> calm P e (set_entry e id (set_en_peer en p)).
Proof. intros. eapply calm_set_entry; [done|]. by apply who_set_peer. Qed.

Lemma send_out_calm P e buf addr : P addr -> calm P e (send_out e buf addr).1.
Proof.
  intros. unfold send_out. pose proof (send_datagram_world (ep_world e) buf addr) as Hw.
  destruct send_datagram. cbn in *. subst. split; [by apply sent_to_one|done].
Qed.

Lemma send_anyway_calm P e buf addr : P addr -> calm P e (send_anyway e buf addr).1.
Proof.
  intros Ha. unfold send_anyway. assert (Hs := sent_to_one P (ep_world e) buf addr Ha).
  destruct (net_send _ _ _). by split.
Qed.

Lemma draw_calm P e n : calm P e (draw e n).1.
Proof. unfold draw. assert (Hs := sent_to_draw P (ep_world e) n). destruct (net_random _ _). by split. Qed.

Lemma stamp_sent_calm P e id : calm P e (stamp_sent e id).
Proof. unfold stamp_sent. destruct (ep_peers e !! id) eqn:Hid; [|done]. by eapply calm_set_entry. Qed.
#[local] Hint Resolve send_out_calm send_anyway_calm draw_calm stamp_sent_calm : keeps.

Lemma calm_same P (e e' : E) :
  ep_world e' = ep_world e -> tables e' = tables e -> rv_asks (ep_rv e') = rv_asks (ep_rv e) -> calm P e e'.
Proof. intros E1 E2 E3. split; [by rewrite E1|done]. Qed.

Lemma seal_to_calm P e id en data pt mid :
  ep_peers e !! id = Some en -> P (en_addr en) -> calm P e (seal_to e id en data pt mid).1.
Proof.
  intros Hid Ha. unfold seal_to. via seal_peer.
  etrans; [eapply calm_set_entry; [exact Hid|by apply who_set_peer]|].
  destruct r as [[tx n]|e0|]; [|done..]. cbn [fst snd].
  destruct (slice _ _ _); [|done..]. etrans; [|by apply send_out_calm]. by apply calm_same.
Qed.

Lemma send_calm P e id data pt : covers P e -> calm P e (send e id data pt).1.
Proof.
  intros Hc. unfold send. destruct (ep_peers e !! id) as [en|] eqn:Hid; [|done]. cbn [ok_or].
  keeps. apply seal_to_calm; [done|by eapply covers_peer].
Qed.

Definition wire_to (P : SocketAddr -> Prop) (s s' : Wire) : Prop := sent_to P (wi_world s) (wi_world s').
#[local] Instance wire_to_preorder P : PreOrder (wire_to P).
Proof. split; unfold wire_to; [by intros ?|]. intros ???. apply transitivity. Qed.

Lemma wire_send_to (P : SocketAddr -> Prop) addr (s : Wire) frame :
  P addr -> wire_to P s (wire_send addr s frame).1.
Proof.
  intros Ha. unfold wire_send, wire_to. pose proof (send_datagram_world (wi_world s) frame addr) as Hw.
  destruct (send_datagram _ _ _) as [w [[]|e|]]; cbn in *; subst; by apply sent_to_one.
Qed.

(** A pass of a peer's driver, put back into the endpoint. *)
Lemma driven_calm P (e : E) id en d :
  ep_peers e !! id = Some en ->
  steered (wire_to P) (mkDriving (en_peer en) (mkWire (ep_world e) (en_last_sent en) false false) (ep_tx e)) d ->
  calm P e (driven e id en d).
Proof.
  intros Hid [Hw Hp]. split; [exact Hw|]. split; [|done]. unfold driven. etrans; [eapply tables_set_entry; [exact Hid|]|done].
  unfold driven_entry. by rewrite <- (who_set_peer en (d_peer d)).
Qed.

Lemma drive_queue_of_calm P e t id : covers P e -> calm P e (drive_queue_of e t id).1.
Proof.
  intros Hc. unfold drive_queue_of. destruct (ep_peers e !! id) as [en|] eqn:Hid; [|done].
  assert (Ha : P (en_addr en)) by (by eapply covers_peer).
  via (drive_queue_steered _ (wire_to P) (fun w f => wire_send_to P _ w f Ha)).
  apply (driven_calm P e id) in Hk; [|done]. etrans; [exact Hk|]. repeat case_match; by apply calm_same.
Qed.

Lemma for_peers_calm P f e ids :
  (forall e id, covers P e -> calm P e (f e id).1) -> covers P e -> calm P e (for_peers f e ids).1.
Proof.
  intros Hf. revert e. induction ids as [|id ids IH]; intros e Hc; cbn [for_peers]; [done|].
  refine (bind_keeps _ _ _ _ _ _); [auto|]. intros e1 _ Hs. apply IH. by eapply calm_covers.
Qed.

Lemma drive_queues_calm P e : covers P e -> calm P e (drive_queues e).1.
Proof.
  intros. unfold drive_queues. refine (bind_keeps _ _ _ _ _ _).
  - apply for_peers_calm; [|done]. intros. by apply drive_queue_of_calm.
  - intros. by apply calm_same.
Qed.
#[local] Hint Resolve drive_queues_calm : keeps.

Lemma send_reliable_calm P e id data pt : covers P e -> calm P e (send_reliable e id data pt).1.
Proof.
  intros Hc. unfold send_reliable. destruct (ep_peers e !! id) as [en|] eqn:Hid; [|done].
  assert (Ha : P (en_addr en)) by (by eapply covers_peer). cbn [ok_or].
  case_match; [case_match; [done|]|].
  - destruct RetransmitQueue.register as [q r].
    set (en' := set_en_peer en _). assert (Hw : who en' = who en) by done.
    assert (Hs : calm P e (set_entry e id en')) by (by eapply calm_set_entry).
    etrans; [exact Hs|]. destruct r as [n|?|]; [|done..]. cbn [map_err].
    refine (bind_keeps _ _ _ _ _ _).
    { apply seal_to_calm; [apply lookup_insert_eq|]. done. }
    intros e1 _ _. etrans; [apply (stamp_sent_calm _ _ id)|]. set (e2 := stamp_sent e1 id). clearbody e2.
    destruct (ep_peers e2 !! id) as [en2|] eqn:Hid2; [|done]. cbn [ok_or].
    set (en3 := set_en_peer en2 _). trans (set_entry e2 id en3); [by eapply calm_set_entry|].
    case_match; [|done]. by apply calm_same.
  - via queue_message_peer. assert (calm P e (set_entry e id (set_en_peer en p))) by (by apply calm_set_peer). etrans; [eassumption|].
    set (e1 := set_entry _ _ _). assert (covers P e1) by (by eapply calm_covers).
    destruct r as [[]|?|]; [|done..]. refine (bind_keeps _ _ _ _ _ _); [|intros; by apply calm_same].
    etrans; [|apply drive_queues_calm; done]. by apply calm_same.
Qed.

Lemma hasten_refresh_calm P e id : calm P e (hasten_refresh e id).
Proof. unfold hasten_refresh. repeat case_match; by apply calm_same. Qed.

Lemma drive_retransmits_of_calm P e t id : covers P e -> calm P e (drive_retransmits_of e t id).1.
Proof.
  intros Hc. unfold drive_retransmits_of. destruct (ep_peers e !! id) as [en|] eqn:Hid; [|done].
  assert (Ha : P (en_addr en)) by (by eapply covers_peer).
  via (drive_retransmits_steered _ (wire_to P) (fun w f => wire_send_to P _ w f Ha)).
  apply (driven_calm P e id) in Hk; [|done]. etrans; [exact Hk|].
  assert (Hl : ep_peers (driven e id en d) !! id = Some (driven_entry en d)) by apply lookup_insert_eq.
  destruct r as [[]|?|]; [|done..]. cbn zeta. 
  match goal with |- context [set_entry (driven e id en d) id ?x] => set (en1 := x) end.
  assert (Hw : who en1 = who (driven_entry en d)) by (unfold en1; by repeat case_match).
  assert (Hs : calm P (driven e id en d) (set_entry (driven e id en d) id en1)) by (by eapply calm_set_entry).
  etrans; [exact Hs|]. set (e1 := set_entry _ id en1).
  match goal with |- context [if ?c then hasten_refresh e1 id else e1] =>
    set (e2 := if c then hasten_refresh e1 id else e1) end.
  assert (H2e : calm P e1 e2) by (unfold e2; case_match; [apply hasten_refresh_calm|done]).
  etrans; [exact H2e|].
  assert (Hl2 : ep_peers e2 !! id = Some en1).
  { unfold e2, hasten_refresh. repeat case_match; apply lookup_insert_eq. }
  cbn [fst]. trans (set_entry e2 id (set_en_peer en1
    (Peer.with_abandoned (en_peer en1) (p_abandoned (en_peer en1)) 0 (p_abandoned_count (en_peer en1))))).
  - by apply calm_set_peer.
  - by apply calm_same.
Qed.

Lemma drive_retransmits_calm P e : covers P e -> calm P e (drive_retransmits e).1.
Proof. intros. apply for_peers_calm; [|done]. intros. by apply drive_retransmits_of_calm. Qed.

Lemma send_keepalive_calm P e id : covers P e -> calm P e (send_keepalive e id).1.
Proof.
  intros Hc. unfold send_keepalive. destruct (ep_peers e !! id) as [en|] eqn:Hid; [|done].
  assert (Ha : P (en_addr en)) by (by eapply covers_peer).
  assert (Hp : ep_peers (draw e PATH_TOKEN_LEN).1 = ep_peers e) by (unfold draw; by destruct net_random).
  via (draw_calm P). cbn in Hp. etrans; [exact Hk|]. via challenge_peer.
  etrans; [apply (calm_set_peer P e0 id en p); [by rewrite Hp|done]|].
  destruct r as [[ack n]|?|]; [|done..]. cbn [fst snd]. destruct (slice _ _ _); [|done..].
  refine (bind_keeps _ _ _ _ _ _); [|intros; apply stamp_sent_calm].
  etrans; [|by apply send_out_calm]. by apply calm_same.
Qed.

Lemma drive_keepalives_calm P e : covers P e -> calm P e (drive_keepalives e).1.
Proof.
  intros. unfold drive_keepalives. case_match; [|done].
  apply for_peers_calm; [|done]. intros. by apply send_keepalive_calm.
Qed.

Lemma draw_tokens_sent P (w : W) sizes : sent_to P w (draw_tokens w sizes).1.
Proof.
  revert w. induction sizes as [|n sizes IH]; intros w; cbn; [done|].
  assert (Hs := sent_to_draw P w PATH_TOKEN_LEN). destruct (net_random _ _) as [w1 tok].
  specialize (IH w1). destruct (draw_tokens _ _). by etrans.
Qed.

Lemma send_probe_calm P e id t s : covers P e -> calm P e (send_probe e id t s).
Proof.
  intros Hc. unfold send_probe. destruct (ep_peers e !! id) as [en|] eqn:Hid; [|done].
  assert (Ha : P (en_addr en)) by (by eapply covers_peer).
  via probe_peer. assert (Hs : calm P e (set_entry e id (set_en_peer en p))) by (by apply calm_set_peer).
  etrans; [exact Hs|]. destruct r as [[tx n]|?|]; [|done..].
  set (e1 := set_ep_tx _ tx). trans e1; [by apply calm_same|].
  assert (Hl : ep_peers (send_anyway e1 (takez n tx) (en_addr en)).1 !! id = Some (set_en_peer en p)).
  { unfold send_anyway. destruct net_send. apply lookup_insert_eq. }
  assert (H2s := send_anyway_calm P e1 (takez n tx) (en_addr en) Ha).
  cbn [en_addr set_en_peer]. destruct send_anyway as [e2 went]. cbn in Hl, H2s.
  case_match; [|done]. etrans; [exact H2s|]. by eapply calm_set_entry.
Qed.

Lemma fold_calm {A} P f (l : list A) e :
  (forall e x, covers P e -> calm P e (f e x)) -> covers P e -> calm P e (fold_left f l e).
Proof.
  intros Hf. revert e. induction l as [|x l IH]; intros e Hc; cbn; [done|].
  etrans; [by apply Hf|]. apply IH. eapply calm_covers; [by apply (Hf e x)|done].
Qed.

Lemma drive_pmtu_of_calm P t e id : covers P e -> calm P e (drive_pmtu_of t e id).
Proof.
  intros Hc. unfold drive_pmtu_of. destruct (ep_peers e !! id) as [en|] eqn:Hid; [|done].
  case_match; [done|]. destruct (en_pmtu en); [|done].
  assert (Hs := draw_tokens_sent P (ep_world e) (search_sizes p t)).
  destruct (draw_tokens _ _) as [w tokens]. destruct Pmtu.due as [pm sends].
  assert (H1e : calm P e (set_entry (set_ep_world e w) id
    (set_en_datagram_limit (set_en_pmtu en (Some pm)) (current pm)))).
  { trans (set_ep_world e w); [by split|]. by eapply calm_set_entry. }
  etrans; [exact H1e|]. apply fold_calm; [intros; by apply send_probe_calm|by eapply calm_covers].
Qed.

Lemma drive_pmtu_calm P e : covers P e -> calm P e (drive_pmtu e).
Proof. intros. apply fold_calm; [|done]. intros. by apply drive_pmtu_of_calm. Qed.

Lemma tell_rendezvous_calm P e c : covers P e -> calm P e (tell_rendezvous e c).
Proof. intros. unfold tell_rendezvous. case_match; [by apply send_reliable_calm|done]. Qed.

(** ** Receiving *)
Lemma send_out_peers (e : E) buf addr : ep_peers (send_out e buf addr).1 = ep_peers e.
Proof. unfold send_out. by destruct send_datagram. Qed.

Lemma draw_peers (e : E) n : ep_peers (draw e n).1 = ep_peers e.
Proof. unfold draw. by destruct net_random. Qed.

Lemma may_try_calm P e id : calm P e (may_try_unknown_address e id).1.
Proof.
  unfold may_try_unknown_address. destruct (ep_peers e !! id) eqn:Hid; [|done]. case_match.
  by eapply calm_set_entry.
Qed.

Lemma repeat_handshake_calm (P : SocketAddr -> Prop) e from sid :
  P from -> calm P e (repeat_handshake e from sid).1.
Proof.
  intros Ha. unfold repeat_handshake. case_match; [|done]. destruct (ep_peers e !! z) eqn:Hid; [|done].
  case_match; [|done]. case_match. pose proof (send_out_peers e l from) as Hp.
  via (fun a b => send_out_calm P a b from Ha). cbn in Hp. etrans; [exact Hk|]. destruct r; [|done..].
  eapply calm_set_entry; [by rewrite Hp|done].
Qed.

Lemma send_challenge_calm (P : SocketAddr -> Prop) e id en0 en addr t :
  P addr -> ep_peers e !! id = Some en0 -> who en = who en0 -> calm P e (send_challenge e id en addr t).1.
Proof.
  intros Ha Hid Hw. unfold send_challenge. via challenge_peer.
  assert (Hw' : who (set_en_peer en p) = who en0) by (by rewrite who_set_peer).
  assert (H1e : calm P e (set_entry e id (set_en_peer en p))) by (by eapply calm_set_entry).
  etrans; [exact H1e|]. destruct r as [[ack n]|?|]; [|done..]. cbn [fst snd].
  match goal with |- context [set_entry (set_ep_ack ?a ack) id ?b] => set (e1 := set_ep_ack a ack); set (en1 := b) end.
  trans (set_entry e1 id en1).
  { trans e1; [by apply calm_same|]. eapply calm_set_entry; [apply lookup_insert_eq|done]. }
  destruct (slice _ _ _); [|done..]. refine (bind_keeps _ _ _ _ _ _); [by apply send_out_calm|].
  intros. apply stamp_sent_calm.
Qed.

Lemma start_probe_calm (P : SocketAddr -> Prop) e id addr : P addr -> calm P e (start_probe e id addr).1.
Proof.
  intros Ha. unfold start_probe. destruct (ep_peers e !! id) as [en|] eqn:Hid; [|done]. cbn zeta. case_match.
  - pose proof (draw_peers e PATH_TOKEN_LEN) as Hp. via (draw_calm P). cbn in Hp. etrans; [exact Hk|].
    eapply send_challenge_calm; [done|by rewrite Hp|done].
  - by eapply send_challenge_calm.
  - done.
Qed.

Lemma note_heard_calm P e id en : ep_peers e !! id = Some en -> calm P e (note_heard e id en).
Proof.
  intros Hid. unfold note_heard. set (e1 := set_entry _ _ _).
  assert (H1e : calm P e e1) by (by eapply calm_set_entry).
  etrans; [exact H1e|]. case_match; [by apply calm_same|done].
Qed.

Lemma on_established_calm (P : SocketAddr -> Prop) e id from n i :
  P from -> calm P e (on_established e id from n i).1.
Proof.
  intros Ha. unfold on_established. refine (bind_keeps _ _ _ _ _ _).
  - case_match; [|done]. destruct (slice _ _ _); [|done..].
    refine (bind_keeps _ _ _ _ _ _); [by apply send_out_calm|]. intros. apply stamp_sent_calm.
  - intros e1 _ _. destruct i; try done. destruct (ep_peers e1 !! id) as [en|] eqn:Hid; [|done].
    case_match; [|done]. by eapply calm_set_entry.
Qed.

Lemma to_event_calm P e id i : calm P e (to_event e id i).1.
Proof.
  unfold to_event. destruct i; try done. destruct (slice _ _ _); [|done..].
  repeat case_match; by apply calm_same.
Qed.
End calm.
