(* ===== verification/EndpointTables.v ===== *)
(** * The endpoint's tables agree (crates/fectp/src/endpoint.rs)

    [Tables.ok] says the three maps of an endpoint are one relation seen three
    ways: every session has the route of its address and identifier, every
    route and every listing names a session that has it, identifiers are never
    shared between a session and a handshake in progress and never reused. The
    abstract operations [Tables.release], [Tables.file] and [Tables.move] are
    what the endpoint's do to the tables; they preserve [ok] and [extends],
    which says that an identifier stands for one peer for good. *)
From stdpp Require Import gmap.
From S2P Require Import Prelude Bytes Error Float Frame Fragment Codec Reliability RetransmitQueue.
From S2P Require Import Cipher Symmetric Handshake Session Connect Compress Reassembly Tickets Pmtu.
From S2P Require Import Pipeline Control Udp EndpointState Endpoint EndpointReceive EndpointFrame.
Import Endpoint EndpointReceive.

Module Tables.
Implicit Type t : Tables.

(** The sessions listed under an identifier. *)
Definition listing (m : gmap Z (list Z)) (s : Z) : list Z := default [] (m !! s).

Record ok t : Prop := {
  ok_route id x : tb_who t !! id = Some x -> tb_routes t !! (who_addr x, who_session x) = Some id;
  ok_routed a s id : tb_routes t !! (a, s) = Some id ->
    exists x, tb_who t !! id = Some x /\ who_addr x = a /\ who_session x = s;
  ok_listed s id : id ∈ listing (tb_sessions t) s <->
    exists x, tb_who t !! id = Some x /\ who_session x = s;
  ok_nodup s l : tb_sessions t !! s = Some l -> l <> [] /\ NoDup l;
  ok_ids id : is_Some (tb_who t !! id) \/ is_Some (tb_started t !! id) -> 0 <= id < tb_next t;
  ok_apart id x : tb_who t !! id = Some x -> tb_started t !! id = None;
  ok_max : 1 <= tb_max t;
  ok_next : 0 <= tb_next t;
}.

(** What one step may do to the identifiers. *)
Record extends t t' : Prop := {
  ext_next : tb_next t <= tb_next t';
  ext_same id x x' : tb_who t !! id = Some x -> tb_who t' !! id = Some x' ->
    who_key x' = who_key x /\ who_session x' = who_session x;
  ext_dead id : 0 <= id < tb_next t -> tb_who t !! id = None -> tb_started t !! id = None ->
    tb_who t' !! id = None /\ tb_started t' !! id = None;
  ext_gone id x : tb_who t !! id = Some x -> tb_started t' !! id = None;
  ext_max : tb_max t' = tb_max t;
  ext_count : Z.of_nat (size (tb_who t')) <= Z.max (Z.of_nat (size (tb_who t))) (tb_max t);
}.

(** A step keeps the tables consistent and extends them. *)
Definition step t t' : Prop := ok t -> ok t' /\ extends t t'.

Lemma extends_refl t : ok t -> extends t t.
Proof.
  intros Hok. split; try done; try lia.
  - intros. by simplify_eq.
  - intros id x Hid. by eapply ok_apart.
Qed.

Lemma extends_trans t1 t2 t3 : ok t1 -> extends t1 t2 -> extends t2 t3 -> extends t1 t3.
Proof.
  intros Hok [n1 s1 d1 g1 m1 c1] [n2 s2 d2 g2 m2 c2].
  assert (Hlive : forall id x, tb_who t1 !! id = Some x -> 0 <= id < tb_next t2).
  { intros id x Hid. assert (0 <= id < tb_next t1) by (apply (ok_ids _ Hok); left; eauto). lia. }
  split; try lia.
  - intros id x x3 Hx H3. destruct (tb_who t2 !! id) as [x2|] eqn:H2.
    + destruct (s1 id x x2 Hx H2), (s2 id x2 x3 H2 H3). split; congruence.
    + destruct (d2 id (Hlive id x Hx) H2 (g1 id x Hx)). congruence.
  - intros id ? ??. destruct (d1 id) as [??]; [done..|]. apply d2; [lia|done..].
  - intros id x Hx. destruct (tb_who t2 !! id) as [x2|] eqn:H2; [by eapply g2|].
    eapply (d2 id); eauto.
Qed.

#[global] Instance step_preorder : PreOrder step.
Proof.
  split.
  - intros t Hok. split; [done|by apply extends_refl].
  - intros t1 t2 t3 H1 H2 Hok. destruct (H1 Hok) as [Hok2 ?]. destruct (H2 Hok2).
    split; [done|by eapply extends_trans].
Qed.

(** ** The identifier index *)
Definition unfile (m : gmap Z (list Z)) (s id : Z) : gmap Z (list Z) :=
  match m !! s with
  | None => m
  | Some l =>
      match filter (fun x => x <> id) l with
      | [] => delete s m
      | l' => <[s := l']> m
      end
  end.

Lemma listing_insert m s l s' : listing (<[s := l]> m) s' = if decide (s' = s) then l else listing m s'.
Proof. unfold listing. case_decide; [subst; by rewrite lookup_insert_eq|by rewrite lookup_insert_ne]. Qed.

Lemma listing_unfile m s id s' :
  listing (unfile m s id) s' = if decide (s' = s) then filter (fun x => x <> id) (listing m s) else listing m s'.
Proof.
  unfold unfile. destruct (m !! s) as [l|] eqn:Hl.
  - assert (listing m s = l) as -> by (unfold listing; by rewrite Hl).
    destruct (filter _ l) eqn:Hf; [|apply listing_insert].
    unfold listing. case_decide; [subst; by rewrite lookup_delete_eq|by rewrite lookup_delete_ne].
  - case_decide; [subst|done]. unfold listing. by rewrite Hl.
Qed.

Lemma elem_of_unfile m s id s' id' :
  id' ∈ listing (unfile m s id) s' <-> id' ∈ listing m s' /\ ~ (s' = s /\ id' = id).
Proof.
  rewrite listing_unfile. case_decide; [subst; rewrite list_elem_of_filter|]; tauto.
Qed.

Lemma unfile_nodup m s id :
  (forall s l, m !! s = Some l -> l <> [] /\ NoDup l) ->
  forall s' l, unfile m s id !! s' = Some l -> l <> [] /\ NoDup l.
Proof.
  intros Hm s' l. unfold unfile. destruct (m !! s) as [l0|] eqn:Hl; [|apply Hm].
  destruct (Hm _ _ Hl). destruct (filter _ l0) eqn:Hf.
  - rewrite lookup_delete_Some. intros [_ ?]. by eapply Hm.
  - rewrite lookup_insert_Some. intros [[<- <-]|[_ ?]]; [|by eapply Hm].
    rewrite <- Hf. split; [by rewrite Hf|by apply list.NoDup_filter].
Qed.

(** ** Releasing a session *)
Lemma size_delete_le {A} (i : Z) (m : gmap Z A) : (size (delete i m) <= size m)%nat.
Proof. rewrite map_size_delete. destruct (m !! i); cbn; lia. Qed.

Definition release t (id : Z) (x : Who) : Tables :=
  mkTables (delete id (tb_who t)) (tb_started t) (delete (who_addr x, who_session x) (tb_routes t))
    (unfile (tb_sessions t) (who_session x) id) (tb_next t) (tb_max t) (tb_budget t) (tb_rate t).

Lemma release_extends t id x : ok t -> extends t (release t id x).
Proof.
  intros Hok. split; cbn; try done; try lia.
  - intros id' y y' Hy [_ Hy']%lookup_delete_Some. by simplify_eq.
  - intros id' ? ??. by rewrite lookup_delete_None; auto.
  - intros id' y Hy. by eapply ok_apart.
  - pose proof (size_delete_le id (tb_who t)). lia.
Qed.

Lemma release_ok t id x : ok t -> tb_who t !! id = Some x -> ok (release t id x).
Proof.
  intros Hok Hid. split; cbn.
  - intros id' y [Hne Hy]%lookup_delete_Some. rewrite lookup_delete_ne; [by apply (ok_route _ Hok)|].
    intros Heq. pose proof (ok_route _ Hok _ _ Hid). pose proof (ok_route _ Hok _ _ Hy). congruence.
  - intros a s id' [Hne Hr]%lookup_delete_Some.
    destruct (ok_routed _ Hok _ _ _ Hr) as (y & Hy & <- & <-). exists y. split; [|done].
    apply lookup_delete_Some. split; [|done]. intros <-. by simplify_eq.
  - intros s id'. rewrite elem_of_unfile, (ok_listed _ Hok). setoid_rewrite lookup_delete_Some.
    split; [intros [(y & Hy & <-) Hn]|intros (y & [Hne Hy] & <-)].
    + exists y. split; [|done]. split; [|done]. intros <-. simplify_eq. by apply Hn.
    + split; [by exists y|]. by intros [_ ->].
  - apply unfile_nodup, (ok_nodup _ Hok).
  - intros id' [[y [_ Hy]%lookup_delete_Some]|?]; apply (ok_ids _ Hok); [left; by eexists|by right].
  - intros id' y [_ Hy]%lookup_delete_Some. by eapply ok_apart.
  - apply ok_max, Hok.
  - apply ok_next, Hok.
Qed.

Lemma release_step t id x : tb_who t !! id = Some x -> step t (release t id x).
Proof. intros Hid Hok. split; [by apply release_ok|by apply release_extends]. Qed.

(** ** Filing a session *)
Definition file t (id : Z) (x : Who) : Tables :=
  let route := (who_addr x, who_session x) in
  let previous := tb_routes t !! route in
  let whos := match previous with Some p => delete p (tb_who t) | None => tb_who t end in
  let sessions :=
    match previous with
    | Some p => unfile (tb_sessions t) (who_session x) p
    | None => tb_sessions t
    end in
  mkTables (<[id := x]> whos) (tb_started t) (<[route := id]> (tb_routes t))
    (<[who_session x := listing sessions (who_session x) ++ [id]]> sessions) (tb_next t) (tb_max t) (tb_budget t) (tb_rate t).

(** Whoever held the route is released first: the same tables, once the new
    route is written. *)
Lemma file_displacing t id x p y :
  tb_routes t !! (who_addr x, who_session x) = Some p -> tb_who t !! p = Some y ->
  ok t -> file t id x = file (release t p y) id x.
Proof.
  intros Hr Hp Hok. destruct (ok_routed _ Hok _ _ _ Hr) as (y' & Hy' & Ha & Hs).
  simplify_eq. unfold file, release. cbn. rewrite Hr, Ha, Hs, lookup_delete_eq. f_equal.
  by rewrite insert_delete_eq.
Qed.

(** A fresh identifier: known to the counter, held by nobody. *)
Definition fresh t (id : Z) : Prop :=
  0 <= id < tb_next t /\ tb_who t !! id = None /\ tb_started t !! id = None.

Lemma file_clear t id x :
  ok t -> fresh t id -> tb_routes t !! (who_addr x, who_session x) = None -> ok (file t id x).
Proof.
  intros Hok (Hn & Hid & Hst) Hr. unfold file. rewrite Hr. split; cbn.
  - intros id' y [[<- <-]|[Hne Hy]]%lookup_insert_Some; [by rewrite lookup_insert_eq|].
    rewrite lookup_insert_ne; [by apply (ok_route _ Hok)|].
    intros Heq. pose proof (ok_route _ Hok _ _ Hy). congruence.
  - intros a s id' [[Heq <-]|[Hne Hy]]%lookup_insert_Some.
    + injection Heq as <- <-. exists x. by rewrite lookup_insert_eq.
    + destruct (ok_routed _ Hok _ _ _ Hy) as (y & ? & ?). exists y.
      rewrite lookup_insert_ne; [done|]. intros ->. by simplify_eq.
  - intros s id'. rewrite listing_insert. setoid_rewrite lookup_insert_Some.
    case_decide as Hs; [subst s; rewrite elem_of_app, list_elem_of_singleton|]; rewrite (ok_listed _ Hok).
    + split; [intros [(y & ? & ?)| ->]; [exists y; split; [right; split; [congruence|done]|done]|exists x; tauto]|].
      intros (y & [[-> ->]|[??]] & ?); [by right|left; by exists y].
    + split; [intros (y & ? & ?); exists y; split; [right; split; [congruence|done]|done]|].
      intros (y & [[-> ->]|[??]] & ?); [congruence|by exists y].
  - intros s l [[<- <-]|[Hne Hl]]%lookup_insert_Some; [|by eapply ok_nodup].
    split; [by destruct (listing _ _)|]. apply list.NoDup_app. split_and!.
    + unfold listing. destruct (tb_sessions t !! who_session x) eqn:Hl; [by eapply ok_nodup|constructor].
    + intros id' (y & Hy & _)%(ok_listed _ Hok) ->%list_elem_of_singleton. congruence.
    + apply NoDup_singleton.
  - intros id' [[y [[<- _]|[_ Hy]]%lookup_insert_Some]|?]; [done|apply (ok_ids _ Hok); left; by eexists|].
    apply (ok_ids _ Hok). by right.
  - intros id' y [[<- _]|[_ Hy]]%lookup_insert_Some; [done|by eapply ok_apart].
  - apply ok_max, Hok.
  - apply ok_next, Hok.
Qed.

Lemma file_ok t id x : ok t -> fresh t id -> ok (file t id x).
Proof.
  intros Hok Hf. destruct (tb_routes t !! (who_addr x, who_session x)) as [p|] eqn:Hr; [|by apply file_clear].
  destruct (ok_routed _ Hok _ _ _ Hr) as (y & Hp & Ha & Hs). rewrite (file_displacing t id x p y) by done.
  apply file_clear; [by apply release_ok| |cbn; by rewrite Ha, Hs, lookup_delete_eq].
  destruct Hf as (? & ? & ?). split; [done|split; [|done]]. cbn. by rewrite lookup_delete_None; auto.
Qed.

Lemma file_who t id x id' y :
  id' <> id -> tb_who (file t id x) !! id' = Some y -> tb_who t !! id' = Some y.
Proof.
  intros Hne. cbn. rewrite lookup_insert_ne by done. case_match; [|done].
  by intros [_ ?]%lookup_delete_Some.
Qed.

(** Filing under an identifier that [t0] had not given out to a session yet. *)
Lemma file_extends t0 t id x :
  ok t0 -> extends t0 t -> tb_next t0 <= id \/ is_Some (tb_started t0 !! id) ->
  tb_started t !! id = None ->
  Z.of_nat (size (tb_who t)) < Z.max (Z.of_nat (size (tb_who t0))) (tb_max t0) ->
  extends t0 (file t id x).
Proof.
  intros Hok [Hn Hs Hd Hg Hm Hc] Hnew Hst Hroom.
  assert (Hno : tb_who t0 !! id = None).
  { apply eq_None_not_Some. intros [y Hy]. destruct Hnew as [|[a Ha]].
    - pose proof (ok_ids _ Hok id (or_introl (mk_is_Some _ _ Hy))). lia.
    - rewrite (ok_apart _ Hok _ _ Hy) in Ha. done. }
  split; [done| | | |done|].
  - intros id' y y' Hy Hy'. destruct (decide (id' = id)) as [->|Hne]; [congruence|].
    apply (Hs id'); [done|]. by eapply file_who.
  - intros id' Hlt Hw Hst'. destruct (decide (id' = id)) as [->|Hne].
    { destruct Hnew as [|[a Ha]]; [lia|congruence]. }
    destruct (Hd id' Hlt Hw Hst') as [Hw' Hst2]. split; [|done].
    apply eq_None_not_Some. intros [y Hy]. apply file_who in Hy; [congruence|done].
  - apply Hg.
  - cbn [tb_who file]. match goal with |- context [<[id := x]> ?m] => set (m0 := m) end.
    assert (size m0 <= size (tb_who t))%nat.
    { unfold m0. case_match; [apply size_delete_le|lia]. }
    rewrite map_size_insert. destruct (m0 !! id); cbn; lia.
Qed.

(** ** Moving a session *)
Definition move t (id : Z) (x : Who) (a : SocketAddr) : Tables :=
  let s := who_session x in
  let routes := delete (who_addr x, s) (tb_routes t) in
  let whos := <[id := mkWho a s (who_key x)]> (tb_who t) in
  let displaced := routes !! (a, s) in
  mkTables (match displaced with Some d => delete d whos | None => whos end) (tb_started t)
    (<[(a, s) := id]> routes)
    (match displaced with
     | Some d => match whos !! d with Some y => unfile (tb_sessions t) (who_session y) d | None => tb_sessions t end
     | None => tb_sessions t
     end) (tb_next t) (tb_max t) (tb_budget t) (tb_rate t).

Lemma move_displacing t id x a d y :
  ok t -> tb_who t !! id = Some x -> delete (who_addr x, who_session x) (tb_routes t) !! (a, who_session x) = Some d ->
  tb_who t !! d = Some y -> d <> id /\ move t id x a = move (release t d y) id x a.
Proof.
  intros Hok Hid [Hne Hr]%lookup_delete_Some Hd.
  destruct (ok_routed _ Hok _ _ _ Hr) as (y' & Hy' & Ha & Hs). simplify_eq.
  assert (d <> id) by (intros ->; simplify_eq; congruence). split; [done|].
  unfold move, release. cbn. rewrite Hs, lookup_delete_ne, Hr, lookup_insert_ne, Hd, Hs by done.
  rewrite (delete_delete _ _ (who_addr y, _)), lookup_delete_eq. f_equal.
  - by rewrite delete_insert_ne.
  - by rewrite insert_delete_eq.
Qed.

Lemma move_clear t id x a :
  ok t -> tb_who t !! id = Some x ->
  delete (who_addr x, who_session x) (tb_routes t) !! (a, who_session x) = None -> ok (move t id x a).
Proof.
  intros Hok Hid Hr. unfold move. rewrite Hr. split; cbn.
  - intros id' y [[<- <-]|[Hne Hy]]%lookup_insert_Some; [by rewrite lookup_insert_eq|].
    pose proof (ok_route _ Hok _ _ Hy) as Hry. pose proof (ok_route _ Hok _ _ Hid).
    assert (delete (who_addr x, who_session x) (tb_routes t) !! (who_addr y, who_session y) = Some id').
    { apply lookup_delete_Some. split; [|done]. congruence. }
    rewrite lookup_insert_ne; [done|]. congruence.
  - intros a' s id' [[Heq <-]|[Hne [Hne' Hy]%lookup_delete_Some]]%lookup_insert_Some.
    + injection Heq as <- <-. eexists. by rewrite lookup_insert_eq.
    + destruct (ok_routed _ Hok _ _ _ Hy) as (y & ? & <- & <-). exists y.
      rewrite lookup_insert_ne; [done|]. intros ->. by simplify_eq.
  - intros s id'. rewrite (ok_listed _ Hok). setoid_rewrite lookup_insert_Some.
    split; [intros (y & Hy & <-)|intros (y & [[<- <-]|[_ Hy]] & <-)]; [|by exists x|by exists y].
    destruct (decide (id' = id)) as [->|]; [simplify_eq; eexists; split; [by left|done]|].
    exists y. split; [by right|done].
  - apply (ok_nodup _ Hok).
  - intros id' Hs. apply (ok_ids _ Hok). destruct Hs as [[y [[<- _]|[_ Hy]]%lookup_insert_Some]|?]; eauto.
  - intros id' y [[<- _]|[_ Hy]]%lookup_insert_Some; by eapply ok_apart.
  - apply ok_max, Hok.
  - apply ok_next, Hok.
Qed.

Lemma move_extends t id x a : ok t -> tb_who t !! id = Some x -> extends t (move t id x a).
Proof.
  intros Hok Hid. set (w' := <[id := mkWho a (who_session x) (who_key x)]> (tb_who t)).
  assert (Hw : forall id' y, tb_who (move t id x a) !! id' = Some y -> w' !! id' = Some y).
  { intros id' y. cbn. case_match; [|done]. by intros [_ ?]%lookup_delete_Some. }
  assert (Hsz : (size (tb_who (move t id x a)) <= size (tb_who t))%nat).
  { assert (size w' = size (tb_who t)) as <- by (apply map_size_insert_Some; by exists x).
    cbn. fold w'. case_match; [apply size_delete_le|done]. }
  split; cbn [tb_next tb_started tb_max move]; try done; try lia.
  - intros id' y y' Hy [[<- <-]|[_ Hy']]%Hw%lookup_insert_Some; by simplify_eq.
  - intros id' Hlt Hn Hs. split; [|done]. apply eq_None_not_Some.
    intros [y [[<- <-]|[_ Hy']]%Hw%lookup_insert_Some]; congruence.
  - intros id' y Hy. by eapply ok_apart.
Qed.

Lemma move_step t id x a : tb_who t !! id = Some x -> step t (move t id x a).
Proof.
  intros Hid Hok. split; [|by apply move_extends].
  destruct (delete (who_addr x, who_session x) (tb_routes t) !! (a, who_session x)) as [d|] eqn:Hr;
    [|by apply move_clear].
  pose proof Hr as [_ Hr']%lookup_delete_Some. destruct (ok_routed _ Hok _ _ _ Hr') as (y & Hd & Ha & Hs).
  destruct (move_displacing t id x a d y) as [Hne ->]; [done..|].
  apply move_clear; [by apply release_ok|cbn; by rewrite lookup_delete_ne|].
  cbn. rewrite Ha, Hs, delete_delete. apply lookup_delete_eq.
Qed.

(** ** Handshakes in progress *)
Definition start t (a : SocketAddr) : Tables :=
  mkTables (tb_who t) (<[tb_next t := a]> (tb_started t)) (tb_routes t) (tb_sessions t) (tb_next t + 1)
    (tb_max t) (tb_budget t) (tb_rate t).

Definition finish t (id : Z) : Tables :=
  mkTables (tb_who t) (delete id (tb_started t)) (tb_routes t) (tb_sessions t) (tb_next t) (tb_max t) (tb_budget t) (tb_rate t).

Definition bump t : Tables :=
  mkTables (tb_who t) (tb_started t) (tb_routes t) (tb_sessions t) (tb_next t + 1) (tb_max t)
    (tb_budget t) (tb_rate t).

Lemma next_unknown t : ok t -> tb_who t !! tb_next t = None /\ tb_started t !! tb_next t = None.
Proof.
  intros Hok. split; apply eq_None_not_Some; intros Hs;
    [pose proof (ok_ids _ Hok _ (or_introl Hs))|pose proof (ok_ids _ Hok _ (or_intror Hs))]; lia.
Qed.

(** A step that only changes what was started and counts on. *)
Lemma started_step t started next budget rate :
  (ok t -> forall id a, started !! id = Some a -> tb_started t !! id = Some a \/ id = tb_next t /\ id < next) ->
  tb_next t <= next ->
  step t (mkTables (tb_who t) started (tb_routes t) (tb_sessions t) next (tb_max t) budget rate).
Proof.
  intros Hst Hn Hok. specialize (Hst Hok).
  destruct (next_unknown t Hok) as [Hw Hs]. destruct Hok as [R1 R2 L N I A M P].
  assert (Hnone : forall id, id <> tb_next t -> tb_started t !! id = None -> started !! id = None).
  { intros id Hne Hnone. apply eq_None_not_Some. intros [a [?|[??]]%Hst]; congruence. }
  split; split; cbn; try done; try lia.
  - intros id [Hid|[a [Ha|[-> ?]]%Hst]]; [|assert (0 <= id < tb_next t) by (apply I; right; by eexists); lia|lia].
    assert (0 <= id < tb_next t) by (by apply I; left). lia.
  - intros id x Hid. apply Hnone; [congruence|by eapply A].
  - intros. by simplify_eq.
  - intros id Hlt ??. split; [done|]. apply Hnone; [lia|done].
  - intros id x Hid. apply Hnone; [congruence|by eapply A].
Qed.

Lemma start_step t a : step t (start t a).
Proof.
  apply started_step; [|lia]. intros _ id b [[<- _]|[_ ?]]%lookup_insert_Some; [right; lia|by left].
Qed.

Lemma finish_step t id : step t (finish t id).
Proof. apply started_step; [|lia]. intros _ id' b [_ ?]%lookup_delete_Some. by left. Qed.

Lemma bump_step t : step t (bump t).
Proof. apply started_step; [|lia]. intros. by left. Qed.
End Tables.

(** ** The endpoint's operations on its tables *)
Section world.
Context {W : Type} `{Net W}.

(** Every way the code moves the world on. *)
Inductive reach : W -> W -> Prop :=
| reach_refl w : reach w w
| reach_send w b a w' : reach (net_send w b a).1 w' -> reach w w'
| reach_random w n w' : reach (net_random w n).1 w' -> reach w w'
| reach_recv w size timeout w' : reach (net_recv w size timeout).1 w' -> reach w w'.

#[global] Instance reach_preorder : PreOrder reach.
Proof.
  split; [intros ?; apply reach_refl|].
  intros w1 w2 w3 H12 H23. induction H12; [done|eapply reach_send|eapply reach_random|eapply reach_recv]; auto.
Qed.

Lemma sent_reach l w w' : sent l w w' -> reach w w'.
Proof. induction 1; [done|by eapply reach_send|by eapply reach_random]. Qed.
End world.

Section sound.
Context {W K : Type} `{Net W} `{StaticKey K} `{Crypto} `{ZstdLib}.
Local Abbreviation E := (Endpoint W K).

(** A step of the endpoint: the world only moves on as the code moves it, and
    the tables stay consistent. *)
Definition sound (e e' : E) : Prop :=
  reach (ep_world e) (ep_world e') /\ Tables.step (tables e) (tables e').

#[global] Instance sound_preorder : PreOrder sound.
Proof.
  split; [by split|]. intros ??? [??] [??]. split; by etrans.
Qed.

Lemma calm_sound P e e' : calm P e e' -> sound e e'.
Proof. intros ((l & Hl & _) & E & _). split; [by eapply sent_reach|by rewrite E]. Qed.

Lemma covers_all (e : E) : covers (fun _ => True) e.
Proof. done. Qed.

Lemma same_sound (e e' : E) : ep_world e' = ep_world e -> tables e' = tables e -> sound e e'.
Proof. intros E1 E2. split; [by rewrite E1|by rewrite E2]. Qed.

Lemma tables_unfile (e : E) sid id :
  ep_by_session (unfile_session e sid id) = Tables.unfile (ep_by_session e) sid id.
Proof.
  unfold unfile_session, Tables.unfile. destruct (ep_by_session e !! sid); [|done]. by case_match.
Qed.

Lemma unfile_session_eq (e : E) sid id :
  unfile_session e sid id = set_ep_by_session e (Tables.unfile (ep_by_session e) sid id).
Proof.
  unfold unfile_session, Tables.unfile. destruct (ep_by_session e !! sid); [|by destruct e].
  by case_match.
Qed.

Lemma tables_release (e : E) id en : tables (release e id en) = Tables.release (tables e) id (who en).
Proof.
  unfold release. rewrite unfile_session_eq. unfold tables, Tables.release. cbn. by rewrite fmap_delete.
Qed.

Lemma release_sound (e : E) id en : ep_peers e !! id = Some en -> sound e (release e id en).
Proof.
  intros Hid. split; [unfold release; by rewrite unfile_session_eq|].
  rewrite tables_release. apply Tables.release_step. cbn. by rewrite lookup_fmap, Hid.
Qed.

Lemma first_out_elem (l : list (Z * PeerEntry)) x : first_out l = Some x -> x ∈ l.
Proof.
  revert x. induction l as [|y l IH]; intros x; cbn; [done|].
  destruct (first_out l); [case_match|]; intros [= <-]; [right; auto|left..].
Qed.

Lemma first_out_none (l : list (Z * PeerEntry)) : first_out l = None -> l = [].
Proof. destruct l; cbn; [done|]. by repeat case_match. Qed.

Lemma make_room_sound (e : E) : sound e (make_room e).
Proof.
  unfold make_room. case_match; [done|]. destruct (first_out _) as [[id en]|] eqn:Hf; [|done].
  apply release_sound. by apply first_out_elem, elem_of_map_to_list in Hf.
Qed.

Lemma tables_count (e : E) : Z.of_nat (size (tb_who (tables e))) = peer_count e.
Proof. cbn. by rewrite map_size_fmap. Qed.

(** One place is free afterwards, or the table is shorter by one. *)
Lemma make_room_count (e : E) :
  1 <= ep_max_peers e -> peer_count (make_room e) < Z.max (peer_count e) (ep_max_peers e).
Proof.
  intros Hmax. unfold make_room. zcase; [lia|]. destruct (first_out _) as [[id en]|] eqn:Hf.
  - apply first_out_elem, elem_of_map_to_list in Hf.
    unfold peer_count, release in *. rewrite unfile_session_eq. cbn.
    pose proof (map_size_delete_Some id (ep_peers e) (mk_is_Some _ _ Hf)) as Hd.
    assert (size (ep_peers e) <> 0)%nat by (apply map_size_ne_0_lookup; by exists id, en). lia.
  - apply first_out_none in Hf. unfold peer_count, peer_entries in *.
    apply map_to_list_empty_iff in Hf. rewrite Hf, map_size_empty in *. lia.
Qed.

Lemma tables_file (e : E) id link addr sid :
  tables (file e id link addr sid)
  = Tables.file (tables (make_room e)) id (mkWho addr sid (s_remote_static link)).
Proof.
  unfold file, Tables.file. set (e1 := make_room e). cbn.
  destruct (ep_routes e1 !! (addr, sid)) as [p|].
  - rewrite unfile_session_eq. unfold tables. cbn. f_equal. by rewrite fmap_insert, fmap_delete.
  - unfold tables. cbn. f_equal. by rewrite fmap_insert.
Qed.

Lemma file_world (e : E) id link addr sid : ep_world (file e id link addr sid) = ep_world (make_room e).
Proof. unfold file. cbn. case_match; [|done]. by rewrite unfile_session_eq. Qed.

(** Filing, seen from before the identifier was given out. *)
Lemma file_sound (e0 e : E) id link addr sid :
  sound e0 e ->
  (Tables.ok (tables e0) -> Tables.fresh (tables e) id) ->
  (Tables.ok (tables e0) -> tb_next (tables e0) <= id \/ is_Some (tb_started (tables e0) !! id)) ->
  (size (ep_peers e) <= size (ep_peers e0))%nat ->
  sound e0 (file e id link addr sid).
Proof.
  intros [Hr Hst] Hf Hnew Hsz. destruct (make_room_sound e) as [Hr' Hst'].
  split; [rewrite file_world; by etrans|]. intros Hok0.
  specialize (Hst Hok0) as [Hok Hext]. specialize (Hst' Hok) as [Hok' Hext'].
  specialize (Hf Hok0) as (Hn & Hw & Hs). specialize (Hnew Hok0).
  assert (Hdead := Tables.ext_dead _ _ Hext' _ Hn Hw Hs). destruct Hdead as [Hw' Hs'].
  pose proof (Tables.ext_next _ _ Hext'). pose proof (Tables.ext_max _ _ Hext).
  rewrite tables_file. split.
  - apply Tables.file_ok; [done|]. split; [lia|done].
  - apply Tables.file_extends; [done|by eapply Tables.extends_trans|done..|].
    rewrite !tables_count. pose proof (Tables.ok_max _ Hok). cbn in *.
    pose proof (make_room_count e ltac:(done)). unfold peer_count in *. lia.
Qed.

Lemma register_sound (e : E) link addr z r : sound e (register e link addr z r).1.
Proof.
  unfold register. cbn [fst]. apply file_sound; cbn; try done.
  - split; [done|]. apply Tables.bump_step.
  - intros Hok. destruct (Tables.next_unknown _ Hok). pose proof (Tables.ok_next _ Hok). cbn in *.
    split; [cbn; lia|done].
  - intros. left. lia.
Qed.

Lemma fmap_started (e : E) id o o' :
  ep_outbound e !! id = Some o -> ob_addr o' = ob_addr o ->
  ob_addr <$> <[id := o']> (ep_outbound e) = ob_addr <$> ep_outbound e.
Proof. intros Hid Ho. rewrite fmap_insert, Ho. apply insert_id. by rewrite lookup_fmap, Hid. Qed.

Lemma finish_sound (e : E) id : sound e (set_ep_outbound e (delete id (ep_outbound e))).
Proof.
  split; [done|].
  assert (tables (set_ep_outbound e (delete id (ep_outbound e))) = Tables.finish (tables e) id) as ->.
  { unfold tables, Tables.finish. cbn. by rewrite fmap_delete. }
  apply Tables.finish_step.
Qed.

Lemma update_path_sound (e : E) addr f : sound e (update_path e addr f).
Proof. unfold update_path. case_match. by apply same_sound. Qed.

Lemma update_path_tables (e : E) addr f : tables (update_path e addr f) = tables e.
Proof. unfold update_path. by case_match. Qed.

Lemma find_outbound_elem (e : E) from sid id o :
  find_outbound e from sid = Some (id, o) -> ep_outbound e !! id = Some o /\ ob_addr o = from.
Proof.
  unfold find_outbound. case_match eqn:Hf; [|done]. destruct p as [i io]. intros [= ->].
  apply list_find_Some in Hf as (Hl & [Ha _] & _). split; [|done].
  apply elem_of_map_to_list. by eapply list_elem_of_lookup_2.
Qed.

Lemma complete_outbound_sound (e : E) from sid : sound e (complete_outbound e from sid).1.
Proof.
  unfold complete_outbound. destruct (find_outbound e from sid) as [[id o]|] eqn:Hf; [|done].
  apply find_outbound_elem in Hf as [Hid _]. set (e1 := set_ep_outbound e _).
  match goal with |- context [if ob_attempts o =? 1 then ?a else ?b] => set (e2 := if ob_attempts o =? 1 then a else b) end.
  assert (H2e : sound e e2).
  { trans e1; [apply finish_sound|]. unfold e2. case_match; apply update_path_sound. }
  assert (Ht2 : tables e2 = tables e1) by (unfold e2; case_match; apply update_path_tables).
  match goal with |- context [match ?c with Ok _ => _ | Err _ => _ | Panic => _ end] => destruct c as [[[[link st] n] r]|?|] end;
    [|done..]. destruct (slice st 0 n); [|done..]. unfold register_as. cbn [fst].
  apply file_sound; [by etrans; [exact H2e|apply same_sound]| | |].
  - change (tables (issue_ticket e2 link)) with (tables e2). rewrite Ht2.
    intros Hok. assert (is_Some (tb_started (tables e) !! id)) by (cbn; rewrite lookup_fmap, Hid; by eexists).
    split; [apply (Tables.ok_ids _ Hok); by right|]. cbn. rewrite fmap_delete, lookup_delete_eq.
    split; [|done]. apply eq_None_not_Some. intros [x Hx].
    pose proof (Tables.ok_apart _ Hok id x Hx) as Hno. cbn in *. rewrite Hno in *. by destruct H3.
  - intros _. right. cbn. rewrite lookup_fmap, Hid. by eexists.
  - assert (ep_peers e2 = ep_peers e) as Hp.
    { unfold e2. case_match; unfold measure_path, learn_from_resent, update_path; by case_match. }
    cbn. rewrite Hp. lia.
Qed.

Lemma send_out_sound (e : E) buf addr : sound e (send_out e buf addr).1.
Proof. by eapply calm_sound, (send_out_calm (fun _ => True)). Qed.

Lemma send_anyway_sound (e : E) buf addr : sound e (send_anyway e buf addr).1.
Proof. by eapply calm_sound, (send_anyway_calm (fun _ => True)). Qed.

Lemma draw_sound (e : E) n : sound e (draw e n).1.
Proof. eapply calm_sound, (draw_calm (fun _ => True)). Qed.

Lemma stamp_sent_sound (e : E) id : sound e (stamp_sent e id).
Proof. eapply calm_sound, (stamp_sent_calm (fun _ => True)). Qed.

Lemma next_u32_reach (w : W) : reach w (next_u32 w).1.
Proof.
  unfold next_u32. pose proof (sent_draw w 4) as Hs. destruct (net_random _ _). by eapply sent_reach.
Qed.

Lemma connect_and_send_sound (e : E) addr key zero_rtt : sound e (connect_and_send e addr key zero_rtt).1.
Proof.
  unfold connect_and_send. assert (Hw := next_u32_reach (ep_world e)).
  destruct (next_u32 _) as [w sid]. cbn in Hw. set (e1 := set_ep_world e w).
  trans e1; [by split|]. destruct (opening_frame _ _ _) as [frame|?|]; [|done..].
  refine (bind_keeps _ _ _ _ _ _).
  - destruct (ep_mode e1); [destruct (ok_or _ _); [|done..]|]; (destruct (map_err _ _); [|done..]);
      via draw_sound; by repeat case_match.
  - intros e3 [hs [fr n]] _. refine (bind_keeps _ _ _ _ _ _); [apply send_out_sound|]. intros e4 _ _.
    split; [done|]. cbn [fst].
    match goal with |- Tables.step _ ?t => assert (t = Tables.start (tables e4) addr) as -> end.
    { unfold tables, Tables.start. cbn. by rewrite fmap_insert. }
    apply Tables.start_step.
Qed.

Lemma connect_sound (e : E) addr key : sound e (connect e addr key).1.
Proof. apply connect_and_send_sound. Qed.

Lemma drive_handshake_sound (e : E) t id : sound e (drive_handshake e t id).1.
Proof.
  unfold drive_handshake. destruct (ep_outbound e !! id) as [o|] eqn:Hid; [|done].
  case_match; [apply finish_sound|]. set (e1 := set_ep_outbound _ _).
  assert (H1e : sound e e1).
  { apply same_sound; [done|]. unfold tables, e1. cbn. f_equal. by eapply fmap_started. }
  etrans; [exact H1e|]. refine (bind_keeps _ _ _ _ _ _); [apply send_out_sound|by intros].
Qed.

Lemma drive_handshakes_sound (e : E) : sound e (drive_handshakes e).1.
Proof.
  unfold drive_handshakes. generalize (now e). intros t.
  match goal with |- context [drive_due_handshakes e t ?l] => generalize l end.
  intros l. revert e. induction l as [|id l IH]; intros e; cbn; [done|].
  refine (bind_keeps _ _ _ _ _ _); [apply drive_handshake_sound|]. intros e1 ev _. by case_match.
Qed.

Lemma lose_sound (e : E) id : sound e (lose e id).
Proof.
  unfold lose. destruct (ep_peers e !! id) eqn:Hid; [|done].
  etrans; [by apply release_sound|by apply same_sound].
Qed.

Lemma fold_sound {A} (f : E -> A -> E) l e : (forall e x, sound e (f e x)) -> sound e (fold_left f l e).
Proof.
  intros Hf. revert e. induction l as [|x l IH]; intros e; cbn; [done|]. etrans; [apply Hf|apply IH].
Qed.

Lemma drive_liveness_sound (e : E) : sound e (drive_liveness e).
Proof. unfold drive_liveness. case_match; [|done]. apply fold_sound, lose_sound. Qed.

Lemma disconnect_sound (e : E) id : sound e (disconnect e id).1.
Proof.
  unfold disconnect. case_match; [apply finish_sound|]. cbn.
  destruct (ep_peers e !! id) eqn:Hid; [|by apply same_sound].
  etrans; [|by apply release_sound]. by apply same_sound.
Qed.

(** ** Receiving *)
Lemma set_entry_sound (e : E) id en en' :
  ep_peers e !! id = Some en -> who en' = who en -> sound e (set_entry e id en').
Proof. intros. eapply calm_sound, (calm_set_entry (fun _ => True)); eauto. Qed.

Lemma set_peer_sound (e : E) id en p :
  ep_peers e !! id = Some en -> same_peer (en_peer en) p -> sound e (set_entry e id (set_en_peer en p)).
Proof. intros. eapply calm_sound, (calm_set_peer (fun _ => True)); eauto. Qed.

Lemma may_try_sound (e : E) id : sound e (may_try_unknown_address e id).1.
Proof. eapply calm_sound, (may_try_calm (fun _ => True)). Qed.

Lemma may_answer_sound (e : E) : sound e (may_answer_handshake e).1.
Proof.
  unfold may_answer_handshake. case_match. split; [done|]. apply (Tables.started_step (tables e)); [|done].
  intros. by left.
Qed.

Lemma repeat_handshake_sound (e : E) from sid : sound e (repeat_handshake e from sid).1.
Proof. by eapply calm_sound, (repeat_handshake_calm (fun _ => True)). Qed.

Lemma start_probe_sound (e : E) id addr : sound e (start_probe e id addr).1.
Proof. by eapply calm_sound, (start_probe_calm (fun _ => True)). Qed.

Lemma who_moved en from t : who (moved_entry en from t) = mkWho from (en_session_id en) (who_key (who en)).
Proof. unfold moved_entry. by case_match. Qed.

Lemma settle_probe_sound (e : E) id from token : sound e (settle_probe e id from token).1.
Proof.
  unfold settle_probe. destruct (ep_peers e !! id) as [en|] eqn:Hid; [|done].
  destruct (en_probe en); [|done]. case_match; [done|]. cbn zeta.
  match goal with |- sound e (wake_at (displace ?a ?b) ?t, _).1 => set (e1 := a);
    change b with (delete (en_addr en, en_session_id en) (ep_routes e) !! (from, en_session_id en)) end.
  set (prev := delete _ _ !! _).
  split; cbn [fst].
  { unfold displace. repeat case_match; [|done..]. cbn. by rewrite unfile_session_eq. }
  match goal with |- Tables.step _ (tables (wake_at ?x _)) => change (tables (wake_at x _)) with (tables x) end.
  assert (tables (displace e1 prev) = Tables.move (tables e) id (who en) from) as ->.
  2: apply Tables.move_step; cbn; by rewrite lookup_fmap, Hid.
  unfold Tables.move. cbn [tb_routes tables who who_addr who_session]. fold prev.
  assert (Hw1 : who <$> ep_peers e1 = <[id := mkWho from (en_session_id en) (who_key (who en))]> (who <$> ep_peers e)).
  { unfold e1. cbn. by rewrite fmap_insert, who_moved. }
  cbn [tb_who tb_sessions tb_started tb_next tb_max tb_budget tb_rate tables]. rewrite <- Hw1. unfold displace. destruct prev as [d|]; [|done].
  rewrite lookup_fmap. destruct (ep_peers e1 !! d) as [y|] eqn:Hd; cbn [fmap option_fmap option_map].
  - rewrite unfile_session_eq. unfold tables. cbn. by rewrite fmap_delete.
  - unfold tables. f_equal. rewrite delete_id; [done|]. by rewrite lookup_fmap, Hd.
Qed.

Lemma note_heard_sound (e : E) id en : ep_peers e !! id = Some en -> sound e (note_heard e id en).
Proof. intros. by eapply calm_sound, (note_heard_calm (fun _ => True)). Qed.

Lemma on_established_sound (e : E) id from n i : sound e (on_established e id from n i).1.
Proof. by eapply calm_sound, (on_established_calm (fun _ => True)). Qed.

Lemma to_event_sound (e : E) id i : sound e (to_event e id i).1.
Proof. eapply calm_sound, (to_event_calm (fun _ => True)). Qed.

Lemma deliver_sound (e : E) id from est : sound e (deliver e id from est).1.
Proof.
  unfold deliver. destruct (ep_peers e !! id) as [en|] eqn:Hid; [|done].
  pose proof (ingest_peer (en_peer en) (ep_rx e) (now_ms e) (ep_ack e)) as Hp.
  destruct (Peer.ingest _ _ _ _) as [[p reply] r]. cbn in Hp. set (en1 := set_en_peer en p).
  set (e1 := set_ep_ack _ _). assert (H1e : sound e e1).
  { trans (set_entry e id en1); [by apply set_peer_sound|by apply same_sound]. }
  etrans; [exact H1e|]. destruct r as [[i f]|?|]; [|done..].
  set (e2 := set_ep_rx e1 f). trans e2; [by apply same_sound|].
  assert (H3e : sound e2 (note_heard e2 id en1)) by (apply note_heard_sound, lookup_insert_eq).
  assert (Hok : forall m : E * HostResult unit, sound (note_heard e2 id en1) m.1 ->
    sound e2 (let! (e, _) := m in to_event e id i).1).
  { intros m Hm. refine (bind_keeps _ _ _ _ _ _); [by etrans|]. intros. apply to_event_sound. }
  destruct i; [done|..]; (destruct est; [apply Hok, on_established_sound|]);
    try apply Hok, start_probe_sound.
  via settle_probe_sound. by etrans.
Qed.

Lemma try_candidates_sound n (e : E) from sid at_ : sound e (try_candidates n e from sid at_).1.
Proof.
  revert e at_. induction n as [|n IH]; intros e at_; cbn [try_candidates]; [done|].
  case_match; [|done]. via may_try_sound. etrans; [exact Hk|]. case_match; [apply IH|].
  refine (bind_keeps _ _ _ _ _ _); [apply deliver_sound|]. intros e1 ev _.
  case_match; [done|]. case_match; [done|apply IH].
Qed.

Lemma route_sound (e : E) from sid : sound e (route e from sid).1.
Proof. unfold route. case_match; [apply deliver_sound|apply try_candidates_sound]. Qed.

Lemma remember_reply_sound (e : E) ev reply : sound e (remember_reply e ev reply).
Proof.
  unfold remember_reply. destruct ev; try done. destruct (ep_peers e !! peer) eqn:Hid; [|done].
  by eapply set_entry_sound.
Qed.

Lemma establish_sound (e : E) from z r written : sound e (establish e from z r written).1.
Proof.
  unfold establish. destruct (map_err _ _) as [[[s tx] n]|?|]; [|done..].
  trans (set_ep_tx e tx); [by apply same_sound|]. destruct (slice _ _ _); [|done..].
  refine (bind_keeps _ _ _ _ _ _); [apply send_out_sound|]. intros e1 _ _.
  etrans; [apply (register_sound e1 s from z r)|apply remember_reply_sound].
Qed.

Lemma accept_full_sound (e : E) from : sound e (accept_full e from).1.
Proof.
  unfold accept_full. case_match; [|done]. destruct Responder.read_init as [r' r].
  destruct (map_err _ _); [|done..]. destruct (slice _ _ _); [|done..].
  via draw_sound. etrans; [exact Hk|apply establish_sound].
Qed.

Lemma find_ticket_sound (e : E) id : sound e (find_ticket e id).1.
Proof. unfold find_ticket. repeat case_match; simplify_eq; by apply same_sound. Qed.

Lemma accept_resumed_sound (e : E) from : sound e (accept_resumed e from).1.
Proof.
  unfold accept_resumed. destruct (map_err _ (ResumeResponder.ticket_id _)); [|done..]. via find_ticket_sound.
  etrans; [exact Hk|]. destruct (ok_or _ _); [|done..]. destruct ResumeResponder.read_init as [r' r].
  destruct (map_err _ _); [|done..]. destruct (slice _ _ _); [|done..].
  via draw_sound. etrans; [exact Hk0|apply establish_sound].
Qed.

Lemma dispatch_frame_sound (e : E) from h : sound e (dispatch_frame e from h).1.
Proof.
  unfold dispatch_frame, or_none. repeat case_match; cbn [fst]; try done;
    solve [apply route_sound|apply complete_outbound_sound|apply accept_full_sound|apply accept_resumed_sound].
Qed.

(** ** The rendezvous client *)
Lemma rv_sound (e : E) rv : sound e (set_ep_rv e rv).
Proof. by apply same_sound. Qed.

Lemma tell_rendezvous_sound (e : E) c : sound e (tell_rendezvous e c).
Proof. by eapply calm_sound, (tell_rendezvous_calm (fun _ => True)). Qed.

Lemma fail_introduction_sound (e : E) key r : sound e (fail_introduction e key r).
Proof. unfold fail_introduction. case_match; [|done]. by apply same_sound. Qed.

Lemma lose_rendezvous_sound (e : E) : sound e (lose_rendezvous e).
Proof.
  unfold lose_rendezvous. set (e1 := set_ep_rv _ _). trans e1; [apply rv_sound|].
  apply fold_sound. intros. apply fail_introduction_sound.
Qed.

Lemma drive_ask_reach t (w : W) a : reach w (drive_ask t w a).1.1.1.
Proof.
  unfold drive_ask. repeat case_match; try done. cbn. pose proof (sent_draw w SECRET_LEN) as Hs.
  match goal with E : net_random _ _ = _ |- _ => rewrite E in Hs end. by eapply sent_reach.
Qed.

Lemma pass_asks_reach t l s : reach (ps_world s) (ps_world (fold_left (pass_ask t) l s)).
Proof.
  revert s. induction l as [|ka l IH]; intros s; cbn; [done|]. etrans; [|apply IH].
  unfold pass_ask. pose proof (drive_ask_reach t (ps_world s) ka.2) as Hw.
  by destruct (drive_ask _ _ _) as [[[??]?]?].
Qed.

Lemma pass_links_reach t l s : reach (ps_world s) (ps_world (fold_left (pass_link t) l s)).
Proof.
  revert s. induction l as [|il l IH]; intros s; cbn; [done|]. etrans; [|apply IH].
  unfold pass_link. case_match; [|done]. pose proof (sent_draw (ps_world s) SECRET_LEN) as Hs.
  destruct (net_random _ _). by eapply sent_reach.
Qed.

Lemma drive_introductions_sound (e : E) : sound e (drive_introductions e).
Proof.
  unfold drive_introductions. cbn zeta. set (t := now e). set (expired := map fst _).
  set (e1 := fold_left _ expired e).
  assert (H1e : sound e e1) by (apply fold_sound; intros; apply fail_introduction_sound).
  etrans; [exact H1e|]. clearbody e1. set (s1 := fold_left (pass_ask t) _ _).
  assert (Hr1 : reach (ep_world e1) (ps_world s1)) by (etrans; [|apply pass_asks_reach]; done).
  clearbody s1. set (s2 := fold_left (pass_link t) _ _).
  assert (Hr2 : reach (ep_world e1) (ps_world s2)) by (etrans; [exact Hr1|apply pass_links_reach]).
  clearbody s2. match goal with |- context [fold_left _ (ps_abandoned s2) ?x] => set (e2 := x) end.
  trans e2; [by split|]. clearbody e2. match goal with |- context [fold_left _ (ps_binds s2) ?x] => set (e3 := x) end.
  trans e3; [apply fold_sound; intros; apply fail_introduction_sound|].
  apply fold_sound. intros. apply send_anyway_sound.
Qed.

Lemma set_asks_sound (e : E) asks : sound e (set_asks e asks).
Proof. apply rv_sound. Qed.

Lemma wake_at_sound (e : E) t : sound e (wake_at e t).
Proof. by apply same_sound. Qed.

Lemma push_event_sound (e : E) ev : sound e (push_event e ev).
Proof. by apply same_sound. Qed.

Lemma on_observed_sound (e : E) a : sound e (on_observed e a).
Proof.
  unfold on_observed. set (e1 := set_ep_rv e _). trans e1; [apply rv_sound|]. case_match; [done|].
  match goal with |- context [fold_left _ _ (set_ep_rv e1 ?rv)] => trans (set_ep_rv e1 rv); [apply rv_sound|] end.
  match goal with |- sound ?a (fold_left _ ?l ?b) => trans b end;
    apply fold_sound; intros; apply tell_rendezvous_sound.
Qed.

Lemma on_introduction_sound (e : E) key a : sound e (on_introduction e key a).
Proof.
  unfold on_introduction. case_match; [done|]. via send_anyway_sound. etrans; [exact Hk|].
  assert (Hput : forall (e : E) o, sound e match rv_asks (ep_rv e) !! key with
    | Some a => set_asks e (<[key := mkAsk (ask_since a) (Introduced o false)]> (rv_asks (ep_rv e)))
    | None => e end) by (intros ex ?; destruct (rv_asks (ep_rv ex) !! key); [apply set_asks_sound|done]).
  destruct (own_key e0) as [ours|]; [|apply Hput]. destruct (starts ours key); [|apply Hput].
  via connect_sound. etrans; [exact Hk0|]. destruct r; [apply Hput|apply fail_introduction_sound..].
Qed.

Lemma on_relay_offer_sound (e : E) key port token : sound e (on_relay_offer e key port token).
Proof. unfold on_relay_offer. repeat case_match; try done; by apply same_sound. Qed.

Lemma on_members_sound (e : E) tag l : sound e (on_members e tag l).
Proof.
  unfold on_members. case_match; [|done]. cbn zeta. set (e1 := set_groups _ _).
  trans e1; [apply rv_sound|]. apply fold_sound. intros. apply push_event_sound.
Qed.

Lemma on_control_sound (e : E) c : sound e (on_control e c).
Proof.
  destruct c; cbn; try done; solve [apply on_observed_sound|apply fail_introduction_sound
    |apply on_introduction_sound|apply on_relay_offer_sound|apply on_members_sound].
Qed.

Lemma on_connected_sound (e : E) id : sound e (on_connected e id).
Proof.
  unfold on_connected. repeat case_match; try done. etrans; [apply set_asks_sound|].
  unfold link_through. repeat case_match; try done; by apply same_sound.
Qed.

Lemma on_connect_failed_sound (e : E) id ev : sound e (on_connect_failed e id ev).1.
Proof.
  unfold on_connect_failed. repeat case_match; cbn [fst]; try done; try apply fail_introduction_sound.
  etrans; [|apply tell_rendezvous_sound]. apply set_asks_sound.
Qed.

Lemma intercept_sound (e : E) ev : sound e (intercept e ev).1.
Proof.
  unfold intercept. destruct ev; cbn [fst]; try done.
  - case_match; [apply tell_rendezvous_sound|apply on_connected_sound].
  - case_match; [|done]. cbn [fst]. case_match; [apply on_control_sound|done].
  - case_match; [apply lose_rendezvous_sound|apply on_connect_failed_sound].
  - cbn zeta. etrans; [apply rv_sound|]. case_match; [apply lose_rendezvous_sound|done].
Qed.

Lemma mark_checked_sound (e : E) key o : sound e (mark_checked e key o).
Proof. unfold mark_checked. repeat case_match; try done; apply set_asks_sound. Qed.

Lemma answer_check_sound (e : E) from nonce : sound e (answer_check e from nonce).
Proof.
  unfold answer_check. case_match.
  { repeat case_match. apply send_anyway_sound. }
  case_match; [|done]. repeat (case_match; try done). 
  all: try (match goal with E : send_anyway ?e ?b ?a = _ |- _ =>
    let Hs := fresh in pose proof (send_anyway_sound e b a) as Hs; rewrite E in Hs; etrans; [exact Hs|] end).
  all: try apply mark_checked_sound.
  all: match goal with E : connect ?e ?b ?a = _ |- _ =>
    let Hs := fresh in pose proof (connect_sound e b a) as Hs; rewrite E in Hs; etrans; [exact Hs|] end.
  1: apply mark_checked_sound.
  all: apply fail_introduction_sound.
Qed.

Lemma not_a_frame_sound (e : E) from : sound e (not_a_frame e from).
Proof. unfold not_a_frame. repeat case_match; try done. apply answer_check_sound. Qed.

Lemma dispatch_sound (e : E) from : sound e (dispatch e from).1.
Proof.
  unfold dispatch. case_match; [cbn [fst]; case_match; [done|apply not_a_frame_sound]|].
  case_match; [|done..]. case_match; [apply dispatch_frame_sound|].
  refine (bind_keeps _ _ _ _ _ _); [apply repeat_handshake_sound|]. intros e1 rep _.
  case_match; [done|]. via may_answer_sound. etrans; [exact Hk|].
  case_match; [apply dispatch_frame_sound|done].
Qed.

(** ** The poll loop *)
Lemma drive_sound (e : E) : sound e (drive e).1.
Proof.
  unfold drive. refine (bind_keeps _ _ _ _ _ _).
  { eapply calm_sound, (drive_retransmits_calm (fun _ => True)), covers_all. }
  intros e1 _ _. refine (bind_keeps _ _ _ _ _ _); [apply drive_handshakes_sound|]. intros e2 ev _.
  case_match; [done|]. cbn zeta. etrans; [apply drive_liveness_sound|].
  refine (bind_keeps _ _ _ _ _ _).
  { eapply calm_sound, (drive_keepalives_calm (fun _ => True)), covers_all. }
  intros e3 _ _. trans (drive_pmtu e3); [|by apply same_sound].
  eapply calm_sound, (drive_pmtu_calm (fun _ => True)), covers_all.
Qed.

Lemma pop_event_sound (e : E) : sound e (pop_event e).1.
Proof. unfold pop_event. case_match; [done|by apply same_sound]. Qed.

Lemma before_recv_sound (e : E) : sound e (before_recv e).1.
Proof.
  unfold before_recv. refine (bind_keeps _ _ _ _ _ _); [case_match; [apply drive_sound|done]|].
  intros e1 ev _. case_match; [done|]. refine (bind_keeps _ _ _ _ _ _).
  - case_match; [|done]. eapply calm_sound, (drive_queues_calm (fun _ => True)), covers_all.
  - intros e2 _ _. by via pop_event_sound.
Qed.

Lemma poll_turn_sound deadline (e : E) : sound e (poll_turn deadline e).1.
Proof.
  unfold poll_turn. refine (bind_keeps _ _ _ _ _ _); [apply before_recv_sound|]. intros e1 ev _.
  case_match; [done|]. destruct (net_recv _ _ _) as [w rcv] eqn:Hr.
  trans (set_ep_world e1 w).
  { split; [|done]. cbn. eapply reach_recv. rewrite Hr. apply reach_refl. }
  refine (bind_keeps _ _ _ _ _ _); [|intros; by repeat case_match].
  destruct rcv as [[d from]|err]; [|by repeat case_match].
  etrans; [|apply dispatch_sound]. by apply same_sound.
Qed.

Lemma poll_once_sound fuel timeout (e : E) : sound e (poll_once fuel timeout e).1.
Proof.
  unfold poll_once. generalize (Z.add (now e) <$> timeout). intros deadline.
  revert e. induction fuel as [|fuel IH]; intros e; cbn; [done|].
  refine (bind_keeps _ _ _ _ _ _); [apply poll_turn_sound|]. intros e1 ev _. by case_match.
Qed.

Lemma poll_step_sound fuel deadline (e : E) : sound e (poll_step fuel deadline e).1.
Proof.
  unfold poll_step. set (e1 := if no_introductions e then _ else _).
  trans e1; [unfold e1; case_match; [done|apply drive_introductions_sound]|].
  via pop_event_sound. etrans; [exact Hk|]. case_match.
  - unfold intercepted. cbn [fst snd]. apply intercept_sound.
  - refine (bind_keeps _ _ _ _ _ _); [apply poll_once_sound|]. intros e2 ev _.
    case_match; [|done]. unfold intercepted. pose proof (intercept_sound e2 e3) as Hi.
    repeat case_match; simplify_eq; done.
Qed.

Lemma poll_sound fuel timeout (e : E) : sound e (poll fuel timeout e).1.
Proof.
  unfold poll. generalize (Z.add (now e) <$> timeout). intros deadline.
  revert e. induction fuel as [|fuel IH]; intros e; cbn; [done|].
  refine (bind_keeps _ _ _ _ _ _); [apply poll_step_sound|]. intros e1 s _. by case_match.
Qed.

(** ** The client's calls *)
Lemma connect_rendezvous_sound (e : E) addr key : sound e (connect_rendezvous e addr key).1.
Proof.
  unfold connect_rendezvous. case_match; [|done].
  refine (bind_keeps _ _ _ _ _ _); [apply connect_sound|]. intros. apply rv_sound.
Qed.

Lemma introduce_sound (e : E) key : sound e (introduce e key).1.
Proof.
  unfold introduce. do 3 (case_match; [done|]). cbn [fst].
  etrans; [|apply wake_at_sound]. etrans; [|case_match; [apply tell_rendezvous_sound|reflexivity]].
  apply set_asks_sound.
Qed.

Lemma join_group_sound (e : E) secret : sound e (join_group e secret).1.
Proof.
  unfold join_group. do 2 (case_match; [done|]). destruct (ok_or _ _); [|done..]. case_match; [done|].
  cbn [fst]. etrans; [|case_match; [apply tell_rendezvous_sound|reflexivity]]. apply rv_sound.
Qed.

Lemma leave_group_sound (e : E) g : sound e (leave_group e g).1.
Proof.
  unfold leave_group. cbn [fst]. etrans; [|case_match; [apply tell_rendezvous_sound|reflexivity]]. apply rv_sound.
Qed.
End sound.
