(* ===== verification/EndpointCalls.v ===== *)
(** * What holds whatever is called (crates/fectp/src/endpoint.rs)

    Every public method of [Endpoint] that changes it is a [Call]; [run] is a
    sequence of them on a fresh endpoint, against any socket, clock and
    generator. The theorems show that the tables agree after any sequence,
    that an identifier stands for one authenticated key for good, that the
    table of peers never outgrows its limit, and that [poll] gives the caller
    back its thread once its time is up, whatever arrives. *)
From stdpp Require Import gmap.
From S2P Require Import Prelude Bytes Error Float Frame Fragment Codec Reliability RetransmitQueue.
From S2P Require Import Cipher Symmetric Handshake Session Connect Compress Reassembly Tickets Pmtu.
From S2P Require Import Pipeline Control Udp EndpointState Endpoint EndpointReceive EndpointFrame EndpointTables.
Import Endpoint EndpointReceive.

Inductive Call :=
| CallConnectRendezvous (addr : SocketAddr) (rendezvous_public : bytes)
| CallIntroduce (key : bytes)
| CallJoinGroup (secret : bytes)
| CallLeaveGroup (group : bytes)
| CallConnect (addr : SocketAddr) (peer_public : option bytes) (zero_rtt : bytes)
| CallDisconnect (peer : Z)
| CallPoll (fuel : nat) (timeout : option Z)
| CallSend (peer : Z) (data : bytes) (payload_type : PayloadType)
| CallSendReliable (peer : Z) (data : bytes) (payload_type : PayloadType)
| CallSetPeerTimeout (within : option Z)
| CallSetKeepalive (every : option Z)
| CallSetHandshakeAttempts (attempts : Z)
| CallSetMaxRetries (attempts : Z)
| CallSetMaxPeers (limit : Z)
| CallSetMaxMigrationAttempts (rate : Z)
| CallSetHandshakeReply (payload : bytes)
| CallSetTicketLifetime (lifetime : Z)
| CallSetMaxHandshakes (per_second : Z).

Section calls.
Context {W K : Type} `{Net W} `{StaticKey K} `{Crypto} `{ZstdLib}.
Local Abbreviation E := (Endpoint W K).

Definition call (e : E) (c : Call) : E :=
  match c with
  | CallConnectRendezvous addr key => fst (connect_rendezvous e addr key)
  | CallIntroduce key => fst (introduce e key)
  | CallJoinGroup secret => fst (join_group e secret)
  | CallLeaveGroup group => fst (leave_group e group)
  | CallConnect addr key zero_rtt => fst (connect_and_send e addr key zero_rtt)
  | CallDisconnect peer => fst (disconnect e peer)
  | CallPoll fuel timeout => fst (poll fuel timeout e)
  | CallSend peer data t => fst (send e peer data t)
  | CallSendReliable peer data t => fst (send_reliable e peer data t)
  | CallSetPeerTimeout within => set_peer_timeout e within
  | CallSetKeepalive every => set_keepalive e every
  | CallSetHandshakeAttempts n => set_handshake_attempts e n
  | CallSetMaxRetries n => set_max_retries e n
  | CallSetMaxPeers n => set_max_peers e n
  | CallSetMaxMigrationAttempts n => set_max_migration_attempts_per_peer e n
  | CallSetHandshakeReply payload => fst (set_handshake_reply e payload)
  | CallSetTicketLifetime l => set_ticket_lifetime e l
  | CallSetMaxHandshakes n => set_max_handshakes_per_second e n
  end.

Definition run (calls : list Call) (e : E) : E := fold_left call calls e.

(** The largest limit on peers that was ever in force. *)
Definition largest (calls : list Call) : Z :=
  fold_left (fun n c => match c with CallSetMaxPeers limit => Z.max n (Z.max limit 1) | _ => n end)
    calls MAX_PEERS.

Definition sets_limit (c : Call) : bool := match c with CallSetMaxPeers _ => true | _ => false end.

Lemma call_sound (e : E) c : sets_limit c = false -> sound e (call e c).
Proof.
  intros Hc. destruct c; cbn [call]; try (by apply same_sound).
  - apply connect_rendezvous_sound.
  - apply introduce_sound.
  - apply join_group_sound.
  - apply leave_group_sound.
  - apply connect_and_send_sound.
  - apply disconnect_sound.
  - apply poll_sound.
  - eapply calm_sound, (send_calm (fun _ => True)), covers_all.
  - eapply calm_sound, (send_reliable_calm (fun _ => True)), covers_all.
  - apply same_sound; [done|]. unfold tables, set_max_retries. cbn. f_equal.
    by rewrite <- map_fmap_compose.
  - unfold set_handshake_reply. by case_match; [|apply same_sound].
  - split; [done|]. apply (Tables.started_step (tables e)); [|done]. intros. by left.
Qed.

(** What an identifier stands for, in the order of [Tables.extends]. *)
Definition stands (t t' : Tables) : Prop :=
  tb_next t <= tb_next t' /\
  (forall id x x', tb_who t !! id = Some x -> tb_who t' !! id = Some x' -> who_key x' = who_key x) /\
  (forall id, 0 <= id < tb_next t -> tb_who t !! id = None -> tb_started t !! id = None ->
    tb_who t' !! id = None /\ tb_started t' !! id = None) /\
  (forall id x, tb_who t !! id = Some x -> tb_started t' !! id = None).

Lemma call_ok (e : E) c : Tables.ok (tables e) ->
  Tables.ok (tables (call e c)) /\ stands (tables e) (tables (call e c)).
Proof.
  intros Hok. destruct (sets_limit c) eqn:Hc.
  - destruct c; try done. cbn. destruct Hok. split; [split; cbn; try done; lia|].
    split_and!; cbn in *; [lia|intros ??? E1 E2; by simplify_eq|done|done].
  - destruct (call_sound e c Hc) as [_ Hs]. destruct (Hs Hok) as [Hok' [? Hsame ? ? ? ?]].
    split; [done|]. split_and!; try done. intros id x x' ??. by destruct (Hsame id x x').
Qed.

Lemma stands_trans t1 t2 t3 :
  Tables.ok t1 -> stands t1 t2 -> stands t2 t3 -> stands t1 t3.
Proof.
  intros Hok (n1 & s1 & d1 & g1) (n2 & s2 & d2 & g2).
  assert (Hlive : forall id x, tb_who t1 !! id = Some x -> 0 <= id < tb_next t2).
  { intros id x Hid. assert (0 <= id < tb_next t1) by (apply (Tables.ok_ids _ Hok); left; eauto). lia. }
  split_and!; [lia| | |].
  - intros id x x3 Hx H3. destruct (tb_who t2 !! id) as [x2|] eqn:E2.
    + etrans; [by eapply s2|by eapply s1].
    + destruct (d2 id (Hlive id x Hx) E2 (g1 id x Hx)). congruence.
  - intros id ? ??. destruct (d1 id) as [??]; [done..|]. apply d2; [lia|done..].
  - intros id x Hx. destruct (tb_who t2 !! id) as [x2|] eqn:E2; [by eapply g2|].
    eapply (d2 id); eauto.
Qed.

Lemma run_ok calls (e : E) : Tables.ok (tables e) ->
  Tables.ok (tables (run calls e)) /\ stands (tables e) (tables (run calls e)).
Proof.
  revert e. induction calls as [|c calls IH]; intros e Hok; cbn.
  - split; [done|]. split_and!; [lia|by intros; simplify_eq|done|].
    intros id x Hid. by eapply Tables.ok_apart.
  - destruct (call_ok e c Hok) as [Hok1 H1']. destruct (IH _ Hok1) as [Hok2 H2'].
    split; [done|by eapply stands_trans].
Qed.

Lemma on_socket_ok (w : W) (mode : Mode K) : Tables.ok (tables (on_socket w mode)).
Proof.
  assert (He : forall id x, (who <$> (∅ : gmap Z PeerEntry)) !! id <> Some x).
  { intros id x. by rewrite fmap_empty, lookup_empty. }
  split; cbn; try done; try (intros id x Hx; by apply He in Hx).
  - intros s id. unfold Tables.listing. rewrite lookup_empty. cbn. rewrite elem_of_nil.
    split; [done|]. intros (x & Hx & _). by apply He in Hx.
  - intros id [[x Hx]|[x Hx]]; [by apply He in Hx|by rewrite fmap_empty, lookup_empty in Hx].
Qed.

(** The three tables seen as one relation. *)
Definition agree (e : E) : Prop :=
  (forall addr sid id, ep_routes e !! (addr, sid) = Some id <->
     exists en, ep_peers e !! id = Some en /\ en_addr en = addr /\ en_session_id en = sid) /\
  (forall sid id, id ∈ Tables.listing (ep_by_session e) sid <->
     exists en, ep_peers e !! id = Some en /\ en_session_id en = sid) /\
  (forall sid, NoDup (Tables.listing (ep_by_session e) sid)) /\
  (forall id, is_Some (ep_peers e !! id) -> ep_outbound e !! id = None).

Lemma run_agree (w : W) (mode : Mode K) (calls : list Call) : agree (run calls (on_socket w mode)).
Proof.
  set (e := run calls _). destruct (run_ok calls _ (on_socket_ok w mode)) as [[R1 R2 L N I A M P] _].
  fold e in R1, R2, L, N, A. cbn in *.
  assert (Hw : forall id x, (who <$> ep_peers e) !! id = Some x <-> exists en, ep_peers e !! id = Some en /\ x = who en).
  { intros id x. rewrite lookup_fmap, fmap_Some. done. }
  split_and!.
  - intros addr sid id. split.
    + intros (x & (en & Hen & ->)%Hw & <- & <-)%R2. by exists en.
    + intros (en & Hen & <- & <-). apply (R1 id (who en)). apply Hw. by exists en.
  - intros sid id. rewrite L. split.
    + intros (x & (en & ? & ->)%Hw & <-). by exists en.
    + intros (en & ? & <-). exists (who en). split; [apply Hw; by exists en|done].
  - intros sid. unfold Tables.listing. destruct (_ !! _) eqn:Hl; [by apply N in Hl as [_ ?]|constructor].
  - intros id [en Hen]. assert (Hn : (ob_addr <$> ep_outbound e) !! id = None) by (eapply A, Hw; eauto).
    by rewrite lookup_fmap, fmap_None in Hn.
Qed.

(** C11: whatever is called on an endpoint and whatever arrives at it, its
    three tables stay one relation: the route of an address and an identifier
    names a session exactly when that session is at that address under that
    identifier, and the sessions listed under an identifier are exactly those
    wearing it, each once. *)
Theorem endpoint_tables_agree (w : W) (mode : Mode K) (calls : list Call) :
  let e := run calls (on_socket w mode) in
  (forall addr sid id, ep_routes e !! (addr, sid) = Some id <->
     exists en, ep_peers e !! id = Some en /\ en_addr en = addr /\ en_session_id en = sid) /\
  (forall sid id, id ∈ Tables.listing (ep_by_session e) sid <->
     exists en, ep_peers e !! id = Some en /\ en_session_id en = sid) /\
  (forall sid, NoDup (Tables.listing (ep_by_session e) sid)) /\
  (forall id, is_Some (ep_peers e !! id) -> ep_outbound e !! id = None).
Proof. apply run_agree. Qed.

(** C12: an identifier stands for one peer for good: once a session with an
    authenticated key has been filed under it, no later call and no datagram
    makes it name a session with another key. *)
Theorem peer_identity_stable (w : W) (mode : Mode K) (before after : list Call) id key key' :
  peer_public_key (run before (on_socket w mode)) id = Some key ->
  peer_public_key (run (before ++ after) (on_socket w mode)) id = Some key' -> key' = key.
Proof.
  unfold run. rewrite fold_left_app. fold (run before (on_socket w mode)).
  set (e := run before _). fold (run after e).
  destruct (run_ok before _ (on_socket_ok w mode)) as [Hok _].
  destruct (run_ok after _ Hok) as [_ (_ & Hs & _)]. fold e in Hs.
  unfold peer_public_key. destruct (ep_peers e !! id) as [en|] eqn:E1; [|done].
  destruct (ep_peers (run after e) !! id) as [en'|] eqn:E2; [|done]. intros [= <-] [= <-].
  apply (Hs id (who en) (who en')); cbn; by rewrite lookup_fmap, ?E1, ?E2.
Qed.

Lemma run_count calls (e : E) limit :
  Tables.ok (tables e) -> ep_max_peers e <= limit -> peer_count e <= limit ->
  peer_count (run calls e) <=
  fold_left (fun n c => match c with CallSetMaxPeers limit => Z.max n (Z.max limit 1) | _ => n end) calls limit.
Proof.
  revert e limit. induction calls as [|c calls IH]; intros e limit Hok Hm Hc; cbn; [done|].
  destruct (call_ok e c Hok) as [Hok1 _]. destruct (sets_limit c) eqn:Hs.
  - destruct c; try done. cbn. apply IH; [done|cbn; lia|]. change (peer_count e <= Z.max limit (Z.max limit0 1)). lia.
  - destruct (call_sound e c Hs) as [_ Hst]. destruct (Hst Hok) as [_ Hext].
    pose proof (Tables.ext_max _ _ Hext) as Hx. pose proof (Tables.ext_count _ _ Hext) as Hn.
    rewrite !tables_count in Hn. cbn in Hx, Hn.
    assert (peer_count (call e c) <= limit) by lia. assert (ep_max_peers (call e c) <= limit) by lia.
    by destruct c; try done; apply IH.
Qed.

(** the table of peers never outgrows the largest limit that was set,
    however many handshakes are answered. *)
Theorem peer_count_bounded (w : W) (mode : Mode K) (calls : list Call) :
  peer_count (run calls (on_socket w mode)) <= largest calls.
Proof. apply run_count; [apply on_socket_ok|done..]. Qed.
End calls.

(** ** Time *)

(** [n] receives, with whatever else in between. *)
Inductive received {W} `{Net W} : nat -> W -> W -> Prop :=
| received_0 w w' : reach w w' -> received 0 w w'
| received_S n w w1 size timeout w' :
    received n w w1 -> reach (net_recv w1 size timeout).1 w' -> received (S n) w w'.

(** A clock that does not go back, on a host that cannot deliver [busy]
    datagrams without a millisecond going by. *)
Class NetClock (W : Type) `{Net W} (busy : nat) := {
  clock_send (w : W) b a : net_now w <= net_now (net_send w b a).1;
  clock_random (w : W) n : net_now w <= net_now (net_random w n).1;
  clock_recv (w : W) size timeout : net_now w <= net_now (net_recv w size timeout).1;
  clock_busy (w w' : W) : received busy w w' -> net_now w < net_now w';
}.

Section time.
Context {W K : Type} `{Net W} `{StaticKey K} `{Crypto} `{ZstdLib} (busy : nat) `{!NetClock W busy}.
Local Abbreviation E := (Endpoint W K).

Lemma clock_reach (w w' : W) : reach w w' -> net_now w <= net_now w'.
Proof.
  induction 1 as [|w b a w' _ IH|w n w' _ IH|w s t w' _ IH]; [done|..].
  - by etrans; [apply clock_send|].
  - by etrans; [apply clock_random|].
  - by etrans; [apply clock_recv|].
Qed.

Lemma received_reach n (w w1 w' : W) : received n w w1 -> reach w1 w' -> received n w w'.
Proof. destruct 1; intros; [constructor|econstructor; [done|]]; by etrans. Qed.

Lemma received_app n m (w w1 w' : W) : received n w w1 -> received m w1 w' -> received (m + n) w w'.
Proof. intros Hn. induction 1; [by eapply received_reach|]. econstructor; eauto. Qed.

Lemma received_split n m (w w' : W) : received (m + n) w w' -> exists w1, received n w w1 /\ received m w1 w'.
Proof.
  revert w'. induction m as [|m IH]; cbn; intros w' Hr; [exists w'; split; [done|by constructor]|].
  inversion Hr; subst. edestruct IH as (w2 & ? & ?); [done|]. exists w2. split; [done|]. econstructor; eauto.
Qed.

Lemma clock_many k (w w' : W) : received (k * busy) w w' -> net_now w + Z.of_nat k <= net_now w'.
Proof.
  revert w'. induction k as [|k IH]; cbn; intros w' Hr.
  - inversion Hr as [?? Hw|]; subst. apply clock_reach in Hw. lia.
  - apply received_split in Hr as (w1 & H1' & H2'%clock_busy). apply IH in H1'. lia.
Qed.

(** A turn that goes round again has read the socket, and the deadline has
    not passed. *)
Lemma poll_turn_again deadline (e e' : E) :
  poll_turn deadline e = (e', Ok None) ->
  past e' deadline = false /\
  exists w1 size t, reach (ep_world e) w1 /\ reach (net_recv w1 size t).1 (ep_world e').
Proof.
  unfold poll_turn. pose proof (before_recv_sound e) as [Hb _].
  destruct (before_recv e) as [e1 [[ev|]|?|]]; try done. cbn in Hb.
  destruct (net_recv _ _ _) as [w rcv] eqn:Hr.
  assert (Hd : forall m : E * HostResult (option Event), reach w (ep_world m.1) ->
    (let! (e, ev) := m in match ev with Some ev => (e, Ok (Some ev))
      | None => (e, Ok (if past e deadline then Some Idle else None)) end) = (e', Ok None) ->
    past e' deadline = false /\ reach w (ep_world e')).
  { intros [e2 [[ev|]|?|]]; cbn; intros Hw Hm; try done. case_match; by simplify_eq. }
  intros Hm. apply Hd in Hm as [Hp Hw].
  - split; [done|]. do 3 eexists. split; [exact Hb|]. rewrite Hr. exact Hw.
  - destruct rcv as [[dg from]|err]; [|by destruct (is_stale_unreachable err), (is_timeout err)].
    destruct (dispatch_sound (set_ep_rx (set_ep_world e1 w) dg) from) as [Hs _]. exact Hs.
Qed.

Lemma poll_once_again fuel deadline (e e' : E) :
  poll_once_loop fuel deadline e = (e', Ok None) ->
  received fuel (ep_world e) (ep_world e') /\ (fuel <> 0%nat -> past e' deadline = false).
Proof.
  revert e. induction fuel as [|fuel IH]; intros e; cbn.
  - intros [= ->]. split; [by constructor|done].
  - destruct (poll_turn deadline e) as [e1 [[ev|]|?|]] eqn:Ht; try done. intros Hl.
    apply poll_turn_again in Ht as (Hp & w1 & size & t & Hw1 & Hw2).
    assert (Hone : received 1 (ep_world e) (ep_world e1)) by (econstructor; [by constructor|done]).
    destruct (IH _ Hl) as [Hr Hd]. split.
    + replace (S fuel) with (fuel + 1)%nat by lia. by eapply received_app.
    + intros _. destruct fuel; [|by apply Hd]. cbn in Hl. by simplify_eq.
Qed.

(** C31: [poll_once] returns to its caller, with an event, with [Idle] or with
    an error, once the time it was given has passed, however fast datagrams
    arrive and whatever is in them: on a host that delivers fewer than [busy]
    datagrams a millisecond, within [busy] turns for each. *)
Theorem poll_once_returns (e e' : E) (timeout : Z) (fuel : nat) r :
  0 <= timeout -> (Z.to_nat (timeout + 1) * busy <= fuel)%nat ->
  poll_once fuel (Some timeout) e = (e', r) -> r <> Ok None.
Proof.
  intros Ht Hf Hp ->. unfold poll_once in Hp. apply poll_once_again in Hp as [Hr Hd].
  replace fuel with ((fuel - Z.to_nat (timeout + 1) * busy) + Z.to_nat (timeout + 1) * busy)%nat in Hr by lia.
  apply received_split in Hr as (w1 & Hr1%clock_many & Hr2).
  assert (net_now w1 <= net_now (ep_world e')).
  { clear -Hr2 busy NetClock0. remember (fuel - _)%nat as n eqn:E. clear E. induction Hr2; [by apply clock_reach|].
    etrans; [exact IHHr2|]. etrans; [apply clock_recv|by apply clock_reach]. }
  assert (busy <> 0%nat).
  { intros ->. assert (Hz := clock_busy (ep_world e) (ep_world e) (received_0 _ _ (reach_refl _))). lia. }
  assert (fuel <> 0%nat) as Hf0 by nia. specialize (Hd Hf0). cbn in Hd. zbool. unfold now in *. lia.
Qed.
End time.

(** ** On a concrete host *)
#[global] Instance ToyNet_clock : NetClock ToyNet 1.
Proof.
  assert (Hrecv : forall w size timeout, tn_clock w + 1 <= tn_clock (ToyNet.recv w size timeout).1).
  { intros w size timeout. unfold ToyNet.recv. repeat case_match; cbn; zbool; lia. }
  assert (Hreach : forall w w' : ToyNet, reach w w' -> tn_clock w <= tn_clock w').
  { induction 1 as [|w b a w' _ IH|w n w' _ IH|w s t w' _ IH]; [done..|].
    pose proof (Hrecv w s t). cbn in *. lia. }
  split; cbn; try done.
  - intros w size timeout. pose proof (Hrecv w size timeout). lia.
  - intros w w' Hr. inversion Hr as [|? ? w1 size t ? H0 Hw]; subst. inversion H0; subst.
    pose proof (Hrecv w1 size t). pose proof (Hreach _ _ Hw). pose proof (Hreach w w1 ltac:(done)). cbn in *. lia.
Qed.

#[local] Existing Instance Toy.crypto.
#[local] Existing Instance ToyZstd.zstd.

(** Two endpoints on the toy host: [client] connects to [server]. *)
Module Demo.
Definition addr (n : Z) : SocketAddr := SocketAddrV4 [10; 0; 0; n] 4000.
Definition key (n : Z) : Keypair := Keypair.from_secret (zeros 31 ++ [n]).
Definition world (seed : Z) (inbox : list (Z * bytes * SocketAddr)) : ToyNet :=
  mkToyNet 1000 inbox [] seed Settings.default.

(** What an endpoint has sent, arriving from [from]. *)
Definition arriving (from : SocketAddr) (e : Endpoint ToyNet Keypair) : list (Z * bytes * SocketAddr) :=
  map (fun m => (tn_clock (ep_world e), m.1, from)) (tn_outbox (ep_world e)).

Definition client : Endpoint ToyNet Keypair :=
  fst (connect (on_socket (world 1 []) (PublicKeyMode (key 5))) (addr 2) (Some (kp_public (key 6)))).

Definition server_world : ToyNet := world 2 (arriving (addr 1) client).
Definition server_mode : Mode Keypair := PublicKeyMode (key 6).
Definition server : Endpoint ToyNet Keypair := fst (poll 5 (Some 10) (on_socket server_world server_mode)).
End Demo.

Lemma peer_identity_stable_witness :
  peer_public_key (run ([CallPoll 5 (Some 10)] ++ [CallSend 0 [1; 2; 3] Opaque; CallPoll 5 (Some 10)])
    (on_socket Demo.server_world Demo.server_mode)) 0 = Some (kp_public (Demo.key 5)).
Proof.
  match goal with |- ?x = _ => destruct x as [k|] eqn:Hk; [|vm_compute in Hk; discriminate Hk] end.
  f_equal. eapply (peer_identity_stable Demo.server_world Demo.server_mode [CallPoll 5 (Some 10)]); [|exact Hk].
  vm_compute. reflexivity.
Defined.

Lemma poll_once_returns_witness : (poll_once 11 (Some 10) Demo.server).2 <> Ok None.
Proof.
  eapply (poll_once_returns 1 Demo.server _ 10 11); [lia|vm_compute; lia|]. apply surjective_pairing.
Defined.
