(* ===== verification/EndpointAdmission.v ===== *)
(** * Who an endpoint talks to (crates/fectp/src/endpoint.rs)

    An application decides whether to keep a peer when it is told of it, so it
    has to be told of every one, and before anything the peer says. [tame e e']
    says an operation filed no session and queued no event that tells of one or
    of a message; [announced] that an operation which returns an event filed
    only the session the event tells of, and returned a message only of a
    session already there. *)
From stdpp Require Import gmap.
From S2P Require Import Prelude Bytes Error Float Frame Fragment Codec Reliability RetransmitQueue.
From S2P Require Import Cipher Symmetric Handshake Session Connect Compress Reassembly Tickets Pmtu.
From S2P Require Import Pipeline Control Udp EndpointState Endpoint EndpointReceive EndpointFrame EndpointTables EndpointCalls.
Import Endpoint EndpointReceive.

(** Events that may wait in the queue. *)
Definition quiet (ev : Event) : bool :=
  match ev with Connected _ _ _ _ | Message _ _ => false | _ => true end.

Section admission.
Context {W K : Type} `{Net W} `{StaticKey K} `{Crypto} `{ZstdLib}.
Local Abbreviation E := (Endpoint W K).

Definition has (e : E) (id : Z) : Prop := is_Some (ep_peers e !! id).
Definition hushed (e : E) : Prop := Forall (fun ev => quiet ev = true) (ep_events e).

Definition tame (e e' : E) : Prop := (forall id, has e' id -> has e id) /\ (hushed e -> hushed e').

#[global] Instance tame_preorder : PreOrder tame.
Proof. split; [by split; auto|]. intros e1 e2 e3 [K1 U1] [K2 U2]. split; auto. Qed.

Lemma has_tables (e : E) id : has e id <-> is_Some (tb_who (tables e) !! id).
Proof. unfold has, tables. cbn. rewrite lookup_fmap. by destruct (ep_peers e !! id); cbn; split; intros []. Qed.

(** Nothing happened to the tables nor the queue. *)
Lemma tame_same (e e' : E) : tables e' = tables e -> ep_events e' = ep_events e -> tame e e'.
Proof. intros Ht He. split; [intros id; by rewrite !has_tables, Ht|unfold hushed; by rewrite He]. Qed.

Lemma calm_tame P (e e' : E) : calm P e e' -> (hushed e -> hushed e') -> tame e e'.
Proof. intros (_ & Ht & _) Hh. split; [intros id; by rewrite !has_tables, Ht|done]. Qed.

Lemma hushed_push (e : E) ev : quiet ev = true -> hushed e -> hushed (push_event e ev).
Proof. intros Hq Hh. apply Forall_app. split; [exact Hh|by constructor]. Qed.

(** ** Operations that leave the queue alone *)
Definition still (e e' : E) : Prop := ep_events e' = ep_events e.
#[local] Instance still_preorder : PreOrder still.
Proof. split; [done|]. intros ??? E1 E2. unfold still in *. by rewrite E2. Qed.

Lemma still_hushed (e e' : E) : still e e' -> hushed e -> hushed e'.
Proof. unfold still, hushed. by intros ->. Qed.

Lemma send_out_still (e : E) buf addr : still e (send_out e buf addr).1.
Proof. unfold send_out, still. by destruct send_datagram. Qed.
Lemma send_anyway_still (e : E) buf addr : still e (send_anyway e buf addr).1.
Proof. unfold send_anyway, still. by destruct net_send. Qed.
Lemma draw_still (e : E) n : still e (draw e n).1.
Proof. unfold draw, still. by destruct net_random. Qed.
Lemma stamp_sent_still (e : E) id : still e (stamp_sent e id).
Proof. unfold stamp_sent. by case_match. Qed.

(** Take apart the pair a call returns and go on from its state. *)
Ltac past lem := via lem; etrans; [eassumption|].

Lemma seal_to_still (e : E) id en data pt mid : still e (seal_to e id en data pt mid).1.
Proof.
  unfold seal_to. destruct (Peer.seal _ _ _ _ _ _ _) as [p [[tx n]|?|]]; [|done..]. cbn.
  destruct (slice _ _ _); [|done..]. etrans; [|apply send_out_still]. done.
Qed.

Lemma send_still (e : E) id data pt : still e (send e id data pt).1.
Proof.
  unfold send. destruct (ep_peers e !! id); [|done]. cbn [ok_or].
  refine (bind_keeps _ _ _ _ _ _); [apply seal_to_still|]. intros. apply stamp_sent_still.
Qed.

Lemma hasten_refresh_still (e : E) id : still e (hasten_refresh e id).
Proof. unfold hasten_refresh. by repeat case_match. Qed.

Lemma send_keepalive_still (e : E) id : still e (send_keepalive e id).1.
Proof.
  unfold send_keepalive. case_match; [|done]. past draw_still.
  destruct (Peer.challenge _ _ _) as [p' [[ack n]|?|]]; [|done..]. cbn. destruct (slice _ _ _); [|done..].
  refine (bind_keeps _ _ _ _ _ _); [|intros; apply stamp_sent_still]. etrans; [|apply send_out_still]. done.
Qed.

Lemma send_probe_still (e : E) id t s : still e (send_probe e id t s).
Proof.
  unfold send_probe. case_match; [|done]. destruct (Peer.probe _ _ _ _) as [p' [[tx n]|?|]]; [|done..].
  via send_anyway_still. case_match; [|done]. by etrans.
Qed.

Lemma may_try_still (e : E) id : still e (may_try_unknown_address e id).1.
Proof. unfold may_try_unknown_address. by repeat case_match. Qed.

Lemma repeat_handshake_still (e : E) from sid : still e (repeat_handshake e from sid).1.
Proof.
  unfold repeat_handshake. repeat (case_match; try done).
  all: match goal with E : send_out ?e ?b ?a = _ |- _ => pose proof (send_out_still e b a) as Hs; rewrite E in Hs end; done.
Qed.

Lemma send_challenge_still (e : E) id en addr t : still e (send_challenge e id en addr t).1.
Proof.
  unfold send_challenge. destruct (Peer.challenge _ _ _) as [p' [[ack n]|?|]]; [|done..]. cbn.
  destruct (slice _ _ _); [|done..].
  refine (bind_keeps _ _ _ _ _ _); [|intros; apply stamp_sent_still]. etrans; [|apply send_out_still]. done.
Qed.

Lemma start_probe_still (e : E) id addr : still e (start_probe e id addr).1.
Proof.
  unfold start_probe. case_match; [|done]. cbn zeta. case_match; try done; try apply send_challenge_still.
  past draw_still. apply send_challenge_still.
Qed.

Lemma note_heard_still (e : E) id en : still e (note_heard e id en).
Proof. unfold note_heard. by case_match. Qed.

Lemma on_established_still (e : E) id from n i : still e (on_established e id from n i).1.
Proof.
  unfold on_established. refine (bind_keeps _ _ _ _ _ _); [|intros; by repeat case_match].
  case_match; [|done]. destruct (slice _ _ _); [|done..].
  refine (bind_keeps _ _ _ _ _ _); [apply send_out_still|]. intros. apply stamp_sent_still.
Qed.

Lemma to_event_still (e : E) id i : still e (to_event e id i).1.
Proof. unfold to_event. destruct i; try done. destruct (slice _ _ _); [|done..]. by repeat case_match. Qed.

(** ** Operations that leave the sessions as they are *)
Lemma calm_still_tame P (e e' : E) : calm P e e' -> still e e' -> tame e e'.
Proof. intros Hc Hs. eapply calm_tame; [exact Hc|]. by apply still_hushed. Qed.

(** The queue takes only quiet events. *)
Definition hushes (e e' : E) : Prop := hushed e -> hushed e'.
#[local] Instance hushes_preorder : PreOrder hushes.
Proof. split; [by intros ??|]. intros ??? Ha Hb Hx. by apply Hb, Ha. Qed.
#[local] Hint Extern 0 (hushes _ _) => exact (fun quiet_still => quiet_still) : core.

Lemma still_hushes (e e' : E) : still e e' -> hushes e e'.
Proof. exact (still_hushed e e'). Qed.

Lemma drive_queue_of_hushes (e : E) t id : hushes e (drive_queue_of e t id).1.
Proof.
  unfold drive_queue_of. case_match; [|done]. destruct Peer.drive_queue as [d [[f|]|?|]]; cbn; try done.
  intros Hx. by apply hushed_push.
Qed.

Lemma for_peers_hushes f (e : E) ids : (forall e id, hushes e (f e id).1) -> hushes e (for_peers f e ids).1.
Proof.
  intros Hf. revert e. induction ids as [|id ids IH]; intros e; cbn [for_peers]; [done|].
  refine (bind_keeps _ _ _ _ _ _); [apply Hf|]. intros. apply IH.
Qed.

Lemma drive_queues_hushes (e : E) : hushes e (drive_queues e).1.
Proof.
  unfold drive_queues. refine (bind_keeps _ _ _ _ _ _); [|done].
  apply for_peers_hushes. intros. apply drive_queue_of_hushes.
Qed.

Lemma send_reliable_hushes (e : E) id data pt : hushes e (send_reliable e id data pt).1.
Proof.
  unfold send_reliable. destruct (ep_peers e !! id) as [en|]; [|done]. cbn [ok_or].
  case_match; [case_match; [done|]|].
  - destruct RetransmitQueue.register as [q [n|?|]]; [|done..]. cbn [map_err].
    refine (bind_keeps _ _ _ _ _ _); [by etrans; [|apply still_hushes, seal_to_still]|].
    intros e1 _ _. etrans; [apply still_hushes, (stamp_sent_still _ id)|].
    destruct (ep_peers _ !! id); [|done]. cbn [ok_or]. by case_match.
  - destruct Peer.queue_message as [p [[]|?|]]; [|done..].
    refine (bind_keeps _ _ _ _ _ _); [|done]. by etrans; [|apply drive_queues_hushes].
Qed.

Lemma drive_retransmits_of_hushes (e : E) t id : hushes e (drive_retransmits_of e t id).1.
Proof.
  unfold drive_retransmits_of. case_match; [|done]. destruct Peer.drive_retransmits as [d [[]|?|]]; [|done..].
  cbn zeta. cbn [fst]. intros Hx.
  match goal with |- context [if ?c then hasten_refresh ?a ?b else _] =>
    assert (Hs : still e (if c then hasten_refresh a b else a)) end.
  { case_match; [etrans; [|apply hasten_refresh_still]|]; done. }
  apply (still_hushed _ _ Hs) in Hx. apply Forall_app. split; [exact Hx|by apply Forall_replicate].
Qed.

Lemma drive_retransmits_tame (e : E) : tame e (drive_retransmits e).1.
Proof.
  eapply calm_tame; [by apply (drive_retransmits_calm (fun _ => True)), covers_all|].
  apply for_peers_hushes. intros. apply drive_retransmits_of_hushes.
Qed.

Lemma drive_queues_tame (e : E) : tame e (drive_queues e).1.
Proof.
  eapply calm_tame; [by apply (drive_queues_calm (fun _ => True)), covers_all|apply drive_queues_hushes].
Qed.

Lemma send_reliable_tame (e : E) id data pt : tame e (send_reliable e id data pt).1.
Proof.
  eapply calm_tame; [by apply (send_reliable_calm (fun _ => True)), covers_all|apply send_reliable_hushes].
Qed.

Lemma send_tame (e : E) id data pt : tame e (send e id data pt).1.
Proof. eapply calm_still_tame; [by apply (send_calm (fun _ => True)), covers_all|apply send_still]. Qed.

Lemma drive_keepalives_tame (e : E) : tame e (drive_keepalives e).1.
Proof.
  eapply calm_tame; [by apply (drive_keepalives_calm (fun _ => True)), covers_all|].
  unfold drive_keepalives. case_match; [|done]. apply for_peers_hushes. intros. apply still_hushes, send_keepalive_still.
Qed.

Lemma fold_kept {A} (R : E -> E -> Prop) `{!PreOrder R} (f : E -> A -> E) l e :
  (forall e x, R e (f e x)) -> R e (fold_left f l e).
Proof. intros Hf. revert e. induction l as [|x l IH]; intros e; cbn; [done|]. etrans; [apply Hf|apply IH]. Qed.

Lemma drive_pmtu_tame (e : E) : tame e (drive_pmtu e).
Proof.
  eapply calm_still_tame; [by apply (drive_pmtu_calm (fun _ => True)), covers_all|].
  apply (fold_kept still). intros e1 id. unfold drive_pmtu_of. repeat (case_match; try done).
  etrans; [|apply (fold_kept still); intros; apply send_probe_still]. done.
Qed.

Lemma tell_rendezvous_tame (e : E) c : tame e (tell_rendezvous e c).
Proof. unfold tell_rendezvous. case_match; [apply send_reliable_tame|done]. Qed.

Lemma send_out_tame (e : E) buf addr : tame e (send_out e buf addr).1.
Proof. eapply calm_still_tame; [by apply (send_out_calm (fun _ => True))|apply send_out_still]. Qed.

Lemma send_anyway_tame (e : E) buf addr : tame e (send_anyway e buf addr).1.
Proof. eapply calm_still_tame; [by apply (send_anyway_calm (fun _ => True))|apply send_anyway_still]. Qed.

Lemma draw_tame (e : E) n : tame e (draw e n).1.
Proof. eapply calm_still_tame; [by apply (draw_calm (fun _ => True))|apply draw_still]. Qed.

Lemma may_try_tame (e : E) id : tame e (may_try_unknown_address e id).1.
Proof. eapply calm_still_tame; [by apply (may_try_calm (fun _ => True))|apply may_try_still]. Qed.

Lemma repeat_handshake_tame (e : E) from sid : tame e (repeat_handshake e from sid).1.
Proof. eapply calm_still_tame; [by apply (repeat_handshake_calm (fun _ => True))|apply repeat_handshake_still]. Qed.

Lemma start_probe_tame (e : E) id addr : tame e (start_probe e id addr).1.
Proof. eapply calm_still_tame; [by apply (start_probe_calm (fun _ => True))|apply start_probe_still]. Qed.

Lemma note_heard_tame (e : E) id en : ep_peers e !! id = Some en -> tame e (note_heard e id en).
Proof. intros. eapply calm_still_tame; [by apply (note_heard_calm (fun _ => True))|apply note_heard_still]. Qed.

Lemma on_established_tame (e : E) id from n i : tame e (on_established e id from n i).1.
Proof. eapply calm_still_tame; [by apply (on_established_calm (fun _ => True))|apply on_established_still]. Qed.

Lemma to_event_tame (e : E) id i : tame e (to_event e id i).1.
Proof. eapply calm_still_tame; [by apply (to_event_calm (fun _ => True))|apply to_event_still]. Qed.

(** Sessions kept, the queue kept, all else as may be. *)
Lemma tame_kept (e e' : E) : ep_peers e' = ep_peers e -> ep_events e' = ep_events e -> tame e e'.
Proof. intros Hp He. split; [intros id; unfold has; by rewrite Hp|unfold hushed; by rewrite He]. Qed.

Lemma push_tame (e : E) ev : quiet ev = true -> tame e (push_event e ev).
Proof. intros. split; [done|by apply hushed_push]. Qed.

Lemma set_entry_tame (e : E) id en : has e id -> tame e (set_entry e id en).
Proof.
  intros Hid. split; [|done]. intros id'. unfold has. cbn. destruct (decide (id' = id)) as [->|Hne]; [done|].
  by rewrite lookup_insert_ne.
Qed.

(** ** Releasing and moving *)
Lemma delete_tame (e e' : E) id : ep_peers e' = delete id (ep_peers e) -> ep_events e' = ep_events e -> tame e e'.
Proof.
  intros Hp He. split; [|unfold hushed; by rewrite He]. intros id'. unfold has. rewrite Hp.
  intros [x [_ Hx]%lookup_delete_Some]. by eexists.
Qed.

Lemma release_tame (e : E) id en : tame e (release e id en).
Proof. apply (delete_tame _ _ id); unfold release; by rewrite unfile_session_eq. Qed.

Lemma make_room_tame (e : E) : tame e (make_room e).
Proof. unfold make_room. repeat case_match; [done|apply release_tame|done]. Qed.

Lemma lose_tame (e : E) id : tame e (lose e id).
Proof. unfold lose. case_match; [|done]. etrans; [apply release_tame|by apply push_tame]. Qed.

Lemma drive_liveness_tame (e : E) : tame e (drive_liveness e).
Proof. unfold drive_liveness. case_match; [|done]. apply (fold_kept tame), lose_tame. Qed.

Lemma displace_tame (e : E) d : tame e (displace e d).
Proof.
  unfold displace. repeat case_match; try done. etrans; [|by apply push_tame].
  apply (delete_tame _ _ z); by rewrite unfile_session_eq.
Qed.

Lemma settle_probe_tame (e : E) id from token : tame e (settle_probe e id from token).1.
Proof.
  unfold settle_probe. destruct (ep_peers e !! id) as [en|] eqn:Hid; [|done].
  case_match; [|done]. case_match; [done|]. cbn [fst].
  match goal with |- tame e (wake_at (displace ?x _) _) => trans x end.
  - match goal with |- tame e ?x => trans (set_entry e id (moved_entry en from (now e))) end; [|by apply tame_kept].
    apply set_entry_tame. by eexists.
  - etrans; [apply displace_tame|by apply tame_kept].
Qed.

Lemma disconnect_tame (e : E) id : tame e (disconnect e id).1.
Proof.
  unfold disconnect. case_match; [by apply tame_kept|]. cbn zeta. case_match; [|by apply tame_kept].
  etrans; [|apply release_tame]. by apply tame_kept.
Qed.

(** ** Handshakes going out *)
Lemma connect_and_send_tame (e : E) addr key zero_rtt : tame e (connect_and_send e addr key zero_rtt).1.
Proof.
  unfold connect_and_send. destruct (next_u32 _) as [w sid]. set (e1 := set_ep_world e w).
  trans e1; [by apply tame_kept|]. destruct (opening_frame _ _ _) as [frame|?|]; [|done..].
  refine (bind_keeps _ _ _ _ _ _).
  - destruct (ep_mode e1); [destruct (ok_or _ _); [|done..]|]; (destruct (map_err _ _); [|done..]);
      via draw_tame; by repeat case_match.
  - intros e3 [hs [fr n]] _. refine (bind_keeps _ _ _ _ _ _); [apply send_out_tame|]. intros e4 _ _.
    by apply tame_kept.
Qed.

Lemma connect_tame (e : E) addr key : tame e (connect e addr key).1.
Proof. apply connect_and_send_tame. Qed.

Lemma drive_handshake_tame (e : E) t id : tame e (drive_handshake e t id).1.
Proof.
  unfold drive_handshake. case_match; [|done]. case_match; [by apply tame_kept|].
  refine (bind_keeps _ _ _ _ _ _); [|done]. etrans; [|apply send_out_tame]. by apply tame_kept.
Qed.

Lemma drive_due_handshakes_tame (e : E) t l : tame e (drive_due_handshakes e t l).1.
Proof.
  revert e. induction l as [|id l IH]; intros e; cbn; [done|].
  refine (bind_keeps _ _ _ _ _ _); [apply drive_handshake_tame|]. intros. by case_match.
Qed.

Lemma may_answer_tame (e : E) : tame e (may_answer_handshake e).1.
Proof. unfold may_answer_handshake. case_match. by apply tame_kept. Qed.

(** ** The rendezvous client *)
Lemma fail_introduction_tame (e : E) key r : tame e (fail_introduction e key r).
Proof. unfold fail_introduction. case_match; [|done]. etrans; [|by apply push_tame]. by apply tame_kept. Qed.

Lemma lose_rendezvous_tame (e : E) : tame e (lose_rendezvous e).
Proof.
  unfold lose_rendezvous. cbn zeta. etrans; [|apply (fold_kept tame); intros; apply fail_introduction_tame]. by apply tame_kept.
Qed.

Lemma drive_introductions_tame (e : E) : tame e (drive_introductions e).
Proof.
  unfold drive_introductions. cbn zeta. etrans; [|apply (fold_kept tame); intros; apply send_anyway_tame].
  etrans; [|apply (fold_kept tame); intros; apply fail_introduction_tame].
  match goal with |- tame e (set_ep_rv (set_ep_world ?x _) _) => trans x; [|by apply tame_kept] end.
  apply (fold_kept tame). intros. apply fail_introduction_tame.
Qed.

Lemma on_observed_tame (e : E) a : tame e (on_observed e a).
Proof.
  unfold on_observed. cbn zeta. case_match; [by apply tame_kept|].
  do 2 (etrans; [|apply (fold_kept tame); intros; apply tell_rendezvous_tame]). by apply tame_kept.
Qed.

(** The ask goes on, if it is still there. *)
Lemma asks_tame (e : E) asks : tame e (set_asks e asks).
Proof. by apply tame_kept. Qed.

Lemma on_introduction_tame (e : E) key a : tame e (on_introduction e key a).
Proof.
  unfold on_introduction. destruct (negb _ || _); [done|]. past send_anyway_tame.
  assert (Hput : forall (e : E) o, tame e match rv_asks (ep_rv e) !! key with
    | Some a => set_asks e (<[key := mkAsk (ask_since a) (Introduced o false)]> (rv_asks (ep_rv e)))
    | None => e end) by (intros ex ?; destruct (rv_asks (ep_rv ex) !! key); [apply asks_tame|done]).
  destruct (own_key _); [|apply Hput]. destruct (starts _ _); [|apply Hput].
  past connect_tame. destruct r; [apply Hput|apply fail_introduction_tame..].
Qed.

Lemma on_members_tame (e : E) tag l : tame e (on_members e tag l).
Proof.
  unfold on_members. case_match; [|done]. cbn zeta.
  etrans; [|apply (fold_kept tame); intros; by apply push_tame]. by apply tame_kept.
Qed.

Lemma on_control_tame (e : E) c : tame e (on_control e c).
Proof.
  destruct c; cbn; try done; try solve [apply on_observed_tame|apply fail_introduction_tame
    |apply on_introduction_tame|apply on_members_tame].
  unfold on_relay_offer. repeat case_match; try done; by apply tame_kept.
Qed.

Lemma on_connected_tame (e : E) id : tame e (on_connected e id).
Proof. unfold on_connected, link_through. repeat case_match; try done; by apply tame_kept. Qed.

Lemma on_connect_failed_tame (e : E) id ev : tame e (on_connect_failed e id ev).1.
Proof.
  unfold on_connect_failed. repeat case_match; cbn [fst]; try done; try apply fail_introduction_tame.
  etrans; [|apply tell_rendezvous_tame]. apply asks_tame.
Qed.

Lemma intercept_tame (e : E) ev : tame e (intercept e ev).1.
Proof.
  unfold intercept. destruct ev; cbn [fst]; try done.
  - case_match; [apply tell_rendezvous_tame|apply on_connected_tame].
  - case_match; [|done]. cbn [fst]. case_match; [apply on_control_tame|done].
  - case_match; [apply lose_rendezvous_tame|apply on_connect_failed_tame].
  - cbn zeta. etrans; [|case_match; [apply lose_rendezvous_tame|reflexivity]]. by apply tame_kept.
Qed.

Lemma mark_checked_tame (e : E) key o : tame e (mark_checked e key o).
Proof. unfold mark_checked. repeat case_match; try done; apply asks_tame. Qed.

Lemma answer_check_tame (e : E) from nonce : tame e (answer_check e from nonce).
Proof.
  unfold answer_check. case_match; [do 2 case_match; apply send_anyway_tame|].
  case_match; [|done]. do 2 case_match. case_match; [|done]. do 2 case_match.
  past send_anyway_tame. case_match; [|apply mark_checked_tame]. case_match; [|apply mark_checked_tame].
  past connect_tame. case_match; [apply mark_checked_tame|apply fail_introduction_tame..].
Qed.

Lemma not_a_frame_tame (e : E) from : tame e (not_a_frame e from).
Proof. unfold not_a_frame. repeat case_match; try done. apply answer_check_tame. Qed.

(** ** What an operation that returns an event tells *)
Definition announced (e : E) (m : E * HostResult (option Event)) : Prop :=
  (forall id, has m.1 id -> has e id \/ exists z r i, m.2 = Ok (Some (Connected id z r i)))
  /\ (forall id data, m.2 = Ok (Some (Message id data)) -> has e id)
  /\ (hushed e -> hushed m.1).

(** Nothing filed, and no message returned. *)
Definition speaks_of (m : HostResult (option Event)) : bool :=
  match m with Ok (Some ev) => negb (quiet ev) | _ => false end.

Lemma tame_announced (e : E) m : tame e m.1 -> speaks_of m.2 = false -> announced e m.
Proof.
  intros [Hh Hq] Hs. split; [left; by apply Hh|]. split; [|done]. intros id data Hm. by rewrite Hm in Hs.
Qed.

(** A message of a session that was there. *)
Lemma message_announced (e : E) id m :
  has e id -> tame e m.1 -> (forall ev, m.2 = Ok (Some ev) -> quiet ev = false -> exists data, ev = Message id data) ->
  announced e m.
Proof.
  intros Hid [Hh Hq] Hev. split; [left; by apply Hh|]. split; [|done]. intros id' data Hm.
  destruct (Hev _ Hm eq_refl) as [d [= -> _]]. done.
Qed.

Lemma tame_then_announced (e e1 : E) m : tame e e1 -> announced e1 m -> announced e m.
Proof.
  intros [Hh Hq] (Ha & Hm & Hx). split; [|split; [|auto]].
  - intros id [?|?]%Ha; auto.
  - intros id data Hd. eapply Hh, Hm, Hd.
Qed.

(** A step that tells of nothing, and what follows it. *)
Lemma bind_announced {A} (e : E) (m : E * HostResult A) k :
  tame e m.1 -> (forall e1 a, m = (e1, Ok a) -> announced e1 (k e1 a)) ->
  announced e (let! (e1, a) := m in k e1 a).
Proof.
  destruct m as [e1 [a|f|]]; cbn; intros Ht Hk; [|by apply tame_announced..].
  eapply tame_then_announced; [exact Ht|]. by apply Hk.
Qed.

(** The identifier is the one filed; nobody else came. *)
Lemma file_has (e : E) id link addr sid id' : has (file e id link addr sid) id' -> id' = id \/ has e id'.
Proof.
  intros [x Hx]%has_tables. rewrite tables_file in Hx. destruct (decide (id' = id)) as [->|Hne]; [by left|right].
  apply Tables.file_who in Hx; [|done]. apply (make_room_tame e), has_tables. by eexists.
Qed.

Lemma file_still (e : E) id link addr sid : still e (file e id link addr sid).
Proof.
  unfold still, file. cbn. assert (Hm : ep_events (make_room e) = ep_events e).
  { unfold make_room. repeat case_match; [done| |done]. unfold release. by rewrite unfile_session_eq. }
  case_match; [|done]. by rewrite unfile_session_eq.
Qed.

Lemma file_announced (e : E) id link addr sid z r i :
  announced e (file e id link addr sid, Ok (Some (Connected id z r i))).
Proof.
  split; [|split; [done|by apply still_hushed, file_still]]. intros id' [->|?]%file_has; [right; eauto|by left].
Qed.

Lemma remember_reply_tame (e : E) ev reply : tame e (remember_reply e ev reply).
Proof.
  unfold remember_reply. destruct ev; try done. destruct (ep_peers e !! peer) eqn:Hp; [|done].
  apply set_entry_tame. by eexists.
Qed.

(** What is done after, that files nobody. *)
Lemma announced_then_tame (e e1 e2 : E) r : announced e (e1, r) -> tame e1 e2 -> announced e (e2, r).
Proof. intros (Ha & Hm & Hx) [Hh Hq]. split; [|split; [done|auto]]. intros id Hid. by apply Ha, Hh. Qed.

Lemma establish_announced (e : E) from z r written : announced e (or_none (establish e from z r written)).
Proof.
  unfold establish, or_none. destruct (map_err _ _) as [[[s tx] n]|?|]; cbn -[remember_reply file]; [|by apply tame_announced..].
  destruct (slice _ _ _); cbn -[remember_reply file]; [|by apply tame_announced; [apply tame_kept|]..].
  pose proof (send_out_tame (set_ep_tx e tx) a from) as Hs.
  destruct (send_out _ _ _) as [e1 [[]|?|]]; cbn -[remember_reply file] in *; [|by apply tame_announced; [etrans; [|exact Hs]; apply tame_kept|]..].
  eapply tame_then_announced; [etrans; [|exact Hs]; by apply tame_kept|].
  eapply announced_then_tame; [|apply (remember_reply_tame _ (Connected _ z r false))].
  eapply tame_then_announced; [|apply file_announced]. by apply tame_kept.
Qed.

(** A failure files nobody. *)
Ltac or_fails :=
  lazymatch goal with |- announced _ (or_none (match ?c with Ok _ => _ | Err _ => _ | Panic => _ end)) =>
    destruct c; [|by apply tame_announced..] end.

Lemma accept_full_announced (e : E) from : announced e (or_none (accept_full e from)).
Proof.
  unfold accept_full. case_match; [|by apply tame_announced]. destruct Responder.read_init as [r' r].
  do 2 or_fails. via draw_tame.
  eapply tame_then_announced; [exact Hk|apply establish_announced].
Qed.

Lemma find_ticket_tame (e : E) id : tame e (find_ticket e id).1.
Proof. unfold find_ticket. repeat case_match; simplify_eq; by apply tame_kept. Qed.

Lemma accept_resumed_announced (e : E) from : announced e (or_none (accept_resumed e from)).
Proof.
  unfold accept_resumed. or_fails. via find_ticket_tame.
  eapply tame_then_announced; [exact Hk|]. or_fails.
  destruct ResumeResponder.read_init as [r' r].
  do 2 or_fails. via draw_tame.
  eapply tame_then_announced; [exact Hk0|apply establish_announced].
Qed.

Lemma update_path_tame (e : E) addr f : tame e (update_path e addr f).
Proof. unfold update_path. case_match. by apply tame_kept. Qed.

Lemma complete_outbound_announced (e : E) from sid : announced e (complete_outbound e from sid).
Proof.
  unfold complete_outbound. destruct (find_outbound e from sid) as [[id o]|]; [|by apply tame_announced].
  match goal with |- context [if ob_attempts o =? 1 then ?a else ?b] =>
    set (e2 := if ob_attempts o =? 1 then a else b) end.
  assert (Ht : tame e e2).
  { etrans; [|unfold e2; case_match; apply update_path_tame]. by apply tame_kept. }
  eapply tame_then_announced; [exact Ht|].
  match goal with |- context [match ?c with Ok _ => _ | Err _ => _ | Panic => _ end] =>
    destruct c as [[[[link st] n] r]|?|] end; [|by apply tame_announced..].
  destruct (slice _ _ _); [|by apply tame_announced..]. unfold register_as.
  eapply tame_then_announced; [|apply file_announced]. by apply tame_kept.
Qed.

Lemma to_event_speaks (e : E) id i ev :
  (to_event e id i).2 = Ok (Some ev) -> exists data, ev = Message id data.
Proof.
  unfold to_event. destruct i; try done; [|intros [= <-]; eauto].
  destruct (slice _ _ _); [|done..]. cbn. repeat case_match; try done. intros [= <-]. eauto.
Qed.

Lemma to_event_announced (e : E) id i : has e id -> announced e (to_event e id i).
Proof.
  intros. apply (message_announced e id); [done|apply to_event_tame|]. intros ev Hev _.
  by eapply to_event_speaks.
Qed.

(** The session a frame authenticated to is there throughout. *)
Lemma calm_has P (e e' : E) id : calm P e e' -> has e id -> has e' id.
Proof. intros (_ & Ht & _). by rewrite !has_tables, Ht. Qed.

Lemma deliver_announced (e : E) id from est : announced e (deliver e id from est).
Proof.
  unfold deliver. destruct (ep_peers e !! id) as [en|] eqn:Hid; [|by apply tame_announced].
  destruct (Peer.ingest _ _ _ _) as [[p reply] r]. set (en1 := set_en_peer en p).
  set (e1 := set_ep_ack _ _). assert (Hb : has e id) by (by eexists).
  assert (H1e : tame e e1) by (trans (set_entry e id en1); [by apply set_entry_tame|by apply tame_kept]).
  eapply tame_then_announced; [exact H1e|]. destruct r as [[i f]|?|]; [|by apply tame_announced..].
  set (e2 := set_ep_rx e1 f). assert (Hid2 : ep_peers e2 !! id = Some en1) by apply lookup_insert_eq.
  eapply (tame_then_announced _ e2); [by apply tame_kept|].
  set (e3 := note_heard e2 id en1). assert (H3e : tame e2 e3) by (by apply note_heard_tame).
  assert (Hb3 : has e3 id).
  { eapply calm_has; [by apply (note_heard_calm (fun _ => True))|]. by eexists. }
  assert (Hok : forall m : E * HostResult unit, calm (fun _ => True) e3 m.1 -> tame e3 m.1 ->
    announced e2 (let! (e, _) := m in to_event e id i)).
  { intros m Hc Hm. eapply tame_then_announced; [exact H3e|]. refine (bind_announced _ _ _ _ _); [done|].
    intros e4 u Hu. subst m. apply to_event_announced. by eapply calm_has. }
  destruct i; [by apply tame_announced|..];
    (destruct est; [apply Hok; [by apply on_established_calm|apply on_established_tame]|]);
    try (apply Hok; [by apply start_probe_calm|apply start_probe_tame]).
  cbn zeta. eapply tame_then_announced; [exact H3e|].
  pose proof (settle_probe_tame e3 id from token) as Hs. fold e3. unfold settle_probe in *.
  destruct (ep_peers e3 !! id); [|by apply tame_announced]. case_match; [|by apply tame_announced].
  case_match; by apply tame_announced.
Qed.

Lemma try_candidates_announced n (e : E) from sid at_ : announced e (try_candidates n e from sid at_).
Proof.
  revert e at_. induction n as [|n IH]; intros e at_; cbn [try_candidates]; [by apply tame_announced|].
  case_match; [|by apply tame_announced]. via may_try_tame. eapply tame_then_announced; [exact Hk|].
  case_match; [apply IH|]. clear Hk Heqp. pose proof (deliver_announced e0 z from false) as Hd.
  destruct (deliver _ _ _ _) as [e1 [[ev|]|?|]]; cbn; try done. case_match; [done|].
  eapply tame_then_announced; [|apply IH]. destruct Hd as (Ha & _ & Hq). split; [|done].
  intros id [?|(? & ? & ? & [=])]%Ha. done.
Qed.

Lemma route_announced (e : E) from sid : announced e (route e from sid).
Proof. unfold route. case_match; [apply deliver_announced|apply try_candidates_announced]. Qed.

Lemma dispatch_frame_announced (e : E) from h : announced e (dispatch_frame e from h).
Proof.
  unfold dispatch_frame. repeat case_match; solve [by apply tame_announced|apply route_announced
    |apply complete_outbound_announced|apply accept_full_announced|apply accept_resumed_announced].
Qed.

Lemma dispatch_announced (e : E) from : announced e (dispatch e from).
Proof.
  unfold dispatch. case_match; [apply tame_announced; [cbn; case_match; [done|apply not_a_frame_tame]|done]|].
  case_match; [|by apply tame_announced..]. case_match; [apply dispatch_frame_announced|].
  refine (bind_announced _ _ _ _ _); [apply repeat_handshake_tame|]. intros e1 rep _.
  case_match; [by apply tame_announced|]. via may_answer_tame. eapply tame_then_announced; [exact Hk|].
  case_match; [apply dispatch_frame_announced|by apply tame_announced].
Qed.

(** ** The poll loop *)

(** Only [ConnectFailed] is returned by the timers. *)
Lemma drive_due_handshakes_quiet (e : E) t l : speaks_of (drive_due_handshakes e t l).2 = false.
Proof.
  revert e. induction l as [|id l IH]; intros e; cbn; [done|]. unfold drive_handshake.
  destruct (ep_outbound e !! id); cbn; [|apply IH]. destruct (_ && _); [done|].
  destruct (send_out _ _ _) as [e1 [[]|?|]]; [apply IH|done..].
Qed.

Lemma drive_announced (e : E) : announced e (drive e).
Proof.
  unfold drive. refine (bind_announced _ _ _ _ _); [apply drive_retransmits_tame|]. intros e1 _ _.
  refine (bind_announced _ _ _ _ _); [apply drive_due_handshakes_tame|]. intros e2 ev Hev.
  case_match.
  { apply tame_announced; [done|]. cbn. pose proof (drive_due_handshakes_quiet e1 (now e1)) as Hq.
    unfold drive_handshakes in Hev. specialize (Hq (map fst (filter (fun io => ob_next_attempt io.2 <= now e1) (map_to_list (ep_outbound e1))))).
    rewrite Hev in Hq. exact Hq. }
  eapply tame_then_announced; [apply drive_liveness_tame|].
  refine (bind_announced _ _ _ _ _); [apply drive_keepalives_tame|]. intros e3 _ _.
  apply tame_announced; [|done]. trans (drive_pmtu e3); [apply drive_pmtu_tame|by apply tame_kept].
Qed.

Lemma pop_event_tame (e : E) : tame e (pop_event e).1.
Proof.
  unfold pop_event. split; [by case_match|]. unfold hushed.
  destruct (ep_events e) eqn:He; cbn; [by rewrite He|].
  intros Hx. by inversion Hx.
Qed.

Lemma pop_event_quiet (e : E) ev : hushed e -> (pop_event e).2 = Some ev -> quiet ev = true.
Proof. unfold hushed, pop_event. destruct (ep_events e); [done|]. intros Hx [= <-]. by inversion Hx. Qed.

(** Go on from an operation that told of nothing. *)
Lemma announced_none (e e1 : E) : announced e (e1, Ok None) -> tame e e1.
Proof. intros (Ha & _ & Hq). split; [|done]. intros id [?|(? & ? & ? & [=])]%Ha. done. Qed.

Lemma announced_quiet (e e1 : E) ev : quiet ev = true -> announced e (e1, Ok (Some ev)) -> tame e e1.
Proof. intros Hv (Ha & _ & Hq). split; [|done]. intros id [?|(? & ? & ? & [= ->])]%Ha; done. Qed.

Lemma announced_bind (e : E) m k :
  announced e m -> (forall e1, m = (e1, Ok None) -> announced e1 (k e1)) ->
  announced e (let! (e1, ev) := m in match ev with Some ev => (e1, Ok (Some ev)) | None => k e1 end).
Proof.
  destruct m as [e1 [[ev|]|f|]]; cbn; intros Ha Hk; try done.
  eapply tame_then_announced; [by apply announced_none|]. by apply Hk.
Qed.

Lemma before_recv_announced (e : E) : hushed e -> announced e (before_recv e).
Proof.
  intros Hx. unfold before_recv.
  assert (Hm : announced e (if past e (ep_next_wake e) then drive e else (e, Ok None))).
  { case_match; [apply drive_announced|by apply tame_announced]. }
  apply announced_bind; [exact Hm|]. intros e1 Hm1. rewrite Hm1 in Hm.
  apply announced_none in Hm as [_ Hx1]. specialize (Hx1 Hx).
  assert (Hq : tame e1 (if 0 <? ep_queueing e1 then drive_queues e1 else (e1, Ok tt)).1).
  { destruct (0 <? _); [apply drive_queues_tame|done]. }
  refine (bind_announced _ _ _ _ _); [exact Hq|]. intros e2 u Hm2. rewrite Hm2 in Hq.
  assert (Hx2 : hushed e2) by (by apply Hq). clear Hm2.
  pose proof (pop_event_tame e2) as Ht. pose proof (pop_event_quiet e2) as Hp.
  destruct (pop_event e2) as [e3 [ev|]]; cbn in *; apply tame_announced; try done.
  cbn. by rewrite (Hp ev Hx2 eq_refl).
Qed.

Lemma poll_turn_announced deadline (e : E) : hushed e -> announced e (poll_turn deadline e).
Proof.
  intros Hx. unfold poll_turn. apply announced_bind; [by apply before_recv_announced|]. intros e1 _.
  destruct (net_recv _ _ _) as [w rcv]. eapply (tame_then_announced _ (set_ep_world e1 w)); [by apply tame_kept|].
  apply announced_bind.
  - destruct rcv as [[d from]|err].
    + eapply tame_then_announced; [|apply dispatch_announced]. by apply tame_kept.
    + repeat case_match; by apply tame_announced.
  - intros e2 _. apply tame_announced; [done|]. cbn. by destruct (past _ _).
Qed.

Lemma poll_once_announced fuel timeout (e : E) : hushed e -> announced e (poll_once fuel timeout e).
Proof.
  unfold poll_once. generalize (Z.add (now e) <$> timeout). intros deadline.
  revert e. induction fuel as [|fuel IH]; intros e Hx; cbn; [by apply tame_announced|].
  pose proof (poll_turn_announced deadline e Hx) as Ht. apply announced_bind; [done|].
  intros e1 Hm. apply IH. rewrite Hm in Ht. apply announced_none in Ht as [_ Hq]. auto.
Qed.

(** The event a turn of [poll] returns. *)
Definition returned (s : HostResult Step) : HostResult (option Event) :=
  match s with
  | Ok (Returns ev) => Ok (Some ev)
  | Ok _ => Ok None
  | Err f => Err f
  | Panic => Panic
  end.

(** [intercept] keeps what it is given or drops it; a new session it keeps. *)
Lemma intercept_returns (e : E) ev :
  (intercept e ev).2 = Some ev \/ (intercept e ev).2 = None /\ forall id z r i, ev <> Connected id z r i.
Proof.
  unfold intercept, on_connect_failed. destruct ev; try (by left); repeat case_match; cbn; first [by left|by right].
Qed.

Lemma intercept_announced (e e1 : E) ev :
  announced e (e1, Ok (Some ev)) ->
  announced e ((intercepted (intercept e1 ev)).1, returned (Ok (intercepted (intercept e1 ev)).2)).
Proof.
  intros Ha. pose proof (intercept_tame e1 ev) as Ht. pose proof (intercept_returns e1 ev) as Hr.
  destruct (intercept e1 ev) as [e2 kept]. unfold intercepted. cbn in *. destruct Hr as [->|[-> Hno]].
  - by eapply announced_then_tame.
  - destruct Ha as (Hh & _ & Hq), Ht as [Hh2 Hq2]. split; [|split; [done|cbn in *; auto]].
    intros id Hid. apply Hh2, Hh in Hid as [?|(z & r & i & [= ->])]; [by left|]. by edestruct Hno.
Qed.

Lemma poll_step_announced fuel deadline (e : E) :
  hushed e -> announced e ((poll_step fuel deadline e).1, returned (poll_step fuel deadline e).2).
Proof.
  intros Hx. unfold poll_step. set (e1 := if no_introductions e then _ else _).
  assert (Ht : tame e e1) by (unfold e1; case_match; [done|apply drive_introductions_tame]).
  assert (Hx1 : hushed e1) by (by apply Ht). eapply tame_then_announced; [exact Ht|].
  pose proof (pop_event_tame e1) as Hp. pose proof (pop_event_quiet e1) as Hq.
  destruct (pop_event e1) as [e2 [ev|]]; cbn [fst snd] in *.
  - specialize (Hq ev Hx1 eq_refl). pose proof (intercept_announced e1 e2 ev) as Hi.
    destruct (intercepted _). apply Hi, tame_announced; [done|]. cbn. by rewrite Hq.
  - eapply tame_then_announced; [exact Hp|]. assert (Hx2 : hushed e2) by (by apply Hp).
    pose proof (poll_once_announced fuel (poll_wait e2 deadline) e2 Hx2) as Ho.
    destruct (poll_once _ _ _) as [e3 [[ev|]|?|]]; cbn [fst snd]; try done.
    assert (Hev : announced e2 ((match ev with Idle => (e3, Again) | _ => intercepted (intercept e3 ev) end).1,
      returned (Ok (match ev with Idle => (e3, Again) | _ => intercepted (intercept e3 ev) end).2))).
    { destruct ev; try by apply intercept_announced. apply tame_announced; [|done]. by apply (announced_quiet _ _ Idle). }
    destruct (match ev with Idle => _ | _ => _ end) as [e4 [ev'| |]]; try done.
    cbn in *. destruct (past _ _); [|done]. apply tame_announced; [by apply announced_none|done].
Qed.

Lemma poll_announced fuel timeout (e : E) : hushed e -> announced e (poll fuel timeout e).
Proof.
  unfold poll. generalize (Z.add (now e) <$> timeout). intros deadline.
  revert e. induction fuel as [|fuel IH]; intros e Hx; cbn; [by apply tame_announced|].
  pose proof (poll_step_announced fuel deadline e Hx) as Hs.
  destruct (poll_step fuel deadline e) as [e1 [[ev| |]|?|]]; cbn in *; try done.
  apply announced_none in Hs. eapply tame_then_announced; [exact Hs|]. apply IH. by apply Hs.
Qed.

(** ** Over an endpoint's life *)

(** What a call hands its caller. *)
Definition told (e : E) (c : Call) : list Event :=
  match c with
  | CallPoll fuel timeout => match snd (poll fuel timeout e) with Ok (Some ev) => [ev] | _ => [] end
  | _ => []
  end.

(** Every event the caller is handed, in order. *)
Fixpoint events (calls : list Call) (e : E) : list Event :=
  match calls with
  | [] => []
  | c :: calls => told e c ++ events calls (call e c)
  end.

Definition polls (c : Call) : bool := match c with CallPoll _ _ => true | _ => false end.

Lemma maybe_tell_tame (e : E) (b : bool) c : tame e (if b then tell_rendezvous e c else e).
Proof. destruct b; [apply tell_rendezvous_tame|done]. Qed.

Lemma call_tame (e : E) c : polls c = false -> tame e (call e c).
Proof.
  intros Hc. destruct c; cbn [call]; try done; try (by apply tame_kept).
  - unfold connect_rendezvous. case_match; [|done].
    refine (bind_keeps _ _ _ _ _ _); [apply connect_tame|]. intros. by apply tame_kept.
  - unfold introduce. do 3 (case_match; [done|]). cbn [fst].
    match goal with |- tame e (wake_at ?x _) => trans x; [|by apply tame_kept] end.
    etrans; [|apply maybe_tell_tame]. apply asks_tame.
  - unfold join_group. do 2 (case_match; [done|]). destruct (ok_or _ _); [|done..]. case_match; [done|].
    cbn [fst]. etrans; [|apply maybe_tell_tame]. by apply tame_kept.
  - unfold leave_group. cbn [fst]. etrans; [|apply maybe_tell_tame]. by apply tame_kept.
  - apply connect_and_send_tame.
  - apply disconnect_tame.
  - apply send_tame.
  - apply send_reliable_tame.
  - split; [|done]. intros id. unfold has. cbn. rewrite lookup_fmap. by destruct (_ !! id); cbn; intros [].
  - unfold set_handshake_reply. by case_match; [|apply tame_kept].
Qed.

(** The caller has been told of the session. *)
Definition known (seen : list Event) (id : Z) : Prop := exists z r i, Connected id z r i ∈ seen.

(** Everything the caller hears of, it was told of first. *)
Definition introduced (seen : list Event) : Prop :=
  forall pre id data post, seen = pre ++ Message id data :: post -> known pre id.

Lemma known_app seen more id : known seen id -> known (seen ++ more) id.
Proof. intros (z & r & i & Hin). exists z, r, i. apply elem_of_app. by left. Qed.

Lemma introduced_app seen more :
  introduced seen -> (forall pre id data post, more = pre ++ Message id data :: post -> known (seen ++ pre) id) ->
  introduced (seen ++ more).
Proof.
  intros Hs Hm pre id data post Heq. apply app_eq_app in Heq as (l & [[-> Hr]|[-> Hr]]).
  - destruct l as [|ev l]; cbn in Hr.
    + specialize (Hm [] id data post). rewrite !app_nil_r in *. auto.
    + injection Hr as <- ->. by eapply (Hs pre id data l).
  - by eapply Hm.
Qed.

Lemma events_inv calls (e : E) seen :
  hushed e -> (forall id, has e id -> known seen id) -> introduced seen ->
  (forall id, has (run calls e) id -> known (seen ++ events calls e) id) /\ introduced (seen ++ events calls e).
Proof.
  revert e seen. induction calls as [|c calls IH]; intros e seen Hx Hk Hs; cbn; [by rewrite app_nil_r|].
  rewrite app_assoc. apply IH.
  - destruct (polls c) eqn:Hc; [|by apply (call_tame e c Hc)]. destruct c; try done. by apply poll_announced.
  - intros id Hid. destruct (polls c) eqn:Hc; [|by apply known_app, Hk, (call_tame e c Hc)].
    destruct c; try done. cbn in *. destruct (poll_announced fuel timeout e Hx) as (Ha & _ & _).
    destruct (Ha id Hid) as [?|(z & r & i & ->)]; [by apply known_app, Hk|].
    exists z, r, i. apply elem_of_app. right. by apply list_elem_of_singleton.
  - apply introduced_app; [done|]. intros pre id data post Heq. destruct c; cbn in Heq; try by destruct pre.
    destruct (poll_announced fuel timeout e Hx) as (_ & Hm & _).
    destruct (poll fuel timeout e).2 as [[ev|]|?|]; try by destruct pre.
    symmetry in Heq. apply app_eq_unit in Heq as [[-> [= <- ->]]|[_ [=]]]. rewrite app_nil_r. apply Hk; by eapply Hm.
Qed.
End admission.

Section told.
Context {W K : Type} `{Net W} `{StaticKey K} `{Crypto} `{ZstdLib}.

(** C13: whatever is called on an endpoint and whatever arrives at it, the
    application is told of a peer before anything else about it: every session
    in the table was returned to the caller by [poll] as [Connected], and every
    message [poll] returns is from a peer it had returned as [Connected]
    before. So a decision made on [Connected] is made about everyone. *)
Theorem connected_comes_first (w : W) (mode : Mode K) (calls : list Call) :
  let seen := events calls (on_socket w mode) in
  (forall id, peer_public_key (run calls (on_socket w mode)) id <> None ->
     exists z r i, Connected id z r i ∈ seen) /\
  (forall pre id data post, seen = pre ++ Message id data :: post ->
     exists z r i, Connected id z r i ∈ pre).
Proof.
  cbn zeta. destruct (events_inv calls (on_socket w mode) []) as [Hk Hs].
  - constructor.
  - intros id [x Hx]. cbn in Hx. by rewrite lookup_empty in Hx.
  - intros pre id data post Heq. by destruct pre.
  - split; [|exact Hs]. intros id Hid. apply Hk. unfold peer_public_key in Hid. unfold has.
    by destruct (ep_peers _ !! id).
Qed.
End told.

#[local] Existing Instance Toy.crypto.
#[local] Existing Instance ToyZstd.zstd.

(** A server that answers a handshake has told its caller of the peer. *)
Lemma connected_comes_first_witness :
  exists z r i, Connected 0 z r i ∈ events [CallPoll 5 (Some 10)] (on_socket Demo.server_world Demo.server_mode).
Proof.
  apply (proj1 (connected_comes_first Demo.server_world Demo.server_mode [CallPoll 5 (Some 10)])).
  vm_compute. discriminate.
Defined.
