(* ===== verification/EndpointDispatch.v ===== *)
(** * What a datagram can make an endpoint do (crates/fectp/src/endpoint.rs)

    Anyone can address a UDP socket, so these are the theorems about one
    datagram from anywhere, under [dispatch]: whatever it is, all it can draw
    out goes back where it came from and is at most one datagram (two from a
    relay port); one that authenticates to nothing changes nothing but the
    budgets it spent; a session follows its peer only to an address that
    answered the challenge put to it; and a repeated opening frame never
    makes a second session. *)
From stdpp Require Import gmap.
From S2P Require Import Prelude Bytes Error Float Frame Fragment Codec Reliability RetransmitQueue.
From S2P Require Import Cipher Symmetric Handshake Session Connect Compress Reassembly Tickets Pmtu.
From S2P Require Import Pipeline Control Udp EndpointState Endpoint EndpointReceive EndpointFrame EndpointTables.
From S2P Require Import EndpointCalls.
Import Endpoint EndpointReceive.

(** ** Challenges *)
Definition is_challenge (frame : bytes) : Prop :=
  exists h rest, frame = Header.wire h ++ rest /\ frame_type h = PathChallenge.

Lemma seal_header `{Crypto} s t payload mid frag fl padding out s' out' n :
  Session.seal_frame_padded s t payload mid frag fl padding out = (s', Ok (out', n)) ->
  exists h rest, out' = Header.wire h ++ rest /\ frame_type h = t /\ HEADER_LEN <= n.
Proof.
  intros Hs. unfold Session.seal_frame_padded in Hs. inv_run Hs.
  assert (HEADER_LEN <= n).
  { apply slice_inv in E9 as (p & q & _ & Hp & Hm). pose proof (len_nonneg a6). lia. }
  match type of E7 with Header.encode ?h0 _ = _ => set (h := h0) in E7 end.
  rewrite header_encode_ok in E7 by lia.
  assert (a4 = Header.wire h ++ dropz HEADER_LEN out) as -> by congruence.
  unfold copy_range in E12. rewrite takez_app in E12 by len_lia.
  match type of E12 with (if _ then Ok (_ ++ ?rest) else _) = _ => set (r := rest) in E12 end.
  assert (out' = Header.wire h ++ r) as -> by (case_match; congruence). by exists h, r.
Qed.

Lemma challenge_is_challenge `{Crypto} p token out p' ack n frame :
  Peer.challenge p token out = (p', Ok (ack, n)) -> slice (E := HostError) ack 0 n = Ok frame -> is_challenge frame.
Proof.
  unfold Peer.challenge, Session.seal_path_challenge. intros Hc Hs.
  destruct (Session.seal_frame_padded _ _ _ _ _ _ _ _) as [s [[a m]|?|]] eqn:Hf; [|done..].
  cbn in Hc. injection Hc as _ -> ->. apply seal_header in Hf as (h & rest & -> & Ht & Hn).
  apply slice_inv in Hs as (pre & post & Heq & Hp & Hm). destruct pre; [|pose proof (len_nonneg pre); len_lia].
  exists h, (dropz HEADER_LEN frame). split; [|done].
  assert (takez HEADER_LEN frame = Header.wire h) as <-; [|symmetry; apply takez_dropz].
  rewrite <- (takez_app_le HEADER_LEN frame post) by lia. change ([] ++ frame ++ post) with (frame ++ post) in Heq.
  rewrite <- Heq. by rewrite takez_app by len_lia.
Qed.

Section replies.
Context {W K : Type} `{Net W} `{StaticKey K} `{Crypto} `{ZstdLib}.
Local Abbreviation E := (Endpoint W K).

Context (P : bytes -> SocketAddr -> Prop).

(** At most [n] datagrams went out, all of them as [P] has it. *)
Definition replies (n : nat) (e e' : E) : Prop :=
  exists l, sent l (ep_world e) (ep_world e') /\ Forall (fun m => P m.1 m.2) l /\ (length l <= n)%nat.

Lemma replies_trans n m e1 e2 e3 :
  replies n e1 e2 -> replies m e2 e3 -> replies (n + m) e1 e3.
Proof.
  intros (l1 & ? & ? & ?) (l2 & ? & ? & ?). exists (l1 ++ l2).
  split; [by eapply sent_app|]. split; [by apply Forall_app|]. rewrite length_app. lia.
Qed.

Lemma replies_weaken n m e e' : replies n e e' -> (n <= m)%nat -> replies m e e'.
Proof. intros (l & ? & ? & ?) ?. exists l. split_and!; [done..|lia]. Qed.

Lemma replies_same n e e' : ep_world e' = ep_world e -> replies n e e'.
Proof. unfold replies. intros ->. exists []. split_and!; [constructor..|cbn; lia]. Qed.

(** What follows in silence adds nothing. *)
Lemma replies_then n e e1 e2 : replies n e e1 -> replies 0 e1 e2 -> replies n e e2.
Proof. intros H1' H2'. rewrite <- (Nat.add_0_r n). by eapply replies_trans. Qed.

Lemma replies_after n e e1 e2 : replies 0 e e1 -> replies n e1 e2 -> replies n e e2.
Proof. intros H1' H2'. by eapply (replies_trans 0). Qed.

Lemma send_out_replies (e : E) buf addr : P buf addr -> replies 1 e (send_out e buf addr).1.
Proof.
  intros Hp. exists [(buf, addr)]. split; [|split; [by repeat constructor|done]].
  unfold send_out. pose proof (send_datagram_world (ep_world e) buf addr) as Hw.
  destruct send_datagram. cbn in *. subst. apply sent_one.
Qed.

Lemma send_anyway_replies (e : E) buf addr : P buf addr -> replies 1 e (send_anyway e buf addr).1.
Proof.
  intros Hp. exists [(buf, addr)]. split; [|split; [by repeat constructor|done]].
  unfold send_anyway. pose proof (sent_one (ep_world e) buf addr) as Hw. by destruct net_send.
Qed.

Lemma draw_replies (e : E) n : replies 0 e (draw e n).1.
Proof.
  exists []. split; [|split; [constructor|done]]. unfold draw.
  pose proof (sent_draw (ep_world e) n) as Hw. by destruct net_random.
Qed.

(** A reply followed by bookkeeping. *)
Lemma send_out_then (e : E) buf addr {A} (k : E -> unit -> E * HostResult A) :
  P buf addr -> (forall e a, ep_world (k e a).1 = ep_world e) ->
  replies 1 e (let! (e, a) := send_out e buf addr in k e a).1.
Proof.
  intros Hp Hk. pose proof (send_out_replies e buf addr Hp) as Hs.
  destruct (send_out e buf addr) as [e1 [a|?|]]; cbn in *; [|done..].
  eapply replies_then; [exact Hs|]. by apply replies_same.
Qed.

Lemma stamp_sent_world (e : E) id : ep_world (stamp_sent e id) = ep_world e.
Proof. unfold stamp_sent. by case_match. Qed.

Lemma to_event_world (e : E) id i : ep_world (to_event e id i).1 = ep_world e.
Proof. unfold to_event. destruct i; try done. destruct (slice _ _ _); [|done..]. by repeat case_match. Qed.

Lemma to_event_peers (e : E) id i : ep_peers (to_event e id i).1 = ep_peers e.
Proof. unfold to_event. destruct i; try done. destruct (slice _ _ _); [|done..]. by repeat case_match. Qed.

Lemma settle_probe_world (e : E) id from token : ep_world (settle_probe e id from token).1 = ep_world e.
Proof.
  unfold settle_probe. repeat (case_match; try done). cbn. unfold displace. cbn.
  repeat case_match; try done. cbn. by rewrite unfile_session_eq.
Qed.

Lemma note_heard_world (e : E) id en : ep_world (note_heard e id en) = ep_world e.
Proof. unfold note_heard. by case_match. Qed.

Context (from : SocketAddr) (Hch : forall b, is_challenge b -> P b from).

Lemma send_challenge_replies (e : E) id en t : replies 1 e (send_challenge e id en from t).1.
Proof.
  unfold send_challenge. destruct (Peer.challenge _ _ _) as [p [[ack n]|?|]] eqn:Hc; cbn [fst snd]; [|by apply replies_same..].
  destruct (slice _ _ _) eqn:Hs; [|by apply replies_same..].
  eapply replies_after; [|apply send_out_then; [|intros; apply stamp_sent_world]]; [by apply replies_same|].
  apply Hch. by eapply challenge_is_challenge.
Qed.

Lemma start_probe_replies (e : E) id : replies 1 e (start_probe e id from).1.
Proof.
  unfold start_probe. case_match; [|by apply replies_same]. cbn zeta. case_match.
  - pose proof (draw_replies e PATH_TOKEN_LEN) as Hd. destruct (draw _ _).
    eapply replies_after; [exact Hd|apply send_challenge_replies].
  - apply send_challenge_replies.
  - by apply replies_same.
Qed.

(** A session under test at [addr]. *)
Lemma claimed_probe (e : E) id en q addr :
  ep_peers e !! id = Some en -> en_probe en = Some q -> pp_addr q = addr -> claimed e id addr = true.
Proof. intros Hid Hq Ha. unfold claimed. rewrite Hid, Hq, (bool_decide_true _ Ha). apply orb_true_r. Qed.

Lemma stamp_sent_claimed (e : E) id addr : claimed e id addr = true -> claimed (stamp_sent e id) id addr = true.
Proof.
  unfold stamp_sent, claimed. destruct (ep_peers e !! id); [|done]. cbn. by rewrite lookup_insert_eq.
Qed.

Lemma send_challenge_claims (e : E) id en q addr t :
  en_probe en = Some q -> pp_addr q = addr -> claimed (send_challenge e id en addr t).1 id addr = true.
Proof.
  intros Hq Ha. unfold send_challenge. destruct Peer.challenge as [p r].
  destruct r as [[ack n]|?|]; cbn [fst snd]; [|eapply claimed_probe; [apply lookup_insert_eq|cbn; done..]..].
  set (en1 := set_en_probe _ _). set (e1 := set_entry _ id en1).
  assert (Hc : forall e2 : E, ep_peers e2 = ep_peers e1 -> claimed e2 id addr = true).
  { intros e2 Hp. apply (claimed_probe e2 id en1 (mkPathProbe (pp_addr q) (pp_token q) (pp_sent q + 1) t (pp_started q))).
    - rewrite Hp. apply lookup_insert_eq.
    - unfold en1. cbn. by rewrite Hq.
    - done. }
  destruct (slice _ _ _) as [frame|?|]; [|by apply Hc..].
  pose proof (send_out_peers e1 frame addr) as Hp.
  destruct (send_out e1 frame addr) as [e2 [u|?|]]; cbn in *; [apply stamp_sent_claimed|..]; by apply Hc.
Qed.

Lemma start_probe_claims (e : E) id :
  ep_world (start_probe e id from).1 = ep_world e \/ claimed (start_probe e id from).1 id from = true.
Proof.
  unfold start_probe. case_match; [|by left]. cbn zeta. case_match eqn:Ha; [right..|by left].
  - destruct (draw _ _). by eapply send_challenge_claims.
  - unfold attempt in Ha. destruct (en_probe p) as [q|] eqn:Hq; [|done].
    case_bool_decide; [|done]. by eapply send_challenge_claims.
Qed.

Lemma deliver_false_replies (e : E) id : replies 1 e (deliver e id from false).1.
Proof.
  unfold deliver. case_match; [|by apply replies_same]. destruct Peer.ingest as [[q reply] r].
  destruct r as [[i f]|?|]; [|by apply replies_same..]. set (e1 := set_ep_rx _ f).
  set (en1 := set_en_peer _ q). assert (H1e : replies 0 e (note_heard e1 id en1)).
  { apply replies_same. by rewrite note_heard_world. }
  assert (Hok : replies 1 e (let! (e, _) := start_probe (note_heard e1 id en1) id from in to_event e id i).1).
  { pose proof (start_probe_replies (note_heard e1 id en1) id) as Hm. eapply replies_after; [exact H1e|].
    destruct (start_probe _ _ _) as [e2 [u|?|]]; [|done..].
    eapply replies_then; [exact Hm|]. apply replies_same. apply to_event_world. }
  destruct i; try exact Hok; [by apply replies_same|].
  pose proof (settle_probe_world (note_heard e1 id en1) id from token) as Hs.
  destruct settle_probe. cbn in *. apply replies_same. by rewrite Hs, note_heard_world.
Qed.

(** A candidate that was sent anything, and let the walk go on, has the
    address under test: the walk ends there. *)
Lemma deliver_silent (e e' : E) id :
  deliver e id from false = (e', Ok None) -> claimed e' id from = false -> ep_world e' = ep_world e.
Proof.
  unfold deliver. case_match; [|by intros [= <-]]. destruct Peer.ingest as [[q reply] r].
  destruct r as [[i f]|?|]; [|done..]. set (e1 := set_ep_rx _ f). set (en1 := set_en_peer _ q).
  assert (Hp : (let! (e, _) := start_probe (note_heard e1 id en1) id from in to_event e id i) = (e', Ok None) ->
    claimed e' id from = false -> ep_world e' = ep_world e).
  { destruct (start_probe_claims (note_heard e1 id en1) id) as [Hw|Hc];
      destruct (start_probe _ _ _) as [e2 [u|?|]]; intros Ht Hn; try done; cbn in *.
    - pose proof (to_event_world e2 id i) as Hte. rewrite Ht in Hte. cbn in Hte.
      by rewrite Hte, Hw, note_heard_world.
    - pose proof (to_event_peers e2 id i) as Hte. rewrite Ht in Hte. cbn in Hte.
      unfold claimed in *. rewrite Hte in Hn. congruence. }
  destruct i; try exact Hp; [by intros [= <-]|].
  pose proof (settle_probe_world (note_heard e1 id en1) id from token) as Hs.
  destruct settle_probe. intros [= <- ->] _. cbn in *. by rewrite Hs, note_heard_world.
Qed.

Lemma may_try_world (e : E) id : ep_world (may_try_unknown_address e id).1 = ep_world e.
Proof. unfold may_try_unknown_address. by repeat case_match. Qed.

Lemma try_candidates_replies n (e : E) sid at_ : replies 1 e (try_candidates n e from sid at_).1.
Proof.
  revert e at_. induction n as [|n IH]; intros e at_; cbn [try_candidates]; [by apply replies_same|].
  case_match; [|by apply replies_same]. pose proof (may_try_world e z) as Hm.
  destruct (may_try_unknown_address e z) as [e1 may]. cbn in Hm.
  assert (H1e : replies 0 e e1) by (by apply replies_same).
  eapply replies_after; [exact H1e|]. case_match; [apply IH|].
  pose proof (deliver_false_replies e1 z) as Hd.
  destruct (deliver e1 z from false) as [e2 [[ev|]|?|]] eqn:Hdel; cbn in Hd; [done| |done..].
  destruct (claimed e2 z from) eqn:Hc; [done|].
  eapply replies_after; [|apply IH]. apply replies_same. by eapply deliver_silent.
Qed.

Context (Hany : forall b, P b from).

Lemma repeat_handshake_replies (e : E) sid : replies 1 e (repeat_handshake e from sid).1.
Proof.
  unfold repeat_handshake. repeat (case_match; [|by apply replies_same]). case_match.
  by apply send_out_then.
Qed.

Lemma on_established_replies (e : E) id n i : replies 1 e (on_established e id from n i).1.
Proof.
  unfold on_established.
  match goal with |- replies _ _ (match ?m with _ => _ end).1 => assert (Hm : replies 1 e m.1) end.
  { case_match; [|by apply replies_same]. destruct (slice _ _ _); [|by apply replies_same..].
    apply send_out_then; [done|]. intros. apply stamp_sent_world. }
  match goal with |- replies _ _ (match ?m with _ => _ end).1 => destruct m as [e1 [a|?|]] end; [|done..].
  cbn in Hm. eapply replies_then; [exact Hm|]. apply replies_same. by repeat case_match.
Qed.

Lemma deliver_true_replies (e : E) id : replies 1 e (deliver e id from true).1.
Proof.
  unfold deliver. case_match; [|by apply replies_same]. destruct Peer.ingest as [[q reply] r].
  destruct r as [[i f]|?|]; [|by apply replies_same..]. set (e1 := set_ep_rx _ f).
  set (en1 := set_en_peer _ q). assert (H1e : replies 0 e (note_heard e1 id en1)).
  { apply replies_same. by rewrite note_heard_world. }
  pose proof (on_established_replies (note_heard e1 id en1) id (r_len reply) i) as Hm.
  destruct i; [by apply replies_same|..]; (eapply replies_after; [exact H1e|]);
    (destruct (on_established _ _ _ _ _) as [e2 [u|?|]]; [|done..]);
    (eapply replies_then; [exact Hm|]); apply replies_same, to_event_world.
Qed.

Lemma route_replies (e : E) sid : replies 1 e (route e from sid).1.
Proof. unfold route. case_match; [apply deliver_true_replies|apply try_candidates_replies]. Qed.

Lemma make_room_world (e : E) : ep_world (make_room e) = ep_world e.
Proof.
  unfold make_room. repeat (case_match; try done). unfold release. by rewrite unfile_session_eq.
Qed.

Lemma register_world (e : E) link addr z r : ep_world (register e link addr z r).1 = ep_world e.
Proof. unfold register. cbn [fst]. by rewrite file_world, make_room_world. Qed.

Lemma remember_reply_world (e : E) ev reply : ep_world (remember_reply e ev reply) = ep_world e.
Proof. unfold remember_reply. by repeat case_match. Qed.

Lemma establish_replies (e : E) z r written : replies 1 e (establish e from z r written).1.
Proof.
  unfold establish. destruct (map_err _ _) as [[[s tx] n]|?|]; [|by apply replies_same..].
  destruct (slice _ _ _); [|by apply replies_same..].
  eapply replies_after; [|apply send_out_then; [apply Hany|]]; [by apply replies_same|].
  intros e1 _. rewrite <- (register_world e1 s from z r). apply remember_reply_world.
Qed.

Lemma accept_full_replies (e : E) : replies 1 e (accept_full e from).1.
Proof.
  unfold accept_full. case_match; [|by apply replies_same]. destruct Responder.read_init as [r' r].
  destruct (map_err _ _); [|by apply replies_same..]. destruct (slice _ _ _); [|by apply replies_same..].
  pose proof (draw_replies e DHLEN) as Hd. destruct (draw _ _).
  eapply replies_after; [exact Hd|apply establish_replies].
Qed.

Lemma accept_resumed_replies (e : E) : replies 1 e (accept_resumed e from).1.
Proof.
  unfold accept_resumed. destruct (map_err _ (ResumeResponder.ticket_id _)); [|by apply replies_same..].
  assert (Hw : ep_world (find_ticket e a).1 = ep_world e) by (unfold find_ticket; repeat case_match; by simplify_eq).
  destruct (find_ticket e a) as [e1 found]. cbn in Hw.
  eapply replies_after; [by apply replies_same|].
  destruct (ok_or _ _); [|by apply replies_same..]. destruct ResumeResponder.read_init as [r' r].
  destruct (map_err _ _); [|by apply replies_same..]. destruct (slice _ _ _); [|by apply replies_same..].
  pose proof (draw_replies e1 DHLEN) as Hd. destruct (draw _ _).
  eapply replies_after; [exact Hd|apply establish_replies].
Qed.

Lemma update_path_world (e : E) addr f : ep_world (update_path e addr f) = ep_world e.
Proof. unfold update_path. by case_match. Qed.

Lemma complete_outbound_world (e : E) sid : ep_world (complete_outbound e from sid).1 = ep_world e.
Proof.
  unfold complete_outbound. destruct (find_outbound _ _ _) as [[id o]|]; [|done].
  match goal with |- context [if ob_attempts o =? 1 then ?a else ?b] => set (e2 := if ob_attempts o =? 1 then a else b) end.
  assert (Hw : ep_world e2 = ep_world e) by (unfold e2; case_match; (etrans; [apply update_path_world|done])).
  match goal with |- context [match ?c with Ok _ => _ | Err _ => _ | Panic => _ end] => destruct c as [[[[link st] n] r]|?|] end;
    [|done..]. destruct (slice st 0 n); [|done..]. unfold register_as. cbn [fst].
  by rewrite file_world, make_room_world.
Qed.

Lemma dispatch_frame_replies (e : E) h : replies 1 e (dispatch_frame e from h).1.
Proof.
  unfold dispatch_frame, or_none. repeat case_match; cbn [fst];
    first [apply route_replies|apply accept_full_replies|apply accept_resumed_replies
          |apply replies_same, complete_outbound_world|by apply replies_same].
Qed.

Lemma connect_replies (e : E) key : replies 1 e (connect e from key).1.
Proof.
  unfold connect, connect_and_send, next_u32. pose proof (sent_draw (ep_world e) 4) as Hw.
  destruct (net_random _ _) as [w b]. cbn in Hw. set (e1 := set_ep_world e w).
  eapply (replies_after _ _ e1); [exists []; split_and!; [done|constructor|done]|].
  destruct (opening_frame _ _ _) as [frame|?|]; [|by apply replies_same..].
  match goal with |- replies _ _ (match ?m with _ => _ end).1 => assert (Hm : replies 0 e1 m.1) end.
  { destruct (ep_mode e1); [destruct (ok_or _ _); [|by apply replies_same..]|];
      (destruct (map_err _ _); [|by apply replies_same..]);
      pose proof (draw_replies e1 DHLEN) as Hd; destruct (draw _ _); by repeat case_match. }
  match goal with |- replies _ _ (match ?m with _ => _ end).1 => destruct m as [e2 [[hs [fr n]]|?|]] end;
    cbn in Hm; [|by eapply replies_weaken; [exact Hm|lia]..].
  eapply replies_after; [exact Hm|]. apply send_out_then; [apply Hany|done].
Qed.

Lemma fail_introduction_world (e : E) key r : ep_world (fail_introduction e key r) = ep_world e.
Proof. unfold fail_introduction. by case_match. Qed.

Lemma mark_checked_world (e : E) key o : ep_world (mark_checked e key o) = ep_world e.
Proof. unfold mark_checked. by repeat case_match. Qed.

Lemma answer_check_replies (e : E) nonce : replies 2 e (answer_check e from nonce).
Proof.
  unfold answer_check. case_match.
  { repeat case_match. eapply replies_weaken; [apply send_anyway_replies, Hany|lia]. }
  case_match; [|by apply replies_same]. destruct p as [? [key ask]].
  destruct (relaying_via from ask) as [[[token legacy] checked]|]; [|by apply replies_same].
  pose proof (send_anyway_replies e (answer token nonce legacy) from (Hany _)) as Hs.
  destruct (send_anyway _ _ _) as [e1 went]. cbn in Hs. apply (replies_trans 1 1 _ e1); [done|].
  assert (Hmark : forall o, replies 1 e1 (mark_checked e1 key o)) by (intros; apply replies_same, mark_checked_world).
  destruct (own_key e1) as [ours|]; [|apply Hmark]. destruct (_ && _); [|apply Hmark].
  pose proof (connect_replies e1 (Some key)) as Hc. destruct (connect _ _ _) as [e2 r]. cbn in Hc.
  eapply replies_then; [exact Hc|]. apply replies_same.
  destruct r; [apply mark_checked_world|apply fail_introduction_world..].
Qed.

Lemma not_a_frame_replies (e : E) : replies 2 e (not_a_frame e from).
Proof.
  unfold not_a_frame. do 2 (case_match; [by apply replies_same|]). case_match; [apply answer_check_replies|].
  by apply replies_same.
Qed.

Lemma repeat_handshake_false (e e' : E) sid : repeat_handshake e from sid = (e', Ok false) -> e' = e.
Proof.
  unfold repeat_handshake. repeat (case_match; try (by intros [=])).
Qed.


Lemma dispatch_replies (e : E) : replies (if no_introductions e then 1 else 2) e (dispatch e from).1.
Proof.
  unfold dispatch. destruct (bool_decide _).
  { cbn [fst]. case_match; [by apply replies_same|apply not_a_frame_replies]. }
  eapply (replies_weaken 1); [|case_match; lia]. case_match; [|by apply replies_same..].
  case_match; [apply dispatch_frame_replies|].
  pose proof (repeat_handshake_replies e (session_id a)) as Hr.
  destruct (repeat_handshake _ _ _) as [e1 [[]|?|]] eqn:Hrep; [done| |done..].
  apply repeat_handshake_false in Hrep as ->. unfold may_answer_handshake. destruct spend_one as [b may].
  apply (replies_after _ _ (set_ep_handshakes e b)); [by apply replies_same|].
  case_match; [apply dispatch_frame_replies|by apply replies_same].
Qed.
End replies.

Section answers.
Context {W K : Type} `{Net W} `{StaticKey K} `{Crypto} `{ZstdLib}.
Local Abbreviation E := (Endpoint W K).

(** whatever a datagram is, all an endpoint sends while handling it goes
    back to the address it came from, and is at most one datagram; two when a
    relay port being bound checks the address and a handshake is started
    through it. So nobody can aim an endpoint at a third party or use it to
    multiply traffic. *)
Theorem dispatch_answers_sender (e : E) from :
  exists out, sent out (ep_world e) (ep_world (dispatch e from).1) /\
    Forall (fun m => m.2 = from) out /\
    (length out <= if no_introductions e then 1 else 2)%nat.
Proof. by apply (dispatch_replies (fun _ a => a = from)). Qed.

(** C19: nothing goes to an address a session is not filed under but a
    challenge. Whatever a datagram from such an address is, and to whichever
    sessions it is offered, at most one datagram goes back, and that is a
    [PathChallenge]. *)
Theorem unproven_address_gets_challenge (e : E) from sid :
  ep_routes e !! (from, sid) = None ->
  exists out, sent out (ep_world e) (ep_world (route e from sid).1) /\
    Forall (fun m => is_challenge m.1 /\ m.2 = from) out /\ (length out <= 1)%nat.
Proof.
  intros Hr. unfold route. rewrite Hr.
  by apply (try_candidates_replies (fun b a => is_challenge b /\ a = from)).
Qed.

(** ** Moving *)
Lemma tables_addr (e e' : E) id en en' :
  tables e' = tables e -> ep_peers e !! id = Some en -> ep_peers e' !! id = Some en' ->
  en_addr en' = en_addr en.
Proof.
  intros Ht H1' H2'. assert (Hw : tb_who (tables e') !! id = Some (who en)) by (rewrite Ht; cbn; by rewrite lookup_fmap, H1').
  cbn in Hw. rewrite lookup_fmap, H2' in Hw. cbn in Hw. unfold who in Hw. congruence.
Qed.

Lemma displace_peers (e : E) previous id en :
  ep_peers (displace e previous) !! id = Some en -> ep_peers e !! id = Some en.
Proof.
  unfold displace. repeat case_match; try done. cbn. rewrite unfile_session_eq. cbn.
  by intros [_ ?]%lookup_delete_Some.
Qed.

(** What settling does to the addresses. *)
Lemma settle_probe_addr (e : E) peer from token id en en' :
  ep_peers e !! id = Some en -> ep_peers (settle_probe e peer from token).1 !! id = Some en' ->
  en_addr en' <> en_addr en ->
  id = peer /\ en_addr en' = from /\
  exists q, en_probe en = Some q /\ pp_addr q = from /\ pp_token q = token.
Proof.
  intros Hid Hid' Hne. unfold settle_probe in Hid'.
  destruct (ep_peers e !! peer) as [ep|] eqn:Hp; [|cbn in Hid'; congruence].
  destruct (en_probe ep) as [q|] eqn:Hq; [|cbn in Hid'; congruence].
  destruct (_ || _) eqn:Hb; [cbn in Hid'; congruence|]. zbool.
  repeat match goal with H : bool_decide _ = false |- _ => apply bool_decide_eq_false, dec_stable in H end.
  cbn in Hid'. apply displace_peers in Hid'. cbn in Hid'.
  destruct (decide (id = peer)) as [->|Hn]; [|rewrite lookup_insert_ne in Hid' by done; congruence].
  rewrite lookup_insert_eq in Hid'. simplify_eq. split_and!; [done| |by exists q].
  unfold moved_entry. by case_match.
Qed.

(** C9: a session moves only to an address that has proved it can receive.
    If delivering a frame changes the address of any session, it is the
    session the frame was for, the frame came from an address the session is
    not filed under, that address had been challenged, and the frame
    authenticated as an answer carrying the token of that challenge. *)
Theorem session_moves_when_proved (e : E) peer from established id en en' :
  ep_peers e !! id = Some en ->
  ep_peers (deliver e peer from established).1 !! id = Some en' -> en_addr en' <> en_addr en ->
  id = peer /\ established = false /\ en_addr en' = from /\
  exists probe, en_probe en = Some probe /\ pp_addr probe = from /\
    exists p reply frame, Peer.ingest (en_peer en) (ep_rx e) (now_ms e) (ep_ack e)
      = (p, reply, Ok (PathValidated (pp_token probe), frame)).
Proof.
  intros Hid Hid' Hne. unfold deliver in Hid'.
  destruct (ep_peers e !! peer) as [ep|] eqn:Hp; [|cbn in Hid'; congruence].
  pose proof (ingest_peer (en_peer ep) (ep_rx e) (now_ms e) (ep_ack e)) as Hip.
  destruct (Peer.ingest (en_peer ep) _ _ _) as [[p reply] r] eqn:Hi. cbn in Hip.
  set (en1 := set_en_peer ep p) in Hid'. set (e1 := set_ep_ack _ _) in Hid'.
  assert (Ht1 : tables e1 = tables e) by (by apply tables_set_entry with ep; [|apply who_set_peer]).
  assert (Hno : forall x : E, tables x = tables e -> ep_peers x !! id = Some en' -> False).
  { intros x Hx Hx'. by eapply Hne, tables_addr. }
  destruct r as [[i f]|?|]; [|by eapply Hno in Hid'..].
  set (e2 := set_ep_rx e1 f) in Hid'.
  assert (Hl2 : ep_peers e2 !! peer = Some en1) by apply lookup_insert_eq.
  assert (Ht2 : tables (note_heard e2 peer en1) = tables e).
  { etrans; [by apply (note_heard_calm (fun _ => True))|exact Ht1]. }
  assert (Hev : forall m : E * HostResult unit, tables m.1 = tables (note_heard e2 peer en1) ->
    ep_peers (let! (e, _) := m in to_event e peer i).1 !! id = Some en' -> False).
  { intros [x [u|?|]] Hm; cbn in Hm; apply Hno; [|cbn; congruence..].
    etrans; [apply (to_event_calm (fun _ => True))|congruence]. }
  destruct established.
  { exfalso. destruct i; [by eapply Hno in Hid'|..]; eapply Hev in Hid'; try done;
      by apply (on_established_calm (fun _ => True)). }
  destruct i; try (exfalso; first [by eapply Hno in Hid'|eapply Hev in Hid'; [done|by apply (start_probe_calm (fun _ => True))]]).
  assert (Hid2 : exists en2, ep_peers (note_heard e2 peer en1) !! id = Some en2 /\ en_addr en2 = en_addr en /\
    (id = peer -> en_probe en2 = en_probe en)).
  { assert (Hpe : ep_peers (note_heard e2 peer en1) = <[peer := heard en1 (now e2)]> (ep_peers e2)).
    { unfold note_heard. by destruct (negb _ && _). }
    rewrite Hpe. destruct (decide (id = peer)) as [->|Hn].
    - simplify_eq. eexists. rewrite lookup_insert_eq. by split_and!.
    - exists en. rewrite lookup_insert_ne by done. cbn. rewrite lookup_insert_ne by done. by split_and!. }
  destruct Hid2 as (en2 & Hid2 & Ha2 & Hpr2).
  pose proof (settle_probe_addr (note_heard e2 peer en1) peer from token id en2 en' Hid2) as Hs.
  destruct settle_probe as [x ev]. destruct Hs as (-> & Hf & q & Hq & Hqa & <-); [done|congruence|].
  split_and!; try done. exists q. split_and!; [by rewrite <- Hpr2|done|]. simplify_eq. eauto.
Qed.

(** ** Noise *)
Lemma open_refused s frame err : (Session.open s frame).2 = Err err -> (Session.open s frame).1 = s.
Proof.
  unfold Session.open. repeat (case_match; try done).
Qed.

Lemma ingest_refused p frame t ack err :
  (Session.open (p_session p) frame).2 = Err err ->
  Peer.ingest p frame t ack = (p, mkReply ack 0, Ok (Rejected, frame)).
Proof.
  intros Hr. pose proof (open_refused _ _ _ Hr) as Hs. unfold Peer.ingest.
  destruct (Session.open _ _) as [s r]. cbn in *. subst. by destruct p.
Qed.

Lemma deliver_refused (e : E) id from est en err :
  ep_peers e !! id = Some en -> (Session.open (p_session (en_peer en)) (ep_rx e)).2 = Err err ->
  deliver e id from est = (e, Ok None).
Proof.
  intros Hid Hr. unfold deliver. rewrite Hid, (ingest_refused _ _ _ _ _ Hr). cbn.
  assert (set_en_peer en (en_peer en) = en) as -> by (by destruct en).
  unfold set_entry. rewrite insert_id by done. by destruct e.
Qed.

(** An entry but for the budget that trying an unknown address spends. *)
Definition unbudgeted (en : PeerEntry) : PeerEntry := set_en_migration en (mkBucket 0 0).

(** Every session under [sid] refuses the datagram in the buffer. *)
Definition refused (e : E) (sid : Z) : Prop :=
  forall id en, ep_peers e !! id = Some en -> en_session_id en = sid ->
    exists err, (Session.open (p_session (en_peer en)) (ep_rx e)).2 = Err err.

Lemma may_try_unbudgeted (e : E) id : exists peers,
  (may_try_unknown_address e id).1 = set_ep_peers e peers /\ unbudgeted <$> peers = unbudgeted <$> ep_peers e.
Proof.
  unfold may_try_unknown_address. destruct (ep_peers e !! id) as [en|] eqn:Hid.
  - destruct spend_one as [b ok]. exists (<[id := set_en_migration en b]> (ep_peers e)). split; [done|].
    rewrite fmap_insert. apply insert_id. by rewrite lookup_fmap, Hid.
  - exists (ep_peers e). split; [by destruct e|done].
Qed.

(** Entries that agree but for the budget refuse the same frames. *)
Lemma refused_unbudgeted (e : E) sid peers :
  unbudgeted <$> peers = unbudgeted <$> ep_peers e -> refused e sid -> refused (set_ep_peers e peers) sid.
Proof.
  intros Hp Hr id en Hid Hs. cbn in Hid.
  assert (Hl : (unbudgeted <$> ep_peers e) !! id = Some (unbudgeted en)) by (rewrite <- Hp, lookup_fmap, Hid; done).
  rewrite lookup_fmap in Hl. destruct (ep_peers e !! id) as [en0|] eqn:Hid0; [|done]. cbn in Hl.
  injection Hl as E1 E2 E3 E4 E5 E6 E7 E8 E9 E10 E11. destruct (Hr id en0) as [err He]; [done|congruence|].
  exists err. by rewrite <- E1.
Qed.

Lemma unbudgeted_lookup (m m' : gmap Z PeerEntry) id en :
  unbudgeted <$> m = unbudgeted <$> m' -> m' !! id = Some en ->
  exists en', m !! id = Some en' /\ unbudgeted en' = unbudgeted en.
Proof.
  intros Hm Hid. assert (Hl : (unbudgeted <$> m) !! id = Some (unbudgeted en)) by (rewrite Hm, lookup_fmap, Hid; done).
  rewrite lookup_fmap in Hl. destruct (m !! id) as [en'|]; [|done]. exists en'. split; [done|].
  by apply (inj Some) in Hl.
Qed.

(** The sessions listed under [sid] are there and wear it. *)
Definition listed (e : E) (sid : Z) : Prop :=
  forall id, id ∈ Tables.listing (ep_by_session e) sid ->
    exists en, ep_peers e !! id = Some en /\ en_session_id en = sid.

Lemma try_candidates_refused n (e : E) from sid at_ :
  refused e sid -> listed e sid ->
  exists peers, try_candidates n e from sid at_ = (set_ep_peers e peers, Ok None) /\
    unbudgeted <$> peers = unbudgeted <$> ep_peers e.
Proof.
  revert e at_. induction n as [|n IH]; intros e at_ Hr Hl; cbn [try_candidates].
  { exists (ep_peers e). split; [by destruct e|done]. }
  destruct (ep_by_session e !! sid ≫= _) as [id|] eqn:Hat; [|exists (ep_peers e); split; [by destruct e|done]].
  destruct (may_try_unbudgeted e id) as (p1 & He1 & Hp1).
  destruct (may_try_unknown_address e id) as [e1 may]. cbn in He1. subst e1.
  assert (Hr1 : refused (set_ep_peers e p1) sid) by (by apply refused_unbudgeted).
  assert (Hl1 : listed (set_ep_peers e p1) sid).
  { intros id' (en & Hen & Hs)%Hl. destruct (unbudgeted_lookup p1 (ep_peers e) id' en Hp1 Hen) as (en' & ? & Hu).
    exists en'. split; [done|]. by injection Hu as _ _ ->. }
  assert (Hgo : exists peers, try_candidates n (set_ep_peers e p1) from sid (S at_) = (set_ep_peers e peers, Ok None) /\
    unbudgeted <$> peers = unbudgeted <$> ep_peers e).
  { destruct (IH (set_ep_peers e p1) (S at_) Hr1 Hl1) as (p2 & -> & Hp2). exists p2. by rewrite Hp2. }
  destruct (negb may); [exact Hgo|].
  destruct (Hl1 id) as (en & Hen & Hs).
  { destruct (ep_by_session e !! sid) as [l|] eqn:Hb; [|done]. cbn in Hat. unfold Tables.listing. cbn.
    rewrite Hb. by eapply list_elem_of_lookup_2. }
  destruct (Hr1 id en Hen Hs) as [err He]. rewrite (deliver_refused _ _ _ _ _ _ Hen He).
  destruct (claimed _ _ _); [by exists p1|exact Hgo].
Qed.
End answers.

Section noise.
Context {W K : Type} `{Net W} `{StaticKey K} `{Crypto} `{ZstdLib}.

(** C30: a datagram that authenticates to no session changes nothing. After
    any calls whatever, if every session wearing the identifier a datagram
    names refuses it, routing it reports no event and no error, and leaves the
    whole endpoint as it was: every session, table, timer and buffer, but for
    the allowance that trying an unknown address spends. *)
Theorem noise_is_inert (w : W) (mode : Mode K) (calls : list Call) datagram from sid :
  let e := set_ep_rx (run calls (on_socket w mode)) datagram in
  (forall id en, ep_peers e !! id = Some en -> en_session_id en = sid ->
    exists err, (Session.open (p_session (en_peer en)) datagram).2 = Err err) ->
  exists peers, route e from sid = (set_ep_peers e peers, Ok None) /\
    unbudgeted <$> peers = unbudgeted <$> ep_peers e.
Proof.
  intros e Hr. destruct (run_agree w mode calls) as (Hroutes & Hlist & _).
  unfold route. destruct (ep_routes e !! (from, sid)) as [id|] eqn:Ho.
  - apply Hroutes in Ho as (en & Hen & _ & Hs). destruct (Hr id en Hen Hs) as [err He].
    exists (ep_peers e). rewrite (deliver_refused e id from true en err Hen He). split; [by destruct e|done].
  - apply try_candidates_refused; [done|]. intros id Hid. by apply Hlist.
Qed.
End noise.

(** ** Opening frames that come again *)
Lemma decoded_is_frame datagram h : Header.decode datagram = Ok h -> head datagram <> Some NOT_A_FRAME.
Proof.
  unfold Header.decode. destruct (_ <? _); [done|]. destruct datagram as [|b l]; [done|].
  intros Hd [= ->]. cbn in Hd. done.
Qed.

Section repeats.
Context {W K : Type} `{Net W} `{StaticKey K} `{Crypto} `{ZstdLib}.
Local Abbreviation E := (Endpoint W K).

(** The same datagram [n] times from the same address. *)
Fixpoint replay (n : nat) (datagram : bytes) (from : SocketAddr) (e : E) : E :=
  match n with
  | O => e
  | S n => replay n datagram from (dispatch (set_ep_rx e datagram) from).1
  end.

(** The replies an entry may still be asked for. *)
Definition replies_left (en : PeerEntry) : Z :=
  match en_handshake_reply en with Some (_, n) => n + 1 | None => 0 end.

(** The count is a [u8]. *)
Definition reply_wf (en : PeerEntry) : Prop :=
  match en_handshake_reply en with Some (_, n) => is_u8 n | None => True end.

(** One of them: the reply again while it is held, and nothing else. *)
Lemma replay_one (e : E) datagram from h id en :
  (forall (w : W) b a, (net_send w b a).2 = None) ->
  Header.decode datagram = Ok h -> opens_handshake (frame_type h) = true ->
  ep_routes e !! (from, session_id h) = Some id -> ep_peers e !! id = Some en -> reply_wf en ->
  exists out en', sent out (ep_world e) (ep_world (dispatch (set_ep_rx e datagram) from).1) /\
    ep_peers (dispatch (set_ep_rx e datagram) from).1 = <[id := en']> (ep_peers e) /\
    tables (dispatch (set_ep_rx e datagram) from).1 = tables e /\
    (forall reply n, en_handshake_reply en' = Some (reply, n) -> exists m, en_handshake_reply en = Some (reply, m)) /\
    Forall (fun m => exists n, en_handshake_reply en = Some (m.1, n) /\ m.2 = from) out /\
    reply_wf en' /\ Z.of_nat (length out) + replies_left en' <= replies_left en.
Proof.
  intros Hsend Hd Hop Hr Hid Hpos. unfold dispatch. cbn [ep_rx set_ep_rx].
  rewrite bool_decide_false by (by eapply decoded_is_frame). rewrite Hd, Hop. cbn [negb].
  unfold repeat_handshake. cbn [ep_routes ep_peers set_ep_rx]. rewrite Hr, Hid.
  destruct (en_handshake_reply en) as [[reply n]|] eqn:Hrep.
  - unfold send_out, send_datagram. cbn [ep_world set_ep_rx].
    pose proof (Hsend (ep_world e) reply from) as Hs. pose proof (sent_one (ep_world e) reply from) as Hw.
    destruct (net_send _ _ _) as [w r]. cbn in Hs, Hw. subst r.
    set (again := if n =? 0 then None else Some (reply, n - 1)).
    exists [(reply, from)], (set_en_handshake_reply en again). split_and!; [exact Hw|done| | | | |].
    + apply (tables_set_entry (set_ep_world (set_ep_rx e datagram) w) id en); done.
    + cbn. unfold again. intros r' n'. zcase; [done|]. intros [= <- <-]. eauto.
    + constructor; [|constructor]. by exists n.
    + unfold reply_wf in *. rewrite Hrep in Hpos. cbn. unfold again. zcase; lia.
    + unfold replies_left in *. rewrite Hrep in *. cbn. unfold again. zcase; lia.
  - exists [], en. split_and!; try done; [apply sent_nil|cbn; by rewrite insert_id|by rewrite Hrep].
Qed.

(** a repeated or replayed opening frame never runs a second handshake.
    However often the opening frame of a session that is on file arrives again
    from its address, the tables stay as they are, no session is displaced and
    none is made, and all that goes out is the reply already held for it, no
    more times than the endpoint kept it for. *)
Theorem replayed_opening_frame (e : E) datagram from h id en times :
  (forall (w : W) b a, (net_send w b a).2 = None) ->
  Header.decode datagram = Ok h -> opens_handshake (frame_type h) = true ->
  ep_routes e !! (from, session_id h) = Some id -> ep_peers e !! id = Some en -> reply_wf en ->
  exists out, sent out (ep_world e) (ep_world (replay times datagram from e)) /\
    tables (replay times datagram from e) = tables e /\
    Forall (fun m => exists n, en_handshake_reply en = Some (m.1, n) /\ m.2 = from) out /\
    Z.of_nat (length out) <= replies_left en.
Proof.
  intros Hsend Hd Hop. revert e en. induction times as [|times IH]; intros e en Hr Hid Hpos; cbn.
  { exists []. split_and!; [apply sent_nil|done|constructor|]. unfold replies_left, reply_wf in *. cbn.
    repeat case_match; lia. }
  destruct (replay_one e datagram from h id en) as (o1 & en1 & Hs1 & Hp1 & Ht1 & Hrep & Hf1 & Hpos1 & Hl1); [done..|].
  destruct (IH (dispatch (set_ep_rx e datagram) from).1 en1) as (o2 & Hs2 & Ht2 & Hf2 & Hl2); [| |done|].
  - change (tb_routes (tables (dispatch (set_ep_rx e datagram) from).1) !! (from, session_id h) = Some id).
    by rewrite Ht1.
  - rewrite Hp1. apply lookup_insert_eq.
  - exists (o1 ++ o2). split_and!; [by eapply sent_app|by rewrite Ht2| |rewrite length_app; lia].
    apply Forall_app. split; [done|]. revert Hf2. apply List.Forall_impl. intros m (n & Hn & ?).
    apply Hrep in Hn as [k ?]. by exists k.
Qed.
End repeats.

(** ** A peer that moves, on the toy host

    The client of [Demo] connects, then speaks from another address: the
    server challenges it, and the client answers. *)
#[local] Existing Instance Toy.crypto.
#[local] Existing Instance ToyZstd.zstd.

Module Moving.
Definition on_arrival (e : Endpoint ToyNet Keypair) (inbox : list (Z * bytes * SocketAddr))
  : Endpoint ToyNet Keypair :=
  let w := ep_world e in set_ep_world e (mkToyNet (tn_clock w) inbox [] (tn_seed w) (tn_settings w)).

Definition first_out (e : Endpoint ToyNet Keypair) : bytes :=
  match tn_outbox (ep_world e) with (b, _) :: _ => b | [] => [] end.

(** The client hears the server's reply and sends a message. *)
Definition client_up : Endpoint ToyNet Keypair :=
  fst (poll 5 (Some 10) (on_arrival Demo.client (Demo.arriving (Demo.addr 2) Demo.server))).
Definition client_spoke : Endpoint ToyNet Keypair := fst (send client_up 0 [1; 2; 3] Opaque).
Definition sid : Z := from_le (takez 4 (dropz 2 (first_out client_spoke))).

(** It reaches the server from a new address; the server challenges it. *)
Definition server_heard : Endpoint ToyNet Keypair := set_ep_rx (on_arrival Demo.server []) (first_out client_spoke).
Definition server_asked : Endpoint ToyNet Keypair := fst (route server_heard (Demo.addr 3) sid).

(** The client answers the challenge, and the answer reaches the server. *)
Definition client_answered : Endpoint ToyNet Keypair :=
  fst (poll 5 (Some 10) (on_arrival client_spoke (Demo.arriving (Demo.addr 2) server_asked))).
Definition server_answered : Endpoint ToyNet Keypair :=
  set_ep_rx (on_arrival server_asked []) (first_out client_answered).
End Moving.

Lemma unproven_address_gets_challenge_witness :
  exists out, sent out (ep_world Moving.server_heard)
      (ep_world (route Moving.server_heard (Demo.addr 3) Moving.sid).1) /\
    Forall (fun m => is_challenge m.1 /\ m.2 = Demo.addr 3) out /\ (length out <= 1)%nat.
Proof.
  apply (unproven_address_gets_challenge Moving.server_heard (Demo.addr 3) Moving.sid).
  vm_compute. reflexivity.
Defined.

Lemma session_moves_when_proved_witness :
  peer_addr Moving.server_answered 0 = Some (Demo.addr 1) /\
  peer_addr (deliver Moving.server_answered 0 (Demo.addr 3) false).1 0 = Some (Demo.addr 3) /\
  exists en probe, ep_peers Moving.server_answered !! 0 = Some en /\
    en_probe en = Some probe /\ pp_addr probe = Demo.addr 3.
Proof.
  assert (H1 : peer_addr Moving.server_answered 0 = Some (Demo.addr 1)) by (vm_compute; reflexivity).
  assert (H2 : peer_addr (deliver Moving.server_answered 0 (Demo.addr 3) false).1 0 = Some (Demo.addr 3))
    by (vm_compute; reflexivity).
  split; [exact H1|]. split; [exact H2|]. unfold peer_addr in H1, H2.
  destruct (ep_peers Moving.server_answered !! 0) as [en|] eqn:E1; [|discriminate H1].
  destruct (ep_peers (deliver _ _ _ _).1 !! 0) as [en'|] eqn:E2; [|discriminate H2].
  injection H1 as H1. injection H2 as H2.
  destruct (session_moves_when_proved Moving.server_answered 0 (Demo.addr 3) false 0 en en' E1 E2)
    as (_ & _ & _ & probe & Hp & Ha & _); [rewrite H1, H2; discriminate|].
  exists en, probe. exact (conj eq_refl (conj Hp Ha)).
Defined.

Lemma noise_is_inert_witness :
  exists peers, route (set_ep_rx Demo.server (zeros 64)) (Demo.addr 9) Moving.sid
    = (set_ep_peers (set_ep_rx Demo.server (zeros 64)) peers, Ok None).
Proof.
  destruct (noise_is_inert Demo.server_world Demo.server_mode [CallPoll 5 (Some 10)] (zeros 64)
    (Demo.addr 9) Moving.sid) as (peers & Hp & _); [|exists peers; exact Hp].
  intros id en _ _. exists UnsupportedVersion. reflexivity.
Defined.

Lemma replayed_opening_frame_witness :
  exists out, sent out (ep_world Demo.server)
      (ep_world (replay 20 (Moving.first_out Demo.client) (Demo.addr 1) Demo.server)) /\
    Z.of_nat (length out) <= 9.
Proof.
  destruct (ep_peers Demo.server !! 0) as [en|] eqn:E1; [|vm_compute in E1; discriminate E1].
  assert (Hl : replies_left <$> ep_peers Demo.server !! 0 = Some 9) by (vm_compute; reflexivity).
  rewrite E1 in Hl. injection Hl as Hl.
  destruct (Header.decode (Moving.first_out Demo.client)) as [h|?|] eqn:E2;
    [|vm_compute in E2; discriminate E2..].
  assert (Hh : frame_type h = HandshakeInit /\ ep_routes Demo.server !! (Demo.addr 1, session_id h) = Some 0).
  { assert (Ho : match Header.decode (Moving.first_out Demo.client) with
      | Ok h => frame_type h = HandshakeInit /\ ep_routes Demo.server !! (Demo.addr 1, session_id h) = Some 0
      | _ => False end) by (vm_compute; split; reflexivity). by rewrite E2 in Ho. }
  destruct Hh as [Hh1 Hh2].
  destruct (replayed_opening_frame Demo.server (Moving.first_out Demo.client) (Demo.addr 1) h 0 en 20)
    as (out & Hs & _ & _ & Hn).
  - reflexivity.
  - exact E2.
  - by rewrite Hh1.
  - exact Hh2.
  - exact E1.
  - unfold reply_wf, replies_left in *. destruct (en_handshake_reply en) as [[r n]|]; lia.
  - exists out. rewrite Hl in Hn. exact (conj Hs Hn).
Defined.
