(* ===== verification/EndpointBudget.v ===== *)
(** * What strangers can cost an endpoint (crates/fectp/src/endpoint.rs)

    Answering a handshake is work anyone can ask for. The theorems bound it:
    how many sessions a flood of opening frames can establish, which session
    makes room for a new one, and which members of a group an endpoint
    believes. The last theorem records where the keep-alive timer and the pass
    it wakes disagree. *)
From stdpp Require Import gmap sorting.
From S2P Require Import Prelude Bytes Error Float Frame Fragment Codec Reliability RetransmitQueue.
From S2P Require Import Cipher Symmetric Handshake Session Connect Compress Reassembly Tickets Pmtu.
From S2P Require Import Pipeline Control Udp EndpointState Endpoint EndpointReceive EndpointFrame EndpointTables.
From S2P Require Import EndpointCalls EndpointDispatch.
Import Endpoint EndpointReceive.

Section budget.
Context {W K : Type} `{Net W} `{StaticKey K} `{Crypto} `{ZstdLib}.
Local Abbreviation E := (Endpoint W K).

(** ** Sessions a flood can make *)

(** Nothing was spent, no identifier was given out and no request for an
    introduction changed. *)
Definition steady (e e' : E) : Prop :=
  ep_handshakes e' = ep_handshakes e /\ ep_handshake_rate e' = ep_handshake_rate e /\
  ep_next_id e' = ep_next_id e /\ rv_asks (ep_rv e') = rv_asks (ep_rv e).

#[local] Instance steady_preorder : PreOrder steady.
Proof. split; [done|]. intros ??? (?&?&?&?) (?&?&?&?). unfold steady. split_and!; congruence. Qed.

Lemma tables_steady (e e' : E) :
  tables e' = tables e -> rv_asks (ep_rv e') = rv_asks (ep_rv e) -> steady e e'.
Proof. unfold tables. by intros [= _ _ _ _ ? _ ? ?]. Qed.

Lemma calm_steady P (e e' : E) : calm P e e' -> steady e e'.
Proof. intros (_ & ? & ?). by apply tables_steady. Qed.

Lemma settle_probe_steady (e : E) id from token : steady e (settle_probe e id from token).1.
Proof.
  unfold settle_probe. repeat (case_match; try done). cbn [fst]. unfold displace. cbn.
  repeat case_match; try done. by rewrite unfile_session_eq.
Qed.

Lemma deliver_steady (e : E) id from est : steady e (deliver e id from est).1.
Proof.
  unfold deliver. destruct (ep_peers e !! id) as [en|] eqn:Hid; [|done].
  destruct (Peer.ingest _ _ _ _) as [[p reply] r]. destruct r as [[i f]|?|]; [|done..].
  set (e1 := set_ep_rx _ f). set (en1 := set_en_peer en p).
  assert (H1e : steady e (note_heard e1 id en1)).
  { trans e1; [done|]. apply (calm_steady (fun _ => True)), note_heard_calm, lookup_insert_eq. }
  assert (Hok : forall m : E * HostResult unit, calm (fun _ => True) (note_heard e1 id en1) m.1 ->
    steady e (let! (e, _) := m in to_event e id i).1).
  { intros m Hm. etrans; [exact H1e|]. refine (bind_keeps _ _ _ _ _ _); [by eapply calm_steady|].
    intros. eapply (calm_steady (fun _ => True)), to_event_calm. }
  destruct i; [done|..]; (destruct est; [by apply Hok, on_established_calm|]);
    try (by apply Hok, start_probe_calm).
  via settle_probe_steady. by etrans.
Qed.

Lemma route_steady (e : E) from sid : steady e (route e from sid).1.
Proof.
  unfold route. case_match; [apply deliver_steady|]. generalize 0%nat, (Z.to_nat MAX_CANDIDATES).
  intros at_ n. clear H3. revert e at_. induction n as [|n IH]; intros e at_; cbn [try_candidates]; [done|].
  case_match; [|done].
  assert (Hm := calm_steady _ _ _ (may_try_calm (fun _ => True) e z)).
  destruct (may_try_unknown_address e z) as [e1 may]. etrans; [exact Hm|]. case_match; [apply IH|].
  refine (bind_keeps _ _ _ _ _ _); [apply deliver_steady|]. intros. by repeat case_match.
Qed.

Lemma make_room_steady (e : E) : steady e (make_room e).
Proof. unfold make_room. repeat (case_match; try done). unfold release. by rewrite unfile_session_eq. Qed.

Lemma file_steady (e : E) id link addr sid : steady e (file e id link addr sid).
Proof.
  etrans; [apply make_room_steady|]. unfold file. cbn. case_match; [|done]. by rewrite unfile_session_eq.
Qed.

Lemma complete_outbound_steady (e : E) from sid : steady e (complete_outbound e from sid).1.
Proof.
  unfold complete_outbound. destruct (find_outbound _ _ _) as [[id o]|]; [|done].
  match goal with |- context [if ob_attempts o =? 1 then ?a else ?b] => set (e2 := if ob_attempts o =? 1 then a else b) end.
  assert (Hw : steady e e2).
  { unfold e2. case_match; unfold measure_path, learn_from_resent, update_path; by case_match. }
  match goal with |- context [match ?c with Ok _ => _ | Err _ => _ | Panic => _ end] => destruct c as [[[[link st] n] r]|?|] end;
    [|done..]. destruct (slice st 0 n); [|done..]. unfold register_as. cbn [fst].
  etrans; [exact Hw|]. etrans; [|apply file_steady]. done.
Qed.

(** At most one identifier was given out, and nothing was spent. *)
Definition answered (e e' : E) : Prop :=
  ep_handshakes e' = ep_handshakes e /\ ep_handshake_rate e' = ep_handshake_rate e /\
  rv_asks (ep_rv e') = rv_asks (ep_rv e) /\ ep_next_id e <= ep_next_id e' <= ep_next_id e + 1.

Lemma steady_answered (e e' : E) : steady e e' -> answered e e'.
Proof. intros (?&?&?&?). split_and!; [done..|lia|lia]. Qed.

Lemma answered_steady (e e1 e' : E) : answered e e1 -> steady e1 e' -> answered e e'.
Proof. intros (?&?&?&?) (?&?&?&?). split_and!; [congruence..|lia|lia]. Qed.

Lemma steady_then_answered (e e1 e' : E) : steady e e1 -> answered e1 e' -> answered e e'.
Proof. intros (?&?&?&?) (?&?&?&?). split_and!; [congruence..|lia|lia]. Qed.

Lemma register_answered (e : E) link addr z r : answered e (register e link addr z r).1.
Proof.
  unfold register. cbn [fst]. eapply answered_steady; [|apply file_steady].
  split_and!; [reflexivity..|cbn; lia|cbn; lia].
Qed.

Lemma remember_reply_steady (e : E) ev reply : steady e (remember_reply e ev reply).
Proof. unfold remember_reply. by repeat case_match. Qed.

Lemma establish_answered (e : E) from z r written : answered e (establish e from z r written).1.
Proof.
  unfold establish. destruct (map_err _ _) as [[[s tx] n]|?|]; [|by apply steady_answered..].
  destruct (slice _ _ _); [|by apply steady_answered..].
  assert (Hs := calm_steady _ _ _ (send_out_calm (fun _ => True) (set_ep_tx e tx) a from I)).
  destruct (send_out _ _ _) as [e1 [u|?|]]; cbn [fst] in Hs; [|by apply steady_answered..].
  eapply steady_then_answered; [exact Hs|].
  eapply answered_steady; [apply (register_answered e1 s from z r)|apply remember_reply_steady].
Qed.

Lemma accept_answered (e : E) from h :
  opens_handshake (frame_type h) = true -> answered e (dispatch_frame e from h).1.
Proof.
  assert (Hd : forall e0 : E, steady e e0 -> forall z r wr, answered e (establish (draw e0 DHLEN).1 from z r wr).1).
  { intros e0 (B0 & R0 & N0 & A0) z r wr.
    destruct (calm_steady _ _ _ (draw_calm (fun _ => True) e0 DHLEN)) as (B1 & R1 & N1 & A1).
    destruct (establish_answered (draw e0 DHLEN).1 from z r wr) as (B2 & R2 & A2 & N2).
    split_and!; [congruence..|lia|lia]. }
  unfold dispatch_frame, or_none. destruct (frame_type h); try done; intros _; cbn [fst].
  - case_match; [|by apply steady_answered]. cbn [fst]. unfold accept_full. case_match; [|done].
    destruct Responder.read_init as [r' r]. destruct (map_err _ _); [|by apply steady_answered..].
    destruct (slice _ _ _); [|by apply steady_answered..]. specialize (Hd e ltac:(done)).
    destruct (draw e DHLEN). apply Hd.
  - unfold accept_resumed. destruct (map_err _ (ResumeResponder.ticket_id _)); [|by apply steady_answered..].
    assert (Hf : steady e (find_ticket e a).1) by (unfold find_ticket; repeat case_match; by simplify_eq).
    destruct (find_ticket e a) as [e0 found]. cbn in Hf. destruct (ok_or _ _); [|by apply steady_answered..].
    destruct ResumeResponder.read_init as [r' r]. destruct (map_err _ _); [|by apply steady_answered..].
    destruct (slice _ _ _); [|by apply steady_answered..]. specialize (Hd e0 Hf). destruct (draw e0 DHLEN). apply Hd.
Qed.

(** *** Introductions

    An endpoint that asked to be introduced to a peer starts a handshake of its
    own when the relay it was given sends its first check. That takes an
    identifier too, once for each request the endpoint made. *)
Definition awaited (a : Ask) : bool :=
  match ask_stage a with Relaying _ _ false _ _ _ _ => true | _ => false end.

Definition awaiting (asks : gmap (list Z) Ask) : Z :=
  Z.of_nat (size (filter (fun ka => awaited ka.2 = true) asks)).

(** The requests whose relay has not checked in yet. *)
Definition introductions_due (e : E) : Z := awaiting (rv_asks (ep_rv e)).

Lemma awaiting_delete asks key a :
  asks !! key = Some a -> awaiting asks = awaiting (delete key asks) + (if awaited a then 1 else 0).
Proof.
  intros Ha. unfold awaiting. rewrite <- (insert_delete_id asks key a Ha) at 1.
  destruct (awaited a) eqn:Ew.
  - rewrite map_filter_insert_True by done. rewrite map_size_insert_None; [lia|].
    apply map_lookup_filter_None. left. apply lookup_delete_eq.
  - rewrite map_filter_insert_False by (cbn; congruence). rewrite delete_delete_eq. lia.
Qed.

Lemma awaiting_insert asks key a b :
  asks !! key = Some a -> awaited b = false ->
  awaiting (<[key := b]> asks) = awaiting asks - (if awaited a then 1 else 0).
Proof.
  intros Ha Hb. rewrite (awaiting_delete asks key a Ha).
  rewrite (awaiting_delete (<[key := b]> asks) key b (lookup_insert_eq _ _ _)), Hb, delete_insert_eq. lia.
Qed.

(** What a call does to the identifiers it may give out and the requests they
    are for. *)
Definition introduced (e e' : E) : Prop :=
  ep_handshakes e' = ep_handshakes e /\ ep_handshake_rate e' = ep_handshake_rate e /\
  ep_next_id e <= ep_next_id e' /\
  ep_next_id e' + introductions_due e' <= ep_next_id e + introductions_due e.

Lemma steady_introduced (e e' : E) : steady e e' -> introduced e e'.
Proof. intros (?&?&?&A). unfold introduced, introductions_due. rewrite A. split_and!; [done..|lia|lia]. Qed.

(** Starting a handshake gives out one identifier, if it succeeds. *)
Lemma connect_counts (e : E) addr key :
  let (e', r) := connect e addr key in
  ep_handshakes e' = ep_handshakes e /\ ep_handshake_rate e' = ep_handshake_rate e /\
  rv_asks (ep_rv e') = rv_asks (ep_rv e) /\
  ep_next_id e' = ep_next_id e + (match r with Ok _ => 1 | _ => 0 end).
Proof.
  assert (Hkeep : forall (e1 : E) (r : HostResult Z), steady e e1 -> (forall id, r <> Ok id) ->
    ep_handshakes e1 = ep_handshakes e /\ ep_handshake_rate e1 = ep_handshake_rate e /\
    rv_asks (ep_rv e1) = rv_asks (ep_rv e) /\ ep_next_id e1 = ep_next_id e + (match r with Ok _ => 1 | _ => 0 end)).
  { intros e1 r (?&?&?&?) Hr. destruct r as [id| |]; [by destruct (Hr id)|..]; split_and!; done || lia. }
  unfold connect, connect_and_send. destruct (next_u32 _) as [w sid]. set (e1 := set_ep_world e w).
  assert (steady e e1) as H1e by done.
  destruct (opening_frame _ _ _) as [frame|?|]; [|by apply (Hkeep _ Panic)..].
  match goal with |- context [let (_, _) := (let (_, _) := ?m in _) in _] => assert (Hm : steady e m.1); [|destruct m as [e3 started]] end.
  { etrans; [exact H1e|].
    destruct (ep_mode e1); [destruct (ok_or _ _); [|done..]|]; (destruct (map_err _ _); [|done..]);
      pose proof (calm_steady _ _ _ (draw_calm (fun _ => True) e1 DHLEN)); destruct (draw e1 DHLEN);
      by repeat case_match. }
  cbn [fst] in Hm. destruct started as [[hs [fr n]]|?|]; [|by apply (Hkeep _ Panic)..].
  pose proof (calm_steady _ _ _ (send_out_calm (fun _ => True) e3 (takez n fr) addr I)) as Hs.
  destruct (send_out e3 _ addr) as [e4 [u|?|]]; cbn [fst] in Hs; [|by apply (Hkeep _ Panic); [etrans|]..].
  assert (steady e e4) as (?&?&?&?) by (by etrans). cbn. unfold wake_at.
  repeat case_match; cbn; split_and!; done || lia.
Qed.

Lemma fail_introduction_counts (e : E) key reason : introduced e (fail_introduction e key reason).
Proof.
  unfold fail_introduction. destruct (rv_asks (ep_rv e) !! key) as [a|] eqn:Ha; [|by apply steady_introduced].
  unfold introduced, introductions_due. cbn. rewrite (awaiting_delete _ _ _ Ha). split_and!; [done..|lia|].
  destruct (awaited a); lia.
Qed.

(** A check that is answered without starting anything. *)
Lemma mark_checked_counts (e : E) key outbound : introduced e (mark_checked e key outbound).
Proof.
  unfold mark_checked. destruct (rv_asks (ep_rv e) !! key) as [[t []]|] eqn:Ha; try by apply steady_introduced.
  unfold introduced, introductions_due. cbn. rewrite (awaiting_insert _ _ _ _ Ha) by done.
  split_and!; [done..|lia|]. destruct (awaited _); lia.
Qed.

Lemma answer_check_counts (e : E) from nonce : introduced e (answer_check e from nonce).
Proof.
  assert (Hsend : forall b a, steady e (send_anyway e b a).1)
    by (intros; by apply (calm_steady (fun _ => True)), send_anyway_calm).
  unfold answer_check. destruct (list_find _ (map_to_list (rv_relayed _))) as [[? [? link]]|].
  { by apply steady_introduced. }
  destruct (list_find _ (map_to_list (rv_asks (ep_rv e)))) as [[i [key ask]]|] eqn:Hf; [|by apply steady_introduced].
  apply list_find_Some in Hf as (Hin & _ & _). apply list_elem_of_lookup_2, elem_of_map_to_list in Hin.
  destruct (relaying_via from ask) as [[[token legacy] checked]|] eqn:Hr; [|by apply steady_introduced].
  specialize (Hsend (answer token nonce legacy) from).
  destruct (send_anyway e _ from) as [e1 ?]. cbn [fst] in Hsend. destruct Hsend as (B1 & R1 & N1 & A1).
  assert (Hmark : introduced e (mark_checked e1 key None)).
  { destruct (mark_checked_counts e1 key None) as (B & R & N & D). unfold introduced, introductions_due in *.
    rewrite A1, B1, R1, N1 in *. done. }
  destruct (own_key e1) as [ours|]; [|done]. destruct (negb checked && starts ours key) eqn:Hc; [|done].
  apply andb_prop in Hc as [Hc _]. destruct checked; [done|].
  pose proof (connect_counts e1 from (Some key)) as Hcon. destruct (connect e1 from (Some key)) as [e2 r].
  destruct Hcon as (B2 & R2 & A2 & N2). unfold relaying_via in Hr. destruct ask as [since stage]. cbn in Hr.
  destruct stage as [| |port token' checked' legacy' binds next slot]; try done.
  destruct (bool_decide (port = from)); [|done]. injection Hr as -> -> ->.
  destruct r as [id|?|].
  - unfold mark_checked. rewrite A2, A1, Hin. unfold introduced, introductions_due. cbn.
    rewrite (awaiting_insert _ _ _ _ Hin) by done. cbn. rewrite B2, B1, R2, R1. split_and!; [done..|lia|lia].
  - destruct (fail_introduction_counts e2 key Unreachable) as (B & R & N & D). unfold introduced, introductions_due in *.
    rewrite B, R, B2, B1, R2, R1. rewrite A2, A1 in D. split_and!; [done..|lia|lia].
  - destruct (fail_introduction_counts e2 key Unreachable) as (B & R & N & D). unfold introduced, introductions_due in *.
    rewrite B, R, B2, B1, R2, R1. rewrite A2, A1 in D. split_and!; [done..|lia|lia].
Qed.

(** What one datagram does to the budget: nothing, or one request of it, with
    an identifier given out only if it was granted or an introduction was due. *)
Lemma dispatch_budget (e : E) from :
  introduced e (dispatch e from).1 \/
  let (b, ok) := spend_one (ep_handshake_rate e) (now e) (ep_handshakes e) in
  let e' := (dispatch e from).1 in
  ep_handshakes e' = b /\ ep_handshake_rate e' = ep_handshake_rate e /\
  introductions_due e' = introductions_due e /\
  ep_next_id e <= ep_next_id e' <= ep_next_id e + (if ok then 1 else 0).
Proof.
  unfold dispatch. case_bool_decide as Hh.
  { left. cbn [fst]. destruct (no_introductions e); [by apply steady_introduced|].
    unfold not_a_frame. repeat (case_match; try by apply steady_introduced). apply answer_check_counts. }
  destruct (Header.decode _) as [h|?|]; [|by left; apply steady_introduced..].
  destruct (opens_handshake (frame_type h)) eqn:Ho; cbn [negb].
  - pose proof (calm_steady _ _ _ (repeat_handshake_calm (fun _ => True) e from (session_id h) I)) as Hr.
    destruct (repeat_handshake _ _ _) as [e1 [[]|?|]] eqn:Hrep; [by left; apply steady_introduced| |by left; apply steady_introduced..].
    apply repeat_handshake_false in Hrep as ->. right. unfold may_answer_handshake.
    destruct spend_one as [b ok]. destruct ok; cbn [fst]; [|cbn; split_and!; [done..|lia|lia]].
    destruct (accept_answered (set_ep_handshakes e b) from h Ho) as (B & R & A & N). cbn in N.
    split_and!; [by rewrite B|by rewrite R|by unfold introductions_due; rewrite A|lia|lia].
  - left. apply steady_introduced. unfold dispatch_frame. destruct (frame_type h); try done;
      first [apply route_steady|apply complete_outbound_steady].
Qed.

(** Datagrams arriving one after another, each in its own state of the world. *)
Fixpoint flood (arrivals : list (W * bytes * SocketAddr)) (e : E) : E :=
  match arrivals with
  | [] => e
  | (w, datagram, from) :: arrivals =>
      flood arrivals (dispatch (set_ep_rx (set_ep_world e w) datagram) from).1
  end.

(** Clocks do not go back. *)
Fixpoint ticking (t : Z) (arrivals : list (W * bytes * SocketAddr)) : Prop :=
  match arrivals with
  | [] => True
  | (w, _, _) :: arrivals => t <= net_now w /\ ticking (net_now w) arrivals
  end.

Local Abbreviation U := (2 ^ emin binary32).

(** The budget is a value of [f32] within its size. *)
Definition budget_ok (e : E) : Prop :=
  0 <= ep_handshake_rate e < 2 ^ 24 /\ representable binary32 (bk_left (ep_handshakes e)) /\
  0 <= bk_left (ep_handshakes e) <= ep_handshake_rate e * U.

Lemma dispatch_within (e : E) from :
  budget_ok e -> bk_refilled (ep_handshakes e) <= now e ->
  let e' := (dispatch e from).1 in
  budget_ok e' /\ ep_handshake_rate e' = ep_handshake_rate e /\
  bk_refilled (ep_handshakes e) <= bk_refilled (ep_handshakes e') <= now e /\
  2 ^ 14 * 1000 * (bk_left (ep_handshakes e') + (ep_next_id e' - ep_next_id e) * U)
    <= 2 ^ 14 * 1000 * (bk_left (ep_handshakes e) + (introductions_due e - introductions_due e') * U)
       + (2 ^ 14 + 1) * (ep_handshake_rate e * U * (bk_refilled (ep_handshakes e') - bk_refilled (ep_handshakes e))).
Proof.
  intros (Hrate & Hrep & Hl) Ht. cbn zeta. assert (0 < U) as HU by (apply Z.pow_pos_nonneg; cbn; lia).
  pose proof (dispatch_budget e from) as Hb. set (e' := (dispatch e from).1) in *. clearbody e'.
  destruct Hb as [(B & R & N & D)|Hs].
  - split; [unfold budget_ok; by rewrite B, R|]. split; [done|]. rewrite B, Z.sub_diag, !Z.mul_0_r.
    split; [lia|]. set (u := U) in *. clearbody u. nia.
  - unfold spend_one in Hs.
    rewrite (of_Z_exact binary32 (ep_handshake_rate e)), (of_Z_exact binary32 1) in Hs by (cbn; lia).
    rewrite Z.mul_1_l in Hs.
    pose proof (take_tight binary32 ltac:(cbn; lia) ltac:(cbn; lia) giga32 (ep_handshake_rate e) Hrate
      (ep_handshakes e) (now e) Hrep Hl Ht) as Hk.
    destruct (Bucket.take _ _ _ _ _ _) as [b ok]. destruct Hs as (B & R & D & N), Hk as (Hr1 & Hl1 & Ht1 & Hin).
    split; [unfold budget_ok; by rewrite B, R|]. split; [done|]. rewrite B, D, Ht1, Z.sub_diag.
    split; [lia|]. set (u := U) in *. clearbody u. destruct ok; nia.
Qed.

Lemma flood_within arrivals (e : E) t :
  budget_ok e -> bk_refilled (ep_handshakes e) <= t -> ticking t arrivals ->
  let e' := flood arrivals e in
  0 <= bk_left (ep_handshakes e') /\ 0 <= introductions_due e' /\
  2 ^ 14 * 1000 * (bk_left (ep_handshakes e') + (ep_next_id e' - ep_next_id e) * U)
    <= 2 ^ 14 * 1000 * (bk_left (ep_handshakes e) + (introductions_due e - introductions_due e') * U)
       + (2 ^ 14 + 1) * (ep_handshake_rate e * U * (bk_refilled (ep_handshakes e') - bk_refilled (ep_handshakes e))).
Proof.
  revert e t. induction arrivals as [|[[w d] from] arrivals IH]; intros e t Hok Ht Ho; cbn [flood].
  { cbn zeta. destruct Hok as (_ & _ & ?). rewrite !Z.sub_diag. split; [lia|].
    split; [unfold introductions_due, awaiting|]; lia. }
  destruct Ho as (Hw & Ho). set (e0 := set_ep_rx (set_ep_world e w) d).
  destruct (dispatch_within e0 from Hok) as (Hok1 & R1 & T1 & S1);
    [change (bk_refilled (ep_handshakes e) <= net_now w); lia|].
  change (now e0) with (net_now w) in T1.
  set (e1 := (dispatch e0 from).1) in *. clearbody e1.
  destruct (IH e1 (net_now w) Hok1) as (L2 & D2 & S2); [lia|done|].
  cbn zeta in *. split; [done|]. split; [done|]. rewrite R1 in S2.
  cbn [e0 ep_handshakes ep_handshake_rate ep_next_id ep_rv set_ep_rx set_ep_world] in *.
  change (introductions_due e0) with (introductions_due e) in S1.
  set (u := U) in *. clearbody u. nia.
Qed.


(** ** Who makes room *)
Lemma sooner_spec a b : sooner a b = false ->
  (en_spoke b = true -> en_spoke a = true) /\ (en_spoke a = en_spoke b -> en_filed b <= en_filed a).
Proof. unfold sooner. destruct (en_spoke a), (en_spoke b); intros Hs; zbool; try done; split; intros; try done; lia. Qed.

(** A first one to go: nobody goes before it. *)
Definition goes_first (x : PeerEntry) (l : list (Z * PeerEntry)) : Prop :=
  forall id y, (id, y) ∈ l ->
    (en_spoke x = true -> en_spoke y = true) /\ (en_spoke y = en_spoke x -> en_filed x <= en_filed y).

Lemma first_out_first l id x : first_out l = Some (id, x) -> goes_first x l.
Proof.
  revert id x. induction l as [|[i y] l IH]; intros id x; cbn; [done|].
  destruct (first_out l) as [[j z]|] eqn:Hf.
  - specialize (IH j z eq_refl). cbn [snd]. destruct (sooner z y) eqn:Hs; intros [= <- <-].
    + intros k v [[= -> ->]|Hin]%elem_of_cons; [|by apply (IH k)].
      unfold sooner in Hs. destruct (en_spoke z), (en_spoke y); zbool; try done; split; intros; try done; lia.
    + apply sooner_spec in Hs as [Hs1 Hs2].
      intros k v [[= -> ->]|Hin]%elem_of_cons; [split; [done|lia]|]. destruct (IH k v Hin) as [H1' H2'].
      destruct (en_spoke z) eqn:Ez, (en_spoke y) eqn:Ey, (en_spoke v) eqn:Ev; split; intros; try done; auto; try lia.
      all: try (specialize (Hs2 eq_refl)); try (specialize (H2' eq_refl)); try lia.
      all: try (specialize (Hs1 eq_refl)); try done.
  - intros [= <- <-]. apply first_out_none in Hf as ->.
    intros k v [[= -> ->]|Hin]%elem_of_cons; [split; [done|lia]|by apply elem_of_nil in Hin].
Qed.

(** a full table makes room by dropping exactly one session, and never
    one that has spoken while another has not: the victim has spoken only if
    every session has, and is the oldest of those like it. So completing
    handshakes and going silent, which is all a flood can do, pushes out only
    its own. *)
Theorem eviction_spares_speakers (e : E) :
  1 <= ep_max_peers e <= peer_count e ->
  exists id en, ep_peers e !! id = Some en /\ ep_peers (make_room e) = delete id (ep_peers e) /\
    forall id' en', ep_peers e !! id' = Some en' ->
      (en_spoke en = true -> en_spoke en' = true) /\
      (en_spoke en' = en_spoke en -> en_filed en <= en_filed en').
Proof.
  intros Hm. unfold make_room. zcase; [lia|]. destruct (first_out (peer_entries e)) as [[id en]|] eqn:Hf.
  - exists id, en. split_and!.
    + by apply first_out_elem, elem_of_map_to_list in Hf.
    + unfold release. by rewrite unfile_session_eq.
    + intros id' en' Hin. apply (first_out_first _ _ _ Hf id'). by apply elem_of_map_to_list.
  - apply first_out_none in Hf. unfold peer_count, peer_entries in *.
    apply map_to_list_empty_iff in Hf. rewrite Hf, map_size_empty in *. lia.
Qed.

(** ** Whom a group's list is believed about *)
Lemma fold_events_groups (l : list bytes) tag (e : E) :
  rv_groups (ep_rv (fold_left (fun e key => push_event e (PeerDiscovered key tag)) l e)) = rv_groups (ep_rv e) /\
  ep_events (fold_left (fun e key => push_event e (PeerDiscovered key tag)) l e)
    = ep_events e ++ map (fun key => PeerDiscovered key tag) l.
Proof.
  revert e. induction l as [|x l IH]; intros e; cbn; [by rewrite app_nil_r|].
  destruct (IH (push_event e (PeerDiscovered x tag))) as [-> ->]. split; [done|]. cbn. by rewrite <- app_assoc.
Qed.

(** a rendezvous cannot make up members of a group. Of the list it sends,
    an endpoint keeps exactly the keys whose certificate under the group's key
    is right, never its own, and reports as discovered exactly those it did
    not have before, each once and in order. *)
Theorem group_members_certified (e : E) tag group entries :
  rv_groups (ep_rv e) !! tag = Some group ->
  let e' := on_members e tag entries in
  (forall key, key ∈ group_members e' tag <->
    Some key <> own_key e /\ (key, member_mac (gr_key group) key) ∈ entries) /\
  exists found, ep_events e' = ep_events e ++ map (fun key => PeerDiscovered key tag) found /\
    NoDup found /\ Sorted key_le found /\
    forall key, key ∈ found <-> key ∈ group_members e' tag /\ key ∉ gr_members group.
Proof.
  intros Hg. unfold on_members. rewrite Hg. cbn zeta.
  set (checked := list_to_set _ : gset (list Z)). set (found := sort_keys _).
  match goal with |- context [fold_left ?f found ?x] => destruct (fold_events_groups found tag x) as [Hgr Hev] end.
  assert (Hmem : forall key, key ∈ checked <-> Some key <> own_key e /\ (key, member_mac (gr_key group) key) ∈ entries).
  { intros key. unfold checked. rewrite elem_of_list_to_set, list_elem_of_fmap. split.
    - intros ([k m] & -> & [[Hk Hm] Hin]%list_elem_of_filter). cbn in *. apply same_spec in Hm as ->. done.
    - intros [Hk Hin]. exists (key, member_mac (gr_key group) key). split; [done|].
      apply list_elem_of_filter. split; [|done]. split; [done|]. by apply same_spec. }
  assert (Hgm : forall key, key ∈ group_members (fold_left (fun e key => push_event e (PeerDiscovered key tag)) found
     (set_groups e (<[tag := mkGroup (gr_key group) (gr_mac group) checked]> (rv_groups (ep_rv e))))) tag <-> key ∈ checked).
  { intros key. unfold group_members. rewrite Hgr. cbn. rewrite lookup_insert_eq. cbn. apply elem_of_elements. }
  split; [intros key; by rewrite Hgm|]. exists found. rewrite Hev. split; [done|].
  assert (Hperm : found ≡ₚ elements (checked ∖ gr_members group)) by apply merge_sort_Permutation.
  split_and!.
  - rewrite Hperm. apply NoDup_elements.
  - apply Sorted_merge_sort. intros a b. unfold key_le.
    destruct (bytes_lt b a) eqn:E1; [|by left]. right. by apply bytes_lt_asym.
  - intros key. rewrite Hgm, <- elem_of_difference, <- elem_of_elements. by rewrite Hperm.
Qed.

(** ** Timers *)
Lemma min_list_le l x : x ∈ l -> exists m, Pmtu.min_list l = Some m /\ m <= x.
Proof.
  induction l as [|y l IH]; [by intros ?%elem_of_nil|]. cbn. intros [->|Hx]%elem_of_cons.
  - destruct (Pmtu.min_list l); eexists; (split; [done|lia]).
  - destruct (IH Hx) as (m & -> & Hm). eexists. split; [done|lia].
Qed.

Lemma send_keepalive_other (e : E) id id' :
  id' <> id -> ep_peers (send_keepalive e id).1 !! id' = ep_peers e !! id'.
Proof.
  intros Hne. unfold send_keepalive. destruct (ep_peers e !! id) as [en|]; [|done].
  pose proof (draw_peers e PATH_TOKEN_LEN) as Hd. destruct (draw _ _) as [e1 tok]. cbn in Hd. rewrite <- Hd.
  destruct Peer.challenge as [p [[ack n]|?|]]; cbn [fst snd]; [|by apply lookup_insert_ne..].
  set (e2 := set_ep_ack _ ack). destruct (slice _ _ _) as [f|?|]; [|by apply lookup_insert_ne..].
  pose proof (send_out_peers e2 f (en_addr en)) as Hs.
  assert (H2e : ep_peers e2 !! id' = ep_peers e1 !! id') by (by apply lookup_insert_ne).
  destruct (send_out _ _ _) as [e3 [u|?|]]; cbn in Hs; cbn [fst]; [|by rewrite Hs..].
  unfold stamp_sent. case_match; [|by rewrite Hs]. cbn. rewrite lookup_insert_ne by done. by rewrite Hs.
Qed.

Lemma for_peers_other f (e : E) ids id' :
  (forall e id, id' <> id -> ep_peers (f e id).1 !! id' = ep_peers e !! id') -> id' ∉ ids ->
  ep_peers (for_peers f e ids).1 !! id' = ep_peers e !! id'.
Proof.
  intros Hf. revert e. induction ids as [|id ids IH]; intros e Hn; cbn [for_peers]; [done|].
  apply not_elem_of_cons in Hn as [Hne Hn]. specialize (Hf e id Hne). destruct (f e id) as [e1 [u|?|]]; cbn in *; [|done..].
  by rewrite IH.
Qed.

(** the keep-alive timer and the pass it is for disagree. A peer that has
    not spoken is skipped by [drive_keepalives], so nothing moves on when it
    was last sent to; but the timer counts it, so once its interval is over
    the next deadline is never in the future again, however often the pass
    runs, and the poll loop stops waiting for anything but its one-millisecond
    floor. *)
Theorem keepalive_wakes_for_silent_peer (e : E) every id en :
  ep_keepalive e = Some every -> ep_peers e !! id = Some en ->
  en_spoke en = false -> en_last_sent en + every <= now e ->
  ep_peers (drive_keepalives e).1 !! id = Some en /\
  exists at_, earliest_deadline e = Some at_ /\ at_ <= now e.
Proof.
  intros Hk Hid Hs Hdue. split.
  - unfold drive_keepalives. rewrite Hk. rewrite for_peers_other; [done|intros; by apply send_keepalive_other|].
    intros ([j en'] & -> & [Hd Hin]%list_elem_of_filter)%list_elem_of_fmap. cbn in *.
    apply elem_of_map_to_list in Hin. destruct Hd as [Hsp _]. congruence.
  - assert (Hn : exists d, next_keepalive e = Some d /\ d <= 0).
    { unfold next_keepalive. rewrite Hk. cbn.
      replace 0 with (saturating_sub (en_last_sent en + every) (now e)) by (unfold saturating_sub; lia).
      apply min_list_le. apply list_elem_of_fmap. exists (id, en). split; [done|by apply elem_of_map_to_list]. }
    destruct Hn as (d & Hn & Hd). unfold earliest_deadline. rewrite Hn. cbn [mbind option_bind].
    match goal with |- exists at_, Pmtu.min_list ?l = _ /\ _ =>
      destruct (min_list_le l (now e + d)) as (m & Hm & Hle) end.
    { apply list_elem_of_omap. exists (Some (now e + d)). split; [|done]. set_solver. }
    exists m. split; [exact Hm|lia].
Qed.
End budget.

(** ** On the toy host *)
#[local] Existing Instance Toy.crypto.
#[local] Existing Instance ToyZstd.zstd.

Module Flooded.
Definition fresh : Endpoint ToyNet Keypair := on_socket (Demo.world 2 []) Demo.server_mode.
Definition opening : bytes := Moving.first_out Demo.client.
(** The client's opening frame from three addresses at once. *)
Definition arrivals : list (ToyNet * bytes * SocketAddr) :=
  map (fun n => (Demo.world 3 [], opening, Demo.addr n)) [1; 7; 8].

(** A server with room for one session, and one filed. *)
Definition full : Endpoint ToyNet Keypair := set_max_peers Demo.server 1.

(** A server whose only peer has been silent since it was filed. *)
Definition silent : Endpoint ToyNet Keypair :=
  set_keepalive (set_ep_world Demo.server (mkToyNet 5000 [] [] 9 Settings.default)) (Some 1000).

Definition secret : bytes := map Z.of_nat (seq 0 32).
Definition tag : bytes := group_tag secret.
Definition grouped : Endpoint ToyNet Keypair :=
  set_groups fresh {[tag := mkGroup (group_key secret) [] ∅]}.
End Flooded.


(** A rate of two a second: of the client's three openings from different
    addresses at one instant two are answered. *)
Example flood_stops_at_burst :
  ep_next_id (flood Flooded.arrivals (set_max_handshakes_per_second Flooded.fresh 2)) = 2.
Proof. vm_compute. reflexivity. Qed.

Lemma eviction_spares_speakers_witness :
  1 <= ep_max_peers Flooded.full <= peer_count Flooded.full /\
  exists id, ep_peers (make_room Flooded.full) = delete id (ep_peers Flooded.full).
Proof.
  assert (Hc : 1 <= ep_max_peers Flooded.full <= peer_count Flooded.full) by (vm_compute; split; discriminate).
  split; [exact Hc|]. destruct (eviction_spares_speakers Flooded.full Hc) as (id & en & _ & He & _).
  exists id. exact He.
Defined.

Lemma group_members_certified_witness :
  [1; 2] ∈ group_members (on_members Flooded.grouped Flooded.tag
    [([1; 2], member_mac (group_key Flooded.secret) [1; 2]); ([3; 4], [])]) Flooded.tag.
Proof.
  destruct (group_members_certified Flooded.grouped Flooded.tag (mkGroup (group_key Flooded.secret) [] ∅)
    [([1; 2], member_mac (group_key Flooded.secret) [1; 2]); ([3; 4], [])]) as [Hm _].
  - apply lookup_singleton_eq.
  - apply Hm. split; [vm_compute; discriminate|left].
Defined.

Lemma keepalive_wakes_for_silent_peer_witness :
  exists at_, earliest_deadline Flooded.silent = Some at_ /\ at_ <= now Flooded.silent.
Proof.
  destruct (ep_peers Flooded.silent !! 0) as [en|] eqn:E1; [|vm_compute in E1; discriminate E1].
  assert (Hs : (fun en => (en_spoke en, en_last_sent en)) <$> ep_peers Flooded.silent !! 0 = Some (false, 1001))
    by (vm_compute; reflexivity).
  rewrite E1 in Hs. injection Hs as Hs Hl.
  destruct (keepalive_wakes_for_silent_peer Flooded.silent 1000 0 en) as [_ Hw].
  - vm_compute. reflexivity.
  - exact E1.
  - exact Hs.
  - rewrite Hl. vm_compute. discriminate.
  - exact Hw.
Defined.
