(* ===== verification/Rendezvous.v ===== *)
(** * The rendezvous (crates/fectp/src/rendezvous.rs: [Rendezvous])

    The third party two peers both reach: registration, introductions, groups
    and relay allocations, on top of an endpoint. What it asks of the endpoint
    is the class [Host]; [HostLaws] is what it relies on, and the endpoint
    discharges both (RendezvousInv). A relay's threads run beside it, so a relay moving on by a
    datagram is a step of its own, [relay_turn]. What holds of it
    is in RendezvousInv.v. *)
From stdpp Require Import gmap.
From S2P Require Import Prelude Bytes Error Float Codec Cipher Symmetric Handshake Session Connect Compress.
From S2P Require Import Pipeline Control Relay Udp EndpointState Endpoint EndpointReceive EndpointFrame EndpointTables.

Definition INTRODUCTION_WINDOW : Z := 30000.
Definition RELAY_WINDOW : Z := 60000.
Definition MAX_RELAYS : Z := 64.
Definition MAX_RELAYS_PER_IP : Z := 4.
Definition MAX_CLIENTS_PER_IP : Z := 32.
Definition INTRODUCTIONS_PER_SECOND : Z := 4.
Definition MAX_POLL_WAIT : Z := 1000.
Definition BUDGET_KEPT : Z := 60000.
#[export] Hint Unfold INTRODUCTION_WINDOW RELAY_WINDOW MAX_RELAYS MAX_RELAYS_PER_IP MAX_CLIENTS_PER_IP
  INTRODUCTIONS_PER_SECOND MAX_POLL_WAIT BUDGET_KEPT : consts.

(** ** What a rendezvous asks of its endpoint

    [host_send] is [send_reliable] with the result dropped; [host_poll] polls
    for at most so long and so many turns; [host_bind] opens a relay socket and
    [host_random] is the generator. *)
Class Host (H : Type) := {
  host_now : H -> Z;
  host_key : H -> Z -> option bytes;
  host_addr : H -> Z -> option SocketAddr;
  host_send : H -> Z -> bytes -> H;
  host_poll : nat -> H -> Z -> H * HostResult (option Event);
  host_local_addr : H -> option SocketAddr;
  host_bind : H -> IpAddr -> H * option Z;
  host_random : H -> Z -> H * bytes;
}.

(** What the rendezvous relies on: whatever the endpoint does next, an
    identifier that stood for a key never stands for another, and a session has
    an address exactly when it has a key. *)
Class HostLaws (H : Type) `{Host H} := {
  host_ok : H -> Prop;
  host_later : H -> H -> Prop;
  host_later_refl h : host_ok h -> host_later h h;
  host_later_trans h1 h2 h3 : host_later h1 h2 -> host_later h2 h3 -> host_later h1 h3;
  host_later_ok h h' : host_later h h' -> host_ok h';
  host_later_send h peer b : host_ok h -> host_later h (host_send h peer b);
  host_later_poll fuel h wait : host_ok h -> host_later h (host_poll fuel h wait).1;
  host_later_bind h ip : host_ok h -> host_later h (host_bind h ip).1;
  host_later_random h n : host_ok h -> host_later h (host_random h n).1;
  host_later_key h h' p k k' : host_later h h' -> host_key h p = Some k -> host_key h' p = Some k' -> k' = k;
  host_addr_key h p : is_Some (host_addr h p) -> is_Some (host_key h p);
}.

Record Client := mkClient { cl_key : bytes; cl_addr : SocketAddr }.

Record Rendezvous (H : Type) := mkRendezvous {
  rz_endpoint : H;
  rz_clients : gmap Z Client;
  rz_by_key : gmap (list Z) Z;
  rz_budgets : gmap IpAddr Bucket;
  rz_asked : gmap (list Z * list Z) Z;
  rz_introduced : gmap (list Z * list Z) Z;
  rz_relays : gmap (list Z * list Z) Allocation;
  rz_policy : bytes -> bytes -> bool;
  rz_window : Z;
  rz_relay_ip : option IpAddr;
  rz_groups : gmap (list Z) (list (Z * bytes * bytes));
}.
Arguments mkRendezvous {H}.
Arguments rz_endpoint {H} _.
Arguments rz_clients {H} _.
Arguments rz_by_key {H} _.
Arguments rz_budgets {H} _.
Arguments rz_asked {H} _.
Arguments rz_introduced {H} _.
Arguments rz_relays {H} _.
Arguments rz_policy {H} _.
Arguments rz_window {H} _.
Arguments rz_relay_ip {H} _.
Arguments rz_groups {H} _.

Section setters.
Context {H : Type}.
Definition set_rz_endpoint (r : Rendezvous H) v : Rendezvous H := mkRendezvous v (rz_clients r)
    (rz_by_key r) (rz_budgets r) (rz_asked r) (rz_introduced r) (rz_relays r) (rz_policy r)
    (rz_window r) (rz_relay_ip r) (rz_groups r).
Definition set_rz_clients (r : Rendezvous H) v : Rendezvous H := mkRendezvous (rz_endpoint r) v
    (rz_by_key r) (rz_budgets r) (rz_asked r) (rz_introduced r) (rz_relays r) (rz_policy r)
    (rz_window r) (rz_relay_ip r) (rz_groups r).
Definition set_rz_by_key (r : Rendezvous H) v : Rendezvous H := mkRendezvous (rz_endpoint r)
    (rz_clients r) v (rz_budgets r) (rz_asked r) (rz_introduced r) (rz_relays r) (rz_policy r)
    (rz_window r) (rz_relay_ip r) (rz_groups r).
Definition set_rz_budgets (r : Rendezvous H) v : Rendezvous H := mkRendezvous (rz_endpoint r)
    (rz_clients r) (rz_by_key r) v (rz_asked r) (rz_introduced r) (rz_relays r) (rz_policy r)
    (rz_window r) (rz_relay_ip r) (rz_groups r).
Definition set_rz_asked (r : Rendezvous H) v : Rendezvous H := mkRendezvous (rz_endpoint r)
    (rz_clients r) (rz_by_key r) (rz_budgets r) v (rz_introduced r) (rz_relays r) (rz_policy r)
    (rz_window r) (rz_relay_ip r) (rz_groups r).
Definition set_rz_introduced (r : Rendezvous H) v : Rendezvous H := mkRendezvous (rz_endpoint r)
    (rz_clients r) (rz_by_key r) (rz_budgets r) (rz_asked r) v (rz_relays r) (rz_policy r)
    (rz_window r) (rz_relay_ip r) (rz_groups r).
Definition set_rz_relays (r : Rendezvous H) v : Rendezvous H := mkRendezvous (rz_endpoint r)
    (rz_clients r) (rz_by_key r) (rz_budgets r) (rz_asked r) (rz_introduced r) v (rz_policy r)
    (rz_window r) (rz_relay_ip r) (rz_groups r).
Definition set_rz_policy (r : Rendezvous H) v : Rendezvous H := mkRendezvous (rz_endpoint r)
    (rz_clients r) (rz_by_key r) (rz_budgets r) (rz_asked r) (rz_introduced r) (rz_relays r) v
    (rz_window r) (rz_relay_ip r) (rz_groups r).
Definition set_rz_window (r : Rendezvous H) v : Rendezvous H := mkRendezvous (rz_endpoint r)
    (rz_clients r) (rz_by_key r) (rz_budgets r) (rz_asked r) (rz_introduced r) (rz_relays r)
    (rz_policy r) v (rz_relay_ip r) (rz_groups r).
Definition set_rz_relay_ip (r : Rendezvous H) v : Rendezvous H := mkRendezvous (rz_endpoint r)
    (rz_clients r) (rz_by_key r) (rz_budgets r) (rz_asked r) (rz_introduced r) (rz_relays r)
    (rz_policy r) (rz_window r) v (rz_groups r).
Definition set_rz_groups (r : Rendezvous H) v : Rendezvous H := mkRendezvous (rz_endpoint r)
    (rz_clients r) (rz_by_key r) (rz_budgets r) (rz_asked r) (rz_introduced r) (rz_relays r)
    (rz_policy r) (rz_window r) (rz_relay_ip r) v.
End setters.

Module Rendezvous.
Section rendezvous.
Context {H : Type} `{Host H} `{Crypto}.
Local Abbreviation R := (Rendezvous H).

(** [bind], on an endpoint with its keep-alive and timeout set. *)
Definition on_endpoint (h : H) : R :=
  mkRendezvous h ∅ ∅ ∅ ∅ ∅ ∅ (fun _ _ => true) INTRODUCTION_WINDOW None ∅.

Definition set_relay_address (r : R) (ip : IpAddr) : R := set_rz_relay_ip r (Some ip).
Definition set_policy (r : R) (allow : bytes -> bytes -> bool) : R := set_rz_policy r allow.
Definition set_introduction_window (r : R) (window : Z) : R := set_rz_window r window.
Definition clients (r : R) : Z := Z.of_nat (size (rz_clients r)).
Definition relays (r : R) : Z := Z.of_nat (size (rz_relays r)).

Definition now (r : R) : Z := host_now (rz_endpoint r).

Definition send (r : R) (peer : Z) (c : Control) : R :=
  set_rz_endpoint r (host_send (rz_endpoint r) peer (Control.encode c)).

(** ** Groups *)
Definition in_group (peer : Z) (members : list (Z * bytes * bytes)) : bool :=
  existsb (fun m => m.1.1 =? peer) members.

(** [list] and [to] are read before anything is sent. *)
Definition tell_group (r : R) (tag : bytes) : R :=
  match rz_groups r !! tag with
  | None => r
  | Some members =>
      let message := Members tag (map (fun m => (m.1.2, m.2)) members) in
      fold_left (fun r m => send r m.1.1 message) members r
  end.

Definition join (r : R) (peer : Z) (key tag mac : bytes) : R :=
  let groups_of_peer :=
    len (filter (fun tm => tm.1 <> tag /\ in_group peer tm.2 = true) (map_to_list (rz_groups r))) in
  let members := filter (fun m => m.1.1 <> peer /\ m.1.2 <> key) (default [] (rz_groups r !! tag)) in
  if (MAX_GROUP_MEMBERS <=? len members) || (MAX_GROUPS <=? groups_of_peer) then
    set_rz_groups r (match members with
                     | [] => delete tag (rz_groups r)
                     | _ => <[tag := members]> (rz_groups r)
                     end)
  else
    tell_group (set_rz_groups r (<[tag := members ++ [(peer, key, mac)]]> (rz_groups r))) tag.

Definition leave (r : R) (peer : Z) (tag : bytes) : R :=
  match rz_groups r !! tag with
  | None => r
  | Some before =>
      let members := filter (fun m => m.1.1 <> peer) before in
      if len members =? len before then r else
      match members with
      | [] => set_rz_groups r (delete tag (rz_groups r))
      | _ => tell_group (set_rz_groups r (<[tag := members]> (rz_groups r))) tag
      end
  end.

Definition forget (r : R) (peer : Z) : R :=
  let r :=
    match rz_clients r !! peer with
    | None => r
    | Some client =>
        let r := set_rz_clients r (delete peer (rz_clients r)) in
        if bool_decide (rz_by_key r !! cl_key client = Some peer)
        then set_rz_by_key r (delete (cl_key client) (rz_by_key r)) else r
    end in
  let left_ := map fst (filter (fun tm => in_group peer tm.2 = true) (map_to_list (rz_groups r))) in
  fold_left (fun r tag => leave r peer tag) left_ r.

(** ** Requests *)
Definition full_budget : Z := Fl.mul binary32 (Fl.of_Z binary32 2) (Fl.of_Z binary32 INTRODUCTIONS_PER_SECOND).

Definition spend (r : R) (ip : IpAddr) : R * bool :=
  let t := now r in
  let budget := default (mkBucket full_budget t) (rz_budgets r !! ip) in
  let (budget, ok) :=
    Bucket.take binary32 (Fl.of_Z binary32 INTRODUCTIONS_PER_SECOND) full_budget (Fl.of_Z binary32 1)
      t budget in
  (set_rz_budgets r (<[ip := budget]> (rz_budgets r)), ok).

Definition register (r : R) (peer : Z) : R :=
  match host_key (rz_endpoint r) peer, host_addr (rz_endpoint r) peer with
  | Some key, Some addr =>
      let from_ip :=
        len (filter (fun ic => SocketAddr.ip (cl_addr ic.2) = SocketAddr.ip addr)
               (map_to_list (rz_clients r))) in
      if negb (is_some (rz_clients r !! peer)) && (MAX_CLIENTS_PER_IP <=? from_ip) then r else
      let old := rz_by_key r !! key in
      let r := set_rz_by_key r (<[key := peer]> (rz_by_key r)) in
      let r :=
        match old with
        | Some old => if old =? peer then r else set_rz_clients r (delete old (rz_clients r))
        | None => r
        end in
      let r := set_rz_clients r (<[peer := mkClient key addr]> (rz_clients r)) in
      send r peer (Observed addr)
  | _, _ => r
  end.

Definition refuse (r : R) (peer : Z) (about : bytes) (reason : Unavailable) : R :=
  send r peer (ControlUnavailable about (Unavailable.to_byte reason)).

Definition introduce (r : R) (peer : Z) (from target : bytes) : R :=
  if bool_decide (target = from) then r else
  if negb (rz_policy r from target) then refuse r peer target Refused else
  let t := now r in
  let r := set_rz_asked r (<[(from, target) := t]> (rz_asked r)) in
  let mutual :=
    match rz_asked r !! (target, from) with
    | Some at_ => since t at_ <=? rz_window r
    | None => false
    end in
  match rz_by_key r !! target with
  | None => r
  | Some other =>
      if negb mutual then r else
      match host_addr (rz_endpoint r) peer, host_addr (rz_endpoint r) other with
      | Some here, Some there =>
          let r := set_rz_asked r (delete (target, from) (delete (from, target) (rz_asked r))) in
          let r := set_rz_introduced r (<[pair from target := t]> (rz_introduced r)) in
          let r := send r peer (Introduction target there) in
          send r other (Introduction from here)
      | _, _ => r
      end
  end.

Definition refuse_to (r : R) (to about : bytes) (reason : Unavailable) : R :=
  match rz_by_key r !! to with Some peer => refuse r peer about reason | None => r end.

Definition refuse_relay (r : R) (from target : bytes) (reason : Unavailable) : R :=
  refuse_to (refuse_to r from target reason) target from reason.

(** [make()] of [Allocation::open]: the port bound, its token and its secret. *)
Definition make_port (h : H) (bound : IpAddr) : H * option (Z * bytes * bytes) :=
  let (h, port) := host_bind h bound in
  match port with
  | None => (h, None)
  | Some port =>
      let (h, token) := host_random h SECRET_LEN in
      let (h, secret) := host_random h SECRET_LEN in
      (h, Some (port, token, secret))
  end.

Definition open_allocation (h : H) (bound advertised : IpAddr) (ips : gset IpAddr)
  : H * option Allocation :=
  let (h, first) := make_port h bound in
  match first with
  | None => (h, None)
  | Some (port0, token0, secret0) =>
      let (h, second) := make_port h bound in
      match second with
      | None => (h, None)
      | Some (port1, token1, secret1) =>
          (h, Some (Allocation.open bound advertised ips port0 port1 token0 secret0 token1 secret1
                      (host_now h)))
      end
  end.

(** The IP addresses of a pair's registrations. *)
Definition ips_of (r : R) (peer other : Z) : gset IpAddr :=
  let ip_of peer := option_list ((fun c => SocketAddr.ip (cl_addr c)) <$> rz_clients r !! peer) in
  list_to_set (ip_of peer ++ ip_of other).

(** The relays an IP address has a side of. *)
Definition relays_of (r : R) (ip : IpAddr) : Z :=
  len (filter (fun ka => ip ∈ al_ips ka.2) (map_to_list (rz_relays r))).

Definition offer (r : R) (to other : bytes) (p : Port) : R :=
  match rz_by_key r !! to with
  | Some peer => send r peer (RelayOffer other (pt_advertised p) (pt_token p))
  | None => r
  end.

(** Both sides told where their port is: 0 for the smaller key. *)
Definition offers (r : R) (key : bytes * bytes) (a : Allocation) : R :=
  offer (offer r key.1 key.2 (al_port0 a)) key.2 key.1 (al_port1 a).

(** A pair's relay, opened if it has none and there is room: [None] for a refusal. *)
Definition allocate (r : R) (key : bytes * bytes) (peer other : Z) : R * option Allocation :=
  match rz_relays r !! key with
  | Some a => (r, Some a)
  | None =>
      let ips := ips_of r peer other in
      let crowded := existsb (fun ip => MAX_RELAYS_PER_IP <=? relays_of r ip) (elements ips) in
      match host_local_addr (rz_endpoint r) with
      | None => (r, None)
      | Some local =>
          let bound := SocketAddr.ip local in
          let advertised := default bound (rz_relay_ip r) in
          if (MAX_RELAYS <=? relays r) || crowded || is_unspecified advertised then (r, None) else
          let (h, a) := open_allocation (rz_endpoint r) bound advertised ips in
          let r := set_rz_endpoint r h in
          match a with
          | None => (r, None)
          | Some a => (set_rz_relays r (<[key := a]> (rz_relays r)), Some a)
          end
      end
  end.

Definition relay (r : R) (peer : Z) (from target : bytes) : R :=
  let key := pair from target in
  let recent :=
    match rz_introduced r !! key with
    | Some at_ => since (now r) at_ <=? RELAY_WINDOW
    | None => false
    end in
  match rz_by_key r !! target with
  | None => refuse r peer target NotRegistered
  | Some other =>
      if negb recent then refuse r peer target NoRelay else
      if negb (rz_policy r from target) then refuse_relay r from target NoRelay else
      let (r, a) := allocate r key peer other in
      match a with
      | None => refuse_relay r from target NoRelay
      | Some a => offers r key a
      end
  end.

(** A request about [target], if its address has budget for it. *)
Definition request (r : R) (peer : Z) (ip : IpAddr) (target : bytes) (act : R -> R) : R :=
  let (r, ok) := spend r ip in
  if ok then act r else refuse r peer target Refused.

Definition handle (r : R) (peer : Z) (c : Control) : R :=
  match c with
  | Register => register r peer
  | _ =>
      match rz_clients r !! peer with
      | None => r
      | Some client =>
          let from := cl_key client in
          let ip := SocketAddr.ip (cl_addr client) in
          match c with
          | Join tag mac => let (r, ok) := spend r ip in if ok then join r peer from tag mac else r
          | Leave tag => leave r peer tag
          | Introduce target => request r peer ip target (fun r => introduce r peer from target)
          | RelayRequest target => request r peer ip target (fun r => relay r peer from target)
          | _ => r
          end
      end
  end.

(** An unanswered request that has run out: whoever asked is told why. *)
Definition expire_one (r : R) (ft : bytes * bytes) : R :=
  match rz_by_key r !! ft.1 with
  | None => r
  | Some peer =>
      refuse r peer ft.2 (if is_some (rz_by_key r !! ft.2) then NotAsked else NotRegistered)
  end.

Definition expire (r : R) : R :=
  let t := now r in
  let expired := map fst (filter (fun fa => rz_window r < since t fa.2) (map_to_list (rz_asked r))) in
  let r := set_rz_asked r (filter (fun fa => since t fa.2 <= rz_window r) (rz_asked r)) in
  let r := fold_left expire_one expired r in
  let r := set_rz_introduced r (filter (fun pa => since t pa.2 <= RELAY_WINDOW) (rz_introduced r)) in
  let r := set_rz_relays r (filter (fun pa => Allocation.idle pa.2 t = false) (rz_relays r)) in
  set_rz_budgets r (filter (fun ib => since t (bk_refilled ib.2) < BUDGET_KEPT) (rz_budgets r)).

Definition on_event (r : R) (ev : Event) : R :=
  match ev with
  | Message peer data =>
      match Control.decode data with Some c => handle r peer c | None => r end
  | PeerLost peer => forget r peer
  | _ => r
  end.

(** [poll], for [fuel] turns of the endpoint's; [Ok false] means they were not
    enough. *)
Definition poll (fuel : nat) (timeout : option Z) (r : R) : R * HostResult bool :=
  let r := expire r in
  let wait := match timeout with Some t => Z.min t MAX_POLL_WAIT | None => MAX_POLL_WAIT end in
  let (h, ev) := host_poll fuel (rz_endpoint r) wait in
  let! (r, ev) := (set_rz_endpoint r h, ev) in
  match ev with
  | Some ev => (on_event r ev, Ok true)
  | None => (r, Ok false)
  end.

(** A relay's thread handles one datagram. *)
Definition relay_turn (r : R) (key : bytes * bytes) (arrival : Arrival) : R :=
  match rz_relays r !! key with
  | Some a => set_rz_relays r (<[key := fst (Relay.handle a arrival)]> (rz_relays r))
  | None => r
  end.
End rendezvous.
End Rendezvous.
