(* ===== verification/RendezvousInv.v ===== *)
(** * What the rendezvous keeps (crates/fectp/src/rendezvous.rs)

    The rendezvous as a state machine: [step] is one thing that happens to it,
    an event from its endpoint, its timers, a relay's thread, a setting, or
    the endpoint moving on by itself. The invariants hold in every state that
    steps reach from a fresh one, on any endpoint with the laws of [Host]; the
    last section shows [Endpoint] has them. *)
From stdpp Require Import gmap.
From S2P Require Import Prelude Bytes Error Float Codec Cipher Symmetric Handshake Session Connect Compress.
From S2P Require Import Pipeline Control Relay Udp EndpointState Endpoint EndpointReceive EndpointFrame EndpointTables.
From S2P Require Import EndpointCalls Rendezvous.
Import Rendezvous.

(** ** What a step tells whom *)
Section telling.
Context {H : Type} `{Host H} `{Crypto}.
Local Abbreviation R := (Rendezvous H).

(** [h'] is [h] after the messages [l] were sent, with sockets opened and bytes
    drawn between them. *)
Inductive told : list (Z * Control) -> H -> H -> Prop :=
| told_nil h : told [] h h
| told_send h peer c l h' : told l (host_send h peer (Control.encode c)) h' -> told ((peer, c) :: l) h h'
| told_bind h ip l h' : told l (host_bind h ip).1 h' -> told l h h'
| told_random h n l h' : told l (host_random h n).1 h' -> told l h h'.

Lemma told_app l1 l2 h h1 h2 : told l1 h h1 -> told l2 h1 h2 -> told (l1 ++ l2) h h2.
Proof.
  induction 1; intros; cbn; [done|constructor; auto|eapply told_bind; auto|eapply told_random; auto].
Qed.

(** Only messages satisfying [Q] went out, and nothing but the endpoint changed. *)
Definition tells (Q : Control -> Prop) (r r' : R) : Prop :=
  (exists l, told l (rz_endpoint r) (rz_endpoint r') /\ Forall (fun m => Q m.2) l) /\
  r' = set_rz_endpoint r (rz_endpoint r').

#[global] Instance tells_preorder Q : PreOrder (tells Q).
Proof.
  split.
  - intros r. split; [|by destruct r]. exists []. by repeat constructor.
  - intros r1 r2 r3 [(l1 & T1 & F1) E1] [(l2 & T2 & F2) E2]. split.
    + exists (l1 ++ l2). split; [by eapply told_app|by apply Forall_app].
    + rewrite E2, E1. by destruct r1.
Qed.

Lemma send_tells (Q : Control -> Prop) (r : R) peer c : Q c -> tells Q r (send r peer c).
Proof. intros HQ. split; [|done]. exists [(peer, c)]. split; [by repeat constructor|by repeat constructor]. Qed.

Lemma tells_field {A} (f : R -> A) Q r r' :
  (forall r h, f (set_rz_endpoint r h) = f r) -> tells Q r r' -> f r' = f r.
Proof. intros Hf [_ ->]. apply Hf. Qed.

(** Nothing that names a third party's address. *)
Definition quiet (c : Control) : Prop :=
  match c with Introduction _ _ | RelayOffer _ _ _ => False | _ => True end.

Lemma refuse_tells (r : R) peer about reason : tells quiet r (refuse r peer about reason).
Proof. by apply send_tells. Qed.

Lemma refuse_to_tells (r : R) to about reason : tells quiet r (refuse_to r to about reason).
Proof. unfold refuse_to. case_match; [apply refuse_tells|done]. Qed.

Lemma refuse_relay_tells (r : R) from target reason : tells quiet r (refuse_relay r from target reason).
Proof. unfold refuse_relay. etrans; apply refuse_to_tells. Qed.

Lemma fold_tells {A} Q (f : R -> A -> R) l r : (forall r x, tells Q r (f r x)) -> tells Q r (fold_left f l r).
Proof. intros Hf. revert r. induction l as [|x l IH]; intros r; cbn; [done|]. etrans; [apply Hf|apply IH]. Qed.

Lemma tell_group_tells (r : R) tag : tells quiet r (tell_group r tag).
Proof.
  unfold tell_group. case_match; [|done]. apply fold_tells. intros. by apply send_tells.
Qed.

Lemma expire_one_tells (r : R) ft : tells quiet r (expire_one r ft).
Proof. unfold expire_one. case_match; [apply refuse_tells|done]. Qed.

Lemma open_allocation_told (h : H) bound advertised ips :
  told [] h (open_allocation h bound advertised ips).1.
Proof.
  assert (Hm : forall h, told [] h (make_port h bound).1).
  { intros h0. unfold make_port. destruct (host_bind h0 bound) as [h1 p] eqn:E1.
    eapply (told_bind h0 bound). rewrite E1. cbn. destruct p; [|constructor].
    destruct (host_random h1 SECRET_LEN) as [h2 tk] eqn:E2. eapply (told_random h1 SECRET_LEN). rewrite E2. cbn.
    destruct (host_random h2 SECRET_LEN) as [h3 sc] eqn:E3. eapply (told_random h2 SECRET_LEN). rewrite E3. constructor. }
  unfold open_allocation. pose proof (Hm h) as H1'. destruct (make_port h bound) as [h1 [[[p0 t0] s0]|]]; [|done].
  pose proof (Hm h1) as H2'. destruct (make_port h1 bound) as [h2 [[[p1 t1] s1]|]]; cbn in *;
    by apply (told_app [] [] h h1).
Qed.
End telling.

(** ** Counting the entries of a map *)

Section counting.
Context {K A B : Type} `{Countable K}.

Lemma count_filter (P : K * A -> Prop) `{!forall x, Decision (P x)} (m : gmap K A) :
  len (filter P (map_to_list m)) = Z.of_nat (size (filter P m)).
Proof.
  rewrite len_length. f_equal. rewrite map_filter_alt, <- length_map_to_list.
  symmetry. apply Permutation_length, map_to_list_to_map.
  eapply sublist_NoDup; [apply (NoDup_fst_map_to_list m)|]. apply fmap_sublist, sublist_filter.
Qed.

Lemma size_filter_mono (P : K * A -> Prop) (Q : K * B -> Prop) `{!forall x, Decision (P x)}
    `{!forall x, Decision (Q x)} (m : gmap K A) (m' : gmap K B) :
  (forall k x, m !! k = Some x -> P (k, x) -> exists y, m' !! k = Some y /\ Q (k, y)) ->
  (size (filter P m) <= size (filter Q m'))%nat.
Proof.
  intros Hsub. rewrite <- !(size_dom (D := gset K)). apply subseteq_size. intros k.
  rewrite !elem_of_dom. intros [x [Hx HP]%map_lookup_filter_Some].
  destruct (Hsub k x Hx HP) as (y & ? & ?). exists y. by apply map_lookup_filter_Some.
Qed.

Lemma size_insert_le (m : gmap K A) k x : (size (<[k := x]> m) <= S (size m))%nat.
Proof. rewrite map_size_insert. destruct (m !! k); cbn; lia. Qed.
End counting.

(** ** The groups' limits *)
Definition member_ok (members : list (Z * bytes * bytes)) : Prop :=
  members <> [] /\ len members <= MAX_GROUP_MEMBERS /\
  NoDup (map (fun m => m.1.1) members) /\ NoDup (map (fun m => m.1.2) members).

(** The groups a peer is in. *)
Definition groups_of (groups : gmap (list Z) (list (Z * bytes * bytes))) (peer : Z) : Z :=
  Z.of_nat (size (filter (fun tm => in_group peer tm.2 = true) groups)).

Definition groups_ok (groups : gmap (list Z) (list (Z * bytes * bytes))) : Prop :=
  (forall tag members, groups !! tag = Some members -> member_ok members) /\
  (forall peer, groups_of groups peer <= MAX_GROUPS).

Lemma in_group_spec peer members : in_group peer members = true <-> peer ∈ map (fun m => m.1.1) members.
Proof.
  unfold in_group. rewrite existsb_exists, list_elem_of_In, in_map_iff.
  split; intros (m & H1 & H2); exists m; [apply Z.eqb_eq in H2|subst]; split; try done. by apply Z.eqb_refl.
Qed.

Lemma member_ok_filter (P : Z * bytes * bytes -> Prop) `{!forall m, Decision (P m)} members :
  member_ok members -> filter P members <> [] -> member_ok (filter P members).
Proof.
  intros (_ & Hl & Hp & Hk) Hn.
  assert (Hs : filter P members `sublist_of` members) by apply sublist_filter.
  split_and!; [done| | |].
  - rewrite !len_length in *. apply sublist_length in Hs. lia.
  - by eapply sublist_NoDup; [|apply fmap_sublist, Hs].
  - by eapply sublist_NoDup; [|apply fmap_sublist, Hs].
Qed.

Lemma in_group_filter (P : Z * bytes * bytes -> Prop) `{!forall m, Decision (P m)} peer members :
  in_group peer (filter P members) = true -> in_group peer members = true.
Proof.
  rewrite !in_group_spec. intros Hp. eapply elem_of_submseteq; [exact Hp|].
  apply sublist_submseteq, fmap_sublist, sublist_filter.
Qed.

Lemma groups_ok_delete groups tag : groups_ok groups -> groups_ok (delete tag groups).
Proof.
  intros [Hm Hc]. split.
  - intros t members [_ Ht]%lookup_delete_Some. by eapply Hm.
  - intros peer. etrans; [|apply (Hc peer)]. unfold groups_of.
    apply inj_le, size_filter_mono. intros k x [_ Hk]%lookup_delete_Some ?. by exists x.
Qed.

(** Dropping members of a group, the group itself when it empties. *)
Lemma groups_ok_drop (P : Z * bytes * bytes -> Prop) `{!forall m, Decision (P m)} groups tag members :
  groups !! tag = Some members -> filter P members <> [] ->
  groups_ok groups -> groups_ok (<[tag := filter P members]> groups).
Proof.
  intros Ht Hn [Hm Hc]. split.
  - intros t ms [[<- <-]|[_ ?]]%lookup_insert_Some; [|by eapply Hm]. apply member_ok_filter; [by eapply Hm|done].
  - intros peer. etrans; [|apply (Hc peer)]. apply inj_le, size_filter_mono.
    intros k x [[<- <-]|[_ ?]]%lookup_insert_Some; cbn; [|by exists x].
    intros Hx%in_group_filter. by exists members.
Qed.

(** A member added in the place of whatever had its identifier or its key. *)
Lemma groups_ok_add groups tag peer key mac :
  let rest := filter (fun m : Z * bytes * bytes => m.1.1 <> peer /\ m.1.2 <> key) (default [] (groups !! tag)) in
  len rest < MAX_GROUP_MEMBERS ->
  len (filter (fun tm => tm.1 <> tag /\ in_group peer tm.2 = true) (map_to_list groups)) < MAX_GROUPS ->
  groups_ok groups -> groups_ok (<[tag := rest ++ [(peer, key, mac)]]> groups).
Proof.
  intros rest Hl Hg [Hm Hc]. rewrite count_filter in Hg.
  assert (Hrest : NoDup (map (fun m => m.1.1) rest) /\ NoDup (map (fun m => m.1.2) rest)).
  { unfold rest. destruct (groups !! tag) as [ms|] eqn:Ht; cbn; [|by split; constructor].
    destruct (Hm _ _ Ht) as (_ & _ & Hp & Hk).
    split; (eapply sublist_NoDup; [done|apply fmap_sublist, sublist_filter]). }
  assert (Hout : forall m, m ∈ rest -> m.1.1 <> peer /\ m.1.2 <> key) by (by intros m [? _]%list_elem_of_filter).
  split.
  - intros t ms [[<- <-]|[_ ?]]%lookup_insert_Some; [|by eapply Hm].
    split_and!; [by destruct rest|rewrite len_app, len_cons, len_nil; lia|..]; rewrite map_app;
      apply list.NoDup_app; (split_and!; [apply Hrest| |apply NoDup_singleton]);
      intros x Hx ->%list_elem_of_singleton; apply list_elem_of_fmap in Hx as (m & E & [??]%Hout); cbn in E; congruence.
  - intros q. destruct (decide (q = peer)) as [->|Hq].
    + assert (Hsub : (groups_of (<[tag := rest ++ [(peer, key, mac)]]> groups) peer <=
        Z.of_nat (S (size (filter (fun tm => tm.1 <> tag /\ in_group peer tm.2 = true) groups))))).
      { unfold groups_of. apply inj_le.
        etrans; [|apply (size_insert_le _ tag (rest ++ [(peer, key, mac)]))].
        rewrite <- !(size_dom (D := gset (list Z))). apply subseteq_size. intros k. rewrite !elem_of_dom.
        intros [x [[[<- <-]|[Hk Hx]]%lookup_insert_Some HP]%map_lookup_filter_Some].
        - rewrite lookup_insert_eq. by eexists.
        - rewrite lookup_insert_ne by done. exists x. apply map_lookup_filter_Some. by split_and!. }
      revert Hsub Hg. autounfold with consts. lia.
    + etrans; [|apply (Hc q)]. apply inj_le, size_filter_mono.
      intros k x [[<- <-]|[_ ?]]%lookup_insert_Some; cbn; [|by exists x].
      intros Hin. unfold in_group in Hin. rewrite existsb_app in Hin. cbn in Hin.
      replace (peer =? q) with false in Hin by lia. rewrite !orb_false_r in Hin.
      unfold rest in Hin. destruct (groups !! tag) as [ms|]; [|done]. exists ms. split; [done|].
      by apply in_group_filter in Hin.
Qed.

(** ** The rendezvous as a state machine *)
Inductive Action (H : Type) :=
| Timers
| Happens (ev : Event)
| Moves (h : H)
| RelayTurn (key : bytes * bytes) (arrival : Arrival)
| SetPolicy (allow : bytes -> bytes -> bool)
| SetWindow (window : Z)
| SetRelayAddress (ip : IpAddr).
Arguments Timers {H}.
Arguments Happens {H} ev.
Arguments Moves {H} h.
Arguments RelayTurn {H} key arrival.
Arguments SetPolicy {H} allow.
Arguments SetWindow {H} window.
Arguments SetRelayAddress {H} ip.

Section machine.
Context {H : Type} `{HostLaws H} `{Crypto}.
Local Abbreviation R := (Rendezvous H).

Definition act (r : R) (a : Action H) : R :=
  match a with
  | Timers => expire r
  | Happens ev => on_event r ev
  | Moves h => set_rz_endpoint r h
  | RelayTurn key arrival => relay_turn r key arrival
  | SetPolicy allow => set_policy r allow
  | SetWindow window => set_introduction_window r window
  | SetRelayAddress ip => set_relay_address r ip
  end.

(** What happened so far, each with the state it happened in. *)
Inductive reached : list (R * Action H) -> R -> Prop :=
| reached_start h : host_ok h -> reached [] (on_endpoint h)
| reached_act tr r a : reached tr r ->
    match a with Moves h => host_later (rz_endpoint r) h | _ => True end ->
    reached (tr ++ [(r, a)]) (act r a).

(** In this step [from] asks for [target], under a policy that allows it. *)
Definition asks (r : R) (a : Action H) (from target : bytes) : Prop :=
  exists peer data c, a = Happens (Message peer data) /\ Control.decode data = Some (Introduce target) /\
    rz_clients r !! peer = Some c /\ cl_key c = from /\ rz_policy r from target = true.

Definition asked_in (tr : list (R * Action H)) (from target : bytes) (t : Z) : Prop :=
  exists r a, (r, a) ∈ tr /\ asks r a from target /\ now r = t.

(** The two of [key] were introduced at [t]: one of them asked then, and the
    other within the window before. *)
Definition introduced_in (tr : list (R * Action H)) (key : bytes * bytes) (t : Z) : Prop :=
  exists r a from target at_, key = pair from target /\ (r, a) ∈ tr /\ asks r a from target /\ now r = t /\
    asked_in tr target from at_ /\ since t at_ <= rz_window r.

(** The identifier stood for that key when the endpoint was asked. *)
Definition vouched (h : H) (peer : Z) (key : bytes) : Prop :=
  exists h0, host_later h0 h /\ host_key h0 peer = Some key.

Record inv (tr : list (R * Action H)) (r : R) : Prop := {
  inv_host : host_ok (rz_endpoint r);
  inv_client : forall p c, rz_clients r !! p = Some c ->
    rz_by_key r !! cl_key c = Some p /\ vouched (rz_endpoint r) p (cl_key c);
  inv_by_key : forall k p, rz_by_key r !! k = Some p -> exists c, rz_clients r !! p = Some c /\ cl_key c = k;
  inv_groups : groups_ok (rz_groups r);
  inv_relays : relays r <= MAX_RELAYS /\ forall ip, relays_of r ip <= MAX_RELAYS_PER_IP;
  inv_asked : forall from target t, rz_asked r !! (from, target) = Some t -> asked_in tr from target t;
  inv_introduced : forall key t, rz_introduced r !! key = Some t -> introduced_in tr key t;
}.

Lemma told_later l (h h' : H) : told l h h' -> host_ok h -> host_later h h'.
Proof.
  induction 1 as [h|h p c l h' _ IH|h ip l h' _ IH|h n l h' _ IH]; intros Hok; [by apply host_later_refl|..].
  - pose proof (host_later_send h p (Control.encode c) Hok) as Hl.
    eapply host_later_trans; [exact Hl|]. apply IH. by eapply host_later_ok.
  - pose proof (host_later_bind h ip Hok) as Hl.
    eapply host_later_trans; [exact Hl|]. apply IH. by eapply host_later_ok.
  - pose proof (host_later_random h n Hok) as Hl.
    eapply host_later_trans; [exact Hl|]. apply IH. by eapply host_later_ok.
Qed.

Lemma vouched_later h h' p k : vouched h p k -> host_later h h' -> vouched h' p k.
Proof. intros (h0 & ? & ?) ?. exists h0. split; [by eapply host_later_trans|done]. Qed.

Lemma vouched_key h p k k' : vouched h p k -> host_key h p = Some k' -> k' = k.
Proof. intros (h0 & ? & ?) ?. by eapply host_later_key. Qed.

(** The endpoint moving on changes nothing the rendezvous keeps. *)
Lemma inv_moves tr (r : R) h : host_later (rz_endpoint r) h -> inv tr r -> inv tr (set_rz_endpoint r h).
Proof.
  intros Hl []. split; cbn; try done; [by eapply host_later_ok|].
  intros p c Hc. destruct (inv_client0 p c Hc). split; [done|]. by eapply vouched_later.
Qed.

Lemma tells_inv tr Q (r r' : R) : tells Q r r' -> inv tr r -> inv tr r'.
Proof. intros [(l & T & _) ->] Hi. apply inv_moves; [|done]. eapply told_later; [done|apply Hi]. Qed.

Lemma asked_in_app tr tr' from target t : asked_in tr from target t -> asked_in (tr ++ tr') from target t.
Proof. intros (r & a & ? & ?). exists r, a. split; [|done]. apply elem_of_app. by left. Qed.

Lemma inv_app tr tr' (r : R) : inv tr r -> inv (tr ++ tr') r.
Proof.
  intros []. split; try done.
  - intros. apply asked_in_app. by apply inv_asked0.
  - intros key t Hk. destruct (inv_introduced0 key t Hk) as (r0 & a & from & target & a' & ? & ? & ? & ? & ? & ?).
    exists r0, a, from, target, a'. split_and!; try done; [apply elem_of_app; by left|by apply asked_in_app].
Qed.

(** Setting fields the invariant does not read. *)
Lemma inv_budgets tr (r : R) b : inv tr r -> inv tr (set_rz_budgets r b).
Proof. by intros []. Qed.

Lemma inv_set_groups tr (r : R) g : groups_ok g -> inv tr r -> inv tr (set_rz_groups r g).
Proof. by intros ? []. Qed.

Lemma inv_set_asked tr (r : R) m :
  (forall from target t, m !! (from, target) = Some t ->
     rz_asked r !! (from, target) = Some t \/ asked_in tr from target t) ->
  inv tr r -> inv tr (set_rz_asked r m).
Proof. intros Hm []. split; cbn; try done. intros from target t [?|?]%Hm; eauto. Qed.

Lemma inv_set_introduced tr (r : R) m :
  (forall key t, m !! key = Some t -> rz_introduced r !! key = Some t \/ introduced_in tr key t) ->
  inv tr r -> inv tr (set_rz_introduced r m).
Proof. intros Hm []. split; cbn; try done. intros key t [?|?]%Hm; eauto. Qed.

Lemma spend_inv tr (r : R) ip : inv tr r -> inv tr (spend r ip).1.
Proof. intros. unfold spend. destruct (Bucket.take _ _ _ _ _ _). by apply inv_budgets. Qed.

Lemma leave_inv tr (r : R) peer tag : inv tr r -> inv tr (leave r peer tag).
Proof.
  intros Hi. unfold leave. destruct (rz_groups r !! tag) as [before|] eqn:Ht; [|done].
  case_match; [done|]. destruct (filter _ before) eqn:Hf.
  - apply inv_set_groups; [|done]. apply groups_ok_delete, Hi.
  - eapply tells_inv; [apply tell_group_tells|]. apply inv_set_groups; [|done].
    rewrite <- Hf. apply groups_ok_drop; [done|by rewrite Hf|apply Hi].
Qed.

Lemma join_inv tr (r : R) peer key tag mac : inv tr r -> inv tr (join r peer key tag mac).
Proof.
  intros Hi. unfold join. case_match eqn:Hfull.
  - apply inv_set_groups; [|done]. destruct (filter _ (default [] _)) as [|m ms] eqn:Hf; [apply groups_ok_delete, Hi|].
    destruct (rz_groups r !! tag) as [before|] eqn:Ht; [|done]. cbn in Hf. rewrite <- Hf.
    apply groups_ok_drop; [done|by rewrite Hf|apply Hi].
  - eapply tells_inv; [apply tell_group_tells|]. apply inv_set_groups; [|done].
    apply orb_false_iff in Hfull as [H1' H2']. zbool. apply groups_ok_add; [lia..|apply Hi].
Qed.

Lemma forget_inv tr (r : R) peer : inv tr r -> inv tr (forget r peer).
Proof.
  intros Hi. unfold forget.
  assert (Hfold : forall tags r, inv tr r -> inv tr (fold_left (fun r tag => leave r peer tag) tags r)).
  { induction tags as [|tag tags IH]; cbn; [done|]. intros. by apply IH, leave_inv. }
  apply Hfold. destruct (rz_clients r !! peer) as [client|] eqn:Hc; [|done].
  destruct Hi. destruct (inv_client0 _ _ Hc) as [Hk _]. cbn. rewrite bool_decide_eq_true_2 by done.
  split; cbn; try done.
  - intros p c [Hne Hp]%lookup_delete_Some. destruct (inv_client0 p c Hp) as [Hpk ?]. split; [|done].
    apply lookup_delete_Some. split; [|done]. intros E. rewrite E in Hk. congruence.
  - intros k p [Hne Hp]%lookup_delete_Some. destruct (inv_by_key0 k p Hp) as (c & Hpc & <-). exists c.
    split; [|done]. apply lookup_delete_Some. split; [|done]. intros ->. congruence.
Qed.

Lemma register_inv tr (r : R) peer : inv tr r -> inv tr (register r peer).
Proof.
  intros Hi. unfold register. destruct (host_key (rz_endpoint r) peer) as [key|] eqn:Hkey; [|done].
  destruct (host_addr _ peer) as [addr|]; [|done]. case_match; [done|].
  eapply tells_inv; [by apply (send_tells quiet)|]. destruct Hi.
  assert (Hv : vouched (rz_endpoint r) peer key) by (exists (rz_endpoint r); split; [by apply host_later_refl|done]).
  assert (Hold : forall c, rz_clients r !! peer = Some c -> cl_key c = key).
  { intros c Hc. destruct (inv_client0 _ _ Hc) as [_ Hvc]. symmetry. by eapply vouched_key. }
  set (cs := match rz_by_key r !! key with Some old => if old =? peer then rz_clients r else delete old (rz_clients r)
             | None => rz_clients r end).
  assert (Hcs : forall p c, cs !! p = Some c -> rz_clients r !! p = Some c /\ (p <> peer -> cl_key c <> key)).
  { intros p c. unfold cs. destruct (rz_by_key r !! key) as [old|] eqn:Ho.
    - destruct (Z.eqb_spec old peer) as [->|Hne]; [intros Hp|intros [? Hp]%lookup_delete_Some];
        (split; [done|]); intros ? <-; destruct (inv_client0 _ _ Hp); congruence.
    - intros Hp. split; [done|]. intros ? <-. destruct (inv_client0 _ _ Hp). congruence. }
  assert (Hcs' : forall p c, rz_clients r !! p = Some c -> p <> peer -> cl_key c <> key -> cs !! p = Some c).
  { intros p c Hp ? Hk. unfold cs. destruct (rz_by_key r !! key) as [old|] eqn:Ho; [|done].
    destruct (Z.eqb_spec old peer); [done|]. apply lookup_delete_Some. split; [|done]. intros ->.
    destruct (inv_by_key0 _ _ Ho) as (? & ? & ?). congruence. }
  match goal with |- inv tr ?s => assert (Es : s = set_rz_clients (set_rz_by_key r (<[key := peer]> (rz_by_key r)))
     (<[peer := mkClient key addr]> cs)) end.
  { unfold cs. repeat case_match; done. }
  rewrite Es. split; cbn; try done.
  - intros p c [[<- <-]|[Hne Hp]]%lookup_insert_Some; [by rewrite lookup_insert_eq|].
    destruct (Hcs _ _ Hp) as [Hp' Hk]. destruct (inv_client0 _ _ Hp'). split; [|done].
    rewrite lookup_insert_ne; [done|]. intros E. by apply Hk.
  - intros k p [[<- <-]|[Hne Hp]]%lookup_insert_Some; [eexists; split; [apply lookup_insert_eq|done]|].
    destruct (inv_by_key0 _ _ Hp) as (c & Hc & <-). exists c. split; [|done].
    rewrite lookup_insert_ne by (intros <-; apply Hne; symmetry; by apply Hold).
    apply Hcs'; [done| |done]. intros ->. by apply Hne; symmetry; apply Hold.
Qed.

Lemma introduce_inv tr r0 a (r : R) peer from target :
  (r0, a) ∈ tr -> (rz_policy r from target = true -> asks r0 a from target) ->
  now r0 = now r -> rz_window r0 = rz_window r -> inv tr r -> inv tr (introduce r peer from target).
Proof.
  intros Htr Ha Hnow Hwin Hi. unfold introduce. case_bool_decide as Hne; [done|].
  destruct (rz_policy r from target); cbn [negb]; [specialize (Ha eq_refl)|by eapply tells_inv; [apply refuse_tells|]].
  set (r1 := set_rz_asked r _).
  assert (Hi1 : inv tr r1).
  { apply inv_set_asked; [|done]. intros f tg t [[[= <- <-] <-]|[_ ?]]%lookup_insert_Some; [|by left].
    right. exists r0, a. by split_and!. }
  destruct (rz_by_key r1 !! target) as [other|]; [|done].
  destruct (rz_asked r1 !! (target, from)) as [at_|] eqn:Hat; [|done].
  destruct (since (now r) at_ <=? rz_window r1) eqn:Hw; cbn [negb]; [|done].
  destruct (host_addr _ peer) as [here|]; [|done]. destruct (host_addr _ other) as [there|]; [|done].
  eapply tells_inv; [by apply (send_tells (fun _ => True))|]. eapply tells_inv; [by apply (send_tells (fun _ => True))|].
  apply inv_set_introduced.
  - intros key t [[<- <-]|[_ ?]]%lookup_insert_Some; [right|by left].
    exists r0, a, from, target, at_. zbool. split_and!; try done; [by eapply inv_asked|].
    rewrite Hwin. exact Hw.
  - apply inv_set_asked; [|done]. intros f tg t [_ [_ ?]%lookup_delete_Some]%lookup_delete_Some. by left.
Qed.

Lemma relays_of_size (r : R) ip :
  relays_of r ip = Z.of_nat (size (filter (fun ka => ip ∈ al_ips ka.2) (rz_relays r))).
Proof. apply count_filter. Qed.

Lemma inv_set_relays (tr : list (R * Action H)) (r : R) (m : gmap (list Z * list Z) Allocation) :
  Z.of_nat (size m) <= MAX_RELAYS ->
  (forall ip, Z.of_nat (size (filter (fun ka => ip ∈ al_ips ka.2) m)) <= MAX_RELAYS_PER_IP) ->
  inv tr r -> inv tr (set_rz_relays r m).
Proof.
  intros Hs Hip []. split; cbn; try done. split; [done|]. intros ip. rewrite relays_of_size. apply Hip.
Qed.

(** Relays that keep the addresses they were made for. *)
Lemma inv_fewer_relays (tr : list (R * Action H)) (r : R) (m : gmap (list Z * list Z) Allocation) :
  (forall k a, m !! k = Some a -> exists a', rz_relays r !! k = Some a' /\ al_ips a = al_ips a') ->
  inv tr r -> inv tr (set_rz_relays r m).
Proof.
  intros Hm Hi. destruct (inv_relays _ _ Hi) as [Hs Hip]. apply inv_set_relays; [| |done].
  - etrans; [|exact Hs]. unfold relays. rewrite <- !(size_dom (D := gset _)). apply inj_le, subseteq_size.
    intros k. rewrite !elem_of_dom. intros [a (a' & ? & _)%Hm]. by exists a'.
  - intros ip. etrans; [|exact (Hip ip)]. rewrite relays_of_size. apply inj_le, size_filter_mono.
    cbn. intros k a (a' & ? & ->)%Hm ?. by exists a'.
Qed.

Lemma allocate_inv tr (r : R) key peer other : inv tr r -> inv tr (allocate r key peer other).1.
Proof.
  intros Hi. unfold allocate. destruct (rz_relays r !! key) eqn:Hk; [done|].
  destruct (host_local_addr _) as [local|]; [|done].
  case_match eqn:Hroom; [done|]. apply orb_false_iff in Hroom as [[Hs Hcr]%orb_false_iff _].
  pose proof (open_allocation_told (rz_endpoint r) (SocketAddr.ip local)
    (default (SocketAddr.ip local) (rz_relay_ip r)) (ips_of r peer other)) as Ht.
  destruct (open_allocation _ _ _ _) as [h [a|]] eqn:Ho; cbn in *.
  2: { apply inv_moves; [|done]. eapply told_later; [done|apply Hi]. }
  assert (Hips : al_ips a = ips_of r peer other).
  { clear Ht. unfold open_allocation in Ho. repeat case_match; by simplify_eq. }
  apply inv_set_relays; [| |apply inv_moves; [|done]; by eapply told_later; [|apply Hi]]; cbn.
  - rewrite map_size_insert_None by done. unfold relays in Hs. zbool. lia.
  - intros ip. pose proof (proj2 (inv_relays _ _ Hi) ip) as Hip. rewrite relays_of_size in Hip.
    destruct (decide (ip ∈ ips_of r peer other)) as [Hin|Hout].
    + rewrite map_filter_insert_True by (cbn; by rewrite Hips).
      rewrite map_size_insert_None by (apply map_lookup_filter_None; by left).
      assert (relays_of r ip < MAX_RELAYS_PER_IP); [|rewrite relays_of_size in *; lia].
      destruct (Z.lt_ge_cases (relays_of r ip) MAX_RELAYS_PER_IP) as [|Hge]; [done|].
      exfalso. apply not_true_iff_false in Hcr. apply Hcr, existsb_exists. exists ip. split; [|lia]. by apply list_elem_of_In, elem_of_elements.
    + rewrite map_filter_insert_False by (cbn; by rewrite Hips).
      rewrite delete_id by done. done.
Qed.

Lemma offers_tells (r : R) key a : tells (fun _ => True) r (offers r key a).
Proof.
  unfold offers. etrans; [|unfold offer at 1; case_match; [by apply send_tells|reflexivity]].
  unfold offer. case_match; [by apply send_tells|done].
Qed.

Lemma relay_inv tr (r : R) peer from target : inv tr r -> inv tr (relay r peer from target).
Proof.
  intros Hi. unfold relay. destruct (rz_by_key r !! target) as [other|]; [|by eapply tells_inv; [apply refuse_tells|]].
  destruct (negb (match rz_introduced r !! _ with Some _ => _ | None => _ end));
    [by eapply tells_inv; [apply refuse_tells|]|].
  destruct (negb (rz_policy r from target)); [by eapply tells_inv; [apply refuse_relay_tells|]|].
  pose proof (allocate_inv tr r (pair from target) peer other Hi) as Ha.
  destruct (allocate _ _ _ _) as [r1 [a|]]; eapply tells_inv; [apply offers_tells|done|apply refuse_relay_tells|done].
Qed.

Lemma request_inv tr (r : R) peer ip target f :
  inv tr r -> (forall r1, inv tr r1 -> rz_policy r1 = rz_policy r -> rz_window r1 = rz_window r -> now r1 = now r ->
    inv tr (f r1)) ->
  inv tr (request r peer ip target f).
Proof.
  intros Hi Hf. unfold request. pose proof (spend_inv tr r ip Hi) as Hs.
  assert (rz_policy (spend r ip).1 = rz_policy r /\ rz_window (spend r ip).1 = rz_window r /\ now (spend r ip).1 = now r)
    as (? & ? & ?).
  { unfold spend. by destruct (Bucket.take _ _ _ _ _ _). }
  destruct (spend r ip) as [r1 []]; cbn in *; [by apply Hf|]. by eapply tells_inv; [apply refuse_tells|].
Qed.

Lemma handle_inv tr (r : R) peer data c :
  Control.decode data = Some c -> inv tr r -> inv (tr ++ [(r, Happens (Message peer data))]) (handle r peer c).
Proof.
  intros Hd Hi%(inv_app _ [(r, Happens (Message peer data))]). unfold handle.
  destruct c; try (by apply register_inv); destruct (rz_clients r !! peer) as [client|] eqn:Hc; try done.
  - apply request_inv; [done|]. intros r1 Hi1 Hp Hw Hn.
    eapply introduce_inv; [apply elem_of_app; right; by constructor| |done..].
    rewrite Hp. intros. by eexists _, _, _.
  - apply request_inv; [done|]. intros. by apply relay_inv.
  - pose proof (spend_inv _ r (SocketAddr.ip (cl_addr client)) Hi) as Hs.
    destruct (spend _ _) as [r1 []]; [by apply join_inv|done].
  - by apply leave_inv.
Qed.

Lemma expire_inv tr (r : R) : inv tr r -> inv tr (expire r).
Proof.
  intros Hi. unfold expire. apply inv_budgets. apply inv_fewer_relays.
  { intros k a [Ha _]%map_lookup_filter_Some. by exists a. }
  apply inv_set_introduced; [intros k t [Ht _]%map_lookup_filter_Some; by left|].
  eapply tells_inv; [apply fold_tells, expire_one_tells|].
  apply inv_set_asked; [|done]. intros f tg t [Ht _]%map_lookup_filter_Some. by left.
Qed.

Lemma handle_ips (a : Allocation) e : al_ips (Relay.handle a e).1 = al_ips a.
Proof.
  assert (Hc : forall a s to t, al_ips (Allocation.send_check a s to t).1 = al_ips a).
  { intros. unfold Allocation.send_check. destruct (check _ _ _) as [? []]; done. }
  assert (Hf : forall d, al_ips (Allocation.forward a (ar_side e) d (ar_from e) (ar_now e) (ar_sent_ok e)).1 = al_ips a).
  { intros. unfold Allocation.forward. case_match; [done|]. case_match; [|done].
    by destruct (Bucket.take _ _ _ _ _ _) as [? []]. }
  unfold Relay.handle, Allocation.serve. destruct (ar_data e) as [|first rest]; [apply Hf|].
  case_match; [|apply Hf]. unfold Allocation.not_a_frame. repeat case_match; rewrite ?Hc; done.
Qed.

Lemma relay_turn_inv tr (r : R) key arrival : inv tr r -> inv tr (relay_turn r key arrival).
Proof.
  intros Hi. unfold relay_turn. destruct (rz_relays r !! key) as [a|] eqn:Ha; [|done].
  apply inv_fewer_relays; [|done]. intros k a' [[<- <-]|[_ ?]]%lookup_insert_Some; [|by exists a'].
  exists a. split; [done|apply handle_ips].
Qed.

Lemma on_event_inv tr (r : R) ev : inv tr r -> inv (tr ++ [(r, Happens ev)]) (on_event r ev).
Proof.
  intros Hi. pose proof (inv_app tr [(r, Happens ev)] r Hi) as Hi'. unfold on_event. destruct ev; try done.
  - destruct (Control.decode data) eqn:Hd; [by apply handle_inv|done].
  - by apply forget_inv.
Qed.

Lemma reached_inv tr r : reached tr r -> inv tr r.
Proof.
  induction 1 as [h Hok|tr r a _ Hi Hm].
  - by split.
  - destruct a; try (by apply inv_app; destruct Hi); cbn.
    + by apply inv_app, expire_inv.
    + by apply on_event_inv.
    + by apply inv_app, inv_moves.
    + by apply inv_app, relay_turn_inv.
Qed.

(** [poll] is its timers, the endpoint moving on, and what it says happened. *)
Lemma poll_reached tr r fuel timeout r' res :
  reached tr r -> poll fuel timeout r = (r', res) -> exists tr', reached (tr ++ tr') r'.
Proof.
  intros Hr. unfold poll. pose proof (reached_act _ _ Timers Hr I) as H1'. cbn in H1'.
  set (wait := match timeout with Some _ => _ | None => _ end).
  pose proof (host_later_poll fuel (rz_endpoint (expire r)) wait (inv_host _ _ (reached_inv _ _ H1'))) as Hl.
  destruct (host_poll fuel (rz_endpoint (expire r)) wait) as [h ev] eqn:Hp. cbn in Hl.
  pose proof (reached_act _ _ (Moves h) H1' Hl) as H2'. cbn [act] in H2'. rewrite <- app_assoc in H2'.
  destruct ev as [[ev|]|?|]; cbn; intros [= <- <-]; try (by eexists).
  pose proof (reached_act _ _ (Happens ev) H2' I) as H3'. rewrite <- app_assoc in H3'. by eexists.
Qed.

(** ** Who learns whose address *)
Definition says (Q : Z * Control -> Prop) (r r' : R) : Prop :=
  exists l, told l (rz_endpoint r) (rz_endpoint r') /\ Forall Q l.

#[local] Instance says_preorder Q : PreOrder (says Q).
Proof.
  split.
  - intros r. exists []. by repeat constructor.
  - intros r1 r2 r3 (l1 & T1 & F1) (l2 & T2 & F2). exists (l1 ++ l2). split; [by eapply told_app|by apply Forall_app].
Qed.

Lemma tells_says (Q : Z * Control -> Prop) (r r' : R) :
  (forall p c, quiet c -> Q (p, c)) -> tells quiet r r' -> says Q r r'.
Proof.
  intros HQ [(l & T & F) _]. exists l. split; [done|]. eapply List.Forall_impl; [|done]. intros [p c]. apply HQ.
Qed.

Lemma says_same (Q : Z * Control -> Prop) (r r' : R) : rz_endpoint r' = rz_endpoint r -> says Q r r'.
Proof. intros E. exists []. rewrite E. by repeat constructor. Qed.

Lemma says_via (Q : Z * Control -> Prop) (r r1 r2 r' : R) :
  rz_endpoint r1 = rz_endpoint r -> rz_endpoint r' = rz_endpoint r2 -> says Q r1 r2 -> says Q r r'.
Proof. intros E1 E2 (l & T & F). exists l. by rewrite <- E1, E2. Qed.

Lemma send_says (Q : Z * Control -> Prop) (r : R) peer c : Q (peer, c) -> says Q r (send r peer c).
Proof. intros HQ. exists [(peer, c)]. split; by repeat constructor. Qed.

Section quiet_steps.
Context (Q : Z * Control -> Prop) (HQ : forall p c, quiet c -> Q (p, c)).

Lemma leave_says (r : R) peer tag : says Q r (leave r peer tag).
Proof.
  unfold leave. destruct (rz_groups r !! tag); [|done]. case_match; [done|].
  destruct (filter _ _); [by apply says_same|].
  etrans; [|by apply (tells_says Q _ _ HQ), tell_group_tells]. by apply says_same.
Qed.

Lemma forget_says (r : R) peer : says Q r (forget r peer).
Proof.
  unfold forget. set (r1 := match rz_clients r !! peer with Some _ => _ | None => _ end).
  apply (says_via Q r r1 (fold_left (fun r tag => leave r peer tag)
    (map fst (filter (fun tm => in_group peer tm.2 = true) (map_to_list (rz_groups r1)))) r1)); [|done|].
  - unfold r1. by repeat case_match.
  - generalize (map fst (filter (fun tm => in_group peer tm.2 = true) (map_to_list (rz_groups r1)))) as tags.
    clearbody r1. intros tags. revert r1. induction tags as [|tag tags IH]; intros r1; cbn; [done|].
    etrans; [apply leave_says|apply IH].
Qed.

Lemma join_says (r : R) peer key tag mac : says Q r (join r peer key tag mac).
Proof.
  unfold join. case_match; [by apply says_same|].
  etrans; [|by apply (tells_says Q _ _ HQ), tell_group_tells]. by apply says_same.
Qed.

Lemma spend_says (r : R) ip : says Q r (spend r ip).1.
Proof. unfold spend. destruct (Bucket.take _ _ _ _ _ _). by apply says_same. Qed.

Lemma register_says (r : R) peer : says Q r (register r peer).
Proof.
  unfold register. case_match; [|done]. case_match; [|done]. case_match; [done|].
  etrans; [|by apply send_says, HQ]. apply says_same. by repeat case_match.
Qed.

Lemma request_says (r : R) peer ip target f : says Q (spend r ip).1 (f (spend r ip).1) -> says Q r (request r peer ip target f).
Proof.
  intros Hf. unfold request. pose proof (spend_says r ip) as Hs. destruct (spend r ip) as [r1 []]; cbn in *; [by etrans|].
  etrans; [done|]. by apply (tells_says Q _ _ HQ), refuse_tells.
Qed.
End quiet_steps.

(** The session [peer] stands for was authenticated by [key] and is at [addr]. *)
Definition session_at (r : R) (peer : Z) (key : bytes) (addr : SocketAddr) : Prop :=
  host_key (rz_endpoint r) peer = Some key /\ host_addr (rz_endpoint r) peer = Some addr.

Lemma client_session tr r p c addr :
  inv tr r -> rz_clients r !! p = Some c -> host_addr (rz_endpoint r) p = Some addr -> session_at r p (cl_key c) addr.
Proof.
  intros Hi Hc Ha. split; [|done]. destruct (host_addr_key (rz_endpoint r) p) as [k Hk]; [by eexists|].
  destruct (inv_client _ _ Hi p c Hc) as [_ Hv]. by rewrite <- (vouched_key _ _ _ _ Hv Hk).
Qed.

Definition intro_ok (tr : list (R * Action H)) (r : R) (a : Action H) (m : Z * Control) : Prop :=
  forall key addr, m.2 = Introduction key addr ->
  exists from target peer other here there at_,
    asks r a from target /\ asked_in tr target from at_ /\ since (now r) at_ <= rz_window r /\
    from <> target /\ session_at r peer from here /\ session_at r other target there /\
    ((m.1, key, addr) = (peer, target, there) \/ (m.1, key, addr) = (other, from, here)).

Lemma intro_ok_quiet tr r a p c : quiet c -> intro_ok tr r a (p, c).
Proof. intros Hq key addr E. cbn in E. by subst c. Qed.

Definition no_offer (c : Control) : Prop := match c with RelayOffer _ _ _ => False | _ => True end.

Lemma introduce_says tr r r1 peer data c target :
  inv tr r -> r1 = set_rz_budgets r (rz_budgets r1) ->
  Control.decode data = Some (Introduce target) -> rz_clients r !! peer = Some c ->
  says (fun m => intro_ok tr r (Happens (Message peer data)) m /\ no_offer m.2) r1 (introduce r1 peer (cl_key c) target).
Proof.
  intros Hi Hr1 Hd Hc. set (Q := fun m => intro_ok _ _ _ m /\ _).
  assert (Hq : forall p c, quiet c -> Q (p, c)) by (intros p [] ?; (split; [by apply intro_ok_quiet|done])). rewrite Hr1. generalize (rz_budgets r1). clear r1 Hr1. intros b.
  set (r1 := set_rz_budgets r b). unfold introduce.
  case_bool_decide as Hne; [done|].
  destruct (rz_policy r1 (cl_key c) target) eqn:Hp; cbn [negb];
    [|by apply (tells_says Q _ _ Hq), refuse_tells].
  set (r2 := set_rz_asked r1 _). destruct (rz_by_key r2 !! target) as [other|] eqn:Ho; [|by apply says_same].
  destruct (rz_asked r2 !! (target, cl_key c)) as [at_|] eqn:Hat; [|by apply says_same].
  destruct (since (now r1) at_ <=? rz_window r2) eqn:Hw; cbn [negb]; [|by apply says_same].
  destruct (host_addr _ peer) as [here|] eqn:Hh; [|by apply says_same].
  destruct (host_addr _ other) as [there|] eqn:Ht; [|by apply says_same].
  destruct (inv_by_key _ _ Hi _ _ Ho) as (c' & Hc' & Hk').
  cbn in Hat. rewrite lookup_insert_ne in Hat by congruence. zbool.
  assert (HQ : forall p key addr, (p, key, addr) = (peer, target, there) \/ (p, key, addr) = (other, cl_key c, here) ->
    Q (p, Introduction key addr)).
  { intros p key addr Hpk. split; [|done]. intros k a [= <- <-]. exists (cl_key c), target, peer, other, here, there, at_. split_and!; try done.
    - by exists peer, data, c.
    - by eapply inv_asked.
    - by eapply client_session.
    - rewrite <- Hk'. by eapply client_session. }
  etrans; [|apply send_says, HQ; by right]. etrans; [|apply send_says, HQ; by left]. by apply says_same.
Qed.

(** A pair was introduced so recently that it may be relayed. *)
Definition may_relay (r : R) (from target : bytes) : Prop :=
  rz_policy r from target = true /\
  exists t, rz_introduced r !! pair from target = Some t /\ since (now r) t <= RELAY_WINDOW.

Lemma allocate_fields (r : R) key peer other a :
  (allocate r key peer other).2 = Some a ->
  rz_relays (allocate r key peer other).1 !! key = Some a /\ rz_by_key (allocate r key peer other).1 = rz_by_key r.
Proof.
  unfold allocate. destruct (rz_relays r !! key) eqn:Hk; [by intros [= <-]|].
  destruct (host_local_addr _); [|done]. case_match; [done|]. destruct (open_allocation _ _ _ _) as [h [a'|]]; [|done].
  intros [= <-]. split; [apply lookup_insert_eq|done].
Qed.

Lemma allocate_says (Q : Z * Control -> Prop) (r : R) key peer other : says Q r (allocate r key peer other).1.
Proof.
  unfold allocate. destruct (rz_relays r !! _); [done|]. destruct (host_local_addr _) as [s|]; [|done].
  case_match; [done|]. pose proof (open_allocation_told (rz_endpoint r) (SocketAddr.ip s)
    (default (SocketAddr.ip s) (rz_relay_ip r)) (ips_of r peer other)) as Ht.
  destruct (open_allocation _ _ _ _) as [h [a|]]; exists []; by split.
Qed.

(** A side's offer: the other's key, and this side's own port. *)
Definition offer_of (key : bytes * bytes) (a : Allocation) (to : bytes) (c : Control) : Prop :=
  (to = key.1 /\ c = RelayOffer key.2 (pt_advertised (al_port0 a)) (pt_token (al_port0 a))) \/
  (to = key.2 /\ c = RelayOffer key.1 (pt_advertised (al_port1 a)) (pt_token (al_port1 a))).

Lemma relay_says (Q : Z * Control -> Prop) (r : R) peer from target :
  (forall p c, quiet c -> Q (p, c)) ->
  (forall a p to c, may_relay r from target -> rz_relays (relay r peer from target) !! pair from target = Some a ->
     rz_by_key r !! to = Some p -> offer_of (pair from target) a to c -> Q (p, c)) ->
  says Q r (relay r peer from target).
Proof.
  intros HQ. unfold relay.
  destruct (rz_by_key r !! target) as [other|]; [|intros _; by apply (tells_says Q _ _ HQ), refuse_tells].
  destruct (rz_introduced r !! pair from target) as [t|] eqn:Hin;
    [|intros _; by apply (tells_says Q _ _ HQ), refuse_tells].
  destruct (since (now r) t <=? RELAY_WINDOW) eqn:Hw; cbn [negb]; [|intros _; by apply (tells_says Q _ _ HQ), refuse_tells].
  destruct (rz_policy r from target) eqn:Hp; cbn [negb]; [|intros _; by apply (tells_says Q _ _ HQ), refuse_relay_tells].
  pose proof (allocate_says Q r (pair from target) peer other) as Ha.
  pose proof (allocate_fields r (pair from target) peer other) as Hf.
  destruct (allocate _ _ _ _) as [r1 [a|]]; intros Hoffer; (etrans; [exact Ha|]);
    [|by apply (tells_says Q _ _ HQ), refuse_relay_tells].
  destruct (Hf a eq_refl) as [Hr1 Hby]. cbn in Hr1, Hby.
  rewrite (tells_field rz_relays _ _ _ ltac:(done) (offers_tells r1 _ a)) in Hoffer.
  assert (Hm : may_relay r from target) by (zbool; split; [done|]; by exists t).
  unfold offers. transitivity (offer r1 (pair from target).1 (pair from target).2 (al_port0 a)).
  - unfold offer at 1. destruct (rz_by_key r1 !! (pair from target).1) as [p|] eqn:Hb; [|reflexivity].
    apply send_says. eapply Hoffer; [done..|rewrite <- Hby; exact Hb|by left].
  - set (r2 := offer r1 _ _ _). assert (H2' : rz_by_key r2 = rz_by_key r1) by (unfold r2, offer; by case_match).
    clearbody r2. unfold offer. rewrite H2'.
    destruct (rz_by_key r1 !! (pair from target).2) as [p|] eqn:Hb; [|reflexivity].
    apply send_says. eapply Hoffer; [done..|rewrite <- Hby; exact Hb|by right].
Qed.

Definition offer_ok (tr : list (R * Action H)) (r r' : R) (m : Z * Control) : Prop :=
  forall other addr token, m.2 = RelayOffer other addr token ->
  exists me t al, introduced_in tr (pair me other) t /\ since (now r) t <= RELAY_WINDOW /\
    rz_by_key r !! me = Some m.1 /\ rz_relays r' !! pair me other = Some al /\
    offer_of (pair me other) al me (RelayOffer other addr token).

Lemma offer_ok_others tr r r' p c : no_offer c -> offer_ok tr r r' (p, c).
Proof. intros Hq key addr token E. cbn in E. by subst c. Qed.

Lemma offer_of_pair key a to c other addr token :
  c = RelayOffer other addr token -> offer_of key a to c -> (key = (to, other) \/ key = (other, to)).
Proof. destruct key. intros -> [[-> [= -> _ _]]|[-> [= -> _ _]]]; cbn; auto. Qed.

Lemma pair_unique a b x y : pair a b = (x, y) \/ pair a b = (y, x) -> pair a b = pair x y.
Proof.
  intros [E|E]; destruct (pair_cases a b) as [E'|E']; rewrite E' in E; injection E as -> ->; try done; apply pair_comm.
Qed.

(** Everything a step tells. *)
Definition spoken (tr : list (R * Action H)) (r r' : R) (a : Action H) (m : Z * Control) : Prop :=
  intro_ok tr r a m /\ offer_ok tr r r' m.

Lemma spoken_quiet tr r r' a p c : quiet c -> spoken tr r r' a (p, c).
Proof. intros. split; [by apply intro_ok_quiet|]. by apply offer_ok_others; destruct c. Qed.

Lemma says_mono (Q Q' : Z * Control -> Prop) (r r' : R) : (forall m, Q m -> Q' m) -> says Q r r' -> says Q' r r'.
Proof. intros HQ (l & ? & F). exists l. split; [done|]. by eapply List.Forall_impl; [|exact F]. Qed.

Lemma spend_fields (r : R) ip : (spend r ip).1 = set_rz_budgets r (rz_budgets (spend r ip).1).
Proof. unfold spend. by destruct (Bucket.take _ _ _ _ _ _). Qed.

Lemma handle_says tr r peer data c :
  inv tr r -> Control.decode data = Some c ->
  says (spoken tr r (handle r peer c) (Happens (Message peer data))) r (handle r peer c).
Proof.
  intros Hi Hd. set (Q := spoken _ _ _ _). assert (HQ : forall p c, quiet c -> Q (p, c)) by apply spoken_quiet.
  unfold handle in *.
  destruct c; try (by apply register_says); destruct (rz_clients r !! peer) as [client|] eqn:Hc; try done.
  - apply request_says; [done|]. eapply says_mono; [|by apply (introduce_says tr r), Hc; [|apply spend_fields|]].
    intros [p c] [Hm Hn]. split; [done|by apply offer_ok_others].
  - set (ip := SocketAddr.ip (cl_addr client)) in *. unfold request in *. pose proof (spend_fields r ip) as Hs.
    pose proof (spend_says Q r ip) as Hsp. destruct (spend r ip) as [r1 []]; cbn in Hs, Hsp; (etrans; [exact Hsp|]);
      [|by apply (tells_says Q _ _ HQ), refuse_tells].
    apply relay_says; [done|]. intros a p to c [_ (t & Ht & Hw)] Ha Hp Ho. rewrite Hs in Ht, Hw, Hp.
    split; [by destruct Ho as [[_ ->]|[_ ->]]|]. intros other addr token E. cbn in E. exists to, t, a.
    rewrite <- (pair_unique _ _ _ _ (offer_of_pair _ _ _ _ _ _ _ E Ho)). subst c.
    split_and!; try done. by eapply inv_introduced.
  - pose proof (spend_says Q r (SocketAddr.ip (cl_addr client))) as Hs.
    destruct (spend _ _) as [r1 []]; cbn in Hs; [etrans; [done|]; by apply join_says|done].
  - by apply leave_says.
Qed.

Definition own_step (a : Action H) : Prop := match a with Moves _ => False | _ => True end.

Lemma act_says tr r a : inv tr r -> own_step a -> says (spoken tr r (act r a) a) r (act r a).
Proof.
  intros Hi Ha. set (Q := spoken _ _ _ _). assert (HQ : forall p c, quiet c -> Q (p, c)) by apply spoken_quiet.
  destruct a; try done; cbn [act] in *.
  - unfold expire. eapply (says_via Q r (set_rz_asked r _) (fold_left expire_one _ (set_rz_asked r _))); [|reflexivity|]; [done|].
    by apply (tells_says Q _ _ HQ), fold_tells, expire_one_tells.
  - unfold on_event in *. destruct ev; try done.
    + destruct (Control.decode data) eqn:Hd; [by apply handle_says|done].
    + by apply forget_says.
  - unfold relay_turn. case_match; [by apply says_same|done].
  - by apply says_same.
  - by apply says_same.
  - by apply says_same.
Qed.

(** registrations are one relation: a client is filed under a key exactly
    when that key leads back to it, and a registered session that still has an
    address is one that key authenticated. *)
Theorem registrations_agree tr (r : R) :
  reached tr r ->
  (forall peer key, rz_by_key r !! key = Some peer <-> exists c, rz_clients r !! peer = Some c /\ cl_key c = key) /\
  (forall peer c addr, rz_clients r !! peer = Some c -> host_addr (rz_endpoint r) peer = Some addr ->
     host_key (rz_endpoint r) peer = Some (cl_key c)).
Proof.
  intros Hi%reached_inv. split.
  - intros peer key. split; [apply (inv_by_key _ _ Hi)|]. intros (c & Hc & <-). by apply (inv_client _ _ Hi).
  - intros peer c addr Hc Ha. by apply (client_session _ _ _ _ _ Hi Hc Ha).
Qed.

(** C32: the tables a stranger can fill stay within their limits: no group is
    empty, has more than [MAX_GROUP_MEMBERS] members or a member twice, nobody
    is in more than [MAX_GROUPS], there are at most [MAX_RELAYS] relays and at
    most [MAX_RELAYS_PER_IP] for any one address. *)
Theorem rendezvous_limits tr (r : R) :
  reached tr r ->
  (forall tag members, rz_groups r !! tag = Some members ->
     1 <= len members <= MAX_GROUP_MEMBERS /\
     NoDup (map (fun m => m.1.1) members) /\ NoDup (map (fun m => m.1.2) members)) /\
  (forall peer, groups_of (rz_groups r) peer <= MAX_GROUPS) /\
  relays r <= MAX_RELAYS /\ (forall ip, relays_of r ip <= MAX_RELAYS_PER_IP).
Proof.
  intros Hi%reached_inv. destruct (inv_groups _ _ Hi) as [Hm Hg]. destruct (inv_relays _ _ Hi). split_and!; try done.
  intros tag members Ht. destruct (Hm _ _ Ht) as (Hn & Hl & ? & ?). split_and!; try done.
  destruct members; [done|]. rewrite len_cons. pose proof (len_nonneg members). lia.
Qed.

(** C10: nobody learns an address it did not ask for together with its owner:
    whatever a step of the rendezvous sends, an introduction in it is sent to
    one of two clients that each asked for the other, the first at most a
    window before, under a policy that allows it, and it gives the address of
    the session the named key authenticated. *)
Theorem introductions_mutual tr (r : R) a :
  reached tr r -> own_step a ->
  exists l, told l (rz_endpoint r) (rz_endpoint (act r a)) /\
  forall p key addr, (p, Introduction key addr) ∈ l ->
  exists from target peer other here there at_,
    asks r a from target /\ asked_in tr target from at_ /\ since (now r) at_ <= rz_window r /\
    from <> target /\ session_at r peer from here /\ session_at r other target there /\
    ((p, key, addr) = (peer, target, there) \/ (p, key, addr) = (other, from, here)).
Proof.
  intros Hi%reached_inv Ha. destruct (act_says tr r a Hi Ha) as (l & T & F). exists l. split; [done|].
  intros p key addr Hin. rewrite list.Forall_forall in F. by destruct (F _ Hin) as [Hm _]; apply Hm.
Qed.

(** a relay is offered only to a pair introduced within [RELAY_WINDOW],
    each side being told the other's key, the address of its own port of the
    pair's one allocation and that port's token. *)
Theorem relay_offers_paired tr (r : R) a :
  reached tr r -> own_step a ->
  exists l, told l (rz_endpoint r) (rz_endpoint (act r a)) /\
  forall p other addr token, (p, RelayOffer other addr token) ∈ l ->
  exists me t al, introduced_in tr (pair me other) t /\ since (now r) t <= RELAY_WINDOW /\
    rz_by_key r !! me = Some p /\ rz_relays (act r a) !! pair me other = Some al /\
    offer_of (pair me other) al me (RelayOffer other addr token).
Proof.
  intros Hi%reached_inv Ha. destruct (act_says tr r a Hi Ha) as (l & T & F). exists l. split; [done|].
  intros p other addr token Hin. rewrite list.Forall_forall in F. by destruct (F _ Hin) as [_ Hm]; apply Hm.
Qed.
End machine.

(** ** The endpoint is such a host *)
Section endpoint_host.
Context {W K : Type} `{Net W} `{StaticKey K} `{Crypto} `{ZstdLib}.
Local Abbreviation E := (Endpoint W K).

#[export] Instance endpoint_host : Host E := {|
  host_now e := net_now (ep_world e);
  host_key e peer := Endpoint.peer_public_key e peer;
  host_addr e peer := Endpoint.peer_addr e peer;
  host_send e peer b := fst (Endpoint.send_reliable e peer b Opaque);
  host_poll fuel e wait := EndpointReceive.poll fuel (Some wait) e;
  host_local_addr e := match Endpoint.local_addr e with Ok a => Some a | _ => None end;
  host_bind e ip := let (w, port) := net_bind (ep_world e) ip in
    (set_ep_world e w, match port with inl p => Some p | inr _ => None end);
  host_random e n := Endpoint.draw e n;
|}.

Definition endpoint_later (e e' : E) : Prop :=
  Tables.ok (tables e) /\ Tables.ok (tables e') /\ stands (tables e) (tables e').

Lemma later_same (e e' : E) : Tables.ok (tables e) -> tables e' = tables e -> endpoint_later e e'.
Proof.
  intros Hok Et. split; [done|]. rewrite Et. split; [done|]. split_and!; [lia|by intros; simplify_eq|done|].
  intros id x Hid. by eapply Tables.ok_apart.
Qed.

Lemma later_call (e : E) c : Tables.ok (tables e) -> endpoint_later e (call e c).
Proof. intros Hok. destruct (call_ok e c Hok). by split_and!. Qed.

#[export] Instance endpoint_host_laws : HostLaws E.
Proof.
  refine {| host_ok e := Tables.ok (tables e); host_later := endpoint_later |}.
  - intros e Hok. by apply later_same.
  - intros e1 e2 e3 (? & ? & ?) (? & ? & ?). split_and!; try done. by eapply stands_trans.
  - by intros e e' (? & ? & ?).
  - intros e peer b Hok. apply (later_call e (CallSendReliable peer b Opaque) Hok).
  - intros fuel e wait Hok. apply (later_call e (CallPoll fuel (Some wait)) Hok).
  - intros e ip Hok. cbn. destruct (net_bind (ep_world e) ip). by apply later_same.
  - intros e n Hok. cbn. unfold Endpoint.draw. destruct (net_random (ep_world e) n). by apply later_same.
  - intros e e' p k k' (_ & _ & _ & Hs & _). cbn. unfold Endpoint.peer_public_key.
    destruct (ep_peers e !! p) as [en|] eqn:E1; [|done]. destruct (ep_peers e' !! p) as [en'|] eqn:E2; [|done].
    intros [= <-] [= <-]. apply (Hs p (who en) (who en')); cbn; by rewrite lookup_fmap, ?E1, ?E2.
  - intros e p. cbn. unfold Endpoint.peer_addr, Endpoint.peer_public_key. destruct (ep_peers e !! p); by intros [? ?].
Defined.
End endpoint_host.

(** ** On a concrete host

    Sessions that keep their keys, at addresses that may change, and a log of
    what was sent. *)
Record Desk := mkDesk {
  dk_now : Z;
  dk_key : Z -> option bytes;
  dk_addr : Z -> SocketAddr;
  dk_log : list (Z * bytes);
  dk_next : Z;
}.

Module Desk.
#[global] Instance host : Host Desk := {|
  host_now := dk_now;
  host_key := dk_key;
  host_addr d p := if is_some (dk_key d p) then Some (dk_addr d p) else None;
  host_send d p b := mkDesk (dk_now d) (dk_key d) (dk_addr d) (dk_log d ++ [(p, b)]) (dk_next d);
  host_poll _ d wait := (mkDesk (dk_now d + wait) (dk_key d) (dk_addr d) (dk_log d) (dk_next d), Ok (Some Idle));
  host_local_addr _ := Some (SocketAddrV4 [192; 0; 2; 1] 7000);
  host_bind d _ := (mkDesk (dk_now d) (dk_key d) (dk_addr d) (dk_log d) (dk_next d + 1), Some (40000 + dk_next d));
  host_random d n :=
    (mkDesk (dk_now d) (dk_key d) (dk_addr d) (dk_log d) (dk_next d + 1), replicate (Z.to_nat n) (dk_next d mod 256));
|}.

#[global] Instance laws : HostLaws Desk.
Proof.
  apply (Build_HostLaws Desk _ (fun _ => True) (fun d d' => dk_key d' = dk_key d)); try done; cbn.
  - intros d1 d2 d3 -> ->. done.
  - intros d d' p k k' ->. congruence.
  - intros d p. destruct (dk_key d p); [by eexists|by intros [? ?]].
Defined.

Definition key (n : Z) : bytes := zeros 31 ++ [n].
(** Forty sessions, each at an address of its own. *)
Definition start : Desk :=
  mkDesk 1000 (fun p => if (0 <=? p) && (p <? 40) then Some (key p) else None)
    (fun p => SocketAddrV4 [10; 0; 0; p] 4000) [] 0.
Definition says (p : Z) (c : Control) : Action Desk := Happens (Message p (Control.encode c)).

Definition acts `{Crypto} (l : list (Action Desk)) (r : Rendezvous Desk) : Rendezvous Desk := fold_left act l r.
Fixpoint trace `{Crypto} (l : list (Action Desk)) (r : Rendezvous Desk) : list (Rendezvous Desk * Action Desk) :=
  match l with [] => [] | a :: l => (r, a) :: trace l (act r a) end.

(** Two clients register, and the first asks for the second. *)
Definition script : list (Action Desk) :=
  [says 1 Register; says 2 Register; says 1 (Introduce (key 2))].
(** The other asks back, and the first then wants a relay. *)
Definition script2 : list (Action Desk) := script ++ [says 2 (Introduce (key 1))].
Definition script3 : list (Action Desk) := script2 ++ [says 1 (RelayRequest (key 2))].
End Desk.
#[local] Existing Instance Toy.crypto.

Lemma desk_reached_from tr (r : Rendezvous Desk) l :
  reached tr r -> Forall own_step l -> reached (tr ++ Desk.trace l r) (Desk.acts l r).
Proof.
  revert tr r. induction l as [|a l IH]; intros tr r Hr Hl; cbn; [by rewrite app_nil_r|].
  inversion Hl; subst. rewrite cons_middle, app_assoc. apply IH; [|done]. apply reached_act; [done|by destruct a].
Qed.

Lemma desk_reached l : Forall own_step l -> reached (Desk.trace l (on_endpoint Desk.start)) (Desk.acts l (on_endpoint Desk.start)).
Proof. intros. apply (desk_reached_from []); [by constructor|done]. Qed.

Lemma registrations_agree_witness :
  let r := Desk.acts Desk.script (on_endpoint Desk.start) in
  rz_by_key r !! Desk.key 2 = Some 2 /\ exists c, rz_clients r !! 2 = Some c /\ cl_key c = Desk.key 2.
Proof.
  assert (Hk : rz_by_key (Desk.acts Desk.script (on_endpoint Desk.start)) !! Desk.key 2 = Some 2) by (vm_compute; reflexivity).
  split; [exact Hk|]. apply (registrations_agree _ _ (desk_reached Desk.script ltac:(repeat constructor))). exact Hk.
Defined.

Lemma rendezvous_limits_witness :
  relays (Desk.acts Desk.script3 (on_endpoint Desk.start)) = 1 /\
  relays (Desk.acts Desk.script3 (on_endpoint Desk.start)) <= MAX_RELAYS.
Proof.
  split; [vm_compute; reflexivity|].
  destruct (rendezvous_limits _ _ (desk_reached Desk.script3 ltac:(repeat constructor))) as (_ & _ & Hr & _). exact Hr.
Defined.

Lemma introductions_mutual_witness :
  let r := Desk.acts Desk.script (on_endpoint Desk.start) in
  let a := Desk.says 2 (Introduce (Desk.key 1)) in
  dropz 2 (dk_log (rz_endpoint (act r a))) = [(2, Control.encode (Introduction (Desk.key 1) (dk_addr Desk.start 1)));
     (1, Control.encode (Introduction (Desk.key 2) (dk_addr Desk.start 2)))] /\
  exists l, told l (rz_endpoint r) (rz_endpoint (act r a)).
Proof.
  split; [vm_compute; reflexivity|].
  destruct (introductions_mutual _ _ (Desk.says 2 (Introduce (Desk.key 1)))
    (desk_reached Desk.script ltac:(repeat constructor)) I) as (l & Hl & _).
  exists l. exact Hl.
Defined.

Lemma relay_offers_paired_witness :
  let r := Desk.acts Desk.script2 (on_endpoint Desk.start) in
  let a := Desk.says 1 (RelayRequest (Desk.key 2)) in
  relays (act r a) = 1 /\ exists l, told l (rz_endpoint r) (rz_endpoint (act r a)).
Proof.
  split; [vm_compute; reflexivity|].
  destruct (relay_offers_paired _ _ (Desk.says 1 (RelayRequest (Desk.key 2)))
    (desk_reached Desk.script2 ltac:(repeat constructor)) I) as (l & Hl & _).
  exists l. exact Hl.
Defined.

(** The registrations at one address. *)
Definition clients_at {H} (r : Rendezvous H) (ip : IpAddr) : Z :=
  len (filter (fun ic => SocketAddr.ip (cl_addr ic.2) = ip) (map_to_list (rz_clients r))).

(** the limit on the registrations of one address is checked for a new
    client only: clients that registered elsewhere, moved there and register
    again take their number past [MAX_CLIENTS_PER_IP]. *)
Theorem clients_per_ip_exceeded :
  exists tr (r : Rendezvous Desk) ip, reached tr r /\ MAX_CLIENTS_PER_IP < clients_at r ip.
Proof.
  set (peers := map Z.of_nat (seq 0 33)). set (l := map (fun p => Desk.says p Register) peers).
  assert (Hl : Forall own_step l) by (repeat constructor).
  set (moved := fun h : Desk => mkDesk (dk_now h) (dk_key h) (fun _ => SocketAddrV4 [10; 0; 0; 99] 4000) (dk_log h) (dk_next h)).
  eexists _, (Desk.acts l (act (Desk.acts l (on_endpoint Desk.start)) (Moves (moved (rz_endpoint (Desk.acts l (on_endpoint Desk.start))))))),
    (IpV4 [10; 0; 0; 99]). split.
  - apply desk_reached_from; [|done]. apply reached_act; [by apply desk_reached|done].
  - vm_compute. reflexivity.
Qed.
