(* ===== verification/Connection.v ===== *)
(** * The client connection (crates/fectp/src/lib.rs, udp.rs)

    One session over one connected socket: [Core] and [Connection] of lib.rs,
    its two key types, and the connected mode of [UdpTransport]. [Socket] is what they ask of the
    system beyond [Net]. The two handles of a connection are one kernel socket,
    so one world serves both locks.

    [pump] is its three critical sections in the order one thread runs them:
    [pump_before] under the core's lock, [pump_read] under the reader's alone,
    [pump_after] under both. The loops of [recv] and [flush] wait for the
    network and take fuel; [Ok None] is fuel spent. A poisoned lock, which
    takes a panic, is not modelled further. *)
From stdpp Require Import gmap.
From S2P Require Import Prelude Bytes Error Frame Fragment Codec Reliability RetransmitQueue.
From S2P Require Import Cipher Symmetric Handshake Session Connect Compress Reassembly Tickets Pmtu.
From S2P Require Import Pipeline Control Udp EndpointState Endpoint.

Definition HANDSHAKE_TIMEOUT : Z := 10000.
#[export] Hint Unfold HANDSHAKE_TIMEOUT : consts.

(** ** Keys *)
Record Identity := mkIdentity { id_secret : bytes; id_public : bytes }.

Module Identity.
Section identity.
Context `{Crypto}.

Definition from_secret (secret : bytes) : Identity :=
  mkIdentity secret (kp_public (Keypair.from_secret secret)).

Definition generate {W} `{Net W} (w : W) : W * Identity :=
  let (w, secret) := net_random w 32 in (w, from_secret secret).

Definition keypair (i : Identity) : Keypair := Keypair.from_secret (id_secret i).
Definition public (i : Identity) : bytes := id_public i.
Definition secret (i : Identity) : bytes := id_secret i.
Definition dh (i : Identity) (peer : bytes) : Result bytes := Ok (Keypair.dh (keypair i) peer).
End identity.
End Identity.

#[export] Instance Identity_StaticKey `{Crypto} : StaticKey Identity := {
  sk_public := Identity.public;
  sk_dh := Identity.dh;
}.

(** A key held elsewhere, with its public half read once. *)
Record SharedKey (K : Type) := mkSharedKey { sh_key : K; sh_public : bytes }.
Arguments mkSharedKey {K}.
Arguments sh_key {K} _.
Arguments sh_public {K} _.

Module SharedKey.
Definition new {K} `{StaticKey K} (key : K) : SharedKey K := mkSharedKey key (sk_public key).
Definition public {K} (k : SharedKey K) : bytes := sh_public k.
Definition dh {K} `{StaticKey K} (k : SharedKey K) (peer : bytes) : Result bytes := sk_dh (sh_key k) peer.
End SharedKey.

#[export] Instance SharedKey_StaticKey {K} `{StaticKey K} : StaticKey (SharedKey K) := {
  sk_public := SharedKey.public;
  sk_dh := SharedKey.dh;
}.

(** ** Sockets

    [sock_connect] binds and connects; [sock_send] and [sock_recv] are the
    connected socket's, the latter waiting for the timeout set last. *)
Class Socket (W : Type) `{Net W} := {
  sock_connect : W -> SocketAddr -> W * option IoError;
  sock_send : W -> bytes -> W * (Z + IoError);
  sock_recv : W -> Z -> W * (bytes + IoError);
  sock_set_read_timeout : W -> option Z -> W * option IoError;
  sock_try_clone : W -> W * option IoError;
  sock_peer_addr : W -> SocketAddr + IoError;
}.

(** The first address a name has. *)
Definition resolve (addrs : list SocketAddr + IoError) : HostResult SocketAddr :=
  match addrs with
  | inl (addr :: _) => Ok addr
  | inl [] => Err Io
  | inr _ => Err Io
  end.

(** ** UdpTransport, connected *)
Record UdpTransport := mkUdpTransport { ut_max_datagram : Z }.

Module UdpTransport.
Section transport.
Context {W : Type} `{Socket W}.

Definition new (w : W) : UdpTransport := mkUdpTransport (max_datagram w).

Definition connect (w : W) (peer : SocketAddr) : W * HostResult UdpTransport :=
  let (w, err) := sock_connect w peer in
  match err with Some _ => (w, Err Io) | None => (w, Ok (new w)) end.

Definition set_max_datagram_size (t : UdpTransport) (size : Z) : UdpTransport := mkUdpTransport size.

(** A datagram cut short is an error. *)
Definition send (w : W) (datagram : bytes) : W * option IoError :=
  let (w, r) := sock_send w datagram in
  match r with
  | inl n => (w, if n =? len datagram then None else Some OtherIo)
  | inr err => (w, Some err)
  end.

Definition max_datagram_size (t : UdpTransport) : Z := ut_max_datagram t.
End transport.
End UdpTransport.

Record Core (W : Type) := mkCore {
  co_world : W;
  co_transport : UdpTransport;
  co_peer : Peer;
  co_tx : bytes;
  co_inbox : list bytes;
  co_epoch : Z;
  co_read_timeout : option Z;
  co_keepalive : option Z;
  co_last_sent_ms : Z;
  co_pmtu : option Pmtu;
  co_spoke : bool;
}.
Arguments mkCore {W}.
Arguments co_world {W} _.
Arguments co_transport {W} _.
Arguments co_peer {W} _.
Arguments co_tx {W} _.
Arguments co_inbox {W} _.
Arguments co_epoch {W} _.
Arguments co_read_timeout {W} _.
Arguments co_keepalive {W} _.
Arguments co_last_sent_ms {W} _.
Arguments co_pmtu {W} _.
Arguments co_spoke {W} _.

Section setters.
Context {W : Type}.
Definition set_co_world (c : Core W) v : Core W := mkCore v (co_transport c) (co_peer c) (co_tx c)
  (co_inbox c) (co_epoch c) (co_read_timeout c) (co_keepalive c) (co_last_sent_ms c) (co_pmtu c) (co_spoke c).
Definition set_co_peer (c : Core W) v : Core W := mkCore (co_world c) (co_transport c) v (co_tx c)
  (co_inbox c) (co_epoch c) (co_read_timeout c) (co_keepalive c) (co_last_sent_ms c) (co_pmtu c) (co_spoke c).
Definition set_co_tx (c : Core W) v : Core W := mkCore (co_world c) (co_transport c) (co_peer c) v
  (co_inbox c) (co_epoch c) (co_read_timeout c) (co_keepalive c) (co_last_sent_ms c) (co_pmtu c) (co_spoke c).
Definition set_co_inbox (c : Core W) v : Core W := mkCore (co_world c) (co_transport c) (co_peer c) (co_tx c)
  v (co_epoch c) (co_read_timeout c) (co_keepalive c) (co_last_sent_ms c) (co_pmtu c) (co_spoke c).
Definition set_co_read_timeout (c : Core W) v : Core W := mkCore (co_world c) (co_transport c) (co_peer c)
  (co_tx c) (co_inbox c) (co_epoch c) v (co_keepalive c) (co_last_sent_ms c) (co_pmtu c) (co_spoke c).
Definition set_co_keepalive (c : Core W) v : Core W := mkCore (co_world c) (co_transport c) (co_peer c)
  (co_tx c) (co_inbox c) (co_epoch c) (co_read_timeout c) v (co_last_sent_ms c) (co_pmtu c) (co_spoke c).
Definition set_co_last_sent_ms (c : Core W) v : Core W := mkCore (co_world c) (co_transport c) (co_peer c)
  (co_tx c) (co_inbox c) (co_epoch c) (co_read_timeout c) (co_keepalive c) v (co_pmtu c) (co_spoke c).
Definition set_co_pmtu (c : Core W) v : Core W := mkCore (co_world c) (co_transport c) (co_peer c)
  (co_tx c) (co_inbox c) (co_epoch c) (co_read_timeout c) (co_keepalive c) (co_last_sent_ms c) v (co_spoke c).
Definition set_co_spoke (c : Core W) v : Core W := mkCore (co_world c) (co_transport c) (co_peer c)
  (co_tx c) (co_inbox c) (co_epoch c) (co_read_timeout c) (co_keepalive c) (co_last_sent_ms c) (co_pmtu c) v.
End setters.

Module Core.
Section core.
Context {W : Type} `{Socket W} `{Crypto} `{ZstdLib}.
Local Abbreviation C := (Core W).

Definition now (c : C) : Z := net_now (co_world c).

Definition now_ms (c : C) : Z := since (now c) (co_epoch c).

Definition new (w : W) (transport : UdpTransport) (link : Session) : C :=
  let size := UdpTransport.max_datagram_size transport in
  let caps := s_peer_caps link in
  let cap := Z.min (max_frame_size caps) size in
  let pmtu :=
    if path_mtu_discovery w && Capabilities.supports_pmtu_probe caps && (BASE_DATAGRAM <? cap)
    then Some (Pmtu.new cap (net_now w)) else None in
  mkCore w transport (Peer.new link size) (zeros size) [] (net_now w) None None 0 pmtu false.

(** [self.transport.send(frame)?]. *)
Definition transport_send (c : C) (frame : bytes) : C * HostResult unit :=
  let (w, err) := UdpTransport.send (co_world c) frame in
  (set_co_world c w, match err with None => Ok tt | Some _ => Err Io end).

Definition transmit (c : C) (n : Z) : C * HostResult unit :=
  let! (c, frame) := (c, slice (co_tx c) 0 n) in
  let! (c, _) := transport_send c frame in
  (set_co_last_sent_ms c (now_ms c), Ok tt).

Definition send_keepalive (c : C) : C * HostResult unit :=
  let (w, token) := net_random (co_world c) PATH_TOKEN_LEN in
  let c := set_co_world c w in
  let (p, r) := Peer.challenge (co_peer c) token (co_tx c) in
  let c := set_co_peer c p in
  let! (c, sealed) := (c, r) in
  transmit (set_co_tx c sealed.1) sealed.2.

Definition limit (c : C) : Z :=
  match co_pmtu c with
  | Some pmtu => current pmtu
  | None => UdpTransport.max_datagram_size (co_transport c)
  end.

Definition probe_retry (c : C) : Z := Endpoint.rto_ms (co_peer c).

Definition send_probe (c : C) (s : Pmtu.Send) : C :=
  let (p, r) := Peer.probe (co_peer c) (s_token s) (s_size s) (co_tx c) in
  let c := set_co_peer c p in
  match r with
  | Ok (tx, n) =>
      let c := set_co_tx c tx in
      let (c, r) := transport_send c (takez n tx) in
      match r with Ok _ => set_co_last_sent_ms c (now_ms c) | _ => c end
  | _ => c
  end.

Definition drive_pmtu (c : C) : C :=
  if negb (co_spoke c) then c else
  match co_pmtu c with
  | None => c
  | Some pmtu =>
      let t := now c in
      let (w, tokens) := Endpoint.draw_tokens (co_world c) (Endpoint.search_sizes pmtu t) in
      let (pmtu, sends) := Pmtu.due pmtu t (probe_retry c) (Endpoint.token_for tokens) in
      fold_left send_probe sends (set_co_pmtu (set_co_world c w) (Some pmtu))
  end.

Definition pmtu_due_in (c : C) : option Z :=
  if negb (co_spoke c) then None else
  match co_pmtu c with
  | None => None
  | Some pmtu => (fun at_ => saturating_sub at_ (now c)) <$> Pmtu.next_deadline pmtu (probe_retry c)
  end.

Definition keepalive_due_ms (c : C) : option Z :=
  (fun every => Z.min U64_MAX (co_last_sent_ms c + every)) <$> co_keepalive c.

(** ** Opening *)

(** [exchange_handshake], for [fuel] attempts from number [attempt] on. *)
Fixpoint exchange (fuel : nat) (attempt deadline : Z) (w : W) (frame : bytes) (size : Z)
  : W * HostResult (option bytes) :=
  match fuel with
  | O => (w, Ok None)
  | S fuel =>
      let (w, err) := UdpTransport.send w frame in
      if is_some err then (w, Err Io) else
      let remaining := saturating_sub deadline (net_now w) in
      if remaining =? 0 then (w, Err Io) else
      let wait := Z.min (HANDSHAKE_RETRY_MS * attempt) remaining in
      let (w, err) := sock_set_read_timeout w (Some wait) in
      if is_some err then (w, Err Io) else
      let (w, received) := sock_recv w size in
      match received with
      | inl datagram => (w, Ok (Some datagram))
      | inr err => if is_timeout err then exchange fuel (attempt + 1) deadline w frame size else (w, Err Io)
      end
  end.

Definition exchange_handshake (fuel : nat) (w : W) (frame : bytes) (size : Z) : W * HostResult (option bytes) :=
  exchange fuel 1 (net_now w + HANDSHAKE_TIMEOUT) w frame size.

Definition queue_first (c : C) (first : bytes) : C :=
  match first with [] => c | _ => set_co_inbox c (co_inbox c ++ [first]) end.

(** The reply read and the connection made: what the three ways to open share. *)
Definition finish (w : W) (transport : UdpTransport) (read : Result (Session * bytes * Z))
  : W * HostResult C :=
  let! (w, v) := (w, map_err Protocol read) in
  let '(session, scratch, n) := v in
  let! (w, reply) := (w, slice scratch 0 n) in
  (w, Ok (queue_first (new w transport session) reply)).

Definition handshake {K} `{StaticKey K} (fuel : nat) (w : W) (transport : UdpTransport) (peer_public : bytes)
    (key : K) (zero_rtt : bytes) : W * HostResult (option C) :=
  let size := UdpTransport.max_datagram_size transport in
  let! (w, tx) := (w, opening_frame (Z.min size BASE_DATAGRAM) INITIATOR_OVERHEAD zero_rtt) in
  let (w, session_id) := next_u32 w in
  let! (w, initiator) := (w, map_err Protocol (Initiator.new key peer_public session_id (local_capabilities w))) in
  let (w, random) := net_random w DHLEN in
  let (initiator, r) := Initiator.write_init initiator random zero_rtt tx in
  let! (w, sealed) := (w, map_err Protocol r) in
  let! (w, frame) := (w, slice sealed.1 0 sealed.2) in
  let! (w, reply) := exchange_handshake fuel w frame size in
  match reply with
  | None => (w, Ok None)
  | Some rx =>
      let! (w, c) := finish w transport (Initiator.read_response initiator rx (zeros size)) in
      (w, Ok (Some c))
  end.

(** The part a resumption and a pre-shared key have in common. *)
Definition redeem (fuel : nat) (w : W) (transport : UdpTransport) (ticket : ResumptionTicket)
    (remote_static zero_rtt : bytes) : W * HostResult (option C) :=
  let size := UdpTransport.max_datagram_size transport in
  let! (w, tx) := (w, opening_frame (Z.min size BASE_DATAGRAM) RESUME_INIT_OVERHEAD zero_rtt) in
  let (w, session_id) := next_u32 w in
  let! (w, initiator) :=
    (w, map_err Protocol (ResumeInitiator.new ticket remote_static session_id (local_capabilities w))) in
  let (w, random) := net_random w DHLEN in
  let (initiator, r) := ResumeInitiator.write_init initiator random zero_rtt tx in
  let! (w, sealed) := (w, map_err Protocol r) in
  let! (w, frame) := (w, slice sealed.1 0 sealed.2) in
  let! (w, reply) := exchange_handshake fuel w frame size in
  match reply with
  | None => (w, Ok None)
  | Some rx =>
      let! (w, c) := finish w transport (ResumeInitiator.read_response initiator rx (zeros size)) in
      let (w, err) := sock_set_read_timeout w None in
      match err with Some _ => (w, Err Io) | None => (w, Ok (Some (set_co_world c w))) end
  end.

(** [UdpTransport::connect] and the deadline of the handshake. *)
Definition open_socket (w : W) (addr : SocketAddr) : W * HostResult UdpTransport :=
  let! (w, transport) := UdpTransport.connect w addr in
  let (w, err) := sock_set_read_timeout w (Some HANDSHAKE_TIMEOUT) in
  match err with Some _ => (w, Err Io) | None => (w, Ok transport) end.

Definition set_read_timeout (c : C) (timeout : option Z) : C := set_co_read_timeout c timeout.

Definition connect_and_send {K} `{StaticKey K} (fuel : nat) (w : W) (addr : SocketAddr) (peer_public : bytes)
    (identity : K) (zero_rtt : bytes) : W * HostResult (option C) :=
  let! (w, transport) := open_socket w addr in
  let! (w, c) := handshake fuel w transport peer_public identity zero_rtt in
  (w, Ok ((fun c => set_read_timeout c None) <$> c)).

Definition connect {K} `{StaticKey K} (fuel : nat) (w : W) (addr : SocketAddr) (peer_public : bytes)
    (identity : K) : W * HostResult (option C) := connect_and_send fuel w addr peer_public identity [].

Definition connect_with_key {K} `{StaticKey K} (fuel : nat) (w : W) (addr : SocketAddr) (peer_public : bytes)
    (key : K) (zero_rtt : bytes) : W * HostResult (option C) :=
  connect_and_send fuel w addr peer_public (SharedKey.new key) zero_rtt.

Definition resume_and_send (fuel : nat) (w : W) (addr : SocketAddr) (ticket : ResumptionTicket)
    (peer_public zero_rtt : bytes) : W * HostResult (option C) :=
  let! (w, transport) := open_socket w addr in
  redeem fuel w transport ticket peer_public zero_rtt.

Definition resume (fuel : nat) (w : W) (addr : SocketAddr) (ticket : ResumptionTicket) (peer_public : bytes)
  : W * HostResult (option C) := resume_and_send fuel w addr ticket peer_public [].

Definition connect_psk_and_send (fuel : nat) (w : W) (addr : SocketAddr) (secret zero_rtt : bytes)
  : W * HostResult (option C) :=
  let ticket := preshared_key secret in
  let! (w, transport) := open_socket w addr in
  redeem fuel w transport ticket ANONYMOUS zero_rtt.

Definition connect_psk (fuel : nat) (w : W) (addr : SocketAddr) (secret : bytes)
  : W * HostResult (option C) := connect_psk_and_send fuel w addr secret [].

(** ** Asking *)
Definition resumption_ticket (c : C) : ResumptionTicket := Session.resumption_ticket (p_session (co_peer c)).
Definition peer_public_key (c : C) : bytes := s_remote_static (p_session (co_peer c)).
Definition peer_addr (c : C) : HostResult SocketAddr :=
  match sock_peer_addr (co_world c) with inl a => Ok a | inr _ => Err Io end.
Definition max_payload (c : C) : Z := Peer.max_payload (co_peer c) (limit c).
Definition max_fragment_payload (c : C) : Z := Peer.max_fragment_payload (co_peer c) (limit c).
Definition max_reliable_payload (c : C) : Z := Peer.payload_room (co_peer c) (limit c) true false.

Definition set_padding (c : C) (enabled : bool) : C :=
  set_co_peer c (Peer.with_session (co_peer c) (Session.set_padding (p_session (co_peer c)) enabled)).

(** ** Sending *)
Definition seal (c : C) (data : bytes) (payload_type : PayloadType) (message_id : option Z) : C * HostResult Z :=
  let (p, r) := Peer.seal (co_peer c) data payload_type message_id None (limit c) (co_tx c) in
  let c := set_co_peer c p in
  let! (c, sealed) := (c, r) in
  (set_co_tx c sealed.1, Ok sealed.2).

Definition send_one (c : C) (data : bytes) (payload_type : PayloadType) : C * HostResult unit :=
  let! (c, n) := seal c data payload_type None in
  transmit c n.

Definition send_one_reliable (c : C) (data : bytes) (payload_type : PayloadType) : C * HostResult Z :=
  if negb (Capabilities.supports_reliable (s_peer_caps (p_session (co_peer c))))
  then (c, Err ReliabilityUnsupported) else
  let (q, r) := RetransmitQueue.register (p_retransmit (co_peer c)) (now_ms c) in
  let c := set_co_peer c (Peer.with_retransmit (co_peer c) q) in
  let! (c, id) := (c, map_err Protocol r) in
  let! (c, n) := seal c data payload_type (Some id) in
  let! (c, _) := transmit c n in
  let p := co_peer c in
  let p := Peer.with_pending p (p_pending p ++ [mkPending id payload_type data None (limit c)]) in
  (set_co_peer c p, Ok id).

(** What [send_frame] in a driver's closure changes: the world, the stamp, and
    whether a large frame went again. *)
Record Wire := mkWire { wi_world : W; wi_stamp : Z; wi_large : bool }.

Definition wire_send (t : Z) (s : Wire) (frame : bytes) : Wire * HostResult unit :=
  let large := wi_large s || (BASE_DATAGRAM <? len frame) in
  let (w, err) := UdpTransport.send (wi_world s) frame in
  match err with
  | None => (mkWire w t large, Ok tt)
  | Some err => if is_too_long err then (mkWire w t large, Ok tt) else (mkWire w (wi_stamp s) large, Err Io)
  end.

Definition driving (c : C) : Driving Wire :=
  mkDriving (co_peer c) (mkWire (co_world c) (co_last_sent_ms c) false) (co_tx c).

Definition driven (c : C) (d : Driving Wire) : C :=
  let c := set_co_tx (set_co_peer c (d_peer d)) (d_tx d) in
  set_co_last_sent_ms (set_co_world c (wi_world (d_world d))) (wi_stamp (d_world d)).

Definition drive_retransmits (c : C) : C * HostResult unit :=
  let t := now_ms c in
  let (d, r) := Peer.drive_retransmits (wire_send t) (driving c) t in
  let c := driven c d in
  let! (c, _) := (c, r) in
  if wi_large (d_world d) then
    (set_co_pmtu c ((fun pmtu => Pmtu.suspect pmtu (now c)) <$> co_pmtu c), Ok tt)
  else (c, Ok tt).

(** [Connection::drive_queue], under the core's lock. *)
Definition drive_queue (c : C) : C * HostResult unit :=
  let t := now_ms c in
  let (d, r) := Peer.drive_queue (wire_send t) (driving c) t in
  let c := driven c d in
  let! (c, _) := (c, r) in (c, Ok tt).
End core.
Arguments Wire : clear implicits.
End Core.

(** ** The two locks *)
Record Connection (W : Type) := mkConnection {
  cn_core : Core W;
  cn_rx_size : Z;
  cn_scratch : bytes;
}.
Arguments mkConnection {W}.
Arguments cn_core {W} _.
Arguments cn_rx_size {W} _.
Arguments cn_scratch {W} _.

Definition set_cn_core {W} (n : Connection W) v : Connection W := mkConnection v (cn_rx_size n) (cn_scratch n).
Definition set_cn_scratch {W} (n : Connection W) v : Connection W := mkConnection (cn_core n) (cn_rx_size n) v.

Module Connection.
Section connection.
Context {W : Type} `{Socket W} `{Crypto} `{ZstdLib}.
Local Abbreviation N := (Connection W).
Import Core.

(** Under the core's lock. *)
Definition with_core {A} (n : N) (f : Core W -> Core W * HostResult A) : N * HostResult A :=
  let (c, r) := f (cn_core n) in (set_cn_core n c, r).

Definition wrap (w : W) (c : Core W) : W * HostResult N :=
  let size := UdpTransport.max_datagram_size (co_transport c) in
  let (w, err) := sock_try_clone w in
  match err with
  | Some _ => (w, Err Io)
  | None => (w, Ok (mkConnection (set_co_world c w) size (zeros size)))
  end.

(** A core opened and wrapped; [Ok None] is fuel spent. *)
Definition wrapped (opened : W * HostResult (option (Core W))) : W * HostResult (option N) :=
  let! (w, c) := opened in
  match c with
  | None => (w, Ok None)
  | Some c => let! (w, n) := wrap w c in (w, Ok (Some n))
  end.

Definition connect_and_send {K} `{StaticKey K} (fuel : nat) (w : W) (addr : SocketAddr) (peer_public : bytes)
    (identity : K) (zero_rtt : bytes) : W * HostResult (option N) :=
  wrapped (Core.connect_and_send fuel w addr peer_public identity zero_rtt).

Definition connect {K} `{StaticKey K} (fuel : nat) (w : W) (addr : SocketAddr) (peer_public : bytes)
    (identity : K) : W * HostResult (option N) := wrapped (Core.connect fuel w addr peer_public identity).

Definition connect_with_key {K} `{StaticKey K} (fuel : nat) (w : W) (addr : SocketAddr) (peer_public : bytes)
    (key : K) (zero_rtt : bytes) : W * HostResult (option N) :=
  wrapped (Core.connect_with_key fuel w addr peer_public key zero_rtt).

Definition resume_and_send (fuel : nat) (w : W) (addr : SocketAddr) (ticket : ResumptionTicket)
    (peer_public zero_rtt : bytes) : W * HostResult (option N) :=
  wrapped (Core.resume_and_send fuel w addr ticket peer_public zero_rtt).

Definition resume (fuel : nat) (w : W) (addr : SocketAddr) (ticket : ResumptionTicket) (peer_public : bytes)
  : W * HostResult (option N) := wrapped (Core.resume fuel w addr ticket peer_public).

Definition connect_psk_and_send (fuel : nat) (w : W) (addr : SocketAddr) (secret zero_rtt : bytes)
  : W * HostResult (option N) :=
  wrapped (Core.connect_psk_and_send fuel w addr secret zero_rtt).

Definition connect_psk (fuel : nat) (w : W) (addr : SocketAddr) (secret : bytes)
  : W * HostResult (option N) := wrapped (Core.connect_psk fuel w addr secret).

(** ** Asking: each reads the core under its lock *)
Definition resumption_ticket (n : N) : option ResumptionTicket := Some (Core.resumption_ticket (cn_core n)).
Definition peer_public_key (n : N) : HostResult bytes := Ok (Core.peer_public_key (cn_core n)).
Definition peer_addr (n : N) : HostResult SocketAddr := Core.peer_addr (cn_core n).
Definition max_payload (n : N) : Z := Core.max_payload (cn_core n).
Definition max_reliable_payload (n : N) : Z := Core.max_reliable_payload (cn_core n).
Definition max_fragment_payload (n : N) : Z := Core.max_fragment_payload (cn_core n).

Definition reassembling (n : N) : Z := Reassembly.in_progress (p_reassembly (co_peer (cn_core n))).
Definition unacknowledged (n : N) : Z := RetransmitQueue.in_flight (p_retransmit (co_peer (cn_core n))).
Definition rto_ms (n : N) : Z := Endpoint.rto_ms (co_peer (cn_core n)).
Definition queued (n : N) : Z := Peer.queued (co_peer (cn_core n)).

(** ** Settings *)
Definition set_padding (n : N) (enabled : bool) : N := set_cn_core n (Core.set_padding (cn_core n) enabled).

Definition set_read_timeout (n : N) (timeout : option Z) : N :=
  set_cn_core n (Core.set_read_timeout (cn_core n) timeout).

Definition set_keepalive (n : N) (every : option Z) : N :=
  let c := set_co_keepalive (cn_core n) (Z.max MIN_KEEPALIVE <$> every) in
  set_cn_core n (set_co_last_sent_ms c (now_ms c)).

Definition set_max_retries (n : N) (attempts : Z) : N :=
  let p := co_peer (cn_core n) in
  set_cn_core n (set_co_peer (cn_core n)
    (Peer.with_retransmit p (RetransmitQueue.set_max_retries (p_retransmit p) attempts))).

(** ** Sending *)
Definition send (n : N) (data : bytes) (payload_type : PayloadType) : N * HostResult unit :=
  with_core n (fun c => send_one c data payload_type).

Definition drive_queue (n : N) : N * HostResult unit := with_core n Core.drive_queue.

Definition send_reliable (n : N) (data : bytes) (payload_type : PayloadType) : N * HostResult unit :=
  let c := cn_core n in
  let limit := limit c in
  if len data <=? Peer.payload_room (co_peer c) limit true false then
    let! (n, _) := with_core n (fun c => send_one_reliable c data payload_type) in (n, Ok tt)
  else
    let (p, r) := Peer.queue_message (co_peer c) data payload_type limit in
    let n := set_cn_core n (set_co_peer c p) in
    let! (n, _) := (n, r) in
    drive_queue n.

(** ** Receiving *)
Definition in_flight (c : Core W) : Z := RetransmitQueue.in_flight (p_retransmit (co_peer c)).

(** Nothing is outstanding and nothing is queued. *)
Definition idle (c : Core W) : bool := (in_flight c =? 0) && (Peer.queued (co_peer c) =? 0).

(** How long to wait: the next retransmission, the caller's deadline, the next
    keep-alive or the next probe. *)
Definition wait_for (c : Core W) (deadline : option Z) : option Z :=
  let t := now_ms c in
  let until at_ := saturating_sub at_ t in
  Pmtu.min_list (option_list (until <$> RetransmitQueue.next_deadline_ms (p_retransmit (co_peer c)))
    ++ option_list ((fun d => saturating_sub d (now c)) <$> deadline)
    ++ option_list (until <$> keepalive_due_ms c)
    ++ option_list (pmtu_due_in c)).

(** The section of [pump] under the core's lock: how long to read for, or [None]
    when a flush has nothing left to wait for. *)
Definition pump_turn (n : N) (deadline : option Z) (flushing : bool) : N * HostResult (option (option Z)) :=
  with_core n (fun c =>
    let! (c, _) := drive_retransmits c in
    if flushing && idle c then (c, Ok None) else
    let! (c, _) :=
      match keepalive_due_ms c with
      | Some at_ => if at_ <=? now_ms c then send_keepalive c else (c, Ok tt)
      | None => (c, Ok tt)
      end in
    let c := drive_pmtu c in
    (c, Ok (Some (wait_for c deadline)))).

(** [pump] up to the read. *)
Definition pump_before (n : N) (deadline : option Z) (flushing : bool) : N * HostResult (option (option Z)) :=
  let! (n, _) := drive_queue n in
  pump_turn n deadline flushing.

(** The read, for at least a millisecond: [None] is a timeout. *)
Definition pump_read (n : N) (wait : option Z) : N * HostResult (option bytes) :=
  let c := cn_core n in
  let (w, err) := sock_set_read_timeout (co_world c) (Z.max 1 <$> wait) in
  if is_some err then (set_cn_core n (set_co_world c w), Err Io) else
  let (w, received) := sock_recv w (cn_rx_size n) in
  (set_cn_core n (set_co_world c w),
   match received with
   | inl datagram => Ok (Some datagram)
   | inr err => if is_timeout err then Ok None else Err Io
   end).

(** What an accepted frame does to the core besides its payload. *)
Definition note_ingested (c : Core W) (i : Ingested) : Core W :=
  let c := match i with Rejected => c | _ => set_co_spoke c true end in
  match i, co_pmtu c with
  | PathValidated token, Some pmtu => set_co_pmtu c (Some (fst (Pmtu.answered pmtu token (now c))))
  | _, _ => c
  end.

(** A payload for the caller's buffer, or for the inbox when it has none. *)
Definition hand_over (n : N) (body : bytes) (compressed : bool) (out : option bytes)
  : N * HostResult (option (bytes * Z)) :=
  match out with
  | Some out =>
      let (scratch, r) := Pipeline.deliver body compressed (cn_scratch n) out in
      let! (n, written) := (set_cn_scratch n scratch, r) in (n, Ok (Some written))
  | None =>
      let staging := zeros (decoded_capacity body compressed) in
      let (scratch, r) := Pipeline.deliver body compressed (cn_scratch n) staging in
      let! (n, written) := (set_cn_scratch n scratch, r) in
      let c := cn_core n in
      (set_cn_core n (set_co_inbox c (co_inbox c ++ [takez written.2 written.1])), Ok None)
  end.

(** A message that came whole from the reassembler. *)
Definition hand_over_whole (n : N) (data : bytes) (out : option bytes) : N * HostResult (option (bytes * Z)) :=
  match out with
  | Some out =>
      if len out <? len data then (n, Err (HostPayloadTooLarge (len data) (len out))) else
      let! (n, out) := (n, copy_range out 0 (len data) data) in (n, Ok (Some (out, len data)))
  | None =>
      let c := cn_core n in
      (set_cn_core n (set_co_inbox c (co_inbox c ++ [data])), Ok None)
  end.

Definition pump_after (n : N) (datagram : bytes) (out : option bytes) : N * HostResult (option (bytes * Z)) :=
  let c := cn_core n in
  let '(p, reply, r) := Peer.ingest (co_peer c) datagram (now_ms c) (co_tx c) in
  let n := set_cn_core n (set_co_tx (set_co_peer c p) (r_ack reply)) in
  let! (n, ingested) := (n, r) in
  let '(i, rx) := ingested in
  let! (n, _) :=
    if 0 <? r_len reply then
      with_core n (fun c =>
        let! (c, frame) := (c, slice (co_tx c) 0 (r_len reply)) in transport_send c frame)
    else (n, Ok tt) in
  let n := set_cn_core n (note_ingested (cn_core n) i) in
  match i with
  | Rejected | Nothing | PathValidated _ => (n, Ok None)
  | IngestedMessage data => hand_over_whole n data out
  | IngestedData m compressed =>
      let! (n, body) := (n, slice rx HEADER_LEN (HEADER_LEN + m)) in hand_over n body compressed out
  end.

(** [out] is the caller's buffer when receiving and [None] when flushing. *)
Definition pump (n : N) (deadline : option Z) (out : option bytes) : N * HostResult (option (bytes * Z)) :=
  let! (n, wait) := pump_before n deadline (negb (is_some out)) in
  match wait with
  | None => (n, Ok None)
  | Some wait =>
      let! (n, received) := pump_read n wait in
      match received with
      | None => (n, Ok None)
      | Some datagram => pump_after n datagram out
      end
  end.

Definition past (n : N) (deadline : option Z) : bool :=
  match deadline with Some d => d <=? now (cn_core n) | None => false end.

Fixpoint recv_loop (fuel : nat) (n : N) (deadline : option Z) (out : bytes) : N * HostResult (option (bytes * Z)) :=
  match fuel with
  | O => (n, Ok None)
  | S fuel =>
      let! (n, got) := pump n deadline (Some out) in
      match got with
      | Some got => (n, Ok (Some got))
      | None => if past n deadline then (n, Err Io) else recv_loop fuel n deadline out
      end
  end.

Definition recv (fuel : nat) (n : N) (out : bytes) : N * HostResult (option (bytes * Z)) :=
  let c := cn_core n in
  match co_inbox c with
  | message :: inbox =>
      let n := set_cn_core n (set_co_inbox c inbox) in
      hand_over n message false (Some out)
  | [] => recv_loop fuel n (Z.add (now c) <$> co_read_timeout c) out
  end.

Fixpoint flush_loop (fuel : nat) (n : N) (deadline : Z) : N * HostResult (option unit) :=
  match fuel with
  | O => (n, Ok None)
  | S fuel =>
      let! (n, _) := drive_queue n in
      let c := cn_core n in
      if idle c then (n, Ok (Some tt)) else
      if deadline <=? now c
      then (n, Err (Unacknowledged (in_flight c + p_abandoned_count (co_peer c)))) else
      let! (n, _) := pump n (Some deadline) None in
      flush_loop fuel n deadline
  end.

Definition flush (fuel : nat) (n : N) (timeout : Z) : N * HostResult (option unit) :=
  let c := cn_core n in
  let deadline := now c + timeout in
  let p := co_peer c in
  let n := set_cn_core n (set_co_peer c (Peer.with_abandoned p (p_abandoned p) (p_abandoned_unqueued p) 0)) in
  let! (n, done) := flush_loop fuel n deadline in
  match done with
  | None => (n, Ok None)
  | Some _ =>
      let abandoned := p_abandoned_count (co_peer (cn_core n)) in
      if 0 <? abandoned then (n, Err (Unacknowledged abandoned)) else (n, Ok (Some tt))
  end.
End connection.
End Connection.
