(* ===== verification/ConnectionLaws.v ===== *)
(** * What the client connection does (crates/fectp/src/lib.rs)

    How long connecting takes, that what one connection sends another
    receives, and what [flush] reports and keeps. Two runs are evaluated in which
    a message is lost: one given up on and never reported, and one dropped
    because the socket refused its acknowledgement. *)
From stdpp Require Import gmap.
From S2P Require Import Prelude Bytes Error Frame Fragment Codec Reliability RetransmitQueue.
From S2P Require Import Cipher Symmetric Handshake Session Connect Compress Reassembly Tickets Pmtu.
From S2P Require Import Pipeline Control Udp EndpointState Endpoint Connection.
Import Core Connection.

(** ** Connecting *)

(** A clock that does not go back, and a read that times out only once its
    timeout has passed. *)
Class SocketClock (W : Type) `{Socket W} := {
  sc_send (w : W) d : net_now w <= net_now (sock_send w d).1;
  sc_set (w : W) t : net_now w <= net_now (sock_set_read_timeout w t).1;
  sc_wait (w w1 w2 : W) t size err :
    sock_set_read_timeout w (Some t) = (w1, None) -> sock_recv w1 size = (w2, inr err) ->
    is_timeout err = true -> net_now w1 + t <= net_now w2;
}.

Section connecting.
Context {W : Type} `{SC : SocketClock W}.

(** What is left of the handshake's deadline when attempt [a] starts. *)
Definition left_at (a : Z) : Z := Z.max 0 (HANDSHAKE_TIMEOUT - 125 * a * (a - 1)).

Lemma exchange_enough fuel a deadline (w : W) frame size :
  1 <= a -> 11 <= a + Z.of_nat fuel -> fuel <> O -> deadline - net_now w <= left_at a ->
  (exchange fuel a deadline w frame size).2 <> Ok None /\
  forall more, exchange (more + fuel) a deadline w frame size = exchange fuel a deadline w frame size.
Proof.
  revert a w. induction fuel as [|fuel IH]; intros a w Ha Hf Hne Hl; [done|].
  setoid_rewrite <- plus_n_Sm. cbn [exchange].
  unfold UdpTransport.send. pose proof (sc_send w frame) as Hs. destruct (sock_send w frame) as [w1 sent]. cbn in Hs.
  destruct sent as [n|err]; [|done]. destruct (n =? len frame); [cbn [is_some]|done].
  set (left := saturating_sub deadline (net_now w1)). destruct (Z.eqb_spec left 0) as [|Hr]; [done|].
  set (wait := Z.min _ _). pose proof (sc_set w1 (Some wait)) as Ht.
  destruct (sock_set_read_timeout w1 (Some wait)) as [w2 err] eqn:E2. cbn in Ht.
  destruct err as [err|]; [done|]. cbn [is_some]. destruct (sock_recv w2 size) as [w3 [d|err]] eqn:E3; [done|].
  destruct (is_timeout err) eqn:Hto; [|done]. pose proof (sc_wait w1 w2 w3 wait size err E2 E3 Hto) as Hw.
  unfold left, left_at, saturating_sub, HANDSHAKE_RETRY_MS, HANDSHAKE_TIMEOUT in *.
  apply IH; [lia|lia| |]; unfold wait, left, saturating_sub in *; nia.
Qed.

(** C36: connecting gives up. However the network behaves, the tenth opening
    frame is the last: the exchange has then ended, with a reply or with an
    error, and allowing more attempts changes nothing. *)
Theorem connect_attempts_bounded (w : W) frame size more :
  (exchange_handshake 10 w frame size).2 <> Ok None /\
  exchange_handshake (more + 10) w frame size = exchange_handshake 10 w frame size.
Proof.
  unfold exchange_handshake. destruct (exchange_enough 10 1 (net_now w + HANDSHAKE_TIMEOUT) w frame size) as [H1 H2];
    [lia|lia|done|unfold left_at; clia|]. by split.
Qed.
End connecting.

(** ** Delivery *)
Section delivery.
Context {W : Type} `{Socket W} `{CL : CryptoLaws} (z : ZstdLib) (zl : ZstdLaws z).

(** C23: what one connection sends the other receives. If [send] succeeds, it
    handed the socket exactly one datagram, and a connection whose session is
    in step, reading that datagram into a buffer that holds the data, returns
    the data and is in step for the next. *)
Theorem connection_delivers (c c' : Core W) (n : Connection W) data pt out k0 :
  bytes_ok data -> PayloadType.wf pt -> is_u16 (cap_codecs (s_peer_caps (p_session (co_peer c)))) ->
  is_u16 (max_frame_size (s_peer_caps (p_session (co_peer c)))) ->
  in_step k0 (p_session (co_peer c)) (p_session (co_peer (cn_core n))) ->
  reassembly_wf (p_reassembly (co_peer (cn_core n))) ->
  PAD_BLOCK + DATA_OVERHEAD <= len (co_tx (cn_core n)) -> len data <= len out ->
  send_one c data pt = (c', Ok tt) ->
  exists frame n' out',
    (sock_send (co_world c) frame).1 = co_world c' /\
    pump_after n frame (Some out) = (n', Ok (Some (out', len data))) /\ takez (len data) out' = data /\
    in_step k0 (p_session (co_peer c')) (p_session (co_peer (cn_core n'))) /\
    co_inbox (cn_core n') = co_inbox (cn_core n).
Proof.
  intros Hd Hpt Hc Hm Hin Hwf Htx Hout. unfold send_one, seal.
  destruct (Peer.seal _ _ _ _ _ _ _) as [p [[tx m]|?|]] eqn:Hs; try done. cbn. unfold transmit. cbn.
  destruct (slice tx 0 m) as [frame|?|] eqn:Hf; try done.
  apply slice_inv in Hf as (pre & post & Htx' & Hp & Hf).
  assert (frame = takez m tx) as ->.
  { destruct pre; [|rewrite len_cons in Hp; pose proof (len_nonneg pre); lia]. rewrite Htx'. cbn.
    symmetry. apply takez_app. lia. }
  destruct (peer_exchange k0 k0 (co_peer c) (co_peer (cn_core n)) data pt None None (limit c) (co_tx c) p tx m
    (now_ms (cn_core n)) (co_tx (cn_core n))) as (b' & reply & v & rx & Hi & Hin' & Hrl & mm & cc & -> & Hsl & _ & Hdel);
    [done..|].
  unfold transport_send, UdpTransport.send. cbn.
  destruct (sock_send (co_world c) (takez m tx)) as [w sent] eqn:Hsend.
  destruct sent as [k|?]; [|done]. destruct (k =? len (takez m tx)); [|done]. intros [= <-].
  destruct (Hdel (cn_scratch n) out Hout) as (scratch' & out' & Hdo & Hdata).
  assert (Hz : (0 <? r_len reply) = false). { destruct (Z.ltb_spec 0 (r_len reply)) as [Hlt|]; [|done]. by apply Hrl in Hlt. }
  eexists (takez m tx), _, out'. split; [by rewrite Hsend|]. split.
  { unfold pump_after. rewrite Hi, Hz. cbn. rewrite Hsl. unfold hand_over. cbn. rewrite Hdo. reflexivity. }
  split; [done|]. split; [exact Hin'|done].
Qed.
End delivery.

(** ** Flushing *)
Section flushing.
Context {W : Type} `{Socket W} `{Crypto} `{ZstdLib}.
Local Abbreviation N := (Connection W).

(** The message an accepted frame brings: one that is whole already, or the
    body that follows the header, decoded. *)
Definition brings (scratch : bytes) (i : Ingested) (rx : bytes) : option bytes :=
  match i with
  | IngestedMessage data => Some data
  | IngestedData m compressed =>
      match slice (E := HostError) rx HEADER_LEN (HEADER_LEN + m) with
      | Ok body =>
          match Pipeline.deliver body compressed scratch (zeros (decoded_capacity body compressed)) with
          | (_, Ok (out, written)) => Some (takez written out)
          | _ => None
          end
      | _ => None
      end
  | _ => None
  end.

(** The message a datagram brings a connection. *)
Definition arrives (n : N) (datagram : bytes) : option bytes :=
  let c := cn_core n in
  match (Peer.ingest (co_peer c) datagram (now_ms c) (co_tx c)).2 with
  | Ok (i, rx) => brings (cn_scratch n) i rx
  | _ => None
  end.

(** Whether what [ingest] answers, an acknowledgement or a path response, was
    taken by the socket; where it answers nothing there is nothing to take. *)
Definition reply_sent (n : N) (datagram : bytes) : bool :=
  let c := cn_core n in
  let '(_, reply, r) := Peer.ingest (co_peer c) datagram (now_ms c) (co_tx c) in
  match r with
  | Ok _ =>
      if 0 <? r_len reply then
        match slice (E := HostError) (r_ack reply) 0 (r_len reply) with
        | Ok frame => negb (is_some (UdpTransport.send (co_world c) frame).2)
        | _ => false
        end
      else true
  | _ => true
  end.

(** What a flush reads off the socket: the datagrams, each with the connection
    as it was when it came. *)
Definition pump_taken (n : N) (deadline : option Z) (flushing : bool) : list (N * bytes) :=
  match pump_before n deadline flushing with
  | (n, Ok (Some wait)) =>
      match pump_read n wait with (n, Ok (Some datagram)) => [(n, datagram)] | _ => [] end
  | _ => []
  end.

Fixpoint flush_taken (fuel : nat) (n : N) (deadline : Z) : list (N * bytes) :=
  match fuel with
  | O => []
  | S fuel =>
      match drive_queue n with
      | (n, Ok _) =>
          if idle (cn_core n) || (deadline <=? now (cn_core n)) then [] else
          pump_taken n (Some deadline) true ++
          match pump n (Some deadline) None with (n, Ok _) => flush_taken fuel n deadline | _ => [] end
      | _ => []
      end
  end.

(** What of it goes to the inbox: the messages, save one that was not answered. *)
Definition kept (taken : list (N * bytes)) : list bytes :=
  omap (fun x => if reply_sent x.1 x.2 then arrives x.1 x.2 else None) taken.

Lemma transport_send_inbox (c : Core W) f : co_inbox (transport_send c f).1 = co_inbox c.
Proof. unfold transport_send. by destruct (UdpTransport.send _ _). Qed.

Lemma transmit_inbox (c : Core W) m : co_inbox (transmit c m).1 = co_inbox c.
Proof.
  unfold transmit. destruct (slice _ _ _) as [f|?|]; try done. pose proof (transport_send_inbox c f) as Ht.
  by destruct (transport_send c f) as [c1 [?|?|]].
Qed.

Lemma keepalive_inbox (c : Core W) : co_inbox (send_keepalive c).1 = co_inbox c.
Proof.
  unfold send_keepalive. destruct (net_random _ _). destruct (Peer.challenge _ _ _) as [p [[tx m]|?|]]; try done.
  by rewrite transmit_inbox.
Qed.

Lemma send_probe_inbox (c : Core W) s : co_inbox (send_probe c s) = co_inbox c.
Proof.
  unfold send_probe. destruct (Peer.probe _ _ _ _) as [p [[tx m]|?|]]; try done.
  pose proof (transport_send_inbox (set_co_tx (set_co_peer c p) tx) (takez m tx)) as Ht.
  by destruct (transport_send _ _) as [c1 [?|?|]].
Qed.

Lemma drive_pmtu_inbox (c : Core W) : co_inbox (drive_pmtu c) = co_inbox c.
Proof.
  unfold drive_pmtu. destruct (negb _); [done|]. destruct (co_pmtu c); [|done].
  destruct (Endpoint.draw_tokens _ _) as [w tokens]. destruct (Pmtu.due _ _ _ _) as [pm sends].
  assert (Hf : forall sends c0, co_inbox (fold_left send_probe sends c0) = co_inbox c0).
  { induction sends0 as [|s l IH]; intros c0; cbn; [done|]. rewrite IH. apply send_probe_inbox. }
  by rewrite Hf.
Qed.

Lemma drive_retransmits_inbox (c : Core W) : co_inbox (drive_retransmits c).1 = co_inbox c.
Proof. unfold drive_retransmits. destruct (Peer.drive_retransmits _ _ _) as [d [?|?|]]; cbn; try done. by case_match. Qed.

Lemma drive_queue_inbox (n : N) : co_inbox (cn_core (drive_queue n).1) = co_inbox (cn_core n).
Proof.
  unfold drive_queue, with_core, Core.drive_queue. by destruct (Peer.drive_queue _ _ _) as [d [?|?|]].
Qed.

Lemma pump_before_inbox (n : N) deadline flushing :
  co_inbox (cn_core (pump_before n deadline flushing).1) = co_inbox (cn_core n).
Proof.
  unfold pump_before. pose proof (drive_queue_inbox n) as Hq. destruct (drive_queue n) as [n1 [?|?|]]; try done.
  cbn in Hq. rewrite <- Hq. unfold pump_turn, with_core.
  pose proof (drive_retransmits_inbox (cn_core n1)) as Hr. destruct (drive_retransmits _) as [c1 [?|?|]]; try done.
  cbn in Hr. destruct (flushing && idle c1); [done|].
  assert (Hk : forall m : Core W * HostResult unit, co_inbox m.1 = co_inbox c1 ->
    co_inbox (let! (c, _) := m in (drive_pmtu c, Ok (Some (wait_for (drive_pmtu c) deadline)))).1 = co_inbox c1).
  { intros [c2 [?|?|]]; cbn; intros E; try done. by rewrite drive_pmtu_inbox. }
  rewrite <- Hr. pose proof (Hk (match keepalive_due_ms c1 with Some at_ => if at_ <=? now_ms c1 then send_keepalive c1 else (c1, Ok tt)
    | None => (c1, Ok tt) end)) as Hk'.
  destruct (keepalive_due_ms c1) as [at_|]; [destruct (at_ <=? now_ms c1)|].
  - specialize (Hk' (keepalive_inbox c1)). destruct (send_keepalive c1) as [c2 [?|?|]]; exact Hk'.
  - by specialize (Hk' eq_refl).
  - by specialize (Hk' eq_refl).
Qed.

Lemma pump_read_inbox (n : N) wait : co_inbox (cn_core (pump_read n wait).1) = co_inbox (cn_core n).
Proof.
  unfold pump_read. destruct (sock_set_read_timeout _ _) as [w err].
  destruct (is_some err); [done|]. by destruct (sock_recv _ _).
Qed.

Lemma note_ingested_inbox (c : Core W) i : co_inbox (note_ingested c i) = co_inbox c.
Proof. unfold note_ingested. by repeat case_match. Qed.

(** A call that did not end as a flush should. *)
Definition breaks {A} (r : HostResult A) : Prop :=
  (forall x, r <> Ok x) /\ (forall k, r <> Err (Unacknowledged k)).

(** What is done with an accepted frame once it is answered. *)
Lemma handed_inbox (n : N) i rx :
  co_inbox (cn_core (match i with
    | Rejected | Nothing | PathValidated _ => (n, Ok None)
    | IngestedMessage data => hand_over_whole n data None
    | IngestedData m compressed =>
        let! (n, body) := (n, slice rx HEADER_LEN (HEADER_LEN + m)) in hand_over n body compressed None
    end : N * HostResult (option (bytes * Z))).1) = co_inbox (cn_core n) ++ option_list (brings (cn_scratch n) i rx).
Proof.
  destruct i as [| |m compressed| |data]; cbn [brings option_list]; rewrite ?app_nil_r; try done.
  destruct (slice rx _ _) as [body|?|]; cbn [option_list]; rewrite ?app_nil_r; try done.
  unfold hand_over. destruct (Pipeline.deliver _ _ _ _) as [sc [[o k]|?|]]; cbn; by rewrite ?app_nil_r.
Qed.

(** One datagram: its message is in the inbox unless its answer was not sent,
    and then the call fails. *)
Lemma pump_after_inbox (n : N) datagram :
  co_inbox (cn_core (pump_after n datagram None).1) = co_inbox (cn_core n) ++ kept [(n, datagram)] /\
  (reply_sent n datagram = false -> breaks (pump_after n datagram None).2).
Proof.
  assert (Hk : kept [(n, datagram)] = option_list (if reply_sent n datagram then arrives n datagram else None))
    by (unfold kept; cbn; by case_match).
  rewrite Hk. clear Hk. unfold pump_after, reply_sent, arrives.
  destruct (Peer.ingest _ _ _ _) as [[p reply] [[i rx]|?|]]; cbn [snd]; [|by rewrite app_nil_r..].
  destruct (0 <? r_len reply).
  - unfold with_core. cbn [cn_core set_cn_core co_tx set_co_tx set_co_peer].
    destruct (slice (r_ack reply) 0 (r_len reply)) as [frame|e|] eqn:Es.
    2: { unfold slice in Es. by destruct (_ && _). }
    2: { cbn. rewrite app_nil_r. split; [done|]. by intros _; split. }
    unfold transport_send. cbn [co_world set_co_tx set_co_peer].
    destruct (UdpTransport.send (co_world (cn_core n)) frame) as [w [err|]]; cbn [snd is_some negb].
    { cbn. rewrite app_nil_r. split; [done|]. by intros _; split. }
    split; [|done]. rewrite handed_inbox. cbn [cn_core cn_scratch set_cn_core].
    by rewrite note_ingested_inbox.
  - split; [|done]. rewrite handed_inbox. cbn [cn_core cn_scratch set_cn_core].
    by rewrite note_ingested_inbox.
Qed.

Lemma kept_app l1 l2 : kept (l1 ++ l2) = kept l1 ++ kept l2.
Proof. apply omap_app. Qed.

(** No datagram that was read went unanswered, unless the call broke off. *)
Definition all_answered {A} (taken : list (N * bytes)) (r : HostResult A) : Prop :=
  forall x, x ∈ taken -> reply_sent x.1 x.2 = false -> breaks r.

Lemma pump_inbox (n : N) deadline :
  co_inbox (cn_core (pump n deadline None).1) = co_inbox (cn_core n) ++ kept (pump_taken n deadline true) /\
  all_answered (pump_taken n deadline true) (pump n deadline None).2.
Proof.
  unfold pump, pump_taken, all_answered. cbn [is_some negb].
  pose proof (pump_before_inbox n deadline true) as Hb.
  destruct (pump_before _ _ _) as [n1 [[wait|]|?|]]; cbn [fst] in Hb; rewrite <- Hb; cbn;
    [|by split; [rewrite app_nil_r|intros x Hx%elem_of_nil]..].
  pose proof (pump_read_inbox n1 wait) as Hr.
  destruct (pump_read n1 wait) as [n2 [[d|]|?|]]; cbn [fst] in Hr; rewrite <- Hr; cbn [fst snd];
    [|by split; [cbn; rewrite app_nil_r|intros x Hx%elem_of_nil]..].
  destruct (pump_after_inbox n2 d) as [Hi Hs]. split; [exact Hi|].
  intros x ->%list_elem_of_singleton. exact Hs.
Qed.

Lemma flush_loop_spec fuel (n n' : N) deadline r :
  flush_loop fuel n deadline = (n', r) ->
  co_inbox (cn_core n') = co_inbox (cn_core n) ++ kept (flush_taken fuel n deadline) /\
  all_answered (flush_taken fuel n deadline) r /\ (r = Ok (Some tt) -> idle (cn_core n') = true).
Proof.
  assert (Hnone : forall (m : N) (s : HostResult (option unit)), (s = Ok (Some tt) -> idle (cn_core m) = true) ->
    co_inbox (cn_core m) = co_inbox (cn_core m) ++ kept [] /\ all_answered [] s /\
    (s = Ok (Some tt) -> idle (cn_core m) = true))
    by (intros; split; [by rewrite app_nil_r|]; split; [intros x Hx%elem_of_nil; done|done]).
  revert n. induction fuel as [|fuel IH]; intros n; cbn [flush_loop flush_taken].
  { intros [= <- <-]. by apply Hnone. }
  pose proof (drive_queue_inbox n) as Hq. destruct (drive_queue n) as [n1 [?|?|]]; cbn [fst] in Hq; rewrite <- Hq.
  2-3: intros [= <- <-]; by apply Hnone.
  destruct (idle (cn_core n1)) eqn:Hi; cbn [orb]; [intros [= <- <-]; by apply Hnone|].
  destruct (deadline <=? now (cn_core n1)); [intros [= <- <-]; by apply Hnone|].
  destruct (pump_inbox n1 (Some deadline)) as [Hp Ha].
  destruct (pump n1 (Some deadline) None) as [n2 [got|e|]]; cbn [fst snd] in Hp, Ha; rewrite kept_app, app_assoc, <- Hp.
  - intros (Hk & Hans & Hd)%IH. split; [done|]. split; [|done].
    intros x [Hx|Hx]%elem_of_app Hs; [|by apply (Hans x)]. by destruct (proj1 (Ha x Hx Hs) got).
  - intros [= <- <-]. split; [by rewrite app_nil_r|]. rewrite app_nil_r. split; [|done].
    intros x Hx Hs. destruct (Ha x Hx Hs) as [_ Hu]. split; [done|]. intros k [= ->]. by apply (Hu k).
  - intros [= <- <-]. split; [by rewrite app_nil_r|]. rewrite app_nil_r. by split.
Qed.

(** [flush] starts its count afresh. *)
Definition begun (n : N) : N :=
  let p := co_peer (cn_core n) in
  set_cn_core n (set_co_peer (cn_core n) (Peer.with_abandoned p (p_abandoned p) (p_abandoned_unqueued p) 0)).

(** C24: a flush that succeeds left nothing outstanding, nothing queued and
    nothing given up on since it began; and it discards no message. With
    [taken] the datagrams it read while it waited, whatever its outcome the
    inbox holds afterwards what it held before, followed by the message of
    every one of them that brought one, in the order they came. The one
    exception is a message whose acknowledgement the socket would not send: the
    flush then stops with that error, never with success and never with
    [Unacknowledged], and the message is gone. *)
Theorem flush_settles fuel (n n' : N) timeout r :
  flush fuel n timeout = (n', r) ->
  let taken := flush_taken fuel (begun n) (now (cn_core n) + timeout) in
  co_inbox (cn_core n') = co_inbox (cn_core n) ++
    omap (fun x => if reply_sent x.1 x.2 then arrives x.1 x.2 else None) taken /\
  (forall x, x ∈ taken -> reply_sent x.1 x.2 = false ->
     (forall done, r <> Ok done) /\ (forall k, r <> Err (Unacknowledged k))) /\
  (r = Ok (Some tt) ->
     in_flight (cn_core n') = 0 /\ queued n' = 0 /\ p_abandoned_count (co_peer (cn_core n')) <= 0).
Proof.
  unfold flush. cbv zeta. fold (begun n). set (deadline := now _ + timeout).
  destruct (flush_loop fuel (begun n) deadline) as [n1 [d|e|]] eqn:Hl; apply flush_loop_spec in Hl as (Hk & Ha & Hd).
  2-3: intros [= <- <-]; split; [exact Hk|]; split; [|done]; intros x Hx Hs; split; [done|];
    destruct (Ha x Hx Hs) as [_ Hu]; intros k [= ->]; by apply (Hu k).
  assert (Hall : forall x, x ∈ flush_taken fuel (begun n) deadline -> reply_sent x.1 x.2 = false -> False).
  { intros x Hx Hs. by destruct (proj1 (Ha x Hx Hs) d). }
  destruct d as [[]|]; [|intros [= <- <-]; split; [exact Hk|]; split; [|done]; intros x Hx Hs; by destruct (Hall x Hx Hs)].
  destruct (0 <? p_abandoned_count _) eqn:Hc; intros [= <- <-]; (split; [exact Hk|]);
    (split; [intros x Hx Hs; by destruct (Hall x Hx Hs)|]); [done|]. intros _.
  specialize (Hd eq_refl). unfold idle in Hd. zbool. unfold queued. lia.
Qed.

(** An idle connection has nothing to wait for. *)
Lemma flush_idle fuel (n : N) timeout :
  idle (cn_core n) = true -> (flush (S fuel) n timeout).2 = Ok (Some tt).
Proof.
  intros Hi. unfold idle, in_flight, Peer.queued in Hi.
  apply andb_true_iff in Hi as [Hf%Z.eqb_eq Hq%Z.eqb_eq].
  unfold flush. cbn [flush_loop]. unfold drive_queue, with_core, Core.drive_queue, Peer.drive_queue. cbn.
  destruct (p_queue (co_peer (cn_core n))) as [|j q] eqn:Ep; [|rewrite len_cons in Hq; pose proof (len_nonneg q); lia].
  match goal with |- context [idle ?c] => assert (Hi : idle c = true) end.
  { apply andb_true_iff. split; apply Z.eqb_eq; [exact Hf|]. unfold Peer.queued. cbn. by rewrite Ep. }
  cbn in Hi |- *. by rewrite Hi.
Qed.
End flushing.

(** What [arrives] is: of a frame the peer sealed, unfragmented, for a
    connection in step with it, the data that was sealed. *)
Theorem arrives_sealed {W : Type} `{Socket W} `{CL : CryptoLaws} (z : ZstdLib) (zl : ZstdLaws z)
    (a a' : Peer) (n : Connection W) data pt mid limit tx tx' m k0 k1 :
  bytes_ok data -> PayloadType.wf pt -> is_u16 (cap_codecs (s_peer_caps (p_session a))) ->
  is_u16 (max_frame_size (s_peer_caps (p_session a))) -> framing mid None ->
  in_step k0 (p_session a) (p_session (co_peer (cn_core n))) ->
  acknowledged k1 (co_peer (cn_core n)) mid ->
  reassembly_wf (p_reassembly (co_peer (cn_core n))) ->
  PAD_BLOCK + DATA_OVERHEAD <= len (co_tx (cn_core n)) ->
  Peer.seal a data pt mid None limit tx = (a', Ok (tx', m)) ->
  arrives n (takez m tx') = Some data.
Proof.
  intros Hd Hpt Hc Hm Hf Hin Hack Hwf Htx Hs.
  destruct (peer_exchange k0 k1 a (co_peer (cn_core n)) data pt mid None limit tx a' tx' m
    (now_ms (cn_core n)) (co_tx (cn_core n))) as (b' & reply & v & rx & Hi & _ & _ & mm & cc & -> & Hsl & Hcap & Hdel);
    [done..|].
  unfold arrives. rewrite Hi. cbn [snd brings]. rewrite Hsl, Hcap.
  destruct (Hdel (cn_scratch n) (zeros (len data))) as (scratch' & out' & -> & Hdata);
    [rewrite len_zeros; pose proof (len_nonneg data); lia|]. by rewrite Hdata.
Qed.

(** ** On a concrete host *)
Record ToySock := mkToySock { ts_net : ToyNet; ts_timeout : option Z; ts_to : SocketAddr }.

Module ToySock.
Definition on (w : ToySock) (n : ToyNet) : ToySock := mkToySock n (ts_timeout w) (ts_to w).

#[global] Instance net : Net ToySock := {|
  net_send w b a := let (n, r) := ToyNet.send (ts_net w) b a in (on w n, r);
  net_recv w size t := let (n, r) := ToyNet.recv (ts_net w) size t in (on w n, r);
  net_local_addr _ := inl (SocketAddrV4 [127; 0; 0; 1] 4000);
  net_now w := tn_clock (ts_net w);
  net_random w k := let (n, r) := ToyNet.random (ts_net w) k in (on w n, r);
  net_bind w _ := (w, inl 40000);
  net_settings w := tn_settings (ts_net w);
|}.

#[global] Instance socket : Socket ToySock := {|
  sock_connect w a := (mkToySock (ts_net w) (ts_timeout w) a, None);
  sock_send w b := let (n, _) := ToyNet.send (ts_net w) b (ts_to w) in (on w n, inl (len b));
  sock_recv w size :=
    let (n, r) := ToyNet.recv (ts_net w) size (ts_timeout w) in
    (on w n, match r with inl (b, _) => inl b | inr err => inr err end);
  sock_set_read_timeout w t := (mkToySock (ts_net w) t (ts_to w), None);
  sock_try_clone w := (w, None);
  sock_peer_addr w := inl (ts_to w);
|}.

#[global] Instance clock : SocketClock ToySock.
Proof.
  split; cbn; [lia|lia|]. intros w w1 w2 t size err [= <-] Hr Ht. cbn in Hr. unfold ToyNet.recv in Hr.
  repeat case_match; simplify_eq; cbn; lia.
Qed.

Definition start (inbox : list (Z * bytes * SocketAddr)) : ToySock :=
  mkToySock (mkToyNet 1000 inbox [] 1 Settings.default) None (SocketAddrV4 [10; 0; 0; 2] 4000).

(** A connection on a session of its own making. *)
Definition connection (inbox : list (Z * bytes * SocketAddr)) `{Crypto} : Connection ToySock :=
  let w := start inbox in
  mkConnection (Core.new w (UdpTransport.new w) (toy_session 3 1200 CODECS_CORE)) 1200 (zeros 1200).
End ToySock.
#[local] Existing Instances Toy.crypto Toy.laws.
#[local] Existing Instances ToyZstd.zstd ToyZstd.laws.

Lemma connect_attempts_bounded_witness :
  (exchange_handshake 10 (ToySock.start []) [1; 2; 3] 1200).2 <> Ok None.
Proof. apply (connect_attempts_bounded (ToySock.start []) [1; 2; 3] 1200 0). Defined.

Lemma connection_delivers_witness :
  exists c' frame n' out',
    send_one (cn_core (ToySock.connection [])) [1; 2; 3] Opaque = (c', Ok tt) /\
    pump_after (ToySock.connection []) frame (Some (zeros 10)) = (n', Ok (Some (out', 3))) /\
    takez 3 out' = [1; 2; 3].
Proof.
  destruct (connection_delivers ToyZstd.zstd ToyZstd.laws (cn_core (ToySock.connection []))
    (fst (send_one (cn_core (ToySock.connection [])) [1; 2; 3] Opaque)) (ToySock.connection [])
    [1; 2; 3] Opaque (zeros 10) (zeros 32)) as (frame & n' & out' & _ & Hp & Ht & _).
  - repeat constructor; lia.
  - by vm_compute.
  - by vm_compute.
  - by vm_compute.
  - apply toy_session_in_step.
  - apply reassembly_new_wf.
  - by vm_compute.
  - by vm_compute.
  - vm_compute. reflexivity.
  - eexists (fst (send_one (cn_core (ToySock.connection [])) [1; 2; 3] Opaque)), frame, n', out'.
    split; [vm_compute; reflexivity|]. split; [exact Hp|exact Ht].
Defined.

(** A reliable message in flight, and from the peer a message of its own and
    then the acknowledgement. *)
Module Busy.
Definition from : SocketAddr := SocketAddrV4 [10; 0; 0; 2] 4000.
Definition frames (n : Connection ToySock) : list bytes := map fst (tn_outbox (ts_net (co_world (cn_core n)))).
Definition sent : Connection ToySock := fst (send_reliable (ToySock.connection []) [1; 2; 3] Opaque).
Definition peer : Connection ToySock :=
  let n := fst (send (ToySock.connection []) [7; 8] Opaque) in
  fst (pump_after n (default [] (head (frames sent))) (Some (zeros 10))).
Definition waiting : Connection ToySock :=
  fst (send_reliable (ToySock.connection (map (fun f => (1001, f, from)) (frames peer))) [1; 2; 3] Opaque).
Definition flushed := flush 5 waiting 1000.
End Busy.

Lemma flush_settles_witness :
  unacknowledged Busy.waiting = 1 /\ Busy.flushed.2 = Ok (Some tt) /\
  co_inbox (cn_core Busy.flushed.1) = [[7; 8]] /\
  co_inbox (cn_core Busy.flushed.1) = co_inbox (cn_core Busy.waiting) ++
    omap (fun x => if reply_sent x.1 x.2 then arrives x.1 x.2 else None)
      (flush_taken 5 (begun Busy.waiting) (now (cn_core Busy.waiting) + 1000)) /\
  in_flight (cn_core Busy.flushed.1) = 0.
Proof.
  destruct (flush_settles 5 Busy.waiting _ 1000 _ (surjective_pairing _)) as (Hl & _ & Hd).
  split; [vm_compute; reflexivity|]. split; [vm_compute; reflexivity|]. split; [vm_compute; reflexivity|].
  split; [exact Hl|]. apply Hd. vm_compute. reflexivity.
Defined.

(** A reliable message to a peer that never answers, given up on while the
    caller waits in [recv]. *)
Module Lost.
Definition sent : Connection ToySock := fst (send_reliable (ToySock.connection []) [1; 2; 3] Opaque).
Definition waited : Connection ToySock := fst (recv 60 (set_read_timeout sent (Some 60000)) (zeros 100)).
End Lost.

(** [flush] reports success for a message that was given up on. A message
    abandoned while the application waits in [recv], which nothing else
    reports, is counted, and the count is cleared when [flush] begins. *)
Example flush_forgets_abandoned :
  unacknowledged Lost.sent = 1 /\
  p_abandoned_count (co_peer (cn_core Lost.waited)) = 1 /\
  (flush 1 Lost.waited 1000).2 = Ok (Some tt).
Proof.
  split; [vm_compute; reflexivity|]. split; [vm_compute; reflexivity|].
  apply flush_idle. vm_compute. reflexivity.
Qed.

(** ** A socket whose sends may fail *)
Record FlakySock := mkFlakySock { fk_sock : ToySock; fk_faults : list bool }.

Module FlakySock.
Definition on (w : FlakySock) (s : ToySock) : FlakySock := mkFlakySock s (fk_faults w).

#[global] Instance net : Net FlakySock := {|
  net_send w b a := let (s, r) := net_send (fk_sock w) b a in (on w s, r);
  net_recv w size t := let (s, r) := net_recv (fk_sock w) size t in (on w s, r);
  net_local_addr w := net_local_addr (fk_sock w);
  net_now w := net_now (fk_sock w);
  net_random w k := let (s, r) := net_random (fk_sock w) k in (on w s, r);
  net_bind w a := let (s, r) := net_bind (fk_sock w) a in (on w s, r);
  net_settings w := net_settings (fk_sock w);
|}.

#[global] Instance socket : Socket FlakySock := {|
  sock_connect w a := let (s, r) := sock_connect (fk_sock w) a in (on w s, r);
  sock_send w b :=
    match fk_faults w with
    | true :: faults => (mkFlakySock (fk_sock w) faults, inr OtherIo)
    | _ => let (s, r) := sock_send (fk_sock w) b in (mkFlakySock s (tail (fk_faults w)), r)
    end;
  sock_recv w size := let (s, r) := sock_recv (fk_sock w) size in (on w s, r);
  sock_set_read_timeout w t := let (s, r) := sock_set_read_timeout (fk_sock w) t in (on w s, r);
  sock_try_clone w := (w, None);
  sock_peer_addr w := sock_peer_addr (fk_sock w);
|}.
End FlakySock.

(** A reliable message and its retransmission reach a connection whose socket
    refuses the first thing it is given to send. *)
Module Unanswered.
Definition sender : Connection ToySock := fst (flush 3 Busy.sent 3000).
Definition receiver : Connection FlakySock :=
  let w := mkFlakySock (ToySock.start (map (fun f => (1001, f, Busy.from)) (take 2 (Busy.frames sender)))) [true] in
  set_read_timeout (mkConnection (Core.new w (UdpTransport.new w) (toy_session 3 1200 CODECS_CORE)) 1200 (zeros 1200))
    (Some 50).
Definition first := recv 5 receiver (zeros 10).
Definition second := recv 5 (fst first) (zeros 10).
Definition acks : list bytes := map fst (tn_outbox (ts_net (fk_sock (co_world (cn_core (fst second)))))).
End Unanswered.

(** An acknowledged message that is never delivered. The first [recv] accepts
    the message, cannot send its acknowledgement and fails with that error,
    dropping the message; the retransmission is then a duplicate, so the second
    [recv] acknowledges it and waits in vain, and the sender counts the message
    as delivered. *)
Example unsent_ack_loses_message :
  Unanswered.first.2 = Err Io /\ co_inbox (cn_core Unanswered.first.1) = [] /\
  Unanswered.second.2 = Err Io /\ len Unanswered.acks = 1 /\
  unacknowledged Unanswered.sender = 1 /\
  unacknowledged (fst (pump_after Unanswered.sender (default [] (head Unanswered.acks)) None)) = 0.
Proof. vm_compute. done. Qed.
