(* ===== verification/ConnectionNumbers.v ===== *)
(** * The numbers on a connection's datagrams (crates/fectp/src/pipeline.rs, lib.rs)

    A frame's sequence number is the AEAD nonce it was sealed with. Each section
    below shows that one layer hands the socket only frames sealed during the
    call, each under a number of its own, and moves the session's counter past
    all of them. *)
From stdpp Require Import gmap.
From S2P Require Import Prelude Bytes Error Frame Fragment Codec Reliability RetransmitQueue.
From S2P Require Import Cipher Symmetric Handshake Session Connect Compress Reassembly Tickets Pmtu.
From S2P Require Import Pipeline Control Udp EndpointState Endpoint Connection.

(** ** Fresh numbers *)

(** From counter [q] to [q'] the datagrams handed over grew from [l] to [l'] by
    frames numbered in between, no number twice. *)
Definition fresh (q : Z) (l : list bytes) (q' : Z) (l' : list bytes) : Prop :=
  is_u64 q -> is_u64 q' /\ q <= q' /\
  exists new, l' = l ++ new /\ Forall (fun f => q <= frame_sequence f < q') new /\
    NoDup (map frame_sequence new).

Lemma fresh_refl q l : fresh q l q l.
Proof. intros Hq. split; [done|]. split; [done|]. exists []. rewrite app_nil_r. by repeat constructor. Qed.

Lemma fresh_if q l q' l' : (is_u64 q -> fresh q l q' l') -> fresh q l q' l'.
Proof. intros Hf Hq. by apply Hf. Qed.

(** Two lists numbered in ranges that do not meet. *)
Lemma numbers_apart lo mid hi (l1 l2 : list bytes) :
  Forall (fun f => lo <= frame_sequence f < mid) l1 -> Forall (fun f => mid <= frame_sequence f < hi) l2 ->
  NoDup (map frame_sequence l1) -> NoDup (map frame_sequence l2) -> lo <= mid <= hi ->
  Forall (fun f => lo <= frame_sequence f < hi) (l1 ++ l2) /\ NoDup (map frame_sequence (l1 ++ l2)).
Proof.
  intros H1 H2 D1 D2 Hle. split.
  - apply Forall_app. split; [revert H1|revert H2]; apply List.Forall_impl; intros; lia.
  - rewrite map_app. apply list.NoDup_app. split; [done|]. split; [|done].
    intros x Hx Hy. apply list_elem_of_fmap in Hx as (f & -> & Hf).
    apply list_elem_of_fmap in Hy as (g & E & Hg).
    rewrite Forall_forall in H1, H2. apply list_elem_of_In in Hf, Hg.
    specialize (H1 f Hf). specialize (H2 g Hg). lia.
Qed.

Lemma fresh_trans q1 l1 q2 l2 q3 l3 : fresh q1 l1 q2 l2 -> fresh q2 l2 q3 l3 -> fresh q1 l1 q3 l3.
Proof.
  intros H12 H23 Hq. destruct (H12 Hq) as (Hq2 & Hle & n1 & -> & Hf1 & Hd1).
  destruct (H23 Hq2) as (Hq3 & Hle' & n2 & -> & Hf2 & Hd2). split; [done|]. split; [lia|].
  exists (n1 ++ n2). split; [by rewrite app_assoc|]. by apply (numbers_apart q1 q2 q3).
Qed.

(** Numbers fresh from here on are distinct from those already used. *)
Lemma fresh_distinct q l q' l' :
  is_u64 q -> fresh q l q' l' -> Forall (fun f => 0 <= frame_sequence f < q) l ->
  NoDup (map frame_sequence l) ->
  Forall (fun f => 0 <= frame_sequence f < q') l' /\ NoDup (map frame_sequence l').
Proof.
  intros Hq Hf Hl Hd. destruct (Hf Hq) as (_ & Hle & new & -> & Hn & Hdn).
  apply (numbers_apart 0 q q'); done || lia.
Qed.

(** ** Sealing *)

(** The outcome of a seal: the counter and the frame, or the counter as it was. *)
Definition numbered {E} (q q' : Z) (r : result E (bytes * Z)) : Prop :=
  match r with
  | Ok (out, n) =>
      q <> U64_MAX /\ q' = q + 1 /\ frame_sequence out = q /\ HEADER_LEN <= n
  | _ => q' = q
  end.

(** The number is in the header, so in every frame cut from the buffer. *)
Lemma frame_sequence_takez n b : HEADER_LEN <= n -> frame_sequence (takez n b) = frame_sequence b.
Proof.
  intros Hn. unfold frame_sequence. f_equal. apply (chunk_takez 8 6); clia.
Qed.

Section sealing.
Context `{Crypto} `{ZstdLib}.

Lemma seal_numbered s t payload mid frag fl padding out :
  is_u64 (s_send_seq s) ->
  let (s', r) := Session.seal_frame_padded s t payload mid frag fl padding out in
  numbered (s_send_seq s) (s_send_seq s') r.
Proof.
  intros Hs. pose proof (seal_cases s t payload mid frag fl padding out Hs) as Hc.
  destruct (Session.seal_frame_padded _ _ _ _ _ _ _ _) as [s' [[out' n]|e|]] eqn:E; [|done..].
  destruct Hc as (? & ? & ?). repeat split; try done. clear - E.
  unfold Session.seal_frame_padded in E. repeat step_in E.
  match goal with H : slice _ HEADER_LEN _ = Ok ?b |- _ =>
    apply slice_inv in H as (p & q & _ & Hp & Hm); pose proof (len_nonneg b) end. lia.
Qed.

Lemma numbered_map {E F} (f : E -> F) q q' (r : result E (bytes * Z)) :
  numbered q q' r -> numbered q q' (map_err f r).
Proof. by destruct r as [[]|e|]. Qed.

Lemma seal_session_numbered s payload mid frag fl tx :
  is_u64 (s_send_seq s) ->
  let (s', r) := Peer.seal_session s payload mid frag fl tx in
  numbered (s_send_seq s) (s_send_seq s') r.
Proof.
  intros Hs. unfold Peer.seal_session, Session.seal_fragment, Session.seal_reliable, Session.seal, Session.seal_frame.
  set (x := match mid with Some _ => _ | None => _ end).
  assert (let (s', r) := x in numbered (s_send_seq s) (s_send_seq s') r) as Hx.
  { subst x. destruct mid; [destruct frag|]; by apply seal_numbered. }
  destruct x as [s' r]. by apply numbered_map.
Qed.

Lemma peer_seal_numbered p data pt mid frag limit tx :
  is_u64 (s_send_seq (p_session p)) ->
  let (p', r) := Peer.seal p data pt mid frag limit tx in
  numbered (s_send_seq (p_session p)) (s_send_seq (p_session p')) r.
Proof.
  intros Hp. unfold Peer.seal.
  destruct (Peer.attempt_coding p data pt _) as [p1 r] eqn:Ea.
  apply attempt_coding_session in Ea as [Es _]. rewrite <- Es in Hp |- *. clear Es.
  assert (forall p2 payload fl, p_session p2 = p_session p1 ->
    let (p', r) := (let (s, r) := Peer.seal_session (p_session p2) payload mid frag fl tx in
                    (Peer.with_session p2 s, r)) in
    numbered (s_send_seq (p_session p1)) (s_send_seq (p_session p')) r) as Hseal.
  { intros p2 payload fl E. rewrite <- E in Hp |- *.
    pose proof (seal_session_numbered (p_session p2) payload mid frag fl tx Hp) as Hn.
    by destruct (Peer.seal_session _ _ _ _ _ _) as [s r']. }
  destruct r as [[[header n]|]|e|]; [|destruct (_ <? _); [done|by apply Hseal]|done..].
  destruct (_ <=? _); [|destruct (_ <? _); [done|by apply Hseal]].
  destruct (map_err Protocol (CodecHeader.encode _ _)) as [sec|e|]; [|done..].
  destruct (slice _ _ _) as [coded|e|]; [|done..].
  destruct (copy_range _ _ _ _) as [sec'|e|]; [|done..].
  destruct (slice sec' _ _) as [payload|e|]; [|done..]. by apply Hseal.
Qed.

Lemma open_keeps_numbers s frame : s_send_seq (Session.open s frame).1 = s_send_seq s.
Proof.
  destruct (Session.open s frame) as [s' r] eqn:E. unfold Session.open in E.
  repeat step_in E; try done; by case_match.
Qed.
End sealing.

(** ** Sealing and sending *)

(** A frame sealed and perhaps handed over. *)
Lemma numbered_sent {E} q q' (r : result E (bytes * Z)) l out n :
  numbered q q' r -> r = Ok (out, n) -> fresh q l q' (l ++ [takez n out]).
Proof.
  intros Hn -> Hq. destruct Hn as (Hmax & -> & Hs & Hle). unfold U64_MAX in Hmax.
  split; [lia|]. split; [lia|]. exists [takez n out]. split; [done|].
  split; [constructor; [rewrite frame_sequence_takez by done; lia|constructor]|].
  apply NoDup_singleton.
Qed.

Lemma numbered_kept {E} q q' (r : result E (bytes * Z)) l : numbered q q' r -> fresh q l q' l.
Proof.
  intros Hn Hq. assert (is_u64 q' /\ q <= q') as [? ?].
  { destruct r as [[out n]|e|]; cbn in Hn; [|subst; lia..]. unfold U64_MAX in *. lia. }
  do 2 (split; [done|]). exists []. rewrite app_nil_r. by repeat constructor.
Qed.

Lemma slice_takez {E} (l : bytes) n f : slice (E := E) l 0 n = Ok f -> f = takez n l.
Proof. intros Es. unfold slice in Es. repeat step_in Es. by rewrite dropz_0, Z.sub_0_r by lia. Qed.

Section driving.
Context `{Crypto} `{ZstdLib} {T : Type} (send : T -> bytes -> T * HostResult unit).
Context (sent : T -> list bytes).
Context (Hsend : forall w f, sent (send w f).1 = sent w ++ [f]).

Definition driver_fresh (d d' : Driving T) : Prop :=
  fresh (s_send_seq (p_session (d_peer d))) (sent (d_world d))
        (s_send_seq (p_session (d_peer d'))) (sent (d_world d')).

#[local] Instance driver_fresh_preorder : PreOrder driver_fresh.
Proof. split; [intros d; apply fresh_refl|intros d1 d2 d3; apply fresh_trans]. Qed.

Lemma driver_same (d d' : Driving T) :
  s_send_seq (p_session (d_peer d')) = s_send_seq (p_session (d_peer d)) -> d_world d' = d_world d ->
  driver_fresh d d'.
Proof. intros E1 E2. unfold driver_fresh. rewrite E1, E2. apply fresh_refl. Qed.

Lemma seal_and_send_fresh d data pt mid frag limit :
  driver_fresh d (Peer.seal_and_send send d data pt mid frag limit).1.
Proof.
  apply fresh_if. intros Hq.
  pose proof (peer_seal_numbered (d_peer d) data pt mid frag limit (d_tx d) Hq) as Hn. clear Hq.
  unfold Peer.seal_and_send. destruct (Peer.seal _ _ _ _ _ _ _) as [p r].
  destruct r as [[out n]|e|] eqn:Er; [|by apply (numbered_kept _ _ _ _ Hn)..]. cbn [fst snd d_tx d_world].
  destruct (slice out 0 n) as [f|e|] eqn:Es; [|by apply (numbered_kept _ _ _ _ Hn)..].
  apply slice_takez in Es as ->.
  pose proof (Hsend (d_world d) (takez n out)) as Hl.
  cbn [Peer.with_peer d_world d_peer]. destruct (send (d_world d) (takez n out)) as [w res]. cbn [fst d_world d_peer] in *.
  rewrite Hl. exact (numbered_sent _ _ _ _ _ _ Hn eq_refl).
Qed.

Lemma feed_fresh fuel t d job rest : driver_fresh d (Peer.feed send fuel t d job rest).1.
Proof.
  revert d job. induction fuel as [|fuel IH]; intros d job; [done|]. cbn [Peer.feed].
  destruct (_ || _); [done|]. destruct (RetransmitQueue.register _ _) as [q r].
  set (d1 := Peer.with_peer d _). assert (driver_fresh d d1) as H1 by by apply driver_same.
  destruct r as [id|e|]; [|by destruct e|done].
  pose proof (seal_and_send_fresh d1) as Hs. clearbody d1. etrans; [exact H1|]. unfold Peer.feed_one.
  destruct (slice _ _ _) as [chunk|e|]; [|done..].
  match goal with |- context [Peer.seal_and_send send d1 ?a ?b ?c ?e ?f] => specialize (Hs a b c e f);
    destruct (Peer.seal_and_send send d1 a b c e f) as [d2 [[]|er|]] end; cbn [fst] in *; [|done..].
  etrans; [exact Hs|]. etrans; [|apply IH]. by apply driver_same.
Qed.

Lemma drive_queue_fresh d t : driver_fresh d (Peer.drive_queue send d t).1.
Proof.
  unfold Peer.drive_queue. destruct (p_queue _) as [|job rest]; [by apply driver_same|].
  match goal with |- context [Peer.feed send ?n t ?d1 ?j rest] =>
    pose proof (feed_fresh n t d1 j rest) as Hf;
    assert (driver_fresh d d1) as H1 by (by apply driver_same);
    destruct (Peer.feed send n t d1 j rest) as [d2 [job'|e|]] end; cbn [fst] in *; [|by etrans..].
  etrans; [exact H1|]. etrans; [exact Hf|]. destruct (negb _); by apply driver_same.
Qed.

Lemma drive_items_fresh d items : driver_fresh d (Peer.drive_items send d items).1.
Proof.
  revert d. induction items as [|[id|id] items IH]; intros d; [done|..]; cbn [Peer.drive_items].
  - unfold Peer.resend. destruct (list_find _ _) as [[i pd]|]; [|apply IH].
    match goal with |- context [Peer.seal_and_send send d ?a ?b ?c ?e ?f] =>
      pose proof (seal_and_send_fresh d a b c e f) as Hs;
      destruct (Peer.seal_and_send send d a b c e f) as [d2 [[]|er|]] end; cbn [fst] in *; [|done..].
    etrans; [exact Hs|apply IH].
  - etrans; [|apply IH]. by apply driver_same.
Qed.

Lemma drive_retransmits_fresh d t : driver_fresh d (Peer.drive_retransmits send d t).1.
Proof.
  unfold Peer.drive_retransmits. destruct (RetransmitQueue.poll _ _ _) as [[q due] count].
  etrans; [|apply drive_items_fresh]. by apply driver_same.
Qed.
End driving.

(** ** Answering *)

(** The reply [ingest] leaves, as the outcome of a seal. *)
Definition reply_of (reply : Reply) : result unit (bytes * Z) :=
  if 0 <? r_len reply then Ok (r_ack reply, r_len reply) else Err tt.

Section answering.
Context `{Crypto} `{ZstdLib}.

Lemma ingest_fragment_session p f body cc : p_session (Peer.ingest_fragment p f body cc).1 = p_session p.
Proof.
  unfold Peer.ingest_fragment. destruct (Pipeline.deliver _ _ _ _) as [s [[piece n]|e|]]; [|done..].
  by destruct (Reassembly.accept _ _ _) as [r [[]|e|]].
Qed.

Lemma apply_ack_session p ack t : p_session (Peer.apply_ack p ack t) = p_session p.
Proof.
  unfold Peer.apply_ack. destruct (RetransmitQueue.on_ack _ _ _ _) as [[q acked] count].
  generalize (takez count acked) as l. intros l.
  assert (forall p0 : Peer, p_session p0 = p_session p ->
    p_session (fold_left (fun p id => Peer.with_pending p (filter (fun pd => pd_id pd <> id) (p_pending p))) l p0)
    = p_session p) as Hf; [|by apply Hf].
  induction l as [|id l IH]; intros p0 E; [done|]. by apply IH.
Qed.

Lemma seal_ack_numbered s ack out :
  is_u64 (s_send_seq s) ->
  let (s', r) := Session.seal_ack s ack out in numbered (s_send_seq s) (s_send_seq s') r.
Proof.
  intros Hs. unfold Session.seal_ack. destruct (Ack.encode _ _) as [block|e|]; [|done..].
  by apply seal_numbered.
Qed.

(** A sealed reply of at least a header's length is one the caller sends. *)
Lemma numbered_reply q q' (r : Result (bytes * Z)) out n :
  numbered q q' r -> r = Ok (out, n) -> numbered q q' (reply_of (mkReply out n)).
Proof.
  intros Hn ->. unfold reply_of. cbn [r_len r_ack]. pose proof Hn as (_ & _ & _ & Hle).
  rewrite (proj2 (Z.ltb_lt _ _)) by clia. exact Hn.
Qed.

(** What a path of [ingest] did to the session, from the equations of that path. *)
Ltac ingest_path :=
  repeat match goal with
  | H : Peer.ingest_fragment ?p ?f ?b ?c = (_, _) |- _ =>
      pose proof (ingest_fragment_session p f b c); rewrite H in *; clear H
  | H : Session.seal_ack ?s ?a ?o = (_, _), Hq : is_u64 (s_send_seq ?s) |- _ =>
      pose proof (seal_ack_numbered s a o Hq); rewrite H in *; clear H
  | H : Session.seal_path_response ?s ?t ?o = (_, _), Hq : is_u64 (s_send_seq ?s) |- _ =>
      pose proof (seal_numbered s PathResponse t None None 0 PadNone o Hq);
      unfold Session.seal_path_response in H; rewrite H in *; clear H
  end.

Lemma ingest_numbered p frame t ack :
  is_u64 (s_send_seq (p_session p)) ->
  let '(p', reply, _) := Peer.ingest p frame t ack in
  numbered (s_send_seq (p_session p)) (s_send_seq (p_session p')) (reply_of reply).
Proof.
  intros Hp. destruct (Peer.ingest p frame t ack) as [[p' reply] r] eqn:E. unfold Peer.ingest in E.
  pose proof (open_keeps_numbers (p_session p) frame) as Ho. destruct (Session.open _ _) as [s ro].
  cbn [fst] in Ho. rewrite <- Ho in Hp |- *. clear Ho.
  repeat step_in E; cbn [Peer.with_session Peer.with_dedup p_session] in *; ingest_path;
    cbn [fst Peer.with_session Peer.with_dedup p_session] in *; try done.
  all: rewrite ?apply_ack_session; try match goal with H : p_session ?p = _ |- _ => rewrite H end.
  all: first [done | eapply numbered_reply; [eassumption|reflexivity]].
Qed.
End answering.

(** ** The connection *)

(** A socket whose every datagram can be told afterwards: [sent] grows by what
    is handed to [sock_send] and by nothing else. *)
Class SocketLog (W : Type) `{Socket W} := {
  sent : W -> list bytes;
  sent_send (w : W) d : sent (sock_send w d).1 = sent w ++ [d];
  sent_random (w : W) n : sent (net_random w n).1 = sent w;
  sent_timeout (w : W) t : sent (sock_set_read_timeout w t).1 = sent w;
  sent_recv (w : W) n : sent (sock_recv w n).1 = sent w;
}.

Section connection.
Context {W : Type} `{SL : SocketLog W} `{Crypto} `{ZstdLib}.
Import Core.
Implicit Types c : Core W.

Definition core_seq c : Z := s_send_seq (p_session (co_peer c)).
Definition core_sent c : list bytes := sent (co_world c).
Definition core_fresh c c' : Prop := fresh (core_seq c) (core_sent c) (core_seq c') (core_sent c').

#[export] Instance core_fresh_preorder : PreOrder core_fresh.
Proof. split; [intros c; apply fresh_refl|intros c1 c2 c3; apply fresh_trans]. Qed.

Lemma core_same c c' : core_seq c' = core_seq c -> core_sent c' = core_sent c -> core_fresh c c'.
Proof. intros E1 E2. unfold core_fresh. rewrite E1, E2. apply fresh_refl. Qed.

Lemma udp_send_log (w : W) d : sent (UdpTransport.send w d).1 = sent w ++ [d].
Proof. unfold UdpTransport.send. pose proof (sent_send w d) as Hs. by destruct (sock_send w d) as [w' [n|e]]. Qed.

Lemma transport_send_log c f :
  core_seq (transport_send c f).1 = core_seq c /\ core_sent (transport_send c f).1 = core_sent c ++ [f].
Proof.
  unfold transport_send, core_sent. pose proof (udp_send_log (co_world c) f) as Hs.
  by destruct (UdpTransport.send _ _) as [w' err].
Qed.

(** A core that has sealed a frame into its buffer, and the transmission of it. *)
Lemma sealed_sent {E} c0 c q (r : result E (bytes * Z)) out n :
  core_sent c = core_sent c0 -> core_seq c = q -> numbered (core_seq c0) q r -> r = Ok (out, n) ->
  core_fresh c0 (transport_send c (takez n out)).1.
Proof.
  intros Hl <- Hn Hr. destruct (transport_send_log c (takez n out)) as [E1 E2].
  unfold core_fresh. rewrite E1, E2, Hl. exact (numbered_sent _ _ _ _ _ _ Hn Hr).
Qed.

Lemma transmit_fresh {E} c0 c q (r : result E (bytes * Z)) out n :
  core_sent c = core_sent c0 -> core_seq c = q -> co_tx c = out -> numbered (core_seq c0) q r ->
  r = Ok (out, n) -> core_fresh c0 (transmit c n).1.
Proof.
  intros Hl Hq Htx Hn Hr. unfold transmit. rewrite Htx.
  destruct (slice out 0 n) as [f|e|] eqn:Es.
  - apply slice_takez in Es as ->. pose proof (sealed_sent c0 c q r out n Hl Hq Hn Hr) as Hs.
    by destruct (transport_send c (takez n out)) as [c1 [[]|e|]].
  - unfold core_fresh. cbn [fst]. rewrite Hl, Hq. by apply (numbered_kept _ _ _ _ Hn).
  - unfold core_fresh. cbn [fst]. rewrite Hl, Hq. by apply (numbered_kept _ _ _ _ Hn).
Qed.

Lemma core_seal_numbered c data pt mid :
  is_u64 (core_seq c) ->
  let (c', r) := Core.seal c data pt mid in
  core_sent c' = core_sent c /\
  exists q out, core_seq c' = q /\
    match r with
    | Ok n => co_tx c' = out /\ numbered (E := unit) (core_seq c) q (Ok (out, n))
    | _ => q = core_seq c
    end.
Proof.
  intros Hq. unfold Core.seal.
  pose proof (peer_seal_numbered (co_peer c) data pt mid None (limit c) (co_tx c) Hq) as Hn.
  destruct (Peer.seal _ _ _ _ _ _ _) as [p [[out n]|e|]]; (split; [done|]).
  - by exists (s_send_seq (p_session p)), out.
  - by exists (s_send_seq (p_session p)), [].
  - by exists (s_send_seq (p_session p)), [].
Qed.

Lemma send_one_fresh c data pt : core_fresh c (send_one c data pt).1.
Proof.
  apply fresh_if. intros Hq. unfold send_one. pose proof (core_seal_numbered c data pt None Hq) as Hn.
  destruct (Core.seal c data pt None) as [c1 r]. destruct Hn as (Hl & q & out & Eq & Hr).
  destruct r as [n|e|]; [|apply core_same; cbn; congruence..]. destruct Hr as [Htx Hn].
  exact (transmit_fresh c c1 q _ out n Hl Eq Htx Hn eq_refl).
Qed.

Lemma send_one_reliable_fresh c data pt : core_fresh c (send_one_reliable c data pt).1.
Proof.
  unfold send_one_reliable. destruct (negb _); [done|].
  destruct (RetransmitQueue.register _ _) as [q r]. set (c0 := set_co_peer c _).
  assert (core_fresh c c0) as Hc by by apply core_same. clearbody c0. etrans; [exact Hc|]. clear Hc.
  destruct (map_err Protocol r) as [id|e|]; [|done..].
  apply fresh_if. intros Hq. pose proof (core_seal_numbered c0 data pt (Some id) Hq) as Hn.
  destruct (Core.seal c0 data pt (Some id)) as [c1 r1]. destruct Hn as (Hl & q' & out & Eq & Hr).
  destruct r1 as [n|e|]; [|apply core_same; cbn; congruence..]. destruct Hr as [Htx Hn].
  pose proof (transmit_fresh c0 c1 q' _ out n Hl Eq Htx Hn eq_refl) as Ht.
  by destruct (transmit c1 n) as [c2 [[]|e|]].
Qed.

Lemma keepalive_fresh c : core_fresh c (send_keepalive c).1.
Proof.
  apply fresh_if. intros Hq. unfold send_keepalive. pose proof (sent_random (co_world c) PATH_TOKEN_LEN) as Hw.
  destruct (net_random _ _) as [w token]. unfold Peer.challenge, Session.seal_path_challenge.
  pose proof (seal_numbered (p_session (co_peer c)) PathChallenge token None None 0 PadNone (co_tx c) Hq) as Hn.
  cbn [set_co_world co_peer co_tx].
  destruct (Session.seal_frame_padded _ _ _ _ _ _ _ _) as [s [[out n]|e|]]; [|by apply core_same..].
  cbn [map_err fst snd]. by eapply transmit_fresh; [exact Hw|..|exact Hn|].
Qed.

Lemma send_probe_fresh c s : core_fresh c (send_probe c s).
Proof.
  apply fresh_if. intros Hq. unfold send_probe, Peer.probe, Session.seal_path_probe.
  destruct (_ <? _); [by apply core_same|].
  match goal with |- context [Session.seal_frame_padded ?x ?t ?p ?m ?f ?l ?d ?o] =>
    pose proof (seal_numbered x t p m f l d o Hq) as Hn;
    destruct (Session.seal_frame_padded x t p m f l d o) as [s' [[out n]|e|]] end; [|by apply core_same..].
  cbn [map_err]. set (c1 := set_co_tx _ out).
  pose proof (sealed_sent c c1 (core_seq c1) _ out n eq_refl eq_refl Hn eq_refl) as Hs.
  by destruct (transport_send c1 (takez n out)) as [c2 [[]|e|]].
Qed.

Lemma draw_tokens_log (w : W) sizes : sent (Endpoint.draw_tokens w sizes).1 = sent w.
Proof.
  revert w. induction sizes as [|x sizes IH]; intros w; [done|]. cbn [Endpoint.draw_tokens].
  pose proof (sent_random w PATH_TOKEN_LEN) as Hw. destruct (net_random w PATH_TOKEN_LEN) as [w1 token].
  specialize (IH w1). destruct (Endpoint.draw_tokens w1 sizes) as [w2 rest]. cbn in *. congruence.
Qed.

Lemma drive_pmtu_fresh c : core_fresh c (drive_pmtu c).
Proof.
  unfold drive_pmtu. destruct (negb _); [done|]. destruct (co_pmtu c) as [pmtu|]; [|done].
  pose proof (draw_tokens_log (co_world c) (Endpoint.search_sizes pmtu (now c))) as Hw.
  destruct (Endpoint.draw_tokens _ _) as [w tokens]. destruct (Pmtu.due _ _ _ _) as [pm sends].
  set (c1 := set_co_pmtu _ _). assert (core_fresh c c1) as Hc by by apply core_same.
  clearbody c1. etrans; [exact Hc|]. clear Hc Hw.
  revert c1. induction sends as [|s sends IH]; intros c1; [done|]. cbn [fold_left].
  etrans; [apply send_probe_fresh|apply IH].
Qed.

(** ** The drivers' closure *)
Definition wire_log (s : Core.Wire W) : list bytes := sent (wi_world s).

Lemma wire_send_log t (s : Core.Wire W) f : wire_log (wire_send t s f).1 = wire_log s ++ [f].
Proof.
  unfold wire_send, wire_log. pose proof (udp_send_log (wi_world s) f) as Hl.
  destruct (UdpTransport.send _ _) as [w [err|]]; [|done]. by destruct (is_too_long err).
Qed.

Lemma driven_fresh c d : driver_fresh wire_log (driving c) d -> core_fresh c (driven c d).
Proof. done. Qed.

Lemma drive_retransmits_core_fresh c : core_fresh c (drive_retransmits c).1.
Proof.
  unfold drive_retransmits.
  pose proof (drive_retransmits_fresh (wire_send (now_ms c)) wire_log (wire_send_log _) (driving c) (now_ms c)) as Hd.
  destruct (Peer.drive_retransmits _ _ _) as [d r]. apply driven_fresh in Hd.
  destruct r as [[]|e|]; [|done..]. by destruct (wi_large _).
Qed.

Lemma drive_queue_core_fresh c : core_fresh c (Core.drive_queue c).1.
Proof.
  unfold Core.drive_queue.
  pose proof (drive_queue_fresh (wire_send (now_ms c)) wire_log (wire_send_log _) (driving c) (now_ms c)) as Hd.
  destruct (Peer.drive_queue _ _ _) as [d r]. apply driven_fresh in Hd. by destruct r as [x|e|].
Qed.

(** ** The critical sections *)
Implicit Types n : Connection W.
Definition conn_fresh n n' : Prop := core_fresh (cn_core n) (cn_core n').

#[export] Instance conn_fresh_preorder : PreOrder conn_fresh.
Proof. split; [intros n; apply fresh_refl|intros n1 n2 n3; apply fresh_trans]. Qed.

Lemma with_core_fresh {A} n (f : Core W -> Core W * HostResult A) :
  core_fresh (cn_core n) (f (cn_core n)).1 -> conn_fresh n (Connection.with_core n f).1.
Proof. unfold Connection.with_core, conn_fresh. by destruct (f (cn_core n)). Qed.

Lemma drive_queue_conn_fresh n : conn_fresh n (Connection.drive_queue n).1.
Proof. apply with_core_fresh, drive_queue_core_fresh. Qed.

Lemma queue_message_session p data pt lim : p_session (Peer.queue_message p data pt lim).1 = p_session p.
Proof. unfold Peer.queue_message. by repeat case_match. Qed.

Lemma pump_turn_fresh n deadline flushing : conn_fresh n (Connection.pump_turn n deadline flushing).1.
Proof.
  apply with_core_fresh. pose proof (drive_retransmits_core_fresh (cn_core n)) as Hr.
  destruct (drive_retransmits (cn_core n)) as [c1 [[]|e|]]; [|done..]. cbn [fst] in Hr.
  destruct (_ && _); [done|]. etrans; [exact Hr|]. clear Hr.
  assert (forall m : Core W * HostResult unit, core_fresh c1 m.1 ->
    core_fresh c1 (let! (c, _) := m in
      let c := drive_pmtu c in (c, Ok (Some (Connection.wait_for c deadline)))).1) as Hm.
  { intros [c2 [[]|e|]] Hc; [|done..]. cbn [fst] in *. etrans; [exact Hc|apply drive_pmtu_fresh]. }
  apply Hm. destruct (keepalive_due_ms c1) as [at_|]; [|done].
  destruct (_ <=? _); [apply keepalive_fresh|done].
Qed.

Lemma pump_read_fresh n wait : conn_fresh n (Connection.pump_read n wait).1.
Proof.
  unfold Connection.pump_read. pose proof (sent_timeout (co_world (cn_core n)) (Z.max 1 <$> wait)) as Ht.
  destruct (sock_set_read_timeout _ _) as [w err]. cbn [fst] in Ht.
  destruct (is_some err); [by apply core_same|]. pose proof (sent_recv w (cn_rx_size n)) as Hr.
  destruct (sock_recv w _) as [w' received]. apply core_same; [done|]. unfold core_sent. cbn in *. congruence.
Qed.

Lemma note_ingested_same c i : core_fresh c (Connection.note_ingested c i).
Proof. unfold Connection.note_ingested. apply core_same; by repeat case_match. Qed.

Lemma hand_over_fresh n body cc out : conn_fresh n (Connection.hand_over n body cc out).1.
Proof.
  unfold Connection.hand_over. destruct out as [out|];
    destruct (Pipeline.deliver _ _ _ _) as [s [[o m]|e|]]; by apply core_same.
Qed.

Lemma hand_over_whole_fresh n data out : conn_fresh n (Connection.hand_over_whole n data out).1.
Proof.
  unfold Connection.hand_over_whole. destruct out as [out|]; [|by apply core_same].
  case_match; [done|]. by destruct (copy_range _ _ _ _).
Qed.

(** The end of [pump_after]: what the payload does once the reply has gone. *)
Lemma pump_settle_fresh n i rx out :
  conn_fresh n (match i with
    | Rejected | Nothing | PathValidated _ => (n, Ok None)
    | IngestedMessage data => Connection.hand_over_whole n data out
    | IngestedData m compressed =>
        let! (n, body) := (n, slice rx HEADER_LEN (HEADER_LEN + m)) in Connection.hand_over n body compressed out
    end).1.
Proof.
  destruct i; try done; [|apply hand_over_whole_fresh].
  destruct (slice _ _ _); [apply hand_over_fresh|done..].
Qed.

Lemma pump_after_fresh n datagram out : conn_fresh n (Connection.pump_after n datagram out).1.
Proof.
  apply fresh_if. intros Hq. unfold Connection.pump_after. set (c := cn_core n) in *.
  pose proof (ingest_numbered (co_peer c) datagram (now_ms c) (co_tx c) Hq) as Hn.
  destruct (Peer.ingest _ _ _ _) as [[p reply] r]. set (c1 := set_co_tx (set_co_peer c p) (r_ack reply)).
  assert (core_fresh c c1) as Hkept by (exact (numbered_kept _ _ _ _ Hn)).
  destruct r as [[i rx]|e|]; [|exact Hkept..].
  assert (forall m : Connection W * HostResult unit, core_fresh c (cn_core m.1) ->
    core_fresh c (cn_core (let! (n, _) := m in
      let n := set_cn_core n (Connection.note_ingested (cn_core n) i) in
      match i with
      | Rejected | Nothing | PathValidated _ => (n, Ok None)
      | IngestedMessage data => Connection.hand_over_whole n data out
      | IngestedData m compressed =>
          let! (n, body) := (n, slice rx HEADER_LEN (HEADER_LEN + m)) in
          Connection.hand_over n body compressed out
      end).1)) as Hm.
  { intros [n2 [[]|e|]] Hc; [|exact Hc..]. cbv zeta. cbn [fst] in Hc. etrans; [exact Hc|].
    etrans; [apply (note_ingested_same (cn_core n2) i)|].
    apply (pump_settle_fresh (set_cn_core n2 (Connection.note_ingested (cn_core n2) i)) i rx out). }
  apply Hm. unfold reply_of in Hn. destruct (0 <? r_len reply); [|exact Hkept].
  unfold Connection.with_core. cbn [set_cn_core cn_core co_tx c1 set_co_tx].
  destruct (slice (r_ack reply) 0 (r_len reply)) as [f|e|] eqn:Es; [|exact Hkept..].
  apply slice_takez in Es as ->. fold c1.
  pose proof (sealed_sent c c1 (core_seq c1) _ _ _ eq_refl eq_refl Hn eq_refl) as Hs.
  by destruct (transport_send c1 _) as [c2 res].
Qed.
End connection.
