(* ===== verification/ConnectionThreads.v ===== *)
(** * One connection, several threads (crates/fectp/src/lib.rs)

    Every method of [Connection] takes [&self]. A call is a sequence of critical
    sections: those under the core's lock do not wait for anything and are one
    step here, which ConnectionLocks.v shows the lock gives; the reader's lock is
    held across the blocking read. [advance] is
    the next step of a thread at a given point of a call, and [Step] interleaves
    any number of threads with whatever the network and the clock do. *)
From stdpp Require Import gmap.
From S2P Require Import Prelude Bytes Error Frame Fragment Codec Reliability RetransmitQueue.
From S2P Require Import Cipher Symmetric Handshake Session Connect Compress Reassembly Tickets Pmtu.
From S2P Require Import Pipeline Control Udp EndpointState Endpoint Connection ConnectionLaws ConnectionNumbers.
Import Core Connection.

(** Whether a blocking read that began at [since] with this timeout has come
    back in this world. *)
Class Blocking (W : Type) := read_returns : W -> option Z -> Z -> bool.

(** What a thread inside [pump] is reading for. *)
Inductive Job :=
| Receiving (deadline : option Z) (out : bytes)
| Flushing (deadline : Z).

Definition job_deadline (j : Job) : option Z :=
  match j with Receiving d _ => d | Flushing d => Some d end.
Definition job_out (j : Job) : option bytes :=
  match j with Receiving _ out => Some out | Flushing _ => None end.

(** Where a thread is. *)
Inductive Pc :=
| Ready
| Sending (data : bytes) (payload_type : PayloadType)
| SendingReliable (data : bytes) (payload_type : PayloadType)
| ReliableFeed
| RecvEnter (out : bytes)
| RecvQueued (message out : bytes)
| RecvDeadline (out : bytes)
| RecvCheck (deadline : option Z) (out : bytes)
| FlushEnter (timeout : Z)
| FlushReset (deadline : Z)
| FlushFeed (deadline : Z)
| FlushCheck (deadline : Z)
| FlushEnd
| PumpFeed (j : Job)
| PumpTurn (j : Job)
| PumpLock (j : Job) (wait : option Z)
| PumpRead (j : Job) (wait : option Z) (since : Z)
| PumpApply (j : Job) (datagram : bytes)
| Returned (r : HostResult (option (bytes * Z))).

Definition holds_reader (pc : Pc) : bool :=
  match pc with PumpRead _ _ _ | PumpApply _ _ => true | _ => false end.

Definition between_calls (pc : Pc) : bool :=
  match pc with Ready | Returned _ => true | _ => false end.

(** The first point of each call. *)
Definition entry (pc : Pc) : bool :=
  match pc with
  | Sending _ _ | SendingReliable _ _ | RecvEnter _ | FlushEnter _ => true
  | _ => false
  end.

(** Where the loop around [pump] goes on. *)
Definition pumped (j : Job) (got : option (bytes * Z)) : Pc :=
  match j, got with
  | Receiving _ _, Some got => Returned (Ok (Some got))
  | Receiving d out, None => RecvCheck d out
  | Flushing d, _ => FlushFeed d
  end.

Section advance.
Context {W : Type} `{Socket W} `{Blocking W} `{Crypto} `{ZstdLib}.
Local Abbreviation N := (Connection W).

(** [call?]: the call's value, or the thread's return. *)
Definition continue {A} (r : N * HostResult A) (k : A -> Pc) : N * Pc :=
  match r with
  | (n, Ok a) => (n, k a)
  | (n, Err e) => (n, Returned (Err e))
  | (n, Panic) => (n, Returned Panic)
  end.

(** The first section of [send_reliable]: sent at once, or queued. *)
Definition reliable_section (n : N) (data : bytes) (payload_type : PayloadType) : N * Pc :=
  let c := cn_core n in
  let limit := limit c in
  if len data <=? Peer.payload_room (co_peer c) limit true false then
    continue (with_core n (fun c => send_one_reliable c data payload_type)) (fun _ => Returned (Ok None))
  else
    let (p, r) := Peer.queue_message (co_peer c) data payload_type limit in
    continue (set_cn_core n (set_co_peer c p), r) (fun _ => ReliableFeed).

(** The section of [flush] that decides whether to go on. *)
Definition flush_section (n : N) (deadline : Z) : Pc :=
  let c := cn_core n in
  if idle c then FlushEnd else
  if deadline <=? now c
  then Returned (Err (Unacknowledged (in_flight c + p_abandoned_count (co_peer c))))
  else PumpFeed (Flushing deadline).

Definition reset_abandoned (n : N) : N :=
  let c := cn_core n in
  let p := co_peer c in
  set_cn_core n (set_co_peer c (Peer.with_abandoned p (p_abandoned p) (p_abandoned_unqueued p) 0)).

(** One step of a thread; [free] is whether it may take the reader's lock.
    [None] is a thread that must wait. *)
Definition advance (free : bool) (n : N) (pc : Pc) : option (N * Pc) :=
  let c := cn_core n in
  match pc with
  | Ready | Returned _ => None
  | Sending data pt => Some (continue (send n data pt) (fun _ => Returned (Ok None)))
  | SendingReliable data pt => Some (reliable_section n data pt)
  | ReliableFeed => Some (continue (drive_queue n) (fun _ => Returned (Ok None)))
  | RecvEnter out =>
      match co_inbox c with
      | message :: inbox => Some (set_cn_core n (set_co_inbox c inbox), RecvQueued message out)
      | [] => Some (n, RecvDeadline out)
      end
  | RecvQueued message out =>
      if free then Some (continue (hand_over n message false (Some out)) (fun got => Returned (Ok got)))
      else None
  | RecvDeadline out => Some (n, PumpFeed (Receiving (Z.add (now c) <$> co_read_timeout c) out))
  | RecvCheck deadline out =>
      Some (n, if past n deadline then Returned (Err Io) else PumpFeed (Receiving deadline out))
  | FlushEnter timeout => Some (n, FlushReset (now c + timeout))
  | FlushReset deadline => Some (reset_abandoned n, FlushFeed deadline)
  | FlushFeed deadline => Some (continue (drive_queue n) (fun _ => FlushCheck deadline))
  | FlushCheck deadline => Some (n, flush_section n deadline)
  | FlushEnd =>
      let abandoned := p_abandoned_count (co_peer c) in
      Some (n, Returned (if 0 <? abandoned then Err (Unacknowledged abandoned) else Ok None))
  | PumpFeed j => Some (continue (drive_queue n) (fun _ => PumpTurn j))
  | PumpTurn j =>
      Some (continue (pump_turn n (job_deadline j) (negb (is_some (job_out j))))
        (fun wait => match wait with Some wait => PumpLock j wait | None => pumped j None end))
  | PumpLock j wait => if free then Some (n, PumpRead j wait (now c)) else None
  | PumpRead j wait since =>
      if read_returns (co_world c) wait since then
        Some (continue (pump_read n wait)
          (fun received => match received with Some datagram => PumpApply j datagram | None => pumped j None end))
      else None
  | PumpApply j datagram => Some (continue (pump_after n datagram (job_out j)) (pumped j))
  end.

(** ** The threads *)
Record Threads := mkThreads { th_conn : N; th_pcs : gmap nat Pc }.

(** No thread holds the reader's lock. *)
Definition reader_free (s : Threads) : bool :=
  bool_decide (map_Forall (fun _ pc => holds_reader pc = false) (th_pcs s)).

(** The calls that set something under the core's lock. *)
Inductive Setting :=
| SetPadding (enabled : bool)
| SetReadTimeout (timeout : option Z)
| SetKeepalive (every : option Z)
| SetMaxRetries (attempts : Z).

Definition apply_setting (n : N) (x : Setting) : N :=
  match x with
  | SetPadding enabled => set_padding n enabled
  | SetReadTimeout timeout => set_read_timeout n timeout
  | SetKeepalive every => set_keepalive n every
  | SetMaxRetries attempts => set_max_retries n attempts
  end.

Definition set_world (n : N) (w : W) : N := set_cn_core n (set_co_world (cn_core n) w).
End advance.
Arguments Threads W : clear implicits.

Section stepping.
Context {W : Type} `{SL : SocketLog W} {B : Blocking W} `{Crypto} `{ZstdLib}.

(** A thread moves, begins a call or sets something; or time passes and
    datagrams come and go, without this side sending any. *)
Inductive Step : Threads W -> Threads W -> Prop :=
| StepThread s i pc n' pc' :
    th_pcs s !! i = Some pc -> advance (reader_free s) (th_conn s) pc = Some (n', pc') ->
    Step s (mkThreads n' (<[i := pc']> (th_pcs s)))
| StepCall s i pc pc' :
    th_pcs s !! i = Some pc -> between_calls pc = true -> entry pc' = true ->
    Step s (mkThreads (th_conn s) (<[i := pc']> (th_pcs s)))
| StepSet s x : Step s (mkThreads (apply_setting (th_conn s) x) (th_pcs s))
| StepWorld s w :
    sent w = sent (co_world (cn_core (th_conn s))) ->
    Step s (mkThreads (set_world (th_conn s) w) (th_pcs s)).

Definition Steps : Threads W -> Threads W -> Prop := rtc Step.

(** ** Numbers *)
Lemma continue_fresh {A} (n : Connection W) (r : Connection W * HostResult A) k :
  conn_fresh n r.1 -> conn_fresh n (continue r k).1.
Proof. by destruct r as [n' [a|e|]]. Qed.

Lemma advance_fresh free n pc n' pc' : advance free n pc = Some (n', pc') -> conn_fresh n n'.
Proof.
  destruct pc; cbn [advance]; intros E.
  all: try discriminate.
  all: try (injection E as <- <-; done).
  all: try (injection E as E; apply (f_equal fst) in E; cbn [fst] in E; subst n'; apply continue_fresh).
  - apply with_core_fresh, send_one_fresh.
  - injection E as E. apply (f_equal fst) in E. cbn [fst] in E. subst n'. unfold reliable_section.
    destruct (_ <=? _); [apply continue_fresh, with_core_fresh, send_one_reliable_fresh|].
    match goal with |- context [Peer.queue_message ?p ?d ?t ?l] =>
      pose proof (queue_message_session p d t l) as Hq; destruct (Peer.queue_message p d t l) as [p' r] end.
    apply continue_fresh, core_same; [|done]. unfold core_seq. cbn in *. by rewrite Hq.
  - apply drive_queue_conn_fresh.
  - destruct (co_inbox _); injection E as <- <-; by apply core_same.
  - destruct free; [|done]. injection E as E. apply (f_equal fst) in E. cbn [fst] in E. subst n'.
    apply continue_fresh. exact (hand_over_fresh n message false (Some out)).
  - injection E as <- <-. by apply core_same.
  - apply drive_queue_conn_fresh.
  - apply drive_queue_conn_fresh.
  - apply pump_turn_fresh.
  - destruct free; [|done]. by injection E as <- <-.
  - destruct (read_returns _ _ _); [|done]. injection E as E. apply (f_equal fst) in E. cbn [fst] in E.
    subst n'. apply continue_fresh, pump_read_fresh.
  - apply pump_after_fresh.
Qed.

Lemma step_fresh s s' : Step s s' -> conn_fresh (th_conn s) (th_conn s').
Proof.
  destruct 1 as [s i pc n' pc' _ E|s i pc pc' _ _ _|s x|s w E]; cbn [th_conn].
  - by apply advance_fresh in E.
  - done.
  - destruct x; by apply core_same.
  - by apply core_same.
Qed.

Lemma steps_fresh s s' : Steps s s' -> conn_fresh (th_conn s) (th_conn s').
Proof. induction 1 as [s|s1 s2 s3 Hstep _ IH]; [done|]. etrans; [by apply step_fresh|exact IH]. Qed.

(** ** The reader's lock *)
Lemma reader_free_spec (s : Threads W) i pc :
  reader_free s = true -> th_pcs s !! i = Some pc -> holds_reader pc = false.
Proof. unfold reader_free. intros Hf%bool_decide_eq_true_1 Hi. exact (Hf i pc Hi). Qed.

Lemma continue_holds {A} (r : Connection W * HostResult A) k :
  (forall a, holds_reader (k a) = false) -> holds_reader (continue r k).2 = false.
Proof. intros Hk. destruct r as [n [a|e|]]; [apply Hk|done..]. Qed.

Lemma pumped_holds j got : holds_reader (pumped j got) = false.
Proof. by destruct j, got. Qed.

Lemma reliable_section_holds (n : Connection W) data pt : holds_reader (reliable_section n data pt).2 = false.
Proof.
  unfold reliable_section. destruct (_ <=? _); [by apply continue_holds|].
  destruct (Peer.queue_message _ _ _ _) as [p r]. by apply continue_holds.
Qed.

Lemma flush_section_holds (n : Connection W) d : holds_reader (flush_section n d) = false.
Proof. unfold flush_section. by repeat case_match. Qed.
Create HintDb threads discriminated.
#[local] Hint Resolve pumped_holds reliable_section_holds flush_section_holds continue_holds : threads.

(** A thread comes to hold the lock only when nobody does. *)
Lemma advance_holds free (n : Connection W) pc n' pc' :
  advance free n pc = Some (n', pc') -> holds_reader pc' = true -> holds_reader pc = true \/ free = true.
Proof.
  intros E Hh. destruct (holds_reader pc) eqn:Hp; [by left|]. right.
  destruct free; [done|]. exfalso. enough (holds_reader pc' = false) by congruence. clear Hh.
  assert (forall r : Connection W * Pc, Some r = Some (n', pc') -> holds_reader r.2 = false ->
    holds_reader pc' = false) as Hout by (intros r [= ->] X; exact X).
  destruct pc; cbn [advance] in E; try discriminate; try (destruct (co_inbox _)); apply Hout in E;
    auto with threads; try done.
  - cbn. by case_match.
  - apply flush_section_holds.
  - apply continue_holds. intros [wait|]; [done|auto with threads].
Qed.

(** ** Progress *)

(** A thread inside a call moves, or waits for the lock, or reads. *)
Lemma advance_total free (n : Connection W) pc :
  between_calls pc = false ->
  (exists n' pc', advance free n pc = Some (n', pc')) \/ free = false \/
  exists j wait since, pc = PumpRead j wait since /\ read_returns (co_world (cn_core n)) wait since = false.
Proof.
  assert (forall o : option (Connection W * Pc), o <> None -> exists n' pc', o = Some (n', pc')) as Hs.
  { intros [[n' pc']|]; [eauto|done]. }
  intros Hb. destruct free; [|by right; left]. destruct pc; try discriminate;
    try (left; apply Hs; cbn [advance]; first [discriminate|by destruct (co_inbox _)]).
  cbn [advance]. destruct (read_returns _ _ _) eqn:Er; [left; by apply Hs|]. right; right. eauto 6.
Qed.

Lemma holder (s : Threads W) : reader_free s = false -> exists i pc, th_pcs s !! i = Some pc /\ holds_reader pc = true.
Proof.
  unfold reader_free. intros Hf%bool_decide_eq_false_1.
  apply map_not_Forall in Hf as (i & pc & Hi & Hh); [|apply _]. exists i, pc. split; [done|].
  by destruct (holds_reader pc).
Qed.

(** ** A flush behind a read *)

(** Steps while nothing arrives for a read without a timeout. *)
Definition quiet (since : Z) (s s' : Threads W) : Prop :=
  Step s s' /\ read_returns (co_world (cn_core (th_conn s))) None since = false.

Definition blocked_pair (i j : nat) (ja jb : Job) (wait : option Z) (since : Z) : gmap nat Pc :=
  {[ i := PumpRead ja None since; j := PumpLock jb wait ]}.

Lemma blocked_pair_free (n : Connection W) i j ja jb wait since :
  reader_free (mkThreads n (blocked_pair i j ja jb wait since)) = false.
Proof.
  apply bool_decide_eq_false_2. intros Hf. specialize (Hf i (PumpRead ja None since)).
  cbn [th_pcs blocked_pair] in Hf. unfold blocked_pair in Hf. rewrite lookup_insert_eq in Hf. by discriminate Hf.
Qed.

Lemma quiet_step_stuck i j ja jb wait since s s' :
  i <> j -> th_pcs s = blocked_pair i j ja jb wait since -> quiet since s s' ->
  th_pcs s' = th_pcs s /\ core_sent (cn_core (th_conn s')) = core_sent (cn_core (th_conn s)).
Proof.
  intros Hij Hp [Hs Hq]. destruct Hs as [s k pc n' pc' Hk E|s k pc pc' Hk Hb He|s x|s w Hw]; cbn [th_pcs th_conn] in *.
  - exfalso. destruct s as [n pcs]. cbn in Hp. subst pcs. rewrite blocked_pair_free in E.
    cbn [th_pcs th_conn] in *. unfold blocked_pair in Hk.
    apply lookup_insert_Some in Hk as [[<- <-]|[_ [<- <-]%lookup_singleton_Some]]; cbn [advance] in E.
    + by rewrite Hq in E.
    + done.
  - exfalso. rewrite Hp in Hk. unfold blocked_pair in Hk.
    by apply lookup_insert_Some in Hk as [[<- <-]|[_ [<- <-]%lookup_singleton_Some]].
  - split; [done|]. by destruct x.
  - split; [done|]. exact Hw.
Qed.

End stepping.

(** ** Schedules *)
Section schedules.
Context {W : Type} `{SL : SocketLog W} {B : Blocking W} `{Crypto} `{ZstdLib}.

(** A thread begins a call or moves, and the world changes. *)
Inductive Move :=
| Call (i : nat) (pc : Pc)
| Go (i : nat)
| Pass (f : W -> W).

Definition play_move (s : Threads W) (m : Move) : option (Threads W) :=
  match m with
  | Call i pc' =>
      pc ← th_pcs s !! i;
      if between_calls pc && entry pc' then Some (mkThreads (th_conn s) (<[i := pc']> (th_pcs s))) else None
  | Go i =>
      pc ← th_pcs s !! i;
      '(n, pc') ← advance (reader_free s) (th_conn s) pc;
      Some (mkThreads n (<[i := pc']> (th_pcs s)))
  | Pass f =>
      let w := co_world (cn_core (th_conn s)) in
      if decide (sent (f w) = sent w) then Some (mkThreads (set_world (th_conn s) (f w)) (th_pcs s)) else None
  end.

Fixpoint play (s : Threads W) (moves : list Move) : option (Threads W) :=
  match moves with
  | [] => Some s
  | m :: moves => s ← play_move s m; play s moves
  end.

Lemma play_move_step s m s' : play_move s m = Some s' -> Step s s'.
Proof.
  destruct m as [i pc'|i|f]; cbn [play_move].
  - destruct (th_pcs s !! i) as [pc|] eqn:Hi; [|done]. cbn [mbind option_bind].
    destruct (between_calls pc && entry pc') eqn:Hb; [|done]. apply andb_prop in Hb as [Hb He].
    intros [= <-]. by eapply StepCall.
  - destruct (th_pcs s !! i) as [pc|] eqn:Hi; [|done]. cbn [mbind option_bind].
    destruct (advance _ _ _) as [[n pc']|] eqn:E; [|done]. intros [= <-]. by eapply StepThread.
  - destruct (decide _) as [Hw|]; [|done]. intros [= <-]. by apply StepWorld.
Qed.

Lemma play_steps s moves s' : play s moves = Some s' -> Steps s s'.
Proof.
  revert s. induction moves as [|m moves IH]; intros s; cbn [play]; [intros [= <-]; apply rtc_refl|].
  destruct (play_move s m) as [s1|] eqn:E; [|done]. intros Hp. eapply rtc_l; [by eapply play_move_step|].
  by apply IH.
Qed.
End schedules.
Arguments Move W : clear implicits.

(** ** What the threads of one connection may rely on *)

(** C4: threads sharing a connection never reuse a nonce. However the sends,
    reliable sends, receives and flushes of any number of threads interleave,
    with whatever arrives and however long anything takes, no two datagrams the
    connection ever hands to its socket carry the same sequence number, whether
    they hold a message, a retransmission, an acknowledgement, a keep-alive or a
    probe. *)
Theorem threads_never_reuse_a_number {W} `{SL : SocketLog W} {B : Blocking W} `{Crypto} `{ZstdLib}
    (s s' : Threads W) :
  Steps s s' -> is_u64 (core_seq (cn_core (th_conn s))) ->
  Forall (fun f => 0 <= frame_sequence f < core_seq (cn_core (th_conn s))) (core_sent (cn_core (th_conn s))) ->
  NoDup (map frame_sequence (core_sent (cn_core (th_conn s)))) ->
  NoDup (map frame_sequence (core_sent (cn_core (th_conn s')))).
Proof. intros Hs%steps_fresh Hq Hl Hd. by apply (fresh_distinct _ _ _ _ Hq Hs). Qed.

(** [flush] does not keep to its timeout beside a blocked receive. Once a
    thread waits in [recv] with nothing to wake it and another is in [flush],
    waiting for the reader's lock, then for as long as nothing arrives the flush
    does not return, whatever its deadline and the clock, and nothing is sent
    again. *)
Theorem flush_stuck_behind_reader {W} `{SL : SocketLog W} {B : Blocking W} `{Crypto} `{ZstdLib}
    (i j : nat) ja deadline wait since (s s' : Threads W) :
  i <> j -> th_pcs s = blocked_pair i j ja (Flushing deadline) wait since -> rtc (quiet since) s s' ->
  th_pcs s' !! j = Some (PumpLock (Flushing deadline) wait) /\
  core_sent (cn_core (th_conn s')) = core_sent (cn_core (th_conn s)).
Proof.
  intros Hij Hp Hrun. enough (th_pcs s' = th_pcs s /\
    core_sent (cn_core (th_conn s')) = core_sent (cn_core (th_conn s))) as [-> ->].
  { split; [|done]. rewrite Hp. unfold blocked_pair. by rewrite lookup_insert_ne, lookup_singleton_eq. }
  revert Hp. induction Hrun as [s|s1 s2 s3 Hq _ IH]; intros Hp; [done|].
  destruct (quiet_step_stuck i j _ _ _ _ _ _ Hij Hp Hq) as [E1 E2].
  destruct IH as [E3 E4]; [congruence|]. split; congruence.
Qed.

(** ** On a concrete host *)
#[local] Existing Instances Toy.crypto Toy.laws.
#[local] Existing Instances ToyZstd.zstd ToyZstd.laws.

#[export] Instance ToySock_log : SocketLog ToySock.
Proof.
  refine {| sent w := map fst (tn_outbox (ts_net w)) |}; try done.
  - intros w d. cbn. by rewrite map_app.
  - intros w n. cbn. destruct (ToyNet.recv _ _ _) as [t r] eqn:E. cbn. unfold ToyNet.recv in E.
    repeat case_match; by simplify_eq.
Defined.

(** Something has arrived, or the timeout has passed. *)
#[export] Instance ToySock_blocking : Blocking ToySock := fun w wait since =>
  match tn_inbox (ts_net w) with (at_, _, _) :: _ => at_ <=? tn_clock (ts_net w) | [] => false end ||
  match wait with Some t => since + t <=? tn_clock (ts_net w) | None => false end.

Definition later (t : Z) (w : ToySock) : ToySock :=
  let n := ts_net w in
  mkToySock (mkToyNet (tn_clock n + t) (tn_inbox n) (tn_outbox n) (tn_seed n) (tn_settings n))
    (ts_timeout w) (ts_to w).

Definition two_threads : Threads ToySock :=
  mkThreads (ToySock.connection []) {[ 1%nat := Ready; 2%nat := Ready ]}.

(** One thread receives without a timeout; then another sends a reliable
    message, which is lost, and flushes for 100 milliseconds. *)
Definition overtaken : list (Move ToySock) :=
  [ Call 1 (RecvEnter (zeros 4)); Go 1; Go 1; Go 1; Go 1; Go 1;
    Call 2 (SendingReliable [1; 2; 3] Opaque); Go 2;
    Call 2 (FlushEnter 100); Go 2; Go 2; Go 2; Go 2; Go 2; Go 2 ].

Definition stuck : option (Threads ToySock) := play two_threads overtaken.

Lemma stuck_reached :
  exists s, Steps two_threads s /\
    th_pcs s = blocked_pair 1 2 (Receiving None (zeros 4)) (Flushing 1100) (Some 100) 1000 /\
    now (cn_core (th_conn s)) = 1000 /\ unacknowledged (th_conn s) = 1 /\
    tn_inbox (ts_net (co_world (cn_core (th_conn s)))) = [].
Proof.
  assert ((fun s => (th_pcs s, now (cn_core (th_conn s)), unacknowledged (th_conn s),
      tn_inbox (ts_net (co_world (cn_core (th_conn s)))))) <$> stuck =
    Some (blocked_pair 1 2 (Receiving None (zeros 4)) (Flushing 1100) (Some 100) 1000, 1000, 1, []))
    as Hobs by (vm_compute; reflexivity).
  destruct stuck as [s|] eqn:E; [|discriminate Hobs]. exists s.
  split; [exact (play_steps _ _ _ E)|]. cbn [fmap option_fmap option_map] in Hobs.
  apply (f_equal (default (∅, 0, 0, []))) in Hobs. cbn [default] in Hobs.
  split; [exact (f_equal (fun x => x.1.1.1) Hobs)|]. split; [exact (f_equal (fun x => x.1.1.2) Hobs)|].
  split; [exact (f_equal (fun x => x.1.2) Hobs)|exact (f_equal snd Hobs)].
Qed.

(** An hour later the flush of 100 milliseconds has still not returned. *)
Lemma flush_stuck_behind_reader_witness :
  exists s s' wait, Steps two_threads s /\ rtc (quiet 1000) s s' /\
    now (cn_core (th_conn s')) = 3601000 /\
    th_pcs s' !! 2%nat = Some (PumpLock (Flushing 1100) wait) /\
    core_sent (cn_core (th_conn s')) = core_sent (cn_core (th_conn s)).
Proof.
  destruct stuck_reached as (s & Hs & Hp & Ht & _ & Hi).
  set (w := later 3600000 (co_world (cn_core (th_conn s)))).
  exists s, (mkThreads (set_world (th_conn s) w) (th_pcs s)), (Some 100).
  assert (rtc (quiet 1000) s (mkThreads (set_world (th_conn s) w) (th_pcs s))) as Hq.
  { apply rtc_once. split; [by apply StepWorld|].
    unfold read_returns, ToySock_blocking. by rewrite Hi. }
  split; [exact Hs|]. split; [exact Hq|]. split.
  - unfold now in *. cbn in *. by rewrite Ht.
  - exact (flush_stuck_behind_reader 1 2 _ 1100 (Some 100) 1000 s _ ltac:(discriminate) Hp Hq).
Defined.

Lemma threads_never_reuse_a_number_witness :
  exists s', Steps two_threads s' /\ unacknowledged (th_conn s') = 1 /\
    NoDup (map frame_sequence (core_sent (cn_core (th_conn s')))).
Proof.
  destruct stuck_reached as (s & Hs & _ & _ & Hu & _). exists s. split; [exact Hs|]. split; [exact Hu|].
  apply (threads_never_reuse_a_number two_threads s Hs).
  - vm_compute. split; [discriminate|reflexivity].
  - constructor.
  - constructor.
Defined.
