(* ===== verification/ConnectionLocks.v ===== *)
(** * The two locks of a connection (crates/fectp/src/lib.rs)

    [Connection] is a [Mutex<Core>] beside a [Mutex<Reader>]. ConnectionThreads.v
    takes a critical section as one step; here the locks themselves are part of
    the state, with their owners and whether a panic has poisoned them, and a
    section is not atomic: a thread takes the locks its next section asks for,
    one at a time and waiting for each, reads the core, and only later writes
    back what it made of it and drops the guards that go out of scope. Between
    these the other threads, the network and the clock go on.

    [wants] and [held_at] say where [lib.rs] calls [lock] and how long each guard
    lives. From them it follows that the threads cannot block one another for
    good, and that the sections act as if they were atomic, which is what
    ConnectionThreads.v relies on. *)
From stdpp Require Import gmap functions.
From S2P Require Import Prelude Bytes Error Frame Fragment Codec Reliability RetransmitQueue.
From S2P Require Import Cipher Symmetric Handshake Session Connect Compress Reassembly Tickets Pmtu.
From S2P Require Import Pipeline Control Udp EndpointState Endpoint Connection ConnectionLaws ConnectionNumbers.
From S2P Require Import ConnectionThreads.
Import Core Connection.

(** ** The locks and where they are taken *)
Inductive Mutex := CoreLock | ReaderLock.

#[export] Instance Mutex_eq_dec : EqDecision Mutex.
Proof. solve_decision. Defined.

(** The lock a thread asks for before its next section. *)
Definition wants (pc : Pc) : option Mutex :=
  match pc with
  | Sending _ _ | SendingReliable _ _ | ReliableFeed => Some CoreLock
  | RecvEnter _ | RecvDeadline _ => Some CoreLock
  | RecvQueued _ _ => Some ReaderLock
  | FlushReset _ | FlushFeed _ | FlushCheck _ | FlushEnd => Some CoreLock
  | PumpFeed _ | PumpTurn _ => Some CoreLock
  | PumpLock _ _ => Some ReaderLock
  | PumpApply _ _ => Some CoreLock
  | Ready | Returned _ | RecvCheck _ _ | FlushEnter _ | PumpRead _ _ _ => None
  end.

(** The guards still alive from the sections before. *)
Definition held_at (pc : Pc) : list Mutex :=
  match pc with
  | PumpRead _ _ _ | PumpApply _ _ => [ReaderLock]
  | _ => []
  end.

(** The sections that use what the core's lock protects. *)
Definition touches_core (pc : Pc) : bool :=
  match pc with
  | Ready | Returned _ | RecvQueued _ _ | RecvCheck _ _ | FlushEnter _ | PumpLock _ _ | PumpRead _ _ _ => false
  | _ => true
  end.

(** Every lock a thread owns while it is inside its next section. *)
Definition needs (pc : Pc) : list Mutex := held_at pc ++ option_list (wants pc).

(** A mutex: who holds its guard, and whether one was dropped by a panic. *)
Record Lock := mkLock { lo_owner : option nat; lo_poisoned : bool }.

Definition owns (locks : Mutex -> Lock) (i : nat) (m : Mutex) : bool := bool_decide (lo_owner (locks m) = Some i).

(** The guards of a thread that outlive their section stay; the others drop,
    poisoning their lock when the thread is panicking. *)
Definition release (locks : Mutex -> Lock) (i : nat) (pc : Pc) : Mutex -> Lock := fun m =>
  if owns locks i m && bool_decide (m ∉ held_at pc)
  then mkLock None (lo_poisoned (locks m) || match pc with Returned Panic => true | _ => false end)
  else locks m.

(** The locks a thread must take before its section, those it has left out. *)
Definition awaits (locks : Mutex -> Lock) (i : nat) (pc : Pc) : option Mutex :=
  m ← wants pc; if owns locks i m then None else Some m.

(** ** Guards follow the sections *)
Lemma touches_wants pc : touches_core pc = true -> wants pc = Some CoreLock.
Proof. by destruct pc. Qed.

Lemma held_reader m pc : m ∈ held_at pc -> m = ReaderLock /\ holds_reader pc = true.
Proof. destruct pc; cbn [held_at]; rewrite ?elem_of_nil, ?list_elem_of_singleton; naive_solver. Qed.

Lemma reader_held pc : holds_reader pc = true -> ReaderLock ∈ held_at pc.
Proof. by destruct pc; cbn [held_at]; rewrite ?list_elem_of_singleton. Qed.

Lemma elem_needs m pc : m ∈ needs pc <-> m ∈ held_at pc \/ wants pc = Some m.
Proof.
  unfold needs. rewrite elem_of_app. destruct (wants pc) as [k|]; cbn.
  - rewrite list_elem_of_singleton. split; (intros [Hh|Hw]; [by left|right; congruence]).
  - rewrite elem_of_nil. split; by intros [Hh|Hw]; [left|].
Qed.

Lemma between_needs pc : between_calls pc = true -> needs pc = [].
Proof. by destruct pc. Qed.

Lemma entry_held pc : entry pc = true -> held_at pc = [].
Proof. by destruct pc. Qed.

Lemma owns_spec locks i m : owns locks i m = true <-> lo_owner (locks m) = Some i.
Proof. unfold owns. by rewrite bool_decide_eq_true. Qed.

Lemma release_owner locks i pc m k :
  lo_owner (release locks i pc m) = Some k <->
  lo_owner (locks m) = Some k /\ (k = i -> m ∈ held_at pc).
Proof.
  unfold release, owns. case_bool_decide as Ho; case_bool_decide as Hm; cbn [andb lo_owner].
  - split; [done|]. intros [E Hk]. rewrite Ho in E. injection E as ->. by destruct (Hm (Hk eq_refl)).
  - split; [|by intros []]. intros E. split; [done|]. intros _. revert Hm. by destruct (decide (m ∈ held_at pc)).
  - split; [|by intros []]. intros E. split; [done|]. by intros ->.
  - split; [|by intros []]. intros E. split; [done|]. by intros ->.
Qed.

Lemma release_poisoned locks i pc m :
  lo_poisoned (locks m) = true -> lo_poisoned (release locks i pc m) = true.
Proof. unfold release. intros Hp. destruct (_ && _); [|done]. cbn. by rewrite Hp. Qed.

Lemma awaits_None locks i pc m : awaits locks i pc = None -> wants pc = Some m -> lo_owner (locks m) = Some i.
Proof.
  unfold awaits. intros E Hw. rewrite Hw in E. cbn in E. destruct (owns locks i m) eqn:Ho; [|done].
  by apply owns_spec.
Qed.

Lemma awaits_Some locks i pc m : awaits locks i pc = Some m -> wants pc = Some m /\ lo_owner (locks m) <> Some i.
Proof.
  unfold awaits. destruct (wants pc) as [k|]; [|done]. cbn. destruct (owns locks i k) eqn:Ho; [done|].
  intros [= ->]. split; [done|]. intros E. apply owns_spec in E. congruence.
Qed.

(** ** The threads *)
Section locked.
Context {W : Type} `{Socket W} `{Blocking W} `{Crypto} `{ZstdLib}.

(** [tl_seen] is the core as the thread read it on entering its section. *)
Record Thread := mkThread { tl_pc : Pc; tl_seen : option (Core W) }.

Record Locked := mkLocked {
  lk_conn : Connection W;
  lk_locks : Mutex -> Lock;
  lk_threads : gmap nat Thread;
}.

(** What a section works on: the core it read, with the socket and the reader's
    half, which are not behind the core's lock, as they are now. *)
Definition working (n : Connection W) (seen : option (Core W)) : Connection W :=
  match seen with
  | Some c => set_cn_core n (set_co_world c (co_world (cn_core n)))
  | None => n
  end.

(** The next step of thread [i]: to take a lock, to find it poisoned and return,
    to read the core, or to finish the section. [None] is a thread that waits. *)
Definition move (l : Locked) (i : nat) : option Locked :=
  t ← lk_threads l !! i;
  let pc := tl_pc t in
  match awaits (lk_locks l) i pc with
  | Some m =>
      let k := lk_locks l m in
      if is_some (lo_owner k) then None else
      if lo_poisoned k then
        let pc' := Returned (Err Closed) in
        Some (mkLocked (lk_conn l) (release (lk_locks l) i pc') (<[i := mkThread pc' None]> (lk_threads l)))
      else Some (mkLocked (lk_conn l) (<[m := mkLock (Some i) false]> (lk_locks l)) (lk_threads l))
  | None =>
      if touches_core pc && negb (is_some (tl_seen t)) then
        Some (mkLocked (lk_conn l) (lk_locks l)
          (<[i := mkThread pc (Some (cn_core (lk_conn l)))]> (lk_threads l)))
      else
        '(n', pc') ← advance true (working (lk_conn l) (tl_seen t)) pc;
        Some (mkLocked n' (release (lk_locks l) i pc') (<[i := mkThread pc' None]> (lk_threads l)))
  end.

(** The state without its locks. *)
Definition unlocked (l : Locked) : Threads W := mkThreads (lk_conn l) (tl_pc <$> lk_threads l).

(** Threads between calls, and no lock taken or poisoned. *)
Definition at_rest (l : Locked) : Prop :=
  (forall m, lk_locks l m = mkLock None false) /\
  map_Forall (fun _ t => between_calls (tl_pc t) = true /\ tl_seen t = None) (lk_threads l).
End locked.
Arguments Thread W : clear implicits.
Arguments Locked W : clear implicits.

Section steps.
Context {W : Type} `{SL : SocketLog W} {B : Blocking W} `{Crypto} `{ZstdLib}.
Implicit Types l : Locked W.

(** A thread moves or begins a call; a setting is changed by a thread that finds
    the core's lock free; or time passes and datagrams come and go. *)
Inductive LStep : Locked W -> Locked W -> Prop :=
| LMove l i l' : move l i = Some l' -> LStep l l'
| LCall l i t pc' :
    lk_threads l !! i = Some t -> between_calls (tl_pc t) = true -> entry pc' = true ->
    LStep l (mkLocked (lk_conn l) (lk_locks l) (<[i := mkThread pc' None]> (lk_threads l)))
| LSet l x :
    lk_locks l CoreLock = mkLock None false ->
    LStep l (mkLocked (apply_setting (lk_conn l) x) (lk_locks l) (lk_threads l))
| LWorld l w :
    sent w = sent (co_world (cn_core (lk_conn l))) ->
    LStep l (mkLocked (set_world (lk_conn l) w) (lk_locks l) (lk_threads l)).

Definition LSteps : Locked W -> Locked W -> Prop := rtc LStep.

(** Only the sections under the reader's lock depend on having it. *)
Lemma advance_any free (n : Connection W) pc :
  wants pc <> Some ReaderLock -> advance free n pc = advance true n pc.
Proof. by destruct pc. Qed.

(** A section leaves alive no guard it did not have. *)
Lemma advance_held (n : Connection W) pc n' pc' m :
  advance true n pc = Some (n', pc') -> m ∈ held_at pc' -> m ∈ needs pc.
Proof.
  intros E [-> Hh]%held_reader. apply elem_needs.
  destruct (decide (wants pc = Some ReaderLock)) as [Hw|Hw]; [by right|left].
  rewrite <- (advance_any false) in E by done.
  destruct (advance_holds _ _ _ _ _ E Hh) as [Hp|]; [by apply reader_held|done].
Qed.

Lemma continue_conn {A} (r : Connection W * HostResult A) k : (continue r k).1 = r.1.
Proof. by destruct r as [n [a|e|]]. Qed.

Lemma hand_over_core (n : Connection W) body compressed out :
  cn_core (hand_over n body compressed (Some out)).1 = cn_core n.
Proof. unfold hand_over. by destruct (Pipeline.deliver _ _ _ _) as [s [w|e|]]. Qed.

(** A section outside the core's lock changes the socket at most. *)
Lemma advance_outside free (n : Connection W) pc n' pc' :
  touches_core pc = false -> advance free n pc = Some (n', pc') ->
  cn_core n' = set_co_world (cn_core n) (co_world (cn_core n')).
Proof.
  assert (cn_core n = set_co_world (cn_core n) (co_world (cn_core n))) as Hid by by destruct (cn_core n).
  intros Ht E. destruct pc; try discriminate; cbn [advance] in E.
  - destruct free; [|done]. apply (inj Some), (f_equal fst) in E. rewrite continue_conn in E. cbn [fst] in E.
    rewrite <- E, hand_over_core. done.
  - by injection E as <- <-.
  - by injection E as <- <-.
  - destruct free; [|done]. by injection E as <- <-.
  - destruct (read_returns _ _ _); [|done]. injection E as E. unfold pump_read in E.
    destruct (sock_set_read_timeout _ _) as [w err]. destruct (is_some err); [by injection E as <- <-|].
    destruct (sock_recv w _) as [w' [d|e]]; cbn in E; [by injection E as <- <-|].
    destruct (is_timeout e); cbn in E; by injection E as <- <-.
Qed.

(** The ways a thread moves. *)
Inductive moved l i : Locked W -> Prop :=
| Taken t m :
    lk_threads l !! i = Some t -> awaits (lk_locks l) i (tl_pc t) = Some m ->
    lk_locks l m = mkLock None false ->
    moved l i (mkLocked (lk_conn l) (<[m := mkLock (Some i) false]> (lk_locks l)) (lk_threads l))
| Refused t m :
    lk_threads l !! i = Some t -> awaits (lk_locks l) i (tl_pc t) = Some m ->
    lk_locks l m = mkLock None true ->
    moved l i (mkLocked (lk_conn l) (release (lk_locks l) i (Returned (Err Closed)))
      (<[i := mkThread (Returned (Err Closed)) None]> (lk_threads l)))
| Looked t :
    lk_threads l !! i = Some t -> awaits (lk_locks l) i (tl_pc t) = None ->
    touches_core (tl_pc t) = true -> tl_seen t = None ->
    moved l i (mkLocked (lk_conn l) (lk_locks l)
      (<[i := mkThread (tl_pc t) (Some (cn_core (lk_conn l)))]> (lk_threads l)))
| Finished t n' pc' :
    lk_threads l !! i = Some t -> awaits (lk_locks l) i (tl_pc t) = None ->
    (touches_core (tl_pc t) = true -> is_some (tl_seen t) = true) ->
    advance true (working (lk_conn l) (tl_seen t)) (tl_pc t) = Some (n', pc') ->
    moved l i (mkLocked n' (release (lk_locks l) i pc') (<[i := mkThread pc' None]> (lk_threads l))).

Lemma move_moved l i l' : move l i = Some l' -> moved l i l'.
Proof.
  unfold move. destruct (lk_threads l !! i) as [t|] eqn:Ht; [|done]. cbn [mbind option_bind].
  destruct (awaits _ _ _) as [m|] eqn:Ha.
  - destruct (lk_locks l m) as [[k|] []] eqn:Hk; cbn; intros [= <-].
    + by eapply Refused.
    + by eapply Taken.
  - destruct (touches_core (tl_pc t)) eqn:Hc, (tl_seen t) as [c|] eqn:Hs; cbn [andb negb is_some].
    2: intros [= <-]; by eapply Looked.
    all: destruct (advance _ _ _) as [[n' pc']|] eqn:E; [|done]; cbn; intros [= <-].
    all: eapply Finished; rewrite ?Hs; try done. by rewrite Hc.
Qed.

(** ** The invariant *)

(** A lock is owned by a thread whose section needs it, a guard alive is owned,
    and what a thread has read of the core is the core. *)
Record lock_inv l : Prop := {
  li_owner m i : lo_owner (lk_locks l m) = Some i ->
    exists t, lk_threads l !! i = Some t /\ m ∈ needs (tl_pc t);
  li_held i t m : lk_threads l !! i = Some t -> m ∈ held_at (tl_pc t) -> lo_owner (lk_locks l m) = Some i;
  li_seen i t c : lk_threads l !! i = Some t -> tl_seen t = Some c ->
    lo_owner (lk_locks l CoreLock) = Some i /\
    cn_core (lk_conn l) = set_co_world c (co_world (cn_core (lk_conn l)));
}.

Lemma at_rest_inv l : at_rest l -> lock_inv l.
Proof.
  intros [Hl Ht]. split.
  - intros m i. by rewrite Hl.
  - intros i t m Hi Hm. destruct (Ht i t Hi) as [Hb _]. apply between_needs in Hb.
    assert (m ∈ needs (tl_pc t)) as Hn by (apply elem_needs; by left). by rewrite Hb, elem_of_nil in Hn.
  - intros i t c Hi Hs. destruct (Ht i t Hi) as [_ Hn]. congruence.
Qed.

(** Inside its section a thread owns every lock the section needs. *)
Lemma inside_owns l i t m :
  lock_inv l -> lk_threads l !! i = Some t -> awaits (lk_locks l) i (tl_pc t) = None ->
  m ∈ needs (tl_pc t) -> lo_owner (lk_locks l m) = Some i.
Proof. intros Hv Hi Ha [Hh|Hw]%elem_needs; [by eapply li_held|by eapply awaits_None]. Qed.

(** What a section works on is the connection as it stands. *)
Lemma working_current l i t :
  lock_inv l -> lk_threads l !! i = Some t -> working (lk_conn l) (tl_seen t) = lk_conn l.
Proof.
  intros Hv Hi. unfold working. destruct (tl_seen t) as [c|] eqn:Hs; [|done].
  destruct (li_seen l Hv i t c Hi Hs) as [_ <-]. by destruct (lk_conn l).
Qed.

(** The other threads keep what they own when one finishes or leaves. *)
Lemma inv_release l i t n' pc' :
  lock_inv l -> lk_threads l !! i = Some t ->
  (forall m, m ∈ held_at pc' -> lo_owner (lk_locks l m) = Some i) ->
  (lo_owner (lk_locks l CoreLock) = Some i \/
   cn_core n' = set_co_world (cn_core (lk_conn l)) (co_world (cn_core n'))) ->
  lock_inv (mkLocked n' (release (lk_locks l) i pc') (<[i := mkThread pc' None]> (lk_threads l))).
Proof.
  intros Hv Hi Hheld Hcore. split; cbn [lk_conn lk_locks lk_threads].
  - intros m k [Hk Hh]%release_owner. destruct (decide (k = i)) as [->|Hki].
    + exists (mkThread pc' None). rewrite lookup_insert_eq. split; [done|]. apply elem_needs. left. by apply Hh.
    + rewrite lookup_insert_ne by done. by eapply li_owner.
  - intros k u m Hk Hm. apply release_owner. destruct (decide (k = i)) as [->|Hki].
    + rewrite lookup_insert_eq in Hk. injection Hk as <-. split; [by apply Hheld|done].
    + rewrite lookup_insert_ne in Hk by done. split; [by eapply li_held|done].
  - intros k u c Hk Hs. destruct (decide (k = i)) as [->|Hki].
    + rewrite lookup_insert_eq in Hk. by injection Hk as <-.
    + rewrite lookup_insert_ne in Hk by done. destruct (li_seen l Hv k u c Hk Hs) as [Ho Hc].
      split; [by apply release_owner|]. destruct Hcore as [Hi'|Hn]; [congruence|].
      rewrite Hn. cbn. rewrite Hc. done.
Qed.

Lemma moved_inv l i l' : lock_inv l -> moved l i l' -> lock_inv l'.
Proof.
  intros Hv [t m Hi Ha Hm|t m Hi Ha Hm|t Hi Ha Hc Hs|t n' pc' Hi Ha Hc E].
  - apply awaits_Some in Ha as [Hw _]. split; cbn [lk_conn lk_locks lk_threads].
    + intros k j. destruct (decide (m = k)) as [<-|Hmk]; [|rewrite fn_lookup_insert_ne by done; by apply li_owner].
      rewrite fn_lookup_insert. intros [= <-]. exists t. split; [done|]. apply elem_needs. by right.
    + intros j u k Hj Hk. pose proof (li_held l Hv j u k Hj Hk) as Ho.
      destruct (decide (m = k)) as [<-|Hmk]; [by rewrite Hm in Ho|by rewrite fn_lookup_insert_ne].
    + intros j u c Hj Hs. destruct (li_seen l Hv j u c Hj Hs) as [Ho Hcore].
      destruct (decide (m = CoreLock)) as [->|Hmk]; [by rewrite Hm in Ho|by rewrite fn_lookup_insert_ne].
  - eapply inv_release; [done|exact Hi| |].
    + intros k Hk. by apply elem_of_nil in Hk.
    + right. by destruct (cn_core (lk_conn l)).
  - assert (lo_owner (lk_locks l CoreLock) = Some i) as Ho by by eapply awaits_None, touches_wants.
    split; cbn [lk_conn lk_locks lk_threads].
    + intros m k (u & Hu & Hn)%(li_owner l Hv). destruct (decide (k = i)) as [->|Hki].
      * exists (mkThread (tl_pc t) (Some (cn_core (lk_conn l)))). rewrite lookup_insert_eq. by simplify_eq.
      * exists u. by rewrite lookup_insert_ne.
    + intros k u m Hk. destruct (decide (k = i)) as [->|Hki].
      * rewrite lookup_insert_eq in Hk. injection Hk as <-. exact (li_held l Hv i t m Hi).
      * rewrite lookup_insert_ne in Hk by done. exact (li_held l Hv k u m Hk).
    + intros k u c Hk Hc'. destruct (decide (k = i)) as [->|Hki].
      * rewrite lookup_insert_eq in Hk. injection Hk as <-. cbn in Hc'. injection Hc' as <-.
        split; [done|]. by destruct (cn_core (lk_conn l)).
      * rewrite lookup_insert_ne in Hk by done. by eapply li_seen.
  - rewrite (working_current l i t Hv Hi) in E. eapply inv_release; [done|exact Hi| |].
    + intros m Hm. eapply inside_owns; [done|exact Hi|exact Ha|]. by eapply advance_held.
    + destruct (touches_core (tl_pc t)) eqn:Ht; [left|right; by eapply advance_outside].
      by eapply awaits_None, touches_wants.
Qed.

Lemma call_inv l i t pc' :
  lock_inv l -> lk_threads l !! i = Some t -> between_calls (tl_pc t) = true -> entry pc' = true ->
  lock_inv (mkLocked (lk_conn l) (lk_locks l) (<[i := mkThread pc' None]> (lk_threads l))).
Proof.
  intros Hv Hi Hb He. split; cbn [lk_conn lk_locks lk_threads].
  - intros m k Hk. destruct (li_owner l Hv m k Hk) as (u & Hu & Hn). destruct (decide (k = i)) as [->|Hki].
    + simplify_eq. rewrite between_needs in Hn by done. by apply elem_of_nil in Hn.
    + exists u. by rewrite lookup_insert_ne.
  - intros k u m Hk Hm. destruct (decide (k = i)) as [->|Hki].
    + rewrite lookup_insert_eq in Hk. injection Hk as <-. rewrite entry_held in Hm by done.
      by apply elem_of_nil in Hm.
    + rewrite lookup_insert_ne in Hk by done. by eapply li_held.
  - intros k u c Hk Hs. destruct (decide (k = i)) as [->|Hki].
    + rewrite lookup_insert_eq in Hk. by injection Hk as <-.
    + rewrite lookup_insert_ne in Hk by done. by eapply li_seen.
Qed.

Lemma lstep_inv l l' : LStep l l' -> lock_inv l -> lock_inv l'.
Proof.
  intros [l0 i l0' Hm|l0 i t pc' Hi Hb He|l0 x Hl|l0 w Hw] Hv.
  - by eapply moved_inv, move_moved.
  - by eapply call_inv.
  - split; cbn [lk_conn lk_locks lk_threads]; [apply Hv..|].
    intros i t c Hi Hs. destruct (li_seen l0 Hv i t c Hi Hs) as [Ho _]. by rewrite Hl in Ho.
  - split; cbn [lk_conn lk_locks lk_threads]; [apply Hv..|].
    intros i t c Hi Hs. destruct (li_seen l0 Hv i t c Hi Hs) as [Ho Hc]. split; [done|].
    unfold set_world. cbn. by rewrite Hc.
Qed.

Lemma lsteps_inv l l' : LSteps l l' -> lock_inv l -> lock_inv l'.
Proof. induction 1; eauto using lstep_inv. Qed.

(** ** Sections act as if they were atomic *)
Lemma step_poisoned l l' m :
  LStep l l' -> lo_poisoned (lk_locks l m) = true -> lo_poisoned (lk_locks l' m) = true.
Proof.
  intros [l0 i l0' Hm|l0 i t pc' Hi Hb He|l0 x Hl|l0 w Hw] Hp; try done.
  apply move_moved in Hm as [t k Hi Ha Hk|t k Hi Ha Hk|t Hi Ha Hc Hs|t n' pc' Hi Ha Hc E];
    cbn [lk_locks]; try by apply release_poisoned.
  - destruct (decide (k = m)) as [->|Hkm]; [by rewrite Hk in Hp|by rewrite fn_lookup_insert_ne].
  - done.
Qed.

Lemma steps_poisoned l l' m :
  LSteps l l' -> lo_poisoned (lk_locks l m) = true -> lo_poisoned (lk_locks l' m) = true.
Proof. induction 1; eauto using step_poisoned. Qed.

(** A section under the reader's lock finds no other thread with it. *)
Lemma finished_step l i t n' pc' :
  lock_inv l -> lk_threads l !! i = Some t -> awaits (lk_locks l) i (tl_pc t) = None ->
  advance true (lk_conn l) (tl_pc t) = Some (n', pc') ->
  Step (unlocked l) (mkThreads n' (<[i := pc']> (tl_pc <$> lk_threads l))).
Proof.
  intros Hv Hi Ha E. eapply (StepThread (unlocked l) i (tl_pc t)); [by unfold unlocked; cbn; rewrite lookup_fmap, Hi|].
  cbn [th_conn unlocked]. destruct (reader_free (unlocked l)) eqn:Hf; [done|].
  destruct (decide (wants (tl_pc t) = Some ReaderLock)) as [Hw|Hw]; [|by rewrite advance_any].
  exfalso. apply holder in Hf as (k & pc & Hk & Hh). unfold unlocked in Hk. cbn in Hk.
  rewrite lookup_fmap in Hk. destruct (lk_threads l !! k) as [u|] eqn:Hu; [|done]. cbn in Hk. injection Hk as <-.
  pose proof (li_held l Hv k u ReaderLock Hu (reader_held _ Hh)) as Ho.
  rewrite (awaits_None _ _ _ _ Ha Hw) in Ho. injection Ho as ->. rewrite Hi in Hu. injection Hu as ->.
  by destruct (tl_pc u).
Qed.

Lemma step_refines l l' :
  lock_inv l -> LStep l l' -> (forall m, lo_poisoned (lk_locks l' m) = false) -> Steps (unlocked l) (unlocked l').
Proof.
  intros Hv Hs. revert Hv. destruct Hs as [l0 i l0' Hm|l0 i t pc' Hi Hb He|l0 x Hl|l0 w Hw]; intros Hv Hp.
  - apply move_moved in Hm. revert Hp.
    destruct Hm as [t k Hi Ha Hk|t k Hi Ha Hk|t Hi Ha Hc Hs|t n' pc' Hi Ha Hc E]; intros Hp.
    + apply rtc_refl.
    + specialize (Hp k). cbn [lk_locks] in Hp. rewrite release_poisoned in Hp; [done|by rewrite Hk].
    + unfold unlocked. cbn [lk_conn lk_threads]. rewrite fmap_insert. cbn [tl_pc].
      rewrite insert_id; [apply rtc_refl|]. by rewrite lookup_fmap, Hi.
    + rewrite (working_current l0 i t Hv Hi) in E. apply rtc_once. unfold unlocked at 2. cbn [lk_conn lk_threads].
      rewrite fmap_insert. by apply (finished_step _ _ t).
  - apply rtc_once. unfold unlocked at 2. cbn [lk_conn lk_threads]. rewrite fmap_insert.
    eapply (StepCall (unlocked l0) i (tl_pc t)); [by unfold unlocked; cbn; rewrite lookup_fmap, Hi|done..].
  - apply rtc_once. exact (StepSet (unlocked l0) x).
  - apply rtc_once. exact (StepWorld (unlocked l0) w Hw).
Qed.

Lemma steps_refine l l' :
  LSteps l l' -> lock_inv l -> (forall m, lo_poisoned (lk_locks l' m) = false) -> Steps (unlocked l) (unlocked l').
Proof.
  induction 1 as [l|l1 l2 l3 Hs Hr IH]; intros Hv Hp; [apply rtc_refl|].
  etrans; [|apply IH; [by eapply lstep_inv|exact Hp]]. apply step_refines; [done..|].
  intros m. specialize (Hp m). destruct (lo_poisoned (lk_locks l2 m)) eqn:E; [|done].
  by rewrite (steps_poisoned _ _ _ Hr E) in Hp.
Qed.

Lemma lstep_fresh l l' : lock_inv l -> LStep l l' -> conn_fresh (lk_conn l) (lk_conn l').
Proof.
  intros Hv Hs. revert Hv.
  destruct Hs as [l0 i l0' Hm|l0 i t pc' Hi Hb He|l0 x Hl|l0 w Hw]; intros Hv; [|done| |by apply core_same].
  - apply move_moved in Hm as [t k Hi Ha Hk|t k Hi Ha Hk|t Hi Ha Hc Hs|t n' pc' Hi Ha Hc E]; try done.
    rewrite (working_current l0 i t Hv Hi) in E. by apply advance_fresh in E.
  - destruct x; by apply core_same.
Qed.

Lemma lsteps_fresh l l' : LSteps l l' -> lock_inv l -> conn_fresh (lk_conn l) (lk_conn l').
Proof.
  induction 1 as [l|l1 l2 l3 Hs _ IH]; intros Hv; [done|].
  etrans; [by apply lstep_fresh|by eapply IH, lstep_inv].
Qed.

(** ** Progress *)
Definition can_move l : Prop := exists i l', move l i = Some l'.

(** A thread is inside a read that has not come back. *)
Definition reading l : Prop := exists i t j wait since,
  lk_threads l !! i = Some t /\ tl_pc t = PumpRead j wait since /\
  read_returns (co_world (cn_core (lk_conn l))) wait since = false.

(** A thread that has its locks waits for nothing but the socket. *)
Lemma inside_moves l i t :
  lock_inv l -> lk_threads l !! i = Some t -> between_calls (tl_pc t) = false ->
  awaits (lk_locks l) i (tl_pc t) = None -> (exists l', move l i = Some l') \/ wants (tl_pc t) = None /\ reading l.
Proof.
  intros Hv Hi Hb Ha. unfold move. rewrite Hi. cbn [mbind option_bind]. rewrite Ha, (working_current l i t Hv Hi).
  destruct (touches_core (tl_pc t) && _); [by left; eexists|].
  destruct (advance_total true (lk_conn l) (tl_pc t) Hb) as [(n' & pc' & E)|[|(j & wait & since & E & Hr)]]; [|done|].
  - left. rewrite E. by eexists.
  - right. rewrite E. split; [done|]. by exists i, t, j, wait, since.
Qed.

Lemma taking_moves l i t m :
  lk_threads l !! i = Some t -> awaits (lk_locks l) i (tl_pc t) = Some m -> lo_owner (lk_locks l m) = None ->
  exists l', move l i = Some l'.
Proof.
  intros Hi Ha Ho. unfold move. rewrite Hi. cbn [mbind option_bind]. rewrite Ha, Ho. cbn.
  destruct (lo_poisoned _); by eexists.
Qed.

(** Whoever has the core's lock can go on: it waits for no lock and no read. *)
Lemma core_owner l i :
  lock_inv l -> lo_owner (lk_locks l CoreLock) = Some i ->
  exists t, lk_threads l !! i = Some t /\ wants (tl_pc t) = Some CoreLock /\
    awaits (lk_locks l) i (tl_pc t) = None /\ exists l', move l i = Some l'.
Proof.
  intros Hv Ho. destruct (li_owner l Hv _ _ Ho) as (t & Hi & [Hh|Hw]%elem_needs).
  { by apply held_reader in Hh as [? _]. }
  assert (awaits (lk_locks l) i (tl_pc t) = None) as Ha.
  { unfold awaits. rewrite Hw. cbn. by rewrite (proj2 (owns_spec _ _ _) Ho). }
  exists t. split; [done|]. split; [done|]. split; [done|].
  destruct (inside_moves l i t Hv Hi) as [|[Hn _]]; [by destruct (tl_pc t)|done|done|congruence].
Qed.

Lemma core_waiter_moves l i t :
  lock_inv l -> lk_threads l !! i = Some t -> awaits (lk_locks l) i (tl_pc t) = Some CoreLock -> can_move l.
Proof.
  intros Hv Hi Ha. destruct (lo_owner (lk_locks l CoreLock)) as [k|] eqn:Ho.
  - destruct (core_owner l k Hv Ho) as (u & _ & _ & _ & l' & Hm). by exists k, l'.
  - destruct (taking_moves l i t _ Hi Ha Ho) as [l' Hm]. by exists i, l'.
Qed.

Lemma no_deadlock l i t :
  lock_inv l -> lk_threads l !! i = Some t -> between_calls (tl_pc t) = false -> can_move l \/ reading l.
Proof.
  intros Hv Hi Hb. destruct (awaits (lk_locks l) i (tl_pc t)) as [[]|] eqn:Ha.
  - left. by eapply core_waiter_moves.
  - destruct (lo_owner (lk_locks l ReaderLock)) as [k|] eqn:Ho.
    2: { left. destruct (taking_moves l i t _ Hi Ha Ho) as [l' Hm]. by exists i, l'. }
    destruct (li_owner l Hv _ _ Ho) as (u & Hk & Hn).
    assert (between_calls (tl_pc u) = false) as Hbu.
    { destruct (between_calls (tl_pc u)) eqn:E; [|done]. rewrite between_needs in Hn by done.
      by apply elem_of_nil in Hn. }
    destruct (awaits (lk_locks l) k (tl_pc u)) as [[]|] eqn:Hau.
    + left. by eapply core_waiter_moves.
    + by apply awaits_Some in Hau as [_ Hno].
    + destruct (inside_moves l k u Hv Hk Hbu Hau) as [[l' Hm]|[_ Hr]]; [left; by exists k, l'|by right].
  - destruct (inside_moves l i t Hv Hi Hb Ha) as [[l' Hm]|[_ Hr]]; [left; by exists i, l'|by right].
Qed.

(** ** A section under the core's lock runs to its end *)

(** Threads move, and neither the network nor the clock is waited for. *)
Definition stir l l' : Prop := exists i, move l i = Some l'.

Lemma stir_inv l l' : lock_inv l -> stir l l' -> lock_inv l'.
Proof. intros Hv [i Hm]. by eapply moved_inv, move_moved. Qed.

Lemma stirs_inv l l' : rtc stir l l' -> lock_inv l -> lock_inv l'.
Proof. induction 1; eauto using stir_inv. Qed.

(** A thread that has the core's lock and has read the core. *)
Lemma core_finishes l i t c :
  lock_inv l -> lk_threads l !! i = Some t -> tl_seen t = Some c -> wants (tl_pc t) = Some CoreLock ->
  exists n' pc' l', advance true (lk_conn l) (tl_pc t) = Some (n', pc') /\ stir l l' /\
    lk_threads l' = <[i := mkThread pc' None]> (lk_threads l) /\ lo_owner (lk_locks l' CoreLock) = None.
Proof.
  intros Hv Hi Hs Hw. destruct (li_seen l Hv i t c Hi Hs) as [Ho _].
  destruct (core_owner l i Hv Ho) as (u & Hi' & _ & Ha & l' & Hm). rewrite Hi in Hi'. injection Hi' as <-.
  pose proof Hm as Hm'. unfold move in Hm'. rewrite Hi in Hm'. cbn [mbind option_bind] in Hm'.
  rewrite Ha, (working_current l i t Hv Hi), Hs, andb_false_r in Hm'.
  destruct (advance true (lk_conn l) (tl_pc t)) as [[n' pc']|] eqn:E; [|done]. cbn in Hm'. injection Hm' as <-.
  exists n', pc'. eexists. split; [done|]. split; [by exists i|]. split; [done|]. cbn [lk_locks].
  destruct (lo_owner (release _ _ _ _)) as [k|] eqn:Hr; [|done].
  apply release_owner in Hr as [Hk Hh]. rewrite Ho in Hk. injection Hk as ->.
  by destruct (held_reader _ _ (Hh eq_refl)).
Qed.

Lemma core_section_runs l i t :
  lock_inv l -> lk_threads l !! i = Some t -> lo_owner (lk_locks l CoreLock) = Some i ->
  exists n' pc' l', advance true (lk_conn l) (tl_pc t) = Some (n', pc') /\ rtc stir l l' /\
    lk_threads l' = <[i := mkThread pc' None]> (lk_threads l) /\ lo_owner (lk_locks l' CoreLock) = None.
Proof.
  intros Hv Hi Ho. destruct (core_owner l i Hv Ho) as (u & Hi' & Hw & Ha & l1 & Hm).
  rewrite Hi in Hi'. injection Hi' as <-. destruct (tl_seen t) as [c|] eqn:Hs.
  { destruct (core_finishes l i t c Hv Hi Hs Hw) as (n' & pc' & l' & E & Hst & Hrest).
    exists n', pc', l'. split; [done|]. split; [by apply rtc_once|done]. }
  pose proof Hm as Hm'. unfold move in Hm'. rewrite Hi in Hm'. cbn [mbind option_bind] in Hm'.
  assert (touches_core (tl_pc t) = true) as Ht by by destruct (tl_pc t).
  rewrite Ha, Ht, Hs in Hm'. cbn in Hm'. injection Hm' as <-.
  assert (stir l _) as Hst by (exists i; exact Hm).
  destruct (core_finishes _ i (mkThread (tl_pc t) (Some (cn_core (lk_conn l)))) _
    (stir_inv _ _ Hv Hst) (lookup_insert_eq _ _ _) eq_refl Hw) as (n' & pc' & l' & E & Hst' & Hth & Hno).
  exists n', pc', l'. split; [exact E|]. split; [by eapply rtc_l, rtc_once|]. split; [|done].
  rewrite Hth. cbn [lk_threads]. by rewrite insert_insert_eq.
Qed.

Lemma free_core_runs l i t :
  lock_inv l -> lk_threads l !! i = Some t -> wants (tl_pc t) = Some CoreLock ->
  lo_owner (lk_locks l CoreLock) = None ->
  exists pc' l', rtc stir l l' /\ lk_threads l' !! i = Some (mkThread pc' None) /\
    (pc' = Returned (Err Closed) \/ exists n n', advance true n (tl_pc t) = Some (n', pc')).
Proof.
  intros Hv Hi Hw Ho.
  assert (awaits (lk_locks l) i (tl_pc t) = Some CoreLock) as Ha.
  { unfold awaits. rewrite Hw. cbn. unfold owns. by rewrite Ho. }
  destruct (taking_moves l i t _ Hi Ha Ho) as [l1 Hm]. assert (stir l l1) as Hst by by exists i.
  pose proof (stir_inv _ _ Hv Hst) as Hv1. unfold move in Hm. rewrite Hi in Hm. cbn [mbind option_bind] in Hm.
  rewrite Ha, Ho in Hm. cbn in Hm. destruct (lo_poisoned _); injection Hm as <-.
  - do 2 eexists. split; [by apply rtc_once|]. split; [apply lookup_insert_eq|by left].
  - destruct (core_section_runs _ i t Hv1 Hi) as (n' & pc' & l' & E & Hr & Hth & _).
    { cbn [lk_locks]. by rewrite fn_lookup_insert. }
    exists pc', l'. split; [by eapply rtc_l|]. split; [rewrite Hth; apply lookup_insert_eq|]. right. eauto.
Qed.

(** Its turn comes: a thread that wants the core's lock gets past its section. *)
Lemma core_turn l i t :
  lock_inv l -> lk_threads l !! i = Some t -> wants (tl_pc t) = Some CoreLock ->
  exists pc' l', rtc stir l l' /\ lk_threads l' !! i = Some (mkThread pc' None) /\
    (pc' = Returned (Err Closed) \/ exists n n', advance true n (tl_pc t) = Some (n', pc')).
Proof.
  intros Hv Hi Hw. destruct (lo_owner (lk_locks l CoreLock)) as [k|] eqn:Ho; [|by apply free_core_runs].
  destruct (core_owner l k Hv Ho) as (u & Hk & _).
  destruct (core_section_runs l k u Hv Hk Ho) as (n' & pc' & l1 & E & Hr & Hth & Hno).
  destruct (decide (k = i)) as [->|Hki].
  - rewrite Hi in Hk. injection Hk as <-. exists pc', l1. split; [done|].
    split; [rewrite Hth; apply lookup_insert_eq|]. right. eauto.
  - destruct (free_core_runs l1 i t (stirs_inv _ _ Hr Hv)) as (pc2 & l2 & Hr2 & Hrest); [|done|done|].
    { by rewrite Hth, lookup_insert_ne. }
    exists pc2, l2. split; [by etrans|done].
Qed.

Lemma send_returns l i t data pt :
  lock_inv l -> lk_threads l !! i = Some t -> tl_pc t = Sending data pt ->
  exists r l', rtc stir l l' /\ lk_threads l' !! i = Some (mkThread (Returned r) None).
Proof.
  intros Hv Hi Hpc. destruct (core_turn l i t Hv Hi) as (pc' & l' & Hr & Hth & Hout); [by rewrite Hpc|].
  destruct Hout as [->|(n & n' & E)]; [by exists (Err Closed), l'|].
  rewrite Hpc in E. cbn [advance] in E. apply (inj Some) in E.
  destruct (send n data pt) as [n1 [[]|e|]]; cbn in E; injection E as <- <-; by eexists _, l'.
Qed.
End steps.

(** ** Schedules *)
Section schedules.
Context {W : Type} `{SL : SocketLog W} {B : Blocking W} `{Crypto} `{ZstdLib}.

Inductive Turn := Begin (i : nat) (pc : Pc) | Next (i : nat).

Definition play_turn (l : Locked W) (x : Turn) : option (Locked W) :=
  match x with
  | Begin i pc' =>
      t ← lk_threads l !! i;
      if between_calls (tl_pc t) && entry pc'
      then Some (mkLocked (lk_conn l) (lk_locks l) (<[i := mkThread pc' None]> (lk_threads l))) else None
  | Next i => move l i
  end.

Fixpoint play_turns (l : Locked W) (xs : list Turn) : option (Locked W) :=
  match xs with [] => Some l | x :: xs => l ← play_turn l x; play_turns l xs end.

Lemma play_turns_steps l xs l' : play_turns l xs = Some l' -> LSteps l l'.
Proof.
  revert l. induction xs as [|x xs IH]; intros l; cbn [play_turns]; [intros [= <-]; apply rtc_refl|].
  destruct (play_turn l x) as [l1|] eqn:E; [|done]. intros Hp. eapply rtc_l; [|by apply IH].
  destruct x as [i pc'|i]; [|by apply (LMove _ i)]. cbn [play_turn] in E.
  destruct (lk_threads l !! i) as [t|] eqn:Hi; [|done]. cbn [mbind option_bind] in E.
  destruct (between_calls (tl_pc t) && entry pc') eqn:Hb; [|done]. apply andb_prop in Hb as [Hb He].
  injection E as <-. by eapply LCall.
Qed.
End schedules.

(** ** What the locks give *)

(** C25: threads sharing a connection do not deadlock. Both mutexes are in the
    state and a thread waits for each it asks for. From threads between calls
    and free locks, after any number of steps: a lock is held only by a thread
    whose present section needs it; a thread in [send] can return by steps of
    the threads alone, whatever the others hold or wait for and however long a
    read on another thread blocks; and whenever a thread is inside a call, some
    thread can take a step, unless one is waiting in the socket's read for the
    network or its timeout. This holds also after a panic has poisoned a lock. *)
Theorem locks_do_not_deadlock {W} `{SL : SocketLog W} {B : Blocking W} `{Crypto} `{ZstdLib} (l l' : Locked W) :
  at_rest l -> LSteps l l' ->
  (forall m i, lo_owner (lk_locks l' m) = Some i ->
     exists t, lk_threads l' !! i = Some t /\ m ∈ needs (tl_pc t)) /\
  (forall i t data pt, lk_threads l' !! i = Some t -> tl_pc t = Sending data pt ->
     exists r l'', rtc stir l' l'' /\ lk_threads l'' !! i = Some (mkThread (Returned r) None)) /\
  (forall i t, lk_threads l' !! i = Some t -> between_calls (tl_pc t) = false -> can_move l' \/ reading l').
Proof.
  intros Hr Hs. pose proof (lsteps_inv _ _ Hs (at_rest_inv _ Hr)) as Hv. split; [by apply li_owner|].
  split; [intros i t data pt; by apply send_returns|intros i t; by apply no_deadlock].
Qed.

(** C26: the locks make the critical sections atomic. A section reads the core
    when it begins and writes it back when it ends, with steps of other threads,
    of the network and of the clock in between; still, as long as no panic has
    poisoned a lock, every run of the threads with their locks is, once the
    locks are forgotten, a run in which each section is a single step. And
    poisoned or not, no two datagrams handed to the socket carry the same
    sequence number, as two threads that both read the counter would send. *)
Theorem sections_are_atomic {W} `{SL : SocketLog W} {B : Blocking W} `{Crypto} `{ZstdLib} (l l' : Locked W) :
  at_rest l -> LSteps l l' ->
  ((forall m, lo_poisoned (lk_locks l' m) = false) -> Steps (unlocked l) (unlocked l')) /\
  (is_u64 (core_seq (cn_core (lk_conn l))) ->
   Forall (fun f => 0 <= frame_sequence f < core_seq (cn_core (lk_conn l))) (core_sent (cn_core (lk_conn l))) ->
   NoDup (map frame_sequence (core_sent (cn_core (lk_conn l)))) ->
   NoDup (map frame_sequence (core_sent (cn_core (lk_conn l'))))).
Proof.
  intros Hr%at_rest_inv Hs. split; [by apply steps_refine|].
  intros Hq Hl Hd. by apply (fresh_distinct _ _ _ _ Hq (lsteps_fresh _ _ Hs Hr)).
Qed.

(** ** On a concrete host *)
#[local] Existing Instances Toy.crypto Toy.laws.
#[local] Existing Instances ToyZstd.zstd ToyZstd.laws.

Definition resting : Locked ToySock :=
  mkLocked (ToySock.connection []) (fun _ => mkLock None false)
    {[ 1%nat := mkThread Ready None; 2%nat := mkThread Ready None; 3%nat := mkThread Ready None ]}.

Lemma resting_at_rest : at_rest resting.
Proof.
  split; [done|]. unfold resting. cbn [lk_threads].
  apply map_Forall_insert_2; [done|]. apply map_Forall_insert_2; [done|]. by apply map_Forall_singleton.
Qed.

(** Thread 1 receives without a timeout and blocks in the read; thread 2 is in
    the middle of sending; thread 3, in a flush, waits for the core. *)
Definition contended : list Turn :=
  Begin 1 (RecvEnter (zeros 4)) :: replicate 14 (Next 1) ++
  [ Begin 2 (Sending [1; 2; 3] Opaque); Next 2; Next 2; Begin 3 (FlushEnter 100); Next 3 ].

Definition crowd : option (Locked ToySock) := play_turns resting contended.

Lemma crowd_reached :
  exists l, LSteps resting l /\ lo_owner (lk_locks l CoreLock) = Some 2%nat /\
    lo_owner (lk_locks l ReaderLock) = Some 1%nat /\
    (forall i, i = 1%nat \/ i = 3%nat -> is_some (move l i) = false) /\
    tl_pc <$> lk_threads l !! 2%nat = Some (Sending [1; 2; 3] Opaque).
Proof.
  assert ((fun l => (lo_owner (lk_locks l CoreLock), lo_owner (lk_locks l ReaderLock), is_some (move l 1),
      is_some (move l 3), tl_pc <$> lk_threads l !! 2%nat)) <$> crowd =
    Some (Some 2%nat, Some 1%nat, false, false, Some (Sending [1; 2; 3] Opaque)))
    as Hobs by (vm_compute; reflexivity).
  destruct crowd as [l|] eqn:E; [|discriminate Hobs]. exists l. split; [exact (play_turns_steps _ _ _ E)|].
  apply (inj Some) in Hobs.
  split; [exact (f_equal (fun x => x.1.1.1.1) Hobs)|]. split; [exact (f_equal (fun x => x.1.1.1.2) Hobs)|].
  split; [|exact (f_equal snd Hobs)].
  intros i [-> | ->]; [exact (f_equal (fun x => x.1.1.2) Hobs)|exact (f_equal (fun x => x.1.2) Hobs)].
Qed.

(** One thread blocked in the read with the reader's lock, one waiting for the
    core: the thread between them still returns from its send. *)
Lemma locks_do_not_deadlock_witness :
  exists l, LSteps resting l /\ lo_owner (lk_locks l CoreLock) = Some 2%nat /\
    lo_owner (lk_locks l ReaderLock) = Some 1%nat /\
    (forall i, i = 1%nat \/ i = 3%nat -> is_some (move l i) = false) /\
    exists r l'', rtc stir l l'' /\ lk_threads l'' !! 2%nat = Some (mkThread (Returned r) None).
Proof.
  destruct crowd_reached as (l & Hs & Hc & Hr & Hm & Hp). exists l.
  split; [exact Hs|]. split; [exact Hc|]. split; [exact Hr|]. split; [exact Hm|].
  destruct (lk_threads l !! 2%nat) as [t|] eqn:Ht; [|discriminate Hp]. cbn in Hp. injection Hp as Hp.
  exact (proj1 (proj2 (locks_do_not_deadlock resting l resting_at_rest Hs)) 2%nat t _ _ Ht Hp).
Defined.

(** The sender ends its section and sends again; then the thread in the flush
    takes the core. *)
Definition sent_two : option (Locked ToySock) :=
  play_turns resting (contended ++
    [ Next 2; Begin 2 (Sending [4] Opaque); Next 2; Next 2; Next 2; Next 3; Next 3 ]).

Lemma sent_two_reached :
  exists l, LSteps resting l /\ (forall m, lo_poisoned (lk_locks l m) = false) /\
    lo_owner (lk_locks l CoreLock) = Some 3%nat /\ length (core_sent (cn_core (lk_conn l))) = 2%nat.
Proof.
  assert ((fun l => (lo_poisoned (lk_locks l CoreLock), lo_poisoned (lk_locks l ReaderLock),
      lo_owner (lk_locks l CoreLock), length (core_sent (cn_core (lk_conn l))))) <$> sent_two =
    Some (false, false, Some 3%nat, 2%nat)) as Hobs by (vm_compute; reflexivity).
  destruct sent_two as [l|] eqn:E; [|discriminate Hobs]. exists l. split; [exact (play_turns_steps _ _ _ E)|].
  apply (inj Some) in Hobs.
  split; [|split; [exact (f_equal (fun x => x.1.2) Hobs)|exact (f_equal snd Hobs)]].
  intros []; [exact (f_equal (fun x => x.1.1.1) Hobs)|exact (f_equal (fun x => x.1.1.2) Hobs)].
Qed.

Lemma sections_are_atomic_witness :
  exists l, LSteps resting l /\ lo_owner (lk_locks l CoreLock) = Some 3%nat /\
    length (core_sent (cn_core (lk_conn l))) = 2%nat /\ Steps (unlocked resting) (unlocked l) /\
    NoDup (map frame_sequence (core_sent (cn_core (lk_conn l)))).
Proof.
  destruct sent_two_reached as (l & Hs & Hp & Ho & Hl). exists l.
  split; [exact Hs|]. split; [exact Ho|]. split; [exact Hl|].
  destruct (sections_are_atomic resting l resting_at_rest Hs) as [Hrun Hnum].
  split; [exact (Hrun Hp)|]. apply Hnum; [|constructor|constructor].
  vm_compute. split; [discriminate|reflexivity].
Defined.
