(* ===== verification/Text.v ===== *)
(** * Text (the parts of [str] the programs around the library use)

    A [str] is the list of its characters, as Unicode scalar values; what is
    indexed, counted and stored is its UTF-8 encoding. [from_utf8] is the
    validating decoder behind [fs::read_to_string]; [trim] and [lines] are the
    methods of the same names. *)
From Stdlib Require Import String Ascii.
From S2P Require Import Prelude Bytes.

Module Text.
(** A literal, which is ASCII throughout the sources. *)
Definition lit (s : string) : list Z := map (fun c => Z.of_nat (nat_of_ascii c)) (list_ascii_of_string s).

(** [char]: everything but the surrogates. *)
Definition scalar (c : Z) : bool := (0 <=? c) && (c <? 55296) || (57344 <=? c) && (c <=? 1114111).

Definition encode_char (c : Z) : bytes :=
  if c <? 128 then [c] else
  if c <? 2048 then [192 + c / 64; 128 + c mod 64] else
  if c <? 65536 then [224 + c / 4096; 128 + c / 64 mod 64; 128 + c mod 64] else
  [240 + c / 262144; 128 + c / 4096 mod 64; 128 + c / 64 mod 64; 128 + c mod 64].

(** [str::as_bytes]. *)
Definition utf8 (text : list Z) : bytes := concat (map encode_char text).

Definition within (lo b hi : Z) : bool := (lo <=? b) && (b <=? hi).
Definition continuation (b : Z) : bool := within 128 b 191.

(** The second byte of a sequence of three and of four: no longer than it has
    to be, no surrogate, nothing beyond the last plane. *)
Definition second_of_3 (b0 b1 : Z) : bool :=
  if b0 =? 224 then within 160 b1 191 else if b0 =? 237 then within 128 b1 159 else continuation b1.
Definition second_of_4 (b0 b1 : Z) : bool :=
  if b0 =? 240 then within 144 b1 191 else if b0 =? 244 then within 128 b1 143 else continuation b1.

(** [str::from_utf8], and the characters of the result. *)
Fixpoint from_utf8 (b : bytes) : option (list Z) :=
  match b with
  | [] => Some []
  | b0 :: r0 =>
      if within 0 b0 127 then cons b0 <$> from_utf8 r0 else
      match r0 with
      | [] => None
      | b1 :: r1 =>
          if within 194 b0 223 then
            if continuation b1 then cons ((b0 - 192) * 64 + (b1 - 128)) <$> from_utf8 r1 else None
          else
          match r1 with
          | [] => None
          | b2 :: r2 =>
              if within 224 b0 239 then
                if second_of_3 b0 b1 && continuation b2
                then cons ((b0 - 224) * 4096 + (b1 - 128) * 64 + (b2 - 128)) <$> from_utf8 r2 else None
              else
              match r2 with
              | [] => None
              | b3 :: r3 =>
                  if within 240 b0 244 && second_of_4 b0 b1 && continuation b2 && continuation b3
                  then cons ((b0 - 240) * 262144 + (b1 - 128) * 4096 + (b2 - 128) * 64 + (b3 - 128))
                         <$> from_utf8 r3
                  else None
              end
          end
      end
  end.

(** [char::is_whitespace]. *)
Definition is_whitespace (c : Z) : bool :=
  within 9 c 13 || (c =? 32) || (c =? 133) || (c =? 160) || (c =? 5760) || within 8192 c 8202
  || (c =? 8232) || (c =? 8233) || (c =? 8239) || (c =? 8287) || (c =? 12288).

Fixpoint trim_start (text : list Z) : list Z :=
  match text with
  | c :: rest => if is_whitespace c then trim_start rest else text
  | [] => []
  end.

Definition trim (text : list Z) : list Z := reverse (trim_start (reverse (trim_start text))).

(** [split_inclusive('\n')]: the pieces, each with its terminator. *)
Fixpoint split_inclusive (text : list Z) : list (list Z) :=
  match text with
  | [] => []
  | c :: rest =>
      if c =? 10 then [c] :: split_inclusive rest else
      match split_inclusive rest with
      | [] => [[c]]
      | piece :: pieces => (c :: piece) :: pieces
      end
  end.

(** A line without its terminator: a carriage return goes only with the line
    feed after it. *)
Definition strip_line (piece : list Z) : list Z :=
  match reverse piece with
  | 10 :: 13 :: rest => reverse rest
  | 10 :: rest => reverse rest
  | _ => piece
  end.

Definition lines (text : list Z) : list (list Z) := map strip_line (split_inclusive text).

Fixpoint starts_with (prefix line : list Z) : bool :=
  match prefix, line with
  | [], _ => true
  | c :: prefix, d :: line => (c =? d) && starts_with prefix line
  | _, [] => false
  end.

Fixpoint contains (needle line : list Z) : bool :=
  starts_with needle line || match line with [] => false | _ :: line => contains needle line end.

(** [str::is_char_boundary]. *)
Definition is_char_boundary (b : bytes) (i : Z) : bool :=
  (i =? len b) || match b !! Z.to_nat i with Some x => negb (continuation x) | None => false end.

(** [str::get(a..b)]. *)
Definition get (b : bytes) (i j : Z) : option bytes :=
  if (i <=? j) && (j <=? len b) && is_char_boundary b i && is_char_boundary b j
  then Some (takez (j - i) (dropz i b)) else None.

(** [u8::from_str_radix(_, 16)]: an optional plus sign, then digits of either
    case, as long as the number fits. *)
Definition to_digit (c : Z) : option Z :=
  if within 48 c 57 then Some (c - 48) else
  if within 97 c 102 then Some (c - 87) else
  if within 65 c 70 then Some (c - 55) else None.

Fixpoint digits (acc : Z) (s : bytes) : option Z :=
  match s with
  | [] => Some acc
  | c :: s => d ← to_digit c; let acc := acc * 16 + d in if acc <=? 255 then digits acc s else None
  end.

Definition u8_from_hex (s : bytes) : option Z :=
  match s with
  | [] | [43] | [45] => None
  | 43 :: s => digits 0 s
  | s => digits 0 s
  end.
End Text.

Section laws.
Import Text.

Lemma within_true lo b hi : within lo b hi = true <-> lo <= b <= hi.
Proof. unfold within. rewrite andb_true_iff. lia. Qed.

Lemma within_spec lo b hi : reflect (lo <= b <= hi) (within lo b hi).
Proof. apply iff_reflect. symmetry. apply within_true. Qed.

(** Decide the tests on bytes the goal branches on. *)
Ltac bytes_case :=
  unfold second_of_3, second_of_4, continuation in *;
  repeat match goal with
  | |- context [within ?a ?b ?c] => destruct (within_spec a b c); try lia
  | |- context [?a =? ?b] => destruct (Z.eqb_spec a b); try lia
  end; cbn [andb].

(** *** Encoding is undone by decoding *)
Lemma from_utf8_1 c rest : 0 <= c < 128 -> from_utf8 (c :: rest) = cons c <$> from_utf8 rest.
Proof. intros. cbn [from_utf8]. by bytes_case. Qed.

Lemma from_utf8_2 c rest :
  128 <= c < 2048 -> from_utf8 ([192 + c / 64; 128 + c mod 64] ++ rest) = cons c <$> from_utf8 rest.
Proof.
  intros. cbn [from_utf8 app]. Z.to_euclidean_division_equations. bytes_case. do 2 f_equal. lia.
Qed.

Lemma from_utf8_3 c rest :
  2048 <= c < 55296 \/ 57344 <= c < 65536 ->
  from_utf8 ([224 + c / 4096; 128 + c / 64 mod 64; 128 + c mod 64] ++ rest) = cons c <$> from_utf8 rest.
Proof.
  intros. cbn [from_utf8 app]. Z.to_euclidean_division_equations.
  bytes_case; (do 2 f_equal; lia).
Qed.

Lemma from_utf8_4 c rest :
  65536 <= c <= 1114111 ->
  from_utf8 ([240 + c / 262144; 128 + c / 4096 mod 64; 128 + c / 64 mod 64; 128 + c mod 64] ++ rest)
  = cons c <$> from_utf8 rest.
Proof.
  intros. cbn [from_utf8 app]. Z.to_euclidean_division_equations.
  bytes_case; (do 2 f_equal; lia).
Qed.

Lemma from_utf8_utf8 text : forallb scalar text = true -> from_utf8 (utf8 text) = Some text.
Proof.
  induction text as [|c text IH]; cbn [forallb]; [done|]. intros [Hc Ht]%andb_prop.
  unfold utf8 in *. cbn [map concat].
  assert (0 <= c < 55296 \/ 57344 <= c <= 1114111) by (unfold scalar in Hc; destruct (orb_prop _ _ Hc); zbool; lia).
  assert (from_utf8 (encode_char c ++ concat (map encode_char text)) = cons c <$> from_utf8 (concat (map encode_char text))) as ->.
  { unfold encode_char. repeat zcase; [apply from_utf8_1|apply from_utf8_2|apply from_utf8_3|apply from_utf8_4]; lia. }
  by rewrite IH.
Qed.

(** Bytes below 128 are the characters themselves. *)
Lemma utf8_ascii text : Forall (fun b => b < 128) (utf8 text) -> utf8 text = text.
Proof.
  induction text as [|c text IH]; [done|]. unfold utf8 in *. cbn [map concat]. intros [Hc Ht]%Forall_app.
  rewrite IH by done. unfold encode_char in *. zcase; [done|].
  repeat zcase_in Hc; inversion Hc; subst; Z.to_euclidean_division_equations; lia.
Qed.

Lemma utf8_id text : Forall (fun c => 0 <= c < 128) text -> utf8 text = text.
Proof.
  induction 1 as [|c text Hc _ IH]; [done|]. unfold utf8 in *. cbn [map concat]. rewrite IH.
  unfold encode_char. by zcase; [|lia].
Qed.

(** *** Trimming *)
Lemma trim_start_ws ws text : forallb is_whitespace ws = true -> trim_start (ws ++ text) = trim_start text.
Proof. induction ws as [|c ws IH]; cbn; [done|]. intros [-> ?]%andb_prop. auto. Qed.

Lemma trim_start_id text : forallb (fun c => negb (is_whitespace c)) text = true -> trim_start text = text.
Proof. destruct text as [|c text]; cbn; [done|]. intros [Hc _]%andb_prop. by apply negb_true_iff in Hc as ->. Qed.

Lemma forallb_reverse {A} (f : A -> bool) l : forallb f (reverse l) = forallb f l.
Proof.
  induction l as [|x l IH]; [done|]. rewrite reverse_cons, forallb_app, IH. cbn. destruct (f x), (forallb f l); done.
Qed.

(** White space around a text without any is all that goes. *)
Lemma trim_around ws text ws' :
  forallb is_whitespace ws = true -> forallb is_whitespace ws' = true ->
  forallb (fun c => negb (is_whitespace c)) text = true -> trim (ws ++ text ++ ws') = text.
Proof.
  intros Hl Hr Ht. unfold trim. rewrite trim_start_ws by done. destruct text as [|c text].
  - cbn. rewrite <- (app_nil_r ws'), trim_start_ws by done. done.
  - cbn [forallb app] in *. pose proof Ht as [Hc _]%andb_prop. cbn [trim_start]. apply negb_true_iff in Hc as Hc'. rewrite Hc'.
    change (c :: text ++ ws') with ((c :: text) ++ ws'). rewrite reverse_app.
    rewrite trim_start_ws by (by rewrite forallb_reverse).
    rewrite trim_start_id by (by rewrite forallb_reverse). apply reverse_involutive.
Qed.
End laws.
