(* ===== verification/KeyStore.v ===== *)
(** * Keys as text and as files (crates/fectp/examples/keys.rs)

    What a deployment keeps on disk: an identity in a file only its owner may
    read, and a list of the clients it will talk to. [Files] is a file system
    seen through its system calls: each may fail, as [fs_faults] says, and
    [fs_seen] is every state it went through, any of which another process, or
    this one started again after it was killed, may find. What reaches the
    medium is another matter: nothing here is ever synced, so a power failure
    may leave of a file written since only the beginning ([torn]). A path is
    the list of its components, the last one first. *)
From Stdlib Require Import String Ascii.
From stdpp Require Import gmap strings.
From S2P Require Import Prelude Bytes Error Frame Cipher Udp Connection Text.
Import Text.
Local Open Scope string_scope.
Local Open Scope list_scope.
Local Open Scope Z_scope.

Abbreviation FilePath := (list string).

Inductive Node := File (data : bytes) (mode : Z) | Dir (mode : Z).

Abbreviation Disk := (gmap FilePath Node).

(** [io::ErrorKind], the ones the code tells apart and those the calls give. *)
Inductive ErrorKind := NotFound | AlreadyExists | NotADirectory | IsADirectory | InvalidData | Other.

Record Files := mkFiles {
  fs_disk : Disk;
  fs_umask : Z;
  (** Which of the calls to come fail, whatever they ask. *)
  fs_faults : list bool;
  (** Every disk so far, in order. *)
  fs_seen : list Disk;
}.

Abbreviation IoResult := (result ErrorKind).

(** What a power failure may leave of the disk [d], when [safe] is what had
    reached the medium: every name is there, and the data of a file that was
    not [safe] is any beginning of what had been written. *)
Definition torn (safe d d' : Disk) : Prop :=
  forall p : FilePath, match d !! p with
  | Some (File data mode) =>
      exists part : bytes, d' !! p = Some (File part mode) /\ part `prefix_of` data /\
        (safe !! p = d !! p -> part = data)
  | n => d' !! p = n
  end.

Module Fs.
(** One system call: it fails and nothing happens, or it does its work. *)
Definition sys {A} (f : Files) (act : Disk -> IoResult (Disk * A)) : Files * IoResult A :=
  let f' := mkFiles (fs_disk f) (fs_umask f) (tail (fs_faults f)) (fs_seen f) in
  match head (fs_faults f) with
  | Some true => (f', Err Other)
  | _ =>
      match act (fs_disk f) with
      | Ok (d, a) => (mkFiles d (fs_umask f) (tail (fs_faults f)) (fs_seen f ++ [d]), Ok a)
      | Err k => (f', Err k)
      | Panic => (f', Panic)
      end
  end.

(** The directory a name is in: the working directory or the root for a path
    of one component. *)
Definition has_parent (d : Disk) (p : FilePath) : IoResult unit :=
  match p with
  | [] => Err NotFound
  | [_] => Ok tt
  | _ :: dir =>
      match d !! dir with
      | Some (Dir _) => Ok tt
      | Some (File _ _) => Err NotADirectory
      | None => Err NotFound
      end
  end.

Definition mkdir (f : Files) (p : FilePath) : Files * IoResult unit :=
  sys f (fun d =>
    let? _ := has_parent d p in
    match d !! p with
    | Some _ => Err AlreadyExists
    | None => Ok (<[p := Dir (Z.land 511 (Z.lnot (fs_umask f)))]> d, tt)
    end).

Definition stat (f : Files) (p : FilePath) : Files * IoResult Node :=
  sys f (fun d => match d !! p with Some n => Ok (d, n) | None => Err NotFound end).

(** [Path::is_dir]. *)
Definition is_dir (f : Files) (p : FilePath) : Files * bool :=
  let (f, r) := stat f p in (f, match r with Ok (Dir _) => true | _ => false end).

Definition chmod (f : Files) (p : FilePath) (mode : Z) : Files * IoResult unit :=
  sys f (fun d =>
    match d !! p with
    | Some (File data _) => Ok (<[p := File data mode]> d, tt)
    | Some (Dir _) => Ok (<[p := Dir mode]> d, tt)
    | None => Err NotFound
    end).

(** [fs::read]. *)
Definition read (f : Files) (p : FilePath) : Files * IoResult bytes :=
  sys f (fun d =>
    match d !! p with
    | Some (File data _) => Ok (d, data)
    | Some (Dir _) => Err IsADirectory
    | None => Err NotFound
    end).

(** [fs::read_to_string]. *)
Definition read_to_string (f : Files) (p : FilePath) : Files * IoResult (list Z) :=
  let! (f, data) := read f p in (f, ok_or (from_utf8 data) InvalidData).

(** [File::create]: a file that was there is emptied and keeps its mode. *)
Definition create (f : Files) (p : FilePath) : Files * IoResult unit :=
  sys f (fun d =>
    let? _ := has_parent d p in
    match d !! p with
    | Some (File _ mode) => Ok (<[p := File [] mode]> d, tt)
    | Some (Dir _) => Err IsADirectory
    | None => Ok (<[p := File [] (Z.land 438 (Z.lnot (fs_umask f)))]> d, tt)
    end).

(** [write_all], a byte at a time: a crash may fall between any two. *)
Definition append (f : Files) (p : FilePath) (b : Z) : Files * IoResult unit :=
  sys f (fun d =>
    match d !! p with
    | Some (File data mode) => Ok (<[p := File (data ++ [b]) mode]> d, tt)
    | _ => Err Other
    end).

Fixpoint write_all (f : Files) (p : FilePath) (data : bytes) : Files * IoResult unit :=
  match data with
  | [] => (f, Ok tt)
  | b :: data => let! (f, _) := append f p b in write_all f p data
  end.

(** [fs::write]. *)
Definition write (f : Files) (p : FilePath) (data : bytes) : Files * IoResult unit :=
  let! (f, _) := create f p in write_all f p data.

Definition rename (f : Files) (from to : FilePath) : Files * IoResult unit :=
  sys f (fun d =>
    let? _ := has_parent d to in
    match d !! from, d !! to with
    | Some (File data mode), Some (Dir _) => Err IsADirectory
    | Some (File data mode), _ => Ok (<[to := File data mode]> (delete from d), tt)
    | Some (Dir _), _ => Err Other
    | None, _ => Err NotFound
    end).

Definition remove_file (f : Files) (p : FilePath) : Files * IoResult unit :=
  sys f (fun d =>
    match d !! p with
    | Some (File _ _) => Ok (delete p d, tt)
    | Some (Dir _) => Err IsADirectory
    | None => Err NotFound
    end).

(** [fs::create_dir_all]: the parents first, and a directory that is there
    already is as good as a new one. *)
Fixpoint create_dir_all (f : Files) (p : FilePath) : Files * IoResult unit :=
  match p with
  | [] => (f, Ok tt)
  | _ :: parent =>
      let settle (f : Files) (k : ErrorKind) : Files * IoResult unit :=
        let (f, there) := is_dir f p in (f, if there then Ok tt else Err k) in
      let (f, r) := mkdir f p in
      match r with
      | Err NotFound =>
          let! (f, _) := create_dir_all f parent in
          let (f, r) := mkdir f p in
          match r with Err k => settle f k | r => (f, r) end
      | Err k => settle f k
      | r => (f, r)
      end
  end.

(** The part of a file name before its last dot, if it has one and does not
    begin with it. *)
Fixpoint before_last_dot (name : list ascii) : option (list ascii) :=
  match name with
  | [] => None
  | c :: rest =>
      match before_last_dot rest with
      | Some stem => Some (c :: stem)
      | None => if Ascii.eqb c "." then Some [] else None
      end
  end.

Definition file_stem (name : string) : string :=
  match before_last_dot (list_ascii_of_string name) with
  | Some (c :: stem) => string_of_list_ascii (c :: stem)
  | _ => name
  end.

(** [Path::with_extension]. *)
Definition with_extension (p : FilePath) (ext : string) : FilePath :=
  match p with
  | [] => []
  | name :: dir => if String.eqb name ".." then p else (file_stem name ++ "." ++ ext)%string :: dir
  end.
End Fs.

Module Keys.
(** ** Where the keys live *)
Definition join (p : FilePath) (name : string) : FilePath := name :: p.

(** [key_dir], of the variables that are set. *)
Definition key_dir (var : string -> option FilePath) : FilePath :=
  match var "FECTP_KEY_DIR" with
  | Some dir => dir
  | None =>
      let base :=
        match var "XDG_CONFIG_HOME" with
        | Some dir => Some dir
        | None => (fun h => join h ".config") <$> var "HOME"
        end in
      join (default ["."] base) "fectp-example"
  end.

Definition allow_list_path (dir : FilePath) : FilePath := join dir "allowed-clients.txt".

(** ** Hex *)
Definition hex_char (d : Z) : Z := if d <? 10 then 48 + d else 87 + d.

Definition to_hex (key : bytes) : list Z := concat (map (fun b => [hex_char (b / 16); hex_char (b mod 16)]) key).

Definition from_hex (text : list Z) : option bytes :=
  let text := utf8 (trim text) in
  if negb (len text =? 64) then None else
  mapM (fun i => pair ← get text (i * 2) (i * 2 + 2); u8_from_hex pair) (seqZ 0 32).

(** ** The allow-list *)
Definition starts_with_hash (line : list Z) : bool := match line with 35 :: _ => true | _ => false end.

Definition parse_allow_list (text : list Z) : gset bytes :=
  list_to_set (omap from_hex
    (filter (fun line => line <> [] /\ starts_with_hash line = false) (map trim (lines text)))).

Definition load_allow_list (f : Files) (dir : FilePath) : Files * HostResult (gset bytes) :=
  let (f, r) := Fs.read_to_string f (allow_list_path dir) in
  match r with
  | Ok text => (f, Ok (parse_allow_list text))
  | Err NotFound => (f, Ok ∅)
  | Err _ => (f, Err Io)
  | Panic => (f, Panic)
  end.

(** ** The identity *)
Definition io {A} (r : IoResult A) : HostResult A := map_err (fun _ => Io) r.

(** [metadata.permissions().mode()], with the type of the file in it. *)
Definition st_mode (n : Node) : Z :=
  match n with File _ mode => 32768 + mode | Dir mode => 16384 + mode end.

Definition check_permissions (f : Files) (path : FilePath) : Files * HostResult unit :=
  let (f, r) := Fs.stat f path in
  let! (f, n) := (f, io r) in
  if negb (Z.land (st_mode n) 63 =? 0) then (f, Err Io) else (f, Ok tt).

Definition create_private_dir (f : Files) (path : FilePath) : Files * HostResult unit :=
  let (f, r) := Fs.create_dir_all f path in
  let! (f, _) := (f, io r) in
  let (f, r) := Fs.chmod f path 448 in
  (f, io r).

Definition temporary (path : FilePath) : FilePath := Fs.with_extension path "tmp".

Definition write_secret (f : Files) (path : FilePath) (secret : bytes) : Files * HostResult unit :=
  let (f, r) := Fs.write f (temporary path) secret in
  let! (f, _) := (f, io r) in
  let (f, r) := Fs.chmod f (temporary path) 384 in
  let! (f, _) := (f, io r) in
  let (f, r) := Fs.rename f (temporary path) path in
  match r with
  | Err k => let (f, _) := Fs.remove_file f (temporary path) in (f, Err Io)
  | r => (f, io r)
  end.

Section identity.
Context `{Crypto}.

(** [random] is what [Identity::generate] draws, if it is called. *)
Definition load_or_create (f : Files) (random : bytes) (path : FilePath) : Files * HostResult Identity :=
  let! (f, _) := match path with [] => (f, Ok tt) | _ :: parent => create_private_dir f parent end in
  let (f, r) := Fs.read f path in
  match r with
  | Ok secret =>
      let! (f, _) := check_permissions f path in
      if len secret =? 32 then (f, Ok (Identity.from_secret secret)) else (f, Err Io)
  | Err NotFound =>
      let identity := Identity.from_secret random in
      let! (f, _) := write_secret f path (id_secret identity) in
      (f, Ok identity)
  | Err _ => (f, Err Io)
  | Panic => (f, Panic)
  end.
End identity.
End Keys.

(** ** Hex is read back *)
Section hex.
Import Keys.

(** The text of pairs of characters. *)
Definition unpair (ps : list (Z * Z)) : list Z := concat (map (fun p => [p.1; p.2]) ps).

Lemma unpair_cons p ps : unpair (p :: ps) = p.1 :: p.2 :: unpair ps.
Proof. done. Qed.

Lemma length_unpair ps : length (unpair ps) = (2 * length ps)%nat.
Proof. induction ps as [|p ps IH]; [done|]. rewrite unpair_cons. cbn [length]. lia. Qed.

Lemma unpair_app ps qs : unpair (ps ++ qs) = unpair ps ++ unpair qs.
Proof. unfold unpair. by rewrite map_app, concat_app. Qed.

Lemma paired n (l : list Z) : length l = (2 * n)%nat -> exists ps, l = unpair ps /\ length ps = n.
Proof.
  revert l. induction n as [|n IH]; intros l Hl; [exists []; by destruct l|].
  destruct l as [|a [|b l]]; cbn in Hl; [lia..|]. destruct (IH l) as (ps & -> & Hn); [lia|].
  exists ((a, b) :: ps). by rewrite unpair_cons, <- Hn.
Qed.

(** What [get] gives at the place of a pair. *)
Lemma get_pair ps i p :
  ps !! i = Some p ->
  get (unpair ps) (Z.of_nat i * 2) (Z.of_nat i * 2 + 2)
  = if is_char_boundary (unpair ps) (Z.of_nat i * 2) && is_char_boundary (unpair ps) (Z.of_nat i * 2 + 2)
    then Some [p.1; p.2] else None.
Proof.
  intros Hi. pose proof (lookup_lt_Some _ _ _ Hi) as Hlt. pose proof (length_unpair ps) as Hl.
  unfold get. rewrite len_length, Hl.
  assert ((Z.of_nat i * 2 <=? Z.of_nat i * 2 + 2) = true) as -> by (apply Z.leb_le; lia).
  assert ((Z.of_nat i * 2 + 2 <=? Z.of_nat (2 * length ps)) = true) as -> by (apply Z.leb_le; lia).
  cbn [andb]. destruct (_ && _); [|done]. f_equal.
  rewrite <- (take_drop_middle _ _ _ Hi), unpair_app, unpair_cons.
  assert (Hn : len (unpair (take i ps)) = Z.of_nat i * 2).
  { rewrite len_length, length_unpair, length_take. lia. }
  rewrite dropz_app_ge, dropz_0 by lia. change (p.1 :: p.2 :: ?l) with ([p.1; p.2] ++ l).
  rewrite takez_app_le by (cbn; len_lia). by rewrite takez_all by (cbn; len_lia).
Qed.

(** A pair of characters that stands for a byte. *)
Lemma to_digit_range c d : to_digit c = Some d -> 0 <= d < 16 /\ 48 <= c < 103.
Proof.
  unfold to_digit. repeat match goal with |- context [within ?a ?b ?c] => destruct (within_spec a b c) end;
    intros [= <-]; lia.
Qed.

Lemma digits_2 c1 c2 b :
  digits 0 [c1; c2] = Some b <-> exists d1 d2, to_digit c1 = Some d1 /\ to_digit c2 = Some d2 /\ b = d1 * 16 + d2.
Proof.
  cbn [digits]. destruct (to_digit c1) as [d1|] eqn:H1; cbn [mbind option_bind]; [|split; [done|by intros (? & ? & [=] & _)]].
  pose proof (to_digit_range _ _ H1). zcase; [|lia].
  destruct (to_digit c2) as [d2|] eqn:H2; cbn [mbind option_bind]; [|split; [done|by intros (? & ? & _ & [=] & _)]].
  pose proof (to_digit_range _ _ H2). zcase; [|lia].
  split; [intros [= <-]; eauto|]. intros (? & ? & [= <-] & [= <-] & ->). done.
Qed.

(** Two digits, or a plus sign and one. *)
Lemma u8_from_hex_pair c1 c2 b :
  u8_from_hex [c1; c2] = Some b <->
  (exists d1 d2, to_digit c1 = Some d1 /\ to_digit c2 = Some d2 /\ b = d1 * 16 + d2)
  \/ c1 = 43 /\ to_digit c2 = Some b.
Proof.
  destruct (decide (c1 = 43)) as [->|Hne].
  - assert (u8_from_hex [43; c2] = digits 0 [c2]) as -> by done. cbn [digits].
    split; [intros Hd; right; split; [done|]|intros [(d1 & d2 & [=] & _)|[_ Hd]]].
    + destruct (to_digit c2) as [d|]; [|done]. cbn [mbind option_bind] in Hd. zcase_in Hd; [|done]. by injection Hd as <-.
    + rewrite Hd. cbn [mbind option_bind]. apply to_digit_range in Hd. by zcase; [|lia].
  - rewrite <- digits_2. split; [intros Hd; left; rewrite <- Hd|intros [Hd|[? _]]; [rewrite <- Hd|done]].
    all: unfold u8_from_hex; by repeat case_match.
Qed.

Lemma u8_from_hex_range c1 c2 b : u8_from_hex [c1; c2] = Some b -> is_u8 b /\ 43 <= c1 < 128 /\ 43 <= c2 < 128.
Proof.
  intros [(d1 & d2 & H1%to_digit_range & H2%to_digit_range & ->)|[-> Hd%to_digit_range]]%u8_from_hex_pair; lia.
Qed.

(** Characters below 128 begin a character each. *)
Lemma ascii_boundary l i : Forall (fun c => 0 <= c < 128) l -> 0 <= i <= len l -> is_char_boundary l i = true.
Proof.
  intros Hl Hi. unfold is_char_boundary. destruct (Z.eqb_spec i (len l)) as [|Hne]; [done|].
  rewrite len_length in *. destruct (lookup_lt_is_Some_2 l (Z.to_nat i)) as [c Hc]; [lia|]. cbn. rewrite Hc.
  pose proof (proj1 (Forall_lookup _ _) Hl _ _ Hc) as Hb. cbn beta in Hb. unfold continuation. by destruct (within_spec 128 c 191); [lia|].
Qed.

Lemma unpair_ascii ps key :
  Forall2 (fun p b => u8_from_hex [p.1; p.2] = Some b) ps key -> Forall (fun c => 43 <= c < 128) (unpair ps).
Proof.
  induction 1 as [|p b ps key Hp _ IH]; [constructor|]. rewrite unpair_cons.
  apply u8_from_hex_range in Hp. repeat constructor; [lia..|done].
Qed.

Lemma Some_Forall2_inv {A B} (R : A -> B -> Prop) x y : option_Forall2 R (Some x) (Some y) -> R x y.
Proof. by inversion 1. Qed.

(** The loop of [from_hex] over a text of pairs. *)
Lemma parse_pairs ps key :
  mapM (fun i => pair ← get (unpair ps) (i * 2) (i * 2 + 2); u8_from_hex pair) (seqZ 0 (Z.of_nat (length ps))) = Some key
  <-> Forall2 (fun p b => u8_from_hex [p.1; p.2] = Some b) ps key.
Proof.
  rewrite mapM_Some, !Forall2_lookup.
  assert (Hseq : forall i, seqZ 0 (Z.of_nat (length ps)) !! i = (fun _ => Z.of_nat i) <$> ps !! i).
  { intros i. destruct (ps !! i) as [p|] eqn:Hi; cbn.
    - apply lookup_lt_Some in Hi. apply lookup_seqZ. lia.
    - apply lookup_ge_None in Hi. apply lookup_ge_None. rewrite length_seqZ. lia. }
  split.
  - intros Hf i. specialize (Hf i). rewrite Hseq in Hf. destruct (ps !! i) as [p|] eqn:Hi, (key !! i) as [b|]; cbn in Hf;
      try (by inversion Hf); constructor. apply Some_Forall2_inv in Hf. rewrite (get_pair _ _ _ Hi) in Hf. by destruct (_ && _).
  - intros Hf i. pose proof (proj2 (Forall2_lookup _ _ _) Hf) as Hall. apply unpair_ascii in Hall as Hasc.
    specialize (Hf i). rewrite Hseq. destruct (ps !! i) as [p|] eqn:Hi, (key !! i) as [b|]; cbn; try (by inversion Hf); constructor.
    apply Some_Forall2_inv in Hf.
    rewrite (get_pair _ _ _ Hi). apply lookup_lt_Some in Hi as Hlt.
    assert (Hasc' : Forall (fun c => 0 <= c < 128) (unpair ps)) by (eapply List.Forall_impl; [|exact Hasc]; cbn; lia).
    pose proof (length_unpair ps) as Hlen.
    rewrite !ascii_boundary by (try done; rewrite len_length; lia). exact Hf.
Qed.

Lemma from_hex_pairs text key :
  from_hex text = Some key <->
  exists ps, trim text = unpair ps /\ length ps = 32%nat /\ Forall2 (fun p b => u8_from_hex [p.1; p.2] = Some b) ps key.
Proof.
  unfold from_hex. split.
  - destruct (Z.eqb_spec (len (utf8 (trim text))) 64) as [Hl|]; cbn [negb]; [|done]. rewrite len_length in Hl.
    destruct (paired 32 (utf8 (trim text))) as (ps & Hps & Hn); [lia|]. rewrite Hps.
    change 32 with (Z.of_nat 32). rewrite <- Hn. intros Hk%parse_pairs. exists ps. split; [|by rewrite Hn].
    rewrite <- Hps. symmetry. apply utf8_ascii. rewrite Hps. eapply List.Forall_impl; [|by eapply unpair_ascii]. cbn. lia.
  - intros (ps & -> & Hn & Hk). rewrite utf8_id.
    2: { eapply List.Forall_impl; [|by eapply unpair_ascii]. cbn. lia. }
    assert ((len (unpair ps) =? 64) = true) as -> by (apply Z.eqb_eq; rewrite len_length, length_unpair; lia).
    cbn [negb]. change 32 with (Z.of_nat 32). rewrite <- Hn.
    by apply parse_pairs.
Qed.

Lemma to_digit_hex_char d : 0 <= d < 16 -> to_digit (hex_char d) = Some d.
Proof.
  intros Hd. unfold hex_char, to_digit.
  zcase; repeat match goal with |- context [within ?a ?b ?c] => destruct (within_spec a b c); try lia end; f_equal; lia.
Qed.

Definition hex_pair (b : Z) : Z * Z := (hex_char (b / 16), hex_char (b mod 16)).

Lemma to_hex_unpair key : to_hex key = unpair (map hex_pair key).
Proof. unfold to_hex, unpair. by rewrite map_map. Qed.

Lemma hex_pairs key : bytes_ok key -> Forall2 (fun p b => u8_from_hex [p.1; p.2] = Some b) (map hex_pair key) key.
Proof.
  induction 1 as [|b key Hb _ IH]; cbn [map]; constructor; [|exact IH]. apply u8_from_hex_pair. left.
  exists (b / 16), (b mod 16). cbn [hex_pair fst snd].
  split_and!; [apply to_digit_hex_char; Z.to_euclidean_division_equations; lia..|].
  Z.to_euclidean_division_equations; lia.
Qed.

Lemma solid_char c : 33 <= c < 128 -> is_whitespace c = false.
Proof.
  intros. unfold is_whitespace. repeat (apply orb_false_intro);
    try (apply Z.eqb_neq; lia);
    match goal with |- within ?a ?b ?d = false => destruct (within_spec a b d); [lia|done] end.
Qed.

Lemma solid_text l : Forall (fun c => 43 <= c < 128) l -> forallb (fun c => negb (is_whitespace c)) l = true.
Proof.
  intros Hl. apply forallb_forall. intros c Hc. apply negb_true_iff, solid_char.
  rewrite List.Forall_forall in Hl. specialize (Hl c Hc). lia.
Qed.

Lemma to_hex_ascii key : bytes_ok key -> Forall (fun c => 43 <= c < 128) (to_hex key).
Proof. intros. rewrite to_hex_unpair. by eapply unpair_ascii, hex_pairs. Qed.

Lemma trim_to_hex ws ws' key :
  forallb is_whitespace ws = true -> forallb is_whitespace ws' = true -> bytes_ok key ->
  trim (ws ++ to_hex key ++ ws') = to_hex key.
Proof. intros. apply trim_around; [done..|]. by apply solid_text, to_hex_ascii. Qed.

Lemma from_hex_around ws ws' key :
  forallb is_whitespace ws = true -> forallb is_whitespace ws' = true -> bytes_ok key -> len key = 32 ->
  from_hex (ws ++ to_hex key ++ ws') = Some key.
Proof.
  intros Hl Hr Hk Hn. apply from_hex_pairs. exists (map hex_pair key).
  rewrite trim_to_hex, to_hex_unpair, length_map by done. rewrite len_length in Hn.
  split; [done|]. split; [lia|by apply hex_pairs].
Qed.

Lemma from_hex_to_hex key : bytes_ok key -> len key = 32 -> from_hex (to_hex key) = Some key.
Proof. intros. rewrite <- (app_nil_r (to_hex key)). by apply (from_hex_around [] []). Qed.

(** *** Adding a line *)
Lemma split_inclusive_line l rest :
  Forall (fun c => c <> 10) l -> split_inclusive (l ++ 10 :: rest) = (l ++ [10]) :: split_inclusive rest.
Proof.
  induction 1 as [|c l Hc _ IH]; cbn [app split_inclusive]; [done|]. rewrite IH. by destruct (Z.eqb_spec c 10).
Qed.

Lemma split_inclusive_app text rest :
  split_inclusive ((text ++ [10]) ++ rest) = split_inclusive (text ++ [10]) ++ split_inclusive rest.
Proof.
  induction text as [|c text IH]; cbn [app split_inclusive]; [done|]. rewrite IH.
  destruct (c =? 10); [done|]. assert (split_inclusive (text ++ [10]) <> []).
  { clear. destruct text; cbn; repeat case_match; done. }
  by destruct (split_inclusive (text ++ [10])).
Qed.

Lemma strip_line_hex l : Forall (fun c => 43 <= c < 128) l -> l <> [] -> strip_line (l ++ [10]) = l.
Proof.
  intros Hl Hne. unfold strip_line. rewrite reverse_snoc. destruct (reverse l) as [|c r] eqn:Hr.
  - by apply (f_equal reverse) in Hr; rewrite reverse_involutive in Hr.
  - assert (43 <= c) by (rewrite <- Forall_reverse, Hr in Hl; inversion Hl; lia).
    apply (f_equal reverse) in Hr. rewrite reverse_involutive in Hr. rewrite Hr.
    destruct (decide (c = 13)) as [->|]; [lia|]. by repeat case_match.
Qed.

(** A file that is empty or ends its last line. *)
Definition whole_lines (text : list Z) : Prop := text = [] \/ exists t, text = t ++ [10].

Lemma lines_app text rest : whole_lines text -> lines (text ++ rest) = lines text ++ lines rest.
Proof. intros [->|[t ->]]; [done|]. unfold lines. by rewrite split_inclusive_app, map_app. Qed.

Lemma parse_allow_list_app text rest :
  whole_lines text -> parse_allow_list (text ++ rest) = parse_allow_list text ∪ parse_allow_list rest.
Proof.
  intros Ht. unfold parse_allow_list. rewrite lines_app by done.
  rewrite map_app, list.filter_app, omap_app. apply list_to_set_app_L.
Qed.

Lemma to_hex_shape key : bytes_ok key -> len key = 32 -> exists c l, to_hex key = c :: l /\ 43 <= c < 128.
Proof.
  intros Hk Hn. pose proof (to_hex_ascii key Hk) as Ha. destruct key as [|b key]; [done|].
  cbn in *. inversion Ha. eauto.
Qed.

Lemma parse_allow_list_key key : bytes_ok key -> len key = 32 -> parse_allow_list (to_hex key ++ [10]) = {[ key ]}.
Proof.
  intros Hk Hn. unfold parse_allow_list, lines. destruct (to_hex_shape key Hk Hn) as (c & l & Hs & Hc).
  pose proof (to_hex_ascii key Hk) as Ha.
  rewrite split_inclusive_line by (eapply List.Forall_impl; [|exact Ha]; cbn; lia). cbn [split_inclusive map].
  rewrite strip_line_hex by (done || by rewrite Hs).
  pose proof (trim_to_hex [] [] key eq_refl eq_refl Hk) as Ht. rewrite app_nil_r in Ht. cbn [app] in Ht. rewrite Ht.
  rewrite filter_cons_True, filter_nil. 2: { rewrite Hs. split; [done|]. cbn. by repeat case_match; try lia. }
  cbn [omap list_omap]. rewrite from_hex_to_hex by done. cbn. by rewrite union_empty_r_L.
Qed.
End hex.
