(* ===== verification/KeyStoreLaws.v ===== *)
(** * What a crash leaves of a key (crates/fectp/examples/keys.rs)

    Every disk a call of KeyStore.v passes through is one a process killed on
    the way could leave, and any system call may fail. [safe P f f'] says that
    if [P] holds of the disk before, it holds of every one on the way from [f]
    to [f']. The theorems show that a key file is replaced whole or not at all
    as far as any process can see, that a power failure can nevertheless leave
    the beginning of one at its real name, since it is never synced, that what
    is written is never readable by another account, that an identity survives
    restarts, and what the hex and the allow-list accept. *)
From Stdlib Require Import String.
From stdpp Require Import gmap strings.
From S2P Require Import Prelude Bytes Error Cipher Connection Text KeyStore.
Import Keys.

(** ** Every disk on the way *)
Definition safe (P : Disk -> Prop) (f f' : Files) : Prop :=
  P (fs_disk f) -> P (fs_disk f') /\ exists new, fs_seen f' = fs_seen f ++ new /\ Forall P new.

#[global] Instance safe_preorder P : PreOrder (safe P).
Proof.
  split; [intros f Hf; split; [done|]; exists []; by rewrite app_nil_r|].
  intros f1 f2 f3 H12 H23 H1. destruct (H12 H1) as (H2 & n1 & Hn1 & Hp1), (H23 H2) as (H3 & n2 & Hn2 & Hp2).
  split; [done|]. exists (n1 ++ n2). rewrite Hn2, Hn1, app_assoc. split; [done|by apply Forall_app].
Qed.

Section calls.
Context (P : Disk -> Prop).

(** A call is as safe as the change it makes. *)
Lemma sys_safe {A} (f : Files) (act : Disk -> IoResult (Disk * A)) :
  (P (fs_disk f) -> forall d a, act (fs_disk f) = Ok (d, a) -> P d) -> safe P f (Fs.sys f act).1.
Proof.
  intros Ha Hf. unfold Fs.sys. assert (Hid : safe P f (mkFiles (fs_disk f) (fs_umask f) (tail (fs_faults f)) (fs_seen f))).
  { intros ?. split; [done|]. exists []. by rewrite app_nil_r. }
  destruct (head (fs_faults f)) as [[]|]; [by apply Hid|..];
    (destruct (act (fs_disk f)) as [[d a]|?|] eqn:Hd; cbn [fst]; [|by apply Hid..]);
    specialize (Ha Hf _ _ eq_refl); (split; [done|]); exists [d]; by split; [|repeat constructor].
Qed.

(** Calls that only look. *)
Lemma look_safe {A} (f : Files) (act : Disk -> IoResult (Disk * A)) :
  (forall d d' a, act d = Ok (d', a) -> d' = d) -> safe P f (Fs.sys f act).1.
Proof. intros Ha. apply sys_safe. by intros ? d a ->%Ha. Qed.

Lemma stat_safe f p : safe P f (Fs.stat f p).1.
Proof. apply look_safe. intros d d' a. case_match; [|done]. by intros [= <- _]. Qed.

Lemma is_dir_safe f p : safe P f (Fs.is_dir f p).1.
Proof. unfold Fs.is_dir. pose proof (stat_safe f p). by destruct (Fs.stat f p). Qed.

Lemma read_safe f p : safe P f (Fs.read f p).1.
Proof. apply look_safe. intros d d' a. repeat case_match; try done. by intros [= <- _]. Qed.

Lemma check_permissions_safe f p : safe P f (check_permissions f p).1.
Proof.
  unfold check_permissions. pose proof (stat_safe f p). destruct (Fs.stat f p) as [f1 [n|?|]]; cbn; [|done..].
  by case_match.
Qed.

(** Calls that change one place: [P] does not depend on what is there. *)
Context (p : FilePath) (here : forall d n, P d -> P (<[p := n]> d)).

Lemma create_safe f : safe P f (Fs.create f p).1.
Proof.
  apply sys_safe. intros Hf d a. destruct (Fs.has_parent _ _); cbn; [|done..].
  repeat case_match; try done; intros [= <- _]; auto.
Qed.

Lemma chmod_safe f mode : safe P f (Fs.chmod f p mode).1.
Proof. apply sys_safe. intros Hf d a. repeat case_match; try done; intros [= <- _]; auto. Qed.

Lemma append_safe f b : safe P f (Fs.append f p b).1.
Proof. apply sys_safe. intros Hf d a. repeat case_match; try done; intros [= <- _]; auto. Qed.

Lemma write_all_safe f data : safe P f (Fs.write_all f p data).1.
Proof.
  revert f. induction data as [|b data IH]; intros f; cbn; [done|].
  pose proof (append_safe f b). destruct (Fs.append f p b) as [f1 [[]|?|]]; cbn; [|done..]. by etrans.
Qed.

Lemma write_safe f data : safe P f (Fs.write f p data).1.
Proof.
  unfold Fs.write. pose proof (create_safe f). destruct (Fs.create f p) as [f1 [[]|?|]]; cbn; [|done..].
  etrans; [done|apply write_all_safe].
Qed.

Lemma mkdir_safe f : safe P f (Fs.mkdir f p).1.
Proof.
  apply sys_safe. intros Hf d a. destruct (Fs.has_parent _ _); cbn; [|done..].
  case_match; [done|]. intros [= <- _]; auto.
Qed.

Lemma remove_file_safe f : (forall d, P d -> P (delete p d)) -> safe P f (Fs.remove_file f p).1.
Proof. intros Hd. apply sys_safe. intros Hf d a. repeat case_match; try done; intros [= <- _]; auto. Qed.
End calls.

(** Directories are made where the path leads and nowhere else. *)
Lemma create_dir_all_safe P f p :
  (forall q d n, q `suffix_of` p -> q <> [] -> d !! q = None -> P d -> P (<[q := n]> d)) -> safe P f (Fs.create_dir_all f p).1.
Proof.
  revert f. induction p as [|name dir IH]; intros f Hp; cbn [Fs.create_dir_all]; [done|].
  assert (Hmk : forall f, safe P f (Fs.mkdir f (name :: dir)).1).
  { intros f'. apply sys_safe. intros Hf d a. destruct (Fs.has_parent _ _); cbn; [|done..].
    case_match eqn:Hn; [done|]. intros [= <- _]. by apply Hp. }
  assert (Hset : forall f k, safe P f (let (f, there) := Fs.is_dir f (name :: dir) in
    (f, if there then Ok tt else Err k) : Files * IoResult unit).1).
  { intros f' k. pose proof (is_dir_safe P f' (name :: dir)). by destruct (Fs.is_dir _ _). }
  pose proof (Hmk f) as H1. destruct (Fs.mkdir f (name :: dir)) as [f1 [[]|[]|]]; cbn [fst] in *;
    try (etrans; [exact H1|apply Hset]); try exact H1.
  etrans; [exact H1|]. specialize (IH f1). destruct (Fs.create_dir_all f1 dir) as [f2 [[]|?|]]; cbn [fst] in *.
  - etrans; [apply IH|]. { intros q d n Hq. apply Hp. by apply suffix_cons_r. }
    pose proof (Hmk f2) as H2. destruct (Fs.mkdir f2 _) as [f3 [[]|?|]]; cbn [fst] in *; [done| |done].
    etrans; [exact H2|apply Hset].
  - apply IH. intros q d n Hq. apply Hp. by apply suffix_cons_r.
  - apply IH. intros q d n Hq. apply Hp. by apply suffix_cons_r.
Qed.

(** ** What a call that succeeds has done *)
Lemma sys_ok {A} (f : Files) (act : Disk -> IoResult (Disk * A)) (f' : Files) a :
  Fs.sys f act = (f', Ok a) -> act (fs_disk f) = Ok (fs_disk f', a).
Proof.
  unfold Fs.sys. destruct (head (fs_faults f)) as [[]|]; [done|..];
    (destruct (act (fs_disk f)) as [[d x]|?|] eqn:Hd; try done; by intros [= <- <-]).
Qed.

(** One that fails has done nothing. *)
Lemma sys_err {A} (f : Files) (act : Disk -> IoResult (Disk * A)) (f' : Files) r :
  Fs.sys f act = (f', r) -> (forall a, r <> Ok a) -> fs_disk f' = fs_disk f.
Proof.
  unfold Fs.sys. destruct (head (fs_faults f)) as [[]|]; [by intros [= <- <-]|..];
    (destruct (act (fs_disk f)) as [[d x]|?|] eqn:Hd; intros [= <- <-] Hr; try done; by destruct (Hr x)).
Qed.

(** With no faults ahead, what it does is what it would do. *)
Lemma sys_clear {A} (f : Files) (act : Disk -> IoResult (Disk * A)) :
  fs_faults f = [] -> fs_faults (Fs.sys f act).1 = [] /\
    (Fs.sys f act).2 = (let? da := act (fs_disk f) in Ok da.2).
Proof.
  intros Hf. unfold Fs.sys. rewrite Hf. cbn. by destruct (act (fs_disk f)) as [[d x]|?|].
Qed.

Lemma write_all_ok (f : Files) p data (f' : Files) old mode :
  Fs.write_all f p data = (f', Ok tt) -> fs_disk f !! p = Some (File old mode) ->
  fs_disk f' !! p = Some (File (old ++ data) mode).
Proof.
  revert f old. induction data as [|b data IH]; intros f old; cbn.
  - intros [= <-]. by rewrite app_nil_r.
  - destruct (Fs.append f p b) as [f1 [[]|?|]] eqn:Ha; cbn; try done. intros Hw Hp.
    apply sys_ok in Ha. cbn in Ha. rewrite Hp in Ha. injection Ha as Ha.
    rewrite (IH f1 (old ++ [b]) Hw); [by rewrite <- app_assoc|]. rewrite <- Ha. apply lookup_insert_eq.
Qed.

Lemma write_ok (f : Files) p data (f' : Files) :
  Fs.write f p data = (f', Ok tt) -> exists mode, fs_disk f' !! p = Some (File data mode).
Proof.
  unfold Fs.write. destruct (Fs.create f p) as [f1 [[]|?|]] eqn:Hc; cbn; try done. intros Hw.
  assert (exists mode, fs_disk f1 !! p = Some (File [] mode)) as [mode Hm].
  { apply sys_ok in Hc. destruct (Fs.has_parent _ _); cbn in Hc; try done.
    repeat case_match; try done; injection Hc as <-; eexists; apply lookup_insert_eq. }
  exists mode. by apply (write_all_ok _ _ _ _ [] mode Hw).
Qed.

Lemma chmod_file_ok (f : Files) p mode (f' : Files) data m :
  Fs.chmod f p mode = (f', Ok tt) -> fs_disk f !! p = Some (File data m) ->
  fs_disk f' !! p = Some (File data mode).
Proof. intros Hc%sys_ok Hp. cbn in Hc. rewrite Hp in Hc. injection Hc as <-. apply lookup_insert_eq. Qed.

Lemma rename_ok (f : Files) from to (f' : Files) data mode :
  from <> to -> Fs.rename f from to = (f', Ok tt) -> fs_disk f !! from = Some (File data mode) ->
  fs_disk f' !! to = Some (File data mode) /\ fs_disk f' !! from = None.
Proof.
  intros Hne Hr%sys_ok Hp. cbn in Hr. destruct (Fs.has_parent _ _); cbn in Hr; try done. rewrite Hp in Hr.
  assert (<[to:=File data mode]> (delete from (fs_disk f)) = fs_disk f') as <- by (repeat case_match; congruence).
  by rewrite lookup_insert_eq, lookup_insert_ne, lookup_delete_eq.
Qed.

Section secret.
Context (path : FilePath) (secret : bytes) (apart : temporary path <> path).

(** A place that is neither the key's nor the temporary one's. *)
Definition elsewhere (P : Disk -> Prop) : Prop :=
  (forall d n, P d -> P (<[temporary path := n]> d)) /\ (forall d, P d -> P (delete (temporary path) d)).

(** The steps of [write_secret], each safe for what does not depend on the
    temporary file; the rename as safe as its outcome. *)
Lemma write_secret_safe P f :
  elsewhere P ->
  (forall d, P d -> P (<[path := File secret 384]> (delete (temporary path) d))) ->
  safe P f (write_secret f path secret).1.
Proof.
  intros [Hins Hdel] Hren. unfold write_secret.
  pose proof (write_safe P (temporary path) Hins f secret) as H1.
  destruct (Fs.write _ _ _) as [f1 [[]|?|]] eqn:Hw; cbn in *; [|done..]. etrans; [exact H1|].
  apply write_ok in Hw as [m Hm]. pose proof (chmod_safe P (temporary path) Hins f1 384) as H2.
  destruct (Fs.chmod _ _ _) as [f2 [[]|?|]] eqn:Hc; cbn in *; [|done..]. etrans; [exact H2|].
  apply (chmod_file_ok _ _ _ _ _ _ Hc) in Hm as Hm2.
  assert (H3 : safe P f2 (Fs.rename f2 (temporary path) path).1).
  { apply sys_safe. intros Hf d a. destruct (Fs.has_parent _ _); cbn; [|done..]. rewrite Hm2.
    repeat case_match; try done; intros [= <- _]; by apply Hren. }
  destruct (Fs.rename _ _ _) as [f3 [[]|?|]]; cbn in *; [done| |done].
  pose proof (remove_file_safe P (temporary path) f3 Hdel) as H4. destruct (Fs.remove_file _ _); cbn in *. by etrans.
Qed.

(** Short of the rename, the key's own place is not touched. *)
Lemma untouched_insert (v : option Node) (d : Disk) (n : Node) : d !! path = v -> <[temporary path := n]> d !! path = v.
Proof. by rewrite lookup_insert_ne. Qed.

Lemma untouched_delete (v : option Node) (d : Disk) : d !! path = v -> delete (temporary path) d !! path = v.
Proof. by rewrite lookup_delete_ne. Qed.

(** How [write_secret] ends. *)
Lemma write_secret_ends (f f' : Files) r :
  write_secret f path secret = (f', r) ->
  r = Ok tt /\ fs_disk f' !! path = Some (File secret 384) /\ fs_disk f' !! temporary path = None
  \/ r <> Ok tt /\ fs_disk f' !! path = fs_disk f !! path.
Proof.
  set (P := fun d : Disk => d !! path = fs_disk f !! path).
  assert (Hins : forall d n, P d -> P (<[temporary path := n]> d)) by (intros; by apply untouched_insert).
  unfold write_secret. pose proof (write_safe P (temporary path) Hins f secret eq_refl) as [H1 _].
  destruct (Fs.write _ _ _) as [f1 [[]|?|]] eqn:Hw; cbn in *; [|by intros [= <- <-]; right..].
  apply write_ok in Hw as [m Hm]. pose proof (chmod_safe P (temporary path) Hins f1 384 H1) as [H2 _].
  destruct (Fs.chmod _ _ _) as [f2 [[]|?|]] eqn:Hc; cbn in *; [|by intros [= <- <-]; right..].
  apply (chmod_file_ok _ _ _ _ _ _ Hc) in Hm as Hm2.
  destruct (Fs.rename f2 _ _) as [f3 [[]|?|]] eqn:Hr; cbn in *.
  - intros [= <- <-]. left. split; [done|]. by eapply rename_ok.
  - apply sys_err in Hr as H3; [|done].
    pose proof (remove_file_safe P (temporary path) f3 (fun d => untouched_delete _ d)) as Hs.
    destruct (Fs.remove_file _ _) as [f4 ?]. intros [= <- <-]. right. split; [done|]. apply Hs. unfold P. by rewrite H3.
  - intros [= <- <-]. right. split; [done|]. apply sys_err in Hr as ->; done.
Qed.
End secret.

(** ** A directory of one's own *)
Lemma is_dir_ok (f : Files) p f' : Fs.is_dir f p = (f', true) -> exists mode, fs_disk f' !! p = Some (Dir mode).
Proof.
  unfold Fs.is_dir. destruct (Fs.stat f p) as [f1 [n|?|]] eqn:Hs; try done. destruct n; [done|].
  intros [= <-]. exists mode. apply sys_ok in Hs. cbn in Hs.
  destruct (fs_disk f !! p) eqn:Hp; [|done]. injection Hs as Hd ->. by rewrite <- Hd.
Qed.

Lemma mkdir_ok (f : Files) p f' : Fs.mkdir f p = (f', Ok tt) -> exists mode, fs_disk f' !! p = Some (Dir mode).
Proof.
  intros Hm%sys_ok. destruct (Fs.has_parent _ _); cbn in Hm; try done. case_match; [done|].
  injection Hm as <-. eexists. apply lookup_insert_eq.
Qed.

Lemma create_dir_all_ok (f f' : Files) p :
  p <> [] -> Fs.create_dir_all f p = (f', Ok tt) -> exists mode, fs_disk f' !! p = Some (Dir mode).
Proof.
  destruct p as [|name dir]; [done|]. intros _. cbn [Fs.create_dir_all].
  assert (Hset : forall f k, (let (f, there) := Fs.is_dir f (name :: dir) in
    (f, if there then Ok tt else Err k) : Files * IoResult unit) = (f', Ok tt) ->
    exists mode, fs_disk f' !! (name :: dir) = Some (Dir mode)).
  { intros g k. destruct (Fs.is_dir g (name :: dir)) as [g' []] eqn:Hd; [|done]. intros [= <-]. by eapply is_dir_ok. }
  destruct (Fs.mkdir f (name :: dir)) as [f1 [[]|[]|]] eqn:Hm; try apply Hset; try done.
  - intros [= <-]. by eapply mkdir_ok.
  - destruct (Fs.create_dir_all f1 dir) as [f2 [[]|?|]]; cbn; try done.
    destruct (Fs.mkdir f2 (name :: dir)) as [f3 [[]|k|]] eqn:Hm2; try done; [|apply Hset].
    intros [= <-]. by eapply mkdir_ok.
Qed.

Lemma create_private_dir_ok (f f' : Files) p :
  p <> [] -> create_private_dir f p = (f', Ok tt) -> fs_disk f' !! p = Some (Dir 448).
Proof.
  intros Hp. unfold create_private_dir. destruct (Fs.create_dir_all f p) as [f1 [[]|?|]] eqn:Hc; cbn; try done.
  destruct (Fs.chmod f1 p 448) as [f2 [[]|?|]] eqn:Hm; cbn; try done. intros [= <-].
  apply create_dir_all_ok in Hc as [m Hm1]; [|done]. apply sys_ok in Hm. cbn in Hm. rewrite Hm1 in Hm.
  injection Hm as <-. apply lookup_insert_eq.
Qed.

Lemma create_private_dir_safe P (f : Files) p :
  (forall q d n, q `suffix_of` p -> P d -> P (<[q := n]> d)) -> safe P f (create_private_dir f p).1.
Proof.
  intros Hp. unfold create_private_dir. pose proof (create_dir_all_safe P f p) as H1.
  destruct (Fs.create_dir_all f p) as [f1 [[]|?|]]; cbn in *; [|apply H1; auto..].
  etrans; [apply H1; auto|]. pose proof (chmod_safe P p (fun d n => Hp p d n ltac:(done)) f1 448) as H2.
  by destruct (Fs.chmod f1 p 448).
Qed.

(** Nothing inside a directory is on the way to it. *)
Lemma suffix_cons_ne {A} (q : list A) x (l : list A) : q `suffix_of` l -> q <> x :: l.
Proof. intros [k ->] Heq. apply (f_equal length) in Heq. cbn in Heq. rewrite length_app in Heq. lia. Qed.

Lemma temporary_cons name dir : exists name', temporary (name :: dir) = name' :: dir.
Proof. unfold temporary. cbn. case_match; eauto. Qed.

(** Another account can read the file at [p]: the file lets it, and so does
    the directory it is in. *)
Definition others_read (d : Disk) (p : FilePath) : bool :=
  match d !! p with
  | Some (File _ mode) =>
      negb (Z.land mode 36 =? 0) &&
      match d !! tail p with Some (Dir m) => negb (Z.land m 9 =? 0) | _ => true end
  | _ => false
  end.

Section identity.
Context `{Crypto} (name : string) (dir : FilePath).
Local Abbreviation path := (name :: dir).
Context (apart : temporary path <> path).

(** What the directory is private to, or the two files as they were. *)
Definition guarded (f0 : Files) (d : Disk) : Prop :=
  d !! dir = Some (Dir 448)
  \/ d !! path = fs_disk f0 !! path /\ d !! temporary path = fs_disk f0 !! temporary path.

Lemma path_ne_dir : path <> dir.
Proof. intros E. symmetry in E. by apply (suffix_cons_ne dir name dir) in E. Qed.

Lemma temporary_ne_dir : temporary path <> dir.
Proof.
  destruct (temporary_cons name dir) as [name' ->]. intros E. symmetry in E. by apply (suffix_cons_ne dir name' dir) in E.
Qed.

(** Making the directory leaves both files alone. *)
Lemma private_dir_untouched v v' (f : Files) :
  safe (fun d => d !! path = v /\ d !! temporary path = v') f (create_private_dir f dir).1.
Proof.
  apply create_private_dir_safe. intros q d n Hq [H1 H2]. destruct (temporary_cons name dir) as [name' Ht].
  rewrite !lookup_insert_ne; [done| |]; [rewrite Ht|]; by apply suffix_cons_ne.
Qed.

Lemma safe_weaken (P Q : Disk -> Prop) (f f' : Files) :
  safe P f f' -> P (fs_disk f) -> (forall d, P d -> Q d) -> safe Q f f'.
Proof.
  intros Hs Hp Hpq _. destruct (Hs Hp) as (Hd & new & Hn & Hf). split; [auto|]. exists new.
  split; [done|by eapply List.Forall_impl].
Qed.

(** Once the directory is private it stays so while the key is written. *)
Lemma write_secret_private (f : Files) secret :
  safe (fun d => d !! dir = Some (Dir 448)) f (write_secret f path secret).1.
Proof.
  pose proof path_ne_dir. pose proof temporary_ne_dir.
  apply write_secret_safe; [split|]; intros; by rewrite ?lookup_insert_ne, ?lookup_delete_ne.
Qed.

Lemma load_or_create_guarded (f : Files) random :
  dir <> [] -> safe (guarded f) f (load_or_create f random path).1.
Proof.
  intros Hdir. unfold load_or_create.
  pose proof (private_dir_untouched (fs_disk f !! path) (fs_disk f !! temporary path) f) as H1.
  assert (Hg : safe (guarded f) f (create_private_dir f dir).1).
  { eapply safe_weaken; [exact H1|done|]. by right. }
  destruct (create_private_dir f dir) as [f1 [[]|?|]] eqn:Hc; cbn in *; [|done..]. etrans; [exact Hg|].
  apply create_private_dir_ok in Hc; [|done].
  assert (Hpriv : forall g, safe (fun d => d !! dir = Some (Dir 448)) f1 g -> safe (guarded f) f1 g).
  { intros g Hs. eapply safe_weaken; [exact Hs|done|]. by left. }
  apply Hpriv. pose proof (read_safe (fun d => d !! dir = Some (Dir 448)) f1 path) as H2.
  destruct (Fs.read f1 path) as [f2 [data|[]|]]; cbn in *; try done; (etrans; [exact H2|]).
  - pose proof (check_permissions_safe (fun d => d !! dir = Some (Dir 448)) f2 path) as H3.
    destruct (check_permissions f2 path) as [f3 [[]|?|]]; cbn in *; [|done..]. by destruct (len data =? 32).
  - pose proof (write_secret_private f2 random) as H3.
    by destruct (write_secret f2 path random) as [f3 [[]|?|]].
Qed.

(** Looking at the disk leaves it as it was. *)
Lemma look_ok (f : Files) p (f' : Files) data :
  Fs.read f p = (f', Ok data) -> fs_disk f' = fs_disk f /\ exists mode, fs_disk f !! p = Some (File data mode).
Proof.
  intros Hr%sys_ok. destruct (fs_disk f !! p) as [[d m|m]|] eqn:Hp; try done. injection Hr as <- ->. eauto.
Qed.

Lemma private_mode mode : Z.land (32768 + mode) 63 = 0 <-> Z.land mode 63 = 0.
Proof.
  change 63 with (Z.ones 6). rewrite !Z.land_ones by done. by replace (32768 + mode) with (mode + 512 * 2 ^ 6) by (cbn; lia);
    rewrite Z.mod_add.
Qed.

Lemma check_permissions_ok (f f' : Files) p data mode :
  fs_disk f !! p = Some (File data mode) -> check_permissions f p = (f', Ok tt) ->
  fs_disk f' = fs_disk f /\ Z.land mode 63 = 0.
Proof.
  intros Hp. unfold check_permissions. destruct (Fs.stat f p) as [f1 [n|?|]] eqn:Hs; cbn; try done.
  apply sys_ok in Hs. cbn in Hs. rewrite Hp in Hs. injection Hs as Hd <-.
  destruct (Z.eqb_spec (Z.land (st_mode (File data mode)) 63) 0) as [Hm|]; cbn [negb]; [|done]. intros [= <-].
  split; [done|]. by apply private_mode.
Qed.

(** What is on disk when an identity is returned. *)
Lemma load_or_create_ok (f f' : Files) random i :
  len random = 32 -> load_or_create f random path = (f', Ok i) ->
  i = Identity.from_secret (id_secret i) /\ len (id_secret i) = 32 /\
  exists mode, fs_disk f' !! path = Some (File (id_secret i) mode) /\ Z.land mode 63 = 0.
Proof.
  intros Hlen. unfold load_or_create. destruct (create_private_dir f dir) as [f1 [[]|?|]]; cbn; try done.
  destruct (Fs.read f1 path) as [f2 [data|[]|]] eqn:Hr; cbn; try done.
  - apply look_ok in Hr as (Hd & mode & Hm). rewrite <- Hd in Hm.
    destruct (check_permissions f2 path) as [f3 [[]|?|]] eqn:Hp; cbn; try done.
    destruct (Z.eqb_spec (len data) 32); [|done].
    intros [= <- <-]. split_and!; [done..|]. cbn. destruct (check_permissions_ok _ _ _ _ _ Hm Hp) as [-> ?]. eauto.
  - destruct (write_secret f2 path random) as [f3 r] eqn:Hw.
    destruct (write_secret_ends path random apart _ _ _ Hw) as [(-> & Hp & _)|[Hr2 _]]; [|by destruct r as [[]|?|]].
    intros [= <- <-]. split_and!; [done..|]. eexists. split; [exact Hp|done].
Qed.

(** The directory is private by then. *)
Lemma load_or_create_dir (f f' : Files) random i :
  dir <> [] -> load_or_create f random path = (f', Ok i) -> fs_disk f' !! dir = Some (Dir 448).
Proof.
  intros Hdir Hl. set (P := fun d : Disk => d !! dir = Some (Dir 448)). revert Hl. unfold load_or_create.
  destruct (create_private_dir f dir) as [f1 [[]|?|]] eqn:Hc; cbn; try done.
  apply create_private_dir_ok in Hc; [|done]. pose proof (read_safe P f1 path Hc) as [Hr _].
  destruct (Fs.read f1 path) as [f2 [data|[]|]]; cbn in *; try done.
  - pose proof (check_permissions_safe P f2 path Hr) as [Hp _].
    destruct (check_permissions f2 path) as [f3 [[]|?|]]; cbn in *; try done. destruct (_ =? _); [|done]. by intros [= <- _].
  - pose proof (write_secret_private f2 random Hr) as [Hp _].
    destruct (write_secret f2 path random) as [f3 [[]|?|]]; cbn in *; try done. by intros [= <- _].
Qed.

(** A key that is there is the one that is loaded. *)
Lemma load_or_create_loads (f f' : Files) random i secret mode :
  fs_disk f !! path = Some (File secret mode) -> load_or_create f random path = (f', Ok i) ->
  i = Identity.from_secret secret.
Proof.
  intros Hp. unfold load_or_create.
  destruct (private_dir_untouched (fs_disk f !! path) (fs_disk f !! temporary path) f) as [[H1 _] _]; [done|].
  destruct (create_private_dir f dir) as [f1 [[]|?|]]; cbn in *; try done. rewrite Hp in H1.
  destruct (Fs.read f1 path) as [f2 [data|[]|]] eqn:Hr; cbn; try done.
  - apply look_ok in Hr as (_ & m & Hm). rewrite H1 in Hm. injection Hm as <- <-.
    destruct (check_permissions f2 path) as [f3 [[]|?|]]; cbn; try done. destruct (len secret =? 32); [|done]. by intros [= _ <-].
  - exfalso. unfold Fs.read, Fs.sys in Hr. rewrite H1 in Hr. by repeat case_match.
Qed.

(** One that is too short to be a key is not. *)
Lemma load_or_create_short (f f' : Files) random i part mode :
  fs_disk f !! path = Some (File part mode) -> len part < 32 -> load_or_create f random path <> (f', Ok i).
Proof.
  intros Hp Hlen. unfold load_or_create.
  destruct (private_dir_untouched (fs_disk f !! path) (fs_disk f !! temporary path) f) as [[H1 _] _]; [done|].
  destruct (create_private_dir f dir) as [f1 [[]|?|]]; cbn in *; try done. rewrite Hp in H1.
  destruct (Fs.read f1 path) as [f2 [data|[]|]] eqn:Hr; cbn; try done.
  - apply look_ok in Hr as (_ & m & Hm). rewrite H1 in Hm. injection Hm as <- <-.
    destruct (check_permissions f2 path) as [f3 [[]|?|]]; cbn; try done.
    by rewrite (proj2 (Z.eqb_neq _ _)) by lia.
  - exfalso. unfold Fs.read, Fs.sys in Hr. rewrite H1 in Hr. by repeat case_match.
Qed.

(** On a disk that answers, a key that is there is loaded. *)
Lemma load_or_create_reads (f : Files) random secret mode m :
  fs_faults f = [] -> Fs.has_parent (fs_disk f) dir = Ok tt -> fs_disk f !! dir = Some (Dir m) ->
  fs_disk f !! path = Some (File secret mode) -> Z.land mode 63 = 0 -> len secret = 32 ->
  (load_or_create f random path).2 = Ok (Identity.from_secret secret).
Proof.
  intros Hf Hpar Hdir Hp Hmode Hlen.
  assert (Hc : exists f1, create_private_dir f dir = (f1, Ok tt) /\ fs_faults f1 = [] /\ fs_disk f1 !! path = Some (File secret mode)).
  { destruct dir as [|x dir']; [done|]. unfold create_private_dir. cbn [Fs.create_dir_all].
    unfold Fs.mkdir, Fs.is_dir, Fs.stat, Fs.chmod, Fs.sys. rewrite Hf. cbn [head tail]. rewrite Hpar. cbn. rewrite Hdir. cbn.
    rewrite Hdir. cbn. rewrite Hdir. eexists. split; [done|]. cbn. split; [done|].
    rewrite lookup_insert_ne; [done|]. by apply (suffix_cons_ne (x :: dir') name (x :: dir')). }
  destruct Hc as (f1 & Hc & Hf1 & Hp1). unfold load_or_create. rewrite Hc.
  unfold Fs.read, check_permissions, Fs.stat, Fs.sys. rewrite Hf1. cbn. rewrite Hp1. cbn. rewrite Hp1. cbn.
  assert (Z.land (32768 + mode) 63 = 0) as -> by (by apply private_mode). cbn. rewrite Hlen. done.
Qed.
End identity.

(** What a torn disk has at a name whose content is known before. *)
Lemma torn_at (safe d d' : Disk) (p : FilePath) (secret : bytes) :
  torn safe d d' -> d !! p = safe !! p \/ d !! p = Some (File secret 384) ->
  d' !! p = safe !! p \/ exists part, part `prefix_of` secret /\ d' !! p = Some (File part 384).
Proof.
  intros Ht Hd. specialize (Ht p). destruct Hd as [Hd|Hd].
  - left. rewrite <- Hd. destruct (d !! p) as [[data m|m]|]; [|done..].
    destruct Ht as (part & Hp & _ & Hsame). by rewrite Hp, Hsame.
  - right. rewrite Hd in Ht. destruct Ht as (part & Hp & Hpre & _). by exists part.
Qed.

(** What is too short to be a key is not loaded. *)
Lemma short_key_refused `{Crypto} (f : Files) random path part mode i :
  temporary path <> path -> len part < 32 -> fs_disk f !! path = Some (File part mode) ->
  (load_or_create f random path).2 <> Ok i.
Proof.
  intros Hne Hlen Hp Hl. destruct path as [|name dir]; [done|].
  destruct (load_or_create f random (name :: dir)) as [f' r] eqn:E. cbn in Hl. subst r.
  by apply (load_or_create_short name dir Hne f f' random i part mode Hp Hlen).
Qed.

Section theorems.
Context `{Crypto}.


(** The power failure is a real danger. After a key was written where there
    was none, one may leave any beginning of it at the real name, none of it
    included, and if it is not all there no identity can be loaded any more:
    the call fails, now and at every start. *)
Theorem power_loss_tears_key (f f' : Files) (name : string) (dir : FilePath) (secret part : bytes) :
  temporary (name :: dir) <> name :: dir -> fs_disk f !! (name :: dir) = None -> len secret = 32 ->
  write_secret f (name :: dir) secret = (f', Ok tt) -> part `prefix_of` secret -> part <> secret ->
  exists d, torn (fs_disk f) (fs_disk f') d /\ d !! (name :: dir) = Some (File part 384) /\
    forall umask faults random i,
      (load_or_create (mkFiles d umask faults []) random (name :: dir)).2 <> Ok i.
Proof.
  intros Hne Hnone Hlen Hw Hpre Hpart.
  destruct (write_secret_ends _ _ Hne _ _ _ Hw) as [(_ & Hp & _)|[? _]]; [|done].
  exists (<[name :: dir := File part 384]> (fs_disk f')).
  split; [|split; [apply lookup_insert_eq|]].
  - intros q. destruct (decide (q = name :: dir)) as [->|Hq].
    + rewrite Hp, Hnone. exists part. rewrite lookup_insert_eq. by split_and!.
    + rewrite lookup_insert_ne by done. destruct (fs_disk f' !! q) as [[data m|m]|]; [|done..].
      exists data. by split_and!.
  - intros umask faults random i. eapply short_key_refused; [done| |apply lookup_insert_eq].
    destruct Hpre as [rest ->]. rewrite len_app in Hlen. pose proof (len_nonneg rest).
    destruct rest as [|x rest]; [by rewrite app_nil_r in Hpart|]. rewrite len_cons in Hlen.
    pose proof (len_nonneg rest). lia.
Qed.

(** what [load_or_create] writes is never readable by another account.
    At every moment of the call, under its own name and under the temporary
    one, a file another account could read is the one that was there before
    the call. *)
Theorem key_never_exposed (f : Files) (random : bytes) (name : string) (dir : FilePath) :
  dir <> [] ->
  exists new, fs_seen (load_or_create f random (name :: dir)).1 = fs_seen f ++ new /\
    forall d p, d ∈ new -> p = name :: dir \/ p = temporary (name :: dir) ->
      others_read d p = true -> d !! p = fs_disk f !! p.
Proof.
  intros Hdir. destruct (load_or_create_guarded name dir f random Hdir) as (_ & new & Hn & Hf); [by right|].
  exists new. split; [exact Hn|]. intros d p Hd Hp Ho.
  rewrite Forall_forall in Hf. destruct (Hf d) as [Hg|[H1 H2]]; [by apply list_elem_of_In|..].
  - destruct (temporary_cons name dir) as [name' Ht]. unfold others_read in Ho.
    assert (tail p = dir) as Htl by (destruct Hp as [->| ->]; [done|by rewrite Ht]).
    rewrite Htl, Hg in Ho. destruct (d !! p) as [[]|]; try done. by rewrite andb_false_r in Ho.
  - by destruct Hp as [->| ->].
Qed.

(** C16: an identity is for good. Once [load_or_create] has returned one, every
    later call that returns an identity while the file is there returns the
    same, whatever fails and whatever is drawn; and on a disk that answers it
    does return it. *)
Theorem identity_survives_restart (f f1 f2 : Files) (random random' : bytes) (name : string) (dir : FilePath) i :
  temporary (name :: dir) <> name :: dir -> dir <> [] -> len random = 32 ->
  load_or_create f random (name :: dir) = (f1, Ok i) ->
  (forall i', fs_disk f2 !! (name :: dir) = fs_disk f1 !! (name :: dir) ->
     (load_or_create f2 random' (name :: dir)).2 = Ok i' -> i' = i) /\
  (fs_disk f2 = fs_disk f1 -> fs_faults f2 = [] -> Fs.has_parent (fs_disk f1) dir = Ok tt ->
     (load_or_create f2 random' (name :: dir)).2 = Ok i).
Proof.
  intros Hne Hdir Hr Hl. destruct (load_or_create_ok name dir Hne _ _ _ _ Hr Hl) as (Hi & Hlen & mode & Hd & Hm).
  split.
  - intros i' Hsame Hl'. rewrite Hi. destruct (load_or_create f2 random' (name :: dir)) as [f3 r] eqn:Hl2.
    cbn in Hl'. subst r. eapply load_or_create_loads; [done| |exact Hl2]. by rewrite Hsame.
  - intros Hsame Hf Hp. rewrite Hi. eapply load_or_create_reads; rewrite ?Hsame; try done. by eapply load_or_create_dir.
Qed.

(** the text of a key is read back: any 32 bytes, printed in hex and
    copied with any white space around it, and the line the server prints for
    a client it refused, appended to the list of those it accepts, adds
    exactly that client's key to it. *)
Theorem printed_key_is_admitted (key : bytes) (text : list Z) :
  bytes_ok key -> len key = 32 ->
  (forall ws ws', forallb Text.is_whitespace ws = true -> forallb Text.is_whitespace ws' = true ->
     from_hex (ws ++ to_hex key ++ ws') = Some key) /\
  (text = [] \/ (exists t, text = t ++ [10]) ->
     parse_allow_list (text ++ to_hex key ++ [10]) = parse_allow_list text ∪ {[ key ]}).
Proof.
  intros Hk Hn. split; [intros; by apply from_hex_around|]. intros Ht.
  by rewrite parse_allow_list_app, parse_allow_list_key.
Qed.

(** What [from_hex] takes for a key, exactly: 32 pairs of characters, each two
    digits of either case or a plus sign and one digit. *)
Theorem from_hex_accepts (text : list Z) (key : bytes) :
  from_hex text = Some key <->
  exists ps, Text.trim text = unpair ps /\ length ps = 32%nat /\
    Forall2 (fun p b =>
      (exists d1 d2, Text.to_digit p.1 = Some d1 /\ Text.to_digit p.2 = Some d2 /\ b = d1 * 16 + d2)
      \/ p.1 = 43 /\ Text.to_digit p.2 = Some b) ps key.
Proof.
  rewrite from_hex_pairs. split; intros (ps & Ht & Hn & Hf); exists ps; (split_and!; [done..|]);
    (eapply list.Forall2_impl; [exact Hf|]); intros p b; by rewrite u8_from_hex_pair.
Qed.
End theorems.

(** A text with a plus sign in it is taken for a key. *)
Example from_hex_takes_plus : from_hex (concat (replicate 32 [43; 55])) = Some (replicate 32 7).
Proof. vm_compute. reflexivity. Qed.

(** ** On a concrete disk *)
Module KeyDemo.
#[local] Existing Instance Toy.crypto.
Local Open Scope string_scope.
Definition dir : FilePath := ["fectp-example"; "home"].
Definition secret : bytes := map Z.of_nat (seq 0 32).
(** A disk with a home directory; the fourth call to come fails. *)
Definition empty : Files := mkFiles {[ ["home"] := Dir 493 ]} 18 [] [].
Definition flaky : Files := mkFiles {[ ["home"] := Dir 493 ]} 18 [false; false; false; true] [].
Definition created : Files := (load_or_create empty secret ("server.key" :: dir)).1.
End KeyDemo.

Section witnesses.
#[local] Existing Instance Toy.crypto.


(** A power failure just after the key was made: the name is there, empty. *)
Lemma power_loss_tears_key_witness :
  exists d, d !! ["server.key"%string; "home"%string] = Some (File [] 384) /\
    torn (fs_disk KeyDemo.empty) (fs_disk (write_secret KeyDemo.empty ["server.key"%string; "home"%string] KeyDemo.secret).1) d.
Proof.
  destruct (power_loss_tears_key KeyDemo.empty
    (write_secret KeyDemo.empty ["server.key"%string; "home"%string] KeyDemo.secret).1
    "server.key"%string ["home"%string] KeyDemo.secret []) as (d & Ht & Hd & _).
  - done.
  - vm_compute. reflexivity.
  - vm_compute. reflexivity.
  - refine (eq_trans (surjective_pairing _) (f_equal (pair _) _)). vm_compute. reflexivity.
  - apply prefix_nil.
  - done.
  - exists d. split; [exact Hd|exact Ht].
Defined.

Lemma key_never_exposed_witness :
  exists new, fs_seen (load_or_create KeyDemo.empty KeyDemo.secret ("server.key"%string :: KeyDemo.dir)).1
      = fs_seen KeyDemo.empty ++ new /\
    forall d p, d ∈ new -> p = "server.key"%string :: KeyDemo.dir \/ p = temporary ("server.key"%string :: KeyDemo.dir) ->
      others_read d p = true -> d !! p = fs_disk KeyDemo.empty !! p.
Proof. apply (key_never_exposed KeyDemo.empty KeyDemo.secret "server.key" KeyDemo.dir). done. Defined.

Lemma identity_survives_restart_witness :
  (load_or_create (mkFiles (fs_disk KeyDemo.created) 18 [] []) (zeros 32) ("server.key"%string :: KeyDemo.dir)).2
  = Ok (Identity.from_secret KeyDemo.secret).
Proof.
  apply (identity_survives_restart KeyDemo.empty KeyDemo.created _ KeyDemo.secret); [done..| |done|done|vm_compute; reflexivity].
  refine (eq_trans (surjective_pairing _) (f_equal (pair _) _)). vm_compute. reflexivity.
Defined.

Lemma printed_key_is_admitted_witness :
  from_hex ([32; 10] ++ to_hex KeyDemo.secret ++ [13]) = Some KeyDemo.secret.
Proof.
  apply (printed_key_is_admitted KeyDemo.secret []); [|vm_compute; reflexivity..].
  apply Forall_forall. intros b Hb. vm_compute in Hb. repeat (destruct Hb as [<-|Hb]; [lia|]). destruct Hb.
Defined.
End witnesses.
