(* ===== verification/KeyServer.v ===== *)
(** * A server that talks to the clients on a list (crates/fectp/examples/keys.rs)

    [serve] is the server's loop: each turn reads the allow-list afresh, polls
    the endpoint, decides about a peer when it is told of it and answers a
    message. The disk is given anew for each turn, since the list is edited
    while the server runs. The log is what each turn did, with the list it
    read. [connect] is the client. *)
From Stdlib Require Import String Ascii.
From stdpp Require Import gmap strings pretty.
From S2P Require Import Prelude Bytes Error Float Frame Fragment Codec Reliability RetransmitQueue.
From S2P Require Import Cipher Symmetric Handshake Session Connect Compress Reassembly Tickets Pmtu.
From S2P Require Import Pipeline Control Udp EndpointState Endpoint EndpointReceive EndpointFrame EndpointTables.
From S2P Require Import EndpointCalls EndpointAdmission Connection Text KeyStore.
Import Endpoint EndpointReceive.

Module KeyServer.
(** [format!("server received {} bytes", data.len())]. *)
Definition reply_to (data : bytes) : bytes :=
  Text.lit "server received " ++ Text.lit (pretty (len data)) ++ Text.lit " bytes".

(** What a turn did. *)
Inductive Did :=
| Accepted (peer : Z) (key : bytes)
| Refused (peer : Z)
| Replied (peer : Z) (key : option bytes)
| Waited.

Section server.
Context {W : Type} `{Net W} `{Crypto} `{ZstdLib}.
Local Abbreviation E := (Endpoint W Identity).

(** A turn of the loop; [Ok None] is fuel spent in [poll]. *)
Definition serve_turn (fuel : nat) (dir : FilePath) (f : Files) (e : E)
  : E * HostResult (option (gset bytes * Did)) :=
  let! (e, allowed) := (e, snd (Keys.load_allow_list f dir)) in
  let! (e, ev) := poll fuel (Some 200) e in
  match ev with
  | None => (e, Ok None)
  | Some (Connected peer _ _ _) =>
      match peer_public_key e peer with
      | None => (fst (disconnect e peer), Ok (Some (allowed, Refused peer)))
      | Some key =>
          if bool_decide (key ∈ allowed) then (e, Ok (Some (allowed, Accepted peer key)))
          else (fst (disconnect e peer), Ok (Some (allowed, Refused peer)))
      end
  | Some (Message peer data) =>
      let key := peer_public_key e peer in
      let! (e, _) := send e peer (reply_to data) Opaque in
      (e, Ok (Some (allowed, Replied peer key)))
  | Some _ => (e, Ok (Some (allowed, Waited)))
  end.

(** The loop, over the disks its turns find: it ends when a call fails. *)
Fixpoint serve_loop (fuel : nat) (dir : FilePath) (disks : list Files) (e : E)
  : E * list (gset bytes * Did) * HostResult unit :=
  match disks with
  | [] => (e, [], Ok tt)
  | f :: disks =>
      match serve_turn fuel dir f e with
      | (e, Ok None) => (e, [], Ok tt)
      | (e, Ok (Some did)) => let '(e, log, r) := serve_loop fuel dir disks e in (e, did :: log, r)
      | (e, Err err) => (e, [], Err err)
      | (e, Panic) => (e, [], Panic)
      end
  end.

(** [serve]: the identity, the list read once, the endpoint, the loop. *)
Definition serve (fuel : nat) (dir : FilePath) (f : Files) (random : bytes) (w : W) (disks : list Files)
  : Files * HostResult (E * list (gset bytes * Did) * HostResult unit) :=
  let! (f, identity) := Keys.load_or_create f random (Keys.join dir "server.key") in
  let! (f, _) := Keys.load_allow_list f dir in
  (f, Ok (serve_loop fuel dir disks (bind_socket w identity))).
End server.

(** ** The client *)
Inductive Said := NotAKey (length : Z) | Reply (data : bytes) | NoReply.

Section client.
Context {W : Type} `{Socket W} `{Crypto} `{ZstdLib}.

(** [Ok None] is fuel spent. *)
Definition connect (fuel : nat) (dir : FilePath) (f : Files) (random : bytes) (w : W) (addr : SocketAddr)
    (server_key : list Z) : Files * W * HostResult (option Said) :=
  match Keys.from_hex server_key with
  | None => (f, w, Ok (Some (NotAKey (len (Text.utf8 server_key)))))
  | Some server_public =>
      let (f, r) := Keys.load_or_create f random (Keys.join dir "client.key") in
      match r with
      | Err err => (f, w, Err err)
      | Panic => (f, w, Panic)
      | Ok identity =>
          let (w, r) := Connection.connect fuel w addr server_public identity in
          match r with
          | Err err => (f, w, Err err)
          | Panic => (f, w, Panic)
          | Ok None => (f, w, Ok None)
          | Ok (Some n) =>
              let n := Connection.set_read_timeout n (Some 2000) in
              let (n, r) := Connection.send n (Text.lit "reading: 23.5") Opaque in
              let w (n : Connection W) := co_world (cn_core n) in
              match r with
              | Err err => (f, w n, Err err)
              | Panic => (f, w n, Panic)
              | Ok _ =>
                  let (n, r) := Connection.recv fuel n (zeros 1024) in
                  match r with
                  | Ok None => (f, w n, Ok None)
                  | Ok (Some (buf, len)) =>
                      match slice buf 0 len with
                      | Ok data => (f, w n, Ok (Some (Reply data)))
                      | Err err => (f, w n, Err err)
                      | Panic => (f, w n, Panic)
                      end
                  | Err _ => (f, w n, Ok (Some NoReply))
                  | Panic => (f, w n, Panic)
                  end
              end
          end
      end
  end.
End client.
End KeyServer.

(** ** Who is answered *)
Section vetted.
Import KeyServer.
Context {W : Type} `{Net W} `{Crypto} `{ZstdLib}.
Local Abbreviation E := (Endpoint W Identity).

(** The peer was accepted, on a list that had its key. *)
Definition accepted (log : list (gset bytes * Did)) (peer : Z) (key : bytes) : Prop :=
  exists allowed : gset bytes, (allowed, Accepted peer key) ∈ log /\ key ∈ allowed.

(** Everyone in the table was accepted. *)
Definition vetted (log : list (gset bytes * Did)) (e : E) : Prop :=
  hushed e /\ Tables.ok (tables e) /\
  forall id key, peer_public_key e id = Some key -> accepted log id key.

Lemma accepted_app log more id key : accepted log id key -> accepted (log ++ more) id key.
Proof. intros (al & Hin & Hk). exists al. split; [|done]. apply elem_of_app. by left. Qed.

Lemma key_tables (e : E) id : peer_public_key e id = who_key <$> tb_who (tables e) !! id.
Proof. unfold peer_public_key, tables. cbn. rewrite lookup_fmap. by destruct (ep_peers e !! id). Qed.

Lemma has_key (e : E) id : has e id <-> is_Some (peer_public_key e id).
Proof. rewrite key_tables, has_tables. by destruct (tb_who (tables e) !! id); cbn; split; intros []. Qed.

(** A session that stays keeps its key. *)
Lemma sound_keeps_key (e e' : E) id key key' :
  sound e e' -> Tables.ok (tables e) -> peer_public_key e id = Some key -> peer_public_key e' id = Some key' -> key' = key.
Proof.
  intros [_ Hs] Hok. destruct (Hs Hok) as [_ Hext]. rewrite !key_tables.
  destruct (tb_who (tables e) !! id) as [x|] eqn:Hx; [|done]. destruct (tb_who (tables e') !! id) as [x'|] eqn:Hx'; [|done].
  cbn. intros [= <-] [= <-]. by apply (Tables.ext_same _ _ Hext id).
Qed.

(** A step that files nobody. *)
Lemma tame_vetted log (e e' : E) : sound e e' -> tame e e' -> vetted log e -> vetted log e'.
Proof.
  intros Hs [Hh Hq] (Hx & Hok & Hv). split; [auto|]. split; [by apply Hs|]. intros id key Hk.
  destruct (proj1 (has_key e id)) as [key0 Hk0]; [apply Hh, has_key; by eexists|].
  rewrite (sound_keeps_key e e' id key0 key) by done. by apply Hv.
Qed.

(** Disconnecting a session takes it out. *)
Lemma disconnect_gone (e : E) id : Tables.ok (tables e) -> peer_public_key (disconnect e id).1 id = None.
Proof.
  intros Hok. unfold disconnect. destruct (ep_outbound e !! id) as [o|] eqn:Ho.
  - destruct (peer_public_key e id) as [key|] eqn:Hk; [|done].
    rewrite key_tables in Hk. destruct (tb_who (tables e) !! id) as [x|] eqn:Hx; [|done].
    apply (Tables.ok_apart _ Hok) in Hx. cbn in Hx. by rewrite lookup_fmap, Ho in Hx.
  - cbn zeta. case_match eqn:Hp; [|unfold peer_public_key; cbn in *; by rewrite Hp].
    unfold peer_public_key, release. rewrite unfile_session_eq. cbn. by rewrite lookup_delete_eq.
Qed.

(** After [poll], whoever was not accepted is the one it told of. *)
Lemma poll_vetted log fuel timeout (e : E) :
  vetted log e ->
  let (e', r) := poll fuel timeout e in
  hushed e' /\ Tables.ok (tables e') /\
  (forall id key, peer_public_key e' id = Some key ->
     accepted log id key \/ exists z r0 i, r = Ok (Some (Connected id z r0 i))) /\
  (forall id data key, r = Ok (Some (Message id data)) -> peer_public_key e' id = Some key -> accepted log id key).
Proof.
  intros (Hx & Hok & Hv). pose proof (poll_announced fuel timeout e Hx) as (Ha & Hm & Hq).
  pose proof (poll_sound fuel timeout e) as Hs. destruct (poll fuel timeout e) as [e' r]. cbn in *.
  assert (Hold : forall id key, has e id -> peer_public_key e' id = Some key -> accepted log id key).
  { intros id key [key0 Hk0]%has_key Hk. rewrite (sound_keeps_key e e' id key0 key) by done. by apply Hv. }
  split_and!; [by apply Hq|by apply Hs| |].
  - intros id key Hk. destruct (Ha id) as [Hid|(z & r0 & i & Hr)]; [apply has_key; by eexists|left; eauto|right; eauto].
  - intros id data key Hr. apply Hold. by eapply Hm.
Qed.

(** Turned away or not, nobody else came. *)
Lemma refuse_vetted log (e : E) id :
  hushed e -> Tables.ok (tables e) ->
  (forall id' key, peer_public_key e id' = Some key -> accepted log id' key \/ id' = id) ->
  vetted log (disconnect e id).1.
Proof.
  intros Hx Hok Hv. pose proof (disconnect_tame e id) as [Hh Hq]. pose proof (disconnect_sound e id) as Hs.
  split; [by apply Hq|]. split; [by apply Hs|]. intros id' key Hk.
  destruct (proj1 (has_key e id')) as [key0 Hk0]; [apply Hh, has_key; by eexists|].
  rewrite (sound_keeps_key e _ id' key0 key Hs Hok Hk0 Hk) in *.
  destruct (Hv id' key0 Hk0) as [?| ->]; [done|]. by rewrite (disconnect_gone e id Hok) in Hk.
Qed.

Lemma serve_turn_vetted fuel dir f log (e e' : E) al did :
  vetted log e -> serve_turn fuel dir f e = (e', Ok (Some (al, did))) ->
  vetted (log ++ [(al, did)]) e' /\
  (forall id k, did = Replied id k -> exists key, k = Some key /\ accepted log id key).
Proof.
  intros Hv. unfold serve_turn. destruct (Keys.load_allow_list f dir).2 as [allowed|?|]; [|done..].
  pose proof (poll_vetted log fuel (Some 200) e Hv) as Hp.
  destruct (poll fuel (Some 200) e) as [e1 [[ev|]|?|]]; [|done..]. destruct Hp as (Hx & Hok & Hw & Hm).
  assert (Hmore : forall d (e2 : E), vetted log e2 -> vetted (log ++ [d]) e2).
  { intros d e2 (? & ? & Hv2). split_and!; [done..|]. intros id key Hk. by apply accepted_app, Hv2. }
  assert (Hquiet : (forall id z r i, ev <> Connected id z r i) -> vetted log e1).
  { intros Hno. split_and!; [done..|]. intros id key Hk. destruct (Hw id key Hk) as [?|(z & r & i & [= ->])]; [done|].
    by edestruct Hno. }
  destruct ev as [peer z r i|peer data| | | | | | |]; try (intros [= <- <- <-]; split; [by apply Hmore, Hquiet|done]).
  - assert (Hone : forall id' key, peer_public_key e1 id' = Some key -> accepted log id' key \/ id' = peer).
    { intros id' key Hk. destruct (Hw id' key Hk) as [?|(? & ? & ? & [= -> _ _ _])]; [by left|by right]. }
    destruct (peer_public_key e1 peer) as [key|] eqn:Hk; [case_bool_decide as Hin|]; intros [= <- <- <-]; (split; [|done]).
    + split_and!; [done..|]. intros id' key' Hk'. destruct (Hone _ _ Hk') as [?| ->]; [by apply accepted_app|].
      exists allowed. rewrite Hk in Hk'. injection Hk' as <-. split; [|done]. apply elem_of_app. right. by apply list_elem_of_singleton.
    + by apply Hmore, refuse_vetted.
    + by apply Hmore, refuse_vetted.
  - pose proof (send_tame e1 peer (reply_to data) Opaque) as Ht.
    assert (Hs : sound e1 (send e1 peer (reply_to data) Opaque).1)
      by (eapply calm_sound, (send_calm (fun _ => True)), covers_all).
    assert (Hkey : (send e1 peer (reply_to data) Opaque).2 = Ok tt -> is_Some (peer_public_key e1 peer)).
    { unfold send, peer_public_key. destruct (ep_peers e1 !! peer); [eauto|done]. }
    destruct (send e1 peer (reply_to data) Opaque) as [e2 [[]|?|]]; cbn in *; [|done..].
    intros [= <- <- <-]. split.
    + apply Hmore. eapply tame_vetted; [exact Hs|exact Ht|by apply Hquiet].
    + intros id k [= <- <-]. destruct (Hkey eq_refl) as [key Hk]. exists key. split; [done|]. by eapply Hm.
Qed.

(** The reply at the head of [post], with what came before it. *)
Definition answers_vetted (log : list (gset bytes * Did)) : Prop :=
  forall pre al id k post, log = pre ++ (al, Replied id k) :: post -> exists key, k = Some key /\ accepted pre id key.

(** A turn cut short in [poll] let nobody in. *)
Lemma serve_turn_waits fuel dir f log (e e' : E) :
  vetted log e -> serve_turn fuel dir f e = (e', Ok None) -> vetted log e'.
Proof.
  intros Hv. unfold serve_turn. destruct (Keys.load_allow_list f dir).2 as [allowed|?|]; [|done..].
  pose proof (poll_vetted log fuel (Some 200) e Hv) as Hp.
  destruct (poll fuel (Some 200) e) as [e1 [[ev|]|?|]]; [|intros [= <-]|done..].
  - destruct ev; try done; [by repeat case_match|]. by destruct (send _ _ _ _) as [? [[]|?|]].
  - destruct Hp as (? & ? & Hw & _). split_and!; [done..|]. intros id key Hk. by destruct (Hw id key Hk) as [?|(? & ? & ? & ?)].
Qed.

Lemma serve_loop_vetted fuel dir disks log (e : E) :
  vetted log e -> answers_vetted log ->
  let '(e', more, r) := serve_loop fuel dir disks e in
  answers_vetted (log ++ more) /\ (r = Ok tt -> vetted (log ++ more) e').
Proof.
  revert log e. induction disks as [|f disks IH]; intros log e Hv Ha; cbn [serve_loop]; [by rewrite app_nil_r|].
  destruct (serve_turn fuel dir f e) as [e1 [[[al did]|]|?|]] eqn:Ht; rewrite ?app_nil_r; try done.
  2: { split; [done|]. intros _. by eapply serve_turn_waits. }
  destruct (serve_turn_vetted _ _ _ _ _ _ _ _ Hv Ht) as [Hv1 Hr].
  assert (Ha1 : answers_vetted (log ++ [(al, did)])).
  { intros pre al' id k post Heq. destruct post as [|x post _] using rev_ind.
    - apply app_inj_tail in Heq as [-> [= -> ->]]. by eapply Hr.
    - rewrite app_comm_cons, app_assoc in Heq. apply app_inj_tail in Heq as [-> _]. by eapply Ha. }
  specialize (IH _ e1 Hv1 Ha1). destruct (serve_loop fuel dir disks e1) as [[e2 more] r].
  by rewrite <- app_assoc in IH.
Qed.

(** The lists in the log are those on the disks. *)
Lemma serve_turn_reads fuel dir f (e e' : E) al did :
  serve_turn fuel dir f e = (e', Ok (Some (al, did))) -> (Keys.load_allow_list f dir).2 = Ok al.
Proof.
  unfold serve_turn. destruct (Keys.load_allow_list f dir).2 as [allowed|?|]; [|done..].
  destruct (poll fuel (Some 200) e) as [e1 [[ev|]|?|]]; [|done..].
  destruct ev; try (by intros [= _ <- _]).
  - by repeat case_match; intros [= _ <- _].
  - destruct (send _ _ _ _) as [? [[]|?|]]; [|done..]. by intros [= _ <- _].
Qed.

Lemma serve_loop_reads fuel dir disks (e : E) i al did :
  (serve_loop fuel dir disks e).1.2 !! i = Some (al, did) ->
  exists f, disks !! i = Some f /\ (Keys.load_allow_list f dir).2 = Ok al.
Proof.
  revert e i. induction disks as [|f disks IH]; intros e i; cbn [serve_loop]; [by rewrite lookup_nil|].
  destruct (serve_turn fuel dir f e) as [e1 [[[al' did']|]|?|]] eqn:Ht; cbn [fst snd]; rewrite ?lookup_nil; try done.
  specialize (IH e1). destruct (serve_loop fuel dir disks e1) as [[e2 more] r]. cbn in *.
  destruct i as [|i]; cbn; [|apply IH].
  intros [= <- <-]. exists f. split; [done|by eapply serve_turn_reads].
Qed.

End vetted.

Section theorem.
Import KeyServer.
Context {W : Type} `{Net W} `{Crypto} `{ZstdLib}.

(** C14: the server answers only clients on its list. Turn [i] of the loop
    reads the list from the disk as it stands in that turn and appends one
    entry to the log. Whatever arrives and however the list is edited while it
    runs, a reply in turn [j] goes to a session with an authenticated key, and
    that session was accepted in an earlier turn [i] in which the key was on
    the list that the disk of turn [i] held; and whoever is still connected at
    the end was accepted so: a client that was refused is gone. *)
Theorem server_answers_only_the_listed (fuel : nat) (dir : FilePath) (disks : list Files) (w : W) (identity : Identity) :
  let '(e, log, r) := serve_loop fuel dir disks (bind_socket w identity) in
  let let_in (i : nat) id key := exists allowed f,
    log !! i = Some (allowed, Accepted id key) /\ key ∈ allowed /\
    disks !! i = Some f /\ (Keys.load_allow_list f dir).2 = Ok allowed in
  (forall j al id k, log !! j = Some (al, Replied id k) ->
     exists i key, (i < j)%nat /\ k = Some key /\ let_in i id key) /\
  (r = Ok tt -> forall id key, peer_public_key e id = Some key -> exists i, let_in i id key).
Proof.
  pose proof (serve_loop_reads fuel dir disks (bind_socket w identity)) as Hread.
  assert (Hv : vetted [] (bind_socket w identity)).
  { split; [constructor|]. split; [apply on_socket_ok|]. intros id key. unfold peer_public_key. cbn. by rewrite lookup_empty. }
  assert (Ha : answers_vetted []) by (intros pre ? ? ? ? Heq; by destruct pre).
  pose proof (serve_loop_vetted fuel dir disks [] _ Hv Ha) as Hl.
  destruct (serve_loop fuel dir disks (bind_socket w identity)) as [[e log] r]. cbn in *. destruct Hl as [Hans Hend].
  split.
  - intros j al id k Hj. pose proof (take_drop_middle log j _ Hj) as Heq.
    destruct (Hans _ _ _ _ _ (eq_sym Heq)) as (key & -> & allowed & Hin & Hk).
    apply list_elem_of_lookup_1 in Hin as [i Hi]. apply lookup_take_Some in Hi as [Hi Hij].
    destruct (Hread i allowed (Accepted id key) Hi) as (f & Hf & Hlist). exists i, key.
    split; [done|]. split; [done|]. by exists allowed, f.
  - intros Hr id key Hk. destruct (Hend Hr) as (_ & _ & Hvet). destruct (Hvet id key Hk) as (allowed & Hin & Hkin).
    apply list_elem_of_lookup_1 in Hin as [i Hi].
    destruct (Hread i allowed (Accepted id key) Hi) as (f & Hf & Hlist). exists i. by exists allowed, f.
Qed.
End theorem.

(** ** A client let in and one turned away, on the toy host *)
Module ServerDemo.
#[local] Existing Instance Toy.crypto.
#[local] Existing Instance ToyZstd.zstd.
Local Open Scope string_scope.
Definition key (n : Z) : Identity := Identity.from_secret (zeros 31 ++ [n])%list.
Definition dir : FilePath := ["keys"].

(** A disk whose list is these keys. *)
Definition listing (keys : list bytes) : Files :=
  mkFiles {[ Keys.allow_list_path dir := File (concat (map (fun k => (Keys.to_hex k ++ [10])%list) keys)) 420 ]} 18 [] [].

Definition opening : Endpoint ToyNet Identity :=
  (Endpoint.connect (on_socket (Demo.world 1 []) (PublicKeyMode (key 5))) (Demo.addr 2) (Some (id_public (key 6)))).1.
Definition answered : Endpoint ToyNet Identity :=
  (poll 5 (Some 10) (on_socket (Demo.world 2 (map (fun m => (1000, m.1, Demo.addr 1)) (tn_outbox (ep_world opening))))
    (PublicKeyMode (key 6)))).1.
(** The client once it has its answer and has said something. *)
Definition speaking : Endpoint ToyNet Identity :=
  let e := (Endpoint.connect (on_socket (Demo.world 1 (map (fun m => (1001, m.1, Demo.addr 2)) (tn_outbox (ep_world answered))))
    (PublicKeyMode (key 5))) (Demo.addr 2) (Some (id_public (key 6)))).1 in
  let e := (poll 5 (Some 10) e).1 in
  (send e 0 [1; 2; 3] Opaque).1.
Definition server : ToyNet := Demo.world 2 (map (fun m => (1000, m.1, Demo.addr 1)) (tn_outbox (ep_world speaking))).
End ServerDemo.

Section witness.
Import KeyServer.
#[local] Existing Instance Toy.crypto.
#[local] Existing Instance ToyZstd.zstd.

(** Three turns, the list that each finds on the disk. *)
Definition served (lists : list (list bytes)) : Endpoint ToyNet Identity * list (gset bytes * Did) * HostResult unit :=
  serve_loop 5 ServerDemo.dir (map ServerDemo.listing lists) (bind_socket ServerDemo.server (ServerDemo.key 6)).

(** A client taken off the list after it was accepted is still answered. *)
Example listed_client_is_answered :
  map snd (served [[id_public (ServerDemo.key 5)]; []; []]).1.2
  = [Accepted 0 (id_public (ServerDemo.key 5)); Replied 0 (Some (id_public (ServerDemo.key 5))); Waited].
Proof. vm_compute. reflexivity. Qed.

(** A client put on the list only after it was refused is not. *)
Example unlisted_client_is_refused :
  map snd (served [[]; [id_public (ServerDemo.key 5)]; [id_public (ServerDemo.key 5)]]).1.2 = [Refused 0; Waited; Waited].
Proof. vm_compute. reflexivity. Qed.

Lemma server_answers_only_the_listed_witness :
  exists key allowed f,
    (served [[id_public (ServerDemo.key 5)]; []; []]).1.2 !! 0%nat = Some (allowed, Accepted 0 key) /\ key ∈ allowed /\
    map ServerDemo.listing [[id_public (ServerDemo.key 5)]; []; []] !! 0%nat = Some f /\
    (Keys.load_allow_list f ServerDemo.dir).2 = Ok allowed.
Proof.
  generalize (server_answers_only_the_listed 5 ServerDemo.dir
    (map ServerDemo.listing [[id_public (ServerDemo.key 5)]; []; []]) ServerDemo.server (ServerDemo.key 6)).
  assert (Hj : exists al, (served [[id_public (ServerDemo.key 5)]; []; []]).1.2 !! 1%nat
    = Some (al, Replied 0 (Some (id_public (ServerDemo.key 5))))) by (eexists; vm_compute; reflexivity).
  destruct Hj as [al Hj]. unfold served in *. destruct (serve_loop _ _ _ _) as [[e log] r]. intros [Hans _].
  destruct (Hans 1%nat al 0 _ Hj) as (i & key & Hi & _ & allowed & f & H1 & H2 & H3 & H4).
  assert (i = 0%nat) as -> by lia. by exists key, allowed, f.
Defined.
End witness.
