(* ===== verification/Echo.v ===== *)
(** * Echo servers (crates/bench/src/transports.rs, crates/fectp/examples)

    The loops around an endpoint that send back what they hear: the echo of
    the benchmarks, which a flag stops, and those of two examples, which stop
    after a number of messages. Each gives what it passed to [send]. A loop is
    a sequence of the calls of EndpointCalls, so what holds of any calls holds
    of it. The UDP echo the
    benchmarks take as a floor is beside them. *)
From stdpp Require Import gmap.
From S2P Require Import Prelude Bytes Error Float Frame Fragment Codec Reliability RetransmitQueue.
From S2P Require Import Cipher Symmetric Handshake Session Connect Compress Reassembly Tickets Pmtu.
From S2P Require Import Pipeline Control Udp EndpointState Endpoint EndpointReceive EndpointFrame EndpointTables.
From S2P Require Import EndpointCalls EndpointAdmission Connection KeyServer.
Import Endpoint EndpointReceive.

(** How a loop ended, or that its turns were spent. *)
Inductive Ending := Stopped | Broke | Running.

Module FectpEcho.
Section run.
Context {W K : Type} `{Net W} `{StaticKey K} `{Crypto} `{ZstdLib}.
Local Abbreviation E := (Endpoint W K).

(** The thread, over what the flag says at the head of each turn: what it sent
    back, in order. *)
Fixpoint run (fuel : nat) (echo : bool) (flags : list bool) (e : E) : E * list (Z * bytes) * Ending :=
  match flags with
  | [] => (e, [], Running)
  | true :: _ => (e, [], Stopped)
  | false :: flags =>
      let (e, r) := poll fuel (Some 5) e in
      match r with
      | Ok (Some (Message peer data)) =>
          if echo then
            let (e, _) := send e peer data Opaque in
            let '(e, log, how) := run fuel echo flags e in (e, (peer, data) :: log, how)
          else run fuel echo flags e
      | Ok (Some _) => run fuel echo flags e
      | Ok None => (e, [], Running)
      | Err _ | Panic => (e, [], Broke)
      end
  end.
End run.
End FectpEcho.

Module Examples.
Section serve.
Context {W K : Type} `{Net W} `{StaticKey K} `{Crypto} `{ZstdLib}.
Local Abbreviation E := (Endpoint W K).

(** The servers of echo.rs and multi_client.rs: [expected] messages, within a
    [deadline] if there is one; an error ends them. *)
Fixpoint serve (turns fuel : nat) (timeout expected : Z) (deadline : option Z) (echoed : Z) (e : E)
  : E * list (Z * bytes) * Ending :=
  if negb (echoed <? expected) then (e, [], Stopped) else
  if match deadline with Some d => d <=? net_now (ep_world e) | None => false end then (e, [], Stopped) else
  match turns with
  | O => (e, [], Running)
  | S turns =>
      let (e, r) := poll fuel (Some timeout) e in
      match r with
      | Ok (Some (Message peer data)) =>
          let (e, r) := send e peer data Opaque in
          match r with
          | Ok _ =>
              let '(e, log, how) := serve turns fuel timeout expected deadline (echoed + 1) e in
              (e, (peer, data) :: log, how)
          | Err _ | Panic => (e, [(peer, data)], Broke)
          end
      | Ok (Some _) => serve turns fuel timeout expected deadline echoed e
      | Ok None => (e, [], Running)
      | Err _ | Panic => (e, [], Broke)
      end
  end.

Definition echo_server (turns fuel : nat) (e : E) := serve turns fuel 5000 5 None 0 e.

Definition CLIENTS : Z := 6.
Definition ROUNDS : Z := 3.

Definition multi_client_server (turns fuel : nat) (e : E) :=
  serve turns fuel 100 (CLIENTS * ROUNDS) (Some (net_now (ep_world e) + 10000)) 0 e.
End serve.
End Examples.

(** ** The floor: UDP *)
Module UdpEcho.
(** A turn of the thread: what the flag says after the read, and what was read. *)
Definition turn (echo stop : bool) (got : option (bytes * SocketAddr)) : option (list (bytes * SocketAddr)) :=
  if stop then None else
  match got with
  | Some (data, from) => Some (if echo then [(data, from)] else [])
  | None => Some []
  end.

(** The thread: what it sent, and whether it ended. *)
Fixpoint run (echo : bool) (reads : list (bool * option (bytes * SocketAddr))) : list (bytes * SocketAddr) * bool :=
  match reads with
  | [] => ([], false)
  | (stop, got) :: reads =>
      match turn echo stop got with
      | None => ([], true)
      | Some out => let (more, ended) := run echo reads in (out ++ more, ended)
      end
  end.

(** What [wake] sends, if it has a socket. *)
Definition wake (bound : bool) (addr : SocketAddr) : list (bytes * SocketAddr) :=
  if bound then replicate 3 ([0], addr) else [].
End UdpEcho.

(** ** One request and its echo *)
Section client.
Context {W : Type} `{Socket W} `{Crypto} `{ZstdLib}.

(** [fectp_round_trip]: the buffer as the read left it; [None] is fuel spent. *)
Definition fectp_round_trip (fuel : nat) (n : Connection W) (payload buf : bytes)
  : Connection W * HostResult (option bytes) :=
  let (n, r) := Connection.send n payload Opaque in
  match r with
  | Ok _ =>
      let (n, r) := Connection.recv fuel n buf in
      match r with
      | Ok None => (n, Ok None)
      | Ok (Some (buf, _)) => (n, Ok (Some buf))
      | Err _ | Panic => (n, Panic)
      end
  | Err _ | Panic => (n, Panic)
  end.
End client.

(** ** What the loops send *)
Section heard.
Context {W K : Type} `{Net W} `{StaticKey K} `{Crypto} `{ZstdLib}.
Local Abbreviation E := (Endpoint W K).

(** The messages among the events a caller was handed. *)
Definition said : list Event -> list (Z * bytes) :=
  omap (fun ev => match ev with Message peer data => Some (peer, data) | _ => None end).

(** A loop that is these calls, and sends back what it hears. *)
Definition repeats (e e' : E) (log : list (Z * bytes)) : Prop :=
  exists calls, e' = EndpointCalls.run calls e /\ log = said (events calls e).

Lemma repeats_stay (e : E) : repeats e e [].
Proof. by exists []. Qed.

Lemma repeats_poll fuel timeout (e e1 e' : E) r log :
  poll fuel timeout e = (e1, r) -> repeats e1 e' log ->
  repeats e e' (match r with Ok (Some (Message peer data)) => (peer, data) :: log | _ => log end).
Proof.
  intros Hp (calls & -> & ->). exists (CallPoll fuel timeout :: calls).
  cbn [EndpointCalls.run fold_left call events told]. rewrite Hp. cbn [fst snd]. split; [done|].
  by destruct r as [[[]|]|?|].
Qed.

Lemma repeats_send peer data t (e e1 e' : E) r log :
  send e peer data t = (e1, r) -> repeats e1 e' log -> repeats e e' log.
Proof.
  intros Hs (calls & -> & ->). exists (CallSend peer data t :: calls).
  cbn [EndpointCalls.run fold_left call events told]. by rewrite Hs.
Qed.

Lemma run_repeats fuel flags (e : E) :
  let '(e', log, _) := FectpEcho.run fuel true flags e in repeats e e' log.
Proof.
  revert e. induction flags as [|[] flags IH]; intros e; cbn [FectpEcho.run]; [apply repeats_stay..|].
  destruct (poll fuel (Some 5) e) as [e1 r] eqn:Hp. pose proof (repeats_poll _ _ _ _ e1 _ [] Hp (repeats_stay _)) as Hstop.
  destruct r as [[ev|]|?|]; [|done..].
  assert (Hgo : let '(e', log, _) := FectpEcho.run fuel true flags e1 in
    repeats e e' (match ev with Message peer data => (peer, data) :: log | _ => log end)).
  { specialize (IH e1). destruct (FectpEcho.run fuel true flags e1) as [[e2 log] how]. exact (repeats_poll _ _ _ _ _ _ _ Hp IH). }
  destruct ev; try exact Hgo. clear Hgo. destruct (send e1 peer data Opaque) as [e2 r] eqn:Hs. specialize (IH e2).
  destruct (FectpEcho.run fuel true flags e2) as [[e3 log] how].
  exact (repeats_poll _ _ _ _ _ _ _ Hp (repeats_send _ _ _ _ _ _ _ _ Hs IH)).
Qed.

Lemma serve_repeats turns fuel timeout expected deadline echoed (e : E) :
  let '(e', log, how) := Examples.serve turns fuel timeout expected deadline echoed e in
  repeats e e' log /\ (deadline = None -> how = Stopped -> echoed <= expected -> len log = expected - echoed).
Proof.
  revert echoed e. induction turns as [|turns IH]; intros echoed e; cbn [Examples.serve].
  all: destruct (Z.ltb_spec echoed expected); cbn [negb]; [|split; [apply repeats_stay|intros; rewrite len_nil; lia]].
  all: destruct (match deadline with Some _ => _ | None => _ end) eqn:Hd;
    [split; [apply repeats_stay|]; by intros ->|].
  { by split; [apply repeats_stay|]. }
  destruct (poll fuel (Some timeout) e) as [e1 r] eqn:Hp. pose proof (repeats_poll _ _ _ _ e1 _ [] Hp (repeats_stay _)) as Hstop.
  destruct r as [[ev|]|?|]; [|by split..].
  assert (Hgo : forall log0, let '(e', log, how) := Examples.serve turns fuel timeout expected deadline echoed e1 in
    (match ev with Message peer data => (peer, data) :: log | _ => log end = log0 -> repeats e e' log0) /\
    (deadline = None -> how = Stopped -> echoed <= expected -> len log = expected - echoed)).
  { intros log0. specialize (IH echoed e1). destruct (Examples.serve turns fuel timeout expected deadline echoed e1) as [[e2 log] how].
    destruct IH as [IH1 IH2]. split; [|done]. intros <-. exact (repeats_poll _ _ _ _ _ _ _ Hp IH1). }
  destruct ev.
  2: { clear Hgo. destruct (send e1 peer data Opaque) as [e2 r] eqn:Hs. destruct r as [[]|?|].
    - specialize (IH (echoed + 1) e2). destruct (Examples.serve turns fuel timeout expected deadline (echoed + 1) e2) as [[e3 log] how].
      destruct IH as [IH1 IH2]. split; [exact (repeats_poll _ _ _ _ _ _ _ Hp (repeats_send _ _ _ _ _ _ _ _ Hs IH1))|].
      intros. rewrite len_cons, IH2 by (done || lia). lia.
    - split; [|done]. exact (repeats_poll _ _ _ _ _ _ _ Hp (repeats_send _ _ _ _ _ _ _ _ Hs (repeats_stay _))).
    - split; [|done]. exact (repeats_poll _ _ _ _ _ _ _ Hp (repeats_send _ _ _ _ _ _ _ _ Hs (repeats_stay _))). }
  all: destruct (Examples.serve turns fuel timeout expected deadline echoed e1) as [[e2 log] how]; destruct (Hgo log) as [Hg1 Hg2]; split; [by apply Hg1|exact Hg2].
Qed.
End heard.

(** Every echo loop sends back what it is told by [poll], each message once and
    to the peer it came from, in order, and nothing else; it is a sequence of
    calls like any other, and an example that ends by itself has echoed exactly
    as many messages as it was to. *)
Theorem echo_repeats_what_it_heard {W K} `{Net W} `{StaticKey K} `{Crypto} `{ZstdLib}
    (turns fuel : nat) (flags : list bool) (e : Endpoint W K) :
  (let '(e', log, _) := FectpEcho.run fuel true flags e in
   exists calls, e' = EndpointCalls.run calls e /\ log = said (events calls e)) /\
  (let '(e', log, how) := Examples.echo_server turns fuel e in
   (exists calls, e' = EndpointCalls.run calls e /\ log = said (events calls e)) /\ (how = Stopped -> len log = 5)) /\
  (let '(e', log, _) := Examples.multi_client_server turns fuel e in
   exists calls, e' = EndpointCalls.run calls e /\ log = said (events calls e)).
Proof.
  split; [apply run_repeats|]. split.
  - pose proof (serve_repeats turns fuel 5000 5 None 0 e) as Hs. unfold Examples.echo_server.
    destruct (Examples.serve _ _ _ _ _ _ _) as [[e' log] how]. destruct Hs as [Hr Hn]. split; [done|]. intros. by apply Hn.
  - unfold Examples.multi_client_server.
    pose proof (serve_repeats turns fuel 100 (Examples.CLIENTS * Examples.ROUNDS) (Some (net_now (ep_world e) + 10000)) 0 e) as Hs.
    destruct (Examples.serve _ _ _ _ _ _ _) as [[e' log] how]. by destruct Hs.
Qed.

(** Until its flag is set the UDP echo returns every datagram to where it came
    from; at the first read after that it ends, and what woke it is not
    echoed. *)
Theorem udp_echo_stops_when_told (before : list (option (bytes * SocketAddr))) (got : option (bytes * SocketAddr))
    (after : list (bool * option (bytes * SocketAddr))) :
  UdpEcho.run true (map (fun x => (false, x)) before ++ (true, got) :: after) = (omap id before, true).
Proof.
  induction before as [|x before IH]; [done|]. cbn [map app UdpEcho.run UdpEcho.turn]. rewrite IH.
  by destruct x as [[data from]|].
Qed.

(** ** An echo on the toy host *)
Section demo.
#[local] Existing Instance Toy.crypto.
#[local] Existing Instance ToyZstd.zstd.

Example client_hears_itself :
  (FectpEcho.run 5 true [false; false; true] (bind_socket ServerDemo.server (ServerDemo.key 6))).1.2 = [(0, [1; 2; 3])].
Proof. vm_compute. reflexivity. Qed.
End demo.
