(* ===== verification/DocSnippets.v ===== *)
(** * Snippets of the documentation (crates/fectp/build.rs)

    The build script takes every Rust block out of the documents and compiles
    it, so that a guide cannot drift from the code. [scan] is its loop over the
    lines of a document, by index; the theorem shows what it finds in a
    document of prose and fenced blocks: every Rust block not marked to be
    skipped, once, in order, with exactly its lines. *)
From Stdlib Require Import String.
From stdpp Require Import pretty.
From S2P Require Import Prelude Bytes Text.
Import Text.

Abbreviation line := (list Z).

Record Snippet := mkSnippet {
  sn_nth : Z;          (** which Rust block of the document it is, from 1 *)
  sn_start : Z;        (** the index of its first line *)
  sn_body : list line;
}.

Module DocSnippets.
Definition RUST : line := lit "```rust".
Definition FENCE : line := lit "```".
Definition SKIP : line := lit "doc-check: skip".

(** [while j < lines.len() && !lines[j].starts_with(fence)]: how many lines
    from here on are of the block. *)
Fixpoint body_len (rest : list line) : nat :=
  match rest with
  | [] => 0
  | l :: rest => if starts_with FENCE l then 0 else S (body_len rest)
  end.

(** The loop, at line [i] with [nth] blocks behind it. Each turn moves on, so as
    many turns as there are lines are enough. *)
Fixpoint scan (turns : nat) (lines : list line) (i : nat) (nth : Z) : list Snippet :=
  match turns with
  | O => []
  | S turns =>
      match lines !! i with
      | None => []
      | Some l =>
          if negb (starts_with RUST l) then scan turns lines (S i) nth else
          let skip := match lines !! (i - 1)%nat with Some before => contains SKIP before | None => false end in
          let start := S i in
          let j := (start + body_len (drop start lines))%nat in
          let nth := nth + 1 in
          let more := scan turns lines j nth in
          if skip then more
          else mkSnippet nth (Z.of_nat start) (take (j - start) (drop start lines)) :: more
      end
  end.

(** One document. *)
Definition snippets (text : list Z) : list Snippet :=
  let ls := Text.lines text in scan (length ls) ls 0 0.

(** [doc.replace(['.', '/', '-'], "_")]. *)
Definition mangle (doc : list Z) : list Z :=
  map (fun c => if (c =? 46) || (c =? 47) || (c =? 45) then 95 else c) doc.

Definition join_lines (ls : list line) : list Z :=
  match ls with [] => [] | l :: ls => l ++ concat (map (cons 10) ls) end.

(** The function a snippet becomes, between the parts of the template that do
    not depend on it: [prelude] is the constant of that name. *)
Definition name_of (doc : list Z) (s : Snippet) : list Z := mangle doc ++ [95] ++ lit (pretty (sn_nth s)).

Definition function_of (prelude doc : list Z) (s : Snippet) : list Z :=
  [10] ++ lit "/// " ++ doc ++ lit ":" ++ lit (pretty (sn_start s)) ++ [10] ++
  lit "fn " ++ name_of doc s ++ lit "() -> Result<()> {" ++ prelude ++ [10] ++
  join_lines (sn_body s) ++ [10] ++ lit "    Ok(())" ++ [10] ++ lit "}" ++ [10].

(** The documents that could be read: the functions, how many, and whether
    there were any. *)
Definition generate (prelude : list Z) (docs : list (list Z * option (list Z))) : list Z * Z * bool :=
  let found := omap (fun d => (fun text => (d.1, snippets text)) <$> d.2) docs in
  (concat (map (fun d => concat (map (function_of prelude d.1) d.2)) found),
   foldr Z.add 0 (map (fun d => len d.2) found), bool_decide (found <> [])).

(** ** What a document is *)
Inductive Part :=
| Prose (ls : list line)
| Block (rust skip : bool) (info : line) (body : list line).

Definition opening (rust : bool) (info : line) : line := (if rust then RUST else FENCE) ++ info.

Definition render (p : Part) : list line :=
  match p with
  | Prose ls => ls
  | Block rust skip info body =>
      (if skip then [lit "<!-- doc-check: skip -->"] else []) ++
      [opening rust info] ++ body ++ [FENCE]
  end.

(** Lines that neither open a fence nor mark one. *)
Definition plain (l : line) : bool := negb (starts_with FENCE l) && negb (contains SKIP l).

(** The info string of a block that is not Rust does not begin with the word. *)
Definition well_formed (p : Part) : bool :=
  match p with
  | Prose ls => forallb plain ls
  | Block rust skip info body =>
      forallb plain body && (rust || negb (starts_with (lit "rust") info)) && negb (contains SKIP (opening rust info))
  end.

(** The blocks to be found, the first line of the document being line [at_]
    and [nth] Rust blocks behind it. *)
Fixpoint blocks (at_ nth : Z) (ps : list Part) : list Snippet :=
  match ps with
  | [] => []
  | p :: ps =>
      let next := at_ + len (render p) in
      match p with
      | Block true skip _ body =>
          (if skip then [] else [mkSnippet (nth + 1) (at_ + 1) body]) ++ blocks next (nth + 1) ps
      | _ => blocks next nth ps
      end
  end.
End DocSnippets.

Section scanning.
Import DocSnippets.

(** The turns still to go do not matter once there are enough. *)
Lemma scan_turns t t' ls i nth :
  (length ls - i <= t)%nat -> (length ls - i <= t')%nat -> scan t ls i nth = scan t' ls i nth.
Proof.
  revert t' i nth. induction t as [|t IH]; intros t' i nth Ht Ht'.
  - destruct t'; [done|]. cbn [scan]. rewrite lookup_ge_None_2 by lia. done.
  - destruct t' as [|t'].
    + cbn [scan]. rewrite lookup_ge_None_2 by lia. done.
    + cbn [scan]. destruct (ls !! i) as [l|] eqn:Hl; [|done]. apply lookup_lt_Some in Hl.
      destruct (negb (starts_with RUST l)); [apply IH; lia|]. rewrite (IH t'); [done|lia|lia].
Qed.

(** Scanning from a position, whatever is before it. *)
Definition from (pre rest : list line) (nth : Z) : list Snippet :=
  scan (length (pre ++ rest)) (pre ++ rest) (length pre) nth.

Lemma from_scan t pre rest nth : (length rest <= t)%nat -> scan t (pre ++ rest) (length pre) nth = from pre rest nth.
Proof. intros. apply scan_turns; rewrite length_app; lia. Qed.

Lemma scan_cons t pre l rest nth :
  (S (length rest) <= t)%nat -> starts_with RUST l = false ->
  scan t (pre ++ l :: rest) (length pre) nth = from (pre ++ [l]) rest nth.
Proof.
  intros Ht Hl. destruct t as [|t]; [lia|]. cbn [scan]. rewrite list_lookup_middle by done. rewrite Hl. cbn [negb].
  assert (pre ++ l :: rest = (pre ++ [l]) ++ rest) as -> by (by rewrite <- app_assoc).
  replace (S (length pre)) with (length (pre ++ [l])) by (rewrite length_app; cbn; lia). apply from_scan. lia.
Qed.

Lemma starts_with_app p l rest : starts_with p l = true -> starts_with p (l ++ rest) = true.
Proof. revert l. induction p as [|c p IH]; intros [|d l]; cbn; try done. intros [-> ?]%andb_prop. by rewrite IH. Qed.

Lemma starts_with_prefix p q l : starts_with (p ++ q) l = true -> starts_with p l = true.
Proof. revert l. induction p as [|c p IH]; intros [|d l]; cbn; try done. intros [-> ?]%andb_prop. by rewrite IH. Qed.

Lemma plain_not_rust l : plain l = true -> starts_with RUST l = false.
Proof.
  intros [Hf _]%andb_prop. apply negb_true_iff in Hf. destruct (starts_with RUST l) eqn:Hr; [|done].
  by rewrite (starts_with_prefix FENCE (lit "rust") l Hr) in Hf.
Qed.

(** Plain lines are passed over. *)
Lemma from_plain ls pre rest nth :
  forallb plain ls = true -> from pre (ls ++ rest) nth = from (pre ++ ls) rest nth.
Proof.
  revert pre. induction ls as [|l ls IH]; intros pre; cbn [forallb app]; [by rewrite app_nil_r|].
  intros [Hl Hls]%andb_prop. unfold from at 1. rewrite scan_cons; [|rewrite !length_app; cbn [length]; rewrite length_app; lia|by apply plain_not_rust].
  rewrite IH by done. by rewrite <- app_assoc.
Qed.

Lemma body_len_plain body l rest :
  forallb plain body = true -> starts_with FENCE l = true -> body_len (body ++ l :: rest) = length body.
Proof.
  intros Hb Hl. induction body as [|b body IH]; cbn [app body_len]; [by rewrite Hl|].
  cbn in Hb. apply andb_prop in Hb as [[Hf _]%andb_prop Hb]. apply negb_true_iff in Hf. rewrite Hf, IH by done. done.
Qed.

(** Whether the line above a position marks what follows; the first line of a
    document is its own line above. *)
Definition marked (pre : list line) (l : line) : bool := contains SKIP (default l (list.last pre)).

Lemma lookup_above (pre : list line) l rest : (pre ++ l :: rest) !! (length pre - 1)%nat = Some (default l (list.last pre)).
Proof.
  destruct pre as [|x pre _] using rev_ind; [done|]. rewrite last_snoc, length_app. cbn [length default].
  rewrite <- app_assoc. apply list_lookup_middle. lia.
Qed.

(** A Rust block: found or skipped, and the scan goes on at its closing fence. *)
Lemma from_rust pre info body rest nth :
  forallb plain body = true ->
  from pre (opening true info :: body ++ FENCE :: rest) nth =
  (if marked pre (opening true info) then [] else [mkSnippet (nth + 1) (len pre + 1) body])
  ++ from (pre ++ opening true info :: body) (FENCE :: rest) (nth + 1).
Proof.
  intros Hb. set (l := opening true info). unfold from at 1. set (all := pre ++ l :: body ++ FENCE :: rest).
  assert (Hn : length all = S (length pre + length body + S (length rest))) by
    (unfold all; rewrite length_app; cbn [length]; rewrite length_app; cbn [length]; lia).
  rewrite Hn. cbn [scan]. assert (all !! length pre = Some l) as -> by (by apply list_lookup_middle).
  assert (starts_with RUST l = true) as -> by (by apply starts_with_app). cbn [negb].
  assert (all !! (length pre - 1)%nat = Some (default l (list.last pre))) as -> by apply lookup_above.
  fold (marked pre l).
  assert (drop (S (length pre)) all = body ++ FENCE :: rest) as Hd.
  { unfold all. rewrite cons_middle, app_assoc. apply drop_app_length'. rewrite length_app. cbn. lia. }
  rewrite Hd, body_len_plain by done.
  assert (Hall : all = (pre ++ l :: body) ++ FENCE :: rest) by (unfold all; by rewrite <- app_assoc).
  assert (Hj : (S (length pre) + length body)%nat = length (pre ++ l :: body)) by (rewrite length_app; cbn; lia).
  rewrite Hj, Hall, from_scan by (cbn [length]; lia). rewrite <- Hj.
  replace (S (length pre) + length body - S (length pre))%nat with (length body) by lia.
  rewrite take_app_length. replace (Z.of_nat (S (length pre))) with (len pre + 1) by (rewrite len_length; lia).
  by destruct (marked pre l).
Qed.

(** A line that opens or closes something else is passed over. *)
Lemma from_other pre l rest nth : starts_with RUST l = false -> from pre (l :: rest) nth = from (pre ++ [l]) rest nth.
Proof. intros. unfold from at 1. apply scan_cons; [rewrite length_app; cbn; lia|done]. Qed.

(** After a part of a document, nothing marks what follows. *)
Definition unmarked (pre : list line) : Prop := match list.last pre with Some l => contains SKIP l = false | None => True end.

Lemma unmarked_snoc pre l : contains SKIP l = false -> unmarked (pre ++ [l]).
Proof. intros. unfold unmarked. by rewrite last_snoc. Qed.

Lemma unmarked_plain pre ls : unmarked pre -> forallb plain ls = true -> unmarked (pre ++ ls).
Proof.
  intros Hp Hl. destruct ls as [|l ls _] using rev_ind; [by rewrite app_nil_r|]. rewrite app_assoc. apply unmarked_snoc.
  rewrite forallb_app in Hl. apply andb_prop in Hl as [_ Hl]. cbn in Hl. rewrite andb_true_r in Hl.
  apply andb_prop in Hl as [_ Hl]. by apply negb_true_iff.
Qed.

Lemma opening_not_rust info : starts_with (lit "rust") info = false -> starts_with RUST (opening false info) = false.
Proof. intros Hi. unfold opening, RUST, FENCE. change (lit "```rust") with (lit "```" ++ lit "rust"). cbn. exact Hi. Qed.

(** The line above a Rust block marks it exactly when the part is marked. *)
Lemma marked_render (skip : bool) info pre :
  contains SKIP (opening true info) = false -> unmarked pre ->
  marked (pre ++ (if skip then [lit "<!-- doc-check: skip -->"] else [])) (opening true info) = skip.
Proof.
  intros Ho Hu. unfold marked. destruct skip; [by rewrite last_snoc|]. rewrite app_nil_r. unfold unmarked in Hu.
  by destruct (list.last pre).
Qed.

(** One part. *)
Lemma from_part p pre rest nth :
  well_formed p = true -> unmarked pre ->
  from pre (render p ++ rest) nth =
  match p with
  | Block true skip _ body => (if skip then [] else [mkSnippet (nth + 1) (len pre + 1) body])
      ++ from (pre ++ render p) rest (nth + 1)
  | _ => from (pre ++ render p) rest nth
  end /\ unmarked (pre ++ render p).
Proof.
  destruct p as [ls|rust skip info body]; cbn [well_formed render]; intros Hw Hu.
  { split; [by apply from_plain|by apply unmarked_plain]. }
  apply andb_prop in Hw as [[Hb Hr]%andb_prop Ho]. apply negb_true_iff in Ho.
  set (mark := (if skip then [lit "<!-- doc-check: skip -->"] else []) : list line).
  split; [|rewrite !app_assoc; by apply unmarked_snoc].
  rewrite <- !app_assoc. cbn [app].
  assert (from pre (mark ++ opening rust info :: body ++ FENCE :: rest) nth
          = from (pre ++ mark) (opening rust info :: body ++ FENCE :: rest) nth) as ->.
  { unfold mark. destruct skip; [by apply from_other|by rewrite app_nil_r]. }
  destruct rust.
  - rewrite from_rust by done. unfold mark at 1. rewrite marked_render by done. rewrite from_other by done.
    rewrite <- !app_assoc. cbn [app]. unfold mark. destruct skip; [done|]. by rewrite app_nil_r.
  - cbn in Hr. apply negb_true_iff in Hr. rewrite from_other by (by apply opening_not_rust).
    rewrite from_plain, from_other by done. by rewrite <- !app_assoc.
Qed.

Lemma from_parts ps pre nth :
  forallb well_formed ps = true -> unmarked pre ->
  from pre (concat (map render ps)) nth = blocks (len pre) nth ps.
Proof.
  revert pre nth. induction ps as [|p ps IH]; intros pre nth; cbn [forallb map concat].
  { intros _ _. unfold from. rewrite app_nil_r. destruct (length pre) as [|n] eqn:Hn; [done|]. cbn [scan].
    by rewrite lookup_ge_None_2 by lia. }
  intros [Hp Hps]%andb_prop Hu. destruct (from_part p pre (concat (map render ps)) nth Hp Hu) as [-> Hu'].
  cbn [blocks]. rewrite <- len_app. destruct p as [ls|[] skip info body]; rewrite IH by done; done.
Qed.
End scanning.

(** Of a document of prose and fenced blocks, the build script finds every
    Rust block that is not marked to be skipped, once and in order, with
    exactly the lines between its fences; the blocks it skips still count, so
    the number in a generated name is the block's place in the document; and
    nothing of prose or of other blocks is taken. *)
Theorem every_rust_block_is_checked (ps : list DocSnippets.Part) :
  forallb DocSnippets.well_formed ps = true ->
  let lines := concat (map DocSnippets.render ps) in
  DocSnippets.scan (length lines) lines 0 0 = DocSnippets.blocks 0 0 ps.
Proof. intros H. by apply (from_parts ps [] 0). Qed.

Lemma every_rust_block_is_checked_witness :
  let ps := [DocSnippets.Prose [lit "# Title"]; DocSnippets.Block true false [] [lit "a();"; lit "b();"];
             DocSnippets.Block false false (lit "sh") [lit "ls"]; DocSnippets.Block true true [] [lit "c()"];
             DocSnippets.Block true false (lit ",ignore") []] in
  let lines := concat (map DocSnippets.render ps) in
  DocSnippets.scan (length lines) lines 0 0 =
    [mkSnippet 1 2 [lit "a();"; lit "b();"]; mkSnippet 3 13 []].
Proof. intros ps. exact (every_rust_block_is_checked ps eq_refl). Defined.

(** A block that is never closed runs to the end of the document. *)
Example unclosed_block_runs_on :
  DocSnippets.snippets (lit "x" ++ [10] ++ lit "```rust" ++ [10] ++ lit "f();" ++ [10]) = [mkSnippet 1 2 [lit "f();"]].
Proof. vm_compute. reflexivity. Qed.
