(* ===== verification/CMemory.v ===== *)
(** * What lies on the other side of the C boundary

    The host's memory as the entry points of crates/ffi see it: bytes at
    addresses, pointer variables at addresses, and the boxes this library has
    given out as handles, with the reference counts of the host keys they
    share. A computation of type [Act] runs on such a world and may be
    [None]: the caller broke the contract of the "Safety" section of the
    function and what happens is undefined. *)
From stdpp Require Import gmap.
From S2P Require Import Prelude Bytes.

Declare Scope ffi_scope.
Delimit Scope ffi_scope with ffi.

(** [core::ptr::null_mut()]. *)
Definition null : Z := 0.

Definition ISIZE_MAX : Z := 9223372036854775807.
#[export] Hint Unfold ISIZE_MAX null : consts.

(** ** Bytes at addresses *)
Definition Memory := gmap Z Z.

Definition read_bytes (m : Memory) (ptr n : Z) : option bytes :=
  mapM (fun a => m !! a) (seqZ ptr n).

Definition write_bytes (m : Memory) (ptr : Z) (b : bytes) : Memory :=
  map_seqZ ptr b ∪ m.

(** Two ranges that share a byte. *)
Definition overlaps (p n q k : Z) : bool :=
  (0 <? n) && (0 <? k) && (p <? q + k) && (q <? p + n).

(** A range the caller may pass: every byte of it is there. *)
Definition valid (m : Memory) (ptr n : Z) : Prop := is_Some (read_bytes m ptr n).

Section memory.
Implicit Types (m : Memory) (b : bytes).

Lemma mapM_agree {A B} (f g : A -> option B) l :
  Forall (fun a => f a = g a) l -> mapM f l = mapM g l.
Proof. induction 1 as [|a l Ha _ IH]; [done|]. cbn. by rewrite Ha, IH. Qed.

Lemma seqZ_range p n : Forall (fun a => p <= a < p + n) (seqZ p n).
Proof. apply list.Forall_forall. intros a Ha. apply elem_of_seqZ in Ha. lia. Qed.

Lemma read_bytes_agree m m' p n :
  (forall a, p <= a < p + n -> m !! a = m' !! a) -> read_bytes m p n = read_bytes m' p n.
Proof.
  intros H. apply mapM_agree. apply (List.Forall_impl _ H), seqZ_range.
Qed.

Lemma read_bytes_len m ptr n b : read_bytes m ptr n = Some b -> len b = Z.max 0 n.
Proof.
  intros H. apply length_mapM in H. rewrite length_seqZ in H.
  pose proof (to_nat_len b). pose proof (len_nonneg b). lia.
Qed.

Lemma read_bytes_intro m ptr b :
  (forall i x, b !! i = Some x -> m !! (ptr + Z.of_nat i) = Some x) ->
  read_bytes m ptr (len b) = Some b.
Proof.
  intros H. apply mapM_Some_2, Forall2_same_length_lookup_2.
  - rewrite length_seqZ. apply to_nat_len.
  - intros i a x Ha Hx. apply lookup_seqZ in Ha as [-> _]. auto.
Qed.

Lemma read_bytes_elim m ptr n b a :
  read_bytes m ptr n = Some b -> ptr <= a < ptr + n ->
  exists x, b !! Z.to_nat (a - ptr) = Some x /\ m !! a = Some x.
Proof.
  intros H Ha. apply mapM_Some_1 in H.
  assert (seqZ ptr n !! Z.to_nat (a - ptr) = Some a) as Hs by (apply lookup_seqZ; lia).
  destruct (Forall2_lookup_l _ _ _ _ _ H Hs) as (x & ? & ?). eauto.
Qed.

(** A range is valid exactly when each of its bytes is there. *)
Lemma valid_spec m ptr n : valid m ptr n <-> forall a, ptr <= a < ptr + n -> is_Some (m !! a).
Proof.
  split.
  - intros [b Hb] a Ha. destruct (read_bytes_elim _ _ _ _ _ Hb Ha) as (x & _ & Hx). eauto.
  - intros H. apply mapM_is_Some, list.Forall_forall. intros a Ha. apply H.
    apply elem_of_seqZ in Ha. lia.
Qed.

Lemma valid_le m ptr n k : valid m ptr n -> k <= n -> valid m ptr k.
Proof. rewrite !valid_spec. intros H Hk a Ha. apply H. lia. Qed.

Lemma write_lookup_in m ptr b i x :
  b !! i = Some x -> write_bytes m ptr b !! (ptr + Z.of_nat i) = Some x.
Proof.
  intros Hb. apply lookup_union_Some_l. apply lookup_map_seqZ_Some.
  split; [lia|]. by replace (Z.to_nat (ptr + Z.of_nat i - ptr)) with i by lia.
Qed.

Lemma write_lookup_out m ptr b a :
  ~ (ptr <= a < ptr + len b) -> write_bytes m ptr b !! a = m !! a.
Proof.
  intros Ha. unfold write_bytes. apply lookup_union_r. apply lookup_map_seqZ_None.
  pose proof (to_nat_len b). pose proof (len_nonneg b). lia.
Qed.

(** The front of what was written, and any range beside it. *)
Lemma read_write_prefix m ptr b n :
  0 <= n <= len b -> read_bytes (write_bytes m ptr b) ptr n = Some (takez n b).
Proof.
  intros Hn. assert (n = len (takez n b)) as E by (rewrite len_takez; lia). rewrite E at 1.
  apply read_bytes_intro. intros i x Hx. apply write_lookup_in.
  rewrite <- (takez_dropz n b). by apply lookup_app_l_Some.
Qed.

Lemma read_write_other m ptr b p n :
  overlaps p n ptr (len b) = false ->
  read_bytes (write_bytes m ptr b) p n = read_bytes m p n.
Proof.
  intros H. apply read_bytes_agree. intros a Ha. apply write_lookup_out.
  unfold overlaps in H. zbool; lia.
Qed.

Lemma valid_write m ptr b p n : valid m p n -> valid (write_bytes m ptr b) p n.
Proof.
  rewrite !valid_spec. intros H a Ha.
  destruct (decide (ptr <= a < ptr + len b)) as [Hi|Ho].
  - destruct (lookup_lt_is_Some_2 b (Z.to_nat (a - ptr))) as [x Hx].
    { pose proof (to_nat_len b). lia. }
    exists x. replace a with (ptr + Z.of_nat (Z.to_nat (a - ptr))) by lia. by apply write_lookup_in.
  - rewrite write_lookup_out by done. auto.
Qed.

(** Every byte of the host's memory is a byte. *)
Definition mem_ok m : Prop := map_Forall (fun _ x => is_u8 x) m.

Lemma read_bytes_ok m ptr n b : mem_ok m -> read_bytes m ptr n = Some b -> bytes_ok b.
Proof.
  intros Hm Hb. apply mapM_Some_1 in Hb. unfold bytes_ok.
  induction Hb as [|a x l b Hx _ IH]; constructor; [|done]. by eapply Hm.
Qed.

Lemma write_bytes_ok m ptr b : mem_ok m -> bytes_ok b -> mem_ok (write_bytes m ptr b).
Proof.
  intros Hm Hb a x Ha. unfold write_bytes in Ha.
  apply lookup_union_Some_raw in Ha as [Hx|[_ Hx]]; [|by eapply Hm]. apply lookup_map_seqZ_Some in Hx as [_ Hx].
  by eapply Forall_lookup_1 in Hb.
Qed.
End memory.
#[export] Hint Resolve valid_write write_bytes_ok read_bytes_ok : fectp.
