(* ===== verification/Fuzz.v ===== *)
(** * The fuzz targets (fuzz/fuzz_targets)

    Each target hands bytes nobody has checked to one entry of the core and
    asks for no panic. The targets are the source's, buffers and fixed keys
    included; what they look for on the inputs a fuzzer happens to try is shown
    here for every input. *)
From S2P Require Import Prelude Bytes Error Frame Cipher Handshake Session Connect ConnectSafety CMemory.

(** [let _ = call]: an error is dropped, a panic is not. *)
Definition ignored {A} (r : Result A) : Result unit :=
  match r with Panic => Panic | _ => Ok tt end.

(** [vec![0u8; n]]: an allocation is at most [isize::MAX] bytes. *)
Definition vec0 (n : Z) : Result bytes := if n <=? ISIZE_MAX then Ok (zeros n) else Panic.

(** [call.ok()?] in a function that returns an option. *)
Definition ok_then {A B} (r : Result A) (k : A -> Result (option B)) : Result (option B) :=
  match r with Ok a => k a | Err _ => Ok None | Panic => Panic end.

Definition FUZZ_SESSION : Z := 0x5eedface.
Definition FUZZ_CAPS : Capabilities := Capabilities.minimal 1200.

Section targets.
Context `{Crypto}.

Definition server_key : Keypair := Keypair.from_secret (repeat 0x22 32).
Definition client_key : Keypair := Keypair.from_secret (repeat 0x11 32).

Definition handshake_init (data : bytes) : Result unit :=
  let responder := Responder.new server_key FUZZ_CAPS in
  let? out := vec0 (len data + 4096) in
  ignored (Responder.read_init responder data out).2.

Definition handshake_response (data : bytes) : Result unit :=
  match Initiator.new client_key (kp_public server_key) FUZZ_SESSION FUZZ_CAPS with
  | Ok initiator =>
      let? out := vec0 (len data + 4096) in
      ignored (Initiator.read_response initiator data out)
  | Err _ => Ok tt
  | Panic => Panic
  end.

(** [secret] is the byte string the source names. *)
Definition resume_init (secret data : bytes) : Result unit :=
  let? _ := ignored (ResumeResponder.ticket_id data) in
  let ticket := preshared_key secret in
  let responder := ResumeResponder.new FUZZ_CAPS ANONYMOUS in
  let? out := vec0 (len data + 4096) in
  ignored (ResumeResponder.read_init responder ticket data out).2.

(** [r1] and [r2] are what the operating system's generator supplied. *)
Definition pair (r1 r2 : bytes) : Result (option (Session * Session)) :=
  ok_then (Initiator.new client_key (kp_public server_key) FUZZ_SESSION FUZZ_CAPS) (fun initiator =>
  let responder := Responder.new server_key FUZZ_CAPS in
  let? msg1 := vec0 (INITIATOR_OVERHEAD + 64) in
  let '(initiator, r) := Initiator.write_init initiator r1 [] msg1 in
  ok_then r (fun '(msg1, n) =>
  let? staging := vec0 (len msg1) in
  let? frame := slice msg1 0 n in
  let '(responder, r) := Responder.read_init responder frame staging in
  ok_then r (fun _ =>
  let? msg2 := vec0 (RESPONDER_OVERHEAD + 64) in
  ok_then (Responder.write_response responder r2 [] msg2) (fun '(server, msg2, n2) =>
  let? reply := vec0 (len msg2) in
  let? frame := slice msg2 0 n2 in
  ok_then (Initiator.read_response initiator frame reply) (fun '(client, _, _) =>
  Ok (Some (client, server))))))).

Definition session_open (r1 r2 data : bytes) : Result unit :=
  let? made := pair r1 r2 in
  match made with
  | None => Ok tt
  | Some (_, server) => ignored (Session.open server data).2
  end.
End targets.

Lemma ignored_ok {A} (r : Result A) : r <> Panic -> ignored r = Ok tt.
Proof. by destruct r. Qed.

Lemma vec0_ok n : n <= ISIZE_MAX -> vec0 n = Ok (zeros n).
Proof. intros. unfold vec0. by rewrite (proj2 (Z.leb_le _ _)). Qed.

(** A buffer of another's length. *)
Lemma vec0_len n : 0 <= n <= ISIZE_MAX -> vec0 (len (zeros n)) = Ok (zeros n).
Proof. intros. rewrite len_zeros, Z.max_r by lia. apply vec0_ok; lia. Qed.

Section laws.
Context `{CL : CryptoLaws}.

Lemma fuzz_caps_wf : Capabilities.wf FUZZ_CAPS.
Proof. vm_compute. intuition congruence. Qed.

Lemma fuzz_initiator :
  Initiator.new client_key (kp_public server_key) FUZZ_SESSION FUZZ_CAPS =
  Ok (Connecting.i0 client_key (repeat 0x22 32) FUZZ_SESSION FUZZ_CAPS).
Proof.
  exact (Connecting.initiator_new client_key server_key (repeat 0x22 32) (keypair_backed _)
    FUZZ_SESSION FUZZ_CAPS).
Qed.

(** The pair every run of the session target starts from. *)
Lemma pair_settles r1 r2 :
  exists client server, pair r1 r2 = Ok (Some (client, server)) /\ linked client server.
Proof.
  destruct (handshake_exchange client_key server_key (repeat 0x11 32) (repeat 0x22 32)
    FUZZ_SESSION FUZZ_CAPS FUZZ_CAPS r1 r2 [] [] (zeros (INITIATOR_OVERHEAD + 64))
    (zeros (RESPONDER_OVERHEAD + 64)) (zeros (INITIATOR_OVERHEAD + 64))
    (keypair_backed _) (keypair_backed _) ltac:(done) fuzz_caps_wf fuzz_caps_wf)
    as (i & i' & r' & m1 & m2 & f1 & f2 & b1 & sr & Ei & (Ew & Hm1 & Es1) & (Er & _) &
        (Ew2 & Hm2 & Es2) & Hread); [len_lia..|].
  destruct (Hread (zeros (RESPONDER_OVERHEAD + 64))) as (b2 & si & Er2 & Hl); [len_lia|].
  exists si, sr. split; [|done]. unfold pair. change (kp_public server_key) with (sk_public server_key).
  rewrite Ei. cbn [ok_then].
  rewrite (vec0_ok (INITIATOR_OVERHEAD + 64)), Ew by clia. cbn [ok_then].
  rewrite Hm1, (vec0_len (INITIATOR_OVERHEAD + 64)), Es1, Er by clia. cbn [ok_then].
  rewrite (vec0_ok (RESPONDER_OVERHEAD + 64)), Ew2 by clia. cbn [ok_then].
  by rewrite Hm2, (vec0_len (RESPONDER_OVERHEAD + 64)), Es2, Er2 by clia.
Qed.

Lemma handshake_init_survives data : len data + 4096 <= ISIZE_MAX -> handshake_init data = Ok tt.
Proof.
  intros Hd. unfold handshake_init. rewrite vec0_ok by done. apply ignored_ok.
  pose proof (read_init_safe (Responder.new server_key FUZZ_CAPS) data (zeros (len data + 4096))) as Hr.
  destruct Responder.read_init as [r' res]. destruct Hr as [[Hp _] _]; [|done]. by intros k [= <-].
Qed.

Lemma handshake_response_survives data :
  len data + 4096 <= ISIZE_MAX -> handshake_response data = Ok tt.
Proof.
  intros Hd. unfold handshake_response. rewrite fuzz_initiator, vec0_ok by done. apply ignored_ok.
  by apply (read_response_safe (Connecting.i0 client_key (repeat 0x22 32) FUZZ_SESSION FUZZ_CAPS)).
Qed.

Lemma resume_init_survives secret data :
  len data + 4096 <= ISIZE_MAX -> resume_init secret data = Ok tt.
Proof.
  intros Hd. unfold resume_init. rewrite ignored_ok by apply ticket_id_no_panic.
  rewrite vec0_ok by done. apply ignored_ok. apply resume_read_init_within.
Qed.
End laws.

Lemma open_no_panic `{CryptoLaws} s data : bytes_ok data -> (Session.open s data).2 <> Panic.
Proof.
  intros Hb. pose proof (Session.open_cases s data Hb) as Ho.
  destruct (Session.open s data) as [s' [[]|e|]]; [discriminate..|destruct Ho].
Qed.

(** C8: no fuzz target fails on any input. Whatever the data, the four targets
    return: a stranger's bytes can panic neither side of a handshake nor the
    resumption that reads a ticket identifier out of them. The session target
    never returns early: whatever the generator supplied, its handshake makes a
    pair of sessions linked to each other, and the data is opened on the
    server's, which answers with a message or an error and does not panic. *)
Theorem fuzz_targets_survive `{CL : CryptoLaws} secret r1 r2 data :
  bytes_ok data -> len data + 4096 <= ISIZE_MAX ->
  handshake_init data = Ok tt /\ handshake_response data = Ok tt /\ resume_init secret data = Ok tt /\
  session_open r1 r2 data = Ok tt /\
  exists client server, pair r1 r2 = Ok (Some (client, server)) /\ linked client server /\
    (Session.open server data).2 <> Panic.
Proof.
  intros Hb Hd. split; [by apply handshake_init_survives|].
  split; [by apply handshake_response_survives|]. split; [by apply resume_init_survives|].
  destruct (pair_settles r1 r2) as (client & server & E & Hl).
  pose proof (open_no_panic server data Hb) as Hp.
  split; [unfold session_open; rewrite E; by apply ignored_ok|]. by exists client, server.
Qed.

#[local] Existing Instances Toy.crypto Toy.laws.

Lemma fuzz_targets_survive_witness :
  handshake_init [2; 0; 255] = Ok tt /\ session_open [1] [2] [2; 0; 255] = Ok tt /\
  exists client server, pair [1] [2] = Ok (Some (client, server)) /\ linked client server.
Proof.
  destruct (fuzz_targets_survive [7] [1] [2] [2; 0; 255]) as (H1 & _ & _ & H2 & client & server & H3 & H4 & _).
  - by repeat constructor.
  - vm_compute. discriminate.
  - split; [exact H1|]. split; [exact H2|]. exists client, server. split; [exact H3|exact H4].
Defined.
