(* ===== verification/Xorshift.v ===== *)
(** * A 64-bit xorshift

    The generator of the bare-metal image (crates/footprint/src/main.rs) and of
    the benchmarks (crates/bench/src/datasets.rs, transports.rs): three
    exclusive ors of a word with a shift of itself, the bits shifted past the
    top lost. It permutes the 64-bit words and keeps zero to itself. *)
From S2P Require Import Prelude.

(** One [x ^= x << n] or [x ^= x >> n] on a [u64]. *)
Definition xor_shl (x n : Z) : Z := Z.lxor x (shl64 x n).
Definition xor_shr (x n : Z) : Z := Z.lxor x (Z.shiftr x n).

(** The new state, which is also the value drawn. *)
Definition xorshift (x : Z) : Z :=
  let x := xor_shl x 13 in
  let x := xor_shr x 7 in
  xor_shl x 17.

(** An exclusive or with a shift of itself determines the word. *)
Lemma xor_shl_cancel z n : is_u64 z -> 0 < n -> xor_shl z n = 0 -> z = 0.
Proof.
  intros Hz Hn E. apply Z.lxor_eq in E. apply Z.bits_inj_0. intros i.
  destruct (Z.ltb_spec i 0) as [Hi|Hi]; [by rewrite Z.testbit_neg_r|].
  revert i Hi. apply (Zlt_0_ind (fun i => Z.testbit z i = false)). intros i IH Hi.
  rewrite E, testbit_shl64 by lia. destruct (Z.leb_spec n i) as [Hni|]; [|by rewrite andb_false_r].
  rewrite IH by lia. by rewrite !andb_false_r.
Qed.

Lemma xor_shr_cancel z n : is_u64 z -> 0 < n -> xor_shr z n = 0 -> z = 0.
Proof.
  intros Hz Hn E. apply Z.lxor_eq in E. apply Z.bits_inj_0. intros i.
  destruct (Z.ltb_spec i 0) as [Hi|Hi]; [by rewrite Z.testbit_neg_r|].
  assert (forall k, 0 <= k -> forall i, 64 - k <= i -> 0 <= i -> Z.testbit z i = false) as Hk.
  { apply (Zlt_0_ind (fun k => forall i, 64 - k <= i -> 0 <= i -> Z.testbit z i = false)).
    intros k IH Hk j Hj Hj0. destruct (Z.leb_spec 64 j).
    - apply (testbit_small z 64); [change (2 ^ 64) with 18446744073709551616|]; lia.
    - rewrite E, Z.shiftr_spec by lia. apply (IH (k - 1)); lia. }
  apply (Hk 64); lia.
Qed.

(** Both steps distribute over exclusive or, and keep a word a word. *)
Lemma xor_shl_lxor x y n :
  0 <= n -> xor_shl (Z.lxor x y) n = Z.lxor (xor_shl x n) (xor_shl y n).
Proof.
  intros Hn. apply Z.bits_inj'. intros i Hi. unfold xor_shl.
  rewrite !Z.lxor_spec, !testbit_shl64, Z.lxor_spec by lia.
  destruct (i <? 64), (n <=? i), (Z.testbit x i), (Z.testbit y i), (Z.testbit x (i - n)),
    (Z.testbit y (i - n)); done.
Qed.

Lemma xor_shr_lxor x y n :
  0 <= n -> xor_shr (Z.lxor x y) n = Z.lxor (xor_shr x n) (xor_shr y n).
Proof.
  intros Hn. apply Z.bits_inj'. intros i Hi. unfold xor_shr.
  rewrite !Z.lxor_spec, !Z.shiftr_spec, !Z.lxor_spec by lia.
  destruct (Z.testbit x i), (Z.testbit y i), (Z.testbit x (i + n)), (Z.testbit y (i + n)); done.
Qed.

Lemma lxor_u64 x y : is_u64 x -> is_u64 y -> is_u64 (Z.lxor x y).
Proof.
  intros Hx Hy. apply u64_of_bits; [apply Z.lxor_nonneg; lia|]. intros i Hi.
  rewrite Z.lxor_spec. by rewrite (testbit_small x 64), (testbit_small y 64)
    by (change (2 ^ 64) with 18446744073709551616; lia).
Qed.

Lemma shr_u64 x n : is_u64 x -> 0 <= n -> is_u64 (Z.shiftr x n).
Proof.
  intros Hx Hn. rewrite Z.shiftr_div_pow2 by done. pose proof (Z.pow_pos_nonneg 2 n ltac:(lia) Hn).
  split; [apply Z.div_pos; lia|]. apply Z.div_lt_upper_bound; nia.
Qed.
Create HintDb xorshift discriminated.
#[local] Hint Resolve lxor_u64 shr_u64 shl64_range : xorshift.

Lemma xor_shl_u64 x n : is_u64 x -> is_u64 (xor_shl x n).
Proof. unfold xor_shl. auto with xorshift. Qed.

Lemma xor_shr_u64 x n : is_u64 x -> 0 <= n -> is_u64 (xor_shr x n).
Proof. unfold xor_shr. auto with xorshift. Qed.
#[local] Hint Resolve xor_shl_u64 xor_shr_u64 : xorshift.

Lemma xorshift_range c : is_u64 c -> is_u64 (xorshift c).
Proof. intros Hc. unfold xorshift. apply xor_shl_u64, xor_shr_u64; [by apply xor_shl_u64|lia]. Qed.

Lemma xorshift_lxor x y :
  xorshift (Z.lxor x y) = Z.lxor (xorshift x) (xorshift y).
Proof. unfold xorshift. by rewrite xor_shl_lxor, xor_shr_lxor, xor_shl_lxor by lia. Qed.

Lemma xorshift_zero c : is_u64 c -> xorshift c = 0 -> c = 0.
Proof.
  intros Hc E. unfold xorshift in E.
  apply xor_shl_cancel in E; [|apply xor_shr_u64; [by apply xor_shl_u64|lia]|lia].
  apply xor_shr_cancel in E; [|by apply xor_shl_u64|lia]. by apply xor_shl_cancel in E; [|done|lia].
Qed.

(** The generator is a permutation of the 64-bit words. *)
Lemma xorshift_inj x y : is_u64 x -> is_u64 y -> xorshift x = xorshift y -> x = y.
Proof.
  intros Hx Hy E. apply Z.lxor_eq, xorshift_zero; [by apply lxor_u64|].
  by rewrite xorshift_lxor, E, Z.lxor_nilpotent.
Qed.
