(* ===== verification/Paths.v ===== *)
(** * Impaired paths (crates/bench/src/transports.rs)

    The relays the benchmarks put between a client and a server: one that loses
    datagrams, one that loses at different rates each way, one that delivers
    out of order, one that varies the delay, one with a bandwidth and a queue,
    and one that changes the address it forwards from.

    Each runs a thread that reads the client's side ([read_front]), one or two
    that carry the replies back, and for some a thread on a timer. [Relay] is
    their common state and [step] the next step of one of them; a run is a list
    of steps, so any interleaving is one. [Code] is what a relay adds: what it
    does with a datagram ([each]), with a reply ([judge]) and at a turn of its
    timer. *)
From S2P Require Import Prelude Bytes Float Control Xorshift.
Import Fl.

(** [fetch_add(1)] and [+= 1] on a [u64]. *)
Definition inc64 (x : Z) : Z := (x + 1) mod 18446744073709551616.

(** ** The threads of a relay *)

(** The server-facing socket a datagram goes through: [back], or [second]. *)
Inductive Path := First | Second.

(** What happens on the sockets: a datagram of the client handed to [each], a
    reply judged by its return path and kept, a datagram sent either way. *)
Inductive Obs :=
| Heard (frame : bytes)
| Answered (p : Path) (frame : bytes)
| Kept (p : Path) (frame : bytes)
| ToServer (p : Path) (frame : bytes)
| ToClient (p : Path) (dest : SocketAddr) (frame : bytes).

(** Where [read_front]'s thread is: reading, with what it read, with a datagram
    whose sender it has noted, ended. *)
Inductive FrontPc :=
| FrRead
| FrGot (got : option (SocketAddr * bytes))
| FrLearned (frame : bytes)
| FrDone.

(** Where a return path's thread is: at the head of its loop, reading, with a
    reply, with a reply it lets through, ended. *)
Inductive BackPc :=
| BkTop
| BkRead
| BkGot (frame : bytes)
| BkKept (frame : bytes)
| BkDone.

(** What a relay does, on the state [S] its threads share. *)
Record Code (S : Type) := mkCode {
  each : Z -> bytes -> S -> S * list (Path * bytes);
  judge : Path -> S -> S * bool;
  timer : Z -> S -> S * list (Path * bytes);
  halt : S -> S
}.
Arguments mkCode {S}.
Arguments each {S}.
Arguments judge {S}.
Arguments timer {S}.
Arguments halt {S}.

Record Relay (S : Type) := mkRelay {
  rl_state : S;
  rl_front : FrontPc;
  rl_first : BackPc;
  rl_second : BackPc;
  rl_client : option SocketAddr;
  rl_stop : bool
}.
Arguments mkRelay {S}.
Arguments rl_state {S}.
Arguments rl_front {S}.
Arguments rl_first {S}.
Arguments rl_second {S}.
Arguments rl_client {S}.
Arguments rl_stop {S}.

(** One step: of the reading thread, of a return path, of the timer's thread, or
    the relay being dropped. A step that reads a socket or the clock is given
    what it finds there. *)
Inductive Event :=
| Front (now : Z) (got : option (SocketAddr * bytes))
| Back (p : Path) (got : option bytes)
| Timer (now : Z)
| Halt.

Section Threads.
Context {S : Type} (code : Code S).

Definition set_state (s : S) (r : Relay S) : Relay S :=
  mkRelay s (rl_front r) (rl_first r) (rl_second r) (rl_client r) (rl_stop r).
Definition set_front (pc : FrontPc) (r : Relay S) : Relay S :=
  mkRelay (rl_state r) pc (rl_first r) (rl_second r) (rl_client r) (rl_stop r).
Definition set_client (c : option SocketAddr) (r : Relay S) : Relay S :=
  mkRelay (rl_state r) (rl_front r) (rl_first r) (rl_second r) c (rl_stop r).
Definition back_of (p : Path) (r : Relay S) : BackPc :=
  match p with First => rl_first r | Second => rl_second r end.
Definition set_back (p : Path) (pc : BackPc) (r : Relay S) : Relay S :=
  match p with
  | First => mkRelay (rl_state r) (rl_front r) pc (rl_second r) (rl_client r) (rl_stop r)
  | Second => mkRelay (rl_state r) (rl_front r) (rl_first r) pc (rl_client r) (rl_stop r)
  end.

Definition sent (l : list (Path * bytes)) : list Obs := map (fun x => ToServer x.1 x.2) l.

(** The stop flag is read after the datagram and before acting on it. *)
Definition read_front (now : Z) (got : option (SocketAddr * bytes)) (r : Relay S) : Relay S * list Obs :=
  match rl_front r with
  | FrRead => (set_front (FrGot got) r, [])
  | FrGot got =>
      if rl_stop r then (set_front FrDone r, []) else
      match got with
      | None => (set_front FrRead r, [])
      | Some (from, frame) => (set_front (FrLearned frame) (set_client (Some from) r), [])
      end
  | FrLearned frame =>
      let (s, out) := each code now frame (rl_state r) in
      (set_front FrRead (set_state s r), Heard frame :: sent out)
  | FrDone => (r, [])
  end.

Definition spawn_return_path_until (p : Path) (got : option bytes) (r : Relay S) : Relay S * list Obs :=
  match back_of p r with
  | BkTop => (set_back p (if rl_stop r then BkDone else BkRead) r, [])
  | BkRead => (set_back p (match got with None => BkTop | Some frame => BkGot frame end) r, [])
  | BkGot frame =>
      let (s, ok) := judge code p (rl_state r) in
      (set_back p (if ok then BkKept frame else BkTop) (set_state s r),
       Answered p frame :: if ok then [Kept p frame] else [])
  | BkKept frame =>
      (set_back p BkTop r,
       match rl_client r with None => [] | Some dest => [ToClient p dest frame] end)
  | BkDone => (r, [])
  end.

Definition stop_relay (r : Relay S) : Relay S :=
  mkRelay (halt code (rl_state r)) (rl_front r) (rl_first r) (rl_second r) (rl_client r) true.

Definition step (e : Event) (r : Relay S) : Relay S * list Obs :=
  match e with
  | Front now got => read_front now got r
  | Back p got => spawn_return_path_until p got r
  | Timer now => let (s, out) := timer code now (rl_state r) in (set_state s r, sent out)
  | Halt => (stop_relay r, [])
  end.

Fixpoint run (evs : list Event) (r : Relay S) : Relay S * list Obs :=
  match evs with
  | [] => (r, [])
  | e :: evs =>
      let (r, o1) := step e r in
      let (r, o2) := run evs r in
      (r, o1 ++ o2)
  end.
End Threads.

(** [relay_sockets]: nothing read yet, no client known, not stopped. *)
Definition relay_sockets {S} (s : S) (second : BackPc) : Relay S :=
  mkRelay s FrRead BkTop second None false.

(** What a run shows of each direction. *)
Definition heard (l : list Obs) : list bytes := omap (fun o => match o with Heard f => Some f | _ => None end) l.
Definition answered (l : list Obs) : list bytes :=
  omap (fun o => match o with Answered _ f => Some f | _ => None end) l.
Definition kept (l : list Obs) : list bytes :=
  omap (fun o => match o with Kept _ f => Some f | _ => None end) l.
Definition to_server (l : list Obs) : list bytes :=
  omap (fun o => match o with ToServer _ f => Some f | _ => None end) l.
(** ** Loss *)

(** One draw, and whether it drops. *)
Definition drops (state per_mille : Z) : Z * bool :=
  let state := xorshift state in (state, Z.shiftr state 33 mod 1000 <? per_mille).

(** A direction's generator and how many datagrams it has seen; the first is
    exempt and draws nothing. *)
Record Dice := mkDice { dc_rng : Z; dc_seen : Z }.

Definition roll (per_mille : Z) (d : Dice) : Dice * bool :=
  let seen := inc64 (dc_seen d) in
  if 1 <? seen
  then let (rng, lost) := drops (dc_rng d) per_mille in (mkDice rng seen, lost)
  else (mkDice (dc_rng d) seen, false).

(** The other direction's seed. *)
Definition BACK_SEED : Z := 0x9E3779B97F4A7C15.

Record LossyRelay := mkLossy { ls_fwd : Dice; ls_back : Dice; ls_dropped : Z }.

Module LossyRelay.
Definition each (per_mille : Z) (frame : bytes) (s : LossyRelay) : LossyRelay * list (Path * bytes) :=
  let (d, lost) := roll per_mille (ls_fwd s) in
  if lost then (mkLossy d (ls_back s) (inc64 (ls_dropped s)), [])
  else (mkLossy d (ls_back s) (ls_dropped s), [(First, frame)]).

Definition judge (per_mille : Z) (s : LossyRelay) : LossyRelay * bool :=
  let (d, lost) := roll per_mille (ls_back s) in
  if lost then (mkLossy (ls_fwd s) d (inc64 (ls_dropped s)), false)
  else (mkLossy (ls_fwd s) d (ls_dropped s), true).

Definition code (per_mille : Z) : Code LossyRelay :=
  mkCode (fun _ => each per_mille) (fun _ => judge per_mille) (fun _ s => (s, [])) (fun s => s).

Definition spawn (seed : Z) : Relay LossyRelay :=
  relay_sockets (mkLossy (mkDice seed 0) (mkDice (Z.lxor seed BACK_SEED) 0) 0) BkDone.

Definition dropped (r : Relay LossyRelay) : Z := ls_dropped (rl_state r).
End LossyRelay.

Record AsymmetricRelay := mkAsymmetric { as_fwd : Dice; as_back : Dice }.

Module AsymmetricRelay.
Definition each (forward_per_mille : Z) (frame : bytes) (s : AsymmetricRelay)
  : AsymmetricRelay * list (Path * bytes) :=
  let (d, lost) := roll forward_per_mille (as_fwd s) in
  (mkAsymmetric d (as_back s), if lost then [] else [(First, frame)]).

Definition judge (back_per_mille : Z) (s : AsymmetricRelay) : AsymmetricRelay * bool :=
  let (d, lost) := roll back_per_mille (as_back s) in (mkAsymmetric (as_fwd s) d, negb lost).

Definition code (forward_per_mille back_per_mille : Z) : Code AsymmetricRelay :=
  mkCode (fun _ => each forward_per_mille) (fun _ => judge back_per_mille) (fun _ s => (s, [])) (fun s => s).

Definition spawn (seed : Z) : Relay AsymmetricRelay :=
  relay_sockets
    (mkAsymmetric (mkDice (Z.lor seed 1) 0) (mkDice (Z.lor (Z.lxor seed BACK_SEED) 1) 0)) BkDone.
End AsymmetricRelay.

(** ** Durations

    In nanoseconds; [from_secs_f64] rounds to the nearest one. *)
Definition as_secs_f64 (ns : Z) : Z := as_secs_nanos binary64 ns.
Definition from_secs_f64 (secs : Z) : Z := nearest (secs * 1000000000) (2 ^ emin binary64).
Definition mul_f64 (ns rhs : Z) : Z := from_secs_f64 (mul binary64 rhs (as_secs_f64 ns)).

(** ** Frames held back

    [due] is the heap in the order it is popped: by due time, then by the order
    of being given. [hd_out] is the frame the thread has taken and not yet sent:
    it sends with the lock released. *)
Record Held := mkHeld {
  hd_due : list (Z * Z * bytes);
  hd_next : Z;
  hd_stopped : bool;
  hd_out : option bytes
}.

Module Release.
Definition spawn : Held := mkHeld [] 0 false None.

(** [(due, order)] before another, as [Reverse] makes the heap pop it. *)
Definition before (a b : Z * Z * bytes) : bool :=
  (a.1.1 <? b.1.1) || ((a.1.1 =? b.1.1) && (a.1.2 <? b.1.2)).

Fixpoint push (x : Z * Z * bytes) (l : list (Z * Z * bytes)) : list (Z * Z * bytes) :=
  match l with
  | [] => [x]
  | y :: l' => if before x y then x :: l else y :: push x l'
  end.

Definition at_ (due : Z) (frame : bytes) (h : Held) : Held :=
  mkHeld (push (due, hd_next h, frame) (hd_due h)) (inc64 (hd_next h)) (hd_stopped h) (hd_out h).

(** A turn of the thread: send what was taken, or else take the next frame if
    it is due. It waits when there is none or it is not. *)
Definition turn (now : Z) (h : Held) : Held * list bytes :=
  match hd_out h with
  | Some frame => (mkHeld (hd_due h) (hd_next h) (hd_stopped h) None, [frame])
  | None =>
      if hd_stopped h then (h, []) else
      match hd_due h with
      | [] => (h, [])
      | (due, _, frame) :: rest =>
          if now <? due then (h, [])
          else (mkHeld rest (hd_next h) (hd_stopped h) (Some frame), [])
      end
  end.

Definition stop (h : Held) : Held := mkHeld (hd_due h) (hd_next h) true (hd_out h).
End Release.

Record ReorderingRelay := mkReordering { ro_seen : Z; ro_release : Held }.

Module ReorderingRelay.
(** A remainder by zero is the dividend, so [every = 0] holds nothing, as
    [is_multiple_of] has it. *)
Definition each (every delay now : Z) (frame : bytes) (s : ReorderingRelay)
  : ReorderingRelay * list (Path * bytes) :=
  let seen := inc64 (ro_seen s) in
  if (1 <? seen) && (seen mod every =? 0)
  then (mkReordering seen (Release.at_ (now + delay) frame (ro_release s)), [])
  else (mkReordering seen (ro_release s), [(First, frame)]).

Definition timer (now : Z) (s : ReorderingRelay) : ReorderingRelay * list (Path * bytes) :=
  let (h, out) := Release.turn now (ro_release s) in
  (mkReordering (ro_seen s) h, map (fun f => (First, f)) out).

Definition code (every delay : Z) : Code ReorderingRelay :=
  mkCode (each every delay) (fun _ s => (s, true)) timer
    (fun s => mkReordering (ro_seen s) (Release.stop (ro_release s))).

Definition spawn : Relay ReorderingRelay := relay_sockets (mkReordering 0 Release.spawn) BkDone.
End ReorderingRelay.

(** Each datagram waits for a share of [spread], drawn from [0, 1). *)
Record JitterRelay := mkJitter { jt_rng : Z; jt_forwarded : Z; jt_release : Held }.

Module JitterRelay.
Definition share (rng : Z) : Z :=
  div binary64 (of_Z binary64 (Z.shiftr rng 40)) (of_Z binary64 (Z.shiftl 1 24)).

Definition each (spread now : Z) (frame : bytes) (s : JitterRelay) : JitterRelay * list (Path * bytes) :=
  let forwarded := inc64 (jt_forwarded s) in
  let rng := xorshift (jt_rng s) in
  let wait := mul_f64 spread (share rng) in
  if wait =? 0 then (mkJitter rng forwarded (jt_release s), [(First, frame)])
  else (mkJitter rng forwarded (Release.at_ (now + wait) frame (jt_release s)), []).

Definition timer (now : Z) (s : JitterRelay) : JitterRelay * list (Path * bytes) :=
  let (h, out) := Release.turn now (jt_release s) in
  (mkJitter (jt_rng s) (jt_forwarded s) h, map (fun f => (First, f)) out).

Definition code (spread : Z) : Code JitterRelay :=
  mkCode (each spread) (fun _ s => (s, true)) timer
    (fun s => mkJitter (jt_rng s) (jt_forwarded s) (Release.stop (jt_release s))).

Definition spawn (seed : Z) : Relay JitterRelay :=
  relay_sockets (mkJitter (Z.lor seed 1) 0 Release.spawn) BkDone.
End JitterRelay.

(** ** A link with a rate and a queue

    [bn_credit] is what the link may send, in units of the smallest binary64,
    and [bn_last] when it was topped up. [bn_going] are the frames the link's
    thread has taken and not yet sent: it sends them with the lock released. *)
Record LinkQueue := mkLinkQueue { lq_frames : list bytes; lq_bytes : Z; lq_stopped : bool }.

Record BottleneckRelay := mkBottleneck {
  bn_link : LinkQueue;
  bn_overflowed : Z;
  bn_offered : Z;
  bn_credit : Z;
  bn_last : Z;
  bn_going : list bytes
}.

Module BottleneckRelay.
Definition each (queue_bytes : Z) (frame : bytes) (s : BottleneckRelay)
  : BottleneckRelay * list (Path * bytes) :=
  let offered := inc64 (bn_offered s) in
  let q := bn_link s in
  if queue_bytes <? lq_bytes q + len frame
  then (mkBottleneck q (inc64 (bn_overflowed s)) offered (bn_credit s) (bn_last s) (bn_going s), [])
  else
    let q := mkLinkQueue (lq_frames q ++ [frame]) (lq_bytes q + len frame) (lq_stopped q) in
    (mkBottleneck q (bn_overflowed s) offered (bn_credit s) (bn_last s) (bn_going s), []).

(** The frames the credit covers, in order: credit and bytes left, the frames
    taken and those still queued. *)
Fixpoint afford (credit bytes_ : Z) (frames : list bytes) : Z * Z * list bytes * list bytes :=
  match frames with
  | [] => (credit, bytes_, [], [])
  | frame :: rest =>
      let cost := of_Z binary64 (len frame) in
      if credit <? cost then (credit, bytes_, [], frames) else
      let '(credit, bytes_, going, queued) := afford (sub binary64 credit cost) (bytes_ - len frame) rest in
      (credit, bytes_, frame :: going, queued)
  end.

(** What the link may save up: four milliseconds, and never less than 2048. *)
Definition burst (bytes_per_sec : Z) : Z :=
  Z.max (mul binary64 (of_Z binary64 bytes_per_sec) (round binary64 (4 * 2 ^ emin binary64) 1000))
    (of_Z binary64 2048).

Definition refill (bytes_per_sec now : Z) (s : BottleneckRelay) : Z :=
  Z.min
    (add binary64 (bn_credit s)
       (mul binary64 (as_secs_f64 (saturating_sub now (bn_last s))) (of_Z binary64 bytes_per_sec)))
    (burst bytes_per_sec).

(** A turn of the link's thread: send what was taken, or else take what the
    credit affords. When nothing goes it waits, and the next turn is when it is
    woken, at whatever time that is. *)
Definition timer (bytes_per_sec now : Z) (s : BottleneckRelay)
  : BottleneckRelay * list (Path * bytes) :=
  match bn_going s with
  | frame :: rest =>
      (mkBottleneck (bn_link s) (bn_overflowed s) (bn_offered s) (bn_credit s) (bn_last s) rest, [(First, frame)])
  | [] =>
      let q := bn_link s in
      match lq_frames q, lq_stopped q with
      | [], _ | _, true => (s, [])
      | frames, false =>
          let '(credit, bytes_, going, queued) := afford (refill bytes_per_sec now s) (lq_bytes q) frames in
          (mkBottleneck (mkLinkQueue queued bytes_ (lq_stopped q)) (bn_overflowed s) (bn_offered s) credit now going, [])
      end
  end.

Definition stop (s : BottleneckRelay) : BottleneckRelay :=
  let q := bn_link s in
  mkBottleneck (mkLinkQueue (lq_frames q) (lq_bytes q) true)
    (bn_overflowed s) (bn_offered s) (bn_credit s) (bn_last s) (bn_going s).

Definition code (bytes_per_sec queue_bytes : Z) : Code BottleneckRelay :=
  mkCode (fun _ => each queue_bytes) (fun _ s => (s, true)) (timer bytes_per_sec) stop.

Definition spawn (now : Z) : Relay BottleneckRelay :=
  relay_sockets (mkBottleneck (mkLinkQueue [] 0 false) 0 0 0 now []) BkDone.
End BottleneckRelay.

(** ** A mapping that moves *)
Record RebindingRelay := mkRebinding { rb_seen : Z; rb_rebound : bool }.

Module RebindingRelay.
Definition each (rebind_after : Z) (frame : bytes) (s : RebindingRelay)
  : RebindingRelay * list (Path * bytes) :=
  let seen := inc64 (rb_seen s) in
  if rebind_after <? seen then (mkRebinding seen true, [(Second, frame)])
  else (mkRebinding seen (rb_rebound s), [(First, frame)]).

(** The old mapping's return path looks at [rebound]; the new one's does not. *)
Definition judge (p : Path) (s : RebindingRelay) : RebindingRelay * bool :=
  (s, match p with First => negb (rb_rebound s) | Second => true end).

Definition code (rebind_after : Z) : Code RebindingRelay :=
  mkCode (fun _ => each rebind_after) judge (fun _ s => (s, [])) (fun s => s).

Definition spawn : Relay RebindingRelay := relay_sockets (mkRebinding 0 false) BkTop.
End RebindingRelay.
