(* ===== verification/PathsLaws.v ===== *)
(** * What the impaired paths do to traffic

    Each relay of Paths.v does to what passes through it what its name says and
    nothing else, in every interleaving of its threads. *)
From S2P Require Import Prelude Bytes Float Control Xorshift Paths.
Import Fl.

(** ** Runs

    A clock is what is remembered of its readings: [ok c now] that a reading may
    follow, [adv c now] what is remembered then. *)
Definition reading (e : Event) : option Z :=
  match e with Front now _ | Timer now => Some now | _ => None end.

Section Clocks.
Context {C : Type} (ok : C -> Z -> Prop) (adv : C -> Z -> C).

Fixpoint follows (c : C) (evs : list Event) : Prop :=
  match evs with
  | [] => True
  | e :: evs =>
      match reading e with Some now => ok c now /\ follows (adv c now) evs | None => follows c evs end
  end.

Fixpoint after (c : C) (evs : list Event) : C :=
  match evs with
  | [] => c
  | e :: evs => after (match reading e with Some now => adv c now | None => c end) evs
  end.
End Clocks.

(** No reading is before an earlier one, as [Instant] promises. *)
Definition clocked : Z -> list Event -> Prop := follows Z.le (fun _ now => now).

(** Any readings at all. *)
Definition untimed : unit -> list Event -> Prop := follows (fun _ _ => True) (fun c _ => c).

Lemma follows_untimed evs : untimed () evs.
Proof. unfold untimed. induction evs as [|e evs IH]; cbn; [done|]. by destruct (reading e). Qed.

Section Invariant.
Context {S : Type} (code : Code S) {C : Type} (ok : C -> Z -> Prop) (adv : C -> Z -> C).

(** A relation between the clock, the shared state and what has been
    heard, sent on, answered and kept so far. *)
Context (J : C -> S -> list bytes -> list bytes -> list bytes -> list bytes -> Prop).
Context (J_each : forall t now f s H T A K, ok t now -> J t s H T A K ->
  let (s', out) := each code now f s in J (adv t now) s' (H ++ [f]) (T ++ map snd out) A K).
Context (J_judge : forall t p f s H T A K, J t s H T A K ->
  let (s', pass) := judge code p s in J t s' H T (A ++ [f]) (K ++ if pass then [f] else [])).
Context (J_timer : forall t now s H T A K, ok t now -> J t s H T A K ->
  let (s', out) := timer code now s in J (adv t now) s' H (T ++ map snd out) A K).
Context (J_halt : forall t s H T A K, J t s H T A K -> J t (halt code s) H T A K).
Context (J_later : forall t now s H T A K, ok t now -> J t s H T A K -> J (adv t now) s H T A K).

Local Abbreviation holds t r l := (J t (rl_state r) (heard l) (to_server l) (answered l) (kept l)).

Lemma heard_sent out : heard (sent out) = [].
Proof. induction out; by cbn. Qed.
Lemma answered_sent out : answered (sent out) = [].
Proof. induction out; by cbn. Qed.
Lemma kept_sent out : kept (sent out) = [].
Proof. induction out; by cbn. Qed.
Lemma to_server_sent out : to_server (sent out) = map snd out.
Proof. induction out as [|x out IH]; cbn; [done|]. by f_equal. Qed.

(** Splits what a log shows at an [++], and at the frames a step sent. *)
Ltac split_log out :=
  unfold heard, to_server, answered, kept in *; rewrite ?omap_app in *; cbn [omap list_omap app] in *;
  fold (heard (sent out)) (answered (sent out)) (kept (sent out)) (to_server (sent out));
  rewrite ?heard_sent, ?answered_sent, ?kept_sent, ?to_server_sent, ?app_nil_r in *.

Lemma read_front_holds t now got r l :
  ok t now -> holds t r l -> let (r', o) := read_front code now got r in holds (adv t now) r' (l ++ o).
Proof.
  intros Ht Hj. pose proof (J_later _ _ _ _ _ _ _ Ht Hj) as Hl. unfold read_front.
  destruct (rl_front r) as [|got'|f|].
  1, 2, 4: try (destruct (rl_stop r), got' as [[from f]|]); cbn; rewrite ?app_nil_r; exact Hl.
  pose proof (J_each t now f _ _ _ _ _ Ht Hj) as He. destruct (each code now f (rl_state r)) as [s out].
  cbn [rl_state set_front set_state]. split_log out. exact He.
Qed.

Lemma return_path_holds t p got r l :
  holds t r l -> let (r', o) := spawn_return_path_until code p got r in holds t r' (l ++ o).
Proof.
  intros Hj. unfold spawn_return_path_until.
  assert (forall pc (r' : Relay S), rl_state (set_back p pc r') = rl_state r') as Hs by (by destruct p).
  destruct (back_of p r) as [| |f|f|]; rewrite ?Hs, ?app_nil_r; try exact Hj.
  - pose proof (J_judge t p f _ _ _ _ _ Hj) as Ha. destruct (judge code p (rl_state r)) as [s pass].
    rewrite Hs. destruct pass; split_log (@nil (Path * bytes)); exact Ha.
  - destruct (rl_client r); split_log (@nil (Path * bytes)); exact Hj.
Qed.

Lemma step_holds e t r l :
  follows ok adv t [e] -> holds t r l ->
  let (r', o) := step code e r in holds (after adv t [e]) r' (l ++ o).
Proof.
  intros Hf Hj. destruct e as [now got|p got|now|]; cbn in Hf |- *.
  - apply (read_front_holds t now got r l (proj1 Hf) Hj).
  - apply (return_path_holds t p got r l Hj).
  - pose proof (J_timer t now _ _ _ _ _ (proj1 Hf) Hj) as H. destruct (timer code now (rl_state r)) as [s out].
    split_log out. exact H.
  - rewrite app_nil_r. by apply J_halt.
Qed.

Lemma run_holds evs t r l :
  follows ok adv t evs -> holds t r l ->
  let (r', o) := run code evs r in holds (after adv t evs) r' (l ++ o).
Proof.
  revert t r l. induction evs as [|e evs IH]; intros t r l Hf Hj; cbn [run].
  { by rewrite app_nil_r. }
  pose proof (step_holds e t r l) as H1. destruct (step code e r) as [r1 o1].
  assert (follows ok adv t [e] /\ follows ok adv (after adv t [e]) evs) as [Hf1 Hf2].
  { cbn in *. destruct (reading e); [|done]. by destruct Hf. }
  specialize (IH _ _ _ Hf2 (H1 Hf1 Hj)). destruct (run code evs r1) as [r2 o2].
  rewrite app_assoc. exact IH.
Qed.

(** From a fresh relay. *)
Lemma run_from_start evs t s second :
  follows ok adv t evs -> J t s [] [] [] [] ->
  let (r, l) := run code evs (relay_sockets s second) in holds (after adv t evs) r l.
Proof. intros Hf Hj. exact (run_holds evs t (relay_sockets s second) [] Hf Hj). Qed.
End Invariant.

(** Where the clock does not matter. *)
Lemma untimed_from_start {S} (code : Code S) (J : S -> list bytes -> list bytes -> list bytes -> list bytes -> Prop) s second evs :
  (forall now f s H T A K, J s H T A K ->
     let (s', out) := each code now f s in J s' (H ++ [f]) (T ++ map snd out) A K) ->
  (forall p f s H T A K, J s H T A K ->
     let (s', pass) := judge code p s in J s' H T (A ++ [f]) (K ++ if pass then [f] else [])) ->
  (forall now s H T A K, J s H T A K ->
     let (s', out) := timer code now s in J s' H (T ++ map snd out) A K) ->
  (forall s H T A K, J s H T A K -> J (halt code s) H T A K) ->
  J s [] [] [] [] ->
  let (r, l) := run code evs (relay_sockets s second) in
  J (rl_state r) (heard l) (to_server l) (answered l) (kept l).
Proof.
  intros He Ha Ht Hh H0.
  apply (run_from_start code (fun (_ : unit) _ => True) (fun c _ => c) (fun _ => J)) with (t := ());
    try done; [by intros; apply He|by intros; apply Ht|apply follows_untimed].
Qed.

(** ** Loss

    The datagrams that get through, by the seed alone: the first, and then each
    one whose draw is not below the rate. *)
Definition draw (rng : Z) : Z := Z.shiftr rng 33 mod 1000.

Fixpoint survivors_from (per_mille rng : Z) (frames : list bytes) : list bytes :=
  match frames with
  | [] => []
  | f :: fs =>
      let rng := xorshift rng in
      if draw rng <? per_mille then survivors_from per_mille rng fs else f :: survivors_from per_mille rng fs
  end.

Definition survivors (per_mille seed : Z) (frames : list bytes) : list bytes :=
  match frames with [] => [] | f :: fs => f :: survivors_from per_mille seed fs end.

Lemma survivors_from_snoc pm rng fs f :
  survivors_from pm rng (fs ++ [f]) =
    survivors_from pm rng fs ++ if draw (Nat.iter (S (length fs)) xorshift rng) <? pm then [] else [f].
Proof.
  revert rng. induction fs as [|g fs IH]; intros rng; cbn [app survivors_from length]; [done|].
  rewrite IH, (Nat.iter_succ_r (S (length fs))). by destruct (draw (xorshift rng) <? pm).
Qed.

(** A generator after [H] of which [T] got through. *)
Definition dealt (pm seed : Z) (H T : list bytes) (d : Dice) : Prop :=
  len H < 18446744073709551616 ->
  dc_seen d = len H /\ dc_rng d = Nat.iter (length H - 1) xorshift seed /\ T = survivors pm seed H.

Lemma roll_deals pm seed H T d f :
  dealt pm seed H T d ->
  let (d', lost) := roll pm d in dealt pm seed (H ++ [f]) (T ++ if lost then [] else [f]) d'.
Proof.
  intros Hd. unfold roll, drops. destruct (1 <? inc64 (dc_seen d)) eqn:E; intros Hlen;
    rewrite len_app, len_cons, len_nil in *; destruct Hd as (Hs & Hr & ->); try lia;
    unfold inc64 in *; rewrite Hs, Z.mod_small in * by (pose proof (len_nonneg H); lia);
    cbn [dc_seen dc_rng]; (split; [lia|]); zbool.
  - destruct H as [|g H]; [rewrite len_nil in E; lia|]. cbn [survivors app]. rewrite survivors_from_snoc, Hr.
    cbn [length]. rewrite length_app, Nat.sub_1_r. cbn [Nat.pred length].
    replace (S (length H + 1) - 1)%nat with (S (length H)) by lia. split; [done|].
    reflexivity.
  - destruct H as [|g H]; [by rewrite Hr|]. rewrite len_cons in E. pose proof (len_nonneg H). lia.
Qed.

Lemma inc64_mod a : inc64 (a mod 18446744073709551616) = (a + 1) mod 18446744073709551616.
Proof. unfold inc64. by rewrite Zplus_mod_idemp_l. Qed.

(** The lossy relay: its two generators, and its count. *)
Definition lossy_inv (pm seed : Z) (s : LossyRelay) (H T A K : list bytes) : Prop :=
  dealt pm seed H T (ls_fwd s) /\ dealt pm (Z.lxor seed BACK_SEED) A K (ls_back s) /\
  ls_dropped s = (len H - len T + (len A - len K)) mod 18446744073709551616.

Lemma lossy_holds pm seed evs :
  let (r, l) := run (LossyRelay.code pm) evs (LossyRelay.spawn seed) in
  lossy_inv pm seed (rl_state r) (heard l) (to_server l) (answered l) (kept l).
Proof.
  apply untimed_from_start; [| |by intros; cbn; rewrite app_nil_r|done|done].
  - intros now f s H T A K (Hf & Hb & Hc). cbn. unfold LossyRelay.each.
    pose proof (roll_deals pm seed H T (ls_fwd s) f Hf) as Hr. destruct (roll pm (ls_fwd s)) as [d lost].
    destruct lost; cbn; (split; [exact Hr|split; [exact Hb|]]); cbn; rewrite ?Hc, ?inc64_mod;
      f_equal; rewrite !len_app, !len_cons, !len_nil; lia.
  - intros p f s H T A K (Hf & Hb & Hc). cbn. unfold LossyRelay.judge.
    pose proof (roll_deals pm _ A K (ls_back s) f Hb) as Hr. destruct (roll pm (ls_back s)) as [d lost].
    destruct lost; cbn; (split; [exact Hf|split; [exact Hr|]]); cbn; rewrite ?Hc, ?inc64_mod;
      f_equal; rewrite !len_app, !len_cons, !len_nil; lia.
Qed.

Definition asymmetric_inv (fwd back seed : Z) (s : AsymmetricRelay) (H T A K : list bytes) : Prop :=
  dealt fwd (Z.lor seed 1) H T (as_fwd s) /\ dealt back (Z.lor (Z.lxor seed BACK_SEED) 1) A K (as_back s).

Lemma asymmetric_holds fwd back seed evs :
  let (r, l) := run (AsymmetricRelay.code fwd back) evs (AsymmetricRelay.spawn seed) in
  asymmetric_inv fwd back seed (rl_state r) (heard l) (to_server l) (answered l) (kept l).
Proof.
  apply untimed_from_start; [| |by intros; cbn; rewrite app_nil_r|done|done].
  - intros now f s H T A K (Hf & Hb). cbn. unfold AsymmetricRelay.each.
    pose proof (roll_deals fwd _ H T (as_fwd s) f Hf) as Hr. by destruct (roll fwd (as_fwd s)) as [d []].
  - intros p f s H T A K (Hf & Hb). cbn. unfold AsymmetricRelay.judge.
    pose proof (roll_deals back _ A K (as_back s) f Hb) as Hr. by destruct (roll back (as_back s)) as [d []].
Qed.

(** A higher rate lets through a part of what a lower one does. *)
Lemma survivors_mono low high seed frames :
  low <= high -> survivors high seed frames `sublist_of` survivors low seed frames.
Proof.
  intros Hle. destruct frames as [|f fs]; [done|]. cbn. apply sublist_skip. revert seed.
  induction fs as [|g fs IH]; intros rng; cbn; [done|].
  destruct (draw (xorshift rng) <? low) eqn:El; zbool.
  - rewrite (proj2 (Z.ltb_lt (draw (xorshift rng)) high)) by lia. apply IH.
  - destruct (draw (xorshift rng) <? high); [by apply sublist_cons|by apply sublist_skip].
Qed.

(** From the seed zero every draw is zero. *)
Lemma survivors_zero pm frames : 0 < pm -> survivors pm 0 frames = take 1 frames.
Proof.
  intros Hpm. destruct frames as [|f fs]; [done|]. cbn. f_equal. change (take 0 fs) with (@nil bytes).
  induction fs as [|g fs IH]; [done|]. cbn [survivors_from]. change (xorshift 0) with 0.
  change (draw 0) with 0. by rewrite (proj2 (Z.ltb_lt 0 pm) Hpm).
Qed.

(** From any other seed no state is zero. *)
Lemma iter_xorshift_nonzero n x : is_u64 x -> x <> 0 ->
  is_u64 (Nat.iter n xorshift x) /\ Nat.iter n xorshift x <> 0.
Proof.
  intros Hx Hn. induction n as [|n [Hr H0]]; [done|]. cbn [Nat.iter nat_rect].
  fold (Nat.iter n xorshift x). split; [by apply xorshift_range|]. intros E. by apply H0, xorshift_zero.
Qed.

(** ** Frames held back

    What the releasing thread still has, in the order it will send it. *)
Definition held (h : Held) : list bytes := option_list (hd_out h) ++ map snd (hd_due h).

Lemma push_perm x l : Release.push x l ≡ₚ x :: l.
Proof.
  induction l as [|y l IH]; cbn; [done|]. destruct (Release.before x y); [done|]. rewrite IH. constructor.
Qed.

Lemma at_perm due f h : held (Release.at_ due f h) ≡ₚ held h ++ [f].
Proof. unfold held. cbn. rewrite push_perm. cbn. by rewrite <- app_assoc, Permutation_cons_append. Qed.

(** A turn sends the first of what is held, or nothing. *)
Lemma turn_keeps now h : let (h', out) := Release.turn now h in held h = out ++ held h'.
Proof.
  unfold Release.turn, held. destruct h as [due next stopped [f|]]; cbn; [done|].
  destruct stopped; [done|]. destruct due as [|[[d o] f] due]; cbn; [done|]. by destruct (now <? d).
Qed.

Lemma stop_held h : held (Release.stop h) = held h.
Proof. done. Qed.

(** A frame is taken when it is due and not before. *)
Lemma turn_due now h h' f :
  Release.turn now h = (h', []) -> hd_out h = None -> hd_out h' = Some f ->
  exists due order rest, hd_due h = (due, order, f) :: rest /\ due <= now.
Proof.
  unfold Release.turn. intros E Hn Ho. rewrite Hn in E. destruct (hd_stopped h); [congruence|].
  destruct (hd_due h) as [|[[d o] g] rest]; [congruence|]. destruct (now <? d) eqn:Ed; [congruence|]. zbool.
  injection E as <-. cbn in Ho. injection Ho as ->. by exists d, o, rest.
Qed.

Definition reordering_inv (s : ReorderingRelay) (H T _ _ : list bytes) : Prop := H ≡ₚ T ++ held (ro_release s).

Lemma reordering_holds every delay evs :
  let (r, l) := run (ReorderingRelay.code every delay) evs ReorderingRelay.spawn in
  reordering_inv (rl_state r) (heard l) (to_server l) (answered l) (kept l).
Proof.
  apply untimed_from_start; unfold reordering_inv; [| | |done|done].
  - intros now f s H T A K Hj. cbn. unfold ReorderingRelay.each.
    destruct (_ && _); cbn [ro_release map snd]; rewrite Hj.
    + by rewrite at_perm, app_nil_r, app_assoc.
    + by rewrite <- !app_assoc, (Permutation_app_comm (held _)).
  - by intros p f s H T A K Hj.
  - intros now s H T A K Hj. cbn. unfold ReorderingRelay.timer.
    pose proof (turn_keeps now (ro_release s)) as Ht. destruct (Release.turn now (ro_release s)) as [h out].
    cbn. rewrite Ht in Hj. by rewrite map_map, map_id, <- app_assoc.
Qed.

Definition jitter_inv (s : JitterRelay) (H T _ _ : list bytes) : Prop :=
  H ≡ₚ T ++ held (jt_release s) /\ jt_forwarded s = len H mod 18446744073709551616.

Lemma jitter_holds spread seed evs :
  let (r, l) := run (JitterRelay.code spread) evs (JitterRelay.spawn seed) in
  jitter_inv (rl_state r) (heard l) (to_server l) (answered l) (kept l).
Proof.
  apply untimed_from_start; unfold jitter_inv; [| | |done|done].
  - intros now f s H T A K [Hj Hc]. cbn. unfold JitterRelay.each.
    assert (inc64 (jt_forwarded s) = len (H ++ [f]) mod 18446744073709551616) as Hn.
    { rewrite Hc, inc64_mod, len_app. done. }
    destruct (_ =? 0); cbn [jt_release jt_forwarded map snd]; (split; [|exact Hn]); rewrite Hj.
    + by rewrite <- !app_assoc, (Permutation_app_comm (held _)).
    + by rewrite at_perm, app_nil_r, app_assoc.
  - by intros p f s H T A K Hj.
  - intros now s H T A K [Hj Hc]. cbn. unfold JitterRelay.timer.
    pose proof (turn_keeps now (jt_release s)) as Ht. destruct (Release.turn now (jt_release s)) as [h out].
    cbn. rewrite Ht in Hj. by rewrite map_map, map_id, <- app_assoc.
Qed.

(** *** The control

    With every datagram held for the same time, each is given a due time no
    earlier than those before it and joins the end of the queue. *)
Lemma push_last x l : Forall (fun y => Release.before x y = false) l -> Release.push x l = l ++ [x].
Proof. induction 1 as [|y l Hy _ IH]; cbn; [done|]. by rewrite Hy, IH. Qed.

(** Every frame waiting was given a due time by [t] and a number below [n]. *)
Definition given_by (delay t n : Z) (l : list (Z * Z * bytes)) : Prop :=
  Forall (fun x => x.1.1 <= t + delay /\ x.1.2 < n) l.

Lemma given_by_mono delay t t' n n' l : t <= t' -> n <= n' -> given_by delay t n l -> given_by delay t' n' l.
Proof. intros Ht Hn. apply List.Forall_impl. lia. Qed.

Lemma given_by_push delay t n now f l :
  t <= now -> given_by delay t n l -> Release.push (now + delay, n, f) l = l ++ [(now + delay, n, f)].
Proof.
  intros Ht Hl. apply push_last. revert Hl. apply List.Forall_impl.
  intros x Hx. unfold Release.before. cbn. destruct (_ =? _) eqn:?; zbool; lia.
Qed.

Definition control_inv (delay t : Z) (s : ReorderingRelay) (H T _ _ : list bytes) : Prop :=
  len H < 18446744073709551616 ->
  ro_seen s = len H /\ H = T ++ held (ro_release s) /\
  0 <= hd_next (ro_release s) <= len H /\
  given_by delay t (hd_next (ro_release s)) (hd_due (ro_release s)).

Lemma control_each delay t now f s H T A K :
  t <= now -> control_inv delay t s H T A K ->
  let (s', out) := ReorderingRelay.each 1 delay now f s in
  control_inv delay now s' (H ++ [f]) (T ++ map snd out) A K.
Proof.
  intros Ht Hj. unfold ReorderingRelay.each. rewrite Z.mod_1_r, Z.eqb_refl, andb_true_r.
  destruct (1 <? inc64 (ro_seen s)) eqn:E; intros Hlen; rewrite len_app, len_cons, len_nil in *;
    destruct Hj as (Hs & HH & Hn & Hd); try lia; pose proof (len_nonneg H);
    unfold inc64 in *; rewrite Hs, Z.mod_small in * by lia; cbn [ro_seen ro_release map]; (split; [lia|]); zbool.
  - unfold held in *. cbn [Release.at_ hd_out hd_due hd_next].
    rewrite (given_by_push _ t) by done.
    rewrite map_app, app_nil_r. cbn [map snd]. split; [by rewrite HH, <- !app_assoc|].
    unfold inc64. rewrite Z.mod_small by lia. split; [lia|].
    apply Forall_app. split; [apply (given_by_mono _ t _ (hd_next (ro_release s))); [lia|lia|done]|].
    constructor; [cbn; lia|done].
  - assert (H = []) as -> by (destruct H; [done|rewrite len_cons in *; pose proof (len_nonneg H); lia]).
    symmetry in HH. apply app_eq_nil in HH as [-> Hh]. rewrite Hh. split; [done|]. split; [lia|].
    by apply (given_by_mono _ t _ (hd_next (ro_release s))).
Qed.

Lemma control_timer delay t now s H T A K :
  t <= now -> control_inv delay t s H T A K ->
  let (s', out) := ReorderingRelay.timer now s in control_inv delay now s' H (T ++ map snd out) A K.
Proof.
  intros Ht Hj. unfold ReorderingRelay.timer. pose proof (turn_keeps now (ro_release s)) as Hk.
  destruct (Release.turn now (ro_release s)) as [h out] eqn:E. intros Hlen.
  destruct (Hj Hlen) as (Hs & HH & Hn & Hd). cbn [ro_seen ro_release].
  split; [done|]. split; [by rewrite HH, Hk, map_map, map_id, <- app_assoc|].
  apply (given_by_mono _ _ now _ (hd_next (ro_release s))) in Hd; [|done|done].
  revert E. unfold Release.turn. destruct (hd_out (ro_release s)); [by intros [= <- _]|].
  destruct (hd_stopped _); [by intros [= <- _]|].
  destruct (hd_due (ro_release s)) as [|[[d o] g] rest] eqn:Ed; [intros [= <- _]; by rewrite Ed|].
  destruct (now <? d); intros [= <- _]; [by rewrite Ed|]. split; [done|]. by inversion Hd.
Qed.

Lemma control_holds delay t evs :
  clocked t evs ->
  let (r, l) := run (ReorderingRelay.code 1 delay) evs ReorderingRelay.spawn in
  control_inv delay (after (fun _ now => now) t evs) (rl_state r) (heard l) (to_server l) (answered l) (kept l).
Proof.
  intros Hc. apply (run_from_start (ReorderingRelay.code 1 delay) Z.le (fun _ now => now)); [| | | | |done|].
  - intros t' now f s H T A K. apply control_each.
  - by intros t' p f s H T A K Hj.
  - intros t' now s H T A K. apply control_timer.
  - by intros t' s H T A K Hj.
  - intros t' now s H T A K Ht Hj Hlen. destruct (Hj Hlen) as (Hs & HH & Hn & Hd).
    split; [done|]. split; [done|]. split; [done|]. by apply (given_by_mono _ t' _ (hd_next (ro_release s))).
  - unfold control_inv. rewrite (@len_nil bytes). intros _. split; [done|]. split; [done|]. split; [cbn; lia|]. constructor.
Qed.

(** *** Everything goes

    Once what is held is due, turns of the thread send all of it. *)
Lemma drain_all every delay now k r :
  hd_stopped (ro_release (rl_state r)) = false ->
  Forall (fun x => x.1.1 <= now) (hd_due (ro_release (rl_state r))) ->
  (length (option_list (hd_out (ro_release (rl_state r)))) + 2 * length (hd_due (ro_release (rl_state r))) <= k)%nat ->
  let (r', l) := run (ReorderingRelay.code every delay) (replicate k (Timer now)) r in
  to_server l = held (ro_release (rl_state r)) /\ held (ro_release (rl_state r')) = [].
Proof.
  revert r. induction k as [|k IH]; intros [[seen h] fr p1 p2 c st] Hs Hd Hk; cbn in Hs, Hd, Hk.
  { destruct h as [[|x due] n s [f|]]; cbn in Hk; try lia. done. }
  cbn [replicate run step]. cbn [timer ReorderingRelay.code ReorderingRelay.timer ro_release rl_state].
  unfold Release.turn. destruct h as [due n s [f|]]; cbn -[Z.ltb] in Hs, Hd, Hk |- *; subst s.
  - specialize (IH (mkRelay (mkReordering seen (mkHeld due n false None)) fr p1 p2 c st) eq_refl Hd
      ltac:(cbn; lia)). unfold set_state in *. cbn in *.
    destruct (run _ _ _) as [r' l]. destruct IH as [H1 H2]. split; [|exact H2].
    change (f :: to_server l = f :: map snd due). by f_equal.
  - destruct due as [|[[d o] g] due]; cbn -[Z.ltb] in Hk |- *.
    + specialize (IH (mkRelay (mkReordering seen (mkHeld [] n false None)) fr p1 p2 c st) eq_refl Hd
        ltac:(cbn; lia)). unfold set_state in *. cbn in *. by destruct (run _ _ _) as [r' l].
    + inversion Hd as [|x y Hx Hrest E1]. subst x y. cbn in Hx.
      unfold ReorderingRelay.timer, Release.turn. cbn [ro_release hd_out hd_stopped hd_due]. rewrite (proj2 (Z.ltb_ge now d) Hx). cbn.
      specialize (IH (mkRelay (mkReordering seen (mkHeld due n false (Some g))) fr p1 p2 c st) eq_refl Hrest
        ltac:(cbn; lia)). unfold set_state in *. cbn in *. by destruct (run _ _ _) as [r' l].
Qed.

(** ** A mapping that moves *)
Definition via (p : Path) (l : list Obs) : list bytes :=
  omap (fun o => match o, p with ToServer First f, First | ToServer Second f, Second => Some f | _, _ => None end) l.

Definition replies_via (p : Path) (l : list Obs) : list bytes :=
  omap (fun o => match o, p with ToClient First _ f, First | ToClient Second _ f, Second => Some f | _, _ => None end) l.

(** The first [n] datagrams go through the old mapping and the rest through the new. *)
Definition rebinding_inv (n : Z) (r : Relay RebindingRelay) (l : list Obs) : Prop :=
  len (heard l) < 18446744073709551616 ->
  rb_seen (rl_state r) = len (heard l) /\
  via First l = take (Z.to_nat n) (heard l) /\ via Second l = drop (Z.to_nat n) (heard l) /\
  rb_rebound (rl_state r) = (n <? len (heard l)).

Lemma rebinding_step n e r l :
  0 <= n -> rebinding_inv n r l ->
  let (r', o) := step (RebindingRelay.code n) e r in rebinding_inv n r' (l ++ o).
Proof.
  intros Hn Hj.
  assert (forall r' o, rl_state r' = rl_state r -> heard o = [] -> via First o = [] -> via Second o = [] ->
    rebinding_inv n r' (l ++ o)) as Hsame.
  { intros r' o Hr Hh H1 H2. unfold rebinding_inv, heard, via in *. rewrite !omap_app.
    by rewrite Hh, H1, H2, Hr, !app_nil_r. }
  destruct e as [now got|p got|now|]; cbn [step]; [| |by apply Hsame|by apply Hsame].
  - unfold read_front. destruct (rl_front r) as [|got'|f|]; [by apply Hsame| | |by apply Hsame].
    { destruct (rl_stop r); [by apply Hsame|]. by destruct got' as [[from f]|]; apply Hsame. }
    cbn. unfold RebindingRelay.each. unfold rebinding_inv in *.
    destruct (n <? inc64 (rb_seen (rl_state r))) eqn:E; cbn; unfold heard, via in *; rewrite !omap_app; cbn;
      intros Hlen; rewrite len_app, len_cons, len_nil in *; destruct Hj as (Hs & H1 & H2 & Hr); try lia;
      set (H := omap _ l) in Hs, H1, H2, Hr, Hlen |- *; pose proof (len_nonneg H);
      unfold inc64 in *; rewrite Hs, Z.mod_small in * by lia; zbool; rewrite H1, H2, len_length in *.
    + split; [done|]. rewrite app_nil_r, take_app_le, drop_app_le by lia.
      split; [done|]. split; [done|]. symmetry. by apply Z.ltb_lt.
    + split; [done|]. rewrite app_nil_r, !take_ge, !drop_ge by (rewrite ?length_app; cbn; lia).
      split; [done|]. split; [done|]. rewrite Hr. transitivity false; [|symmetry]; apply Z.ltb_ge; lia.
  - unfold spawn_return_path_until. cbn [judge RebindingRelay.code RebindingRelay.judge].
    destruct p, (back_of _ r) as [| |f|f|]; try (by apply Hsame); cbn [back_of];
      try destruct (rl_client r); try destruct (rb_rebound (rl_state r)); by apply Hsame.
Qed.

Lemma rebinding_holds n evs r l :
  0 <= n -> rebinding_inv n r l ->
  let (r', o) := run (RebindingRelay.code n) evs r in rebinding_inv n r' (l ++ o).
Proof.
  intros Hn. revert r l. induction evs as [|e evs IH]; intros r l Hj; cbn [run]; [by rewrite app_nil_r|].
  pose proof (rebinding_step n e r l Hn Hj) as H1. destruct (step _ e r) as [r1 o1].
  specialize (IH r1 (l ++ o1) H1). destruct (run _ evs r1) as [r2 o2]. by rewrite app_assoc.
Qed.

(** The reply the old mapping's return path has already let through. *)
Definition pending (r : Relay RebindingRelay) : list bytes :=
  match rl_first r with BkKept f => [f] | _ => [] end.

Lemma rebound_step n e r :
  rb_rebound (rl_state r) = true ->
  let (r', o) := step (RebindingRelay.code n) e r in
  rb_rebound (rl_state r') = true /\
  (replies_via First o = [] /\ (pending r' = pending r) \/
   replies_via First o `prefix_of` pending r /\ pending r' = []).
Proof.
  intros Hr. destruct e as [now got|p got|now|]; cbn [step]; [| |by split; [|left]|by split; [|left]].
  - unfold read_front. destruct (rl_front r) as [|got'|f|]; [by split; [|left]| | |by split; [|left]].
    { destruct (rl_stop r); [by split; [|left]|]. destruct got' as [[from f]|]; by split; [|left]. }
    cbn. unfold RebindingRelay.each. destruct (_ <? _); cbn; by split; [|left].
  - unfold spawn_return_path_until, pending. cbn [judge RebindingRelay.code RebindingRelay.judge]. rewrite Hr.
    destruct p; cbn [back_of negb].
    + destruct (rl_first r) as [| |f|f|] eqn:Ef; cbn; rewrite ?Hr, ?Ef; (split; [done|]).
      * by destruct (rl_stop r); left.
      * by destruct got; left.
      * by left.
      * right. split; [|done]. destruct (rl_client r); [done|apply prefix_nil].
      * by left.
    + destruct (rl_second r) as [| |f|f|]; cbn; rewrite ?Hr; (split; [done|left]); split; try done.
      by destruct (rl_client r).
Qed.

Lemma rebound_run n evs r :
  rb_rebound (rl_state r) = true ->
  replies_via First (run (RebindingRelay.code n) evs r).2 `prefix_of` pending r.
Proof.
  revert r. induction evs as [|e evs IH]; intros r Hr; cbn [run]; [by apply prefix_nil|].
  pose proof (rebound_step n e r Hr) as Hs. destruct (step _ e r) as [r1 o1]. destruct Hs as [Hr1 Hs].
  specialize (IH r1 Hr1). destruct (run _ evs r1) as [r2 o2]. cbn [snd] in *.
  unfold replies_via in *. rewrite omap_app. destruct Hs as [[H1 H2]|[H1 H2]].
  - by rewrite H1, <- H2.
  - rewrite H2 in IH. by rewrite (prefix_nil_inv _ IH), app_nil_r.
Qed.

(** ** A link with a rate and a queue *)
Definition total (l : list bytes) : Z := foldr (fun f n => len f + n) 0 l.

Lemma total_app a b : total (a ++ b) = total a + total b.
Proof. induction a as [|f a IH]; cbn; [done|]. unfold total in *. lia. Qed.

Lemma total_nonneg l : 0 <= total l.
Proof. induction l as [|f l IH]; cbn; [done|]. pose proof (len_nonneg f). unfold total in *. lia. Qed.

Lemma afford_spec credit b frames :
  let '(_, b', going, queued) := BottleneckRelay.afford credit b frames in
  frames = going ++ queued /\ b' = b - total going.
Proof.
  revert credit b. induction frames as [|f fs IH]; intros credit b; cbn; [split; [done|lia]|].
  destruct (credit <? _); [split; [done|cbn; lia]|].
  specialize (IH (sub binary64 credit (of_Z binary64 (len f))) (b - len f)).
  destruct (BottleneckRelay.afford _ _ fs) as [[[c' b'] going] queued].
  destruct IH as [-> ->]. split; [done|]. cbn. unfold total. lia.
Qed.

(** The queue: its bytes are what it holds and fit; what was let in goes out
    in order; every datagram is counted, and every one turned away. *)
Definition queue_inv (queue_bytes : Z) (s : BottleneckRelay) (H T _ _ : list bytes) : Prop :=
  let accepted := T ++ bn_going s ++ lq_frames (bn_link s) in
  lq_bytes (bn_link s) = total (lq_frames (bn_link s)) /\ lq_bytes (bn_link s) <= queue_bytes /\
  accepted `sublist_of` H /\
  bn_offered s = len H mod 18446744073709551616 /\
  bn_overflowed s = (len H - len accepted) mod 18446744073709551616.

Lemma queue_each qb f s H T A K :
  queue_inv qb s H T A K ->
  let (s', out) := BottleneckRelay.each qb f s in queue_inv qb s' (H ++ [f]) (T ++ map snd out) A K.
Proof.
  intros (Hb & Hq & Hs & Ho & Hv). unfold BottleneckRelay.each, queue_inv.
  assert (inc64 (bn_offered s) = len (H ++ [f]) mod 18446744073709551616) as Hn.
  { rewrite Ho, inc64_mod, len_app. done. }
  destruct (qb <? lq_bytes (bn_link s) + len f) eqn:E; zbool; cbn; rewrite app_nil_r.
  - split; [done|]. split; [done|]. split; [by apply sublist_inserts_r|]. split; [done|].
    rewrite Hv, inc64_mod. f_equal. rewrite !len_app, !len_cons, !len_nil. lia.
  - split; [rewrite total_app, Hb; cbn; lia|]. split; [lia|].
    split; [rewrite !app_assoc; apply sublist_app; [by rewrite <- app_assoc|done]|]. split; [done|].
    rewrite Hv. f_equal. rewrite !len_app, !len_cons, !len_nil. lia.
Qed.

Lemma queue_timer rate qb now s H T A K :
  queue_inv qb s H T A K ->
  let (s', out) := BottleneckRelay.timer rate now s in queue_inv qb s' H (T ++ map snd out) A K.
Proof.
  intros Hj. unfold BottleneckRelay.timer. destruct (bn_going s) as [|g going] eqn:Eg.
  - destruct (lq_frames (bn_link s)) as [|f fs] eqn:Ef; [by rewrite app_nil_r|].
    destruct (lq_stopped (bn_link s)); [by rewrite app_nil_r|].
    pose proof (afford_spec (BottleneckRelay.refill rate now s) (lq_bytes (bn_link s)) (f :: fs)) as Ha.
    destruct (BottleneckRelay.afford _ _ _) as [[[c' b'] going] queued]. destruct Ha as [Hfs Hb'].
    destruct Hj as (Hb & Hq & Hs & Ho & Hv). rewrite Eg, Ef, Hfs in *. unfold queue_inv. cbn -[total]. rewrite app_nil_r.
    pose proof (total_nonneg going). rewrite total_app in Hb.
    split; [lia|]. split; [lia|]. done.
  - destruct Hj as (Hb & Hq & Hs & Ho & Hv). rewrite Eg in *. unfold queue_inv. cbn -[total].
    by rewrite <- (app_assoc T [g]).
Qed.

Lemma queue_holds rate qb t evs :
  0 <= qb ->
  let (r, l) := run (BottleneckRelay.code rate qb) evs (BottleneckRelay.spawn t) in
  queue_inv qb (rl_state r) (heard l) (to_server l) (answered l) (kept l).
Proof.
  intros Hqb. apply untimed_from_start; [|by intros p f s H T A K Hj| |by intros s H T A K Hj|].
  - intros now f s H T A K. apply queue_each.
  - intros now s H T A K. apply queue_timer.
  - by unfold queue_inv; cbn.
Qed.

(** *** Its rate *)
Section Rate.
Context (rate : Z) (Hrate : is_u64 rate).
Local Abbreviation U := (2 ^ emin binary64).
Local Abbreviation cap := (BottleneckRelay.burst rate).
Local Abbreviation R := (of_Z binary64 rate).

Lemma unit_pos : 0 < U.
Proof. by apply Z.pow_pos_nonneg. Qed.

Lemma rate_units : 0 <= R <= 2 ^ 64 * U.
Proof.
  pose proof unit_pos. split; [apply of_Z_nonneg; cbn; lia|]. unfold of_Z.
  assert (round binary64 (1 * 2 ^ (64 + emin binary64)) 1 = 2 ^ 64 * U) as <-.
  { rewrite round_scaled by done. rewrite Z.pow_add_r by done. lia. }
  apply round_mono; [done|]. rewrite Z.pow_add_r by done. nia.
Qed.

Lemma cap_nonneg : 0 <= cap.
Proof. unfold BottleneckRelay.burst. pose proof (of_Z_nonneg binary64 ltac:(cbn; lia) 2048 ltac:(lia)). lia. Qed.

Lemma of_Z_representable x : 0 <= x -> representable binary64 (of_Z binary64 x).
Proof. intros Hx. pose proof unit_pos. apply round_representable; [done|nia|lia]. Qed.

Lemma cap_representable : representable binary64 cap.
Proof.
  pose proof unit_pos. unfold BottleneckRelay.burst. destruct (Z.max_spec
    (mul binary64 R (round binary64 (4 * U) 1000)) (of_Z binary64 2048)) as [[_ ->]|[_ ->]].
  - by apply of_Z_representable.
  - apply round_representable; [done| |done]. apply Z.mul_nonneg_nonneg; [apply rate_units|].
    apply round_nonneg; lia.
Qed.

(** A datagram fits the buffer it is read into. *)
Definition small (l : list bytes) : Prop := Forall (fun f : bytes => len f <= 65535) l.

Lemma cost_exact (f : bytes) : len f <= 65535 -> of_Z binary64 (len f) = len f * U.
Proof. intros. apply of_Z_exact; [done|done|]. pose proof (len_nonneg f). change (2 ^ prec binary64) with 9007199254740992. lia. Qed.

(** What a turn takes is paid for out of the credit, a rounding a frame apart. *)
Lemma afford_within credit b frames :
  small frames -> representable binary64 credit -> 0 <= credit <= cap ->
  let '(c', _, going, _) := BottleneckRelay.afford credit b frames in
  representable binary64 c' /\ 0 <= c' <= credit /\
  2 ^ 20 * 1000000000 * (c' + total going * U)
    <= 2 ^ 20 * 1000000000 * credit + 500000000 * (len going * (cap + U)).
Proof.
  intros Hs. revert credit b. pose proof unit_pos.
  induction Hs as [|f fs Hf Hs IH]; intros credit b Hr Hc; cbn [BottleneckRelay.afford].
  { split; [done|]. rewrite (@len_nil bytes). change (total []) with 0. lia. }
  rewrite cost_exact by done. pose proof (len_nonneg f). assert (0 <= len f * U) by nia.
  destruct (credit <? len f * U) eqn:E; zbool.
  { split; [done|]. rewrite (@len_nil bytes). change (total []) with 0. lia. }
  destruct (spend_within binary64 ltac:(cbn; lia) ltac:(cbn; lia) cap credit (len f * U)
    ltac:(lia) ltac:(lia)) as [Hs0 Hs1].
  pose proof (sub_le binary64 credit (len f * U) ltac:(done) Hr ltac:(lia)) as Hle.
  assert (representable binary64 (sub binary64 credit (len f * U))) as Hr' by (apply round_representable; [done|lia|lia]).
  specialize (IH (sub binary64 credit (len f * U)) (b - len f) Hr' ltac:(lia)).
  destruct (BottleneckRelay.afford _ _ fs) as [[[c' b'] going] queued]. destruct IH as (Hr2 & Hc2 & H2).
  split; [done|]. split; [lia|]. change (total (f :: going)) with (len f + total going). rewrite len_cons. lia.
Qed.

Lemma refill_credit now s :
  0 <= bn_credit s <= cap -> bn_last s <= now ->
  let c := BottleneckRelay.refill rate now s in
  representable binary64 c /\ 0 <= c <= cap /\
  2 ^ 20 * 1000000000 * c <= 2 ^ 20 * 1000000000 * bn_credit s
    + (2 ^ 20 + 1) * (R * (now - bn_last s)) + 500000000 * (cap + U).
Proof.
  intros Hc Ht. cbv zeta. unfold BottleneckRelay.refill, saturating_sub, as_secs_f64. rewrite Z.max_r by lia.
  pose proof unit_pos. pose proof cap_nonneg. pose proof rate_units.
  destruct (fill_within binary64 ltac:(cbn; lia) ltac:(cbn; lia) giga64 R cap ltac:(lia) ltac:(lia)
    (bn_credit s) (now - bn_last s) ltac:(lia) ltac:(lia)) as [Hf0 Hf1].
  split; [|split; [exact Hf0|exact Hf1]].
  destruct (refill_within binary64 ltac:(cbn; lia) ltac:(cbn; lia) giga64 R ltac:(lia)
    (now - bn_last s) ltac:(lia)) as [Hm _].
  destruct (Z.min_spec (add binary64 (bn_credit s) (mul binary64 (as_secs_nanos binary64 (now - bn_last s)) R)) cap)
    as [[_ ->]|[_ ->]]; [|apply cap_representable].
  apply round_representable; [done|lia|lia].
Qed.

(** The clock remembers the last reading and how many there were. *)
Definition rate_inv (t0 : Z) (c : Z * Z) (s : BottleneckRelay) (H T _ _ : list bytes) : Prop :=
  small H ->
  small (lq_frames (bn_link s)) /\ 0 <= bn_credit s <= cap /\ t0 <= bn_last s <= c.1 /\ 0 <= c.2 /\
  2 ^ 20 * 1000000000 * (bn_credit s + total (T ++ bn_going s) * U)
    <= (2 ^ 20 + 1) * (R * (bn_last s - t0)) + 1000000000 * ((c.2 + len (T ++ bn_going s)) * (cap + U)).

Lemma rate_later t0 c now s H T A K :
  c.1 <= now -> rate_inv t0 c s H T A K -> rate_inv t0 (now, c.2 + 1) s H T A K.
Proof.
  intros Hc Hj Hs. destruct (Hj Hs) as (Hq & Hcr & Ht & Hn & Hb). cbn [fst snd].
  pose proof unit_pos. pose proof cap_nonneg.
  split; [done|]. split; [done|]. split; [lia|]. split; lia.
Qed.

Lemma rate_each t0 qb c now f s H T A K :
  c.1 <= now -> rate_inv t0 c s H T A K ->
  let (s', out) := BottleneckRelay.each qb f s in
  rate_inv t0 (now, c.2 + 1) s' (H ++ [f]) (T ++ map snd out) A K.
Proof.
  intros Hc Hj. apply (rate_later _ _ now) in Hj; [|done]. unfold BottleneckRelay.each.
  destruct (qb <? _); cbn [map]; rewrite app_nil_r; intros Hs; apply Forall_app in Hs as [Hs Hf];
    destruct (Hj Hs) as (Hq & Hrest); (split; [|exact Hrest]); [done|].
  by apply Forall_app.
Qed.

Lemma rate_timer t0 c now s H T A K :
  c.1 <= now -> rate_inv t0 c s H T A K ->
  let (s', out) := BottleneckRelay.timer rate now s in
  rate_inv t0 (now, c.2 + 1) s' H (T ++ map snd out) A K.
Proof.
  intros Hc Hj. pose proof (rate_later _ _ now _ _ _ _ _ Hc Hj) as Hl. unfold BottleneckRelay.timer.
  pose proof unit_pos. pose proof cap_nonneg.
  destruct (bn_going s) as [|g going] eqn:Eg.
  - destruct (lq_frames (bn_link s)) as [|f fs] eqn:Ef; [by rewrite app_nil_r|].
    destruct (lq_stopped (bn_link s)); [by rewrite app_nil_r|].
    pose proof (afford_spec (BottleneckRelay.refill rate now s) (lq_bytes (bn_link s)) (f :: fs)) as Ha.
    pose proof (afford_within (BottleneckRelay.refill rate now s) (lq_bytes (bn_link s)) (f :: fs)) as Hw.
    destruct (BottleneckRelay.afford _ _ _) as [[[c' b'] going] queued]. cbn [map]. rewrite app_nil_r.
    intros Hs. destruct (Hj Hs) as (Hq & Hcr & Ht & Hn & Hb). rewrite Ef, Eg, app_nil_r in *.
    destruct (refill_credit now s Hcr ltac:(lia)) as (Hr & Hc0 & Hc1).
    destruct (Hw Hq Hr Hc0) as (_ & Hc2 & Hc3). destruct Ha as [Ha _]. rewrite Ha in Hq.
    apply Forall_app in Hq as [_ Hq]. pose proof (len_nonneg going).
    cbn [bn_link lq_frames bn_credit bn_last bn_going fst snd]. rewrite total_app, len_app.
    split; [done|]. split; [lia|]. split; [lia|]. split; [lia|]. nia.
  - intros Hs. destruct (Hl Hs) as (Hq & Hcr & Ht & Hn & Hb). rewrite Eg in *.
    cbn [bn_link lq_frames bn_credit bn_last bn_going map snd]. by rewrite <- app_assoc.
Qed.

(** One turn takes no more than the burst. *)
Lemma turn_burst now s :
  small (lq_frames (bn_link s)) -> 0 <= bn_credit s <= cap -> bn_last s <= now -> bn_going s = [] ->
  let going := bn_going (BottleneckRelay.timer rate now s).1 in
  2 ^ 20 * 1000000000 * (total going * U)
    <= 2 ^ 20 * 1000000000 * cap + 500000000 * (len going * (cap + U)).
Proof.
  intros Hq Hc Ht Hg. cbv zeta. pose proof unit_pos. pose proof cap_nonneg. unfold BottleneckRelay.timer.
  assert (2 ^ 20 * 1000000000 * (total [] * U)
    <= 2 ^ 20 * 1000000000 * cap + 500000000 * (len (@nil bytes) * (cap + U))) as Hnil.
  { rewrite (@len_nil bytes). change (total []) with 0. lia. }
  rewrite Hg. destruct (lq_frames (bn_link s)) as [|f fs]; [cbn [fst]; by rewrite Hg|].
  destruct (lq_stopped (bn_link s)); [cbn [fst]; by rewrite Hg|].
  destruct (refill_credit now s Hc Ht) as (Hr & Hc0 & _).
  pose proof (afford_within (BottleneckRelay.refill rate now s) (lq_bytes (bn_link s)) (f :: fs) Hq Hr Hc0) as Hw.
  destruct (BottleneckRelay.afford _ _ _) as [[[c' b'] going] queued]. destruct Hw as (_ & Hc2 & Hc3).
  cbn [fst bn_going]. lia.
Qed.

(** Counting the readings of a clock. *)
Definition counted (c : Z * Z) (now : Z) : Z * Z := (now, c.2 + 1).

Lemma clocked_counted t n evs : clocked t evs -> follows (fun c now => c.1 <= now) counted (t, n) evs.
Proof.
  unfold clocked. revert t n. induction evs as [|e evs IH]; intros t n; cbn; [done|].
  destruct (reading e) as [now|]; [|apply IH]. intros [H1 H2]. split; [done|]. by apply IH.
Qed.

Lemma rate_holds qb t0 evs :
  clocked t0 evs ->
  let (r, l) := run (BottleneckRelay.code rate qb) evs (BottleneckRelay.spawn t0) in
  rate_inv t0 (after counted (t0, 0) evs) (rl_state r) (heard l) (to_server l) (answered l) (kept l).
Proof.
  intros Hc. apply (run_from_start (BottleneckRelay.code rate qb) (fun c now => c.1 <= now) counted).
  - intros c now f s H T A K. apply rate_each.
  - by intros c p f s H T A K Hj.
  - intros c now s H T A K. apply rate_timer.
  - by intros c s H T A K Hj.
  - intros c now s H T A K. apply rate_later.
  - by apply clocked_counted.
  - intros _. pose proof cap_nonneg. pose proof unit_pos. cbn. rewrite (@len_nil bytes).
    split; [constructor|]. split; [lia|]. split; [lia|]. split; [lia|]. rewrite Z.sub_diag. lia.
Qed.
End Rate.

(** ** The properties *)

(** Which datagrams a lossy relay drops depends on its seed, the rate and their
    positions alone, the first of each direction always gets through, a higher
    rate drops all that a lower one does of the same traffic, and [dropped] is
    what was read less what was passed on, both ways. *)
Theorem lossy_relay_is_reproducible low high seed evs1 evs2 r1 l1 r2 l2 :
  run (LossyRelay.code low) evs1 (LossyRelay.spawn seed) = (r1, l1) ->
  run (LossyRelay.code high) evs2 (LossyRelay.spawn seed) = (r2, l2) ->
  low <= high -> heard l1 = heard l2 ->
  len (heard l1) < 18446744073709551616 -> len (answered l1) < 18446744073709551616 ->
  to_server l1 = survivors low seed (heard l1) /\
  kept l1 = survivors low (Z.lxor seed BACK_SEED) (answered l1) /\
  to_server l2 `sublist_of` to_server l1 /\
  LossyRelay.dropped r1 =
    (len (heard l1) - len (to_server l1) + (len (answered l1) - len (kept l1))) mod 18446744073709551616.
Proof.
  intros E1 E2 Hle Hh Hlen Hlen'. pose proof (lossy_holds low seed evs1) as H1. rewrite E1 in H1.
  pose proof (lossy_holds high seed evs2) as H2. rewrite E2 in H2.
  destruct H1 as (F1 & B1 & C1), H2 as (F2 & _ & _). rewrite <- Hh in F2.
  destruct (F1 Hlen) as (_ & _ & T1), (F2 Hlen) as (_ & _ & T2), (B1 Hlen') as (_ & _ & K1).
  rewrite T2, T1. split; [done|]. split; [done|]. split; [by apply survivors_mono|]. by rewrite <- T1.
Qed.

(** Four datagrams through the same seed at two rates. *)
Definition four : list Event :=
  flat_map (fun f => repeat (Front 0 (Some (SocketAddrV4 [127; 0; 0; 1] 9, f))) 3)
    [[1]; [2]; [3]; [4]].

Lemma lossy_relay_is_reproducible_witness :
  to_server (run (LossyRelay.code 400) four (LossyRelay.spawn 305419896)).2 `sublist_of`
  to_server (run (LossyRelay.code 0) four (LossyRelay.spawn 305419896)).2 /\
  LossyRelay.dropped (run (LossyRelay.code 400) four (LossyRelay.spawn 305419896)).1 = 2.
Proof.
  split; [|by vm_compute].
  apply (lossy_relay_is_reproducible 0 400 305419896 four four
    (run (LossyRelay.code 0) four (LossyRelay.spawn 305419896)).1
    (run (LossyRelay.code 0) four (LossyRelay.spawn 305419896)).2
    (run (LossyRelay.code 400) four (LossyRelay.spawn 305419896)).1
    (run (LossyRelay.code 400) four (LossyRelay.spawn 305419896)).2);
    [apply surjective_pairing|apply surjective_pairing|lia|by vm_compute|by vm_compute|by vm_compute].
Defined.

(** The seeds of the asymmetric relay cannot be zero, so neither direction's
    generator gets stuck there; the lossy relay's can, and from the seed zero it
    drops everything towards the server after the first datagram. *)
Theorem zero_seed_loses_everything :
  (forall seed n, is_u64 seed -> Nat.iter n xorshift (Z.lor seed 1) <> 0) /\
  (forall per_mille evs r l, 0 < per_mille ->
     run (LossyRelay.code per_mille) evs (LossyRelay.spawn 0) = (r, l) ->
     len (heard l) < 18446744073709551616 -> to_server l = take 1 (heard l)).
Proof.
  split.
  - intros seed n Hs. apply iter_xorshift_nonzero.
    + apply u64_of_bits; [apply Z.lor_nonneg; lia|]. intros i Hi. rewrite Z.lor_spec.
      by rewrite (testbit_small seed 64), (testbit_small 1 64)
        by (change (2 ^ 64) with 18446744073709551616; lia).
    + intros E. apply Z.lor_eq_0_iff in E. lia.
  - intros pm evs r l Hpm E Hlen. pose proof (lossy_holds pm 0 evs) as H. rewrite E in H.
    destruct H as (F & _ & _). destruct (F Hlen) as (_ & _ & ->). by apply survivors_zero.
Qed.

Lemma zero_seed_loses_everything_witness :
  to_server (run (LossyRelay.code 10) four (LossyRelay.spawn 0)).2 = [[1]] /\
  Nat.iter 3 xorshift (Z.lor 0 1) <> 0.
Proof.
  destruct zero_seed_loses_everything as [H1 H2]. split; [|by apply H1].
  rewrite (H2 10 four (run (LossyRelay.code 10) four (LossyRelay.spawn 0)).1
    (run (LossyRelay.code 10) four (LossyRelay.spawn 0)).2);
    [by vm_compute|lia|apply surjective_pairing|by vm_compute].
Defined.

(** The reordering relay loses and repeats nothing: what it has sent and what it
    holds are what it heard. Once what it holds is due, its thread sends all of
    it. And when it holds every datagram, it reorders nothing, as the control
    runs need. *)
Theorem reordering_relay_keeps_everything every delay t evs r l :
  run (ReorderingRelay.code every delay) evs ReorderingRelay.spawn = (r, l) ->
  clocked t evs -> len (heard l) < 18446744073709551616 ->
  let h := ro_release (rl_state r) in
  heard l ≡ₚ to_server l ++ held h /\
  (forall now k, hd_stopped h = false -> Forall (fun x => x.1.1 <= now) (hd_due h) ->
     (1 + 2 * length (hd_due h) <= k)%nat ->
     to_server (run (ReorderingRelay.code every delay) (replicate k (Timer now)) r).2 = held h) /\
  (every = 1 -> heard l = to_server l ++ held h).
Proof.
  intros E Hc Hlen. cbv zeta. pose proof (reordering_holds every delay evs) as Hp. rewrite E in Hp.
  split; [exact Hp|]. split.
  - intros now k Hs Hd Hk. pose proof (drain_all every delay now k r Hs Hd) as H.
    destruct (run _ (replicate k (Timer now)) r) as [r' l']. apply H.
    destruct (hd_out (ro_release (rl_state r))); cbn; lia.
  - intros ->. pose proof (control_holds delay t evs Hc) as H. rewrite E in H.
    by destruct (H Hlen) as (_ & HH & _).
Qed.

Lemma reordering_relay_keeps_everything_witness :
  let (r, l) := run (ReorderingRelay.code 1 5) four ReorderingRelay.spawn in
  to_server l = [[1]] /\ held (ro_release (rl_state r)) = [[2]; [3]; [4]] /\
  to_server (run (ReorderingRelay.code 1 5) (replicate 7 (Timer 5)) r).2 = [[2]; [3]; [4]] /\
  heard l = to_server l ++ held (ro_release (rl_state r)).
Proof.
  pose proof (reordering_relay_keeps_everything 1 5 0 four
    (run (ReorderingRelay.code 1 5) four ReorderingRelay.spawn).1
    (run (ReorderingRelay.code 1 5) four ReorderingRelay.spawn).2
    (surjective_pairing _) ltac:(vm_compute; intuition congruence) ltac:(by vm_compute)) as (_ & _ & H3).
  destruct (run (ReorderingRelay.code 1 5) four ReorderingRelay.spawn) as [r l] eqn:E.
  assert (r = (run (ReorderingRelay.code 1 5) four ReorderingRelay.spawn).1 /\
          l = (run (ReorderingRelay.code 1 5) four ReorderingRelay.spawn).2) as [-> ->] by by rewrite E.
  split; [by vm_compute|]. split; [by vm_compute|]. split; [by vm_compute|]. rewrite E. apply H3. done.
Defined.

(** A jittering relay loses and repeats nothing either, and counts what it
    hears, so that what it counts beyond the first transmissions are resent
    datagrams. *)
Theorem jitter_relay_counts_every_datagram spread seed evs :
  let (r, l) := run (JitterRelay.code spread) evs (JitterRelay.spawn seed) in
  heard l ≡ₚ to_server l ++ held (jt_release (rl_state r)) /\
  jt_forwarded (rl_state r) = len (heard l) mod 18446744073709551616.
Proof.
  pose proof (jitter_holds spread seed evs) as H.
  by destruct (run (JitterRelay.code spread) evs (JitterRelay.spawn seed)).
Qed.

(** A rebinding relay sends the first [rebind_after] datagrams from one address
    and all others from another. Once it has moved, nothing more comes back
    through the old one, but for a reply its thread had already let through. *)
Theorem rebinding_relay_moves_for_good rebind_after evs r l :
  run (RebindingRelay.code rebind_after) evs RebindingRelay.spawn = (r, l) ->
  0 <= rebind_after -> len (heard l) < 18446744073709551616 ->
  via First l = take (Z.to_nat rebind_after) (heard l) /\
  via Second l = drop (Z.to_nat rebind_after) (heard l) /\
  (rebind_after < len (heard l) -> forall more,
     replies_via First (run (RebindingRelay.code rebind_after) more r).2 `prefix_of` pending r).
Proof.
  intros E Hn Hlen. pose proof (rebinding_holds rebind_after evs RebindingRelay.spawn [] Hn) as H.
  rewrite E in H. destruct H as (_ & H1 & H2 & H3); [|done|].
  { intros _. split; [done|]. cbn. rewrite take_nil, drop_nil. split; [done|]. split; [done|].
    symmetry. apply Z.ltb_ge. exact Hn. }
  split; [exact H1|]. split; [exact H2|]. intros Hm more. apply rebound_run. rewrite H3. by apply Z.ltb_lt.
Qed.

Lemma rebinding_relay_moves_for_good_witness :
  via First (run (RebindingRelay.code 3) four RebindingRelay.spawn).2 = [[1]; [2]; [3]] /\
  replies_via First (run (RebindingRelay.code 3) (repeat (Back First (Some [7])) 8)
    (run (RebindingRelay.code 3) four RebindingRelay.spawn).1).2 = [].
Proof.
  destruct (rebinding_relay_moves_for_good 3 four
    (run (RebindingRelay.code 3) four RebindingRelay.spawn).1
    (run (RebindingRelay.code 3) four RebindingRelay.spawn).2
    (surjective_pairing _) ltac:(lia) ltac:(by vm_compute)) as (H1 & _ & H3).
  split; [rewrite H1; by vm_compute|].
  apply prefix_nil_inv. apply (H3 ltac:(by vm_compute) (repeat (Back First (Some [7])) 8)).
Defined.

(** The bottleneck's queue holds no more than it may, what it lets in leaves in
    order, and every datagram offered is either let in or counted as overflow.
    What the link has sent is no more than its rate over the time passed, one
    part in 2^20 of the rate apart and of the burst for every turn and frame;
    and one turn takes no more than the burst. *)
Theorem bottleneck_relay_keeps_its_rate bytes_per_sec queue_bytes t0 evs r l :
  run (BottleneckRelay.code bytes_per_sec queue_bytes) evs (BottleneckRelay.spawn t0) = (r, l) ->
  is_u64 bytes_per_sec -> 0 <= queue_bytes -> clocked t0 evs -> small (heard l) ->
  let s := rl_state r in
  let accepted := to_server l ++ bn_going s ++ lq_frames (bn_link s) in
  let unit_ := 2 ^ emin binary64 in
  let burst := BottleneckRelay.burst bytes_per_sec in
  let (now, readings) := after counted (t0, 0) evs in
  total (lq_frames (bn_link s)) <= queue_bytes /\ accepted `sublist_of` heard l /\
  bn_offered s = len (heard l) mod 18446744073709551616 /\
  bn_overflowed s = (len (heard l) - len accepted) mod 18446744073709551616 /\
  2 ^ 20 * 1000000000 * (total (to_server l ++ bn_going s) * unit_)
    <= (2 ^ 20 + 1) * (of_Z binary64 bytes_per_sec * (now - t0))
       + 1000000000 * ((readings + len (to_server l ++ bn_going s)) * (burst + unit_)) /\
  (forall later, now <= later -> bn_going s = [] ->
     let going := bn_going (BottleneckRelay.timer bytes_per_sec later s).1 in
     2 ^ 20 * 1000000000 * (total going * unit_)
       <= 2 ^ 20 * 1000000000 * burst + 500000000 * (len going * (burst + unit_))).
Proof.
  intros E Hr Hqb Hc Hs. cbv zeta.
  pose proof (queue_holds bytes_per_sec queue_bytes t0 evs Hqb) as Hq. rewrite E in Hq.
  pose proof (rate_holds bytes_per_sec Hr queue_bytes t0 evs Hc) as Hb. rewrite E in Hb.
  destruct (after counted (t0, 0) evs) as [now readings]. destruct Hq as (Q1 & Q2 & Q3 & Q4 & Q5).
  destruct (Hb Hs) as (B1 & B2 & B3 & B4 & B5). cbn [fst snd] in *.
  pose proof (rate_units bytes_per_sec Hr).
  split; [by rewrite <- Q1|]. split; [exact Q3|]. split; [exact Q4|]. split; [exact Q5|]. split; [nia|].
  intros later Hl Hg. apply turn_burst; [done|done|done|lia|done].
Qed.

(** Four datagrams of 1500 bytes into a queue of 4096 at 10 Mbit/s, two turns a
    millisecond and a half later: the queue turns two away, and the credit
    covers one. *)
Definition burst_of_four : list Event :=
  flat_map (fun f => repeat (Front 0 (Some (SocketAddrV4 [127; 0; 0; 1] 9, f))) 3)
    (repeat (repeat 7 1500) 4) ++ [Timer 1500000; Timer 1500000].

Definition bottleneck_run : Relay BottleneckRelay * list Obs :=
  run (BottleneckRelay.code 1250000 4096) burst_of_four (BottleneckRelay.spawn 0).

Lemma bottleneck_relay_keeps_its_rate_witness :
  total (lq_frames (bn_link (rl_state bottleneck_run.1))) <= 4096 /\
  map len (to_server bottleneck_run.2) = [1500] /\
  map len (lq_frames (bn_link (rl_state bottleneck_run.1))) = [1500] /\
  bn_overflowed (rl_state bottleneck_run.1) = 2.
Proof.
  pose proof (bottleneck_relay_keeps_its_rate 1250000 4096 0 burst_of_four bottleneck_run.1 bottleneck_run.2
    (surjective_pairing _) ltac:(lia) ltac:(lia) ltac:(vm_compute; intuition congruence)
    ltac:(vm_compute; repeat constructor; congruence)) as H.
  cbv zeta in H. destruct (after counted (0, 0) burst_of_four) as [now readings].
  split; [exact (proj1 H)|]. clear H. by vm_compute.
Defined.
