(* ===== verification/Footprint.v ===== *)
(** * The bare-metal image (crates/footprint/src/main.rs)

    A firmware image that runs one whole session so that the linker keeps every
    part of the protocol: a handshake in both roles, a frame sealed and opened,
    and the codec header. [exercise] gives up at the first call that fails, so
    what the image measures depends on none of them failing. Its randomness is
    a 64-bit xorshift (Xorshift.v). *)
From S2P Require Import Prelude Bytes Error Frame Codec Cipher Handshake Session Connect ConnectSafety Xorshift.

Module Counter.
(** The new state, which is also the value returned. *)
Definition next_u64 (c : Z) : Z := xorshift c.

(** The new state and the value truncated. *)
Definition next_u32 (c : Z) : Z * Z := let c := next_u64 c in (c, wrap32 c).

(** [dest.chunks_mut(8)]: a word for each whole chunk, and the front of one for
    what is left. *)
Fixpoint fill_words (c : Z) (words : nat) : Z * bytes :=
  match words with
  | O => (c, [])
  | S words =>
      let c := next_u64 c in
      let '(c', rest) := fill_words c words in (c', to_le 8 c ++ rest)
  end.

Definition fill_bytes (c n : Z) : Z * bytes :=
  let '(c, b) := fill_words c (Z.to_nat ((n + 7) / 8)) in (c, takez n b).

Definition try_fill_bytes (c n : Z) : Z * Result bytes :=
  let '(c, b) := fill_bytes c n in (c, Ok b).
End Counter.

Definition FOOTPRINT_SEED : Z := 0x2545F4914F6CDD1D.
Definition FOOTPRINT_SESSION : Z := 0x12345678.

(** The payloads ["hello"], ["hi"] and ["steady state"]. *)
Definition HELLO : bytes := [104; 101; 108; 108; 111].
Definition HI : bytes := [104; 105].
Definition STEADY_STATE : bytes := [115; 116; 101; 97; 100; 121; 32; 115; 116; 97; 116; 101].

(** [let Ok(a) = r else { return total }]. *)
Definition let_else {A} (r : Result A) (total : Z) (k : A -> Result Z) : Result Z :=
  match r with Ok a => k a | Err _ => Ok total | Panic => Panic end.

(** [exercise] of the image with the protocol left out. *)
Definition baseline : Z := 0.

Section image.
Context `{Crypto}.

(** The codec header, at the end of [exercise]. *)
Definition code_header (total : Z) : Result Z :=
  let header :=
    {| transform := I16Delta; entropy := EntropyNone; param := 4; original_len := 256 |} in
  let_else (CodecHeader.encode header (zeros 8)) total (fun coded =>
  let_else (CodecHeader.decode coded) total (fun back =>
  Ok (wrapping_add32 total (original_len back)))).

(** The data frame, sealed one way and opened the other. *)
Definition steady_state (client server : Session) (total : Z) : Result Z :=
  let_else (Session.seal client STEADY_STATE 0 (zeros 512)).2 total (fun '(frame, sealed) =>
  let? frame := slice frame 0 sealed in
  let_else (Session.open server frame).2 total (fun '(opened, _) =>
  code_header (wrapping_add32 total (wrap32 (o_len opened))))).

Definition exercise : Result Z :=
  let '(rng, b) := Counter.fill_bytes FOOTPRINT_SEED DHLEN in
  let server_key := Keypair.generate b in
  let '(rng, b) := Counter.fill_bytes rng DHLEN in
  let client_key := Keypair.generate b in
  let caps := Capabilities.minimal 1200 in
  let_else (Initiator.new client_key (kp_public server_key) FOOTPRINT_SESSION caps) 0 (fun initiator =>
  let '(rng, b) := Counter.fill_bytes rng DHLEN in
  let '(initiator, r) := Initiator.write_init initiator b HELLO (zeros 512) in
  let_else r 0 (fun '(msg1, n1) =>
  let total := wrapping_add32 0 (wrap32 n1) in
  let responder := Responder.new server_key caps in
  let? frame := slice msg1 0 n1 in
  let '(responder, r) := Responder.read_init responder frame (zeros 512) in
  let_else r 0 (fun '(plain, zero_rtt) =>
  let total := wrapping_add32 total (wrap32 zero_rtt) in
  let '(rng, b) := Counter.fill_bytes rng DHLEN in
  let_else (Responder.write_response responder b HI (zeros 512)) 0 (fun '(server, msg2, n2) =>
  let total := wrapping_add32 total (wrap32 n2) in
  let? frame := slice msg2 0 n2 in
  let_else (Initiator.read_response initiator frame plain) 0 (fun '(client, plain, replied) =>
  steady_state client server (wrapping_add32 total (wrap32 replied))))))).
End image.

(** ** The generator *)
Lemma fill_words_spec c n :
  is_u64 c -> c <> 0 ->
  let '(c', b) := Counter.fill_words c n in is_u64 c' /\ c' <> 0 /\ len b = 8 * Z.of_nat n.
Proof.
  revert c. induction n as [|n IH]; intros c Hc H0; [done|]. cbn [Counter.fill_words].
  specialize (IH (Counter.next_u64 c) (xorshift_range c Hc)).
  destruct (Counter.fill_words (Counter.next_u64 c) n) as [c' b].
  destruct IH as (? & ? & Hb); [intros E; by apply H0, xorshift_zero|]. split; [done|].
  split; [done|]. rewrite len_app, Hb. autorewrite with len. lia.
Qed.

(** A buffer of any length is filled whole, and the state never becomes the one
    a xorshift cannot leave. *)
Lemma fill_bytes_spec c n :
  is_u64 c -> c <> 0 -> 0 <= n ->
  let '(c', b) := Counter.fill_bytes c n in is_u64 c' /\ c' <> 0 /\ len b = n.
Proof.
  intros Hc H0 Hn. unfold Counter.fill_bytes.
  pose proof (fill_words_spec c (Z.to_nat ((n + 7) / 8)) Hc H0) as Hf.
  destruct Counter.fill_words as [c' b]. destruct Hf as (? & ? & Hb). do 2 (split; [done|]).
  pose proof (Z.div_mod (n + 7) 8 ltac:(lia)). pose proof (Z.mod_pos_bound (n + 7) 8 ltac:(lia)).
  rewrite len_takez, Hb. lia.
Qed.

(** ** The session the image runs *)
Section runs.
Context `{CL : CryptoLaws}.

Lemma read_response_fresh {S} `{StaticKey S} (i : Initiator S) frame out s out' n :
  Initiator.read_response i frame out = Ok (s, out', n) -> s_padding s = false /\ s_send_seq s = 0.
Proof. intros E. unfold Initiator.read_response in E. repeat step_in E; done. Qed.

Lemma code_header_runs total : code_header total = Ok (wrapping_add32 total 256).
Proof.
  unfold code_header. rewrite codec_encode_ok by (rewrite len_zeros; done). cbn [let_else].
  rewrite codec_decode_wire by (unfold CodecHeader.wf; cbn; lia). done.
Qed.

Lemma steady_state_runs client server total :
  linked client server -> s_padding client = false -> s_send_seq client = 0 ->
  steady_state client server total = Ok (wrapping_add32 (wrapping_add32 total 12) 256).
Proof.
  intros (k & _ & Hstep & _) Hpad Hseq. unfold steady_state, Session.seal, Session.seal_frame. rewrite Hpad.
  destruct (Session.step_exchange k client server Data STEADY_STATE None None 0 PadNone (zeros 512) 12)
    as (a' & b' & f & tail & Hseal & Hopen & _); try done; [rewrite Hseq; clia|by left|].
  pose proof (seal_within client Data STEADY_STATE 0 (zeros 512)) as [_ Hw].
  unfold Session.seal_frame in Hw. rewrite Hpad, Hseal in Hw. destruct (Hw _ _ eq_refl) as [Hf _].
  rewrite Hseal. cbn [snd let_else]. rewrite len_zeros in Hf.
  rewrite slice_ok, dropz_0, Z.sub_0_r, Hopen by clia. apply code_header_runs.
Qed.
End runs.

(** the image measures the whole protocol. Over any cryptography that obeys
    its laws, no call of [exercise] fails, so it returns the sum of every
    length on the way: both handshake frames, both payloads they carry, the
    payload of the data frame and the length in the codec header. Any early
    return would give a smaller number. *)
Theorem exercise_runs_whole `{CL : CryptoLaws} :
  exercise = Ok ((INITIATOR_OVERHEAD + len HELLO) + len HELLO + (RESPONDER_OVERHEAD + len HI) + len HI
                 + len STEADY_STATE + 256).
Proof.
  unfold exercise. destruct (Counter.fill_bytes FOOTPRINT_SEED DHLEN) as [g1 secret].
  destruct (Counter.fill_bytes g1 DHLEN) as [g2 secret'].
  destruct (Counter.fill_bytes g2 DHLEN) as [g3 r1]. destruct (Counter.fill_bytes g3 DHLEN) as [g4 r2].
  set (kr := Keypair.generate secret). set (ki := Keypair.generate secret').
  change (kp_public kr) with (sk_public kr).
  destruct (handshake_exchange ki kr secret' secret FOOTPRINT_SESSION (Capabilities.minimal 1200)
    (Capabilities.minimal 1200) r1 r2 HELLO HI (zeros 512) (zeros 512) (zeros 512) (keypair_backed _)
    (keypair_backed _))
    as (i & i' & r' & m1 & m2 & f1 & f2 & b1 & sr & Ei & (Ew & _ & Es1) & (Er & Hb1) &
        (Ew2 & _ & Es2) & Hread); [vm_compute; intuition congruence..|].
  destruct (Hread (HELLO ++ b1)) as (b2 & si & Er2 & Hl); [rewrite Hb1; done|].
  rewrite Ei. cbn [let_else]. rewrite Ew. cbn [let_else]. rewrite Es1, Er. cbn [let_else].
  rewrite Ew2. cbn [let_else]. rewrite Es2, Er2. cbn [let_else].
  destruct (read_response_fresh _ _ _ _ _ _ Er2). by rewrite (steady_state_runs si sr).
Qed.
