(* ===== verification/CInterface.v ===== *)
(** * The C interface (crates/ffi/src/lib.rs)

    Every entry point as a computation on the host's world: its bytes and
    pointer variables (CMemory.v) and the boxes behind the handles. What the
    "Safety" section of a function asks of its caller is not checked by the
    code; a call that breaks it is [None] here. The host's key function, the
    random bytes the operating system supplied and what a failed call leaves in
    an output buffer are arguments. A host key is shared between the identity
    and the handshakes begun from it, so its reference count and the calls of
    its [release] function are part of the world. *)
From stdpp Require Import gmap.
From S2P Require Import Prelude Bytes Error Frame Cipher Handshake Session Connect CMemory.

(** ** Codes *)
Definition FECTP_OK : Z := 0.
Definition FECTP_ERR_NULL : Z := -1.
Definition FECTP_ERR_BUFFER : Z := -2.
Definition FECTP_ERR_PROTOCOL : Z := -3.
Definition FECTP_ERR_PANIC : Z := -4.
Definition FECTP_ERR_TOO_LARGE : Z := -5.
Definition FECTP_ERR_KEY : Z := -6.
#[export] Hint Unfold FECTP_OK FECTP_ERR_NULL FECTP_ERR_BUFFER FECTP_ERR_PROTOCOL
  FECTP_ERR_PANIC FECTP_ERR_TOO_LARGE FECTP_ERR_KEY : consts.

(** ** Identities and their keys *)

(** [dh] and [release] are addresses of the host's functions. *)
Record Element := mkElement {
  el_dh : Z;
  el_context : Z;
  el_release : option Z;
  el_public : bytes;
}.

(** [Arc<Element>]: the allocation it points to, and what is there. *)
Record Arc := mkArc {
  arc_at : Z;
  arc_element : Element;
}.

Inductive Held :=
| HeldSecret (secret : bytes)
| HeldElement (element : Arc).

Record fectp_identity := mkfectp_identity {
  id_key : Held;
  id_public : bytes;
}.

Inductive IdentityKey :=
| KeySecret (keypair : Keypair)
| KeyElement (element : Arc).

(** What the host's functions answer during a call: the function, its context
    and the peer's public key give a status and the bytes written. *)
Class Host := host_dh : Z -> Z -> bytes -> Z * bytes.

Module Element.
Definition dh `{Host} (e : Element) (peer : bytes) : Result bytes :=
  let '(status, written) := host_dh (el_dh e) (el_context e) peer in
  let shared := takez DHLEN (written ++ zeros DHLEN) in
  if negb (status =? 0) then Err KeyUnavailable else Ok shared.
End Element.

Module IdentityKey.
Definition public (k : IdentityKey) : bytes :=
  match k with
  | KeySecret keypair => kp_public keypair
  | KeyElement element => el_public (arc_element element)
  end.

Definition dh `{Crypto} `{Host} (k : IdentityKey) (peer : bytes) : Result bytes :=
  match k with
  | KeySecret keypair => Ok (Keypair.dh keypair peer)
  | KeyElement element => Element.dh (arc_element element) peer
  end.
End IdentityKey.

#[export] Instance IdentityKey_StaticKey `{Crypto} `{Host} : StaticKey IdentityKey := {
  sk_public := IdentityKey.public;
  sk_dh := IdentityKey.dh;
}.

(** ** The world *)
Inductive Object :=
| BoxIdentity (i : fectp_identity)
| BoxInitiator (i : Initiator IdentityKey)
| BoxResponder (r : Responder IdentityKey)
| BoxSession (s : Session).

(** One call of a host's [release] function. *)
Record Release := mkRelease {
  rel_arc : Z;
  rel_fn : Z;
  rel_context : Z;
}.

(** An [Arc]'s allocation keeps its entry, with a count of zero, once its last
    reference has gone. *)
Record World := mkWorld {
  w_boxes : gmap Z Object;
  w_arcs : gmap Z (Element * Z);
  w_next : Z;
  w_releases : list Release;
  w_mem : Memory;
  w_slots : gmap Z Z;
}.

Definition set_boxes (w : World) b :=
  mkWorld b (w_arcs w) (w_next w) (w_releases w) (w_mem w) (w_slots w).
Definition set_mem (w : World) m :=
  mkWorld (w_boxes w) (w_arcs w) (w_next w) (w_releases w) m (w_slots w).
Definition set_slots (w : World) s :=
  mkWorld (w_boxes w) (w_arcs w) (w_next w) (w_releases w) (w_mem w) s.
Definition set_arcs (w : World) a r :=
  mkWorld (w_boxes w) a (w_next w) r (w_mem w) (w_slots w).

Definition Act (A : Type) : Type := World -> option (World * A).
Definition act_ret {A} (a : A) : Act A := fun w => Some (w, a).
Definition act_bind {A B} (m : Act A) (k : A -> Act B) : Act B :=
  fun w => match m w with Some (w, a) => k a w | None => None end.
Definition undefined {A} : Act A := fun _ => None.

Notation "'let*' x := m 'in' k" := (act_bind m (fun x => k))
  (at level 10, x pattern, m at level 200, k at level 200,
   format "'[v' 'let*'  x  :=  m  'in' '/' k ']'") : ffi_scope.
#[local] Open Scope ffi_scope.

(** ** Handles *)

(** The objects a handle can name. *)
Class Boxed (T : Type) := {
  to_object : T -> Object;
  of_object : Object -> option T;
  of_to_object t : of_object (to_object t) = Some t;
  to_of_object o t : of_object o = Some t -> o = to_object t;
}.

#[export] Instance Boxed_identity : Boxed fectp_identity.
Proof.
  refine {| to_object := BoxIdentity;
            of_object o := match o with BoxIdentity i => Some i | _ => None end |}; [done|].
  intros [] t; congruence.
Defined.

#[export] Instance Boxed_initiator : Boxed (Initiator IdentityKey).
Proof.
  refine {| to_object := BoxInitiator;
            of_object o := match o with BoxInitiator i => Some i | _ => None end |}; [done|].
  intros [] t; congruence.
Defined.

#[export] Instance Boxed_responder : Boxed (Responder IdentityKey).
Proof.
  refine {| to_object := BoxResponder;
            of_object o := match o with BoxResponder r => Some r | _ => None end |}; [done|].
  intros [] t; congruence.
Defined.

#[export] Instance Boxed_session : Boxed Session.
Proof.
  refine {| to_object := BoxSession;
            of_object o := match o with BoxSession s => Some s | _ => None end |}; [done|].
  intros [] t; congruence.
Defined.

(** The live object of type [T] behind a handle. *)
Definition boxed {T} `{Boxed T} (w : World) (h : Z) : option T :=
  match w_boxes w !! h with Some o => of_object o | None => None end.

(** [Box::into_raw(Box::new(t))]. *)
Definition into_raw {T} `{Boxed T} (t : T) : Act Z := fun w =>
  Some (mkWorld (<[w_next w := to_object t]> (w_boxes w)) (w_arcs w) (w_next w + 1) (w_releases w)
          (w_mem w) (w_slots w), w_next w).

(** [&*handle] and [&mut *handle]. *)
Definition deref {T} `{Boxed T} (h : Z) : Act T := fun w =>
  match boxed w h with Some t => Some (w, t) | None => None end.

(** What the call did to the object it borrowed mutably. *)
Definition assign {T} `{Boxed T} (h : Z) (t : T) : Act unit := fun w =>
  Some (set_boxes w (<[h := to_object t]> (w_boxes w)), tt).

(** [Box::from_raw(handle)]. *)
Definition from_raw {T} `{Boxed T} (h : Z) : Act T := fun w =>
  match boxed w h with
  | Some t => Some (set_boxes w (delete h (w_boxes w)), t)
  | None => None
  end.

(** ** Shared host keys *)
Definition arc_new (e : Element) : Act Arc := fun w =>
  Some (mkWorld (w_boxes w) (<[w_next w := (e, 1)]> (w_arcs w)) (w_next w + 1) (w_releases w)
          (w_mem w) (w_slots w), mkArc (w_next w) e).

Definition arc_clone (a : Arc) : Act Arc := fun w =>
  match w_arcs w !! arc_at a with
  | Some (e, n) => Some (set_arcs w (<[arc_at a := (e, n + 1)]> (w_arcs w)) (w_releases w), a)
  | None => None
  end.

(** [impl Drop for Element], when the count reaches zero. *)
Definition arc_drop (a : Arc) : Act unit := fun w =>
  match w_arcs w !! arc_at a with
  | Some (e, n) =>
      let releases :=
        if n - 1 =? 0 then
          match el_release e with
          | Some release => w_releases w ++ [mkRelease (arc_at a) release (el_context e)]
          | None => w_releases w
          end
        else w_releases w in
      Some (set_arcs w (<[arc_at a := (e, n - 1)]> (w_arcs w)) releases, tt)
  | None => None
  end.

Fixpoint drop_arcs (l : list Arc) : Act unit :=
  match l with
  | [] => act_ret tt
  | a :: l => let* _ := arc_drop a in drop_arcs l
  end.

(** The references an object holds. *)
Definition key_arcs (k : IdentityKey) : list Arc :=
  match k with KeySecret _ => [] | KeyElement a => [a] end.

Definition held_arcs (k : Held) : list Arc :=
  match k with HeldSecret _ => [] | HeldElement a => [a] end.

Definition responder_arcs (r : Responder IdentityKey) : list Arc :=
  match r_static_key r with Some k => key_arcs k | None => [] end ++
  match r_hs r with Some hs => key_arcs (hs_s hs) | None => [] end.

Definition object_arcs (o : Object) : list Arc :=
  match o with
  | BoxIdentity i => held_arcs (id_key i)
  | BoxInitiator i => key_arcs (hs_s (i_hs i))
  | BoxResponder r => responder_arcs r
  | BoxSession _ => []
  end.

(** [fectp_identity::key]. *)
Definition identity_key `{Crypto} (i : fectp_identity) : Act IdentityKey :=
  match id_key i with
  | HeldSecret secret => act_ret (KeySecret (Keypair.from_secret secret))
  | HeldElement element => let* a := arc_clone element in act_ret (KeyElement a)
  end.

(** ** Guards and buffers *)
Definition guard (body : Act (Result Z)) : Act Z :=
  let* r := body in
  act_ret (match r with Ok value => value | _ => FECTP_ERR_PANIC end).

Definition guard_ptr (body : Act (Result Z)) : Act Z :=
  let* r := body in
  act_ret (match r with Ok value => value | _ => null end).

Definition length_code (n : Z) : Z := if n <=? ISIZE_MAX then n else FECTP_ERR_TOO_LARGE.

Definition code (e : Error) : Z :=
  match e with
  | BufferTooSmall => FECTP_ERR_BUFFER
  | KeyUnavailable => FECTP_ERR_KEY
  | _ => FECTP_ERR_PROTOCOL
  end.

Definition read_memory (ptr n : Z) : Act bytes := fun w =>
  match read_bytes (w_mem w) ptr n with Some b => Some (w, b) | None => None end.

Definition write_memory (ptr : Z) (b : bytes) : Act unit := fun w =>
  Some (set_mem w (write_bytes (w_mem w) ptr b), tt).

Definition input (ptr n : Z) : Act (option bytes) :=
  if n =? 0 then act_ret (Some [])
  else if ptr =? null then act_ret None
  else let* b := read_memory ptr n in act_ret (Some b).

(** The buffer as it is when it is borrowed. *)
Definition output (ptr n : Z) : Act (option bytes) :=
  if n =? 0 then act_ret (Some [])
  else if ptr =? null then act_ret None
  else let* b := read_memory ptr n in act_ret (Some b).

(** [let (Some(i), Some(o)) = (input(..), output(..)) else { return .. }]:
    borrowing one buffer twice is undefined. *)
Definition buffers (ip il op ol : Z) : Act (option (bytes * bytes)) :=
  let* i := input ip il in
  let* o := output op ol in
  match i, o with
  | Some i, Some o => if overlaps ip il op ol then undefined else act_ret (Some (i, o))
  | _, _ => act_ret None
  end.

(** An output buffer after a call that failed: it may have been written to. *)
Definition left_in (left out : bytes) : bytes := takez (len out) (left ++ dropz (len left) out).

Definition read_slot (p : Z) : Act Z := fun w =>
  match w_slots w !! p with Some v => Some (w, v) | None => None end.

Definition write_slot (p v : Z) : Act unit := fun w =>
  match w_slots w !! p with
  | Some _ => Some (set_slots w (<[p := v]> (w_slots w)), tt)
  | None => None
  end.

(** [fixed.copy_from_slice(bytes)] on an array of [DHLEN] bytes. *)
Definition fixed (b : bytes) : Result bytes := copy_range (zeros DHLEN) 0 DHLEN b.

(** ** Entry points *)
Section calls.
Context `{Crypto} `{Host}.
Implicit Types (random left : bytes).

(** *** Identities *)

(** [random] is [None] when the operating system's generator fails: [OsRng]
    panics. *)
Definition fectp_identity_generate (random : option bytes) : Act Z :=
  guard_ptr (
    match random with
    | None => act_ret Panic
    | Some secret =>
        let public := kp_public (Keypair.from_secret secret) in
        let* handle := into_raw (mkfectp_identity (HeldSecret secret) public) in
        act_ret (Ok handle)
    end).

Definition fectp_identity_from_secret (secret : Z) : Act Z :=
  guard_ptr (
    let* b := input secret DHLEN in
    match b with
    | None => act_ret (Ok null)
    | Some b =>
        match fixed b with
        | Ok fixed =>
            let public := kp_public (Keypair.from_secret fixed) in
            let* handle := into_raw (mkfectp_identity (HeldSecret fixed) public) in
            act_ret (Ok handle)
        | _ => act_ret Panic
        end
    end).

Definition fectp_identity_from_key (public_key : Z) (dh : option Z) (context : Z)
    (release : option Z) : Act Z :=
  guard_ptr (
    match dh with
    | None => act_ret (Ok null)
    | Some dh =>
        let* b := input public_key DHLEN in
        match b with
        | None => act_ret (Ok null)
        | Some b =>
            match fixed b with
            | Ok public =>
                let* element := arc_new (mkElement dh context release public) in
                let* handle := into_raw (mkfectp_identity (HeldElement element) public) in
                act_ret (Ok handle)
            | _ => act_ret Panic
            end
        end
    end).

Definition fectp_identity_public (identity out : Z) : Act Z :=
  guard (
    if identity =? null then act_ret (Ok FECTP_ERR_NULL) else
    let* identity := deref identity in
    let* buf := output out DHLEN in
    match buf with
    | None => act_ret (Ok FECTP_ERR_NULL)
    | Some buf =>
        match copy_range (E := Error) buf 0 (len buf) (id_public identity) with
        | Ok buf => let* _ := write_memory out buf in act_ret (Ok FECTP_OK)
        | _ => act_ret Panic
        end
    end).

(** [Drop] wipes a secret; a host key loses a reference. *)
Definition fectp_identity_free (identity : Z) : Act Z :=
  if identity =? null then act_ret FECTP_OK else
  guard (
    let* i := from_raw identity in
    let* _ := drop_arcs (held_arcs (id_key i)) in
    act_ret (Ok FECTP_OK)).

(** *** Initiators *)
Definition fectp_initiator_new (identity peer_public session_id max_frame : Z) : Act Z :=
  guard_ptr (
    if identity =? null then act_ret (Ok null) else
    let* identity := deref identity in
    let* peer := input peer_public DHLEN in
    match peer with
    | None => act_ret (Ok null)
    | Some peer =>
        match fixed peer with
        | Ok remote =>
            let* key := identity_key identity in
            match Initiator.new key remote session_id (Capabilities.minimal max_frame) with
            | Ok inner => let* handle := into_raw inner in act_ret (Ok handle)
            | Err _ => let* _ := drop_arcs (key_arcs key) in act_ret (Ok null)
            | Panic => let* _ := drop_arcs (key_arcs key) in act_ret Panic
            end
        | _ => act_ret Panic
        end
    end).

(** The result of a call that writes a buffer and reports a length, and the
    buffer written back. *)
Definition deliver (out : Z) (buf left : bytes) (r : Result (bytes * Z)) : Act (Result Z) :=
  match r with
  | Ok (buf, n) => let* _ := write_memory out buf in act_ret (Ok (length_code n))
  | Err e => let* _ := write_memory out (left_in left buf) in act_ret (Ok (code e))
  | Panic => let* _ := write_memory out (left_in left buf) in act_ret Panic
  end.

Definition fectp_initiator_write_init (random left : bytes)
    (initiator payload payload_len out out_len : Z) : Act Z :=
  guard (
    if initiator =? null then act_ret (Ok FECTP_ERR_NULL) else
    let* i := deref initiator in
    let* b := buffers payload payload_len out out_len in
    match b with
    | None => act_ret (Ok FECTP_ERR_NULL)
    | Some (payload, buf) =>
        let '(i, r) := Initiator.write_init i random payload buf in
        let* _ := assign initiator i in
        deliver out buf left r
    end).

(** The end of both calls that establish a session. *)
Definition establish (out : Z) (buf left : bytes) (session : Z) (r : Result (Session * bytes * Z))
  : Act (Result Z) :=
  match r with
  | Ok (established, buf, n) =>
      let* _ := write_memory out buf in
      let* handle := into_raw established in
      let* _ := write_slot session handle in
      act_ret (Ok (length_code n))
  | Err e => deliver out buf left (Err e)
  | Panic => deliver out buf left Panic
  end.

(** The initiator is dropped when the call returns, with its key. *)
Definition fectp_initiator_read_response (left : bytes)
    (initiator frame frame_len out out_len session : Z) : Act Z :=
  guard (
    if (initiator =? null) || (session =? null) then act_ret (Ok FECTP_ERR_NULL) else
    let* slot := read_slot initiator in
    if slot =? null then act_ret (Ok FECTP_ERR_NULL) else
    let* owned := from_raw slot in
    let* _ := write_slot initiator null in
    let* b := buffers frame frame_len out out_len in
    let* r :=
      match b with
      | None => act_ret (Ok FECTP_ERR_NULL)
      | Some (frame, buf) => establish out buf left session (Initiator.read_response owned frame buf)
      end in
    let* _ := drop_arcs (key_arcs (hs_s (i_hs owned))) in
    act_ret r).

Definition fectp_initiator_free (initiator : Z) : Act Z :=
  if initiator =? null then act_ret FECTP_OK else
  guard (
    let* i := from_raw (T := Initiator IdentityKey) initiator in
    let* _ := drop_arcs (key_arcs (hs_s (i_hs i))) in
    act_ret (Ok FECTP_OK)).

(** *** Responders *)
Definition fectp_responder_new (identity max_frame : Z) : Act Z :=
  guard_ptr (
    if identity =? null then act_ret (Ok null) else
    let* identity := deref identity in
    let* key := identity_key identity in
    let* handle := into_raw (Responder.new key (Capabilities.minimal max_frame)) in
    act_ret (Ok handle)).

(** A key the responder held before the call and does not hold after it was
    dropped during it. *)
Definition fectp_responder_read_init (left : bytes)
    (responder frame frame_len out out_len : Z) : Act Z :=
  guard (
    if responder =? null then act_ret (Ok FECTP_ERR_NULL) else
    let* r := deref responder in
    let* b := buffers frame frame_len out out_len in
    match b with
    | None => act_ret (Ok FECTP_ERR_NULL)
    | Some (frame, buf) =>
        let '(r', res) := Responder.read_init r frame buf in
        let* _ := assign responder r' in
        let* _ := drop_arcs (dropz (len (responder_arcs r')) (responder_arcs r)) in
        deliver out buf left res
    end).

Definition fectp_responder_write_response (random left : bytes)
    (responder payload payload_len out out_len session : Z) : Act Z :=
  guard (
    if (responder =? null) || (session =? null) then act_ret (Ok FECTP_ERR_NULL) else
    let* slot := read_slot responder in
    if slot =? null then act_ret (Ok FECTP_ERR_NULL) else
    let* owned := from_raw slot in
    let* _ := write_slot responder null in
    let* b := buffers payload payload_len out out_len in
    let* r :=
      match b with
      | None => act_ret (Ok FECTP_ERR_NULL)
      | Some (payload, buf) =>
          establish out buf left session (Responder.write_response owned random payload buf)
      end in
    let* _ := drop_arcs (responder_arcs owned) in
    act_ret r).

Definition fectp_responder_free (responder : Z) : Act Z :=
  if responder =? null then act_ret FECTP_OK else
  guard (
    let* r := from_raw (T := Responder IdentityKey) responder in
    let* _ := drop_arcs (responder_arcs r) in
    act_ret (Ok FECTP_OK)).

(** *** Sessions *)
Definition fectp_session_seal (left : bytes) (session payload payload_len out out_len : Z) : Act Z :=
  guard (
    if session =? null then act_ret (Ok FECTP_ERR_NULL) else
    let* s := deref session in
    let* b := buffers payload payload_len out out_len in
    match b with
    | None => act_ret (Ok FECTP_ERR_NULL)
    | Some (payload, buf) =>
        let '(s, r) := Session.seal s payload 0 buf in
        let* _ := assign session s in
        deliver out buf left r
    end).

(** The frame is copied and decrypted in the copy; [out] is written once the
    plaintext is known to fit. *)
Definition fectp_session_open (session frame frame_len out out_len : Z) : Act Z :=
  guard (
    if session =? null then act_ret (Ok FECTP_ERR_NULL) else
    let* s := deref session in
    let* b := buffers frame frame_len out out_len in
    match b with
    | None => act_ret (Ok FECTP_ERR_NULL)
    | Some (frame, buf) =>
        let '(s, r) := Session.open s frame in
        let* _ := assign session s in
        match r with
        | Ok (opened, scratch) =>
            match (let? tail := slice_from (E := Error) scratch HEADER_LEN in slice tail 0 (o_len opened)) with
            | Ok plaintext =>
                if len buf <? len plaintext then act_ret (Ok FECTP_ERR_BUFFER) else
                match copy_range (E := Error) buf 0 (len plaintext) plaintext with
                | Ok buf =>
                    let* _ := write_memory out buf in act_ret (Ok (length_code (len plaintext)))
                | _ => act_ret Panic
                end
            | _ => act_ret Panic
            end
        | Err e => act_ret (Ok (code e))
        | Panic => act_ret Panic
        end
    end).

Definition fectp_session_free (session : Z) : Act Z :=
  if session =? null then act_ret FECTP_OK else
  guard (
    let* _ := from_raw (T := Session) session in
    act_ret (Ok FECTP_OK)).
End calls.

(** ** A host's run *)

(** What surrounds one call. *)
Record Env := mkEnv {
  env_host : Host;
  env_random : bytes;
  env_left : bytes;
}.

(** One entry point with its arguments, or the host writing its own memory: all
    of it, or one pointer variable. *)
Inductive Call :=
| IdentityGenerate (random : option bytes)
| IdentityFromSecret (secret : Z)
| IdentityFromKey (public_key : Z) (dh : option Z) (context : Z) (release : option Z)
| IdentityPublic (identity out : Z)
| IdentityFree (identity : Z)
| InitiatorNew (identity peer_public session_id max_frame : Z)
| InitiatorWriteInit (initiator payload payload_len out out_len : Z)
| InitiatorReadResponse (initiator frame frame_len out out_len session : Z)
| InitiatorFree (initiator : Z)
| ResponderNew (identity max_frame : Z)
| ResponderReadInit (responder frame frame_len out out_len : Z)
| ResponderWriteResponse (responder payload payload_len out out_len session : Z)
| ResponderFree (responder : Z)
| SessionSeal (session payload payload_len out out_len : Z)
| SessionOpen (session frame frame_len out out_len : Z)
| SessionFree (session : Z)
| HostWrites (mem : Memory) (slots : gmap Z Z)
| HostStores (p v : Z).

Definition host_writes (mem : Memory) (slots : gmap Z Z) : Act Z := fun w =>
  Some (set_slots (set_mem w mem) slots, FECTP_OK).

Definition host_stores (p v : Z) : Act Z := fun w =>
  Some (set_slots w (<[p := v]> (w_slots w)), FECTP_OK).

Definition exec `{Crypto} (env : Env) (c : Call) : Act Z :=
  let host := env_host env in
  match c with
  | IdentityGenerate random => fectp_identity_generate random
  | IdentityFromSecret secret => fectp_identity_from_secret secret
  | IdentityFromKey public_key dh context release =>
      fectp_identity_from_key public_key dh context release
  | IdentityPublic identity out => fectp_identity_public identity out
  | IdentityFree identity => fectp_identity_free identity
  | InitiatorNew identity peer sid size => fectp_initiator_new identity peer sid size
  | InitiatorWriteInit i p pl o ol =>
      fectp_initiator_write_init (env_random env) (env_left env) i p pl o ol
  | InitiatorReadResponse i f fl o ol s => fectp_initiator_read_response (env_left env) i f fl o ol s
  | InitiatorFree i => fectp_initiator_free i
  | ResponderNew identity size => fectp_responder_new identity size
  | ResponderReadInit r f fl o ol => fectp_responder_read_init (env_left env) r f fl o ol
  | ResponderWriteResponse r p pl o ol s =>
      fectp_responder_write_response (env_random env) (env_left env) r p pl o ol s
  | ResponderFree r => fectp_responder_free r
  | SessionSeal s p pl o ol => fectp_session_seal (env_left env) s p pl o ol
  | SessionOpen s f fl o ol => fectp_session_open s f fl o ol
  | SessionFree s => fectp_session_free s
  | HostWrites mem slots => host_writes mem slots
  | HostStores p v => host_stores p v
  end.

(** A process that has not called this library yet. *)
Definition world0 (mem : Memory) (slots : gmap Z Z) : World := mkWorld ∅ ∅ 1 [] mem slots.

(** A run: the world after it and what each call returned. *)
Fixpoint run `{Crypto} (calls : list (Env * Call)) : Act (list Z) :=
  match calls with
  | [] => act_ret []
  | (env, c) :: calls =>
      let* r := exec env c in
      let* rs := run calls in
      act_ret (r :: rs)
  end.
