(* ===== verification/CInterfaceLaws.v ===== *)
(** * The C interface keeps its promises
      (crates/ffi/src/lib.rs, crates/ffi/include/fectp.h)

    [contract] is the "Safety" section of every entry point. The theorems say
    what a host that keeps it gets: no call is undefined, every handle returned
    is live and of its type, every code is one of the documented ones, a host's
    key is released once and only when nothing can use it, and a handshake
    driven through pointers and codes carries both payloads and leaves two
    sessions in step. *)
From stdpp Require Import gmap.
From S2P Require Import Prelude Bytes Error Frame Fragment Reliability Replay Cipher Handshake Session.
From S2P Require Import Connect ConnectSafety CMemory CInterface.
#[local] Open Scope ffi_scope.

(** ** References *)
Fixpoint arc_refs (a : Z) (l : list Arc) : Z :=
  match l with
  | [] => 0
  | x :: l => (if arc_at x =? a then 1 else 0) + arc_refs a l
  end.

(** The references to an allocation from all live handles. *)
Definition total_refs (a : Z) (boxes : gmap Z Object) : Z :=
  map_fold (fun _ o n => arc_refs a (object_arcs o) + n) 0 boxes.

(** How often its [release] was called. *)
Fixpoint releases_of (a : Z) (l : list Release) : Z :=
  match l with
  | [] => 0
  | r :: l => (if rel_arc r =? a then 1 else 0) + releases_of a l
  end.

Lemma arc_refs_app a l1 l2 : arc_refs a (l1 ++ l2) = arc_refs a l1 + arc_refs a l2.
Proof. induction l1 as [|x l1 IH]; cbn; lia. Qed.

Lemma arc_refs_nonneg a l : 0 <= arc_refs a l.
Proof. induction l as [|x l IH]; cbn; [lia|]. case_match; lia. Qed.

Lemma arc_refs_elem a l : 0 < arc_refs a l <-> exists x, x ∈ l /\ arc_at x = a.
Proof.
  induction l as [|x l IH]; cbn.
  - split; [lia|]. by intros (y & Hy%elem_of_nil & _).
  - pose proof (arc_refs_nonneg a l). setoid_rewrite elem_of_cons.
    destruct (Z.eqb_spec (arc_at x) a); split.
    + intros _. eauto.
    + lia.
    + intros Hl. destruct (proj1 IH) as (y & ? & ?); [lia|]. eauto.
    + intros (y & [->|Hy] & Ha); [done|]. assert (0 < arc_refs a l) by (apply IH; eauto). lia.
Qed.

Lemma releases_of_app a l1 l2 : releases_of a (l1 ++ l2) = releases_of a l1 + releases_of a l2.
Proof. induction l1 as [|x l1 IH]; cbn; lia. Qed.

Lemma releases_of_none a l : (forall r, r ∈ l -> rel_arc r <> a) -> releases_of a l = 0.
Proof.
  induction l as [|x l IH]; cbn; intros Hl; [done|].
  rewrite (proj2 (Z.eqb_neq _ _)) by (apply Hl; left). apply IH. intros r Hr. apply Hl. by right.
Qed.

Lemma total_refs_insert a b h o :
  b !! h = None -> total_refs a (<[h := o]> b) = arc_refs a (object_arcs o) + total_refs a b.
Proof.
  intros Hh. unfold total_refs. rewrite map_fold_insert_L; [done| |done]. intros. lia.
Qed.

Lemma total_refs_delete a b h o :
  b !! h = Some o -> total_refs a b = arc_refs a (object_arcs o) + total_refs a (delete h b).
Proof.
  intros Hh. rewrite <- (insert_delete_id b h o Hh) at 1.
  apply total_refs_insert, lookup_delete_eq.
Qed.

Lemma total_refs_nonneg a b : 0 <= total_refs a b.
Proof.
  unfold total_refs. apply (map_fold_weak_ind (fun n _ => 0 <= n)); [done|].
  intros h o m n _ Hn. pose proof (arc_refs_nonneg a (object_arcs o)). lia.
Qed.

(** An allocation is referenced when some live handle holds it. *)
Lemma total_refs_elem a b :
  0 < total_refs a b <-> exists h o x, b !! h = Some o /\ x ∈ object_arcs o /\ arc_at x = a.
Proof.
  split.
  - induction b as [|h o b Hh IH] using map_ind; [done|].
    rewrite total_refs_insert by done. intros Ht.
    destruct (decide (0 < arc_refs a (object_arcs o))) as [Hr|Hr].
    + apply arc_refs_elem in Hr as (x & ? & ?). exists h, o, x. by rewrite lookup_insert_eq.
    + pose proof (arc_refs_nonneg a (object_arcs o)).
      destruct IH as (h' & o' & x & Hb & ? & ?); [lia|]. exists h', o', x.
      split; [|done]. rewrite lookup_insert_ne; [done|]. congruence.
  - intros (h & o & x & Hb & Hx & Ha). rewrite (total_refs_delete _ _ _ _ Hb).
    assert (0 < arc_refs a (object_arcs o)) by (apply arc_refs_elem; eauto).
    pose proof (total_refs_nonneg a (delete h b)). lia.
Qed.

(** ** The invariant of the world *)
Definition key_public (k : IdentityKey) : bytes :=
  match k with
  | KeySecret keypair => kp_public keypair
  | KeyElement element => el_public (arc_element element)
  end.

Definition held_ok (k : Held) : Prop :=
  match k with
  | HeldSecret _ => True
  | HeldElement a => len (el_public (arc_element a)) = DHLEN
  end.

(** Keys are as long as they must be, and a responder has one key at most. *)
Definition object_ok (o : Object) : Prop :=
  match o with
  | BoxIdentity i => len (id_public i) = DHLEN /\ held_ok (id_key i)
  | BoxInitiator i => len (key_public (hs_s (i_hs i))) = DHLEN
  | BoxResponder r => r_static_key r = None \/ r_hs r = None
  | BoxSession _ => True
  end.

(** [l] are the references held by the call in progress. *)
Record owns (l : list Arc) (w : World) : Prop := mkOwns {
  own_next : 0 < w_next w;
  own_handles h o : w_boxes w !! h = Some o -> 0 < h < w_next w /\ object_ok o;
  own_arcs a e n : w_arcs w !! a = Some (e, n) ->
    a < w_next w /\ n = total_refs a (w_boxes w) + arc_refs a l /\
    releases_of a (w_releases w) = (if (n =? 0) && is_some (el_release e) then 1 else 0);
  own_refs h o x : w_boxes w !! h = Some o -> x ∈ object_arcs o ->
    exists n, w_arcs w !! arc_at x = Some (arc_element x, n);
  own_local x : x ∈ l -> exists n, w_arcs w !! arc_at x = Some (arc_element x, n);
  own_releases r : r ∈ w_releases w ->
    exists e, w_arcs w !! rel_arc r = Some (e, 0) /\ el_release e = Some (rel_fn r) /\
      el_context e = rel_context r;
}.

Lemma owns_world0 mem slots : owns [] (world0 mem slots).
Proof.
  constructor; cbn; try done; try lia.
  - by intros x Hx%elem_of_nil.
  - by intros x Hx%elem_of_nil.
Qed.

Lemma owns_host l w mem slots :
  owns l w -> owns l (set_slots (set_mem w mem) slots).
Proof. by intros []. Qed.

Lemma owns_mem l w mem : owns l w -> owns l (set_mem w mem).
Proof. by intros []. Qed.

Lemma owns_slots l w slots : owns l w -> owns l (set_slots w slots).
Proof. by intros []. Qed.
#[local] Hint Resolve owns_mem owns_slots : fectp.

(** ** Each primitive and what it does to the references *)
Section primitives.
Context {T : Type} `{Boxed T}.

Lemma boxed_lookup w h (t : T) : boxed w h = Some t <-> w_boxes w !! h = Some (to_object t).
Proof.
  unfold boxed. split.
  - destruct (w_boxes w !! h) as [o|]; [|done]. intros Ho. by rewrite (to_of_object _ _ Ho).
  - intros ->. apply of_to_object.
Qed.

Lemma fresh_handle l w : owns l w -> w_boxes w !! w_next w = None.
Proof.
  intros Hw. destruct (w_boxes w !! w_next w) as [o|] eqn:E; [|done].
  destruct (own_handles _ _ Hw _ _ E). lia.
Qed.

(** A new handle takes over the references of the object behind it. *)
Lemma owns_into_raw l w (t : T) :
  owns (object_arcs (to_object t) ++ l) w -> object_ok (to_object t) ->
  exists w', into_raw t w = Some (w', w_next w) /\ owns l w' /\ boxed w' (w_next w) = Some t /\
    w_mem w' = w_mem w /\ w_slots w' = w_slots w /\ 0 < w_next w /\
    (forall h, h <> w_next w -> w_boxes w' !! h = w_boxes w !! h).
Proof.
  intros Hw Ht. pose proof (fresh_handle _ _ Hw) as Hf. eexists. split; [reflexivity|].
  split; [|split; [apply boxed_lookup; cbn; by rewrite lookup_insert_eq|split_and!; try done]].
  - constructor; cbn [w_boxes w_arcs w_next w_releases].
    + pose proof (own_next _ _ Hw). lia.
    + intros h o [[<- <-]|[? Ho]]%lookup_insert_Some.
      * pose proof (own_next _ _ Hw). by split; [lia|].
      * destruct (own_handles _ _ Hw _ _ Ho). by split; [lia|].
    + intros a e n Ha. destruct (own_arcs _ _ Hw _ _ _ Ha) as (? & ? & ?).
      rewrite total_refs_insert by done. rewrite arc_refs_app in *. split; [lia|]. split; [lia|done].
    + intros h o x [[<- <-]|[? Ho]]%lookup_insert_Some Hx.
      * eapply (own_local _ _ Hw). apply elem_of_app. by left.
      * by eapply (own_refs _ _ Hw).
    + intros x Hx. eapply (own_local _ _ Hw). apply elem_of_app. by right.
    + apply (own_releases _ _ Hw).
  - apply (own_next _ _ Hw).
  - intros h Hh. cbn. by rewrite lookup_insert_ne by done.
Qed.

Lemma deref_ok w h (t : T) : boxed w h = Some t -> deref h w = Some (w, t).
Proof. intros Hb. unfold deref. by rewrite Hb. Qed.

(** Taking a box back takes its references. *)
Lemma owns_from_raw l w h (t : T) :
  owns l w -> boxed w h = Some t ->
  exists w', from_raw h w = Some (w', t) /\ owns (object_arcs (to_object t) ++ l) w' /\
    object_ok (to_object t) /\ w_boxes w' = delete h (w_boxes w) /\ w_mem w' = w_mem w /\
    w_slots w' = w_slots w /\ w_next w' = w_next w.
Proof.
  intros Hw Hb. unfold from_raw. rewrite Hb. eexists. split; [reflexivity|].
  apply boxed_lookup in Hb. destruct (own_handles _ _ Hw _ _ Hb) as [_ Hok]. split; [|done].
  constructor; cbn [w_boxes w_arcs w_next w_releases set_boxes].
  - apply (own_next _ _ Hw).
  - intros h' o [_ Ho]%lookup_delete_Some. by apply (own_handles _ _ Hw).
  - intros a e n Ha. destruct (own_arcs _ _ Hw _ _ _ Ha) as (? & Hn & ?).
    rewrite (total_refs_delete a _ _ _ Hb) in Hn. rewrite arc_refs_app. split; [lia|]. split; [lia|done].
  - intros h' o x [_ Ho]%lookup_delete_Some Hx. by eapply (own_refs _ _ Hw).
  - intros x [Hx|Hx]%elem_of_app; [by eapply (own_refs _ _ Hw)|by apply (own_local _ _ Hw)].
  - apply (own_releases _ _ Hw).
Qed.

(** Writing back a borrowed object exchanges its references for the old ones. *)
Lemma owns_assign l l' w h (t t' : T) :
  owns l w -> boxed w h = Some t -> object_ok (to_object t') ->
  (forall a, arc_refs a (object_arcs (to_object t')) + arc_refs a l' =
             arc_refs a (object_arcs (to_object t)) + arc_refs a l) ->
  (forall x, x ∈ object_arcs (to_object t') ++ l' -> x ∈ object_arcs (to_object t) ++ l) ->
  exists w', assign h t' w = Some (w', tt) /\ owns l' w' /\ boxed w' h = Some t' /\
    w_mem w' = w_mem w /\ w_slots w' = w_slots w.
Proof.
  intros Hw Hb Hok Hrefs Hsub. eexists. split; [reflexivity|]. apply boxed_lookup in Hb.
  split; [|split; [apply boxed_lookup; cbn; by rewrite lookup_insert_eq|done]].
  assert (forall x, x ∈ object_arcs (to_object t') ++ l' ->
    exists n, w_arcs w !! arc_at x = Some (arc_element x, n)) as Hlocal.
  { intros x [Hx|Hx]%Hsub%elem_of_app; [by eapply (own_refs _ _ Hw)|by apply (own_local _ _ Hw)]. }
  constructor; cbn [w_boxes w_arcs w_next w_releases set_boxes].
  - apply (own_next _ _ Hw).
  - intros h' o [[<- <-]|[? Ho]]%lookup_insert_Some; [|by apply (own_handles _ _ Hw)].
    by destruct (own_handles _ _ Hw _ _ Hb).
  - intros a e n Ha. destruct (own_arcs _ _ Hw _ _ _ Ha) as (? & Hn & ?).
    rewrite (total_refs_delete a _ _ _ Hb) in Hn.
    rewrite <- insert_delete_eq, total_refs_insert by apply lookup_delete_eq.
    specialize (Hrefs a). split; [lia|]. split; [lia|done].
  - intros h' o x [[<- <-]|[? Ho]]%lookup_insert_Some Hx; [|by eapply (own_refs _ _ Hw)].
    apply Hlocal, elem_of_app. by left.
  - intros x Hx. apply Hlocal, elem_of_app. by right.
  - apply (own_releases _ _ Hw).
Qed.
End primitives.

(** Two worlds that differ only in the counts and the releases. *)
Definition same_boxes (w w' : World) : Prop :=
  w_boxes w' = w_boxes w /\ w_next w' = w_next w /\ w_mem w' = w_mem w /\ w_slots w' = w_slots w.

Lemma owns_arc_new l w e :
  owns l w ->
  exists w', arc_new e w = Some (w', mkArc (w_next w) e) /\ owns (mkArc (w_next w) e :: l) w' /\
    w_boxes w' = w_boxes w /\ w_mem w' = w_mem w /\ w_slots w' = w_slots w.
Proof.
  intros Hw. eexists. split; [reflexivity|]. split; [|done].
  assert (w_arcs w !! w_next w = None) as Hf.
  { destruct (w_arcs w !! w_next w) as [[? ?]|] eqn:E; [|done].
    destruct (own_arcs _ _ Hw _ _ _ E). lia. }
  assert (forall a x n, w_arcs w !! a = Some (x, n) -> a <> w_next w) as Hne by congruence.
  constructor; cbn [w_boxes w_arcs w_next w_releases].
  - pose proof (own_next _ _ Hw). lia.
  - intros h o Ho. destruct (own_handles _ _ Hw _ _ Ho). by split; [lia|].
  - intros a x n [[<- [= <- <-]]|[? Ha]]%lookup_insert_Some.
    + cbn [arc_refs arc_at]. rewrite Z.eqb_refl. cbn [Z.eqb andb].
      assert (total_refs (w_next w) (w_boxes w) = 0) as ->.
      { pose proof (total_refs_nonneg (w_next w) (w_boxes w)).
        destruct (decide (0 < total_refs (w_next w) (w_boxes w))) as [Ht|]; [|lia].
        apply total_refs_elem in Ht as (h & o & x & Hb & Hx & Ha).
        destruct (own_refs _ _ Hw _ _ _ Hb Hx) as [n Hn]. rewrite Ha in Hn. congruence. }
      assert (arc_refs (w_next w) l = 0) as ->.
      { pose proof (arc_refs_nonneg (w_next w) l).
        destruct (decide (0 < arc_refs (w_next w) l)) as [Ht|]; [|lia].
        apply arc_refs_elem in Ht as (x & Hx & Ha).
        destruct (own_local _ _ Hw _ Hx) as [n Hn]. rewrite Ha in Hn. congruence. }
      split; [lia|]. split; [lia|]. apply releases_of_none. intros r Hr.
      destruct (own_releases _ _ Hw _ Hr) as (x & Hx & _). by apply Hne in Hx.
    + destruct (own_arcs _ _ Hw _ _ _ Ha) as (? & ? & ?). cbn [arc_refs arc_at].
      rewrite (proj2 (Z.eqb_neq _ _)) by done. split; [lia|]. split; [lia|done].
  - intros h o x Ho Hx. destruct (own_refs _ _ Hw _ _ _ Ho Hx) as [n Hn]. exists n.
    rewrite lookup_insert_ne; [done|]. symmetry. by eapply Hne.
  - intros x [->|Hx]%elem_of_cons; [exists 1; cbn; by rewrite lookup_insert_eq|].
    destruct (own_local _ _ Hw _ Hx) as [n Hn]. exists n.
    rewrite lookup_insert_ne; [done|]. symmetry. by eapply Hne.
  - intros r Hr. destruct (own_releases _ _ Hw _ Hr) as (x & Hx & ?). exists x.
    rewrite lookup_insert_ne; [done|]. symmetry. by eapply Hne.
Qed.

(** The [release] calls a change of a count makes. *)
Definition releases_at (a : Z) (e : Element) (n : Z) (l : list Release) : list Release :=
  if n =? 0 then
    match el_release e with Some f => l ++ [mkRelease a f (el_context e)] | None => l end
  else l.

Lemma owns_recount l l' w a e n n' :
  owns l w -> w_arcs w !! a = Some (e, n) -> 0 < n ->
  (forall b, arc_refs b l' = arc_refs b l + (if b =? a then n' - n else 0)) ->
  (forall x, x ∈ l' -> exists k, w_arcs w !! arc_at x = Some (arc_element x, k)) ->
  owns l' (set_arcs w (<[a := (e, n')]> (w_arcs w)) (releases_at a e n' (w_releases w))).
Proof.
  intros Hw Ha Hn Hrefs Hl'.
  assert (forall x k, w_arcs w !! arc_at x = Some (arc_element x, k) ->
    exists k, <[a := (e, n')]> (w_arcs w) !! arc_at x = Some (arc_element x, k)) as Hkeep.
  { intros x k Hx. destruct (decide (a = arc_at x)) as [->|]; [|rewrite lookup_insert_ne by done; eauto].
    rewrite lookup_insert_eq. rewrite Hx in Ha. injection Ha as <- <-. eauto. }
  constructor; cbn [w_boxes w_arcs w_next w_releases set_arcs].
  - apply (own_next _ _ Hw).
  - apply (own_handles _ _ Hw).
  - intros b x k [[<- [= <- <-]]|[Hne Hb]]%lookup_insert_Some.
    + destruct (own_arcs _ _ Hw _ _ _ Ha) as (? & ? & Hr). specialize (Hrefs a).
      rewrite Z.eqb_refl in Hrefs. split; [lia|]. split; [lia|]. unfold releases_at.
      rewrite (proj2 (Z.eqb_neq n 0)) in Hr by lia. cbn [andb] in Hr.
      destruct (n' =? 0), (el_release e); cbn [andb is_some]; rewrite ?releases_of_app, Hr; [|done..].
      cbn. by rewrite Z.eqb_refl.
    + destruct (own_arcs _ _ Hw _ _ _ Hb) as (? & ? & Hr). specialize (Hrefs b).
      rewrite (proj2 (Z.eqb_neq b a)) in Hrefs by done. split; [lia|]. split; [lia|].
      rewrite <- Hr. unfold releases_at. destruct (n' =? 0); [|done].
      destruct (el_release e); [|done]. rewrite releases_of_app. cbn.
      rewrite (proj2 (Z.eqb_neq a b)) by done. lia.
  - intros h o x Ho Hx. destruct (own_refs _ _ Hw _ _ _ Ho Hx). eauto.
  - intros x Hx. destruct (Hl' _ Hx). eauto.
  - assert (forall r, r ∈ w_releases w -> exists e0,
      <[a := (e, n')]> (w_arcs w) !! rel_arc r = Some (e0, 0) /\
      el_release e0 = Some (rel_fn r) /\ el_context e0 = rel_context r) as Hold.
    { intros r Hr. destruct (own_releases _ _ Hw _ Hr) as (x & Hx & ?). exists x.
      rewrite lookup_insert_ne; [done|]. intros Heq. rewrite <- Heq, Ha in Hx.
      injection Hx. lia. }
    unfold releases_at. destruct (Z.eqb_spec n' 0) as [->|]; [|done].
    destruct (el_release e) as [f|] eqn:Ef; [|done].
    intros r [Hr| ->%list_elem_of_singleton]%elem_of_app; [by apply Hold|].
    exists e. cbn. by rewrite lookup_insert_eq.
Qed.

(** Cloning a reference that something holds. *)
Lemma owns_arc_clone l w h o a :
  owns l w -> w_boxes w !! h = Some o -> a ∈ object_arcs o ->
  exists w', arc_clone a w = Some (w', a) /\ owns (a :: l) w' /\ same_boxes w w'.
Proof.
  intros Hw Ho Ha. destruct (own_refs _ _ Hw _ _ _ Ho Ha) as [n Hn].
  destruct (own_arcs _ _ Hw _ _ _ Hn) as (_ & Hcount & _).
  assert (0 < total_refs (arc_at a) (w_boxes w)) by (apply total_refs_elem; eauto 10).
  pose proof (arc_refs_nonneg (arc_at a) l).
  unfold arc_clone. rewrite Hn. eexists. split; [reflexivity|]. split; [|done].
  replace (w_releases w) with (releases_at (arc_at a) (arc_element a) (n + 1) (w_releases w))
    by (unfold releases_at; rewrite (proj2 (Z.eqb_neq _ _)) by lia; done).
  eapply owns_recount; [done|done|lia| |].
  - intros b. cbn [arc_refs]. rewrite (Z.eqb_sym b). case_match; lia.
  - intros x [->|Hx]%elem_of_cons; [eauto|by apply (own_local _ _ Hw)].
Qed.

Lemma owns_drop_arcs l l' w :
  owns (l' ++ l) w -> exists w', drop_arcs l' w = Some (w', tt) /\ owns l w' /\ same_boxes w w'.
Proof.
  revert w. induction l' as [|a l' IH]; intros w Hw; [by exists w|].
  destruct (own_local _ _ Hw a) as [n Hn]; [left|].
  destruct (own_arcs _ _ Hw _ _ _ Hn) as (_ & Hcount & _). cbn [app arc_refs] in Hcount.
  rewrite Z.eqb_refl in Hcount. pose proof (total_refs_nonneg (arc_at a) (w_boxes w)).
  pose proof (arc_refs_nonneg (arc_at a) (l' ++ l)).
  cbn [drop_arcs]. unfold act_bind, arc_drop. rewrite Hn.
  fold (releases_at (arc_at a) (arc_element a) (n - 1) (w_releases w)).
  match goal with |- context [drop_arcs l' ?w1] => destruct (IH w1) as (w' & Hd & Ho & Hs) end.
  - eapply owns_recount; [exact Hw|done|lia| |].
    + intros b. cbn [app arc_refs]. rewrite (Z.eqb_sym b). case_match; lia.
    + intros x Hx. apply (own_local _ _ Hw). by right.
  - exists w'. by rewrite Hd.
Qed.

(** ** The contract of every call *)

(** Valid for reads of [n] bytes, or null. *)
Definition readable (w : World) (ptr n : Z) : Prop :=
  0 <= n <= ISIZE_MAX /\
  (n = 0 \/ ptr = null \/ exists b, read_bytes (w_mem w) ptr n = Some b /\ bytes_ok b).

(** Valid for writes of [n] bytes, or null. *)
Definition writable (w : World) (ptr n : Z) : Prop :=
  0 <= n <= ISIZE_MAX /\ (n = 0 \/ ptr = null \/ valid (w_mem w) ptr n).

(** The two buffers of a call, which do not alias. *)
Definition buffers_contract (w : World) (ip il op ol : Z) : Prop :=
  readable w ip il /\ writable w op ol /\ (ip = null \/ op = null \/ overlaps ip il op ol = false).

(** A live handle of type [T], or null. *)
Definition live (T : Type) `{Boxed T} (w : World) (h : Z) : Prop :=
  h = null \/ exists t : T, boxed w h = Some t.

(** A pointer to a handle, and one a handle may be written to. *)
Definition live_slot (T : Type) `{Boxed T} (w : World) (p : Z) : Prop :=
  p = null \/ exists h, w_slots w !! p = Some h /\ live T w h.

Definition free_slot (w : World) (p : Z) : Prop := p = null \/ is_Some (w_slots w !! p).

Definition contract (w : World) (c : Call) : Prop :=
  match c with
  | IdentityGenerate _ | HostWrites _ _ | HostStores _ _ => True
  | IdentityFromSecret secret => readable w secret DHLEN
  | IdentityFromKey public_key _ _ _ => readable w public_key DHLEN
  | IdentityPublic identity out => live fectp_identity w identity /\ writable w out DHLEN
  | IdentityFree identity => live fectp_identity w identity
  | InitiatorNew identity peer _ _ => live fectp_identity w identity /\ readable w peer DHLEN
  | InitiatorWriteInit i p pl o ol =>
      live (Initiator IdentityKey) w i /\ buffers_contract w p pl o ol
  | InitiatorReadResponse i f fl o ol s =>
      live_slot (Initiator IdentityKey) w i /\ free_slot w s /\ buffers_contract w f fl o ol
  | InitiatorFree i => live (Initiator IdentityKey) w i
  | ResponderNew identity _ => live fectp_identity w identity
  | ResponderReadInit r f fl o ol =>
      live (Responder IdentityKey) w r /\ buffers_contract w f fl o ol
  | ResponderWriteResponse r p pl o ol s =>
      live_slot (Responder IdentityKey) w r /\ free_slot w s /\ buffers_contract w p pl o ol
  | ResponderFree r => live (Responder IdentityKey) w r
  | SessionSeal s p pl o ol => live Session w s /\ buffers_contract w p pl o ol
  | SessionOpen s f fl o ol => live Session w s /\ buffers_contract w f fl o ol
  | SessionFree s => live Session w s
  end.

(** A length inside the output buffer, or a documented refusal: never
    [FECTP_ERR_PANIC], never [FECTP_ERR_TOO_LARGE]. *)
Definition length_or_refusal (out_len r : Z) : Prop :=
  0 <= r <= out_len \/
  r ∈ [FECTP_ERR_NULL; FECTP_ERR_BUFFER; FECTP_ERR_PROTOCOL; FECTP_ERR_KEY].

(** What a constructor returns: null when it [refuses] its arguments, and a
    live handle of its type in every other case. *)
Definition handle_unless (T : Type) `{Boxed T} (w : World) (refuses : bool) (r : Z) : Prop :=
  if refuses then r = null else r <> null /\ exists t : T, boxed w r = Some t.

(** What each call returns: the handle it makes, a code, or a length. The
    constructors refuse a null argument and nothing else; [IdentityGenerate]
    answers null when the operating system's generator failed, which is the one
    panic the library can meet. *)
Definition reply_ok (w : World) (c : Call) (r : Z) : Prop :=
  match c with
  | IdentityGenerate random => handle_unless fectp_identity w (negb (is_some random)) r
  | IdentityFromSecret secret => handle_unless fectp_identity w (secret =? null) r
  | IdentityFromKey public_key dh _ _ =>
      handle_unless fectp_identity w (negb (is_some dh) || (public_key =? null)) r
  | InitiatorNew identity peer _ _ =>
      handle_unless (Initiator IdentityKey) w ((identity =? null) || (peer =? null)) r
  | ResponderNew identity _ => handle_unless (Responder IdentityKey) w (identity =? null) r
  | IdentityPublic identity out =>
      r = if (identity =? null) || (out =? null) then FECTP_ERR_NULL else FECTP_OK
  | InitiatorWriteInit _ _ _ _ ol | InitiatorReadResponse _ _ _ _ ol _
  | ResponderReadInit _ _ _ _ ol | ResponderWriteResponse _ _ _ _ ol _
  | SessionSeal _ _ _ _ ol | SessionOpen _ _ _ _ ol => length_or_refusal ol r
  | IdentityFree _ | InitiatorFree _ | ResponderFree _ | SessionFree _ | HostWrites _ _ | HostStores _ _ =>
      r = FECTP_OK
  end.

(** What one call leaves of a well-formed world. *)
Definition fine (w : World) (c : Call) (res : option (World * Z)) : Prop :=
  exists w' r, res = Some (w', r) /\ owns [] w' /\ reply_ok w' c r.

Lemma input_ok w ptr n :
  readable w ptr n ->
  exists r, input ptr n w = Some (w, r) /\ forall b, r = Some b -> len b = n /\ bytes_ok b.
Proof.
  intros [Hn Hr]. unfold input. destruct (Z.eqb_spec n 0) as [->|].
  { eexists. split; [reflexivity|]. intros b [= <-]. by split; [rewrite len_nil|constructor]. }
  destruct (Z.eqb_spec ptr null) as [->|]; [by eexists|].
  destruct Hr as [|[|(b & Hb & Hok)]]; [done..|]. unfold act_bind, read_memory. rewrite Hb.
  eexists. split; [reflexivity|]. intros ? [= <-]. apply read_bytes_len in Hb. by split; [lia|].
Qed.

Lemma output_ok w ptr n :
  writable w ptr n ->
  exists r, output ptr n w = Some (w, r) /\ forall b, r = Some b -> len b = n.
Proof.
  intros [Hn Hr]. unfold output. destruct (Z.eqb_spec n 0) as [->|].
  { eexists. split; [reflexivity|]. intros b [= <-]. apply len_nil. }
  destruct (Z.eqb_spec ptr null) as [->|]; [by eexists|].
  destruct Hr as [|[|[b Hb]]]; [done..|]. unfold act_bind, read_memory. rewrite Hb.
  eexists. split; [reflexivity|]. intros ? [= <-]. apply read_bytes_len in Hb. lia.
Qed.

(** Borrowing an array fails on null and on nothing else. *)
Lemma input_null w ptr n w' r :
  n <> 0 -> input ptr n w = Some (w', r) -> (ptr =? null) = negb (is_some r).
Proof.
  unfold input. intros Hn. rewrite (proj2 (Z.eqb_neq n 0)) by done.
  destruct (ptr =? null); [by intros [= <- <-]|].
  unfold act_bind. destruct (read_memory ptr n w) as [[? ?]|]; [by intros [= <- <-]|done].
Qed.

Lemma output_null w ptr n w' r :
  n <> 0 -> output ptr n w = Some (w', r) -> (ptr =? null) = negb (is_some r).
Proof. exact (input_null w ptr n w' r). Qed.

Lemma buffers_ok w ip il op ol :
  buffers_contract w ip il op ol ->
  exists r, buffers ip il op ol w = Some (w, r) /\
    forall i o, r = Some (i, o) -> len i = il /\ bytes_ok i /\ len o = ol /\ ol <= ISIZE_MAX.
Proof.
  intros (Hi & Ho & Ha). pose proof (proj1 Ho).
  destruct (input_ok _ _ _ Hi) as (ri & Ei & Hri). destruct (output_ok _ _ _ Ho) as (ro & Eo & Hro).
  unfold buffers, act_bind. rewrite Ei, Eo.
  destruct ri as [i|]; [|by eexists]. destruct ro as [o|]; [|by eexists].
  assert (overlaps ip il op ol = false) as ->.
  { destruct Ha as [->|[->|]]; [| |done].
    - unfold input in Ei. unfold overlaps. destruct (Z.eqb_spec il 0) as [->|]; [done|].
      rewrite Z.eqb_refl in Ei. done.
    - unfold output in Eo. unfold overlaps. destruct (Z.eqb_spec ol 0) as [->|].
      + by rewrite Z.ltb_irrefl, andb_false_r.
      + rewrite Z.eqb_refl in Eo. done. }
  eexists. split; [reflexivity|]. intros ?? [= <- <-].
  destruct (Hri i eq_refl) as [? ?]. specialize (Hro o eq_refl). split_and!; done || lia.
Qed.

Lemma code_refusal ol e : length_or_refusal ol (code e).
Proof. right. destruct e; cbn [code]; set_solver. Qed.

Lemma length_in ol n : 0 <= n <= ol -> ol <= ISIZE_MAX -> length_or_refusal ol (length_code n).
Proof. intros Hn Hol. left. unfold length_code. by rewrite (proj2 (Z.leb_le _ _)) by lia. Qed.

Lemma null_refusal ol : length_or_refusal ol FECTP_ERR_NULL.
Proof. right. set_solver. Qed.

Lemma buffer_refusal ol : length_or_refusal ol FECTP_ERR_BUFFER.
Proof. right. set_solver. Qed.

Lemma fixed_ok b : len b = DHLEN -> fixed b = Ok b.
Proof.
  intros Hb. unfold fixed. rewrite copy_range_at by (rewrite ?len_zeros; clia).
  by rewrite dropz_all, app_nil_r by (rewrite len_zeros; clia).
Qed.
#[local] Hint Resolve code_refusal null_refusal buffer_refusal : fectp.

Section safety.
Context `{CL : CryptoLaws} `{Host}.

Lemma dh_never_panics (k : IdentityKey) p : sk_dh k p <> Panic.
Proof.
  destruct k as [kp|a]; cbn; [done|]. unfold Element.dh. destruct (host_dh _ _ _). by case_match.
Qed.

Lemma deliver_ok l w out buf left r ol :
  owns l w -> within buf r -> len buf = ol -> ol <= ISIZE_MAX ->
  exists w' x, deliver out buf left r w = Some (w', Ok x) /\ owns l w' /\
    w_boxes w' = w_boxes w /\ length_or_refusal ol x.
Proof.
  intros Hw [Hp Hr] Hb Hol. destruct r as [[b n]|e|]; [| |done].
  - destruct (Hr b n eq_refl) as [? ?]. do 2 eexists. split; [reflexivity|].
    split; [by apply owns_mem|]. split; [done|]. apply length_in; lia.
  - do 2 eexists. split; [reflexivity|]. split; [by apply owns_mem|]. auto with fectp.
Qed.

(** The session's handle is written exactly when the call succeeds. *)
Definition session_given (w w' : World) (session r : Z) : Prop :=
  (0 <= r -> exists h (s : Session), w_slots w' !! session = Some h /\ boxed w' h = Some s /\
     w_boxes w !! h = None) /\
  (r < 0 -> w_slots w' = w_slots w /\ w_boxes w' = w_boxes w).

Lemma code_negative e : code e < 0.
Proof. destruct e; cbn; clia. Qed.

Lemma establish_ok l w out buf left session r ol :
  owns l w -> establishes buf r -> len buf = ol -> ol <= ISIZE_MAX ->
  is_Some (w_slots w !! session) ->
  exists w' x, establish out buf left session r w = Some (w', Ok x) /\ owns l w' /\
    length_or_refusal ol x /\ session_given w w' session x /\
    (forall h, w_boxes w !! h = None -> h < w_next w -> w_boxes w' !! h = None) /\
    (forall p, p <> session -> w_slots w' !! p = w_slots w !! p).
Proof.
  intros Hw [Hp Hr] Hb Hol [v Hv]. destruct r as [[[s b] n]|e|]; [| |done].
  - destruct (Hr s b n eq_refl) as [? ?]. cbn [establish]. unfold act_bind at 1, write_memory at 1.
    cbn [length_code]. unfold act_bind at 1.
    destruct (owns_into_raw l (set_mem w (write_bytes (w_mem w) out b)) s)
      as (w1 & -> & Hw1 & Hbox & _ & Hs1 & _ & Hother); [by apply owns_mem|done|].
    cbn [set_mem w_next w_boxes w_slots] in *.
    unfold act_bind, write_slot. rewrite Hs1, Hv.
    do 2 eexists. split; [reflexivity|]. split; [by apply owns_slots|]. split; [apply length_in; lia|].
    split; [split|split].
    + intros _. exists (w_next w), s. cbn. rewrite lookup_insert_eq.
      by split_and!; [|exact Hbox|eapply fresh_handle].
    + unfold length_code. rewrite (proj2 (Z.leb_le _ _)) by lia. lia.
    + intros h Hh Hlt. cbn. rewrite Hother by lia. done.
    + intros p Hne. cbn. by rewrite lookup_insert_ne.
  - do 2 eexists. split; [reflexivity|]. split; [by apply owns_mem|]. split; [auto with fectp|].
    split; [|done]. split; [|done]. pose proof (code_negative e). lia.
Qed.

Lemma identity_key_ok l w h (i : fectp_identity) :
  owns l w -> boxed w h = Some i ->
  exists w' k, identity_key i w = Some (w', k) /\ owns (key_arcs k ++ l) w' /\ same_boxes w w' /\
    len (key_public k) = DHLEN.
Proof.
  intros Hw Hi. apply boxed_lookup in Hi. destruct (own_handles _ _ Hw _ _ Hi) as [_ [_ Hheld]].
  unfold identity_key. destruct (id_key i) as [secret|a] eqn:Ek.
  - do 2 eexists. split; [reflexivity|]. split; [done|]. split; [done|]. apply x25519_public_len.
  - destruct (owns_arc_clone l w h (to_object i) a) as (w' & Hc & Hw' & Hs);
      [done|done|cbn; rewrite Ek; by left|].
    unfold act_bind. rewrite Hc. do 2 eexists. split; [reflexivity|]. by split_and!.
Qed.

(** A call that ends by giving out a handle. *)
Lemma give_handle {T} `{Boxed T} w (t : T) c :
  owns (object_arcs (to_object t)) w -> object_ok (to_object t) ->
  (forall w' h, handle_unless T w' false h -> reply_ok w' c h) ->
  fine w c (guard_ptr (let* handle := into_raw t in act_ret (Ok handle)) w).
Proof.
  intros Hw Ht Hc.
  destruct (owns_into_raw [] w t) as (w' & Hi & Hw' & Hb & _ & _ & Hpos & _);
    [by rewrite app_nil_r|done|].
  unfold fine, guard_ptr, act_bind. rewrite Hi. do 2 eexists. split; [reflexivity|].
  split; [done|]. apply Hc. split; [unfold null; lia|eauto].
Qed.

Ltac returns := do 2 eexists; split; [reflexivity|]; split; [done|]; cbn; auto with fectp.

Lemma generate_fine w random :
  owns [] w -> fine w (IdentityGenerate random) (fectp_identity_generate random w).
Proof.
  intros Hw. destruct random as [secret|]; [|returns].
  apply give_handle; [done| |by intros w' h Hh; exact Hh]. split; [apply x25519_public_len|done].
Qed.

Lemma from_secret_fine w secret :
  owns [] w -> readable w secret DHLEN ->
  fine w (IdentityFromSecret secret) (fectp_identity_from_secret secret w).
Proof.
  intros Hw Hr. destruct (input_ok _ _ _ Hr) as (r & Hi & Hb).
  pose proof (input_null _ _ DHLEN _ _ ltac:(done) Hi) as Hnull.
  unfold fectp_identity_from_secret, guard_ptr, act_bind at 1 2. rewrite Hi.
  destruct r as [b|]; [|returns; by rewrite Hnull].
  destruct (Hb b eq_refl) as [Hl _]. rewrite fixed_ok by done.
  apply give_handle; [done| |intros w' h Hh; cbn; by rewrite Hnull]. split; [apply x25519_public_len|done].
Qed.

Lemma from_key_fine w public_key dh context release :
  owns [] w -> readable w public_key DHLEN ->
  fine w (IdentityFromKey public_key dh context release)
    (fectp_identity_from_key public_key dh context release w).
Proof.
  intros Hw Hr. destruct (input_ok _ _ _ Hr) as (r & Hi & Hb).
  pose proof (input_null _ _ DHLEN _ _ ltac:(done) Hi) as Hnull.
  unfold fectp_identity_from_key, guard_ptr. destruct dh as [dh|]; [|returns].
  unfold act_bind at 1 2. rewrite Hi.
  destruct r as [b|]; [|returns; by rewrite Hnull].
  destruct (Hb b eq_refl) as [Hl _]. rewrite fixed_ok by done.
  destruct (owns_arc_new [] w (mkElement dh context release b)) as (w1 & Ha & Hw1 & _); [done|].
  unfold act_bind at 1. rewrite Ha. apply give_handle; [done|done|intros w' h Hh; cbn; by rewrite Hnull].
Qed.

Lemma public_fine w identity out :
  owns [] w -> live fectp_identity w identity -> writable w out DHLEN ->
  fine w (IdentityPublic identity out) (fectp_identity_public identity out w).
Proof.
  intros Hw Hl Ho. unfold fectp_identity_public, guard.
  destruct (identity =? null) eqn:Hn; [returns; by rewrite Hn|].
  destruct Hl as [->|[i Hi]]; [done|]. unfold act_bind at 1 2. rewrite (deref_ok _ _ _ Hi).
  destruct (output_ok _ _ _ Ho) as (r & Hr & Hb). unfold act_bind at 1. rewrite Hr.
  pose proof (output_null _ _ DHLEN _ _ ltac:(done) Hr) as Hnull.
  destruct r as [buf|]; [|returns; by rewrite Hn, Hnull]. specialize (Hb buf eq_refl).
  apply boxed_lookup in Hi. destruct (own_handles _ _ Hw _ _ Hi) as [_ [Hp _]].
  destruct (copy_range_total (E:=Error) buf (id_public i) 0 (len buf)) as (b' & -> & _);
    [clia|lia|lia|].
  do 2 eexists. split; [reflexivity|]. split; [by apply owns_mem|]. cbn. by rewrite Hn, Hnull.
Qed.

(** Every [*_free] takes the box back and drops the references in it. *)
Lemma free_fine {T} `{Boxed T} w h c (arcs : T -> list Arc) :
  owns [] w -> live T w h -> (forall t, arcs t = object_arcs (to_object t)) ->
  (forall w' , reply_ok w' c FECTP_OK) ->
  fine w c ((if h =? null then act_ret FECTP_OK else
    guard (let* t := from_raw h in let* _ := drop_arcs (arcs t) in act_ret (Ok FECTP_OK))) w).
Proof.
  intros Hw Hl Ha Hc. destruct (Z.eqb_spec h null) as [|Hn].
  { do 2 eexists. split; [reflexivity|]. by split. }
  destruct Hl as [|[t Ht]]; [done|].
  destruct (owns_from_raw [] w h t Hw Ht) as (w1 & Hf & Hw1 & _).
  unfold guard, act_bind at 1 2. rewrite Hf. rewrite Ha.
  destruct (owns_drop_arcs [] (object_arcs (to_object t)) w1 Hw1) as (w2 & Hd & Hw2 & _).
  unfold act_bind. rewrite Hd. do 2 eexists. split; [reflexivity|]. by split.
Qed.

Lemma identity_free_fine w h :
  owns [] w -> live fectp_identity w h -> fine w (IdentityFree h) (fectp_identity_free h w).
Proof. intros. by apply (free_fine w h _ (fun i : fectp_identity => held_arcs (id_key i))). Qed.

Lemma initiator_free_fine w h :
  owns [] w -> live (Initiator IdentityKey) w h -> fine w (InitiatorFree h) (fectp_initiator_free h w).
Proof.
  intros. by apply (free_fine w h _ (fun i : Initiator IdentityKey => key_arcs (hs_s (i_hs i)))).
Qed.

Lemma responder_free_fine w h :
  owns [] w -> live (Responder IdentityKey) w h -> fine w (ResponderFree h) (fectp_responder_free h w).
Proof. intros. by apply (free_fine w h _ responder_arcs). Qed.

Lemma session_free_fine w h :
  owns [] w -> live Session w h -> fine w (SessionFree h) (fectp_session_free h w).
Proof. intros. by apply (free_fine w h _ (fun _ : Session => [])). Qed.

Lemma initiator_new_fine w identity peer sid size :
  owns [] w -> live fectp_identity w identity -> readable w peer DHLEN ->
  fine w (InitiatorNew identity peer sid size) (fectp_initiator_new identity peer sid size w).
Proof.
  intros Hw Hl Hr. unfold fectp_initiator_new, guard_ptr.
  destruct (identity =? null) eqn:Hn; [returns; by rewrite Hn|].
  destruct Hl as [->|[i Hi]]; [done|]. unfold act_bind at 1 2. rewrite (deref_ok _ _ _ Hi).
  destruct (input_ok _ _ _ Hr) as (r & Hin & Hb). unfold act_bind at 1. rewrite Hin.
  pose proof (input_null _ _ DHLEN _ _ ltac:(done) Hin) as Hnull.
  destruct r as [b|]; [|returns; by rewrite Hn, Hnull].
  destruct (Hb b eq_refl) as [Hlen _]. rewrite fixed_ok by done.
  destruct (identity_key_ok [] w identity i Hw Hi) as (w1 & k & Hk & Hw1 & _ & Hpub).
  unfold act_bind at 1. rewrite Hk. unfold Initiator.new.
  rewrite header_encode_ok by (rewrite len_zeros; clia).
  apply give_handle; [by rewrite app_nil_r in Hw1|done|intros w' h Hh; cbn; by rewrite Hn, Hnull].
Qed.

Lemma responder_new_fine w identity size :
  owns [] w -> live fectp_identity w identity ->
  fine w (ResponderNew identity size) (fectp_responder_new identity size w).
Proof.
  intros Hw Hl. unfold fectp_responder_new, guard_ptr.
  destruct (identity =? null) eqn:Hn; [returns; by rewrite Hn|].
  destruct Hl as [->|[i Hi]]; [done|]. unfold act_bind at 1 2. rewrite (deref_ok _ _ _ Hi).
  destruct (identity_key_ok [] w identity i Hw Hi) as (w1 & k & Hk & Hw1 & _ & Hpub).
  unfold act_bind at 1. rewrite Hk.
  apply give_handle; [done|cbn; auto|intros w' h Hh; cbn; by rewrite Hn].
Qed.

(** A call on a live handle that borrows two buffers, up to its core. *)
Lemma borrow_fine {T} `{Boxed T} w h ip il op ol c (body : T -> bytes -> bytes -> Act (Result Z)) :
  owns [] w -> live T w h -> buffers_contract w ip il op ol ->
  (forall w', reply_ok w' c FECTP_ERR_NULL) ->
  (forall t i o, boxed w h = Some t -> len i = il -> bytes_ok i -> len o = ol -> ol <= ISIZE_MAX ->
     fine w c (guard (body t i o) w)) ->
  fine w c (guard (
    if h =? null then act_ret (Ok FECTP_ERR_NULL) else
    let* t := deref h in
    let* b := buffers ip il op ol in
    match b with
    | None => act_ret (Ok FECTP_ERR_NULL)
    | Some (i, o) => body t i o
    end) w).
Proof.
  intros Hw Hl Hbuf Hnull Hbody. destruct (Z.eqb_spec h null) as [|Hn].
  { do 2 eexists. split; [reflexivity|]. by split. }
  destruct Hl as [|[t Ht]]; [done|]. destruct (buffers_ok _ _ _ _ _ Hbuf) as (r & Hr & Hio).
  destruct r as [[i o]|].
  - destruct (Hio i o eq_refl) as (? & ? & ? & ?). specialize (Hbody t i o).
    unfold guard, act_bind at 1 2 3. rewrite (deref_ok _ _ _ Ht), Hr. by apply Hbody.
  - unfold guard, act_bind at 1 2 3. rewrite (deref_ok _ _ _ Ht), Hr.
    do 2 eexists. split; [reflexivity|]. by split.
Qed.

(** The core of a call that replaces the object and delivers a buffer. *)
Lemma replace_fine {T} `{Boxed T} w h (t t' : T) arcs c out buf left r ol :
  owns [] w -> boxed w h = Some t -> object_ok (to_object t') ->
  (object_arcs (to_object t) = object_arcs (to_object t') ++ arcs) ->
  within buf r -> len buf = ol -> ol <= ISIZE_MAX ->
  (forall w' x, length_or_refusal ol x -> reply_ok w' c x) ->
  fine w c (guard (let* _ := assign h t' in let* _ := drop_arcs arcs in deliver out buf left r) w).
Proof.
  intros Hw Ht Hok Harcs Hwithin Hlen Hol Hc.
  destruct (owns_assign [] arcs w h t t') as (w1 & Ha & Hw1 & _); [done..| | |].
  - intros a. rewrite Harcs, arc_refs_app. cbn. lia.
  - intros x Hx. by rewrite app_nil_r, Harcs.
  - destruct (owns_drop_arcs [] arcs w1) as (w2 & Hd & Hw2 & _); [by rewrite app_nil_r|].
    destruct (deliver_ok [] w2 out buf left r ol) as (w3 & x & Hdel & Hw3 & _ & Hx); [done..|].
    unfold guard, act_bind. rewrite Ha, Hd, Hdel. do 2 eexists. split; [reflexivity|]. by auto.
Qed.

Lemma write_init_fine w random left h p pl o ol :
  owns [] w -> live (Initiator IdentityKey) w h -> buffers_contract w p pl o ol ->
  fine w (InitiatorWriteInit h p pl o ol) (fectp_initiator_write_init random left h p pl o ol w).
Proof.
  intros Hw Hl Hb.
  apply (borrow_fine (T := Initiator IdentityKey) w h p pl o ol _ (fun i payload buf =>
    let '(i, r) := Initiator.write_init i random payload buf in
    let* _ := assign h i in deliver o buf left r)); [done..|cbn; auto with fectp|].
  intros i payload buf Hi _ _ Hlen Hol. pose proof Hi as Hi'. apply boxed_lookup in Hi'.
  destruct (own_handles _ _ Hw _ _ Hi') as [_ Hpub]. cbn in Hpub.
  destruct (write_init_safe i random payload buf) as [Hwithin Hs];
    [by destruct (hs_s (i_hs i))|apply dh_never_panics|].
  destruct (Initiator.write_init i random payload buf) as [i' r]. cbn [fst snd] in *.
  apply (replace_fine w h i i' [] _ _ _ _ _ ol); cbn; rewrite ?Hs, ?app_nil_r; done.
Qed.

Lemma seal_fine w left h p pl o ol :
  owns [] w -> live Session w h -> buffers_contract w p pl o ol ->
  fine w (SessionSeal h p pl o ol) (fectp_session_seal left h p pl o ol w).
Proof.
  intros Hw Hl Hb.
  apply (borrow_fine (T := Session) w h p pl o ol _ (fun s payload buf =>
    let '(s, r) := Session.seal s payload 0 buf in
    let* _ := assign h s in deliver o buf left r)); [done..|cbn; auto with fectp|].
  intros s payload buf Hs _ _ Hlen Hol.
  pose proof (seal_within s Data payload 0 buf) as Hwithin. unfold Session.seal.
  destruct (Session.seal_frame s Data payload None None 0 buf) as [s' r]. cbn [snd] in Hwithin.
  by apply (replace_fine w h s s' [] _ _ _ _ _ ol).
Qed.

Lemma read_init_fine w left h f fl o ol :
  owns [] w -> live (Responder IdentityKey) w h -> buffers_contract w f fl o ol ->
  fine w (ResponderReadInit h f fl o ol) (fectp_responder_read_init left h f fl o ol w).
Proof.
  intros Hw Hl Hb.
  apply (borrow_fine (T := Responder IdentityKey) w h f fl o ol _ (fun r frame buf =>
    let '(r', res) := Responder.read_init r frame buf in
    let* _ := assign h r' in
    let* _ := drop_arcs (dropz (len (responder_arcs r')) (responder_arcs r)) in
    deliver o buf left res)); [done..|cbn; auto with fectp|].
  intros r frame buf Hr _ _ Hlen Hol. pose proof Hr as Hr'. apply boxed_lookup in Hr'.
  destruct (own_handles _ _ Hw _ _ Hr') as [_ Hok]. cbn in Hok.
  pose proof (read_init_safe r frame buf (fun k _ => dh_never_panics k)) as Hs.
  destruct (Responder.read_init r frame buf) as [r' res]. destruct Hs as [Hwithin Hkeys].
  apply (replace_fine w h r r' _ _ _ _ _ _ ol); try done.
  - cbn. destruct Hkeys as [->|(k & Hk & -> & _)]; auto.
  - cbn. unfold responder_arcs. destruct Hkeys as [->|(k & Hk & Hn & Hh)].
    { by rewrite dropz_all, app_nil_r by lia. }
    rewrite Hk, Hn. destruct Hok as [|Hnone]; [congruence|]. rewrite Hnone, app_nil_r.
    destruct Hh as [->|(hs & -> & <-)]; [rewrite Hnone; cbn [app]; by rewrite dropz_0 by (rewrite len_nil; lia)|].
    cbn [app]. by rewrite dropz_all, app_nil_r by lia.
Qed.

Lemma open_fine w h f fl o ol :
  owns [] w -> live Session w h -> buffers_contract w f fl o ol ->
  fine w (SessionOpen h f fl o ol) (fectp_session_open h f fl o ol w).
Proof.
  intros Hw Hl Hb. eapply (borrow_fine (T := Session) w h f fl o ol); [done..|cbn; auto with fectp|].
  intros s frame buf Hs _ Hbytes Hlen Hol.
  pose proof (open_cases s frame Hbytes) as Hc. pose proof (open_within s frame) as Ho.
  destruct (Session.open s frame) as [s' r].
  destruct (owns_assign [] [] w h s s') as (w1 & Ha & Hw1 & _); [done..|].
  unfold guard, act_bind at 1 2. rewrite Ha.
  destruct r as [[opened scratch]|e|]; [|returns|done].
  destruct (Ho s' opened scratch Hbytes eq_refl) as [Hh Hn].
  unfold slice_from. rewrite slice_ok by clia. rewrite slice_ok by len_lia.
  set (plaintext := takez _ _).
  destruct (Z.ltb_spec (len buf) (len plaintext)); [returns|].
  pose proof (len_nonneg plaintext).
  destruct (copy_range_total (E:=Error) buf plaintext 0 (len plaintext)) as (b' & -> & _); [lia..|].
  do 2 eexists. split; [reflexivity|]. split; [by apply owns_mem|]. apply length_in; lia.
Qed.

(** A call that consumes the handle in a slot and may establish a session. *)
Definition consuming {T} `{Boxed T} (slot ip il op ol session : Z) (left : bytes)
    (arcs : T -> list Arc) (core : T -> bytes -> bytes -> Result (Session * bytes * Z)) : Act Z :=
  guard (
    if (slot =? null) || (session =? null) then act_ret (Ok FECTP_ERR_NULL) else
    let* h := read_slot slot in
    if h =? null then act_ret (Ok FECTP_ERR_NULL) else
    let* owned := from_raw h in
    let* _ := write_slot slot null in
    let* b := buffers ip il op ol in
    let* r :=
      match b with
      | None => act_ret (Ok FECTP_ERR_NULL)
      | Some (i, o) => establish op o left session (core owned i o)
      end in
    let* _ := drop_arcs (arcs owned) in
    act_ret r).

(** What such a call does when it finds a live handle: the handle is gone and
    its variable null whatever the outcome, and a session handle is stored
    exactly when the call succeeds. *)
Definition consumed (w w' : World) (slot h session r : Z) : Prop :=
  w_boxes w' !! h = None /\ (slot <> session -> w_slots w' !! slot = Some null) /\
  (0 <= r -> exists hs (s : Session), w_slots w' !! session = Some hs /\ boxed w' hs = Some s) /\
  (r < 0 -> w_boxes w' = delete h (w_boxes w) /\ w_slots w' = <[slot := null]> (w_slots w)).

Section consuming.
Context {T : Type} `{Boxed T} (arcs : T -> list Arc).
Context (core : T -> bytes -> bytes -> Result (Session * bytes * Z)).
Context (Harcs : forall t, arcs t = object_arcs (to_object t)).
Context (Hcore : forall t i o, object_ok (to_object t) -> establishes o (core t i o)).

Lemma consuming_live w slot h (t : T) ip il op ol session left :
  owns [] w -> slot <> null -> session <> null -> h <> null ->
  w_slots w !! slot = Some h -> boxed w h = Some t -> is_Some (w_slots w !! session) ->
  buffers_contract w ip il op ol ->
  exists w' r, consuming slot ip il op ol session left arcs core w = Some (w', r) /\
    owns [] w' /\ length_or_refusal ol r /\ consumed w w' slot h session r.
Proof.
  intros Hw Hs Hse Hn Hh Ht [v Hv] Hbuf. unfold consuming, guard.
  rewrite (proj2 (Z.eqb_neq slot null)), (proj2 (Z.eqb_neq session null)) by done. cbn [orb].
  unfold act_bind at 1 2, read_slot. rewrite Hh, (proj2 (Z.eqb_neq h null)) by done.
  destruct (owns_from_raw [] w h t Hw Ht) as (w1 & Hf & Hw1 & Hok & Hbx & Hmem & Hslots & Hnext).
  unfold act_bind at 1. rewrite Hf. unfold act_bind at 1, write_slot at 1. rewrite Hslots, Hh.
  set (w2 := set_slots w1 _). assert (owns (arcs t) w2) as Hw2.
  { apply owns_slots. by rewrite Harcs, <- (app_nil_r (object_arcs _)). }
  assert (is_Some (w_slots w2 !! session)) as Hsession.
  { cbn. destruct (decide (slot = session)) as [->|]; [by rewrite lookup_insert_eq|].
    rewrite lookup_insert_ne by done. eauto. }
  destruct (buffers_ok w2 ip il op ol) as (r & Hr & Hio).
  { unfold buffers_contract, readable, writable in *. cbn [w2 set_slots w_mem]. by rewrite Hmem. }
  unfold act_bind at 1. rewrite Hr.
  assert (exists w3 x,
    match r with
    | None => act_ret (Ok FECTP_ERR_NULL)
    | Some (i, o) => establish op o left session (core t i o)
    end w2 = Some (w3, Ok x) /\ owns (arcs t) w3 /\ length_or_refusal ol x /\
    session_given w2 w3 session x /\
    (forall h, w_boxes w2 !! h = None -> h < w_next w2 -> w_boxes w3 !! h = None) /\
    (forall p, p <> session -> w_slots w3 !! p = w_slots w2 !! p))
    as (w3 & x & E & Hw3 & Hx & [Hgiven Hkept] & Hgone & Hother).
  { destruct r as [[i o]|].
    - destruct (Hio i o eq_refl) as (_ & _ & Hlen & Hol). by apply establish_ok; auto.
    - do 2 eexists. split; [reflexivity|]. split; [done|]. split; [auto with fectp|].
      split; [|done]. split; [clia|done]. }
  unfold act_bind at 1. rewrite E.
  destruct (owns_drop_arcs [] (arcs t) w3) as (w4 & Hd & Hw4 & Hb4 & _ & _ & Hs4);
    [by rewrite app_nil_r|].
  unfold act_bind. rewrite Hd. do 2 eexists. split; [reflexivity|]. split; [done|]. split; [done|].
  apply boxed_lookup in Ht. destruct (own_handles _ _ Hw _ _ Ht) as [Hlt _].
  split; [|split; [|split]].
  - rewrite Hb4. apply Hgone; cbn; [by rewrite Hbx, lookup_delete_eq|lia].
  - intros Hne. rewrite Hs4, Hother by done. cbn. apply lookup_insert_eq.
  - intros Hpos. destruct (Hgiven Hpos) as (hs & s & ? & Hbs & _). exists hs, s.
    rewrite Hs4. split; [done|]. unfold boxed in *. by rewrite Hb4.
  - intros Hneg. destruct (Hkept Hneg) as [Hk1 Hk2].
    rewrite Hb4, Hs4, Hk1, Hk2. cbn. by rewrite Hbx.
Qed.

Lemma consume_fine w c slot ip il op ol session left :
  owns [] w -> live_slot T w slot -> free_slot w session -> buffers_contract w ip il op ol ->
  (forall w' x, length_or_refusal ol x -> reply_ok w' c x) ->
  fine w c (consuming slot ip il op ol session left arcs core w).
Proof.
  intros Hw Hslot Hfree Hbuf Hc.
  assert (forall w', reply_ok w' c FECTP_ERR_NULL) as Hnull by (intros; apply Hc; auto with fectp).
  destruct (decide (slot = null)) as [->|Hs]; [do 2 eexists; by split|].
  destruct (decide (session = null)) as [->|Hse].
  { unfold consuming. rewrite Z.eqb_refl, orb_true_r. do 2 eexists. by split. }
  destruct Hslot as [|(h & Hh & Hl)]; [done|]. destruct Hfree as [|Hv]; [done|].
  destruct (decide (h = null)) as [->|Hn].
  - unfold consuming. rewrite (proj2 (Z.eqb_neq slot null)), (proj2 (Z.eqb_neq session null)) by done.
    unfold guard, act_bind, read_slot. cbn [orb]. rewrite Hh. do 2 eexists. by split.
  - destruct Hl as [|[t Ht]]; [done|].
    destruct (consuming_live w slot h t ip il op ol session left) as (w' & r & E & ? & ? & _); try done.
    exists w', r. by auto.
Qed.
End consuming.

Lemma read_response_fine w left slot f fl o ol session :
  owns [] w -> live_slot (Initiator IdentityKey) w slot -> free_slot w session ->
  buffers_contract w f fl o ol ->
  fine w (InitiatorReadResponse slot f fl o ol session)
    (fectp_initiator_read_response left slot f fl o ol session w).
Proof.
  intros. apply (consume_fine
    (fun i : Initiator IdentityKey => key_arcs (hs_s (i_hs i))) Initiator.read_response); try done.
  intros i frame buf _. apply read_response_safe, dh_never_panics.
Qed.

Lemma write_response_fine w random left slot p pl o ol session :
  owns [] w -> live_slot (Responder IdentityKey) w slot -> free_slot w session ->
  buffers_contract w p pl o ol ->
  fine w (ResponderWriteResponse slot p pl o ol session)
    (fectp_responder_write_response random left slot p pl o ol session w).
Proof.
  intros. apply (consume_fine responder_arcs
    (fun r payload buf => Responder.write_response r random payload buf)); try done.
  intros r payload buf _. apply write_response_safe.
Qed.
End safety.

Lemma exec_fine `{CL : CryptoLaws} env c w :
  owns [] w -> contract w c -> fine w c (exec env c w).
Proof.
  intros Hw. destruct c; cbn [contract exec]; intros Hc; destruct_and?;
    eauto using generate_fine, from_secret_fine, from_key_fine, public_fine, identity_free_fine,
      initiator_new_fine, write_init_fine, read_response_fine, initiator_free_fine,
      responder_new_fine, read_init_fine, write_response_fine, responder_free_fine, seal_fine,
      open_fine, session_free_fine.
  - do 2 eexists. split; [reflexivity|]. split; [by apply owns_host|done].
  - do 2 eexists. split; [reflexivity|]. split; [by apply owns_slots|done].
Qed.

(** ** What becomes of a handle

    A responder that has given its key away and can do nothing more. *)
Definition spent (o : Object) : bool :=
  match o with
  | BoxResponder r => negb (is_some (r_static_key r)) && negb (is_some (r_hs r))
  | _ => false
  end.

(** An object keeps the references it was made with, or is a spent responder. *)
Definition kept (o o' : Object) : Prop :=
  (spent o = true -> spent o' = true) /\ (object_arcs o' = object_arcs o \/ spent o' = true).

(** From one world to a later one: handles are not used twice, so whatever a
    handle of the first world names in the second is what it named there. *)
Definition evolves (w w' : World) : Prop :=
  w_next w <= w_next w' /\
  forall h o', h < w_next w -> w_boxes w' !! h = Some o' ->
    exists o, w_boxes w !! h = Some o /\ kept o o'.

Lemma kept_refl o : kept o o.
Proof. split; [done|by left]. Qed.

Lemma evolves_boxes w w' : w_boxes w' = w_boxes w -> w_next w <= w_next w' -> evolves w w'.
Proof. intros Hb Hn. split; [done|]. rewrite Hb. eauto using kept_refl. Qed.

#[export] Instance evolves_preorder : PreOrder evolves.
Proof.
  split.
  - intros w. by apply evolves_boxes.
  - intros w1 w2 w3 [Hn12 H12] [Hn23 H23]. split; [lia|]. intros h o3 Hh Ho3.
    destruct (H23 h o3 ltac:(lia) Ho3) as (o2 & Ho2 & Hs3 & Hk3).
    destruct (H12 h o2 Hh Ho2) as (o1 & Ho1 & Hs2 & Hk2). exists o1. split; [done|].
    split; [auto|]. destruct Hk3 as [->|]; [|by right]. destruct Hk2; [by left|right; auto].
Qed.

(** A computation that, from [w], only lets handles evolve. *)
Definition steady {A} (m : Act A) (w : World) : Prop := forall w' a, m w = Some (w', a) -> evolves w w'.

Lemma steady_ret {A} (a : A) w : steady (act_ret a) w.
Proof. by intros w' a' [= <- <-]. Qed.

Lemma steady_bind {A B} (m : Act A) (k : A -> Act B) w :
  steady m w -> (forall a w', m w = Some (w', a) -> steady (k a) w') -> steady (act_bind m k) w.
Proof.
  intros Hm Hk w' b. unfold act_bind. destruct (m w) as [[w1 a]|] eqn:E; [|done].
  intros Hb. transitivity w1; [by eapply Hm|]. by eapply Hk.
Qed.

Lemma steady_undefined {A} w : steady (undefined (A := A)) w.
Proof. by intros w' a. Qed.

Lemma steady_read_memory ptr n w : steady (read_memory ptr n) w.
Proof. intros w' a. unfold read_memory. destruct read_bytes; [by intros [= <- <-]|done]. Qed.

Lemma steady_write_memory ptr b w : steady (write_memory ptr b) w.
Proof. intros w' a [= <- <-]. by apply evolves_boxes. Qed.

Lemma steady_read_slot p w : steady (read_slot p) w.
Proof. intros w' a. unfold read_slot. destruct (_ !! p); [by intros [= <- <-]|done]. Qed.

Lemma steady_write_slot p v w : steady (write_slot p v) w.
Proof.
  intros w' a. unfold write_slot. destruct (_ !! p); [intros [= <- <-]|done]. by apply evolves_boxes.
Qed.

Lemma steady_arc_new e w : steady (arc_new e) w.
Proof. intros w' a [= <- <-]. apply evolves_boxes; cbn; [done|lia]. Qed.

Lemma steady_arc_clone a w : steady (arc_clone a) w.
Proof.
  intros w' b. unfold arc_clone. destruct (_ !! _) as [[]|]; [intros [= <- <-]|done].
  by apply evolves_boxes.
Qed.

Lemma steady_drop_arcs l w : steady (drop_arcs l) w.
Proof.
  revert w. induction l as [|a l IH]; intros w; [apply steady_ret|]. apply steady_bind; [|auto].
  intros w' b. unfold arc_drop. destruct (_ !! _) as [[]|]; [intros [= <- <-]|done].
  by apply evolves_boxes.
Qed.

Section handles.
Context {T : Type} `{Boxed T}.

Lemma steady_into_raw (t : T) w : steady (into_raw t) w.
Proof.
  intros w' a [= <- <-]. split; cbn; [lia|]. intros h o' Hh.
  rewrite lookup_insert_ne by lia. eauto using kept_refl.
Qed.

Lemma steady_deref h w : steady (deref (T := T) h) w.
Proof. intros w' a. unfold deref. destruct (boxed w h); [by intros [= <- <-]|done]. Qed.

Lemma steady_from_raw h w : steady (from_raw (T := T) h) w.
Proof.
  intros w' a. unfold from_raw. destruct (boxed w h); [intros [= <- <-]|done].
  split; cbn; [lia|]. intros h' o' _ [_ Ho]%lookup_delete_Some. eauto using kept_refl.
Qed.

Lemma steady_assign h (t t' : T) w :
  boxed w h = Some t -> kept (to_object t) (to_object t') -> steady (assign h t') w.
Proof.
  intros Hb%boxed_lookup Hk w' a [= <- <-]. split; cbn; [lia|].
  intros h' o' _ [[<- <-]|[? Ho]]%lookup_insert_Some; eauto using kept_refl.
Qed.
End handles.

Lemma buffers_same ip il op ol w w' r : buffers ip il op ol w = Some (w', r) -> w' = w.
Proof.
  unfold buffers, input, output, act_bind, read_memory, act_ret, undefined.
  repeat case_match; intros; simplify_eq; done.
Qed.

#[local] Hint Resolve steady_ret steady_undefined steady_read_memory steady_write_memory
  steady_read_slot steady_write_slot steady_arc_new steady_arc_clone steady_drop_arcs
  steady_into_raw steady_deref steady_from_raw : steady.

(** Walks a computation down to its primitives. *)
Ltac steady :=
  repeat first
    [ done
    | solve [auto with steady]
    | apply steady_bind; [|intros ? ? _]
    | progress case_match ].

Section evolution.
Context `{CL : CryptoLaws} `{Host}.

Lemma steady_input ptr n w : steady (input ptr n) w.
Proof. unfold input. steady. Qed.

Lemma steady_buffers ip il op ol w : steady (buffers ip il op ol) w.
Proof. intros w' r E. by apply buffers_same in E as ->. Qed.

Lemma steady_deliver out buf left r w : steady (deliver out buf left r) w.
Proof. unfold deliver. steady. Qed.

Lemma steady_establish out buf left session r w : steady (establish out buf left session r) w.
Proof. unfold establish. steady; apply steady_deliver. Qed.

Lemma steady_identity_key i w : steady (identity_key i) w.
Proof. unfold identity_key. steady. Qed.

(** A call that borrows a live object and two buffers. *)
Lemma steady_borrow {T} `{Boxed T} w h ip il op ol (body : T -> bytes -> bytes -> Act (Result Z)) :
  (forall t i o, boxed w h = Some t -> steady (body t i o) w) ->
  steady (guard (
    if h =? null then act_ret (Ok FECTP_ERR_NULL) else
    let* t := deref h in
    let* b := buffers ip il op ol in
    match b with
    | None => act_ret (Ok FECTP_ERR_NULL)
    | Some (i, o) => body t i o
    end)) w.
Proof.
  intros Hbody. unfold guard. apply steady_bind; [|steady].
  destruct (h =? null); [apply steady_ret|]. apply steady_bind; [apply steady_deref|].
  intros t w1 Ht. unfold deref in Ht. destruct (boxed w h) as [t'|] eqn:Hb; [|done].
  injection Ht as <- <-. apply steady_bind; [apply steady_buffers|].
  intros r w1 ->%buffers_same. destruct r as [[i o]|]; [by apply Hbody|apply steady_ret].
Qed.

Lemma steady_replace {T} `{Boxed T} w h (t t' : T) arcs out buf left r :
  boxed w h = Some t -> kept (to_object t) (to_object t') ->
  steady (let* _ := assign h t' in let* _ := drop_arcs arcs in deliver out buf left r) w.
Proof.
  intros Hb Hk. apply steady_bind; [by eapply steady_assign|]. intros _ w1 _.
  apply steady_bind; [apply steady_drop_arcs|]. intros _ w2 _. apply steady_deliver.
Qed.
End evolution.

#[local] Hint Resolve steady_input steady_buffers steady_deliver steady_establish steady_identity_key
  : steady.

Lemma read_init_kept `{CL : CryptoLaws} `{Host} (r : Responder IdentityKey) frame buf :
  object_ok (BoxResponder r) ->
  kept (BoxResponder r) (BoxResponder (Responder.read_init r frame buf).1).
Proof.
  intros Hok. pose proof (read_init_safe r frame buf (fun k _ => dh_never_panics k)) as Hs.
  destruct (Responder.read_init r frame buf) as [r' res]. destruct Hs as [_ Hkeys]. cbn [fst].
  destruct Hkeys as [->|(k & Hk & Hn & Hh)]; [apply kept_refl|].
  destruct Hok as [|Hnone]; [congruence|].
  split; [cbn; by rewrite Hk|]. cbn. unfold responder_arcs. rewrite Hk, Hn, Hnone.
  destruct Hh as [->|(hs & -> & <-)]; [right; by rewrite Hnone|left; by rewrite app_nil_r].
Qed.

Lemma exec_evolves `{CL : CryptoLaws} env c w : owns [] w -> steady (exec env c) w.
Proof.
  intros Hw. destruct c; cbn [exec].
  - unfold fectp_identity_generate, guard_ptr. steady.
  - unfold fectp_identity_from_secret, guard_ptr. steady.
  - unfold fectp_identity_from_key, guard_ptr. steady.
  - unfold fectp_identity_public, guard. change output with input. steady.
  - unfold fectp_identity_free, guard. steady.
  - unfold fectp_initiator_new, guard_ptr. steady.
  - apply (steady_borrow (T := Initiator IdentityKey) w initiator payload payload_len out out_len
      (fun i payload buf => let '(i, r) := Initiator.write_init i (env_random env) payload buf in
         let* _ := assign initiator i in deliver out buf (env_left env) r)).
    intros i p buf Hi. pose proof Hi as Hi'%boxed_lookup.
    destruct (own_handles _ _ Hw _ _ Hi') as [_ Hpub]. cbn in Hpub.
    destruct (write_init_safe (H := IdentityKey_StaticKey (H0 := env_host env)) i (env_random env) p buf)
      as [_ Hs]; [by destruct (hs_s (i_hs i))|apply dh_never_panics|].
    destruct (Initiator.write_init i (env_random env) p buf) as [i' r]. cbn [fst] in Hs.
    apply (steady_replace w initiator i i' []); [done|]. split; [done|]. left. cbn. by rewrite Hs.
  - unfold fectp_initiator_read_response, guard. steady.
  - unfold fectp_initiator_free, guard. steady.
  - unfold fectp_responder_new, guard_ptr. steady.
  - apply (steady_borrow (T := Responder IdentityKey) w responder frame frame_len out out_len
      (fun r f buf => let '(r', res) := Responder.read_init r f buf in
         let* _ := assign responder r' in
         let* _ := drop_arcs (dropz (len (responder_arcs r')) (responder_arcs r)) in
         deliver out buf (env_left env) res)).
    intros r f buf Hr. pose proof Hr as Hr'%boxed_lookup.
    destruct (own_handles _ _ Hw _ _ Hr') as [_ Hok].
    pose proof (read_init_kept (H := env_host env) r f buf Hok) as Hk.
    destruct (Responder.read_init r f buf) as [r' res]. by apply (steady_replace w responder r r').
  - unfold fectp_responder_write_response, guard. steady.
  - unfold fectp_responder_free, guard. steady.
  - apply (steady_borrow (T := Session) w session payload payload_len out out_len
      (fun s p buf => let '(s, r) := Session.seal s p 0 buf in
         let* _ := assign session s in deliver out buf (env_left env) r)).
    intros s p buf Hs. destruct (Session.seal s p 0 buf) as [s' r].
    apply (steady_replace w session s s' []); [done|]. split; [done|by left].
  - eapply (steady_borrow (T := Session) w session frame frame_len out out_len).
    intros s f buf Hs. destruct (Session.open s f) as [s' r]. apply steady_bind.
    + apply (steady_assign session s); [done|]. split; [done|by left].
    + intros _ w1 _. steady.
  - unfold fectp_session_free, guard. steady.
  - intros w' a [= <- <-]. by apply evolves_boxes.
  - intros w' a [= <- <-]. by apply evolves_boxes.
Qed.

(** ** The worlds a host can reach

    Any sequence of calls that keep the contract, in any surroundings, with the
    host's own writes in between. *)
Inductive reachable `{Crypto} : World -> Prop :=
| reach_start mem slots : reachable (world0 mem slots)
| reach_call env c w w' r :
    reachable w -> contract w c -> exec env c w = Some (w', r) -> reachable w'.

Lemma reachable_owns `{CL : CryptoLaws} w : reachable w -> owns [] w.
Proof.
  induction 1 as [|env c w w' r _ IH Hc E]; [apply owns_world0|].
  destruct (exec_fine env c w IH Hc) as (w1 & r1 & E1 & Ho & _). rewrite E in E1. by simplify_eq.
Qed.

(** The worlds a host can go on to from another, by further such calls. *)
Inductive leads `{Crypto} (w0 : World) : World -> Prop :=
| leads_here : leads w0 w0
| leads_call env c w w' r : leads w0 w -> contract w c -> exec env c w = Some (w', r) -> leads w0 w'.

Lemma leads_evolves `{CL : CryptoLaws} w0 w : reachable w0 -> leads w0 w -> reachable w /\ evolves w0 w.
Proof.
  intros Hr. induction 1 as [|env c w w' r _ [Hw He] Hc E]; [done|].
  split; [by eapply reach_call|]. transitivity w; [done|].
  by eapply (exec_evolves env c w (reachable_owns w Hw)).
Qed.

(** Some live handle can still use the host's key. *)
Definition held_by_handle (w : World) (a : Z) : Prop :=
  exists h o x, w_boxes w !! h = Some o /\ x ∈ object_arcs o /\ arc_at x = a.

(** The calls that consume a handle: its variable and the session's. *)
Definition consumes (c : Call) : option (Z * Z) :=
  match c with
  | InitiatorReadResponse i _ _ _ _ s => Some (i, s)
  | ResponderWriteResponse r _ _ _ _ s => Some (r, s)
  | _ => None
  end.

(** The world after a call, where it is defined. *)
Definition next_world `{Crypto} (env : Env) (c : Call) (w : World) : World :=
  match exec env c w with Some (w', _) => w' | None => w end.

Lemma reach_next `{Crypto} env c w :
  reachable w -> contract w c -> reachable (next_world env c w).
Proof.
  intros Hw Hc. unfold next_world. destruct (exec env c w) as [[w' r]|] eqn:E; [|done].
  by eapply reach_call.
Qed.

(** A null handle in the variable of a consuming call. *)
Lemma consuming_null {T} `{Boxed T} w slot ip il op ol session left (arcs : T -> list Arc) core :
  slot <> null -> session <> null -> w_slots w !! slot = Some null ->
  consuming slot ip il op ol session left arcs core w = Some (w, FECTP_ERR_NULL).
Proof.
  intros Hs Hse Hn. unfold consuming.
  rewrite (proj2 (Z.eqb_neq slot null)), (proj2 (Z.eqb_neq session null)) by done.
  unfold guard, act_bind, read_slot. cbn [orb]. by rewrite Hn.
Qed.

(** ** Properties *)
#[local] Existing Instances Toy.crypto Toy.laws.

(** A host's memory, key function and surroundings for the witnesses. *)
Definition toy_host : Host := fun _ context peer => (0, Toy.dh [context] peer).
Definition toy_env : Env := mkEnv toy_host [42; 7] [9].
Definition toy_mem : Memory := write_bytes ∅ 1000 (replicate 600 5).
Definition toy_world : World := world0 toy_mem (<[8 := 0]> (<[9 := 0]> ∅)).

(** C7: a host that keeps the contract is safe. In every world reached by
    calls within their "Safety" sections, whatever bytes arrive and whatever
    the host's key answers, the next such call is defined, leaves another such
    world, and returns what its signature says. A constructor returns a live
    handle of its own type unless an argument it needs is null (or, generating
    a key, the operating system's generator failed: its panic is the only one
    the boundary ever has to catch); the other calls return a length inside
    the output buffer, or the code of a null argument, a short buffer, a
    protocol error or a key that could not be used, never [FECTP_ERR_PANIC]
    and never [FECTP_ERR_TOO_LARGE]. *)
Theorem ffi_type_safe `{CL : CryptoLaws} w env c :
  reachable w -> contract w c ->
  exists w' r, exec env c w = Some (w', r) /\ reachable w' /\ reply_ok w' c r.
Proof.
  intros Hw Hc. destruct (exec_fine env c w (reachable_owns w Hw) Hc) as (w' & r & E & _ & Hr).
  exists w', r. split; [done|]. split; [by eapply reach_call|done].
Qed.

Lemma ffi_type_safe_witness :
  exists w' r, exec toy_env (IdentityFromSecret 1000) toy_world = Some (w', r) /\ reachable w' /\
    r <> null /\ exists i : fectp_identity, boxed w' r = Some i.
Proof.
  destruct (ffi_type_safe toy_world toy_env (IdentityFromSecret 1000)) as (w' & r & H1 & H2 & H3);
    [apply reach_start| |exists w', r; split; [exact H1|]; split; [exact H2|exact H3]].
  split; [vm_compute; intuition discriminate|]. right. right.
  exists (replicate 32 5). split; [vm_compute; reflexivity|]. repeat constructor; lia.
Defined.

(** C18: a host's key is released exactly once, and not before the handles
    made with it are gone. In every reachable world a registered key's
    [release] has been called once if no live handle holds the key any more and
    not at all while one does, with the context it was registered with; a host
    without a release function is never called. Once it has been called, every
    handle that held the key in an earlier world, the identity and each
    initiator and responder begun from it, has been consumed or freed, save a
    responder whose [fectp_responder_read_init] failed after it had taken the
    key out: that handle may still be live, but it is spent and has no key to
    use. The header's contract does not mention that one exception
    ([release_while_responder_lives] below runs it). *)
Theorem release_exactly_once `{CL : CryptoLaws} w a e n :
  reachable w -> w_arcs w !! a = Some (e, n) ->
  (held_by_handle w a -> releases_of a (w_releases w) = 0) /\
  (~ held_by_handle w a ->
     releases_of a (w_releases w) = if is_some (el_release e) then 1 else 0) /\
  (forall r, r ∈ w_releases w -> rel_arc r = a ->
     el_release e = Some (rel_fn r) /\ el_context e = rel_context r) /\
  (0 < releases_of a (w_releases w) ->
   forall w0 h o x, reachable w0 -> leads w0 w -> w_boxes w0 !! h = Some o ->
     x ∈ object_arcs o -> arc_at x = a ->
     w_boxes w !! h = None \/ exists o', w_boxes w !! h = Some o' /\ spent o' = true).
Proof.
  intros Hreach Ha. pose proof (reachable_owns w Hreach) as Hw.
  destruct (own_arcs _ _ Hw _ _ _ Ha) as (_ & Hn & Hr).
  cbn [arc_refs] in Hn. pose proof (total_refs_nonneg a (w_boxes w)).
  assert (held_by_handle w a -> releases_of a (w_releases w) = 0) as Hheld.
  { unfold held_by_handle. rewrite <- total_refs_elem, Hr. intros Hh.
    by rewrite (proj2 (Z.eqb_neq n 0)) by lia. }
  split; [done|]. split_and!.
  - unfold held_by_handle. rewrite <- total_refs_elem, Hr. intros Hh. assert (n = 0) as -> by lia. done.
  - intros r Hin <-. destruct (own_releases _ _ Hw _ Hin) as (x & Hx & ?). rewrite Ha in Hx.
    by simplify_eq.
  - intros Hpos w0 h o x Hw0 Hl Ho Hx Hax. destruct (w_boxes w !! h) as [o'|] eqn:Ho'; [|by left].
    right. exists o'. split; [done|]. destruct (leads_evolves w0 w Hw0 Hl) as [_ [_ Hev]].
    destruct (own_handles _ _ (reachable_owns w0 Hw0) _ _ Ho) as [Hlt _].
    destruct (Hev h o' ltac:(lia) Ho') as (o1 & Ho1 & _ & [Harcs|]); [|done].
    rewrite Ho in Ho1. injection Ho1 as <-. rewrite <- Harcs in Hx.
    rewrite Hheld in Hpos; [lia|]. by exists h, o', x.
Qed.

(** A key registered by the host, a responder holding it, and the identity
    freed. *)
Definition toy_key_world : World :=
  next_world toy_env (IdentityFromKey 1000 (Some 70) 5 (Some 71)) toy_world.
Definition toy_freed_world : World := next_world toy_env (IdentityFree 2) toy_key_world.

Lemma toy_readable w ptr n :
  w_mem w = toy_mem -> 0 <= n <= 600 -> 1000 <= ptr <= 1600 - n -> readable w ptr n.
Proof.
  intros Hm Hn Hp. split; [clia|]. right. right. rewrite Hm.
  assert (valid toy_mem ptr n) as [b Hb].
  { apply valid_spec. intros a Ha. exists 5. unfold toy_mem.
    replace a with (1000 + Z.of_nat (Z.to_nat (a - 1000))) by lia.
    apply write_lookup_in, lookup_replicate_2. lia. }
  exists b. split; [done|]. eapply read_bytes_ok; [|done]. apply write_bytes_ok; [apply map_Forall_empty|].
  apply Forall_replicate. lia.
Qed.

Lemma toy_key_reachable : reachable toy_key_world.
Proof. apply reach_next; [apply reach_start|]. apply toy_readable; done || clia. Qed.

Lemma toy_freed_reachable : reachable toy_freed_world.
Proof. apply reach_next; [exact toy_key_reachable|]. right. eexists. vm_compute. reflexivity. Qed.

Lemma release_exactly_once_witness :
  exists e, w_arcs toy_freed_world !! 1 = Some (e, 0) /\ releases_of 1 (w_releases toy_freed_world) = 1 /\
    (exists o, w_boxes toy_key_world !! 2 = Some o /\
       (w_boxes toy_freed_world !! 2 = None \/
        exists o', w_boxes toy_freed_world !! 2 = Some o' /\ spent o' = true)).
Proof.
  eexists. split; [vm_compute; reflexivity|].
  destruct (release_exactly_once toy_freed_world 1 (mkElement 70 5 (Some 71) (replicate 32 5)) 0)
    as (_ & Hn & _ & Hgone); [exact toy_freed_reachable|vm_compute; reflexivity|].
  assert (releases_of 1 (w_releases toy_freed_world) = 1) as Hone.
  { apply Hn. intros (h & o & x & Hb & _). cbn in Hb. vm_compute in Hb. discriminate. }
  split; [exact Hone|]. eexists. split; [vm_compute; reflexivity|].
  apply (Hgone ltac:(rewrite Hone; reflexivity) toy_key_world 2
    (BoxIdentity (mkfectp_identity (HeldElement (mkArc 1 (mkElement 70 5 (Some 71) (replicate 32 5))))
       (replicate 32 5))) (mkArc 1 (mkElement 70 5 (Some 71) (replicate 32 5)))).
  - exact toy_key_reachable.
  - eapply (leads_call _ toy_env (IdentityFree 2)); [apply leads_here| |].
    + right. eexists. vm_compute. reflexivity.
    + vm_compute. reflexivity.
  - vm_compute. reflexivity.
  - left.
  - reflexivity.
Defined.

(** a handshake's last call consumes its handle, whatever the outcome. The
    box is freed and the caller's variable is null; the session's variable
    receives a live session exactly when the call succeeds and is left alone
    when it fails, with nothing else allocated; a second call finds null,
    returns [FECTP_ERR_NULL] and frees nothing. *)
Theorem handshake_consumes `{CL : CryptoLaws} w env c slot session h :
  reachable w -> contract w c -> consumes c = Some (slot, session) -> slot <> session ->
  slot <> null -> session <> null -> w_slots w !! slot = Some h -> h <> null ->
  exists w' r, exec env c w = Some (w', r) /\ consumed w w' slot h session r /\
    forall env', exec env' c w' = Some (w', FECTP_ERR_NULL).
Proof.
  intros Hw Hc Hcon Hne Hs Hse Hh Hn. apply reachable_owns in Hw.
  destruct c; try done; injection Hcon as -> ->; destruct Hc as (Hslot & Hfree & Hbuf);
    destruct Hslot as [|(h' & Hh' & Hl)]; try done; rewrite Hh in Hh'; injection Hh' as <-;
    destruct Hl as [|[t Ht]]; try done; destruct Hfree as [|Hfree]; try done.
  - destruct (consuming_live (fun i : Initiator IdentityKey => key_arcs (hs_s (i_hs i)))
      (Initiator.read_response (H0 := IdentityKey_StaticKey (H0 := env_host env)))
      ltac:(done) ltac:(intros; apply read_response_safe, dh_never_panics)
      w slot h t frame frame_len out out_len session (env_left env))
      as (w' & r & E & _ & _ & Hcd); try done.
    exists w', r. split; [exact E|]. split; [done|]. intros env'.
    apply consuming_null; [done..|]. by apply Hcd.
  - destruct (consuming_live responder_arcs
      (fun r payload buf => Responder.write_response r (env_random env) payload buf)
      ltac:(done) ltac:(intros; apply write_response_safe)
      w slot h t payload payload_len out out_len session (env_left env))
      as (w' & r & E & _ & _ & Hcd); try done.
    exists w', r. split; [exact E|]. split; [done|]. intros env'.
    apply consuming_null; [done..|]. by apply Hcd.
Qed.

(** A responder begun from a fresh identity, its handle in variable 8. *)
Definition toy_responder_world : World :=
  next_world toy_env (HostStores 8 2)
    (next_world toy_env (ResponderNew 1 1200)
      (next_world toy_env (IdentityFromSecret 1000) toy_world)).

Lemma toy_responder_reachable : reachable toy_responder_world.
Proof.
  apply reach_next; [apply reach_next; [apply reach_next; [apply reach_start|]|]|done].
  - apply toy_readable; done || clia.
  - right. eexists. vm_compute. reflexivity.
Qed.

Lemma toy_responder_mem : w_mem toy_responder_world = toy_mem.
Proof. exact (@eq_refl _ toy_mem <: w_mem toy_responder_world = toy_mem). Qed.

Lemma toy_writable w ptr n :
  w_mem w = toy_mem -> 0 <= n <= 600 -> 1000 <= ptr <= 1600 - n -> writable w ptr n.
Proof.
  intros Hm Hn Hp. destruct (toy_readable w ptr n Hm Hn Hp) as [? [?|[?|(b & Hb & _)]]];
    (split; [done|]); [by left|right; by left|]. right. right. by exists b.
Qed.

Lemma handshake_consumes_witness :
  exists w' r,
    exec toy_env (ResponderWriteResponse 8 1000 2 1100 200 9) toy_responder_world = Some (w', r) /\
    consumed toy_responder_world w' 8 2 9 r.
Proof.
  destruct (handshake_consumes toy_responder_world toy_env (ResponderWriteResponse 8 1000 2 1100 200 9)
    8 9 2) as (w' & r & E & Hc & _);
    [exact toy_responder_reachable| |reflexivity|discriminate|discriminate|discriminate
    |vm_compute; reflexivity|discriminate|exists w', r; split; [exact E|exact Hc]].
  split; [right; exists 2; split; [vm_compute; reflexivity|right; eexists; vm_compute; reflexivity]|].
  split; [right; eexists; vm_compute; reflexivity|].
  split; [apply toy_readable; [exact toy_responder_mem|lia|lia]|].
  split; [apply toy_writable; [exact toy_responder_mem|lia|lia]|]. right. right. reflexivity.
Defined.

(** A responder that failed to read an opening frame has already given its key
    back: the host's [release] runs while the responder's handle is live. *)
Example release_while_responder_lives :
  let frame := Header.wire (Header.new HandshakeInit 7) ++ zeros 120 in
  let calls := map (pair toy_env)
    [ IdentityFromKey 1000 (Some 70) 5 (Some 71); ResponderNew 2 1200; IdentityFree 2;
      HostWrites (write_bytes toy_mem 1100 frame) ∅; ResponderReadInit 3 1100 134 1300 200 ] in
  match run calls toy_world with
  | Some (w, codes) =>
      codes = [2; 3; 0; 0; FECTP_ERR_PROTOCOL] /\
      option_map responder_arcs (boxed w 3) = Some [] /\ w_releases w = [mkRelease 1 71 5]
  | None => False
  end.
Proof. vm_compute. done. Qed.
