(* ===== verification/CInterfaceRun.v ===== *)
(** * A session through the C interface (crates/ffi/src/lib.rs)

    What a C host does (and crates/ffi/tests/c_abi.rs does) with buffers in its
    own memory: both halves of a handshake, then sealing and opening, with the
    frames carried from one buffer to the other. The theorems compose the calls
    with the core's handshake and session. *)
From stdpp Require Import gmap.
From S2P Require Import Prelude Bytes Error Frame Fragment Reliability Replay Cipher Symmetric Handshake Session.
From S2P Require Import Connect ConnectSafety CMemory CInterface CInterfaceLaws.
#[local] Open Scope ffi_scope.

(** ** Buffers laid out one after the other *)
Fixpoint blocks (m : Memory) (ptr : Z) (l : list bytes) : Prop :=
  match l with
  | [] => True
  | b :: l => read_bytes m ptr (len b) = Some b /\ blocks m (ptr + len b) l
  end.

(** Where the block after [pre] begins. *)
Fixpoint offset (ptr : Z) (pre : list bytes) : Z :=
  match pre with [] => ptr | b :: pre => offset (ptr + len b) pre end.

Lemma offset_le ptr pre : ptr <= offset ptr pre.
Proof.
  revert ptr. induction pre as [|b pre IH]; intros ptr; cbn; [lia|].
  specialize (IH (ptr + len b)). pose proof (len_nonneg b). lia.
Qed.

Lemma offset_app ptr pre post : offset ptr (pre ++ post) = offset (offset ptr pre) post.
Proof. revert ptr. induction pre as [|b pre IH]; intros ptr; cbn; [done|apply IH]. Qed.

Lemma blocks_app m ptr pre post :
  blocks m ptr (pre ++ post) <-> blocks m ptr pre /\ blocks m (offset ptr pre) post.
Proof.
  revert ptr. induction pre as [|b pre IH]; intros ptr; cbn; [tauto|]. rewrite IH. tauto.
Qed.

(** Blocks that end before, or begin after, what is written. *)
Lemma blocks_write_out m ptr l p b :
  offset ptr l <= p \/ p + len b <= ptr -> blocks m ptr l -> blocks (write_bytes m p b) ptr l.
Proof.
  revert ptr. induction l as [|x l IH]; intros ptr Hp; cbn in *; [done|]. intros [Hx Hl].
  pose proof (offset_le (ptr + len x) l). pose proof (len_nonneg x). pose proof (len_nonneg b). split.
  - rewrite read_write_other; [done|]. unfold overlaps.
    destruct (0 <? len x) eqn:E1; [|done]. destruct (0 <? len b) eqn:E2; [|done]. cbn [andb]. zbool; lia.
  - apply IH; [|done]. destruct Hp; [by left|right; lia].
Qed.

(** Writing a block in place. *)
Lemma blocks_write m ptr pre b b' post :
  blocks m ptr (pre ++ b :: post) -> len b' = len b ->
  blocks (write_bytes m (offset ptr pre) b') ptr (pre ++ b' :: post).
Proof.
  rewrite !blocks_app. cbn. intros (Hpre & Hb & Hpost) Hl. split; [|split].
  - apply blocks_write_out; [left; lia|done].
  - rewrite read_write_prefix by (pose proof (len_nonneg b'); lia). f_equal. by apply takez_all.
  - rewrite Hl. apply blocks_write_out; [right; lia|done].
Qed.

Lemma read_prefix m ptr b n :
  read_bytes m ptr (len b) = Some b -> 0 <= n <= len b -> read_bytes m ptr n = Some (takez n b).
Proof.
  intros Hb Hn. assert (n = len (takez n b)) as E by (rewrite len_takez; lia). rewrite E at 1.
  apply read_bytes_intro. intros i x Hx.
  assert (b !! i = Some x) as Hi by (rewrite <- (takez_dropz n b); by apply lookup_app_l_Some).
  pose proof (lookup_lt_Some _ _ _ Hi) as Hlt. pose proof (to_nat_len b). pose proof (len_nonneg b).
  destruct (read_bytes_elim m ptr (len b) b (ptr + Z.of_nat i) Hb) as (y & Hy & ->); [lia|].
  replace (Z.to_nat (ptr + Z.of_nat i - ptr)) with i in Hy by lia. congruence.
Qed.

(** Two different blocks, or the front of one of them, can be borrowed together. *)
Lemma borrow_forward w ptr pre b mid c post n :
  0 < ptr -> blocks (w_mem w) ptr (pre ++ b :: mid ++ c :: post) -> 0 <= n <= len b ->
  buffers (offset ptr pre) n (offset ptr (pre ++ b :: mid)) (len c) w = Some (w, Some (takez n b, c)).
Proof.
  intros Hp Hb Hn. rewrite app_comm_cons, app_assoc in Hb.
  pose proof Hb as Hc. rewrite blocks_app in Hc. destruct Hc as [Hpre [Hc _]].
  rewrite blocks_app in Hpre. destruct Hpre as [_ [Hb' _]].
  rewrite !offset_app. cbn [offset]. rewrite offset_app in Hc. cbn [offset] in Hc.
  pose proof (offset_le ptr pre). pose proof (offset_le (offset ptr pre + len b) mid).
  pose proof (len_nonneg b). pose proof (len_nonneg c).
  unfold buffers, act_bind.
  assert (input (offset ptr pre) n w = Some (w, Some (takez n b))) as ->.
  { unfold input. destruct (Z.eqb_spec n 0) as [->|]; [by rewrite takez_0 by lia|].
    rewrite (proj2 (Z.eqb_neq _ null)) by clia. unfold act_bind, read_memory.
    by rewrite (read_prefix _ _ _ _ Hb'). }
  assert (output (offset (offset ptr pre + len b) mid) (len c) w = Some (w, Some c)) as ->.
  { unfold output. destruct (Z.eqb_spec (len c) 0) as [Hz|]; [by rewrite (len_0 c Hz)|].
    rewrite (proj2 (Z.eqb_neq _ null)) by clia. unfold act_bind, read_memory. by rewrite Hc. }
  assert (overlaps (offset ptr pre) n (offset (offset ptr pre + len b) mid) (len c) = false) as ->; [|done].
  unfold overlaps. destruct (0 <? n), (0 <? len c); cbn [andb]; try done. zbool; lia.
Qed.

(** ** What each call does, exactly *)

(** What a call on a handle changed: the object, and the output buffer. *)
Definition updates (w w' : World) (h : Z) (o : Object) (out : Z) (buf : bytes) : Prop :=
  owns [] w' /\ w_boxes w' = <[h := o]> (w_boxes w) /\ w_mem w' = write_bytes (w_mem w) out buf /\
  w_slots w' = w_slots w /\ w_next w' = w_next w.

Lemma replace_exact {T} `{Boxed T} w h (t t' : T) out buf buf' left n :
  owns [] w -> boxed w h = Some t -> object_ok (to_object t') ->
  object_arcs (to_object t') = object_arcs (to_object t) -> n <= ISIZE_MAX ->
  exists w', guard (let* _ := assign h t' in deliver out buf left (Ok (buf', n))) w = Some (w', n) /\
    updates w w' h (to_object t') out buf'.
Proof.
  intros Hw Ht Hok Harcs Hn.
  destruct (owns_assign [] [] w h t t') as (w1 & Ha & Hw1 & _); [done..|by rewrite Harcs|by rewrite Harcs|].
  unfold assign in Ha. injection Ha as Ha. eexists. split; [|split; [by apply owns_mem; rewrite <- Ha in Hw1|done]].
  cbn. unfold length_code. by rewrite (proj2 (Z.leb_le _ _)) by lia.
Qed.

(** What a call that gave out a handle changed. *)
Definition adds (w w' : World) (h : Z) (o : Object) : Prop :=
  owns [] w' /\ w_boxes w' = <[h := o]> (w_boxes w) /\ w_mem w' = w_mem w /\
  w_slots w' = w_slots w /\ w_next w' = h + 1.

Lemma give_exact {T} `{Boxed T} w (t : T) :
  owns (object_arcs (to_object t)) w -> object_ok (to_object t) ->
  exists w', guard_ptr (let* handle := into_raw t in act_ret (Ok handle)) w = Some (w', w_next w) /\
    adds w w' (w_next w) (to_object t).
Proof.
  intros Hw Ht.
  destruct (owns_into_raw [] w t) as (w' & Hi & Hw' & _); [by rewrite app_nil_r|done|].
  unfold into_raw in Hi. injection Hi as Hi. unfold guard_ptr, act_bind, into_raw.
  eexists. split; [reflexivity|]. split; [by rewrite <- Hi in Hw'|done].
Qed.

(** Borrowing depends on the memory alone. *)
Lemma input_mem w w' p n r :
  w_mem w' = w_mem w -> input p n w = Some (w, r) -> input p n w' = Some (w', r).
Proof.
  intros Hm. unfold input. destruct (n =? 0); [by intros [= <-]|].
  destruct (p =? null); [by intros [= <-]|]. unfold act_bind, read_memory. rewrite Hm.
  destruct (read_bytes (w_mem w) p n); [|done]. by intros [= <-].
Qed.

Lemma output_mem w w' p n r :
  w_mem w' = w_mem w -> output p n w = Some (w, r) -> output p n w' = Some (w', r).
Proof. apply input_mem. Qed.

Lemma input_world w p n w1 r : input p n w = Some (w1, r) -> w1 = w.
Proof.
  unfold input. destruct (n =? 0); [by intros [= <- _]|].
  destruct (p =? null); [by intros [= <- _]|]. unfold act_bind, read_memory.
  destruct (read_bytes (w_mem w) p n); [|done]. by intros [= <- _].
Qed.

Lemma buffers_mem w w' ip il op ol r :
  w_mem w' = w_mem w -> buffers ip il op ol w = Some (w, r) -> buffers ip il op ol w' = Some (w', r).
Proof.
  intros Hm. unfold buffers, act_bind.
  destruct (input ip il w) as [[w1 i]|] eqn:Ei; [|done]. pose proof (input_world _ _ _ _ _ Ei) as ->.
  destruct (output op ol w) as [[w2 o]|] eqn:Eo; [|done]. pose proof (input_world _ _ _ _ _ Eo) as ->.
  rewrite (input_mem _ _ _ _ _ Hm Ei), (output_mem _ _ _ _ _ Hm Eo).
  destruct i, o; [destruct overlaps; [done|]|..]; by intros [= <-].
Qed.

(** What a consuming call that succeeded changed: the handle became a session
    in the session's variable. *)
Definition becomes (w w' : World) (slot h session : Z) (s : Session) (out : Z) (buf : bytes) : Prop :=
  owns [] w' /\ w_boxes w' = <[w_next w := BoxSession s]> (delete h (w_boxes w)) /\
  w_mem w' = write_bytes (w_mem w) out buf /\
  w_slots w' = <[session := w_next w]> (<[slot := null]> (w_slots w)) /\ w_next w' = w_next w + 1.

Lemma consuming_exact {T} `{Boxed T} (arcs : T -> list Arc) core w slot h (t : T)
    ip il op ol session left i o s o' n :
  (forall t, arcs t = object_arcs (to_object t)) ->
  owns [] w -> slot <> null -> session <> null -> h <> null ->
  w_slots w !! slot = Some h -> boxed w h = Some t -> is_Some (w_slots w !! session) ->
  buffers ip il op ol w = Some (w, Some (i, o)) -> core t i o = Ok (s, o', n) -> n <= ISIZE_MAX ->
  exists w', consuming slot ip il op ol session left arcs core w = Some (w', n) /\
    becomes w w' slot h session s op o'.
Proof.
  intros Harcs Hw Hs Hse Hn Hh Ht Hv Hbuf Hcore Hmax. unfold consuming, guard.
  rewrite (proj2 (Z.eqb_neq slot null)), (proj2 (Z.eqb_neq session null)) by done. cbn [orb].
  unfold act_bind at 1 2, read_slot. rewrite Hh, (proj2 (Z.eqb_neq h null)) by done.
  destruct (owns_from_raw [] w h t Hw Ht) as (w1 & Hf & Hw1 & _). unfold act_bind at 1. rewrite Hf.
  unfold from_raw in Hf. rewrite Ht in Hf. injection Hf as <-.
  unfold act_bind at 1, write_slot at 1. cbn [set_boxes w_slots]. rewrite Hh.
  set (w2 := set_slots _ _).
  unfold act_bind at 1. rewrite (buffers_mem w w2 _ _ _ _ _ eq_refl Hbuf). cbv iota beta. rewrite Hcore. unfold act_bind at 1.
  cbn [establish]. unfold act_bind at 1, write_memory at 1.
  set (w3 := set_mem w2 _).
  destruct (owns_into_raw (T := Session) (arcs t) w3 s) as (w4 & Hi & Hw4 & _ & _ & Hs4 & _); [|done|].
  { apply owns_mem, owns_slots. rewrite app_nil_r in Hw1. cbn [object_arcs to_object app]. by rewrite Harcs. }
  unfold act_bind at 1. rewrite Hi. unfold act_bind at 1, write_slot at 1. rewrite Hs4.
  assert (exists v, w_slots w3 !! session = Some v) as [v ->].
  { cbn. destruct (decide (slot = session)) as [->|]; [rewrite lookup_insert_eq; eauto|].
    rewrite lookup_insert_ne by done. exact Hv. }
  set (w5 := set_slots w4 _).
  destruct (owns_drop_arcs [] (arcs t) w5) as (w6 & Hd & Hw6 & Hbx & Hnx & Hmm & Hsl).
  { rewrite app_nil_r. by apply owns_slots. }
  unfold act_ret at 1. unfold act_bind. rewrite Hd. eexists. split.
  { unfold act_ret, length_code. by rewrite (proj2 (Z.leb_le _ _)) by lia. }
  unfold into_raw in Hi. injection Hi as <-. unfold becomes. by rewrite Hbx, Hnx, Hmm, Hsl.
Qed.

(** ** Keys *)

(** An identity whose key, here or with the host, performs X25519 with
    [secret]. *)
Definition identity_backed `{Crypto} `{Host} (i : fectp_identity) (secret : bytes) : Prop :=
  id_public i = x25519_public secret /\
  match id_key i with
  | HeldSecret s => s = secret
  | HeldElement a => backed_by (KeyElement a) secret
  end.

Section steps.
Context `{CL : CryptoLaws} `{Host}.

Lemma identity_key_backed w h i secret :
  owns [] w -> boxed w h = Some i -> identity_backed i secret ->
  exists w' k, identity_key i w = Some (w', k) /\ owns (key_arcs k) w' /\ same_boxes w w' /\
    len (key_public k) = DHLEN /\ backed_by k secret.
Proof.
  intros Hw Hi [_ Hk]. destruct (identity_key_ok [] w h i Hw Hi) as (w' & k & E & Hw' & Hs & Hl).
  exists w', k. rewrite app_nil_r in Hw'. split_and!; try done; unfold identity_key in E;
    destruct (id_key i) as [s|a].
  - by injection E as _ <-; subst.
  - unfold act_bind, arc_clone in E. destruct (w_arcs w !! arc_at a) as [[e n]|]; [|done].
    injection E as _ <-. apply Hk.
Qed.

Lemma adds_same w w1 w2 h o : same_boxes w w1 -> adds w1 w2 h o -> adds w w2 h o.
Proof. intros (Hb & Hn & Hm & Hs) (? & E1 & E2 & E3 & E4). unfold adds. by rewrite E1, E2, E3, E4, Hb, Hm, Hs. Qed.

Lemma initiator_new_exact w hi i a b sid size peer :
  owns [] w -> hi <> null -> boxed w hi = Some i -> identity_backed i a -> peer <> null ->
  read_bytes (w_mem w) peer DHLEN = Some (x25519_public b) ->
  exists w' k, fectp_initiator_new hi peer sid size w = Some (w', w_next w) /\
    backed_by k a /\ len (key_public k) = DHLEN /\
    adds w w' (w_next w) (BoxInitiator (Connecting.i0 k b sid (Capabilities.minimal size))).
Proof.
  intros Hw Hn Hi Hb Hp Hr.
  destruct (identity_key_backed w hi i a Hw Hi Hb) as (w1 & k & Hk & Hw1 & Hs & Hl & Hbk).
  destruct (give_exact w1 (Connecting.i0 k b sid (Capabilities.minimal size))) as (w2 & Hg & Ha);
    [done|done|].
  pose proof Hs as (_ & Hnext & _). rewrite Hnext in *.
  exists w2, k. split; [|split; [done|split; [done|by eapply adds_same]]].
  unfold fectp_initiator_new, guard_ptr. rewrite (proj2 (Z.eqb_neq _ _)) by done.
  unfold act_bind at 1 2 3. rewrite (deref_ok _ _ _ Hi).
  unfold input. rewrite (proj2 (Z.eqb_neq DHLEN 0)), (proj2 (Z.eqb_neq peer null)) by done.
  unfold act_bind at 1, read_memory. rewrite Hr. unfold act_ret at 1.
  rewrite fixed_ok by apply x25519_public_len. unfold act_bind at 1. rewrite Hk.
  pose proof (Connecting.initiator_new k (Keypair.from_secret b) b (keypair_backed b) sid
    (Capabilities.minimal size)) as Hnew.
  change (sk_public (Keypair.from_secret b)) with (x25519_public b) in Hnew. rewrite Hnew. exact Hg.
Qed.

Lemma responder_new_exact w hr i b size :
  owns [] w -> hr <> null -> boxed w hr = Some i -> identity_backed i b ->
  exists w' k, fectp_responder_new hr size w = Some (w', w_next w) /\ backed_by k b /\
    adds w w' (w_next w) (BoxResponder (Responder.new k (Capabilities.minimal size))).
Proof.
  intros Hw Hn Hi Hb.
  destruct (identity_key_backed w hr i b Hw Hi Hb) as (w1 & k & Hk & Hw1 & Hs & Hl & Hbk).
  destruct (give_exact w1 (Responder.new k (Capabilities.minimal size))) as (w2 & Hg & Ha).
  { cbn. unfold responder_arcs. cbn. by rewrite app_nil_r. }
  { cbn. by right. }
  pose proof Hs as (_ & Hnext & _). rewrite Hnext in *.
  exists w2, k. split; [|split; [done|by eapply adds_same]].
  unfold fectp_responder_new, guard_ptr. rewrite (proj2 (Z.eqb_neq _ _)) by done.
  unfold act_bind at 1 2. rewrite (deref_ok _ _ _ Hi). unfold act_bind at 1. rewrite Hk. exact Hg.
Qed.

Lemma write_init_exact random left w h i i' p pl o ol payload buf buf' n :
  owns [] w -> h <> null -> boxed w h = Some i ->
  buffers p pl o ol w = Some (w, Some (payload, buf)) ->
  Initiator.write_init i random payload buf = (i', Ok (buf', n)) ->
  len (key_public (hs_s (i_hs i))) = DHLEN -> n <= ISIZE_MAX ->
  exists w', fectp_initiator_write_init random left h p pl o ol w = Some (w', n) /\
    updates w w' h (BoxInitiator i') o buf'.
Proof.
  intros Hw Hn Hi Hb E Hpub Hmax.
  destruct (write_init_safe i random payload buf) as [_ Hs];
    [by destruct (hs_s (i_hs i))|apply dh_never_panics|]. rewrite E in Hs. cbn in Hs.
  destruct (replace_exact w h i i' o buf buf' left n) as (w' & Hg & Hu); try done.
  { cbn. by rewrite Hs. }
  { cbn. by rewrite Hs. }
  exists w'. split; [|exact Hu]. unfold fectp_initiator_write_init, guard.
  rewrite (proj2 (Z.eqb_neq _ _)) by done. unfold act_bind at 1 2 3. rewrite (deref_ok _ _ _ Hi), Hb, E.
  exact Hg.
Qed.

Lemma read_init_exact left w h r r' f fl o ol frame buf buf' n :
  owns [] w -> h <> null -> boxed w h = Some r ->
  buffers f fl o ol w = Some (w, Some (frame, buf)) ->
  Responder.read_init r frame buf = (r', Ok (buf', n)) ->
  responder_arcs r' = responder_arcs r -> r_static_key r' = None -> n <= ISIZE_MAX ->
  exists w', fectp_responder_read_init left h f fl o ol w = Some (w', n) /\
    updates w w' h (BoxResponder r') o buf'.
Proof.
  intros Hw Hn Hr Hb E Harcs Hnone Hmax.
  destruct (replace_exact w h r r' o buf buf' left n) as (w' & Hg & Hu); try done.
  { by left. }
  exists w'. split; [|exact Hu]. unfold fectp_responder_read_init, guard.
  rewrite (proj2 (Z.eqb_neq _ _)) by done. unfold act_bind at 1 2 3. rewrite (deref_ok _ _ _ Hr), Hb, E.
  rewrite Harcs, dropz_all by lia. exact Hg.
Qed.

Lemma seal_exact left w h s s' p pl o ol payload buf buf' n :
  owns [] w -> h <> null -> boxed w h = Some s ->
  buffers p pl o ol w = Some (w, Some (payload, buf)) ->
  Session.seal s payload 0 buf = (s', Ok (buf', n)) -> n <= ISIZE_MAX ->
  exists w', fectp_session_seal left h p pl o ol w = Some (w', n) /\
    updates w w' h (BoxSession s') o buf'.
Proof.
  intros Hw Hn Hs Hb E Hmax.
  destruct (replace_exact w h s s' o buf buf' left n) as (w' & Hg & Hu); try done.
  exists w'. split; [|exact Hu]. unfold fectp_session_seal, guard.
  rewrite (proj2 (Z.eqb_neq _ _)) by done. unfold act_bind at 1 2 3. rewrite (deref_ok _ _ _ Hs), Hb, E.
  exact Hg.
Qed.
End steps.

(** ** A whole handshake *)

(** The host's buffers, in this order: the peer's public key, the payload of
    the opening frame, the frame, where the other side reads it, and the same
    three for the reply. *)
Record Layout := mkLayout {
  lay_peer : bytes;
  lay_payload1 : bytes; lay_frame1 : bytes; lay_read1 : bytes;
  lay_payload2 : bytes; lay_frame2 : bytes; lay_read2 : bytes;
}.

Definition layout (l : Layout) : list bytes :=
  [lay_peer l; lay_payload1 l; lay_frame1 l; lay_read1 l; lay_payload2 l; lay_frame2 l; lay_read2 l].

Definition at_block (base : Z) (l : Layout) (k : nat) : Z := offset base (take k (layout l)).

(** Both sides of a handshake, driven from one process: the variables 8 and 9
    hold the initiator and the responder, 10 and 11 receive the sessions. *)
Definition handshake_calls (host : Host) (r1 r2 left : bytes) (hi hr sid size h1 h2 base : Z)
    (l : Layout) : list (Env * Call) :=
  let n1 := INITIATOR_OVERHEAD + len (lay_payload1 l) in
  let n2 := RESPONDER_OVERHEAD + len (lay_payload2 l) in
  [ (mkEnv host r1 left, InitiatorNew hi (at_block base l 0) sid size);
    (mkEnv host r1 left, ResponderNew hr size);
    (mkEnv host r1 left, HostStores 8 h1);
    (mkEnv host r1 left, HostStores 9 h2);
    (mkEnv host r1 left, InitiatorWriteInit h1 (at_block base l 1) (len (lay_payload1 l))
                           (at_block base l 2) (len (lay_frame1 l)));
    (mkEnv host r1 left, ResponderReadInit h2 (at_block base l 2) n1
                           (at_block base l 3) (len (lay_read1 l)));
    (mkEnv host r2 left, ResponderWriteResponse 9 (at_block base l 4) (len (lay_payload2 l))
                           (at_block base l 5) (len (lay_frame2 l)) 11);
    (mkEnv host r2 left, InitiatorReadResponse 8 (at_block base l 5) n2
                           (at_block base l 6) (len (lay_read2 l)) 10) ].

(** The buffers are large enough for their payloads. *)
Definition layout_fits (l : Layout) : Prop :=
  CAPS_LEN + len (lay_payload1 l) <= AEAD_MAX /\
  INITIATOR_OVERHEAD + len (lay_payload1 l) <= len (lay_frame1 l) /\
  CAPS_LEN + len (lay_payload1 l) + TAGLEN <= len (lay_read1 l) /\
  CAPS_LEN + len (lay_payload2 l) <= AEAD_MAX /\
  RESPONDER_OVERHEAD + len (lay_payload2 l) <= len (lay_frame2 l) /\
  CAPS_LEN + len (lay_payload2 l) + TAGLEN <= len (lay_read2 l).

Lemma run_cons `{Crypto} env c calls w w1 r w2 rs :
  exec env c w = Some (w1, r) -> run calls w1 = Some (w2, rs) ->
  run ((env, c) :: calls) w = Some (w2, r :: rs).
Proof. intros E1 E2. cbn. unfold act_bind. by rewrite E1, E2. Qed.

Lemma run_app `{Crypto} c1 c2 w w1 rs1 w2 rs2 :
  run c1 w = Some (w1, rs1) -> run c2 w1 = Some (w2, rs2) -> run (c1 ++ c2) w = Some (w2, rs1 ++ rs2).
Proof.
  revert w rs1. induction c1 as [|[env c] c1 IH]; intros w rs1 E1 E2; cbn in *; unfold act_bind in *.
  - by injection E1 as -> <-.
  - destruct (exec env c w) as [[w' r]|]; [|done].
    destruct (run c1 w') as [[w'' rs]|] eqn:E; [|done]. injection E1 as -> <-.
    by rewrite (IH _ _ E E2).
Qed.

(** Both handles, stored in their variables. *)
Lemma setup_run `{CL : CryptoLaws} (host : Host) w hi hr ii ir a b sid size r1 left peer :
  owns [] w -> boxed w hi = Some ii -> boxed w hr = Some ir -> identity_backed ii a ->
  identity_backed ir b -> peer <> null -> read_bytes (w_mem w) peer DHLEN = Some (x25519_public b) ->
  let h1 := w_next w in let h2 := w_next w + 1 in
  exists w' ki kr,
    run [ (mkEnv host r1 left, InitiatorNew hi peer sid size); (mkEnv host r1 left, ResponderNew hr size);
          (mkEnv host r1 left, HostStores 8 h1); (mkEnv host r1 left, HostStores 9 h2) ] w
      = Some (w', [h1; h2; FECTP_OK; FECTP_OK]) /\
    owns [] w' /\ backed_by ki a /\ backed_by kr b /\ len (key_public ki) = DHLEN /\
    boxed w' h1 = Some (Connecting.i0 ki b sid (Capabilities.minimal size)) /\
    boxed w' h2 = Some (Responder.new kr (Capabilities.minimal size)) /\
    w_mem w' = w_mem w /\ w_slots w' = <[9 := h2]> (<[8 := h1]> (w_slots w)).
Proof.
  intros Hw Hi Hr Ha Hbk Hnp Hpeer h1 h2.
  apply boxed_lookup in Hi as Hi'. destruct (own_handles _ _ Hw _ _ Hi') as [Hlti _].
  apply boxed_lookup in Hr as Hr'. destruct (own_handles _ _ Hw _ _ Hr') as [Hltr _].
  destruct (initiator_new_exact w hi ii a b sid size peer)
    as (w1 & ki & E1 & Hki & Hlen & Ho1 & Hb1 & Hm1 & Hs1 & Hx1); [done|clia|done..|].
  destruct (responder_new_exact w1 hr ir b size) as (w2 & kr & E2 & Hkr & Ho2 & Hb2 & Hm2 & Hs2 & Hx2);
    [done|clia| |done|].
  { apply boxed_lookup. rewrite Hb1, lookup_insert_ne by lia. done. }
  rewrite Hx1 in Hb2, E2. fold h1 h2 in Hb1, Hb2, E1, E2.
  eexists _, ki, kr. split; [|split; [|split_and!; [done..| | | |]]].
  - eapply run_cons; [exact E1|]. eapply run_cons; [exact E2|]. reflexivity.
  - by apply owns_slots, owns_slots.
  - apply boxed_lookup. cbn. rewrite Hb2, lookup_insert_ne, Hb1, lookup_insert_eq by (unfold h1, h2; lia).
    done.
  - apply boxed_lookup. cbn. by rewrite Hb2, lookup_insert_eq.
  - cbn. by rewrite Hm2, Hm1.
  - cbn. by rewrite Hs2, Hs1.
Qed.

Section handshake.
Context `{CL : CryptoLaws} (host : Host).
Context (l : Layout) (base : Z) (Hbase : 0 < base) (Hfits : layout_fits l).

(** One buffer borrowed for reading and a later one for writing. *)
Lemma borrow_blocks w pre b mid c post n k j :
  blocks (w_mem w) base (pre ++ b :: mid ++ c :: post) -> 0 <= n <= len b ->
  offset base pre = k -> offset base (pre ++ b :: mid) = j ->
  buffers k n j (len c) w = Some (w, Some (takez n b, c)).
Proof. intros Hb Hn <- <-. by eapply borrow_forward. Qed.

Context (a b : bytes) (ki kr : IdentityKey) (Hki : backed_by ki a) (Hkr : backed_by kr b).
Context (Hpub : len (key_public ki) = DHLEN).
Context (sid size : Z) (Hsid : is_u32 sid) (Hsize : is_u16 size).
Abbreviation caps := (Capabilities.minimal size).

Lemma caps_wf : Capabilities.wf caps.
Proof. unfold Capabilities.wf. cbn. done. Qed.

(** The initiator and the responder once the opening frame has been read. *)
Definition opened_i (sym : SymmetricState) (r1 : bytes) : Initiator IdentityKey :=
  mkInitiator (mkHandshakeState sym Handshake.Initiator ki (Some (Keypair.generate r1))
    (Some (x25519_public b)) None AwaitingMessage2) sid caps.
Definition opened_r (sym : SymmetricState) (r1 : bytes) : Responder IdentityKey :=
  mkResponder None (Some (mkHandshakeState sym Handshake.Responder kr None (Some (x25519_public a))
    (Some (x25519_public r1)) AwaitingMessage2)) (sk_public kr) sid caps (Some caps).

Lemma first_flight_run r1 left w h1 h2 :
  owns [] w -> h1 <> null -> h2 <> null -> h1 <> h2 ->
  boxed w h1 = Some (Connecting.i0 ki b sid caps) -> boxed w h2 = Some (Responder.new kr caps) ->
  blocks (w_mem w) base (layout l) ->
  exists w' sym f1 rest,
    run [ (mkEnv host r1 left, InitiatorWriteInit h1 (at_block base l 1) (len (lay_payload1 l))
                                 (at_block base l 2) (len (lay_frame1 l)));
          (mkEnv host r1 left, ResponderReadInit h2 (at_block base l 2)
             (INITIATOR_OVERHEAD + len (lay_payload1 l)) (at_block base l 3) (len (lay_read1 l))) ] w
      = Some (w', [INITIATOR_OVERHEAD + len (lay_payload1 l); len (lay_payload1 l)]) /\
    owns [] w' /\
    w_boxes w' = <[h2 := BoxResponder (opened_r sym r1)]> (<[h1 := BoxInitiator (opened_i sym r1)]> (w_boxes w)) /\
    w_slots w' = w_slots w /\ w_next w' = w_next w /\
    len f1 = len (lay_frame1 l) /\ len (lay_payload1 l ++ rest) = len (lay_read1 l) /\
    blocks (w_mem w') base [lay_peer l; lay_payload1 l; f1; lay_payload1 l ++ rest;
                            lay_payload2 l; lay_frame2 l; lay_read2 l].
Proof.
  intros Hw Hn1 Hn2 Hne H1 H2 Hb. destruct Hfits as (F1 & F2 & F3 & _).
  pose proof (len_nonneg (lay_payload1 l)).
  destruct (Connecting.first_flight ki kr a b Hki Hkr sid Hsid caps caps caps_wf r1 (lay_payload1 l)
    (lay_frame1 l) (lay_read1 l) F1 F2 F3) as (sym & f1 & rest & Hwi & Hri).
  pose proof (write_init_safe (Connecting.i0 ki b sid caps) r1 (lay_payload1 l) (lay_frame1 l)) as Hs.
  rewrite Hwi in Hs. destruct Hs as [[_ Hs] _]; [by destruct ki|apply dh_never_panics|].
  destruct (Hs f1 _ eq_refl) as [Hl1 _].
  pose proof (read_init_safe (Responder.new kr caps) (takez (INITIATOR_OVERHEAD + len (lay_payload1 l)) f1)
    (lay_read1 l) (fun k _ => dh_never_panics k)) as Hs2.
  rewrite Hri in Hs2. destruct Hs2 as [[_ Hs2] _]. destruct (Hs2 _ _ eq_refl) as [Hl2 _].
  destruct (write_init_exact r1 left w h1 (Connecting.i0 ki b sid caps) (opened_i sym r1)
    (at_block base l 1) (len (lay_payload1 l)) (at_block base l 2) (len (lay_frame1 l))
    (lay_payload1 l) (lay_frame1 l) f1 (INITIATOR_OVERHEAD + len (lay_payload1 l)))
    as (w1 & E1 & Ho1 & Hb1 & Hm1 & Hs1 & Hx1); try done; [|clia|].
  { pose proof (borrow_blocks w [lay_peer l] (lay_payload1 l) [] (lay_frame1 l) _ (len (lay_payload1 l))
      (at_block base l 1) (at_block base l 2) Hb ltac:(lia) eq_refl eq_refl) as Hbor.
    by rewrite takez_all in Hbor by lia. }
  assert (blocks (w_mem w1) base [lay_peer l; lay_payload1 l; f1; lay_read1 l; lay_payload2 l;
    lay_frame2 l; lay_read2 l]) as Hbl1.
  { rewrite Hm1. by apply (blocks_write _ base [lay_peer l; lay_payload1 l] (lay_frame1 l) f1). }
  destruct (read_init_exact left w1 h2 (Responder.new kr caps) (opened_r sym r1)
    (at_block base l 2) (INITIATOR_OVERHEAD + len (lay_payload1 l)) (at_block base l 3) (len (lay_read1 l))
    (takez (INITIATOR_OVERHEAD + len (lay_payload1 l)) f1) (lay_read1 l) (lay_payload1 l ++ rest)
    (len (lay_payload1 l))) as (w2 & E2 & Ho2 & Hb2 & Hm2 & Hs2' & Hx2); try done; [| | |clia|].
  { apply boxed_lookup. rewrite Hb1, lookup_insert_ne by done. by apply boxed_lookup. }
  { apply (borrow_blocks w1 [lay_peer l; lay_payload1 l] f1 [] (lay_read1 l) _ _ _ _ Hbl1); [clia|done|].
    cbn. by rewrite Hl1. }
  { unfold responder_arcs. cbn. by rewrite app_nil_r. }
  exists w2, sym, f1, rest. split; [eapply run_cons; [exact E1|]; eapply run_cons; [exact E2|reflexivity]|].
  split; [done|]. rewrite Hb2, Hb1, Hs2', Hs1, Hx2, Hx1. split_and!; try done.
  rewrite Hm2. unfold at_block, layout. cbn [take offset].
  replace (base + len (lay_peer l) + len (lay_payload1 l) + len (lay_frame1 l))
    with (offset base [lay_peer l; lay_payload1 l; f1]) by (cbn; lia).
  by apply (blocks_write _ base [lay_peer l; lay_payload1 l; f1] (lay_read1 l)).
Qed.

Lemma second_flight_run r1 r2 left w sym h1 h2 :
  owns [] w -> h1 <> null -> h2 <> null -> h1 <> h2 ->
  boxed w h1 = Some (opened_i sym r1) -> boxed w h2 = Some (opened_r sym r1) ->
  w_slots w !! 8 = Some h1 -> w_slots w !! 9 = Some h2 ->
  is_Some (w_slots w !! 10) -> is_Some (w_slots w !! 11) ->
  blocks (w_mem w) base (layout l) ->
  exists w' si sr f2 rest,
    run [ (mkEnv host r2 left, ResponderWriteResponse 9 (at_block base l 4) (len (lay_payload2 l))
                                 (at_block base l 5) (len (lay_frame2 l)) 11);
          (mkEnv host r2 left, InitiatorReadResponse 8 (at_block base l 5)
             (RESPONDER_OVERHEAD + len (lay_payload2 l)) (at_block base l 6) (len (lay_read2 l)) 10) ] w
      = Some (w', [RESPONDER_OVERHEAD + len (lay_payload2 l); len (lay_payload2 l)]) /\
    owns [] w' /\
    w_slots w' !! 10 = Some (w_next w + 1) /\ boxed w' (w_next w + 1) = Some si /\
    w_slots w' !! 11 = Some (w_next w) /\ boxed w' (w_next w) = Some sr /\
    w_boxes w' !! h1 = None /\ w_boxes w' !! h2 = None /\
    linked si sr /\ s_remote_static si = sk_public kr /\ s_remote_static sr = sk_public ki /\
    len f2 = len (lay_frame2 l) /\
    blocks (w_mem w') base [lay_peer l; lay_payload1 l; lay_frame1 l; lay_read1 l;
                            lay_payload2 l; f2; lay_payload2 l ++ rest].
Proof.
  intros Hw Hn1 Hn2 Hne H1 H2 S8 S9 S10 S11 Hb. destruct Hfits as (_ & _ & _ & F1 & F2 & F3).
  pose proof (len_nonneg (lay_payload2 l)).
  destruct (Connecting.second_flight ki kr a b Hki Hkr sid Hsid caps caps caps_wf sym r1 r2
    (lay_payload2 l) (lay_frame2 l) (lay_read2 l) F1 F2 F3)
    as (si & sr & f2 & rest & Hwr & Hrr & Hlink & _ & _ & _ & Hrs & Hrr2 & _).
  pose proof (write_response_safe (opened_r sym r1) r2 (lay_payload2 l) (lay_frame2 l)) as [_ Hs].
  destruct (Hs _ _ _ Hwr) as [Hl1 _].
  pose proof (read_response_safe (opened_i sym r1) (takez (RESPONDER_OVERHEAD + len (lay_payload2 l)) f2)
    (lay_read2 l) (dh_never_panics _)) as [_ Hs2]. destruct (Hs2 _ _ _ Hrr) as [Hl2 _].
  pose proof (borrow_blocks w [lay_peer l; lay_payload1 l; lay_frame1 l; lay_read1 l] (lay_payload2 l) []
    (lay_frame2 l) _ (len (lay_payload2 l)) (at_block base l 4) (at_block base l 5) Hb ltac:(lia)
    eq_refl eq_refl) as Hbor. rewrite takez_all in Hbor by lia.
  destruct (consuming_exact responder_arcs (fun r payload buf => Responder.write_response r r2 payload buf)
    w 9 h2 (opened_r sym r1) _ _ _ _ 11 left _ _ _ _ _ ltac:(done) Hw ltac:(done) ltac:(done) Hn2 S9 H2
    S11 Hbor Hwr ltac:(clia)) as (w1 & E1 & Ho1 & Hb1 & Hm1 & Hs1 & Hx1).
  assert (blocks (w_mem w1) base [lay_peer l; lay_payload1 l; lay_frame1 l; lay_read1 l; lay_payload2 l;
    f2; lay_read2 l]) as Hbl1.
  { rewrite Hm1. by apply (blocks_write _ base [lay_peer l; lay_payload1 l; lay_frame1 l; lay_read1 l;
      lay_payload2 l] (lay_frame2 l) f2). }
  apply boxed_lookup in H1 as H1'. destruct (own_handles _ _ Hw _ _ H1') as [Hlt1 _].
  apply boxed_lookup in H2 as H2'. destruct (own_handles _ _ Hw _ _ H2') as [Hlt2 _].
  assert (boxed w1 h1 = Some (opened_i sym r1)) as H1w.
  { apply boxed_lookup. rewrite Hb1, lookup_insert_ne, lookup_delete_ne by (done || lia). done. }
  destruct (consuming_exact (fun i : Initiator IdentityKey => key_arcs (hs_s (i_hs i)))
    Initiator.read_response w1 8 h1 (opened_i sym r1) (at_block base l 5)
    (RESPONDER_OVERHEAD + len (lay_payload2 l)) (at_block base l 6) (len (lay_read2 l)) 10 left
    (takez (RESPONDER_OVERHEAD + len (lay_payload2 l)) f2) (lay_read2 l) si (lay_payload2 l ++ rest)
    (len (lay_payload2 l))) as (w2 & E2 & Ho2 & Hb2 & Hm2 & Hs2' & Hx2); try done; [| | |clia|].
  { by rewrite Hs1, !lookup_insert_ne. }
  { by rewrite Hs1, !lookup_insert_ne. }
  { apply (borrow_blocks w1 [lay_peer l; lay_payload1 l; lay_frame1 l; lay_read1 l; lay_payload2 l] f2 []
      (lay_read2 l) _ _ _ _ Hbl1); [clia|done|]. cbn. by rewrite Hl1. }
  exists w2, si, sr, f2, rest.
  split; [eapply run_cons; [exact E1|]; eapply run_cons; [exact E2|reflexivity]|].
  split; [done|]. rewrite Hs2', Hs1, Hx1. rewrite !boxed_lookup, Hb2, Hb1, Hx1.
  split_and!; try done.
  - by rewrite lookup_insert_eq.
  - by rewrite lookup_insert_eq.
  - by rewrite 2 lookup_insert_ne, lookup_insert_eq.
  - rewrite lookup_insert_ne, lookup_delete_ne, lookup_insert_eq by lia. done.
  - rewrite lookup_insert_ne, lookup_delete_eq by lia. done.
  - rewrite lookup_insert_ne, lookup_delete_ne, lookup_insert_ne, lookup_delete_eq by (done || lia). done.
  - rewrite Hm2. unfold at_block, layout. cbn [take offset].
    match goal with |- blocks (write_bytes _ ?p _) _ _ =>
      replace p with (offset base [lay_peer l; lay_payload1 l; lay_frame1 l; lay_read1 l; lay_payload2 l; f2])
        by (cbn; lia) end.
    by apply (blocks_write _ base [lay_peer l; lay_payload1 l; lay_frame1 l; lay_read1 l; lay_payload2 l; f2]
      (lay_read2 l)).
Qed.
End handshake.

(** ** Sessions *)

(** A number just accepted is refused the next time. *)
Lemma check_committed w seq : ReplayWindow.check (ReplayWindow.commit w seq) seq = Err Replay.
Proof.
  assert (forall b, Z.testbit b 0 = true -> negb (Z.land b (shl64 1 0) =? 0) = true) as Hbit0.
  { intros x Hx. by rewrite land_bit_nonzero by lia. }
  unfold ReplayWindow.commit, ReplayWindow.check. destruct (rw_started w) eqn:Hst; cbn [negb].
  - destruct (Z.ltb_spec (rw_highest w) seq) as [Hlt|Hge]; cbn [rw_started negb rw_highest rw_bitmap].
    + rewrite Z.ltb_irrefl, Z.sub_diag. cbn [Z.leb REPLAY_WINDOW]. rewrite Hbit0; [done|].
      zcase; [done|]. by rewrite Z.lor_spec, orb_true_r.
    + destruct (Z.ltb_spec (rw_highest w - seq) REPLAY_WINDOW) as [Hd|Hd].
      * cbn [rw_started negb rw_highest rw_bitmap]. rewrite (proj2 (Z.ltb_ge _ _)) by done.
        rewrite (proj2 (Z.leb_gt _ _)) by done. rewrite land_bit_nonzero by clia.
        by rewrite Z.lor_spec, testbit_one_shl, Z.eqb_refl, orb_true_r by clia.
      * rewrite Hst. cbn [negb]. rewrite (proj2 (Z.ltb_ge _ _)) by done. by rewrite (proj2 (Z.leb_le _ _)) by done.
  - cbn [rw_started negb rw_highest rw_bitmap]. rewrite Z.ltb_irrefl, Z.sub_diag. by rewrite Hbit0.
Qed.

Section sessions.
Context `{CL : CryptoLaws} `{Host}.

(** [fectp_session_open] on a frame the session opens. *)
Lemma open_exact w h s s' f fl o ol frame buf opened hdr payload tail :
  owns [] w -> h <> null -> boxed w h = Some s ->
  buffers f fl o ol w = Some (w, Some (frame, buf)) ->
  Session.open s frame = (s', Ok (opened, hdr ++ payload ++ tail)) ->
  len hdr = HEADER_LEN -> o_len opened = len payload ->
  fectp_session_open h f fl o ol w =
    if len buf <? len payload
    then Some (set_boxes w (<[h := BoxSession s']> (w_boxes w)), FECTP_ERR_BUFFER)
    else Some (set_mem (set_boxes w (<[h := BoxSession s']> (w_boxes w)))
                 (write_bytes (w_mem w) o (payload ++ dropz (len payload) buf)), length_code (len payload)).
Proof.
  intros Hw Hn Hs Hb E Hh Hl. unfold fectp_session_open, guard.
  rewrite (proj2 (Z.eqb_neq _ _)) by done. unfold act_bind at 1 2 3. rewrite (deref_ok _ _ _ Hs), Hb, E.
  unfold act_bind at 1, assign. rewrite slice_from_mid by done.
  rewrite slice_head by done. destruct (Z.ltb_spec (len buf) (len payload)); [done|].
  by rewrite copy_range_at by lia.
Qed.

(** A frame is never opened twice. *)
Lemma reopen_refused s frame s' o buf :
  bytes_ok frame -> Session.open s frame = (s', Ok (o, buf)) ->
  exists e, Session.open s' frame = (s', Err e) /\ code e = FECTP_ERR_PROTOCOL.
Proof.
  intros Hb E. pose proof (open_cases s frame Hb) as Hc. rewrite E in Hc.
  destruct Hc as (c & next & ct & tag & p & Hdec & Hsid & Hck & Hrw & _ & _ & Hframe & Htag & _ & Hs').
  exists Replay. split; [|done]. unfold Session.open. rewrite Hdec.
  assert (s_session_id s' = s_session_id s) as Hid by (rewrite Hs'; by destruct next).
  unfold Session.open in E. rewrite Hdec in E.
  destruct (Session.opens (frame_type (o_header o))); cbn [negb] in *; [|done].
  rewrite Hid. destruct (session_id (o_header o) =? s_session_id s); cbn [negb] in *; [|done].
  destruct (len frame <? HEADER_LEN + TAGLEN); [done|].
  by rewrite Hrw, check_committed.
Qed.
End sessions.

Lemma block_read m ptr pre b post n :
  blocks m ptr (pre ++ b :: post) -> 0 <= n <= len b ->
  read_bytes m (offset ptr pre) n = Some (takez n b).
Proof. rewrite blocks_app. intros [_ [Hb _]] Hn. by apply read_prefix. Qed.

(** ** Properties *)
#[local] Existing Instances Toy.crypto Toy.laws.

(** C28: a handshake through the C interface connects. For two identities whose
    keys, held here or by the host, are honest, and buffers large enough, the
    eight calls of both sides succeed with the documented lengths; each payload
    is in the other side's buffer; both handshake handles are gone and the two
    session variables hold live sessions in step with each other, each naming
    the other side's key. *)
Theorem ffi_handshake_links `{CL : CryptoLaws} (host : Host) l base w hi hr ii ir a b sid size r1 r2 left :
  reachable w -> 0 < base -> layout_fits l -> blocks (w_mem w) base (layout l) ->
  boxed w hi = Some ii -> boxed w hr = Some ir -> identity_backed ii a -> identity_backed ir b ->
  lay_peer l = id_public ir -> is_u32 sid -> is_u16 size ->
  is_Some (w_slots w !! 10) -> is_Some (w_slots w !! 11) ->
  let h1 := w_next w in let h2 := w_next w + 1 in
  exists w' hsi hsr si sr,
    run (handshake_calls host r1 r2 left hi hr sid size h1 h2 base l) w =
      Some (w', [h1; h2; FECTP_OK; FECTP_OK; INITIATOR_OVERHEAD + len (lay_payload1 l);
                 len (lay_payload1 l); RESPONDER_OVERHEAD + len (lay_payload2 l); len (lay_payload2 l)]) /\
    read_bytes (w_mem w') (at_block base l 3) (len (lay_payload1 l)) = Some (lay_payload1 l) /\
    read_bytes (w_mem w') (at_block base l 6) (len (lay_payload2 l)) = Some (lay_payload2 l) /\
    w_boxes w' !! h1 = None /\ w_boxes w' !! h2 = None /\
    w_slots w' !! 10 = Some hsi /\ boxed w' hsi = Some si /\
    w_slots w' !! 11 = Some hsr /\ boxed w' hsr = Some sr /\
    linked si sr /\ s_remote_static si = id_public ir /\ s_remote_static sr = id_public ii.
Proof.
  intros Hw Hbase Hfits Hb Hi Hr Ha Hbk Hpeer Hsid Hsize S10 S11 h1 h2. apply reachable_owns in Hw.
  pose proof (own_next _ _ Hw). assert (id_public ir = x25519_public b) as Hpub by apply Hbk.
  destruct (setup_run host w hi hr ii ir a b sid size r1 left (at_block base l 0))
    as (w4 & ki & kr & E4 & Ho4 & Hki & Hkr & Hlen & B1 & B2 & Hm4 & Hs4); [done..|cbn; clia| |].
  { destruct Hb as [Hp _]. rewrite Hpeer, Hpub in Hp. by rewrite x25519_public_len in Hp. }
  fold h1 h2 in E4, B1, B2, Hs4.
  assert (h1 <> null /\ h2 <> null /\ h1 <> h2) as (Hn1 & Hn2 & Hne) by (unfold h1, h2; clia).
  destruct (first_flight_run host l base Hbase Hfits a b ki kr Hki Hkr Hlen sid size Hsid Hsize r1 left w4 h1 h2)
    as (w5 & sym & f1 & rest1 & E5 & Ho5 & Hb5 & Hs5 & Hx5 & Hf1 & Hr1 & Hm5); [done..|by rewrite Hm4|].
  set (l2 := mkLayout (lay_peer l) (lay_payload1 l) f1 (lay_payload1 l ++ rest1) (lay_payload2 l)
    (lay_frame2 l) (lay_read2 l)).
  assert (forall k, (4 <= k)%nat -> at_block base l2 k = at_block base l k) as Hat.
  { intros k Hk. unfold at_block, layout, l2. do 4 (destruct k as [|k]; [lia|]). cbn. by rewrite Hf1, Hr1. }
  rewrite Hs4 in Hs5.
  destruct (second_flight_run host l2 base Hbase
    ltac:(unfold layout_fits in *; cbn; rewrite Hf1, Hr1; exact Hfits)
    a b ki kr Hki Hkr sid size Hsid Hsize r1 r2 left w5 sym h1 h2)
    as (w6 & si & sr & f2 & rest2 & E6 & Ho6 & T10 & B10 & T11 & B11 & N1 & N2 & Hlink & Hrs & Hrr & Hf2 & Hm6);
    [done|done|done|done|..|exact Hm5|].
  1-2: apply boxed_lookup; rewrite Hb5; by simplify_map_eq.
  1-4: rewrite Hs5; by simplify_map_eq.
  cbn [l2 lay_payload2 lay_frame2 lay_read2] in E6. rewrite !Hat in E6 by lia.
  pose proof (run_app _ _ _ _ _ _ _ E4 (run_app _ _ _ _ _ _ _ E5 E6)) as Erun.
  pose proof (len_nonneg (lay_payload1 l)). pose proof (len_nonneg (lay_payload2 l)).
  exists w6, (w_next w5 + 1), (w_next w5), si, sr. split_and!; try done.
  - pose proof (block_read _ _ [lay_peer l; lay_payload1 l; f1] (lay_payload1 l ++ rest1) _ (len (lay_payload1 l))
      Hm6 ltac:(len_lia)) as Hrd. rewrite takez_app in Hrd by done. rewrite <- Hrd. f_equal. cbn. by rewrite Hf1.
  - pose proof (block_read _ _ [lay_peer l; lay_payload1 l; f1; lay_payload1 l ++ rest1; lay_payload2 l; f2]
      (lay_payload2 l ++ rest2) _ (len (lay_payload2 l)) Hm6 ltac:(len_lia)) as Hrd.
    rewrite takez_app in Hrd by done. rewrite <- Hrd. f_equal. cbn in *. by rewrite Hf1, Hr1, Hf2.
  - rewrite Hrs. destruct Hkr as [-> _]. done.
  - rewrite Hrr. destruct Hki as [-> _], Ha as [-> _]. done.
Qed.

(** Two identities restored from one stored secret, and their buffers. *)
Definition toy_pair_world : World :=
  next_world toy_env (IdentityFromSecret 1000)
    (next_world toy_env (IdentityFromSecret 1000) (world0 toy_mem (<[10 := 0]> (<[11 := 0]> ∅)))).

Definition fives (n : nat) : bytes := replicate n 5.

Definition toy_layout : Layout :=
  mkLayout (fives 32) (fives 3) (fives 130) (fives 40) (fives 2) (fives 100) (fives 40).

Lemma toy_pair_reachable : reachable toy_pair_world.
Proof.
  apply reach_next; [apply reach_next; [apply reach_start|]|]; apply toy_readable; done || clia.
Qed.

Lemma toy_pair_blocks : blocks (w_mem toy_pair_world) 1000 (layout toy_layout).
Proof. cbn [blocks layout toy_layout]. repeat split; vm_compute; reflexivity. Qed.

Lemma ffi_handshake_links_witness :
  exists w' hsi hsr si sr,
    run (handshake_calls toy_host [1; 2] [3] [] 1 2 7 1200 3 4 1000 toy_layout) toy_pair_world
      = Some (w', [3; 4; 0; 0; 121; 3; 72; 2]) /\
    w_slots w' !! 10 = Some hsi /\ boxed w' hsi = Some si /\
    w_slots w' !! 11 = Some hsr /\ boxed w' hsr = Some sr /\ linked si sr.
Proof.
  destruct (ffi_handshake_links toy_host toy_layout 1000 toy_pair_world 1 2
    (mkfectp_identity (HeldSecret (fives 32)) (fives 32)) (mkfectp_identity (HeldSecret (fives 32)) (fives 32))
    (fives 32) (fives 32) 7 1200 [1; 2] [3] [])
    as (w' & hsi & hsr & si & sr & E & _ & _ & _ & _ & T10 & B10 & T11 & B11 & Hl & _);
    [exact toy_pair_reachable|reflexivity|vm_compute; intuition discriminate|exact toy_pair_blocks
    |vm_compute; reflexivity|vm_compute; reflexivity|split; vm_compute; reflexivity
    |split; vm_compute; reflexivity|vm_compute; reflexivity|lia|lia
    |eexists; vm_compute; reflexivity|eexists; vm_compute; reflexivity|].
  exists w', hsi, hsr, si, sr. split; [exact E|]. split; [exact T10|]. split; [exact B10|].
  split; [exact T11|]. split; [exact B11|exact Hl].
Defined.

(** The host's buffers of one message: the payload, the frame, and where the
    other side reads it. *)
Definition message_calls (env : Env) (ha hb base : Z) (payload frame out : bytes) : list (Env * Call) :=
  [ (env, SessionSeal ha base (len payload) (offset base [payload]) (len frame));
    (env, SessionOpen hb (offset base [payload]) (len payload + DATA_OVERHEAD)
            (offset base [payload; frame]) (len out)) ].

(** A message sealed by one handle into a frame the other opens, up to the
    outcome of opening. *)
Lemma message_run `{CL : CryptoLaws} env w ha hb base payload frame out k a b :
  owns [] w -> 0 < base -> blocks (w_mem w) base [payload; frame; out] ->
  boxed w ha = Some a -> boxed w hb = Some b -> ha <> hb ->
  in_step k a b -> s_padding a = false -> s_send_seq a <> U64_MAX ->
  len payload <= AEAD_MAX -> len payload + DATA_OVERHEAD <= len frame ->
  exists w1 a' b' f o tail,
    exec env (SessionSeal ha base (len payload) (offset base [payload]) (len frame)) w
      = Some (w1, len payload + DATA_OVERHEAD) /\
    owns [] w1 /\ boxed w1 hb = Some b /\ boxed w1 ha = Some a' /\ hb <> null /\
    blocks (w_mem w1) base [payload; f; out] /\
    buffers (offset base [payload]) (len payload + DATA_OVERHEAD) (offset base [payload; frame]) (len out) w1
      = Some (w1, Some (takez (len payload + DATA_OVERHEAD) f, out)) /\
    offset base [payload; f] = offset base [payload; frame] /\
    Session.open b (takez (len payload + DATA_OVERHEAD) f) =
      (b', Ok (o, Header.wire (frame_header a Data None None 0 PadNone) ++ payload ++ tail)) /\
    o_len o = len payload /\ in_step k a' b'.
Proof.
  intros Hw Hbase Hb Ha Hbb Hne Hstep Hpad Hmax Hae Hlen. pose proof (len_nonneg payload).
  apply boxed_lookup in Ha as Ha'. destruct (own_handles _ _ Hw _ _ Ha') as [Hlta _].
  apply boxed_lookup in Hbb as Hb'. destruct (own_handles _ _ Hw _ _ Hb') as [Hltb _].
  destruct (step_exchange k a b Data payload None None 0 PadNone frame (len payload))
    as (a' & b' & f & tail & Hseal & Hopen & Hstep' & _); try done; [by left|].
  pose proof (seal_within a Data payload 0 frame) as [_ Hwithin].
  unfold Session.seal_frame in Hwithin. rewrite Hpad, Hseal in Hwithin.
  destruct (Hwithin _ _ eq_refl) as [Hf _].
  assert (buffers base (len payload) (offset base [payload]) (len frame) w = Some (w, Some (payload, frame)))
    as Hbor.
  { pose proof (borrow_forward w base [] payload [] frame [out] (len payload) Hbase Hb ltac:(lia)) as X.
    by rewrite takez_all in X by lia. }
  destruct (seal_exact (env_left env) w ha a a' base (len payload) (offset base [payload])
    (len frame) payload frame f (len payload + DATA_OVERHEAD)) as (w1 & E1 & Ho1 & Hb1 & Hm1 & _);
    [done|clia|done|done| |clia|].
  { unfold Session.seal, Session.seal_frame. by rewrite Hpad. }
  assert (blocks (w_mem w1) base [payload; f; out]) as Hbl.
  { rewrite Hm1. by apply (blocks_write _ base [payload] frame f). }
  exists w1, a', b', f. do 2 eexists. split; [exact E1|]. split; [done|].
  split_and!; [|apply boxed_lookup; by rewrite Hb1, lookup_insert_eq|clia|done| |cbn; lia|exact Hopen|done|done].
  - apply boxed_lookup. by rewrite Hb1, lookup_insert_ne.
  - pose proof (borrow_forward w1 base [payload] f [] out [] (len payload + DATA_OVERHEAD) Hbase Hbl
      ltac:(clia)) as X. cbn in *. by rewrite Hf in X.
Qed.

(** Two live sessions in step, and buffers for one message. *)
Definition toy_sessions (mem : Memory) : World :=
  mkWorld (<[1 := BoxSession toy_sender]> (<[2 := BoxSession toy_sender]> ∅)) ∅ 3 [] mem ∅.

Lemma toy_sessions_owns mem : owns [] (toy_sessions mem).
Proof.
  constructor; cbn; try done.
  - intros h o [[<- <-]|[_ [[<- <-]|[_ Ho]]%lookup_insert_Some]]%lookup_insert_Some; by try lia.
  - intros h o x [[<- <-]|[_ [[<- <-]|[_ Ho]]%lookup_insert_Some]]%lookup_insert_Some; try done;
      by intros ?%elem_of_nil.
  - by intros x ?%elem_of_nil.
  - by intros x ?%elem_of_nil.
Qed.

(** what one C session seals the other opens. Two handles whose sessions
    are in step, a payload, a frame buffer with room for the overhead and an
    output buffer with room for the payload: sealing reports the payload's
    length and thirty bytes, opening that frame reports the payload's length,
    the payload is in the output buffer and the sessions are in step again. *)
Theorem ffi_message_roundtrip `{CL : CryptoLaws} env w ha hb base payload frame out k a b :
  owns [] w -> 0 < base -> blocks (w_mem w) base [payload; frame; out] ->
  boxed w ha = Some a -> boxed w hb = Some b -> ha <> hb ->
  in_step k a b -> s_padding a = false -> s_send_seq a <> U64_MAX ->
  len payload <= AEAD_MAX -> len payload + DATA_OVERHEAD <= len frame -> len payload <= len out ->
  exists w' a' b',
    run (message_calls env ha hb base payload frame out) w
      = Some (w', [len payload + DATA_OVERHEAD; len payload]) /\
    read_bytes (w_mem w') (offset base [payload; frame]) (len payload) = Some payload /\
    boxed w' ha = Some a' /\ boxed w' hb = Some b' /\ in_step k a' b'.
Proof.
  intros Hw Hbase Hb Ha Hbb Hne Hstep Hpad Hmax Hae Hlen Hout.
  destruct (message_run env w ha hb base payload frame out k a b)
    as (w1 & a' & b' & f & o & tail & E1 & Ho1 & B1 & A1 & Hn & Hbl & Hbor & Hoff & Hopen & Hol & Hstep');
    [done..|].
  pose proof (open_exact w1 hb b b' _ _ _ _ _ _ o _ payload tail Ho1 Hn B1 Hbor Hopen
    (len_header_wire _) Hol) as E2. rewrite (proj2 (Z.ltb_ge _ _)) in E2 by done.
  unfold length_code in E2. pose proof (len_nonneg payload). rewrite (proj2 (Z.leb_le _ _)) in E2 by clia.
  eexists _, a', b'. split; [eapply run_cons; [exact E1|]; eapply run_cons; [exact E2|reflexivity]|].
  split; [|split; [|split; [|done]]].
  - cbn [set_mem w_mem]. rewrite read_write_prefix by len_lia. by rewrite takez_app.
  - apply boxed_lookup. cbn. rewrite lookup_insert_ne by done. exact (proj1 (boxed_lookup w1 ha a') A1).
  - apply boxed_lookup. cbn. by rewrite lookup_insert_eq.
Qed.

Lemma ffi_message_roundtrip_witness :
  exists w' a' b',
    run (message_calls toy_env 1 2 1000 (fives 4) (fives 40) (fives 9)) (toy_sessions toy_mem)
      = Some (w', [34; 4]) /\
    read_bytes (w_mem w') 1044 4 = Some (fives 4) /\
    boxed w' 1 = Some a' /\ boxed w' 2 = Some b' /\ in_step (zeros 32) a' b'.
Proof.
  apply (ffi_message_roundtrip toy_env (toy_sessions toy_mem) 1 2 1000 (fives 4) (fives 40) (fives 9)
    (zeros 32) toy_sender toy_sender);
    [exact (toy_sessions_owns toy_mem)|lia| |reflexivity|reflexivity|lia|exact toy_in_step|reflexivity
    |discriminate|vm_compute; discriminate|vm_compute; discriminate|vm_compute; discriminate].
  cbn [blocks]. repeat split; vm_compute; reflexivity.
Defined.

(** a buffer too small costs the message. Opening an authentic frame into
    a shorter buffer returns [FECTP_ERR_BUFFER] and leaves the host's memory as
    it was, but the session has accepted the frame's number: opening the same
    frame again, with any buffer, is [FECTP_ERR_PROTOCOL] and changes
    nothing. *)
Theorem small_buffer_loses_message `{CL : CryptoLaws} env w ha hb base payload frame out k a b :
  owns [] w -> 0 < base -> blocks (w_mem w) base [payload; frame; out] ->
  boxed w ha = Some a -> boxed w hb = Some b -> ha <> hb ->
  in_step k a b -> s_padding a = false -> s_send_seq a <> U64_MAX ->
  len payload <= AEAD_MAX -> len payload + DATA_OVERHEAD <= len frame -> len out < len payload ->
  exists w1 f w2,
    exec env (SessionSeal ha base (len payload) (offset base [payload]) (len frame)) w
      = Some (w1, len payload + DATA_OVERHEAD) /\
    read_bytes (w_mem w1) (offset base [payload]) (len payload + DATA_OVERHEAD) = Some f /\
    exec env (SessionOpen hb (offset base [payload]) (len payload + DATA_OVERHEAD)
                (offset base [payload; frame]) (len out)) w1 = Some (w2, FECTP_ERR_BUFFER) /\
    w_mem w2 = w_mem w1 /\
    (bytes_ok f -> forall op ol buf,
       buffers (offset base [payload]) (len payload + DATA_OVERHEAD) op ol w2 = Some (w2, Some (f, buf)) ->
       exec env (SessionOpen hb (offset base [payload]) (len payload + DATA_OVERHEAD) op ol) w2
         = Some (w2, FECTP_ERR_PROTOCOL)).
Proof.
  intros Hw Hbase Hb Ha Hbb Hne Hstep Hpad Hmax Hae Hlen Hout.
  destruct (message_run env w ha hb base payload frame out k a b)
    as (w1 & a' & b' & f & o & tail & E1 & Ho1 & B1 & A1 & Hn & Hbl & Hbor & Hoff & Hopen & Hol & Hstep');
    [done..|].
  pose proof (open_exact w1 hb b b' _ _ _ _ _ _ o _ payload tail Ho1 Hn B1 Hbor Hopen
    (len_header_wire _) Hol) as E2. rewrite (proj2 (Z.ltb_lt _ _)) in E2 by done.
  exists w1, (takez (len payload + DATA_OVERHEAD) f). eexists. split; [exact E1|].
  assert (len f = len frame) as Hf by (cbn in Hoff; lia). pose proof (len_nonneg payload).
  split; [by apply (block_read _ base [payload] f [out]); [|clia]|].
  split; [exact E2|]. split; [done|]. intros Hok op ol buf Hbuf.
  destruct (reopen_refused b _ b' o _ Hok Hopen) as (e & Hre & Hcode).
  cbn [exec]. unfold fectp_session_open, guard. rewrite (proj2 (Z.eqb_neq _ _)) by done.
  unfold act_bind at 1 2 3. erewrite deref_ok by (apply boxed_lookup; cbn; by rewrite lookup_insert_eq).
  rewrite Hbuf, Hre. unfold act_bind, assign, act_ret. cbn [set_boxes w_boxes]. rewrite Hcode.
  rewrite insert_insert_eq. done.
Qed.

Lemma small_buffer_loses_message_witness :
  exists w1 f w2,
    exec toy_env (SessionSeal 1 1000 4 1004 40) (toy_sessions toy_mem) = Some (w1, 34) /\
    read_bytes (w_mem w1) 1004 34 = Some f /\
    exec toy_env (SessionOpen 2 1004 34 1044 3) w1 = Some (w2, FECTP_ERR_BUFFER) /\ w_mem w2 = w_mem w1.
Proof.
  destruct (small_buffer_loses_message toy_env (toy_sessions toy_mem) 1 2 1000 (fives 4) (fives 40) (fives 3)
    (zeros 32) toy_sender toy_sender) as (w1 & f & w2 & E1 & Hf & E2 & Hm & _);
    [exact (toy_sessions_owns toy_mem)|lia| |reflexivity|reflexivity|lia|exact toy_in_step|reflexivity
    |discriminate|vm_compute; discriminate|vm_compute; discriminate|vm_compute; reflexivity|].
  { cbn [blocks]. repeat split; vm_compute; reflexivity. }
  exists w1, f, w2. split; [exact E1|]. split; [exact Hf|]. split; [exact E2|exact Hm].
Defined.
